(* ===== verification/_CoqProject ===== *)
-Q . S2P
Prelude.v
Dag.v
IncrementalMissing.v
LazyAncestors.v
CommonAncestors.v
SmartSet.v
FilteredSet.v
BaseSet.v
AddSet.v
GeneratorSet.v
SpanSet.v
Lines.v
Bdiff.v
SimpleMerge.v
Struct.v
Mpatch.v
Delta.v
RevlogGraph.v
NodesBetween.v
PyFormat.v
UnifiedDiff.v
PatchHunk.v
Base85.v
BinaryPatch.v
PatchFile.v
TopoSort.v
ReachableRoots.v
RevWalk.v
Bisect.v
DirstateFile.v
IndexFile.v
LruCache.v
NodeCache.v
DeltaChain.v
StripPoint.v
PyEscape.v
Pratt.v
RevsetTokens.v
ParserTree.v
RevsetLang.v
RevsetTypes.v
RevsetOptimize.v
FormatSpec.v
DagUtil.v
SetDiscovery.v
FindCommonHeads.v
ManifestText.v
LazyManifest.v
LazyText.v
Phases.v
Transaction.v
TransactionPlay.v
TransactionSafety.v
TransactionRollback.v
StoreNames.v
StorePath.v
StoreSafety.v
FnCache.v
MergeActions.v
MergeSpec.v
MergeAuction.v
