(* ===== verification/Prelude.v ===== *)
(** * Verification library for the core of EdenSCM

    EdenSCM is the source control client under src/eden/scm.  This library
    models the Python code of src/eden/scm/edenscm/mercurial that computes with
    revision graphs, queries, manifests, merges, lines, deltas and patches, and
    that keeps them in the store, and proves that it does what its callers rely
    on.

    ** Parts of the program and the files that model them

    - Revision graph.  Revisions are numbers, [nullrev] is -1, and a revlog's
      index gives each revision two parents that are smaller than it.
      [Dag] models the parent lookup of pure/parsers.py and revlog.py and the
      ancestor relation the other files are specified with.
    - Ancestor queries (ancestor.py).  [CommonAncestors] is the bit-mask sweep
      of [commonancestorsheads]; [IncrementalMissing] is
      [incrementalmissingancestors]; [LazyAncestors] is [lazyancestors] with
      its iterator and the heap that membership tests share.
    - Graph operations of revlog.py, which call the queries above.
      [RevlogGraph]: [ancestors], [descendants], [findcommonmissing],
      [headrevs], [heads], [isancestor]; [NodesBetween]: [nodesbetween], with
      the order in which Python pops sets as a parameter.
    - Graph walks (dagop.py, hbisect.py).  [TopoSort]: [toposort], which groups
      branches for display; [ReachableRoots]: [reachableroots]; [RevWalk]:
      [revancestors] and [revdescendants] with depth limits; [Bisect]: the choice
      of the next revision of a bisection.
    - The index of a revlog (pure/parsers.py, revlog.py).  [IndexFile] packs and
      opens index files and models the two index objects, whose abstraction is a
      list of entries; [Dag] reads the parent fields of that list.  [NodeCache]
      looks nodes up through the partial scan and the dictionaries that share
      it; [DeltaChain] is [chainbase], [_chaininfo] and [_deltachain], and keeps
      chain bases in the cache of [LruCache]; [StripPoint] is [getstrippoint].
    - [LruCache] (util.py): [lrucachedict] with its doubly linked ring of nodes.
    - [DirstateFile] (pure/parsers.py): the dirstate file.
    - Lazy revision sets (smartset.py).  [SmartSet] states the contract of
      [abstractsmartset] as a type class; [BaseSet], [FilteredSet], [AddSet],
      [GeneratorSet] and [SpanSet] implement it.  Caches and iteration state
      are explicit fields.
    - The query language (parser.py, revsetlang.py).  [PyEscape]: string
      escapes; [Pratt]: the operator precedence parser with its grammar;
      [RevsetTokens]: the tokenizer; [ParserTree]: patterns and templates of
      trees; [RevsetLang]: parsing, folding, analysis and optimisation of queries;
      [RevsetTypes] and [RevsetOptimize]: the types of the trees between these
      phases; [FormatSpec]: queries built from templates.
    - Discovery (setdiscovery.py, dagutil.py).  [DagUtil]: the views of the
      graph; [SetDiscovery]: sampling and the exchange of questions with a
      server; [FindCommonHeads]: the result.
    - Manifests (manifest.py).  [ManifestText]: the text format; [LazyManifest]:
      [_lazymanifest], which edits a text in place; [LazyText]: what it
      refines, and its text.
    - Merging (merge.py).  [MergeActions]: [manifestmerge],
      [_checkunknownfiles], [calculateupdates] with the bids of several
      ancestors; [MergeSpec]: the three-way merge they implement for one
      ancestor; [MergeAuction]: for several.
    - [Phases] (phases.py): reading phases and moving their boundaries.
    - Transactions (transaction.py).  [Transaction]: the object with its
      journals; [TransactionPlay]: playing a journal back;
      [TransactionSafety]: the invariant of a running transaction;
      [TransactionRollback]: abort, commit and recovery after a crash.
    - The store (store.py).  [StoreNames]: the codes for file names;
      [StorePath]: paths in the store; [StoreSafety]: that they can be used and
      are not shared; [FnCache]: the list of the files.
    - Lines and matching (mdiff.py, pure/bdiff.py).  [Lines]: lists of lines,
      slices and [splitnewlines]; [Bdiff]: normalisation of matching blocks.
      The matcher of difflib is a parameter.
    - Three-way merge of texts (simplemerge.py): [SimpleMerge].
    - Binary deltas (pure/mpatch.py, pure/bdiff.py): [Struct] is the part of
      the struct module in use (also by the index and dirstate files), [Mpatch]
      the fragment based patcher with its memory buffer, [Delta] the delta writer
      and the round trip.
    - Diff and patch (mdiff.py, patch.py, pure/diffhelpers.py): [PyFormat]
      prints and reads numbers, [UnifiedDiff] writes unified diffs,
      [PatchHunk] reads hunks from a line reader, [PatchFile] applies them with
      offsets and fuzz.
    - Binary patches (pure/base85.py, mdiff.py, patch.py): [Base85] is the
      codec, [BinaryPatch] writes and reads binary hunks and executes git
      deltas; zlib is a class with its round trip law.

    ** How the code is represented

    An exception is a value of [pyerr]; code that may raise returns [res] and is
    sequenced with [let*].  Python integers are [Z]; sets are [gset Z] and
    dictionaries [gmap] or association lists where their order is observed;
    strings are lists of [ascii].  An object that is mutated is a record that
    every method returns updated.  Where the result could depend on the order in
    which Python iterates over a set or a dictionary, the order is a parameter
    that is only known to be a permutation.

    Loops over a known list are structural; other loops take fuel, and the
    theorems about them show that the fuel given by the definition is enough, so
    [OutOfFuel] is never the result.  The fuel is the number of revisions for
    graph walks and delta chains (in [RevWalk], which can meet a revision once
    for each depth, the number of paths, bounded by [walk_weight]), the number of
    edges in the views of [DagUtil], the number of undecided nodes for discovery,
    the length of the input for readers, the number of lines for diffs, the
    number of tokens for parsing, twice to four times the size of the tree for
    the phases of a query, the number of positions for the search and the
    compaction of a manifest, and the number of nodes for the ring of
    [LruCache].  Two readers have no fuel that is always enough, because the code
    does not end on some inputs: the scans of inline indexes and of the dirstate
    file; lemmas show such inputs, and the round trips that written files are
    read.

    A method that changes its object and may raise is a function to the new
    object and a [res] (in [NodeCache] and [Transaction] a small monad), so an
    exception keeps what was changed before it.  Nodes that point to each other
    are addresses, with one map for each attribute; two names of one dictionary
    are modelled as such.

    The files of [Transaction] are a map from location and path to contents;
    single operations are atomic, a hard link is a copy, and files are missing
    or can be used.  Its theorems are about clients that register what they
    change.  SHA-1 is a class with the form of its digests as its law; the
    manifests of [MergeActions] are finite maps from paths to nodes and flags, and
    what [copies.mergecopies] finds and the checks for untracked files are
    parameters.

    ** What the theorems show

    - Graph queries return exactly the set their documentation names, for every
      graph in which parents precede children, and always terminate.
    - Every lazy set refines one sequence of revisions: the observers agree with
      it in both directions, and lazily filled caches never change an answer.
      The optimised set operations equal the generic ones.
    - The parser accepts exactly the phrases of the grammar of its operators;
      the phases of a query are type safe; patterns and templates are inverse;
      an argument that is quoted stays one string.
    - Discovery ends and finds exactly the revisions that are common.
    - Objects with hidden state refine a plain value: any sequence of operations
      on an index object, on the cache, on the node table, on the delta chains,
      on a lazy manifest or on the list of store files answers as on a list, a
      map or a set.
    - Phases move exactly as asked; a bisection splits its candidates as evenly
      as possible and ends.
    - A merge chooses for each file the outcome of the three-way merge, and
      stops exactly when it would lose an untracked file (without the check for
      path conflicts, which is off by default); with several ancestors it chooses
      the outcome for one of them.
    - Transactions are all or nothing: after an abort, or after a crash or a failed
      abort and recovery, the files are what the transaction has noted for them,
      which is what they were when they were noted before they changed; after a
      commit nothing of the journal is left.
    - The path of a file in the store is short and valid on every file system,
      and belongs to no other file unless digests collide.
    - Merge regions tile the three texts; a merge with an unchanged side gives
      the other side.
    - Round trips: index files, the dirstate file, manifests, names of store
      files, splitting and joining lines, delta and patch, unified diff and patch,
      base85, binary diff and binary hunk.
    - Outcomes: applying a hunk changes one region or nothing, unless earlier hunks
      have moved its place before the start of the file, which hunks in order
      cannot do; the binary readers terminate on every input and raise only the errors listed.
    - Where the code does not do what its comments say, a lemma next to the
      theorem shows the input that separates the two.

    ** Not modelled

    The user interface, command line and configuration; locks and the access to
    the file system; the wire protocol, the older discovery (treediscovery.py)
    and the exchange of changes; the working copy and file logs, whose storage is
    native code; bookmarks, obsolescence and mutation; extensions; the C++ daemon
    and the Rust and C libraries.  In the modelled files: the [deepest] selection
    of [ancestors] in ancestor.py, sets backed by native bindings, context hunks,
    the interactive parts of patch.py, the walks of dagop.py over file contents;
    in revlog.py the reading and writing of revision data, the choice of delta
    bases and the transaction side of [strip]; of the query language aliases, the
    predicates themselves, and the file sets and templates that share its parser;
    tree manifests and manifest revlogs; phases derived from visible heads; in
    merge.py the narrowing by a sparse profile, path conflicts, case folding, the
    application of the actions and the merge state; of the store the walks of
    the plain stores and the metadata log.  The heads of the native index that
    [getstrippoint] asks for are a parameter with their documented meaning. *)

From Stdlib Require Export ZArith Lia.
From stdpp Require Export sorting strings numbers list gmap.

Declare Scope hg_scope.
Delimit Scope hg_scope with hg.
Open Scope hg_scope.
Open Scope Z_scope.

Create HintDb hg.

(** ** Errors *)

(** Exceptions raised by the modelled Python code, as values. *)
Inductive pyerr :=
  | Abort (msg : string)
  | ValueError
  | KeyError
  | IndexError
  | AssertionError
  | ProgrammingError
  | StopIteration
  | StructError
  | TypeError
  | AttributeError
  | LookupError
  | WdirUnsupported
  | PatchError (msg : string)
  | DecodeError (msg : string)
  | ParseError (msg : string) (pos : option Z)
  | RevlogError (msg : string)
  | RepoError (msg : string)
  | OSError
  | OutOfFuel.

Inductive res (A : Type) :=
  | Ok (a : A)
  | Err (e : pyerr).
Arguments Ok {A} a.
Arguments Err {A} e.

Definition rbind {A B} (m : res A) (k : A -> res B) : res B :=
  match m with Ok a => k a | Err e => Err e end.

Notation "'let*' x := m 'in' k" := (rbind m (fun x => k))
  (at level 10, x pattern, m at level 100, k at level 200) : hg_scope.

#[export] Instance pyerr_eq_dec : EqDecision pyerr.
Proof. solve_decision. Defined.

Lemma rbind_Ok {A B} (m : res A) (k : A -> res B) b :
  rbind m k = Ok b <-> exists a, m = Ok a /\ k a = Ok b.
Proof. destruct m; simpl; naive_solver. Qed.

(** ** Revision numbers *)

(** [nullrev] of node.py. *)
Definition nullrev : Z := -1.

(** ** Python ranges *)

(** [range(a, b)] *)
Definition zrange (a b : Z) : list Z := seqZ a (b - a).

(** [range(a, b, -1)]: a, a-1, ..., b+1 *)
Fixpoint down_from (a : Z) (n : nat) : list Z :=
  match n with O => [] | S n => a :: down_from (a - 1) n end.

Definition zrange_down (a b : Z) : list Z := down_from a (Z.to_nat (a - b)).

Lemma elem_of_zrange a b x : x ∈ zrange a b <-> a <= x < b.
Proof. unfold zrange. rewrite elem_of_seqZ. lia. Qed.

Lemma elem_of_down_from a n x : x ∈ down_from a n <-> a - Z.of_nat n < x <= a.
Proof.
  revert a. induction n as [|n IH]; intros a; simpl.
  - split; [intros H; inversion H | lia].
  - rewrite elem_of_cons, IH. lia.
Qed.

Lemma elem_of_zrange_down a b x : x ∈ zrange_down a b <-> b < x <= a.
Proof. unfold zrange_down. rewrite elem_of_down_from. lia. Qed.

Lemma length_zrange a b : length (zrange a b) = Z.to_nat (b - a).
Proof. unfold zrange. by rewrite length_seqZ. Qed.

Lemma zrange_nil a b : b <= a -> zrange a b = [].
Proof. intros. unfold zrange. apply seqZ_nil. lia. Qed.

Lemma zrange_cons a b : a < b -> zrange a b = a :: zrange (a + 1) b.
Proof. intros. unfold zrange. rewrite seqZ_cons by lia. do 2 f_equal; lia. Qed.

Lemma zrange_app a b c : a <= b <= c -> zrange a c = zrange a b ++ zrange b c.
Proof.
  intros. unfold zrange.
  replace (c - a) with ((b - a) + (c - b)) by lia.
  rewrite seqZ_app by lia. do 2 f_equal; lia.
Qed.

Lemma zrange_snoc a b : a <= b -> zrange a (b + 1) = zrange a b ++ [b].
Proof.
  intros. rewrite (zrange_app a b) by lia. f_equal.
  rewrite zrange_cons by lia. by rewrite zrange_nil by lia.
Qed.

Lemma zrange_down_nil a b : a <= b -> zrange_down a b = [].
Proof. intros. unfold zrange_down. by replace (Z.to_nat (a - b)) with O by lia. Qed.

Lemma zrange_down_cons a b : b < a -> zrange_down a b = a :: zrange_down (a - 1) b.
Proof.
  intros. unfold zrange_down.
  replace (Z.to_nat (a - b)) with (S (Z.to_nat (a - 1 - b))) by lia. done.
Qed.

(** Descending ranges are the reversal of ascending ones. *)
Lemma zrange_down_rev a b : zrange_down (b - 1) (a - 1) = rev (zrange a b).
Proof.
  destruct (decide (b <= a)) as [Hab|Hab].
  { by rewrite zrange_down_nil, zrange_nil by lia. }
  assert (exists n, b = a + Z.of_nat n) as [n ->].
  { exists (Z.to_nat (b - a)). lia. }
  clear. induction n as [|n IH].
  - by rewrite zrange_down_nil, zrange_nil by lia.
  - replace (a + Z.of_nat (S n)) with ((a + Z.of_nat n) + 1) by lia.
    rewrite zrange_snoc by lia. rewrite rev_app_distr. simpl.
    rewrite zrange_down_cons by lia.
    f_equal; [lia|]. by rewrite Z.add_simpl_r.
Qed.

Lemma elem_of_rev {A} (x : A) l : x ∈ rev l <-> x ∈ l.
Proof. by rewrite !list_elem_of_In, <- in_rev. Qed.

Lemma list_filter_iff_in {A} (P Q : A -> Prop) `{forall x, Decision (P x)}
    `{forall x, Decision (Q x)} (l : list A) :
  Forall (fun x => P x <-> Q x) l -> filter P l = filter Q l.
Proof.
  induction 1 as [|x l Hx Hl IH]; [done|]. rewrite !filter_cons, IH.
  destruct (decide (P x)), (decide (Q x)); tauto || done.
Qed.

(** ** Sorting integers *)

(** [sorted(l)] *)
Definition zsort (l : list Z) : list Z := merge_sort Z.le l.

(** Strictly ascending and strictly descending sequences. *)
Notation ascending := (StronglySorted Z.lt).
Notation descending := (StronglySorted Z.gt).

#[export] Instance Zle_total : Total Z.le.
Proof. intros x y. lia. Qed.

Lemma zsort_perm l : zsort l ≡ₚ l.
Proof. apply merge_sort_Permutation. Qed.

Lemma elem_of_zsort l x : x ∈ zsort l <-> x ∈ l.
Proof. by rewrite zsort_perm. Qed.

Lemma length_zsort l : length (zsort l) = length l.
Proof. by rewrite zsort_perm. Qed.

Lemma zsort_le_sorted l : StronglySorted Z.le (zsort l).
Proof. apply StronglySorted_merge_sort; apply _. Qed.

Lemma le_sorted_ascending l : StronglySorted Z.le l -> NoDup l -> ascending l.
Proof.
  induction 1 as [|x l Hs IH Hx]; intros Hnd; constructor.
  - apply IH. by inversion Hnd.
  - apply NoDup_cons in Hnd as [Hn _].
    rewrite Forall_forall in *. intros y Hy.
    specialize (Hx y Hy). assert (x ≠ y) by congruence. lia.
Qed.

Lemma zsort_ascending l : NoDup l -> ascending (zsort l).
Proof.
  intros. apply le_sorted_ascending; [apply zsort_le_sorted|]. by rewrite zsort_perm.
Qed.

Lemma ascending_NoDup l : ascending l -> NoDup l.
Proof.
  induction 1 as [|x l Hs IH Hx]; constructor; [|done].
  intros Hin. rewrite Forall_forall in Hx. specialize (Hx x Hin). lia.
Qed.

Lemma descending_NoDup l : descending l -> NoDup l.
Proof.
  induction 1 as [|x l Hs IH Hx]; constructor; [|done].
  intros Hin. rewrite Forall_forall in Hx. specialize (Hx x Hin). lia.
Qed.

Lemma StronglySorted_snoc {A} (R : relation A) l x :
  StronglySorted R l -> Forall (fun y => R y x) l -> StronglySorted R (l ++ [x]).
Proof.
  induction 1 as [|y l Hs IH Hy]; intros HF; simpl.
  - constructor; constructor.
  - apply Forall_cons in HF as [? ?]. constructor; [auto|].
    apply Forall_app; split; [done|]. by constructor.
Qed.

Lemma StronglySorted_rev {A} (R : relation A) l :
  StronglySorted R l -> StronglySorted (flip R) (rev l).
Proof.
  induction 1 as [|y l Hs IH Hy]; simpl; [constructor|].
  apply StronglySorted_snoc; [done|]. apply Forall_rev. exact Hy.
Qed.

Lemma StronglySorted_weaken {A} (R R' : relation A) l :
  (forall x y, R x y -> R' x y) -> StronglySorted R l -> StronglySorted R' l.
Proof.
  induction 2 as [|y l Hs IH Hy]; constructor; [done|].
  eapply Forall_impl; [exact Hy|]. auto.
Qed.

Lemma ascending_rev l : ascending l -> descending (rev l).
Proof.
  intros H%StronglySorted_rev. eapply StronglySorted_weaken; [|exact H].
  unfold flip; intros; lia.
Qed.

Lemma descending_rev l : descending l -> ascending (rev l).
Proof.
  intros H%StronglySorted_rev. eapply StronglySorted_weaken; [|exact H].
  unfold flip; intros; lia.
Qed.

Lemma StronglySorted_filter {A} (R : relation A) (P : A -> Prop) `{forall x, Decision (P x)} l :
  StronglySorted R l -> StronglySorted R (filter P l).
Proof.
  induction 1 as [|y l Hs IH Hy]; [constructor|].
  rewrite filter_cons. destruct (decide (P y)); [|done].
  constructor; [done|]. rewrite Forall_forall in *.
  intros z [_ Hz]%list_elem_of_filter. auto.
Qed.

(** An ascending list is determined by its elements. *)
Lemma ascending_ext l1 l2 :
  ascending l1 -> ascending l2 -> (forall x, x ∈ l1 <-> x ∈ l2) -> l1 = l2.
Proof.
  intros H1. revert l2.
  induction H1 as [|x l1 Hs1 IH Hx]; intros l2 H2 Hext.
  - destruct l2 as [|y l2]; [done|].
    exfalso. apply (not_elem_of_nil y), Hext. by left.
  - destruct H2 as [|y l2 Hs2 Hy].
    { exfalso. apply (not_elem_of_nil x), Hext. by left. }
    rewrite Forall_forall in Hx, Hy.
    assert (x = y) as ->.
    { destruct (proj1 (elem_of_cons l2 x y) (proj1 (Hext x) (list_elem_of_here _ _))) as [|Hxy]; [done|].
      destruct (proj1 (elem_of_cons l1 y x) (proj2 (Hext y) (list_elem_of_here _ _))) as [|Hyx]; [done|].
      specialize (Hx y Hyx). specialize (Hy x Hxy). lia. }
    f_equal. apply IH; [done|]. intros z. split; intros Hz.
    + assert (z ∈ y :: l2) as [->|]%elem_of_cons by (apply Hext; by right); [|done].
      specialize (Hx y Hz). lia.
    + assert (z ∈ y :: l1) as [->|]%elem_of_cons by (apply Hext; by right); [|done].
      specialize (Hy y Hz). lia.
Qed.

Lemma descending_ext l1 l2 :
  descending l1 -> descending l2 -> (forall x, x ∈ l1 <-> x ∈ l2) -> l1 = l2.
Proof.
  intros H1 H2 He. rewrite <- (rev_involutive l1), <- (rev_involutive l2). f_equal.
  apply ascending_ext; [by apply descending_rev..|]. intros x. by rewrite !elem_of_rev.
Qed.

Lemma zrange_ascending a b : ascending (zrange a b).
Proof.
  destruct (decide (b <= a)) as [Hab|Hab]; [rewrite zrange_nil by done; constructor|].
  assert (exists n, b = a + Z.of_nat n) as [n ->].
  { exists (Z.to_nat (b - a)). lia. }
  clear. revert a. induction n as [|n IH]; intros a.
  - rewrite zrange_nil by lia. constructor.
  - rewrite zrange_cons by lia.
    replace (a + Z.of_nat (S n)) with ((a + 1) + Z.of_nat n) by lia.
    constructor; [apply IH|]. apply Forall_forall. intros x.
    rewrite elem_of_zrange. lia.
Qed.

#[export] Hint Resolve zrange_ascending zsort_ascending ascending_rev descending_rev
  ascending_NoDup descending_NoDup StronglySorted_filter : hg.

(** ** Maxima and minima of collections of revisions *)

(** [max(l)] of a non-empty collection; [d] is returned for an empty one. *)
Fixpoint zmax_list (d : Z) (l : list Z) : Z :=
  match l with [] => d | [x] => x | x :: l => Z.max x (zmax_list d l) end.

Fixpoint zmin_list (d : Z) (l : list Z) : Z :=
  match l with [] => d | [x] => x | x :: l => Z.min x (zmin_list d l) end.

Lemma zmax_list_ge d l x : x ∈ l -> x <= zmax_list d l.
Proof.
  induction l as [|y [|z l] IH]; intros Hin.
  - inversion Hin.
  - apply list_elem_of_singleton in Hin as ->. simpl. lia.
  - apply elem_of_cons in Hin as [->|Hin]; [simpl; lia|].
    specialize (IH Hin). cbn [zmax_list] in *. lia.
Qed.

Lemma zmax_list_in d l : l ≠ [] -> zmax_list d l ∈ l.
Proof.
  induction l as [|y [|z l] IH]; intros Hn; [done|by left|].
  specialize (IH ltac:(done)). cbn [zmax_list] in *.
  destruct (Z.max_spec y (zmax_list d (z :: l))) as [[_ E]|[_ E]]; cbn [zmax_list] in E; rewrite E.
  - by right.
  - by left.
Qed.

Lemma zmin_list_le d l x : x ∈ l -> zmin_list d l <= x.
Proof.
  induction l as [|y [|z l] IH]; intros Hin.
  - inversion Hin.
  - apply list_elem_of_singleton in Hin as ->. simpl. lia.
  - apply elem_of_cons in Hin as [->|Hin]; [simpl; lia|].
    specialize (IH Hin). cbn [zmin_list] in *. lia.
Qed.

Lemma zmin_list_in d l : l ≠ [] -> zmin_list d l ∈ l.
Proof.
  induction l as [|y [|z l] IH]; intros Hn; [done|by left|].
  specialize (IH ltac:(done)). cbn [zmin_list] in *.
  destruct (Z.min_spec y (zmin_list d (z :: l))) as [[_ E]|[_ E]]; cbn [zmin_list] in E; rewrite E.
  - by left.
  - by right.
Qed.

(** [max(s)] and [min(s)] of a set of revisions ([nullrev] when empty). *)
Definition zmax_set (s : gset Z) : Z := zmax_list nullrev (elements s).
Definition zmin_set (s : gset Z) : Z := zmin_list nullrev (elements s).

Lemma zmax_set_ge s x : x ∈ s -> x <= zmax_set s.
Proof. intros. apply zmax_list_ge. by apply elem_of_elements. Qed.

Lemma zmin_set_le s x : x ∈ s -> zmin_set s <= x.
Proof. intros. apply zmin_list_le. by apply elem_of_elements. Qed.

Lemma zmax_set_in s : s ≠ ∅ -> zmax_set s ∈ s.
Proof.
  intros. apply elem_of_elements, zmax_list_in.
  intros E%elements_empty_inv. set_solver.
Qed.

Lemma zmin_set_in s : s ≠ ∅ -> zmin_set s ∈ s.
Proof.
  intros. apply elem_of_elements, zmin_list_in.
  intros E%elements_empty_inv. set_solver.
Qed.
