(* ===== verification/Dag.v ===== *)
(** * The revision graph

    The graph algorithms of ancestor.py, dagutil.py, hbisect.py and
    setdiscovery.py receive a function from a revision to its parents
    ([pfunc]).  This file fixes what a revlog promises to them (the class
    [RevDag]: a parent is the null revision or has a smaller number), the
    ancestor relation the theorems speak about, and the concrete index-backed
    instance [revlog.parentrevs]. *)

From S2P Require Import Prelude.

Section ancestry.
Context (pfunc : Z -> list Z).

(** One parent edge, the null revision left out. *)
Definition parent (r p : Z) : Prop := p ∈ pfunc r /\ p ≠ nullrev.

(** [anc a r]: [a] is [r] or a proper ancestor of it. *)
Definition anc (a r : Z) : Prop := rtc parent r a.

(** [sanc a r]: [a] is a proper ancestor of [r]. *)
Definition sanc (a r : Z) : Prop := tc parent r a.

(** [a] is an ancestor of some element of [s]. *)
Definition anc_of (s : gset Z) (a : Z) : Prop := exists r, r ∈ s /\ anc a r.

(** [a] is an ancestor of every element of [s]. *)
Definition common_anc (s : gset Z) (a : Z) : Prop := forall r, r ∈ s -> anc a r.
End ancestry.

(** What a revlog promises about its parent function. *)
Class RevDag (pfunc : Z -> list Z) : Prop := {
  parents_below : forall r p, p ∈ pfunc r -> p = nullrev \/ 0 <= p < r
}.

Section ancestry_lemmas.
Context (pfunc : Z -> list Z) `{!RevDag pfunc}.

Lemma parent_below r p : parent pfunc r p -> 0 <= p < r.
Proof. intros [Hin Hne]. destruct (parents_below r p Hin); [done|lia]. Qed.

Lemma anc_refl a : anc pfunc a a.
Proof. apply rtc_refl. Qed.

Lemma anc_trans a b c : anc pfunc a b -> anc pfunc b c -> anc pfunc a c.
Proof. unfold anc. intros. by etrans. Qed.

Lemma anc_le a r : anc pfunc a r -> a <= r.
Proof.
  induction 1 as [|x y z Hxy _ IH]; [lia|]. apply parent_below in Hxy. lia.
Qed.

Lemma sanc_lt a r : sanc pfunc a r -> 0 <= a < r.
Proof.
  induction 1 as [x y Hxy|x y z Hxy _ IH]; apply parent_below in Hxy; lia.
Qed.

Lemma sanc_anc a r : sanc pfunc a r -> anc pfunc a r.
Proof. apply tc_rtc. Qed.

Lemma anc_cases a r :
  anc pfunc a r <-> a = r \/ exists p, parent pfunc r p /\ anc pfunc a p.
Proof.
  split.
  - inversion 1; subst; [by left|]. right. eauto.
  - intros [->|(p & Hp & Ha)]; [apply anc_refl|]. by eapply rtc_l.
Qed.

Lemma anc_parent r p : parent pfunc r p -> anc pfunc p r.
Proof. apply rtc_once. Qed.

Lemma sanc_cases a r :
  sanc pfunc a r <-> exists p, parent pfunc r p /\ anc pfunc a p.
Proof.
  split.
  - inversion 1; subst; eexists; split; eauto; [apply anc_refl|by apply tc_rtc].
  - intros (p & Hp & Ha). by eapply tc_rtc_r in Ha; [|apply tc_once, Hp].
Qed.

Lemma anc_sanc_cases a r : anc pfunc a r <-> a = r \/ sanc pfunc a r.
Proof. by rewrite anc_cases, sanc_cases. Qed.

Lemma anc_ne_sanc a r : anc pfunc a r -> a ≠ r -> sanc pfunc a r.
Proof. intros [->|]%anc_sanc_cases ?; done. Qed.

Lemma anc_antisym a b : anc pfunc a b -> anc pfunc b a -> a = b.
Proof. intros ?%anc_le ?%anc_le. lia. Qed.

Lemma anc_nonneg a r : anc pfunc a r -> 0 <= r -> 0 <= a.
Proof. intros [->|?%sanc_lt]%anc_sanc_cases ?; lia. Qed.

(** Descendants of [nullrev] are only itself. *)
Lemma anc_nullrev a : anc pfunc a nullrev -> a = nullrev.
Proof. intros [->|H%sanc_lt]%anc_sanc_cases; [done|]. unfold nullrev in *; lia. Qed.

(** Ancestry is decidable: parents are smaller. *)
Lemma anc_dec a r : Decision (anc pfunc a r).
Proof.
  assert (forall l : list Z, (forall p, p ∈ l -> p ≠ nullrev -> Decision (anc pfunc a p)) ->
    Decision (exists p, (p ∈ l /\ p ≠ nullrev) /\ anc pfunc a p)) as Hl.
  { induction l as [|p l IHl]; intros Hd; [right; intros (p & [[]%not_elem_of_nil _] & _)|].
    destruct (decide (p = nullrev)) as [->|Hp].
    - destruct (IHl (fun q Hq => Hd q ltac:(by right))) as [H|H]; [left|right].
      + destruct H as (q & [? ?] & ?). exists q. set_solver.
      + intros (q & [[->|Hq]%elem_of_cons ?] & ?); [done|]. apply H. by exists q.
    - destruct (Hd p ltac:(by left) Hp) as [Ha|Ha]; [left; exists p; set_solver|].
      destruct (IHl (fun q Hq => Hd q ltac:(by right))) as [H|H]; [left|right].
      + destruct H as (q & [? ?] & ?). exists q. set_solver.
      + intros (q & [[->|Hq]%elem_of_cons ?] & ?); [done|]. apply H. by exists q. }
  remember (Z.to_nat r) as n eqn:En. revert r En. induction n as [n IH] using lt_wf_rec. intros r ->.
  destruct (decide (a = r)) as [->|Hne]; [left; apply anc_refl|].
  destruct (Hl (pfunc r)) as [H|H].
  - intros p Hp Hn. apply (IH (Z.to_nat p)); [|done]. assert (0 <= p < r) by (apply parent_below; by split). lia.
  - left. apply anc_cases. by right.
  - right. intros [?|Hp]%anc_cases; [done|by apply H].
Defined.

Lemma anc_of_dec (s : gset Z) a : Decision (anc_of pfunc s a).
Proof. pose proof anc_dec. apply (set_Exists_dec (fun r => anc pfunc a r)). Defined.

Lemma anc_of_union s1 s2 a :
  anc_of pfunc (s1 ∪ s2) a <-> anc_of pfunc s1 a \/ anc_of pfunc s2 a.
Proof. unfold anc_of. set_solver. Qed.

Lemma anc_of_elem s a : a ∈ s -> anc_of pfunc s a.
Proof. intros. exists a. split; [done|apply anc_refl]. Qed.

Lemma anc_of_trans s a b : anc pfunc a b -> anc_of pfunc s b -> anc_of pfunc s a.
Proof. intros Hab (r & Hr & Hbr). exists r. split; [done|]. by eapply anc_trans. Qed.
End ancestry_lemmas.

#[export] Hint Resolve anc_refl sanc_anc anc_parent anc_of_elem anc_trans : hg.

(** Two base sets with the same ancestors, up to the null revision. *)
Definition same_ancestors (pfunc : Z -> list Z) (s1 s2 : gset Z) : Prop :=
  forall a, a ≠ nullrev -> anc_of pfunc s1 a <-> anc_of pfunc s2 a.

#[export] Instance same_ancestors_equiv pfunc : Equivalence (same_ancestors pfunc).
Proof.
  split.
  - by intros s a.
  - intros s t H a Ha. symmetry. by apply H.
  - intros s t u H1 H2 a Ha. etrans; [by apply H1|by apply H2].
Qed.

(** ** The revlog index *)

Module Revlog.

(** The two parent fields (5 and 6) of each index entry. *)
Notation index := (list (Z * Z)).

(** [BaseIndexObject.__len__]: the null entry counts as the last one. *)
Definition index_len (ix : index) : Z := Z.of_nat (length ix) + 1.

(** [BaseIndexObject._fix_index] *)
Definition fix_index (ix : index) (i : Z) : res Z :=
  let i := if decide (i < 0) then index_len ix + i else i in
  if decide (i < 0 \/ i >= index_len ix) then Err IndexError else Ok i.

(** [BaseIndexObject.__getitem__], the parent fields of the entry. *)
Definition getitem (ix : index) (i : Z) : res (Z * Z) :=
  let* i := fix_index ix i in
  if decide (i = index_len ix - 1) then Ok (nullrev, nullrev)
  else match ix !! Z.to_nat i with Some e => Ok e | None => Err IndexError end.

(** [revlog.parentrevs] *)
Definition parentrevs (ix : index) (rev : Z) : res (list Z) :=
  let* e := getitem ix rev in Ok [e.1; e.2].

(** [parentrevs] as the parent function handed to the graph algorithms, on
    the arguments they give it (the null revision and the revisions). *)
Definition pfunc_of (ix : index) (rev : Z) : list Z :=
  if decide (nullrev <= rev) then
    match parentrevs ix rev with Ok ps => ps | Err _ => [] end
  else [].

(** Every stored parent is the null revision or an earlier revision. *)
Definition index_ok (ix : index) : Prop :=
  forall i e, ix !! i = Some e ->
    (e.1 = nullrev \/ 0 <= e.1 < Z.of_nat i) /\ (e.2 = nullrev \/ 0 <= e.2 < Z.of_nat i).

Definition parent_okb (i : nat) (p : Z) : bool :=
  bool_decide (p = nullrev) || (bool_decide (0 <= p) && bool_decide (p < Z.of_nat i)).

Definition index_okb (ix : index) : bool :=
  forallb (fun ie : nat * (Z * Z) => parent_okb ie.1 ie.2.1 && parent_okb ie.1 ie.2.2)
    (imap pair ix).

Lemma parent_okb_spec i p :
  parent_okb i p = true -> p = nullrev \/ 0 <= p < Z.of_nat i.
Proof.
  unfold parent_okb.
  rewrite orb_true_iff, andb_true_iff, !bool_decide_eq_true. tauto.
Qed.

Lemma index_okb_ok ix : index_okb ix = true -> index_ok ix.
Proof.
  intros H%Is_true_true i e Hi. unfold index_okb in H. rewrite forallb_True in H.
  rewrite Forall_lookup in H. specialize (H i (i, e)).
  rewrite list_lookup_imap, Hi in H. specialize (H eq_refl).
  apply Is_true_true, andb_true_iff in H as [H1 H2]. simpl in *.
  split; by apply parent_okb_spec.
Qed.

Lemma getitem_null ix : getitem ix nullrev = Ok (nullrev, nullrev).
Proof.
  unfold getitem, fix_index, index_len, nullrev. simpl.
  rewrite decide_False by lia. simpl. by rewrite decide_True by lia.
Qed.

Lemma getitem_rev ix r :
  0 <= r < Z.of_nat (length ix) ->
  exists e, ix !! Z.to_nat r = Some e /\ getitem ix r = Ok e.
Proof.
  intros Hr. destruct (lookup_lt_is_Some_2 ix (Z.to_nat r)) as [e He]; [lia|].
  exists e. split; [done|]. unfold getitem, fix_index, index_len.
  rewrite (decide_False (P := r < 0)) by lia.
  rewrite decide_False by lia. simpl. rewrite decide_False by lia. by rewrite He.
Qed.

(** A checked index satisfies the interface the graph algorithms rely on. *)
Lemma pfunc_of_dag ix : index_ok ix -> RevDag (pfunc_of ix).
Proof.
  intros Hok. split. intros r p. unfold pfunc_of, parentrevs.
  destruct (decide (nullrev <= r)) as [Hr|]; [|intros []%elem_of_nil].
  destruct (getitem ix r) as [[p1 p2]|] eqn:E; simpl; [|intros []%elem_of_nil].
  unfold getitem, fix_index, index_len in E.
  destruct (decide (r < 0)) as [Hn|Hn]; simpl in E; case_decide; try done; simpl in E;
    case_decide; simplify_eq; rewrite !elem_of_cons, elem_of_nil; try naive_solver.
  { unfold nullrev in *. lia. }
  destruct (ix !! Z.to_nat r) as [e|] eqn:E'; simplify_eq.
  destruct (Hok _ _ E') as [H1 H2]; simpl in *.
  intros [->|[->|[]]]; [destruct H1|destruct H2]; auto; right; lia.
Qed.
End Revlog.

(** Two small histories the witnesses evaluate on: 0-1, two branches 2 and 3
    on 1, their merge 4, and 5 on 0; and a criss-cross merge. *)
Definition example_index : list (Z * Z) := [(-1,-1); (0,-1); (1,-1); (1,-1); (2,3); (0,-1)].

Definition crisscross_index : list (Z * Z) :=
  [(-1,-1); (0,-1); (0,-1); (1,2); (2,1); (3,-1); (4,-1)].

Lemma example_dag : RevDag (Revlog.pfunc_of example_index).
Proof. apply Revlog.pfunc_of_dag, Revlog.index_okb_ok. vm_compute. reflexivity. Qed.

Lemma crisscross_dag : RevDag (Revlog.pfunc_of crisscross_index).
Proof. apply Revlog.pfunc_of_dag, Revlog.index_okb_ok. vm_compute. reflexivity. Qed.
