(* ===== verification/IncrementalMissing.v ===== *)
(** * Incremental missing ancestors and lazy ancestors (ancestor.py)

    [incrementalmissingancestors] keeps a mutable set of base revisions that
    its three operations read and grow; [lazyancestors] answers iteration with
    a breadth-first walk and membership with a persistent heap.  The theorems
    relate both to the ancestor relation of [Dag]. *)

From S2P Require Import Prelude Dag.

Module IncrementalMissing.

(** The object: [self.pfunc] is the section parameter below. *)
Record incrementalmissingancestors := Inc { bases : gset Z }.

(** [__init__]: an empty base set becomes [{nullrev}]. *)
Definition init (bs : list Z) : incrementalmissingancestors :=
  let s : gset Z := list_to_set bs in
  Inc (if decide (s = ∅) then {[nullrev]} ∪ s else s).

(** [hasbases] *)
Definition hasbases (self : incrementalmissingancestors) : bool :=
  bool_decide (bases self ≠ ∅) && bool_decide (bases self ≠ {[nullrev]}).

(** [addbases] *)
Definition addbases (newbases : list Z) (self : incrementalmissingancestors) :
    incrementalmissingancestors :=
  Inc (bases self ∪ list_to_set newbases).

Section operations.
Context (pfunc : Z -> list Z).

(** The loop of [removeancestorsfrom]; both sets are updated in place. *)
Fixpoint remove_loop (keepcount : nat) (currs : list Z) (revs bs : gset Z) :
    gset Z * gset Z :=
  match currs with
  | [] => (revs, bs)
  | curr :: currs =>
      if decide (curr ∉ bs) then remove_loop keepcount currs revs bs
      else
        let revs := revs ∖ {[curr]} in
        let bs := bs ∪ list_to_set (pfunc curr) in
        if decide (size revs = keepcount) then (revs, bs)
        else remove_loop keepcount currs revs bs
  end.

(** [removeancestorsfrom]: the updated [revs] and the updated object. *)
Definition removeancestorsfrom (revs : gset Z) (self : incrementalmissingancestors) :
    gset Z * incrementalmissingancestors :=
  let revs := (revs ∖ bases self) ∖ {[nullrev]} in
  if decide (revs = ∅) then (revs, self)
  else
    let start := zmax_set (bases self) in
    let keepcount := size (filter (fun r => r > start) revs) in
    if decide (size revs = keepcount) then (revs, self)
    else
      let '(revs, bs) :=
        remove_loop keepcount (zrange_down start (zmin_set revs - 1)) revs (bases self) in
      (revs, Inc bs).

(** The local variables of [missingancestors]; [basesvisit] is the object's
    own [bases] set. *)
Record visit_state := Visit {
  revsvisit : gset Z;
  basesvisit : gset Z;
  bothvisit : gset Z;
  missing : list Z
}.

(** A parent known to be an ancestor of both sides. *)
Definition visit_both (st : visit_state) (p : Z) : visit_state :=
  Visit (revsvisit st ∖ {[p]}) ({[p]} ∪ basesvisit st) ({[p]} ∪ bothvisit st) (missing st).

(** The second parent loop; [inrevs] says which set [thisvisit] aliases. *)
Definition visit_parent (inrevs : bool) (st : visit_state) (p : Z) : visit_state :=
  let othervisit := if inrevs then basesvisit st else revsvisit st in
  if decide (p = nullrev) then st
  else if decide (p ∈ othervisit \/ p ∈ bothvisit st) then visit_both st p
  else if inrevs
  then Visit ({[p]} ∪ revsvisit st) (basesvisit st) (bothvisit st) (missing st)
  else Visit (revsvisit st) ({[p]} ∪ basesvisit st) (bothvisit st) (missing st).

(** One iteration of the main loop. *)
Definition visit_curr (st : visit_state) (curr : Z) : visit_state :=
  if decide (curr ∈ bothvisit st) then
    foldl visit_both
      (Visit (revsvisit st) (basesvisit st) (bothvisit st ∖ {[curr]}) (missing st))
      (pfunc curr)
  else if decide (curr ∈ revsvisit st) then
    foldl (visit_parent true)
      (Visit (revsvisit st ∖ {[curr]}) (basesvisit st) (bothvisit st) (missing st ++ [curr]))
      (pfunc curr)
  else if decide (curr ∈ basesvisit st) then foldl (visit_parent false) st (pfunc curr)
  else st.

Fixpoint visit_loop (currs : list Z) (st : visit_state) : visit_state :=
  match currs with
  | [] => st
  | curr :: currs =>
      if decide (revsvisit st = ∅) then st else visit_loop currs (visit_curr st curr)
  end.

(** [missingancestors]: the list and the updated object. *)
Definition missingancestors (revs : list Z) (self : incrementalmissingancestors) :
    list Z * incrementalmissingancestors :=
  let rv : gset Z := list_to_set revs in
  let both := rv ∩ bases self in
  let rv := rv ∖ both in
  if decide (rv = ∅) then ([], self)
  else
    let start := Z.max (zmax_set rv) (zmax_set (bases self)) in
    let st := visit_loop (zrange_down start nullrev) (Visit rv (bases self) both []) in
    (rev (missing st), Inc (basesvisit st)).
End operations.

(** The well-formedness of the object: the base set is never empty and holds
    the null revision and revisions only. *)
Definition wf (self : incrementalmissingancestors) : Prop :=
  bases self ≠ ∅ /\ forall b, b ∈ bases self -> nullrev <= b.

Section correctness.
Context (pfunc : Z -> list Z) `{!RevDag pfunc}.

(** ** The loop invariant of [missingancestors]

    [A] are the ancestors of the queried revisions, [B] those of the original
    bases.  [c] is the next revision to visit; the ancestors of the parents in
    [ps] are still to be covered, on the [A] side when [fr] and on the [B]
    side when [fb]. *)
Section invariant.
Context (A B : Z -> Prop).
Hypothesis A_closed : forall x y, anc pfunc x y -> A y -> A x.
Hypothesis B_closed : forall x y, anc pfunc x y -> B y -> B x.

Record vinv (fr fb : bool) (ps : list Z) (c : Z) (st : visit_state) : Prop := {
  v_revs : forall y, y ∈ revsvisit st -> y = nullrev \/ (A y /\ 0 <= y <= c);
  v_both : forall y, y ∈ bothvisit st -> y ∈ basesvisit st /\ y <= c;
  v_bases : forall y, y ∈ basesvisit st -> y = nullrev \/ (B y /\ 0 <= y);
  v_disj : forall y, y ∈ revsvisit st -> y ∉ basesvisit st;
  v_covA : forall x, 0 <= x <= c -> A x ->
    (exists y, (y ∈ revsvisit st \/ y ∈ bothvisit st) /\ anc pfunc x y) \/
    (fr = true /\ exists p, p ∈ ps /\ p ≠ nullrev /\ anc pfunc x p);
  v_covB : forall x, 0 <= x <= c -> B x ->
    (exists y, y ∈ basesvisit st /\ y <= c /\ anc pfunc x y) \/
    (fb = true /\ exists p, p ∈ ps /\ p ≠ nullrev /\ anc pfunc x p);
  v_missing : forall x, x ∈ missing st <-> c < x /\ 0 <= x /\ A x /\ ~ B x;
  v_desc : descending (missing st)
}.

(** Dropping a parent whose ancestors the state covers. *)
Lemma vinv_drop fr fb p ps c st :
  vinv fr fb (p :: ps) c st ->
  (fr = true -> p ≠ nullrev -> p ∈ revsvisit st \/ p ∈ bothvisit st) ->
  (fb = true -> p ≠ nullrev -> p ∈ basesvisit st /\ p <= c) ->
  vinv fr fb ps c st.
Proof.
  intros [] Hr Hb. split; auto.
  - intros x Hx HA. destruct (v_covA0 x Hx HA) as [?|(-> & q & Hq & Hn & Hxq)]; [by left|].
    apply elem_of_cons in Hq as [->|Hq]; [|by right; eauto 10].
    left. exists p. split; [by apply Hr|done].
  - intros x Hx HB. destruct (v_covB0 x Hx HB) as [?|(-> & q & Hq & Hn & Hxq)]; [by left|].
    apply elem_of_cons in Hq as [->|Hq]; [|by right; eauto 10].
    left. exists p. destruct (Hb eq_refl Hn). eauto.
Qed.

Lemma visit_both_inv fr fb ps c st p :
  (p = nullrev \/ (B p /\ 0 <= p <= c)) -> nullrev <= c ->
  vinv fr fb ps c st -> vinv fr fb ps c (visit_both st p).
Proof.
  intros Hp Hc []. unfold visit_both. split; simpl; auto.
  - intros y Hy. apply v_revs0. set_solver.
  - intros y [->%elem_of_singleton|Hy]%elem_of_union; [set_solver by lia|].
    destruct (v_both0 y Hy). set_solver.
  - intros y [->%elem_of_singleton|Hy]%elem_of_union; [naive_solver|auto].
  - intros y Hy Hin. specialize (v_disj0 y). set_solver.
  - intros x Hx HA. destruct (v_covA0 x Hx HA) as [(y & Hy & Hxy)|]; [left|by right].
    exists y. split; [|done]. destruct (decide (y = p)); set_solver.
  - intros x Hx HB. destruct (v_covB0 x Hx HB) as [(y & Hy & Hxy)|]; [left|by right].
    exists y. split; [set_solver|done].
Qed.

Lemma fold_both_inv ps c st :
  (forall p, p ∈ ps -> p = nullrev \/ (B p /\ 0 <= p <= c)) -> nullrev <= c ->
  vinv true true ps c st -> vinv true true [] c (foldl visit_both st ps).
Proof.
  revert st. induction ps as [|p ps IH]; intros st Hps Hc Hinv; [done|]. simpl.
  apply IH; [set_solver|done|].
  eapply vinv_drop; [apply visit_both_inv; [apply Hps; by left|done|exact Hinv]|..];
    unfold visit_both; simpl; intros _ Hn.
  - right. set_solver.
  - destruct (Hps p) as [|[]]; [by left|done|]. set_solver by lia.
Qed.

Lemma visit_parent_revs_inv ps c st p :
  (p = nullrev \/ (A p /\ 0 <= p <= c)) -> nullrev <= c ->
  vinv true false (p :: ps) c st -> vinv true false ps c (visit_parent true st p).
Proof.
  intros Hp Hc Hinv. unfold visit_parent.
  destruct (decide (p = nullrev)) as [->|Hn].
  { eapply vinv_drop; [done|done|done]. }
  destruct Hp as [?|[HA Hp]]; [done|].
  destruct (decide (p ∈ basesvisit st \/ p ∈ bothvisit st)) as [Hin|Hout].
  - eapply vinv_drop; [apply visit_both_inv; [|done|exact Hinv]|unfold visit_both; simpl; set_solver|done].
    right. split; [|done].
    assert (p ∈ basesvisit st) as Hb by (destruct Hin as [|?%(v_both _ _ _ _ _ Hinv)]; naive_solver).
    by destruct (v_bases _ _ _ _ _ Hinv p Hb) as [|[]].
  - destruct Hinv. apply (vinv_drop true false p ps); [|set_solver|done].
    split; simpl; auto.
    + intros y [->%elem_of_singleton|Hy]%elem_of_union; [by right|auto].
    + intros y [->%elem_of_singleton|Hy]%elem_of_union; [tauto|auto].
    + intros x Hx HAx. destruct (v_covA0 x Hx HAx) as [(y & Hy & Hxy)|]; [left|by right].
      exists y. split; [set_solver|done].
Qed.

Lemma visit_parent_bases_inv ps c st p :
  (p = nullrev \/ (B p /\ 0 <= p <= c)) -> nullrev <= c ->
  vinv false true (p :: ps) c st -> vinv false true ps c (visit_parent false st p).
Proof.
  intros Hp Hc Hinv. unfold visit_parent.
  destruct (decide (p = nullrev)) as [->|Hn].
  { eapply vinv_drop; [done|done|done]. }
  destruct Hp as [?|[HB Hp]]; [done|].
  destruct (decide (p ∈ revsvisit st \/ p ∈ bothvisit st)) as [Hin|Hout].
  - eapply vinv_drop; [apply visit_both_inv; [by right|done|exact Hinv]|done|].
    unfold visit_both; simpl. set_solver by lia.
  - destruct Hinv. apply (vinv_drop false true p ps); [|done|set_solver by lia].
    split; simpl; auto.
    + intros y Hy. destruct (v_both0 y Hy). set_solver.
    + intros y [->%elem_of_singleton|Hy]%elem_of_union; [right; split; [done|lia]|auto].
    + intros y Hy [->%elem_of_singleton|Hy']%elem_of_union; [tauto|]. by eapply v_disj0.
    + intros x Hx HBx. destruct (v_covB0 x Hx HBx) as [(y & Hy & Hxy)|]; [left|by right].
      exists y. split; [set_solver|done].
Qed.

Lemma fold_parent_inv (b : bool) ps c st :
  (forall p, p ∈ ps -> p = nullrev \/ ((if b then A p else B p) /\ 0 <= p <= c)) ->
  nullrev <= c -> vinv b (negb b) ps c st ->
  vinv b (negb b) [] c (foldl (visit_parent b) st ps).
Proof.
  revert st. induction ps as [|p ps IH]; intros st Hps Hc Hinv; [done|]. simpl.
  apply IH; [set_solver|done|].
  destruct b; [apply visit_parent_revs_inv|apply visit_parent_bases_inv]; auto;
    apply (Hps p); by left.
Qed.

Lemma vinv_flags fr fb c st : vinv fr fb [] c st -> vinv false false [] c st.
Proof.
  intros []. split; auto.
  - intros x Hx HA. destruct (v_covA0 x Hx HA) as [?|(_ & p & []%elem_of_nil & _)]; auto.
  - intros x Hx HB. destruct (v_covB0 x Hx HB) as [?|(_ & p & []%elem_of_nil & _)]; auto.
Qed.

(** At the visited revision the sets decide membership exactly. *)
Lemma vinv_curr c st :
  0 <= c -> vinv false false [] c st ->
  (A c -> c ∈ revsvisit st \/ c ∈ bothvisit st) /\ (B c -> c ∈ basesvisit st).
Proof.
  intros Hc []. split.
  - intros HA. destruct (v_covA0 c ltac:(lia) HA) as [(y & Hy & Hcy)|[? _]]; [|done].
    apply anc_le in Hcy; [|done].
    assert (y = c) as ->; [|done].
    destruct Hy as [Hy|Hy]; [destruct (v_revs0 y Hy) as [->|]; unfold nullrev in *; lia|].
    destruct (v_both0 y Hy). lia.
  - intros HB. destruct (v_covB0 c ltac:(lia) HB) as [(y & Hy & Hyc & Hcy)|[? _]]; [|done].
    apply anc_le in Hcy; [|done]. by replace c with y by lia.
Qed.

(** Moving past [c]: cover for smaller revisions goes through the parents. *)
Lemma cover_parents x c y :
  anc pfunc x y -> x < c -> y = c ->
  exists p, p ∈ pfunc c /\ p ≠ nullrev /\ anc pfunc x p.
Proof.
  intros Hxy Hlt ->. apply anc_cases in Hxy as [->|(p & [Hp Hn] & Hxp)]; [lia|eauto].
Qed.

Lemma missing_shift c st :
  (forall x, x ∈ missing st <-> c < x /\ 0 <= x /\ A x /\ ~ B x) ->
  ~ (A c /\ ~ B c) ->
  forall x, x ∈ missing st <-> c - 1 < x /\ 0 <= x /\ A x /\ ~ B x.
Proof.
  intros H Hn x. rewrite H. split; intros (H1 & H2 & H3 & H4); (split; [|done]); [lia|].
  destruct (decide (x = c)) as [->|]; [tauto|lia].
Qed.

Lemma parents_range (P : Z -> Prop) c :
  (forall x y, anc pfunc x y -> P y -> P x) -> P c ->
  forall p, p ∈ pfunc c -> p = nullrev \/ (P p /\ 0 <= p <= c - 1).
Proof.
  intros Hcl HP p Hp. destruct (decide (p = nullrev)); [by left|right].
  assert (parent pfunc c p) as Hpar by done.
  split; [|apply parent_below in Hpar; [lia|done]].
  eapply Hcl; [by apply anc_parent|done].
Qed.

Lemma visit_curr_both_inv c st :
  0 <= c -> vinv false false [] c st -> c ∈ bothvisit st ->
  vinv false false [] (c - 1) (visit_curr pfunc st c).
Proof.
  intros Hc Hinv Hin. unfold visit_curr. rewrite decide_True by done.
  assert (B c) as HB.
  { destruct (v_both _ _ _ _ _ Hinv c Hin) as [Hb _].
    destruct (v_bases _ _ _ _ _ Hinv c Hb) as [->|[]]; [unfold nullrev in Hc; lia|done]. }
  eapply vinv_flags, fold_both_inv;
    [by apply parents_range|unfold nullrev; lia|].
  destruct Hinv. split; simpl.
  - intros y Hy. destruct (v_revs0 y Hy) as [?|[HA Hy']]; [by left|right].
    assert (y ≠ c) by (intros ->; destruct (v_both0 c Hin); by eapply v_disj0). split; [done|lia].
  - intros y [Hy Hne]%elem_of_difference. destruct (v_both0 y Hy). set_solver by lia.
  - done.
  - done.
  - intros x Hx HA. destruct (v_covA0 x ltac:(lia) HA) as [(y & Hy & Hxy)|[? _]]; [|done].
    destruct (decide (y = c)) as [Heq|]; [right; split; [done|]|left; exists y; set_solver].
    eapply cover_parents; eauto; lia.
  - intros x Hx HBx. destruct (v_covB0 x ltac:(lia) HBx) as [(y & Hy & Hyc & Hxy)|[? _]]; [|done].
    destruct (decide (y = c)) as [Heq|]; [right; split; [done|]|left; exists y; split; [done|split; [lia|done]]].
    eapply cover_parents; eauto; lia.
  - apply missing_shift; [done|tauto].
  - done.
Qed.

Lemma visit_curr_revs_inv c st :
  0 <= c -> vinv false false [] c st -> c ∉ bothvisit st -> c ∈ revsvisit st ->
  vinv false false [] (c - 1) (visit_curr pfunc st c).
Proof.
  intros Hc Hinv Hnb Hin. unfold visit_curr.
  rewrite decide_False, decide_True by done.
  assert (A c) as HA.
  { destruct (v_revs _ _ _ _ _ Hinv c Hin) as [->|[]]; [unfold nullrev in Hc; lia|done]. }
  assert (~ B c) as HnB.
  { intros HB%(proj2 (vinv_curr c st Hc Hinv)). by eapply (v_disj _ _ _ _ _ Hinv). }
  apply (vinv_flags true false), (fold_parent_inv true);
    [by apply parents_range|unfold nullrev; lia|].
  destruct Hinv. split; simpl.
  - intros y [Hy Hne]%elem_of_difference. destruct (v_revs0 y Hy) as [?|[HAy Hy']]; [by left|].
    right. split; [done|]. set_solver by lia.
  - intros y Hy. destruct (v_both0 y Hy). split; [done|].
    assert (y ≠ c) by congruence. lia.
  - done.
  - intros y [Hy _]%elem_of_difference. auto.
  - intros x Hx HAx. destruct (v_covA0 x ltac:(lia) HAx) as [(y & Hy & Hxy)|[? _]]; [|done].
    destruct (decide (y = c)) as [Heq|]; [right; split; [done|]|left; exists y; set_solver].
    eapply cover_parents; eauto; lia.
  - intros x Hx HBx. destruct (v_covB0 x ltac:(lia) HBx) as [(y & Hy & Hyc & Hxy)|[? _]]; [|done].
    left. exists y. assert (y ≠ c) by (intros ->; by eapply v_disj0).
    split; [done|split; [lia|done]].
  - intros x. rewrite elem_of_app, list_elem_of_singleton, v_missing0. split.
    + intros [H| ->]; [|repeat split; auto; lia]. destruct H as (? & ? & ? & ?). repeat split; auto; lia.
    + intros (H1 & H2 & H3 & H4). destruct (decide (x = c)); [by right|left].
      repeat split; auto; lia.
  - apply StronglySorted_snoc; [done|]. apply Forall_forall.
    intros x Hx%v_missing0. lia.
Qed.

Lemma visit_curr_inv c st :
  0 <= c -> vinv false false [] c st ->
  vinv false false [] (c - 1) (visit_curr pfunc st c).
Proof.
  intros Hc Hinv.
  destruct (decide (c ∈ bothvisit st)) as [Hb|Hb]; [by apply visit_curr_both_inv|].
  destruct (decide (c ∈ revsvisit st)) as [Hr|Hr]; [by apply visit_curr_revs_inv|].
  destruct (vinv_curr c st Hc Hinv) as [HA HB].
  unfold visit_curr. rewrite !(decide_False (P := c ∈ _)) by done.
  assert (forall y, y ∈ revsvisit st -> y = nullrev \/ (A y /\ 0 <= y <= c - 1)) as Hrevs.
  { intros y Hy. destruct (v_revs _ _ _ _ _ Hinv y Hy) as [?|[? ?]]; [by left|right].
    assert (y ≠ c) by congruence. split; [done|lia]. }
  assert (forall y, y ∈ bothvisit st -> y ∈ basesvisit st /\ y <= c - 1) as Hboth.
  { intros y Hy. destruct (v_both _ _ _ _ _ Hinv y Hy). assert (y ≠ c) by congruence.
    split; [done|lia]. }
  assert (forall x, 0 <= x <= c - 1 -> A x ->
    exists y, (y ∈ revsvisit st \/ y ∈ bothvisit st) /\ anc pfunc x y) as HcA.
  { intros x Hx HAx.
    by destruct (v_covA _ _ _ _ _ Hinv x ltac:(lia) HAx) as [?|[? _]]. }
  destruct (decide (c ∈ basesvisit st)) as [Hbs|Hbs].
  - assert (B c) as HBc.
    { destruct (v_bases _ _ _ _ _ Hinv c Hbs) as [->|[]]; [unfold nullrev in Hc; lia|done]. }
    apply (vinv_flags false true), (fold_parent_inv false);
      [by apply parents_range|unfold nullrev; lia|].
    destruct Hinv. split; simpl; auto.
    + intros x Hx HBx. destruct (v_covB0 x ltac:(lia) HBx) as [(y & Hy & Hyc & Hxy)|[? _]]; [|done].
      destruct (decide (y = c)) as [Heq|]; [right; split; [done|]|left; exists y; split; [done|split; [lia|done]]].
      eapply cover_parents; eauto; lia.
    + apply missing_shift; [done|tauto].
  - destruct Hinv. split; auto.
    + intros x Hx HBx. destruct (v_covB0 x ltac:(lia) HBx) as [(y & Hy & Hyc & Hxy)|[? _]]; [|done].
      left. exists y. assert (y ≠ c) by congruence. split; [done|split; [lia|done]].
    + apply missing_shift; [done|tauto].
Qed.

(** The loop leaves every missing ancestor, in descending order. *)
Lemma visit_loop_spec c st :
  nullrev <= c -> vinv false false [] c st ->
  let st' := visit_loop pfunc (zrange_down c nullrev) st in
  (forall x, x ∈ missing st' <-> 0 <= x /\ A x /\ ~ B x) /\
  descending (missing st') /\
  (forall y, y ∈ basesvisit st' -> y = nullrev \/ (B y /\ 0 <= y)).
Proof.
  intros Hc. assert (exists n, c = Z.of_nat n + nullrev) as [n ->].
  { exists (Z.to_nat (c - nullrev)). lia. }
  clear Hc. revert st. induction n as [|n IH]; intros st Hinv.
  { rewrite zrange_down_nil by lia. simpl. destruct Hinv. split_and!; auto.
    intros x. rewrite v_missing0. unfold nullrev. naive_solver lia. }
  rewrite zrange_down_cons by lia. simpl.
  destruct (decide (revsvisit st = ∅)) as [He|He].
  - destruct Hinv. split_and!; auto. intros x. rewrite v_missing0. split; [naive_solver|].
    intros (H1 & HA & HB). split_and!; auto.
    destruct (decide (x <= Z.of_nat (S n) + nullrev)) as [Hle|]; [|lia].
    destruct HB. destruct (v_covA0 x ltac:(lia) HA) as [(y & [Hy|Hy] & Hxy)|[? _]]; [set_solver| |done].
    destruct (v_both0 y Hy) as [Hb _].
    destruct (v_bases0 y Hb) as [->|[HBy _]]; [|by eapply B_closed].
    apply anc_nullrev in Hxy; [|done]. unfold nullrev in *; lia.
  - replace (Z.of_nat (S n) + nullrev - 1) with (Z.of_nat n + nullrev) by lia.
    apply IH. replace (Z.of_nat n + nullrev) with (Z.of_nat (S n) + nullrev - 1) by lia.
    apply visit_curr_inv; [unfold nullrev; lia|done].
Qed.
End invariant.

(** ** Growth of the base set *)

Lemma visit_both_mono st p : basesvisit st ⊆ basesvisit (visit_both st p).
Proof. unfold visit_both. simpl. set_solver. Qed.

Lemma visit_parent_mono b st p : basesvisit st ⊆ basesvisit (visit_parent b st p).
Proof.
  unfold visit_parent. repeat case_decide; [done|apply visit_both_mono|].
  destruct b; simpl; set_solver.
Qed.

Lemma foldl_mono (f : visit_state -> Z -> visit_state) ps st :
  (forall st p, basesvisit st ⊆ basesvisit (f st p)) ->
  basesvisit st ⊆ basesvisit (foldl f st ps).
Proof.
  intros Hf. revert st. induction ps as [|p ps IH]; intros st; simpl; [done|].
  etrans; [apply Hf|apply IH].
Qed.

Lemma visit_loop_mono currs st : basesvisit st ⊆ basesvisit (visit_loop pfunc currs st).
Proof.
  revert st. induction currs as [|c cs IH]; intros st; simpl; [done|].
  case_decide; [done|]. etrans; [|apply IH]. unfold visit_curr.
  repeat case_decide; [..|done].
  - by etrans; [|apply foldl_mono, visit_both_mono].
  - by etrans; [|apply foldl_mono, visit_parent_mono].
  - apply foldl_mono, visit_parent_mono.
Qed.

(** A base set grown only by ancestors of the old one has the same ancestors. *)
Lemma grown_same_ancestors (b0 b1 : gset Z) :
  b0 ⊆ b1 ->
  (forall y, y ∈ b1 -> y = nullrev \/ (anc_of pfunc b0 y /\ 0 <= y)) ->
  same_ancestors pfunc b1 b0.
Proof.
  intros Hsub Hgrow a Ha. split.
  - intros (r & Hr & Har). destruct (Hgrow r Hr) as [->|[H _]].
    + by apply anc_nullrev in Har.
    + by eapply anc_of_trans.
  - intros (r & Hr & Har). exists r. split; [by apply Hsub|done].
Qed.

Lemma grown_wf b0 b1 :
  wf (Inc b0) -> b0 ⊆ b1 ->
  (forall y, y ∈ b1 -> y = nullrev \/ (anc_of pfunc b0 y /\ 0 <= y)) -> wf (Inc b1).
Proof.
  intros [Hne _] Hsub Hgrow. split; simpl in *.
  - intros E. destruct (set_choose_L b0 Hne) as [b Hb]. set_solver.
  - intros b Hb. destruct (Hgrow b Hb) as [->|[_ ?]]; unfold nullrev; lia.
Qed.

Lemma anc_of_closed s x y : anc pfunc x y -> anc_of pfunc s y -> anc_of pfunc s x.
Proof. apply anc_of_trans. Qed.

(** ** The loop of [removeancestorsfrom] *)
Section removal.
Context (b0 revs0 : gset Z) (start m : Z) (keepcount : nat).
Hypothesis start_max : forall x, 0 <= x -> anc_of pfunc b0 x -> x <= start.
Hypothesis revs0_ge : forall x, x ∈ revs0 -> m <= x /\ 0 <= x.
Hypothesis keep_def : keepcount = size (filter (fun r => r > start) revs0).
Hypothesis m_nonneg : 0 <= m.

Record rinv (c : Z) (revs bs : gset Z) : Prop := {
  r_sub : b0 ⊆ bs;
  r_bases : forall y, y ∈ bs -> y = nullrev \/ (anc_of pfunc b0 y /\ 0 <= y);
  r_cov : forall x, 0 <= x <= c -> anc_of pfunc b0 x ->
    exists y, y ∈ bs /\ y <= c /\ anc pfunc x y;
  r_revs : forall x, x ∈ revs <-> x ∈ revs0 /\ ~ (anc_of pfunc b0 x /\ c < x)
}.

Lemma rinv_skip c revs bs : m <= c -> c ∉ bs -> rinv c revs bs -> rinv (c - 1) revs bs.
Proof.
  intros Hc Hn []. 
  assert (~ anc_of pfunc b0 c) as HnB.
  { intros HB. destruct (r_cov0 c ltac:(lia) HB) as (y & Hy & Hyc & Hcy).
    apply anc_le in Hcy; [|done]. assert (y = c) as -> by lia. done. }
  split; auto.
  - intros x Hx HB. destruct (r_cov0 x ltac:(lia) HB) as (y & Hy & Hyc & Hxy).
    exists y. assert (y ≠ c) by congruence. split; [done|split; [lia|done]].
  - intros x. rewrite r_revs0. destruct (decide (x = c)) as [->|]; [tauto|].
    split; intros [? H]; (split; [done|]); intros [? ?]; apply H; (split; [done|lia]).
Qed.

Lemma rinv_step c revs bs :
  m <= c -> c ∈ bs -> rinv c revs bs ->
  rinv (c - 1) (revs ∖ {[c]}) (bs ∪ list_to_set (pfunc c)).
Proof.
  intros Hc Hin [].
  assert (anc_of pfunc b0 c) as HB.
  { destruct (r_bases0 c Hin) as [->|[]]; [unfold nullrev in *; lia|done]. }
  split.
  - set_solver.
  - intros y [Hy|Hy%elem_of_list_to_set]%elem_of_union; [auto|].
    destruct (parents_range (anc_of pfunc b0) c (anc_of_closed b0) HB y Hy) as [|[? ?]]; [by left|right].
    split; [done|lia].
  - intros x Hx HBx. destruct (r_cov0 x ltac:(lia) HBx) as (y & Hy & Hyc & Hxy).
    destruct (decide (y = c)) as [->|].
    + destruct (cover_parents x c c Hxy ltac:(lia) eq_refl) as (p & Hp & Hn & Hxp).
      exists p. split; [set_solver|split; [|done]].
      destruct (parents_below c p Hp); [done|lia].
    + exists y. split; [set_solver|split; [lia|done]].
  - intros x. rewrite elem_of_difference, elem_of_singleton, r_revs0.
    destruct (decide (x = c)) as [->|].
    + split; [tauto|]. intros [_ H]. destruct H. split; [done|lia].
    + split; [intros [[? H] _]|intros [? H]; split; [|done]]; (split; [done|]);
        intros [? ?]; apply H; (split; [done|lia]).
Qed.

Lemma rinv_done revs bs c :
  size revs = keepcount -> rinv c revs bs ->
  forall x, x ∈ revs <-> x ∈ revs0 /\ ~ anc_of pfunc b0 x.
Proof.
  intros Hsz [] x.
  assert (filter (fun r => r > start) revs0 ⊆ revs) as Hsub.
  { intros y [Hgt Hy]%elem_of_filter. apply r_revs0. split; [done|]. intros [HB _].
    destruct (revs0_ge y Hy). specialize (start_max y ltac:(lia) HB). lia. }
  assert (filter (fun r => r > start) revs0 = revs) as Heq.
  { apply set_subseteq_size_eq; [done|lia]. }
  rewrite r_revs0. split; [|naive_solver].
  intros [Hx Hn]. split; [done|]. intros HB.
  assert (x ∈ revs) as Hin by (apply r_revs0; done).
  rewrite <- Heq in Hin. apply elem_of_filter in Hin as [Hgt _].
  destruct (revs0_ge x Hx). specialize (start_max x ltac:(lia) HB). lia.
Qed.

Lemma remove_loop_spec c revs bs :
  m - 1 <= c -> rinv c revs bs ->
  let '(revs', bs') := remove_loop pfunc keepcount (zrange_down c (m - 1)) revs bs in
  (forall x, x ∈ revs' <-> x ∈ revs0 /\ ~ anc_of pfunc b0 x) /\ b0 ⊆ bs' /\
  (forall y, y ∈ bs' -> y = nullrev \/ (anc_of pfunc b0 y /\ 0 <= y)).
Proof.
  intros Hc. assert (exists n, c = Z.of_nat n + (m - 1)) as [n ->].
  { exists (Z.to_nat (c - (m - 1))). lia. }
  clear Hc. revert revs bs. induction n as [|n IH]; intros revs bs Hinv.
  { rewrite zrange_down_nil by lia. simpl. destruct Hinv. split_and!; auto.
    intros x. rewrite r_revs0. split; intros [Hx H]; (split; [done|]); [|tauto].
    intros HB. apply H. split; [done|]. destruct (revs0_ge x Hx). lia. }
  rewrite zrange_down_cons by lia.
  replace (Z.of_nat (S n) + (m - 1) - 1) with (Z.of_nat n + (m - 1)) by lia.
  set (c := Z.of_nat (S n) + (m - 1)) in *. simpl.
  assert (Z.of_nat n + (m - 1) = c - 1) as E by (subst c; lia).
  destruct (decide (c ∉ bs)) as [Hn|Hn].
  - apply IH. rewrite E. apply rinv_skip; [subst c; lia|done|done].
  - assert (rinv (c - 1) (revs ∖ {[c]}) (bs ∪ list_to_set (pfunc c))) as Hst.
    { apply rinv_step; [subst c; lia|by apply dec_stable|done]. }
    destruct (decide (size (revs ∖ {[c]}) = keepcount)) as [Hk|Hk].
    + split; [by eapply rinv_done|]. by destruct Hst.
    + apply IH. by rewrite E.
Qed.
End removal.

Lemma missingancestors_spec (revs : list Z) (self : incrementalmissingancestors) :
  wf self -> (forall r, r ∈ revs -> nullrev <= r) ->
  let '(l, self') := missingancestors pfunc revs self in
  ascending l /\
  (forall x, x ∈ l <->
     0 <= x /\ anc_of pfunc (list_to_set revs) x /\ ~ anc_of pfunc (bases self) x) /\
  wf self' /\ same_ancestors pfunc (bases self') (bases self).
Proof.
  intros Hwf Hrevs. destruct self as [bs]. unfold missingancestors. simpl.
  set (rv := (list_to_set revs : gset Z)).
  destruct (decide (rv ∖ (rv ∩ bs) = ∅)) as [He|Hne].
  { split_and!; [constructor| |done|done]. intros x. rewrite elem_of_nil.
    split; [done|]. intros (_ & (r & Hr & Hxr) & Hn). destruct Hn.
    exists r. split; [set_solver|done]. }
  set (start := Z.max _ _).
  set (st0 := Visit (rv ∖ (rv ∩ bs)) bs (rv ∩ bs) []).
  assert (forall y, y ∈ bs -> y <= start) as Hbs.
  { intros y Hy%zmax_set_ge. unfold start. lia. }
  assert (vinv (anc_of pfunc rv) (anc_of pfunc bs) false false [] start st0) as Hinv.
  { assert (forall y, y ∈ rv -> y = nullrev \/ 0 <= y) as Hrv.
    { intros y Hy%elem_of_list_to_set. specialize (Hrevs y Hy). unfold nullrev in *. lia. }
    split; simpl.
    - intros y Hy. destruct (Hrv y ltac:(set_solver)); [by left|right].
      split; [apply anc_of_elem; set_solver|]. split; [done|].
      apply zmax_set_ge in Hy. unfold start. lia.
    - intros y Hy. split; [set_solver|]. apply Hbs. set_solver.
    - intros y Hy. destruct Hwf as [_ Hge]. specialize (Hge y Hy).
      destruct (decide (y = nullrev)); [by left|right]. split; [by apply anc_of_elem|].
      unfold nullrev in *; lia.
    - set_solver.
    - intros x _ (r & Hr & Hxr). left. exists r. split; [|done].
      rewrite elem_of_difference, !elem_of_intersection. destruct (decide (r ∈ bs)); tauto.
    - intros x _ (r & Hr & Hxr). left. exists r. auto.
    - intros x. rewrite elem_of_nil. split; [done|]. intros (H1 & H2 & (r & Hr & Hxr) & Hn).
      apply anc_le in Hxr as Hle; [|done].
      destruct (decide (r ∈ bs)) as [Hb|Hb]; [by apply Hn; exists r|].
      assert (r <= zmax_set (rv ∖ (rv ∩ bs))) by (apply zmax_set_ge; set_solver).
      unfold start in *. lia.
    - constructor. }
  assert (nullrev <= start) as Hstart.
  { destruct Hwf as [Hn Hge]. simpl in *.
    etrans; [apply Hge, zmax_set_in, Hn|unfold start; lia]. }
  destruct (visit_loop_spec _ _ (anc_of_closed rv) (anc_of_closed bs) start st0 Hstart Hinv)
    as (Hm & Hd & Hb).
  set (st' := visit_loop _ _ _) in *.
  assert (bs ⊆ basesvisit st') as Hmono by apply (visit_loop_mono _ st0).
  split_and!.
  - by apply descending_rev.
  - intros x. by rewrite elem_of_rev, Hm.
  - by eapply grown_wf.
  - by apply grown_same_ancestors.
Qed.

(** [C3] [missingancestors] returns, in ascending (topological) order, exactly
    the ancestors of [revs] that are not ancestors of the bases; the bases it
    grows in place keep the same ancestors. *)
Theorem missingancestors_correct (revs : list Z) (self : incrementalmissingancestors) :
  wf self -> (forall r, r ∈ revs -> nullrev <= r) ->
  let '(l, self') := missingancestors pfunc revs self in
  ascending l /\
  (forall x, x ∈ l <->
     0 <= x /\ anc_of pfunc (list_to_set revs) x /\ ~ anc_of pfunc (bases self) x) /\
  wf self' /\ same_ancestors pfunc (bases self') (bases self).
Proof. apply missingancestors_spec. Qed.

Lemma removeancestorsfrom_spec (revs : gset Z) (self : incrementalmissingancestors) :
  wf self -> (forall r, r ∈ revs -> nullrev <= r) ->
  let '(revs', self') := removeancestorsfrom pfunc revs self in
  (forall x, x ∈ revs' <-> x ∈ revs /\ x ≠ nullrev /\ ~ anc_of pfunc (bases self) x) /\
  wf self' /\ same_ancestors pfunc (bases self') (bases self).
Proof.
  intros Hwf Hrevs. destruct self as [bs]. unfold removeancestorsfrom. simpl.
  set (revs0 := (revs ∖ bs) ∖ {[nullrev]}).
  set (start := zmax_set bs).
  assert (forall x, x ∈ revs0 <-> x ∈ revs /\ x ∉ bs /\ x ≠ nullrev) as H0.
  { intros x. unfold revs0. set_solver. }
  assert (forall x, anc_of pfunc bs x -> x <= start) as Hmax.
  { intros x (b & Hb & Hxb). apply anc_le in Hxb; [|done].
    apply zmax_set_ge in Hb. unfold start. lia. }
  assert (forall revs' : gset Z, (forall x, x ∈ revs' <-> x ∈ revs0 /\ ~ anc_of pfunc bs x) ->
    forall x, x ∈ revs' <-> x ∈ revs /\ x ≠ nullrev /\ ~ anc_of pfunc bs x) as Hfin.
  { intros revs' H x. rewrite H, H0. split; [naive_solver|]. intros (? & ? & Hn).
    split_and!; auto. intros Hin. by apply Hn, anc_of_elem. }
  destruct (decide (revs0 = ∅)) as [He|Hne].
  { split_and!; [|done|done]. apply Hfin. intros x. rewrite He. set_solver. }
  assert (forall x, x ∈ revs0 -> zmin_set revs0 <= x /\ 0 <= x) as Hge.
  { intros x Hx. split; [by apply zmin_set_le|]. apply H0 in Hx as (Hx & _ & Hn).
    specialize (Hrevs x Hx). unfold nullrev in *. lia. }
  assert (0 <= zmin_set revs0) as Hm by (by apply Hge, zmin_set_in).
  set (kc := size (filter (fun r => r > start) revs0)).
  assert (rinv bs revs0 start revs0 bs) as Hinv.
  { split.
    - done.
    - intros y Hy. destruct Hwf as [_ Hw]. specialize (Hw y Hy).
      destruct (decide (y = nullrev)); [by left|right]. split; [by apply anc_of_elem|].
      unfold nullrev in *; lia.
    - intros x _ (b & Hb & Hxb). exists b. split_and!; auto. by apply zmax_set_ge.
    - intros x. split; [|naive_solver]. intros Hx. split; [done|]. intros [HB ?].
      specialize (Hmax x HB). lia. }
  destruct (decide (size revs0 = kc)) as [Hk|Hk].
  { split_and!; [|done|done]. apply Hfin.
    eapply (rinv_done bs revs0 start (zmin_set revs0) kc); eauto. }
  destruct (decide (zmin_set revs0 - 1 <= start)) as [Hle|Hgt].
  - pose proof (remove_loop_spec bs revs0 start (zmin_set revs0) kc
      (fun x _ => Hmax x) Hge eq_refl Hm start revs0 bs Hle Hinv) as Hsp.
    destruct (remove_loop _ _ _ _ _) as [revs' bs'].
    destruct Hsp as (H1 & H2 & H3).
    split_and!; [by apply Hfin|by eapply grown_wf|by apply grown_same_ancestors].
  - destruct Hk. unfold kc. f_equal. symmetry. apply set_eq. intros x.
    rewrite elem_of_filter. split; [tauto|]. intros Hx. split; [|done].
    destruct (Hge x Hx). lia.
Qed.

(** [removeancestorsfrom] leaves in [revs] exactly the revisions that are
    not ancestors of the bases (and never the null revision); the bases it
    grows in place keep the same ancestors. *)
Theorem removeancestorsfrom_correct (revs : gset Z) (self : incrementalmissingancestors) :
  wf self -> (forall r, r ∈ revs -> nullrev <= r) ->
  let '(revs', self') := removeancestorsfrom pfunc revs self in
  (forall x, x ∈ revs' <-> x ∈ revs /\ x ≠ nullrev /\ ~ anc_of pfunc (bases self) x) /\
  wf self' /\ same_ancestors pfunc (bases self') (bases self).
Proof. apply removeancestorsfrom_spec. Qed.
End correctness.

(** [init] and [addbases] establish and keep the well-formedness. *)
Lemma inc_init_wf bs : (forall b, b ∈ bs -> nullrev <= b) -> wf (init bs).
Proof.
  intros Hb. unfold init, wf. destruct (decide (list_to_set bs = (∅ : gset Z))); simpl;
    (split; [set_solver|]); intros b; set_solver by lia.
Qed.

Lemma addbases_wf bs self :
  (forall b, b ∈ bs -> nullrev <= b) -> wf self -> wf (addbases bs self).
Proof. unfold wf. simpl. set_solver. Qed.

Lemma missingancestors_witness :
  ascending [3; 4] /\ (missingancestors (Revlog.pfunc_of example_index) [4; 5] (init [2; 5])).1 = [3; 4].
Proof.
  assert (forall r : Z, r ∈ [4; 5] -> nullrev <= r) as H.
  { intros r Hr. unfold nullrev. rewrite !elem_of_cons, elem_of_nil in Hr. lia. }
  pose proof (@missingancestors_correct (Revlog.pfunc_of example_index) example_dag [4; 5]
    (init [2; 5]) ltac:(apply inc_init_wf; intros b Hb; unfold nullrev;
      rewrite !elem_of_cons, elem_of_nil in Hb; lia) H) as Hc.
  assert ((missingancestors (Revlog.pfunc_of example_index) [4; 5] (init [2; 5])).1 = [3; 4]) as E
    by (vm_compute; reflexivity).
  destruct (missingancestors _ _ _) as [l s]. simpl in E. subst l.
  split; [exact (proj1 Hc)|reflexivity].
Defined.

Lemma removeancestorsfrom_witness :
  (forall x, x ∈ (removeancestorsfrom (Revlog.pfunc_of example_index) {[3; 4; 5]} (init [4])).1 ->
     x ≠ nullrev) /\
  (removeancestorsfrom (Revlog.pfunc_of example_index) {[3; 4; 5]} (init [4])).1 = {[5]}.
Proof.
  assert (forall r : Z, r ∈ ({[3; 4; 5]} : gset Z) -> nullrev <= r) as H.
  { intros r Hr. unfold nullrev. set_solver by lia. }
  pose proof (@removeancestorsfrom_correct (Revlog.pfunc_of example_index) example_dag {[3; 4; 5]}
    (init [4]) ltac:(apply inc_init_wf; intros b Hb; unfold nullrev;
      rewrite !elem_of_cons, elem_of_nil in Hb; lia) H) as Hc.
  assert ((removeancestorsfrom (Revlog.pfunc_of example_index) {[3; 4; 5]} (init [4])).1 = {[5]}) as E
    by (vm_compute; reflexivity).
  destruct (removeancestorsfrom _ _ _) as [l s]. simpl in *. subst l.
  split; [intros x Hx; apply (proj1 Hc) in Hx; tauto|reflexivity].
Defined.
End IncrementalMissing.
