(* ===== verification/LazyAncestors.v ===== *)
(** * Lazy ancestor sets ([lazyancestors] of ancestor.py)

    The object walks the graph breadth-first for iteration and keeps a
    persistent max-heap and seen-set for membership tests, so that a sequence
    of tests shares its work.  The heap of Python's [heapq] is kept as an
    ascending list: [heap[0]] and [heappop] only expose the smallest element. *)

From S2P Require Import Prelude Dag.

(** ** heapq on integers *)

Fixpoint heappush (x : Z) (h : list Z) : list Z :=
  match h with
  | [] => [x]
  | y :: h' => if decide (x <= y) then x :: h else y :: heappush x h'
  end.

Definition heapify (l : list Z) : list Z := zsort l.

Lemma elem_of_heappush x h y : y ∈ heappush x h <-> y = x \/ y ∈ h.
Proof.
  induction h as [|z h IH]; simpl; [set_solver|].
  destruct (decide (x <= z)); rewrite ?elem_of_cons, ?IH, ?elem_of_cons; tauto.
Qed.

Lemma length_heappush x h : length (heappush x h) = S (length h).
Proof.
  induction h as [|z h IH]; simpl; [done|]. destruct (decide (x <= z)); simpl; auto.
Qed.

Lemma heappush_sorted x h : StronglySorted Z.le h -> StronglySorted Z.le (heappush x h).
Proof.
  induction 1 as [|y h Hs IH Hy]; simpl; [repeat constructor|].
  destruct (decide (x <= y)) as [Hxy|Hxy].
  - constructor; [by constructor|]. constructor; [done|].
    eapply Forall_impl; [exact Hy|]. simpl. lia.
  - constructor; [done|]. apply Forall_forall. intros z [->|Hz]%elem_of_heappush; [lia|].
    by eapply Forall_forall in Hy.
Qed.

Module LazyAncestors.

Record lazyancestors := Lazy {
  initrevs : list Z;
  stoprev : Z;
  inclusive : bool;
  containsvisit : list Z;  (* heap of negated revisions *)
  containsseen : gset Z
}.

(** [__init__] *)
Definition init (revs : list Z) (stoprev : Z) (inclusive : bool) : lazyancestors :=
  Lazy revs stoprev inclusive (heapify (map Z.opp revs))
    (if inclusive then list_to_set revs else ∅).

Section operations.
Context (pfunc : Z -> list Z).

(** ** Iteration *)

(** The body of the parent loop of [__iter__]: queue, seen set, output. *)
Definition iter_parent (stop : Z) (st : list Z * gset Z * list Z) (p : Z) :
    list Z * gset Z * list Z :=
  let '(visit, seen, out) := st in
  if decide (p >= stop /\ p ∉ seen) then (visit ++ [p], {[p]} ∪ seen, out ++ [p]) else st.

Fixpoint iter_loop (fuel : nat) (stop : Z) (visit : list Z) (seen : gset Z) (out : list Z) :
    res (list Z) :=
  match visit with
  | [] => Ok out
  | r :: visit =>
      match fuel with
      | O => Err OutOfFuel
      | S fuel =>
          let '(visit, seen, out) := foldl (iter_parent stop) (visit, seen, out) (pfunc r) in
          iter_loop fuel stop visit seen out
      end
  end.

(** Enough iterations: every revision enters the queue at most once besides
    the initial ones. *)
Definition walk_fuel (revs : list Z) : nat :=
  length revs + Z.to_nat (zmax_list nullrev revs + 1).

(** [__iter__], the sequence it yields. *)
Definition iter (self : lazyancestors) : res (list Z) :=
  let revs := initrevs self in
  if inclusive self
  then iter_loop (walk_fuel revs) (stoprev self) revs (list_to_set revs) revs
  else iter_loop (walk_fuel revs) (stoprev self) revs ∅ [].

(** [__nonzero__] *)
Definition nonzero (self : lazyancestors) : res bool :=
  let* l := iter self in Ok (match l with [] => false | _ => true end).

(** ** Membership *)

Definition contains_parent (stop target : Z) (st : list Z * gset Z * bool) (p : Z) :
    list Z * gset Z * bool :=
  let '(visit, seen, found) := st in
  if decide (p < stop \/ p ∈ seen) then st
  else (heappush (- p) visit, {[p]} ∪ seen, if decide (p = target) then true else found).

Fixpoint contains_loop (fuel : nat) (stop target : Z) (visit : list Z) (seen : gset Z)
    (found : bool) : res (bool * list Z * gset Z) :=
  match visit with
  | [] => Ok (found, visit, seen)
  | v :: rest =>
      if decide (- v > target /\ found = false) then
        match fuel with
        | O => Err OutOfFuel
        | S fuel =>
            let '(visit, seen, found) :=
              foldl (contains_parent stop target) (rest, seen, found) (pfunc (- v)) in
            contains_loop fuel stop target visit seen found
        end
      else Ok (found, visit, seen)
  end.

(** [__contains__]: the answer and the updated object. *)
Definition contains (target : Z) (self : lazyancestors) : res (bool * lazyancestors) :=
  if decide (target ∈ containsseen self) then Ok (true, self)
  else
    let fuel := (length (containsvisit self) + walk_fuel (initrevs self))%nat in
    let* (found, visit, seen) :=
      contains_loop fuel (stoprev self) target (containsvisit self) (containsseen self) false in
    Ok (found, Lazy (initrevs self) (stoprev self) (inclusive self) visit seen).

(** A sequence of membership tests on one object. *)
Fixpoint contains_all (targets : list Z) (self : lazyancestors) : res (list bool) :=
  match targets with
  | [] => Ok []
  | t :: ts =>
      let* (b, self) := contains t self in
      let* bs := contains_all ts self in
      Ok (b :: bs)
  end.

(** What the object denotes. *)
Definition member (revs : list Z) (stop : Z) (incl : bool) (x : Z) : Prop :=
  (incl = true /\ x ∈ revs) \/ (stop <= x /\ exists r, r ∈ revs /\ sanc pfunc x r).
End operations.

Section correctness.
Context (pfunc : Z -> list Z) `{!RevDag pfunc}.
Context (revs : list Z) (stop : Z) (incl : bool).
Hypothesis stop_nonneg : 0 <= stop.

Notation top := (zmax_list nullrev revs).
Notation walked := (fun x => stop <= x /\ exists r, r ∈ revs /\ sanc pfunc x r).

(** The revisions a walk can still discover. *)
Definition undiscovered (seen : gset Z) : gset Z := list_to_set (zrange 0 (top + 1)) ∖ seen.

Lemma undiscovered_add seen p :
  0 <= p <= top -> p ∉ seen ->
  size (undiscovered seen) = S (size (undiscovered ({[p]} ∪ seen))).
Proof.
  intros Hp Hn. unfold undiscovered.
  assert (list_to_set (zrange 0 (top + 1)) ∖ seen
    = {[p]} ∪ (list_to_set (zrange 0 (top + 1)) ∖ ({[p]} ∪ seen) : gset Z)) as ->.
  { apply set_eq. intros x. rewrite elem_of_union, !elem_of_difference, elem_of_singleton,
      elem_of_union, elem_of_singleton, elem_of_list_to_set, elem_of_zrange.
    destruct (decide (x = p)) as [->|]; naive_solver lia. }
  rewrite size_union by set_solver. by rewrite size_singleton.
Qed.

Lemma undiscovered_new new seen :
  NoDup new -> (forall p, p ∈ new -> 0 <= p <= top) -> (forall p, p ∈ new -> p ∉ seen) ->
  (size (undiscovered seen) = length new + size (undiscovered (seen ∪ list_to_set new)))%nat.
Proof.
  intros Hnd Hrange. revert seen. induction new as [|p new IH]; intros seen Hns; simpl.
  { by rewrite union_empty_r_L. }
  apply NoDup_cons in Hnd as [Hp Hnd].
  rewrite (undiscovered_add seen p); [|apply Hrange; by left|apply Hns; by left].
  rewrite (IH Hnd) by set_solver. f_equal. do 3 f_equal. set_solver.
Qed.

Lemma undiscovered_bound seen : (size (undiscovered seen) <= Z.to_nat (top + 1))%nat.
Proof.
  unfold undiscovered.
  trans (size (list_to_set (zrange 0 (top + 1)) : gset Z)); [apply subseteq_size; set_solver|].
  rewrite size_list_to_set by apply ascending_NoDup, zrange_ascending.
  rewrite length_zrange. lia.
Qed.

(** ** The common core of both walks

    [q] is what is queued, [seen] what was discovered: everything discovered
    is legitimate, and a discovered or initial revision is queued or has all
    its parents above [stop] discovered. *)
Record walk (q : list Z) (seen : gset Z) : Prop := {
  w_sound : forall x, x ∈ seen -> member pfunc revs stop incl x;
  w_incl : incl = true -> forall r, r ∈ revs -> r ∈ seen;
  w_queue : forall y, y ∈ q -> (y ∈ seen \/ y ∈ revs) /\ y <= top;
  w_closed : forall s, s ∈ seen \/ s ∈ revs ->
    s ∈ q \/ forall p, parent pfunc s p -> stop <= p -> p ∈ seen
}.

(** A parent of a queued revision is a member. *)
Lemma walk_parent q seen r p :
  walk q seen -> (r ∈ seen \/ r ∈ revs) -> r <= top -> p ∈ pfunc r -> p >= stop ->
  member pfunc revs stop incl p /\ 0 <= p <= top.
Proof.
  intros Hw Hr Hle Hp Hge.
  assert (parent pfunc r p) as Hpar by (split; [done|unfold nullrev; lia]).
  pose proof (parent_below _ _ _ Hpar). split; [|lia].
  right. split; [lia|].
  assert (r ∈ revs \/ exists r', r' ∈ revs /\ sanc pfunc r r') as [?|(r' & ? & ?)].
  { destruct Hr as [Hr%(w_sound _ _ Hw)|]; [|by left]. destruct Hr as [[_ ?]|[_ ?]]; auto. }
  - exists r. split; [done|]. by apply tc_once.
  - exists r'. split; [done|]. by eapply tc_r.
Qed.

(** Completeness: below a closed frontier nothing is missed. *)
Lemma walk_complete q seen x :
  walk q seen -> (forall y, y ∈ q -> y <= x) ->
  member pfunc revs stop incl x -> x ∈ seen.
Proof.
  intros Hw Hq [[Hi Hx]|(Hs & r & Hr & Hxr)]; [by eapply w_incl|].
  assert (r ∈ seen \/ r ∈ revs) as Hin by auto. clear Hr.
  unfold sanc in Hxr. induction Hxr as [r x Hp|r p x Hp Hxp IH].
  - destruct (w_closed _ _ Hw r Hin) as [Hrq|Hc]; [|by apply Hc].
    specialize (Hq r Hrq). apply parent_below in Hp; [lia|done].
  - pose proof (parent_below _ _ _ Hp). apply sanc_lt in Hxp as Hlt; [|done].
    destruct (w_closed _ _ Hw r Hin) as [Hrq|Hc]; [specialize (Hq r Hrq); lia|].
    apply IH; auto. left. apply Hc; [done|lia].
Qed.

(** Taking [r] off the queue and discovering its parents. *)
Lemma walk_step q seen r q' seen' :
  walk (r :: q) seen -> seen ⊆ seen' ->
  (forall p, p ∈ pfunc r -> p >= stop -> p ∈ seen') ->
  (forall s, s ∈ seen' -> s ∈ seen \/ (s ∈ pfunc r /\ s >= stop /\ s ∈ q')) ->
  (forall y, y ∈ q' <-> y ∈ q \/ (y ∈ seen' /\ y ∉ seen)) ->
  walk q' seen'.
Proof.
  intros Hw Hsub Hall Hnew Hq'.
  destruct (w_queue _ _ Hw r ltac:(by left)) as [Hr Hle].
  split.
  - intros x Hx. destruct (Hnew x Hx) as [?|(Hp & Hge & _)]; [by eapply w_sound|].
    by eapply walk_parent.
  - intros Hi s Hs. apply Hsub. by eapply w_incl.
  - intros y [Hy|[Hy Hn]]%Hq'.
    + destruct (w_queue _ _ Hw y ltac:(by right)) as [[?|?] ?]; set_solver.
    + split; [by left|]. destruct (Hnew y Hy) as [|(Hp & Hge & _)]; [done|].
      by eapply walk_parent in Hp as [_ ?]; eauto; lia.
  - intros s Hs. destruct (decide (s = r)) as [->|Hne].
    { right. intros p [Hp _] Hge. apply Hall; [done|lia]. }
    destruct (decide (s ∈ seen \/ s ∈ revs)) as [Hold|Hold].
    + destruct (w_closed _ _ Hw s Hold) as [[?|?]%elem_of_cons|Hc]; [done|left; apply Hq'; by left|].
      right. intros p ? ?. apply Hsub. by apply Hc.
    + left. destruct Hs as [Hs|Hs]; [|tauto]. apply Hq'. right. split; [done|tauto].
Qed.

Lemma walk_init : walk revs (if incl then list_to_set revs else ∅).
Proof.
  split.
  - intros x. destruct incl eqn:E; [|set_solver]. intros ?%elem_of_list_to_set.
    by left.
  - intros E r Hr. rewrite E. set_solver.
  - intros y Hy. split; [by right|by apply zmax_list_ge].
  - intros s Hs. left. destruct incl; destruct Hs; set_solver.
Qed.

(** ** Iteration *)

(** Effect of the parent loop on queue, seen set and output. *)
Lemma iter_parents_spec ps visit seen out :
  exists new, foldl (iter_parent stop) (visit, seen, out) ps
    = (visit ++ new, seen ∪ list_to_set new, out ++ new) /\
  NoDup new /\
  (forall p, p ∈ new <-> p ∈ ps /\ p >= stop /\ p ∉ seen).
Proof.
  revert visit seen out. induction ps as [|p ps IH]; intros visit seen out; simpl.
  { exists []. rewrite !app_nil_r. split_and!; [do 2 f_equal; set_solver|constructor|set_solver]. }
  destruct (decide (p >= stop /\ p ∉ seen)) as [[Hge Hn]|Hno].
  - destruct (IH (visit ++ [p]) ({[p]} ∪ seen) (out ++ [p])) as (new & Heq & Hnd & Hin).
    exists (p :: new). rewrite Heq, <- !(assoc_L (++)). simpl. split_and!.
    + f_equal. f_equal. set_solver.
    + constructor; [|done]. rewrite Hin. set_solver.
    + intros x. rewrite !elem_of_cons, Hin, not_elem_of_union, not_elem_of_singleton.
      destruct (decide (x = p)) as [->|]; naive_solver.
  - destruct (IH visit seen out) as (new & Heq & Hnd & Hin).
    exists new. split_and!; auto. intros x. rewrite Hin, elem_of_cons.
    split; [naive_solver|]. intros ([->|?] & ? & ?); [tauto|done].
Qed.

Lemma iter_loop_spec fuel visit seen base out :
  walk visit seen -> NoDup out ->
  seen = (if incl then list_to_set revs else ∅) ∪ list_to_set out ->
  (forall x, x ∈ out -> incl = true -> x ∉ revs) ->
  (length visit + size (undiscovered seen) <= fuel)%nat ->
  exists out', iter_loop pfunc fuel stop visit seen (base ++ out) = Ok (base ++ out') /\
    NoDup out' /\ (forall x, x ∈ out' -> incl = true -> x ∉ revs) /\
    walk [] ((if incl then list_to_set revs else ∅) ∪ list_to_set out').
Proof.
  revert visit seen out. induction fuel as [|fuel IH]; intros visit seen out Hw Hnd Hseen Hdis Hf.
  { destruct visit as [|r visit]; [|simpl in Hf; lia]. simpl. exists out. by subst seen. }
  destruct visit as [|r visit]; simpl.
  { exists out. by subst seen. }
  destruct (iter_parents_spec (pfunc r) visit seen (base ++ out)) as (new & -> & Hndn & Hin).
  rewrite <- (assoc_L (++)).
  assert (forall p, p ∈ new -> 0 <= p <= top) as Hrange.
  { intros p (Hp & Hge & _)%Hin.
    destruct (w_queue _ _ Hw r ltac:(by left)) as [Hr Hle].
    by eapply (walk_parent _ _ r p Hw) in Hp as [_ ?]; eauto. }
  apply IH.
  - eapply walk_step; [exact Hw|set_solver|..].
    + intros p Hp Hge. destruct (decide (p ∈ seen)); [set_solver|].
      apply elem_of_union_r, elem_of_list_to_set, Hin. done.
    + intros s [?|Hs%elem_of_list_to_set]%elem_of_union; [by left|right].
      pose proof Hs as (? & ? & ?)%Hin. set_solver.
    + intros y. rewrite elem_of_app, elem_of_union, elem_of_list_to_set.
      specialize (Hin y). split; [naive_solver|]. intros [?|[[?|?] ?]]; naive_solver.
  - apply NoDup_app. split_and!; [done| |done]. intros x Hx (_ & _ & Hn)%Hin.
    subst seen. set_solver.
  - subst seen. set_solver.
  - intros x [?|(_ & _ & Hn)%Hin]%elem_of_app Hi; [auto|]. subst seen. rewrite Hi in Hn. set_solver.
  - assert (forall p, p ∈ new -> p ∉ seen) as Hns by (intros p; rewrite Hin; tauto).
    pose proof (undiscovered_new new seen Hndn Hrange Hns).
    rewrite length_app. simpl in Hf. lia.
Qed.
(** ** Membership *)

Notation queued := (map Z.opp).

Lemma elem_of_queued visit y : y ∈ queued visit <-> - y ∈ visit.
Proof.
  rewrite list_elem_of_fmap. split.
  - intros (x & -> & Hx). by rewrite Z.opp_involutive.
  - intros Hy. exists (- y). by rewrite Z.opp_involutive.
Qed.

Lemma contains_parents_spec target ps visit seen found :
  StronglySorted Z.le visit ->
  exists new visit' found',
    foldl (contains_parent stop target) (visit, seen, found) ps
      = (visit', seen ∪ list_to_set new, found') /\
    NoDup new /\ (forall p, p ∈ new <-> p ∈ ps /\ p >= stop /\ p ∉ seen) /\
    StronglySorted Z.le visit' /\ length visit' = (length visit + length new)%nat /\
    (forall y, y ∈ queued visit' <-> y ∈ queued visit \/ y ∈ new) /\
    (found' = true <-> found = true \/ target ∈ new).
Proof.
  revert visit seen found. induction ps as [|p ps IH]; intros visit seen found Hs; simpl.
  { exists [], visit, found. split_and!; [do 2 f_equal; set_solver|constructor|set_solver|done|simpl; lia|set_solver|set_solver]. }
  destruct (decide (p < stop \/ p ∈ seen)) as [Hno|Hyes].
  - destruct (IH visit seen found Hs) as (new & visit' & found' & Heq & Hnd & Hin & Hrest).
    exists new, visit', found'. split_and!; try tauto. intros x. rewrite Hin, elem_of_cons.
    split; [naive_solver|]. intros ([->|?] & ? & ?); [destruct Hno; [lia|done]|done].
  - destruct (IH (heappush (- p) visit) ({[p]} ∪ seen) (if decide (p = target) then true else found)
      ltac:(by apply heappush_sorted)) as (new & visit' & found' & Heq & Hnd & Hin & Hs' & Hlen & Hq & Hf).
    exists (p :: new), visit', found'. rewrite Heq. split_and!.
    + do 2 f_equal. simpl. set_solver.
    + constructor; [|done]. rewrite Hin. set_solver.
    + intros x. rewrite !elem_of_cons, Hin, not_elem_of_union, not_elem_of_singleton.
      destruct (decide (x = p)) as [->|]; [|naive_solver].
      split; [|tauto]. intros _. split; [by left|].
      split; [destruct (decide (p < stop)); [tauto|lia]|tauto].
    + done.
    + rewrite Hlen, length_heappush. simpl. lia.
    + intros y. rewrite Hq, !elem_of_queued, elem_of_heappush, elem_of_cons.
      assert (- y = - p <-> y = p) by lia. tauto.
    + rewrite Hf, elem_of_cons. destruct (decide (p = target)); naive_solver.
Qed.

Lemma contains_loop_spec fuel target visit seen found :
  walk (queued visit) seen -> StronglySorted Z.le visit ->
  (found = true <-> target ∈ seen) ->
  (length visit + size (undiscovered seen) <= fuel)%nat ->
  exists b visit' seen', contains_loop pfunc fuel stop target visit seen found
    = Ok (b, visit', seen') /\
    walk (queued visit') seen' /\ StronglySorted Z.le visit' /\
    (b = true <-> member pfunc revs stop incl target).
Proof.
  revert visit seen found. induction fuel as [|fuel IH]; intros visit seen found Hw Hs Hf Hfuel.
  all: assert (forall q', q' = visit -> (forall y, y ∈ queued q' -> y <= target) \/ found = true ->
    (found = true <-> member pfunc revs stop incl target)) as Hexit.
  1, 3: intros q' -> Hq; rewrite Hf; split; [apply (w_sound _ _ Hw)|];
    intros Hm; destruct Hq as [Hq|Hq]; [by eapply walk_complete|by apply Hf].
  - destruct visit as [|v visit]; [|simpl in Hfuel; lia]. simpl.
    exists found, [], seen. split_and!; auto. apply (Hexit []); [done|left; set_solver].
  - destruct visit as [|v visit]; simpl.
    { exists found, [], seen. split_and!; auto. apply (Hexit []); [done|left; set_solver]. }
    destruct (decide (- v > target /\ found = false)) as [[Hgt ->]|Hstop].
    + inversion Hs as [|? ? Hs' Hv]; subst.
      destruct (contains_parents_spec target (pfunc (- v)) visit seen false Hs')
        as (new & visit' & found' & -> & Hnd & Hin & Hsv & Hlen & Hq & Hfound).
      simpl in Hw. assert (forall p, p ∈ new -> 0 <= p <= top) as Hrange.
      { intros p (Hp & Hge & _)%Hin.
        destruct (w_queue _ _ Hw (- v) ltac:(by left)) as [Hr Hle].
        by eapply (walk_parent _ _ (- v) p Hw) in Hp as [_ ?]; eauto. }
      apply IH; [|done|..].
      * eapply walk_step; [exact Hw|set_solver|..].
        -- intros p Hp Hge. destruct (decide (p ∈ seen)); [set_solver|].
           apply elem_of_union_r, elem_of_list_to_set, Hin. done.
        -- intros s [?|Hn%elem_of_list_to_set]%elem_of_union; [by left|right].
           pose proof Hn as (? & ? & ?)%Hin. split_and!; [done..|]. apply Hq. by right.
        -- intros y. rewrite Hq, elem_of_union, elem_of_list_to_set.
           specialize (Hin y). split; [naive_solver|]. intros [?|[[?|?] ?]]; naive_solver.
      * rewrite Hfound, elem_of_union, elem_of_list_to_set. rewrite <- Hf. naive_solver.
      * assert (forall p, p ∈ new -> p ∉ seen) as Hns by (intros p; rewrite Hin; tauto).
        pose proof (undiscovered_new new seen Hnd Hrange Hns). simpl in Hfuel. lia.
    + exists found, (v :: visit), seen. split_and!; auto. apply (Hexit (v :: visit)); [done|].
      destruct found; [by right|left]. intros y Hy%elem_of_queued.
      inversion Hs as [|? ? Hs' Hv]; subst. rewrite Forall_forall in Hv.
      apply elem_of_cons in Hy as [Hy|Hy]; [lia|]. specialize (Hv _ Hy). lia.
Qed.
End correctness.

(** The state between membership tests. *)
Definition wf (pfunc : Z -> list Z) (self : lazyancestors) : Prop :=
  walk pfunc (initrevs self) (stoprev self) (inclusive self)
    (map Z.opp (containsvisit self)) (containsseen self) /\
  StronglySorted Z.le (containsvisit self) /\ 0 <= stoprev self.

Section theorems.
Context (pfunc : Z -> list Z) `{!RevDag pfunc}.

(** [C5] Iteration terminates within the stated number of steps and yields the
    initial revisions (when inclusive) followed, without repetition, by exactly
    the proper ancestors that are not below [stoprev]. *)
Theorem iter_correct (revs : list Z) (stop : Z) (incl : bool) :
  0 <= stop ->
  exists out, iter pfunc (init revs stop incl) = Ok ((if incl then revs else []) ++ out) /\
    NoDup out /\ (incl = true -> forall x, x ∈ out -> x ∉ revs) /\
    (forall x, x ∈ (if incl then revs else []) ++ out <-> member pfunc revs stop incl x).
Proof.
  intros Hstop.
  destruct (iter_loop_spec pfunc revs stop incl Hstop (walk_fuel revs) revs
    (if incl then list_to_set revs else ∅) (if incl then revs else []) [])
    as (out & Heq & Hnd & Hdis & Hw).
  - by apply walk_init.
  - constructor.
  - set_solver.
  - set_solver.
  - unfold walk_fuel. pose proof (undiscovered_bound pfunc revs stop Hstop
      (if incl then list_to_set revs else ∅)). lia.
  - exists out. split_and!; auto.
    + unfold iter. simpl. rewrite app_nil_r in Heq. by destruct incl.
    + intros x. assert (x ∈ (if incl then revs else []) ++ out <->
        x ∈ ((if incl then list_to_set revs else ∅) ∪ list_to_set out : gset Z)) as ->
        by (destruct incl; set_solver).
      split; [apply (w_sound _ _ _ _ _ _ Hw)|].
      intros Hm. eapply walk_complete; [done|exact Hw| |done].
      intros y []%elem_of_nil.
Qed.

Lemma lazy_init_wf revs stop incl : 0 <= stop -> wf pfunc (init revs stop incl).
Proof.
  intros Hstop. unfold wf, init. simpl. split_and!; [|apply zsort_le_sorted|done].
  pose proof (walk_init pfunc revs stop incl Hstop) as [].
  split; auto.
  - intros y Hy%elem_of_queued. apply w_queue0. apply elem_of_zsort, list_elem_of_fmap in Hy.
    destruct Hy as (x & E & Hx). by replace y with x by lia.
  - intros s Hs. destruct (w_closed0 s Hs) as [Hq|?]; [left|by right].
    apply elem_of_queued, elem_of_zsort, list_elem_of_fmap. eauto.
Qed.

Lemma contains_spec target self :
  wf pfunc self ->
  exists b self', contains pfunc target self = Ok (b, self') /\ wf pfunc self' /\
    initrevs self' = initrevs self /\ stoprev self' = stoprev self /\
    inclusive self' = inclusive self /\
    (b = true <-> member pfunc (initrevs self) (stoprev self) (inclusive self) target).
Proof.
  intros (Hw & Hs & Hstop). unfold contains.
  destruct (decide (target ∈ containsseen self)) as [Hin|Hin].
  { exists true, self. split_and!; auto; [done|].
    split; [intros _; by eapply w_sound|done]. }
  destruct (contains_loop_spec pfunc (initrevs self) (stoprev self) (inclusive self) Hstop
    (length (containsvisit self) + walk_fuel (initrevs self)) target (containsvisit self)
    (containsseen self) false Hw Hs) as (b & visit & seen & -> & Hw' & Hs' & Hb).
  { split; [done|tauto]. }
  { pose proof (undiscovered_bound pfunc (initrevs self) _ Hstop (containsseen self)).
    unfold walk_fuel. lia. }
  simpl. eexists b, _. split_and!; eauto. split_and!; eauto.
Qed.

(** [C6] On one object, any sequence of membership tests returns, and each
    answer says exactly whether the revision belongs to the set: the heap and
    seen set left behind by earlier tests never change a later answer. *)
Theorem contains_all_correct (revs : list Z) (stop : Z) (incl : bool) (targets : list Z) :
  0 <= stop ->
  exists bs, contains_all pfunc targets (init revs stop incl) = Ok bs /\
    Forall2 (fun t b => b = true <-> member pfunc revs stop incl t) targets bs.
Proof.
  intros Hstop.
  assert (forall self, wf pfunc self -> initrevs self = revs -> stoprev self = stop ->
    inclusive self = incl -> exists bs, contains_all pfunc targets self = Ok bs /\
    Forall2 (fun t b => b = true <-> member pfunc revs stop incl t) targets bs) as H;
    [|by apply H; [apply lazy_init_wf|..]].
  induction targets as [|t ts IH]; intros self Hwf <- <- <-; simpl.
  { exists []. split; [done|constructor]. }
  destruct (contains_spec t self Hwf) as (b & self' & -> & Hwf' & E1 & E2 & E3 & Hb). simpl.
  destruct (IH self' Hwf' E1 E2 E3) as (bs & -> & Hbs). simpl.
  exists (b :: bs). split; [done|]. by constructor.
Qed.
End theorems.

Lemma iter_witness :
  iter (Revlog.pfunc_of example_index) (init [4] 1 true) = Ok [4; 2; 3; 1] /\
  exists out, iter (Revlog.pfunc_of example_index) (init [4] 1 true) = Ok ([4] ++ out) /\ NoDup out.
Proof.
  split; [vm_compute; reflexivity|].
  destruct (@iter_correct (Revlog.pfunc_of example_index) example_dag [4] 1 true ltac:(lia))
    as (out & E & Hnd & _).
  exists out. split; assumption.
Defined.

Lemma contains_all_witness :
  contains_all (Revlog.pfunc_of example_index) [3; 5; 0; 4] (init [4] 0 false)
    = Ok [true; false; true; false] /\
  exists bs, contains_all (Revlog.pfunc_of example_index) [3; 5; 0; 4] (init [4] 0 false) = Ok bs.
Proof.
  split; [vm_compute; reflexivity|].
  destruct (@contains_all_correct (Revlog.pfunc_of example_index) example_dag [4] 0 false
    [3; 5; 0; 4] ltac:(lia)) as (bs & E & _).
  exists bs. exact E.
Defined.
End LazyAncestors.
