(* ===== verification/CommonAncestors.v ===== *)
(** * Heads of the common ancestors ([commonancestorsheads] of ancestor.py)

    Every queried node gets a bit; the bits flow down the parent edges in one
    sweep over the revision numbers.  A revision that holds all bits is a
    common ancestor, and it poisons its own ancestors so that only heads are
    reported.  The counter [interesting] stops the sweep early.  The list
    [seen], indexed by revision, is a finite map with default 0: the code only
    indexes it by revisions it has room for. *)

From S2P Require Import Prelude Dag.

Module CommonAncestors.

Definition seen_at (seen : gmap Z Z) (v : Z) : Z := default 0 (seen !! v).

(** [seen[n] = 1 << i] for [i, n in enumerate(nodes)] *)
Definition mark_nodes (ns : list Z) : gmap Z Z :=
  foldl (fun seen (ie : nat * Z) => <[ie.2 := Z.shiftl 1 (Z.of_nat ie.1)]> seen) ∅ (imap pair ns).

Section sweep.
Context (pfunc : Z -> list Z) (nodes : gset Z).

(** [allseen] and [poison] *)
Definition allseen : Z := Z.shiftl 1 (Z.of_nat (size nodes)) - 1.
Definition poison : Z := Z.shiftl 1 (Z.of_nat (size nodes)).

(** The parent loop of a revision that is not poisoned. *)
Definition flow_parent (sv : Z) (st : gmap Z Z * Z) (p : Z) : gmap Z Z * Z :=
  let '(seen, interesting) := st in
  if decide (p = nullrev) then st
  else
    let sp := seen_at seen p in
    if decide (sp = 0) then (<[p := sv]> seen, interesting + 1)
    else if decide (sp ≠ sv) then (<[p := Z.lor sp sv]> seen, interesting)
    else st.

(** The parent loop of a poisoned revision. *)
Definition poison_parent (sv : Z) (st : gmap Z Z * Z) (p : Z) : gmap Z Z * Z :=
  let '(seen, interesting) := st in
  if decide (p = nullrev) then st
  else
    let sp := seen_at seen p in
    let interesting := if decide (sp ≠ 0 /\ sp < poison) then interesting - 1 else interesting in
    (<[p := sv]> seen, interesting).

(** The sweep over [nv, nv-1, ..., 0]. *)
Fixpoint sweep (vs : list Z) (seen : gmap Z Z) (interesting : Z) (gca : gset Z) : gset Z :=
  match vs with
  | [] => gca
  | v :: vs =>
      if decide (interesting = 0) then gca
      else
        let sv := seen_at seen v in
        if decide (sv = 0) then sweep vs seen interesting gca
        else if decide (sv < poison) then
          let interesting := interesting - 1 in
          if decide (sv = allseen) then
            let gca := {[v]} ∪ gca in
            if decide (v ∈ nodes) then {[v]}
            else
              let sv := Z.lor sv poison in
              let '(seen, interesting) := foldl (poison_parent sv) (seen, interesting) (pfunc v) in
              sweep vs seen interesting gca
          else
            let '(seen, interesting) := foldl (flow_parent sv) (seen, interesting) (pfunc v) in
            sweep vs seen interesting gca
        else
          let '(seen, interesting) := foldl (poison_parent sv) (seen, interesting) (pfunc v) in
          sweep vs seen interesting gca
  end.

(** [commonancestorsheads] *)
Definition commonancestorsheads : gset Z :=
  if decide (nullrev ∈ nodes) then ∅
  else if decide (size nodes <= 1)%nat then nodes
  else sweep (zrange_down (zmax_set nodes) nullrev) (mark_nodes (elements nodes))
         (Z.of_nat (size nodes)) ∅.
End sweep.

(** ** Finite-map view of [seen] *)

Lemma seen_at_insert seen p s x :
  seen_at (<[p := s]> seen) x = if decide (x = p) then s else seen_at seen x.
Proof.
  unfold seen_at. destruct (decide (x = p)) as [->|].
  - by rewrite lookup_insert_eq.
  - by rewrite lookup_insert_ne.
Qed.

Lemma mark_nodes_go ns k (seen : gmap Z Z) x :
  NoDup ns ->
  seen_at (foldl (fun seen (ie : nat * Z) => <[ie.2 := Z.shiftl 1 (Z.of_nat ie.1)]> seen) seen
    (imap (fun i n => ((k + i)%nat, n)) ns)) x
  = match list_find (fun n => n = x) ns with
    | Some (i, _) => Z.shiftl 1 (Z.of_nat (k + i))
    | None => seen_at seen x
    end.
Proof.
  revert k seen. induction ns as [|n ns IH]; intros k seen Hnd; simpl; [done|].
  apply NoDup_cons in Hnd as [Hn Hnd].
  rewrite (imap_ext _ (fun i n => ((S k + i)%nat, n))) by (intros; simpl; f_equal; lia).
  rewrite IH by done. simpl. rewrite seen_at_insert.
  destruct (decide (n = x)) as [->|Hne].
  - rewrite decide_True by done.
    destruct (list_find (fun n => n = x) ns) as [[i m]|] eqn:E; simpl; [|by rewrite Nat.add_0_r].
    apply list_find_Some in E as (Hi & -> & _). by apply list_elem_of_lookup_2 in Hi.
  - rewrite decide_False by done.
    destruct (list_find (fun n => n = x) ns) as [[i m]|]; simpl; [|done].
    do 2 f_equal. lia.
Qed.

Lemma mark_nodes_at ns x :
  NoDup ns ->
  (exists i, ns !! i = Some x /\ seen_at (mark_nodes ns) x = 2 ^ Z.of_nat i) \/
  (x ∉ ns /\ seen_at (mark_nodes ns) x = 0).
Proof.
  intros Hnd. unfold mark_nodes.
  change (imap pair ns) with (imap (fun i n => ((0 + i)%nat, n)) ns).
  rewrite (mark_nodes_go ns 0 ∅ x Hnd).
  destruct (list_find (fun n => n = x) ns) as [[i n]|] eqn:E.
  - apply list_find_Some in E as (Hi & -> & _). left. exists i. split; [done|].
    rewrite Z.shiftl_1_l. f_equal.
  - right. apply list_find_None in E. split; [|done].
    intros Hin. rewrite Forall_forall in E. by apply (E x).
Qed.

(** ** Bit masks *)

Lemma poison_pow nodes : poison nodes = 2 ^ Z.of_nat (size nodes).
Proof. unfold poison. by rewrite Z.shiftl_1_l. Qed.

Lemma allseen_ones nodes : allseen nodes = Z.ones (Z.of_nat (size nodes)).
Proof. unfold allseen. rewrite Z.shiftl_1_l, Z.ones_equiv. lia. Qed.

Lemma lt_pow_testbit s k :
  0 <= k -> 0 <= s < 2 ^ (k + 1) -> s < 2 ^ k <-> Z.testbit s k = false.
Proof.
  intros Hk Hs. split.
  - intros Hlt. eapply Z.bounded_iff_bits_nonneg in Hlt; [exact Hlt|done|lia|lia].
  - intros Hf. apply Z.bounded_iff_bits_nonneg; [done|lia|]. intros l Hl.
    destruct (decide (l = k)) as [->|]; [done|].
    eapply Z.bounded_iff_bits_nonneg; [|lia|apply Hs|]; lia.
Qed.

Lemma lor_bound a b k : 0 <= k -> 0 <= a < 2 ^ k -> 0 <= b < 2 ^ k -> 0 <= Z.lor a b < 2 ^ k.
Proof.
  intros Hk Ha Hb. split; [apply Z.lor_nonneg; lia|].
  apply Z.bounded_iff_bits_nonneg; [done|apply Z.lor_nonneg; lia|]. intros l Hl.
  rewrite Z.lor_spec.
  rewrite (proj1 (Z.bounded_iff_bits_nonneg k a Hk ltac:(lia)) ltac:(lia) l Hl).
  by rewrite (proj1 (Z.bounded_iff_bits_nonneg k b Hk ltac:(lia)) ltac:(lia) l Hl).
Qed.

Lemma nonzero_testbit s k : 0 <= s -> Z.testbit s k = true -> s ≠ 0.
Proof. intros _ H ->. by rewrite Z.testbit_0_l in H. Qed.

Lemma all_bits_allseen nodes s :
  0 <= s < poison nodes ->
  (s = allseen nodes <-> forall i, (i < size nodes)%nat -> Z.testbit s (Z.of_nat i) = true).
Proof.
  rewrite allseen_ones, poison_pow. intros Hs. split.
  - intros -> i Hi. apply Z.ones_spec_low. lia.
  - intros Hall. apply Z.bits_inj'. intros l Hl.
    rewrite Z.testbit_ones_nonneg by lia. destruct (l <? Z.of_nat (size nodes)) eqn:E.
    + apply Z.ltb_lt in E. specialize (Hall (Z.to_nat l) ltac:(lia)).
      by rewrite Z2Nat.id in Hall by lia.
    + apply Z.ltb_ge in E. eapply Z.bounded_iff_bits_nonneg; [|lia|apply Hs|]; lia.
Qed.

(** ** Counting interesting revisions *)

Section count.
Context (nodes : gset Z).

Definition interestingb (seen : gmap Z Z) (x : Z) : bool :=
  bool_decide (seen_at seen x ≠ 0 /\ seen_at seen x < poison nodes).

(** Interesting revisions in [0, c). *)
Definition count (seen : gmap Z Z) (c : Z) : Z :=
  Z.of_nat (length (filter (fun x => interestingb seen x = true) (zrange 0 c))).

Lemma count_ext seen seen' c :
  (forall x, 0 <= x < c -> interestingb seen x = interestingb seen' x) ->
  count seen c = count seen' c.
Proof.
  intros H. unfold count. do 2 f_equal. apply list_filter_iff_in.
  apply Forall_forall. intros x Hx%elem_of_zrange. by rewrite (H x).
Qed.

Lemma count_split seen p c :
  0 <= p < c ->
  count seen c = count seen p + Z.b2z (interestingb seen p) +
    Z.of_nat (length (filter (fun x => interestingb seen x = true) (zrange (p + 1) c))).
Proof.
  intros Hp. unfold count. rewrite (zrange_app 0 p c) by lia.
  rewrite (zrange_cons p c) by lia. rewrite filter_app, length_app, filter_cons.
  destruct (interestingb seen p); simpl; lia.
Qed.

Lemma count_insert seen p s c :
  0 <= p < c ->
  count (<[p := s]> seen) c
  = count seen c - Z.b2z (interestingb seen p) + Z.b2z (interestingb (<[p := s]> seen) p).
Proof.
  intros Hp. rewrite !(count_split _ p c) by done.
  assert (forall x, x ≠ p -> interestingb (<[p := s]> seen) x = interestingb seen x) as Hne.
  { intros x Hx. unfold interestingb. by rewrite seen_at_insert, decide_False. }
  rewrite (count_ext (<[p := s]> seen) seen p) by (intros; apply Hne; lia).
  assert (filter (fun x => interestingb (<[p := s]> seen) x = true) (zrange (p + 1) c)
    = filter (fun x => interestingb seen x = true) (zrange (p + 1) c)) as ->.
  { apply list_filter_iff_in. apply Forall_forall. intros x Hx%elem_of_zrange.
    by rewrite (Hne x) by lia. }
  lia.
Qed.

Lemma count_zero seen c x : count seen c = 0 -> 0 <= x < c -> interestingb seen x = false.
Proof.
  intros H Hx. destruct (interestingb seen x) eqn:E; [|done].
  unfold count in H. assert (x ∈ filter (fun x => interestingb seen x = true) (zrange 0 c)) as Hin.
  { apply list_elem_of_filter. split; [done|]. by apply elem_of_zrange. }
  destruct (filter _ _); [by apply elem_of_nil in Hin|simpl in H; lia].
Qed.
End count.

(** ** The parent loops *)

Section parents.
Context (nodes : gset Z).
Notation n := (Z.of_nat (size nodes)).

Definition poisoned (seen : gmap Z Z) (x : Z) : Prop := Z.testbit (seen_at seen x) n = true.
Definition bit (seen : gmap Z Z) (x : Z) (i : nat) : Prop :=
  Z.testbit (seen_at seen x) (Z.of_nat i) = true.
Definition bounded (seen : gmap Z Z) : Prop :=
  forall x, 0 <= seen_at seen x < 2 ^ (n + 1).

Lemma poisoned_ge seen x : bounded seen -> poisoned seen x <-> ~ seen_at seen x < poison nodes.
Proof.
  intros Hb. unfold poisoned. rewrite poison_pow.
  rewrite (lt_pow_testbit _ n) by (lia || apply Hb). by rewrite not_false_iff_true.
Qed.

Lemma interestingb_true seen x :
  bounded seen -> interestingb nodes seen x = true <-> seen_at seen x ≠ 0 /\ ~ poisoned seen x.
Proof.
  intros Hb. unfold interestingb. rewrite bool_decide_eq_true, (poisoned_ge seen x Hb).
  destruct (decide (seen_at seen x < poison nodes)); tauto.
Qed.

(** The parents a step touches lie below the revision swept. *)
Notation below c ps := (forall p, p ∈ ps -> p = nullrev \/ 0 <= p < c).

Lemma flow_parents_spec sv ps seen k c :
  0 < sv < poison nodes -> bounded seen -> below c ps ->
  exists seen' k', foldl (flow_parent sv) (seen, k) ps = (seen', k') /\ bounded seen' /\
    (forall x, seen_at seen' x
      = if decide (x ∈ ps /\ x ≠ nullrev) then Z.lor (seen_at seen x) sv else seen_at seen x) /\
    k' = k - count nodes seen c + count nodes seen' c.
Proof.
  intros Hsv. revert seen k.
  induction ps as [|p ps IH]; intros seen k Hb Hps; cbn [foldl flow_parent].
  { exists seen, k. split_and!; [done|done| |lia]. intros x. case_decide as E; [|done].
    destruct E as [[]%elem_of_nil _]. }
  assert (Hps' : below c ps) by set_solver.
  destruct (decide (p = nullrev)) as [->|Hn].
  { destruct (IH seen k Hb Hps') as (seen' & k' & -> & Hb' & Hat & Hk).
    exists seen', k'. split_and!; auto. intros x. rewrite Hat.
    apply decide_ext. set_solver. }
  assert (0 <= p < c) as Hpc by (destruct (Hps p); [by left|done|done]).
  assert (0 <= sv < 2 ^ (n + 1)) as Hsvb.
  { rewrite poison_pow in Hsv. rewrite Z.pow_add_r by lia. lia. }
  set (sp := seen_at seen p).
  set (seen1 := if decide (sp = 0) then <[p := sv]> seen
                else if decide (sp ≠ sv) then <[p := Z.lor sp sv]> seen else seen).
  set (k1 := if decide (sp = 0) then k + 1 else k).
  assert (forall x, seen_at seen1 x = if decide (x = p) then Z.lor sp sv else seen_at seen x) as Hat1.
  { intros x. unfold seen1. destruct (decide (sp = 0)) as [E0|].
    { rewrite seen_at_insert. destruct (decide (x = p)); [|done]. by rewrite E0, Z.lor_0_l. }
    destruct (decide (sp ≠ sv)) as [|E%dec_stable]; [by rewrite seen_at_insert|].
    destruct (decide (x = p)) as [->|]; [|done]. fold sp. by rewrite E, Z.lor_diag. }
  assert (bounded seen1) as Hb1.
  { intros x. rewrite Hat1. destruct (decide (x = p)); [|apply Hb].
    apply lor_bound; [lia|apply Hb|done]. }
  assert (k1 = k - count nodes seen c + count nodes seen1 c) as Hk1.
  { unfold k1. assert (Z.testbit sv n = false) as Hnp.
    { apply lt_pow_testbit; [lia|done|]. rewrite <- poison_pow. lia. }
    assert (count nodes seen1 c = count nodes (<[p := Z.lor sp sv]> seen) c) as ->.
    { apply count_ext. intros x _. unfold interestingb. by rewrite Hat1, seen_at_insert. }
    rewrite count_insert by done.
    assert (bounded (<[p := Z.lor sp sv]> seen)) as Hbi.
    { intros x. rewrite seen_at_insert. specialize (Hb1 x). by rewrite Hat1 in Hb1. }
    pose proof (interestingb_true (<[p := Z.lor sp sv]> seen) p Hbi) as Hi.
    pose proof (interestingb_true seen p Hb) as Hi0. unfold poisoned in *.
    rewrite seen_at_insert, decide_True in Hi by done. fold sp in Hi0.
    set (j := interestingb nodes (<[p := Z.lor sp sv]> seen) p) in *. clearbody j.
    set (j0 := interestingb nodes seen p) in *. clearbody j0.
    rewrite Z.lor_spec, Hnp, orb_false_r in Hi.
    assert (Z.lor sp sv ≠ 0) as Hnz by (rewrite Z.lor_eq_0_iff; lia).
    destruct (decide (sp = 0)) as [E0|].
    - rewrite E0, Z.testbit_0_l in Hi, Hi0.
      rewrite Z.lor_0_l in Hi.
      destruct j0; [naive_solver|]. destruct j; simpl; [lia|].
      assert (false = true) by (apply Hi; split; [lia|done]). done.
    - destruct j0, j; simpl; naive_solver lia. }
  assert (foldl (flow_parent sv) (if decide (sp = 0) then (<[p := sv]> seen, k + 1)
     else if decide (sp ≠ sv) then (<[p := Z.lor sp sv]> seen, k) else (seen, k)) ps
    = foldl (flow_parent sv) (seen1, k1) ps) as ->.
  { unfold seen1, k1. by repeat case_decide. }
  destruct (IH seen1 k1 Hb1 Hps') as (seen' & k' & -> & Hb' & Hat & Hk).
  exists seen', k'. split_and!; auto; [|lia].
  intros x. rewrite Hat, Hat1. destruct (decide (x = p)) as [->|Hxp].
  - rewrite (decide_True (P := p ∈ p :: ps /\ _)) by (split; [by left|done]).
    fold sp. destruct (decide (p ∈ ps /\ p ≠ nullrev)); [|reflexivity].
    by rewrite <- Z.lor_assoc, Z.lor_diag.
  - apply decide_ext. set_solver.
Qed.

Lemma poison_parents_spec sv ps seen k c :
  ~ sv < poison nodes -> 0 <= sv < 2 ^ (n + 1) -> bounded seen -> below c ps ->
  exists seen' k', foldl (poison_parent nodes sv) (seen, k) ps = (seen', k') /\ bounded seen' /\
    (forall x, seen_at seen' x
      = if decide (x ∈ ps /\ x ≠ nullrev) then sv else seen_at seen x) /\
    k' = k - count nodes seen c + count nodes seen' c.
Proof.
  intros Hsv Hsvb. revert seen k.
  induction ps as [|p ps IH]; intros seen k Hb Hps; cbn [foldl poison_parent].
  { exists seen, k. split_and!; [done|done| |lia]. intros x. case_decide as E; [|done].
    destruct E as [[]%elem_of_nil _]. }
  assert (Hps' : below c ps) by set_solver.
  destruct (decide (p = nullrev)) as [->|Hn].
  { destruct (IH seen k Hb Hps') as (seen' & k' & -> & Hb' & Hat & Hk).
    exists seen', k'. split_and!; auto. intros x. rewrite Hat.
    apply decide_ext. set_solver. }
  assert (0 <= p < c) as Hpc by (destruct (Hps p); [by left|done|done]).
  set (k1 := if decide (seen_at seen p ≠ 0 /\ seen_at seen p < poison nodes) then k - 1 else k).
  assert (bounded (<[p := sv]> seen)) as Hb1.
  { intros x. rewrite seen_at_insert. case_decide; [done|apply Hb]. }
  assert (k1 = k - count nodes seen c + count nodes (<[p := sv]> seen) c) as Hk1.
  { rewrite count_insert by done.
    assert (interestingb nodes (<[p := sv]> seen) p = false) as ->.
    { unfold interestingb. rewrite seen_at_insert, decide_True by done.
      apply bool_decide_eq_false. tauto. }
    unfold k1, interestingb. case_decide as E; case_bool_decide; try done; simpl; lia. }
  destruct (IH (<[p := sv]> seen) k1 Hb1 Hps') as (seen' & k' & -> & Hb' & Hat & Hk).
  exists seen', k'. split_and!; auto; [|lia].
  intros x. rewrite Hat, seen_at_insert. destruct (decide (x = p)) as [->|Hxp].
  - rewrite (decide_True (P := p ∈ p :: ps /\ _)) by (split; [by left|done]).
    by destruct (decide (p ∈ ps /\ p ≠ nullrev)).
  - apply decide_ext. set_solver.
Qed.
End parents.

(** ** The sweep *)

(** [x] is a maximal common ancestor. *)
Definition is_head (pfunc : Z -> list Z) (nodes : gset Z) (x : Z) : Prop :=
  common_anc pfunc nodes x /\
  forall y, common_anc pfunc nodes y -> anc pfunc x y -> y = x.

Section sweep_correct.
Context (pfunc : Z -> list Z) `{!RevDag pfunc} (nodes : gset Z).
Hypothesis nodes_ne : nodes ≠ ∅.

Notation ns := (elements nodes).
Notation n := (Z.of_nat (size nodes)).
Notation common := (common_anc pfunc nodes).
Notation head := (is_head pfunc nodes).

Record sinv (c : Z) (seen : gmap Z Z) (k : Z) (gca : gset Z) : Prop := {
  s_bounded : bounded nodes seen;
  s_cov : forall x i y, 0 <= x <= c -> ns !! i = Some y -> anc pfunc x y ->
    exists z, z <= c /\ anc pfunc x z /\ (bit seen z i \/ poisoned nodes seen z);
  s_sound : forall z i y, z <= c -> bit seen z i -> ~ poisoned nodes seen z ->
    ns !! i = Some y -> anc pfunc z y;
  s_poison : forall z, z <= c -> poisoned nodes seen z -> exists g, g ∈ gca /\ sanc pfunc z g;
  s_below : forall y g, y <= c -> g ∈ gca -> sanc pfunc y g ->
    exists z, z <= c /\ anc pfunc y z /\ poisoned nodes seen z;
  s_top : forall y, c < y -> common y -> exists g, g ∈ gca /\ anc pfunc y g;
  s_gca : forall x, x ∈ gca <-> c < x /\ 0 <= x /\ head x;
  s_count : k = count nodes seen (c + 1)
}.

Lemma node_index y : y ∈ nodes <-> exists i, (i < size nodes)%nat /\ ns !! i = Some y.
Proof.
  rewrite <- elem_of_elements, list_elem_of_lookup. split; [|naive_solver].
  intros [i Hi]. exists i. split; [|done]. by apply lookup_lt_Some in Hi.
Qed.

Lemma gca_common c seen k gca g : sinv c seen k gca -> g ∈ gca -> common g.
Proof. intros Hi Hg. by apply (s_gca _ _ _ _ Hi) in Hg as (_ & _ & ? & _). Qed.

Lemma common_sanc x g : common g -> sanc pfunc x g -> common x.
Proof. intros Hg Hx r Hr. eapply anc_trans; [by apply sanc_anc|by apply Hg]. Qed.

(** At the swept revision the mask decides common ancestry. *)
Lemma sinv_cov_here c seen k gca i y :
  0 <= c -> sinv c seen k gca -> ns !! i = Some y -> anc pfunc c y ->
  bit seen c i \/ poisoned nodes seen c.
Proof.
  intros Hc Hi Hy Ha. destruct (s_cov _ _ _ _ Hi c i y ltac:(lia) Hy Ha) as (z & Hz & Hcz & H).
  apply anc_le in Hcz; [|done]. by replace c with z by lia.
Qed.

Lemma sinv_common c seen k gca :
  0 <= c -> sinv c seen k gca ->
  (common c <-> poisoned nodes seen c \/
     (~ poisoned nodes seen c /\ forall i, (i < size nodes)%nat -> bit seen c i)).
Proof.
  intros Hc Hi. split.
  - intros Hcom. destruct (decide (Z.testbit (seen_at seen c) n = true)) as [Hp|Hp]; [by left|right].
    split; [done|]. intros i Hlt.
    destruct (lookup_lt_is_Some_2 ns i) as [y Hy]; [done|].
    assert (anc pfunc c y) as Ha by (apply Hcom, node_index; eauto).
    by destruct (sinv_cov_here c seen k gca i y Hc Hi Hy Ha).
  - intros [Hp|[Hp Hall]].
    + destruct (s_poison _ _ _ _ Hi c ltac:(lia) Hp) as (g & Hg & Hcg).
      eapply common_sanc; [by eapply gca_common|done].
    + intros y (i & Hlt & Hy)%node_index. eapply (s_sound _ _ _ _ Hi); eauto. lia.
Qed.

Lemma poisoned_not_head c seen k gca :
  sinv c seen k gca -> poisoned nodes seen c -> ~ head c.
Proof.
  intros Hi Hp [_ Hmax]. destruct (s_poison _ _ _ _ Hi c ltac:(lia) Hp) as (g & Hg & Hcg).
  assert (g = c) by (apply Hmax; [by eapply gca_common|by apply sanc_anc]).
  apply sanc_lt in Hcg; [lia|done].
Qed.

Lemma unpoisoned_head c seen k gca :
  0 <= c -> sinv c seen k gca -> common c -> ~ poisoned nodes seen c -> head c.
Proof.
  intros Hc Hi Hcom Hp. split; [done|]. intros y Hy Hcy.
  destruct (decide (y = c)) as [|Hne]; [done|]. destruct Hp.
  assert (sanc pfunc c y) as Hs by (apply anc_ne_sanc; [done|congruence]).
  apply sanc_lt in Hs as Hlt; [|done].
  destruct (s_top _ _ _ _ Hi y ltac:(lia) Hy) as (g & Hg & Hyg).
  assert (sanc pfunc c g) as Hcg by (by eapply tc_rtc_l).
  destruct (s_below _ _ _ _ Hi c g ltac:(lia) Hg Hcg) as (z & Hz & Hcz & Hpz).
  apply anc_le in Hcz; [|done]. by replace c with z by lia.
Qed.

(** Passing a revision: the new mask after the parents were updated. *)
Lemma count_pass seen c :
  0 <= c -> count nodes seen (c + 1) = count nodes seen c + Z.b2z (interestingb nodes seen c).
Proof.
  intros Hc. rewrite (count_split nodes seen c (c + 1)) by lia.
  rewrite zrange_nil by lia. simpl. lia.
Qed.

(** The covering revision of a smaller one moves to a parent. *)
Lemma cover_step x z c :
  anc pfunc x z -> x < c -> z <= c ->
  (z ≠ c /\ z <= c - 1) \/ (z = c /\ exists p, parent pfunc c p /\ p <= c - 1 /\ anc pfunc x p).
Proof.
  intros Ha Hx Hz. destruct (decide (z = c)) as [->|]; [right|left; split; [done|lia]].
  split; [done|]. apply anc_cases in Ha as [->|(p & Hp & Hxp)]; [lia|].
  exists p. split_and!; auto. apply parent_below in Hp; [lia|done].
Qed.

(** A revision without any mark. *)
Lemma sinv_skip c seen k gca :
  0 <= c -> seen_at seen c = 0 -> sinv c seen k gca -> sinv (c - 1) seen k gca.
Proof.
  intros Hc H0 Hi.
  assert (forall z i, (bit seen z i \/ poisoned nodes seen z) -> z ≠ c) as Hnz.
  { unfold bit, poisoned. intros z i [H|H] ->; by rewrite H0, Z.testbit_0_l in H. }
  assert (~ common c) as Hnc.
  { rewrite (sinv_common c seen k gca Hc Hi). intros [H|[_ H]].
    - by apply (Hnz c 0%nat (or_intror H)).
    - destruct (set_choose_L nodes nodes_ne) as [y (i & Hlt & _)%node_index].
      by apply (Hnz c i (or_introl (H i Hlt))). }
  destruct Hi. split; auto.
  - intros x i y Hx Hy Ha. destruct (s_cov0 x i y ltac:(lia) Hy Ha) as (z & Hz & Hxz & Hm).
    exists z. specialize (Hnz z i Hm). split_and!; auto. lia.
  - intros z i y Hz. apply s_sound0. lia.
  - intros z Hz. apply s_poison0. lia.
  - intros y g Hy Hg Hyg. destruct (s_below0 y g ltac:(lia) Hg Hyg) as (z & Hz & Hyz & Hp).
    exists z. specialize (Hnz z 0%nat (or_intror Hp)). split_and!; auto. lia.
  - intros y Hy Hcom. destruct (decide (y = c)) as [->|]; [done|]. apply s_top0; [lia|done].
  - intros x. rewrite s_gca0. split; intros (H1 & H2 & H3); split_and!; auto; [lia|].
    destruct (decide (x = c)) as [->|]; [|lia]. destruct H3. done.
  - rewrite s_count0. replace (c - 1 + 1) with c by lia. rewrite (count_pass seen c Hc).
    unfold interestingb. rewrite bool_decide_eq_false_2 by (rewrite H0; naive_solver). simpl. lia.
Qed.

(** The masks after the poisoning parent loop; [gca'] already holds [c] when
    [c] is a head. *)
Lemma sinv_poison_step c seen k gca gca' sv seen' k' :
  0 <= c -> sinv c seen k gca -> common c -> ~ sv < poison nodes -> 0 <= sv < 2 ^ (n + 1) ->
  (forall x, x ∈ gca' <-> x ∈ gca \/ (x = c /\ ~ poisoned nodes seen c)) ->
  bounded nodes seen' ->
  (forall x, seen_at seen' x
     = if decide (x ∈ pfunc c /\ x ≠ nullrev) then sv else seen_at seen x) ->
  k' = k - Z.b2z (interestingb nodes seen c) - count nodes seen c + count nodes seen' c ->
  sinv (c - 1) seen' k' gca'.
Proof.
  intros Hc Hi Hcom Hsv Hsvb Hgca Hb' Hat Hk.
  assert (Z.testbit sv n = true) as Hsvp.
  { rewrite poison_pow in Hsv. apply not_false_iff_true.
    by rewrite <- (lt_pow_testbit sv n) by lia. }
  assert (forall p, parent pfunc c p -> poisoned nodes seen' p) as Hpar.
  { intros p Hp. unfold poisoned. rewrite Hat, decide_True by exact Hp. done. }
  assert (forall z, poisoned nodes seen z -> poisoned nodes seen' z) as Hkeep.
  { unfold poisoned. intros z Hz. rewrite Hat. by case_decide. }
  assert (forall z, ~ parent pfunc c z -> seen_at seen' z = seen_at seen z) as Hsame.
  { intros z Hz. rewrite Hat, decide_False by exact Hz. done. }
  assert (exists g, g ∈ gca' /\ anc pfunc c g) as (g0 & Hg0 & Hcg0).
  { destruct (decide (Z.testbit (seen_at seen c) n = true)) as [Hp|Hp].
    - destruct (s_poison _ _ _ _ Hi c ltac:(lia) Hp) as (g & Hg & Hcg).
      exists g. split; [apply Hgca; by left|by apply sanc_anc].
    - exists c. split; [apply Hgca; by right|apply anc_refl]. }
  split.
  - done.
  - intros x i y Hx Hy Ha. destruct (s_cov _ _ _ _ Hi x i y ltac:(lia) Hy Ha) as (z & Hz & Hxz & Hm).
    destruct (cover_step x z c Hxz ltac:(lia) Hz) as [[Hne Hz']|(-> & p & Hp & Hpc & Hxp)];
      [|exists p; by auto].
    exists z. split_and!; auto.
    destruct (decide (z ∈ pfunc c /\ z ≠ nullrev)) as [Hp|Hp]; [right; by apply Hpar|].
    unfold bit, poisoned in *. by rewrite (Hsame z Hp).
  - intros z i y Hz Hbit Hnp Hy.
    assert (~ parent pfunc c z) as Hp by (intros Hp; by apply Hnp, Hpar).
    unfold bit, poisoned in *. rewrite (Hsame z Hp) in *.
    eapply (s_sound _ _ _ _ Hi); eauto. lia.
  - intros z Hz Hpz. destruct (decide (z ∈ pfunc c /\ z ≠ nullrev)) as [Hp|Hp].
    + exists g0. split; [done|]. eapply tc_rtc_l; [exact Hcg0|by apply tc_once].
    + unfold poisoned in Hpz. rewrite (Hsame z Hp) in Hpz.
      destruct (s_poison _ _ _ _ Hi z ltac:(lia) Hpz) as (g & Hg & Hzg).
      exists g. split; [apply Hgca; by left|done].
  - intros y g Hy [Hg|[-> Hg]]%Hgca Hyg.
    + destruct (s_below _ _ _ _ Hi y g ltac:(lia) Hg Hyg) as (z & Hz & Hyz & Hpz).
      destruct (cover_step y z c Hyz ltac:(lia) Hz) as [[Hne Hz']|(-> & p & Hp & Hpc & Hyp)];
        [exists z; by auto|exists p; by auto].
    + apply sanc_cases in Hyg as (p & Hp & Hyp). exists p.
      apply parent_below in Hp as Hlt; [|done]. split_and!; auto. lia.
  - intros y Hy Hcy. destruct (decide (y = c)) as [->|]; [by exists g0|].
    destruct (s_top _ _ _ _ Hi y ltac:(lia) Hcy) as (g & Hg & Hyg).
    exists g. split; [apply Hgca; by left|done].
  - intros x. rewrite Hgca, (s_gca _ _ _ _ Hi). split.
    + intros [(H1 & H2 & H3)|[-> Hp]]; split_and!; auto; try lia.
      by eapply unpoisoned_head.
    + intros (H1 & H2 & H3). destruct (decide (x = c)) as [->|].
      * right. split; [done|]. intros Hp. by eapply poisoned_not_head.
      * left. split_and!; auto. lia.
  - rewrite Hk, (s_count _ _ _ _ Hi), (count_pass seen c Hc).
    replace (c - 1 + 1) with c by lia. lia.
Qed.

(** The masks after the flowing parent loop. *)
Lemma sinv_flow_step c seen k gca seen' k' :
  0 <= c -> sinv c seen k gca -> ~ common c -> ~ poisoned nodes seen c ->
  bounded nodes seen' ->
  (forall x, seen_at seen' x
     = if decide (x ∈ pfunc c /\ x ≠ nullrev)
       then Z.lor (seen_at seen x) (seen_at seen c) else seen_at seen x) ->
  k' = k - Z.b2z (interestingb nodes seen c) - count nodes seen c + count nodes seen' c ->
  sinv (c - 1) seen' k' gca.
Proof.
  intros Hc Hi Hnc Hnp Hb' Hat Hk.
  assert (forall z, poisoned nodes seen' z <-> poisoned nodes seen z) as Hpo.
  { unfold poisoned in *. intros z. rewrite Hat. case_decide; [|done].
    rewrite Z.lor_spec, orb_true_iff. tauto. }
  assert (forall z i, bit seen z i -> bit seen' z i) as Hgrow.
  { unfold bit. intros z i Hz. rewrite Hat. case_decide; [|done].
    by rewrite Z.lor_spec, Hz. }
  assert (forall p i, parent pfunc c p -> bit seen c i -> bit seen' p i) as Hpar.
  { unfold bit. intros p i Hp Hbit. rewrite Hat, decide_True by exact Hp.
    by rewrite Z.lor_spec, Hbit, orb_true_r. }
  split.
  - done.
  - intros x i y Hx Hy Ha. destruct (s_cov _ _ _ _ Hi x i y ltac:(lia) Hy Ha) as (z & Hz & Hxz & Hm).
    destruct (cover_step x z c Hxz ltac:(lia) Hz) as [[Hne Hz']|(-> & p & Hp & Hpc & Hxp)].
    + exists z. split_and!; auto. destruct Hm; [left; auto|right; by apply Hpo].
    + exists p. split_and!; auto. destruct Hm; [left; auto|done].
  - intros z i y Hz Hbit Hpz Hy. rewrite Hpo in Hpz. unfold bit in Hbit. rewrite Hat in Hbit.
    case_decide as Hp; [|eapply (s_sound _ _ _ _ Hi); eauto; lia].
    rewrite Z.lor_spec, orb_true_iff in Hbit.
    destruct Hbit as [Hbit|Hbit]; [eapply (s_sound _ _ _ _ Hi); eauto; lia|].
    eapply anc_trans; [by apply anc_parent|].
    eapply (s_sound _ _ _ _ Hi c i y); eauto. lia.
  - intros z Hz Hpz%Hpo. eapply (s_poison _ _ _ _ Hi); [lia|done].
  - intros y g Hy Hg Hyg. destruct (s_below _ _ _ _ Hi y g ltac:(lia) Hg Hyg) as (z & Hz & Hyz & Hpz).
    assert (z ≠ c) by congruence. exists z. split_and!; auto; [lia|by apply Hpo].
  - intros y Hy Hcy. destruct (decide (y = c)) as [->|]; [done|].
    apply (s_top _ _ _ _ Hi); [lia|done].
  - intros x. rewrite (s_gca _ _ _ _ Hi). split; intros (H1 & H2 & H3); split_and!; auto; [lia|].
    destruct (decide (x = c)) as [->|]; [|lia]. destruct H3. done.
  - rewrite Hk, (s_count _ _ _ _ Hi), (count_pass seen c Hc).
    replace (c - 1 + 1) with c by lia. lia.
Qed.
(** When nothing interesting is left, no head is left. *)
Lemma sinv_finished c seen gca x :
  sinv c seen 0 gca -> x ∈ gca <-> 0 <= x /\ head x.
Proof.
  intros Hi. rewrite (s_gca _ _ _ _ Hi). split; [tauto|]. intros [H0 Hh].
  split_and!; auto. destruct (decide (x <= c)) as [Hle|]; [|lia]. exfalso.
  destruct (set_choose_L nodes nodes_ne) as [y Hy].
  pose proof Hy as (i & Hlt & Hyi)%node_index.
  destruct Hh as [Hcom Hmax].
  destruct (s_cov _ _ _ _ Hi x i y ltac:(lia) Hyi (Hcom y Hy)) as (z & Hz & Hxz & Hm).
  assert (poisoned nodes seen z) as Hp.
  { destruct Hm as [Hbit|]; [|done].
    assert (seen_at seen z ≠ 0) as Hnz by (intros E; unfold bit in Hbit; by rewrite E, Z.testbit_0_l in Hbit).
    pose proof (anc_le _ _ _ Hxz).
    pose proof (count_zero nodes seen (c + 1) z ltac:(symmetry; apply (s_count _ _ _ _ Hi)) ltac:(lia)) as Hf.
    pose proof (interestingb_true nodes seen z (s_bounded _ _ _ _ Hi)) as Ht.
    unfold poisoned. destruct (decide (Z.testbit (seen_at seen z) n = true)) as [|Hn]; [done|].
    rewrite (proj2 Ht) in Hf; [done|]. by split. }
  destruct (s_poison _ _ _ _ Hi z Hz Hp) as (g & Hg & Hzg).
  assert (sanc pfunc x g) as Hxg by (by eapply tc_rtc_r).
  assert (g = x) by (apply Hmax; [by eapply gca_common|by apply sanc_anc]).
  apply sanc_lt in Hxg; [lia|done].
Qed.

Lemma member_common_head v x : v ∈ nodes -> common v -> 0 <= v -> x = v <-> 0 <= x /\ head x.
Proof.
  intros Hv Hcom H0. split.
  - intros ->. split; [done|]. split; [done|]. intros y Hy Hvy.
    eapply anc_antisym; [done|by apply Hy|done].
  - intros [_ [Hx Hmax]]. symmetry. apply Hmax; [done|by apply Hx].
Qed.

Lemma sweep_spec c seen k gca x :
  nullrev <= c -> sinv c seen k gca ->
  x ∈ sweep pfunc nodes (zrange_down c nullrev) seen k gca <-> 0 <= x /\ head x.
Proof.
  intros Hc. assert (exists m, c = Z.of_nat m + nullrev) as [m ->].
  { exists (Z.to_nat (c - nullrev)). lia. }
  clear Hc. revert seen k gca. induction m as [|m IH]; intros seen k gca Hi.
  { rewrite zrange_down_nil by lia. simpl. rewrite (s_gca _ _ _ _ Hi). unfold nullrev.
    split; [tauto|]. intros [? ?]. split_and!; auto. lia. }
  rewrite zrange_down_cons by lia.
  replace (Z.of_nat (S m) + nullrev - 1) with (Z.of_nat m + nullrev) by lia.
  set (c := Z.of_nat (S m) + nullrev) in *.
  assert (Z.of_nat m + nullrev = c - 1) as E by (subst c; lia).
  assert (0 <= c) as Hc by (subst c; unfold nullrev; lia). clearbody c.
  cbn [sweep]. destruct (decide (k = 0)) as [->|Hk]; [by eapply sinv_finished|].
  destruct (decide (seen_at seen c = 0)) as [H0|H0].
  { apply IH. rewrite E. by apply sinv_skip. }
  assert (forall p, p ∈ pfunc c -> p = nullrev \/ 0 <= p < c) as Hps.
  { intros p Hp. by apply parents_below. }
  pose proof (s_bounded _ _ _ _ Hi) as Hb. pose proof (Hb c) as Hbc.
  pose proof (interestingb_true nodes seen c Hb) as Hint.
  pose proof (poisoned_ge nodes seen c Hb) as Hpge.
  pose proof (sinv_common c seen k gca Hc Hi) as Hcom.
  destruct (decide (seen_at seen c < poison nodes)) as [Hlt|Hge].
  - assert (~ poisoned nodes seen c) as Hnp by tauto.
    assert (interestingb nodes seen c = true) as Hic by (apply Hint; done).
    pose proof (all_bits_allseen nodes (seen_at seen c) ltac:(lia)) as Hall.
    destruct (decide (seen_at seen c = allseen nodes)) as [Ha|Ha].
    + assert (common c) as Hcc by (apply Hcom; right; split; [done|by apply Hall]).
      destruct (decide (c ∈ nodes)) as [Hin|Hin].
      { rewrite elem_of_singleton. by apply member_common_head. }
      set (sv := Z.lor (seen_at seen c) (poison nodes)).
      assert (0 <= poison nodes < 2 ^ (n + 1)) as Hpb.
      { rewrite poison_pow, Z.pow_add_r by lia. lia. }
      assert (0 <= sv < 2 ^ (n + 1)) as Hsvb by (apply lor_bound; lia).
      assert (~ sv < poison nodes) as Hsv.
      { rewrite poison_pow, (lt_pow_testbit sv n) by lia. unfold sv.
        rewrite Z.lor_spec, poison_pow, Z.pow2_bits_true, orb_true_r by lia. done. }
      destruct (poison_parents_spec nodes sv (pfunc c) seen (k - 1) c Hsv Hsvb Hb Hps)
        as (seen' & k' & -> & Hb' & Hat & Hk').
      apply IH. rewrite E. eapply (sinv_poison_step c seen k gca _ sv); eauto.
      * set_solver.
      * rewrite Hic. simpl. lia.
    + assert (~ common c) as Hnc.
      { rewrite Hcom. intros [|[_ H]]; [done|]. by apply Ha, Hall. }
      destruct (flow_parents_spec nodes (seen_at seen c) (pfunc c) seen (k - 1) c ltac:(lia) Hb Hps)
        as (seen' & k' & -> & Hb' & Hat & Hk').
      apply IH. rewrite E. eapply sinv_flow_step; eauto. rewrite Hic. simpl. lia.
  - assert (poisoned nodes seen c) as Hp by tauto.
    destruct (poison_parents_spec nodes (seen_at seen c) (pfunc c) seen k c Hge Hbc Hb Hps)
      as (seen' & k' & -> & Hb' & Hat & Hk').
    apply IH. rewrite E. eapply (sinv_poison_step c seen k gca _ (seen_at seen c)); eauto.
    + apply Hcom. by left.
    + set_solver.
    + assert (interestingb nodes seen c = false) as ->.
      { destruct (interestingb nodes seen c); [|done]. destruct Hint as [Hint _]. by destruct Hint. }
      simpl. lia.
Qed.

(** The marks before the sweep. *)
Lemma mark_nodes_bit x i :
  Z.testbit (seen_at (mark_nodes ns) x) (Z.of_nat i) = true <-> ns !! i = Some x.
Proof.
  destruct (mark_nodes_at ns x (NoDup_elements _)) as [(j & Hj & ->)|[Hn ->]].
  - rewrite Z.pow2_bits_eqb by lia. rewrite Z.eqb_eq. split.
    + intros H. by replace i with j by lia.
    + intros Hi. f_equal. eapply NoDup_lookup; eauto. apply NoDup_elements.
  - rewrite Z.testbit_0_l. split; [done|]. intros Hi%list_elem_of_lookup_2. done.
Qed.

Lemma sinv_init :
  (forall r, r ∈ nodes -> 0 <= r) ->
  sinv (zmax_set nodes) (mark_nodes ns) n ∅.
Proof.
  intros Hge.
  assert (forall x, common x -> x <= zmax_set nodes) as Hle.
  { intros x Hx. apply anc_le with (pfunc := pfunc); [done|]. by apply Hx, zmax_set_in. }
  assert (forall x, 0 <= seen_at (mark_nodes ns) x < 2 ^ n) as Hlt.
  { intros x. destruct (mark_nodes_at ns x (NoDup_elements _)) as [(j & Hj & ->)|[Hn ->]]; [|lia].
    apply lookup_lt_Some in Hj.
    split; [lia|]. apply Z.pow_lt_mono_r; unfold size, set_size; simpl; lia. }
  assert (bounded nodes (mark_nodes ns)) as Hb.
  { intros x. specialize (Hlt x). rewrite Z.pow_add_r by lia. lia. }
  assert (forall x, ~ poisoned nodes (mark_nodes ns) x) as Hnp.
  { intros x. rewrite (poisoned_ge nodes _ x Hb), poison_pow. specialize (Hlt x). lia. }
  split.
  - done.
  - intros x i y Hx Hy Ha. exists y. split_and!; auto.
    + apply zmax_set_ge, node_index. exists i. split; [by apply lookup_lt_Some in Hy|done].
    + left. by apply mark_nodes_bit.
  - intros z i y _ Hz%mark_nodes_bit _ Hy. simplify_eq. apply anc_refl.
  - intros z _ Hz. by destruct (Hnp z).
  - set_solver.
  - intros y Hy Hc. specialize (Hle y Hc). lia.
  - intros x. split; [set_solver|]. intros (H1 & _ & H2 & _). specialize (Hle x H2). lia.
  - unfold count. f_equal. unfold size, set_size. simpl. apply Permutation_length.
    apply NoDup_Permutation; [apply NoDup_elements|apply NoDup_filter, ascending_NoDup, zrange_ascending|].
    intros x. rewrite list_elem_of_filter, elem_of_zrange, (interestingb_true nodes _ x Hb).
    destruct (mark_nodes_at ns x (NoDup_elements _)) as [(j & Hj & Hs)|[Hn Hs]].
    + apply list_elem_of_lookup_2 in Hj. split; [|done]. intros _. split.
      * split; [rewrite Hs; lia|apply Hnp].
      * apply elem_of_elements in Hj. split; [by apply Hge|].
        apply zmax_set_ge in Hj. lia.
    + split; [done|]. intros [[? _] _]. done.
Qed.

Lemma commonancestorsheads_spec x :
  (forall r, r ∈ nodes -> nullrev <= r) ->
  x ∈ commonancestorsheads pfunc nodes <-> 0 <= x /\ is_head pfunc nodes x.
Proof.
  intros Hge. unfold commonancestorsheads.
  destruct (decide (nullrev ∈ nodes)) as [Hnull|Hnull].
  { split; [set_solver|]. intros [H0 [Hx _]]. specialize (Hx nullrev Hnull).
    apply anc_nullrev in Hx; [|done]. unfold nullrev in *. lia. }
  assert (forall r, r ∈ nodes -> 0 <= r) as Hge0.
  { intros r Hr. specialize (Hge r Hr). assert (r ≠ nullrev) by congruence.
    unfold nullrev in *. lia. }
  destruct (decide (size nodes <= 1)%nat) as [H1|H1].
  { destruct (set_choose_L nodes nodes_ne) as [v Hv].
    assert (nodes = {[v]}) as Hs.
    { symmetry. apply set_subseteq_size_eq; [set_solver|by rewrite size_singleton]. }
    rewrite Hs at 1. rewrite elem_of_singleton. apply member_common_head; auto.
    intros r Hr. rewrite Hs in Hr. apply elem_of_singleton in Hr as ->. apply anc_refl. }
  apply sweep_spec; [|by apply sinv_init].
  etrans; [apply Hge|done]. by apply zmax_set_in.
Qed.

(** [C2] [commonancestorsheads] returns exactly the maximal common ancestors of
    a non-empty set of nodes (and nothing when the null revision is one of
    them), in spite of the early exits of the sweep. *)
Theorem commonancestorsheads_correct x :
  (forall r, r ∈ nodes -> nullrev <= r) ->
  x ∈ commonancestorsheads pfunc nodes <-> 0 <= x /\ is_head pfunc nodes x.
Proof. apply commonancestorsheads_spec. Qed.
End sweep_correct.

(** Criss-cross merge: both 1 and 2 are heads of the common ancestors. *)
Lemma commonancestorsheads_witness :
  commonancestorsheads (Revlog.pfunc_of crisscross_index) {[5; 6]} = {[1; 2]} /\
  is_head (Revlog.pfunc_of crisscross_index) {[5; 6]} 1.
Proof.
  assert (commonancestorsheads (Revlog.pfunc_of crisscross_index) {[5; 6]} = {[1; 2]}) as E
    by (vm_compute; reflexivity).
  split; [exact E|].
  apply (@commonancestorsheads_correct (Revlog.pfunc_of crisscross_index) crisscross_dag {[5; 6]}
    ltac:(set_solver) 1).
  - intros r Hr. unfold nullrev. set_solver by lia.
  - rewrite E. set_solver.
Defined.
End CommonAncestors.
