(* ===== verification/SmartSet.v ===== *)
(** * The smartset interface ([abstractsmartset] of smartset.py)

    A smartset is an ordered collection of revisions.  [SmartSet] is the
    abstract class: the methods every subclass provides, each as a function of
    the object's state; a generator is the list of what it yields, [None] is
    a missing fast iterator.  [SmartSetLaws] is the contract of the interface
    that the subclasses promise (in the files [BaseSet], [FilteredSet],
    [AddSet], [GeneratorSet], [SpanSet] and [SpansSet]) and that the methods
    defined on the abstract class rely on.  Cache filling by observers is
    separated from their results: the subclasses with caches define the filled
    object and prove that no observation changes. *)

From S2P Require Import Prelude.

Class SmartSet (T : Type) := {
  ss_contains : T -> Z -> bool;          (* __contains__ *)
  ss_iter : T -> list Z;                 (* __iter__ *)
  ss_fastasc : T -> option (list Z);     (* fastasc *)
  ss_fastdesc : T -> option (list Z);    (* fastdesc *)
  ss_nonzero : T -> bool;                (* __nonzero__ *)
  ss_len : T -> Z;                       (* __len__ *)
  ss_isascending : T -> bool;
  ss_isdescending : T -> bool;
  ss_istopo : T -> bool;
  ss_first : T -> option Z;
  ss_last : T -> option Z;
  ss_sort : bool -> T -> T;              (* sort(reverse) *)
  ss_reverse : T -> T;
  ss_isfullrepo : T -> bool              (* isinstance(_, fullreposet) *)
}.

(** The order [sort(reverse)] establishes. *)
Definition sorted_as (reverse : bool) (l : list Z) : list Z :=
  if reverse then rev (zsort l) else zsort l.

(** The contract. *)
Class SmartSetLaws (T : Type) `{SmartSet T} := {
  ss_wf : T -> Prop;
  ss_nodup : forall s, ss_wf s -> NoDup (ss_iter s);
  ss_contains_ok : forall s x, ss_wf s -> ss_contains s x = true <-> x ∈ ss_iter s;
  ss_fastasc_ok : forall s l, ss_wf s -> ss_fastasc s = Some l -> l = zsort (ss_iter s);
  ss_fastdesc_ok : forall s l, ss_wf s -> ss_fastdesc s = Some l -> l = rev (zsort (ss_iter s));
  ss_nonzero_ok : forall s, ss_wf s -> ss_nonzero s = bool_decide (ss_iter s ≠ []);
  ss_len_ok : forall s, ss_wf s -> ss_len s = Z.of_nat (length (ss_iter s));
  ss_isascending_ok : forall s, ss_wf s -> ss_isascending s = true -> ascending (ss_iter s);
  ss_isdescending_ok : forall s, ss_wf s -> ss_isdescending s = true -> descending (ss_iter s);
  ss_first_ok : forall s, ss_wf s -> ss_first s = head (ss_iter s);
  ss_last_ok : forall s, ss_wf s -> ss_last s = last (ss_iter s);
  ss_sort_ok : forall s r, ss_wf s ->
    ss_wf (ss_sort r s) /\ ss_iter (ss_sort r s) = sorted_as r (ss_iter s);
  ss_reverse_ok : forall s, ss_wf s ->
    ss_wf (ss_reverse s) /\ ss_iter (ss_reverse s) = rev (ss_iter s)
}.

(** The contract as a statement about one object. *)
Definition ss_contract {T} `{SmartSetLaws T} (s : T) : Prop :=
  NoDup (ss_iter s) /\
  (forall x, ss_contains s x = true <-> x ∈ ss_iter s) /\
  (forall l, ss_fastasc s = Some l -> l = zsort (ss_iter s)) /\
  (forall l, ss_fastdesc s = Some l -> l = rev (zsort (ss_iter s))) /\
  ss_nonzero s = bool_decide (ss_iter s ≠ []) /\
  ss_len s = Z.of_nat (length (ss_iter s)) /\
  (ss_isascending s = true -> ascending (ss_iter s)) /\
  (ss_isdescending s = true -> descending (ss_iter s)) /\
  ss_first s = head (ss_iter s) /\
  ss_last s = last (ss_iter s) /\
  (forall r, ss_wf (ss_sort r s) /\ ss_iter (ss_sort r s) = sorted_as r (ss_iter s)) /\
  ss_wf (ss_reverse s) /\ ss_iter (ss_reverse s) = rev (ss_iter s).

Lemma ss_contract_wf {T} `{SmartSetLaws T} (s : T) : ss_wf s -> ss_contract s.
Proof.
  intros Hwf. unfold ss_contract. split_and!;
    eauto using ss_nodup, ss_contains_ok, ss_fastasc_ok, ss_fastdesc_ok, ss_nonzero_ok,
      ss_len_ok, ss_isascending_ok, ss_isdescending_ok, ss_first_ok, ss_last_ok, ss_sort_ok.
  - by apply ss_reverse_ok.
  - by apply ss_reverse_ok.
Qed.

(** ** Facts about sorted views *)

Lemma zsort_ascending_id l : ascending l -> zsort l = l.
Proof.
  intros Ha. apply ascending_ext; [apply zsort_ascending; by apply ascending_NoDup|done|].
  intros x. apply elem_of_zsort.
Qed.

Lemma zsort_ext l1 l2 : NoDup l1 -> NoDup l2 -> (forall x, x ∈ l1 <-> x ∈ l2) -> zsort l1 = zsort l2.
Proof.
  intros H1 H2 H. apply ascending_ext; [by apply zsort_ascending..|].
  intros x. by rewrite !elem_of_zsort.
Qed.

Lemma zsort_rev l : NoDup l -> zsort (rev l) = zsort l.
Proof.
  intros H. apply zsort_ext; [by rewrite <- Permutation_rev|done|].
  intros x. apply elem_of_rev.
Qed.

Lemma zsort_descending_rev l : descending l -> zsort l = rev l.
Proof.
  intros H. rewrite <- (zsort_rev l) by by apply descending_NoDup.
  apply zsort_ascending_id. by apply descending_rev.
Qed.

Lemma zsort_filter (P : Z -> Prop) `{forall x, Decision (P x)} l :
  NoDup l -> filter P (zsort l) = zsort (filter P l).
Proof.
  intros Hl. symmetry. apply ascending_ext.
  - apply zsort_ascending. by apply NoDup_filter.
  - apply StronglySorted_filter. by apply zsort_ascending.
  - intros x. by rewrite elem_of_zsort, !list_elem_of_filter, elem_of_zsort.
Qed.

Lemma filter_rev {A} (P : A -> Prop) `{forall x, Decision (P x)} (l : list A) :
  filter P (rev l) = rev (filter P l).
Proof.
  induction l as [|x l IH]; [done|]. simpl. rewrite filter_app, IH, !filter_cons.
  destruct (decide (P x)); simpl; [done|]. by rewrite app_nil_r.
Qed.

Lemma NoDup_rev_iff {A} (l : list A) : NoDup (rev l) <-> NoDup l.
Proof. by rewrite <- Permutation_rev. Qed.

Lemma head_rev {A} (l : list A) : head (rev l) = last l.
Proof.
  induction l as [|x [|y l] IH] using rev_ind; [done|done|].
  rewrite rev_app_distr, last_snoc. done.
Qed.

Lemma last_rev {A} (l : list A) : last (rev l) = head l.
Proof. by rewrite <- (rev_involutive l) at 2; rewrite head_rev. Qed.

Lemma head_rev_zsort_last l : ascending l -> head (rev (zsort l)) = last l.
Proof. intros Ha. by rewrite zsort_ascending_id, head_rev. Qed.

Lemma head_zsort_last l : descending l -> head (zsort l) = last l.
Proof. intros Ha. by rewrite zsort_descending_rev, head_rev. Qed.

(** ** Methods of the abstract class *)

(** Membership of a filtered iteration. *)
Definition iterfilter (cond : Z -> bool) (it : list Z) : list Z :=
  filter (fun x => cond x = true) it.

Section methods.
Context {T : Type} `{!SmartSet T}.

(** [min]: the first element of [fastasc], or the builtin [min]. *)
Definition ss_min (s : T) : res Z :=
  match ss_fastasc s with
  | None => match ss_iter s with [] => Err ValueError | l => Ok (zmin_list 0 l) end
  | Some [] => Err ValueError
  | Some (v :: _) => Ok v
  end.

Definition ss_max (s : T) : res Z :=
  match ss_fastdesc s with
  | None => match ss_iter s with [] => Err ValueError | l => Ok (zmax_list 0 l) end
  | Some [] => Err ValueError
  | Some (v :: _) => Ok v
  end.

(** The two loops of [_slice] over the iterator. *)
Fixpoint slice_skip (n : nat) (it : list Z) : list Z :=
  match n with
  | O => it
  | S n => match it with [] => [] | _ :: it => slice_skip n it end
  end.

Fixpoint slice_take (n : nat) (it ys : list Z) : list Z :=
  match n with
  | O => ys
  | S n => match it with [] => ys | y :: it => slice_take n it (ys ++ [y]) end
  end.

(** The elements [_slice] collects into a baseset. *)
Definition slice_elems (s : T) (start stop : Z) : list Z :=
  slice_take (Z.to_nat (stop - start)) (slice_skip (Z.to_nat start) (ss_iter s)) [].
End methods.

(** [slice] checks its bounds and calls the [_slice] of the class. *)
Definition ss_slice {T U} (slice_ : T -> Z -> Z -> U) (s : T) (start stop : Z) : res U :=
  if decide (start < 0 \/ stop < 0) then Err ProgrammingError else Ok (slice_ s start stop).

(** The part of a sequence [range(start, stop)] selects. *)
Definition take_slice (l : list Z) (start stop : Z) : list Z :=
  take (Z.to_nat (stop - start)) (drop (Z.to_nat start) l).

Lemma slice_skip_drop n it : slice_skip n it = drop n it.
Proof. revert it. induction n as [|n IH]; intros [|x it]; simpl; auto. Qed.

Lemma slice_take_take n it ys : slice_take n it ys = ys ++ take n it.
Proof.
  revert it ys. induction n as [|n IH]; intros [|x it] ys; simpl; rewrite ?app_nil_r; auto.
  rewrite IH, <- (assoc_L (++)). done.
Qed.

Section method_laws.
Context {T : Type} `{SmartSetLaws T}.

Lemma slice_elems_spec (s : T) start stop :
  slice_elems s start stop = take_slice (ss_iter s) start stop.
Proof. unfold slice_elems. by rewrite slice_take_take, slice_skip_drop. Qed.

Lemma zsort_head_min l x l' : NoDup l -> zsort l = x :: l' -> x = zmin_list 0 l.
Proof.
  intros Hl E. pose proof (zsort_ascending l Hl) as Ha. rewrite E in Ha.
  assert (x ∈ l) as Hx by (apply elem_of_zsort; rewrite E; by left).
  assert (l ≠ []) as Hne by (intros ->; by apply elem_of_nil in Hx).
  pose proof (zmin_list_le 0 l x Hx). pose proof (zmin_list_in 0 l Hne) as Hm.
  apply elem_of_zsort in Hm. rewrite E in Hm.
  inversion Ha as [|? ? _ HF]; subst. rewrite Forall_forall in HF.
  apply elem_of_cons in Hm as [|Hm]; [done|]. specialize (HF _ Hm). lia.
Qed.

Lemma zsort_rev_head_max l x l' : NoDup l -> rev (zsort l) = x :: l' -> x = zmax_list 0 l.
Proof.
  intros Hl E. pose proof (ascending_rev _ (zsort_ascending l Hl)) as Ha. rewrite E in Ha.
  assert (x ∈ l) as Hx by (apply elem_of_zsort, elem_of_rev; rewrite E; by left).
  assert (l ≠ []) as Hne by (intros ->; by apply elem_of_nil in Hx).
  pose proof (zmax_list_ge 0 l x Hx). pose proof (zmax_list_in 0 l Hne) as Hm.
  apply elem_of_zsort, elem_of_rev in Hm. rewrite E in Hm.
  inversion Ha as [|? ? _ HF]; subst. rewrite Forall_forall in HF.
  apply elem_of_cons in Hm as [|Hm]; [done|]. specialize (HF _ Hm). lia.
Qed.

Lemma zsort_nil_inv l : zsort l = [] -> l = [].
Proof. intros E. apply Permutation_nil_r. rewrite <- E. symmetry. apply zsort_perm. Qed.

(** [min] and [max] are the extrema of the collection whichever iterator the
    class offers, and fail exactly on the empty collection. *)
Lemma ss_min_spec (s : T) :
  ss_wf s ->
  ss_min s = match ss_iter s with [] => Err ValueError | l => Ok (zmin_list 0 l) end.
Proof.
  intros Hwf. unfold ss_min. destruct (ss_fastasc s) as [l|] eqn:E; [|done].
  apply ss_fastasc_ok in E; [|done]. pose proof (ss_nodup s Hwf) as Hnd.
  destruct l as [|x l].
  - symmetry in E. apply zsort_nil_inv in E. by rewrite E.
  - destruct (ss_iter s) as [|y it] eqn:Ei; [done|].
    rewrite <- Ei in *. f_equal. by eapply zsort_head_min.
Qed.

Lemma ss_max_spec (s : T) :
  ss_wf s ->
  ss_max s = match ss_iter s with [] => Err ValueError | l => Ok (zmax_list 0 l) end.
Proof.
  intros Hwf. unfold ss_max. destruct (ss_fastdesc s) as [l|] eqn:E; [|done].
  apply ss_fastdesc_ok in E; [|done]. pose proof (ss_nodup s Hwf) as Hnd.
  destruct l as [|x l].
  - destruct (ss_iter s) as [|y it] eqn:Ei; [done|]. exfalso. rewrite <- Ei in *.
    assert (y ∈ rev (zsort (ss_iter s))) as Hy by (apply elem_of_rev, elem_of_zsort; rewrite Ei; by left).
    rewrite <- E in Hy. by apply elem_of_nil in Hy.
  - destruct (ss_iter s) as [|y it] eqn:Ei; [done|].
    rewrite <- Ei in *. f_equal. by eapply zsort_rev_head_max.
Qed.
End method_laws.

(** ** Dynamic dispatch: an object of one of two classes *)

#[global] Instance sum_smartset {A B} `{SmartSet A} `{SmartSet B} : SmartSet (A + B) := {
  ss_contains s := match s with inl a => ss_contains a | inr b => ss_contains b end;
  ss_iter s := match s with inl a => ss_iter a | inr b => ss_iter b end;
  ss_fastasc s := match s with inl a => ss_fastasc a | inr b => ss_fastasc b end;
  ss_fastdesc s := match s with inl a => ss_fastdesc a | inr b => ss_fastdesc b end;
  ss_nonzero s := match s with inl a => ss_nonzero a | inr b => ss_nonzero b end;
  ss_len s := match s with inl a => ss_len a | inr b => ss_len b end;
  ss_isascending s := match s with inl a => ss_isascending a | inr b => ss_isascending b end;
  ss_isdescending s := match s with inl a => ss_isdescending a | inr b => ss_isdescending b end;
  ss_istopo s := match s with inl a => ss_istopo a | inr b => ss_istopo b end;
  ss_first s := match s with inl a => ss_first a | inr b => ss_first b end;
  ss_last s := match s with inl a => ss_last a | inr b => ss_last b end;
  ss_sort r s := match s with inl a => inl (ss_sort r a) | inr b => inr (ss_sort r b) end;
  ss_reverse s := match s with inl a => inl (ss_reverse a) | inr b => inr (ss_reverse b) end;
  ss_isfullrepo s := match s with inl a => ss_isfullrepo a | inr b => ss_isfullrepo b end
}.

#[global] Instance sum_laws {A B} `{SmartSetLaws A} `{SmartSetLaws B} : SmartSetLaws (A + B).
Proof.
  refine {| ss_wf s := match s with inl a => ss_wf a | inr b => ss_wf b end |};
    intros [a|b]; simpl.
  - apply ss_nodup. - apply ss_nodup.
  - apply ss_contains_ok. - apply ss_contains_ok.
  - apply ss_fastasc_ok. - apply ss_fastasc_ok.
  - apply ss_fastdesc_ok. - apply ss_fastdesc_ok.
  - apply ss_nonzero_ok. - apply ss_nonzero_ok.
  - apply ss_len_ok. - apply ss_len_ok.
  - apply ss_isascending_ok. - apply ss_isascending_ok.
  - apply ss_isdescending_ok. - apply ss_isdescending_ok.
  - apply ss_first_ok. - apply ss_first_ok.
  - apply ss_last_ok. - apply ss_last_ok.
  - apply ss_sort_ok. - apply ss_sort_ok.
  - apply ss_reverse_ok. - apply ss_reverse_ok.
Defined.
