(* ===== verification/FilteredSet.v ===== *)
(** * Filtered smartsets ([filteredset] of smartset.py)

    A filteredset holds another smartset and a condition; [sort] and [reverse]
    act on the held set.  The file proves that the class keeps the smartset
    contract for any subset that does, and defines the set operations of the
    abstract class, which build filteredsets. *)

From S2P Require Import Prelude SmartSet.

Module FilteredSet.

Record filteredset (T : Type) := Filtered { subset : T; condition : Z -> bool }.
Arguments Filtered {T} subset condition.
Arguments subset {T} f.
Arguments condition {T} f.

Section methods.
Context {T : Type} `{!SmartSet T}.

(** [__contains__] *)
Definition contains (s : filteredset T) (x : Z) : bool :=
  ss_contains (subset s) x && condition s x.

(** [__iter__] and [_iterfilter] *)
Definition iter (s : filteredset T) : list Z := iterfilter (condition s) (ss_iter (subset s)).

Definition fastasc (s : filteredset T) : option (list Z) :=
  match ss_fastasc (subset s) with
  | None => None
  | Some it => Some (iterfilter (condition s) it)
  end.

Definition fastdesc (s : filteredset T) : option (list Z) :=
  match ss_fastdesc (subset s) with
  | None => None
  | Some it => Some (iterfilter (condition s) it)
  end.

Definition isascending (s : filteredset T) : bool := ss_isascending (subset s).
Definition isdescending (s : filteredset T) : bool := ss_isdescending (subset s).
Definition istopo (s : filteredset T) : bool := ss_istopo (subset s).

(** The first candidate that is not [None]. *)
Fixpoint first_candidate (cs : list (option (list Z))) : option (list Z) :=
  match cs with
  | [] => None
  | Some it :: _ => Some it
  | None :: cs => first_candidate cs
  end.

(** [__nonzero__] *)
Definition nonzero (s : filteredset T) : bool :=
  let candidates :=
    [ if isascending s then fastasc s else None;
      if isdescending s then fastdesc s else None;
      fastasc s; fastdesc s ] in
  let it := match first_candidate candidates with Some it => it | None => iter s end in
  match it with [] => false | _ :: _ => true end.

(** [__len__]: the length of the list built from the iteration. *)
Definition len (s : filteredset T) : Z := Z.of_nat (length (iter s)).

Definition sort (reverse : bool) (s : filteredset T) : filteredset T :=
  Filtered (ss_sort reverse (subset s)) (condition s).

Definition reverse (s : filteredset T) : filteredset T :=
  Filtered (ss_reverse (subset s)) (condition s).

(** [first] *)
Definition first (s : filteredset T) : option Z :=
  match iter s with [] => None | x :: _ => Some x end.

(** The last value bound by [for x in self: pass]. *)
Fixpoint run_through (x : option Z) (it : list Z) : option Z :=
  match it with [] => x | y :: it => run_through (Some y) it end.

(** [last] *)
Definition last (s : filteredset T) : option Z :=
  let it :=
    if isascending s then fastdesc s
    else if isdescending s then fastasc s
    else None in
  match it with
  | Some [] => None
  | Some (x :: _) => Some x
  | None => run_through None (iter s)
  end.

#[global] Instance filteredset_smartset : SmartSet (filteredset T) := {
  ss_contains := contains; ss_iter := iter; ss_fastasc := fastasc; ss_fastdesc := fastdesc;
  ss_nonzero := nonzero; ss_len := len; ss_isascending := isascending;
  ss_isdescending := isdescending; ss_istopo := istopo; ss_first := first; ss_last := last;
  ss_sort := sort; ss_reverse := reverse; ss_isfullrepo _ := false
}.

(** ** Set operations of the abstract class *)

(** [filter]: caching the condition does not change its values. *)
Definition filter_ (self : T) (cond : Z -> bool) : filteredset T := Filtered self cond.

(** [__and__] *)
Definition and_ {U} `{!SmartSet U} (self : T) (other : U) : T + filteredset T :=
  if ss_isfullrepo other then inl self else inr (filter_ self (ss_contains other)).

(** [__sub__] *)
Definition sub_ {U} `{!SmartSet U} (self : T) (other : U) : filteredset T :=
  filter_ self (fun r => negb (ss_contains other r)).
End methods.

(** ** The contract *)

Lemma run_through_last x it :
  run_through x it = match list.last it with Some y => Some y | None => x end.
Proof.
  revert x. induction it as [|y it IH]; intros x; [done|].
  cbn [run_through]. rewrite IH, last_cons. by destruct (list.last it).
Qed.

Section laws.
Context {T : Type} `{SmartSetLaws T}.

Implicit Type s : filteredset T.

Lemma fastasc_some s l :
  ss_wf (subset s) -> fastasc s = Some l -> l = zsort (iter s).
Proof.
  intros Hwf. unfold fastasc, iter, iterfilter. destruct (ss_fastasc (subset s)) as [it|] eqn:E; [|done].
  intros [= <-]. apply ss_fastasc_ok in E as ->; [|done].
  apply zsort_filter. by apply ss_nodup.
Qed.

Lemma fastdesc_some s l :
  ss_wf (subset s) -> fastdesc s = Some l -> l = rev (zsort (iter s)).
Proof.
  intros Hwf. unfold fastdesc, iter, iterfilter. destruct (ss_fastdesc (subset s)) as [it|] eqn:E; [|done].
  intros [= <-]. apply ss_fastdesc_ok in E as ->; [|done].
  rewrite filter_rev, zsort_filter by by apply ss_nodup. done.
Qed.

Lemma iter_nodup s : ss_wf (subset s) -> NoDup (iter s).
Proof. intros. unfold iter, iterfilter. by apply NoDup_filter, ss_nodup. Qed.

Lemma first_candidate_perm (l : list Z) cs it :
  Forall (fun c => forall it, c = Some it -> it ≡ₚ l) cs -> first_candidate cs = Some it -> it ≡ₚ l.
Proof. induction 1 as [|[c|] cs Hc Hcs IH]; simpl; naive_solver. Qed.

Lemma nonzero_spec s : ss_wf (subset s) -> nonzero s = bool_decide (iter s ≠ []).
Proof.
  intros Hwf. unfold nonzero.
  assert (forall l, fastasc s = Some l -> l ≡ₚ iter s) as Ha.
  { intros l ->%fastasc_some; [apply zsort_perm|done]. }
  assert (forall l, fastdesc s = Some l -> l ≡ₚ iter s) as Hd.
  { intros l ->%fastdesc_some; [|done]. rewrite <- Permutation_rev. apply zsort_perm. }
  assert (forall it, it ≡ₚ iter s ->
    match it with [] => false | _ :: _ => true end = bool_decide (iter s ≠ [])) as Hp.
  { intros [|x it] Hp.
    - symmetry. apply bool_decide_eq_false. intros Hn. apply Hn.
      by apply Permutation_nil_r.
    - symmetry. apply bool_decide_eq_true. intros E. rewrite E in Hp.
      by apply Permutation_nil_r in Hp. }
  destruct (first_candidate _) as [it|] eqn:E; [|by apply Hp].
  apply Hp. eapply first_candidate_perm; [|exact E].
  repeat constructor; intros l; [destruct (isascending s)|destruct (isdescending s)|..]; auto; done.
Qed.

Lemma isascending_spec s : ss_wf (subset s) -> isascending s = true -> ascending (iter s).
Proof. intros Hwf Ha. apply StronglySorted_filter. by apply ss_isascending_ok. Qed.

Lemma isdescending_spec s : ss_wf (subset s) -> isdescending s = true -> descending (iter s).
Proof. intros Hwf Ha. apply StronglySorted_filter. by apply ss_isdescending_ok. Qed.

Lemma last_spec s : ss_wf (subset s) -> last s = list.last (iter s).
Proof.
  intros Hwf. unfold last.
  assert (run_through None (iter s) = list.last (iter s)) as Hrun.
  { rewrite run_through_last. by destruct (list.last (iter s)). }
  destruct (isascending s) eqn:Ea; [|destruct (isdescending s) eqn:Ed; [|done]].
  - destruct (fastdesc s) as [l|] eqn:E; [|done]. apply fastdesc_some in E as ->; [|done].
    rewrite <- head_rev_zsort_last by by apply isascending_spec. by destruct (rev _).
  - destruct (fastasc s) as [l|] eqn:E; [|done]. apply fastasc_some in E as ->; [|done].
    rewrite <- head_zsort_last by by apply isdescending_spec. by destruct (zsort _).
Qed.

#[global] Instance filteredset_laws : SmartSetLaws (filteredset T).
Proof.
  refine {| ss_wf s := ss_wf (subset s) |}; simpl.
  - apply iter_nodup.
  - intros s x Hwf. unfold contains, iter, iterfilter.
    rewrite andb_true_iff, list_elem_of_filter, ss_contains_ok by done. tauto.
  - apply fastasc_some.
  - apply fastdesc_some.
  - apply nonzero_spec.
  - done.
  - apply isascending_spec.
  - apply isdescending_spec.
  - done.
  - apply last_spec.
  - intros s r Hwf. destruct (ss_sort_ok (subset s) r Hwf) as [Hwf' Hit].
    split; [done|]. unfold iter, iterfilter. simpl. rewrite Hit. unfold sorted_as.
    destruct r; rewrite ?filter_rev; rewrite zsort_filter by (by apply ss_nodup); done.
  - intros s Hwf. destruct (ss_reverse_ok (subset s) Hwf) as [Hwf' Hit].
    split; [done|]. unfold iter, iterfilter. simpl. by rewrite Hit, filter_rev.
Defined.

(** A filteredset keeps the smartset contract: whatever iterators its
    subset offers, iteration, membership, emptiness, length, first and last
    element agree, and sorting or reversing it (through the shared subset)
    sorts or reverses its own sequence. *)
Theorem filteredset_contract (s : filteredset T) : ss_wf (subset s) -> ss_contract s.
Proof. intros Hwf. by apply ss_contract_wf. Qed.

(** Intersection keeps the order of the left operand. *)
Lemma and_spec {U} `{SmartSetLaws U} (a : T) (b : U) :
  ss_wf a -> ss_wf b -> ss_isfullrepo b = false ->
  ss_wf (and_ a b) /\ ss_iter (and_ a b) = filter (fun x => x ∈ ss_iter b) (ss_iter a).
Proof.
  intros Ha Hb Hf. unfold and_. rewrite Hf. simpl. split; [done|].
  unfold iter, iterfilter. simpl. apply list_filter_iff_in, Forall_forall. intros x _.
  by apply ss_contains_ok.
Qed.

Lemma sub_spec {U} `{SmartSetLaws U} (a : T) (b : U) :
  ss_wf a -> ss_wf b ->
  ss_wf (sub_ a b) /\ ss_iter (sub_ a b) = filter (fun x => x ∉ ss_iter b) (ss_iter a).
Proof.
  intros Ha Hb. unfold sub_. simpl. split; [done|].
  unfold iter, iterfilter. simpl. apply list_filter_iff_in, Forall_forall. intros x _.
  rewrite <- (ss_contains_ok b x Hb), negb_true_iff. by destruct (ss_contains b x).
Qed.
End laws.
End FilteredSet.
