(* ===== verification/BaseSet.v ===== *)
(** * List- or set-backed smartsets ([baseset] of smartset.py)

    A baseset starts from a list or from a set and computes the other
    representation lazily; both are optional fields here, as the attributes
    [_list] and [_set] are in the object's dictionary.  [_asclist] is a sorted
    copy of [_list], recomputed here instead of cached. *)

From S2P Require Import Prelude SmartSet FilteredSet.

Module BaseSet.

Record baseset := Base {
  b_list : option (list Z);
  b_set : option (gset Z);
  b_ascending : option bool;
  b_istopo : bool
}.

(** [__init__] on a set and on a list. *)
Definition of_set (data : gset Z) (istopo : bool) : baseset := Base None (Some data) (Some true) istopo.
Definition of_list (data : list Z) (istopo : bool) : baseset := Base (Some data) None None istopo.

(** The cached properties [_list], [_set] and [_asclist]. *)
Definition list_of (b : baseset) : list Z :=
  match b_list b with
  | Some l => l
  | None => match b_set b with Some s => elements s | None => [] end
  end.

Definition set_of (b : baseset) : gset Z :=
  match b_set b with Some s => s | None => list_to_set (list_of b) end.

Definition asclist (b : baseset) : list Z := zsort (list_of b).

(** The object after [_set] or [_list] was cached. *)
Definition touch_set (b : baseset) : baseset :=
  Base (b_list b) (Some (set_of b)) (b_ascending b) (b_istopo b).
Definition touch_list (b : baseset) : baseset :=
  Base (Some (list_of b)) (b_set b) (b_ascending b) (b_istopo b).

Definition iter (b : baseset) : list Z :=
  match b_ascending b with
  | None => list_of b
  | Some true => asclist b
  | Some false => rev (asclist b)
  end.

Definition fastasc (b : baseset) : option (list Z) := Some (asclist b).
Definition fastdesc (b : baseset) : option (list Z) := Some (rev (asclist b)).
Definition contains (b : baseset) (x : Z) : bool := bool_decide (x ∈ set_of b).

Definition len (b : baseset) : Z :=
  match b_list b with
  | Some l => Z.of_nat (length l)
  | None => Z.of_nat (size (set_of b))
  end.

Definition nonzero (b : baseset) : bool := bool_decide (len b ≠ 0).

Definition sort (reverse : bool) (b : baseset) : baseset :=
  Base (b_list b) (b_set b) (Some (negb reverse)) false.

Definition reverse (b : baseset) : baseset :=
  match b_ascending b with
  | None => Base (Some (rev (list_of b))) (b_set b) None false
  | Some a => Base (b_list b) (b_set b) (Some (negb a)) false
  end.

Definition isascending (b : baseset) : bool :=
  if decide (len b <= 1) then true
  else match b_ascending b with None => false | Some a => a end.

Definition isdescending (b : baseset) : bool :=
  if decide (len b <= 1) then true
  else match b_ascending b with None => false | Some a => negb a end.

Definition istopo (b : baseset) : bool :=
  if decide (len b <= 1) then true else b_istopo b.

Definition first (b : baseset) : option Z :=
  if nonzero b then
    match b_ascending b with
    | None => head (list_of b)
    | Some true => head (asclist b)
    | Some false => list.last (asclist b)
    end
  else None.

Definition last (b : baseset) : option Z :=
  if nonzero b then
    match b_ascending b with
    | None => list.last (list_of b)
    | Some true => list.last (asclist b)
    | Some false => head (asclist b)
    end
  else None.

#[global] Instance baseset_smartset : SmartSet baseset := {
  ss_contains := contains; ss_iter := iter; ss_fastasc := fastasc; ss_fastdesc := fastdesc;
  ss_nonzero := nonzero; ss_len := len; ss_isascending := isascending;
  ss_isdescending := isdescending; ss_istopo := istopo; ss_first := first; ss_last := last;
  ss_sort := sort; ss_reverse := reverse; ss_isfullrepo _ := false
}.

(** [_fastsetop] with a baseset operand: the native set operation when both
    sides have their sets and the left side is ordered, the generic operation
    of the abstract class otherwise. *)
Definition fast_path (self other : baseset) : option (gset Z * gset Z * bool) :=
  match b_set self, b_set other, b_ascending self with
  | Some s, Some o, Some a => Some (s, o, a)
  | _, _, _ => None
  end.

Definition with_ascending (b : baseset) (a : option bool) : baseset :=
  Base (b_list b) (b_set b) a (b_istopo b).

Definition and_base (self other : baseset) :
    baseset + (baseset + FilteredSet.filteredset baseset) :=
  match fast_path self other with
  | Some (s, o, a) => inl (with_ascending (of_set (s ∩ o) (b_istopo self)) (Some a))
  | None => inr (FilteredSet.and_ self other)
  end.

Definition sub_base (self other : baseset) : baseset + FilteredSet.filteredset baseset :=
  match fast_path self other with
  | Some (s, o, a) => inl (with_ascending (of_set (s ∖ o) (b_istopo self)) (Some a))
  | None => inr (FilteredSet.sub_ self other)
  end.

(** [data[start:stop]] for indices that are not negative. *)
Definition py_slice (data : list Z) (start stop : Z) : list Z := take_slice data start stop.

(** [_slice] *)
Definition slice_ (self : baseset) (start stop : Z) : baseset :=
  match b_ascending self with
  | None => of_list (py_slice (list_of self) start stop) (b_istopo self)
  | Some a =>
      let data := asclist self in
      let n := Z.of_nat (length data) in
      let '(start, stop) :=
        if a then (start, stop) else (Z.max (n - stop) 0, Z.max (n - start) 0) in
      with_ascending (of_list (py_slice data start stop) (b_istopo self)) (Some a)
  end.

(** ** The contract *)

(** The representations agree, the list has no duplicates, and only a
    list-backed set can be unordered. *)
Definition wf (b : baseset) : Prop :=
  NoDup (list_of b) /\
  (forall x, x ∈ set_of b <-> x ∈ list_of b) /\
  (b_list b = None -> is_Some (b_set b) /\ is_Some (b_ascending b)).

Lemma of_list_wf l t : NoDup l -> wf (of_list l t).
Proof.
  intros. split_and!; [done| |done]. intros x. unfold set_of; simpl. by rewrite elem_of_list_to_set.
Qed.

Lemma of_set_wf s t : wf (of_set s t).
Proof.
  split_and!; [apply (NoDup_elements s)| |eauto]. intros x. unfold set_of, list_of; simpl.
  by rewrite elem_of_elements.
Qed.

Lemma with_ascending_wf b a : wf b -> wf (with_ascending b (Some a)).
Proof. intros (H1 & H2 & H3). split_and!; auto. naive_solver. Qed.

Lemma len_spec b : wf b -> len b = Z.of_nat (length (list_of b)).
Proof.
  intros (Hnd & Hset & Hn). unfold len. destruct (b_list b) as [l|] eqn:E.
  { unfold list_of. by rewrite E. }
  destruct (Hn eq_refl) as [[s Hs] _]. unfold set_of, list_of. by rewrite E, Hs.
Qed.

Lemma iter_perm b : iter b ≡ₚ list_of b.
Proof.
  unfold iter, asclist. destruct (b_ascending b) as [[|]|]; [apply zsort_perm| |done].
  rewrite <- Permutation_rev. apply zsort_perm.
Qed.

Lemma elem_of_iter b x : x ∈ iter b <-> x ∈ list_of b.
Proof. by rewrite iter_perm. Qed.

Lemma length_iter b : length (iter b) = length (list_of b).
Proof. by rewrite iter_perm. Qed.

Lemma base_iter_nodup b : wf b -> NoDup (iter b).
Proof. intros (Hnd & _). by rewrite iter_perm. Qed.

Lemma asclist_iter b : wf b -> asclist b = zsort (iter b).
Proof.
  intros Hwf. unfold asclist. apply zsort_ext; [apply Hwf|by apply base_iter_nodup|].
  intros x. by rewrite elem_of_iter.
Qed.

Lemma asclist_ascending b : wf b -> ascending (asclist b).
Proof. intros (Hnd & _). by apply zsort_ascending. Qed.

Lemma nonzero_iter b : wf b -> nonzero b = bool_decide (iter b ≠ []).
Proof.
  intros Hwf. unfold nonzero. rewrite len_spec, <- length_iter by done.
  apply bool_decide_ext. destruct (iter b); simpl; split; done || lia.
Qed.

Lemma short_sorted (R : relation Z) (l : list Z) : (length l <= 1)%nat -> StronglySorted R l.
Proof. destruct l as [|x [|y l]]; simpl; intros; [constructor|repeat constructor|lia]. Qed.

Lemma iter_short b : wf b -> len b <= 1 -> forall R, StronglySorted R (iter b).
Proof.
  intros Hwf Hl R. apply short_sorted. rewrite len_spec, <- length_iter in Hl by done. lia.
Qed.

Lemma sort_iter b r : wf b -> wf (sort r b) /\ iter (sort r b) = sorted_as r (iter b).
Proof.
  intros Hwf. split.
  - destruct Hwf as (H1 & H2 & H3). split_and!; auto. naive_solver.
  - unfold sorted_as. rewrite <- (asclist_iter b Hwf). by destruct r.
Qed.

Lemma reverse_iter b : wf b -> wf (reverse b) /\ iter (reverse b) = rev (iter b).
Proof.
  intros Hwf. unfold reverse, iter. destruct (b_ascending b) as [a|] eqn:E; simpl.
  - split; [|destruct a; simpl; by rewrite ?rev_involutive].
    destruct Hwf as (H1 & H2 & H3). split_and!; auto. naive_solver.
  - destruct Hwf as (H1 & H2 & H3). split; [|done]. split_and!; simpl.
    + by apply NoDup_rev_iff.
    + intros x. unfold set_of, list_of in *. simpl. destruct (b_set b); simpl in *.
      * by rewrite elem_of_rev, H2.
      * by rewrite elem_of_list_to_set.
    + done.
Qed.

Lemma first_iter b : wf b -> first b = head (iter b).
Proof.
  intros Hwf. unfold first. rewrite nonzero_iter by done.
  case_bool_decide as Hn; [|by rewrite Hn].
  unfold iter. destruct (b_ascending b) as [[|]|]; [done| |done]. by rewrite head_rev.
Qed.

Lemma last_iter b : wf b -> last b = list.last (iter b).
Proof.
  intros Hwf. unfold last. rewrite nonzero_iter by done.
  case_bool_decide as Hn; [|by rewrite Hn].
  unfold iter. destruct (b_ascending b) as [[|]|]; [done| |done]. by rewrite last_rev.
Qed.

Lemma contains_iter b x : wf b -> contains b x = true <-> x ∈ iter b.
Proof. intros Hwf. unfold contains. rewrite bool_decide_eq_true, elem_of_iter. apply Hwf. Qed.

#[global] Instance baseset_laws : SmartSetLaws baseset.
Proof.
  refine {| ss_wf := wf |}; simpl.
  - apply base_iter_nodup.
  - intros s x. apply contains_iter.
  - intros s l Hwf [= <-]. by apply asclist_iter.
  - intros s l Hwf [= <-]. by rewrite asclist_iter.
  - apply nonzero_iter.
  - intros s Hwf. by rewrite len_spec, length_iter.
  - intros s Hwf. unfold isascending. case_decide; [intros _; by apply iter_short|].
    unfold iter. destruct (b_ascending s) as [[|]|]; [intros _|done|done]. by apply asclist_ascending.
  - intros s Hwf. unfold isdescending. case_decide; [intros _; by apply iter_short|].
    unfold iter. destruct (b_ascending s) as [[|]|]; [done|intros _|done].
    apply ascending_rev. by apply asclist_ascending.
  - apply first_iter.
  - apply last_iter.
  - apply sort_iter.
  - apply reverse_iter.
Defined.

(** A baseset keeps the smartset contract, whether it is backed by its
    list or by its set and in whichever order it iterates. *)
Theorem baseset_contract (b : baseset) : wf b -> ss_contract b.
Proof. intros Hwf. by apply ss_contract_wf. Qed.

Lemma baseset_contract_witness :
  iter (sort true (of_list [4; 0; 7; 6] false)) = [7; 6; 4; 0] /\
  ss_contract (sort true (of_list [4; 0; 7; 6] false)).
Proof.
  split; [vm_compute; reflexivity|].
  apply baseset_contract. apply sort_iter, of_list_wf.
  by apply (bool_decide_unpack (NoDup [4; 0; 7; 6])).
Defined.

Lemma filteredset_contract_witness :
  ss_iter (FilteredSet.filter_ (sort true (of_list [4; 0; 7; 6] false)) Z.even) = [6; 4; 0] /\
  ss_contract (FilteredSet.filter_ (sort true (of_list [4; 0; 7; 6] false)) Z.even).
Proof.
  split; [vm_compute; reflexivity|].
  apply FilteredSet.filteredset_contract. apply sort_iter, of_list_wf.
  by apply (bool_decide_unpack (NoDup [4; 0; 7; 6])).
Defined.

(** ** Caches *)

Lemma touch_set_wf b : wf b -> wf (touch_set b) /\ list_of (touch_set b) = list_of b.
Proof.
  intros (H1 & H2 & H3).
  assert (list_of (touch_set b) = list_of b) as E.
  { unfold touch_set, list_of; simpl. destruct (b_list b) eqn:El; [done|].
    destruct (H3 eq_refl) as [[s Hs] _]. unfold set_of. by rewrite Hs. }
  split; [|done]. split_and!; [by rewrite E| |naive_solver].
  intros x. rewrite E. apply H2.
Qed.

Lemma touch_list_wf b : wf b -> wf (touch_list b) /\ list_of (touch_list b) = list_of b.
Proof.
  intros (H1 & H2 & H3). split; [|done]. split_and!; [done| |done].
  intros x. unfold set_of, touch_list, list_of in *; simpl. destruct (b_set b); [apply H2|].
  by rewrite elem_of_list_to_set.
Qed.

(** Filling either cache of a baseset changes none of its observations. *)
Theorem touch_observations (b : baseset) (f : baseset -> baseset) :
  wf b -> f = touch_set \/ f = touch_list ->
  wf (f b) /\ iter (f b) = iter b /\ (forall x, contains (f b) x = contains b x) /\
  len (f b) = len b /\ first (f b) = first b /\ last (f b) = last b /\
  isascending (f b) = isascending b /\ isdescending (f b) = isdescending b.
Proof.
  intros Hwf Hf.
  assert (wf (f b) /\ list_of (f b) = list_of b /\ b_ascending (f b) = b_ascending b) as (Hw & Hl & Ha).
  { destruct Hf as [-> | ->]; [destruct (touch_set_wf b Hwf)|destruct (touch_list_wf b Hwf)]; auto. }
  assert (iter (f b) = iter b) as Hi by (unfold iter, asclist; by rewrite Ha, Hl).
  assert (len (f b) = len b) as Hn by (by rewrite !len_spec, Hl).
  split_and!; auto.
  - intros x. apply Bool.eq_iff_eq_true. by rewrite !contains_iter, Hi.
  - by rewrite !first_iter, Hi.
  - by rewrite !last_iter, Hi.
  - unfold isascending. by rewrite Hn, Ha.
  - unfold isdescending. by rewrite Hn, Ha.
Qed.

Lemma touch_observations_witness :
  b_set (touch_set (of_list [3; 1] false)) = Some {[3; 1]} /\
  iter (touch_set (of_list [3; 1] false)) = iter (of_list [3; 1] false).
Proof.
  split; [vm_compute; reflexivity|].
  apply (touch_observations (of_list [3; 1] false) touch_set);
    [apply of_list_wf; by apply (bool_decide_unpack (NoDup [3; 1]))|by left].
Defined.

(** ** Native set operations *)

Lemma ordered_set_iter s a t :
  iter (with_ascending (of_set s t) (Some a)) = sorted_as (negb a) (elements s).
Proof. unfold iter, asclist, list_of; simpl. by destruct a. Qed.

Lemma ordered_iter b a : b_ascending b = Some a -> iter b = sorted_as (negb a) (list_of b).
Proof. unfold iter, asclist. intros ->. by destruct a. Qed.

Lemma sorted_as_filter r (P : Z -> Prop) `{forall x, Decision (P x)} l :
  NoDup l -> sorted_as r (filter P l) = filter P (sorted_as r l).
Proof.
  intros Hl. unfold sorted_as. destruct r; rewrite ?filter_rev; by rewrite zsort_filter.
Qed.

(** A native operation selects what the filtering operation selects. *)
Lemma fast_path_iter self s a (op : gset Z) (P : Z -> Prop) `{forall x, Decision (P x)} t :
  wf self -> b_set self = Some s -> b_ascending self = Some a ->
  (forall x, x ∈ op <-> x ∈ s /\ P x) ->
  iter (with_ascending (of_set op t) (Some a)) = filter P (iter self).
Proof.
  intros Hwf Hs Ha Hop.
  rewrite ordered_set_iter, (ordered_iter self a Ha), <- sorted_as_filter by apply Hwf.
  unfold sorted_as. rewrite (zsort_ext (elements op) (filter P (list_of self))); [done|..].
  - apply NoDup_elements.
  - apply NoDup_filter, Hwf.
  - intros x. rewrite elem_of_elements, Hop, list_elem_of_filter.
    destruct Hwf as (_ & Hset & _). rewrite <- Hset. unfold set_of. rewrite Hs. tauto.
Qed.

(** The native-set fast path of [&] and [-] on basesets is equivalent to
    the generic filtering path: the same revisions in the same order. *)
Theorem fastsetop_equiv (self other : baseset) :
  wf self -> wf other ->
  ss_iter (and_base self other) = ss_iter (FilteredSet.and_ self other) /\
  ss_iter (sub_base self other) = ss_iter (FilteredSet.sub_ self other).
Proof.
  intros Hs Ho.
  assert (ss_wf self) as Hs' by exact Hs. assert (ss_wf other) as Ho' by exact Ho.
  destruct (FilteredSet.and_spec self other Hs' Ho' eq_refl) as [_ Hand].
  destruct (FilteredSet.sub_spec self other Hs' Ho') as [_ Hsub].
  assert (forall x, x ∈ iter other <-> x ∈ set_of other) as Hio.
  { intros x. rewrite elem_of_iter. symmetry. apply Ho. }
  unfold and_base, sub_base, fast_path.
  destruct (b_set self) as [s|] eqn:Es, (b_set other) as [o|] eqn:Eo,
    (b_ascending self) as [a|] eqn:Ea;
    try done.
  rewrite Hand, Hsub.
  unfold set_of in Hio. rewrite Eo in Hio. split; simpl.
  - apply (fast_path_iter self s a); auto. intros x. rewrite elem_of_intersection. by rewrite Hio.
  - apply (fast_path_iter self s a); auto. intros x. rewrite elem_of_difference. by rewrite Hio.
Qed.

Lemma fastsetop_equiv_witness :
  ss_iter (and_base (of_set {[4; 0; 7; 6]} false) (of_set {[5; 6; 7; 3]} false)) = [6; 7] /\
  ss_iter (sub_base (of_set {[4; 0; 7; 6]} false) (of_set {[5; 6; 7; 3]} false))
  = ss_iter (FilteredSet.sub_ (of_set {[4; 0; 7; 6]} false) (of_set {[5; 6; 7; 3]} false)).
Proof.
  split; [vm_compute; reflexivity|].
  apply (fastsetop_equiv (of_set {[4; 0; 7; 6]} false) (of_set {[5; 6; 7; 3]} false)); apply of_set_wf.
Defined.

(** ** Slices *)

Lemma take_slice_rev (l : list Z) start stop :
  0 <= start -> 0 <= stop ->
  rev (take_slice l (Z.max (Z.of_nat (length l) - stop) 0) (Z.max (Z.of_nat (length l) - start) 0))
  = take_slice (rev l) start stop.
Proof.
  intros H1 H2. unfold take_slice. rewrite skipn_rev, firstn_rev, skipn_firstn_comm, length_take.
  f_equal. set (n := length l).
  destruct (decide (stop <= start)) as [Hle|Hlt].
  { replace (Z.to_nat (stop - start)) with O by lia. rewrite Nat.sub_0_r.
    replace (Z.to_nat (_ - _)) with O by lia.
    by replace (n - Z.to_nat start - (n - Z.to_nat start) `min` n)%nat with O by lia. }
  f_equal; [|f_equal]; lia.
Qed.

Lemma take_slice_ascending l start stop : ascending l -> ascending (take_slice l start stop).
Proof.
  intros Ha. unfold take_slice. set (k := Z.to_nat start). set (m := Z.to_nat _).
  assert (ascending (drop k l)) as Hd.
  { rewrite <- (take_drop k l) in Ha. by apply StronglySorted_app_1_r in Ha. }
  rewrite <- (take_drop m (drop k l)) in Hd. by apply StronglySorted_app_1_l in Hd.
Qed.

Lemma take_slice_nodup l start stop : NoDup l -> NoDup (take_slice l start stop).
Proof.
  intros Hl. unfold take_slice. eapply sublist_NoDup; [exact Hl|].
  etrans; [apply sublist_take|apply sublist_drop].
Qed.

(** Slicing a baseset selects the same positions of its iteration as the
    generic [_slice] does, in every order, although it slices the sorted list
    from the other end when the set is descending. *)
Theorem slice_equiv (self : baseset) (start stop : Z) :
  wf self -> 0 <= start -> 0 <= stop ->
  wf (slice_ self start stop) /\
  iter (slice_ self start stop) = slice_elems self start stop.
Proof.
  intros Hwf H1 H2. rewrite slice_elems_spec. simpl. unfold slice_, iter, py_slice.
  pose proof (asclist_ascending self Hwf) as Hasc.
  destruct (b_ascending self) as [[|]|] eqn:Ea; simpl.
  - split; [apply with_ascending_wf, of_list_wf, take_slice_nodup; by apply ascending_NoDup|].
    unfold asclist at 1, list_of; simpl. by apply zsort_ascending_id, take_slice_ascending.
  - split; [apply with_ascending_wf, of_list_wf, take_slice_nodup; by apply ascending_NoDup|].
    unfold asclist at 1, list_of; simpl.
    rewrite zsort_ascending_id by (by apply take_slice_ascending). by apply take_slice_rev.
  - split; [|done]. apply of_list_wf, take_slice_nodup, Hwf.
Qed.

Lemma slice_equiv_witness :
  iter (slice_ (sort true (of_list [4; 0; 7; 6] false)) 1 3) = [6; 4] /\
  iter (slice_ (sort true (of_list [4; 0; 7; 6] false)) 1 3)
  = slice_elems (sort true (of_list [4; 0; 7; 6] false)) 1 3.
Proof.
  split; [vm_compute; reflexivity|].
  apply (slice_equiv (sort true (of_list [4; 0; 7; 6] false)) 1 3); [|lia|lia].
  apply sort_iter, of_list_wf. by apply (bool_decide_unpack (NoDup [4; 0; 7; 6])).
Defined.
End BaseSet.
