(* ===== verification/AddSet.v ===== *)
(** * Unions of smartsets ([_iterordered] and [addset] of smartset.py)

    An addset holds two smartsets and, once its length was asked or it was
    reversed, the list of all its elements ([_genlist]) and its sorted copy
    ([_asclist]).  The held sets are the objects' states at the time of the
    call.  The file proves that the ordered iteration merges two ordered
    iterators and that the class keeps the smartset contract. *)

From S2P Require Import Prelude SmartSet BaseSet.

(** ** Ordered iteration *)

Module IterOrdered.

(** [if val is None: val = next(iter)]; [None] is [StopIteration]. *)
Definition pull (val : option Z) (it : list Z) : option (Z * list Z) :=
  match val with
  | Some v => Some (v, it)
  | None => match it with [] => None | v :: it => Some (v, it) end
  end.

(** The [except StopIteration] branch. *)
Definition flush (val1 : option Z) (iter1 : list Z) (val2 : option Z) (iter2 : list Z) : list Z :=
  match val1 with
  | Some v => v :: iter1
  | None => match val2 with Some v => v :: iter2 | None => iter2 end
  end.

Definition choice (ascending : bool) : Z -> Z -> Z := if ascending then Z.min else Z.max.

(** The [while True] loop, with the values it yields. *)
Fixpoint loop (fuel : nat) (ascending : bool) (val1 : option Z) (iter1 : list Z)
    (val2 : option Z) (iter2 : list Z) : list Z :=
  match fuel with
  | O => []
  | S fuel =>
      match pull val1 iter1 with
      | None => flush val1 iter1 val2 iter2
      | Some (v1, iter1) =>
          match pull val2 iter2 with
          | None => flush (Some v1) iter1 val2 iter2
          | Some (v2, iter2) =>
              let n := choice ascending v1 v2 in
              n :: loop fuel ascending
                     (if decide (v1 = n) then None else Some v1) iter1
                     (if decide (v2 = n) then None else Some v2) iter2
          end
      end
  end.

Definition iterordered (ascending : bool) (iter1 iter2 : list Z) : list Z :=
  loop (S (length iter1 + length iter2)) ascending None iter1 None iter2.

(** The order of an iteration direction. *)
Definition dir (ascending : bool) : relation Z := if ascending then Z.lt else Z.gt.

(** What an iterator with a pulled value still holds. *)
Definition pending (val : option Z) (it : list Z) : list Z :=
  match val with Some v => v :: it | None => it end.

Lemma pull_pending val it :
  match pull val it with
  | None => pending val it = []
  | Some (v, it') => pending val it = v :: it'
  end.
Proof. by destruct val, it. Qed.

Lemma choice_cases a v1 v2 :
  (choice a v1 v2 = v1 /\ (v1 = v2 \/ dir a v1 v2)) \/ (choice a v1 v2 = v2 /\ v1 ≠ v2 /\ dir a v2 v1).
Proof. unfold choice, dir. destruct a; lia. Qed.

Lemma dir_trans a x y z : dir a x y -> dir a y z -> dir a x z.
Proof. unfold dir. destruct a; lia. Qed.

Lemma dir_irrefl a x : ~ dir a x x.
Proof. unfold dir. destruct a; lia. Qed.

(** The head of two sorted sequences bounds everything after it. *)
Lemma dir_head a v w l : StronglySorted (dir a) (w :: l) -> dir a v w -> Forall (dir a v) (w :: l).
Proof.
  intros Hs Hv. apply StronglySorted_inv in Hs as [_ Hs]. constructor; [done|].
  eapply Forall_impl; [exact Hs|]. intros z Hz. by eapply dir_trans.
Qed.

(** One step leaves two sorted sequences that come after the yielded value. *)
Lemma rest_sorted a v l n :
  StronglySorted (dir a) (v :: l) -> v = n \/ dir a n v ->
  let p := pending (if decide (v = n) then None else Some v) l in
  StronglySorted (dir a) p /\ Forall (dir a n) p /\
  (forall x, x ∈ v :: l <-> (v = n /\ x = n) \/ x ∈ p) /\ (length p <= S (length l))%nat /\
  (v = n -> length p = length l).
Proof.
  intros Hs Hn. simpl. destruct (decide (v = n)) as [->|Hne]; simpl.
  - apply StronglySorted_inv in Hs as [Hs HF]. split_and!; auto; try lia.
    intros x. rewrite elem_of_cons. naive_solver.
  - destruct Hn as [|Hn]; [done|]. split_and!; auto using dir_head; try lia; try done.
    intros x. naive_solver.
Qed.

Lemma loop_spec fuel a val1 iter1 val2 iter2 :
  (length (pending val1 iter1) + length (pending val2 iter2) < fuel)%nat ->
  StronglySorted (dir a) (pending val1 iter1) -> StronglySorted (dir a) (pending val2 iter2) ->
  StronglySorted (dir a) (loop fuel a val1 iter1 val2 iter2) /\
  forall x, x ∈ loop fuel a val1 iter1 val2 iter2 <->
            x ∈ pending val1 iter1 \/ x ∈ pending val2 iter2.
Proof.
  revert val1 iter1 val2 iter2. induction fuel as [|fuel IH]; intros val1 iter1 val2 iter2 Hf H1 H2; [lia|].
  cbn [loop]. pose proof (pull_pending val1 iter1) as P1.
  destruct (pull val1 iter1) as [[v1 it1]|]; rewrite ?P1 in *.
  2:{ destruct val1; [done|]. simpl in P1. subst iter1. simpl.
      destruct val2; simpl in *; split; auto; intros x; set_solver. }
  pose proof (pull_pending val2 iter2) as P2.
  destruct (pull val2 iter2) as [[v2 it2]|]; rewrite ?P2 in *.
  2:{ split; [done|]. intros x. set_solver. }
  assert ((v1 = choice a v1 v2 \/ dir a (choice a v1 v2) v1) /\
          (v2 = choice a v1 v2 \/ dir a (choice a v1 v2) v2) /\
          (v1 = choice a v1 v2 \/ v2 = choice a v1 v2)) as (Hc1 & Hc2 & Hc).
  { destruct (choice_cases a v1 v2) as [(-> & [->|?])|(-> & ? & ?)]; auto. }
  set (n := choice a v1 v2) in *.
  destruct (rest_sorted a v1 it1 n H1 Hc1) as (S1 & F1 & E1 & L1 & L1').
  destruct (rest_sorted a v2 it2 n H2 Hc2) as (S2 & F2 & E2 & L2 & L2').
  simpl in Hf.
  edestruct (IH (if decide (v1 = n) then None else Some v1) it1
                (if decide (v2 = n) then None else Some v2) it2) as [IHs IHe]; [|exact S1|exact S2|].
  { destruct Hc as [Hc|Hc]; [specialize (L1' Hc)|specialize (L2' Hc)]; lia. }
  split.
  - constructor; [exact IHs|]. apply Forall_forall. intros x [Hx|Hx]%IHe;
      [rewrite Forall_forall in F1|rewrite Forall_forall in F2]; auto.
  - intros x. rewrite elem_of_cons, IHe, E1, E2. naive_solver.
Qed.

Lemma iterordered_spec a l1 l2 :
  StronglySorted (dir a) l1 -> StronglySorted (dir a) l2 ->
  StronglySorted (dir a) (iterordered a l1 l2) /\
  forall x, x ∈ iterordered a l1 l2 <-> x ∈ l1 \/ x ∈ l2.
Proof. intros. apply loop_spec; simpl; auto. Qed.
End IterOrdered.

(** ** addset *)

Module AddSet.
Import IterOrdered.

Record addset (T U : Type) := Add {
  r1 : T;
  r2 : U;
  a_ascending : option bool;
  genlist : option BaseSet.baseset;
  asclist : option (list Z)
}.
Arguments Add {T U} r1 r2 a_ascending genlist asclist.
Arguments r1 {T U} a.
Arguments r2 {T U} a.
Arguments a_ascending {T U} a.
Arguments genlist {T U} a.
Arguments asclist {T U} a.

Section methods.
Context {T U : Type} `{!SmartSet T} `{!SmartSet U}.
Implicit Type s : addset T U.

(** [__init__] *)
Definition init (revs1 : T) (revs2 : U) (asc : option bool) : addset T U :=
  Add revs1 revs2 asc None None.

(** [_trysetasclist] *)
Definition trysetasclist s : addset T U :=
  match genlist s, asclist s with
  | Some g, None => Add (r1 s) (r2 s) (a_ascending s) (genlist s) (Some (zsort (BaseSet.iter g)))
  | _, _ => s
  end.

Definition fastasc s : option (list Z) :=
  match asclist (trysetasclist s) with
  | Some l => Some l
  | None =>
      match ss_fastasc (r1 s), ss_fastasc (r2 s) with
      | Some iter1, Some iter2 => Some (iterordered true iter1 iter2)
      | _, _ => None
      end
  end.

Definition fastdesc s : option (list Z) :=
  match asclist (trysetasclist s) with
  | Some l => Some (rev l)
  | None =>
      match ss_fastdesc (r1 s), ss_fastdesc (r2 s) with
      | Some iter1, Some iter2 => Some (iterordered false iter1 iter2)
      | _, _ => None
      end
  end.

(** The iterator of one component: its own fast one, or its sorted list. *)
Definition component_iter {V} `{!SmartSet V} (asc : bool) (r : V) : list Z :=
  match (if asc then ss_fastasc r else ss_fastdesc r) with
  | Some it => it
  | None => sorted_as (negb asc) (ss_iter r)
  end.

(** [arbitraryordergen] *)
Definition arbitraryordergen s : list Z :=
  ss_iter (r1 s) ++ iterfilter (fun r => negb (ss_contains (r1 s) r)) (ss_iter (r2 s)).

(** [__iter__] *)
Definition iter s : list Z :=
  match a_ascending s with
  | None =>
      match genlist s with
      | Some g => if BaseSet.nonzero g then BaseSet.iter g else arbitraryordergen s
      | None => arbitraryordergen s
      end
  | Some asc =>
      match (if asc then fastasc s else fastdesc s) with
      | Some it => it
      | None => iterordered asc (component_iter asc (r1 s)) (component_iter asc (r2 s))
      end
  end.

(** The cached property [_list], and the object after it was computed. *)
Definition list_of s : BaseSet.baseset :=
  match genlist s with
  | Some g => if BaseSet.nonzero g then g else BaseSet.of_list (iter s) false
  | None => BaseSet.of_list (iter s) false
  end.

Definition touch_list s : addset T U :=
  Add (r1 s) (r2 s) (a_ascending s) (Some (list_of s)) (asclist s).

Definition len s : Z := BaseSet.len (list_of s).
Definition nonzero s : bool := ss_nonzero (r1 s) || ss_nonzero (r2 s).
Definition contains s (x : Z) : bool := ss_contains (r1 s) x || ss_contains (r2 s) x.

Definition set_ascending s (a : option bool) : addset T U :=
  Add (r1 s) (r2 s) a (genlist s) (asclist s).

Definition sort (reverse : bool) s : addset T U := set_ascending s (Some (negb reverse)).

Definition isascending s : bool := match a_ascending s with Some a => a | None => false end.
Definition isdescending s : bool := match a_ascending s with Some a => negb a | None => false end.
Definition istopo s : bool := false.

(** [reverse]: an unordered addset reverses its generated list in place. *)
Definition reverse s : addset T U :=
  match a_ascending s with
  | None => Add (r1 s) (r2 s) None (Some (BaseSet.reverse (list_of s))) (asclist s)
  | Some a => set_ascending s (Some (negb a))
  end.

Definition first s : option Z := match iter s with [] => None | x :: _ => Some x end.

(** [last] and the object it leaves. *)
Definition last_ s : option Z * addset T U :=
  let s := reverse s in
  let val := first s in
  (val, reverse s).

#[global] Instance addset_smartset : SmartSet (addset T U) := {
  ss_contains := contains; ss_iter := iter; ss_fastasc := fastasc; ss_fastdesc := fastdesc;
  ss_nonzero := nonzero; ss_len := len; ss_isascending := isascending;
  ss_isdescending := isdescending; ss_istopo := istopo; ss_first := first;
  ss_last s := fst (last_ s);
  ss_sort := sort; ss_reverse := reverse; ss_isfullrepo _ := false
}.
End methods.

(** ** The contract *)

Section laws.
Context {T U : Type} `{SmartSetLaws T} `{SmartSetLaws U}.
Implicit Type s : addset T U.

Definition union s (x : Z) : Prop := x ∈ ss_iter (r1 s) \/ x ∈ ss_iter (r2 s).

(** The components are well formed and the caches hold the union. *)
Record wf s : Prop := {
  wf_r1 : ss_wf (r1 s);
  wf_r2 : ss_wf (r2 s);
  wf_genlist : forall g, genlist s = Some g ->
    BaseSet.wf g /\ BaseSet.b_ascending g = None /\ forall x, x ∈ BaseSet.iter g <-> union s x;
  wf_asclist : forall l, asclist s = Some l -> ascending l /\ forall x, x ∈ l <-> union s x
}.

Lemma init_wf (a : T) (b : U) asc : ss_wf a -> ss_wf b -> wf (init a b asc).
Proof. intros. split; done. Qed.

Lemma trysetasclist_wf s : wf s -> wf (trysetasclist s).
Proof.
  intros [W1 W2 Wg Wa]. unfold trysetasclist.
  destruct (genlist s) as [g|] eqn:Eg; [destruct (asclist s) eqn:Ea|]; split; simpl; rewrite ?Eg, ?Ea; auto.
  intros l [= <-]. destruct (Wg g eq_refl) as (Hw & _ & Hu). split.
  - by apply zsort_ascending, BaseSet.base_iter_nodup.
  - intros x. rewrite elem_of_zsort. apply Hu.
Qed.

(** A view of the union in one direction; there is only one. *)
Definition is_view s (a : bool) (l : list Z) : Prop :=
  StronglySorted (dir a) l /\ forall x, x ∈ l <-> union s x.

Lemma dir_ext a l l' :
  StronglySorted (dir a) l -> StronglySorted (dir a) l' -> (forall x, x ∈ l <-> x ∈ l') -> l = l'.
Proof.
  destruct a; [apply ascending_ext|apply descending_ext].
Qed.

Lemma sorted_as_dir a l : NoDup l -> StronglySorted (dir a) (sorted_as (negb a) l).
Proof. intros Hl. destruct a; simpl; [|apply ascending_rev]; by apply zsort_ascending. Qed.

Lemma elem_of_sorted_as r l x : x ∈ sorted_as r l <-> x ∈ l.
Proof. unfold sorted_as. destruct r; by rewrite ?elem_of_rev, elem_of_zsort. Qed.

Lemma dir_NoDup a l : StronglySorted (dir a) l -> NoDup l.
Proof. destruct a; [apply ascending_NoDup|apply descending_NoDup]. Qed.

Lemma dir_rev a l : StronglySorted (dir a) l -> StronglySorted (dir (negb a)) (rev l).
Proof. destruct a; [apply ascending_rev|apply descending_rev]. Qed.

Lemma view_unique s a l l' : is_view s a l -> is_view s a l' -> l = l'.
Proof. intros [? E] [? E']. apply (dir_ext a); auto. intros x. by rewrite E, E'. Qed.

Lemma view_rev s a l : is_view s a l -> is_view s (negb a) (rev l).
Proof. intros [Hs He]. split; [by apply dir_rev|]. intros x. by rewrite elem_of_rev. Qed.

Lemma component_iter_spec {V} `{SmartSetLaws V} a (r : V) :
  ss_wf r -> StronglySorted (dir a) (component_iter a r) /\ forall x, x ∈ component_iter a r <-> x ∈ ss_iter r.
Proof.
  intros Hwf. assert (component_iter a r = sorted_as (negb a) (ss_iter r)) as ->.
  { unfold component_iter. destruct a;
      [destruct (ss_fastasc r) eqn:E|destruct (ss_fastdesc r) eqn:E]; try done;
      [by apply ss_fastasc_ok in E|by apply ss_fastdesc_ok in E]. }
  split; [apply sorted_as_dir; by apply ss_nodup|]. intros. apply elem_of_sorted_as.
Qed.

Lemma merge_view s a :
  wf s -> is_view s a (iterordered a (component_iter a (r1 s)) (component_iter a (r2 s))).
Proof.
  intros [W1 W2 _ _]. destruct (component_iter_spec a (r1 s) W1) as [S1 E1].
  destruct (component_iter_spec a (r2 s) W2) as [S2 E2].
  destruct (iterordered_spec a _ _ S1 S2) as [S3 E3]. split; [done|].
  intros x. by rewrite E3, E1, E2.
Qed.

Lemma asclist_view s l : wf s -> asclist (trysetasclist s) = Some l -> is_view s true l.
Proof.
  intros Hwf E. destruct (wf_asclist _ (trysetasclist_wf s Hwf) l E) as [? Hu]. split; [done|].
  intros x. rewrite Hu. unfold union, trysetasclist. by destruct (genlist s), (asclist s).
Qed.

Definition fast (a : bool) s : option (list Z) := if a then fastasc s else fastdesc s.

Lemma fast_view s a l : wf s -> fast a s = Some l -> is_view s a l.
Proof.
  intros Hwf E. pose proof (merge_view s a Hwf) as Hm. pose proof (asclist_view s) as Ha.
  unfold fast, fastasc, fastdesc, component_iter in *.
  destruct a, (asclist (trysetasclist s)) as [l'|]; simplify_eq; auto.
  - destruct (ss_fastasc (r1 s)), (ss_fastasc (r2 s)); by simplify_eq.
  - apply (view_rev s true). by apply Ha.
  - destruct (ss_fastdesc (r1 s)), (ss_fastdesc (r2 s)); by simplify_eq.
Qed.

Lemma arbitrary_spec s : wf s -> NoDup (arbitraryordergen s) /\ forall x, x ∈ arbitraryordergen s <-> union s x.
Proof.
  intros [W1 W2 _ _]. unfold arbitraryordergen, iterfilter.
  assert (forall x, negb (ss_contains (r1 s) x) = true <-> x ∉ ss_iter (r1 s)) as Hc.
  { intros x. rewrite negb_true_iff, <- (ss_contains_ok (r1 s) x W1).
    by destruct (ss_contains (r1 s) x). }
  split.
  - apply NoDup_app. split_and!; [by apply ss_nodup| |by apply NoDup_filter, ss_nodup].
    intros x Hx [Hn _]%list_elem_of_filter. by apply Hc in Hn.
  - intros x. unfold union. rewrite elem_of_app, list_elem_of_filter, Hc.
    destruct (decide (x ∈ ss_iter (r1 s))); tauto.
Qed.

(** Iteration enumerates the union once, in the direction that is set. *)
Lemma add_iter_spec s : wf s ->
  NoDup (iter s) /\ (forall x, x ∈ iter s <-> union s x) /\
  (forall a, a_ascending s = Some a -> is_view s a (iter s)).
Proof.
  intros Hwf. unfold iter. destruct (a_ascending s) as [a|] eqn:Ea.
  - assert (is_view s a (match fast a s with Some it => it | None =>
      iterordered a (component_iter a (r1 s)) (component_iter a (r2 s)) end)) as Hv.
    { destruct (fast a s) eqn:E; [by apply fast_view|by apply merge_view]. }
    unfold fast in Hv. split_and!; [eapply dir_NoDup, Hv|apply Hv|]. by intros ? [= <-].
  - assert (NoDup (arbitraryordergen s) /\ forall x, x ∈ arbitraryordergen s <-> union s x) as [? ?]
      by by apply arbitrary_spec.
    destruct (genlist s) as [g|] eqn:Eg; [destruct (BaseSet.nonzero g)|]; split_and!; auto; try done.
    + apply BaseSet.base_iter_nodup. by apply (wf_genlist s Hwf).
    + by apply (wf_genlist s Hwf).
Qed.

Lemma arbitrary_nil s s' :
  wf s -> wf s' -> r1 s' = r1 s -> r2 s' = r2 s -> iter s = [] -> arbitraryordergen s' = [].
Proof.
  intros Hwf Hwf' E1 E2 El. destruct (add_iter_spec s Hwf) as (_ & He & _).
  destruct (arbitrary_spec s' Hwf') as [_ Harb].
  destruct (arbitraryordergen s') as [|z m]; [done|]. exfalso.
  apply (not_elem_of_nil z). rewrite <- El. apply He. unfold union. rewrite <- E1, <- E2.
  apply Harb. by left.
Qed.

Lemma iter_sorted_as s a : wf s -> is_view s a (sorted_as (negb a) (iter s)).
Proof.
  intros Hwf. destruct (add_iter_spec s Hwf) as (Hn & He & _).
  split; [by apply sorted_as_dir|]. intros x. by rewrite elem_of_sorted_as.
Qed.

Lemma list_of_spec s : wf s ->
  BaseSet.wf (list_of s) /\ BaseSet.b_ascending (list_of s) = None /\
  (forall x, x ∈ BaseSet.iter (list_of s) <-> union s x) /\
  (a_ascending s = None -> BaseSet.iter (list_of s) = iter s).
Proof.
  intros Hwf. destruct (add_iter_spec s Hwf) as (Hn & He & _).
  unfold list_of. destruct (genlist s) as [g|] eqn:Eg.
  - destruct (BaseSet.nonzero g) eqn:Enz.
    + destruct (wf_genlist s Hwf g Eg) as (? & ? & ?). split_and!; auto.
      intros E. unfold iter. by rewrite E, Eg, Enz.
    + split_and!; auto. by apply BaseSet.of_list_wf.
  - split_and!; auto. by apply BaseSet.of_list_wf.
Qed.

Lemma add_len_spec s : wf s -> len s = Z.of_nat (length (iter s)).
Proof.
  intros Hwf. destruct (add_iter_spec s Hwf) as (Hn & He & _).
  destruct (list_of_spec s Hwf) as (Hw & _ & Hu & _).
  unfold len. rewrite BaseSet.len_spec, <- BaseSet.length_iter by done. f_equal.
  apply Permutation_length. apply NoDup_Permutation; auto using BaseSet.base_iter_nodup.
  intros x. by rewrite Hu, He.
Qed.

Lemma set_ascending_wf s a : wf s -> wf (set_ascending s a).
Proof. intros [? ? ? ?]. by split. Qed.

Lemma add_sort_spec s r : wf s -> wf (sort r s) /\ iter (sort r s) = sorted_as r (iter s).
Proof.
  intros Hwf. assert (wf (sort r s)) as Hw by by apply set_ascending_wf. split; [done|].
  destruct (add_iter_spec _ Hw) as (_ & _ & Hv). specialize (Hv _ eq_refl).
  pose proof (iter_sorted_as s (negb r) Hwf) as Hs. rewrite negb_involutive in Hs.
  by eapply (view_unique s (negb r)).
Qed.

Lemma nonzero_reverse b : BaseSet.wf b -> BaseSet.nonzero (BaseSet.reverse b) = BaseSet.nonzero b.
Proof.
  intros Hb. destruct (BaseSet.reverse_iter b Hb) as [Hr Ei].
  rewrite !BaseSet.nonzero_iter, Ei by done. apply bool_decide_ext.
  destruct (BaseSet.iter b); simpl; [done|]. split; [done|]. by destruct (rev l).
Qed.

Lemma add_reverse_wf s : wf s -> wf (reverse s).
Proof.
  intros Hwf. unfold reverse. destruct (a_ascending s) as [a|] eqn:Ea; [by apply set_ascending_wf|].
  destruct (list_of_spec s Hwf) as (Hb & Hn & Hu & _). destruct Hwf as [W1 W2 Wg Wa].
  destruct (BaseSet.reverse_iter _ Hb) as [Hr Ei].
  split; simpl; auto. intros g [= <-]. split_and!; auto.
  - unfold BaseSet.reverse. by rewrite Hn.
  - intros x. rewrite Ei, elem_of_rev. apply Hu.
Qed.

Lemma add_reverse_spec s : wf s -> wf (reverse s) /\ iter (reverse s) = rev (iter s).
Proof.
  intros Hwf. assert (wf (reverse s)) as Hw by by apply add_reverse_wf. split; [done|].
  destruct (add_iter_spec _ Hwf) as (_ & He & Hv).
  destruct (add_iter_spec _ Hw) as (_ & _ & Hv').
  destruct (a_ascending s) as [a|] eqn:Ea.
  - assert (a_ascending (reverse s) = Some (negb a)) as Ea' by (unfold reverse; by rewrite Ea).
    specialize (Hv' _ Ea'). apply (view_unique (reverse s) (negb a)); [done|].
    pose proof (view_rev s a _ (Hv a eq_refl)) as Hr. unfold reverse. by rewrite Ea.
  - destruct (list_of_spec s Hwf) as (Hb & Hn & Hu & Hi). specialize (Hi Ea).
    destruct (BaseSet.reverse_iter _ Hb) as [Hr Ei].
    unfold iter at 1, reverse. rewrite Ea. simpl. rewrite nonzero_reverse, Ei by done.
    destruct (BaseSet.nonzero (list_of s)) eqn:Enz; [by rewrite Hi|].
    rewrite BaseSet.nonzero_iter, Hi in Enz by done.
    apply bool_decide_eq_false in Enz. destruct (iter s) as [|y l] eqn:El; [|by destruct Enz].
    simpl. apply (arbitrary_nil s); auto; unfold reverse in Hw; by rewrite Ea in Hw.
Qed.

Lemma first_head s : first s = head (iter s).
Proof. unfold first. by destruct (iter s). Qed.

Lemma bool_of_union s : wf s -> nonzero s = bool_decide (iter s ≠ []).
Proof.
  intros Hwf. destruct (add_iter_spec s Hwf) as (_ & He & _). destruct Hwf as [W1 W2 _ _].
  unfold nonzero. rewrite !ss_nonzero_ok by done. symmetry.
  assert (forall l : list Z, l ≠ [] <-> exists x, x ∈ l) as Hne.
  { intros [|y l]; split; try done; [intros [x Hx]; by apply elem_of_nil in Hx|].
    intros _. exists y. by left. }
  apply Bool.eq_iff_eq_true. rewrite orb_true_iff, !bool_decide_eq_true, !Hne.
  unfold union in He. naive_solver.
Qed.

#[global] Instance addset_laws : SmartSetLaws (addset T U).
Proof.
  refine {| ss_wf := wf |}; simpl.
  - intros s Hwf. by apply add_iter_spec.
  - intros s x Hwf. destruct (add_iter_spec s Hwf) as (_ & He & _). rewrite He.
    unfold contains, union. destruct Hwf. by rewrite orb_true_iff, !ss_contains_ok.
  - intros s l Hwf E. apply (view_unique s true); [by apply (fast_view s true)|].
    by apply (iter_sorted_as s true).
  - intros s l Hwf E. apply (view_unique s false); [by apply (fast_view s false)|].
    by apply (iter_sorted_as s false).
  - apply bool_of_union.
  - apply add_len_spec.
  - intros s Hwf. unfold isascending. destruct (a_ascending s) as [[|]|] eqn:E; try done.
    intros _. by apply (proj2 (proj2 (add_iter_spec s Hwf)) true E).
  - intros s Hwf. unfold isdescending. destruct (a_ascending s) as [[|]|] eqn:E; try done.
    intros _. by apply (proj2 (proj2 (add_iter_spec s Hwf)) false E).
  - intros s Hwf. apply first_head.
  - intros s Hwf. unfold last_. simpl. rewrite first_head.
    destruct (add_reverse_spec s Hwf) as [_ ->]. apply head_rev.
  - apply add_sort_spec.
  - apply add_reverse_spec.
Defined.

(** The union of two smartsets keeps the smartset contract: it enumerates
    every revision of either set once, in the set direction or first-then-rest
    when unordered, whichever of the two offers fast iterators and whichever of
    its caches is filled. *)
Theorem addset_contract (a : T) (b : U) (asc : option bool) :
  ss_wf a -> ss_wf b ->
  ss_contract (init a b asc) /\
  (forall x, x ∈ ss_iter (init a b asc) <-> x ∈ ss_iter a \/ x ∈ ss_iter b).
Proof.
  intros Ha Hb. pose proof (init_wf a b asc Ha Hb) as Hw.
  split; [by apply ss_contract_wf|]. apply (add_iter_spec (init a b asc) Hw).
Qed.

(** Filling a cache, or asking for the last element (which reverses the set
    twice), changes no iteration. *)
Lemma add_touch_list_wf s : wf s -> wf (touch_list s).
Proof.
  intros Hwf. destruct (list_of_spec s Hwf) as (? & ? & ? & ?). destruct Hwf as [W1 W2 Wg Wa].
  split; simpl; auto. intros g [= <-]. by split_and!.
Qed.

(** Asking an addset for its length or its last element fills caches, and
    asking for the last one reverses the object twice: the object left behind
    still iterates over the same sequence. *)
Theorem addset_observers_pure (s : addset T U) :
  wf s ->
  iter (touch_list s) = iter s /\ iter (trysetasclist s) = iter s /\
  wf (snd (last_ s)) /\ iter (snd (last_ s)) = iter s.
Proof.
  intros Hwf. destruct (add_iter_spec s Hwf) as (Hn & He & Hv).
  assert (forall s', wf s' -> a_ascending s' = a_ascending s -> r1 s' = r1 s -> r2 s' = r2 s ->
    is_Some (a_ascending s) -> iter s' = iter s) as Hord.
  { intros s' Hw' E' Er1 Er2 [a Ea]. destruct (add_iter_spec s' Hw') as (_ & _ & Hv').
    apply (view_unique s a); [|by apply Hv].
    destruct (Hv' a) as [? Hu]; [congruence|]. split; [done|]. intros x. rewrite Hu.
    unfold union. by rewrite Er1, Er2. }
  split_and!.
  - destruct (a_ascending s) as [a|] eqn:Ea; [apply Hord; eauto using add_touch_list_wf|].
    destruct (list_of_spec s Hwf) as (Hb & _ & _ & Hi). specialize (Hi Ea).
    unfold iter at 1, touch_list. rewrite Ea. simpl.
    destruct (BaseSet.nonzero (list_of s)) eqn:Enz; [done|].
    rewrite BaseSet.nonzero_iter, Hi in Enz by done. apply bool_decide_eq_false in Enz.
    destruct (iter s) as [|y l] eqn:El; [|by destruct Enz].
    pose proof (add_touch_list_wf s Hwf) as Hw. unfold touch_list in Hw. rewrite Ea in Hw.
    by apply (arbitrary_nil s).
  - destruct (a_ascending s) as [a|] eqn:Ea.
    + apply Hord; eauto using trysetasclist_wf; unfold trysetasclist; by destruct (genlist s), (asclist s).
    + unfold iter, trysetasclist. by destruct (genlist s) as [g|] eqn:Eg, (asclist s) eqn:El;
        simpl; rewrite ?Ea, ?Eg; simpl.
  - by apply add_reverse_wf, add_reverse_wf.
  - simpl. destruct (add_reverse_spec s Hwf) as [Hw1 E1].
    destruct (add_reverse_spec _ Hw1) as [_ ->]. by rewrite E1, rev_involutive.
Qed.
End laws.

Lemma addset_contract_witness :
  ss_iter (init (BaseSet.of_list [0; 3; 2] false) (BaseSet.of_list [5; 2; 4] false) None) = [0; 3; 2; 5; 4] /\
  ss_iter (init (BaseSet.of_list [0; 3; 2] false) (BaseSet.of_list [5; 2; 4] false) (Some false)) = [5; 4; 3; 2; 0] /\
  ss_contract (init (BaseSet.of_list [0; 3; 2] false) (BaseSet.of_list [5; 2; 4] false) (Some false)).
Proof.
  split; [vm_compute; reflexivity|]. split; [vm_compute; reflexivity|].
  apply addset_contract; apply BaseSet.of_list_wf;
    [by apply (bool_decide_unpack (NoDup [0; 3; 2]))|by apply (bool_decide_unpack (NoDup [5; 2; 4]))].
Defined.

Lemma addset_observers_pure_witness :
  fst (last_ (init (BaseSet.of_list [0; 3; 2] false) (BaseSet.of_list [5; 2; 4] false) None)) = Some 4 /\
  iter (snd (last_ (init (BaseSet.of_list [0; 3; 2] false) (BaseSet.of_list [5; 2; 4] false) None)))
  = iter (init (BaseSet.of_list [0; 3; 2] false) (BaseSet.of_list [5; 2; 4] false) None).
Proof.
  split; [vm_compute; reflexivity|].
  apply (addset_observers_pure (init (BaseSet.of_list [0; 3; 2] false) (BaseSet.of_list [5; 2; 4] false) None)).
  apply init_wf; apply BaseSet.of_list_wf;
    [by apply (bool_decide_unpack (NoDup [0; 3; 2]))|by apply (bool_decide_unpack (NoDup [5; 2; 4]))].
Defined.
End AddSet.
