(* ===== verification/GeneratorSet.v ===== *)
(** * Lazy smartsets over a generator ([generatorset] of smartset.py)

    The object consumes a shared generator on demand and remembers what it
    produced ([_genlist], [_cache]); several iterators can run at the same
    time and each may pull from the generator.  The generator is the list of
    the values it has still to produce.  Every operation is a state
    transformer; the main theorem is a refinement: any interleaving of
    iterator steps, membership tests and the other operations is observed as
    on an immutable collection with a direction. *)

From S2P Require Import Prelude SmartSet.

Module GeneratorSet.

(** The attribute [fastasc] or [fastdesc]: absent, the method [_iterator], or
    the iterator of a list. *)
Inductive fastattr := NoFast | IteratorFast | ListFast (l : list Z).

(** The instance attribute [__contains__]. *)
Inductive containsattr := PlainContains | AscContains | DescContains.

Record generatorset := Gen {
  g_gen : list Z;
  g_asclist : option (list Z);
  g_cache : gmap Z bool;
  g_genlist : list Z;
  g_finished : bool;
  g_ascending : bool;
  g_fastasc : fastattr;
  g_fastdesc : fastattr;
  g_contains : containsattr
}.

(** [__init__] *)
Definition init (gen : list Z) (iterasc : option bool) : generatorset :=
  Gen gen None ∅ [] false true
    (match iterasc with Some true => IteratorFast | _ => NoFast end)
    (match iterasc with Some false => IteratorFast | _ => NoFast end)
    (match iterasc with
     | None => PlainContains
     | Some true => AscContains
     | Some false => DescContains
     end).

(** ** Consuming the generator *)

(** What [_consumegen] does when the generator is exhausted. *)
Definition finish (s : generatorset) : generatorset :=
  if g_finished s then s
  else
    let asc := zsort (g_genlist s) in
    Gen (g_gen s) (Some asc) (g_cache s) (g_genlist s) true (g_ascending s)
      (ListFast asc) (ListFast (rev asc)) (g_contains s).

(** One [next] on an instance of [_consumegen]. *)
Definition consume_next (s : generatorset) : option Z * generatorset :=
  match g_gen s with
  | item :: gen =>
      (Some item,
       Gen gen (g_asclist s) (<[item:=true]> (g_cache s)) (g_genlist s ++ [item])
         (g_finished s) (g_ascending s) (g_fastasc s) (g_fastdesc s) (g_contains s))
  | [] => (None, finish s)
  end.

(** [for x in self._consumegen(): pass] *)
Fixpoint consume_n (n : nat) (s : generatorset) : generatorset :=
  match n with
  | O => s
  | S n => match consume_next s with (Some _, s) => consume_n n s | (None, s) => s end
  end.

Definition consume_all (s : generatorset) : generatorset := consume_n (S (length (g_gen s))) s.

(** ** Membership *)

(** [self._cache[x] = False] *)
Definition mark_absent (x : Z) (s : generatorset) : generatorset :=
  Gen (g_gen s) (g_asclist s) (<[x:=false]> (g_cache s)) (g_genlist s)
    (g_finished s) (g_ascending s) (g_fastasc s) (g_fastdesc s) (g_contains s).

(** The loop over new values; [brk] is the condition of its [break]. *)
Fixpoint contains_loop (n : nat) (brk : Z -> bool) (x : Z) (s : generatorset) : bool * generatorset :=
  match n with
  | O => (false, s)
  | S n =>
      match consume_next s with
      | (None, s) => (false, mark_absent x s)
      | (Some l, s) =>
          if decide (l = x) then (true, s)
          else if brk l then (false, mark_absent x s)
          else contains_loop n brk x s
      end
  end.

Definition contains_with (brk : Z -> bool) (x : Z) (s : generatorset) : bool * generatorset :=
  match g_cache s !! x with
  | Some b => (b, s)
  | None => contains_loop (S (length (g_gen s))) brk x s
  end.

(** [__contains__], [_asccontains] and [_desccontains] *)
Definition contains (x : Z) (s : generatorset) : bool * generatorset :=
  contains_with (fun _ => false) x s.
Definition asccontains (x : Z) (s : generatorset) : bool * generatorset :=
  contains_with (fun l => bool_decide (l > x)) x s.
Definition desccontains (x : Z) (s : generatorset) : bool * generatorset :=
  contains_with (fun l => bool_decide (l < x)) x s.

(** A call through the instance attribute, as [__and__] and [__sub__] make. *)
Definition contains_attr (x : Z) (s : generatorset) : bool * generatorset :=
  match g_contains s with
  | PlainContains => contains x s
  | AscContains => asccontains x s
  | DescContains => desccontains x s
  end.

(** ** Iterators *)

(** The generator [gen()] of [_iterator], a list iterator on [_genlist], and
    an iterator on the sorted list or its reversal. *)
Inductive iterator := GenIter (i : nat) | GenlistIter (i : nat) | AscIter (rest : list Z).

(** [_iterator] *)
Definition iterator_ (s : generatorset) : iterator :=
  if g_finished s then GenlistIter 0 else GenIter 0.

Definition fast (asc : bool) (s : generatorset) : fastattr := if asc then g_fastasc s else g_fastdesc s.

(** [it()] for a fast attribute that is present. *)
Definition call_fast (it : fastattr) (s : generatorset) : iterator :=
  match it with
  | NoFast => AscIter []
  | IteratorFast => iterator_ s
  | ListFast l => AscIter l
  end.

(** [next] on an iterator *)
Definition iter_next (it : iterator) (s : generatorset) : option Z * iterator * generatorset :=
  match it with
  | GenIter i =>
      match g_genlist s !! i with
      | Some y => (Some y, GenIter (S i), s)
      | None =>
          match consume_next s with
          | (Some y, s) => (Some y, GenIter (S i), s)
          | (None, s) => (None, GenIter i, s)
          end
      end
  | GenlistIter i =>
      match g_genlist s !! i with
      | Some y => (Some y, GenlistIter (S i), s)
      | None => (None, GenlistIter i, s)
      end
  | AscIter [] => (None, AscIter [], s)
  | AscIter (y :: rest) => (Some y, AscIter rest, s)
  end.

(** The object once the fast attribute for a direction exists: present
    already, or set by consuming the generator. *)
Definition ensure_fast (asc : bool) (s : generatorset) : generatorset :=
  match fast asc s with NoFast => consume_all s | _ => s end.

(** [__iter__]: the second call finds the attribute. *)
Definition iter_ (s : generatorset) : iterator * generatorset :=
  let s := ensure_fast (g_ascending s) s in
  (call_fast (fast (g_ascending s) s) s, s).

(** ** The other operations *)

(** [__nonzero__] *)
Definition nonzero (s : generatorset) : bool * generatorset :=
  match g_genlist s with
  | _ :: _ => (true, s)
  | [] => match consume_next s with (Some _, s) => (true, s) | (None, s) => (false, s) end
  end.

(** [__len__] *)
Definition len (s : generatorset) : Z * generatorset :=
  let s := consume_all s in (Z.of_nat (length (g_genlist s)), s).

Definition set_ascending (a : bool) (s : generatorset) : generatorset :=
  Gen (g_gen s) (g_asclist s) (g_cache s) (g_genlist s) (g_finished s) a
    (g_fastasc s) (g_fastdesc s) (g_contains s).

Definition sort (reverse : bool) (s : generatorset) : generatorset := set_ascending (negb reverse) s.
Definition reverse (s : generatorset) : generatorset := set_ascending (negb (g_ascending s)) s.
Definition isascending (s : generatorset) : bool := g_ascending s.
Definition isdescending (s : generatorset) : bool := negb (g_ascending s).
Definition istopo (s : generatorset) : bool := false.

(** [next(it(), None)] for the fast iterator of a direction *)
Definition next_fast (asc : bool) (s : generatorset) : option Z * generatorset :=
  let s := ensure_fast asc s in
  let '(y, _, s) := iter_next (call_fast (fast asc s) s) s in (y, s).

Definition first (s : generatorset) : option Z * generatorset := next_fast (g_ascending s) s.
Definition last (s : generatorset) : option Z * generatorset := next_fast (negb (g_ascending s)) s.

(** A whole iteration. *)
Fixpoint drain (n : nat) (it : iterator) (s : generatorset) : list Z * generatorset :=
  match n with
  | O => ([], s)
  | S n =>
      match iter_next it s with
      | (None, _, s) => ([], s)
      | (Some y, it, s) => let '(ys, s) := drain n it s in (y :: ys, s)
      end
  end.

Definition total (s : generatorset) : list Z := g_genlist s ++ g_gen s.

Definition list_iter (s : generatorset) : list Z * generatorset :=
  let '(it, s) := iter_ s in drain (S (length (total s))) it s.

Definition list_fast (asc : bool) (s : generatorset) : option (list Z) :=
  match fast asc s with
  | NoFast => None
  | it => Some (fst (drain (S (length (total s))) (call_fast it s) s))
  end.

#[global] Instance generatorset_smartset : SmartSet generatorset := {
  ss_contains s x := fst (contains x s); ss_iter s := fst (list_iter s);
  ss_fastasc := list_fast true; ss_fastdesc := list_fast false;
  ss_nonzero s := fst (nonzero s); ss_len s := fst (len s); ss_isascending := isascending;
  ss_isdescending := isdescending; ss_istopo := istopo;
  ss_first s := fst (first s); ss_last s := fst (last s);
  ss_sort := sort; ss_reverse := reverse; ss_isfullrepo _ := false
}.

(** ** Interleaved use of one object *)

Inductive op :=
  | OpIter                 (* iter(s), a new iterator *)
  | OpNext (k : nat)       (* next on the k-th iterator created *)
  | OpContains (x : Z)     (* x in s *)
  | OpContainsAttr (x : Z) (* s.__contains__(x) *)
  | OpNonzero | OpLen | OpFirst | OpLast
  | OpSort (reverse : bool) | OpReverse.

Inductive obs := ObsUnit | ObsItem (y : option Z) | ObsBool (b : bool) | ObsLen (n : Z).

Definition step (o : op) (st : generatorset * list iterator) : obs * (generatorset * list iterator) :=
  let '(s, its) := st in
  match o with
  | OpIter => let '(it, s) := iter_ s in (ObsUnit, (s, its ++ [it]))
  | OpNext k =>
      match its !! k with
      | None => (ObsUnit, st)
      | Some it => let '(y, it, s) := iter_next it s in (ObsItem y, (s, <[k:=it]> its))
      end
  | OpContains x => let '(b, s) := contains x s in (ObsBool b, (s, its))
  | OpContainsAttr x => let '(b, s) := contains_attr x s in (ObsBool b, (s, its))
  | OpNonzero => let '(b, s) := nonzero s in (ObsBool b, (s, its))
  | OpLen => let '(n, s) := len s in (ObsLen n, (s, its))
  | OpFirst => let '(y, s) := first s in (ObsItem y, (s, its))
  | OpLast => let '(y, s) := last s in (ObsItem y, (s, its))
  | OpSort r => (ObsUnit, (sort r s, its))
  | OpReverse => (ObsUnit, (reverse s, its))
  end.

Fixpoint run (os : list op) (st : generatorset * list iterator) : list obs :=
  match os with
  | [] => []
  | o :: os => let '(b, st) := step o st in b :: run os st
  end.

(** The abstract object: a fixed collection [l], a direction, and for each
    iterator what it has still to produce. *)
Definition spec_step (l : list Z) (o : op) (st : bool * list (list Z)) : obs * (bool * list (list Z)) :=
  let '(asc, its) := st in
  let view := sorted_as (negb asc) l in
  match o with
  | OpIter => (ObsUnit, (asc, its ++ [view]))
  | OpNext k =>
      match its !! k with
      | None => (ObsUnit, st)
      | Some it => (ObsItem (head it), (asc, <[k:=tail it]> its))
      end
  | OpContains x | OpContainsAttr x => (ObsBool (bool_decide (x ∈ l)), st)
  | OpNonzero => (ObsBool (bool_decide (l ≠ [])), st)
  | OpLen => (ObsLen (Z.of_nat (length l)), st)
  | OpFirst => (ObsItem (head view), st)
  | OpLast => (ObsItem (list.last view), st)
  | OpSort r => (ObsUnit, (negb r, its))
  | OpReverse => (ObsUnit, (negb asc, its))
  end.

Fixpoint spec_run (l : list Z) (os : list op) (st : bool * list (list Z)) : list obs :=
  match os with
  | [] => []
  | o :: os => let '(b, st) := spec_step l o st in b :: spec_run l os st
  end.

Example interleaved_example :
  run [OpIter; OpNext 0; OpIter; OpNext 1; OpNext 1; OpContainsAttr 2; OpNext 0; OpNext 1; OpNext 1; OpLast]
      (init [1; 3; 4] (Some true), [])
  = [ObsUnit; ObsItem (Some 1); ObsUnit; ObsItem (Some 1); ObsItem (Some 3); ObsBool false;
     ObsItem (Some 3); ObsItem (Some 4); ObsItem None; ObsItem (Some 4)].
Proof. vm_compute. reflexivity. Qed.

(** ** Invariant *)

(** What a fast attribute of an unfinished object promises. *)
Definition attr_ok (l : list Z) (asc : bool) (a : fastattr) : Prop :=
  match a with
  | NoFast => True
  | IteratorFast => StronglySorted (if asc then Z.lt else Z.gt) l
  | ListFast _ => False
  end.

Record wf (l : list Z) (s : generatorset) : Prop := {
  wf_total : total s = l;
  wf_seen : forall x, g_cache s !! x = Some true <-> x ∈ g_genlist s;
  wf_absent : forall x, g_cache s !! x = Some false -> x ∉ l;
  wf_fast : forall asc,
    if g_finished s then g_gen s = [] /\ fast asc s = ListFast (sorted_as (negb asc) l)
    else attr_ok l asc (fast asc s);
  wf_contains :
    match g_contains s with
    | PlainContains => True
    | AscContains => ascending l
    | DescContains => descending l
    end
}.

(** Objects only ever grow towards the finished state. *)
Definition grows (s s' : generatorset) : Prop :=
  g_ascending s' = g_ascending s /\ (length (g_genlist s) <= length (g_genlist s'))%nat /\
  (g_finished s = true -> g_finished s' = true).

Lemma grows_refl s : grows s s.
Proof. by split_and!. Qed.

Lemma grows_trans s s' s'' : grows s s' -> grows s' s'' -> grows s s''.
Proof. intros (? & ? & ?) (? & ? & ?). split_and!; [congruence|lia|auto]. Qed.

#[local] Hint Resolve grows_refl grows_trans : hg.

Definition iterasc_ok (l : list Z) (iterasc : option bool) : Prop :=
  match iterasc with None => True | Some true => ascending l | Some false => descending l end.

Lemma gen_init_wf l iterasc : iterasc_ok l iterasc -> wf l (init l iterasc).
Proof.
  intros Hi. split; simpl; [done| |done| |].
  - intros x. rewrite lookup_empty. split; [done|]. intros Hx. by apply elem_of_nil in Hx.
  - intros asc. destruct iterasc as [[|]|], asc; simpl; done.
  - destruct iterasc as [[|]|]; done.
Qed.

Lemma finish_spec l s :
  wf l s -> g_gen s = [] -> wf l (finish s) /\ g_finished (finish s) = true /\ grows s (finish s).
Proof.
  intros [Wt Ws Wa Wf Wc] Hg. unfold finish. destruct (g_finished s) eqn:E.
  { split_and!; auto with hg. split; auto. by rewrite E. }
  split_and!; [|done|by split_and!].
  unfold total in Wt. rewrite Hg, app_nil_r in Wt.
  split; simpl; auto.
  - unfold total. simpl. by rewrite Hg, app_nil_r.
  - intros asc. split; [done|]. rewrite Wt. unfold fast, sorted_as. simpl. by destruct asc.
Qed.

Lemma consume_next_spec l s :
  wf l s ->
  match consume_next s with
  | (Some y, s') => l !! length (g_genlist s) = Some y /\ wf l s' /\ grows s s' /\
                    g_genlist s' = g_genlist s ++ [y] /\ g_gen s = y :: g_gen s'
  | (None, s') => g_gen s = [] /\ wf l s' /\ grows s s' /\ g_finished s' = true /\
                  g_genlist s' = g_genlist s
  end.
Proof.
  intros Hwf. unfold consume_next. destruct (g_gen s) as [|item gen] eqn:Eg.
  - destruct (finish_spec l s Hwf Eg) as (? & ? & ?). split_and!; auto.
    unfold finish. by destruct (g_finished s).
  - destruct Hwf as [Wt Ws Wa Wf Wc]. unfold total in Wt. rewrite Eg in Wt.
    assert (item ∈ l) as Hin by (rewrite <- Wt; apply elem_of_app; right; by left).
    split_and!; auto.
    + rewrite <- Wt, lookup_app_r, Nat.sub_diag by lia. done.
    + split; simpl; auto.
      * unfold total. simpl. by rewrite <- (assoc_L (++)).
      * intros x. rewrite lookup_insert, elem_of_app, list_elem_of_singleton.
        case_decide as Hd; subst; [naive_solver|]. rewrite Ws. naive_solver.
      * intros x. rewrite lookup_insert. case_decide; [done|]. apply Wa.
      * intros asc. specialize (Wf asc). unfold fast in *. simpl.
        destruct (g_finished s); [|done]. destruct Wf as [Wf _]. congruence.
    + split_and!; simpl; [done|rewrite length_app; simpl; lia|done].
Qed.

Lemma consume_n_spec l n s :
  wf l s -> (length (g_gen s) < n)%nat ->
  wf l (consume_n n s) /\ grows s (consume_n n s) /\
  g_finished (consume_n n s) = true /\ g_genlist (consume_n n s) = l.
Proof.
  revert s. induction n as [|n IH]; intros s Hwf Hn; [lia|]. cbn [consume_n].
  pose proof (consume_next_spec l s Hwf) as H. destruct (consume_next s) as [[y|] s'].
  - destruct H as (_ & Hw & Hg & _ & E). destruct (IH s' Hw) as (? & ? & ? & ?).
    { rewrite E in Hn. simpl in Hn. lia. }
    split_and!; eauto with hg.
  - destruct H as (E & Hw & Hg & ? & El). split_and!; auto.
    rewrite El. destruct Hwf as [Wt _ _ _ _]. unfold total in Wt. by rewrite E, app_nil_r in Wt.
Qed.

Lemma consume_all_spec l s :
  wf l s ->
  wf l (consume_all s) /\ grows s (consume_all s) /\
  g_finished (consume_all s) = true /\ g_genlist (consume_all s) = l.
Proof. intros. apply consume_n_spec; [done|lia]. Qed.

(** ** Membership *)

Lemma mark_absent_spec l x s : wf l s -> x ∉ l -> wf l (mark_absent x s) /\ grows s (mark_absent x s).
Proof.
  intros [Wt Ws Wa Wf Wc] Hx. split; [|by split_and!]. split; simpl; auto.
  - intros y. rewrite lookup_insert. case_decide as E; [|apply Ws]. rewrite <- E.
    split; [done|]. intros Hy. destruct Hx. rewrite <- Wt. unfold total. set_solver.
  - intros y. rewrite lookup_insert. case_decide as E; [by rewrite <- E|apply Wa].
Qed.

(** [brk] is sound for [x] when no value after one that triggers it is [x]. *)
Definition brk_ok (l : list Z) (brk : Z -> bool) (x : Z) : Prop :=
  forall i j y, l !! i = Some y -> brk y = true -> (i < j)%nat -> l !! j ≠ Some x.

Lemma unseen_elem l s x : wf l s -> x ∉ g_genlist s -> x ∈ l <-> x ∈ g_gen s.
Proof. intros [<- _ _ _ _] Hx. unfold total. set_solver. Qed.

Lemma gen_contains_loop_spec l n brk x s :
  wf l s -> (length (g_gen s) < n)%nat -> brk_ok l brk x -> x ∉ g_genlist s ->
  fst (contains_loop n brk x s) = bool_decide (x ∈ l) /\
  wf l (snd (contains_loop n brk x s)) /\ grows s (snd (contains_loop n brk x s)).
Proof.
  revert s. induction n as [|n IH]; intros s Hwf Hn Hb Hx; [lia|]. cbn [contains_loop].
  pose proof (unseen_elem l s x Hwf Hx) as Hu.
  pose proof (consume_next_spec l s Hwf) as H. destruct (consume_next s) as [[y|] s'].
  - destruct H as (Hy & Hw & Hg & El & E). destruct (decide (y = x)) as [->|Hne]; simpl.
    { split_and!; auto. symmetry. apply bool_decide_eq_true, Hu. rewrite E. by left. }
    assert (x ∉ g_genlist s') as Hx' by (rewrite El; set_solver).
    destruct (brk y) eqn:Eb; simpl.
    + assert (x ∉ l) as Hxl.
      { intros Hin. apply (unseen_elem l s' x Hw Hx') in Hin as [k Hk]%list_elem_of_lookup.
        apply (Hb _ (length (g_genlist s') + k)%nat _ Hy Eb).
        - rewrite El, length_app. simpl. lia.
        - rewrite <- (wf_total l s' Hw). unfold total. rewrite lookup_app_r by lia.
          by replace (_ + k - _)%nat with k by lia. }
      destruct (mark_absent_spec l x s' Hw Hxl) as [? ?].
      split_and!; eauto with hg. by rewrite bool_decide_false.
    + destruct (IH s' Hw) as (? & ? & ?); auto; [rewrite E in Hn; simpl in Hn; lia|].
      split_and!; eauto with hg.
  - destruct H as (E & Hw & Hg & _). simpl. rewrite E in Hu.
    assert (x ∉ l) as Hxl by (intros Hin%Hu; by apply elem_of_nil in Hin).
    destruct (mark_absent_spec l x s' Hw Hxl) as [? ?].
    split_and!; eauto with hg. by rewrite bool_decide_false.
Qed.

Lemma contains_with_spec l brk x s :
  wf l s -> brk_ok l brk x ->
  fst (contains_with brk x s) = bool_decide (x ∈ l) /\
  wf l (snd (contains_with brk x s)) /\ grows s (snd (contains_with brk x s)).
Proof.
  intros Hwf Hb. unfold contains_with. destruct (g_cache s !! x) as [b|] eqn:Ec.
  - simpl. split_and!; auto with hg. destruct b.
    + apply (wf_seen l s Hwf) in Ec. symmetry. apply bool_decide_eq_true.
      rewrite <- (wf_total l s Hwf). unfold total. set_solver.
    + apply (wf_absent l s Hwf) in Ec. by rewrite bool_decide_false.
  - apply gen_contains_loop_spec; auto. intros Hx. apply (wf_seen l s Hwf) in Hx. congruence.
Qed.

Lemma sorted_lookup_lt (R : relation Z) l i j x y :
  StronglySorted R l -> l !! i = Some x -> l !! j = Some y -> (i < j)%nat -> R x y.
Proof.
  intros Hs. revert i j. induction Hs as [|z l Hs IH HF]; intros i j Hi Hj Hij; [done|].
  destruct j as [|j]; [lia|]. destruct i as [|i]; simpl in *.
  - injection Hi as ->. rewrite Forall_forall in HF. apply HF. by eapply list_elem_of_lookup_2.
  - eapply IH; eauto. lia.
Qed.

Lemma gen_contains_spec l x s :
  wf l s -> fst (contains x s) = bool_decide (x ∈ l) /\ wf l (snd (contains x s)) /\ grows s (snd (contains x s)).
Proof. intros. by apply contains_with_spec. Qed.

Lemma contains_attr_spec l x s :
  wf l s ->
  fst (contains_attr x s) = bool_decide (x ∈ l) /\ wf l (snd (contains_attr x s)) /\
  grows s (snd (contains_attr x s)).
Proof.
  intros Hwf. pose proof (wf_contains l s Hwf) as Hc. unfold contains_attr.
  destruct (g_contains s); apply contains_with_spec; auto; try done;
    intros i j y Hi Hb%bool_decide_eq_true Hij Hj;
    pose proof (sorted_lookup_lt _ l i j y x Hc Hi Hj Hij); lia.
Qed.

(** ** Iterators *)

(** [rest] is what the iterator [it] has still to produce. *)
Definition iter_ok (l : list Z) (s : generatorset) (it : iterator) (rest : list Z) : Prop :=
  match it with
  | GenIter i => (i <= length (g_genlist s))%nat /\ rest = drop i l
  | GenlistIter i => g_finished s = true /\ rest = drop i l
  | AscIter ys => rest = ys
  end.

Lemma iter_ok_grows l s s' it rest : grows s s' -> iter_ok l s it rest -> iter_ok l s' it rest.
Proof. intros (_ & ? & ?). destruct it; simpl; [|naive_solver|done]. intros [? ->]. split; [lia|done]. Qed.

Lemma drop_head_tail {A} (l : list A) i x : l !! i = Some x -> drop i l = x :: drop (S i) l.
Proof. intros. by apply drop_S. Qed.

Lemma genlist_lookup l s i y : wf l s -> g_genlist s !! i = Some y -> l !! i = Some y.
Proof. intros [<- _ _ _ _] Hi. unfold total. by apply lookup_app_l_Some. Qed.

Lemma finished_genlist l s : wf l s -> g_finished s = true -> g_genlist s = l.
Proof.
  intros [Wt _ _ Wf _] E. specialize (Wf true). rewrite E in Wf. destruct Wf as [Hg _].
  unfold total in Wt. by rewrite Hg, app_nil_r in Wt.
Qed.

(** One step of any iterator produces the head of what it has to produce, for
    the collection [l] whatever the other users of the object consumed. *)
Lemma iter_next_spec l s it rest :
  wf l s -> iter_ok l s it rest ->
  let '(y, it', s') := iter_next it s in
  y = head rest /\ wf l s' /\ grows s s' /\ iter_ok l s' it' (tail rest).
Proof.
  intros Hwf Hok. destruct it as [i|i|[|y ys]]; simpl in *.
  - destruct Hok as [Hi ->]. destruct (g_genlist s !! i) as [y|] eqn:E.
    + apply lookup_lt_Some in E as Hlt. apply (genlist_lookup l s i y Hwf) in E.
      rewrite (drop_head_tail l i y E). split_and!; auto with hg. simpl. split; [lia|done].
    + apply lookup_ge_None in E. replace i with (length (g_genlist s)) in * by lia.
      pose proof (consume_next_spec l s Hwf) as H. destruct (consume_next s) as [[y|] s'].
      * destruct H as (Hy & Hw & Hg & El & _). rewrite (drop_head_tail l _ y Hy).
        split_and!; auto. simpl. rewrite El, length_app. simpl. split; [lia|done].
      * destruct H as (Eg & Hw & Hg & Ef & El). pose proof (finished_genlist l s' Hw Ef) as Efl.
        rewrite <- El, Efl, drop_all. split_and!; auto. simpl. rewrite Efl, drop_all. auto.
  - destruct Hok as [Hf ->]. rewrite (finished_genlist l s Hwf Hf).
    destruct (l !! i) as [y|] eqn:E.
    + rewrite (drop_head_tail l i y E). split_and!; auto with hg. by split.
    + apply lookup_ge_None in E. rewrite drop_ge by done. split_and!; auto with hg.
      simpl. by rewrite drop_ge.
  - subst. split_and!; auto with hg.
  - subst. split_and!; auto with hg.
Qed.

Lemma sorted_as_id (asc : bool) l :
  StronglySorted (if asc then Z.lt else Z.gt) l -> sorted_as (negb asc) l = l.
Proof.
  destruct asc; simpl; intros H; [by apply zsort_ascending_id|].
  by rewrite zsort_descending_rev, rev_involutive.
Qed.

Lemma ensure_fast_spec l asc s :
  wf l s ->
  wf l (ensure_fast asc s) /\ grows s (ensure_fast asc s) /\
  iter_ok l (ensure_fast asc s) (call_fast (fast asc (ensure_fast asc s)) (ensure_fast asc s))
    (sorted_as (negb asc) l).
Proof.
  intros Hwf.
  assert (wf l (ensure_fast asc s) /\ grows s (ensure_fast asc s) /\
          fast asc (ensure_fast asc s) ≠ NoFast) as (Hw & Hg & Hf).
  { unfold ensure_fast. destruct (fast asc s) eqn:E; [|by rewrite E; auto with hg..].
    destruct (consume_all_spec l s Hwf) as (Hw & Hg & Hfin & _). split_and!; auto.
    pose proof (wf_fast l _ Hw asc) as Hfast. rewrite Hfin in Hfast.
    destruct Hfast as [_ ->]. done. }
  split_and!; auto. set (s' := ensure_fast asc s) in *.
  pose proof (wf_fast l s' Hw asc) as Hfast. destruct (g_finished s') eqn:Efin.
  - destruct Hfast as [_ ->]. done.
  - destruct (fast asc s') as [| |ys] eqn:Efast; simpl in Hfast; [done| |done].
    simpl. unfold iterator_. rewrite Efin. simpl. split; [lia|]. by rewrite sorted_as_id, drop_0.
Qed.

Lemma iter_spec l s :
  wf l s ->
  let '(it, s') := iter_ s in
  wf l s' /\ grows s s' /\ iter_ok l s' it (sorted_as (negb (g_ascending s)) l).
Proof.
  intros Hwf. unfold iter_. destruct (ensure_fast_spec l (g_ascending s) s Hwf) as (Hw & Hg & Hok).
  split_and!; auto. destruct Hg as (-> & _). done.
Qed.

Lemma next_fast_spec l asc s :
  wf l s ->
  fst (next_fast asc s) = head (sorted_as (negb asc) l) /\
  wf l (snd (next_fast asc s)) /\ grows s (snd (next_fast asc s)).
Proof.
  intros Hwf. unfold next_fast. destruct (ensure_fast_spec l asc s Hwf) as (Hw & Hg & Hok).
  pose proof (iter_next_spec l _ _ _ Hw Hok) as Hn. destruct (iter_next _ _) as [[y it] s'].
  destruct Hn as (-> & ? & ? & _). simpl. split_and!; eauto with hg.
Qed.

Lemma head_sorted_as_flip r l : head (sorted_as (negb r) l) = list.last (sorted_as r l).
Proof. destruct r; simpl; by rewrite ?last_rev, ?head_rev. Qed.

Lemma nonzero_spec_gen l s :
  wf l s -> fst (nonzero s) = bool_decide (l ≠ []) /\ wf l (snd (nonzero s)) /\ grows s (snd (nonzero s)).
Proof.
  intros Hwf. unfold nonzero. destruct (g_genlist s) as [|y ys] eqn:E.
  - pose proof (consume_next_spec l s Hwf) as H. destruct (consume_next s) as [[y|] s']; simpl.
    + destruct H as (Hy & ? & ? & _). split_and!; auto. symmetry. apply bool_decide_eq_true.
      by intros ->.
    + destruct H as (Hg & ? & ? & _). split_and!; auto. symmetry. apply bool_decide_eq_false.
      intros Hn. apply Hn. destruct Hwf as [<- _ _ _ _]. unfold total. by rewrite E, Hg.
  - simpl. split_and!; auto with hg. symmetry. apply bool_decide_eq_true.
    destruct Hwf as [<- _ _ _ _]. unfold total. by rewrite E.
Qed.

Lemma set_ascending_wf_gen l a s : wf l s -> wf l (set_ascending a s).
Proof. intros [? ? ? ? ?]. by split. Qed.

(** ** Refinement *)

Definition refines (l : list Z) (st : generatorset * list iterator) (sp : bool * list (list Z)) : Prop :=
  wf l (fst st) /\ g_ascending (fst st) = fst sp /\ Forall2 (iter_ok l (fst st)) (snd st) (snd sp).

Lemma iters_grow l s s' its rests :
  grows s s' -> Forall2 (iter_ok l s) its rests -> Forall2 (iter_ok l s') its rests.
Proof. intros Hg HF. eapply Forall2_impl; [exact HF|]. intros. by eapply iter_ok_grows. Qed.

Lemma refines_grows l s s' its sp :
  refines l (s, its) sp -> wf l s' -> grows s s' -> refines l (s', its) sp.
Proof.
  intros (_ & Ha & HF) Hw Hg. split_and!; auto; simpl in *; [|by eapply iters_grow].
  destruct Hg as (-> & _). done.
Qed.

Lemma refines_iters l s s' its its' asc rests rests' :
  refines l (s, its) (asc, rests) -> wf l s' -> grows s s' ->
  Forall2 (iter_ok l s') its' rests' -> refines l (s', its') (asc, rests').
Proof. intros (_ & Ha & _) Hw (Hg & _) HF. split_and!; simpl in *; auto. congruence. Qed.

Lemma step_refines l o st sp :
  refines l st sp ->
  fst (step o st) = fst (spec_step l o sp) /\
  refines l (snd (step o st)) (snd (spec_step l o sp)).
Proof.
  destruct st as [s its], sp as [asc rests]. intros Hr. pose proof Hr as (Hwf & Ha & HF). cbn [fst snd] in Hwf, Ha, HF.
  destruct o as [|k|x|x| | | | |r|]; cbn [step spec_step].
  - pose proof (iter_spec l s Hwf) as H. destruct (iter_ s) as [it s']. destruct H as (Hw & Hg & Hok).
    rewrite Ha in Hok. split; [done|]. eapply refines_iters; eauto; simpl.
    apply Forall2_app; [by eapply iters_grow|]. by constructor.
  - destruct (rests !! k) as [rest|] eqn:Er.
    + destruct (Forall2_lookup_r _ _ _ _ _ HF Er) as (it & Eit & Hok). rewrite Eit.
      pose proof (iter_next_spec l s it rest Hwf Hok) as Hn. destruct (iter_next it s) as [[y it'] s'].
      destruct Hn as (-> & Hw & Hg & Hok'). split; [done|]. eapply refines_iters; eauto.
      apply Forall2_insert; [by eapply iters_grow|done].
    + assert (its !! k = None) as ->; [|by split].
      apply lookup_ge_None. rewrite (Forall2_length _ _ _ HF). by apply lookup_ge_None.
  - destruct (gen_contains_spec l x s Hwf) as (E & Hw & Hg). destruct (contains x s) as [b s'].
    simpl in *. subst. split; [done|]. by eapply refines_grows.
  - destruct (contains_attr_spec l x s Hwf) as (E & Hw & Hg). destruct (contains_attr x s) as [b s'].
    simpl in *. subst. split; [done|]. by eapply refines_grows.
  - destruct (nonzero_spec_gen l s Hwf) as (E & Hw & Hg). destruct (nonzero s) as [b s'].
    simpl in *. subst. split; [done|]. by eapply refines_grows.
  - destruct (consume_all_spec l s Hwf) as (Hw & Hg & _ & E). unfold len. rewrite E.
    split; [done|]. by eapply refines_grows.
  - destruct (next_fast_spec l (g_ascending s) s Hwf) as (E & Hw & Hg). unfold first.
    destruct (next_fast _ s) as [b s']. simpl in *. subst. split; [done|]. by eapply refines_grows.
  - destruct (next_fast_spec l (negb (g_ascending s)) s Hwf) as (E & Hw & Hg). unfold last.
    destruct (next_fast _ s) as [b s']. simpl in *. subst.
    split; [by rewrite head_sorted_as_flip|]. by eapply refines_grows.
  - split; [done|]. split_and!; [by apply set_ascending_wf_gen|done|].
    eapply Forall2_impl; [exact HF|]. by intros [] ?.
  - split; [done|]. split_and!; [by apply set_ascending_wf_gen|simpl; by rewrite Ha|].
    eapply Forall2_impl; [exact HF|]. by intros [] ?.
Qed.

Lemma run_refines l os st sp : refines l st sp -> run os st = spec_run l os sp.
Proof.
  revert st sp. induction os as [|o os IH]; intros st sp Hr; [done|].
  destruct (step_refines l o st sp Hr) as [E Hr']. simpl.
  destruct (step o st) as [b st'], (spec_step l o sp) as [b' sp']. simpl in *. subst.
  f_equal. by apply IH.
Qed.

(** A generatorset refines an immutable collection: for any interleaving
    of any number of iterators with membership tests (through the operator or
    the direction-optimised attribute), length, emptiness, first, last, sort
    and reverse, every answer is the one of the fixed collection of values of
    the generator, although all of them consume the one shared generator. *)
Theorem generatorset_refines (l : list Z) (iterasc : option bool) (os : list op) :
  iterasc_ok l iterasc -> run os (init l iterasc, []) = spec_run l os (true, []).
Proof.
  intros Hi. apply run_refines. split_and!; simpl; [by apply gen_init_wf|done|constructor].
Qed.

Lemma generatorset_refines_witness :
  run [OpIter; OpNext 0; OpSort true; OpIter; OpNext 1; OpContainsAttr 2; OpNext 0; OpNext 1; OpLast]
    (init [1; 3; 4] (Some true), [])
  = [ObsUnit; ObsItem (Some 1); ObsUnit; ObsUnit; ObsItem (Some 4); ObsBool false; ObsItem (Some 3);
     ObsItem (Some 3); ObsItem (Some 1)].
Proof.
  rewrite (generatorset_refines [1; 3; 4] (Some true)); [vm_compute; reflexivity|].
  simpl. repeat constructor; lia.
Defined.

(** ** The smartset contract *)

Lemma drain_spec l n s it rest :
  wf l s -> iter_ok l s it rest -> (length rest < n)%nat ->
  fst (drain n it s) = rest.
Proof.
  revert s it rest. induction n as [|n IH]; intros s it rest Hwf Hok Hn; [lia|]. cbn [drain].
  pose proof (iter_next_spec l s it rest Hwf Hok) as H. destruct (iter_next it s) as [[y it'] s'].
  destruct H as (-> & Hw & _ & Hok'). destruct rest as [|y rest]; simpl in *; [done|].
  specialize (IH s' it' rest Hw Hok' ltac:(lia)). destruct (drain n it' s') as [ys s'']. simpl in *.
  by subst.
Qed.

Lemma length_sorted_as r l : length (sorted_as r l) = length l.
Proof. unfold sorted_as. destruct r; by rewrite ?length_rev, length_zsort. Qed.

Lemma list_iter_spec l s : wf l s -> fst (list_iter s) = sorted_as (negb (g_ascending s)) l.
Proof.
  intros Hwf. unfold list_iter. pose proof (iter_spec l s Hwf) as H.
  destruct (iter_ s) as [it s']. destruct H as (Hw & _ & Hok).
  apply (drain_spec l); auto. rewrite length_sorted_as, (wf_total l s' Hw). lia.
Qed.

Lemma list_fast_spec l asc s ys : wf l s -> list_fast asc s = Some ys -> ys = sorted_as (negb asc) l.
Proof.
  intros Hwf. unfold list_fast. destruct (ensure_fast_spec l asc s Hwf) as (_ & _ & Hok).
  unfold ensure_fast in Hok.
  assert (forall it, iter_ok l s it (sorted_as (negb asc) l) ->
    fst (drain (S (length (total s))) it s) = sorted_as (negb asc) l) as Hd.
  { intros it Hit. apply (drain_spec l); auto.
    rewrite length_sorted_as, (wf_total l s Hwf). lia. }
  destruct (fast asc s) as [| |xs] eqn:E; [done| |];
    rewrite E in Hok; specialize (Hd _ Hok); congruence.
Qed.

Lemma zsort_sorted_as r l : NoDup l -> zsort (sorted_as r l) = zsort l.
Proof.
  intros Hl. apply zsort_ext; auto.
  - unfold sorted_as. destruct r; rewrite ?NoDup_rev_iff; by rewrite zsort_perm.
  - intros x. unfold sorted_as. destruct r; by rewrite ?elem_of_rev, elem_of_zsort.
Qed.

Lemma sorted_as_nil_iff r (l : list Z) : sorted_as r l ≠ [] <-> l ≠ [].
Proof.
  pose proof (length_sorted_as r l) as E. destruct l, (sorted_as r _); simpl in E; done || lia.
Qed.

#[global] Instance generatorset_laws : SmartSetLaws generatorset.
Proof.
  refine {| ss_wf s := exists l, NoDup l /\ wf l s |}; simpl.
  - intros s (l & Hl & Hwf). rewrite (list_iter_spec l) by done. unfold sorted_as.
    destruct (negb _); rewrite ?NoDup_rev_iff; by rewrite zsort_perm.
  - intros s x (l & Hl & Hwf). rewrite (list_iter_spec l) by done.
    destruct (gen_contains_spec l x s Hwf) as (-> & _). rewrite bool_decide_eq_true. unfold sorted_as.
    destruct (negb _); by rewrite ?elem_of_rev, elem_of_zsort.
  - intros s ys (l & Hl & Hwf) E. rewrite (list_iter_spec l), zsort_sorted_as by done.
    by apply (list_fast_spec l true s ys).
  - intros s ys (l & Hl & Hwf) E. rewrite (list_iter_spec l), zsort_sorted_as by done.
    by apply (list_fast_spec l false s ys).
  - intros s (l & Hl & Hwf). rewrite (list_iter_spec l) by done.
    destruct (nonzero_spec_gen l s Hwf) as (-> & _). apply bool_decide_ext.
    by rewrite sorted_as_nil_iff.
  - intros s (l & Hl & Hwf). rewrite (list_iter_spec l), length_sorted_as by done.
    unfold len. by destruct (consume_all_spec l s Hwf) as (_ & _ & _ & ->).
  - intros s (l & Hl & Hwf). rewrite (list_iter_spec l) by done. unfold isascending. intros ->.
    by apply zsort_ascending.
  - intros s (l & Hl & Hwf). rewrite (list_iter_spec l) by done. unfold isdescending. intros ->.
    by apply ascending_rev, zsort_ascending.
  - intros s (l & Hl & Hwf). rewrite (list_iter_spec l) by done. by apply next_fast_spec.
  - intros s (l & Hl & Hwf). rewrite (list_iter_spec l), <- head_sorted_as_flip by done.
    by apply next_fast_spec.
  - intros s r (l & Hl & Hwf). pose proof (set_ascending_wf_gen l (negb r) s Hwf) as Hw.
    split; [eauto|]. rewrite !(list_iter_spec l) by done. simpl. rewrite negb_involutive.
    unfold sorted_as at 1 2. by rewrite zsort_sorted_as.
  - intros s (l & Hl & Hwf). pose proof (set_ascending_wf_gen l (negb (g_ascending s)) s Hwf) as Hw.
    split; [eauto|]. rewrite !(list_iter_spec l) by done. simpl.
    destruct (g_ascending s); simpl; by rewrite ?rev_involutive.
Defined.

Lemma generatorset_contract_init l iterasc :
  NoDup l -> iterasc_ok l iterasc -> ss_contract (init l iterasc).
Proof. intros Hl Hi. apply ss_contract_wf. exists l. split; [done|]. by apply gen_init_wf. Qed.
End GeneratorSet.
