(* ===== verification/SpanSet.v ===== *)
(** * Ranges of revisions ([spanset], [_spanset] and [fullreposet] of smartset.py)

    A spanset is a half-open range of revisions, a direction and the set of
    hidden revisions.  The file proves the smartset contract, that slicing and
    intersecting agree with the generic methods where they are meant to, and
    two concrete inputs on which they do not. *)

From S2P Require Import Prelude SmartSet FilteredSet BaseSet.

Module SpanSet.

Record spanset_ := Span {
  sp_start : Z;
  sp_end : Z;
  sp_ascending : bool;
  sp_hidden : gset Z
}.

(** [spanset(repo, start, end)]: [repolen] is [len(repo)] and [filteredrevs]
    the hidden revisions of its changelog. *)
Definition spanset (repolen : Z) (filteredrevs : gset Z) (start : Z) (end_ : option Z) : spanset_ :=
  let end_ := match end_ with Some e => e | None => repolen end in
  let ascending := bool_decide (start <= end_) in
  let '(start, end_) := if ascending then (start, end_) else (end_ + 1, start + 1) in
  Span start end_ ascending filteredrevs.

Definition set_ascending (a : bool) (s : spanset_) : spanset_ :=
  Span (sp_start s) (sp_end s) a (sp_hidden s).
Definition sort (reverse : bool) (s : spanset_) : spanset_ := set_ascending (negb reverse) s.
Definition reverse (s : spanset_) : spanset_ := set_ascending (negb (sp_ascending s)) s.
Definition istopo (s : spanset_) : bool := false.

(** [_iterfilter], only used when there are hidden revisions *)
Definition visible (s : spanset_) (iterrange : list Z) : list Z :=
  if decide (sp_hidden s = ∅) then iterrange
  else iterfilter (fun r => negb (bool_decide (r ∈ sp_hidden s))) iterrange.

Definition fastasc (s : spanset_) : list Z := visible s (zrange (sp_start s) (sp_end s)).
Definition fastdesc (s : spanset_) : list Z :=
  visible s (zrange_down (sp_end s - 1) (sp_start s - 1)).
Definition iter (s : spanset_) : list Z := if sp_ascending s then fastasc s else fastdesc s.

Definition contains (s : spanset_) (rev : Z) : bool :=
  bool_decide (sp_start s <= rev < sp_end s) &&
  negb (bool_decide (sp_hidden s ≠ ∅) && bool_decide (rev ∈ sp_hidden s)).

Definition nonzero (s : spanset_) : bool := match iter s with [] => false | _ :: _ => true end.

(** [__len__] *)
Definition len (s : spanset_) : Z :=
  let start := sp_start s in
  let end_ := sp_end s in
  if decide (sp_hidden s = ∅) then Z.abs (end_ - start)
  else
    let count := Z.of_nat (length
      (filter (fun rev => (end_ < rev <= start) \/ (start <= rev < end_)) (elements (sp_hidden s)))) in
    Z.abs (end_ - start) - count.

Definition isascending (s : spanset_) : bool := sp_ascending s.
Definition isdescending (s : spanset_) : bool := negb (sp_ascending s).

Definition first (s : spanset_) : option Z := head (if sp_ascending s then fastasc s else fastdesc s).
Definition last (s : spanset_) : option Z := head (if sp_ascending s then fastdesc s else fastasc s).

#[global] Instance spanset_smartset : SmartSet spanset_ := {
  ss_contains := contains; ss_iter := iter; ss_fastasc s := Some (fastasc s);
  ss_fastdesc s := Some (fastdesc s);
  ss_nonzero := nonzero; ss_len := len; ss_isascending := isascending;
  ss_isdescending := isdescending; ss_istopo := istopo; ss_first := first; ss_last := last;
  ss_sort := sort; ss_reverse := reverse; ss_isfullrepo _ := false
}.

(** [_slice] *)
Definition slice_ (s : spanset_) (start stop : Z) : spanset_ + BaseSet.baseset :=
  if decide (sp_hidden s ≠ ∅) then inr (BaseSet.of_list (slice_elems s start stop) false)
  else
    let '(x, y) :=
      if sp_ascending s then
        (Z.min (sp_start s + start) (sp_end s), Z.min (sp_start s + stop) (sp_end s))
      else
        (Z.max (sp_end s - stop) (sp_start s), Z.max (sp_end s - start) (sp_start s)) in
    inl (Span x y (sp_ascending s) (sp_hidden s)).

(** [__and__] with a smartset *)
Definition and_ {U} `{!SmartSet U} (self : spanset_) (rhs : U) :
    U + (spanset_ + FilteredSet.filteredset spanset_) :=
  if isdescending self && bool_decide (sp_start self = 0) && ss_isdescending rhs then
    match head (ss_iter rhs) with
    | None => inl rhs
    | Some rhsmax =>
        if decide (rhsmax <= sp_end self) then inl rhs else inr (FilteredSet.and_ self rhs)
    end
  else inr (FilteredSet.and_ self rhs).

(** ** fullreposet *)

Record fullreposet := Full { f_span : spanset_ }.

Definition fullrepo (repolen : Z) (filteredrevs : gset Z) : fullreposet :=
  Full (Span 0 repolen true filteredrevs).

#[global] Instance fullreposet_smartset : SmartSet fullreposet := {
  ss_contains s := contains (f_span s); ss_iter s := iter (f_span s);
  ss_fastasc s := Some (fastasc (f_span s)); ss_fastdesc s := Some (fastdesc (f_span s));
  ss_nonzero s := nonzero (f_span s); ss_len s := len (f_span s);
  ss_isascending s := isascending (f_span s); ss_isdescending s := isdescending (f_span s);
  ss_istopo s := istopo (f_span s); ss_first s := first (f_span s); ss_last s := last (f_span s);
  ss_sort r s := Full (sort r (f_span s)); ss_reverse s := Full (reverse (f_span s));
  ss_isfullrepo _ := true
}.

(** [__and__] with a smartset, which it sorts in place, and with a plain set. *)
Definition full_and {U} `{!SmartSet U} (self : fullreposet) (other : U) : U :=
  ss_sort (isdescending (f_span self)) other.

Definition full_and_set (self : fullreposet) (other : gset Z) : BaseSet.baseset :=
  full_and self (BaseSet.of_set (other ∖ sp_hidden (f_span self)) false).

(** ** The contract *)

Definition wf (s : spanset_) : Prop := sp_start s <= sp_end s.

Lemma spanset_wf n h a b : wf (spanset n h a b).
Proof.
  unfold wf, spanset. case_bool_decide; simpl; lia.
Qed.

Lemma visible_filter s l : visible s l = filter (fun r => r ∉ sp_hidden s) l.
Proof.
  unfold visible, iterfilter. case_decide as E.
  - rewrite E. induction l as [|x l IH]; [done|]. rewrite filter_cons_True by set_solver.
    by rewrite <- IH.
  - apply list_filter_iff_in, Forall_forall. intros x _.
    by rewrite negb_true_iff, bool_decide_eq_false.
Qed.

Lemma fastasc_ascending s : ascending (fastasc s).
Proof. unfold fastasc. rewrite visible_filter. apply StronglySorted_filter, zrange_ascending. Qed.

Lemma fastdesc_rev s : fastdesc s = rev (fastasc s).
Proof. unfold fastdesc, fastasc. rewrite !visible_filter, zrange_down_rev. apply filter_rev. Qed.

Lemma elem_of_fastasc s x : x ∈ fastasc s <-> sp_start s <= x < sp_end s /\ x ∉ sp_hidden s.
Proof. unfold fastasc. rewrite visible_filter, list_elem_of_filter, elem_of_zrange. tauto. Qed.

Lemma iter_dir s : iter s = if sp_ascending s then fastasc s else rev (fastasc s).
Proof. unfold iter. by rewrite fastdesc_rev. Qed.

Lemma elem_of_iter_span s x : x ∈ iter s <-> sp_start s <= x < sp_end s /\ x ∉ sp_hidden s.
Proof. rewrite iter_dir. destruct (sp_ascending s); by rewrite ?elem_of_rev, elem_of_fastasc. Qed.

Lemma iter_nodup_span s : NoDup (iter s).
Proof.
  rewrite iter_dir. pose proof (ascending_NoDup _ (fastasc_ascending s)).
  destruct (sp_ascending s); by rewrite ?NoDup_rev_iff.
Qed.

Lemma zsort_iter_span s : zsort (iter s) = fastasc s.
Proof.
  rewrite iter_dir. pose proof (fastasc_ascending s) as Ha.
  destruct (sp_ascending s); [by apply zsort_ascending_id|].
  rewrite zsort_rev by by apply ascending_NoDup. by apply zsort_ascending_id.
Qed.

Lemma length_filter_split {A} (P : A -> Prop) `{forall x, Decision (P x)} (l : list A) :
  (length (filter P l) + length (filter (fun x => ~ P x) l) = length l)%nat.
Proof.
  induction l as [|x l IH]; [done|]. rewrite !filter_cons.
  repeat case_decide; simpl; try tauto; lia.
Qed.

(** The hidden revisions counted by [__len__] are those of the range. *)
Lemma hidden_in_range s :
  wf s ->
  length (filter (fun rev => (sp_end s < rev <= sp_start s) \/ (sp_start s <= rev < sp_end s))
            (elements (sp_hidden s)))
  = length (filter (fun r => ~ (r ∉ sp_hidden s)) (zrange (sp_start s) (sp_end s))).
Proof.
  intros Hwf. unfold wf in Hwf. apply Permutation_length, NoDup_Permutation.
  - apply NoDup_filter, NoDup_elements.
  - apply NoDup_filter, ascending_NoDup, zrange_ascending.
  - intros x. rewrite !list_elem_of_filter, elem_of_elements, elem_of_zrange.
    destruct (decide (x ∈ sp_hidden s)); split; intros; naive_solver lia.
Qed.

Lemma len_span s : wf s -> len s = Z.of_nat (length (iter s)).
Proof.
  intros Hwf.
  assert (length (iter s) = length (fastasc s)) as ->.
  { rewrite iter_dir. destruct (sp_ascending s); by rewrite ?length_rev. }
  pose proof (length_filter_split (fun r => r ∉ sp_hidden s) (zrange (sp_start s) (sp_end s))) as Hs.
  rewrite length_zrange in Hs. unfold len. rewrite hidden_in_range by done. unfold wf in Hwf.
  unfold fastasc. rewrite visible_filter. case_decide as E; [|lia].
  unfold fastasc. rewrite Z.abs_eq by lia.
  assert (filter (fun x => ~ (x ∉ sp_hidden s)) (zrange (sp_start s) (sp_end s)) = []) as E0.
  { rewrite E. generalize (zrange (sp_start s) (sp_end s)) as l. induction l as [|x l IH]; [done|].
    rewrite filter_cons_False by set_solver. done. }
  rewrite E0 in Hs. simpl in Hs. lia.
Qed.

Lemma contains_span s x : contains s x = true <-> x ∈ iter s.
Proof.
  rewrite elem_of_iter_span. unfold contains.
  rewrite andb_true_iff, negb_true_iff, andb_false_iff, bool_decide_eq_true, !bool_decide_eq_false.
  split; intros [? H]; (split; [done|]); [|tauto]. destruct H as [H|H]; [|done].
  destruct (decide (sp_hidden s = ∅)) as [->|]; [set_solver|tauto].
Qed.

#[global] Instance spanset_laws : SmartSetLaws spanset_.
Proof.
  refine {| ss_wf := wf |}; simpl.
  - intros s _. apply iter_nodup_span.
  - intros s x _. apply contains_span.
  - intros s l _ [= <-]. by rewrite zsort_iter_span.
  - intros s l _ [= <-]. by rewrite zsort_iter_span, fastdesc_rev.
  - intros s _. unfold nonzero. by destruct (iter s).
  - apply len_span.
  - intros s _ E. rewrite iter_dir. unfold isascending in E. rewrite E. apply fastasc_ascending.
  - intros s _ E. rewrite iter_dir. unfold isdescending in E. destruct (sp_ascending s); [done|].
    apply ascending_rev, fastasc_ascending.
  - done.
  - intros s _. unfold last. rewrite iter_dir, fastdesc_rev.
    destruct (sp_ascending s); by rewrite ?head_rev, ?last_rev.
  - intros s r Hwf. split; [done|]. unfold sorted_as. rewrite zsort_iter_span, iter_dir.
    by destruct r.
  - intros s Hwf. split; [done|]. rewrite !iter_dir. simpl. unfold fastasc. simpl.
    destruct (sp_ascending s); by rewrite ?rev_involutive.
Defined.

#[global] Instance fullreposet_laws : SmartSetLaws fullreposet.
Proof.
  refine {| ss_wf s := ss_wf (f_span s) |}; intros s.
  - exact (ss_nodup (T:=spanset_) (f_span s)).
  - intros x. exact (ss_contains_ok (T:=spanset_) (f_span s) x).
  - intros l. exact (ss_fastasc_ok (T:=spanset_) (f_span s) l).
  - intros l. exact (ss_fastdesc_ok (T:=spanset_) (f_span s) l).
  - exact (ss_nonzero_ok (T:=spanset_) (f_span s)).
  - exact (ss_len_ok (T:=spanset_) (f_span s)).
  - exact (ss_isascending_ok (T:=spanset_) (f_span s)).
  - exact (ss_isdescending_ok (T:=spanset_) (f_span s)).
  - exact (ss_first_ok (T:=spanset_) (f_span s)).
  - exact (ss_last_ok (T:=spanset_) (f_span s)).
  - intros r. exact (ss_sort_ok (T:=spanset_) (f_span s) r).
  - exact (ss_reverse_ok (T:=spanset_) (f_span s)).
Defined.

(** Every spanset the constructor function builds, in either direction and
    with any hidden revisions, keeps the smartset contract and holds exactly
    the visible revisions of the requested range. *)
Theorem spanset_contract (repolen : Z) (hidden : gset Z) (start : Z) (end_ : option Z) :
  ss_contract (spanset repolen hidden start end_) /\
  forall x, x ∈ ss_iter (spanset repolen hidden start end_) <->
    x ∉ hidden /\
    let e := match end_ with Some e => e | None => repolen end in
    (start <= x < e \/ e < x <= start).
Proof.
  split; [apply ss_contract_wf, spanset_wf|]. intros x. simpl. rewrite elem_of_iter_span.
  unfold spanset. case_bool_decide; simpl; intuition lia.
Qed.

(** ** Slices *)

Lemma take_slice_zrange a b start stop :
  a <= b -> 0 <= start <= stop ->
  take_slice (zrange a b) start stop = zrange (Z.min (a + start) b) (Z.min (a + stop) b).
Proof.
  intros Hab Hs. unfold take_slice.
  destruct (decide (a + start <= b)) as [H1|H1].
  - rewrite (zrange_app a (a + start) b), drop_app_length' by (rewrite ?length_zrange; lia).
    destruct (decide (a + stop <= b)) as [H2|H2].
    + rewrite (zrange_app (a + start) (a + stop) b), take_app_length' by (rewrite ?length_zrange; lia).
      f_equal; lia.
    + rewrite take_ge by (rewrite length_zrange; lia). f_equal; lia.
  - rewrite drop_ge by (rewrite length_zrange; lia).
    rewrite (zrange_nil (Z.min _ _)) by lia. apply take_nil.
Qed.

Lemma fastasc_span_nohidden x y a : fastasc (Span x y a ∅) = zrange x y.
Proof. done. Qed.

(** Slicing a spanset by arithmetic on its bounds selects the same
    positions of the iteration as the generic [_slice], in both directions, for
    ordered slice bounds, and the result is again a well-formed smartset. *)
Theorem span_slice_equiv (s : spanset_) (start stop : Z) :
  wf s -> 0 <= start <= stop ->
  ss_wf (slice_ s start stop) /\
  ss_iter (slice_ s start stop) = slice_elems s start stop.
Proof.
  intros Hwf Hs. unfold slice_. case_decide as Hh.
  - rewrite slice_elems_spec. split; [|done]. apply BaseSet.of_list_wf, BaseSet.take_slice_nodup.
    apply iter_nodup_span.
  - assert (sp_hidden s = ∅) as E by (destruct (decide (sp_hidden s = ∅)); tauto). rewrite slice_elems_spec.
    destruct s as [a b asc h]; simpl in *. unfold wf in *. simpl in *. subst.
    rewrite (iter_dir (Span a b asc ∅)). destruct asc; simpl; rewrite iter_dir; simpl;
      rewrite !fastasc_span_nohidden.
    + split; [unfold wf; simpl; lia|]. by rewrite take_slice_zrange.
    + split; [unfold wf; simpl; lia|].
      rewrite <- BaseSet.take_slice_rev, length_zrange by lia. f_equal.
      rewrite take_slice_zrange by lia. f_equal; lia.
Qed.

Lemma span_slice_equiv_witness :
  ss_iter (slice_ (spanset 10 ∅ 8 (Some 2)) 1 4) = [7; 6; 5] /\
  ss_iter (slice_ (spanset 10 ∅ 8 (Some 2)) 1 4) = slice_elems (spanset 10 ∅ 8 (Some 2)) 1 4.
Proof.
  split; [vm_compute; reflexivity|].
  apply (span_slice_equiv (spanset 10 ∅ 8 (Some 2)) 1 4); [apply spanset_wf|lia].
Defined.

(** A slice with [start > stop] iterates over nothing and is false, yet its
    length is not zero: the contract fails. *)
Lemma span_slice_len_mismatch :
  let s := slice_ (spanset 10 ∅ 0 (Some 10)) 3 1 in
  ss_iter s = [] /\ ss_nonzero s = false /\ ss_len s = 2.
Proof. split_and!; vm_compute; reflexivity. Qed.

(** ** Intersections *)

(** The fast path of [&] on a descending span from revision 0 agrees with
    the generic intersection when the right-hand side holds revisions of the
    span only; the other paths agree with it always. *)
Theorem span_and_equiv {U} `{SmartSetLaws U} (s : spanset_) (rhs : U) :
  wf s -> ss_wf rhs -> ss_isfullrepo rhs = false ->
  (forall x, x ∈ ss_iter rhs -> 0 <= x < sp_end s /\ x ∉ sp_hidden s) \/
  ~ (isdescending s = true /\ sp_start s = 0 /\ ss_isdescending rhs = true) ->
  ss_iter (and_ s rhs) = ss_iter (FilteredSet.and_ s rhs).
Proof.
  intros Hwf Hr Hf Hcase. unfold and_.
  destruct (isdescending s && bool_decide (sp_start s = 0) && ss_isdescending rhs) eqn:E; [|done].
  rewrite !andb_true_iff, bool_decide_eq_true in E. destruct E as [[E1 E2] E3].
  destruct Hcase as [Hin|Hn]; [|tauto].
  assert (ss_wf s) as Hwf' by exact Hwf.
  destruct (FilteredSet.and_spec s rhs Hwf' Hr Hf) as [_ Hand].
  assert (ss_iter rhs = filter (fun x => x ∈ ss_iter rhs) (ss_iter s)) as Heq.
  { pose proof (ss_isdescending_ok rhs Hr E3) as Hd1.
    pose proof (StronglySorted_filter _ (fun x => x ∈ ss_iter rhs) _ (ss_isdescending_ok s Hwf' E1)) as Hd2.
    apply descending_ext; [done..|]. intros x. rewrite list_elem_of_filter.
    simpl. rewrite elem_of_iter_span, E2. naive_solver. }
  rewrite Hand. destruct (head (ss_iter rhs)); [case_decide|]; done.
Qed.

Lemma span_and_equiv_witness :
  ss_iter (and_ (spanset 10 ∅ 8 (Some (-1))) (BaseSet.sort true (BaseSet.of_list [2; 5; 3] false))) = [5; 3; 2] /\
  ss_iter (and_ (spanset 10 ∅ 8 (Some (-1))) (BaseSet.sort true (BaseSet.of_list [2; 5; 3] false)))
  = ss_iter (FilteredSet.and_ (spanset 10 ∅ 8 (Some (-1))) (BaseSet.sort true (BaseSet.of_list [2; 5; 3] false))).
Proof.
  split; [vm_compute; reflexivity|].
  apply (span_and_equiv (spanset 10 ∅ 8 (Some (-1))) (BaseSet.sort true (BaseSet.of_list [2; 5; 3] false))).
  - apply spanset_wf.
  - apply BaseSet.sort_iter, BaseSet.of_list_wf. by apply (bool_decide_unpack (NoDup [2; 5; 3])).
  - reflexivity.
  - left. apply Forall_forall. apply (bool_decide_unpack _). vm_compute. exact I.
Defined.

(** The fast path compares with the excluded end of the span: it returns a
    revision that is not in the span, which the generic intersection drops. *)
Lemma span_and_off_by_one :
  let s := reverse (spanset 3 ∅ 0 (Some 3)) in
  let rhs := BaseSet.sort true (BaseSet.of_list [3; 1] false) in
  ss_contains s 3 = false /\
  ss_iter (and_ s rhs) = [3; 1] /\ ss_iter (FilteredSet.and_ s rhs) = [1].
Proof. split_and!; vm_compute; reflexivity. Qed.

(** Intersecting with the full repository returns the other operand,
    sorted in the repository's direction; when the operand holds visible
    revisions of the repository this is the generic intersection, and a
    smartset intersected with the full repository on the right is unchanged. *)
Theorem full_and_equiv {U} `{SmartSetLaws U} (repolen : Z) (hidden : gset Z) (rev_ : bool) (other : U) :
  0 <= repolen -> ss_wf other -> ss_isfullrepo other = false ->
  (forall x, x ∈ ss_iter other -> 0 <= x < repolen /\ x ∉ hidden) ->
  let self := ss_sort rev_ (fullrepo repolen hidden) in
  ss_wf (full_and self other) /\
  ss_iter (full_and self other) = ss_iter (FilteredSet.and_ self other) /\
  FilteredSet.and_ other self = inl other.
Proof.
  intros Hn Ho Hf Hin self.
  assert (ss_wf self) as Hself by exact Hn.
  destruct (FilteredSet.and_spec self other Hself Ho Hf) as [_ Hand].
  destruct (ss_sort_ok other rev_ Ho) as [Hw Hs].
  assert (full_and self other = ss_sort rev_ other) as E.
  { unfold full_and, self. simpl. unfold isdescending. simpl. by rewrite negb_involutive. }
  rewrite E. split_and!; [done| |done]. rewrite Hand, Hs.
  assert (ss_iter self = sorted_as rev_ (ss_iter self)) as Hsorted.
  { unfold sorted_as. unfold self. simpl. rewrite zsort_iter_span, iter_dir. simpl.
    by destruct rev_. }
  rewrite Hsorted, <- BaseSet.sorted_as_filter by apply iter_nodup_span.
  unfold sorted_as. rewrite (zsort_ext (ss_iter other) (filter (fun x => x ∈ ss_iter other) (ss_iter self)));
    [done|by apply ss_nodup|apply NoDup_filter, iter_nodup_span|].
  intros x. rewrite list_elem_of_filter. split; [|tauto]. intros Hx. split; [done|].
  apply elem_of_iter_span. simpl. by apply Hin.
Qed.

Lemma full_and_equiv_witness :
  ss_iter (full_and (ss_sort true (fullrepo 9 {[7]})) (BaseSet.of_list [4; 0; 8] false)) = [8; 4; 0] /\
  ss_iter (full_and (ss_sort true (fullrepo 9 {[7]})) (BaseSet.of_list [4; 0; 8] false))
  = ss_iter (FilteredSet.and_ (ss_sort true (fullrepo 9 {[7]})) (BaseSet.of_list [4; 0; 8] false)).
Proof.
  split; [vm_compute; reflexivity|].
  apply (full_and_equiv 9 {[7]} true (BaseSet.of_list [4; 0; 8] false)).
  - lia.
  - apply BaseSet.of_list_wf. by apply (bool_decide_unpack (NoDup [4; 0; 8])).
  - reflexivity.
  - apply Forall_forall. apply (bool_decide_unpack _). vm_compute. exact I.
Defined.
End SpanSet.
