(* ===== verification/Lines.v ===== *)
(** * Byte strings, slices and lines

    Python byte strings as lists of characters, slices [l[i:j]] with the
    indices the diff and merge code uses (not negative) and with any indices,
    checked indexing, and [splitnewlines] of mdiff.py, on which diff, patch and
    merge build. *)

From Stdlib Require Export Ascii.
From S2P Require Import Prelude.

Notation bytes := (list ascii).

(** String literals as byte strings. *)
Definition bs (s : string) : bytes := String.list_ascii_of_string s.

Definition newline : ascii := "010"%char.

Definition zlen {A} (l : list A) : Z := Z.of_nat (length l).

(** [l[i:j]] *)
Definition slice {A} (l : list A) (i j : Z) : list A :=
  take (Z.to_nat (j - i)) (drop (Z.to_nat i) l).

(** A slice bound as Python clamps it, and [l[i:j]] for any bounds. *)
Definition clamp {A} (l : list A) (i : Z) : Z :=
  if decide (i < 0) then Z.max 0 (i + zlen l) else Z.min i (zlen l).
Definition pyslice {A} (l : list A) (i j : Z) : list A := slice l (clamp l i) (clamp l j).

(** [l[i]] *)
Definition getitem {A} (l : list A) (i : Z) : res A :=
  match l !! Z.to_nat i with Some x => Ok x | None => Err IndexError end.

(** [[l[i] for i in range(start, stop)]], as a sequence of indexings. *)
Fixpoint getitems {A} (l : list A) (is_ : list Z) : res (list A) :=
  match is_ with
  | [] => Ok []
  | i :: is_ =>
      let* x := getitem l i in
      let* xs := getitems l is_ in
      Ok (x :: xs)
  end.

(** ** Slices *)

Section slices.
Context {A : Type}.
Implicit Types (l : list A) (i j k : Z).

Lemma zlen_nonneg l : 0 <= zlen l.
Proof. unfold zlen. lia. Qed.

Lemma zlen_app l l' : zlen (l ++ l') = zlen l + zlen l'.
Proof. unfold zlen. rewrite length_app. lia. Qed.

Lemma zlen_cons x l : zlen (x :: l) = 1 + zlen l.
Proof. unfold zlen. simpl. lia. Qed.

Lemma slice_nil l i j : j <= i -> slice l i j = [].
Proof. intros. unfold slice. by replace (Z.to_nat (j - i)) with O by lia. Qed.

Lemma slice_full l : slice l 0 (zlen l) = l.
Proof. unfold slice, zlen. rewrite drop_0, take_ge; [done|lia]. Qed.

Lemma zlen_slice l i j : 0 <= i <= j -> j <= zlen l -> zlen (slice l i j) = j - i.
Proof. intros. unfold slice, zlen in *. rewrite length_take, length_drop. lia. Qed.

Lemma slice_app l i j k : 0 <= i <= j -> j <= k -> slice l i k = slice l i j ++ slice l j k.
Proof.
  intros. unfold slice.
  replace (drop (Z.to_nat j) l) with (drop (Z.to_nat (j - i)) (drop (Z.to_nat i) l))
    by (rewrite drop_drop; f_equal; lia).
  rewrite <- (take_drop (Z.to_nat (j - i)) (take (Z.to_nat (k - i)) (drop (Z.to_nat i) l))).
  rewrite take_take, skipn_firstn_comm. f_equal; f_equal; lia.
Qed.

Lemma slice_tail l i : 0 <= i <= zlen l -> slice l i (zlen l) = drop (Z.to_nat i) l.
Proof. intros. unfold slice, zlen in *. apply take_ge. rewrite length_drop. lia. Qed.

Lemma lookup_slice l i j k :
  0 <= i -> 0 <= k < j - i -> slice l i j !! Z.to_nat k = l !! Z.to_nat (i + k).
Proof.
  intros. unfold slice. rewrite lookup_take_lt by lia. rewrite lookup_drop. f_equal. lia.
Qed.

Lemma slice_cons l i j x :
  0 <= i < j -> getitem l i = Ok x -> slice l i j = x :: slice l (i + 1) j.
Proof.
  intros Hij Hx. unfold getitem in Hx. destruct (l !! Z.to_nat i) eqn:E; [|done].
  injection Hx as ->. rewrite (slice_app l i (i + 1) j) by lia. f_equal.
  unfold slice. replace (Z.to_nat (i + 1 - i)) with 1%nat by lia. by rewrite (drop_S _ _ _ E).
Qed.

Lemma getitem_ok l i : 0 <= i < zlen l -> exists x, getitem l i = Ok x.
Proof.
  intros Hi. unfold getitem, zlen in *. destruct (l !! Z.to_nat i) eqn:E; [eauto|].
  apply lookup_ge_None in E. lia.
Qed.

Lemma getitem_Ok_range l i x : 0 <= i -> getitem l i = Ok x -> i < zlen l.
Proof.
  intros Hi. unfold getitem, zlen. destruct (l !! Z.to_nat i) eqn:E; [|done].
  apply lookup_lt_Some in E. lia.
Qed.

Lemma slice_sub l i j i' j' :
  0 <= i -> 0 <= i' <= j' -> j' <= j - i -> slice (slice l i j) i' j' = slice l (i + i') (i + j').
Proof.
  intros. unfold slice. rewrite skipn_firstn_comm, take_take, drop_drop.
  f_equal; [lia|f_equal; lia].
Qed.

(** Equal slices have equal parts. *)
Lemma slice_eq_sub l l' i j i' j' d e :
  slice l i j = slice l' i' j' -> j - i = j' - i' -> 0 <= i -> 0 <= i' -> 0 <= d <= e -> e <= j - i ->
  slice l (i + d) (i + e) = slice l' (i' + d) (i' + e).
Proof.
  intros E Hl Hi Hi' Hd He. rewrite <- (slice_sub l i j d e) by lia.
  rewrite <- (slice_sub l' i' j' d e) by lia. by rewrite E.
Qed.

Lemma getitems_slice l i j :
  0 <= i -> i <= j <= zlen l -> getitems l (zrange i j) = Ok (slice l i j).
Proof.
  intros Hi Hj. assert (exists n, j = i + Z.of_nat n) as [n ->] by (exists (Z.to_nat (j - i)); lia).
  revert i Hi Hj. induction n as [|n IH]; intros i Hi Hj.
  - rewrite zrange_nil, slice_nil by lia. done.
  - rewrite zrange_cons by lia. cbn [getitems].
    destruct (getitem_ok l i) as [x Hx]; [lia|]. rewrite Hx. cbn [rbind].
    replace (i + Z.of_nat (S n)) with ((i + 1) + Z.of_nat n) by lia.
    rewrite IH by lia. cbn [rbind]. f_equal. symmetry. apply slice_cons; [lia|done].
Qed.

Lemma slice_app_l l l' i j : 0 <= i -> j <= zlen l -> slice (l ++ l') i j = slice l i j.
Proof.
  intros Hi Hj. unfold slice, zlen in *. destruct (decide (i <= j)) as [Hij|Hij].
  - rewrite drop_app_le by lia. rewrite take_app_le; [done|]. rewrite length_drop. lia.
  - by replace (Z.to_nat (j - i)) with O by lia.
Qed.

Lemma slice_app_r l l' i j :
  zlen l <= i -> slice (l ++ l') i j = slice l' (i - zlen l) (j - zlen l).
Proof.
  intros Hi. unfold slice, zlen in *. rewrite drop_app_ge by lia.
  f_equal; [lia|]. f_equal. lia.
Qed.

Lemma clamp_in l i : 0 <= i <= zlen l -> clamp l i = i.
Proof. intros. unfold clamp. rewrite decide_False by lia. lia. Qed.

Lemma pyslice_app (pre x post : list A) i j :
  i = zlen pre -> j = zlen pre + zlen x -> pyslice (pre ++ x ++ post) i j = x.
Proof.
  intros -> ->. pose proof (zlen_nonneg pre). pose proof (zlen_nonneg x). pose proof (zlen_nonneg post).
  unfold pyslice. rewrite !clamp_in by (rewrite !zlen_app; lia). rewrite slice_app_r, Z.sub_diag by lia.
  replace (zlen pre + zlen x - zlen pre) with (zlen x) by lia. by rewrite slice_app_l, slice_full by lia.
Qed.
End slices.

#[export] Hint Resolve zlen_nonneg : hg.

(** ** Lines *)

(** [text.split(c)] *)
Fixpoint split (c : ascii) (t : bytes) : list bytes :=
  match t with
  | [] => [[]]
  | x :: t =>
      if ascii_dec x c then [] :: split c t
      else match split c t with
           | l :: ls => (x :: l) :: ls
           | [] => [[x]]
           end
  end.

(** [splitnewlines] *)
Definition splitnewlines (text : bytes) : list bytes :=
  let lines := map (fun l => l ++ [newline]) (split newline text) in
  match last lines with
  | None => lines
  | Some l =>
      if decide (l = [newline]) then removelast lines
      else removelast lines ++ [removelast l]
  end.

(** A line: no newline but possibly at its end. *)
Definition is_line (l : bytes) : Prop :=
  (newline ∉ l /\ l ≠ []) \/ exists l', l = l' ++ [newline] /\ newline ∉ l'.

Definition full_line (l : bytes) : Prop := exists l', l = l' ++ [newline] /\ newline ∉ l'.

Lemma split_nonempty c t : split c t ≠ [].
Proof. destruct t; simpl; [done|]. destruct (ascii_dec _ _); [done|]. by destruct (split c t). Qed.

Lemma split_clean c t : Forall (fun l => c ∉ l) (split c t).
Proof.
  induction t as [|x t IH]; simpl; [repeat constructor; apply not_elem_of_nil|].
  destruct (ascii_dec x c) as [->|Hne]; [constructor; [apply not_elem_of_nil|done]|].
  destruct (split c t) as [|l ls]; [by repeat constructor; set_solver|].
  apply Forall_cons in IH as [Hl Hls]. constructor; [|done]. set_solver.
Qed.

(** Joining the parts with the separator gives back the text. *)
Fixpoint join (c : ascii) (ls : list bytes) : bytes :=
  match ls with
  | [] => []
  | [l] => l
  | l :: ls => l ++ c :: join c ls
  end.

Lemma split_join c t : join c (split c t) = t.
Proof.
  induction t as [|x t IH]; [done|]. simpl. pose proof (split_nonempty c t) as Hne.
  destruct (ascii_dec x c) as [->|Hx].
  - destruct (split c t) as [|l ls]; [done|]. by rewrite <- IH.
  - destruct (split c t) as [|l [|l' ls]]; [done| |]; rewrite <- IH; done.
Qed.

Lemma join_split_inv c ls :
  ls ≠ [] -> Forall (fun l => c ∉ l) ls -> split c (join c ls) = ls.
Proof.
  intros Hne HF. assert (forall l t, c ∉ l -> split c (l ++ c :: t) = l :: split c t) as Hcons.
  { clear. induction l as [|x l IH]; intros t Hl; simpl.
    - by destruct (ascii_dec c c).
    - destruct (ascii_dec x c) as [->|]; [set_solver|]. rewrite IH by set_solver. done. }
  assert (forall l, c ∉ l -> split c l = [l]) as Hone.
  { clear. induction l as [|x l IH]; intros Hl; simpl; [done|].
    destruct (ascii_dec x c) as [->|]; [set_solver|]. by rewrite IH by set_solver. }
  induction HF as [|l [|l' ls] Hl HF IH]; [done|by apply Hone|].
  change (split c (l ++ c :: join c (l' :: ls)) = l :: l' :: ls).
  rewrite Hcons by done. f_equal. by apply IH.
Qed.

(** [splitnewlines] in terms of the parts: all but the last get their newline
    back, an empty last part disappears. *)
Lemma splitnewlines_eq text :
  exists ls l, split newline text = ls ++ [l] /\
    splitnewlines text = map (fun l => l ++ [newline]) ls ++ (if decide (l = []) then [] else [l]).
Proof.
  pose proof (split_nonempty newline text) as Hne. unfold splitnewlines.
  destruct (split newline text) as [|l ls _] using rev_ind; [done|].
  exists ls, l. split; [done|]. rewrite map_app. simpl. rewrite last_snoc, removelast_last.
  destruct (decide (l ++ [newline] = [newline])) as [E|E], (decide (l = [])) as [->|Hl].
  - by rewrite app_nil_r.
  - destruct l as [|x [|y l]]; simplify_eq/=; done.
  - done.
  - by rewrite removelast_last.
Qed.

Lemma join_concat c ls l : join c (ls ++ [l]) = concat (map (fun l => l ++ [c]) ls) ++ l.
Proof.
  induction ls as [|l0 ls IH]; [done|]. simpl. rewrite <- !(assoc_L (++)). simpl.
  destruct (ls ++ [l]) as [|l1 ls1] eqn:E; [by destruct ls|]. by rewrite IH.
Qed.

(** No byte is lost or added. *)
Lemma splitnewlines_concat text : concat (splitnewlines text) = text.
Proof.
  destruct (splitnewlines_eq text) as (ls & l & Es & ->).
  rewrite concat_app. rewrite <- (split_join newline text) at 1. rewrite Es, join_concat. f_equal.
  case_decide as Hl; [by rewrite Hl|]. simpl. by rewrite app_nil_r.
Qed.

(** Every part is a line, and all but the last end with a newline. *)
Lemma splitnewlines_lines text :
  exists ls tl, splitnewlines text = ls ++ tl /\ Forall full_line ls /\ Forall is_line tl /\
    (length tl <= 1)%nat.
Proof.
  destruct (splitnewlines_eq text) as (ls & l & Es & ->).
  pose proof (split_clean newline text) as HF. rewrite Es in HF.
  apply Forall_app in HF as [Hls [Hl _]%Forall_cons].
  eexists _, _. split; [done|]. split_and!.
  - apply Forall_map. eapply Forall_impl; [exact Hls|]. intros l' Hl'. by exists l'.
  - case_decide; [constructor|]. apply Forall_singleton. left. by split.
  - case_decide; simpl; lia.
Qed.

(** Lines put together are split again. *)
Lemma splitnewlines_full (ls : list bytes) (tl : bytes) :
  Forall full_line ls -> newline ∉ tl ->
  splitnewlines (concat ls ++ tl) = ls ++ (if decide (tl = []) then [] else [tl]).
Proof.
  intros Hls Htl.
  assert (exists ls0, ls = map (fun l => l ++ [newline]) ls0 /\ Forall (fun l => newline ∉ l) ls0)
    as (ls0 & -> & Hc).
  { clear Htl. induction Hls as [|l ls (l' & -> & Hl') _ (ls0 & -> & IH)]; [by exists []|].
    exists (l' :: ls0). by split; [|constructor]. }
  rewrite <- join_concat.
  destruct (splitnewlines_eq (join newline (ls0 ++ [tl]))) as (ls1 & l1 & Es & ->).
  rewrite join_split_inv in Es; [|by destruct ls0|by apply Forall_app; split; [|constructor]].
  apply app_inj_tail in Es as [-> ->]. done.
Qed.

(** [splitnewlines] cuts a text into lines: the lines concatenate to the
    text, every line but possibly the last ends with its only newline, and
    splitting the text made of such lines gives them back. *)
Theorem splitnewlines_roundtrip (text : bytes) (ls : list bytes) (tl : bytes) :
  concat (splitnewlines text) = text /\
  Forall is_line (splitnewlines text) /\
  (Forall full_line ls -> newline ∉ tl ->
   splitnewlines (concat ls ++ tl) = ls ++ (if decide (tl = []) then [] else [tl])).
Proof.
  split; [apply splitnewlines_concat|]. split.
  - destruct (splitnewlines_lines text) as (ls' & tl' & -> & H1 & H2 & _).
    apply Forall_app. split; [|done]. eapply Forall_impl; [exact H1|]. intros l Hl. by right.
  - apply splitnewlines_full.
Qed.

Lemma splitnewlines_roundtrip_witness :
  splitnewlines (bs "ab" ++ [newline] ++ [newline] ++ bs "c")
  = [bs "ab" ++ [newline]; [newline]; bs "c"].
Proof.
  apply (splitnewlines_roundtrip [] [bs "ab" ++ [newline]; [newline]] (bs "c")).
  - repeat constructor; [exists (bs "ab")|exists []]; split; try reflexivity;
      apply (bool_decide_unpack _); vm_compute; exact I.
  - apply (bool_decide_unpack _). vm_compute. exact I.
Defined.
