(* ===== verification/Bdiff.v ===== *)
(** * Matching blocks (pure/bdiff.py)

    Blocks of equal lines of two texts.  [difflib.SequenceMatcher] is not part
    of the repository: the class [SequenceMatcher] states the documented
    behaviour of its [get_matching_blocks].  [normalizeblocks] moves blocks
    up; the file proves that the result is again a sequence of matching
    blocks, and that [blocks] discharges the interface [LineMatcher] that the
    diff and merge code is verified against. *)

From S2P Require Import Prelude Lines.

(** ** Sequences of matching blocks *)

Section matching.
Context {A : Type}.

(** The triples (i, j, n) say [l1[i:i+n] = l2[j:j+n]] and increase in [i] and
    in [j], from position ([i0], [j0]) on. *)
Fixpoint matching_from (l1 l2 : list A) (i0 j0 : Z) (m : list (Z * Z * Z)) : Prop :=
  match m with
  | [] => True
  | (i, j, n) :: m =>
      i0 <= i /\ j0 <= j /\ 0 <= n /\ i + n <= zlen l1 /\ j + n <= zlen l2 /\
      slice l1 i (i + n) = slice l2 j (j + n) /\
      matching_from l1 l2 (i + n) (j + n) m
  end.

(** The whole documented contract: the last triple is the dummy at the ends. *)
Definition matching (l1 l2 : list A) (m : list (Z * Z * Z)) : Prop :=
  matching_from l1 l2 0 0 m /\ last m = Some (zlen l1, zlen l2, 0).

Lemma matching_from_weaken l1 l2 i j i' j' m :
  i' <= i -> j' <= j -> matching_from l1 l2 i j m -> matching_from l1 l2 i' j' m.
Proof. destruct m as [|[[x y] n] m]; simpl; [done|]. intros. intuition lia. Qed.
End matching.

(** [difflib.SequenceMatcher(None, a, b).get_matching_blocks()], with what its
    documentation promises. *)
Class SequenceMatcher := {
  get_matching_blocks_ : list bytes -> list bytes -> list (Z * Z * Z);
  get_matching_blocks_ok : forall a c, matching a c (get_matching_blocks_ a c)
}.

(** What the users of [mdiff.blocks] rely on. *)
Class LineMatcher := {
  blocks_of : bytes -> bytes -> list (Z * Z * Z * Z);
  blocks_of_ok : forall a c,
    matching (splitnewlines a) (splitnewlines c)
      (map (fun '(i1, i2, j1, j2) => (i1, j1, i2 - i1)) (blocks_of a c)) /\
    Forall (fun '(i1, i2, j1, j2) => i2 - i1 = j2 - j1) (blocks_of a c)
}.

Module Bdiff.

(** ** [_normalizeblocks] *)

Section normalize.
Context {A : Type} `{!EqDecision A}.

(** [while pos + shift < lim and a[ai + shift] == b[bi + shift]: shift += 1] *)
Fixpoint shift_loop (fuel : nat) (a c : list A) (ai bi pos lim shift : Z) : res Z :=
  match fuel with
  | O => Err OutOfFuel
  | S fuel =>
      if decide (pos + shift < lim) then
        let* x := getitem a (ai + shift) in
        let* y := getitem c (bi + shift) in
        if decide (x = y) then shift_loop fuel a c ai bi pos lim (shift + 1) else Ok shift
      else Ok shift
  end.

(** The shift computed for two consecutive blocks. *)
Definition block_shift (a c : list A) (prev curr : Z * Z * Z) : res Z :=
  let '(a1, b1, l1) := prev in
  let a1end := a1 + l1 in
  let b1end := b1 + l1 in
  let '(a2, b2, l2) := curr in
  let a2end := a2 + l2 in
  let b2end := b2 + l2 in
  if decide (a1end = a2) then
    shift_loop (S (Z.to_nat (a2end - a1end))) a c a1end b1end a1end a2end 0
  else if decide (b1end = b2) then
    shift_loop (S (Z.to_nat (b2end - b1end))) a c a1end b1end b1end b2end 0
  else Ok 0.

(** The loop over the blocks, from the second one on. *)
Fixpoint normalize_loop (a c : list A) (prev : Z * Z * Z) (blocks : list (Z * Z * Z))
    (r : list (Z * Z * Z)) : res (list (Z * Z * Z)) :=
  match blocks with
  | [] => Ok (r ++ [prev])
  | curr :: blocks =>
      let* shift := block_shift a c prev curr in
      let '(a1, b1, l1) := prev in
      let '(a2, b2, l2) := curr in
      normalize_loop a c (a2 + shift, b2 + shift, l2 - shift) blocks (r ++ [(a1, b1, l1 + shift)])
  end.

(** [_normalizeblocks]; difflib never returns an empty list, on which the
    source would append [None]. *)
Definition normalizeblocks (a c : list A) (blocks : list (Z * Z * Z)) : res (list (Z * Z * Z)) :=
  match blocks with
  | [] => Ok []
  | prev :: blocks => normalize_loop a c prev blocks []
  end.

Lemma slice_snoc_eq (a c : list A) ai bi n x :
  0 <= ai -> 0 <= bi -> 0 <= n -> slice a ai (ai + n) = slice c bi (bi + n) ->
  getitem a (ai + n) = Ok x -> getitem c (bi + n) = Ok x ->
  slice a ai (ai + (n + 1)) = slice c bi (bi + (n + 1)).
Proof.
  intros Ha Hb Hn E Hx Hy.
  rewrite (slice_app a ai (ai + n)), (slice_app c bi (bi + n)), E by lia. f_equal.
  rewrite (slice_cons a _ _ x), (slice_cons c _ _ x) by (lia || done).
  by rewrite !slice_nil by lia.
Qed.

(** The loop stops with a shift over which the texts agree. *)
Lemma shift_loop_ok fuel (a c : list A) ai bi pos lim shift :
  0 <= ai -> 0 <= bi -> 0 <= shift ->
  ai + (lim - pos) <= zlen a -> bi + (lim - pos) <= zlen c ->
  slice a ai (ai + shift) = slice c bi (bi + shift) ->
  (Z.to_nat (lim - pos - shift) < fuel)%nat -> shift <= lim - pos ->
  exists r, shift_loop fuel a c ai bi pos lim shift = Ok r /\ shift <= r <= lim - pos /\
    slice a ai (ai + r) = slice c bi (bi + r).
Proof.
  revert shift. induction fuel as [|fuel IH]; intros shift Ha Hb Hs La Lb E Hf Hl; [lia|].
  cbn [shift_loop]. case_decide as Hc; [|exists shift; split_and!; [done|lia..|done]].
  destruct (getitem_ok a (ai + shift)) as [x Hx]; [lia|].
  destruct (getitem_ok c (bi + shift)) as [y Hy]; [lia|].
  rewrite Hx, Hy. cbn [rbind]. case_decide as Hxy; [|exists shift; split_and!; [done|lia..|done]].
  subst y. destruct (IH (shift + 1)) as (r & Hr & Hrange & Heq); try lia.
  - by apply (slice_snoc_eq a c ai bi shift x).
  - exists r. split_and!; [done|lia..|done].
Qed.

(** Both cases of [block_shift] keep the two blocks matching. *)
Lemma block_shift_ok (a c : list A) i0 j0 prev curr rest :
  0 <= i0 -> 0 <= j0 -> matching_from a c i0 j0 (prev :: curr :: rest) ->
  exists s, block_shift a c prev curr = Ok s /\ 0 <= s /\
    let '(a1, b1, l1) := prev in
    let '(a2, b2, l2) := curr in
    matching_from a c i0 j0 ((a1, b1, l1 + s) :: (a2 + s, b2 + s, l2 - s) :: rest).
Proof.
  destruct prev as [[a1 b1] l1], curr as [[a2 b2] l2]. intros Hi Hj. cbn [matching_from].
  intros (H1 & H2 & H3 & H4 & H5 & E1 & H6 & H7 & H8 & H9 & H10 & E2 & Hrest).
  assert (forall s, 0 <= s <= l2 ->
    slice a (a1 + l1) (a1 + l1 + s) = slice c (b1 + l1) (b1 + l1 + s) ->
    matching_from a c i0 j0 ((a1, b1, l1 + s) :: (a2 + s, b2 + s, l2 - s) :: rest) \/
    ~ (a1 + l1 = a2 \/ b1 + l1 = b2 \/ s = 0)) as Hgen.
  { intros s Hs E. destruct (decide (a1 + l1 = a2 \/ b1 + l1 = b2 \/ s = 0)) as [Hor|]; [left|by right].
    cbn [matching_from].
    assert (a1 + (l1 + s) <= zlen a /\ b1 + (l1 + s) <= zlen c /\
            a1 + (l1 + s) <= a2 + s /\ b1 + (l1 + s) <= b2 + s) as (? & ? & ? & ?) by lia.
    split_and!; try lia.
    - replace (a1 + (l1 + s)) with (a1 + l1 + s) by lia.
      replace (b1 + (l1 + s)) with (b1 + l1 + s) by lia.
      rewrite (slice_app a a1 (a1 + l1)), (slice_app c b1 (b1 + l1)), E1, E by lia. done.
    - replace (a2 + s + (l2 - s)) with (a2 + l2) by lia.
      replace (b2 + s + (l2 - s)) with (b2 + l2) by lia.
      apply (slice_eq_sub _ _ a2 (a2 + l2) b2 (b2 + l2) s l2); auto; lia.
    - replace (a2 + s + (l2 - s)) with (a2 + l2) by lia.
      by replace (b2 + s + (l2 - s)) with (b2 + l2) by lia. }
  unfold block_shift. destruct (decide (a1 + l1 = a2)) as [Ea|Ea]; [|destruct (decide (b1 + l1 = b2)) as [Eb|Eb]].
  - destruct (shift_loop_ok (S (Z.to_nat (a2 + l2 - (a1 + l1)))) a c (a1 + l1) (b1 + l1)
      (a1 + l1) (a2 + l2) 0) as (s & -> & Hs & E); try lia; [by rewrite !slice_nil by lia|].
    exists s. split; [done|]. split; [lia|]. destruct (Hgen s); [lia|done|done|tauto].
  - destruct (shift_loop_ok (S (Z.to_nat (b2 + l2 - (b1 + l1)))) a c (a1 + l1) (b1 + l1)
      (b1 + l1) (b2 + l2) 0) as (s & -> & Hs & E); try lia; [by rewrite !slice_nil by lia|].
    exists s. split; [done|]. split; [lia|]. destruct (Hgen s); [lia|done|done|tauto].
  - exists 0. split; [done|]. split; [lia|]. destruct (Hgen 0); [lia|by rewrite !slice_nil by lia|done|tauto].
Qed.

Lemma matching_from_app l1 l2 i j (m1 m2 : list (Z * Z * Z)) x y n :
  matching_from (A:=A) l1 l2 i j (m1 ++ [(x, y, n)]) -> matching_from l1 l2 (x + n) (y + n) m2 ->
  matching_from l1 l2 i j ((m1 ++ [(x, y, n)]) ++ m2).
Proof.
  revert i j. induction m1 as [|[[x' y'] n'] m1 IH]; intros i j; simpl; [intuition|].
  intros (? & ? & ? & ? & ? & ? & ?) ?. split_and!; auto.
Qed.

(** The lists of blocks the loop builds: the finished ones, then the rest. *)
Lemma normalize_loop_ok (a c : list A) i0 j0 prev blocks r :
  0 <= i0 -> 0 <= j0 -> matching_from a c i0 j0 (prev :: blocks) ->
  exists m, normalize_loop a c prev blocks r = Ok (r ++ m) /\ matching_from a c i0 j0 m /\
    (forall i j, last (prev :: blocks) = Some (i, j, 0) -> last m = Some (i, j, 0)).
Proof.
  revert i0 j0 prev r. induction blocks as [|curr blocks IH]; intros i0 j0 prev r Hi Hj Hm.
  - exists [prev]. simpl in *. split_and!; auto.
  - destruct (block_shift_ok a c i0 j0 prev curr blocks Hi Hj Hm) as (s & Hs & Hs0 & Hm').
    cbn [normalize_loop]. rewrite Hs. cbn [rbind].
    destruct prev as [[a1 b1] l1], curr as [[a2 b2] l2].
    cbn [matching_from] in Hm'. destruct Hm' as (? & ? & ? & ? & ? & ? & Hm').
    destruct (IH (a1 + (l1 + s)) (b1 + (l1 + s)) (a2 + s, b2 + s, l2 - s) (r ++ [(a1, b1, l1 + s)]))
      as (m & Hr & Hmm & Hlast); [lia|lia|exact Hm'|].
    exists ((a1, b1, l1 + s) :: m). split_and!.
    + rewrite Hr. by rewrite <- (assoc_L (++)).
    + cbn [matching_from]. split_and!; auto.
    + intros i j Hl. rewrite last_cons_cons in Hl.
      assert (last ((a2 + s, b2 + s, l2 - s) :: blocks) = Some (i, j, 0)) as Hl'.
      { destruct blocks as [|x blocks]; [|done]. simpl in *. destruct Hm' as (? & ? & ? & _).
        injection Hl as -> -> ->. assert (s = 0) as -> by lia. repeat f_equal; lia. }
      rewrite last_cons, (Hlast i j Hl'). done.
Qed.
End normalize.

(** [blocks] *)
Definition blocks `{!SequenceMatcher} (a c : bytes) : res (list (Z * Z * Z * Z)) :=
  let an := splitnewlines a in
  let bn := splitnewlines c in
  let d := get_matching_blocks_ an bn in
  let* d := normalizeblocks an bn d in
  Ok (map (fun '(i, j, n) => (i, i + n, j, j + n)) d).

Lemma normalizeblocks_spec {A} `{!EqDecision A} (a c : list A) (m : list (Z * Z * Z)) :
  matching a c m -> exists m', normalizeblocks a c m = Ok m' /\ matching a c m'.
Proof.
  intros [Hm Hl]. destruct m as [|prev m]; [done|].
  destruct (normalize_loop_ok a c 0 0 prev m []) as (m' & E & Hm' & Hl'); [lia..|done|].
  exists m'. split; [done|]. split; [done|]. by apply Hl'.
Qed.

(** The number of lines a sequence of blocks matches. *)
Definition matched (m : list (Z * Z * Z)) : Z := foldr (fun '(_, _, n) acc => n + acc) 0 m.

Lemma matched_app m1 m2 : matched (m1 ++ m2) = matched m1 + matched m2.
Proof. unfold matched. induction m1 as [|[[i j] n] m1 IH]; simpl; [done|]. rewrite IH. lia. Qed.

Lemma normalize_loop_matched {A} `{!EqDecision A} (a c : list A) prev blocks r m' :
  normalize_loop a c prev blocks r = Ok m' -> matched m' = matched r + matched (prev :: blocks).
Proof.
  revert prev r. induction blocks as [|curr blocks IH]; intros prev r; cbn [normalize_loop].
  - intros [= <-]. by rewrite matched_app.
  - destruct (block_shift a c prev curr) as [s|e]; [|done]. cbn [rbind].
    destruct prev as [[a1 b1] l1], curr as [[a2 b2] l2]. intros E%IH. rewrite E, matched_app.
    simpl. lia.
Qed.

(** Normalising a sequence of matching blocks never fails (no index error,
    the shift loops end) and gives again increasing blocks of equal lines that
    end with the dummy block at the ends of the texts and match as many lines. *)
Theorem normalizeblocks_matching {A} `{!EqDecision A} (a c : list A) (m : list (Z * Z * Z)) :
  matching a c m ->
  exists m', normalizeblocks a c m = Ok m' /\ matching a c m' /\ matched m' = matched m.
Proof.
  intros Hm. destruct (normalizeblocks_spec a c m Hm) as (m' & E & Hm').
  exists m'. split_and!; auto. destruct m as [|prev m]; [by injection E as <-|].
  by apply normalize_loop_matched in E.
Qed.

Lemma normalizeblocks_witness :
  normalizeblocks [1; 2; 2; 3] [1; 2; 3; 2; 3] [(0, 0, 2); (2, 3, 2); (4, 5, 0)]
  = Ok [(0, 0, 2); (2, 3, 2); (4, 5, 0)] /\
  exists m', normalizeblocks [1; 1] [1; 2; 1] [(0, 0, 1); (1, 2, 1); (2, 3, 0)] = Ok m' /\
             matching [1; 1] [1; 2; 1] m' /\ matched m' = 2.
Proof.
  split; [vm_compute; reflexivity|].
  apply (normalizeblocks_matching [1; 1] [1; 2; 1] [(0, 0, 1); (1, 2, 1); (2, 3, 0)]).
  split; [|reflexivity]. simpl. split_and!; unfold zlen; simpl; try lia; reflexivity.
Defined.

(** [blocks] never fails and serves the diff and merge code. *)
Lemma blocks_ok `{!SequenceMatcher} (a c : bytes) :
  exists bl, blocks a c = Ok bl /\
    matching (splitnewlines a) (splitnewlines c)
      (map (fun '(i1, i2, j1, j2) => (i1, j1, i2 - i1)) bl) /\
    Forall (fun '(i1, i2, j1, j2) => i2 - i1 = j2 - j1) bl.
Proof.
  unfold blocks. destruct (normalizeblocks_spec (splitnewlines a) (splitnewlines c)
    (get_matching_blocks_ (splitnewlines a) (splitnewlines c))) as (m & -> & Hm).
  { apply get_matching_blocks_ok. }
  eexists. split; [reflexivity|]. split.
  - rewrite map_map. replace (map _ m) with m; [done|].
    rewrite <- (map_id m) at 1. apply map_ext. intros [[i j] n]. f_equal. lia.
  - apply Forall_map, Forall_forall. intros [[i j] n] _. lia.
Qed.

Definition blocks_total `{!SequenceMatcher} (a c : bytes) : list (Z * Z * Z * Z) :=
  match blocks a c with Ok bl => bl | Err _ => [] end.

#[global] Instance bdiff_line_matcher `{!SequenceMatcher} : LineMatcher.
Proof.
  refine {| blocks_of := blocks_total |}. intros a c. unfold blocks_total.
  by destruct (blocks_ok a c) as (bl & -> & H1 & H2).
Defined.

(** ** A matcher that meets the contract: the common prefix *)

Fixpoint common_prefix (a c : list bytes) : Z :=
  match a, c with
  | x :: a, y :: c => if decide (x = y) then 1 + common_prefix a c else 0
  | _, _ => 0
  end.

Definition prefix_blocks (a c : list bytes) : list (Z * Z * Z) :=
  [(0, 0, common_prefix a c); (zlen a, zlen c, 0)].

Lemma common_prefix_spec a c :
  0 <= common_prefix a c <= zlen a /\ common_prefix a c <= zlen c /\
  slice a 0 (common_prefix a c) = slice c 0 (common_prefix a c).
Proof.
  revert c. induction a as [|x a IH]; intros [|y c]; cbn [common_prefix];
    try (rewrite !slice_nil by lia; unfold zlen; simpl; split_and!; [lia..|done]).
  rewrite !zlen_cons. pose proof (zlen_nonneg a). pose proof (zlen_nonneg c).
  destruct (IH c) as (? & ? & E). case_decide as Hxy.
  - subst. split_and!; try lia.
    rewrite (slice_cons (y :: a) 0 _ y), (slice_cons (y :: c) 0 _ y) by (lia || done). f_equal.
    change (y :: a) with ([y] ++ a). change (y :: c) with ([y] ++ c).
    rewrite !slice_app_r by (unfold zlen; simpl; lia). change (zlen [y]) with 1.
    replace (1 + common_prefix a c - 1) with (common_prefix a c) by lia. exact E.
  - rewrite !slice_nil by lia. split_and!; [lia..|done].
Qed.

Lemma prefix_blocks_ok a c : matching a c (prefix_blocks a c).
Proof.
  destruct (common_prefix_spec a c) as (? & ? & ?). split; [|done]. simpl.
  split_and!; auto; try lia. by rewrite !slice_nil by lia.
Qed.

Definition prefix_matcher : SequenceMatcher :=
  {| get_matching_blocks_ := prefix_blocks; get_matching_blocks_ok := prefix_blocks_ok |}.
End Bdiff.
