(* ===== verification/SimpleMerge.v ===== *)
(** * Three-way merge of texts (simplemerge.py)

    [Merge3Text] aligns the two descendants of a base text on the regions that
    match in both, classifies the regions between them and prints the result.
    Assertions and indexings of the source are kept as error results; the
    theorems show that none of them can happen, that the regions cover the
    three texts and are classified the way a three-way merge must, and what
    the printed text is. *)

From S2P Require Import Prelude Lines Bdiff.

Module SimpleMerge.

(** [assert c] *)
Definition assert_ (c : bool) : res unit := if c then Ok tt else Err AssertionError.

(** [intersect] *)
Definition intersect (ra rb : Z * Z) : res (option (Z * Z)) :=
  let* _ := assert_ (bool_decide (ra.1 <= ra.2)) in
  let* _ := assert_ (bool_decide (rb.1 <= rb.2)) in
  let sa := Z.max ra.1 rb.1 in
  let sb := Z.min ra.2 rb.2 in
  if decide (sa < sb) then Ok (Some (sa, sb)) else Ok None.

(** [compare_range] *)
Fixpoint compare_loop (a c : list bytes) (ranges : list (Z * Z)) : res bool :=
  match ranges with
  | [] => Ok true
  | (ia, ib) :: ranges =>
      let* x := getitem a ia in
      let* y := getitem c ib in
      if decide (x = y) then compare_loop a c ranges else Ok false
  end.

Definition compare_range (a : list bytes) (astart aend : Z) (c : list bytes) (bstart bend : Z) : res bool :=
  if decide (aend - astart = bend - bstart) then
    compare_loop a c (zip (zrange astart aend) (zrange bstart bend))
  else Ok false.

(** ** Merge3Text *)

Record Merge3Text := Merge3 {
  basetext : bytes; atext : bytes; btext : bytes;
  base : list bytes; a_ : list bytes; b_ : list bytes
}.

(** [__init__] without the optional line lists *)
Definition init (basetext atext btext : bytes) : Merge3Text :=
  Merge3 basetext atext btext (splitnewlines basetext) (splitnewlines atext) (splitnewlines btext).

(** A sync region (base1, base2, a1, a2, b1, b2). *)
Record sync := Sync { zmatch : Z; zend : Z; amatch : Z; aend : Z; bmatch : Z; bend : Z }.

Section find_sync.
Variable m : Merge3Text.

(** One iteration's sync region, with the assertions of the source. *)
Definition sync_region (abase amatch alen bbase bmatch blen : Z) : res (option sync) :=
  let* i := intersect (abase, abase + alen) (bbase, bbase + blen) in
  match i with
  | None => Ok None
  | Some (intbase, intend) =>
      let intlen := intend - intbase in
      let* _ := assert_ (bool_decide (intlen <= alen)) in
      let* _ := assert_ (bool_decide (intlen <= blen)) in
      let* _ := assert_ (bool_decide (abase <= intbase)) in
      let* _ := assert_ (bool_decide (bbase <= intbase)) in
      let asub := amatch + (intbase - abase) in
      let bsub := bmatch + (intbase - bbase) in
      let aend := asub + intlen in
      let bend := bsub + intlen in
      let* _ := assert_ (bool_decide (slice (base m) intbase intend = slice (a_ m) asub aend)) in
      let* _ := assert_ (bool_decide (slice (base m) intbase intend = slice (b_ m) bsub bend)) in
      Ok (Some (Sync intbase intend asub aend bsub bend))
  end.

(** The [while] loop; the indices into the match lists are what is left of them. *)
Fixpoint sync_loop (fuel : nat) (amatches bmatches : list (Z * Z * Z)) (sl : list sync) : res (list sync) :=
  match fuel with
  | O => Err OutOfFuel
  | S fuel =>
      match amatches, bmatches with
      | (abase, amatch, alen) :: amatches', (bbase, bmatch, blen) :: bmatches' =>
          let* i := sync_region abase amatch alen bbase bmatch blen in
          let sl := sl ++ option_list i in
          if decide (abase + alen < bbase + blen) then sync_loop fuel amatches' bmatches sl
          else sync_loop fuel amatches bmatches' sl
      | _, _ => Ok sl
      end
  end.

Definition find_sync_regions_of (amatches bmatches : list (Z * Z * Z)) : res (list sync) :=
  let* sl := sync_loop (S (length amatches + length bmatches)) amatches bmatches [] in
  let intbase := zlen (base m) in
  let abase := zlen (a_ m) in
  let bbase := zlen (b_ m) in
  Ok (sl ++ [Sync intbase intbase abase abase bbase bbase]).

(** ** merge_regions *)

Inductive region :=
  | Unchanged (start end_ : Z)
  | Same (start end_ : Z)
  | RegA (start end_ : Z)
  | RegB (start end_ : Z)
  | Conflict (z1 z2 a1 a2 b1 b2 : Z).

(** What is yielded for the part before a sync region. *)
Definition unmatched_region (iz ia ib : Z) (s : sync) : res (list region) :=
  let len_a := amatch s - ia in
  let len_b := bmatch s - ib in
  if decide (len_a = 0 /\ len_b = 0) then Ok []
  else
    let* equal_a := compare_range (a_ m) ia (amatch s) (base m) iz (zmatch s) in
    let* equal_b := compare_range (b_ m) ib (bmatch s) (base m) iz (zmatch s) in
    let* same := compare_range (a_ m) ia (amatch s) (b_ m) ib (bmatch s) in
    if same then Ok [Same ia (amatch s)]
    else if equal_a && negb equal_b then Ok [RegB ib (bmatch s)]
    else if equal_b && negb equal_a then Ok [RegA ia (amatch s)]
    else if negb equal_a && negb equal_b then
      Ok [Conflict iz (zmatch s) ia (amatch s) ib (bmatch s)]
    else Err AssertionError.

(** The loop over the sync regions. *)
Fixpoint regions_loop (iz ia ib : Z) (syncs : list sync) : res (list region) :=
  match syncs with
  | [] => Ok []
  | s :: syncs =>
      let matchlen := zend s - zmatch s in
      let* _ := assert_ (bool_decide (matchlen >= 0)) in
      let* _ := assert_ (bool_decide (matchlen = aend s - amatch s)) in
      let* _ := assert_ (bool_decide (matchlen = bend s - bmatch s)) in
      let* _ := assert_ (bool_decide (amatch s - ia >= 0)) in
      let* _ := assert_ (bool_decide (bmatch s - ib >= 0)) in
      let* _ := assert_ (bool_decide (zmatch s - iz >= 0)) in
      let* before := unmatched_region iz ia ib s in
      let unmatched := negb (bool_decide (amatch s - ia = 0 /\ bmatch s - ib = 0)) in
      let ia := if unmatched then amatch s else ia in
      let ib := if unmatched then bmatch s else ib in
      let iz := zmatch s in
      if decide (matchlen > 0) then
        let* _ := assert_ (bool_decide (ia = amatch s)) in
        let* _ := assert_ (bool_decide (ib = bmatch s)) in
        let* _ := assert_ (bool_decide (iz = zmatch s)) in
        let* rest := regions_loop (zend s) (aend s) (bend s) syncs in
        Ok (before ++ Unchanged (zmatch s) (zend s) :: rest)
      else
        let* rest := regions_loop iz ia ib syncs in
        Ok (before ++ rest)
  end.

(** ** minimize *)

(** [while ii < alen and ii < blen and self.a[f ii] == self.b[g ii]: ii += 1] *)
Fixpoint match_loop (fuel : nat) (alen blen : Z) (f g : Z -> Z) (ii : Z) : res Z :=
  match fuel with
  | O => Err OutOfFuel
  | S fuel =>
      if decide (ii < alen /\ ii < blen) then
        let* x := getitem (a_ m) (f ii) in
        let* y := getitem (b_ m) (g ii) in
        if decide (x = y) then match_loop fuel alen blen f g (ii + 1) else Ok ii
      else Ok ii
  end.

Definition minimize_region (r : region) : res (list region) :=
  match r with
  | Conflict z1 z2 a1 a2 b1 b2 =>
      let alen := a2 - a1 in
      let blen := b2 - b1 in
      let fuel := S (Z.to_nat alen) in
      let* startmatches := match_loop fuel alen blen (fun ii => a1 + ii) (fun ii => b1 + ii) 0 in
      let* endmatches := match_loop fuel alen blen (fun ii => a2 - ii - 1) (fun ii => b2 - ii - 1) 0 in
      Ok ((if decide (startmatches > 0) then [Same a1 (a1 + startmatches)] else []) ++
          [Conflict z1 z2 (a1 + startmatches) (a2 - endmatches) (b1 + startmatches) (b2 - endmatches)] ++
          (if decide (endmatches > 0) then [Same (a2 - endmatches) a2] else []))
  | _ => Ok [r]
  end.

Fixpoint minimize (rs : list region) : res (list region) :=
  match rs with
  | [] => Ok []
  | r :: rs =>
      let* h := minimize_region r in
      let* t := minimize rs in
      Ok (h ++ t)
  end.
End find_sync.

(** ** merge_lines *)

Inductive side := NoSide | LocalSide | OtherSide.

Record merge_opts := MergeOpts {
  name_a : option bytes; name_b : option bytes; name_base : option bytes;
  start_marker : option bytes; mid_marker : option bytes; end_marker : option bytes;
  base_marker : option bytes; localorother : side; o_minimize : bool
}.

(** The default arguments *)
Definition default_opts : merge_opts :=
  MergeOpts None None None (Some (bs "<<<<<<<")) (Some (bs "=======")) (Some (bs ">>>>>>>"))
    None NoSide false.

Definition truthy (s : option bytes) : bool := match s with Some (_ :: _) => true | _ => false end.

(** [if name and marker: marker = marker + " " + name] *)
Definition label (name marker : option bytes) : option bytes :=
  match name, marker with
  | Some n, Some k => if truthy name && truthy marker then Some (k ++ bs " " ++ n) else marker
  | _, _ => marker
  end.

Definition endswith (l suffix : bytes) : bool :=
  bool_decide (drop (length l - length suffix) l = suffix).

Definition cr : ascii := "013"%char.

(** The line ending of the markers, taken from the first line of [a]. *)
Definition marker_newline (a : list bytes) : bytes :=
  match a with
  | [] => [newline]
  | l :: _ =>
      if endswith l [cr; newline] then [cr; newline]
      else if endswith l [cr] then [cr] else [newline]
  end.

Definition emit_marker (marker : option bytes) (nl : bytes) : list bytes :=
  match marker with Some k => [k ++ nl] | None => [] end.

Section merge.
Variable m : Merge3Text.
Variable o : merge_opts.

(** The lines yielded for one region, and whether it is a conflict. *)
Definition region_lines (r : region) : res (list bytes * bool) :=
  let nl := marker_newline (a_ m) in
  match r with
  | Unchanged s e => let* ls := getitems (base m) (zrange s e) in Ok (ls, false)
  | RegA s e | Same s e => let* ls := getitems (a_ m) (zrange s e) in Ok (ls, false)
  | RegB s e => let* ls := getitems (b_ m) (zrange s e) in Ok (ls, false)
  | Conflict z1 z2 a1 a2 b1 b2 =>
      match localorother o with
      | LocalSide => let* ls := getitems (a_ m) (zrange a1 a2) in Ok (ls, false)
      | OtherSide => let* ls := getitems (b_ m) (zrange b1 b2) in Ok (ls, false)
      | NoSide =>
          let* la := getitems (a_ m) (zrange a1 a2) in
          let* lz :=
            match label (name_base o) (base_marker o) with
            | Some k => let* lz := getitems (base m) (zrange z1 z2) in Ok ((k ++ nl) :: lz)
            | None => Ok []
            end in
          let* lb := getitems (b_ m) (zrange b1 b2) in
          Ok (emit_marker (label (name_a o) (start_marker o)) nl ++ la ++ lz ++
              emit_marker (mid_marker o) nl ++ lb ++
              emit_marker (label (name_b o) (end_marker o)) nl, true)
      end
  end.

(** The loop of [merge_lines]: the lines and [conflictscount]. *)
Fixpoint lines_loop (rs : list region) (conflictscount : Z) : res (list bytes * Z) :=
  match rs with
  | [] => Ok ([], conflictscount)
  | r :: rs =>
      let* (ls, c) := region_lines r in
      let* (rest, n) := lines_loop rs (if c then conflictscount + 1 else conflictscount) in
      Ok (ls ++ rest, n)
  end.
End merge.

Section with_matcher.
Context `{!LineMatcher}.

(** [mdiff.get_matching_blocks] *)
Definition get_matching_blocks (x y : bytes) : list (Z * Z * Z) :=
  map (fun '(d0, d1, d2, d3) => (d0, d2, d1 - d0)) (blocks_of x y).

Definition find_sync_regions (m : Merge3Text) : res (list sync) :=
  find_sync_regions_of m (get_matching_blocks (basetext m) (atext m))
    (get_matching_blocks (basetext m) (btext m)).

Definition merge_regions (m : Merge3Text) : res (list region) :=
  let* syncs := find_sync_regions m in
  regions_loop m 0 0 0 syncs.

(** [merge_lines]: the lines and the number of conflicts; [conflicts] is
    whether that number is not zero. *)
Definition merge_lines (m : Merge3Text) (o : merge_opts) : res (list bytes * Z) :=
  let* rs := merge_regions m in
  let* rs := if o_minimize o then minimize m rs else Ok rs in
  lines_loop m o rs 0.

Inductive group :=
  | GUnchanged (ls : list bytes) | GA (ls : list bytes) | GSame (ls : list bytes)
  | GB (ls : list bytes) | GConflict (base_lines a_lines b_lines : list bytes).

Definition region_group (m : Merge3Text) (r : region) : group :=
  match r with
  | Unchanged s e => GUnchanged (slice (base m) s e)
  | RegA s e => GA (slice (a_ m) s e)
  | Same s e => GSame (slice (a_ m) s e)
  | RegB s e => GB (slice (b_ m) s e)
  | Conflict z1 z2 a1 a2 b1 b2 =>
      GConflict (slice (base m) z1 z2) (slice (a_ m) a1 a2) (slice (b_ m) b1 b2)
  end.

(** [merge_groups] *)
Definition merge_groups (m : Merge3Text) : res (list group) :=
  let* rs := merge_regions m in Ok (map (region_group m) rs).

(** [find_unconflicted] *)
Fixpoint unconflicted_loop (fuel : nat) (am bm : list (Z * Z * Z)) (unc : list (Z * Z)) : res (list (Z * Z)) :=
  match fuel with
  | O => Err OutOfFuel
  | S fuel =>
      match am, bm with
      | (a1, _, an) :: am', (b1, _, bn) :: bm' =>
          let a2 := a1 + an in
          let b2 := b1 + bn in
          let* i := intersect (a1, a2) (b1, b2) in
          let unc := unc ++ option_list i in
          if decide (a2 < b2) then unconflicted_loop fuel am' bm unc
          else unconflicted_loop fuel am bm' unc
      | _, _ => Ok unc
      end
  end.

Definition find_unconflicted (m : Merge3Text) : res (list (Z * Z)) :=
  let am := get_matching_blocks (basetext m) (atext m) in
  let bm := get_matching_blocks (basetext m) (btext m) in
  unconflicted_loop (S (length am + length bm)) am bm [].

(** ** simplemerge *)

(** [util.binary] *)
Definition binary (s : bytes) : bool := bool_decide ("000"%char ∈ s).

(** [_picklabels] *)
Definition picklabels (defaults : list (option bytes)) (overrides : list bytes) : res (list (option bytes)) :=
  if decide (zlen overrides > 3) then Err (Abort "can only specify three labels.")
  else Ok (map Some overrides ++ drop (length overrides) defaults).

Inductive merge_mode := ModeMerge | ModeUnion.

Record simplemerge_opts := SMOpts {
  sm_mode : merge_mode; sm_label : list bytes; sm_text : bool; sm_side : side
}.

(** The arguments given to [merge_lines]. *)
Definition simplemerge_args (o : simplemerge_opts) (names : list (option bytes)) : merge_opts :=
  let nth k := match names !! k with Some n => n | None => None end in
  match sm_mode o with
  | ModeUnion => MergeOpts None None None None None None None (sm_side o) true
  | ModeMerge =>
      match nth 2%nat with
      | Some nb =>
          MergeOpts (nth 0%nat) (nth 1%nat) (Some nb) (start_marker default_opts)
            (mid_marker default_opts) (end_marker default_opts) (Some (bs "|||||||")) (sm_side o) false
      | None =>
          MergeOpts (nth 0%nat) (nth 1%nat) None (start_marker default_opts)
            (mid_marker default_opts) (end_marker default_opts) None (sm_side o) true
      end
  end.

(** [simplemerge]: the return value and the text written to the local file
    ([None]: nothing is written).  Paths and decoded data of the three file
    contexts are arguments. *)
Definition simplemerge (localpath otherpath localtext basetext othertext : bytes) (o : simplemerge_opts) :
    res (option Z * option bytes) :=
  let* names :=
    match sm_mode o with
    | ModeUnion => Ok [None; None; None]
    | ModeMerge => picklabels [Some localpath; Some otherpath; None] (sm_label o)
    end in
  if negb (sm_text o) && (binary localtext || binary basetext || binary othertext) then
    Ok (Some 1, None)
  else
    let* (ls, n) := merge_lines (init basetext localtext othertext) (simplemerge_args o names) in
    Ok (match sm_mode o with
        | ModeUnion => None
        | ModeMerge => if decide (n = 0) then None else Some n
        end, Some (concat ls)).
End with_matcher.

(** ** Sync regions *)

Lemma assert_true (c : bool) : c = true -> assert_ c = Ok tt.
Proof. by intros ->. Qed.

Ltac solve_assert := rewrite assert_true by (apply bool_decide_eq_true; (done || lia)); cbn [rbind].

Lemma intersect_spec a1 a2 b1 b2 :
  a1 <= a2 -> b1 <= b2 ->
  intersect (a1, a2) (b1, b2)
  = Ok (if decide (Z.max a1 b1 < Z.min a2 b2) then Some (Z.max a1 b1, Z.min a2 b2) else None).
Proof. intros. unfold intersect. simpl. do 2 solve_assert. by case_decide. Qed.

Section sync_proofs.
Variable m : Merge3Text.

(** A relation between the three positions at which regions begin and end. *)
Variable R : Z -> Z -> Z -> Prop.

(** A sync region after position (iz, ia, ib): it matches in the three texts
    and [R] holds at its ends. *)
Record sync_ok (iz ia ib : Z) (s : sync) : Prop := {
  so_from : iz <= zmatch s /\ ia <= amatch s /\ ib <= bmatch s;
  so_range : zmatch s <= zend s <= zlen (base m) /\ aend s <= zlen (a_ m) /\ bend s <= zlen (b_ m);
  so_len : aend s - amatch s = zend s - zmatch s /\ bend s - bmatch s = zend s - zmatch s;
  so_a : slice (base m) (zmatch s) (zend s) = slice (a_ m) (amatch s) (aend s);
  so_b : slice (base m) (zmatch s) (zend s) = slice (b_ m) (bmatch s) (bend s);
  so_start : R (zmatch s) (amatch s) (bmatch s);
  so_end : R (zend s) (aend s) (bend s)
}.

(** Sync regions one after the other; [close] says where the last one ends. *)
Fixpoint sync_chain (close : Z -> Z -> Z -> Prop) (iz ia ib : Z) (syncs : list sync) : Prop :=
  match syncs with
  | [] => close iz ia ib
  | s :: syncs => sync_ok iz ia ib s /\ sync_chain close (zend s) (aend s) (bend s) syncs
  end.

Definition open_end (iz ia ib : Z) : Prop :=
  iz <= zlen (base m) /\ ia <= zlen (a_ m) /\ ib <= zlen (b_ m).

Definition at_end (iz ia ib : Z) : Prop :=
  iz = zlen (base m) /\ ia = zlen (a_ m) /\ ib = zlen (b_ m).

Definition final_sync : sync :=
  Sync (zlen (base m)) (zlen (base m)) (zlen (a_ m)) (zlen (a_ m)) (zlen (b_ m)) (zlen (b_ m)).

Lemma sync_chain_close iz ia ib syncs :
  R (zlen (base m)) (zlen (a_ m)) (zlen (b_ m)) -> sync_chain open_end iz ia ib syncs ->
  sync_chain at_end iz ia ib (syncs ++ [final_sync]).
Proof.
  intros HR. revert iz ia ib. induction syncs as [|s syncs IH]; intros iz ia ib.
  - intros (? & ? & ?). split; [|by split_and!]. split; simpl; auto; try lia.
    + by rewrite !slice_nil by lia.
    + by rewrite !slice_nil by lia.
  - intros [? ?]. split; auto.
Qed.

(** What the two blocks at hand give: a sync region related by [R]. *)
Definition block_pair_ok (abase amatch alen bbase bmatch blen : Z) : Prop :=
  forall x, abase <= x <= abase + alen -> bbase <= x <= bbase + blen ->
    Z.max abase bbase < Z.min (abase + alen) (bbase + blen) ->
    R x (amatch + (x - abase)) (bmatch + (x - bbase)).

Lemma sync_region_spec abase amatch alen bbase bmatch blen :
  0 <= abase -> 0 <= amatch -> 0 <= bbase -> 0 <= bmatch -> 0 <= alen -> 0 <= blen ->
  abase + alen <= zlen (base m) -> amatch + alen <= zlen (a_ m) ->
  bbase + blen <= zlen (base m) -> bmatch + blen <= zlen (b_ m) ->
  slice (base m) abase (abase + alen) = slice (a_ m) amatch (amatch + alen) ->
  slice (base m) bbase (bbase + blen) = slice (b_ m) bmatch (bmatch + blen) ->
  let lo := Z.max abase bbase in
  let hi := Z.min (abase + alen) (bbase + blen) in
  sync_region m abase amatch alen bbase bmatch blen
  = Ok (if decide (lo < hi) then
          Some (Sync lo hi (amatch + (lo - abase)) (amatch + (hi - abase))
                     (bmatch + (lo - bbase)) (bmatch + (hi - bbase)))
        else None) /\
  (lo < hi ->
   slice (base m) lo hi = slice (a_ m) (amatch + (lo - abase)) (amatch + (hi - abase)) /\
   slice (base m) lo hi = slice (b_ m) (bmatch + (lo - bbase)) (bmatch + (hi - bbase))).
Proof.
  intros. assert (lo = Z.max abase bbase) as Hlo by done. assert (hi = Z.min (abase + alen) (bbase + blen)) as Hhi by done.
  clearbody lo hi.
  assert (lo < hi ->
   slice (base m) lo hi = slice (a_ m) (amatch + (lo - abase)) (amatch + (hi - abase)) /\
   slice (base m) lo hi = slice (b_ m) (bmatch + (lo - bbase)) (bmatch + (hi - bbase))) as Hs.
  { intros Hlt. split.
    - replace lo with (abase + (lo - abase)) at 1 by lia.
      replace hi with (abase + (hi - abase)) at 1 by lia.
      apply (slice_eq_sub _ _ abase (abase + alen) amatch (amatch + alen)); auto; lia.
    - replace lo with (bbase + (lo - bbase)) at 1 by lia.
      replace hi with (bbase + (hi - bbase)) at 1 by lia.
      apply (slice_eq_sub _ _ bbase (bbase + blen) bmatch (bmatch + blen)); auto; lia. }
  split; [|done]. unfold sync_region. rewrite intersect_spec by lia. cbn [rbind].
  rewrite <- Hlo, <- Hhi. case_decide as Hlt; [|done]. destruct (Hs Hlt) as [Ha Hb].
  replace (amatch + (lo - abase) + (hi - lo)) with (amatch + (hi - abase)) by lia.
  replace (bmatch + (lo - bbase) + (hi - lo)) with (bmatch + (hi - bbase)) by lia.
  do 6 solve_assert. done.
Qed.

(** Chains can be appended to. *)
Lemma sync_chain_snoc (close close' : Z -> Z -> Z -> Prop) iz ia ib syncs s :
  sync_chain close iz ia ib syncs ->
  (forall z a c, close z a c -> sync_ok z a c s /\ close' (zend s) (aend s) (bend s)) ->
  sync_chain close' iz ia ib (syncs ++ [s]).
Proof.
  revert iz ia ib. induction syncs as [|t syncs IH]; intros iz ia ib; simpl; [auto|].
  intros [? ?] Hs. split; [done|]. by apply IH.
Qed.

Lemma sync_chain_impl (close close' : Z -> Z -> Z -> Prop) iz ia ib syncs :
  (forall z a c, close z a c -> close' z a c) ->
  sync_chain close iz ia ib syncs -> sync_chain close' iz ia ib syncs.
Proof.
  intros Hc. revert iz ia ib. induction syncs as [|t syncs IH]; intros iz ia ib; simpl; [auto|].
  intros [? ?]. auto.
Qed.

(** A position is before a block, or inside it at the matching place. *)
Definition before_block (z a : Z) (blk : Z * Z * Z) : Prop :=
  let '(i, j, n) := blk in z <= i /\ a <= j.
Definition in_block (z a : Z) (blk : Z * Z * Z) : Prop :=
  let '(i, j, n) := blk in i <= z <= i + n /\ a = j + (z - i).

(** Where the two match lists continue after the sync regions built so far:
    nothing left of them reaches back, and one of them starts afresh. *)
Definition heads_after (am bm : list (Z * Z * Z)) (z a c : Z) : Prop :=
  open_end z a c /\
  match am with blk :: _ => before_block z a blk \/ in_block z a blk | [] => True end /\
  match bm with blk :: _ => before_block z c blk \/ in_block z c blk | [] => True end /\
  match am, bm with x :: _, y :: _ => before_block z a x \/ before_block z c y | _, _ => True end.

Lemma next_before (l1 l2 : list bytes) z a i j n rest :
  before_block z a (i, j, n) \/ in_block z a (i, j, n) -> 0 <= n ->
  matching_from l1 l2 (i + n) (j + n) rest ->
  match rest with blk :: _ => before_block z a blk | [] => True end.
Proof.
  intros H Hn Hm. destruct rest as [|[[x y] k] rest]; [done|]. simpl in *. intuition lia.
Qed.

(** The sync region of two blocks extends the chain, and the loop goes on
    after the block that ends first. *)
Lemma heads_step am bm abase amatch alen bbase bmatch blen z a c :
  let x := (abase, amatch, alen) in
  let y := (bbase, bmatch, blen) in
  let lo := Z.max abase bbase in
  let hi := Z.min (abase + alen) (bbase + blen) in
  let s := Sync lo hi (amatch + (lo - abase)) (amatch + (hi - abase))
                (bmatch + (lo - bbase)) (bmatch + (hi - bbase)) in
  0 <= alen -> 0 <= blen ->
  matching_from (base m) (a_ m) abase amatch (x :: am) ->
  matching_from (base m) (b_ m) bbase bmatch (y :: bm) ->
  block_pair_ok abase amatch alen bbase bmatch blen ->
  (lo < hi ->
   slice (base m) lo hi = slice (a_ m) (amatch + (lo - abase)) (amatch + (hi - abase)) /\
   slice (base m) lo hi = slice (b_ m) (bmatch + (lo - bbase)) (bmatch + (hi - bbase))) ->
  heads_after (x :: am) (y :: bm) z a c ->
  let next := if decide (abase + alen < bbase + blen) then heads_after am (y :: bm)
              else heads_after (x :: am) bm in
  if decide (lo < hi) then sync_ok z a c s /\ next hi (amatch + (hi - abase)) (bmatch + (hi - bbase))
  else next z a c.
Proof.
  intros x y lo hi s Hal Hbl Hma Hmb HR Hs Hh.
  assert (lo = Z.max abase bbase) as Hlo by done.
  assert (hi = Z.min (abase + alen) (bbase + blen)) as Hhi by done. clearbody lo hi.
  cbn [matching_from x y] in Hma, Hmb.
  destruct Hma as (_ & _ & _ & La & La' & _ & Hma), Hmb as (_ & _ & _ & Lb & Lb' & _ & Hmb).
  destruct Hh as (Hopen & Ha & Hb & Hor).
  assert (in_block (abase + alen) (amatch + alen) x) as Ia by (simpl; lia).
  assert (in_block (bbase + blen) (bmatch + blen) y) as Ib by (simpl; lia).
  pose proof (next_before (base m) (a_ m) _ _ abase amatch alen am (or_intror Ia) Hal Hma) as Fa.
  pose proof (next_before (base m) (b_ m) _ _ bbase bmatch blen bm (or_intror Ib) Hbl Hmb) as Fb.
  destruct (decide (lo < hi)) as [Hlt|Hlt].
  - destruct (Hs Hlt) as [Sa Sb]. split.
    + unfold open_end, before_block, in_block, x, y in *.
      split; simpl; auto; try lia; apply HR; lia.
    + case_decide as Hend.
      * assert (hi = abase + alen /\ amatch + (hi - abase) = amatch + alen) as [-> ->] by lia.
        split_and!; [unfold open_end in *; lia|destruct am; auto|right; simpl; lia|destruct am; auto].
      * assert (hi = bbase + blen /\ bmatch + (hi - bbase) = bmatch + blen) as [-> ->] by lia.
        split_and!; [unfold open_end in *; lia|right; simpl; lia|destruct bm; auto|destruct bm; auto].
  - pose proof (next_before (base m) (a_ m) z a abase amatch alen am Ha Hal Hma) as Hna.
    pose proof (next_before (base m) (b_ m) z c bbase bmatch blen bm Hb Hbl Hmb) as Hnb.
    case_decide as Hend; split_and!; auto; [destruct am|destruct am|destruct bm|destruct bm]; auto.
Qed.

Definition pairs_ok (am bm : list (Z * Z * Z)) : Prop :=
  Forall (fun '(i, j, n) => Forall (fun '(i', j', n') => block_pair_ok i j n i' j' n') bm) am.

(** Blocks can be read from their own start. *)
Lemma matching_from_self (l1 l2 : list bytes) i0 j0 i j n rest :
  matching_from l1 l2 i0 j0 ((i, j, n) :: rest) -> matching_from l1 l2 i j ((i, j, n) :: rest).
Proof. simpl. intuition lia. Qed.

Lemma sync_loop_ok fuel am bm sl i0 j0 k0 l0 :
  0 <= i0 -> 0 <= j0 -> 0 <= k0 -> 0 <= l0 ->
  matching_from (base m) (a_ m) i0 j0 am -> matching_from (base m) (b_ m) k0 l0 bm ->
  pairs_ok am bm -> (length am + length bm < fuel)%nat ->
  sync_chain (heads_after am bm) 0 0 0 sl ->
  exists sl', sync_loop m fuel am bm sl = Ok sl' /\ sync_chain open_end 0 0 0 sl'.
Proof.
  revert am bm sl i0 j0 k0 l0. induction fuel as [|fuel IH];
    intros am bm sl i0 j0 k0 l0 Hi Hj Hk Hl Hma Hmb HP Hf Hc; [lia|].
  cbn [sync_loop]. destruct am as [|[[abase amatch] alen] am], bm as [|[[bbase bmatch] blen] bm];
    try (exists sl; split; [done|]; eapply sync_chain_impl; [|exact Hc]; intros z a c Hh; apply Hh).
  pose proof (matching_from_self _ _ _ _ _ _ _ _ Hma) as Hma'.
  pose proof (matching_from_self _ _ _ _ _ _ _ _ Hmb) as Hmb'.
  pose proof Hma as (Ha1 & Ha2 & Ha3 & Ha4 & Ha5 & Ha6 & Ham).
  pose proof Hmb as (Hb1 & Hb2 & Hb3 & Hb4 & Hb5 & Hb6 & Hbm).
  destruct (sync_region_spec abase amatch alen bbase bmatch blen) as [-> Hs]; try (lia || done).
  cbn [rbind].
  pose proof HP as [HPx HPa]%Forall_cons. pose proof HPx as [HPxy _]%Forall_cons.
  pose proof (fun z a c => heads_step am bm abase amatch alen bbase bmatch blen z a c
    Ha3 Hb3 Hma' Hmb' HPxy Hs) as Hstep. cbv zeta in Hstep.
  assert (pairs_ok ((abase, amatch, alen) :: am) bm) as HPb.
  { eapply Forall_impl; [exact HP|]. intros [[? ?] ?] [_ ?]%Forall_cons. done. }
  simpl in Hf.
  destruct (decide (abase + alen < bbase + blen)).
  - eapply (IH am ((bbase, bmatch, blen) :: bm)); [..|exact Ham|exact Hmb| | |]; try (simpl; lia); auto.
    case_decide; simpl.
    + eapply sync_chain_snoc; [exact Hc|]. intros z a c Hh. by apply Hstep.
    + rewrite app_nil_r. eapply sync_chain_impl; [|exact Hc]. apply Hstep.
  - eapply (IH ((abase, amatch, alen) :: am) bm); [..|exact Hma|exact Hbm| | |]; try (simpl; lia); auto.
    case_decide; simpl.
    + eapply sync_chain_snoc; [exact Hc|]. intros z a c Hh. by apply Hstep.
    + rewrite app_nil_r. eapply sync_chain_impl; [|exact Hc]. apply Hstep.
Qed.

Lemma find_sync_regions_ok am bm :
  matching_from (base m) (a_ m) 0 0 am -> matching_from (base m) (b_ m) 0 0 bm ->
  pairs_ok am bm -> R (zlen (base m)) (zlen (a_ m)) (zlen (b_ m)) ->
  exists syncs, find_sync_regions_of m am bm = Ok syncs /\ sync_chain at_end 0 0 0 syncs.
Proof.
  intros Ha Hb HP HR. unfold find_sync_regions_of.
  destruct (sync_loop_ok (S (length am + length bm)) am bm [] 0 0 0 0) as (sl & -> & Hc);
    auto; try lia.
  { simpl. unfold heads_after, open_end. split_and!; auto with hg.
    - destruct am as [|[[? ?] ?] am]; [done|]. left. simpl in *. lia.
    - destruct bm as [|[[? ?] ?] bm]; [done|]. left. simpl in *. lia.
    - destruct am as [|[[? ?] ?] am], bm as [|[[? ?] ?] bm]; try done. left. simpl in *. lia. }
  cbn [rbind]. eexists. split; [reflexivity|]. by apply sync_chain_close.
Qed.

(** ** Regions *)

(** A list of regions covers the three texts from (z, a, c) to their ends and
    classifies every part as a three-way merge must; [R] holds where regions
    meet. *)
Inductive covers : Z -> Z -> Z -> list region -> Prop :=
  | covers_end : covers (zlen (base m)) (zlen (a_ m)) (zlen (b_ m)) []
  | covers_unchanged z a c n rs :
      0 < n -> z + n <= zlen (base m) -> a + n <= zlen (a_ m) -> c + n <= zlen (b_ m) ->
      slice (base m) z (z + n) = slice (a_ m) a (a + n) ->
      slice (base m) z (z + n) = slice (b_ m) c (c + n) ->
      R z a c -> covers (z + n) (a + n) (c + n) rs ->
      covers z a c (Unchanged z (z + n) :: rs)
  | covers_deleted z z' a c rs :   (* deleted on both sides: nothing is yielded *)
      z <= z' <= zlen (base m) -> R z a c -> covers z' a c rs -> covers z a c rs
  | covers_same z z' a a' c c' rs :
      z <= z' <= zlen (base m) -> a <= a' <= zlen (a_ m) -> c <= c' <= zlen (b_ m) ->
      slice (a_ m) a a' = slice (b_ m) c c' ->
      R z a c -> covers z' a' c' rs -> covers z a c (Same a a' :: rs)
  | covers_a z z' a a' c c' rs :
      z <= z' <= zlen (base m) -> a <= a' <= zlen (a_ m) -> c <= c' <= zlen (b_ m) ->
      slice (b_ m) c c' = slice (base m) z z' -> slice (a_ m) a a' ≠ slice (base m) z z' ->
      R z a c -> R z' a' c' -> covers z' a' c' rs -> covers z a c (RegA a a' :: rs)
  | covers_b z z' a a' c c' rs :
      z <= z' <= zlen (base m) -> a <= a' <= zlen (a_ m) -> c <= c' <= zlen (b_ m) ->
      slice (a_ m) a a' = slice (base m) z z' -> slice (b_ m) c c' ≠ slice (base m) z z' ->
      R z a c -> R z' a' c' -> covers z' a' c' rs -> covers z a c (RegB c c' :: rs)
  | covers_conflict z z' a a' c c' rs :
      z <= z' <= zlen (base m) -> a <= a' <= zlen (a_ m) -> c <= c' <= zlen (b_ m) ->
      slice (a_ m) a a' ≠ slice (base m) z z' -> slice (b_ m) c c' ≠ slice (base m) z z' ->
      slice (a_ m) a a' ≠ slice (b_ m) c c' ->
      R z a c -> R z' a' c' -> covers z' a' c' rs ->
      covers z a c (Conflict z z' a a' c c' :: rs).
End sync_proofs.

(** [compare_range] compares slices. *)
Lemma compare_loop_spec l1 l2 i j n :
  0 <= i -> 0 <= j -> i + Z.of_nat n <= zlen l1 -> j + Z.of_nat n <= zlen l2 ->
  compare_loop l1 l2 (zip (zrange i (i + Z.of_nat n)) (zrange j (j + Z.of_nat n)))
  = Ok (bool_decide (slice l1 i (i + Z.of_nat n) = slice l2 j (j + Z.of_nat n))).
Proof.
  revert i j. induction n as [|n IH]; intros i j Hi Hj H1 H2.
  - rewrite !zrange_nil, !slice_nil by lia. done.
  - rewrite (zrange_cons i), (zrange_cons j) by lia.
    cbn [zip_with compare_loop uncurry].
    destruct (getitem_ok l1 i) as [x Hx]; [lia|]. destruct (getitem_ok l2 j) as [y Hy]; [lia|].
    rewrite Hx, Hy. cbn [rbind].
    rewrite (slice_cons l1 i _ x), (slice_cons l2 j _ y) by (lia || done).
    replace (i + Z.of_nat (S n)) with ((i + 1) + Z.of_nat n) by lia.
    replace (j + Z.of_nat (S n)) with ((j + 1) + Z.of_nat n) by lia.
    case_decide as Hxy; [|by rewrite bool_decide_false by congruence].
    rewrite IH by lia. f_equal. apply bool_decide_ext. split; [by intros ->; subst|by intros [= _ ?]].
Qed.

Lemma compare_range_spec l1 i i' l2 j j' :
  0 <= i <= i' -> i' <= zlen l1 -> 0 <= j <= j' -> j' <= zlen l2 ->
  compare_range l1 i i' l2 j j' = Ok (bool_decide (slice l1 i i' = slice l2 j j')).
Proof.
  intros. unfold compare_range. case_decide as Hlen.
  - pose proof (compare_loop_spec l1 l2 i j (Z.to_nat (i' - i))) as H'.
    replace (i + Z.of_nat (Z.to_nat (i' - i))) with i' in H' by lia.
    replace (j + Z.of_nat (Z.to_nat (i' - i))) with j' in H' by lia. apply H'; lia.
  - rewrite bool_decide_false; [done|]. intros E. apply Hlen.
    rewrite <- (zlen_slice l1 i i'), <- (zlen_slice l2 j j') by lia. by rewrite E.
Qed.

Section region_proofs.
Variable m : Merge3Text.
Variable R : Z -> Z -> Z -> Prop.

(** The part before a sync region is classified correctly. *)
Lemma unmatched_region_ok iz ia ib s rs :
  0 <= iz -> 0 <= ia -> 0 <= ib -> R iz ia ib -> sync_ok m R iz ia ib s ->
  covers m R (zmatch s) (amatch s) (bmatch s) rs ->
  exists before, unmatched_region m iz ia ib s = Ok before /\ covers m R iz ia ib (before ++ rs).
Proof.
  intros Hz Ha Hb HR [(Fz & Fa & Fb) (Rz & Ra & Rb) (La & Lb) Sa Sb R1 R2] Hc.
  unfold unmatched_region. case_decide as Hun.
  { eexists. split; [reflexivity|]. apply (covers_deleted m R iz (zmatch s)); auto; [lia|].
    replace ia with (amatch s) by lia. by replace ib with (bmatch s) by lia. }
  rewrite !compare_range_spec by lia. cbn [rbind].
  destruct (bool_decide (slice (a_ m) ia (amatch s) = slice (b_ m) ib (bmatch s))) eqn:Es;
    destruct (bool_decide (slice (a_ m) ia (amatch s) = slice (base m) iz (zmatch s))) eqn:Ea;
    destruct (bool_decide (slice (b_ m) ib (bmatch s) = slice (base m) iz (zmatch s))) eqn:Eb;
    rewrite ?bool_decide_eq_true, ?bool_decide_eq_false in *; simpl; try congruence;
    (eexists; split; [reflexivity|]); simpl.
  1-2: apply (covers_same m R iz (zmatch s) ia (amatch s) ib (bmatch s)); auto; lia.
  - apply (covers_b m R iz (zmatch s) ia (amatch s)); auto; lia.
  - apply (covers_a m R iz (zmatch s) ia (amatch s) ib (bmatch s)); auto; lia.
  - apply (covers_conflict m R iz (zmatch s)); auto; lia.
Qed.

Lemma regions_loop_ok iz ia ib syncs :
  0 <= iz -> 0 <= ia -> 0 <= ib -> R iz ia ib -> sync_chain m R (at_end m) iz ia ib syncs ->
  exists rs, regions_loop m iz ia ib syncs = Ok rs /\ covers m R iz ia ib rs.
Proof.
  revert iz ia ib. induction syncs as [|s syncs IH]; intros iz ia ib Hz Ha Hb HR.
  { intros (-> & -> & ->). eexists. split; [reflexivity|constructor]. }
  intros [Hs Hc]. pose proof Hs as [(Fz & Fa & Fb) (Rz & Ra & Rb) (La & Lb) Sa Sb R1 R2].
  destruct (IH (zend s) (aend s) (bend s)) as (rest & Hrest & Hcov); auto; try lia.
  cbn [regions_loop]. do 6 solve_assert.
  destruct (decide (zend s - zmatch s > 0)) as [Hlen|Hlen].
  - assert (covers m R (zmatch s) (amatch s) (bmatch s) (Unchanged (zmatch s) (zend s) :: rest)) as Hcov'.
    { pose proof (covers_unchanged m R (zmatch s) (amatch s) (bmatch s) (zend s - zmatch s) rest) as Hu.
      replace (zmatch s + (zend s - zmatch s)) with (zend s) in Hu by lia.
      replace (amatch s + (zend s - zmatch s)) with (aend s) in Hu by lia.
      replace (bmatch s + (zend s - zmatch s)) with (bend s) in Hu by lia. apply Hu; auto; lia. }
    destruct (unmatched_region_ok iz ia ib s _ Hz Ha Hb HR Hs Hcov') as (before & -> & Hb').
    cbn [rbind]. rewrite assert_true by (apply bool_decide_eq_true; case_bool_decide; simpl; lia).
    cbn [rbind]. rewrite assert_true by (apply bool_decide_eq_true; case_bool_decide; simpl; lia).
    cbn [rbind]. solve_assert. rewrite Hrest. cbn [rbind]. eauto.
  - assert (zend s = zmatch s /\ aend s = amatch s /\ bend s = bmatch s) as (Ez & Ea & Eb) by lia.
    rewrite Ez, Ea, Eb in Hcov, Hrest.
    destruct (unmatched_region_ok iz ia ib s _ Hz Ha Hb HR Hs Hcov) as (before & -> & Hb').
    cbn [rbind]. replace (if negb _ then amatch s else ia) with (amatch s)
      by (case_bool_decide; simpl; lia).
    replace (if negb _ then bmatch s else ib) with (bmatch s) by (case_bool_decide; simpl; lia).
    rewrite Hrest. cbn [rbind]. eauto.
Qed.

(** Regions lie in the texts. *)
Definition in_range (r : region) : Prop :=
  match r with
  | Unchanged s e => 0 <= s <= e /\ e <= zlen (base m)
  | Same s e | RegA s e => 0 <= s <= e /\ e <= zlen (a_ m)
  | RegB s e => 0 <= s <= e /\ e <= zlen (b_ m)
  | Conflict z1 z2 a1 a2 b1 b2 =>
      (0 <= z1 <= z2 /\ z2 <= zlen (base m)) /\ (0 <= a1 <= a2 /\ a2 <= zlen (a_ m)) /\
      (0 <= b1 <= b2 /\ b2 <= zlen (b_ m))
  end.

Lemma covers_in_range z a c rs : 0 <= z -> 0 <= a -> 0 <= c -> covers m R z a c rs -> Forall in_range rs.
Proof.
  intros Hz Ha Hc H. induction H; [constructor|constructor|..].
  - simpl. lia.
  - apply IHcovers; lia.
  - apply IHcovers; lia.
  - constructor; [simpl; lia|apply IHcovers; lia].
  - constructor; [simpl; lia|apply IHcovers; lia].
  - constructor; [simpl; lia|apply IHcovers; lia].
  - constructor; [simpl; lia|apply IHcovers; lia].
Qed.

(** ** Printed lines *)

(** The side of a region that is printed when there is no conflict. *)
Definition resolved (sd : side) (r : region) : list bytes :=
  match r with
  | Unchanged s e => slice (base m) s e
  | Same s e | RegA s e => slice (a_ m) s e
  | RegB s e => slice (b_ m) s e
  | Conflict z1 z2 a1 a2 b1 b2 =>
      match sd with OtherSide => slice (b_ m) b1 b2 | _ => slice (a_ m) a1 a2 end
  end.

(** What is printed for a region. *)
Definition rendered (o : merge_opts) (r : region) : list bytes :=
  let nl := marker_newline (a_ m) in
  match r, localorother o with
  | Conflict z1 z2 a1 a2 b1 b2, NoSide =>
      emit_marker (label (name_a o) (start_marker o)) nl ++ slice (a_ m) a1 a2 ++
      match label (name_base o) (base_marker o) with
      | Some k => (k ++ nl) :: slice (base m) z1 z2
      | None => []
      end ++ emit_marker (mid_marker o) nl ++ slice (b_ m) b1 b2 ++
      emit_marker (label (name_b o) (end_marker o)) nl
  | _, sd => resolved sd r
  end.

Definition is_conflict (r : region) : bool := match r with Conflict _ _ _ _ _ _ => true | _ => false end.

Definition count_conflicts (o : merge_opts) (rs : list region) : Z :=
  match localorother o with
  | NoSide => Z.of_nat (length (filter (fun r => is_conflict r = true) rs))
  | _ => 0
  end.

Lemma region_lines_ok o r :
  in_range r ->
  region_lines m o r
  = Ok (rendered o r, match localorother o with NoSide => is_conflict r | _ => false end).
Proof.
  intros Hr. unfold region_lines, rendered.
  destruct r as [s e|s e|s e|s e|z1 z2 a1 a2 b1 b2]; simpl in Hr.
  1-4: rewrite getitems_slice by lia; by destruct (localorother o).
  destruct (localorother o); rewrite ?(getitems_slice (a_ m)), ?(getitems_slice (b_ m)) by lia; cbn [rbind]; try done.
  destruct (label (name_base o) (base_marker o)); rewrite ?(getitems_slice (base m)) by lia; done.
Qed.

Lemma lines_loop_ok o rs n :
  Forall in_range rs ->
  lines_loop m o rs n = Ok (concat (map (rendered o) rs), n + count_conflicts o rs).
Proof.
  intros HF. revert n. induction HF as [|r rs Hr HF IH]; intros n.
  - simpl. unfold count_conflicts. destruct (localorother o); simpl; by rewrite Z.add_0_r.
  - cbn [lines_loop]. rewrite region_lines_ok by done. cbn [rbind]. rewrite IH. cbn [rbind].
    simpl. do 2 f_equal. unfold count_conflicts. rewrite filter_cons.
    destruct (localorother o); [|lia..]. destruct (decide (is_conflict r = true)) as [E|E].
    + rewrite E. simpl. lia.
    + destruct (is_conflict r); [done|]. done.
Qed.
End region_proofs.

(** ** Merges in which one side adds nothing *)

Section clean.
Variable m : Merge3Text.

Definition no_conflict (r : region) : Prop := is_conflict r = false.

Lemma tail_slice (l : list bytes) i j tl :
  0 <= i <= j -> j <= zlen l -> tl = slice l j (zlen l) -> slice l i j ++ tl = slice l i (zlen l).
Proof. intros ? ? ->. symmetry. apply slice_app; lia. Qed.

Lemma covers_a_unchanged z a c rs sd :
  base m = a_ m -> 0 <= c -> covers m (fun z a c => a = z) z a c rs ->
  concat (map (resolved m sd) rs) = slice (b_ m) c (zlen (b_ m)) /\ Forall no_conflict rs.
Proof.
  intros Heq Hc H. induction H as [|z a c n rs|z z' a c rs|z z' a a' c c' rs|z z' a a' c c' rs
    |z z' a a' c c' rs|z z' a a' c c' rs]; simpl; subst;
    try (rewrite Heq in *; congruence); try (destruct IHcovers as [IH ?]; [lia|]).
  - by rewrite slice_nil by lia.
  - split; [|by constructor]. rewrite IH, H4. apply tail_slice; auto; lia.
  - by split.
  - split; [|by constructor]. rewrite IH, H2. apply tail_slice; auto; lia.
  - split; [|by constructor]. rewrite IH. apply tail_slice; auto; lia.
Qed.

Lemma covers_b_unchanged z a c rs sd :
  base m = b_ m -> 0 <= a -> covers m (fun z a c => c = z) z a c rs ->
  concat (map (resolved m sd) rs) = slice (a_ m) a (zlen (a_ m)) /\ Forall no_conflict rs.
Proof.
  intros Heq Ha H. induction H as [|z a c n rs|z z' a c rs|z z' a a' c c' rs|z z' a a' c c' rs
    |z z' a a' c c' rs|z z' a a' c c' rs]; simpl; subst;
    try (rewrite Heq in *; congruence); try (destruct IHcovers as [IH ?]; [lia|]).
  - by rewrite slice_nil by lia.
  - split; [|by constructor]. rewrite IH, H3. apply tail_slice; auto; lia.
  - by split.
  - split; [|by constructor]. rewrite IH. apply tail_slice; auto; lia.
  - split; [|by constructor]. rewrite IH. apply tail_slice; auto; lia.
Qed.

Lemma covers_same_change z a c rs sd :
  a_ m = b_ m -> 0 <= a -> covers m (fun z a c => a = c) z a c rs ->
  concat (map (resolved m sd) rs) = slice (a_ m) a (zlen (a_ m)) /\ Forall no_conflict rs.
Proof.
  intros Heq Ha H. induction H as [|z a c n rs|z z' a c rs|z z' a a' c c' rs|z z' a a' c c' rs
    |z z' a a' c c' rs|z z' a a' c c' rs]; simpl; subst;
    try (rewrite Heq in *; congruence); try (destruct IHcovers as [IH ?]; [lia|]).
  - by rewrite slice_nil by lia.
  - split; [|by constructor]. rewrite IH, H3. apply tail_slice; auto; lia.
  - by split.
  - split; [|by constructor]. rewrite IH. apply tail_slice; auto; lia.
Qed.

Lemma minimize_clean rs : Forall no_conflict rs -> minimize m rs = Ok rs.
Proof.
  induction 1 as [|r rs Hr HF IH]; [done|]. simpl. rewrite IH.
  unfold no_conflict in Hr. by destruct r.
Qed.

(** Without conflicts the options do not matter. *)
Lemma rendered_clean o rs :
  Forall no_conflict rs ->
  map (rendered m o) rs = map (resolved m NoSide) rs /\ count_conflicts o rs = 0.
Proof.
  intros HF. split.
  - induction HF as [|r rs Hr HF IH]; [done|]. simpl. rewrite IH. f_equal.
    unfold no_conflict in Hr. destruct r; try done; unfold rendered; by destruct (localorother o).
  - unfold count_conflicts. destruct (localorother o); [|done..].
    induction HF as [|r rs Hr HF IH]; [done|]. rewrite filter_cons_False; [done|].
    unfold no_conflict in Hr. by rewrite Hr.
Qed.
End clean.

Section theorems.
Context `{!LineMatcher}.

Lemma get_matching_blocks_matching x y :
  matching (splitnewlines x) (splitnewlines y) (get_matching_blocks x y).
Proof. apply blocks_of_ok. Qed.

(** The regions of a merge, for any relation the matches establish. *)
Lemma merge_regions_ok (R : Z -> Z -> Z -> Prop) t u v :
  let m := init t u v in
  R 0 0 0 -> R (zlen (base m)) (zlen (a_ m)) (zlen (b_ m)) ->
  pairs_ok R (get_matching_blocks t u) (get_matching_blocks t v) ->
  exists rs, merge_regions m = Ok rs /\ covers m R 0 0 0 rs.
Proof.
  intros m H0 Hend HP.
  destruct (get_matching_blocks_matching t u) as [Ha _].
  destruct (get_matching_blocks_matching t v) as [Hb _].
  destruct (find_sync_regions_ok m R _ _ Ha Hb HP Hend) as (syncs & Es & Hc).
  unfold merge_regions, find_sync_regions. simpl in Es |- *. unfold m in *. simpl in *. rewrite Es.
  cbn [rbind]. by apply regions_loop_ok.
Qed.

Lemma merge_lines_clean t u v o rs :
  let m := init t u v in
  merge_regions m = Ok rs -> Forall (in_range m) rs -> Forall no_conflict rs ->
  merge_lines m o = Ok (concat (map (resolved m NoSide) rs), 0).
Proof.
  intros m E Hr Hn. unfold merge_lines. rewrite E. cbn [rbind].
  assert ((if o_minimize o then minimize m rs else Ok rs) = Ok rs) as ->.
  { destruct (o_minimize o); [by apply minimize_clean|done]. }
  cbn [rbind]. rewrite lines_loop_ok by done.
  destruct (rendered_clean m o rs Hn) as [-> ->]. done.
Qed.

(** Two blocks of one increasing sequence that overlap in the base are one. *)
Lemma matching_from_after (l1 l2 : list bytes) i j ms :
  matching_from l1 l2 i j ms -> Forall (fun '(x, y, n) => i <= x /\ 0 <= n) ms.
Proof.
  revert i j. induction ms as [|[[x y] n] ms IH]; intros i j; [constructor|].
  intros (? & ? & ? & ? & ? & ? & Hm). constructor; [done|].
  eapply Forall_impl; [exact (IH _ _ Hm)|]. intros [[x' y'] n'] [? ?]. lia.
Qed.

Lemma pairs_ok_diagonal (l1 l2 : list bytes) i j ms :
  matching_from l1 l2 i j ms -> pairs_ok (fun z a c => a = c) ms ms.
Proof.
  unfold pairs_ok. revert i j. induction ms as [|[[x y] n] ms IH]; intros i j; [constructor|].
  intros (? & ? & ? & ? & ? & ? & Hm).
  pose proof (matching_from_after _ _ _ _ _ Hm) as HF. constructor.
  - constructor; [unfold block_pair_ok; lia|].
    eapply Forall_impl; [exact HF|]. intros [[x' y'] n'] [? ?]. unfold block_pair_ok. lia.
  - rewrite Forall_forall. intros [[x' y'] n'] Hin. rewrite Forall_forall in HF.
    pose proof (HF _ Hin) as [? ?]. constructor; [unfold block_pair_ok; lia|].
    pose proof (IH _ _ Hm) as HI. rewrite Forall_forall in HI. exact (HI _ Hin).
Qed.

Lemma pairs_ok_any (R : Z -> Z -> Z -> Prop) am bm :
  Forall (fun '(i, j, n) => Forall (fun '(i', j', n') => forall x,
    R x (j + (x - i)) (j' + (x - i'))) bm) am -> pairs_ok R am bm.
Proof.
  intros HF. unfold pairs_ok. eapply Forall_impl; [exact HF|]. intros [[i j] n] HF'.
  eapply Forall_impl; [exact HF'|]. intros [[i' j'] n'] Hx x _ _ _. apply Hx.
Qed.

(** [C35] The three-way merge never fails: no assertion or index error of
    [find_sync_regions], [merge_regions] or [merge_lines] can happen and all
    loops end; the regions cover base, local and other text from start to end
    without gap or overlap, unchanged regions are equal in the three texts,
    the others are classified by which sides differ from the base and from
    each other, and the printed text is what each region stands for. *)
Theorem merge_regions_correct (t u v : bytes) (o : merge_opts) :
  let m := init t u v in
  exists rs,
    merge_regions m = Ok rs /\ covers m (fun _ _ _ => True) 0 0 0 rs /\
    (o_minimize o = false ->
     merge_lines m o = Ok (concat (map (rendered m o) rs), count_conflicts o rs)).
Proof.
  intros m. destruct (merge_regions_ok (fun _ _ _ => True) t u v) as (rs & E & Hc); auto.
  { apply pairs_ok_any. apply Forall_forall. intros [[? ?] ?] _. by apply Forall_forall; intros [[? ?] ?]. }
  exists rs. split_and!; auto. intros Hmin. unfold merge_lines, m. rewrite E, Hmin. cbn [rbind].
  rewrite lines_loop_ok; [done|]. by eapply (covers_in_range (init t u v)); [..|exact Hc].
Qed.

Definition clean_labels (o : simplemerge_opts) : Prop := zlen (sm_label o) <= 3.

Definition all_text (o : simplemerge_opts) (ts : list bytes) : Prop :=
  sm_text o = true \/ Forall (fun t => "000"%char ∉ t) ts.

Lemma binary_false o t u v :
  all_text o [t; u; v] -> negb (sm_text o) && (binary t || binary u || binary v) = false.
Proof.
  intros [->|HF]; [done|]. rewrite !Forall_cons in HF. destruct HF as (? & ? & ? & _).
  unfold binary. rewrite !bool_decide_false by done. by rewrite andb_comm.
Qed.

Lemma simplemerge_clean p q local base_ other o out :
  clean_labels o -> all_text o [local; base_; other] ->
  (forall mo, merge_lines (init base_ local other) mo = Ok (splitnewlines out, 0)) ->
  simplemerge p q local base_ other o = Ok (None, Some out).
Proof.
  intros Hl Ht Hm. unfold simplemerge, clean_labels in *.
  destruct (sm_mode o); [unfold picklabels; rewrite decide_False by lia|]; cbn [rbind];
    rewrite (binary_false o _ _ _ Ht), Hm; cbn [rbind]; by rewrite splitnewlines_concat.
Qed.

(** Merging a change with itself gives the changed text: when both sides
    are equal, [simplemerge] reports no conflict and writes that text, for
    every base and every option. *)
Theorem simplemerge_same_change (p q base_ t : bytes) (o : simplemerge_opts) :
  clean_labels o -> all_text o [t; base_; t] ->
  simplemerge p q t base_ t o = Ok (None, Some t).
Proof.
  intros Hl Ht. apply simplemerge_clean; auto. intros mo.
  destruct (merge_regions_ok (fun z a c => a = c) base_ t t) as (rs & E & Hc); auto.
  { eapply pairs_ok_diagonal. apply get_matching_blocks_matching. }
  destruct (covers_same_change (init base_ t t) 0 0 0 rs NoSide eq_refl ltac:(lia) Hc) as [Hs Hn].
  rewrite (merge_lines_clean base_ t t mo rs) by
    (auto; by eapply (covers_in_range (init base_ t t)); [..|exact Hc]).
  rewrite Hs. simpl. by rewrite slice_full.
Qed.

(** Merging with an unchanged side gives the other side: when the local
    (or the other) text is the base text and its matching blocks lie on the
    diagonal, [simplemerge] reports no conflict and writes the text of the
    side that changed. *)
Theorem simplemerge_unchanged_side (p q t v : bytes) (o : simplemerge_opts) :
  clean_labels o -> all_text o [t; t; v] ->
  Forall (fun '(i, j, n) => i = j) (get_matching_blocks t t) ->
  simplemerge p q t t v o = Ok (None, Some v) /\
  simplemerge p q v t t o = Ok (None, Some v).
Proof.
  intros Hl Ht Hd. split; apply simplemerge_clean; auto.
  - intros mo. destruct (merge_regions_ok (fun z a c => a = z) t t v) as (rs & E & Hc); auto.
    { apply pairs_ok_any. eapply Forall_impl; [exact Hd|]. intros [[i j] n] ->.
      apply Forall_forall. intros [[i' j'] n'] _ x. lia. }
    destruct (covers_a_unchanged (init t t v) 0 0 0 rs NoSide eq_refl ltac:(lia) Hc) as [Hs Hn].
    rewrite (merge_lines_clean t t v mo rs) by
      (auto; by eapply (covers_in_range (init t t v)); [..|exact Hc]).
    rewrite Hs. simpl. by rewrite slice_full.
  - destruct Ht as [Ht|Ht]; [by left|right]. rewrite !Forall_cons in *. tauto.
  - intros mo. destruct (merge_regions_ok (fun z a c => c = z) t v t) as (rs & E & Hc); auto.
    { apply pairs_ok_any. apply Forall_forall. intros [[i j] n] _.
      eapply Forall_impl; [exact Hd|]. intros [[i' j'] n'] -> x. lia. }
    destruct (covers_b_unchanged (init t v t) 0 0 0 rs NoSide eq_refl ltac:(lia) Hc) as [Hs Hn].
    rewrite (merge_lines_clean t v t mo rs) by
      (auto; by eapply (covers_in_range (init t v t)); [..|exact Hc]).
    rewrite Hs. simpl. by rewrite slice_full.
Qed.
End theorems.

(** ** Minimized conflicts *)

Section minimize_proofs.
Variable m : Merge3Text.

Lemma match_loop_front fuel a1 b1 alen blen ii :
  0 <= a1 -> 0 <= b1 -> 0 <= ii -> a1 + alen <= zlen (a_ m) -> b1 + blen <= zlen (b_ m) ->
  ii <= alen -> ii <= blen -> (Z.to_nat (alen - ii) < fuel)%nat ->
  slice (a_ m) a1 (a1 + ii) = slice (b_ m) b1 (b1 + ii) ->
  exists s, match_loop m fuel alen blen (fun ii => a1 + ii) (fun ii => b1 + ii) ii = Ok s /\
    0 <= s <= alen /\ s <= blen /\ slice (a_ m) a1 (a1 + s) = slice (b_ m) b1 (b1 + s).
Proof.
  revert ii. induction fuel as [|fuel IH]; intros ii Ha Hb Hi La Lb Hia Hib Hf E; [lia|].
  cbn [match_loop]. case_decide as Hc; [|exists ii; split_and!; [done|lia..|done]].
  destruct (getitem_ok (a_ m) (a1 + ii)) as [x Hx]; [lia|].
  destruct (getitem_ok (b_ m) (b1 + ii)) as [y Hy]; [lia|].
  rewrite Hx, Hy. cbn [rbind]. case_decide as Hxy; [|exists ii; split_and!; [done|lia..|done]].
  subst y. apply IH; auto; try lia. by apply (Bdiff.slice_snoc_eq _ _ _ _ _ x).
Qed.

Lemma match_loop_back fuel a2 b2 alen blen ii :
  alen <= a2 -> blen <= b2 -> 0 <= ii -> a2 <= zlen (a_ m) -> b2 <= zlen (b_ m) ->
  ii <= alen -> ii <= blen -> (Z.to_nat (alen - ii) < fuel)%nat ->
  slice (a_ m) (a2 - ii) a2 = slice (b_ m) (b2 - ii) b2 ->
  exists e, match_loop m fuel alen blen (fun ii => a2 - ii - 1) (fun ii => b2 - ii - 1) ii = Ok e /\
    0 <= e <= alen /\ e <= blen /\ slice (a_ m) (a2 - e) a2 = slice (b_ m) (b2 - e) b2.
Proof.
  revert ii. induction fuel as [|fuel IH]; intros ii Ha Hb Hi La Lb Hia Hib Hf E; [lia|].
  cbn [match_loop]. case_decide as Hc; [|exists ii; split_and!; [done|lia..|done]].
  destruct (getitem_ok (a_ m) (a2 - ii - 1)) as [x Hx]; [lia|].
  destruct (getitem_ok (b_ m) (b2 - ii - 1)) as [y Hy]; [lia|].
  rewrite Hx, Hy. cbn [rbind]. case_decide as Hxy; [|exists ii; split_and!; [done|lia..|done]].
  subst y. apply IH; auto; try lia.
  replace (a2 - (ii + 1)) with (a2 - ii - 1) by lia. replace (b2 - (ii + 1)) with (b2 - ii - 1) by lia.
  rewrite (slice_cons _ _ _ x), (slice_cons (b_ m) _ _ x) by (lia || done).
  replace (a2 - ii - 1 + 1) with (a2 - ii) by lia. replace (b2 - ii - 1 + 1) with (b2 - ii) by lia.
  by rewrite E.
Qed.

(** The numbers of lines trimmed at the front and at the end of a conflict
    overlap when together they exceed one of its sides. *)
Definition overlaps (r : region) : Prop :=
  match r with
  | Conflict z1 z2 a1 a2 b1 b2 =>
      match match_loop m (S (Z.to_nat (a2 - a1))) (a2 - a1) (b2 - b1) (fun ii => a1 + ii) (fun ii => b1 + ii) 0,
            match_loop m (S (Z.to_nat (a2 - a1))) (a2 - a1) (b2 - b1) (fun ii => a2 - ii - 1) (fun ii => b2 - ii - 1) 0 with
      | Ok s, Ok e => a2 - a1 < s + e \/ b2 - b1 < s + e
      | _, _ => False
      end
  | _ => False
  end.

Lemma same_piece (n i j : Z) sd :
  concat (map (resolved m sd) (if decide (n > 0) then [Same i j] else []))
  = if decide (n > 0) then slice (a_ m) i j else [].
Proof. case_decide; simpl; [by rewrite app_nil_r|done]. Qed.

Lemma count_conflicts_app o rs1 rs2 :
  count_conflicts o (rs1 ++ rs2) = count_conflicts o rs1 + count_conflicts o rs2.
Proof.
  unfold count_conflicts. destruct (localorother o); [|done..].
  rewrite filter_app, length_app. lia.
Qed.

Lemma minimize_region_ok r :
  in_range m r ->
  exists rs', minimize_region m r = Ok rs' /\
    (forall o, count_conflicts o rs' = count_conflicts o [r]) /\
    (~ overlaps r -> forall sd, concat (map (resolved m sd) rs') = resolved m sd r).
Proof.
  destruct r as [s e|s e|s e|s e|z1 z2 a1 a2 b1 b2]; intros Hr; simpl in Hr.
  1-4: eexists; split; [reflexivity|]; split; [done|]; intros _ sd; simpl; by rewrite app_nil_r.
  destruct (match_loop_front (S (Z.to_nat (a2 - a1))) a1 b1 (a2 - a1) (b2 - b1) 0)
    as (s & Es & Hs1 & Hs2 & Hs); try lia; [by rewrite !slice_nil by lia|].
  destruct (match_loop_back (S (Z.to_nat (a2 - a1))) a2 b2 (a2 - a1) (b2 - b1) 0)
    as (e & Ee & He1 & He2 & He); try lia; [by rewrite !slice_nil by lia|].
  unfold minimize_region, overlaps. rewrite Es, Ee. cbn [rbind].
  eexists. split; [reflexivity|]. split.
  - intros o. rewrite !count_conflicts_app. unfold count_conflicts.
    destruct (localorother o); repeat case_decide; simpl; lia.
  - intros Hno sd. rewrite !map_app, !concat_app, !same_piece. simpl. rewrite app_nil_r.
    assert ((if decide (s > 0) then slice (a_ m) a1 (a1 + s) else []) = slice (a_ m) a1 (a1 + s)) as ->
      by (case_decide; [done|by rewrite slice_nil by lia]).
    assert ((if decide (e > 0) then slice (a_ m) (a2 - e) a2 else []) = slice (a_ m) (a2 - e) a2) as ->
      by (case_decide; [done|by rewrite slice_nil by lia]).
    assert (slice (a_ m) a1 (a1 + s) ++ slice (a_ m) (a1 + s) (a2 - e) ++ slice (a_ m) (a2 - e) a2
            = slice (a_ m) a1 a2) as Hla by (rewrite <- !slice_app by lia; done).
    assert (slice (b_ m) b1 (b1 + s) ++ slice (b_ m) (b1 + s) (b2 - e) ++ slice (b_ m) (b2 - e) b2
            = slice (b_ m) b1 b2) as Hlb by (rewrite <- !slice_app by lia; done).
    destruct sd; [done|done|]. by rewrite Hs, He.
Qed.

Lemma minimize_ok rs :
  Forall (in_range m) rs ->
  exists rs', minimize m rs = Ok rs' /\
    (forall o, count_conflicts o rs' = count_conflicts o rs) /\
    (Forall (fun r => ~ overlaps r) rs ->
     forall sd, concat (map (resolved m sd) rs') = concat (map (resolved m sd) rs)).
Proof.
  induction 1 as [|r rs Hr HF (rs' & E & Hcount & Htext)]; [by exists []|].
  destruct (minimize_region_ok r Hr) as (r' & Er & Hcr & Htr).
  cbn [minimize]. rewrite Er, E. cbn [rbind]. exists (r' ++ rs'). split_and!; [done|..].
  - intros o. rewrite count_conflicts_app, Hcount, Hcr. by rewrite <- count_conflicts_app.
  - intros [Hno Hnos]%Forall_cons sd. rewrite map_app, concat_app, Htext, Htr by done. done.
Qed.
End minimize_proofs.

(** Minimizing conflicts never fails, keeps the number of conflicts, and
    changes neither side of the result as long as the lines trimmed at the two
    ends of each conflict do not overlap. *)
Theorem minimize_preserves `{!LineMatcher} (t u v : bytes) :
  let m := init t u v in
  exists rs rs',
    merge_regions m = Ok rs /\ minimize m rs = Ok rs' /\
    (forall o, count_conflicts o rs' = count_conflicts o rs) /\
    (Forall (fun r => ~ overlaps m r) rs ->
     forall sd, concat (map (resolved m sd) rs') = concat (map (resolved m sd) rs)).
Proof.
  intros m. destruct (merge_regions_ok (fun _ _ _ => True) t u v) as (rs & E & Hc); auto.
  { apply pairs_ok_any. apply Forall_forall. intros [[? ?] ?] _. by apply Forall_forall; intros [[? ?] ?]. }
  destruct (minimize_ok m rs) as (rs' & ? & ? & ?); [|by exists rs, rs'].
  by eapply (covers_in_range (init t u v)); [..|exact Hc].
Qed.

(** ** Examples *)

Definition text (ls : list string) : bytes := concat (map (fun s => bs s ++ [newline]) ls).

#[local] Existing Instance Bdiff.prefix_matcher.

Definition plain_opts : simplemerge_opts := SMOpts ModeMerge [] false NoSide.

(** A conflict, as it is printed. *)
Example conflict_example :
  simplemerge (bs "f") (bs "g") (text ["a"; "x"]) (text ["a"; "b"]) (text ["a"; "y"]) plain_opts
  = Ok (Some 1, Some (text ["a"; "<<<<<<< f"; "x"; "======="; "y"; ">>>>>>> g"])).
Proof. vm_compute. reflexivity. Qed.

Lemma merge_regions_correct_witness :
  merge_regions (init (text ["a"; "b"]) (text ["a"; "x"]) (text ["a"; "y"]))
  = Ok [Unchanged 0 1; Conflict 1 2 1 2 1 2] /\
  exists rs,
    merge_regions (init (text ["a"; "b"]) (text ["a"; "x"]) (text ["a"; "y"])) = Ok rs /\
    covers (init (text ["a"; "b"]) (text ["a"; "x"]) (text ["a"; "y"])) (fun _ _ _ => True) 0 0 0 rs /\
    (false = false ->
     merge_lines (init (text ["a"; "b"]) (text ["a"; "x"]) (text ["a"; "y"])) default_opts
     = Ok (concat (map (rendered (init (text ["a"; "b"]) (text ["a"; "x"]) (text ["a"; "y"])) default_opts) rs),
           count_conflicts default_opts rs)).
Proof.
  split; [vm_compute; reflexivity|].
  exact (merge_regions_correct (text ["a"; "b"]) (text ["a"; "x"]) (text ["a"; "y"]) default_opts).
Defined.

Lemma minimize_preserves_witness :
  exists rs rs',
    merge_regions (init (text ["a"]) (text ["x"; "p"]) (text ["x"; "q"])) = Ok rs /\
    minimize (init (text ["a"]) (text ["x"; "p"]) (text ["x"; "q"])) rs = Ok rs' /\
    (forall o, count_conflicts o rs' = count_conflicts o rs) /\
    (Forall (fun r => ~ overlaps (init (text ["a"]) (text ["x"; "p"]) (text ["x"; "q"])) r) rs ->
     forall sd, concat (map (resolved (init (text ["a"]) (text ["x"; "p"]) (text ["x"; "q"])) sd) rs')
              = concat (map (resolved (init (text ["a"]) (text ["x"; "p"]) (text ["x"; "q"])) sd) rs)).
Proof. exact (minimize_preserves (text ["a"]) (text ["x"; "p"]) (text ["x"; "q"])). Defined.

Lemma simplemerge_same_change_witness :
  simplemerge (bs "f") (bs "g") (text ["a"; "x"]) (text ["a"; "b"]) (text ["a"; "x"]) plain_opts
  = Ok (None, Some (text ["a"; "x"])).
Proof.
  apply (simplemerge_same_change (bs "f") (bs "g") (text ["a"; "b"]) (text ["a"; "x"]) plain_opts).
  - unfold clean_labels, zlen. simpl. lia.
  - right. apply (bool_decide_unpack _). vm_compute. exact I.
Defined.

Lemma simplemerge_unchanged_side_witness :
  simplemerge (bs "f") (bs "g") (text ["a"; "b"]) (text ["a"; "b"]) (text ["a"; "x"; "b"]) plain_opts
  = Ok (None, Some (text ["a"; "x"; "b"])) /\
  simplemerge (bs "f") (bs "g") (text ["a"; "x"; "b"]) (text ["a"; "b"]) (text ["a"; "b"]) plain_opts
  = Ok (None, Some (text ["a"; "x"; "b"])).
Proof.
  apply (simplemerge_unchanged_side (bs "f") (bs "g") (text ["a"; "b"]) (text ["a"; "x"; "b"]) plain_opts).
  - unfold clean_labels, zlen. simpl. lia.
  - right. apply (bool_decide_unpack _). vm_compute. exact I.
  - vm_compute. repeat constructor.
Defined.

(** When the trimmed lines overlap, a line is printed twice: asked for the
    local side, the merge writes a text that is not the local text, although
    the whole text is one conflict. *)
Lemma minimize_overlap_duplicates :
  merge_regions (init (text []) (text ["x"]) (text ["x"; "x"])) = Ok [Conflict 0 0 0 1 0 2] /\
  simplemerge (bs "f") (bs "g") (text ["x"]) (text []) (text ["x"; "x"])
    (SMOpts ModeMerge [] false LocalSide)
  = Ok (None, Some (text ["x"; "x"])).
Proof. split; vm_compute; reflexivity. Qed.
End SimpleMerge.
