(* ===== verification/Struct.v ===== *)
(** * Big-endian integers ([struct.pack] and [struct.unpack])

    Fixed-width two's-complement integers in network order, as the delta and
    dirstate formats use them.  Packing fails out of range as the struct
    module does. *)

From S2P Require Import Prelude Lines.

(** A byte as a number and back. *)
Definition byte (z : Z) : ascii := ascii_of_N (Z.to_N (z mod 256)).
Definition ord (c : ascii) : Z := Z.of_N (N_of_ascii c).

Lemma ord_range c : 0 <= ord c < 256.
Proof. unfold ord. pose proof (N_ascii_bounded c). lia. Qed.

Lemma ord_byte z : ord (byte z) = z mod 256.
Proof.
  unfold ord, byte. pose proof (Z.mod_pos_bound z 256 ltac:(lia)).
  rewrite N_ascii_embedding; lia.
Qed.

Lemma byte_ord c : byte (ord c) = c.
Proof.
  unfold byte. pose proof (ord_range c). rewrite Z.mod_small by lia. unfold ord.
  rewrite N2Z.id. apply ascii_N_embedding.
Qed.

(** Unsigned big-endian integers of [n] bytes. *)
Fixpoint be_encode (n : nat) (z : Z) : bytes :=
  match n with
  | O => []
  | S n => be_encode n (z / 256) ++ [byte z]
  end.

Definition be_decode (l : bytes) : Z := fold_left (fun acc c => acc * 256 + ord c) l 0.

Lemma length_be_encode n z : length (be_encode n z) = n.
Proof. revert z. induction n as [|n IH]; intros z; [done|]. simpl. rewrite length_app, IH. simpl. lia. Qed.

Lemma be_decode_snoc l c : be_decode (l ++ [c]) = be_decode l * 256 + ord c.
Proof. unfold be_decode. by rewrite fold_left_app. Qed.

Lemma be_decode_encode n z : 0 <= z < 256 ^ Z.of_nat n -> be_decode (be_encode n z) = z.
Proof.
  revert z. induction n as [|n IH]; intros z Hz.
  - simpl in *. unfold be_decode. simpl. lia.
  - simpl. rewrite be_decode_snoc, ord_byte, IH.
    + pose proof (Z.div_mod z 256). lia.
    + rewrite Nat2Z.inj_succ, Z.pow_succ_r in Hz by lia. split; [apply Z.div_pos; lia|].
      apply Z.div_lt_upper_bound; lia.
Qed.

Lemma be_decode_range l : 0 <= be_decode l < 256 ^ zlen l.
Proof.
  unfold zlen. induction l as [|c l IH] using rev_ind; [simpl; unfold be_decode; simpl; lia|].
  rewrite be_decode_snoc, length_app. simpl. pose proof (ord_range c).
  replace (Z.of_nat (length l + 1)) with (Z.succ (Z.of_nat (length l))) by lia.
  rewrite Z.pow_succ_r by lia. lia.
Qed.

Lemma be_encode_decode l : be_encode (length l) (be_decode l) = l.
Proof.
  induction l as [|c l IH] using rev_ind; [done|].
  rewrite length_app. simpl. rewrite Nat.add_1_r. simpl. rewrite be_decode_snoc.
  pose proof (ord_range c). f_equal.
  - replace ((be_decode l * 256 + ord c) / 256) with (be_decode l); [done|].
    rewrite Z.div_add_l, Z.div_small by lia. lia.
  - f_equal. unfold byte. rewrite Z.add_comm, Z_mod_plus_full, Z.mod_small by lia.
    unfold ord. rewrite N2Z.id. apply ascii_N_embedding.
Qed.

(** ** Signed 32-bit integers ("l") *)

Definition fits32 (z : Z) : Prop := -2147483648 <= z < 2147483648.

#[export] Instance fits32_dec z : Decision (fits32 z).
Proof. unfold fits32. apply _. Defined.

(** [struct.pack(">l", z)] *)
Definition pack_l (z : Z) : res bytes :=
  if decide (fits32 z) then Ok (be_encode 4 (z mod 4294967296)) else Err StructError.

Definition signed32 (u : Z) : Z := if decide (u < 2147483648) then u else u - 4294967296.

(** [struct.unpack(">l", l)] *)
Definition unpack_l (l : bytes) : res Z :=
  if decide (length l = 4%nat) then Ok (signed32 (be_decode l)) else Err StructError.

(** [struct.pack(">lll", x, y, z)] and its inverse. *)
Definition pack_lll (x y z : Z) : res bytes :=
  let* bx := pack_l x in
  let* by_ := pack_l y in
  let* bz := pack_l z in
  Ok (bx ++ by_ ++ bz).

Definition unpack_lll (l : bytes) : res (Z * Z * Z) :=
  if decide (length l = 12%nat) then
    let* x := unpack_l (take 4 l) in
    let* y := unpack_l (take 4 (drop 4 l)) in
    let* z := unpack_l (drop 8 l) in
    Ok (x, y, z)
  else Err StructError.

Lemma signed32_mod z : fits32 z -> signed32 (z mod 4294967296) = z.
Proof.
  unfold fits32, signed32. intros Hz. destruct (decide (0 <= z)).
  - rewrite Z.mod_small by lia. case_decide; lia.
  - replace (z mod 4294967296) with (z + 4294967296).
    + case_decide; lia.
    + rewrite <- (Z_mod_plus_full z 1), Z.mod_small by lia. lia.
Qed.

Lemma pack_l_ok z : fits32 z -> exists l, pack_l z = Ok l /\ length l = 4%nat /\ unpack_l l = Ok z.
Proof.
  intros Hz. unfold pack_l. rewrite decide_True by done. eexists. split; [reflexivity|].
  split; [apply length_be_encode|]. unfold unpack_l. rewrite decide_True by apply length_be_encode.
  f_equal. rewrite be_decode_encode; [by apply signed32_mod|].
  change (256 ^ Z.of_nat 4) with 4294967296. apply Z.mod_pos_bound. lia.
Qed.

Lemma pack_lll_ok x y z :
  fits32 x -> fits32 y -> fits32 z ->
  exists l, pack_lll x y z = Ok l /\ length l = 12%nat /\ unpack_lll l = Ok (x, y, z).
Proof.
  intros Hx Hy Hz. destruct (pack_l_ok x Hx) as (lx & Ex & Lx & Ux).
  destruct (pack_l_ok y Hy) as (ly & Ey & Ly & Uy). destruct (pack_l_ok z Hz) as (lz & Ez & Lz & Uz).
  exists (lx ++ ly ++ lz). unfold pack_lll. rewrite Ex, Ey, Ez. cbn [rbind]. split; [done|].
  assert (length (lx ++ ly ++ lz) = 12%nat) as Hl by (rewrite !length_app; lia). split; [done|].
  unfold unpack_lll. rewrite decide_True by done.
  rewrite take_app_length' by done. rewrite Ux. cbn [rbind].
  rewrite drop_app_length' by done. rewrite take_app_length' by done. rewrite Uy. cbn [rbind].
  replace (drop 8 (lx ++ ly ++ lz)) with lz; [by rewrite Uz|].
  rewrite (assoc_L (++)). rewrite drop_app_length'; [done|]. rewrite length_app. lia.
Qed.

(** ** Unsigned integers ("I", "Q") and fixed-size strings ("20s") *)

(** [struct.pack] of an unsigned integer of [n] bytes. *)
Definition pack_u (n : nat) (z : Z) : res bytes :=
  if decide (0 <= z < 256 ^ Z.of_nat n) then Ok (be_encode n z) else Err StructError.

Definition unpack_u (n : nat) (l : bytes) : res Z :=
  if decide (length l = n) then Ok (be_decode l) else Err StructError.

(** Padded with zero bytes, or cut. *)
Definition pack_s (n : nat) (l : bytes) : bytes := take n (l ++ replicate n (byte 0)).

Lemma pack_u_ok n z :
  0 <= z < 256 ^ Z.of_nat n -> exists l, pack_u n z = Ok l /\ length l = n /\ unpack_u n l = Ok z.
Proof.
  intros Hz. unfold pack_u. rewrite decide_True by done. eexists. split; [done|].
  rewrite length_be_encode. split; [done|]. unfold unpack_u.
  rewrite decide_True by apply length_be_encode. by rewrite be_decode_encode.
Qed.

Lemma length_pack_s n l : length (pack_s n l) = n.
Proof. unfold pack_s. rewrite length_take, length_app, length_replicate. lia. Qed.

Lemma pack_s_exact n l : length l = n -> pack_s n l = l.
Proof. intros <-. unfold pack_s. by rewrite take_app_length. Qed.

Lemma pack_l_cases z : (fits32 z /\ exists l, pack_l z = Ok l) \/ (~ fits32 z /\ pack_l z = Err StructError).
Proof. unfold pack_l. destruct (decide (fits32 z)); [left|right]; split; try done. by eexists. Qed.
