(* ===== verification/Mpatch.v ===== *)
(** * Applying deltas (pure/mpatch.py) and computing them (bdiff of pure/bdiff.py)

    [patches] applies a sequence of binary deltas to a text without copying
    it for each delta: it keeps a list of fragments, pointers into one buffer
    that holds the text, a second working area and the deltas, and executes the
    list only when it gets long.  The file proves that this is equivalent to
    applying the hunks one delta after the other, and that a delta computed by
    [bdiff] turns the one text into the other.

    A Python list used as a stack is represented with its top first, so the
    fragment list is in text order. *)

From S2P Require Import Prelude Lines Bdiff Struct.

Module Mpatch.

Notation frag := (Z * Z)%type.   (* (length, position) *)

(** ** The buffer *)

Definition zero : ascii := "000"%char.

(** [m.seek(pos); m.read(count)]: a negative count reads up to the end. *)
Definition mem_read (m : bytes) (pos count : Z) : bytes := slice m pos (if decide (count < 0) then zlen m else pos + count).

Lemma mem_read_slice m pos count : 0 <= count -> mem_read m pos count = slice m pos (pos + count).
Proof. intros Hc. unfold mem_read. by rewrite decide_False by lia. Qed.

(** [m.seek(pos); m.write(buf)]: a gap before [pos] is filled with zeros. *)
Definition mem_write (m : bytes) (pos : Z) (buf : bytes) : bytes :=
  take (Z.to_nat pos) (m ++ replicate (Z.to_nat (pos - zlen m)) zero) ++ buf ++
  drop (Z.to_nat (pos + zlen buf)) m.

(** ** Fragments *)

(** [_pull] *)
Fixpoint pull (dst src : list frag) (l : Z) : res (list frag * list frag) :=
  if decide (l = 0) then Ok (dst, src)
  else
    match src with
    | [] => Err IndexError
    | f :: src =>
        if decide (f.1 > l) then Ok (dst ++ [(l, f.2)], (f.1 - l, f.2 + l) :: src)
        else pull (dst ++ [f]) src (l - f.1)
    end.

(** [_collect], with the [_move]s *)
Fixpoint collect_loop (m : bytes) (buf : Z) (list : list frag) : bytes * Z :=
  match list with
  | [] => (m, buf)
  | (l, p) :: list => collect_loop (mem_write m buf (mem_read m p l)) (buf + l) list
  end.

Definition collect (m : bytes) (buf : Z) (list : list frag) : bytes * frag :=
  let start := buf in
  let '(m, buf) := collect_loop m buf list in
  (m, (buf - start, start)).

(** ** [patches] *)

(** The loop over the hunks of one delta. *)
Fixpoint hunks_loop (fuel : nat) (m : bytes) (pos end_ last : Z) (new frags : list frag) :
    res (Z * list frag * list frag) :=
  match fuel with
  | O => Err OutOfFuel
  | S fuel =>
      if decide (pos < end_) then
        match unpack_lll (mem_read m pos 12) with
        | Err _ => Err (DecodeError "patch cannot be decoded")
        | Ok (p1, p2, l) =>
            let* (new, frags) := pull new frags (p1 - last) in
            let* (_, frags) := pull [] frags (p2 - p1) in
            hunks_loop fuel m (pos + l + 12) end_ p2 (new ++ [(l, pos + 12)]) frags
        end
      else Ok (pos, new, frags)
  end.

(** The loop over the deltas. *)
Fixpoint patches_loop (m : bytes) (b1 b2 pos : Z) (frags : list frag) (plens : list Z) :
    res (bytes * Z * list frag) :=
  match plens with
  | [] => Ok (m, b2, frags)
  | plen :: plens =>
      let '(m, b1, b2, frags) :=
        if decide (zlen frags > 128) then
          let '(m, f) := collect m b2 frags in (m, b2, b1, [f])
        else (m, b1, b2, frags) in
      let* (pos, new, frags) :=
        hunks_loop (S (Z.to_nat plen)) m pos (pos + plen) 0 [] frags in
      patches_loop m b1 b2 pos (new ++ frags) plens
  end.

Definition patches (a : bytes) (bins : list bytes) : res bytes :=
  match bins with
  | [] => Ok a
  | _ =>
      let plens := map zlen bins in
      let pl := foldr Z.add 0 plens in
      let bl := zlen a + pl in
      let tl := bl + bl + pl in
      if decide (tl = 0) then Ok a
      else
        let pos := bl + bl in
        let m := mem_write a pos (concat bins) in
        let* (m, b2, frags) := patches_loop m 0 bl pos [(zlen a, 0)] plens in
        let '(m, t) := collect m b2 frags in
        Ok (mem_read m t.2 t.1)
  end.

(** [patchedsize] *)
Fixpoint size_loop (fuel : nat) (delta : bytes) (bin data last outlen : Z) : res (Z * Z * Z) :=
  match fuel with
  | O => Err OutOfFuel
  | S fuel =>
      if decide (data <= zlen delta) then
        match unpack_lll (slice delta bin (bin + 12)) with
        | Err e => Err e
        | Ok (start, end_, length) =>
            if decide (start > end_) then Ok (bin, last, outlen)
            else size_loop fuel delta (data + length) (data + length + 12) end_
                   (outlen + (start - last) + length)
        end
      else Ok (bin, last, outlen)
  end.

Definition patchedsize (orig : Z) (delta : bytes) : res Z :=
  let* (bin, last, outlen) := size_loop (S (length delta)) delta 0 12 0 0 in
  if decide (bin = zlen delta) then Ok (outlen + (orig - last))
  else Err (DecodeError "patch cannot be decoded").

(** ** Reference semantics *)

(** A hunk replaces the bytes from [p1] to [p2] by [data]. *)
Record hunk := Hunk { p1 : Z; p2 : Z; data : bytes }.

Fixpoint apply_from (text : bytes) (last : Z) (hs : list hunk) : bytes :=
  match hs with
  | [] => slice text last (zlen text)
  | h :: hs => slice text last (p1 h) ++ data h ++ apply_from text (p2 h) hs
  end.

Definition apply (text : bytes) (hs : list hunk) : bytes := apply_from text 0 hs.

Fixpoint valid_from (n last : Z) (hs : list hunk) : Prop :=
  match hs with
  | [] => last <= n
  | h :: hs =>
      last <= p1 h <= p2 h /\ p2 h <= n /\
      fits32 (p1 h) /\ fits32 (p2 h) /\ fits32 (zlen (data h)) /\ valid_from n (p2 h) hs
  end.

(** The bytes of a hunk and of a delta. *)
Definition encode_hunk (h : hunk) : bytes :=
  match pack_lll (p1 h) (p2 h) (zlen (data h)) with Ok l => l ++ data h | Err _ => [] end.

Definition encode (hs : list hunk) : bytes := concat (map encode_hunk hs).

(** Deltas for a text, each for the result of the one before. *)
Fixpoint valid_deltas (text : bytes) (ds : list (list hunk)) : Prop :=
  match ds with
  | [] => True
  | hs :: ds => valid_from (zlen text) 0 hs /\ valid_deltas (apply text hs) ds
  end.

Example patches_example :
  patches (bs "hello world") [encode [Hunk 0 1 (bs "J"); Hunk 5 11 (bs "!")]; encode [Hunk 1 2 (bs "i")]]
  = Ok (bs "Jillo!").
Proof. vm_compute. reflexivity. Qed.

(** ** The buffer *)

Lemma slice_slice_app3 {A} (x y z : list A) i j :
  (0 <= i -> j <= zlen x -> slice (x ++ y ++ z) i j = slice x i j) /\
  slice (x ++ y ++ z) (zlen x) (zlen x + zlen y) = y.
Proof.
  split; [apply slice_app_l|]. rewrite slice_app_r by lia.
  rewrite slice_app_l by lia. rewrite Z.sub_diag, Z.add_simpl_l. apply slice_full.
Qed.

Lemma slice_take {A} (l : list A) n i j : 0 <= i -> j <= n -> slice (take (Z.to_nat n) l) i j = slice l i j.
Proof.
  intros Hi Hj. unfold slice. destruct (decide (i <= j)) as [Hij|Hij].
  - rewrite skipn_firstn_comm, take_take. f_equal. lia.
  - by replace (Z.to_nat (j - i)) with O by lia.
Qed.

Lemma zlen_take {A} (l : list A) n : 0 <= n <= zlen l -> zlen (take (Z.to_nat n) l) = n.
Proof. unfold zlen. intros. rewrite length_take. lia. Qed.

Section mem_write.
Variables (m : bytes) (pos : Z) (buf : bytes).
Hypothesis Hpos : 0 <= pos.
Hypothesis Hfit : pos + zlen buf <= zlen m.

Lemma mem_write_split :
  mem_write m pos buf = take (Z.to_nat pos) m ++ buf ++ drop (Z.to_nat (pos + zlen buf)) m.
Proof.
  unfold mem_write. pose proof (zlen_nonneg buf).
  replace (Z.to_nat (pos - zlen m)) with O by lia. simpl. by rewrite app_nil_r.
Qed.

Lemma mem_write_len : zlen (mem_write m pos buf) = zlen m.
Proof.
  rewrite mem_write_split, !zlen_app. pose proof (zlen_nonneg buf). rewrite zlen_take by lia.
  unfold zlen in *. rewrite length_drop. lia.
Qed.

Lemma mem_write_same : slice (mem_write m pos buf) pos (pos + zlen buf) = buf.
Proof.
  rewrite mem_write_split. pose proof (zlen_nonneg buf).
  assert (zlen (take (Z.to_nat pos) m) = pos) as E by (apply zlen_take; lia).
  rewrite <- E at 3 4. apply (proj2 (slice_slice_app3 _ _ _ 0 0)).
Qed.

Lemma mem_write_before i j : 0 <= i -> j <= pos -> slice (mem_write m pos buf) i j = slice m i j.
Proof.
  intros. rewrite mem_write_split. pose proof (zlen_nonneg buf).
  rewrite slice_app_l; [apply slice_take; lia|lia|]. rewrite zlen_take; lia.
Qed.

Lemma mem_write_after i j : pos + zlen buf <= i -> slice (mem_write m pos buf) i j = slice m i j.
Proof.
  intros. rewrite mem_write_split. pose proof (zlen_nonneg buf).
  rewrite (assoc_L (++)), slice_app_r; rewrite zlen_app, zlen_take by lia; [|lia].
  unfold slice. rewrite drop_drop. f_equal; [lia|f_equal; lia].
Qed.
End mem_write.

(** ** Contents of fragment lists *)

Definition content (m : bytes) (fr : list frag) : bytes :=
  concat (map (fun f => slice m f.2 (f.2 + f.1)) fr).

Lemma content_app m fr1 fr2 : content m (fr1 ++ fr2) = content m fr1 ++ content m fr2.
Proof. unfold content. by rewrite map_app, concat_app. Qed.

Section regions.
Variables (m : bytes) (b1 bl pl : Z).

(** A fragment lies in the working area [b1] or in the area of the deltas. *)
Definition frag_ok (f : frag) : Prop :=
  0 <= f.1 /\ ((b1 <= f.2 /\ f.2 + f.1 <= b1 + bl) \/ (bl + bl <= f.2 /\ f.2 + f.1 <= bl + bl + pl)).

Hypothesis Hb1 : b1 = 0 \/ b1 = bl.
Hypothesis Hbl : 0 <= bl.
Hypothesis Hpl : 0 <= pl.
Hypothesis Hm : zlen m = bl + bl + pl.

Lemma frag_ok_range f : frag_ok f -> 0 <= f.2 /\ f.2 + f.1 <= zlen m.
Proof. unfold frag_ok. lia. Qed.

Lemma zlen_content_cons f fr : frag_ok f -> zlen (content m (f :: fr)) = f.1 + zlen (content m fr).
Proof.
  intros Hf. unfold content. simpl. rewrite zlen_app. apply frag_ok_range in Hf as H.
  rewrite zlen_slice; [lia|unfold frag_ok in Hf; lia|lia].
Qed.

(** [_pull] moves the first [l] bytes. *)
Lemma pull_spec dst src l :
  Forall frag_ok src -> 0 <= l <= zlen (content m src) ->
  exists d src', pull dst src l = Ok (dst ++ d, src') /\ Forall frag_ok d /\ Forall frag_ok src' /\
    content m d = slice (content m src) 0 l /\
    content m src' = slice (content m src) l (zlen (content m src)).
Proof.
  revert dst l. induction src as [|f src IH]; intros dst l HF Hl.
  - assert (l = 0) as -> by (unfold content, zlen in Hl; simpl in Hl; lia).
    exists [], []. simpl. rewrite app_nil_r. by split_and!.
  - apply Forall_cons in HF as [Hf HF]. pose proof (zlen_content_cons f src Hf) as Hlen.
    pose proof (frag_ok_range f Hf) as Hrange. pose proof (zlen_nonneg (content m src)) as Hnn.
    assert (zlen (slice m f.2 (f.2 + f.1)) = f.1) as Hfl
      by (rewrite zlen_slice; unfold frag_ok in Hf; lia).
    cbn [pull]. case_decide as H0.
    { subst. exists [], (f :: src). rewrite app_nil_r. split_and!; auto. by rewrite slice_full. }
    change (content m (f :: src)) with (slice m f.2 (f.2 + f.1) ++ content m src) in *.
    case_decide as Hsplit.
    + exists [(l, f.2)], ((f.1 - l, f.2 + l) :: src). unfold frag_ok in Hf. split_and!; auto.
      * apply Forall_singleton. unfold frag_ok. simpl. lia.
      * constructor; [unfold frag_ok; simpl; lia|done].
      * rewrite slice_app_l by lia. rewrite slice_sub by lia. unfold content. simpl.
        rewrite app_nil_r. f_equal. lia.
      * rewrite (slice_app _ l f.1) by lia. rewrite slice_app_l by lia. rewrite slice_sub by lia.
        rewrite slice_app_r by lia. rewrite Hfl, Z.sub_diag, zlen_app, Hfl, Z.add_simpl_l, slice_full.
        unfold content. simpl. f_equal. f_equal; lia.
    + destruct (IH (dst ++ [f]) (l - f.1) HF) as (d & src' & E & Hd & Hs & Cd & Cs); [lia|].
      exists (f :: d), src'. split_and!; auto.
      * rewrite E. by rewrite <- (assoc_L (++)).
      * change (content m (f :: d)) with (slice m f.2 (f.2 + f.1) ++ content m d).
        rewrite (slice_app _ 0 f.1) by (unfold frag_ok in Hf; lia).
        rewrite slice_app_l, slice_app_r, Hfl, Z.sub_diag, Cd by lia. f_equal.
        rewrite <- Hfl at 3. by rewrite slice_full.
      * rewrite slice_app_r by lia. rewrite Cs, Hfl, zlen_app, Hfl. by rewrite Z.add_simpl_l.
Qed.
End regions.

(** The two working areas: [b1] in use, [d] free. *)
Definition areas (b1 d bl : Z) : Prop := (d = 0 /\ b1 = bl) \/ (d = bl /\ b1 = 0).

Lemma content_ext b1 bl pl m m' fr :
  Forall (frag_ok b1 bl pl) fr ->
  (forall f, frag_ok b1 bl pl f -> slice m' f.2 (f.2 + f.1) = slice m f.2 (f.2 + f.1)) ->
  content m' fr = content m fr.
Proof.
  intros HF He. unfold content. f_equal. apply map_ext_Forall.
  eapply Forall_impl; [exact HF|]. intros f Hf. by apply He.
Qed.

Lemma collect_loop_spec b1 d bl pl m buf fr :
  areas b1 d bl -> 0 <= bl -> 0 <= pl -> zlen m = bl + bl + pl ->
  Forall (frag_ok b1 bl pl) fr -> d <= buf -> buf + zlen (content m fr) <= d + bl ->
  let '(m', buf') := collect_loop m buf fr in
  buf' = buf + zlen (content m fr) /\ zlen m' = zlen m /\ slice m' buf buf' = content m fr /\
  (forall i j, 0 <= i -> j <= buf -> slice m' i j = slice m i j) /\
  (forall i j, d + bl <= i -> slice m' i j = slice m i j).
Proof.
  intros Hareas Hbl Hpl. revert m buf.
  induction fr as [|[l p] fr IH]; intros m buf Hm HF Hd Hfit; cbn [collect_loop].
  { unfold content, zlen in *. simpl. split_and!; auto; [lia|by rewrite slice_nil by lia]. }
  apply Forall_cons in HF as [Hf HF]. assert (b1 = 0 \/ b1 = bl) as Hb1 by (unfold areas in *; lia).
  pose proof (zlen_content_cons m b1 bl pl Hb1 Hbl Hpl Hm (l, p) fr Hf) as Hlen.
  pose proof (frag_ok_range m b1 bl pl Hb1 Hbl Hpl Hm (l, p) Hf) as Hrange.
  pose proof (zlen_nonneg (content m fr)) as Hnn. simpl in Hlen, Hrange.
  set (w := mem_read m p l) in *.
  assert (zlen w = l) as Hw by (unfold w; rewrite mem_read_slice by (unfold frag_ok in Hf; simpl in Hf; lia); rewrite zlen_slice; unfold frag_ok in Hf; simpl in Hf; lia).
  assert (zlen w >= 0) as Hw0 by (pose proof (zlen_nonneg w); lia).
  assert (0 <= buf /\ buf + zlen w <= zlen m) as [Hb0 Hbw] by (unfold areas in *; lia).
  set (m1 := mem_write m buf w).
  assert (content m1 fr = content m fr) as Hc.
  { apply (content_ext b1 bl pl); [done|]. intros f Hf'. unfold frag_ok, areas in *.
    destruct (decide (f.2 + f.1 <= buf)); [apply mem_write_before; lia|].
    apply mem_write_after; lia. }
  specialize (IH m1 (buf + l)). destruct (collect_loop m1 (buf + l) fr) as [m' buf'].
  destruct IH as (Eb & El & Es & Hbefore & Hafter).
  - unfold m1. rewrite mem_write_len; lia.
  - done.
  - lia.
  - rewrite Hc. lia.
  - rewrite Hc in *. split_and!.
    + lia.
    + rewrite El. unfold m1. apply mem_write_len; lia.
    + rewrite (slice_app m' buf (buf + l)) by lia. rewrite Es, Hbefore by lia.
      change (content m ((l, p) :: fr)) with (slice m p (p + l) ++ content m fr).
      assert (w = slice m p (p + l)) as <- by (apply mem_read_slice; unfold frag_ok in Hf; simpl in Hf; lia).
      f_equal. unfold m1. rewrite <- Hw at 1. by rewrite mem_write_same by lia.
    + intros i j Hi Hj. rewrite Hbefore by lia. unfold m1. apply mem_write_before; lia.
    + intros i j Hi. rewrite Hafter by lia. unfold m1. apply mem_write_after; lia.
Qed.

Lemma collect_spec b1 d bl pl m fr :
  areas b1 d bl -> 0 <= bl -> 0 <= pl -> zlen m = bl + bl + pl ->
  Forall (frag_ok b1 bl pl) fr -> zlen (content m fr) <= bl ->
  exists m', collect m d fr = (m', (zlen (content m fr), d)) /\ zlen m' = zlen m /\
    slice m' d (d + zlen (content m fr)) = content m fr /\
    (forall i j, bl + bl <= i -> slice m' i j = slice m i j).
Proof.
  intros Ha Hbl Hpl Hm HF Hfit.
  pose proof (collect_loop_spec b1 d bl pl m d fr Ha Hbl Hpl Hm HF) as H.
  unfold collect. destruct (collect_loop m d fr) as [m' buf'].
  destruct H as (-> & El & Es & _ & Haft); [lia..|]. exists m'. split_and!; auto.
  - do 2 f_equal. lia.
  - intros i j Hi. apply Haft. unfold areas in Ha. lia.
Qed.

(** ** Encoded hunks *)

Definition hunk_fits (h : hunk) : Prop := fits32 (p1 h) /\ fits32 (p2 h) /\ fits32 (zlen (data h)).

Lemma encode_hunk_spec h :
  hunk_fits h ->
  exists hd, encode_hunk h = hd ++ data h /\ zlen hd = 12 /\
    unpack_lll hd = Ok (p1 h, p2 h, zlen (data h)).
Proof.
  intros (H1 & H2 & H3). destruct (pack_lll_ok _ _ _ H1 H2 H3) as (hd & E & L & U).
  exists hd. unfold encode_hunk. rewrite E. split_and!; auto. unfold zlen. lia.
Qed.

Lemma zlen_encode_hunk h : hunk_fits h -> zlen (encode_hunk h) = 12 + zlen (data h).
Proof. intros Hf. destruct (encode_hunk_spec h Hf) as (hd & -> & L & _). rewrite zlen_app. lia. Qed.

Lemma encode_cons h hs : encode (h :: hs) = encode_hunk h ++ encode hs.
Proof. done. Qed.

Lemma valid_from_fits n last h hs : valid_from n last (h :: hs) -> hunk_fits h.
Proof. simpl. unfold hunk_fits. tauto. Qed.

(** Reading the header and the data of the hunk at a position of the buffer. *)
Lemma read_hunk m pos h hs :
  0 <= pos -> hunk_fits h -> pos + zlen (encode (h :: hs)) <= zlen m ->
  slice m pos (pos + zlen (encode (h :: hs))) = encode (h :: hs) ->
  unpack_lll (mem_read m pos 12) = Ok (p1 h, p2 h, zlen (data h)) /\
  slice m (pos + 12) (pos + 12 + zlen (data h)) = data h /\
  let pos' := pos + zlen (data h) + 12 in
  slice m pos' (pos' + zlen (encode hs)) = encode hs.
Proof.
  intros Hp Hf Hfit E. destruct (encode_hunk_spec h Hf) as (hd & Eh & Lh & U).
  rewrite encode_cons, Eh, <- (assoc_L (++)) in E, Hfit. rewrite !zlen_app in E, Hfit.
  pose proof (zlen_nonneg (data h)). pose proof (zlen_nonneg (encode hs)).
  pose proof (fun i j Hi Hj => slice_sub m pos (pos + (zlen hd + (zlen (data h) + zlen (encode hs)))) i j Hp Hi Hj) as Hsub.
  rewrite E in Hsub. split_and!.
  - rewrite mem_read_slice by lia. rewrite <- (Z.add_0_r pos) at 1. rewrite <- Hsub by lia.
    rewrite <- Lh, slice_app_l, slice_full by lia. done.
  - replace (pos + 12 + zlen (data h)) with (pos + (12 + zlen (data h))) by lia. rewrite <- Hsub by lia.
    rewrite slice_app_r by lia. rewrite slice_app_l by lia.
    replace (12 - zlen hd) with 0 by lia. replace (12 + zlen (data h) - zlen hd) with (zlen (data h)) by lia.
    apply slice_full.
  - simpl. replace (pos + zlen (data h) + 12) with (pos + (12 + zlen (data h))) by lia.
    replace (pos + (12 + zlen (data h)) + zlen (encode hs)) with (pos + (12 + zlen (data h) + zlen (encode hs))) by lia.
    rewrite <- Hsub by lia. rewrite (assoc_L (++)), slice_app_r by (rewrite zlen_app; lia).
    rewrite zlen_app. replace (12 + zlen (data h) - _) with 0 by lia.
    replace (12 + zlen (data h) + zlen (encode hs) - _) with (zlen (encode hs)) by lia.
    apply slice_full.
Qed.

(** ** The loops *)

Lemma length_encode_fits n last hs : valid_from n last hs -> 12 * zlen hs <= zlen (encode hs).
Proof.
  revert last. induction hs as [|h hs IH]; intros last Hv; [done|].
  pose proof (valid_from_fits _ _ _ _ Hv) as Hf. destruct Hv as (_ & _ & _ & _ & _ & Hv).
  rewrite encode_cons, zlen_app, zlen_encode_hunk, zlen_cons by done.
  specialize (IH _ Hv). pose proof (zlen_nonneg (data h)). lia.
Qed.

Lemma hunks_loop_spec b1 bl pl m text fuel pos last new frags hs :
  (b1 = 0 \/ b1 = bl) -> 0 <= bl -> 0 <= pl -> zlen m = bl + bl + pl ->
  Forall (frag_ok b1 bl pl) new -> Forall (frag_ok b1 bl pl) frags ->
  bl + bl <= pos -> pos + zlen (encode hs) <= bl + bl + pl ->
  slice m pos (pos + zlen (encode hs)) = encode hs ->
  0 <= last -> valid_from (zlen text) last hs ->
  content m frags = slice text last (zlen text) -> (length hs < fuel)%nat ->
  exists new' frags',
    hunks_loop fuel m pos (pos + zlen (encode hs)) last new frags
    = Ok (pos + zlen (encode hs), new', frags') /\
    Forall (frag_ok b1 bl pl) (new' ++ frags') /\
    content m (new' ++ frags') = content m new ++ apply_from text last hs.
Proof.
  intros Hb1 Hbl Hpl Hm. revert fuel pos last new frags.
  induction hs as [|h hs IH]; intros fuel pos last new frags Hnew Hfr Hpos Hend Hread Hlast Hv Hc Hfuel;
    (destruct fuel as [|fuel]; [simpl in Hfuel; lia|]); cbn [hunks_loop].
  - change (zlen (encode [])) with 0. rewrite decide_False by lia. exists new, frags.
    rewrite Z.add_0_r. split_and!; auto; [by apply Forall_app|]. by rewrite content_app, Hc.
  - pose proof (valid_from_fits _ _ _ _ Hv) as Hf.
    destruct (read_hunk m pos h hs) as (Hhd & Hdata & Hrest); auto; try lia.
    rewrite encode_cons, zlen_app, zlen_encode_hunk in * by done.
    pose proof (zlen_nonneg (data h)) as Hd0. pose proof (zlen_nonneg (encode hs)) as He0.
    rewrite decide_True by lia. rewrite Hhd.
    destruct Hv as (Hp1 & Hp2 & _ & _ & _ & Hv).
    destruct (pull_spec m b1 bl pl Hb1 Hbl Hpl Hm new frags (p1 h - last) Hfr)
      as (d & fr1 & -> & Hd & Hfr1 & Cd & Cfr1); [rewrite Hc, zlen_slice; lia|]. cbn [rbind].
    rewrite Hc, zlen_slice in Cfr1 by lia. rewrite Hc in Cd.
    rewrite slice_sub in Cd, Cfr1 by lia.
    destruct (pull_spec m b1 bl pl Hb1 Hbl Hpl Hm [] fr1 (p2 h - p1 h) Hfr1)
      as (d2 & fr2 & -> & _ & Hfr2 & _ & Cfr2); [rewrite Cfr1, zlen_slice; lia|]. cbn [rbind].
    rewrite Cfr1, zlen_slice in Cfr2 by lia. rewrite slice_sub in Cfr2 by lia.
    replace (last + (p1 h - last) + (p2 h - p1 h)) with (p2 h) in Cfr2 by lia.
    replace (last + (p1 h - last) + (last + (zlen text - last) - (last + (p1 h - last)))) with (zlen text) in Cfr2 by lia.
    replace (pos + (12 + zlen (data h) + zlen (encode hs))) with (pos + zlen (data h) + 12 + zlen (encode hs)) by lia.
    destruct (IH fuel (pos + zlen (data h) + 12) (p2 h) ((new ++ d) ++ [(zlen (data h), pos + 12)]) fr2)
      as (new' & frags' & E & Hok & Hcont); auto; try lia.
    + rewrite !Forall_app. split_and!; auto. apply Forall_singleton. unfold frag_ok. simpl. lia.
    + simpl in Hfuel. lia.
    + exists new', frags'. split_and!; auto. rewrite Hcont, !content_app. cbn [apply_from].
      rewrite Cd. unfold content at 2. simpl. rewrite Hdata, app_nil_r, Z.add_0_r.
      replace (last + (p1 h - last)) with (p1 h) by lia. by rewrite <- !(assoc_L (++)).
Qed.

Lemma zlen_apply_from text last hs :
  0 <= last -> valid_from (zlen text) last hs ->
  zlen (apply_from text last hs) <= zlen text - last + zlen (encode hs).
Proof.
  revert last. induction hs as [|h hs IH]; intros last Hl Hv; cbn [apply_from].
  - simpl in Hv. rewrite zlen_slice; [|lia..]. change (zlen (encode [])) with 0. lia.
  - pose proof (valid_from_fits _ _ _ _ Hv) as Hf. destruct Hv as (H1 & H2 & _ & _ & _ & Hv).
    rewrite encode_cons, !zlen_app, zlen_encode_hunk, zlen_slice by (done || lia).
    specialize (IH (p2 h) ltac:(lia) Hv). lia.
Qed.

(** Total size of encoded deltas. *)
Definition encoded (ds : list (list hunk)) : bytes := concat (map encode ds).

Lemma patches_loop_spec b1 b2 bl pl m pos frags ds text :
  areas b1 b2 bl -> 0 <= bl -> 0 <= pl -> zlen m = bl + bl + pl ->
  Forall (frag_ok b1 bl pl) frags -> content m frags = text ->
  bl + bl <= pos -> pos + zlen (encoded ds) = bl + bl + pl ->
  slice m pos (pos + zlen (encoded ds)) = encoded ds ->
  zlen text + zlen (encoded ds) <= bl -> valid_deltas text ds ->
  exists m' b1' b2' frags',
    patches_loop m b1 b2 pos frags (map zlen (map encode ds)) = Ok (m', b2', frags') /\
    areas b1' b2' bl /\ zlen m' = bl + bl + pl /\ Forall (frag_ok b1' bl pl) frags' /\
    content m' frags' = fold_left apply ds text /\ zlen (fold_left apply ds text) <= bl.
Proof.
  intros Ha Hbl Hpl. revert b1 b2 m pos frags text Ha.
  induction ds as [|hs ds IH]; intros b1 b2 m pos frags text Ha Hm Hfr Hc Hpos Hend Hread Hsize Hv.
  { exists m, b1, b2, frags. change (zlen (encoded [])) with 0 in Hsize. simpl. split_and!; auto. lia. }
  destruct Hv as [Hv Hvs]. cbn [map patches_loop].
  change (encoded (hs :: ds)) with (encode hs ++ encoded ds) in *. rewrite zlen_app in *.
  pose proof (zlen_nonneg (encode hs)) as He0. pose proof (zlen_nonneg (encoded ds)) as Hd0.
  assert (exists m1 b11 b21 fr1,
    (if decide (zlen frags > 128) then let '(m, f) := collect m b2 frags in (m, b2, b1, [f])
     else (m, b1, b2, frags)) = (m1, b11, b21, fr1) /\
    areas b11 b21 bl /\ zlen m1 = bl + bl + pl /\ Forall (frag_ok b11 bl pl) fr1 /\
    content m1 fr1 = text /\ (forall i j, bl + bl <= i -> slice m1 i j = slice m i j))
    as (m1 & b11 & b21 & fr1 & -> & Ha1 & Hm1 & Hfr1 & Hc1 & Hkeep).
  { destruct (decide (zlen frags > 128)).
    - destruct (collect_spec b1 b2 bl pl m frags) as (m' & -> & El & Es & Hk); auto; [rewrite Hc; lia|].
      rewrite Hc in *. exists m', b2, b1, [(zlen text, b2)]. split_and!; auto; [|lia| |].
      + unfold areas in *. lia.
      + apply Forall_singleton. unfold frag_ok, areas in *. simpl. pose proof (zlen_nonneg text). lia.
      + unfold content. simpl. by rewrite Es, app_nil_r.
    - exists m, b1, b2, frags. split_and!; auto. }
  assert (slice m1 pos (pos + zlen (encode hs)) = encode hs /\
          slice m1 (pos + zlen (encode hs)) (pos + zlen (encode hs) + zlen (encoded ds)) = encoded ds) as [Hr1 Hr2].
  { rewrite !Hkeep by lia. rewrite (slice_app m pos (pos + zlen (encode hs))) in Hread by lia.
    apply app_inj_1 in Hread as [Hr Hr']; [by rewrite Z.add_assoc in Hr'|].
    pose proof (zlen_slice m pos (pos + zlen (encode hs))). unfold zlen in *. lia. }
  destruct (hunks_loop_spec b11 bl pl m1 text (S (Z.to_nat (zlen (encode hs)))) pos 0 [] fr1 hs)
    as (new' & frags' & -> & Hok & Hcont); auto; try lia.
  - unfold areas in *. lia.
  - by rewrite Hc1, slice_full.
  - pose proof (length_encode_fits _ _ _ Hv). unfold zlen in *. lia.
  - cbn [rbind]. apply (IH b11 b21 m1 (pos + zlen (encode hs)) (new' ++ frags') (apply text hs)); auto; try lia.
    pose proof (zlen_apply_from text 0 hs ltac:(lia) Hv). unfold apply. lia.
Qed.

Lemma zlen_encoded ds : zlen (encoded ds) = foldr Z.add 0 (map zlen (map encode ds)).
Proof. induction ds as [|hs ds IH]; [done|]. simpl. rewrite <- IH. apply zlen_app. Qed.

Lemma initial_buffer a bins bl :
  zlen a <= bl ->
  let m := mem_write a (bl + bl) bins in
  zlen m = bl + bl + zlen bins /\ slice m 0 (zlen a) = a /\
  slice m (bl + bl) (bl + bl + zlen bins) = bins.
Proof.
  intros Hbl m. pose proof (zlen_nonneg a). pose proof (zlen_nonneg bins).
  set (pad := replicate (Z.to_nat (bl + bl - zlen a)) zero).
  assert (zlen (a ++ pad) = bl + bl) as Hp.
  { rewrite zlen_app. unfold pad, zlen in *. rewrite length_replicate. lia. }
  assert (m = (a ++ pad) ++ bins ++ []) as Em.
  { unfold m, mem_write. fold pad. rewrite take_ge by (unfold zlen in Hp; lia).
    rewrite drop_ge; [done|]. unfold zlen in *. lia. }
  rewrite Em, app_nil_r. split_and!.
  - rewrite zlen_app. lia.
  - rewrite <- (assoc_L (++)), slice_app_l, slice_full by lia. done.
  - rewrite slice_app_r by lia. replace (bl + bl - _) with 0 by lia.
    replace (bl + bl + zlen bins - _) with (zlen bins) by lia. apply slice_full.
Qed.

Lemma patches_spec a ds : valid_deltas a ds -> patches a (map encode ds) = Ok (fold_left apply ds a).
Proof.
  intros Hv. unfold patches. destruct ds as [|hs ds]; [done|].
  set (ds0 := hs :: ds) in *. assert (map encode ds0 ≠ []) as Hne by done.
  destruct (map encode ds0) as [|x xs] eqn:Eb; [done|]. rewrite <- Eb in *. clear Eb x xs.
  rewrite <- zlen_encoded. pose proof (zlen_nonneg a) as Ha. pose proof (zlen_nonneg (encoded ds0)) as Hd.
  set (bl := zlen a + zlen (encoded ds0)) in *.
  destruct (decide (bl + bl + zlen (encoded ds0) = 0)) as [H0|H0].
  - (* nothing to read or to write *)
    assert (a = []) as Ea by (apply nil_length_inv; unfold zlen in *; lia).
    assert (forall hs, valid_from 0 0 hs -> zlen (encode hs) = 0 -> hs = []) as Hnil.
    { intros [|h hs'] Hv' Hl; [done|]. exfalso. pose proof (length_encode_fits _ _ _ Hv') as Hl'.
      rewrite zlen_cons in Hl'. pose proof (zlen_nonneg hs'). lia. }
    assert (Forall (fun hs => zlen (encode hs) = 0) ds0) as HF.
    { assert (zlen (encoded ds0) = 0) as Hz by lia. clear -Hz.
      induction ds0 as [|h t IH]; constructor;
        change (encoded (h :: t)) with (encode h ++ encoded t) in Hz; rewrite zlen_app in Hz;
        pose proof (zlen_nonneg (encode h)); pose proof (zlen_nonneg (encoded t)); [lia|apply IH; lia]. }
    clearbody ds0. subst a. clear -Hv HF Hnil. f_equal.
    induction HF as [|h t Hh HF IH]; [done|]. simpl. destruct Hv as [Hv1 Hv2].
    assert (h = []) as -> by (by apply Hnil). exact (IH Hv2).
  - destruct (initial_buffer a (encoded ds0) bl) as (Hm & Hma & Hmd); [lia|].
    destruct (patches_loop_spec 0 bl bl (zlen (encoded ds0)) (mem_write a (bl + bl) (encoded ds0))
      (bl + bl) [(zlen a, 0)] ds0 a) as (m' & b1' & b2' & fr' & E & Har & Hm' & Hok & Hcont & Hfit);
      auto; try lia; [by right| | |].
    + apply Forall_singleton. unfold frag_ok. simpl. lia.
    + unfold content. simpl. rewrite app_nil_r. exact Hma.
    + unfold encoded in E. unfold encoded. rewrite E. cbn [rbind].
      destruct (collect_spec b1' b2' bl (zlen (encoded ds0)) m' fr') as (m2 & -> & _ & Es & _);
        auto; try lia; [by rewrite Hcont|].
      rewrite Hcont in *. cbn [fst snd]. rewrite mem_read_slice by apply zlen_nonneg. by rewrite Es.
Qed.

(** [C37] Applying a sequence of deltas through the fragment list is equivalent
    to applying their hunks one delta after the other: the buffer is never read
    where it was overwritten, whatever the number of fragments and of times
    the list is collapsed into the other working area, and no error occurs. *)
Theorem patches_equiv (a : bytes) (ds : list (list hunk)) :
  valid_deltas a ds -> patches a (map encode ds) = Ok (fold_left apply ds a).
Proof. apply patches_spec. Qed.

Lemma patches_equiv_witness :
  patches (bs "hello") (map encode [[Hunk 0 1 (bs "J"); Hunk 4 5 (bs "y!")]; [Hunk 1 2 (bs "o")]])
  = Ok (bs "Jolly!").
Proof.
  rewrite (patches_equiv (bs "hello") [[Hunk 0 1 (bs "J"); Hunk 4 5 (bs "y!")]; [Hunk 1 2 (bs "o")]]);
    [vm_compute; reflexivity|].
  unfold valid_deltas, valid_from, fits32, apply, apply_from, slice, zlen. simpl. lia.
Defined.

(** ** [patchedsize] *)

Lemma size_loop_spec text fuel delta bin last outlen hs :
  0 <= bin -> 0 <= last -> bin + zlen (encode hs) = zlen delta ->
  slice delta bin (zlen delta) = encode hs -> valid_from (zlen text) last hs -> (length hs < fuel)%nat ->
  exists last' outlen',
    size_loop fuel delta bin (bin + 12) last outlen = Ok (zlen delta, last', outlen') /\
    outlen' + (zlen text - last') = outlen + zlen (apply_from text last hs).
Proof.
  revert fuel bin last outlen.
  induction hs as [|h hs IH]; intros fuel bin last outlen Hb Hl Hend Hread Hv Hf;
    (destruct fuel as [|fuel]; [simpl in Hf; lia|]); cbn [size_loop].
  - change (zlen (encode [])) with 0 in Hend. rewrite decide_False by lia.
    exists last, outlen. split; [do 3 f_equal; lia|]. cbn [apply_from]. simpl in Hv.
    rewrite zlen_slice; lia.
  - pose proof (valid_from_fits _ _ _ _ Hv) as Hfit.
    destruct (read_hunk delta bin h hs) as (Hhd & _ & Hrest); auto; try lia; [by rewrite Hend|].
    rewrite encode_cons, zlen_app, zlen_encode_hunk in Hend by done.
    pose proof (zlen_nonneg (data h)). pose proof (zlen_nonneg (encode hs)).
    rewrite decide_True by lia. rewrite mem_read_slice in Hhd by lia. rewrite Hhd.
    destruct Hv as (Hp1 & Hp2 & _ & _ & _ & Hv). rewrite decide_False by lia.
    destruct (IH fuel (bin + 12 + zlen (data h)) (p2 h) (outlen + (p1 h - last) + zlen (data h)))
      as (last' & outlen' & E & Hsum); auto; try lia.
    + cbv zeta in Hrest. replace (bin + 12 + zlen (data h)) with (bin + zlen (data h) + 12) by lia.
      etrans; [|exact Hrest]. f_equal. lia.
    + simpl in Hf. lia.
    + exists last', outlen'. split; [exact E|]. rewrite Hsum. cbn [apply_from].
      rewrite !zlen_app, zlen_slice; lia.
Qed.

Lemma patchedsize_spec (text : bytes) (hs : list hunk) :
  valid_from (zlen text) 0 hs ->
  patchedsize (zlen text) (encode hs) = Ok (zlen (apply text hs)).
Proof.
  intros Hv. unfold patchedsize.
  destruct (size_loop_spec text (S (length (encode hs))) (encode hs) 0 0 0 hs)
    as (last' & outlen' & E & Hsum); auto; try lia.
  - by rewrite slice_full.
  - pose proof (length_encode_fits _ _ _ Hv). unfold zlen in *. lia.
  - change (0 + 12) with 12 in E. rewrite E. cbn [rbind]. rewrite decide_True by done. f_equal.
    unfold apply. lia.
Qed.

(** [patchedsize] returns the size of the text [patches] produces, from the
    headers of the delta alone. *)
Theorem patchedsize_correct (text : bytes) (hs : list hunk) :
  valid_from (zlen text) 0 hs ->
  patchedsize (zlen text) (encode hs) = Ok (zlen (apply text hs)).
Proof. apply patchedsize_spec. Qed.

Lemma patchedsize_witness :
  patchedsize (zlen (bs "hello")) (encode [Hunk 0 1 (bs "J"); Hunk 4 5 (bs "y!")]) = Ok 6.
Proof.
  apply (patchedsize_correct (bs "hello") [Hunk 0 1 (bs "J"); Hunk 4 5 (bs "y!")]).
  unfold valid_from, fits32, zlen. simpl. lia.
Defined.
End Mpatch.
