(* ===== verification/Delta.v ===== *)
(** * Computing and applying one delta ([bdiff] of pure/bdiff.py, [patch] and the
    delta headers of mdiff.py)

    The round trip of the delta format: the delta computed from the matching
    lines of two texts, applied to the one, gives the other. *)

From S2P Require Import Prelude Lines Bdiff Struct Mpatch.

Module Delta.
Import Mpatch.

Definition cr : ascii := "013"%char.

(** [bytes(t).splitlines(True)]; [cur] is the line read so far. *)
Fixpoint splitlines_from (cur t : bytes) : list bytes :=
  match t with
  | [] => if decide (cur = []) then [] else [cur]
  | x :: t =>
      if ascii_dec x newline then (cur ++ [x]) :: splitlines_from [] t
      else if ascii_dec x cr then
        match t with
        | y :: t' =>
            if ascii_dec y newline then (cur ++ [x; y]) :: splitlines_from [] t'
            else (cur ++ [x]) :: splitlines_from [] t
        | [] => (cur ++ [x]) :: splitlines_from [] t
        end
      else splitlines_from (cur ++ [x]) t
  end.

Definition splitlines (t : bytes) : list bytes := splitlines_from [] t.

(** The list [p] of offsets: [p[i]] is where line [i] starts. *)
Fixpoint offsets (last : Z) (ls : list bytes) : list Z :=
  match ls with
  | [] => [last]
  | l :: ls => last :: offsets (last + zlen l) ls
  end.

(** The loop over the matching blocks. *)
Fixpoint bdiff_loop (p : list Z) (b_ : list bytes) (la lb : Z) (d : list (Z * Z * Z)) : res bytes :=
  match d with
  | [] => Ok []
  | (am, bm, size) :: d =>
      let s := concat (slice b_ lb bm) in
      let* h :=
        if decide (am > la \/ s ≠ []) then
          let* p1 := getitem p la in
          let* p2 := getitem p am in
          let* hd := pack_lll p1 p2 (zlen s) in
          Ok (hd ++ s)
        else Ok [] in
      let* rest := bdiff_loop p b_ (am + size) (bm + size) d in
      Ok (h ++ rest)
  end.

(** [bdiff] *)
Definition bdiff `{!SequenceMatcher} (a c : bytes) : res bytes :=
  let a := splitlines a in
  let c := splitlines c in
  match a with
  | [] =>
      let s := concat c in
      if decide (s = []) then Ok []
      else let* hd := pack_lll 0 0 (zlen s) in Ok (hd ++ s)
  | _ =>
      let p := offsets 0 a in
      let d := get_matching_blocks_ a c in
      let* d := Bdiff.normalizeblocks a c d in
      bdiff_loop p c 0 0 d
  end.

(** [patch] of mdiff.py *)
Definition patch (a bin : bytes) : res bytes :=
  if decide (length a = O) then Ok (drop 12 bin) else patches a [bin].

(** [trivialdiffheader] and [replacediffheader] *)
Definition trivialdiffheader (length : Z) : res bytes :=
  if decide (length = 0) then Ok [] else pack_lll 0 0 length.
Definition replacediffheader (oldlen newlen : Z) : res bytes := pack_lll 0 oldlen newlen.

(** ** Lines and offsets *)

Lemma concat_splitlines_from cur t : concat (splitlines_from cur t) = cur ++ t.
Proof.
  remember (length t) as n eqn:En. revert t En cur. induction (lt_wf n) as [n _ IH]. intros t -> cur.
  destruct t as [|x t]; cbn [splitlines_from].
  - case_decide as Hc; simpl; [by rewrite Hc|by rewrite app_nil_r].
  - assert (forall t', (length t' < length (x :: t))%nat -> forall cur, concat (splitlines_from cur t') = cur ++ t')
      as IH' by (intros t' Ht'; by apply (IH (length t') Ht')).
    destruct (ascii_dec x newline); [simpl; by rewrite IH', <- (assoc_L (++)) by (simpl; lia)|].
    destruct (ascii_dec x cr); [|by rewrite IH', <- (assoc_L (++)) by (simpl; lia)].
    destruct t as [|y t]; [simpl; by rewrite app_nil_r|].
    destruct (ascii_dec y newline); cbn [concat].
    + rewrite IH' by (simpl; lia). by rewrite <- (assoc_L (++)).
    + rewrite IH' by (simpl; lia). by rewrite <- (assoc_L (++)).
Qed.

Lemma concat_splitlines t : concat (splitlines t) = t.
Proof. apply concat_splitlines_from. Qed.

Section offsets.
Variable ls : list bytes.

(** Where line [i] starts in the text. *)
Definition offset (i : Z) : Z := zlen (concat (slice ls 0 i)).

Lemma offset_le i j : 0 <= i <= j -> offset i <= offset j.
Proof.
  intros Hij. unfold offset. rewrite (slice_app ls 0 i j), concat_app, zlen_app by lia.
  pose proof (zlen_nonneg (concat (slice ls i j))). lia.
Qed.

Lemma offset_0 : offset 0 = 0.
Proof. done. Qed.

Lemma offset_end : offset (zlen ls) = zlen (concat ls).
Proof. unfold offset. by rewrite slice_full. Qed.

Lemma slice_offset i j : 0 <= i <= j -> j <= zlen ls ->
  slice (concat ls) (offset i) (offset j) = concat (slice ls i j).
Proof.
  intros Hij Hj.
  assert (concat ls = concat (slice ls 0 i) ++ concat (slice ls i j) ++ concat (slice ls j (zlen ls))) as E.
  { rewrite <- !concat_app, <- !slice_app by lia. by rewrite slice_full. }
  assert (offset j = zlen (concat (slice ls 0 i)) + zlen (concat (slice ls i j))) as Ej.
  { unfold offset. rewrite (slice_app ls 0 i j), concat_app, zlen_app by lia. done. }
  rewrite E, Ej. unfold offset. apply (proj2 (slice_slice_app3 _ _ _ 0 0)).
Qed.

Lemma getitem_offsets_from last i : 0 <= i <= zlen ls -> getitem (offsets last ls) i = Ok (last + offset i).
Proof.
  unfold offset. revert last i. induction ls as [|l ls' IH]; intros last i Hi.
  - assert (i = 0) as -> by (unfold zlen in Hi; simpl in Hi; lia). unfold getitem. simpl.
    f_equal. unfold zlen. simpl. lia.
  - destruct (decide (i = 0)) as [->|Hne]; [unfold getitem; simpl; f_equal; unfold zlen; simpl; lia|].
    rewrite zlen_cons in Hi. specialize (IH (last + zlen l) (i - 1) ltac:(lia)).
    unfold getitem in *. cbn [offsets]. replace (Z.to_nat i) with (S (Z.to_nat (i - 1))) by lia.
    simpl. destruct (offsets (last + zlen l) ls' !! Z.to_nat (i - 1)); [|done].
    injection IH as ->. f_equal.
    rewrite (slice_cons (l :: ls') 0 i l) by (lia || done). simpl. rewrite zlen_app.
    change (l :: ls') with ([l] ++ ls'). rewrite slice_app_r by (unfold zlen; simpl; lia).
    change (zlen [l]) with 1. replace (0 + 1 - 1) with 0 by lia. lia.
Qed.
End offsets.

Lemma slice_drop {A} (l : list A) i j : 0 <= i <= j -> slice l i j ++ drop (Z.to_nat j) l = drop (Z.to_nat i) l.
Proof.
  intros. unfold slice. rewrite <- (take_drop (Z.to_nat (j - i)) (drop (Z.to_nat i) l)) at 2.
  rewrite drop_drop. repeat f_equal. lia.
Qed.

(** Starting earlier copies the text in between. *)
Lemma apply_from_earlier text last last' hs :
  0 <= last <= last' -> valid_from (zlen text) last' hs ->
  apply_from text last hs = slice text last last' ++ apply_from text last' hs.
Proof.
  intros Hl Hv. destruct hs as [|h hs]; cbn [apply_from]; simpl in Hv.
  - apply slice_app; lia.
  - rewrite (slice_app text last last' (p1 h)) by lia. by rewrite <- (assoc_L (++)).
Qed.

Lemma valid_from_earlier n last last' hs : last <= last' -> valid_from n last' hs -> valid_from n last hs.
Proof. destruct hs; simpl; intuition lia. Qed.

(** The loop writes the hunks that turn the one text into the other. *)
Lemma bdiff_loop_spec al bl la lb d :
  zlen (concat al) < 2147483648 -> zlen (concat bl) < 2147483648 ->
  0 <= la <= zlen al -> 0 <= lb <= zlen bl -> matching_from al bl la lb d ->
  match last d with Some x => x = (zlen al, zlen bl, 0) | None => la = zlen al /\ lb = zlen bl end ->
  exists hs, bdiff_loop (offsets 0 al) bl la lb d = Ok (encode hs) /\
    valid_from (zlen (concat al)) (offset al la) hs /\
    apply_from (concat al) (offset al la) hs = concat (drop (Z.to_nat lb) bl).
Proof.
  intros Ha Hb. revert la lb. induction d as [|[[am bm] size] d IH]; intros la lb Hla Hlb Hm Hlast.
  - destruct Hlast as [-> ->]. exists []. split; [done|]. simpl. rewrite offset_end. split; [lia|].
    rewrite slice_nil by lia. rewrite drop_ge by (unfold zlen; lia). done.
  - destruct Hm as (H1 & H2 & H3 & H4 & H5 & Heq & Hm).
    destruct (IH (am + size) (bm + size)) as (hs & E & Hv & Happ); try lia; auto.
    { rewrite last_cons in Hlast. destruct (last d) as [x|]; [done|].
      injection Hlast as -> -> ->. lia. }
    cbn [bdiff_loop]. rewrite E.
    assert (offset al la <= offset al am <= offset al (am + size)) as Ho by (split; apply offset_le; lia).
    assert (offset al (am + size) <= zlen (concat al)) as Hoe by (rewrite <- offset_end; apply offset_le; lia).
    assert (0 <= offset al la) as Ho0 by apply zlen_nonneg.
    pose proof (valid_from_earlier _ (offset al am) _ _ (proj2 Ho) Hv) as Hv'.
    assert (apply_from (concat al) (offset al am) hs = concat (drop (Z.to_nat bm) bl)) as Happ'.
    { rewrite (apply_from_earlier _ _ (offset al (am + size))) by (auto; lia).
      rewrite slice_offset, Heq, Happ by lia. rewrite <- concat_app, slice_drop by lia. done. }
    assert (concat (slice bl lb bm) ++ concat (drop (Z.to_nat bm) bl) = concat (drop (Z.to_nat lb) bl)) as Hsplit.
    { rewrite <- concat_app, slice_drop by lia. done. }
    case_decide as Hemit.
    + rewrite !getitem_offsets_from by lia. cbn [rbind]. rewrite !Z.add_0_l.
      set (s := concat (slice bl lb bm)) in *.
      assert (zlen s <= zlen (concat bl)) as Hs.
      { assert (zlen (concat bl) = zlen (concat (slice bl 0 (zlen bl)))) as -> by by rewrite slice_full.
        rewrite (slice_app bl 0 lb (zlen bl)), (slice_app bl lb bm (zlen bl)) by lia.
        rewrite !concat_app, !zlen_app. fold s. pose proof (zlen_nonneg (concat (slice bl 0 lb))).
        pose proof (zlen_nonneg (concat (slice bl bm (zlen bl)))). lia. }
      pose proof (zlen_nonneg s) as Hs0.
      assert (hunk_fits (Hunk (offset al la) (offset al am) s)) as Hfit
        by (unfold hunk_fits, fits32; simpl; lia).
      exists (Hunk (offset al la) (offset al am) s :: hs). rewrite encode_cons.
      unfold encode_hunk. simpl. destruct (pack_lll_ok (offset al la) (offset al am) (zlen s))
        as (hd & -> & _ & _); [unfold fits32; lia..|]. cbn [rbind]. split; [done|].
      unfold hunk_fits in Hfit. simpl in Hfit. split; [intuition lia|].
      rewrite slice_nil by lia. simpl. by rewrite Happ'.
    + exists hs. assert (am = la /\ concat (slice bl lb bm) = []) as [-> Hs].
      { split; [lia|]. destruct (concat (slice bl lb bm)); [done|]. destruct Hemit. by right. }
      cbn [rbind]. split; [done|]. split; [done|]. rewrite Happ', <- Hsplit, Hs. done.
Qed.

Lemma patch_spec a hs : valid_from (zlen a) 0 hs -> a ≠ [] -> patch a (encode hs) = Ok (apply a hs).
Proof.
  intros Hv Ha. unfold patch. rewrite decide_False by (by destruct a).
  apply (patches_spec a [hs]). by split.
Qed.

(** [C36] The delta round trip: for any two texts of less than 2 GiB, [bdiff]
    returns a delta, [patch] applied to the first text and that delta returns
    the second text, and [patchedsize] predicts its size. *)
Theorem bdiff_patch_roundtrip `{!SequenceMatcher} (a c : bytes) :
  zlen a < 2147483648 -> zlen c < 2147483648 ->
  exists bin, bdiff a c = Ok bin /\ patch a bin = Ok c /\
    patchedsize (zlen a) bin = Ok (zlen c).
Proof.
  intros Ha Hc.
  assert (exists hs, bdiff a c = Ok (encode hs) /\ valid_from (zlen a) 0 hs /\ apply a hs = c /\
    (a = [] -> drop 12 (encode hs) = c)) as (hs & E & Hv & Happ & Hempty).
  { unfold bdiff. pose proof (concat_splitlines a) as Ea. pose proof (concat_splitlines c) as Ec.
    destruct (splitlines a) as [|l al] eqn:Esp.
    - simpl in Ea. subst a. rewrite Ec. case_decide as Hs.
      + exists []. subst c. by split_and!; auto.
      + destruct (encode_hunk_spec (Hunk 0 0 c)) as (hd & Eh & Lh & _).
        { unfold hunk_fits, fits32; simpl. pose proof (zlen_nonneg c). lia. }
        exists [Hunk 0 0 c]. unfold encode. simpl. rewrite app_nil_r.
        unfold encode_hunk in *. simpl in *.
        destruct (pack_lll_ok 0 0 (zlen c)) as (hd' & E' & L' & _);
          [unfold fits32; pose proof (zlen_nonneg c); lia..|].
        rewrite E' in *. cbn [rbind]. split; [done|]. split; [|split].
        * unfold fits32, zlen. simpl. pose proof (zlen_nonneg c). unfold zlen in *. lia.
        * unfold apply. cbn [apply_from p1 p2 data].
          rewrite !slice_nil by (unfold zlen; simpl; lia). by rewrite app_nil_r.
        * intros _. rewrite drop_app_length'; [done|lia].
    - destruct (Bdiff.normalizeblocks_spec (l :: al) (splitlines c)
        (get_matching_blocks_ (l :: al) (splitlines c))) as (d & -> & Hm & Hl).
      { apply get_matching_blocks_ok. }
      cbn [rbind]. destruct (bdiff_loop_spec (l :: al) (splitlines c) 0 0 d) as (hs & E & Hv & Happ);
        rewrite ?Ea, ?Ec; auto; try (split; [lia|apply zlen_nonneg]).
      { by rewrite Hl. }
      exists hs. rewrite Ea, offset_0 in Hv, Happ.
      split; [done|]. split; [done|]. split.
      + rewrite drop_0, Ec in Happ. exact Happ.
      + intros ->. done. }
  exists (encode hs). split; [exact E|]. split.
  - destruct (decide (a = [])) as [->|Hne]; [unfold patch; simpl; f_equal; by apply Hempty|].
    rewrite patch_spec by done. by rewrite Happ.
  - rewrite patchedsize_spec by done. by rewrite Happ.
Qed.

#[local] Existing Instance Bdiff.prefix_matcher.

Lemma bdiff_patch_roundtrip_witness :
  exists bin, bdiff (bs "ab") (bs "ac") = Ok bin /\ patch (bs "ab") bin = Ok (bs "ac") /\
    patchedsize (zlen (bs "ab")) bin = Ok (zlen (bs "ac")).
Proof. apply (bdiff_patch_roundtrip (bs "ab") (bs "ac")); vm_compute; reflexivity. Defined.
End Delta.
