(* ===== verification/RevlogGraph.v ===== *)
(** * Graph queries of a revlog (revlog.py)

    The methods of [revlog] that walk the whole graph in revision order.  They
    are modelled on revision numbers: [node] and [rev] are inverse lookups in
    the index.  [pfunc] is [parentrevs] and [len] the number of revisions. *)

From S2P Require Import Prelude Dag IncrementalMissing LazyAncestors CommonAncestors.

Module RevlogGraph.

Section methods.
Context (pfunc : Z -> list Z) (len : Z).

(** [revs] *)
Definition revs (start : Z) (stop : option Z) : list Z :=
  match stop with
  | Some stop => if decide (start > stop) then zrange_down start (stop - 1) else zrange start (stop + 1)
  | None => zrange start len
  end.

(** The loop of [descendants]: a revision with a parent seen is yielded. *)
Fixpoint descendants_loop (is_ : list Z) (seen : gset Z) : list Z :=
  match is_ with
  | [] => []
  | i :: is_ =>
      if decide (Exists (fun x => x ≠ nullrev /\ x ∈ seen) (pfunc i)) then
        i :: descendants_loop is_ ({[i]} ∪ seen)
      else descendants_loop is_ seen
  end.

Definition descendants (rs : list Z) : res (list Z) :=
  match rs with
  | [] => Err ValueError
  | _ =>
      let first := zmin_list 0 rs in
      if decide (first = nullrev) then Ok (zrange 0 len)
      else Ok (descendants_loop (revs (first + 1) None) (list_to_set rs))
  end.

(** [descendant] *)
Fixpoint descendant_loop (is_ : list Z) (end_ : Z) : bool :=
  match is_ with
  | [] => false
  | i :: is_ =>
      if decide (i = end_) then true
      else if decide (i > end_) then false
      else descendant_loop is_ end_
  end.

Definition descendant (start end_ : Z) : res bool :=
  if decide (start = nullrev) then Ok true
  else let* ds := descendants [start] in Ok (descendant_loop ds end_).

(** [children] *)
Definition children_of (p r : Z) : list Z :=
  let prevs := filter (fun pr => pr ≠ nullrev) (pfunc r) in
  match prevs with
  | _ :: _ => map (fun _ => r) (filter (fun pr => pr = p) prevs)
  | [] => if decide (p = nullrev) then [r] else []
  end.

Definition children (p : Z) : list Z := concat (map (children_of p) (revs (p + 1) None)).

(** [_headrevs]: the flags of the revisions; index -1 is the extra last flag. *)
Definition clear_flag (ishead : list bool) (p : Z) : list bool :=
  <[Z.to_nat (if decide (p < 0) then Z.of_nat (length ishead) + p else p) := false]> ishead.

Fixpoint headrevs_loop (rs : list Z) (ishead : list bool) : list bool :=
  match rs with
  | [] => ishead
  | r :: rs =>
      let ishead := <[Z.to_nat r := true]> ishead in
      headrevs_loop rs (foldl clear_flag ishead (pfunc r))
  end.

Definition headrevs : list Z :=
  if decide (len = 0) then [nullrev]
  else
    let ishead := headrevs_loop (zrange 0 len) (replicate (Z.to_nat (len + 1)) false) in
    filter (fun r => ishead !! Z.to_nat r = Some true) (zrange 0 (len + 1)).

(** [heads] with a start or stops: reachable revisions and heads found. *)
Definition heads_parent (stoprevs : gset Z) (r : Z) (st : gset Z * gset Z) (p : Z) : gset Z * gset Z :=
  let '(reachable, heads) := st in
  let '(reachable, heads) :=
    if decide (p ∈ reachable) then
      (if decide (r ∈ stoprevs) then reachable else {[r]} ∪ reachable, {[r]} ∪ heads)
    else (reachable, heads) in
  if decide (p ∈ heads /\ p ∉ stoprevs) then (reachable, heads ∖ {[p]}) else (reachable, heads).

Fixpoint heads_loop (stoprevs : gset Z) (rs : list Z) (st : gset Z * gset Z) : gset Z * gset Z :=
  match rs with
  | [] => st
  | r :: rs => heads_loop stoprevs rs (foldl (heads_parent stoprevs r) st (pfunc r))
  end.

Definition heads_from (start : Z) (stop : list Z) : gset Z :=
  (heads_loop (list_to_set stop) (revs (start + 1) None) ({[start]}, {[start]})).2.

Definition heads (start : option Z) (stop : option (list Z)) : gset Z :=
  match start, stop with
  | None, None => if decide (len = 0) then {[nullrev]} else list_to_set headrevs
  | _, _ =>
      heads_from (match start with Some s => s | None => nullrev end)
                 (match stop with Some l => l | None => [] end)
  end.

(** [findcommonmissing]: the lazy set [has] and the walk over the missing
    revisions. *)
Record lazyset := LazySet { addedvalues : gset Z; lazyvalues : LazyAncestors.lazyancestors }.

Definition lazyset_contains (value : Z) (s : lazyset) : res (bool * lazyset) :=
  if decide (value ∈ addedvalues s) then Ok (true, s)
  else
    let* (b, lv) := LazyAncestors.contains pfunc value (lazyvalues s) in
    Ok (b, LazySet (addedvalues s) lv).

(** [[x for x in xs if x not in has]] *)
Fixpoint not_in_has (xs : list Z) (has : lazyset) : res (list Z * lazyset) :=
  match xs with
  | [] => Ok ([], has)
  | x :: xs =>
      let* (b, has) := lazyset_contains x has in
      let* (rest, has) := not_in_has xs has in
      Ok (if b : bool then rest else x :: rest, has)
  end.

(** The parent links of the revisions that are not in [missing]: how much the
    walk can still queue. *)
Definition unvisited (missing : gset Z) : nat :=
  sum_list (map (fun r => if decide (r ∈ missing) then O else length (pfunc r)) (zrange 0 len)).

Fixpoint missing_loop (fuel : nat) (visit : list Z) (missing : gset Z) (has : lazyset) :
    res (gset Z * lazyset) :=
  match fuel with
  | O => Err OutOfFuel
  | S fuel =>
      match visit with
      | [] => Ok (missing, has)
      | r :: visit =>
          if decide (r ∈ missing) then missing_loop fuel visit missing has
          else
            let* (ps, has) := not_in_has (pfunc r) has in
            missing_loop fuel (visit ++ ps) ({[r]} ∪ missing) has
      end
  end.

Definition findcommonmissing (common heads : list Z) : res (lazyset * list Z) :=
  let has := LazySet ({[nullrev]} ∪ list_to_set common) (LazyAncestors.init common 0 false) in
  let* (visit, has) := not_in_has heads has in
  let* (missing, has) := missing_loop (S (length visit + unvisited ∅)) visit ∅ has in
  Ok (has, zsort (elements missing)).

(** [findmissingrevs] *)
Definition findmissingrevs (common heads : option (list Z)) : list Z :=
  let common := match common with Some c => c | None => [nullrev] end in
  let heads := match heads with Some h => h | None => headrevs end in
  (IncrementalMissing.missingancestors pfunc heads (IncrementalMissing.init common)).1.

(** [commonancestorsheads] and [isancestor] *)
Definition commonancestorsheads (a b : Z) : gset Z :=
  CommonAncestors.commonancestorsheads pfunc {[a; b]}.

Definition isancestor (a b : Z) : bool := bool_decide (a ∈ commonancestorsheads a b).
End methods.

Example queries_example :
  let pf := Revlog.pfunc_of example_index in
  descendants pf 6 [2; 3] = Ok [4] /\ headrevs pf 6 = [4; 5] /\ children pf 6 1 = [2; 3] /\
  elements (heads pf 6 (Some 1) None) = [4] /\ descendant pf 6 1 4 = Ok true /\
  (exists h, findcommonmissing pf 6 [2] [4; 5] = Ok (h, [3; 4; 5])) /\
  isancestor pf 1 4 = true /\ isancestor pf 5 4 = false.
Proof. split_and!; try (vm_compute; reflexivity). eexists. vm_compute. reflexivity. Qed.

Section correctness.
Context (pfunc : Z -> list Z) `{!RevDag pfunc} (len : Z).

(** ** Descendants *)

Lemma descendants_loop_spec (rs : list Z) i n seen :
  i + Z.of_nat n = len -> 0 <= i -> (forall r, r ∈ rs -> 0 <= r) ->
  (forall x, x ∈ seen <-> x ∈ rs \/ (x < i /\ exists r, r ∈ rs /\ anc pfunc r x)) ->
  let l := descendants_loop pfunc (zrange i len) seen in
  ascending l /\
  forall x, x ∈ l <-> i <= x < len /\ exists r, r ∈ rs /\ sanc pfunc r x.
Proof.
  intros Hn Hi Hrs. revert i Hn Hi seen. induction n as [|n IH]; intros i Hn Hi seen Hseen.
  { rewrite zrange_nil by lia. simpl. split; [constructor|]. intros x. rewrite elem_of_nil. lia. }
  rewrite zrange_cons by lia. cbn [descendants_loop].
  assert (Exists (fun x => x ≠ nullrev /\ x ∈ seen) (pfunc i) <-> exists r, r ∈ rs /\ sanc pfunc r i) as Hex.
  { rewrite Exists_exists. split.
    - intros (p & Hp & Hne & Hs). assert (parent pfunc i p) as Hpar by done.
      apply Hseen in Hs as [Hs|[_ (r & Hr & Ha)]].
      + exists p. split; [done|]. apply sanc_cases. eauto with hg.
      + exists r. split; [done|]. apply sanc_cases. eauto.
    - intros (r & Hr & (p & [Hp Hne] & Ha)%sanc_cases). exists p. split; [done|]. split; [done|].
      apply Hseen. right. assert (parent pfunc i p) as Hpar by done.
      apply parent_below in Hpar; [|done]. split; [lia|]. eauto. }
  case_decide as Hd.
  - destruct (IH (i + 1)) with (seen := {[i]} ∪ seen) as [Hasc Hel]; [lia|lia| |].
    { intros x. rewrite elem_of_union, elem_of_singleton, Hseen. apply Hex in Hd as (r & Hr & Ha). split.
      - intros [->|[Hx|[Hx Hex']]]; [right|by left|right]; [|split; [lia|done]].
        split; [lia|]. exists r. split; [done|]. by apply sanc_anc.
      - intros [Hx|[Hx Hex']]; [by auto|]. destruct (decide (x = i)); [by left|].
        right. right. split; [lia|done]. }
    split.
    + constructor; [done|]. apply Forall_forall. intros x [? _]%Hel. lia.
    + intros x. rewrite elem_of_cons, Hel. split.
      * intros [->|[? ?]]; [split; [lia|by apply Hex]|split; [lia|done]].
      * intros [Hx Hex']. destruct (decide (x = i)); [by left|right]. split; [lia|done].
  - destruct (IH (i + 1)) with (seen := seen) as [Hasc Hel]; [lia|lia| |].
    { intros x. rewrite Hseen. split; [intros [?|[? ?]]; [by left|right; split; [lia|done]]|].
      intros [Hx|[Hx (r & Hr & Ha)]]; [by left|]. destruct (decide (x = i)) as [->|].
      - apply anc_sanc_cases in Ha as [->|Ha]; [by left|]. destruct Hd. apply Hex. eauto.
      - right. split; [lia|]. eauto. }
    split; [done|]. intros x. rewrite Hel. split; [intros [? ?]; split; [lia|done]|].
    intros [Hx Hex']. destruct (decide (x = i)) as [->|]; [|split; [lia|done]].
    destruct Hd. by apply Hex.
Qed.

(** The descendants in the range above [first] are all of them. *)
Lemma descendants_spec rs :
  rs ≠ [] -> (forall r, r ∈ rs -> nullrev <= r) -> nullrev ∉ rs -> 0 <= len ->
  exists l, descendants pfunc len rs = Ok l /\ ascending l /\
    forall x, x ∈ l <-> x < len /\ exists r, r ∈ rs /\ sanc pfunc r x.
Proof.
  intros Hne Hge Hnull Hlen. unfold descendants. destruct rs as [|r0 rs0]; [done|].
  set (rs := r0 :: rs0) in *.
  assert (forall r, r ∈ rs -> 0 <= r) as Hge0.
  { intros r Hr. specialize (Hge r Hr). assert (r ≠ nullrev) by congruence. unfold nullrev in *. lia. }
  pose proof (zmin_list_in 0 rs Hne) as Hmin.
  rewrite decide_False by congruence. eexists. split; [reflexivity|].
  pose proof (zmin_list_le 0 rs) as Hle. pose proof (Hge0 _ Hmin) as Hf0.
  set (first := zmin_list 0 rs) in *. unfold revs.
  destruct (decide (len <= first)) as [Hout|Hin].
  { rewrite zrange_nil by lia. split; [constructor|]. intros x. rewrite elem_of_nil. split; [done|].
    intros (Hx & r & Hr & Ha). apply sanc_lt in Ha; [|done]. specialize (Hle r Hr). lia. }
  destruct (descendants_loop_spec rs (first + 1) (Z.to_nat (len - first - 1)) (list_to_set rs)) as [Ha Hel];
    [lia|lia|done| |].
  { intros x. rewrite elem_of_list_to_set. split; [by left|]. intros [?|(Hx & r & Hr & Ha)]; [done|].
    pose proof (anc_le _ _ _ Ha). specialize (Hle r Hr). assert (x = r) as -> by lia. done. }
  split; [exact Ha|]. intros x. rewrite Hel. split; [intros [? ?]; split; [lia|done]|].
  intros (Hx & r & Hr & Hs). split; [|eauto]. apply sanc_lt in Hs; [|done]. specialize (Hle r Hr). lia.
Qed.

(** [descendants] returns for every non-empty list of revisions, in
    ascending order, exactly the proper descendants of its elements, and the
    whole revlog when the null revision is among them. *)
Theorem descendants_correct (rs : list Z) :
  rs ≠ [] -> (forall r, r ∈ rs -> nullrev <= r) -> 0 <= len ->
  exists l, descendants pfunc len rs = Ok l /\ ascending l /\
    forall x, x ∈ l <-> 0 <= x < len /\ (nullrev ∈ rs \/ exists r, r ∈ rs /\ sanc pfunc r x).
Proof.
  intros Hne Hge Hlen. destruct (decide (nullrev ∈ rs)) as [Hnull|Hnull].
  - exists (zrange 0 len). split_and!; [|apply zrange_ascending|].
    + unfold descendants. destruct rs as [|r0 rs0]; [done|]. rewrite decide_True; [done|].
      pose proof (zmin_list_le 0 _ _ Hnull). pose proof (Hge _ (zmin_list_in 0 _ Hne)).
      unfold nullrev in *. lia.
    + intros x. rewrite elem_of_zrange. tauto.
  - destruct (descendants_spec rs Hne Hge Hnull Hlen) as (l & E & Ha & Hel).
    exists l. split_and!; auto. intros x. rewrite Hel. split.
    + intros (Hx & r & Hr & Hs). pose proof (sanc_lt _ _ _ Hs). split; [lia|eauto].
    + intros ([_ Hx] & [?|?]); [done|]. by split.
Qed.

Lemma descendant_loop_spec l x : ascending l -> descendant_loop l x = bool_decide (x ∈ l).
Proof.
  induction 1 as [|i l Hs IH HF]; [done|]. cbn [descendant_loop].
  rewrite Forall_forall in HF.
  destruct (decide (i = x)) as [->|E]; [by rewrite bool_decide_true by (by left)|].
  destruct (decide (i > x)) as [Hgt|Hgt].
  - symmetry. apply bool_decide_eq_false. rewrite elem_of_cons. intros [?|Hx]; [done|].
    specialize (HF x Hx). lia.
  - rewrite IH. apply bool_decide_ext. rewrite elem_of_cons. split; [by right|]. by intros [?|?].
Qed.

(** [descendant] decides whether a revision is a proper descendant of another. *)
Lemma descendant_correct (start end_ : Z) :
  0 <= start -> 0 <= end_ < len ->
  exists d, descendant pfunc len start end_ = Ok d /\ (d = true <-> sanc pfunc start end_).
Proof.
  intros Hs He. unfold descendant. rewrite decide_False by (unfold nullrev; lia).
  destruct (descendants_spec [start]) as (l & -> & Ha & Hel); [done| | |lia|].
  - intros r ->%list_elem_of_singleton. unfold nullrev. lia.
  - intros ?%list_elem_of_singleton. unfold nullrev in *. lia.
  - cbn [rbind]. eexists. split; [reflexivity|]. rewrite descendant_loop_spec, bool_decide_eq_true, Hel by done.
    setoid_rewrite list_elem_of_singleton. split.
    + by intros (_ & r & -> & ?).
    + intros. split; [lia|]. eauto.
Qed.

(** ** Heads *)

(** No revision of the revlog below [n] has [x] as a parent. *)
Definition childless (n x : Z) : Prop := forall c, 0 <= c < n -> x ∉ pfunc c.

Lemma clear_flags_length ps ishead : length (foldl clear_flag ishead ps) = length ishead.
Proof. revert ishead. induction ps as [|p ps IH]; intros f; [done|]. simpl. rewrite IH. apply length_insert. Qed.

Lemma clear_flags_lookup ps ishead x :
  (x < length ishead)%nat -> (forall p, p ∈ ps -> p = nullrev \/ 0 <= p) ->
  foldl clear_flag ishead ps !! x = Some true <->
  ishead !! x = Some true /\ Z.of_nat x ∉ ps /\ (nullrev ∈ ps -> S x ≠ length ishead).
Proof.
  revert ishead. induction ps as [|p ps IH]; intros f Hx Hps; simpl.
  { split; [|tauto]. intros H. split_and!; [done|apply not_elem_of_nil|by intros []%elem_of_nil]. }
  assert (length (clear_flag f p) = length f) as Hlen by apply length_insert.
  rewrite IH; [|by rewrite Hlen|intros q Hq; apply Hps; by right]. rewrite Hlen. unfold clear_flag.
  assert (p = nullrev \/ 0 <= p) as Hp by (apply Hps; by left).
  set (k := Z.to_nat _). rewrite not_elem_of_cons, elem_of_cons.
  assert ((k = x) <-> Z.of_nat x = p \/ (p = nullrev /\ S x = length f)) as Hk.
  { unfold k, nullrev in *. destruct (decide (p < 0)); lia. }
  destruct (decide (k = x)) as [E|E].
  - rewrite E, list_lookup_insert_eq by done. apply Hk in E. split; [naive_solver|].
    intros (_ & [H1 H2] & H3). destruct E as [?|[? ?]]; [done|]. exfalso. apply H3; auto.
  - rewrite list_lookup_insert_ne by done. split.
    + intros (H1 & H2 & H3). split_and!; auto; [intros ?; apply E, Hk; auto|].
      intros [?|?]; [|auto]. intros ?. apply E, Hk. auto.
    + intros (H1 & [_ H2] & H3). split_and!; auto.
Qed.

Lemma headrevs_loop_spec r n ishead :
  r + Z.of_nat n = len -> 0 <= r -> length ishead = Z.to_nat (len + 1) ->
  (forall x, 0 <= x <= len -> ishead !! Z.to_nat x = Some true <-> x < r /\ childless r x) ->
  forall x, 0 <= x <= len ->
    headrevs_loop pfunc (zrange r len) ishead !! Z.to_nat x = Some true <-> x < len /\ childless len x.
Proof.
  revert r ishead. induction n as [|n IH]; intros r ishead Hn Hr Hl Hinv.
  { rewrite zrange_nil by lia. assert (r = len) as <- by lia. exact Hinv. }
  rewrite zrange_cons by lia. cbn [headrevs_loop]. apply IH; [lia|lia| |].
  { rewrite clear_flags_length, length_insert. done. }
  intros x Hx. rewrite clear_flags_lookup; cycle 1.
  { rewrite length_insert. lia. }
  { intros p Hp. apply parents_below in Hp as [?|?]; auto. right. lia. }
  rewrite length_insert, Z2Nat.id by lia.
  assert (childless (r + 1) x <-> childless r x /\ x ∉ pfunc r) as Hch.
  { unfold childless. split.
    - intros H. split; [intros c Hc; apply H; lia|apply H; lia].
    - intros [H1 H2] c Hc. destruct (decide (c = r)) as [->|]; [done|]. apply H1. lia. }
  rewrite Hch. destruct (decide (x = r)) as [->|Hne].
  - rewrite list_lookup_insert_eq by lia. split.
    + intros (_ & H1 & _). split; [lia|]. split; [|done]. intros c Hc Hin.
      apply parents_below in Hin. unfold nullrev in *. lia.
    + intros (_ & _ & H). split_and!; auto. lia.
  - rewrite list_lookup_insert_ne by lia. rewrite Hinv by lia. split.
    + intros ((? & ?) & ? & _). split_and!; auto. lia.
    + intros (? & ? & ?). split_and!; auto; lia.
Qed.

(** [_headrevs] returns in ascending order exactly the revisions without
    children; the flag the null parent clears is never one of a revision. *)
Theorem headrevs_correct :
  0 < len ->
  ascending (headrevs pfunc len) /\
  forall x, x ∈ headrevs pfunc len <-> 0 <= x < len /\ childless len x.
Proof.
  intros Hlen. unfold headrevs. rewrite decide_False by lia.
  split; [apply StronglySorted_filter, zrange_ascending|]. intros x.
  rewrite list_elem_of_filter, elem_of_zrange.
  assert (forall y, 0 <= y <= len ->
    headrevs_loop pfunc (zrange 0 len) (replicate (Z.to_nat (len + 1)) false) !! Z.to_nat y = Some true
    <-> y < len /\ childless len y) as H.
  { apply (headrevs_loop_spec 0 (Z.to_nat len)); [lia|lia|apply length_replicate|].
    intros y Hy. rewrite lookup_replicate. split; [naive_solver|]. lia. }
  split.
  - intros [Hf Hx]. apply H in Hf; [|lia]. split; [lia|tauto].
  - intros [Hx Hc]. split; [|lia]. apply H; [lia|]. split; [lia|done].
Qed.

Lemma heads_parents_spec r ps reachable heads :
  (forall p, p ∈ ps -> p < r) ->
  let st := foldl (heads_parent ∅ r) (reachable, heads) ps in
  (forall x, x ∈ st.1 <-> x ∈ reachable \/ (x = r /\ exists p, p ∈ ps /\ p ∈ reachable)) /\
  (forall x, x ∈ st.2 <-> (x ∈ heads /\ x ∉ ps) \/ (x = r /\ exists p, p ∈ ps /\ p ∈ reachable)).
Proof.
  revert reachable heads. induction ps as [|p ps IH]; intros reachable heads Hps.
  { simpl. split; intros x; set_solver. }
  assert (p < r) as Hp by (apply Hps; by left).
  assert (forall q, q ∈ ps -> q < r) as Hps' by (intros q Hq; apply Hps; by right).
  assert (forall q, q ∈ ps -> q ≠ r) as Hne by (intros q Hq; specialize (Hps' q Hq); lia).
  assert (p ≠ r) as Hpr by lia.
  cbn [foldl]. set (st1 := heads_parent ∅ r (reachable, heads) p).
  assert (st1 = (if decide (p ∈ reachable) then {[r]} ∪ reachable else reachable,
                 (if decide (p ∈ reachable) then {[r]} ∪ heads else heads) ∖ {[p]})) as ->.
  { unfold st1, heads_parent. destruct (decide (p ∈ reachable)); simpl;
      rewrite ?(decide_False (P := r ∈ ∅)) by set_solver; case_decide as Hd; f_equal; set_solver. }
  destruct (IH (if decide (p ∈ reachable) then {[r]} ∪ reachable else reachable)
    ((if decide (p ∈ reachable) then {[r]} ∪ heads else heads) ∖ {[p]}) Hps') as [H1 H2].
  clear IH. split; intros x; [rewrite H1|rewrite H2]; clear H1 H2.
  - destruct (decide (p ∈ reachable)); setoid_rewrite elem_of_cons; [|naive_solver].
    rewrite elem_of_union, elem_of_singleton. naive_solver.
  - rewrite not_elem_of_cons, elem_of_difference, elem_of_singleton. setoid_rewrite elem_of_cons.
    destruct (decide (p ∈ reachable)).
    + rewrite elem_of_union, elem_of_singleton. setoid_rewrite elem_of_union.
      setoid_rewrite elem_of_singleton. split; [naive_solver|].
      intros [?|[-> ?]]; [naive_solver|]. left. split; [|naive_solver]. split; [by left|done].
    + naive_solver.
Qed.

(** The loop of [heads] without stops: reachable and unparented so far. *)
Lemma heads_loop_spec start r n reachable heads :
  r + Z.of_nat n = len -> 0 <= start -> start < r ->
  (forall x, x ∈ reachable <-> x < r /\ anc pfunc start x) ->
  (forall x, x ∈ heads <-> x < r /\ anc pfunc start x /\ childless r x) ->
  let st := heads_loop pfunc ∅ (zrange r len) (reachable, heads) in
  forall x, x ∈ st.2 <-> x < len /\ anc pfunc start x /\ childless len x.
Proof.
  revert r reachable heads. induction n as [|n IH]; intros r reachable heads Hn H0 Hs Hr Hh.
  { rewrite zrange_nil by lia. assert (r = len) as <- by lia. exact Hh. }
  rewrite zrange_cons by lia. cbn [heads_loop].
  assert (forall p, p ∈ pfunc r -> p < r) as Hps.
  { intros p Hp. apply parents_below in Hp. unfold nullrev in *. lia. }
  destruct (heads_parents_spec r (pfunc r) reachable heads Hps) as [H1 H2].
  destruct (foldl _ _ _) as [reachable' heads']. cbn [fst snd] in H1, H2.
  assert ((exists p, p ∈ pfunc r /\ p ∈ reachable) <-> anc pfunc start r) as Hany.
  { split.
    - intros (p & Hp & [Hlt Ha]%Hr). apply anc_cases. right. exists p. split; [|done]. split; [done|].
      pose proof (anc_le _ _ _ Ha). unfold nullrev. lia.
    - intros [->|(p & [Hp Hne] & Ha)]%anc_cases; [lia|]. exists p. split; [done|]. apply Hr.
      split; [by apply Hps|done]. }
  apply (IH (r + 1)); [lia|lia|lia| |].
  - intros x. rewrite H1, Hr, Hany. split.
    + intros [[? ?]|[-> ?]]; (split; [lia|done]).
    + intros [? ?]. destruct (decide (x = r)) as [->|]; [by right|left]. split; [lia|done].
  - intros x. rewrite H2, Hh, Hany.
    assert (childless (r + 1) x <-> childless r x /\ x ∉ pfunc r) as ->.
    { unfold childless. split.
      - intros H. split; [intros c Hc; apply H; lia|apply H; lia].
      - intros [H3 H4] c Hc. destruct (decide (c = r)) as [->|]; [done|]. apply H3. lia. }
    split.
    + intros [((? & ? & ?) & ?)|[-> ?]]; [split_and!; auto; lia|]. split_and!; auto; [lia| |].
      * intros c Hc Hin. apply parents_below in Hin. unfold nullrev in *. lia.
      * intros Hin. specialize (Hps r Hin). lia.
    + intros (? & ? & ? & ?). destruct (decide (x = r)) as [->|]; [by right|left]. split_and!; auto. lia.
Qed.

(** [heads(start)] returns exactly the descendants of [start] (itself
    included) that have no children. *)
Theorem heads_start_correct (start x : Z) :
  0 <= start < len ->
  x ∈ heads pfunc len (Some start) None <-> x < len /\ anc pfunc start x /\ childless len x.
Proof.
  intros Hs. unfold heads, heads_from, revs.
  apply (heads_loop_spec start (start + 1) (Z.to_nat (len - start - 1))); [lia|lia|lia| |].
  - intros y. rewrite elem_of_singleton. split; [intros ->; split; [lia|apply anc_refl]|].
    intros [? Ha]. pose proof (anc_le _ _ _ Ha). lia.
  - intros y. rewrite elem_of_singleton. split.
    + intros ->. split_and!; [lia|apply anc_refl|]. intros c Hc Hin.
      apply parents_below in Hin. unfold nullrev in *. lia.
    + intros (? & Ha & _). pose proof (anc_le _ _ _ Ha). lia.
Qed.

(** ** Missing revisions *)

Section missing.
Variables (common hds : list Z).

(** What the lazy set of [findcommonmissing] stands for. *)
Definition has_prop (x : Z) : Prop := x = nullrev \/ anc_of pfunc (list_to_set common) x.

Record has_ok (s : lazyset) : Prop := {
  ho_added : addedvalues s = {[nullrev]} ∪ list_to_set common;
  ho_wf : LazyAncestors.wf pfunc (lazyvalues s);
  ho_init : LazyAncestors.initrevs (lazyvalues s) = common;
  ho_stop : LazyAncestors.stoprev (lazyvalues s) = 0;
  ho_incl : LazyAncestors.inclusive (lazyvalues s) = false
}.

Lemma lazyset_contains_spec x s :
  has_ok s ->
  exists c s', lazyset_contains pfunc x s = Ok (c, s') /\ has_ok s' /\ (c = true <-> has_prop x).
Proof.
  intros Hok. pose proof Hok as [Ha Hw Hi Hst Hin]. unfold lazyset_contains.
  case_decide as Hd; rewrite Ha, elem_of_union, elem_of_singleton, elem_of_list_to_set in Hd.
  - exists true, s. split_and!; auto. split; [intros _|done]. destruct Hd as [->|Hd]; [by left|right].
    apply anc_of_elem. by apply elem_of_list_to_set.
  - destruct (LazyAncestors.contains_spec pfunc x (lazyvalues s) Hw)
      as (c & lv & -> & Hw' & E1 & E2 & E3 & Hc). cbn [rbind].
    exists c, (LazySet (addedvalues s) lv). split_and!; [done|split; simpl; congruence|].
    rewrite Hc, Hi, Hst, Hin. unfold LazyAncestors.member, has_prop, anc_of. split.
    + intros [[? _]|(? & r & Hr & Hs)]; [done|]. right. exists r.
      split; [by apply elem_of_list_to_set|by apply sanc_anc].
    + intros [->|(r & Hr%elem_of_list_to_set & Hs)]; [naive_solver|]. right.
      apply anc_sanc_cases in Hs as [->|Hs]; [naive_solver|]. pose proof (sanc_lt _ _ _ Hs).
      split; [lia|]. eauto.
Qed.

Lemma not_in_has_spec xs s :
  has_ok s ->
  exists ys s', not_in_has pfunc xs s = Ok (ys, s') /\ has_ok s' /\
    (length ys <= length xs)%nat /\ (forall x, x ∈ ys <-> x ∈ xs /\ ~ has_prop x).
Proof.
  revert s. induction xs as [|x xs IH]; intros s Hok; cbn [not_in_has].
  { exists [], s. split_and!; auto. intros x. rewrite elem_of_nil. tauto. }
  destruct (lazyset_contains_spec x s Hok) as (c & s1 & -> & Hok1 & Hc). cbn [rbind].
  destruct (IH s1 Hok1) as (ys & s2 & -> & Hok2 & Hlen & Hys). cbn [rbind].
  eexists _, s2. split; [reflexivity|]. destruct c; simpl; split_and!; auto; try lia.
  - intros y. rewrite Hys, elem_of_cons. split; [tauto|]. intros [[->|?] Hn]; [|tauto]. tauto.
  - intros y. rewrite !elem_of_cons, Hys. split; [|tauto]. intros [->|?]; [|tauto].
    split; [by left|]. intros Hx. by apply Hc in Hx.
Qed.

(** The walk: what is found, and what is still to be visited. *)
Record winv (visit : list Z) (missing : gset Z) : Prop := {
  wi_visit : forall x, x ∈ visit -> ~ has_prop x /\ anc_of pfunc (list_to_set hds) x;
  wi_missing : forall x, x ∈ missing -> ~ has_prop x /\ anc_of pfunc (list_to_set hds) x;
  wi_heads : forall h, h ∈ hds -> ~ has_prop h -> h ∈ missing \/ h ∈ visit;
  wi_closed : forall x p, x ∈ missing -> parent pfunc x p -> ~ has_prop p -> p ∈ missing \/ p ∈ visit
}.

Lemma unvisited_add missing r :
  0 <= r < len -> r ∉ missing -> (unvisited pfunc len ({[r]} ∪ missing) + length (pfunc r) <= unvisited pfunc len missing)%nat.
Proof.
  intros Hr Hn. unfold unvisited. rewrite (zrange_app 0 r len), (zrange_cons r len) by lia.
  assert (forall l, (sum_list (map (fun x => if decide (x ∈ {[r]} ∪ missing) then O else length (pfunc x)) l)
    <= sum_list (map (fun x => if decide (x ∈ missing) then O else length (pfunc x)) l))%nat) as Hle.
  { induction l as [|x l IH]; [done|]. simpl.
    destruct (decide (x ∈ {[r]} ∪ missing)), (decide (x ∈ missing)); try lia. set_solver. }
  assert (forall l l', sum_list (l ++ l') = (sum_list l + sum_list l')%nat) as Happ.
  { induction l as [|x l IH]; intros l'; simpl; [done|]. rewrite IH. lia. }
  rewrite !map_app, !Happ, !map_cons. cbn [sum_list sum_list_with foldr].
  rewrite (decide_True (P := r ∈ {[r]} ∪ missing)) by set_solver.
  rewrite (decide_False (P := r ∈ missing)) by done.
  pose proof (Hle (zrange 0 r)). pose proof (Hle (zrange (r + 1) len)). simpl. lia.
Qed.

Lemma winv_step r visit missing ps :
  winv (r :: visit) missing -> r ∉ missing ->
  (forall x, x ∈ ps <-> x ∈ pfunc r /\ ~ has_prop x) -> winv (visit ++ ps) ({[r]} ∪ missing).
Proof.
  intros [W1 W2 W3 W4] Hn Hps. destruct (W1 r) as [Hr1 Hr2]; [by left|].
  assert (forall p, parent pfunc r p -> anc_of pfunc (list_to_set hds) p) as Hup.
  { intros p Hp. eapply anc_of_trans; [by apply anc_parent|done]. }
  split.
  - intros x [Hx|Hx]%elem_of_app; [apply W1; by right|]. apply Hps in Hx as [Hx Hh]. split; [done|].
    apply Hup. split; [done|]. intros ->. apply Hh. by left.
  - intros x [->%elem_of_singleton|Hx]%elem_of_union; [done|]. by apply W2.
  - intros h Hh Hnh. destruct (W3 h Hh Hnh) as [?|[->|?]%elem_of_cons]; set_solver.
  - intros x p [->%elem_of_singleton|Hx]%elem_of_union Hp Hnp.
    + right. apply elem_of_app. right. apply Hps. split; [apply Hp|done].
    + destruct (W4 x p Hx Hp Hnp) as [?|[->|?]%elem_of_cons]; set_solver.
Qed.

Hypothesis heads_range : forall h, h ∈ hds -> nullrev <= h < len.

Lemma heads_anc_range x : ~ has_prop x -> anc_of pfunc (list_to_set hds) x -> 0 <= x < len.
Proof.
  intros Hn (h & Hh%elem_of_list_to_set & Ha). specialize (heads_range h Hh).
  pose proof (anc_le _ _ _ Ha). assert (x ≠ nullrev) by (intros ->; apply Hn; by left).
  apply anc_sanc_cases in Ha as [->|Hs]; [|pose proof (sanc_lt _ _ _ Hs); lia].
  unfold nullrev in *. lia.
Qed.

Lemma missing_loop_spec fuel visit missing s :
  winv visit missing -> has_ok s -> (length visit + unvisited pfunc len missing < fuel)%nat ->
  exists missing' s', missing_loop pfunc fuel visit missing s = Ok (missing', s') /\ winv [] missing'.
Proof.
  revert visit missing s. induction fuel as [|fuel IH]; intros visit missing s Hw Hok Hf; [lia|].
  cbn [missing_loop]. destruct visit as [|r visit]; [by exists missing, s|].
  simpl in Hf. case_decide as Hd.
  - apply IH; auto; [|lia]. destruct Hw as [W1 W2 W3 W4]. split; auto.
    + intros x Hx. apply W1. by right.
    + intros h Hh Hnh. destruct (W3 h Hh Hnh) as [?|[->|?]%elem_of_cons]; auto.
    + intros x p Hx Hp Hnp. destruct (W4 x p Hx Hp Hnp) as [?|[->|?]%elem_of_cons]; auto.
  - destruct (not_in_has_spec (pfunc r) s Hok) as (ps & s' & -> & Hok' & Hlen & Hps). cbn [rbind].
    apply IH; [by apply winv_step|done|].
    destruct (wi_visit _ _ Hw r) as [Hr1 Hr2]; [by left|].
    pose proof (unvisited_add missing r (heads_anc_range r Hr1 Hr2) Hd). rewrite length_app. lia.
Qed.

(** Everything missing was found. *)
Lemma winv_complete missing x :
  winv [] missing -> x ∈ missing <-> ~ has_prop x /\ anc_of pfunc (list_to_set hds) x.
Proof.
  intros [W1 W2 W3 W4]. split; [apply W2|]. intros [Hn (h & Hh%elem_of_list_to_set & Ha)].
  assert (~ has_prop h -> h ∈ missing) as Hm.
  { intros Hnh. destruct (W3 h Hh Hnh) as [?|Hv]; [done|]. by apply elem_of_nil in Hv. }
  assert (forall a c, anc pfunc a c -> ~ has_prop a -> a ≠ nullrev -> ~ has_prop c) as Hup.
  { intros a c Hac Hna Hne [->|Hc]; [by apply anc_nullrev in Hac|]. apply Hna. right.
    by eapply anc_of_trans. }
  assert (x ≠ nullrev) as Hxn by (intros ->; apply Hn; by left).
  specialize (Hm (Hup x h Ha Hn Hxn)). clear Hh. induction Ha as [|y z w Hyz Ha IH]; [done|].
  apply IH; auto. destruct (W4 y z Hm Hyz (Hup w z Ha Hn Hxn)) as [?|Hv]; [done|].
  by apply elem_of_nil in Hv.
Qed.
End missing.

(** [findcommonmissing] terminates and returns in ascending order exactly
    the ancestors of the heads that are not ancestors of the common revisions,
    although it tests them against a set that is computed as it is queried. *)
Theorem findcommonmissing_correct (common hds : list Z) :
  (forall h, h ∈ hds -> nullrev <= h < len) ->
  exists has l, findcommonmissing pfunc len common hds = Ok (has, l) /\ ascending l /\
    forall x, x ∈ l <-> x ≠ nullrev /\ anc_of pfunc (list_to_set hds) x /\
                       ~ anc_of pfunc (list_to_set common) x.
Proof.
  intros Hr. unfold findcommonmissing. set (has := LazySet _ _).
  assert (has_ok common has) as Hok.
  { split; simpl; auto. by apply LazyAncestors.lazy_init_wf. }
  destruct (not_in_has_spec common hds has Hok) as (visit & s' & -> & Hok' & Hlen & Hv). cbn [rbind].
  destruct (missing_loop_spec common hds Hr (S (length visit + unvisited pfunc len ∅)) visit ∅ s')
    as (missing & s2 & -> & Hw); [|exact Hok'|lia|].
  { split; [|set_solver|set_solver|set_solver].
    intros x [Hx Hn]%Hv. split; [done|]. apply anc_of_elem. by apply elem_of_list_to_set. }
  cbn [rbind]. eexists _, _. split; [reflexivity|]. split.
  - apply zsort_ascending, NoDup_elements.
  - intros x. rewrite elem_of_zsort, elem_of_elements, (winv_complete common hds missing x Hw).
    unfold has_prop. tauto.
Qed.

(** [isancestor(a, b)], computed by membership in the heads of the common
    ancestors of [a] and [b], is exactly the ancestor relation on revisions. *)
Theorem isancestor_correct (a c : Z) :
  0 <= a -> 0 <= c -> isancestor pfunc a c = true <-> anc pfunc a c.
Proof.
  intros Ha Hc. unfold isancestor, commonancestorsheads. rewrite bool_decide_eq_true.
  rewrite CommonAncestors.commonancestorsheads_spec by (done || set_solver || (unfold nullrev; set_solver by lia)).
  unfold CommonAncestors.is_head, common_anc. split.
  - intros (_ & H & _). apply H. set_solver.
  - intros H. split; [done|]. split.
    + intros r [->%elem_of_singleton| ->%elem_of_singleton]%elem_of_union; auto with hg.
    + intros y Hy Hay. apply (anc_antisym pfunc); [|done]. apply Hy. set_solver.
Qed.
End correctness.

(** ** Witnesses *)

Lemma descendants_witness :
  exists l, descendants (Revlog.pfunc_of example_index) 6 [2; 3] = Ok l /\ ascending l /\
    forall x, x ∈ l <-> 0 <= x < 6 /\
      (nullrev ∈ [2; 3] \/ exists r, r ∈ [2; 3] /\ sanc (Revlog.pfunc_of example_index) r x).
Proof.
  apply (@descendants_correct (Revlog.pfunc_of example_index) example_dag 6 [2; 3]); [done| |lia].
  apply Forall_forall. apply (bool_decide_unpack _). vm_compute. exact I.
Defined.

Lemma headrevs_witness :
  headrevs (Revlog.pfunc_of example_index) 6 = [4; 5] /\
  ascending (headrevs (Revlog.pfunc_of example_index) 6).
Proof.
  split; [vm_compute; reflexivity|].
  apply (@headrevs_correct (Revlog.pfunc_of example_index) example_dag 6). lia.
Defined.

Lemma heads_start_witness :
  4 ∈ heads (Revlog.pfunc_of example_index) 6 (Some 1) None <->
  4 < 6 /\ anc (Revlog.pfunc_of example_index) 1 4 /\ childless (Revlog.pfunc_of example_index) 6 4.
Proof. apply (@heads_start_correct (Revlog.pfunc_of example_index) example_dag 6 1 4). lia. Defined.

Lemma findcommonmissing_witness :
  exists has l, findcommonmissing (Revlog.pfunc_of example_index) 6 [2] [4; 5] = Ok (has, l) /\ ascending l /\
    forall x, x ∈ l <-> x ≠ nullrev /\ anc_of (Revlog.pfunc_of example_index) (list_to_set [4; 5]) x /\
      ~ anc_of (Revlog.pfunc_of example_index) (list_to_set [2]) x.
Proof.
  apply (@findcommonmissing_correct (Revlog.pfunc_of example_index) example_dag 6 [2] [4; 5]).
  apply Forall_forall. apply (bool_decide_unpack _). vm_compute. exact I.
Defined.

Lemma isancestor_witness :
  isancestor (Revlog.pfunc_of example_index) 1 4 = true <-> anc (Revlog.pfunc_of example_index) 1 4.
Proof. apply (@isancestor_correct (Revlog.pfunc_of example_index) example_dag 1 4); lia. Defined.
End RevlogGraph.
