(* ===== verification/NodesBetween.v ===== *)
(** * Paths between revisions ([revlog.nodesbetween] of revlog.py)

    [nodesbetween] tags the ancestors of the heads from the top, then walks the
    revisions upwards from the lowest root collecting descendants, and sorts
    out which roots and heads are real.  The method works on nodes; here a node
    is its revision, [nullrev] standing for [nullid].  [set.pop] takes an
    arbitrary element: the order is the parameter [pick]. *)

From S2P Require Import Prelude Dag IncrementalMissing LazyAncestors CommonAncestors RevlogGraph.

Module NodesBetween.

(** [set.pop()] chooses some element of a non-empty set. *)
Class SetPop := {
  pick : gset Z -> Z;
  pick_in : forall s, s ≠ ∅ -> pick s ∈ s
}.

Section nodesbetween.
Context (pfunc : Z -> list Z) (len : Z) {pop : SetPop}.

(** The node stored at an index: the entry after the last revision is the null one. *)
Definition node (r : Z) : Z := if decide (r = len) then nullrev else r.

(** The loop [while nodestotag]: ancestors found and heads still believed real. *)
Fixpoint tag_loop (fuel : nat) (lowestrev : Z) (nodestotag ancestors : gset Z) (heads : gmap Z bool) :
    res (gset Z * gmap Z bool) :=
  match fuel with
  | O => Err OutOfFuel
  | S fuel =>
      if decide (nodestotag = ∅) then Ok (ancestors, heads)
      else
        let n := pick nodestotag in
        let nodestotag := nodestotag ∖ {[n]} in
        if decide (n = nullrev) then tag_loop fuel lowestrev nodestotag ancestors heads
        else if decide (n >= lowestrev) then
          if decide (n ∈ ancestors) then
            if decide (is_Some (heads !! n)) then
              tag_loop fuel lowestrev nodestotag ancestors (delete n heads)
            else tag_loop fuel lowestrev nodestotag ancestors heads
          else
            tag_loop fuel lowestrev
              (list_to_set (filter (fun p => p ≠ nullrev) (pfunc n)) ∪ nodestotag)
              ({[n]} ∪ ancestors) heads
        else tag_loop fuel lowestrev nodestotag ancestors heads
  end.

Record walk_state := Walk {
  w_descendants : gset Z;
  w_roots : gset Z;
  w_orderedout : list Z;
  w_heads : gmap Z bool
}.

Definition parent_in (n : Z) (s : gset Z) : Prop := Exists (fun p => p ∈ s) (pfunc n).

(** The descendant test of the loop, with its updates of the two sets. *)
Definition walk_descendant (lowestrev n : Z) (st : walk_state) : bool * walk_state :=
  if decide (lowestrev = nullrev) then (true, st)
  else if decide (n ∈ w_descendants st) then
    if decide (n ∈ w_roots st /\ parent_in n (w_descendants st)) then
      (true, Walk (w_descendants st) (w_roots st ∖ {[n]}) (w_orderedout st) (w_heads st))
    else (true, st)
  else if decide (parent_in n (w_descendants st)) then
    (true, Walk ({[n]} ∪ w_descendants st) (w_roots st) (w_orderedout st) (w_heads st))
  else (false, st).

Definition in_ancestors (ancestors : option (gset Z)) (n : Z) : Prop :=
  match ancestors with None => True | Some s => n ∈ s end.

#[global] Instance in_ancestors_dec ancestors n : Decision (in_ancestors ancestors n).
Proof. unfold in_ancestors. destruct ancestors; apply _. Defined.

Definition walk_heads (ancestors : option (gset Z)) (n : Z) (heads : gmap Z bool) : gmap Z bool :=
  match ancestors with
  | Some _ => if decide (is_Some (heads !! n)) then <[n:=true]> heads else heads
  | None => foldl (fun hd p => delete p hd) (<[n:=true]> heads) (pfunc n)
  end.

(** The body of the main loop. *)
Definition walk_step (lowestrev : Z) (ancestors : option (gset Z)) (st : walk_state) (r : Z) : walk_state :=
  let n := node r in
  let '(isdescendant, st) := walk_descendant lowestrev n st in
  if decide (isdescendant = true /\ in_ancestors ancestors n) then
    Walk (w_descendants st) (w_roots st) (w_orderedout st ++ [n])
      (walk_heads ancestors n (w_heads st))
  else st.

(** [head for head, flag in heads.iteritems() if flag] *)
Definition flagged (heads : gmap Z bool) : gset Z := dom (filter (fun kv => kv.2 = true) heads).

Definition assert_ (c : bool) : res unit := if c then Ok tt else Err AssertionError.

Definition walk (lowestrev highestrev : Z) (ancestors : option (gset Z)) (roots : list Z)
    (heads : gmap Z bool) : res (list Z * gset Z * gset Z) :=
  let st := foldl (walk_step lowestrev ancestors)
              (Walk (list_to_set roots) (list_to_set roots) [] heads)
              (RevlogGraph.revs len (Z.max lowestrev 0) (Some (highestrev + 1))) in
  let* _ := assert_ (bool_decide (w_orderedout st ≠ [])) in
  let* _ := assert_ (bool_decide (w_roots st ≠ ∅)) in
  let* _ := assert_ (bool_decide (flagged (w_heads st) ≠ ∅)) in
  Ok (w_orderedout st, w_roots st, flagged (w_heads st)).

Definition nonodes : list Z * gset Z * gset Z := ([], ∅, ∅).

(** [nodesbetween] for roots and heads that are given. *)
Definition nodesbetween_heads (roots : list Z) (lowestrev : Z) (heads : list Z) :
    res (list Z * gset Z * gset Z) :=
  match heads with
  | [] => Ok nonodes
  | _ =>
      let nodestotag := list_to_set heads in
      let highestrev := zmax_list 0 heads in
      let* (ancestors, hd) :=
        tag_loop (S (size nodestotag + RevlogGraph.unvisited pfunc len ∅)) lowestrev nodestotag ∅
          (list_to_map (map (fun h => (h, false)) heads)) in
      if decide (ancestors = ∅) then Ok nonodes
      else if decide (lowestrev > nullrev) then
        match filter (fun root => root ∈ ancestors) roots with
        | [] => Ok nonodes
        | roots => walk (zmin_list 0 roots) highestrev (Some ancestors) roots hd
        end
      else walk nullrev highestrev (Some ancestors) [nullrev] hd
  end.

Definition nodesbetween (roots heads : option (list Z)) : res (list Z * gset Z * gset Z) :=
  match roots with
  | Some [] => Ok nonodes
  | _ =>
      let '(roots, lowestrev) :=
        match roots with
        | Some rs => (rs, zmin_list 0 rs)
        | None => ([nullrev], nullrev)
        end in
      match heads with
      | None =>
          if decide (lowestrev = nullrev) then
            Ok (zrange 0 len, {[nullrev]}, RevlogGraph.heads pfunc len None None)
          else walk lowestrev (len - 1) None roots ∅
      | Some heads => nodesbetween_heads roots lowestrev heads
      end
  end.
End nodesbetween.

(** Take the smallest, or the largest, element. *)
Definition pop_min : SetPop := {| pick := zmin_set; pick_in := zmin_set_in |}.
Definition pop_max : SetPop := {| pick := zmax_set; pick_in := zmax_set_in |}.

Example between_example :
  nodesbetween (Revlog.pfunc_of example_index) 6 (pop := pop_min) (Some [1]) (Some [4; 5])
  = Ok ([1; 2; 3; 4], {[1]}, {[4]}) /\
  nodesbetween (Revlog.pfunc_of example_index) 6 (pop := pop_min) (Some [1]) None
  = Ok ([1; 2; 3; 4], {[1]}, {[4]}).
Proof. split; vm_compute; reflexivity. Qed.

(** The heads returned depend on the order in which the set is emptied: a head
    that is an ancestor of another one is only noticed when it was tagged
    before its child. *)
Lemma outheads_order_dependent :
  nodesbetween (Revlog.pfunc_of example_index) 6 (pop := pop_min) (Some [0]) (Some [1; 2])
  = Ok ([0; 1; 2], {[0]}, {[2]}) /\
  nodesbetween (Revlog.pfunc_of example_index) 6 (pop := pop_max) (Some [0]) (Some [1; 2])
  = Ok ([0; 1; 2], {[0]}, {[1; 2]}).
Proof. split; vm_compute; reflexivity. Qed.

(** A root that descends from another root is in the nodes but is not returned
    among the roots. *)
Lemma outroots_drop_descendants :
  nodesbetween (Revlog.pfunc_of example_index) 6 (pop := pop_min) (Some [0; 1]) (Some [2])
  = Ok ([0; 1; 2], {[0]}, {[2]}).
Proof. vm_compute. reflexivity. Qed.
(** ** Tagging the ancestors of the heads *)

Section tagging.
Context (pfunc : Z -> list Z) `{!RevDag pfunc} (len : Z) {pop : SetPop}.
Context (lowestrev : Z) (hs : gset Z).
Hypothesis hs_range : forall h, h ∈ hs -> nullrev <= h < len.

Record tinv (nodestotag ancestors : gset Z) (heads : gmap Z bool) : Prop := {
  ti_tag : forall x, x ∈ nodestotag -> anc_of pfunc hs x;
  ti_anc : forall x, x ∈ ancestors -> x ≠ nullrev /\ lowestrev <= x /\ anc_of pfunc hs x;
  ti_heads : forall h, h ∈ hs -> h ≠ nullrev -> lowestrev <= h -> h ∈ ancestors \/ h ∈ nodestotag;
  ti_parents : forall x p, x ∈ ancestors -> parent pfunc x p -> lowestrev <= p ->
    p ∈ ancestors \/ p ∈ nodestotag;
  ti_child : forall n, n ∈ nodestotag -> n ∈ ancestors -> exists c, c ∈ ancestors /\ parent pfunc c n;
  ti_flags : forall h v, heads !! h = Some v -> h ∈ hs /\ v = false;
  ti_dropped : forall h, h ∈ hs -> heads !! h = None -> exists h', h' ∈ hs /\ sanc pfunc h h'
}.

Lemma anc_of_range x : anc_of pfunc hs x -> nullrev <= x < len.
Proof.
  intros (h & Hh & Ha). pose proof (anc_le _ _ _ Ha). specialize (hs_range h Hh).
  apply anc_sanc_cases in Ha as [->|Ha]; [done|]. apply sanc_lt in Ha; [|done]. unfold nullrev in *. lia.
Qed.

(** Skipping a node that is null, too low, or already an ancestor. *)
Lemma tinv_skip n nodestotag ancestors heads :
  tinv nodestotag ancestors heads -> n = nullrev \/ n < lowestrev \/ n ∈ ancestors ->
  tinv (nodestotag ∖ {[n]}) ancestors heads.
Proof.
  intros [T1 T2 T3 T4 T5 T6 T7] Hn. split; auto; [set_solver| | |set_solver].
  - intros h H1 H2 H3. destruct (T3 h H1 H2 H3) as [?|?]; [by left|].
    destruct (decide (h = n)) as [->|]; [|set_solver]. destruct Hn as [?|[?|?]]; [done|lia|by left].
  - intros x p Hx Hp Hl. destruct (T4 x p Hx Hp Hl) as [?|?]; [by left|].
    destruct (decide (p = n)) as [->|]; [|set_solver]. apply parent_below in Hp; [|done].
    unfold nullrev in *. destruct Hn as [?|[?|?]]; [lia|lia|by left].
Qed.

(** A node met again is a proper ancestor of a head: it may be dropped. *)
Lemma tinv_drop n nodestotag ancestors heads :
  tinv nodestotag ancestors heads -> n ∈ nodestotag -> n ∈ ancestors ->
  tinv (nodestotag ∖ {[n]}) ancestors (delete n heads).
Proof.
  intros Ht Hn Ha. destruct (ti_child _ _ _ Ht n Hn Ha) as (c & Hc & Hp).
  destruct (ti_anc _ _ _ Ht c Hc) as (_ & _ & h' & Hh' & Hch).
  destruct (tinv_skip n nodestotag ancestors heads Ht) as [T1 T2 T3 T4 T5 T6 T7]; [by auto|].
  split; auto.
  - intros h v [_ H]%lookup_delete_Some. by apply T6.
  - intros h Hh [<-|Hd]%lookup_delete_None; [|by apply T7]. exists h'. split; [done|].
    eapply tc_rtc_l; [exact Hch|]. by apply tc_once.
Qed.

Lemma tinv_tag n nodestotag ancestors heads :
  tinv nodestotag ancestors heads -> n ∈ nodestotag -> n ≠ nullrev -> n >= lowestrev ->
  tinv (list_to_set (filter (fun p => p ≠ nullrev) (pfunc n)) ∪ nodestotag ∖ {[n]})
       ({[n]} ∪ ancestors) heads.
Proof.
  intros [T1 T2 T3 T4 T5 T6 T7] Hn Hnull Hlow.
  assert (forall p, p ∈ (list_to_set (filter (fun p => p ≠ nullrev) (pfunc n)) : gset Z) <-> parent pfunc n p)
    as Hps.
  { intros p. rewrite elem_of_list_to_set, list_elem_of_filter. unfold parent. tauto. }
  set (ps := list_to_set _) in *. clearbody ps.
  assert (forall x, x ∈ nodestotag -> x ∈ {[n]} ∪ ancestors \/ x ∈ ps ∪ nodestotag ∖ {[n]}) as Hmv.
  { intros x Hx. destruct (decide (x = n)) as [->|Hne]; [left; apply elem_of_union_l, elem_of_singleton; done|].
    right. apply elem_of_union_r, elem_of_difference. by rewrite elem_of_singleton. }
  split; auto.
  - intros x [Hx%Hps|Hx]%elem_of_union; [|by apply T1; apply elem_of_difference in Hx as []].
    eapply anc_of_trans; [by apply anc_parent|]. by apply T1.
  - intros x [->%elem_of_singleton|Hx]%elem_of_union; [|by apply T2].
    split_and!; [done|lia|by apply T1].
  - intros h H1 H2 H3. destruct (T3 h H1 H2 H3) as [?|?]; [left; by apply elem_of_union_r|by apply Hmv].
  - intros x p [->%elem_of_singleton|Hx]%elem_of_union Hp Hl.
    + right. apply elem_of_union. left. by apply Hps.
    + destruct (T4 x p Hx Hp Hl) as [?|?]; [left; by apply elem_of_union_r|by apply Hmv].
  - intros m [Hm%Hps|[Hm Hmn]%elem_of_difference]%elem_of_union Hma.
    + exists n. split; [by apply elem_of_union_l, elem_of_singleton|done].
    + apply elem_of_union in Hma as [?|Hma]; [done|].
      destruct (T5 m Hm Hma) as (c & Hc & Hp). exists c. split; [by apply elem_of_union_r|done].
Qed.

Lemma size_list_to_set_le (l : list Z) : (size (list_to_set l : gset Z) <= length l)%nat.
Proof.
  induction l as [|x l IH]; [done|]. simpl. rewrite size_union_alt, size_singleton.
  assert (size ((list_to_set l : gset Z) ∖ {[x]}) <= size (list_to_set l : gset Z))%nat; [|lia].
  apply subseteq_size. set_solver.
Qed.

Lemma tag_loop_spec fuel nodestotag ancestors heads :
  tinv nodestotag ancestors heads ->
  (size nodestotag + RevlogGraph.unvisited pfunc len ancestors < fuel)%nat ->
  exists ancestors' heads', tag_loop pfunc fuel lowestrev nodestotag ancestors heads = Ok (ancestors', heads') /\
    tinv ∅ ancestors' heads'.
Proof.
  revert nodestotag ancestors heads. induction fuel as [|fuel IH]; intros T A H Ht Hf; [lia|].
  cbn [tag_loop]. case_decide as HT; [subst; by exists A, H|].
  pose proof (pick_in T HT) as Hn. set (n := pick T) in *.
  assert (size (T ∖ {[n]}) < size T)%nat as Hsz by (apply subset_size; set_solver).
  case_decide as Hnull; [apply IH; [|lia]; apply tinv_skip; auto|].
  case_decide as Hlow; [|apply IH; [|lia]; apply tinv_skip; auto; right; left; lia].
  case_decide as HA.
  - case_decide; (apply IH; [|lia]); [by apply tinv_drop|by apply tinv_skip; auto].
  - apply IH; [by apply tinv_tag|].
    pose proof (anc_of_range n (ti_tag _ _ _ Ht n Hn)) as Hr.
    assert (0 <= n < len) as Hr' by (unfold nullrev in *; lia).
    pose proof (RevlogGraph.unvisited_add pfunc len A n Hr' HA) as Hun.
    pose proof (size_union_alt (list_to_set (filter (fun p => p ≠ nullrev) (pfunc n)) : gset Z) (T ∖ {[n]})) as Hu.
    assert (size (list_to_set (filter (fun p => p ≠ nullrev) (pfunc n)) : gset Z) <= length (pfunc n))%nat.
    { etrans; [apply size_list_to_set_le|apply length_filter]. }
    assert (size (T ∖ {[n]} ∖ list_to_set (filter (fun p => p ≠ nullrev) (pfunc n))) <= size (T ∖ {[n]}))%nat.
    { apply subseteq_size. set_solver. }
    lia.
Qed.

Lemma tinv_complete ancestors heads x :
  tinv ∅ ancestors heads ->
  x ∈ ancestors <-> x ≠ nullrev /\ lowestrev <= x /\ anc_of pfunc hs x.
Proof.
  intros Ht. split; [apply (ti_anc _ _ _ Ht)|]. intros (Hx & Hl & h & Hh & Ha).
  assert (h ∈ ancestors) as Hm.
  { destruct (ti_heads _ _ _ Ht h Hh) as [?|?]; [| |done|set_solver].
    - intros ->. by apply anc_nullrev in Ha.
    - apply anc_le in Ha; [lia|done]. }
  clear Hh. induction Ha as [|y z w Hyz Ha IH]; [done|]. apply IH; auto.
  destruct (ti_parents _ _ _ Ht y z Hm Hyz) as [?|?]; [|done|set_solver].
  apply anc_le in Ha; [lia|done].
Qed.
End tagging.

(** ** The upward walk *)

Lemma delete_all_lookup (ps : list Z) (h : gmap Z bool) x v :
  foldl (fun hd p => delete p hd) h ps !! x = Some v <-> h !! x = Some v /\ x ∉ ps.
Proof.
  revert h. induction ps as [|p ps IH]; intros h; simpl; [split; [split; [done|apply not_elem_of_nil]|tauto]|].
  rewrite IH, lookup_delete_Some, not_elem_of_cons. naive_solver.
Qed.

Lemma elem_of_flagged (h : gmap Z bool) x : x ∈ flagged h <-> h !! x = Some true.
Proof.
  unfold flagged. rewrite elem_of_dom. unfold is_Some. setoid_rewrite map_lookup_filter_Some. cbn. naive_solver.
Qed.

Section childless.
Context (pfunc : Z -> list Z) `{!RevDag pfunc}.

Lemma childless_step r x :
  0 <= r -> RevlogGraph.childless pfunc (r + 1) x <-> RevlogGraph.childless pfunc r x /\ x ∉ pfunc r.
Proof.
  unfold RevlogGraph.childless. intros Hr. split.
  - intros H. split; [intros c Hc; apply H; lia|apply H; lia].
  - intros [H1 H2] c Hc. destruct (decide (c = r)) as [->|]; [done|]. apply H1. lia.
Qed.

Lemma childless_self r : RevlogGraph.childless pfunc (r + 1) r.
Proof. intros c Hc Hin. apply parents_below in Hin as [?|?]; [unfold nullrev in *|]; lia. Qed.

End childless.

Section walking.
Context (pfunc : Z -> list Z) `{!RevDag pfunc} (len : Z).
Context (lowestrev : Z) (roots : list Z) (ancestors : option (gset Z)) (hd : gmap Z bool).

(** Either everything descends from the null revision, or the roots are
    revisions and [lowestrev] is the lowest of them. *)
Hypothesis roots_low :
  (lowestrev = nullrev /\ roots = [nullrev]) \/
  (0 <= lowestrev /\ lowestrev ∈ roots /\ forall x, x ∈ roots -> lowestrev <= x).
Hypothesis hd_false : forall h v, hd !! h = Some v -> v = false.
Hypothesis ancestors_high : forall a, ancestors = Some a -> forall x, x ∈ a -> 0 <= x.
Hypothesis no_ancestors : ancestors = None -> hd = ∅ /\ lowestrev ≠ nullrev.

Definition from_roots (x : Z) : Prop := lowestrev = nullrev \/ exists r, r ∈ roots /\ anc pfunc r x.

Definition below_root (x : Z) : Prop := exists r, r ∈ roots /\ sanc pfunc r x.

Definition heads_ok (r : Z) (heads : gmap Z bool) : Prop :=
  match ancestors with
  | Some a =>
      dom heads = dom hd /\
      forall x, heads !! x = Some true <-> x ∈ dom hd /\ Z.max lowestrev 0 <= x < r /\ from_roots x /\ x ∈ a
  | None =>
      forall x, heads !! x ≠ Some false /\
        (heads !! x = Some true <-> x < r /\ from_roots x /\ RevlogGraph.childless pfunc r x)
  end.

Record walk_inv (r : Z) (st : walk_state) : Prop := {
  wi_desc : lowestrev ≠ nullrev ->
    forall x, x ∈ w_descendants st <-> x ∈ roots \/ (x < r /\ from_roots x);
  wi_roots : forall x, x ∈ w_roots st <-> x ∈ roots /\ ~ (x < r /\ below_root x);
  wi_sorted : ascending (w_orderedout st);
  wi_out : forall x, x ∈ w_orderedout st <->
    Z.max lowestrev 0 <= x < r /\ from_roots x /\ in_ancestors ancestors x;
  wi_heads_ok : heads_ok r (w_heads st)
}.

Lemma roots_ge x : x ∈ roots -> lowestrev <= x.
Proof. destruct roots_low as [[-> ->]|(_ & _ & H)]; [|auto]. intros ->%list_elem_of_singleton. lia. Qed.

Lemma from_roots_ge x : lowestrev ≠ nullrev -> from_roots x -> lowestrev <= x.
Proof. intros Hn [?|(r & Hr & Ha)]; [done|]. apply roots_ge in Hr. apply anc_le in Ha; [lia|done]. Qed.

Lemma below_root_from x : below_root x -> from_roots x.
Proof. intros (r & Hr & Ha). right. exists r. split; [done|]. by apply sanc_anc. Qed.

Lemma not_below_null x : roots = [nullrev] -> ~ below_root x.
Proof. unfold below_root. intros -> (r & ->%list_elem_of_singleton & Ha). apply sanc_lt in Ha; [|done]. unfold nullrev in *. lia. Qed.

(** A revision has a parent among the descendants when it is below a root. *)
Lemma parent_in_below r st :
  lowestrev ≠ nullrev -> walk_inv r st -> parent_in pfunc r (w_descendants st) <-> below_root r.
Proof.
  intros Hn Hw. unfold parent_in, below_root. rewrite Exists_exists. setoid_rewrite (wi_desc _ _ Hw Hn).
  assert (0 <= lowestrev) as H0 by (destruct roots_low as [[? _]|[? _]]; done). split.
  - intros (p & Hp & Hin).
    assert (from_roots p) as Hf.
    { destruct Hin as [Hin|[_ ?]]; [|done]. right. exists p. split; [done|apply anc_refl]. }
    pose proof (from_roots_ge p Hn Hf). destruct Hf as [?|(q & Hq & Ha)]; [done|].
    exists q. split; [done|]. apply sanc_cases. exists p. split; [|done]. split; [done|].
    unfold nullrev. lia.
  - intros (q & Hq & (p & Hp & Ha)%sanc_cases). exists p. split; [apply Hp|]. right.
    apply parent_below in Hp; [|done]. split; [lia|]. right. eauto.
Qed.

Lemma walk_descendant_spec r st :
  0 <= r -> walk_inv r st ->
  let '(d, st') := walk_descendant pfunc lowestrev r st in
  (d = true <-> from_roots r) /\
  (lowestrev ≠ nullrev -> forall x, x ∈ w_descendants st' <-> x ∈ roots \/ (x < r + 1 /\ from_roots x)) /\
  (forall x, x ∈ w_roots st' <-> x ∈ roots /\ ~ (x < r + 1 /\ below_root x)) /\
  w_orderedout st' = w_orderedout st /\ w_heads st' = w_heads st.
Proof.
  intros Hr Hw. unfold walk_descendant. pose proof (wi_roots _ _ Hw) as HR. case_decide as Hn.
  { refine (conj _ (conj _ (conj _ (conj eq_refl eq_refl)))); [split; [by left|done]|by intros|]. intros x. rewrite HR.
    destruct roots_low as [[_ Hr0]|[? _]]; [|unfold nullrev in *; lia].
    pose proof (not_below_null x Hr0). tauto. }
  pose proof (wi_desc _ _ Hw Hn) as HD. pose proof (parent_in_below r st Hn Hw) as HP.
  assert (from_roots r <-> r ∈ roots \/ below_root r) as Hfr.
  { unfold from_roots, below_root. setoid_rewrite (anc_sanc_cases pfunc). split.
    - intros [?|(q & Hq & [->|Ha])]; [done|by left|right; eauto].
    - intros [?|(q & Hq & Ha)]; [right; eauto|right; eauto]. }
  assert (forall x, x ∈ roots \/ (x < r + 1 /\ from_roots x) <->
    x ∈ roots \/ (x < r /\ from_roots x) \/ (x = r /\ from_roots r)) as Hstep.
  { intros x. split; [|intros [?|[[? ?]|[-> ?]]]; auto; right; split; auto; lia].
    intros [?|[? ?]]; [by left|]. destruct (decide (x = r)) as [->|]; [by auto|]. right. left. split; [lia|done]. }
  assert (forall x, x ∈ roots -> x ≠ r -> (x < r + 1 /\ below_root x) <-> (x < r /\ below_root x)) as Hother.
  { intros x _ Hne. split; intros [? ?]; (split; [lia|done]). }
  case_decide as Hd; [|case_decide as Hp]; [case_decide as Hroot| |].
  - destruct Hroot as [Hroot Hpi]. apply HP in Hpi. cbn. refine (conj _ (conj _ (conj _ (conj eq_refl eq_refl)))).
    + split; [|done]. intros _. by apply below_root_from.
    + intros _ x. rewrite HD, Hstep. apply HD in Hd. split; [naive_solver|].
      intros [?|[?|[-> ?]]]; auto.
    + intros x. rewrite elem_of_difference, elem_of_singleton, HR. split.
      * intros [[H1 H2] H3]. rewrite Hother; auto.
      * intros [H1 H2]. assert (x ≠ r) as Hne by (intros ->; apply H2; split; [lia|done]).
        rewrite Hother in H2 by done. auto.
  - assert (r ∈ roots) as Hrr by (apply HD in Hd as [?|[? _]]; [done|lia]).
    assert (~ below_root r) as Hnb.
    { intros Hb. apply Hroot. split; [apply HR; split; [done|lia]|by apply HP]. }
    cbn. refine (conj _ (conj _ (conj _ (conj eq_refl eq_refl)))); [rewrite Hfr; tauto| |].
    + intros _ x. rewrite HD, Hstep. naive_solver.
    + intros x. rewrite HR. destruct (decide (x = r)) as [->|Hne].
      * split; intros [? _]; (split; [done|]); [tauto|lia].
      * split; intros [H1 H2]; (split; [done|]); by rewrite Hother in * by done.
  - apply HP in Hp. cbn. refine (conj _ (conj _ (conj _ (conj eq_refl eq_refl)))); [split; [|done]; intros _; by apply below_root_from| |].
    + intros _ x. rewrite elem_of_union, elem_of_singleton, HD, Hstep. split; [|naive_solver].
      intros [->|?]; [|naive_solver]. right. right. split; [done|]. by apply below_root_from.
    + intros x. rewrite HR. assert (r ∉ roots) as Hnr by (rewrite HD in Hd; tauto). split; intros [H1 H2];
        (split; [done|]); assert (x ≠ r) by congruence; by rewrite Hother in * by done.
  - assert (~ from_roots r) as Hnf.
    { rewrite Hfr, <- HP. rewrite HD in Hd. tauto. }
    cbn. refine (conj _ (conj _ (conj _ (conj eq_refl eq_refl)))); [split; [done|tauto]| |].
    + intros _ x. rewrite HD, Hstep. tauto.
    + intros x. rewrite HR. split; intros [H1 H2]; (split; [done|]);
        assert (x ≠ r) by (intros ->; rewrite HD in Hd; tauto); by rewrite Hother in * by done.
Qed.

Lemma walk_heads_spec r heads :
  Z.max lowestrev 0 <= r -> from_roots r -> in_ancestors ancestors r ->
  heads_ok r heads -> heads_ok (r + 1) (walk_heads pfunc ancestors r heads).
Proof.
  intros Hr Hf. unfold heads_ok, walk_heads. case_eq ancestors; [intros a E Ha|intros E Ha]; cbn in Ha.
  - intros [Hdom Hx].
    assert (is_Some (heads !! r) <-> r ∈ dom hd) as Hin by (by rewrite <- Hdom, elem_of_dom).
    case_decide as Hd.
    + split; [rewrite dom_insert_L; apply Hin in Hd; rewrite Hdom; set_solver|].
      intros x. rewrite lookup_insert_Some, Hx. apply Hin in Hd. split.
      * intros [[-> _]|(Hne & H1 & H2 & H3 & H4)]; split_and!; auto; lia.
      * intros (H1 & H2 & H3). destruct (decide (r = x)); [by left|right]. split_and!; [done|done|lia|lia|tauto..].
    + split; [done|]. intros x. rewrite Hx. split; intros (H1 & H2 & H3); split_and!; auto; try tauto; try lia.
      assert (x ≠ r) by (intros ->; tauto). lia.
  - intros Hx x. destruct (Hx x) as [H1 H2]. rewrite !delete_all_lookup, !lookup_insert_Some. split; [naive_solver|].
    rewrite childless_step by lia. destruct (decide (x = r)) as [->|Hne].
    + pose proof (proj1 (childless_step pfunc r r ltac:(lia)) (childless_self pfunc r)). split; [|naive_solver].
      intros _. split_and!; [lia|done|tauto|tauto].
    + rewrite H2. split; [intros [[[-> _]|?] ?]; [done|]|].
      * split_and!; [lia|tauto..].
      * intros (? & ? & ? & ?). split; [|done]. right. split; [done|]. split_and!; [lia|tauto..].
Qed.

Lemma heads_ok_skip r heads :
  0 <= r -> ~ (from_roots r /\ in_ancestors ancestors r) -> heads_ok r heads -> heads_ok (r + 1) heads.
Proof.
  intros Hr. unfold heads_ok. case_eq ancestors; [intros a E Hn|intros E Hn]; cbn in Hn.
  - intros [Hd Hx]. split; [done|]. intros x. rewrite Hx. split; intros (H1 & H2 & H3); split_and!; auto; try tauto; try lia.
    assert (x ≠ r) by (intros ->; tauto). lia.
  - destruct (no_ancestors E) as [_ Hlow]. intros Hx x. destruct (Hx x) as [H1 H2]. split; [done|].
    rewrite H2, childless_step by done. split.
    + intros (? & Hf & ?). split_and!; [lia|done|done|]. intros Hin. apply Hn. split; [|done].
      assert (0 <= lowestrev) as Hlow0 by (destruct roots_low as [[? _]|[? _]]; done).
      pose proof (from_roots_ge x Hlow Hf).
      destruct Hf as [?|(q & Hq & Ha)]; [done|]. right. exists q. split; [done|].
      eapply anc_trans; [exact Ha|]. apply anc_parent. split; [done|]. unfold nullrev. lia.
    + intros (? & Hf & ? & ?). assert (x ≠ r) by (intros ->; tauto). split_and!; [lia|done|done].
Qed.

Lemma walk_step_inv r st :
  Z.max lowestrev 0 <= r < len -> walk_inv r st ->
  walk_inv (r + 1) (walk_step pfunc len lowestrev ancestors st r).
Proof.
  intros Hr Hw. unfold walk_step, node. rewrite decide_False by lia.
  pose proof (walk_descendant_spec r st ltac:(lia) Hw) as Hd.
  destruct (walk_descendant pfunc lowestrev r st) as [d st'].
  destruct Hd as (Hd & Hdesc & Hroots & Hout & Hheads). destruct Hw as [_ _ Ws Wo Wh].
  case_decide as Hc.
  - destruct Hc as [Hf Ha]. apply Hd in Hf. split; cbn; auto.
    + rewrite Hout. apply StronglySorted_snoc; [done|]. apply Forall_forall. intros x [? _]%Wo. lia.
    + intros x. rewrite Hout, elem_of_app, list_elem_of_singleton, Wo. split.
      * intros [(H1 & H2 & H3)| ->]; split_and!; auto; lia.
      * intros (H1 & H2 & H3). destruct (decide (x = r)); [by right|left]. split_and!; auto; lia.
    + rewrite Hheads. apply walk_heads_spec; auto. lia.
  - rewrite Hd in Hc. split; auto; rewrite ?Hout, ?Hheads; auto.
    + intros x. rewrite Wo. split; intros (H1 & H2 & H3); split_and!; auto; try lia.
      assert (x ≠ r) by (intros ->; tauto). lia.
    + apply heads_ok_skip; auto. lia.
Qed.

Lemma walk_loop_spec r n st :
  Z.max lowestrev 0 <= r -> r + Z.of_nat n <= len -> walk_inv r st ->
  walk_inv (r + Z.of_nat n) (foldl (walk_step pfunc len lowestrev ancestors) st (zrange r (r + Z.of_nat n))).
Proof.
  revert r st. induction n as [|n IH]; intros r st Hr Hl Hw.
  { rewrite zrange_nil by lia. cbn. by replace (r + Z.of_nat 0) with r by lia. }
  rewrite zrange_cons by lia. cbn [foldl].
  replace (r + Z.of_nat (S n)) with (r + 1 + Z.of_nat n) by lia.
  apply IH; [lia|lia|]. apply walk_step_inv; [lia|done].
Qed.

Lemma walk_start_inv :
  walk_inv (Z.max lowestrev 0) (Walk (list_to_set roots) (list_to_set roots) [] hd).
Proof.
  assert (forall x, x ∈ roots -> ~ (x < Z.max lowestrev 0 /\ below_root x)) as Hr.
  { intros x Hx [Hlt Hb]. destruct roots_low as [[Hl H]|(H0 & _ & H)].
    - by apply (not_below_null x).
    - specialize (H x Hx). lia. }
  split; cbn.
  - intros Hn x. rewrite elem_of_list_to_set. split; [by left|]. intros [?|[Hx Hf]]; [done|].
    apply from_roots_ge in Hf; [|done]. destruct roots_low as [[? _]|(H0 & _ & _)]; [done|lia].
  - intros x. rewrite elem_of_list_to_set. split; [|tauto]. auto.
  - constructor.
  - intros x. rewrite elem_of_nil. split; [done|]. lia.
  - unfold heads_ok. case_eq ancestors; [intros a E|intros E].
    + split; [done|]. intros x. split; [intros ?%hd_false; done|lia].
    + destruct (no_ancestors E) as [Hhd Hn]. intros x. rewrite Hhd, lookup_empty. split; [done|].
      split; [done|]. intros (Hx & Hf & _). apply from_roots_ge in Hf; [|done].
      destruct roots_low as [[? _]|(H0 & _ & _)]; [done|lia].
Qed.

(** The iteration past [highestrev] changes nothing that is returned. *)
Lemma walk_last r st :
  Z.max lowestrev 0 <= r <= len -> walk_inv r st -> r ∉ roots ->
  (r < len -> ~ in_ancestors ancestors r) ->
  let st' := walk_step pfunc len lowestrev ancestors st r in
  w_orderedout st' = w_orderedout st /\ w_roots st' = w_roots st /\ w_heads st' = w_heads st.
Proof.
  intros Hr Hw Hroot Hlast. unfold walk_step, node. case_decide as Hlen.
  - assert (~ in_ancestors ancestors nullrev \/ lowestrev ≠ nullrev) as Hor.
    { pose proof no_ancestors as H1. pose proof ancestors_high as H2. clear - H1 H2. destruct ancestors as [a|]; cbn.
      - left. intros Hin. specialize (H2 a eq_refl _ Hin). unfold nullrev in *. lia.
      - right. by apply H1. }
    unfold walk_descendant. case_decide as Hn.
    { rewrite decide_False; [done|]. intros [_ ?]. tauto. }
    assert (0 <= lowestrev) as H0 by (destruct roots_low as [[? _]|[? _]]; done).
    assert (nullrev ∉ w_descendants st) as Hnd.
    { rewrite (wi_desc _ _ Hw Hn). intros [H%roots_ge|[_ H%from_roots_ge]]; [unfold nullrev in *; lia| |done].
      unfold nullrev in *. lia. }
    rewrite (decide_False (P := nullrev ∈ _)) by done. rewrite decide_False.
    { rewrite decide_False; [done|]. by intros [? _]. }
    unfold parent_in. rewrite Exists_exists. intros (p & Hp & Hin).
    apply parents_below in Hp as [->|?]; [done|]. unfold nullrev in *. lia.
  - assert (r ∉ w_roots st) as Hnr by (rewrite (wi_roots _ _ Hw); tauto).
    assert (~ in_ancestors ancestors r) as Hna by (apply Hlast; lia).
    unfold walk_descendant. repeat case_decide; try done; tauto.
Qed.

Lemma lowest_not_below : lowestrev ∈ roots /\ ~ below_root lowestrev.
Proof.
  destruct roots_low as [[Hl H]|(H0 & H1 & H2)].
  - split; [rewrite H, Hl; by left|]. by apply not_below_null.
  - split; [done|]. intros (r & Hr & Ha). specialize (H2 r Hr). apply sanc_lt in Ha; [lia|done].
Qed.

(** The walk returns what it collected: none of its assertions fails. *)
Lemma walk_returns high :
  Z.max lowestrev 0 <= high + 1 <= len -> (forall x, x ∈ roots -> x <= high) ->
  (high + 1 < len -> ~ in_ancestors ancestors (high + 1)) ->
  (exists x, Z.max lowestrev 0 <= x <= high /\ from_roots x /\ in_ancestors ancestors x) ->
  (forall heads, heads_ok (high + 1) heads -> flagged heads ≠ ∅) ->
  exists nodes outroots heads,
    walk pfunc len lowestrev high ancestors roots hd = Ok (nodes, outroots, flagged heads) /\
    ascending nodes /\
    (forall x, x ∈ nodes <-> Z.max lowestrev 0 <= x <= high /\ from_roots x /\ in_ancestors ancestors x) /\
    (forall x, x ∈ outroots <-> x ∈ roots /\ ~ below_root x) /\
    heads_ok (high + 1) heads.
Proof.
  intros Hhigh Hroots Hlast (x0 & Hx0) Hheads. unfold walk, RevlogGraph.revs.
  rewrite decide_False by lia. rewrite zrange_snoc, foldl_app by lia. cbn [foldl].
  pose proof (walk_loop_spec (Z.max lowestrev 0) (Z.to_nat (high + 1 - Z.max lowestrev 0)) _
    ltac:(lia) ltac:(lia) walk_start_inv) as Hw.
  replace (Z.max lowestrev 0 + Z.of_nat (Z.to_nat (high + 1 - Z.max lowestrev 0))) with (high + 1) in Hw by lia.
  set (st := foldl _ _ _) in *. clearbody st.
  destruct (walk_last (high + 1) st) as (Eo & Er & Eh); [lia|done|intros Hin; specialize (Hroots _ Hin); lia|done|].
  rewrite Eo, Er, Eh. destruct Hw as [_ Wr Ws Wo Wh].
  assert (forall x, x ∈ w_roots st <-> x ∈ roots /\ ~ below_root x) as Hr.
  { intros x. rewrite Wr. split; intros [H1 H2]; (split; [done|]); specialize (Hroots x H1); [|tauto].
    intros ?. apply H2. split; [lia|done]. }
  unfold assert_. rewrite !bool_decide_true; cbn [rbind]; cycle 1.
  { by apply Hheads. }
  { pose proof lowest_not_below as Hl%Hr. set_solver. }
  { intros E. assert (x0 ∈ w_orderedout st) as Hin; [|rewrite E in Hin; by apply elem_of_nil in Hin].
    apply Wo. destruct Hx0 as (? & ? & ?). split_and!; auto; lia. }
  exists (w_orderedout st), (w_roots st), (w_heads st). split; [done|]. split; [done|]. split; [|by split].
  intros x. rewrite Wo. split; intros (H1 & H2); (split; [lia|done]).
Qed.
End walking.

(** ** What [nodesbetween] returns *)

Section between.
Context (pfunc : Z -> list Z) `{!RevDag pfunc} (len : Z) {pop : SetPop}.

(** The revisions on a path from the roots to the heads. *)
Definition between (roots heads : list Z) (x : Z) : Prop :=
  0 <= x /\ (nullrev ∈ roots \/ exists r, r ∈ roots /\ anc pfunc r x) /\ exists h, h ∈ heads /\ anc pfunc x h.

(** The promise: the nodes in order, the roots that descend from no other root
    and, among the heads reached, at least those no other head descends from. *)
Definition between_result (roots heads : list Z) (res : list Z * gset Z * gset Z) : Prop :=
  let '(nodes, outroots, outheads) := res in
  ascending nodes /\ (forall x, x ∈ nodes <-> between roots heads x) /\
  (nullrev ∉ roots -> forall x, x ∈ outroots <->
     x ∈ roots /\ x ∈ nodes /\ ~ exists r, r ∈ roots /\ sanc pfunc r x) /\
  (forall x, x ∈ outheads -> x ∈ heads /\ x ∈ nodes) /\
  (forall x, x ∈ heads -> x ∈ nodes -> (~ exists h, h ∈ heads /\ sanc pfunc x h) -> x ∈ outheads).

Lemma nonodes_result roots heads :
  (forall x, ~ between roots heads x) -> between_result roots heads nonodes.
Proof.
  intros Hno. split; [constructor|]. split; [|split; [|split]].
  - intros x. rewrite elem_of_nil. split; [done|apply Hno].
  - intros _ x. rewrite elem_of_nil. split; [by intros []%elem_of_empty|tauto].
  - by intros x []%elem_of_empty.
  - by intros x _ []%elem_of_nil.
Qed.

Lemma walk_some hds low0 a hd low rts :
  hds ≠ [] -> (forall h, h ∈ hds -> nullrev <= h < len) ->
  tinv pfunc low0 (list_to_set hds) ∅ a hd -> low0 <= low -> a ≠ ∅ ->
  (low = nullrev /\ rts = [nullrev] \/
   0 <= low /\ low ∈ rts /\ (forall x, x ∈ rts -> low <= x) /\ forall x, x ∈ rts -> x ∈ a) ->
  exists nodes outroots outheads,
    walk pfunc len low (zmax_list 0 hds) (Some a) rts hd = Ok (nodes, outroots, outheads) /\
    ascending nodes /\ (forall x, x ∈ nodes <-> from_roots pfunc low rts x /\ x ∈ a) /\
    (forall x, x ∈ outroots <-> x ∈ rts /\ ~ below_root pfunc rts x) /\
    (forall x, x ∈ outheads <-> x ∈ dom hd /\ from_roots pfunc low rts x /\ x ∈ a).
Proof.
  intros Hne Hrange Ht Hlow Ha Hrts. set (high := zmax_list 0 hds).
  assert (forall x, x ∈ a -> 0 <= x <= high) as Hbound.
  { intros x Hx. destruct (ti_anc _ _ _ _ _ _ Ht x Hx) as (Hn & _ & h & Hh%elem_of_list_to_set & Hxh).
    pose proof (zmax_list_ge 0 hds h Hh). pose proof (anc_le _ _ _ Hxh). split; [|unfold high; lia].
    apply anc_sanc_cases in Hxh as [->|Hs]; [|apply sanc_lt in Hs; [lia|done]].
    specialize (Hrange h Hh). unfold nullrev in *. lia. }
  assert (high < len) as Hhigh by (apply Hrange, zmax_list_in; done).
  assert (exists x0, Z.max low 0 <= x0 <= high /\ from_roots pfunc low rts x0 /\ x0 ∈ a) as (x0 & Hx0 & Hf0 & Ha0).
  { destruct Hrts as [[Hl _]|(H0 & H1 & _ & H2)].
    - destruct (set_choose_L a Ha) as [x Hx]. exists x. specialize (Hbound x Hx). unfold nullrev in Hl.
      split; [lia|]. split; [by left|done].
    - exists low. specialize (H2 low H1). specialize (Hbound low H2). split; [lia|]. split; [|done].
      right. exists low. split; [done|apply anc_refl]. }
  assert (forall n h, (Z.to_nat (len - h) < n)%nat -> h ∈ hds -> anc pfunc x0 h ->
    exists h', h' ∈ dom hd /\ h' ∈ a /\ anc pfunc x0 h') as Hup.
  { induction n as [|n IH]; intros h Hn Hh Hxh; [lia|]. destruct (hd !! h) eqn:E.
    - exists h. split; [by apply elem_of_dom|]. split; [|done]. apply (tinv_complete _ _ _ _ _ _ Ht).
      pose proof (anc_le _ _ _ Hxh). split_and!; [unfold nullrev; lia|lia|].
      apply anc_of_elem. by apply elem_of_list_to_set.
    - destruct (ti_dropped _ _ _ _ _ _ Ht h) as (h' & Hh'%elem_of_list_to_set & Hs); [by apply elem_of_list_to_set|done|].
      pose proof (sanc_lt _ _ _ Hs). specialize (Hrange h' Hh'). apply (IH h'); [lia|done|].
      eapply anc_trans; [exact Hxh|by apply sanc_anc]. }
  assert (forall x h, from_roots pfunc low rts x -> anc pfunc x h -> from_roots pfunc low rts h) as Hfup.
  { intros x h [?|(r & Hr & Hrx)] Hxh; [by left|right]. exists r. split; [done|]. by eapply anc_trans. }
  assert (forall x, from_roots pfunc low rts x -> x ∈ a -> Z.max low 0 <= x) as Hlox.
  { intros x Hf Hx. specialize (Hbound x Hx). destruct Hrts as [[Hl _]|(H0 & _ & H1 & _)].
    - unfold nullrev in *. lia.
    - destruct Hf as [?|(r & Hr & Hrx)]; [unfold nullrev in *; lia|].
      specialize (H1 r Hr). apply anc_le in Hrx; [lia|done]. }
  destruct (walk_returns pfunc len low rts (Some a) hd) with (high := high)
    as (nodes & R & heads & -> & Hasc & Hnodes & HR & [_ Hheads]).
  - destruct Hrts as [?|(H0 & H1 & H2 & _)]; [by left|right]. by split_and!.
  - intros h v E. by apply (ti_flags _ _ _ _ _ _ Ht) in E as [_ ?].
  - intros a' [= <-] x Hx. by apply Hbound.
  - done.
  - lia.
  - intros x Hx. destruct Hrts as [[_ ->]|(_ & _ & _ & H2)].
    + apply list_elem_of_singleton in Hx as ->. unfold nullrev. lia.
    + by apply Hbound, H2.
  - intros _ Hin. cbn in Hin. apply Hbound in Hin. lia.
  - exists x0. done.
  - intros heads [_ Hh] Hem. destruct (ti_anc _ _ _ _ _ _ Ht x0 Ha0) as (_ & _ & h & Hin%elem_of_list_to_set & Hxh).
    destruct (Hup _ h (Nat.lt_succ_diag_r _) Hin Hxh) as (h' & Hd & Hha & Hxh').
    assert (h' ∈ flagged heads) as Hfl; [|rewrite Hem in Hfl; set_solver].
    apply elem_of_flagged, Hh. specialize (Hbound h' Hha). pose proof (Hfup x0 h' Hf0 Hxh') as Hfh.
    specialize (Hlox h' Hfh Hha). split_and!; auto; lia.
  - exists nodes, R, (flagged heads). split; [done|]. split; [done|]. split; [|split; [done|]].
    + intros x. rewrite Hnodes. cbn. split; [tauto|]. intros [Hf Hx].
      specialize (Hlox x Hf Hx). specialize (Hbound x Hx). split; [lia|done].
    + intros x. rewrite elem_of_flagged, Hheads. split; [tauto|]. intros (Hd & Hf & Hx).
      specialize (Hlox x Hf Hx). specialize (Hbound x Hx). split_and!; auto; lia.
Qed.

Lemma tag_start hds low :
  (forall h, h ∈ hds -> nullrev <= h < len) ->
  tinv pfunc low (list_to_set hds) (list_to_set hds) ∅ (list_to_map (map (fun h => (h, false)) hds)).
Proof.
  intros Hrange. split.
  - intros x Hx. by apply anc_of_elem.
  - intros x []%elem_of_empty.
  - intros h Hh _ _. by right.
  - intros x p []%elem_of_empty.
  - intros n _ []%elem_of_empty.
  - intros h v H%elem_of_list_to_map_2. apply list_elem_of_In, in_map_iff in H as (h' & [= -> <-] & Hh).
    split; [|done]. by apply elem_of_list_to_set, list_elem_of_In.
  - intros h Hh%elem_of_list_to_set Hn%not_elem_of_list_to_map_2. destruct Hn.
    apply list_elem_of_fmap. exists (h, false). split; [done|].
    apply list_elem_of_In, in_map_iff. exists h. split; [done|]. by apply list_elem_of_In.
Qed.

(** Outputs of a walk whose roots generate the same descendants. *)
Lemma walk_some_result roots hds low a hd low' rts nodes outroots outheads :
  tinv pfunc low (list_to_set hds) ∅ a hd ->
  (forall r, r ∈ roots -> low <= r) -> (nullrev ∉ roots -> forall x, x ∈ rts <-> x ∈ roots /\ x ∈ a) ->
  (forall x, between roots hds x <-> from_roots pfunc low' rts x /\ x ∈ a) ->
  ascending nodes -> (forall x, x ∈ nodes <-> from_roots pfunc low' rts x /\ x ∈ a) ->
  (forall x, x ∈ outroots <-> x ∈ rts /\ ~ below_root pfunc rts x) ->
  (forall x, x ∈ outheads <-> x ∈ dom hd /\ from_roots pfunc low' rts x /\ x ∈ a) ->
  between_result roots hds (nodes, outroots, outheads).
Proof.
  intros Ht H0 Hrts Hbet Hasc Hn HR Hh. split; [done|]. split; [|split; [|split]].
  - intros x. by rewrite Hn, Hbet.
  - intros Hnull x. specialize (Hrts Hnull). rewrite HR, Hn.
    assert (forall y, y ∈ rts -> from_roots pfunc low' rts y) as Hself.
    { intros y Hy. right. exists y. split; [done|apply anc_refl]. }
    assert (x ∈ a -> below_root pfunc rts x <-> exists r, r ∈ roots /\ sanc pfunc r x) as Hbel.
    { intros (Hxn & _ & Hxh)%(ti_anc _ _ _ _ _ _ Ht). unfold below_root.
      split; intros (r & Hr & Hs); exists r; (split; [|done]); [by apply Hrts|].
      apply Hrts. split; [done|]. apply (tinv_complete _ _ _ _ _ _ Ht). split_and!.
      - intros ->. done.
      - by apply H0.
      - eapply anc_of_trans; [by apply sanc_anc|done]. }
    split.
    + intros [Hx Hnb]. pose proof (proj1 (Hrts x) Hx) as [H1 H2]. rewrite <- Hbel by done. auto.
    + intros (H1 & [_ H2] & H3). rewrite Hbel, Hrts by done. auto.
  - intros x (Hd & Hf & Hx)%Hh. split; [|by apply Hn]. apply elem_of_dom in Hd as [v Hv].
    apply (ti_flags _ _ _ _ _ _ Ht) in Hv as [Hv _]. by apply elem_of_list_to_set in Hv.
  - intros x Hx Hxn Hmax. apply Hh. split; [|by apply Hn]. apply elem_of_dom.
    destruct (hd !! x) eqn:E; [done|]. destruct Hmax.
    destruct (ti_dropped _ _ _ _ _ _ Ht x) as (h' & Hh' & Hs); [by apply elem_of_list_to_set|done|].
    exists h'. split; [by apply elem_of_list_to_set in Hh'|done].
Qed.

Lemma between_iff roots hds low a hd x :
  tinv pfunc low (list_to_set hds) ∅ a hd -> (forall h, h ∈ hds -> nullrev <= h) ->
  (forall r, r ∈ roots -> low <= r) -> low = nullrev /\ nullrev ∈ roots \/ 0 <= low /\ nullrev ∉ roots ->
  between roots hds x <-> (nullrev ∈ roots \/ exists r, r ∈ roots /\ anc pfunc r x) /\ x ∈ a.
Proof.
  intros Ht Hge Hlow Hl. unfold between. rewrite (tinv_complete _ _ _ _ _ _ Ht).
  assert (anc_of pfunc (list_to_set hds) x <-> exists h, h ∈ hds /\ anc pfunc x h) as ->.
  { unfold anc_of. by setoid_rewrite elem_of_list_to_set. }
  assert (forall h, h ∈ hds -> anc pfunc x h -> x ≠ nullrev -> 0 <= x) as Hpos.
  { intros h Hh Ha Hn. specialize (Hge h Hh). apply anc_sanc_cases in Ha as [->|Ha].
    - unfold nullrev in *. lia.
    - by apply sanc_lt in Ha as [? _]. }
  split.
  - intros (H0 & Hr & Hh). split_and!; auto; [unfold nullrev; lia|].
    destruct Hl as [[-> _]|[? ?]]; [unfold nullrev; lia|]. destruct Hr as [?|(r & Hr & Ha)]; [done|].
    specialize (Hlow r Hr). apply anc_le in Ha; [lia|done].
  - intros (Hr & Hn & _ & h & Hh & Ha). split_and!; eauto.
Qed.

(** When the null revision is no root, only the roots that are ancestors of the
    heads matter. *)
Lemma walk_real_roots roots hds low a hd :
  hds ≠ [] -> (forall h, h ∈ hds -> nullrev <= h < len) ->
  tinv pfunc low (list_to_set hds) ∅ a hd -> (forall r, r ∈ roots -> low <= r) -> a ≠ ∅ ->
  0 <= low -> nullrev ∉ roots ->
  exists result,
    match filter (fun root => root ∈ a) roots with
    | [] => Ok nonodes
    | rts => walk pfunc len (zmin_list 0 rts) (zmax_list 0 hds) (Some a) rts hd
    end = Ok result /\ between_result roots hds result.
Proof.
  intros Hhne Hhds Ht Hlow Ha H0 Hnull.
  pose proof (fun x => between_iff roots hds low a hd x Ht (fun h Hh => proj1 (Hhds h Hh)) Hlow
    (or_intror (conj H0 Hnull))) as Hbet.
  set (rts := filter (fun root => root ∈ a) roots).
  assert (forall x, x ∈ rts <-> x ∈ roots /\ x ∈ a) as Hrts.
  { intros x. unfold rts. rewrite list_elem_of_filter. tauto. }
  assert (forall x r, r ∈ roots -> anc pfunc r x -> x ∈ a -> r ∈ a) as Hra.
  { intros x r Hr Hrx (_ & _ & Hx)%(ti_anc _ _ _ _ _ _ Ht). apply (tinv_complete _ _ _ _ _ _ Ht).
    split_and!; [by intros ->|by apply Hlow|by eapply anc_of_trans]. }
  destruct (decide (rts = [])) as [Hnil|Hne].
  { rewrite Hnil. exists nonodes. split; [done|]. apply nonodes_result.
    intros x [[?|(r & Hr & Hrx)] Hx]%Hbet; [done|]. apply (not_elem_of_nil r). rewrite <- Hnil.
    apply Hrts. eauto. }
  assert (low <= zmin_list 0 rts) as Hlz by (apply Hlow, Hrts, zmin_list_in, Hne).
  replace (match rts with [] => _ | _ => _ end) with
    (walk pfunc len (zmin_list 0 rts) (zmax_list 0 hds) (Some a) rts hd) by (by destruct rts).
  destruct (walk_some hds low a hd (zmin_list 0 rts) rts)
    as (nodes & R & H & -> & Hasc & Hn & HR & HH); [done..| |].
  { right. split_and!; [lia|by apply zmin_list_in|intros x; apply zmin_list_le|intros x [_ ?]%Hrts; done]. }
  exists (nodes, R, H). split; [done|]. eapply walk_some_result; eauto.
  intros x. rewrite Hbet. unfold from_roots. split.
  - intros [[?|(r & Hr & Hrx)] Hx]; [done|]. split; [|done]. right. exists r. rewrite Hrts. eauto.
  - intros [[?|(r & [Hr _]%Hrts & Hrx)] Hx]; [unfold nullrev in *; lia|]. eauto.
Qed.


(** Without heads, the nodes are all the descendants of the roots and the
    heads returned are those without children. *)
Lemma nodesbetween_all_heads (roots : list Z) :
  roots ≠ [] -> (forall r, r ∈ roots -> 0 <= r < len) ->
  exists nodes outroots outheads,
    nodesbetween pfunc len (Some roots) None = Ok (nodes, outroots, outheads) /\ ascending nodes /\
    (forall x, x ∈ nodes <-> x < len /\ exists r, r ∈ roots /\ anc pfunc r x) /\
    (forall x, x ∈ outroots <-> x ∈ roots /\ ~ exists r, r ∈ roots /\ sanc pfunc r x) /\
    (forall x, x ∈ outheads <-> x ∈ nodes /\ RevlogGraph.childless pfunc len x).
Proof.
  intros Hne Hr. unfold nodesbetween.
  pose proof (zmin_list_in 0 roots Hne) as Hin. pose proof (zmin_list_le 0 roots) as Hle.
  pose proof (Hr _ Hin) as Hlow. set (low := zmin_list 0 roots) in *.
  replace (match roots with [] => Ok nonodes | _ => _ end) with (walk pfunc len low (len - 1) None roots ∅).
  2: { destruct roots; [done|]. fold low. rewrite decide_False; [done|]. unfold nullrev. lia. }
  assert (forall x, from_roots pfunc low roots x <-> exists r, r ∈ roots /\ anc pfunc r x) as Hfrom.
  { intros x. unfold from_roots, nullrev. split; [intros [?|?]; [lia|done]|by right]. }
  assert (forall x, (exists r, r ∈ roots /\ anc pfunc r x) -> low <= x) as Hge.
  { intros x (r & Hrin & Ha). specialize (Hle r Hrin). apply anc_le in Ha; [lia|done]. }
  destruct (walk_returns pfunc len low roots None ∅) with (high := len - 1)
    as (nodes & R & heads & -> & Hasc & Hn & HR & Hh).
  - right. split_and!; [lia|done|done].
  - done.
  - done.
  - intros _. split; [done|]. unfold nullrev. lia.
  - lia.
  - intros x Hx. specialize (Hr x Hx). lia.
  - lia.
  - exists low. split; [lia|]. split; [|done]. apply Hfrom. exists low. auto with hg.
  - intros heads Hh Hem.
    assert (forall n x, (Z.to_nat (len - x) < n)%nat -> x < len -> (exists r, r ∈ roots /\ anc pfunc r x) -> False)
      as Hnone; [|apply (Hnone (S (Z.to_nat (len - low))) low); [lia|lia|exists low; auto with hg]].
    induction n as [|n IH]; intros x Hx Hxl Hf; [lia|].
    assert (x ∉ flagged heads) as Hnf by (rewrite Hem; set_solver).
    rewrite elem_of_flagged, (proj2 (Hh x)), Hfrom in Hnf. apply Hnf. split; [lia|]. split; [done|].
    intros c Hc Hp. assert (parent pfunc c x) as Hcx.
    { split; [done|]. specialize (Hge x Hf). unfold nullrev. lia. }
    pose proof (parent_below _ _ _ Hcx). apply (IH c); [lia|lia|].
    destruct Hf as (r & Hrin & Ha). exists r. split; [done|].
    eapply anc_trans; [exact Ha|]. by apply anc_parent.
  - exists nodes, R, (flagged heads). split; [done|]. split; [done|].
    assert (forall x, x ∈ nodes <-> x < len /\ exists r, r ∈ roots /\ anc pfunc r x) as Hnodes.
    { intros x. rewrite Hn, Hfrom. cbn. split; [intros (? & ? & _); split; [lia|done]|].
      intros [? Hf]. specialize (Hge x Hf). split_and!; [lia|lia|done|done]. }
    split; [done|]. split; [done|]. intros x. cbn in Hh. destruct (Hh x) as [_ Hx].
    rewrite elem_of_flagged, Hx, Hfrom, Hnodes. replace (len - 1 + 1) with len by lia. tauto.
Qed.
End between.


End NodesBetween.
