(* ===== verification/PyFormat.v ===== *)
(** * Decimal numbers in text

    The [%d] conversion and the [\d+] groups that [int()] reads back, as the
    diff and patch code uses them in hunk headers. *)

From S2P Require Import Prelude Lines Struct.

Definition isdigit (c : ascii) : bool := bool_decide (48 <= ord c <= 57).

Definition digit (d : Z) : ascii := byte (48 + d).

(** The decimal digits of a number that is not negative, most significant first. *)
Fixpoint digits_loop (fuel : nat) (n : Z) : bytes :=
  match fuel with
  | O => []
  | S fuel => if decide (n < 10) then [digit n] else digits_loop fuel (n / 10) ++ [digit (n mod 10)]
  end.

Definition digits (n : Z) : bytes := digits_loop (S (Z.to_nat (Z.log2 n))) n.

(** ["%d" % n] *)
Definition fmt_d (n : Z) : bytes :=
  if decide (n < 0) then bs "-" ++ digits (- n) else digits n.

(** [int(s)] of a group of digits. *)
Definition int_of (ds : bytes) : Z := fold_left (fun acc c => acc * 10 + (ord c - 48)) ds 0.

(** The longest prefix of digits and the rest. *)
Fixpoint span_digits (t : bytes) : bytes * bytes :=
  match t with
  | c :: t' => if isdigit c then let '(ds, rest) := span_digits t' in (c :: ds, rest) else ([], t)
  | [] => ([], [])
  end.

(** The group [(\d+)]. *)
Definition read_number (t : bytes) : option (Z * bytes) :=
  match span_digits t with
  | ([], _) => None
  | (ds, rest) => Some (int_of ds, rest)
  end.

(** A literal part of a pattern. *)
Fixpoint read_literal (l t : bytes) : option bytes :=
  match l, t with
  | [], _ => Some t
  | x :: l, y :: t => if ascii_dec x y then read_literal l t else None
  | _ :: _, [] => None
  end.

Lemma digit_isdigit d : 0 <= d < 10 -> isdigit (digit d) = true.
Proof.
  intros. unfold isdigit, digit. rewrite bool_decide_eq_true, ord_byte, Z.mod_small; lia.
Qed.

Lemma ord_digit d : 0 <= d < 10 -> ord (digit d) = 48 + d.
Proof. intros. unfold digit. rewrite ord_byte, Z.mod_small; lia. Qed.

Lemma int_of_snoc ds c : int_of (ds ++ [c]) = int_of ds * 10 + (ord c - 48).
Proof. unfold int_of. by rewrite fold_left_app. Qed.

Lemma log2_div10 n : 10 <= n -> Z.log2 (n / 10) < Z.log2 n.
Proof.
  intros. assert (0 < n / 10) by (apply Z.div_str_pos; lia).
  assert (n / 10 <= n / 2) by (apply Z.div_le_compat_l; lia).
  pose proof (Z.log2_le_mono _ _ H1). assert (Z.log2 n = Z.succ (Z.log2 (n / 2))); [|lia].
  rewrite <- Z.div2_div. assert (n = 2 * Z.div2 n + Z.b2z (Z.odd n)) as E by apply Z.div2_odd.
  assert (0 < Z.div2 n) by (rewrite Z.div2_div; apply Z.div_str_pos; lia). rewrite E at 1.
  destruct (Z.odd n); simpl Z.b2z; [by rewrite Z.log2_succ_double|].
  rewrite Z.add_0_r. by rewrite Z.log2_double.
Qed.

Lemma digits_loop_spec fuel n :
  0 <= n -> (Z.to_nat (Z.log2 n) < fuel)%nat ->
  int_of (digits_loop fuel n) = n /\ Forall (fun c => isdigit c = true) (digits_loop fuel n) /\
  digits_loop fuel n ≠ [].
Proof.
  revert n. induction fuel as [|fuel IH]; intros n Hn Hf; [lia|]. cbn [digits_loop]. case_decide as Hs.
  - split_and!; [|by repeat constructor; apply digit_isdigit; lia|done].
    unfold int_of. simpl. rewrite ord_digit by lia. lia.
  - pose proof (log2_div10 n ltac:(lia)). pose proof (Z.log2_nonneg (n / 10)).
    destruct (IH (n / 10)) as (E & HF & Hne); [apply Z.div_pos; lia|lia|].
    pose proof (Z.mod_pos_bound n 10 ltac:(lia)). split_and!.
    + rewrite int_of_snoc, E, ord_digit by lia. pose proof (Z.div_mod n 10). lia.
    + apply Forall_app. split; [done|]. repeat constructor. by apply digit_isdigit.
    + by destruct (digits_loop fuel (n / 10)).
Qed.

Lemma digits_spec n :
  0 <= n -> int_of (digits n) = n /\ Forall (fun c => isdigit c = true) (digits n) /\ digits n ≠ [].
Proof. intros. apply digits_loop_spec; [done|]. lia. Qed.

(** The rest of the text does not go on with a digit. *)
Definition no_digit (rest : bytes) : Prop :=
  match rest with [] => True | c :: _ => isdigit c = false end.

Lemma span_digits_app ds rest :
  Forall (fun c => isdigit c = true) ds -> no_digit rest -> span_digits (ds ++ rest) = (ds, rest).
Proof.
  induction 1 as [|c ds Hc _ IH]; intros Hr; simpl.
  - destruct rest as [|c rest]; [done|]. simpl in *. by rewrite Hr.
  - by rewrite Hc, IH.
Qed.

(** What is printed is read back. *)
Lemma read_number_fmt n rest : 0 <= n -> no_digit rest -> read_number (fmt_d n ++ rest) = Some (n, rest).
Proof.
  intros Hn Hr. unfold fmt_d, read_number. rewrite decide_False by lia.
  destruct (digits_spec n Hn) as (E & HF & Hne). rewrite span_digits_app by done.
  destruct (digits n); [done|]. by rewrite E.
Qed.

Lemma read_literal_app l rest : read_literal l (l ++ rest) = Some rest.
Proof. induction l as [|x l IH]; [done|]. simpl. by destruct (ascii_dec x x). Qed.

Example fmt_example : fmt_d 1204 = bs "1204" /\ fmt_d (-7) = bs "-7" /\ int_of (bs "1204") = 1204.
Proof. vm_compute. done. Qed.
