(* ===== verification/UnifiedDiff.v ===== *)
(** * Unified diffs (mdiff.py)

    [allblocks] turns the matching blocks of two texts into a sequence of equal
    and different blocks; [_unidiff] groups the different ones with their
    context into hunks and prints them.  Both are verified against the
    interface [LineMatcher] of the block finder.  The file also holds
    [wsclean], [splitblock] and [blocksinrange]. *)

From S2P Require Import Prelude Lines Struct PyFormat Bdiff.

Module UnifiedDiff.

Record diffopts := DiffOpts {
  context : Z;
  text : bool;
  showfunc : bool;
  git : bool;
  nodates : bool;
  nobinary : bool;
  noprefix : bool;
  index : Z;
  ignorews : bool;
  ignorewsamount : bool;
  ignorewseol : bool;
  ignoreblanklines : bool;
  upgrade : bool;
  showsimilarity : bool;
  worddiff : bool;
  hashbinary : bool;
  filtercopysource : bool
}.

Definition defaultopts : diffopts :=
  DiffOpts 3 false false false false false false 0 false false false false false false false false false.

(** ** White space *)

Definition tab : ascii := "009"%char.
Definition formfeed : ascii := "012"%char.
Definition cr : ascii := "013"%char.
Definition space : ascii := " "%char.

(** [re.sub("[...]+", "", t)] *)
Definition sub_runs_empty (P : ascii -> bool) (t : bytes) : bytes := filter (fun c => P c = false) t.

(** [re.sub("[...]+", x, t)] for a single character [x]. *)
Fixpoint sub_runs (P : ascii -> bool) (x : ascii) (inrun : bool) (t : bytes) : bytes :=
  match t with
  | [] => []
  | c :: t =>
      if P c then (if inrun : bool then sub_runs P x true t else x :: sub_runs P x true t)
      else c :: sub_runs P x false t
  end.

(** [t.replace(" \n", "\n")] *)
Fixpoint replace_space_newline (t : bytes) : bytes :=
  match t with
  | [] => []
  | c :: t' =>
      match t' with
      | d :: _ =>
          if decide (c = space /\ d = newline) then replace_space_newline t'
          else c :: replace_space_newline t'
      | [] => [c]
      end
  end.

(** [re.sub(r"[ \t\r\f]+\n", r"\n", t)]: a run that ends at a newline goes. *)
Fixpoint strip_eol (P : ascii -> bool) (t : bytes) : bytes :=
  match t with
  | [] => []
  | c :: t =>
      let rest := strip_eol P t in
      match rest with
      | d :: _ => if P c && bool_decide (d = newline) then rest else c :: rest
      | [] => c :: rest
      end
  end.

Fixpoint lstrip (P : ascii -> bool) (t : bytes) : bytes :=
  match t with
  | [] => []
  | c :: t' => if P c then lstrip P t' else t
  end.

Definition rstrip (P : ascii -> bool) (t : bytes) : bytes := rev (lstrip P (rev t)).

Definition one_of (cs : list ascii) (c : ascii) : bool := bool_decide (c ∈ cs).

(** [bdiff.fixws] *)
Definition fixws (t : bytes) (allws : bool) : bytes :=
  if allws then sub_runs_empty (one_of [space; tab; cr]) t
  else replace_space_newline (sub_runs (one_of [space; tab; cr]) space false t).

Definition wsclean (opts : diffopts) (t : bytes) (blank : bool) : bytes :=
  let t :=
    if ignorews opts then fixws t true
    else if ignorewsamount opts then fixws t false
    else t in
  let t :=
    if blank && ignoreblanklines opts then
      let t := sub_runs (one_of [newline]) newline false t in
      rstrip (one_of [newline]) (lstrip (one_of [newline]) t)
    else t in
  if ignorewseol opts then strip_eol (one_of [space; tab; cr; formfeed]) t else t.

(** ** Blocks *)

Notation quad := (Z * Z * Z * Z)%type.

(** The types ["="], ["!"] and ["~"]. *)
Inductive btype := Same | Changed | Blank.

#[global] Instance btype_eq_dec : EqDecision btype.
Proof. solve_decision. Defined.

(** [(wsclean(opts, l) and 1 or 0)] *)
Definition nonblank (opts : diffopts) (l : bytes) : Z :=
  match wsclean opts l true with [] => 0 | _ => 1 end.

(** [while i < e and lines[i] == 0: i += 1] *)
Fixpoint skip_blank (fuel : nat) (lines : list Z) (i e : Z) : res Z :=
  match fuel with
  | O => Err OutOfFuel
  | S fuel =>
      if decide (i < e) then
        let* x := getitem lines i in
        if decide (x = 0) then skip_blank fuel lines (i + 1) e else Ok i
      else Ok i
  end.

(** [while i1 < e1 and lines1[i1] == 1 and lines2[i2] == 1: ...] *)
Fixpoint skip_same (fuel : nat) (lines1 lines2 : list Z) (i1 i2 e1 : Z) : res (Z * Z) :=
  match fuel with
  | O => Err OutOfFuel
  | S fuel =>
      if decide (i1 < e1) then
        let* x := getitem lines1 i1 in
        if decide (x = 1) then
          let* y := getitem lines2 i2 in
          if decide (y = 1) then skip_same fuel lines1 lines2 (i1 + 1) (i2 + 1) e1 else Ok (i1, i2)
        else Ok (i1, i2)
      else Ok (i1, i2)
  end.

(** [i >= e or lines[i] == 0] *)
Definition at_blank (lines : list Z) (i e : Z) : res bool :=
  if decide (i >= e) then Ok true
  else let* x := getitem lines i in Ok (bool_decide (x = 0)).

Fixpoint split_loop (fuel : nat) (base1 base2 : Z) (lines1 lines2 : list Z) (s1 s2 : Z) :
    res (list (quad * btype)) :=
  let e1 := zlen lines1 in
  let e2 := zlen lines2 in
  match fuel with
  | O => Err OutOfFuel
  | S fuel =>
      if decide (s1 < e1 \/ s2 < e2) then
        let* b1 := at_blank lines1 s1 e1 in
        let* b2 := at_blank lines2 s2 e2 in
        let* (i1, i2, ty) :=
          (if (b1 || b2 : bool) then
             let* i1 := skip_blank (S (length lines1)) lines1 s1 e1 in
             let* i2 := skip_blank (S (length lines2)) lines2 s2 e2 in
             Ok (i1, i2, Blank)
           else
             let* (i1, i2) := skip_same (S (length lines1)) lines1 lines2 s1 s2 e1 in
             Ok (i1, i2, Same)) in
        let* rest := split_loop fuel base1 base2 lines1 lines2 i1 i2 in
        Ok ((base1 + s1, base1 + i1, base2 + s2, base2 + i2, ty) :: rest)
      else Ok []
  end.

(** [splitblock] *)
Definition splitblock (base1 : Z) (lines1 : list bytes) (base2 : Z) (lines2 : list bytes)
    (opts : diffopts) : res (list (quad * btype)) :=
  split_loop (S (length lines1 + length lines2)) base1 base2
    (map (nonblank opts) lines1) (map (nonblank opts) lines2) 0 0.

Definition hunkinrange (hunk linerange : Z * Z) : bool :=
  let '(start, length) := hunk in
  let '(lowerbound, upperbound) := linerange in
  bool_decide (lowerbound < start + length) && bool_decide (start < upperbound).

(** The loop body of [blocksinrange]: the bounds found so far. *)
Definition range_block (lbb ubb : Z) (block : quad * btype) (st : option Z * option Z) :
    option Z * option Z :=
  let '(a1, a2, b1, b2, stype) := block in
  let '(lba, uba) := st in
  if decide (lbb >= b1 /\ ubb <= b2 /\ stype = Same) then
    (Some (lbb - b1 + a1), Some (ubb - b1 + a1))
  else
    let lba :=
      if decide (b1 <= lbb < b2) then
        if decide (stype = Same) then Some (a2 - (b2 - lbb)) else Some a1
      else lba in
    let uba :=
      if decide (b1 < ubb <= b2) then
        if decide (stype = Same) then Some (a1 + (ubb - b1)) else Some a2
      else uba in
    (lba, uba).

Definition block_in_range (rangeb : Z * Z) (block : quad * btype) : bool :=
  let '(a1, a2, b1, b2, stype) := block in hunkinrange (b1, b2 - b1) rangeb.

Definition blocksinrange (blocks : list (quad * btype)) (rangeb : Z * Z) :
    res (list (quad * btype) * (Z * Z)) :=
  let '(lbb, ubb) := rangeb in
  let bounds := foldl (fun st block => range_block lbb ubb block st) (None, None) blocks in
  let filteredblocks := filter (fun block => block_in_range rangeb block = true) blocks in
  match bounds with
  | (Some lba, Some uba) =>
      if decide (uba < lba) then Err (Abort "line range exceeds file size")
      else Ok (filteredblocks, (lba, uba))
  | _ => Err (Abort "line range exceeds file size")
  end.

Section diff.
Context `{!LineMatcher}.

(** The loop of [allblocks] over the matches, with the previous match. *)
Fixpoint allblocks_loop (opts : diffopts) (lines1 lines2 : list bytes) (prev : quad)
    (diff : list quad) : list (quad * btype) :=
  match diff with
  | [] => []
  | s1 :: diff =>
      let '(_, p1, _, p3) := prev in
      let '(q0, _, q2, _) := s1 in
      let s := (p1, q0, p3, q2) in
      let between :=
        if decide (p1 ≠ q0 \/ p3 ≠ q2) then
          let old := wsclean opts (concat (slice lines1 p1 q0)) true in
          let new := wsclean opts (concat (slice lines2 p3 q2)) true in
          [(s, if decide (ignoreblanklines opts = true /\ old = new) then Blank else Changed)]
        else [] in
      between ++ (s1, Same) :: allblocks_loop opts lines1 lines2 s1 diff
  end.

Definition allblocks (text1 text2 : bytes) (opts : diffopts) (lines1 lines2 : option (list bytes)) :
    list (quad * btype) :=
  let ws := ignorews opts || ignorewsamount opts || ignorewseol opts in
  let text1 := if ws then wsclean opts text1 false else text1 in
  let text2 := if ws then wsclean opts text2 false else text2 in
  allblocks_loop opts (default (splitnewlines text1) lines1) (default (splitnewlines text2) lines2)
    (0, 0, 0, 0) (blocks_of text1 text2).

(** ** Hunks *)

Definition missing_newline_marker : bytes := bs "\ No newline at end of file" ++ [newline].

Definition isalnum (c : ascii) : bool :=
  isdigit c || bool_decide (65 <= ord c <= 90) || bool_decide (97 <= ord c <= 122).

Definition isspace (c : ascii) : bool := bool_decide (9 <= ord c <= 13 \/ ord c = 32).

Definition contextend (opts : diffopts) (l len : Z) : Z :=
  let ret := l + context opts in if decide (ret > len) then len else ret.

Definition contextstart (opts : diffopts) (l : Z) : Z :=
  let ret := l - context opts in if decide (ret < 0) then 0 else ret.

(** A hunk under construction: [[astart, a2, bstart, b2, delta]]. *)
Record hunk := Hunk {
  h_astart : Z; h_a2 : Z; h_bstart : Z; h_b2 : Z; h_delta : list bytes
}.

(** The line of the function a hunk is in: the nearest one above it that
    starts with an alphanumeric character. *)
Fixpoint find_func (l1 : list bytes) (is_ : list Z) : res (option bytes) :=
  match is_ with
  | [] => Ok None
  | i :: is_ =>
      let* l := getitem l1 i in
      let* c := getitem l 0 in
      if isalnum c then Ok (Some (space :: slice (rstrip isspace l) 0 40)) else find_func l1 is_
  end.

(** Append a newline to the last line of the hunk that starts with one of [cs]
    and put the marker after it; says which character the line started with. *)
Fixpoint mark_missing (cs : list ascii) (hunklines : list bytes) (is_ : list Z) :
    res (option ascii * list bytes) :=
  match is_ with
  | [] => Ok (None, hunklines)
  | i :: is_ =>
      let* l := getitem hunklines i in
      let* c := getitem l 0 in
      if decide (c ∈ cs) then
        Ok (Some c, slice hunklines 0 i ++ [l ++ [newline]; missing_newline_marker]
                    ++ slice hunklines (i + 1) (zlen hunklines))
      else mark_missing cs hunklines is_
  end.

Definition backwards (l : list bytes) : list Z := zrange_down (zlen l - 1) (-1).

(** [t[-1] != "\n"] *)
Definition no_final_newline (t : bytes) : res bool :=
  match last t with Some c => Ok (negb (bool_decide (c = newline))) | None => Err IndexError end.

(** ["@@ -%d,%d +%d,%d @@%s\n"] *)
Definition hunk_header (r : quad) (func : bytes) : bytes :=
  let '(astart, alen, bstart, blen) := r in
  bs "@@ -" ++ fmt_d astart ++ bs "," ++ fmt_d alen ++ bs " +" ++ fmt_d bstart ++ bs "," ++
  fmt_d blen ++ bs " @@" ++ func ++ [newline].

(** [yieldhunk]; [lastfunc] is the mutable pair it shares between hunks. *)
Definition yieldhunk (opts : diffopts) (t1 t2 : bytes) (l1 l2 : list bytes)
    (lastfunc : Z * bytes) (h : hunk) : res (quad * list bytes * (Z * bytes)) :=
  let '(Hunk astart a2 bstart b2 delta) := h in
  let aend := contextend opts a2 (zlen l1) in
  let alen := aend - astart in
  let blen := b2 - bstart + aend - a2 in
  let* (func, lastfunc) :=
    (if showfunc opts then
       let '(lastpos, func) := lastfunc in
       let* found := find_func l1 (zrange_down (astart - 1) (lastpos - 1)) in
       let func := default func found in
       Ok (func, (astart, func))
     else Ok ([], lastfunc)) in
  let astart := if decide (alen ≠ 0) then astart + 1 else astart in
  let bstart := if decide (blen ≠ 0) then bstart + 1 else bstart in
  let hunkrange := (astart, alen, bstart, blen) in
  let* ctx := getitems l1 (zrange a2 aend) in
  let hunklines := hunk_header hunkrange func :: delta ++ map (cons space) ctx in
  let* nonl1 := no_final_newline t1 in
  let* (hit, hunklines) :=
    (if nonl1 && bool_decide (astart + alen = zlen l1 + 1) then
       mark_missing ["-"; " "]%char hunklines (backwards hunklines)
     else Ok (None, hunklines)) in
  let skip := bool_decide (hit = Some space) in
  let* nonl2 := if skip then Ok false else no_final_newline t2 in
  let* (_, hunklines) :=
    (if nonl2 && bool_decide (bstart + blen = zlen l2 + 1) then
       mark_missing ["+"%char] hunklines (backwards hunklines)
     else Ok (None, hunklines)) in
  Ok (hunkrange, hunklines, lastfunc).

(** The loop state of [_unidiff]. *)
Record diff_state := DiffState {
  d_hunk : option hunk;
  d_ignoredlines : Z;
  d_lastfunc : Z * bytes;
  d_out : list (quad * list bytes)
}.

(** The body of the loop of [_unidiff]. *)
Definition unidiff_block (opts : diffopts) (t1 t2 : bytes) (l1 l2 : list bytes)
    (st : diff_state) (block : quad * btype) : res diff_state :=
  let '(a1, a2, b1, b2, stype) := block in
  match stype with
  | Same => Ok st
  | Blank =>
      Ok (DiffState (d_hunk st) (d_ignoredlines st + ((b2 - b1) - (a2 - a1))) (d_lastfunc st) (d_out st))
  | Changed =>
      let old := slice l1 a1 a2 in
      let new := slice l2 b1 b2 in
      let b1 := b1 - d_ignoredlines st in
      let b2 := b2 - d_ignoredlines st in
      let astart := contextstart opts a1 in
      let bstart := contextstart opts b1 in
      let lines astart :=
        map (cons space) (slice l1 astart a1) ++ map (cons "-"%char) old ++ map (cons "+"%char) new in
      match d_hunk st with
      | Some h =>
          if decide (astart < h_a2 h + context opts + 1) then
            Ok (DiffState (Some (Hunk (h_astart h) a2 (h_bstart h) b2 (h_delta h ++ lines (h_a2 h))))
                  (d_ignoredlines st) (d_lastfunc st) (d_out st))
          else
            let* (range, hunklines, lastfunc) := yieldhunk opts t1 t2 l1 l2 (d_lastfunc st) h in
            Ok (DiffState (Some (Hunk astart a2 bstart b2 (lines astart)))
                  (d_ignoredlines st) lastfunc (d_out st ++ [(range, hunklines)]))
      | None =>
          Ok (DiffState (Some (Hunk astart a2 bstart b2 (lines astart)))
                (d_ignoredlines st) (d_lastfunc st) (d_out st))
      end
  end.

Fixpoint unidiff_loop (opts : diffopts) (t1 t2 : bytes) (l1 l2 : list bytes)
    (st : diff_state) (blocks : list (quad * btype)) : res diff_state :=
  match blocks with
  | [] => Ok st
  | block :: blocks =>
      let* st := unidiff_block opts t1 t2 l1 l2 st block in
      unidiff_loop opts t1 t2 l1 l2 st blocks
  end.

(** [_unidiff]: the boolean yielded first, and the hunks. *)
Definition unidiff_ (t1 t2 : bytes) (opts : diffopts) : res (bool * list (quad * list bytes)) :=
  let l1 := splitnewlines t1 in
  let l2 := splitnewlines t2 in
  let* st := unidiff_loop opts t1 t2 l1 l2 (DiffState None 0 (0, []) [])
               (allblocks t1 t2 opts (Some l1) (Some l2)) in
  match d_hunk st with
  | Some h =>
      let* (range, hunklines, _) := yieldhunk opts t1 t2 l1 l2 (d_lastfunc st) h in
      Ok (true, d_out st ++ [(range, hunklines)])
  | None => Ok (bool_decide (d_out st ≠ []), d_out st)
  end.

(** ** The diff of a file *)

(** [util.binary] of a text that may be [None]. *)
Definition binary (s : option bytes) : bool :=
  match s with Some s => bool_decide ("000"%char ∈ s) | None => false end.

(** [not s] *)
Definition empty (s : option bytes) : bool :=
  match s with Some (_ :: _) => false | _ => true end.

(** [util.datestr((0, 0))] *)
Definition epoch : bytes := bs "Thu Jan 01 00:00:00 1970 +0000".

Definition datetag (opts : diffopts) (date : bytes) (fn : option bytes) : bytes :=
  if negb (git opts) && negb (nodates opts) then tab :: date
  else match fn with
       | Some fn => if decide (space ∈ fn) then [tab] else []
       | None => []
       end.

(** The single hunk of a file that appears or disappears. *)
Definition whole_file (t : bytes) (sign : ascii) (r : quad) (header : bytes) :
    res (option quad * list bytes) :=
  let* without_newline := no_final_newline t in
  let hunklines := header :: map (cons sign) (splitnewlines t) in
  Ok (Some r,
      if without_newline : bool then
        match last hunklines with
        | Some l => removelast hunklines ++ [l ++ [newline]; missing_newline_marker]
        | None => hunklines
        end
      else hunklines).

(** [unidiff]; [sha1hex] is [sha1(b).hexdigest()]. *)
Definition unidiff (sha1hex : bytes -> bytes) (a : option bytes) (ad : bytes) (b : option bytes)
    (bd : bytes) (fn1 fn2 : bytes) (opts : diffopts) (check_binary : bool) :
    res (list bytes * list (option quad * list bytes)) :=
  let sentinel := ([], []) in
  let aprefix := if noprefix opts then [] else bs "a/" in
  let bprefix := if noprefix opts then [] else bs "b/" in
  let l1 := bs "--- " ++ aprefix ++ fn1 ++ datetag opts ad (Some fn1) in
  let l2 := bs "+++ " ++ bprefix ++ fn2 ++ datetag opts bd (Some fn2) in
  if empty a && empty b then Ok sentinel
  else if negb (text opts) && check_binary && (binary a || binary b) then
    if negb (empty a) && negb (empty b) && bool_decide (a = b) then Ok sentinel
    else
      let* message :=
        (if hashbinary opts then
           match b with
           | Some b => Ok (bs "Binary file " ++ fn1 ++ bs " has changed to " ++ sha1hex b ++ [newline])
           | None => Err TypeError
           end
         else Ok (bs "Binary file " ++ fn1 ++ bs " has changed" ++ [newline])) in
      Ok ([], [(None, [message])])
  else
    match a, b with
    | Some ((_ :: _) as t1), Some ((_ :: _) as t2) =>
        let* (some, hunks) := unidiff_ t1 t2 opts in
        if some : bool then Ok ([l1; l2], map (fun '(r, ls) => (Some r, ls)) hunks)
        else Ok sentinel
    | _, Some ((_ :: _) as t2) =>
        let l1 := match a with None => bs "--- /dev/null" ++ datetag opts epoch None | Some _ => l1 end in
        let size := zlen (splitnewlines t2) in
        let* h := whole_file t2 "+" (0, 0, 1, size)
                    (bs "@@ -0,0 +1," ++ fmt_d size ++ bs " @@" ++ [newline]) in
        Ok ([l1; l2], [h])
    | Some t1, _ =>
        let l2 := match b with None => bs "+++ /dev/null" ++ datetag opts epoch None | Some _ => l2 end in
        let size := zlen (splitnewlines t1) in
        let* h := whole_file t1 "-" (1, size, 0, 0)
                    (bs "@@ -1," ++ fmt_d size ++ bs " +0,0 @@" ++ [newline]) in
        Ok ([l1; l2], [h])
    | None, _ => Ok sentinel
    end.
End diff.

(** ** Hunk bodies *)

(** A body line is a line of one of the texts behind its tag. *)
Definition full (l : bytes) : Prop := last l = Some newline.

Definition tagged (x : bytes) : Prop :=
  exists c r, x = c :: r /\ c ∈ [" "; "-"; "+"]%char /\ r ≠ [].

Definition side (cs : list ascii) (x : bytes) : option bytes :=
  match x with c :: r => if decide (c ∈ cs) then Some r else None | [] => None end.

(** The lines of the old and of the new text in a body. *)
Definition old_of (body : list bytes) : list bytes := omap (side [" "; "-"]%char) body.
Definition new_of (body : list bytes) : list bytes := omap (side [" "; "+"]%char) body.

(** A line as it is printed: with the marker when it has no newline. *)
Definition enc (cs : list ascii) (x : bytes) : list bytes :=
  match x with
  | c :: _ => if decide (c ∈ cs /\ last x ≠ Some newline) then [x ++ [newline]; missing_newline_marker] else [x]
  | [] => [x]
  end.

Definition enc_all (body : list bytes) : list bytes := concat (map (enc [" "; "-"; "+"]%char) body).

Lemma tagged_full c r : r ≠ [] -> full (c :: r) <-> full r.
Proof. intros. unfold full. by destruct r. Qed.

Lemma enc_nil x : enc [] x = [x].
Proof. destruct x; [done|]. unfold enc. rewrite decide_False; [done|]. by intros [[]%elem_of_nil _]. Qed.

Lemma concat_enc_nil body : concat (map (enc []) body) = body.
Proof. induction body as [|x body IH]; [done|]. cbn [map concat]. by rewrite IH, enc_nil. Qed.

(** Two encodings agree on the lines on which they differ only in tags the
    line does not have, or that have their newline. *)
Lemma enc_agree cs cs' body :
  Forall (fun x => full x \/ forall c r, x = c :: r -> c ∈ cs <-> c ∈ cs') body ->
  concat (map (enc cs) body) = concat (map (enc cs') body).
Proof.
  induction 1 as [|x body Hx _ IH]; [done|]. cbn [map concat]. rewrite IH. f_equal.
  destruct x as [|c r]; [done|]. unfold enc. destruct Hx as [Hx|Hx].
  - rewrite !decide_False; [done| |]; intros [_ ?]; done.
  - specialize (Hx c r eq_refl). repeat case_decide; tauto || done.
Qed.

Lemma old_of_app l l' : old_of (l ++ l') = old_of l ++ old_of l'.
Proof. apply omap_app. Qed.

Lemma new_of_app l l' : new_of (l ++ l') = new_of l ++ new_of l'.
Proof. apply omap_app. Qed.

Lemma side_cons cs x l :
  omap (side cs) (x :: l) =
  match side cs x with Some r => r :: omap (side cs) l | None => omap (side cs) l end.
Proof. done. Qed.

Lemma side_map cs c ls : omap (side cs) (map (cons c) ls) = if decide (c ∈ cs) then ls else [].
Proof.
  induction ls as [|l ls IH]; [by case_decide|]. cbn [map]. rewrite side_cons, IH. unfold side.
  by case_decide.
Qed.

(** The line behind the last element of a side. *)
Lemma side_last cs (body : list bytes) o z :
  omap (side cs) body = o ++ [z] ->
  exists pre c post, body = pre ++ (c :: z) :: post /\ c ∈ cs /\
    omap (side cs) pre = o /\ omap (side cs) post = [].
Proof.
  revert o. induction body as [|x body IH] using rev_ind; intros o E; [by destruct o|].
  rewrite omap_app, side_cons in E.
  destruct (side cs x) as [r|] eqn:Hx.
  - apply app_inj_tail in E as [E <-]. destruct x as [|c r']; [done|]. simpl in Hx. case_decide; simplify_eq.
    exists body, c, []. done.
  - rewrite app_nil_r in E. destruct (IH o E) as (pre & c & post & -> & Hc & Ho & Hp).
    exists pre, c, (post ++ [x]). split_and!; auto.
    + by rewrite <- (assoc_L (++)).
    + rewrite omap_app, Hp, side_cons. by rewrite Hx.
Qed.

Lemma elem_of_side cs (body : list bytes) c r : c :: r ∈ body -> c ∈ cs -> r ∈ omap (side cs) body.
Proof.
  intros Hin Hc. apply list_elem_of_omap. exists (c :: r). split; [done|]. simpl. by rewrite decide_True.
Qed.

Lemma sides_nil body : Forall tagged body -> old_of body = [] -> new_of body = [] -> body = [].
Proof.
  intros HF Ho Hn. destruct body as [|x body]; [done|]. apply Forall_cons in HF as [(c & r & -> & Hc & _) _].
  simpl in *. unfold old_of, new_of in *. simpl in *. rewrite !elem_of_cons, elem_of_nil in Hc.
  destruct Hc as [->|[->|[->|[]]]]; done.
Qed.

Lemma no_side cs (body : list bytes) x c r : omap (side cs) body = [] -> x ∈ body -> x = c :: r -> c ∉ cs.
Proof.
  intros E Hin -> Hc. pose proof (elem_of_side cs body c r Hin Hc) as H. rewrite E in H.
  by apply elem_of_nil in H.
Qed.

(** ** The marker of a missing newline *)

Lemma mark_missing_loop cs n pre x post c r :
  x = c :: r -> c ∈ cs -> Forall (fun y => exists d t, y = d :: t /\ d ∉ cs) post ->
  (length pre <= n < length pre + S (length post))%nat ->
  mark_missing cs (pre ++ x :: post) (down_from (Z.of_nat n) (S n))
  = Ok (Some c, pre ++ [x ++ [newline]; missing_newline_marker] ++ post).
Proof.
  intros -> Hc Hpost. assert (forall (d : ascii) t, getitem (d :: t) 0 = Ok d) as Hget by done.
  induction n as [|n IH]; intros Hn; cbn [down_from mark_missing].
  - destruct pre; [|simpl in Hn; lia]. assert (getitem ([] ++ (c :: r) :: post) (Z.of_nat 0) = Ok (c :: r)) as -> by done.
    cbn [rbind]. rewrite Hget. cbn [rbind]. rewrite decide_True by done. do 2 f_equal. unfold slice, zlen. simpl. rewrite drop_0, firstn_all2 by lia. done.
  - unfold getitem at 1. rewrite Nat2Z.id.
    destruct (decide (S n = length pre)) as [E|E].
    + rewrite E, list_lookup_middle by done. cbn [rbind]. rewrite Hget. cbn [rbind].
      rewrite decide_True by done. do 2 f_equal.
      unfold slice, zlen. rewrite !length_app. simpl.
      replace (Z.to_nat (Z.of_nat (length pre) - 0)) with (length pre) by lia.
      rewrite drop_0, take_app_length. f_equal. do 2 f_equal.
      replace (Z.to_nat (Z.of_nat (length pre) + 1)) with (length (pre ++ [c :: r])) by (rewrite length_app; simpl; lia).
      replace (pre ++ (c :: r) :: post) with ((pre ++ [c :: r]) ++ post) by (by rewrite <- (assoc_L (++))).
      rewrite drop_app_length. apply firstn_all2. lia.
    + destruct (lookup_lt_is_Some_2 post (S n - S (length pre))) as [y Hy]; [lia|].
      assert ((pre ++ (c :: r) :: post) !! S n = Some y) as ->.
      { rewrite lookup_app_r by lia. replace (S n - length pre)%nat with (S (S n - S (length pre))) by lia. done. }
      rewrite Forall_forall in Hpost. destruct (Hpost y) as (d & t & -> & Hd); [by eapply list_elem_of_lookup_2|].
      cbn [rbind]. rewrite Hget. cbn [rbind]. rewrite decide_False by done.
      replace (Z.of_nat (S n) - 1) with (Z.of_nat n) by lia. apply IH. lia.
Qed.

Lemma mark_missing_spec cs pre x post c r :
  x = c :: r -> c ∈ cs -> Forall (fun y => exists d t, y = d :: t /\ d ∉ cs) post ->
  mark_missing cs (pre ++ x :: post) (backwards (pre ++ x :: post))
  = Ok (Some c, pre ++ [x ++ [newline]; missing_newline_marker] ++ post).
Proof.
  intros. unfold backwards, zrange_down, zlen. rewrite length_app. simpl length.
  replace (Z.of_nat (length pre + S (length post)) - 1) with (Z.of_nat (length pre + length post)) by lia.
  replace (Z.to_nat _) with (S (length pre + length post)) by lia.
  apply mark_missing_loop with r; auto. lia.
Qed.

(** Marking the last line of a side adds its tags to the encoding. *)
Lemma mark_enc cs cs0 hd_ body pre c r post :
  body = pre ++ (c :: r) :: post -> c ∈ cs -> ~ full (c :: r) -> Forall tagged body ->
  "\"%char ∉ cs -> (forall d, d ∈ cs -> d ∉ cs0) ->
  (forall d t, d :: t ∈ pre -> d ∈ cs -> full (d :: t)) -> omap (side cs) post = [] ->
  mark_missing cs (hd_ :: concat (map (enc cs0) body)) (backwards (hd_ :: concat (map (enc cs0) body)))
  = Ok (Some c, hd_ :: concat (map (enc (cs ++ cs0)) body)).
Proof.
  intros -> Hc Hnf HF Hbs Hdis Hpre Hpost. rewrite !map_app, !concat_app. cbn [map concat].
  apply Forall_app in HF as [HF1 [_ HF2]%Forall_cons].
  assert (enc cs0 (c :: r) = [c :: r]) as ->.
  { unfold enc. rewrite decide_False; [done|]. intros [? _]. by apply (Hdis c). }
  assert (enc (cs ++ cs0) (c :: r) = [(c :: r) ++ [newline]; missing_newline_marker]) as ->.
  { unfold enc. rewrite decide_True; [done|]. split; [|done]. apply elem_of_app. by left. }
  assert (concat (map (enc (cs ++ cs0)) pre) = concat (map (enc cs0) pre)) as ->.
  { apply enc_agree, Forall_forall. intros x Hx.
    rewrite Forall_forall in HF1. destruct (HF1 x Hx) as (d & t & -> & _ & _).
    destruct (decide (d ∈ cs)) as [Hd|Hd]; [left; by apply Hpre|right]. intros ? ? [= <- <-].
    rewrite elem_of_app. tauto. }
  assert (concat (map (enc (cs ++ cs0)) post) = concat (map (enc cs0) post)) as ->.
  { apply enc_agree, Forall_forall. intros x Hx. right. intros d t E.
    pose proof (no_side cs post x d t Hpost Hx E). rewrite elem_of_app. tauto. }
  change (hd_ :: concat (map (enc cs0) pre) ++ [c :: r] ++ concat (map (enc cs0) post))
    with ((hd_ :: concat (map (enc cs0) pre)) ++ (c :: r) :: concat (map (enc cs0) post)).
  rewrite (mark_missing_spec cs _ _ _ c r); [done|done|done|].
  apply Forall_concat, Forall_map, Forall_forall. intros x Hx.
  rewrite Forall_forall in HF2. destruct (HF2 x Hx) as (d & t & -> & _ & _).
  pose proof (no_side cs post _ d t Hpost Hx eq_refl) as Hd.
  assert (exists d' t', missing_newline_marker = d' :: t' /\ d' ∉ cs) as Hm by (by eexists _, _).
  unfold enc. case_decide; repeat constructor; eauto.
Qed.

(** The last line of a side, when it is the only one without its newline. *)
Definition ends_bare (ls : list bytes) : Prop :=
  exists o z, ls = o ++ [z] /\ Forall full o /\ ~ full z.

Lemma bare_last ls l l' z : ends_bare ls -> ls = l ++ z :: l' -> ~ full z -> l' = [] /\ Forall full l.
Proof.
  intros (o & y & -> & Ho & Hy) E Hz. destruct l' as [|x l'' _] using rev_ind.
  - apply app_inj_tail in E as [-> ->]. done.
  - exfalso. change (z :: l'' ++ [x]) with ((z :: l'') ++ [x]) in E. rewrite (assoc_L (++)) in E.
    apply app_inj_tail in E as [-> ->]. apply Forall_app in Ho as [_ [? _]%Forall_cons]. done.
Qed.

Lemma enc_done cs body :
  Forall tagged body -> (forall c r, c :: r ∈ body -> c ∉ cs -> full (c :: r)) ->
  (forall c, c ∈ cs -> c ∈ [" "; "-"; "+"]%char) ->
  concat (map (enc cs) body) = enc_all body.
Proof.
  intros HF Hfull Hcs. apply enc_agree, Forall_forall. intros x Hx. rewrite Forall_forall in HF.
  destruct (HF x Hx) as (c & r & -> & Hc & _). destruct (decide (c ∈ cs)) as [Hin|Hin].
  - right. intros ? ? [= <- <-]. split; auto.
  - left. auto.
Qed.

Lemma full_in cs body c r :
  Forall tagged body -> Forall full (omap (side cs) body) -> c :: r ∈ body -> c ∈ cs -> full (c :: r).
Proof.
  intros HF Hfull Hin Hc. rewrite Forall_forall in HF, Hfull.
  destruct (HF _ Hin) as (? & ? & [= <- <-] & _ & Hr). apply tagged_full; [done|].
  apply Hfull. by eapply elem_of_side.
Qed.

Lemma mark_side cs sidecs cs0 hd_ body :
  ends_bare (omap (side sidecs) body) -> Forall tagged body ->
  (forall pre c r post, body = pre ++ (c :: r) :: post -> c ∈ sidecs -> ~ full r ->
     omap (side sidecs) post = [] -> c ∈ cs) ->
  (forall d, d ∈ cs -> d ∈ sidecs /\ d ∉ cs0) -> "\"%char ∉ cs ->
  exists pre c r post, body = pre ++ (c :: r) :: post /\ c ∈ cs /\ ~ full r /\ omap (side sidecs) post = [] /\
    mark_missing cs (hd_ :: concat (map (enc cs0) body)) (backwards (hd_ :: concat (map (enc cs0) body)))
    = Ok (Some c, hd_ :: concat (map (enc (cs ++ cs0)) body)).
Proof.
  intros (o & z & E & Ho & Hz) HF Htag Hcs Hbs.
  destruct (side_last _ _ _ _ E) as (pre & c & post & Eb & Hc & Epre & Epost).
  exists pre, c, z, post. specialize (Htag pre c z post Eb Hc Hz Epost). split_and!; auto.
  assert (Forall tagged (pre ++ (c :: z) :: post)) as HF' by (by rewrite <- Eb).
  apply Forall_app in HF' as [HFpre [Htc HFpost]%Forall_cons].
  apply (mark_enc cs cs0 hd_ body pre c z post); auto.
  - destruct Htc as (? & ? & [= <- <-] & _ & Hr). by rewrite tagged_full.
  - intros d Hd. by apply Hcs.
  - intros d t Hin Hd. eapply full_in; [exact HFpre|by rewrite Epre|done|by apply Hcs].
  - destruct (omap (side cs) post) as [|y l] eqn:Ey; [done|]. exfalso.
    assert (y ∈ omap (side cs) post) as Hy by (rewrite Ey; by left).
    apply list_elem_of_omap in Hy as ([|d t] & Hin & Hs); [done|]. simpl in Hs. case_decide as Hd; [|done].
    apply (no_side sidecs post (d :: t) d t Epost Hin eq_refl). by apply Hcs.
Qed.

Lemma last_side_unique cs (pre post pre' post' : list bytes) x x' :
  pre ++ x :: post = pre' ++ x' :: post' -> is_Some (side cs x) -> is_Some (side cs x') ->
  omap (side cs) post = [] -> omap (side cs) post' = [] -> x = x'.
Proof.
  assert (forall l y, is_Some (side cs y) -> omap (side cs) (l ++ [y]) ≠ []) as Hno.
  { intros l y [r Hr]. rewrite omap_app, side_cons, Hr. by destruct (omap (side cs) l). }
  intros E Hx Hx'. revert post' E. induction post as [|y post IH] using rev_ind; intros post' E H1 H2.
  - destruct post' as [|y' post' _] using rev_ind; [by apply app_inj_tail in E as [_ ->]|].
    change (x' :: post' ++ [y']) with ((x' :: post') ++ [y']) in E. rewrite (assoc_L (++)) in E.
    apply app_inj_tail in E as [_ ->]. by destruct (Hno post' y').
  - change (x :: post ++ [y]) with ((x :: post) ++ [y]) in E. rewrite (assoc_L (++)) in E.
    destruct post' as [|y' post' _] using rev_ind.
    + apply app_inj_tail in E as [_ ->]. by destruct (Hno post x').
    + change (x' :: post' ++ [y']) with ((x' :: post') ++ [y']) in E. rewrite (assoc_L (++)) in E.
      apply app_inj_tail in E as [E _]. rewrite omap_app in H1, H2.
      apply app_nil in H1 as [H1 _], H2 as [H2 _]. by apply (IH post').
Qed.

Definition minus_tags : list ascii := ["-"; " "]%char.

(** The first marking: the old side. *)
Lemma mark_old (cond1 : bool) hd_ body :
  Forall tagged body -> (if cond1 then ends_bare (old_of body) else Forall full (old_of body)) ->
  exists hit,
    (if cond1 then mark_missing minus_tags (hd_ :: body) (backwards (hd_ :: body))
     else Ok (None, hd_ :: body))
    = Ok (hit, hd_ :: concat (map (enc (if cond1 then minus_tags else [])) body)) /\
    (forall c, hit = Some c -> cond1 = true /\ exists pre r post,
       body = pre ++ (c :: r) :: post /\ c ∈ minus_tags /\ ~ full r /\ old_of post = []) /\
    (hit = None -> cond1 = false).
Proof.
  intros HF H1. destruct cond1.
  - destruct (mark_side minus_tags [" "; "-"]%char [] hd_ body H1 HF) as (pre & c & r & post & Eb & Hc & Hr & Hp & E).
    + intros _ c _ _ _ Hc _ _. unfold minus_tags. set_solver.
    + intros d Hd. unfold minus_tags in *. split; set_solver.
    + apply (bool_decide_unpack _). done.
    + rewrite concat_enc_nil in E. exists (Some c). split; [exact E|]. split; [|done].
      intros ? [= <-]. split; [done|]. by exists pre, r, post.
  - exists None. rewrite concat_enc_nil. done.
Qed.

Lemma minus_or_plus body c r : Forall tagged body -> c :: r ∈ body -> c ∉ minus_tags -> c ∈ [" "; "+"]%char.
Proof.
  intros HF Hin Hc. rewrite Forall_forall in HF. destruct (HF _ Hin) as (? & ? & [= <- <-] & Ht & _).
  unfold minus_tags in Hc. set_solver.
Qed.

(** The marker stage of [yieldhunk]: the printed body. *)
Lemma mark_stage (cond1 cond2 : bool) hd_ body :
  Forall tagged body ->
  (if cond1 then ends_bare (old_of body) else Forall full (old_of body)) ->
  (if cond2 then ends_bare (new_of body) else Forall full (new_of body)) ->
  exists hit lines1,
    (if cond1 then mark_missing minus_tags (hd_ :: body) (backwards (hd_ :: body))
     else Ok (None, hd_ :: body)) = Ok (hit, lines1) /\
    (hit = Some space -> lines1 = hd_ :: enc_all body) /\
    (hit ≠ Some space ->
     exists hit2, (if cond2 then mark_missing ["+"%char] lines1 (backwards lines1) else Ok (None, lines1))
                  = Ok (hit2, hd_ :: enc_all body)).
Proof.
  intros HF H1 H2. destruct (mark_old cond1 hd_ body HF H1) as (hit & E1 & Hhit & Hnone).
  eexists hit, _. split; [exact E1|].
  assert (forall c r, c :: r ∈ body -> c ∈ [" "; "-"]%char ->
    c ∉ (if cond1 then minus_tags else []) -> full (c :: r)) as Hold.
  { intros c r Hin Hc Hn. destruct cond1; [unfold minus_tags in Hn; set_solver|]. by eapply full_in. }
  split.
  - intros ->. destruct (Hhit space eq_refl) as (-> & pre & r & post & Eb & _ & Hr & Hp).
    assert (new_of body = new_of pre ++ r :: new_of post) as En by (by rewrite Eb, new_of_app).
    f_equal. destruct cond2; cycle 1.
    { rewrite En in H2. apply Forall_app in H2 as [_ [? _]%Forall_cons]. done. }
    destruct (bare_last _ _ _ _ H2 En Hr) as [Hpn Hfp].
    assert (Forall tagged (pre ++ (space :: r) :: post)) as HF' by (by rewrite <- Eb).
    apply Forall_app in HF' as [HFpre [_ HFpost]%Forall_cons].
    apply enc_done; auto; [|unfold minus_tags; set_solver].
    intros c t Hin Hc. pose proof (minus_or_plus _ _ _ HF Hin Hc) as Hc'. rewrite Eb in Hin.
    apply (sides_nil post) in Hpn as ->; [|done|done].
    apply elem_of_app in Hin as [Hin|[[= -> _]| []%elem_of_nil]%elem_of_cons];
      [by apply (full_in [" "; "+"]%char pre)|].
    unfold minus_tags in Hc. set_solver.
  - intros Hns. set (cs0 := if cond1 then minus_tags else []) in *.
    assert (forall d, d ∈ cs0 -> d ∈ minus_tags) as Hcs0 by (unfold cs0; destruct cond1; set_solver).
    destruct cond2; cycle 1.
    { exists None. do 2 f_equal. f_equal. apply enc_done; auto.
      - intros c r Hin Hc. destruct (decide (c ∈ minus_tags)) as [Hm|Hm].
        + apply Hold; auto. unfold minus_tags in Hm. set_solver.
        + apply (full_in [" "; "+"]%char body); auto. by eapply minus_or_plus.
      - intros c Hc%Hcs0. unfold minus_tags in Hc. set_solver. }
    destruct (mark_side ["+"%char] [" "; "+"]%char cs0 hd_ body H2 HF)
      as (pre & c & r & post & Eb & Hc & Hr & Hp & E).
    + intros pre c r post Eb Hc Hr Hp. destruct (decide (c = "+"%char)) as [->|Hne]; [by left|]. exfalso.
      assert (c = space) as -> by (unfold space; set_solver).
      assert (space :: r ∈ body) as Hin by (rewrite Eb; set_solver).
      assert (exists c1, hit = Some c1) as [c1 ->].
      { destruct hit as [c1|]; [by exists c1|]. exfalso. apply Hr.
        rewrite <- (tagged_full space); [apply Hold; [done|by left|]|].
        { unfold cs0. rewrite (Hnone eq_refl). by intros []%elem_of_nil. }
        rewrite Forall_forall in HF. destruct (HF _ Hin) as (? & ? & [= _ <-] & _ & ?). done. }
      destruct (Hhit c1 eq_refl) as (-> & pre1 & r1 & post1 & Eb1 & Hc1 & _ & Hp1).
      assert (old_of body = old_of pre ++ r :: old_of post) as Eo by (by rewrite Eb, old_of_app).
      destruct (bare_last _ _ _ _ H1 Eo Hr) as [Hop _].
      assert (c1 :: r1 = space :: r) as [= -> _]; [|done].
      eapply (last_side_unique [" "; "-"]%char pre1 post1 pre post); [by rewrite <- Eb1, <- Eb| |done|done|done].
      simpl. rewrite decide_True; [done|]. unfold minus_tags in Hc1. set_solver.
    + intros d Hd. split; [set_solver|]. intros Hd0%Hcs0. unfold minus_tags in Hd0. set_solver.
    + apply (bool_decide_unpack _). done.
    + exists (Some c). rewrite E. do 2 f_equal. f_equal. apply enc_done; auto.
      * intros d t Hin Hd. apply Hold; auto; [|set_solver].
        rewrite Forall_forall in HF. destruct (HF _ Hin) as (? & ? & [= <- <-] & Ht & _). set_solver.
      * intros d [Hd|Hd%Hcs0]%elem_of_app; [set_solver|]. unfold minus_tags in Hd. set_solver.
Qed.

(** ** Lines of a text *)

Lemma last_concat_full (ls : list bytes) z : z ≠ [] -> last (concat (ls ++ [z])) = last z.
Proof.
  intros Hz. rewrite concat_app. simpl. rewrite app_nil_r. rewrite last_app.
  destruct (last z) eqn:E; [done|]. apply last_None in E. contradiction.
Qed.

Lemma is_line_nonempty l : is_line l -> l ≠ [].
Proof. intros [[_ ?]|(l' & -> & _)]; [done|]. by destruct l'. Qed.

Lemma full_line_full l : full_line l -> full l /\ l ≠ [].
Proof. intros (l' & -> & _). split; [unfold full; by rewrite last_snoc|by destruct l']. Qed.

(** A text that is not empty: only its last line may lack the newline. *)
Lemma text_lines t :
  t ≠ [] ->
  exists ls z, splitnewlines t = ls ++ [z] /\ Forall full ls /\ Forall (fun l => l ≠ []) (ls ++ [z]) /\
    no_final_newline t = Ok (negb (bool_decide (last z = Some newline))).
Proof.
  intros Ht. destruct (splitnewlines_lines t) as (ls & tl & E & Hls & Htl & Hlen).
  pose proof (splitnewlines_concat t) as Hc. rewrite E in Hc.
  assert (exists ls' z, ls ++ tl = ls' ++ [z] /\ Forall full ls' /\ Forall (fun l => l ≠ []) (ls' ++ [z]))
    as (ls' & z & E' & Hf & Hne).
  { assert (Forall full ls /\ Forall (fun l => l ≠ []) ls) as [Hf Hn].
    { split; (eapply Forall_impl; [exact Hls|]); intros l Hl; by apply full_line_full in Hl as [? ?]. }
    destruct tl as [|z [|]]; [| |simpl in Hlen; lia].
    - rewrite app_nil_r in *. destruct ls as [|z ls' _] using rev_ind; [by subst|].
      apply Forall_app in Hf as [? ?]. by exists ls', z.
    - exists ls, z. split; [done|]. split; [done|]. apply Forall_app. split; [done|].
      apply Forall_cons in Htl as [Hz _]. apply Forall_singleton. apply is_line_nonempty, Hz. }
  exists ls', z. rewrite E, E'. split_and!; auto. rewrite E' in Hc.
  apply Forall_app in Hne as [_ [Hz _]%Forall_cons].
  pose proof (last_concat_full ls' z Hz) as Hl. rewrite Hc in Hl. unfold no_final_newline. rewrite Hl.
  destruct (last z) as [c|] eqn:Ez; [|apply last_None in Ez; contradiction].
  do 2 f_equal. apply bool_decide_ext. split; [by intros ->|by intros [= ->]].
Qed.

Lemma slice_snoc_last {A} (ls : list A) z a :
  0 <= a <= zlen ls -> slice (ls ++ [z]) a (zlen (ls ++ [z])) = slice ls a (zlen ls) ++ [z].
Proof.
  intros Ha. rewrite zlen_app. change (zlen [z]) with 1.
  rewrite (slice_app _ a (zlen ls)) by lia. rewrite slice_app_l by lia. f_equal.
  rewrite slice_app_r by lia. rewrite Z.sub_diag. replace (zlen ls + 1 - zlen ls) with 1 by lia. done.
Qed.

Lemma Forall_slice {A} (P : A -> Prop) l i j : Forall P l -> Forall P (slice l i j).
Proof. intros. unfold slice. by apply Forall_take, Forall_drop. Qed.

(** The newline condition of [yieldhunk] on the lines of a slice. *)
Lemma slice_side t ls z a n (cond : bool) :
  splitnewlines t = ls ++ [z] -> Forall full ls -> 0 <= a -> 0 <= n -> a + n <= zlen (ls ++ [z]) ->
  cond = negb (bool_decide (last z = Some newline)) &&
         bool_decide ((if decide (n ≠ 0) then a + 1 else a) + n = zlen (ls ++ [z]) + 1) ->
  if cond then ends_bare (slice (ls ++ [z]) a (a + n)) else Forall full (slice (ls ++ [z]) a (a + n)).
Proof.
  intros _ Hls Ha Hn Hle ->. rewrite zlen_app in *. change (zlen [z]) with 1 in *.
  destruct (bool_decide (last z = Some newline)) eqn:Ez; simpl.
  { apply bool_decide_eq_true in Ez. apply Forall_slice, Forall_app. split; [done|]. by repeat constructor. }
  apply bool_decide_eq_false in Ez. case_bool_decide as Hc.
  - case_decide as Hn0; [|lia]. replace (a + n) with (zlen (ls ++ [z])) by (rewrite zlen_app; change (zlen [z]) with 1; lia).
    rewrite slice_snoc_last by lia. exists (slice ls a (zlen ls)), z. split_and!; auto. by apply Forall_slice.
  - destruct (decide (n = 0)) as [->|Hn0]; [rewrite slice_nil by lia; constructor|].
    rewrite decide_True in Hc by done. rewrite slice_app_l by lia. by apply Forall_slice.
Qed.

(** ** Printed hunks *)

(** The change a hunk stands for: lines [e_a .. e_a + e_alen] of the old text
    become lines [e_b .. e_b + e_blen] of the new one. *)
Record edit := Edit {
  e_a : Z; e_alen : Z; e_b : Z; e_blen : Z; e_body : list bytes; e_func : bytes
}.

Definition edit_range (e : edit) : quad :=
  (if decide (e_alen e ≠ 0) then e_a e + 1 else e_a e, e_alen e,
   if decide (e_blen e ≠ 0) then e_b e + 1 else e_b e, e_blen e).

Definition print_edit (e : edit) : quad * list bytes :=
  (edit_range e, hunk_header (edit_range e) (e_func e) :: enc_all (e_body e)).

Definition edit_ok (l1 l2 : list bytes) (e : edit) : Prop :=
  0 <= e_a e /\ 0 <= e_alen e /\ e_a e + e_alen e <= zlen l1 /\
  0 <= e_b e /\ 0 <= e_blen e /\ e_b e + e_blen e <= zlen l2 /\
  Forall tagged (e_body e) /\
  old_of (e_body e) = slice l1 (e_a e) (e_a e + e_alen e) /\
  new_of (e_body e) = slice l2 (e_b e) (e_b e + e_blen e).

(** A hunk under construction is such a change. *)
Definition hunk_edit (h : hunk) : edit :=
  Edit (h_astart h) (h_a2 h - h_astart h) (h_bstart h) (h_b2 h - h_bstart h) (h_delta h) [].

Lemma find_func_ok l1 is_ :
  Forall (fun l => l ≠ []) l1 -> Forall (fun i => 0 <= i < zlen l1) is_ -> exists f, find_func l1 is_ = Ok f.
Proof.
  intros Hne. induction 1 as [|i is_ Hi _ IH]; [by eexists|]. cbn [find_func].
  destruct (getitem_ok l1 i Hi) as [l Hl]. rewrite Hl. cbn [rbind].
  destruct l as [|c l]; [|unfold getitem; simpl; case_match; [by eexists|done]]. exfalso.
  unfold getitem in Hl. destruct (l1 !! Z.to_nat i) as [l'|] eqn:E; simplify_eq.
  rewrite Forall_forall in Hne. by apply (Hne [] (list_elem_of_lookup_2 _ _ _ E)).
Qed.

Lemma tagged_context c (ls : list bytes) :
  c ∈ [" "; "-"; "+"]%char -> Forall (fun l => l ≠ []) ls -> Forall tagged (map (cons c) ls).
Proof. intros Hc. induction 1; constructor; [|done]. by eexists _, _. Qed.

Ltac ecbn := cbn [hunk_edit h_astart h_a2 h_bstart h_b2 h_delta e_a e_alen e_b e_blen e_body e_func fst snd] in *.

Lemma contextend_range opts l len :
  0 <= context opts -> l <= len -> l <= contextend opts l len <= len.
Proof. intros. unfold contextend. case_decide; lia. Qed.

(** Adding the trailing context to a hunk. *)
Lemma edit_ok_context l1 l2 h aend func :
  edit_ok l1 l2 (hunk_edit h) -> Forall (fun l => l ≠ []) l1 -> h_a2 h <= aend <= zlen l1 ->
  h_b2 h + (aend - h_a2 h) <= zlen l2 ->
  slice l1 (h_a2 h) aend = slice l2 (h_b2 h) (h_b2 h + (aend - h_a2 h)) ->
  edit_ok l1 l2 (Edit (h_astart h) (aend - h_astart h) (h_bstart h) (h_b2 h - h_bstart h + aend - h_a2 h)
                   (h_delta h ++ map (cons space) (slice l1 (h_a2 h) aend)) func).
Proof.
  intros (A1 & A2 & A3 & B1 & B2 & B3 & HF & Ho & Hn) Hne Ha Hb Heq. unfold edit_ok in *. ecbn.
  split_and!; try lia.
  - apply Forall_app. split; [done|]. apply tagged_context; [by left|]. by apply Forall_slice.
  - rewrite old_of_app, Ho. unfold old_of. rewrite side_map, decide_True by (by left).
    replace (h_astart h + (h_a2 h - h_astart h)) with (h_a2 h) by lia.
    replace (h_astart h + (aend - h_astart h)) with aend by lia.
    rewrite <- slice_app by lia. done.
  - rewrite new_of_app, Hn. unfold new_of. rewrite side_map, decide_True by (by left). rewrite Heq.
    replace (h_bstart h + (h_b2 h - h_bstart h)) with (h_b2 h) by lia.
    replace (h_bstart h + (h_b2 h - h_bstart h + aend - h_a2 h)) with (h_b2 h + (aend - h_a2 h)) by lia.
    rewrite <- slice_app by lia. done.
Qed.

(** [yieldhunk] never fails and prints the change with its trailing context. *)
Lemma yieldhunk_spec opts t1 t2 lastfunc h :
  let l1 := splitnewlines t1 in
  let l2 := splitnewlines t2 in
  let aend := contextend opts (h_a2 h) (zlen l1) in
  0 <= context opts -> t1 ≠ [] -> t2 ≠ [] -> 0 <= lastfunc.1 ->
  edit_ok l1 l2 (hunk_edit h) -> h_b2 h + (aend - h_a2 h) <= zlen l2 ->
  slice l1 (h_a2 h) aend = slice l2 (h_b2 h) (h_b2 h + (aend - h_a2 h)) ->
  exists e lastfunc', yieldhunk opts t1 t2 l1 l2 lastfunc h = Ok (print_edit e, lastfunc') /\
    edit_ok l1 l2 e /\ 0 <= lastfunc'.1 /\
    e_a e = h_astart h /\ e_alen e = aend - h_astart h /\
    e_b e = h_bstart h /\ e_blen e = h_b2 h - h_bstart h + aend - h_a2 h.
Proof.
  intros l1 l2 aend Hctx Ht1 Ht2 Hlast Hok Hb Heq.
  destruct (text_lines t1 Ht1) as (ls1 & z1 & E1 & Hf1 & Hne1 & Hnl1).
  destruct (text_lines t2 Ht2) as (ls2 & z2 & E2 & Hf2 & Hne2 & Hnl2).
  assert (l1 = ls1 ++ [z1]) as El1 by done. assert (l2 = ls2 ++ [z2]) as El2 by done.
  rewrite <- El1 in Hne1. rewrite <- El2 in Hne2.
  assert (h_a2 h <= zlen l1) as Ha2 by (destruct Hok as (_ & _ & ? & _); ecbn; lia).
  pose proof (contextend_range opts (h_a2 h) (zlen l1) Hctx Ha2) as Haend. fold aend in Haend.
  assert (exists func lastfunc', (if showfunc opts then
       let '(lastpos, func) := lastfunc in
       let* found := find_func l1 (zrange_down (h_astart h - 1) (lastpos - 1)) in
       let func := default func found in Ok (func, (h_astart h, func))
     else Ok ([], lastfunc)) = Ok (func, lastfunc') /\ 0 <= lastfunc'.1) as (func & lastfunc' & Ef & Hlast').
  { destruct (showfunc opts); [|by eexists _, _]. destruct lastfunc as [lastpos func].
    destruct Hok as (? & ? & ? & _). ecbn.
    destruct (find_func_ok l1 (zrange_down (h_astart h - 1) (lastpos - 1)) Hne1) as [f ->].
    { apply Forall_forall. intros i Hi%elem_of_zrange_down. lia. }
    by eexists _, _. }
  pose proof (edit_ok_context l1 l2 h aend func Hok Hne1 Haend Hb Heq) as Hokc.
  set (e := Edit _ _ _ _ _ _) in Hokc. exists e, lastfunc'. split; [|done].
  destruct Hokc as (A1 & A2 & A3 & B1 & B2 & B3 & HF & Ho & Hn).
  destruct (mark_stage
    (negb (bool_decide (last z1 = Some newline)) &&
       bool_decide ((if decide (e_alen e ≠ 0) then e_a e + 1 else e_a e) + e_alen e = zlen l1 + 1))
    (negb (bool_decide (last z2 = Some newline)) &&
       bool_decide ((if decide (e_blen e ≠ 0) then e_b e + 1 else e_b e) + e_blen e = zlen l2 + 1))
    (hunk_header (edit_range e) func) (e_body e) HF)
    as (hit & lines1 & Em & Hskip & Hgo).
  { rewrite Ho, El1. rewrite El1 in A3. eapply slice_side; eauto. }
  { rewrite Hn, El2. rewrite El2 in B3. eapply slice_side; eauto. }
  assert (getitems l1 (zrange (h_a2 h) aend) = Ok (slice l1 (h_a2 h) aend)) as Eg.
  { apply getitems_slice; destruct Hok as (? & ? & ? & _); ecbn; lia. }
  unfold yieldhunk. destruct h as [astart a2 bstart b2 delta]. cbn in e.
  cbn [h_astart h_a2 h_bstart h_b2 h_delta] in *. fold aend. rewrite Ef. cbn [rbind]. rewrite Eg. cbn [rbind].
  rewrite Hnl1. cbn [rbind]. change (hunk_header _ _ :: _ ++ _) with (hunk_header (edit_range e) func :: e_body e).
  fold minus_tags. change (e_a e) with astart in Em. change (e_alen e) with (aend - astart) in Em.
  change (e_b e) with bstart in Hgo. change (e_blen e) with (b2 - bstart + aend - a2) in Hgo.
  rewrite Em. cbn [rbind]. destruct (decide (hit = Some space)) as [Hh|Hh].
  - rewrite (bool_decide_eq_true_2 _ Hh). by rewrite (Hskip Hh).
  - rewrite (bool_decide_eq_false_2 _ Hh), Hnl2. cbn [rbind]. by destruct (Hgo Hh) as [hit2 ->].
Qed.

(** ** The blocks of a plain diff *)

(** No white space or blank lines are ignored. *)
Definition plain (opts : diffopts) : Prop :=
  ignorews opts = false /\ ignorewsamount opts = false /\ ignorewseol opts = false /\
  ignoreblanklines opts = false /\ 0 <= context opts.

Section plain.
Context (l1 l2 : list bytes).

(** Blocks that cover both texts from a position to the ends. *)
Fixpoint tiles (i j : Z) (bl : list (quad * btype)) : Prop :=
  match bl with
  | [] => i = zlen l1 /\ j = zlen l2
  | (a1, a2, b1, b2, ty) :: bl =>
      a1 = i /\ b1 = j /\ i <= a2 <= zlen l1 /\ j <= b2 <= zlen l2 /\
      match ty with
      | Same => a2 - a1 = b2 - b1 /\ slice l1 a1 a2 = slice l2 b1 b2
      | Changed => True
      | Blank => False
      end /\ tiles a2 b2 bl
  end.

Lemma allblocks_loop_tiles opts p0 p1 p2 p3 diff :
  ignoreblanklines opts = false -> p1 <= zlen l1 -> p3 <= zlen l2 ->
  matching_from l1 l2 p1 p3 (map (fun '(i1, i2, j1, j2) => (i1, j1, i2 - i1)) diff) ->
  Forall (fun '(i1, i2, j1, j2) => i2 - i1 = j2 - j1) diff ->
  (diff = [] -> p1 = zlen l1 /\ p3 = zlen l2) ->
  (diff ≠ [] -> last (map (fun '(i1, i2, j1, j2) => (i1, j1, i2 - i1)) diff) = Some (zlen l1, zlen l2, 0)) ->
  tiles p1 p3 (allblocks_loop opts l1 l2 (p0, p1, p2, p3) diff).
Proof.
  intros Hbl. revert p0 p1 p2 p3. induction diff as [|[[[q0 q1] q2] q3] diff IH];
    intros p0 p1 p2 p3 H1 H3 Hm HF Hnil Hlast; [by apply Hnil|].
  cbn [allblocks_loop]. cbn [map matching_from] in Hm. destruct Hm as (M1 & M2 & M3 & M4 & M5 & M6 & M7).
  apply Forall_cons in HF as [Hlen HF]. replace (q0 + (q1 - q0)) with q1 in * by lia.
  replace (q2 + (q1 - q0)) with q3 in * by lia.
  assert (tiles q0 q2 ((q0, q1, q2, q3, Same) :: allblocks_loop opts l1 l2 (q0, q1, q2, q3) diff)) as Ht.
  { cbn [tiles]. split_and!; auto; try lia. apply IH; auto; try lia.
    - intros ->. specialize (Hlast ltac:(done)). cbn in Hlast. injection Hlast as -> -> E. lia.
    - intros Hne. specialize (Hlast ltac:(done)). cbn [map] in Hlast. destruct diff; [done|]. exact Hlast. }
  case_decide as Hd; cbn [app].
  - rewrite Hbl. rewrite decide_False by (by intros [? _]). cbn [tiles]. refine (conj eq_refl (conj eq_refl (conj _ (conj _ (conj I Ht))))); lia.
  - destruct (decide (p1 = q0)) as [<-|]; [|exfalso; tauto]. destruct (decide (p3 = q2)) as [<-|]; [done|exfalso; tauto].
Qed.

(** Equal stretches of the two texts. *)
Definition gap (p q i j : Z) : Prop := p <= i /\ i - p = j - q /\ slice l1 p i = slice l2 q j.

(** Changes one after the other with equal stretches before each. *)
Fixpoint chain (p q : Z) (es : list edit) (p' q' : Z) : Prop :=
  match es with
  | [] => p = p' /\ q = q'
  | e :: es =>
      edit_ok l1 l2 e /\ gap p q (e_a e) (e_b e) /\ chain (e_a e + e_alen e) (e_b e + e_blen e) es p' q'
  end.

Lemma gap_app p q i j i' j' : 0 <= p -> 0 <= q -> gap p q i j -> gap i j i' j' -> gap p q i' j'.
Proof.
  intros Hp Hq (A1 & A2 & A3) (B1 & B2 & B3). split_and!; [lia|lia|].
  rewrite (slice_app l1 p i i'), (slice_app l2 q j j') by lia. by rewrite A3, B3.
Qed.

Lemma gap_split p q i j d : 0 <= p -> 0 <= q -> 0 <= d <= i - p -> gap p q i j ->
  gap p q (p + d) (q + d) /\ gap (p + d) (q + d) i j.
Proof.
  intros Hp Hq Hd (A1 & A2 & A3). split; split_and!; try lia.
  - pose proof (slice_eq_sub l1 l2 p i q j 0 d A3 A2 Hp Hq ltac:(lia) ltac:(lia)) as H.
    by rewrite !Z.add_0_r in H.
  - pose proof (slice_eq_sub l1 l2 p i q j d (i - p) A3 A2 Hp Hq ltac:(lia) ltac:(lia)) as H.
    replace (p + (i - p)) with i in H by lia. replace (q + (i - p)) with j in H by lia. done.
Qed.

Lemma chain_snoc p q es p1 q1 e :
  chain p q es p1 q1 -> edit_ok l1 l2 e -> gap p1 q1 (e_a e) (e_b e) ->
  chain p q (es ++ [e]) (e_a e + e_alen e) (e_b e + e_blen e).
Proof.
  revert p q. induction es as [|e' es IH]; intros p q; cbn [chain app].
  - intros [-> ->] Hok Hg. done.
  - intros (A & B & C) Hok Hg. split_and!; auto.
Qed.

(** What is collected when the blocks before position (i, j) are done. *)
Definition diff_inv (i j : Z) (st : diff_state) (es : list edit) : Prop :=
  d_ignoredlines st = 0 /\ d_out st = map print_edit es /\ 0 <= (d_lastfunc st).1 /\
  match d_hunk st with
  | None => es = [] /\ gap 0 0 i j
  | Some h =>
      exists p q, chain 0 0 es p q /\ 0 <= p /\ 0 <= q /\ gap p q (h_astart h) (h_bstart h) /\
        edit_ok l1 l2 (hunk_edit h) /\ h_astart h <= h_a2 h /\ h_bstart h <= h_b2 h /\
        gap (h_a2 h) (h_b2 h) i j
  end.
End plain.

(** A new hunk with its leading context. *)
Lemma new_hunk_ok l1 l2 astart bstart i j a2 b2 :
  Forall (fun l => l ≠ []) l1 -> Forall (fun l => l ≠ []) l2 ->
  0 <= astart -> 0 <= bstart -> gap l1 l2 astart bstart i j ->
  i <= a2 <= zlen l1 -> j <= b2 <= zlen l2 ->
  edit_ok l1 l2 (Edit astart (a2 - astart) bstart (b2 - bstart)
    (map (cons space) (slice l1 astart i) ++ map (cons "-"%char) (slice l1 i a2) ++
     map (cons "+"%char) (slice l2 j b2)) []).
Proof.
  intros Hn1 Hn2 Ha Hb (G1 & G2 & G3) Hi Hj. unfold edit_ok. ecbn. split_and!; try lia.
  - rewrite !Forall_app. split_and!; (apply tagged_context; [set_solver|by apply Forall_slice]).
  - rewrite !old_of_app. unfold old_of. rewrite !side_map, !decide_True, decide_False by set_solver.
    rewrite app_nil_r, <- slice_app by lia. f_equal. lia.
  - rewrite !new_of_app. unfold new_of. rewrite !side_map, (decide_True (P := space ∈ _)) by set_solver.
    rewrite (decide_False (P := "-"%char ∈ _)), decide_True by set_solver. cbn [app].
    rewrite G3, <- slice_app by lia. f_equal. lia.
Qed.

(** Extending a hunk with a later block. *)
Lemma join_hunk_ok l1 l2 h i j a2 b2 :
  Forall (fun l => l ≠ []) l1 -> Forall (fun l => l ≠ []) l2 ->
  edit_ok l1 l2 (hunk_edit h) -> h_astart h <= h_a2 h -> h_bstart h <= h_b2 h ->
  gap l1 l2 (h_a2 h) (h_b2 h) i j -> i <= a2 <= zlen l1 -> j <= b2 <= zlen l2 ->
  edit_ok l1 l2 (hunk_edit (Hunk (h_astart h) a2 (h_bstart h) b2
    (h_delta h ++ map (cons space) (slice l1 (h_a2 h) i) ++ map (cons "-"%char) (slice l1 i a2) ++
     map (cons "+"%char) (slice l2 j b2)))).
Proof.
  intros Hn1 Hn2 (A1 & A2 & A3 & B1 & B2 & B3 & HF & Ho & Hn) H1 H2 Hg Hi Hj. ecbn.
  destruct (new_hunk_ok l1 l2 (h_a2 h) (h_b2 h) i j a2 b2) as (_ & _ & _ & _ & _ & _ & HF' & Ho' & Hn'); auto; [lia|lia|].
  ecbn. destruct Hg as (G1 & G2 & G3). unfold edit_ok. ecbn. split_and!; try lia.
  - apply Forall_app. by split.
  - rewrite old_of_app, Ho, Ho'. cbn [h_astart h_a2 h_bstart h_b2]. replace (h_astart h + (h_a2 h - h_astart h)) with (h_a2 h) by lia.
    rewrite <- slice_app by lia. f_equal. lia.
  - rewrite new_of_app, Hn, Hn'. cbn [h_astart h_a2 h_bstart h_b2]. replace (h_bstart h + (h_b2 h - h_bstart h)) with (h_b2 h) by lia.
    rewrite <- slice_app by lia. f_equal. lia.
Qed.

Section loop.
Context (opts : diffopts) (t1 t2 : bytes).
Hypothesis (Hplain : plain opts) (Ht1 : t1 ≠ []) (Ht2 : t2 ≠ []).
Let l1 := splitnewlines t1.
Let l2 := splitnewlines t2.

Lemma nonempty_lines t : t ≠ [] -> Forall (fun l : bytes => l ≠ []) (splitnewlines t).
Proof. intros Ht. destruct (text_lines t Ht) as (ls & z & -> & _ & H & _). done. Qed.

(** Printing the hunk of a state when the trailing context is inside the equal
    stretch that follows it. *)
Lemma yield_inv st es h i j :
  d_hunk st = Some h -> diff_inv l1 l2 i j st es -> i <= zlen l1 -> j <= zlen l2 ->
  contextend opts (h_a2 h) (zlen l1) <= i ->
  exists e lastfunc', yieldhunk opts t1 t2 l1 l2 (d_lastfunc st) h = Ok (print_edit e, lastfunc') /\
    0 <= lastfunc'.1 /\
    chain l1 l2 0 0 (es ++ [e]) (e_a e + e_alen e) (e_b e + e_blen e) /\
    0 <= e_a e + e_alen e /\ 0 <= e_b e + e_blen e /\
    e_a e + e_alen e = contextend opts (h_a2 h) (zlen l1) /\
    gap l1 l2 (e_a e + e_alen e) (e_b e + e_blen e) i j.
Proof.
  intros Eh (_ & _ & Hl & Hinv) Hi Hj Haend. rewrite Eh in Hinv.
  destruct Hinv as (p & q & Hch & Hp & Hq & Hg & Hok & H1 & H2 & Hgap).
  assert (h_a2 h <= zlen l1) as Ha2 by (destruct Hgap; lia).
  destruct Hplain as (_ & _ & _ & _ & Hctx).
  pose proof (contextend_range opts (h_a2 h) (zlen l1) Hctx Ha2) as Hr.
  set (aend := contextend opts (h_a2 h) (zlen l1)) in *.
  assert (0 <= h_a2 h /\ 0 <= h_b2 h) as [Ha0 Hb0].
  { destruct Hok as (? & ? & ? & ? & ? & _). ecbn. lia. }
  destruct (gap_split l1 l2 (h_a2 h) (h_b2 h) i j (aend - h_a2 h) Ha0 Hb0 ltac:(lia) Hgap) as [G1 G2].
  replace (h_a2 h + (aend - h_a2 h)) with aend in * by lia.
  destruct (yieldhunk_spec opts t1 t2 (d_lastfunc st) h) as (e & lf & E & Heok & Hlf & Ea & Eal & Eb & Ebl); auto.
  { fold l1 l2 aend. destruct Hgap as (? & ? & ?). lia. }
  { fold l1 l2 aend. apply G1. }
  fold l1 l2 aend in E, Heok, Eal, Ebl. exists e, lf. split; [done|]. split; [done|].
  assert (e_a e + e_alen e = aend) as E1 by lia.
  assert (e_b e + e_blen e = h_b2 h + (aend - h_a2 h)) as E2 by lia.
  split; [|rewrite E1, E2; split_and!; try lia; exact G2].
  eapply chain_snoc; [exact Hch|exact Heok|]. by rewrite Ea, Eb.
Qed.

Lemma contextstart_gap i j p q :
  0 <= p -> 0 <= q -> gap l1 l2 p q i j ->
  (p = 0 /\ q = 0) \/ p <= i - context opts ->
  0 <= contextstart opts i /\ 0 <= contextstart opts j /\
  gap l1 l2 p q (contextstart opts i) (contextstart opts j) /\
  gap l1 l2 (contextstart opts i) (contextstart opts j) i j.
Proof.
  intros Hp Hq Hg Hc. destruct Hplain as (_ & _ & _ & _ & Hctx).
  assert (contextstart opts i - p = contextstart opts j - q /\ 0 <= contextstart opts i - p <= i - p) as [E Hd].
  { destruct Hg as (? & ? & _). unfold contextstart. destruct Hc as [[-> ->]|?]; repeat case_decide; lia. }
  destruct (gap_split l1 l2 p q i j (contextstart opts i - p) Hp Hq Hd Hg) as [G1 G2].
  replace (p + (contextstart opts i - p)) with (contextstart opts i) in * by lia.
  replace (q + (contextstart opts i - p)) with (contextstart opts j) in * by lia.
  split; [lia|]. split; [lia|]. done.
Qed.

Lemma gap_refl i j : gap l1 l2 i j i j.
Proof. split_and!; [lia|lia|]. by rewrite !slice_nil by lia. Qed.

Lemma fresh_hunk_inv es p q i j a2 b2 lf :
  chain l1 l2 0 0 es p q -> 0 <= p -> 0 <= q -> gap l1 l2 p q i j ->
  (p = 0 /\ q = 0) \/ p <= i - context opts ->
  i <= a2 <= zlen l1 -> j <= b2 <= zlen l2 -> 0 <= lf.1 ->
  diff_inv l1 l2 a2 b2
    (DiffState (Some (Hunk (contextstart opts i) a2 (contextstart opts j) b2
       (map (cons space) (slice l1 (contextstart opts i) i) ++ map (cons "-"%char) (slice l1 i a2) ++
        map (cons "+"%char) (slice l2 j b2)))) 0 lf (map print_edit es)) es.
Proof.
  intros Hch Hp Hq Hg Hc Hi Hj Hlf. destruct (contextstart_gap i j p q Hp Hq Hg Hc) as (C1 & C2 & G1 & G2).
  unfold diff_inv. cbn [d_ignoredlines d_out d_lastfunc d_hunk]. split; [done|]. split; [done|]. split; [done|].
  exists p, q. split; [done|]. split; [done|]. split; [done|]. ecbn. split; [exact G1|].
  pose proof (nonempty_lines t1 Ht1) as Hn1. pose proof (nonempty_lines t2 Ht2) as Hn2.
  split; [by apply new_hunk_ok|].
  destruct G2 as (? & ? & _). split; [lia|]. split; [lia|]. apply gap_refl.
Qed.

Lemma unidiff_block_inv st es i j a2 b2 ty :
  diff_inv l1 l2 i j st es -> 0 <= i <= a2 -> a2 <= zlen l1 -> 0 <= j <= b2 -> b2 <= zlen l2 ->
  match ty with
  | Same => a2 - i = b2 - j /\ slice l1 i a2 = slice l2 j b2
  | Changed => True
  | Blank => False
  end ->
  exists st' es', unidiff_block opts t1 t2 l1 l2 st (i, a2, j, b2, ty) = Ok st' /\ diff_inv l1 l2 a2 b2 st' es'.
Proof.
  intros Hinv Hi Ha2 Hj Hb2 Hty. pose proof (nonempty_lines t1 Ht1) as Hn1. pose proof (nonempty_lines t2 Ht2) as Hn2.
  pose proof Hinv as (Hig & Hout & Hlf & Hh). destruct ty; [| |done]; cbn [unidiff_block].
  - (* an equal block extends the stretch *)
    exists st, es. split; [done|]. split_and!; auto.
    assert (gap l1 l2 i j a2 b2) as Hg by (destruct Hty; split_and!; auto; lia).
    destruct (d_hunk st) as [h|].
    + destruct Hh as (p & q & Hch & Hp & Hq & Hg0 & Hok & H1 & H2 & Hgap). exists p, q.
      split_and!; try done; try apply Hg0.
      all: eapply gap_app; [| |exact Hgap|exact Hg]; destruct Hok as (? & ? & ? & ? & ? & _); ecbn; lia.
    + destruct Hh as [-> Hg0]. split; [done|]. eapply gap_app; [| |exact Hg0|exact Hg]; lia.
  - rewrite Hig, !Z.sub_0_r. destruct (d_hunk st) as [h|] eqn:Eh; cycle 1.
    { destruct Hh as [-> Hg0]. eexists _, []. split; [done|]. rewrite Hout.
      apply (fresh_hunk_inv [] 0 0); auto; try lia; done. }
    destruct Hplain as (_ & _ & _ & _ & Hctx). case_decide as Hjoin.
    + destruct Hh as (p & q & Hch & Hp & Hq & Hg0 & Hok & H1 & H2 & Hgap). eexists _, es. split; [done|].
      unfold diff_inv. cbn [d_ignoredlines d_out d_lastfunc d_hunk]. split_and!; [done..|].
      exists p, q. split; [done|]. split; [done|]. split; [done|]. split; [done|].
      split; [by apply join_hunk_ok; auto; lia|]. ecbn. destruct Hgap as (? & ? & _).
      split; [lia|]. split; [lia|]. apply gap_refl.
    + assert (h_a2 h + context opts < i - context opts /\ i <= zlen l1) as [Hfar Hil].
      { destruct Hh as (p & q & _ & _ & _ & _ & (? & ? & _) & ? & _). ecbn. split; [|lia].
        unfold contextstart in Hjoin. case_decide; lia. }
      destruct (yield_inv st es h i j Eh Hinv Hil ltac:(lia)) as (e & lf & -> & Hl & Hch & Hp & Hq & Ee & Hg).
      { unfold contextend. case_decide; lia. }
      cbn [rbind]. destruct (print_edit e) as [range hunklines] eqn:Ep.
      eexists _, (es ++ [e]). split; [done|]. rewrite Hout.
      replace (map print_edit es ++ [(range, hunklines)]) with (map print_edit (es ++ [e]))
        by (by rewrite map_app; cbn [map]; rewrite Ep).
      eapply fresh_hunk_inv; eauto; try lia. right. rewrite Ee. unfold contextend. case_decide; lia.
Qed.

Lemma unidiff_loop_inv st es i j bl :
  diff_inv l1 l2 i j st es -> 0 <= i <= zlen l1 -> 0 <= j <= zlen l2 -> tiles l1 l2 i j bl ->
  exists st' es', unidiff_loop opts t1 t2 l1 l2 st bl = Ok st' /\ diff_inv l1 l2 (zlen l1) (zlen l2) st' es'.
Proof.
  revert st es i j. induction bl as [|[[[[a1 a2] b1] b2] ty] bl IH]; intros st es i j Hinv Hi Hj.
  - cbn [tiles]. intros [-> ->]. by exists st, es.
  - cbn [tiles]. intros (-> & -> & H1 & H2 & Hty & Ht). cbn [unidiff_loop].
    destruct (unidiff_block_inv st es i j a2 b2 ty Hinv) as (st' & es' & -> & Hinv'); auto; try lia.
    cbn [rbind]. eapply IH; eauto; lia.
Qed.
End loop.

(** What the hunks of a diff say: changes that lead from one text to the other. *)
Definition diff_of (l1 l2 : list bytes) (es : list edit) : Prop :=
  exists p q, chain l1 l2 0 0 es p q /\ 0 <= p /\ 0 <= q /\ gap l1 l2 p q (zlen l1) (zlen l2).

Lemma allblocks_tiles `{!LineMatcher} t1 t2 opts :
  plain opts ->
  tiles (splitnewlines t1) (splitnewlines t2) 0 0
    (allblocks t1 t2 opts (Some (splitnewlines t1)) (Some (splitnewlines t2))).
Proof.
  intros (E1 & E2 & E3 & E4 & _). unfold allblocks. rewrite E1, E2, E3. cbn [orb default].
  destruct (blocks_of_ok t1 t2) as [[Hm Hl] HF].
  apply allblocks_loop_tiles; auto with hg.
  intros E. by rewrite E in Hl.
Qed.

(** [_unidiff] of two texts never fails: it prints changes that lead from the
    first to the second, and says whether there are any. *)
Lemma unidiff_spec `{!LineMatcher} t1 t2 opts :
  plain opts -> t1 ≠ [] -> t2 ≠ [] ->
  exists es, unidiff_ t1 t2 opts = Ok (bool_decide (es ≠ []), map print_edit es) /\
    diff_of (splitnewlines t1) (splitnewlines t2) es.
Proof.
  intros Hplain Ht1 Ht2. unfold unidiff_.
  destruct (unidiff_loop_inv opts t1 t2 Hplain Ht1 Ht2 (DiffState None 0 (0, []) []) [] 0 0
    (allblocks t1 t2 opts (Some (splitnewlines t1)) (Some (splitnewlines t2)))) as (st & es & -> & Hinv).
  { unfold diff_inv. cbn [d_ignoredlines d_out d_lastfunc d_hunk map fst]. split_and!; auto; try lia.
    apply gap_refl. }
  { split; [lia|]. auto with hg. }
  { split; [lia|]. auto with hg. }
  { by apply allblocks_tiles. }
  cbn [rbind]. destruct (d_hunk st) as [h|] eqn:Eh.
  - destruct (yield_inv opts t1 t2 Hplain Ht1 Ht2 st es h (zlen (splitnewlines t1)) (zlen (splitnewlines t2)))
      as (e & lf & -> & _ & Hch & Hp & Hq & _ & Hg); auto; try lia.
    { apply contextend_range; [apply Hplain|]. destruct Hinv as (_ & _ & _ & Hh). rewrite Eh in Hh.
      destruct Hh as (p & q & _ & _ & _ & _ & (? & ? & ? & _) & _). ecbn. lia. }
    cbn [rbind]. destruct Hinv as (_ & -> & _). exists (es ++ [e]).
    rewrite map_app, bool_decide_true by (by destruct es). cbn [map].
    destruct (print_edit e) as [range hunklines]. split; [done|]. by exists (e_a e + e_alen e), (e_b e + e_blen e).
  - destruct Hinv as (_ & -> & _ & Hh). rewrite Eh in Hh. destruct Hh as [-> Hg].
    exists []. split; [done|]. by exists 0, 0.
Qed.

Example unidiff_example :
  let nl s := bs s ++ [newline] in
  let _ : LineMatcher := @Bdiff.bdiff_line_matcher Bdiff.prefix_matcher in
  unidiff_ (nl "a" ++ nl "b" ++ bs "c") (nl "a" ++ nl "x" ++ bs "c") defaultopts
  = Ok (true, [((1, 3, 1, 3), [nl "@@ -1,3 +1,3 @@"; nl " a"; nl "-b"; nl "-c"; missing_newline_marker;
                               nl "+x"; nl "+c"; missing_newline_marker])]).
Proof. vm_compute. reflexivity. Qed.
End UnifiedDiff.
