(* ===== verification/PatchHunk.v ===== *)
(** * Reading the hunks of a patch (patch.py, pure/diffhelpers.py)

    A hunk is read from a line reader that lines can be pushed back into:
    [unidesc] parses its header, [addlines] collects its lines, and the
    marker of a missing newline is applied to the line before it. *)

From S2P Require Import Prelude Lines Struct PyFormat Bdiff UnifiedDiff.

Module PatchHunk.
Import UnifiedDiff.

(** ** The line reader *)

Record linereader := LineReader { lr_fp : list bytes; lr_buf : list bytes }.

(** [push] *)
Definition push (line : bytes) (lr : linereader) : linereader :=
  LineReader (lr_fp lr) (lr_buf lr ++ [line]).

(** [readline]: the empty string at the end of the file. *)
Definition readline (lr : linereader) : bytes * linereader :=
  match lr_buf lr with
  | l :: buf => (l, LineReader (lr_fp lr) buf)
  | [] =>
      match lr_fp lr with
      | l :: fp => (l, LineReader fp [])
      | [] => ([], lr)
      end
  end.

(** ** diffhelpers *)

(** [l[-1]] and [l[-1] = x] *)
Definition get_last {A} (l : list A) : res A :=
  match last l with Some x => Ok x | None => Err IndexError end.

Definition set_last {A} (l : list A) (x : A) : res (list A) :=
  match l with [] => Err IndexError | _ => Ok (removelast l ++ [x]) end.

(** [s.startswith(p)] *)
Definition startswith (s p : bytes) : bool :=
  match read_literal p s with Some _ => true | None => false end.

(** [s.endswith("\r\n")] *)
Definition ends_crlf (l : bytes) : bool :=
  match rev l with
  | x :: y :: _ => bool_decide (x = newline) && bool_decide (y = cr)
  | _ => false
  end.

(** The lines of a hunk: all of them, the old side with its tags, the new side
    without. *)
Record hunk_lines := HunkLines { hl_hunk : list bytes; hl_a : list bytes; hl_b : list bytes }.

Definition fix_newline (st : hunk_lines) : res hunk_lines :=
  let* l := get_last (hl_hunk st) in
  let hline := if ends_crlf l then slice l 0 (zlen l - 2) else slice l 0 (zlen l - 1) in
  let* c := getitem hline 0 in
  let* b := if decide (c ∈ [" "; "+"]%char) then set_last (hl_b st) (drop 1 hline) else Ok (hl_b st) in
  let* a := if decide (c ∈ [" "; "-"]%char) then set_last (hl_a st) hline else Ok (hl_a st) in
  let* h := set_last (hl_hunk st) hline in
  Ok (HunkLines h a b).

(** One turn of the inner loop of [addlines]. *)
Definition addline (lr : linereader) (st : hunk_lines) : res (linereader * hunk_lines) :=
  let '(s, lr) := readline lr in
  let* c := getitem s 0 in
  if decide (s = missing_newline_marker) then
    let* st := fix_newline st in Ok (lr, st)
  else
    let s := if decide (c = newline) then [space; newline] else s in
    let h := hl_hunk st ++ [s] in
    Ok (lr,
        if decide (c = "+"%char) then HunkLines h (hl_a st) (hl_b st ++ [drop 1 s])
        else if decide (c = "-"%char) then HunkLines h (hl_a st ++ [s]) (hl_b st)
        else HunkLines h (hl_a st ++ [s]) (hl_b st ++ [drop 1 s])).

(** [for i in range(num)] *)
Fixpoint addlines_inner (num : nat) (lr : linereader) (st : hunk_lines) : res (linereader * hunk_lines) :=
  match num with
  | O => Ok (lr, st)
  | S num => let* (lr, st) := addline lr st in addlines_inner num lr st
  end.

(** [while True] *)
Fixpoint addlines_loop (fuel : nat) (lr : linereader) (lena lenb : Z) (st : hunk_lines) :
    res (linereader * hunk_lines) :=
  match fuel with
  | O => Err OutOfFuel
  | S fuel =>
      let todoa := lena - zlen (hl_a st) in
      let todob := lenb - zlen (hl_b st) in
      let num := Z.max todoa todob in
      if decide (num = 0) then Ok (lr, st)
      else
        let* (lr, st) := addlines_inner (Z.to_nat num) lr st in
        addlines_loop fuel lr lena lenb st
  end.

(** [addlines]: a round of the loop reads a line at least, or fails at the end
    of the file. *)
Definition addlines (lr : linereader) (lena lenb : Z) (st : hunk_lines) : res (linereader * hunk_lines) :=
  addlines_loop (S (length (lr_fp lr) + length (lr_buf lr))) lr lena lenb st.

(** [l[i]] with an index that may be negative. *)
Definition pyitem {A} (l : list A) (i : Z) : res A :=
  let i := if decide (i < 0) then i + zlen l else i in
  if decide (i < 0) then Err IndexError else getitem l i.

(** [testhunk]: does the old side (tags stripped) match [b] from [bstart] on. *)
Fixpoint testhunk_loop (a b : list bytes) (bstart : Z) : res Z :=
  match a with
  | [] => Ok 0
  | x :: a =>
      let* y := pyitem b bstart in
      if decide (drop 1 x ≠ y) then Ok (-1) else testhunk_loop a b (bstart + 1)
  end.

Definition testhunk (a b : list bytes) (bstart : Z) : res Z :=
  if decide (zlen a > zlen b - bstart) then Ok (-1) else testhunk_loop a b bstart.

(** ** Hunks *)

Record hunk := PHunk {
  number : Z;
  desc : bytes;
  lines : hunk_lines;
  starta : Z; lena : Z; startb : Z; lenb : Z
}.

(** [unidesc]: [@@ -(\d+)(?:,(\d+))? \+(\d+)(?:,(\d+))? @@]; a missing length is 1. *)
Definition read_length (t : bytes) : Z * bytes :=
  match read_literal (bs ",") t with
  | Some t' => match read_number t' with Some (n, t'') => (n, t'') | None => (1, t) end
  | None => (1, t)
  end.

Definition unidesc (t : bytes) : option (Z * Z * Z * Z) :=
  t1 ← read_literal (bs "@@ -") t;
  '(starta, t2) ← read_number t1;
  let '(lena, t3) := read_length t2 in
  t4 ← read_literal (bs " +") t3;
  '(startb, t5) ← read_number t4;
  let '(lenb, t6) := read_length t5 in
  _ ← read_literal (bs " @@") t6;
  Some (starta, lena, startb, lenb).

(** [_fixnewline] *)
Definition fixnewline (lr : linereader) (st : hunk_lines) : res (linereader * hunk_lines) :=
  let '(l, lr) := readline lr in
  if startswith l (bs "\ ") then let* st := fix_newline st in Ok (lr, st)
  else Ok (push l lr, st).

(** [while len(self.hunk[-1]) == 0]: drop lines of zero length at the end. *)
Fixpoint drop_empty (fuel : nat) (st : hunk_lines) (lena lenb : Z) : res (hunk_lines * Z * Z) :=
  match fuel with
  | O => Err OutOfFuel
  | S fuel =>
      let* l := get_last (hl_hunk st) in
      match l with
      | [] =>
          let* _ := get_last (hl_a st) in
          let* _ := get_last (hl_b st) in
          drop_empty fuel (HunkLines (removelast (hl_hunk st)) (removelast (hl_a st)) (removelast (hl_b st)))
            (lena - 1) (lenb - 1)
      | _ => Ok (st, lena, lenb)
      end
  end.

(** [hunk.__init__] of a unified hunk, with [read_unified_hunk]. *)
Definition read_unified_hunk (desc : bytes) (num : Z) (lr : linereader) : res (hunk * linereader) :=
  match unidesc desc with
  | None => Err (PatchError "bad hunk")
  | Some (starta, lena, startb, lenb) =>
      let* (lr, st) := addlines lr lena lenb (HunkLines [desc] [] []) in
      let* (st, lena, lenb) := drop_empty (S (length (hl_hunk st))) st lena lenb in
      let* (lr, st) := fixnewline lr st in
      Ok (PHunk num desc st starta lena startb lenb, lr)
  end.

Definition normalize (lines : list bytes) : list bytes :=
  map (fun line => if ends_crlf line then slice line 0 (zlen line - 2) ++ [newline] else line) lines.

(** [getnormalized] *)
Definition getnormalized (h : hunk) : hunk :=
  PHunk (number h) (desc h)
    (HunkLines (hl_hunk (lines h)) (normalize (hl_a (lines h))) (normalize (hl_b (lines h))))
    (starta h) (lena h) (startb h) (lenb h).

Definition complete (h : hunk) : bool :=
  bool_decide (zlen (hl_a (lines h)) = lena h) && bool_decide (zlen (hl_b (lines h)) = lenb h).

(** The number of context lines at the front of a list of lines. *)
Fixpoint context_run (ls : list bytes) : res Z :=
  match ls with
  | [] => Ok 0
  | l :: ls =>
      let* c := getitem l 0 in
      if decide (c = space) then let* n := context_run ls in Ok (1 + n) else Ok 0
  end.

(** [_fuzzit]; the first line of the hunk is its header. *)
Definition fuzz_context (h : hunk) (old new : list bytes) (fuzz : Z) (toponly : bool) :
    res (list bytes * list bytes * Z) :=
  let fuzz := Z.min fuzz (zlen old) in
  if decide (fuzz ≠ 0) then
    let* top := context_run (drop 1 (hl_hunk (lines h))) in
    let* bot := if toponly then Ok 0 else context_run (rev (drop 1 (hl_hunk (lines h)))) in
    let bot := Z.min fuzz bot in
    let top := Z.min fuzz top in
    Ok (slice old top (zlen old - bot), slice new top (zlen new - bot), top)
  else Ok (old, new, 0).

(** [fuzzit] *)
Definition fuzzit (h : hunk) (fuzz : Z) (toponly : bool) : res (list bytes * Z * list bytes * Z) :=
  let* (old, new, top) := fuzz_context h (hl_a (lines h)) (hl_b (lines h)) fuzz toponly in
  let oldstart := starta h + top in
  let newstart := startb h + top in
  let oldstart := if decide (lena h ≠ 0 /\ oldstart > 0) then oldstart - 1 else oldstart in
  let newstart := if decide (lenb h ≠ 0 /\ newstart > 0) then newstart - 1 else newstart in
  Ok (old, oldstart, new, newstart).

(** The hunks that follow the header of a file, up to the end of the patch (the
    hunk branch of [iterhunks]). *)
Fixpoint read_hunks (fuel : nat) (hunknum : Z) (lr : linereader) : res (list hunk) :=
  match fuel with
  | O => Err OutOfFuel
  | S fuel =>
      let '(x, lr) := readline lr in
      match x with
      | [] => Ok []
      | c :: _ =>
          if decide (c = "@"%char) then
            let* (h, lr) := read_unified_hunk x (hunknum + 1) lr in
            let* hs := read_hunks fuel (hunknum + 1) lr in
            Ok (h :: hs)
          else Err (PatchError "not a hunk")
      end
  end.

Example read_example :
  let nl s := bs s ++ [newline] in
  read_hunks 10 0 (LineReader [nl "@@ -1,2 +1,2 @@"; nl " a"; nl "-b"; missing_newline_marker; nl "+x"] [])
  = Ok [PHunk 1 (nl "@@ -1,2 +1,2 @@")
          (HunkLines [nl "@@ -1,2 +1,2 @@"; nl " a"; bs "-b"; nl "+x"] [nl " a"; bs "-b"] [nl "a"; nl "x"])
          1 2 1 2].
Proof. vm_compute. reflexivity. Qed.
(** ** Reading back a printed hunk *)

(** The lines of the old side with their tags. *)
Definition old_line (x : bytes) : option bytes :=
  match x with c :: _ => if decide (c ∈ [" "; "-"]%char) then Some x else None | [] => None end.

Definition a_of (body : list bytes) : list bytes := omap old_line body.

Definition lines_of (desc : bytes) (body : list bytes) : hunk_lines :=
  HunkLines (desc :: body) (a_of body) (new_of body).

(** A line that comes back: with its newline, or without one and not ending in
    a carriage return, which is dropped with the newline of the marker. *)
Definition good (x : bytes) : Prop := tagged x /\ (full x \/ last x ≠ Some cr).

Lemma a_of_app l l' : a_of (l ++ l') = a_of l ++ a_of l'.
Proof. apply omap_app. Qed.

Lemma a_of_old body : map (drop 1) (a_of body) = old_of body.
Proof.
  induction body as [|x body IH]; [done|]. unfold old_of in *. rewrite side_cons.
  destruct x as [|c r]; [exact IH|]. unfold a_of, side in *. cbn [omap list_omap old_line].
  destruct (decide (c ∈ [" "; "-"]%char)); [|exact IH]. cbn [map drop]. by f_equal.
Qed.

Lemma zlen_a_of body : zlen (a_of body) = zlen (old_of body).
Proof. unfold zlen. by rewrite <- a_of_old, length_map. Qed.

Lemma a_of_cons x body :
  a_of (x :: body) = match old_line x with Some y => y :: a_of body | None => a_of body end.
Proof. done. Qed.

Lemma new_of_cons x body :
  new_of (x :: body) = match side [" "; "+"]%char x with Some y => y :: new_of body | None => new_of body end.
Proof. done. Qed.

Lemma removelast_snoc {A} (l : list A) x : removelast (l ++ [x]) = l.
Proof. apply removelast_last. Qed.

Lemma set_last_snoc {A} (l : list A) x y : set_last (l ++ [x]) y = Ok (l ++ [y]).
Proof. unfold set_last. rewrite removelast_snoc. by destruct l. Qed.

Lemma get_last_snoc {A} (l : list A) x : get_last (l ++ [x]) = Ok x.
Proof. unfold get_last. by rewrite last_snoc. Qed.

Lemma chop_newline (x : bytes) :
  last x ≠ Some cr ->
  (if ends_crlf (x ++ [newline]) then slice (x ++ [newline]) 0 (zlen (x ++ [newline]) - 2)
   else slice (x ++ [newline]) 0 (zlen (x ++ [newline]) - 1)) = x.
Proof.
  intros Hx. assert (ends_crlf (x ++ [newline]) = false) as ->.
  { unfold ends_crlf. rewrite rev_app_distr. cbn [rev app]. destruct (rev x) as [|y r] eqn:E; [done|].
    apply andb_false_intro2, bool_decide_eq_false. intros ->. apply Hx.
    rewrite <- (rev_involutive x), E. cbn [rev]. by rewrite last_snoc. }
  rewrite zlen_app. change (zlen [newline]) with 1. replace (zlen x + 1 - 1) with (zlen x) by lia.
  rewrite slice_app_l by lia. apply slice_full.
Qed.

(** The marker takes the newline of the last line back, on all three lists. *)
Lemma fix_newline_spec desc d x :
  tagged x -> last x ≠ Some cr ->
  fix_newline (lines_of desc (d ++ [x ++ [newline]])) = Ok (lines_of desc (d ++ [x])).
Proof.
  intros (c & r & -> & Hc & Hr) Hcr. unfold fix_newline, lines_of. cbn [hl_hunk hl_a hl_b].
  rewrite app_comm_cons, get_last_snoc. cbn [rbind]. rewrite (chop_newline (c :: r)) by done.
  assert (getitem (c :: r) 0 = Ok c) as -> by done. cbn [rbind]. rewrite !a_of_app, !new_of_app.
  assert (forall r', a_of [c :: r'] = if decide (c ∈ [" "; "-"]%char) then [c :: r'] else []) as Ha.
  { intros r'. rewrite a_of_cons. cbn [old_line]. by destruct (decide _). }
  assert (forall r', new_of [c :: r'] = if decide (c ∈ [" "; "+"]%char) then [r'] else []) as Hn.
  { intros r'. rewrite new_of_cons. cbn [side]. by destruct (decide (c ∈ [" "; "+"]%char)). }
  cbn [app]. rewrite !Ha, !Hn.
  destruct (decide (c ∈ [" "; "+"]%char)), (decide (c ∈ [" "; "-"]%char));
    repeat (rewrite set_last_snoc; cbn [rbind]); cbn [rbind]; rewrite app_comm_cons, ?set_last_snoc;
    cbn [rbind drop]; done.
Qed.

(** A tagged line is added to the sides its tag names. *)
Lemma addline_spec desc done x c r lr lr' :
  x = c :: r -> c ∈ [" "; "-"; "+"]%char -> readline lr = (x, lr') ->
  addline lr (lines_of desc done) = Ok (lr', lines_of desc (done ++ [x])).
Proof.
  intros -> Hc E. unfold addline. rewrite E.
  assert (getitem (c :: r) 0 = Ok c) as -> by reflexivity. cbn [rbind].
  rewrite decide_False by (intros [= -> _]; revert Hc; apply (bool_decide_unpack _); vm_compute; exact I).
  rewrite (decide_False (P := c = newline)) by (intros ->; revert Hc; apply (bool_decide_unpack _); vm_compute; exact I).
  do 2 f_equal. unfold lines_of. rewrite a_of_app, new_of_app, a_of_cons, new_of_cons.
  cbn [hl_hunk hl_a hl_b old_line side]. rewrite !elem_of_cons, elem_of_nil in Hc.
  destruct Hc as [->|[->|[->|[]]]]; cbn; by rewrite ?app_nil_r.
Qed.

Section reading.
Context (desc : bytes) (rest : list bytes).

(** The lines read so far, when a marker for the last one may still be ahead. *)
Inductive reading : list bytes -> list bytes -> hunk_lines -> Prop :=
  | reading_clean body : reading body [] (lines_of desc body)
  | reading_pending d x :
      good x -> ~ full x ->
      reading (d ++ [x]) [missing_newline_marker] (lines_of desc (d ++ [x ++ [newline]])).

Definition feed (pend bd : list bytes) : linereader := LineReader (pend ++ enc_all bd ++ rest) [].

Lemma enc_all_cons x bd : enc_all (x :: bd) = enc [" "; "-"; "+"]%char x ++ enc_all bd.
Proof. done. Qed.

(** One line, or one marker, is read. *)
Lemma read_step body pend st bd :
  reading body pend st -> Forall good bd -> pend ≠ [] \/ bd ≠ [] ->
  exists x pend' st', addline (feed pend bd) st = Ok (feed pend' (drop (length x) bd), st') /\
    bd = x ++ drop (length x) bd /\ (length x <= 1)%nat /\ reading (body ++ x) pend' st' /\
    (length pend' + length (enc_all (drop (length x) bd)) + 1 <= length pend + length (enc_all bd))%nat.
Proof.
  intros Hr HF Hne. destruct Hr as [body|d x Hx Hnf].
  - destruct bd as [|x bd]; [by destruct Hne|]. apply Forall_cons in HF as [Hg _].
    pose proof Hg as ((c & r & Ex & Hc & Hr) & Hfull). exists [x].
    assert (exists x' pend', enc [" "; "-"; "+"]%char x = x' :: pend' /\ (exists r', x' = c :: r') /\
      reading (body ++ [x]) pend' (lines_of desc (body ++ [x']))) as (x' & pend' & Ee & [r' Ex'] & Hread).
    { rewrite Ex. cbn [enc]. rewrite <- Ex. case_decide as Hd.
      - eexists _, _. split; [done|]. split; [rewrite Ex; by eexists|].
        apply (reading_pending body x); [done|]. apply Hd.
      - exists x, []. split; [done|]. split; [by exists r|]. constructor. }
    exists pend', (lines_of desc (body ++ [x'])).
    split_and!; [|done|simpl; lia|done|rewrite enc_all_cons, Ee; change (drop (length [x]) (x :: bd)) with bd; cbn [length app]; rewrite length_app; lia]. erewrite (addline_spec desc body x' c r'); [|done|done|]; [done|].
    unfold feed, readline. cbn [lr_buf lr_fp app length drop]. rewrite enc_all_cons, Ee. cbn [app].
    by rewrite <- (assoc_L (++)).
  - exists [], [], (lines_of desc (d ++ [x])). change (drop (length []) bd) with bd. cbn [length app]. rewrite app_nil_r.
    split_and!; auto; [|apply reading_clean|cbn [length]; lia]. unfold addline, feed, readline. cbn [lr_buf lr_fp app].
    assert (getitem missing_newline_marker 0 = Ok "\"%char) as -> by reflexivity. cbn [rbind].
    rewrite decide_True by done. destruct Hx as [Ht [?|Hcr]]; [done|]. by rewrite fix_newline_spec.
Qed.

Lemma sides_max body x :
  zlen (new_of (x :: body)) <= zlen (new_of body) + 1 /\ zlen (old_of (x :: body)) <= zlen (old_of body) + 1.
Proof.
  unfold old_of. rewrite new_of_cons, side_cons.
  destruct (side _ x), (side _ x); rewrite ?zlen_cons; lia.
Qed.

Definition todo (bd : list bytes) : Z := Z.max (zlen (old_of bd)) (zlen (new_of bd)).

Lemma todo_nonneg bd : 0 <= todo bd.
Proof. unfold todo. pose proof (zlen_nonneg (old_of bd)). lia. Qed.

Lemma todo_nil bd : Forall good bd -> todo bd = 0 -> bd = [].
Proof.
  intros HF H0. pose proof (zlen_nonneg (old_of bd)). pose proof (zlen_nonneg (new_of bd)).
  apply sides_nil.
  - eapply Forall_impl; [exact HF|]. by intros x [? _].
  - unfold todo, zlen in *. apply nil_length_inv. lia.
  - unfold todo, zlen in *. apply nil_length_inv. lia.
Qed.

(** [num] turns of the inner loop, as long as so many lines are left. *)
Lemma read_inner num body pend st bd :
  reading body pend st -> Forall good bd -> Z.of_nat num <= todo bd ->
  exists bd1 bd2 pend' st', bd = bd1 ++ bd2 /\
    addlines_inner num (feed pend bd) st = Ok (feed pend' bd2, st') /\
    reading (body ++ bd1) pend' st' /\
    (length pend' + length (enc_all bd2) + num <= length pend + length (enc_all bd))%nat.
Proof.
  revert body pend st bd. induction num as [|num IH]; intros body pend st bd Hr HF Hnum.
  { exists [], bd, pend, st. rewrite app_nil_r. split_and!; auto. lia. }
  destruct (read_step body pend st bd Hr HF) as (x & pend' & st' & E & Ebd & Hlen & Hr' & Hsz).
  { destruct bd; [|by right]. unfold todo in Hnum. cbn in Hnum. unfold zlen in Hnum. cbn in Hnum. lia. }
  set (bd' := drop (length x) bd) in *. clearbody bd'. subst bd. cbn [addlines_inner]. rewrite E. cbn [rbind].
  apply Forall_app in HF as [HF1 HF2].
  destruct (IH (body ++ x) pend' st' bd' Hr' HF2) as (bd1 & bd2 & pend2 & st2 & -> & E2 & Hr2 & Hsz2).
  { destruct x as [|y [|]]; simpl in Hlen; [|cbn [app] in Hnum|lia].
    - cbn [app] in Hnum. lia.
    - pose proof (sides_max bd' y). unfold todo in *. lia. }
  exists (x ++ bd1), bd2, pend2, st2. rewrite <- !(assoc_L (++)) in *. split_and!; auto. lia.
Qed.

Lemma reading_sides body pend st :
  reading body pend st -> zlen (hl_a st) = zlen (old_of body) /\ zlen (hl_b st) = zlen (new_of body).
Proof.
  intros [b|d x ((c & r & -> & Hc & Hr) & _) Hnf]; cbn [hl_a hl_b lines_of]; rewrite zlen_a_of; [done|].
  rewrite !old_of_app, !new_of_app, !zlen_app. unfold old_of. rewrite !side_cons, !new_of_cons. cbn [app side].
  destruct (decide (c ∈ [" "; "-"]%char)), (decide (c ∈ [" "; "+"]%char)); done.
Qed.

(** [addlines] reads exactly the lines of the body. *)
Lemma addlines_loop_spec fuel body pend st bd lena lenb :
  reading body pend st -> Forall good bd ->
  lena = zlen (old_of (body ++ bd)) -> lenb = zlen (new_of (body ++ bd)) ->
  (length pend + length (enc_all bd) < fuel)%nat ->
  exists pend' st', addlines_loop fuel (feed pend bd) lena lenb st = Ok (feed pend' [], st') /\
    reading (body ++ bd) pend' st'.
Proof.
  revert body pend st bd. induction fuel as [|fuel IH]; intros body pend st bd Hr HF Ha Hb Hf; [lia|].
  cbn [addlines_loop]. destruct (reading_sides _ _ _ Hr) as [-> ->].
  replace (Z.max _ _) with (todo bd); cycle 1.
  { unfold todo. rewrite Ha, Hb, old_of_app, new_of_app, !zlen_app. lia. }
  case_decide as H0.
  { apply todo_nil in H0 as ->; [|done]. exists pend, st. rewrite app_nil_r. done. }
  pose proof (todo_nonneg bd).
  destruct (read_inner (Z.to_nat (todo bd)) body pend st bd Hr HF) as (bd1 & bd2 & pend' & st' & -> & -> & Hr' & Hsz); [lia|].
  cbn [rbind]. rewrite (assoc_L (++)) in Ha, Hb |- *. apply Forall_app in HF as [_ HF].
  apply IH; auto. lia.
Qed.
End reading.
(** The header that was printed is parsed back. *)
Lemma unidesc_header a n b m func :
  0 <= a -> 0 <= n -> 0 <= b -> 0 <= m -> unidesc (hunk_header (a, n, b, m) func) = Some (a, n, b, m).
Proof.
  intros Ha Hn Hb Hm. unfold unidesc, hunk_header. rewrite read_literal_app. cbn [mbind option_bind].
  rewrite read_number_fmt by done. cbn [mbind option_bind]. unfold read_length.
  rewrite read_literal_app, read_number_fmt by done. rewrite read_literal_app. cbn [mbind option_bind].
  rewrite read_number_fmt by done. cbn [mbind option_bind].
  rewrite read_literal_app, read_number_fmt by done. by rewrite read_literal_app.
Qed.

Lemma header_nonempty r func : exists t, hunk_header r func = "@"%char :: t.
Proof. destruct r as [[[? ?] ?] ?]. by eexists. Qed.

(** The lines that can follow a hunk: the end of the patch or another header. *)
Definition follows (rest : list bytes) : Prop :=
  match rest with [] => True | l :: _ => exists t, l = "@"%char :: t end.

(** The reader after a hunk: the line looked at was pushed back. *)
Definition pushed (rest : list bytes) : linereader :=
  match rest with [] => LineReader [] [[]] | l :: rest => LineReader rest [l] end.

Lemma fixnewline_spec desc rest body pend st :
  reading desc body pend st -> follows rest ->
  fixnewline (feed rest pend []) st
  = Ok (match pend with [] => pushed rest | _ => LineReader rest [] end, lines_of desc body).
Proof.
  intros Hr Hf. unfold fixnewline, feed, readline. cbn [lr_buf lr_fp enc_all map concat].
  destruct Hr as [body|d x [Ht Hx] Hnf]; cbn [app].
  - destruct rest as [|l rest]; [done|]. destruct Hf as [t ->]. done.
  - assert (startswith missing_newline_marker (bs "\ ") = true) as -> by reflexivity.
    destruct Hx as [?|Hcr]; [done|]. by rewrite fix_newline_spec.
Qed.

Lemma reading_last desc body pend st :
  reading desc body pend st -> Forall good body -> desc ≠ [] -> exists l, get_last (hl_hunk st) = Ok l /\ l ≠ [].
Proof.
  intros Hr HF Hd. destruct Hr as [body|d x Hx Hnf]; cbn [hl_hunk lines_of]; rewrite ?app_comm_cons.
  - destruct body as [|x body _] using rev_ind; [by exists desc|]. rewrite app_comm_cons, get_last_snoc.
    apply Forall_app in HF as [_ [((c & r & -> & _) & _) _]%Forall_cons]. by eexists.
  - rewrite get_last_snoc. destruct Hx as ((c & r & -> & _) & _). by eexists.
Qed.

(** A printed change is read back as a hunk with the same lines and ranges. *)
Definition hunk_of (num : Z) (e : edit) : hunk :=
  let '(sa, la, sb, lb) := edit_range e in
  let d := hunk_header (edit_range e) (e_func e) in
  PHunk num d (lines_of d (e_body e)) sa la sb lb.

Lemma edit_range_nonneg l1 l2 e sa la sb lb :
  edit_ok l1 l2 e -> edit_range e = (sa, la, sb, lb) ->
  0 <= sa /\ 0 <= la /\ 0 <= sb /\ 0 <= lb /\ la = zlen (old_of (e_body e)) /\ lb = zlen (new_of (e_body e)).
Proof.
  intros (A1 & A2 & A3 & B1 & B2 & B3 & _ & Ho & Hn) [= <- <- <- <-]. rewrite Ho, Hn, !zlen_slice by lia.
  repeat case_decide; split_and!; lia.
Qed.

Lemma read_unified_hunk_spec l1 l2 num e rest :
  edit_ok l1 l2 e -> Forall good (e_body e) -> follows rest ->
  exists lr, read_unified_hunk (hunk_header (edit_range e) (e_func e)) num
               (LineReader (enc_all (e_body e) ++ rest) []) = Ok (hunk_of num e, lr) /\
    (lr = pushed rest \/ lr = LineReader rest []).
Proof.
  intros Hok HF Hrest. unfold read_unified_hunk, hunk_of.
  destruct (edit_range e) as [[[sa la] sb] lb] eqn:Er.
  destruct (edit_range_nonneg _ _ _ _ _ _ _ Hok Er) as (? & ? & ? & ? & Ela & Elb).
  rewrite unidesc_header by done. set (d := hunk_header _ _).
  destruct (addlines_loop_spec d rest (S (length (enc_all (e_body e) ++ rest) + 0)) [] [] (lines_of d [])
    (e_body e) la lb (reading_clean d []) HF Ela Elb) as (pend & st & E & Hr).
  { rewrite length_app. simpl. lia. }
  unfold addlines, feed in *. cbn [lr_fp lr_buf length app] in *. change (HunkLines [d] [] []) with (lines_of d []).
  rewrite E. cbn [rbind].
  destruct (reading_last _ _ _ _ Hr HF) as (l & El & Hl).
  { destruct (header_nonempty (sa, la, sb, lb) (e_func e)) as [t Et]. unfold d. by rewrite Et. }
  cbn [drop_empty]. rewrite El. cbn [rbind]. destruct l as [|c l]; [done|]. cbn [rbind].
  pose proof (fixnewline_spec d rest (e_body e) pend st Hr Hrest) as Ef. unfold feed in Ef.
  rewrite Ef. cbn [rbind]. eexists. split; [done|]. destruct pend; [by left|by right].
Qed.

Definition printed (es : list edit) : list bytes := concat (map (fun e => (print_edit e).2) es).

Lemma follows_printed es : follows (printed es).
Proof. destruct es as [|e es]; [done|]. apply header_nonempty. Qed.

(** All the hunks of a printed diff are read back. *)
Lemma read_hunks_spec l1 l2 fuel num es lr :
  Forall (fun e => edit_ok l1 l2 e /\ Forall good (e_body e)) es ->
  lr = pushed (printed es) \/ lr = LineReader (printed es) [] -> (length es < fuel)%nat ->
  exists hs, read_hunks fuel num lr = Ok hs /\ Forall2 (fun e h => exists n, h = hunk_of n e) es hs.
Proof.
  intros HF. revert fuel num lr. induction HF as [|e es [Hok Hg] _ IH]; intros fuel num lr Hlr Hf;
    (destruct fuel as [|fuel]; [simpl in Hf; lia|]); cbn [read_hunks].
  - exists []. split; [|constructor]. by destruct Hlr as [->| ->].
  - assert (readline lr = (hunk_header (edit_range e) (e_func e),
      LineReader (enc_all (e_body e) ++ printed es) [])) as -> by (by destruct Hlr as [->| ->]).
    destruct (header_nonempty (edit_range e) (e_func e)) as [t Et].
    destruct (read_unified_hunk_spec l1 l2 (num + 1) e (printed es) Hok Hg (follows_printed es)) as (lr' & E & Hlr').
    rewrite Et in *. rewrite decide_True by done. rewrite E. cbn [rbind].
    destruct (IH fuel (num + 1) lr' Hlr') as (hs & -> & Hhs); [simpl in Hf; lia|]. cbn [rbind].
    exists (hunk_of (num + 1) e :: hs). split; [done|]. constructor; [by eexists|done].
Qed.

(** ** The lines of any hunk that was read *)

(** Every line read has a first character. *)
Definition hunk_nonempty (st : hunk_lines) : Prop := Forall (fun l => l ≠ []) (hl_hunk st).

Lemma getitem_nonempty {A} (l : list A) i x : getitem l i = Ok x -> l ≠ [].
Proof. intros H ->. unfold getitem in H. by rewrite lookup_nil in H. Qed.

Lemma set_last_nonempty (l l' : list bytes) x : Forall (fun l => l ≠ []) l -> x ≠ [] -> set_last l x = Ok l' -> Forall (fun l => l ≠ []) l'.
Proof.
  intros HF Hx. unfold set_last. destruct l as [|y l0 _] using rev_ind; [done|]. destruct (l0 ++ [y]) eqn:E; [done|]. rewrite <- E in *.
  intros [= <-]. rewrite removelast_snoc. apply Forall_app in HF as [HF _]. apply Forall_app. by split; [|apply Forall_singleton].
Qed.

Lemma fix_newline_nonempty st st' : hunk_nonempty st -> fix_newline st = Ok st' -> hunk_nonempty st'.
Proof.
  intros Hn. unfold fix_newline. intros (l & _ & H)%rbind_Ok. set (hline := if ends_crlf l then _ else _) in H.
  apply rbind_Ok in H as (c & Hc & (b & _ & (a & _ & (h & Hh & [= <-])%rbind_Ok)%rbind_Ok)%rbind_Ok).
  eapply set_last_nonempty; [exact Hn| |exact Hh]. by eapply getitem_nonempty.
Qed.

Lemma addline_nonempty lr st lr' st' : hunk_nonempty st -> addline lr st = Ok (lr', st') -> hunk_nonempty st'.
Proof.
  intros Hn. unfold addline. destruct (readline lr) as [s lr1]. intros (c & Hc & H)%rbind_Ok. case_decide.
  - apply rbind_Ok in H as (st1 & H1 & [= _ <-]). by eapply fix_newline_nonempty.
  - injection H as _ <-. set (s' := if decide (c = newline) then _ else s).
    assert (s' ≠ []) as Hs by (unfold s'; case_decide; [done|by eapply getitem_nonempty]).
    assert (Forall (fun l => l ≠ []) (hl_hunk st ++ [s'])) as HF by (apply Forall_app; by split; [|apply Forall_singleton]).
    by repeat case_decide.
Qed.

Lemma addlines_inner_nonempty num lr st lr' st' : hunk_nonempty st -> addlines_inner num lr st = Ok (lr', st') -> hunk_nonempty st'.
Proof.
  revert lr st. induction num as [|num IH]; intros lr st Hn; cbn [addlines_inner]; [by intros [= _ <-]|].
  intros ([lr1 st1] & H1 & H)%rbind_Ok. eapply IH; [|exact H]. by eapply addline_nonempty.
Qed.

Lemma addlines_nonempty fuel lr lena lenb st lr' st' :
  hunk_nonempty st -> addlines_loop fuel lr lena lenb st = Ok (lr', st') -> hunk_nonempty st'.
Proof.
  revert lr st. induction fuel as [|fuel IH]; intros lr st Hn; cbn [addlines_loop]; [done|]. case_decide as H0; [by intros [= _ <-]|].
  intros ([lr1 st1] & H1 & H)%rbind_Ok. eapply IH; [|exact H]. by eapply addlines_inner_nonempty.
Qed.

Lemma drop_empty_nonempty fuel st lena lenb st' lena' lenb' :
  hunk_nonempty st -> drop_empty fuel st lena lenb = Ok (st', lena', lenb') -> hunk_nonempty st'.
Proof.
  destruct fuel as [|fuel]; [done|]. intros Hn. cbn [drop_empty]. intros (l & Hl & H)%rbind_Ok. destruct l as [|c l]; [|by injection H as <- _ _].
  exfalso. unfold get_last in Hl. destruct (last (hl_hunk st)) as [x|] eqn:E; [|done]. injection Hl as ->.
  apply last_Some in E as [l' E]. unfold hunk_nonempty in Hn. rewrite E in Hn. by apply Forall_app in Hn as [_ [? _]%Forall_cons].
Qed.

Lemma read_unified_hunk_nonempty desc num lr h lr' : read_unified_hunk desc num lr = Ok (h, lr') -> hunk_nonempty (lines h).
Proof.
  unfold read_unified_hunk. destruct (unidesc desc) as [[[[sa la] sb] lb]|] eqn:Ed; [|done].
  assert (desc ≠ []) as Hd by (by intros ->).
  intros ([lr1 st1] & H1 & ([[st2 la2] lb2] & H2 & ([lr3 st3] & H3 & [= <- _])%rbind_Ok)%rbind_Ok)%rbind_Ok. cbn [lines].
  apply addlines_nonempty in H1; [|by constructor]. apply drop_empty_nonempty in H2; [|done].
  unfold fixnewline in H3. destruct (readline lr1) as [l lr4]. destruct (startswith _ _); [|by injection H3 as _ <-].
  apply rbind_Ok in H3 as (st5 & H5 & [= _ <-]). by eapply fix_newline_nonempty.
Qed.
End PatchHunk.
