(* ===== verification/Base85.v ===== *)
(** * Base85 (pure/base85.py)

    The codec of binary patches: every four bytes, a big-endian word, become
    five characters; without padding the last group is cut to the characters
    that determine its bytes. *)

From S2P Require Import Prelude Lines Struct.

Module Base85.

Definition b85chars : bytes :=
  bs "0123456789ABCDEFGHIJKLMNOPQRSTUVWXYZabcdefghijklmnopqrstuvwxyz!#$%&()*+-;<=>?@^_`{|}~".

(** [_b85chars[i]] *)
Definition b85char (i : Z) : ascii := nth (Z.to_nat i) b85chars (byte 0).

(** [_b85chars2[i]]: all pairs in order. *)
Definition b85char2 (i : Z) : bytes := [b85char (i / 85); b85char (i mod 85)].

(** [_b85dec], filled by [_mkb85dec]. *)
Fixpoint index_of (c : ascii) (l : bytes) (i : Z) : option Z :=
  match l with
  | [] => None
  | x :: l => if ascii_dec x c then Some i else index_of c l (i + 1)
  end.

Definition b85dec (c : ascii) : option Z := index_of c b85chars 0.

(** [struct.unpack(">%dL", text)] of a text whose length is a multiple of four. *)
Fixpoint unpack_words (n : nat) (text : bytes) : list Z :=
  match n with
  | O => []
  | S n => be_decode (take 4 text) :: unpack_words n (drop 4 text)
  end.

Definition encode_word (word : Z) : bytes :=
  b85char (word / 52200625 mod 85) :: b85char2 (word / 7225 mod 7225) ++ b85char2 (word mod 7225).

Definition b85encode (text : bytes) (pad : bool) : bytes :=
  let l := zlen text in
  let r := l mod 4 in
  let text := if decide (r ≠ 0) then text ++ replicate (Z.to_nat (4 - r)) (byte 0) else text in
  let longs := zlen text / 4 in
  let out := concat (map encode_word (unpack_words (Z.to_nat longs) text)) in
  if pad then out
  else
    let olen := l mod 4 in
    let olen := if decide (olen ≠ 0) then olen + 1 else olen in
    let olen := olen + l / 4 * 5 in
    slice out 0 olen.

(** The inner loop of [b85decode]. *)
Fixpoint decode_chars (chunk : bytes) (acc : Z) : res Z :=
  match chunk with
  | [] => Ok acc
  | c :: chunk =>
      match b85dec c with
      | Some d => decode_chars chunk (acc * 85 + d)
      | None => Err ValueError
      end
  end.

(** The loop over the chunks of five characters; a fifth of the text at most. *)
Fixpoint decode_chunks (n : nat) (text : bytes) : res (list Z) :=
  match n with
  | O => Ok []
  | S n =>
      let* acc := decode_chars (take 5 text) 0 in
      if decide (acc > 4294967295) then Err ValueError
      else
        let* rest := decode_chunks n (drop 5 text) in
        Ok (acc :: rest)
  end.

(** [struct.pack(">%dL", *out)] *)
Fixpoint pack_words (ws : list Z) : res bytes :=
  match ws with
  | [] => Ok []
  | w :: ws =>
      if decide (0 <= w < 4294967296) then
        let* rest := pack_words ws in Ok (be_encode 4 w ++ rest)
      else Err StructError
  end.

Definition b85decode (text : bytes) : res bytes :=
  let l := zlen text in
  let* out := decode_chunks (Z.to_nat ((l + 4) / 5)) text in
  let cl := l mod 5 in
  let out :=
    if decide (cl ≠ 0) then
      match last out with
      | Some acc =>
          let acc := acc * 85 ^ (5 - cl) in
          let acc := if decide (cl > 1) then acc + Z.shiftr 16777215 ((cl - 2) * 8) else acc in
          removelast out ++ [acc]
      | None => out
      end
    else out in
  let* out := pack_words out in
  Ok (if decide (cl ≠ 0) then slice out 0 (zlen out - (5 - cl)) else out).

Example b85_example :
  b85encode (bs "hello") false = bs "Xk~0{Zv" /\ b85decode (bs "Xk~0{Zv") = Ok (bs "hello") /\
  b85decode (bs " ") = Err ValueError.
Proof. vm_compute. done. Qed.

(** A last group of four characters can exceed a word after padding: packing it
    raises [struct.error], which the callers that catch [ValueError] let through. *)
Lemma b85decode_struct_error : b85decode (bs "~~~~") = Err StructError.
Proof. vm_compute. reflexivity. Qed.

(** ** Characters *)

Lemma b85dec_all : forallb (fun i => bool_decide (b85dec (b85char i) = Some i)) (zrange 0 85) = true.
Proof. vm_compute. reflexivity. Qed.

Lemma b85dec_char i : 0 <= i < 85 -> b85dec (b85char i) = Some i.
Proof.
  intros Hi. pose proof b85dec_all as H. rewrite forallb_forall in H.
  specialize (H i). rewrite bool_decide_eq_true in H. apply H.
  apply list_elem_of_In, elem_of_zrange. lia.
Qed.

(** ** Words *)

(** The five digits of a word. *)
Definition digits85 (w : Z) : list Z :=
  [w / 52200625 mod 85; w / 7225 mod 7225 / 85; w / 7225 mod 7225 mod 85;
   w mod 7225 / 85; w mod 7225 mod 85].

Lemma encode_word_digits w : encode_word w = map b85char (digits85 w).
Proof. done. Qed.

Lemma digits85_range w : 0 <= w -> Forall (fun d => 0 <= d < 85) (digits85 w).
Proof.
  intros Hw. unfold digits85. repeat constructor; try (apply Z.mod_pos_bound; lia);
    try (apply Z.div_pos; [apply Z.mod_pos_bound|]; lia); apply Z.div_lt_upper_bound; try lia;
    apply Z.mod_pos_bound; lia.
Qed.

Definition value85 (ds : list Z) (acc : Z) : Z := fold_left (fun acc d => acc * 85 + d) ds acc.

Lemma decode_chars_digits ds acc :
  Forall (fun d => 0 <= d < 85) ds -> decode_chars (map b85char ds) acc = Ok (value85 ds acc).
Proof.
  intros HF. revert acc. induction HF as [|d ds Hd _ IH]; intros acc; cbn [map decode_chars]; [done|].
  rewrite b85dec_char by done. apply IH.
Qed.

Lemma mod_7225 x : x mod 7225 = x mod 85 + (x / 85 mod 85) * 85.
Proof. change 7225 with (85 * 85). rewrite Z.rem_mul_r by lia. lia. Qed.

(** The first [n] digits are the word without its last [5 - n] digits. *)
Lemma value85_take n w :
  0 <= w < 4294967296 -> (n <= 5)%nat -> value85 (take n (digits85 w)) 0 = w / 85 ^ (5 - Z.of_nat n).
Proof.
  intros Hw Hn.
  assert (w / 7225 mod 7225 / 85 = w / 614125 mod 85 /\ w / 7225 mod 7225 mod 85 = w / 7225 mod 85 /\
    w mod 7225 / 85 = w / 85 mod 85 /\ w mod 7225 mod 85 = w mod 85 /\ w / 52200625 < 85) as (E1 & E2 & E3 & E4 & E5).
  { split_and!; try (apply Z.div_lt_upper_bound; lia).
    - rewrite mod_7225, Z.div_add by lia.
      rewrite (Z.div_small (_ mod 85)) by (apply Z.mod_pos_bound; lia). by rewrite Z.add_0_l, Z.div_div by lia.
    - rewrite mod_7225, Z.mod_add by lia. apply Z.mod_mod. lia.
    - rewrite mod_7225, Z.div_add by lia.
      rewrite (Z.div_small (_ mod 85)) by (apply Z.mod_pos_bound; lia). done.
    - rewrite mod_7225, Z.mod_add by lia. apply Z.mod_mod. lia. }
  assert (forall k, 0 < k -> w / k = 85 * (w / (k * 85)) + w / k mod 85) as Hstep.
  { intros k Hk. rewrite <- Z.div_div by lia. apply Z.div_mod. lia. }
  assert (w = 85 * (w / 85) + w mod 85) as S1 by (apply Z.div_mod; lia).
  assert (w / 85 = 85 * (w / 7225) + w / 85 mod 85) as S2 by (apply (Hstep 85); lia).
  assert (w / 7225 = 85 * (w / 614125) + w / 7225 mod 85) as S3 by (apply (Hstep 7225); lia).
  assert (w / 614125 = 85 * (w / 52200625) + w / 614125 mod 85) as S4 by (apply (Hstep 614125); lia).
  assert (w / 52200625 mod 85 = w / 52200625) as E0.
  { apply Z.mod_small. split; [apply Z.div_pos; lia|done]. }
  clear Hstep. unfold digits85, value85. rewrite E0, E1, E2, E3, E4. clear E0 E1 E2 E3 E4.
  assert (forall q, 85 * q = q * 85) as Hc by (intros; lia). rewrite Hc in S1, S2, S3, S4.
  cut (0 * 85 + w / 52200625 = w / 52200625); [intros C0|lia].
  destruct n as [|[|[|[|[|[|n]]]]]]; cbn [take fold_left]; [| | | | | |lia].
  - change (85 ^ (5 - Z.of_nat 0)) with 4437053125. symmetry. apply Z.div_small. lia.
  - change (85 ^ (5 - Z.of_nat 1)) with 52200625. done.
  - change (85 ^ (5 - Z.of_nat 2)) with 614125. rewrite C0. congruence.
  - change (85 ^ (5 - Z.of_nat 3)) with 7225. rewrite C0. congruence.
  - change (85 ^ (5 - Z.of_nat 4)) with 85. rewrite C0. congruence.
  - change (85 ^ (5 - Z.of_nat 5)) with 1. rewrite Z.div_1_r, C0. congruence.
Qed.

Lemma decode_word w n :
  0 <= w < 4294967296 -> (n <= 5)%nat ->
  decode_chars (take n (encode_word w)) 0 = Ok (w / 85 ^ (5 - Z.of_nat n)).
Proof.
  intros Hw Hn. rewrite encode_word_digits. rewrite <- (value85_take n w) by done.
  replace (take n (map b85char (digits85 w))) with (map b85char (take n (digits85 w))) by (apply firstn_map || (symmetry; apply firstn_map)).
  apply decode_chars_digits, Forall_take, digits85_range. lia.
Qed.

Lemma length_encode_word w : length (encode_word w) = 5%nat.
Proof. done. Qed.

(** ** Groups *)

Notation word32 w := (0 <= w < 4294967296).

Lemma length_encode_words ws : length (concat (map encode_word ws)) = (5 * length ws)%nat.
Proof. induction ws as [|w ws IH]; [done|]. cbn [map concat]. rewrite length_app, length_encode_word, IH. cbn [length]. lia. Qed.

Lemma be_word (l : bytes) : length l = 4%nat -> word32 (be_decode l).
Proof. intros Hl. pose proof (be_decode_range l) as H. unfold zlen in H. rewrite Hl in H. exact H. Qed.

Lemma unpack_words_app m k pre x :
  length pre = (4 * m)%nat -> unpack_words (m + k) (pre ++ x) = unpack_words m pre ++ unpack_words k x.
Proof.
  revert pre. induction m as [|m IH]; intros pre Hl.
  { by rewrite (nil_length_inv pre). }
  cbn [Nat.add unpack_words]. rewrite (take_app_le pre), (drop_app_le pre) by lia.
  rewrite IH; [done|]. rewrite length_drop. lia.
Qed.

Lemma unpack_words_range m pre :
  length pre = (4 * m)%nat -> length (unpack_words m pre) = m /\ Forall (fun w => word32 w) (unpack_words m pre).
Proof.
  revert pre. induction m as [|m IH]; intros pre Hl; [done|]. cbn [unpack_words].
  destruct (IH (drop 4 pre)) as [H1 H2]; [rewrite length_drop; lia|].
  split; [cbn; by f_equal|]. constructor; [|done]. apply be_word. rewrite length_take. lia.
Qed.

Lemma decode_chunks_app ws k x :
  Forall (fun w => word32 w) ws ->
  decode_chunks (length ws + k) (concat (map encode_word ws) ++ x) =
  (let* rest := decode_chunks k x in Ok (ws ++ rest)).
Proof.
  intros HF. induction HF as [|w ws Hw _ IH]; cbn [length Nat.add].
  { cbn. by destruct (decode_chunks k x). }
  cbn [map concat decode_chunks]. rewrite <- app_assoc.
  rewrite take_app_le, take_ge by (rewrite length_encode_word; lia).
  rewrite drop_app_ge by (rewrite length_encode_word; lia). rewrite length_encode_word, drop_0.
  pose proof (decode_word w 5 Hw ltac:(lia)) as Hd. rewrite take_ge in Hd by (rewrite length_encode_word; lia).
  rewrite Hd. change (85 ^ (5 - Z.of_nat 5)) with 1. rewrite Z.div_1_r. cbn [rbind].
  rewrite decide_False by lia. rewrite IH. by destruct (decode_chunks k x).
Qed.

Lemma pack_words_app m pre ws :
  length pre = (4 * m)%nat ->
  pack_words (unpack_words m pre ++ ws) = (let* rest := pack_words ws in Ok (pre ++ rest)).
Proof.
  revert pre. induction m as [|m IH]; intros pre Hl.
  { rewrite (nil_length_inv pre) by done. cbn. by destruct (pack_words ws). }
  assert (length (take 4 pre) = 4%nat) as H4 by (rewrite length_take; lia).
  cbn [unpack_words app pack_words]. rewrite decide_True by by apply be_word.
  rewrite IH by (rewrite length_drop; lia). destruct (pack_words ws) as [rest|]; [|done]. cbn [rbind].
  rewrite <- H4 at 1. by rewrite be_encode_decode, app_assoc, take_drop.
Qed.

(** The last group: [r] bytes [tl], completed by zero bytes, are determined by
    [r + 1] digits of the word. *)

Lemma be_decode_zeros tl n : be_decode (tl ++ replicate n (byte 0)) = be_decode tl * 256 ^ Z.of_nat n.
Proof.
  induction n as [|n IH]; [rewrite app_nil_r; lia|].
  rewrite replicate_S_end, app_assoc, be_decode_snoc, IH, Nat2Z.inj_succ, Z.pow_succ_r by lia.
  rewrite ord_byte. change (0 mod 256) with 0. lia.
Qed.

Lemma be_encode_take r k z : take r (be_encode (r + k) z) = be_encode r (z / 256 ^ Z.of_nat k).
Proof.
  revert z. induction k as [|k IH]; intros z.
  { rewrite Nat.add_0_r, Z.div_1_r. apply take_ge. by rewrite length_be_encode. }
  rewrite Nat.add_succ_r. cbn [be_encode]. rewrite take_app_le by (rewrite length_be_encode; lia).
  rewrite IH, Z.div_div by lia. by rewrite Nat2Z.inj_succ, Z.pow_succ_r by lia.
Qed.

Lemma div_mul_near w p : 0 < p -> w - p < w / p * p <= w.
Proof. intros Hp. pose proof (Z.div_mod w p ltac:(lia)). pose proof (Z.mod_pos_bound w p Hp). lia. Qed.

(** What [b85decode] makes of the first [r + 1] digits of a word whose last
    [4 - r] bytes are zero: the [r] bytes, whatever comes after them. *)
Lemma last_group (tl : bytes) r :
  length tl = r -> (1 <= r <= 3)%nat ->
  let w := be_decode (tl ++ replicate (4 - r) (byte 0)) in
  let acc := w / 85 ^ (4 - Z.of_nat r) * 85 ^ (4 - Z.of_nat r) + Z.shiftr 16777215 ((Z.of_nat r - 1) * 8) in
  word32 w /\ word32 acc /\ take r (be_encode 4 acc) = tl.
Proof.
  intros Hl Hr w acc.
  assert (word32 w) as Hw by (apply be_word; rewrite length_app, length_replicate; lia).
  set (q := 256 ^ Z.of_nat (4 - r)).
  assert (w = be_decode tl * q) as Ew by apply be_decode_zeros.
  assert (Z.shiftr 16777215 ((Z.of_nat r - 1) * 8) = q - 1 /\ 0 < 85 ^ (4 - Z.of_nat r) <= q /\ 256 ^ zlen tl * q = 4294967296)
    as (Es & Hpq & Hq).
  { unfold zlen. rewrite Hl. destruct r as [|[|[|[|r]]]]; try lia; vm_compute; done. }
  pose proof (be_decode_range tl) as Ht.
  pose proof (div_mul_near w (85 ^ (4 - Z.of_nat r)) ltac:(lia)) as Hn.
  assert (be_decode tl * q <= acc < (be_decode tl + 1) * q) as Ha by (subst acc; lia).
  assert (acc / q = be_decode tl) as Ediv.
  { assert (be_decode tl <= acc / q) by (apply Z.div_le_lower_bound; lia).
    assert (acc / q < be_decode tl + 1) by (apply Z.div_lt_upper_bound; lia). lia. }
  split; [done|]. split; [nia|].
  replace 4%nat with (r + (4 - r))%nat at 1 by lia. rewrite be_encode_take. fold q. rewrite Ediv.
  rewrite <- Hl. apply be_encode_decode.
Qed.

(** ** Whole texts *)

(** A text is [m] whole groups and at most three more bytes. *)
Lemma groups (text : bytes) :
  exists m pre tl, text = pre ++ tl /\ length pre = (4 * m)%nat /\ (length tl < 4)%nat.
Proof.
  exists (length text / 4)%nat, (take (4 * (length text / 4)) text), (drop (4 * (length text / 4)) text).
  pose proof (Nat.div_mod_eq (length text) 4). pose proof (Nat.mod_upper_bound (length text) 4).
  split; [by rewrite take_drop|]. rewrite length_take, length_drop. lia.
Qed.

(** Texts of whole groups. *)
Lemma b85encode_whole m pre pad :
  length pre = (4 * m)%nat -> b85encode pre pad = concat (map encode_word (unpack_words m pre)).
Proof.
  intros Hl. unfold b85encode, zlen. rewrite Hl.
  assert (Z.of_nat (4 * m) mod 4 = 0) as -> by (rewrite Nat2Z.inj_mul, Z.mul_comm; apply Z_mod_mult).
  assert (Z.of_nat (4 * m) / 4 = Z.of_nat m) as Ed by (rewrite Nat2Z.inj_mul, Z.mul_comm; apply Z_div_mult; lia).
  rewrite decide_False by lia. rewrite Hl, Ed, Nat2Z.id. destruct pad; [done|].
  rewrite decide_False by lia. unfold slice. rewrite Z.sub_0_r, drop_0. apply take_ge.
  rewrite length_encode_words, (proj1 (unpack_words_range m pre Hl)). lia.
Qed.

Lemma b85decode_whole m pre :
  length pre = (4 * m)%nat -> b85decode (concat (map encode_word (unpack_words m pre))) = Ok pre.
Proof.
  intros Hl. destruct (unpack_words_range m pre Hl) as [Hn HF].
  unfold b85decode, zlen. rewrite length_encode_words, Hn.
  assert (Z.of_nat (5 * m) mod 5 = 0) as -> by (rewrite Nat2Z.inj_mul, Z.mul_comm; apply Z_mod_mult).
  assert ((Z.of_nat (5 * m) + 4) / 5 = Z.of_nat m) as ->.
  { rewrite Nat2Z.inj_mul, Z.mul_comm, Z.div_add_l, Z.div_small by lia. lia. }
  rewrite Nat2Z.id. pose proof (decode_chunks_app (unpack_words m pre) 0 [] HF) as E.
  rewrite Nat.add_0_r, app_nil_r, Hn in E. rewrite E. cbn [rbind decode_chunks]. rewrite app_nil_r.
  rewrite decide_False by lia. pose proof (pack_words_app m pre [] Hl) as Ep.
  rewrite app_nil_r in Ep. rewrite Ep. cbn. by rewrite app_nil_r.
Qed.

(** Texts with a last group of [r] bytes. *)
Section last_group.
Context (m r : nat) (pre tl : bytes).
Hypothesis Hpre : length pre = (4 * m)%nat.
Hypothesis Htl : length tl = r.
Hypothesis Hr : (1 <= r <= 3)%nat.

Notation padded := (tl ++ replicate (4 - r) (byte 0)).

Lemma zlen_groups : zlen (pre ++ tl) mod 4 = Z.of_nat r /\ zlen (pre ++ tl) / 4 = Z.of_nat m.
Proof.
  unfold zlen. rewrite length_app, Hpre, Htl.
  replace (Z.of_nat (4 * m + r)) with (Z.of_nat r + Z.of_nat m * 4) by lia.
  rewrite Z_mod_plus_full, Z.div_add, Z.mod_small, Z.div_small by lia. lia.
Qed.

Lemma b85encode_part pad :
  b85encode (pre ++ tl) pad =
  concat (map encode_word (unpack_words m pre)) ++
    take (if pad then 5 else S r) (encode_word (be_decode padded)).
Proof using Hpre Htl Hr.
  destruct zlen_groups as [E1 E2]. unfold b85encode. rewrite E1, E2.
  rewrite !decide_True by lia. rewrite <- app_assoc.
  replace (Z.to_nat (4 - Z.of_nat r)) with (4 - r)%nat by lia.
  assert (Z.to_nat (zlen (pre ++ padded) / 4) = (m + 1)%nat) as ->.
  { unfold zlen. rewrite !length_app, length_replicate, Hpre, Htl.
    replace (Z.of_nat (4 * m + (r + (4 - r)))) with ((Z.of_nat m + 1) * 4) by lia.
    rewrite Z_div_mult by lia. lia. }
  rewrite unpack_words_app by done. cbn [unpack_words].
  rewrite (take_ge padded) by (rewrite length_app, length_replicate; lia).
  rewrite map_app, concat_app. cbn [map concat]. rewrite app_nil_r.
  destruct pad; [by rewrite (take_ge (encode_word _)) by (rewrite length_encode_word; lia)|].
  unfold slice. rewrite drop_0, Z.sub_0_r.
  rewrite take_app_ge by (rewrite length_encode_words, (proj1 (unpack_words_range m pre Hpre)); lia).
  f_equal. f_equal. rewrite length_encode_words, (proj1 (unpack_words_range m pre Hpre)). lia.
Qed.

Lemma b85decode_part :
  b85decode (concat (map encode_word (unpack_words m pre)) ++ take (S r) (encode_word (be_decode padded))) =
  Ok (pre ++ tl).
Proof using Hpre Htl Hr.
  destruct (unpack_words_range m pre Hpre) as [Hn HF].
  destruct (last_group tl r Htl Hr) as (Hw & Ha & Et). set (w := be_decode padded) in *.
  unfold b85decode, zlen. rewrite length_app, length_encode_words, length_take, length_encode_word, Hn.
  replace (Z.of_nat (5 * m + S r `min` 5)) with (Z.of_nat r + 1 + Z.of_nat m * 5) by lia.
  rewrite Z_mod_plus_full, Z.mod_small by lia.
  assert ((Z.of_nat r + 1 + Z.of_nat m * 5 + 4) / 5 = Z.of_nat m + 1) as ->.
  { replace (Z.of_nat r + 1 + Z.of_nat m * 5 + 4) with (Z.of_nat r + (Z.of_nat m + 1) * 5) by lia.
    rewrite Z.div_add, Z.div_small by lia. lia. }
  replace (Z.to_nat (Z.of_nat m + 1)) with (length (unpack_words m pre) + 1)%nat by lia.
  rewrite decode_chunks_app by done. cbn [decode_chunks].
  rewrite take_take, Nat.min_r, decode_word by lia. cbn [rbind].
  replace (5 - Z.of_nat (S r)) with (4 - Z.of_nat r) by lia.
  replace (5 - (Z.of_nat r + 1)) with (4 - Z.of_nat r) by lia.
  rewrite decide_False; [|assert (w / 85 ^ (4 - Z.of_nat r) <= w) by (apply Z.div_le_upper_bound; nia); lia].
  cbn [rbind]. rewrite !decide_True by lia. rewrite last_snoc, removelast_last.
  rewrite pack_words_app by done. replace (Z.of_nat r + 1 - 2) with (Z.of_nat r - 1) by lia.
  rewrite (decide_True (P := Z.of_nat r + 1 > 1)) by lia.
  cbn [pack_words]. rewrite decide_True by done. cbn [rbind]. rewrite decide_True, app_nil_r by lia. f_equal.
  unfold slice. rewrite drop_0, Z.sub_0_r, length_app, length_be_encode, Hpre.
  rewrite take_app_ge by lia. f_equal. etransitivity; [|exact Et]. f_equal. lia.
Qed.
End last_group.

(** Decoding an encoded text, with and without padding. *)
Lemma b85decode_encode (text : bytes) (pad : bool) :
  b85decode (b85encode text pad) =
  Ok (text ++ if pad then replicate (Z.to_nat ((- zlen text) mod 4)) (byte 0) else []).
Proof.
  destruct (groups text) as (m & pre & tl & -> & Hpre & Htl).
  destruct (decide (tl = [])) as [->|Hne].
  - rewrite !app_nil_r, (b85encode_whole m), b85decode_whole by done.
    assert ((- zlen pre) mod 4 = 0) as ->.
    { unfold zlen. rewrite Hpre. replace (- Z.of_nat (4 * m)) with (- Z.of_nat m * 4) by lia. apply Z_mod_mult. }
    destruct pad; cbn; by rewrite ?app_nil_r.
  - assert (1 <= length tl <= 3)%nat as Hr by (destruct tl; cbn in *; [done|lia]).
    rewrite (b85encode_part m (length tl)) by done.
    destruct pad; [|by rewrite b85decode_part, app_nil_r].
    rewrite take_ge by (rewrite length_encode_word; lia).
    assert ((- zlen (pre ++ tl)) mod 4 = 4 - Z.of_nat (length tl)) as ->.
    { unfold zlen. rewrite length_app, Hpre.
      replace (- Z.of_nat (4 * m + length tl)) with (4 - Z.of_nat (length tl) + (- Z.of_nat m - 1) * 4) by lia.
      rewrite Z_mod_plus_full. apply Z.mod_small. lia. }
    replace (Z.to_nat (4 - Z.of_nat (length tl))) with (4 - length tl)%nat by lia.
    rewrite <- app_assoc. set (padded := tl ++ _).
    assert (length padded = 4%nat) as H4 by (subst padded; rewrite length_app, length_replicate; lia).
    rewrite <- (b85decode_whole (m + 1) (pre ++ padded)) by (rewrite length_app; lia).
    rewrite unpack_words_app, map_app, concat_app by done. cbn [unpack_words map concat].
    by rewrite (take_ge padded), app_nil_r by lia.
Qed.

(** Decoding fails in two ways only. *)
Lemma decode_chunks_cases n text : (exists ws, decode_chunks n text = Ok ws) \/ decode_chunks n text = Err ValueError.
Proof.
  revert text. induction n as [|n IH]; intros text; cbn [decode_chunks]; [eauto|].
  assert (forall chunk acc, (exists v, decode_chars chunk acc = Ok v) \/ decode_chars chunk acc = Err ValueError) as Hc.
  { induction chunk as [|c chunk IHc]; intros acc; cbn [decode_chars]; [eauto|]. destruct (b85dec c); eauto. }
  destruct (Hc (take 5 text) 0) as [[v ->]| ->]; cbn [rbind]; [|by right].
  destruct (decide _); [by right|]. destruct (IH (drop 5 text)) as [[ws ->]| ->]; cbn [rbind]; eauto.
Qed.

Lemma b85decode_cases text :
  (exists t, b85decode text = Ok t) \/ b85decode text = Err ValueError \/ b85decode text = Err StructError.
Proof.
  assert (forall ws, (exists t, pack_words ws = Ok t) \/ pack_words ws = Err StructError) as Hp.
  { induction ws as [|w ws IH]; cbn [pack_words]; [eauto|]. destruct (decide _); [|by right].
    destruct IH as [[t ->]| ->]; cbn [rbind]; eauto. }
  unfold b85decode. destruct (decode_chunks_cases (Z.to_nat ((zlen text + 4) / 5)) text) as [[ws ->]| ->];
    cbn [rbind]; [|by right; left].
  match goal with |- context [pack_words ?l] => destruct (Hp l) as [[t ->]| ->] end; cbn [rbind]; eauto.
Qed.

(** Base85 round trip: decoding an encoded text gives the text back; with
    padding the zero bytes that completed the last group follow it.  No text is
    rejected on the way, whatever its length. *)
Theorem b85_roundtrip (text : bytes) (pad : bool) :
  b85decode (b85encode text pad) =
  Ok (text ++ if pad then replicate (Z.to_nat ((- zlen text) mod 4)) (byte 0) else []).
Proof. apply b85decode_encode. Qed.
End Base85.
