(* ===== verification/BinaryPatch.v ===== *)
(** * Binary patches (patch.py, mdiff.py)

    [b85diff] writes a binary change as base85 lines of the compressed new text,
    [binhunk] reads it back from the line reader, and [applybindelta] executes
    the copy and insert commands of a git binary delta. *)

From S2P Require Import Prelude Lines Struct PyFormat UnifiedDiff PatchHunk Base85.

Module BinaryPatch.
Import UnifiedDiff PatchHunk Base85.

(** The compression library: [zlib.compress] and [zlib.decompress]. *)
Class Zlib := {
  compress : bytes -> bytes;
  decompress : bytes -> res bytes
}.

Class ZlibLaws (z : Zlib) : Prop := {
  decompress_compress t : decompress (compress t) = Ok t
}.

(** ** Strings *)

(** [l[:j]], [j] possibly negative *)
Definition prefix_to {A} (l : list A) (j : Z) : list A :=
  take (Z.to_nat (if decide (j < 0) then zlen l + j else j)) l.

(** [s.rstrip(chars)] *)
Fixpoint lstrip_of (p : ascii -> bool) (s : bytes) : bytes :=
  match s with
  | [] => []
  | c :: t => if p c then lstrip_of p t else s
  end.

Definition rstrip_of (p : ascii -> bool) (s : bytes) : bytes := rev (lstrip_of p (rev s)).

Definition is_eol (c : ascii) : bool := bool_decide (c = cr \/ c = newline).

(** The whitespace of [str.strip]. *)
Definition isspace (c : ascii) : bool := bool_decide (c = space \/ 9 <= ord c <= 13).

(** [int(s)]: decimal digits with an optional sign, whitespace around them. *)
Definition py_int (s : bytes) : res Z :=
  let s := lstrip_of isspace (rstrip_of isspace s) in
  let '(sign, ds) :=
    match s with
    | c :: t => if ascii_dec c "-" then (-1, t) else if ascii_dec c "+" then (1, t) else (1, s)
    | [] => (1, s)
    end in
  match ds with
  | [] => Err ValueError
  | _ => if forallb isdigit ds then Ok (sign * int_of ds) else Err ValueError
  end.

(** ** Writing: b85diff *)

(** [fmtline] *)
Definition fmtline (line : bytes) : bytes :=
  let l := zlen line in
  let c := if decide (l <= 26) then byte (65 + l - 1) else byte (l - 26 + 97 - 1) in
  c :: b85encode line true ++ [newline].

(** [chunk] with its default size. *)
Fixpoint chunk_loop (fuel : nat) (text : bytes) (i : Z) : list bytes :=
  match fuel with
  | O => []
  | S fuel => if decide (i < zlen text) then slice text i (i + 52) :: chunk_loop fuel text (i + 52) else []
  end.

Definition chunk (text : bytes) : list bytes := chunk_loop (S (length text)) text 0.

Definition gitbin_header : bytes := bs "GIT binary patch" ++ [newline].

Definition literal_line (n : Z) : bytes := bs "literal " ++ fmt_d n ++ [newline].

Definition b85diff `{Zlib} (to tn : option bytes) : bytes :=
  let to := default [] to in
  let tn := default [] tn in
  if decide (to = tn) then []
  else
    gitbin_header ++ literal_line (zlen tn) ++ concat (map fmtline (chunk (compress tn))) ++ [newline].

(** ** Reading: binhunk *)

Record binhunk := BinHunk { bh_text : bytes; bh_delta : bool; bh_hunk : list bytes }.

(** [getline]: the line without its end; the line read is kept in the hunk. *)
Definition getline (lr : linereader) (h : list bytes) : bytes * linereader * list bytes :=
  let '(l, lr) := readline lr in
  (rstrip_of is_eol l, lr, h ++ [l]).

(** [while True] of [_read]: the size and kind of the data. *)
Fixpoint read_size (fuel : nat) (lr : linereader) (h : list bytes) :
    res (Z * bool * linereader * list bytes) :=
  match fuel with
  | O => Err OutOfFuel
  | S fuel =>
      let '(line, lr, h) := getline lr h in
      if decide (line = []) then Err (PatchError "could not extract binary data")
      else if startswith line (bs "literal ") then
        let* size := py_int (rstrip_of isspace (drop 8 line)) in Ok (size, false, lr, h)
      else if startswith line (bs "delta ") then
        let* size := py_int (rstrip_of isspace (drop 6 line)) in Ok (size, true, lr, h)
      else read_size fuel lr h
  end.

(** The data of one line: its first character is the number of bytes. *)
Definition decode_line (line : bytes) : res bytes :=
  let* c := getitem line 0 in
  let l := if decide (ord c <= 90 /\ 65 <= ord c) then ord c - 65 + 1 else ord c - 97 + 27 in
  match b85decode (drop 1 line) with
  | Ok t => Ok (prefix_to t l)
  | Err ValueError => Err (PatchError "could not decode binary patch")
  | Err e => Err e
  end.

(** [while len(line) > 1] *)
Fixpoint read_lines (fuel : nat) (line : bytes) (lr : linereader) (h dec : list bytes) :
    res (list bytes * linereader * list bytes) :=
  match fuel with
  | O => Err OutOfFuel
  | S fuel =>
      if decide (zlen line > 1) then
        let* d := decode_line line in
        let '(line, lr, h) := getline lr h in
        read_lines fuel line lr h (dec ++ [d])
      else Ok (dec, lr, h)
  end.

Definition unread (lr : linereader) : nat := length (lr_fp lr) + length (lr_buf lr).

(** [binhunk._read]; every turn of a loop reads a line or stops at the end of
    the file, where [readline] gives the empty string. *)
Definition read_binhunk `{Zlib} (lr : linereader) : res (binhunk * linereader) :=
  let* (size, delta, lr, h) := read_size (S (unread lr)) lr [gitbin_header] in
  let '(line, lr, h) := getline lr h in
  let* (dec, lr, h) := read_lines (S (S (unread lr))) line lr h [] in
  let* text := decompress (concat dec) in
  if decide (zlen text ≠ size) then Err (PatchError "length mismatch")
  else Ok (BinHunk text delta h, lr).

(** ** Executing: applybindelta *)

(** [deltahead] *)
Fixpoint deltahead_loop (t : bytes) (i : Z) : Z :=
  match t with
  | [] => i
  | c :: t => if decide (Z.land (ord c) 128 = 0) then i + 1 else deltahead_loop t (i + 1)
  end.

Definition deltahead (binchunk : bytes) : Z := deltahead_loop binchunk 0.

(** [if cmd & bit: x |= ord(binchunk[i]) << sh; i += 1] *)
Definition operand (binchunk : bytes) (cmd bit sh : Z) (xi : Z * Z) : res (Z * Z) :=
  let '(x, i) := xi in
  if decide (Z.land cmd bit ≠ 0) then
    let* c := getitem binchunk i in Ok (Z.lor x (Z.shiftl (ord c) sh), i + 1)
  else Ok (x, i).

(** The offset and size of a copy command, and the position after them. *)
Definition read_operands (binchunk : bytes) (cmd i : Z) : res (Z * Z * Z) :=
  let* s := operand binchunk cmd 1 0 (0, i) in
  let* s := operand binchunk cmd 2 8 s in
  let* s := operand binchunk cmd 4 16 s in
  let* (offset, i) := operand binchunk cmd 8 24 s in
  let* s := operand binchunk cmd 16 0 (0, i) in
  let* s := operand binchunk cmd 32 8 s in
  let* (size, i) := operand binchunk cmd 64 16 s in
  Ok (offset, size, i).

Fixpoint bindelta_loop (fuel : nat) (binchunk data : bytes) (i : Z) (out : bytes) : res bytes :=
  match fuel with
  | O => Err OutOfFuel
  | S fuel =>
      if decide (i < zlen binchunk) then
        let* c := getitem binchunk i in
        let cmd := ord c in
        let i := i + 1 in
        if decide (Z.land cmd 128 ≠ 0) then
          let* (offset, size, i) := read_operands binchunk cmd i in
          let size := if decide (size = 0) then 65536 else size in
          bindelta_loop fuel binchunk data i (out ++ slice data offset (offset + size))
        else if decide (cmd ≠ 0) then
          bindelta_loop fuel binchunk data (i + cmd) (out ++ slice binchunk i (i + cmd))
        else Err (PatchError "unexpected delta opcode 0")
      else Ok out
  end.

Definition applybindelta (binchunk data : bytes) : res bytes :=
  let binchunk := slice binchunk (deltahead binchunk) (zlen binchunk) in
  let binchunk := slice binchunk (deltahead binchunk) (zlen binchunk) in
  bindelta_loop (S (length binchunk)) binchunk data 0 [].

(** [binhunk.new] *)
Definition new (bh : binhunk) (lines : list bytes) : res (list bytes) :=
  if bh_delta bh then let* t := applybindelta (bh_text bh) (concat lines) in Ok [t]
  else Ok [bh_text bh].

(** The laws hold of a library that stores the text as it is. *)
#[local] Instance stored : Zlib := {| compress t := t; decompress t := Ok t |}.

#[local] Instance stored_laws : ZlibLaws stored.
Proof. by split. Qed.

Example binhunk_example :
  let d := b85diff None (Some (bs "hello")) in
  d = gitbin_header ++ bs "literal 5" ++ [newline] ++ bs "EXk~0{ZvX%Q" ++ [newline] ++ [newline] /\
  read_binhunk (LineReader (drop 1 (splitnewlines d)) []) =
    Ok (BinHunk (bs "hello") false (splitnewlines d), LineReader [] []) /\
  applybindelta ([byte 5; byte 4] ++ [byte 145; byte 1; byte 3] ++ [byte 1] ++ bs "!") (bs "hello") = Ok (bs "ell!") /\
  applybindelta [byte 5; byte 4; byte 0] [] = Err (PatchError "unexpected delta opcode 0") /\
  applybindelta [byte 5; byte 4; byte 129] [] = Err IndexError.
Proof. vm_compute. done. Qed.

(** ** Lines of the patch *)

Definition clean (l : bytes) : Prop := Forall (fun c => is_eol c = false) l.

Lemma clean_newline l : clean l -> newline ∉ l.
Proof. intros H Hin. eapply Forall_forall in Hin; [|exact H]. done. Qed.

Lemma lstrip_of_id p c t : p c = false -> lstrip_of p (c :: t) = c :: t.
Proof. intros H. cbn. by rewrite H. Qed.

Lemma rstrip_of_id p s c : p c = false -> rstrip_of p (s ++ [c]) = s ++ [c].
Proof.
  intros H. unfold rstrip_of. rewrite rev_app_distr. cbn [rev app]. rewrite lstrip_of_id by done.
  cbn [rev]. by rewrite rev_involutive.
Qed.

Lemma rstrip_of_clean p s : Forall (fun c => p c = false) s -> rstrip_of p s = s.
Proof.
  intros H. destruct s as [|c s _] using rev_ind; [done|].
  apply Forall_app in H as [_ [Hc _]%Forall_cons]. by apply rstrip_of_id.
Qed.

Lemma rstrip_newline s : clean s -> rstrip_of is_eol (s ++ [newline]) = s.
Proof.
  intros H. unfold rstrip_of. rewrite rev_app_distr. cbn [rev app].
  change (lstrip_of is_eol (newline :: rev s)) with (lstrip_of is_eol (rev s)).
  by apply rstrip_of_clean.
Qed.

Lemma b85char_clean i : is_eol (b85char i) = false.
Proof.
  unfold b85char. destruct (nth_in_or_default (Z.to_nat i) b85chars (byte 0)) as [H| ->]; [|done].
  assert (forallb (fun c => negb (is_eol c)) b85chars = true) as Hall by (vm_compute; reflexivity).
  rewrite forallb_forall in Hall. apply Hall in H. by destruct (is_eol _).
Qed.

Lemma b85encode_clean t : clean (b85encode t true).
Proof.
  unfold b85encode. set (words := unpack_words _ _). clearbody words.
  induction words as [|w words IH]; [constructor|]. cbn [map concat]. apply Forall_app. split; [|done].
  rewrite encode_word_digits. apply Forall_map, Forall_forall. intros. apply b85char_clean.
Qed.

(** The length character of a line. *)
Definition len_char (l : Z) : ascii :=
  if decide (l <= 26) then byte (65 + l - 1) else byte (l - 26 + 97 - 1).

Lemma len_char_spec l :
  1 <= l <= 52 ->
  is_eol (len_char l) = false /\
  (if decide (ord (len_char l) <= 90 /\ 65 <= ord (len_char l)) then ord (len_char l) - 65 + 1
   else ord (len_char l) - 97 + 27) = l.
Proof.
  intros Hl. unfold len_char. destruct (decide (l <= 26)) as [H|H].
  - assert (ord (byte (65 + l - 1)) = 64 + l) as E by (rewrite ord_byte, Z.mod_small; lia).
    rewrite E, decide_True by lia. split; [|lia]. apply bool_decide_eq_false. intros [C|C]; rewrite C in E; [change (ord cr) with 13 in E|change (ord newline) with 10 in E]; lia.
  - assert (ord (byte (l - 26 + 97 - 1)) = 70 + l) as E by (rewrite ord_byte, Z.mod_small; lia).
    rewrite E, decide_False by lia. split; [|lia]. apply bool_decide_eq_false. intros [C|C]; rewrite C in E; [change (ord cr) with 13 in E|change (ord newline) with 10 in E]; lia.
Qed.

(** A line without its newline. *)
Definition line_body (line : bytes) : bytes := len_char (zlen line) :: b85encode line true.

Lemma fmtline_body line : fmtline line = line_body line ++ [newline].
Proof. done. Qed.

Lemma line_body_clean line : 1 <= zlen line <= 52 -> clean (line_body line).
Proof. intros H. constructor; [by apply len_char_spec|apply b85encode_clean]. Qed.

(** [decode_line] undoes [fmtline]: the padding is cut by the length. *)
Lemma decode_line_body line : 1 <= zlen line <= 52 -> decode_line (line_body line) = Ok line.
Proof.
  intros H. unfold decode_line, line_body. destruct (len_char_spec (zlen line) H) as [_ E].
  change (getitem _ 0) with (Ok (len_char (zlen line))). cbn [rbind]. rewrite E.
  change (drop 1 _) with (b85encode line true). rewrite b85decode_encode. unfold prefix_to.
  rewrite decide_False by lia. replace (Z.to_nat (zlen line)) with (length line) by (unfold zlen; lia). by rewrite take_app_length.
Qed.

(** ** The reader *)

Lemma getline_body body fp h :
  clean body -> getline (LineReader ((body ++ [newline]) :: fp) []) h = (body, LineReader fp [], h ++ [body ++ [newline]]).
Proof. intros H. unfold getline. cbn. by rewrite rstrip_newline. Qed.

Lemma chunk_loop_spec fuel text i :
  0 <= i -> zlen text - i < Z.of_nat fuel ->
  concat (chunk_loop fuel text i) = drop (Z.to_nat i) text /\
  Forall (fun c => 1 <= zlen c <= 52) (chunk_loop fuel text i).
Proof.
  revert i. induction fuel as [|fuel IH]; intros i Hi Hf; cbn [chunk_loop].
  { rewrite drop_ge; [done|]. unfold zlen in Hf. lia. }
  destruct (decide (i < zlen text)) as [H|H]; [|rewrite drop_ge; [done|unfold zlen in *; lia]].
  destruct (IH (i + 52)) as [E HF]; [lia..|]. cbn [concat]. rewrite E. split.
  - unfold slice. replace (Z.to_nat (i + 52)) with (Z.to_nat i + Z.to_nat (i + 52 - i))%nat by lia.
    by rewrite <- drop_drop, take_drop.
  - constructor; [|done]. unfold slice, zlen in *. rewrite length_take, length_drop. lia.
Qed.

Lemma chunk_spec text : concat (chunk text) = text /\ Forall (fun c => 1 <= zlen c <= 52) (chunk text).
Proof. apply (chunk_loop_spec (S (length text)) text 0); unfold zlen; lia. Qed.

Lemma zlen_body line : 1 <= zlen line -> zlen (line_body line) > 1.
Proof.
  intros H. unfold line_body. rewrite zlen_cons. cut (0 < zlen (b85encode line true)); [lia|].
  destruct (b85encode line true) as [|c t] eqn:E; [|rewrite zlen_cons; pose proof (zlen_nonneg t); lia].
  pose proof (b85decode_encode line true) as D. rewrite E in D. cbn in D. destruct line; [cbn in H; lia|done].
Qed.

(** The data lines, up to the empty line that ends them. *)
Lemma read_lines_chunks cs line fp h dec fuel :
  Forall (fun c => 1 <= zlen c <= 52) (line :: cs) -> (length cs + 1 < fuel)%nat ->
  read_lines fuel (line_body line) (LineReader (map fmtline cs ++ [newline] :: fp) []) h dec =
  Ok (dec ++ line :: cs, LineReader fp [], h ++ map fmtline cs ++ [[newline]]).
Proof.
  revert line h dec fuel. induction cs as [|c cs IH]; intros line h dec fuel [Hl HF]%Forall_cons Hf;
    (destruct fuel as [|fuel]; [cbn in Hf; lia|]); cbn [read_lines];
    rewrite decide_True by (apply zlen_body; lia); rewrite decode_line_body by done; cbn [rbind map app].
  - by destruct fuel; [cbn in Hf; lia|].
  - rewrite fmtline_body, getline_body by (apply line_body_clean; by apply Forall_cons in HF as [? _]).
    rewrite IH by (done || (cbn in Hf; lia)). by rewrite <- !(assoc_L (++)).
Qed.

Lemma digit_clean c : isdigit c = true -> isspace c = false /\ is_eol c = false /\ c ≠ "-"%char /\ c ≠ "+"%char.
Proof.
  unfold isdigit. rewrite bool_decide_eq_true. intros H. unfold isspace, is_eol. rewrite !bool_decide_eq_false.
  assert (ord space = 32 /\ ord cr = 13 /\ ord newline = 10 /\ ord "-" = 45 /\ ord "+" = 43) as (?&?&?&?&?) by done.
  split_and!; [intros [-> | ?]|intros [-> | ->]|intros ->|intros ->]; lia.
Qed.

Lemma fmt_d_digits n : 0 <= n -> Forall (fun c => isdigit c = true) (fmt_d n) /\ fmt_d n ≠ [] /\ int_of (fmt_d n) = n.
Proof. intros Hn. unfold fmt_d. rewrite decide_False by lia. destruct (digits_spec n Hn) as (?&?&?). done. Qed.

(** [int] reads back what [%d] prints. *)
Lemma py_int_fmt n : 0 <= n -> py_int (rstrip_of isspace (fmt_d n)) = Ok n.
Proof.
  intros Hn. destruct (fmt_d_digits n Hn) as (HF & Hne & E).
  assert (Forall (fun c => isspace c = false) (fmt_d n)) as Hs.
  { eapply Forall_impl; [exact HF|]. intros c Hc. by apply digit_clean in Hc as (?&?&?). }
  unfold py_int. rewrite !(rstrip_of_clean isspace (fmt_d n)) by done. destruct (fmt_d n) as [|c t]; [done|].
  apply Forall_cons in Hs as [Hc _]. rewrite lstrip_of_id by done.
  pose proof HF as [Hd _]%Forall_cons. apply digit_clean in Hd as (_ & _ & H1 & H2).
  destruct (ascii_dec c "-"), (ascii_dec c "+"); try done.
  replace (forallb isdigit (c :: t)) with true; [by rewrite E, Z.mul_1_l|].
  symmetry. apply forallb_forall. intros x Hx. apply list_elem_of_In in Hx. by eapply Forall_forall in Hx; [|exact HF].
Qed.

Lemma read_size_literal fuel n fp h :
  0 <= n -> read_size (S fuel) (LineReader (literal_line n :: fp) []) h =
  Ok (n, false, LineReader fp [], h ++ [literal_line n]).
Proof.
  intros Hn. unfold literal_line. rewrite (assoc_L (++)). cbn [read_size].
  destruct (fmt_d_digits n Hn) as (HF & _ & _).
  rewrite getline_body.
  - rewrite decide_False by done. unfold startswith. rewrite read_literal_app.
    change (drop 8 (bs "literal " ++ fmt_d n)) with (fmt_d n). by rewrite py_int_fmt.
  - apply Forall_app. split; [by repeat constructor|]. eapply Forall_impl; [exact HF|].
    intros c Hc. by apply digit_clean in Hc as (?&?&?).
Qed.
Lemma read_binhunk_lines `{ZlibLaws} (tn : bytes) more cs :
  concat cs = compress tn -> Forall (fun c => 1 <= zlen c <= 52) cs ->
  let rest := literal_line (zlen tn) :: map fmtline cs ++ [[newline]] in
  read_binhunk (LineReader (rest ++ more) []) =
  Ok (BinHunk tn false (gitbin_header :: rest), LineReader more []).
Proof.
  intros Ec HF rest. unfold read_binhunk, rest. cbn [app].
  rewrite read_size_literal by apply zlen_nonneg. cbn [rbind].
  rewrite <- (assoc_L (++)). destruct cs as [|c cs].
  - cbn [map app]. change (getline (LineReader ([newline] :: more) []) ?h) with (@nil ascii, LineReader more [], h ++ [[newline]]).
    cbn [read_lines]. rewrite decide_False by done. cbn [rbind]. rewrite Ec, decompress_compress. cbn [rbind].
    by rewrite decide_False by (intros C; done).
  - cbn [map app]. rewrite fmtline_body, getline_body by (apply line_body_clean; by apply Forall_cons in HF as [? _]).
    rewrite read_lines_chunks by (done || (unfold unread; cbn [lr_fp lr_buf length]; rewrite length_app, length_map; cbn [length]; lia)).
    cbn [rbind app]. rewrite Ec, decompress_compress. cbn [rbind].
    by rewrite decide_False by (intros C; done).
Qed.

(** [C40] The binary diff of two different texts is lines that the patch reader
    accepts: after the header line, [binhunk] reads exactly these lines, leaves
    what follows them, and its new text is the second text, whatever it is
    applied to. *)
Theorem b85diff_roundtrip `{ZlibLaws} (to tn : option bytes) (more lines : list bytes) :
  default [] to ≠ default [] tn ->
  exists rest bh,
    splitnewlines (b85diff to tn) = gitbin_header :: rest /\
    read_binhunk (LineReader (rest ++ more) []) = Ok (bh, LineReader more []) /\
    new bh lines = Ok [default [] tn].
Proof.
  intros Hne. unfold b85diff. rewrite decide_False by done. set (t := default [] tn).
  destruct (chunk_spec (compress t)) as [Ec HF]. set (cs := chunk (compress t)) in *.
  exists (literal_line (zlen t) :: map fmtline cs ++ [[newline]]).
  eexists. split; [|split; [by apply read_binhunk_lines|done]].
  rewrite <- (app_nil_r (gitbin_header ++ _)).
  replace (gitbin_header ++ literal_line (zlen t) ++ concat (map fmtline cs) ++ [newline])
    with (concat (gitbin_header :: literal_line (zlen t) :: map fmtline cs ++ [[newline]]))
    by (cbn [concat]; by rewrite concat_app).
  rewrite splitnewlines_full; [by rewrite app_nil_r| |apply not_elem_of_nil].
  constructor; [exists (bs "GIT binary patch"); split; [done|by apply (bool_decide_unpack _)]|].
  constructor.
  - exists (bs "literal " ++ fmt_d (zlen t)). split; [by rewrite <- (assoc_L (++))|]. apply clean_newline, Forall_app.
    split; [by repeat constructor|]. eapply Forall_impl; [apply fmt_d_digits, zlen_nonneg|].
    intros c Hc. by apply digit_clean in Hc as (?&?&?).
  - apply Forall_app. split; [|repeat constructor; exists []; split; [done|apply not_elem_of_nil]].
    apply Forall_map. eapply Forall_impl; [exact HF|]. intros c Hc. exists (line_body c).
    split; [done|]. by apply clean_newline, line_body_clean.
Qed.

Lemma b85diff_roundtrip_witness :
  exists rest bh,
    splitnewlines (@b85diff stored None (Some (bs "hello"))) = gitbin_header :: rest /\
    @read_binhunk stored (LineReader (rest ++ [bs "diff"]) []) = Ok (bh, LineReader [bs "diff"] []) /\
    new bh [bs "old"] = Ok [bs "hello"].
Proof.
  apply (@b85diff_roundtrip stored stored_laws None (Some (bs "hello")) [bs "diff"] [bs "old"]).
  discriminate.
Defined.
(** ** Git deltas *)

(** The commands of a delta and what they produce from the old text. *)
Inductive delta_cmd :=
  | Copy (offset size : Z)
  | Insert (t : bytes).

Definition cmd_valid (c : delta_cmd) : Prop :=
  match c with
  | Copy offset size => 0 <= offset < 4294967296 /\ 0 < size < 16777216
  | Insert t => 1 <= zlen t <= 127
  end.

Definition cmd_text (data : bytes) (c : delta_cmd) : bytes :=
  match c with
  | Copy offset size => slice data offset (offset + size)
  | Insert t => t
  end.

(** Byte [j] of a number, written only when it is not zero. *)
Definition num_byte (x j : Z) : Z := Z.land (Z.shiftr x (8 * j)) 255.

Definition opt_byte (b : Z) : bytes := if decide (b = 0) then [] else [byte b].

Definition opt_flag (b bit : Z) : Z := if decide (b = 0) then 0 else bit.

(** The format of patch-delta.c; a size of 65536 is written as zero. *)
Definition cmd_bytes (c : delta_cmd) : bytes :=
  match c with
  | Copy offset size =>
      let s := if decide (size = 65536) then 0 else size in
      byte (128 + opt_flag (num_byte offset 0) 1 + opt_flag (num_byte offset 1) 2 +
            opt_flag (num_byte offset 2) 4 + opt_flag (num_byte offset 3) 8 +
            opt_flag (num_byte s 0) 16 + opt_flag (num_byte s 1) 32 + opt_flag (num_byte s 2) 64) ::
      opt_byte (num_byte offset 0) ++ opt_byte (num_byte offset 1) ++ opt_byte (num_byte offset 2) ++
      opt_byte (num_byte offset 3) ++ opt_byte (num_byte s 0) ++ opt_byte (num_byte s 1) ++ opt_byte (num_byte s 2)
  | Insert t => byte (zlen t) :: t
  end.

(** A size of the header: bytes with the high bit set, then one without. *)
Definition varint (h : bytes) : Prop :=
  exists his lo, h = his ++ [lo] /\ Forall (fun c => Z.land (ord c) 128 ≠ 0) his /\ Z.land (ord lo) 128 = 0.

Lemma num_byte_range x j : 0 <= num_byte x j < 256.
Proof.
  unfold num_byte. change 255 with (Z.ones 8). rewrite Z.land_ones by lia. apply Z.mod_pos_bound. lia.
Qed.

Lemma opt_byte_range x j : ord (byte (num_byte x j)) = num_byte x j.
Proof. rewrite ord_byte. apply Z.mod_small, num_byte_range. Qed.

(** A number is the [lor] of its bytes. *)
Lemma num_byte_testbit x j sh n : 0 <= j -> 0 <= n -> sh = 8 * j ->
  Z.testbit (Z.shiftl (num_byte x j) sh) n = bool_decide (sh <= n < sh + 8) && Z.testbit x n.
Proof.
  intros Hj Hn ->. rewrite Z.shiftl_spec by lia. unfold num_byte. rewrite Z.land_spec.
  destruct (decide (n < 8 * j)) as [H|H].
  { rewrite (Z.testbit_neg_r _ (n - 8 * j)) by lia. rewrite bool_decide_eq_false_2 by lia. done. }
  rewrite Z.shiftr_spec by lia. replace (n - 8 * j + 8 * j) with n by lia. change 255 with (Z.ones 8).
  rewrite (Z.testbit_ones 8 (n - 8 * j)) by lia. rewrite andb_comm. f_equal.
  rewrite (proj2 (Z.leb_le 0 (n - 8 * j))) by lia. cbn [andb].
  destruct (Z.ltb_spec (n - 8 * j) 8) as [L|L]; [rewrite bool_decide_eq_true_2 by lia|rewrite bool_decide_eq_false_2 by lia]; done.
Qed.

Lemma testbit_high x k n : 0 <= x < 2 ^ k -> 0 <= k <= n -> Z.testbit x n = false.
Proof.
  intros Hx Hn. rewrite <- (Z.mod_small x (2 ^ k)) by done. apply Z.mod_pow2_bits_high. lia.
Qed.

Lemma lor_bytes3 x : 0 <= x < 2 ^ 24 ->
  Z.lor (Z.lor (Z.lor 0 (Z.shiftl (num_byte x 0) 0)) (Z.shiftl (num_byte x 1) 8)) (Z.shiftl (num_byte x 2) 16) = x.
Proof.
  intros Hx. apply Z.bits_inj'. intros n Hn. rewrite !Z.lor_spec, Z.testbit_0_l.
  rewrite (num_byte_testbit x 0), (num_byte_testbit x 1), (num_byte_testbit x 2) by lia.
  repeat case_bool_decide; try lia; cbn [andb orb]; rewrite ?orb_false_r; try done.
  symmetry. apply (testbit_high _ 24); lia.
Qed.

Lemma lor_bytes4 x : 0 <= x < 2 ^ 32 ->
  Z.lor (Z.lor (Z.lor (Z.lor 0 (Z.shiftl (num_byte x 0) 0)) (Z.shiftl (num_byte x 1) 8)) (Z.shiftl (num_byte x 2) 16))
    (Z.shiftl (num_byte x 3) 24) = x.
Proof.
  intros Hx. apply Z.bits_inj'. intros n Hn. rewrite !Z.lor_spec, Z.testbit_0_l.
  rewrite (num_byte_testbit x 0), (num_byte_testbit x 1), (num_byte_testbit x 2), (num_byte_testbit x 3) by lia.
  repeat case_bool_decide; try lia; cbn [andb orb]; rewrite ?orb_false_r; try done.
  symmetry. apply (testbit_high _ 32); lia.
Qed.

(** Reading one operand byte, present or not. *)
Lemma operand_spec pre b post cmd bit sh x :
  0 <= b < 256 -> (Z.land cmd bit ≠ 0 <-> b ≠ 0) ->
  operand (pre ++ opt_byte b ++ post) cmd bit sh (x, zlen pre) =
  Ok (Z.lor x (Z.shiftl b sh), zlen (pre ++ opt_byte b)).
Proof.
  intros Hb Hbit. unfold operand, opt_byte. destruct (decide (b = 0)) as [->|Hn].
  - rewrite decide_False by tauto. by rewrite Z.shiftl_0_l, Z.lor_0_r, app_nil_r.
  - rewrite decide_True by tauto. unfold getitem, zlen. rewrite Nat2Z.id.
    change ([byte b] ++ post) with (byte b :: post). rewrite list_lookup_middle by done. cbn [rbind].
    rewrite ord_byte, Z.mod_small by done. rewrite length_app. cbn [length]. do 2 f_equal. lia.
Qed.

Lemma opt_flag_cases b bit : opt_flag b bit = if bool_decide (b = 0) then 0 else bit.
Proof. unfold opt_flag. by destruct (decide (b = 0)), (bool_decide_reflect (b = 0)). Qed.

(** The flags of the command byte are the operands present. *)
Lemma copy_cmd_flags b0 b1 b2 b3 b4 b5 b6 :
  let cmd := 128 + opt_flag b0 1 + opt_flag b1 2 + opt_flag b2 4 + opt_flag b3 8 +
             opt_flag b4 16 + opt_flag b5 32 + opt_flag b6 64 in
  ord (byte cmd) = cmd /\ Z.land cmd 128 ≠ 0 /\
  (Z.land cmd 1 ≠ 0 <-> b0 ≠ 0) /\ (Z.land cmd 2 ≠ 0 <-> b1 ≠ 0) /\ (Z.land cmd 4 ≠ 0 <-> b2 ≠ 0) /\
  (Z.land cmd 8 ≠ 0 <-> b3 ≠ 0) /\ (Z.land cmd 16 ≠ 0 <-> b4 ≠ 0) /\ (Z.land cmd 32 ≠ 0 <-> b5 ≠ 0) /\
  (Z.land cmd 64 ≠ 0 <-> b6 ≠ 0).
Proof.
  cbv zeta. rewrite !opt_flag_cases.
  assert (forall b, b ≠ 0 <-> bool_decide (b = 0) = false) as H by (intros; by rewrite bool_decide_eq_false).
  rewrite (H b0), (H b1), (H b2), (H b3), (H b4), (H b5), (H b6). generalize (bool_decide (b0 = 0)), (bool_decide (b1 = 0)), (bool_decide (b2 = 0)), (bool_decide (b3 = 0)),
    (bool_decide (b4 = 0)), (bool_decide (b5 = 0)), (bool_decide (b6 = 0)). clear.
  intros [] [] [] [] [] [] []; vm_compute; repeat split; congruence.
Qed.
(** The operands of a copy command, read one after the other. *)
Lemma copy_operands pre b0 b1 b2 b3 b4 b5 b6 post cmd :
  Forall (fun b => 0 <= b < 256) [b0; b1; b2; b3; b4; b5; b6] ->
  (Z.land cmd 1 ≠ 0 <-> b0 ≠ 0) -> (Z.land cmd 2 ≠ 0 <-> b1 ≠ 0) -> (Z.land cmd 4 ≠ 0 <-> b2 ≠ 0) ->
  (Z.land cmd 8 ≠ 0 <-> b3 ≠ 0) -> (Z.land cmd 16 ≠ 0 <-> b4 ≠ 0) -> (Z.land cmd 32 ≠ 0 <-> b5 ≠ 0) ->
  (Z.land cmd 64 ≠ 0 <-> b6 ≠ 0) ->
  let ops := opt_byte b0 ++ opt_byte b1 ++ opt_byte b2 ++ opt_byte b3 ++ opt_byte b4 ++ opt_byte b5 ++ opt_byte b6 in
  let l := pre ++ ops ++ post in
  read_operands l cmd (zlen pre) =
  Ok (Z.lor (Z.lor (Z.lor (Z.lor 0 (Z.shiftl b0 0)) (Z.shiftl b1 8)) (Z.shiftl b2 16)) (Z.shiftl b3 24),
      Z.lor (Z.lor (Z.lor 0 (Z.shiftl b4 0)) (Z.shiftl b5 8)) (Z.shiftl b6 16), zlen (pre ++ ops)).
Proof.
  intros HF H0 H1 H2 H3 H4 H5 H6 ops l.
  apply Forall_cons in HF as [R0 HF]. apply Forall_cons in HF as [R1 HF]. apply Forall_cons in HF as [R2 HF].
  apply Forall_cons in HF as [R3 HF]. apply Forall_cons in HF as [R4 HF]. apply Forall_cons in HF as [R5 HF].
  apply Forall_cons in HF as [R6 _]. subst l ops. unfold read_operands. repeat rewrite <- app_assoc.
  rewrite (operand_spec pre) by done. cbn [rbind].
  rewrite (app_assoc pre). rewrite (operand_spec (pre ++ _)) by done. cbn [rbind].
  rewrite (app_assoc (pre ++ _)). rewrite (operand_spec ((pre ++ _) ++ _)) by done. cbn [rbind].
  do 4 (rewrite app_assoc; rewrite operand_spec by done; cbn [rbind]).
  by rewrite <- !app_assoc.
Qed.
Lemma getitem_app {A} (pre : list A) x post : getitem (pre ++ x :: post) (zlen pre) = Ok x.
Proof. unfold getitem, zlen. rewrite Nat2Z.id. by rewrite list_lookup_middle. Qed.

Lemma zlen_middle {A} (pre : list A) x post : zlen pre < zlen (pre ++ x :: post).
Proof. rewrite zlen_app, zlen_cons. pose proof (zlen_nonneg post). lia. Qed.

(** One command. *)
Lemma bindelta_copy fuel pre offset size post data out :
  cmd_valid (Copy offset size) ->
  let c := cmd_bytes (Copy offset size) in
  bindelta_loop (S fuel) (pre ++ c ++ post) data (zlen pre) out =
  bindelta_loop fuel (pre ++ c ++ post) data (zlen (pre ++ c)) (out ++ cmd_text data (Copy offset size)).
Proof.
  intros Hc c. subst c. cbn [bindelta_loop cmd_bytes cmd_text cmd_valid] in *.
  set (s := if decide (size = 65536) then 0 else size) in *.
  destruct (copy_cmd_flags (num_byte offset 0) (num_byte offset 1) (num_byte offset 2) (num_byte offset 3)
    (num_byte s 0) (num_byte s 1) (num_byte s 2)) as (Eo & H7 & H0 & H1 & H2 & H3 & H4 & H5 & H6).
  set (cmd := 128 + _ + _ + _ + _ + _ + _ + _) in *. set (ops := opt_byte _ ++ _). cbn [app].
  rewrite decide_True by apply zlen_middle. rewrite getitem_app. cbn [rbind].
  rewrite Eo, decide_True by done.
  change (byte cmd :: ?x) with ([byte cmd] ++ x). rewrite !(app_assoc pre [byte cmd]).
  replace (zlen pre + 1) with (zlen (pre ++ [byte cmd])) by (rewrite zlen_app; done).
  unfold ops at 1. rewrite copy_operands; [|repeat (apply Forall_cons; split; [apply num_byte_range|]); constructor|done..].
  cbn [rbind]. fold ops. rewrite lor_bytes4, lor_bytes3 by (subst s; try destruct (decide _); lia).
  do 3 f_equal. subst s. destruct (decide (size = 65536)) as [->|]; [done|]. by rewrite decide_False by lia.
Qed.

Lemma land_128_small x : 0 <= x < 128 -> Z.land x 128 = 0.
Proof.
  intros Hx. apply Z.bits_inj'. intros n Hn. rewrite Z.land_spec, Z.testbit_0_l.
  destruct (decide (n = 7)) as [->|Hn7]; [by rewrite (testbit_high _ 7) by lia|].
  change 128 with (2 ^ 7). rewrite Z.pow2_bits_false by lia. apply andb_false_r.
Qed.

Lemma bindelta_insert fuel pre t post data out :
  cmd_valid (Insert t) ->
  let c := cmd_bytes (Insert t) in
  bindelta_loop (S fuel) (pre ++ c ++ post) data (zlen pre) out =
  bindelta_loop fuel (pre ++ c ++ post) data (zlen (pre ++ c)) (out ++ t).
Proof.
  intros Hc c. subst c. cbn [bindelta_loop cmd_bytes cmd_valid app] in *.
  rewrite decide_True by apply zlen_middle. rewrite getitem_app. cbn [rbind].
  rewrite ord_byte, Z.mod_small by lia. rewrite land_128_small, decide_False by (lia || intros C; done).
  rewrite decide_True by lia. rewrite zlen_app, zlen_cons, Z.add_assoc. do 2 f_equal.
  change (byte (zlen t) :: ?x) with ([byte (zlen t)] ++ x). rewrite (app_assoc pre [_]).
  replace (zlen pre + 1) with (zlen (pre ++ [byte (zlen t)])) by (rewrite zlen_app; done).
  rewrite slice_app_r by (pose proof (zlen_nonneg t); lia).
  rewrite Z.sub_diag. replace (_ + zlen t - _) with (zlen t) by lia.
  by rewrite slice_app_l, slice_full by lia.
Qed.

Lemma bindelta_cmds cmds fuel pre data out :
  Forall cmd_valid cmds -> (length cmds < fuel)%nat ->
  bindelta_loop fuel (pre ++ concat (map cmd_bytes cmds)) data (zlen pre) out =
  Ok (out ++ concat (map (cmd_text data) cmds)).
Proof.
  intros HF. revert fuel pre out. induction HF as [|c cmds Hc HF IH]; intros fuel pre out Hf;
    (destruct fuel as [|fuel]; [cbn in Hf; lia|]).
  - cbn [map concat bindelta_loop]. rewrite !app_nil_r, decide_False by lia. done.
  - cbn [map concat length] in *. rewrite (app_assoc out).
    rewrite <- (IH fuel (pre ++ cmd_bytes c)) by lia. rewrite <- app_assoc.
    destruct c; [by apply bindelta_copy|by apply bindelta_insert].
Qed.

Lemma deltahead_varint h rest : varint h -> deltahead (h ++ rest) = zlen h.
Proof.
  intros (his & lo & -> & HF & Hlo). unfold deltahead. rewrite <- (Z.add_0_l (zlen _)). generalize 0.
  induction HF as [|c his Hc _ IH]; intros i; cbn [app deltahead_loop].
  - by rewrite decide_True.
  - rewrite decide_False, IH, zlen_cons by done. lia.
Qed.

Lemma length_cmds cmds : (length cmds <= length (concat (map cmd_bytes cmds)))%nat.
Proof.
  induction cmds as [|c cmds IH]; [done|]. cbn [map concat length]. rewrite length_app.
  destruct c; cbn [cmd_bytes length]; lia.
Qed.

Lemma slice_after {A} (h rest : list A) : slice (h ++ rest) (zlen h) (zlen (h ++ rest)) = rest.
Proof.
  rewrite slice_tail by (rewrite zlen_app; pose proof (zlen_nonneg h); pose proof (zlen_nonneg rest); lia).
  unfold zlen. by rewrite Nat2Z.id, drop_app_length.
Qed.

(** A git binary delta, two header sizes and a list of copy and insert
    commands in the format of patch-delta.c, is executed to the end: the result
    is the texts of the commands in order. *)
Theorem applybindelta_correct (h1 h2 : bytes) (cmds : list delta_cmd) (data : bytes) :
  varint h1 -> varint h2 -> Forall cmd_valid cmds ->
  applybindelta (h1 ++ h2 ++ concat (map cmd_bytes cmds)) data = Ok (concat (map (cmd_text data) cmds)).
Proof.
  intros H1 H2 HF. unfold applybindelta. rewrite deltahead_varint by done.
  rewrite slice_after, deltahead_varint, slice_after by done.
  apply (bindelta_cmds cmds (S (length (concat (map cmd_bytes cmds)))) [] data []); [done|].
  pose proof (length_cmds cmds). lia.
Qed.

Lemma applybindelta_correct_witness :
  applybindelta ([byte 133; byte 1] ++ [byte 4] ++ concat (map cmd_bytes [Copy 1 3; Insert (bs "!"); Copy 0 65536])) (bs "hello")
  = Ok (concat (map (cmd_text (bs "hello")) [Copy 1 3; Insert (bs "!"); Copy 0 65536])).
Proof.
  apply (applybindelta_correct [byte 133; byte 1] [byte 4]).
  - exists [byte 133], (byte 1). split; [reflexivity|]. split; [repeat constructor; vm_compute; discriminate|reflexivity].
  - exists [], (byte 4). split; [reflexivity|]. split; [constructor|reflexivity].
  - repeat (apply Forall_cons; split; [vm_compute; intuition congruence|]). constructor.
Defined.

(** ** Outcomes *)

(** The errors the code of a binary hunk raises. *)
Lemma getitem_cases {A} (l : list A) i : (exists x, getitem l i = Ok x) \/ getitem l i = Err IndexError.
Proof. unfold getitem. destruct (l !! Z.to_nat i); eauto. Qed.

Lemma operand_cases l cmd bit sh x i :
  (exists x' i', operand l cmd bit sh (x, i) = Ok (x', i') /\ i <= i') \/ operand l cmd bit sh (x, i) = Err IndexError.
Proof.
  unfold operand. destruct (decide _); [|left; eexists _, _; split; [done|lia]].
  destruct (getitem_cases l i) as [[c ->]| ->]; cbn [rbind]; [left; eexists _, _; split; [done|lia]|by right].
Qed.

Ltac operand_step :=
  match goal with
  | |- context [operand ?l ?cmd ?bit ?sh (?x, ?i)] =>
      destruct (operand_cases l cmd bit sh x i) as [(? & ? & -> & ?)| ->]; cbn [rbind]; [|by right]
  end.

Lemma read_operands_cases l cmd i :
  (exists offset size i', read_operands l cmd i = Ok (offset, size, i') /\ i <= i') \/ read_operands l cmd i = Err IndexError.
Proof. unfold read_operands. do 7 operand_step. left. eexists _, _, _. split; [done|lia]. Qed.

Lemma bindelta_loop_outcome fuel l data i out :
  (1 <= fuel)%nat -> zlen l - i < Z.of_nat fuel ->
  (exists t, bindelta_loop fuel l data i out = Ok t) \/
  bindelta_loop fuel l data i out = Err IndexError \/
  bindelta_loop fuel l data i out = Err (PatchError "unexpected delta opcode 0").
Proof.
  revert i out. induction fuel as [|fuel IH]; intros i out H1 Hf; [lia|]. cbn [bindelta_loop].
  destruct (decide (i < zlen l)) as [Hi|]; [|eauto].
  destruct (getitem_cases l i) as [[c ->]| ->]; cbn [rbind]; [|by right; left].
  pose proof (ord_range c). destruct (decide (Z.land (ord c) 128 ≠ 0)).
  - destruct (read_operands_cases l (ord c) (i + 1)) as [(offset & size & i' & -> & Hi')| ->]; cbn [rbind]; [|by right; left].
    apply IH; lia.
  - destruct (decide (ord c ≠ 0)); [apply IH; lia|by right; right].
Qed.

(** [applybindelta] terminates on every input: it gives a text, or it fails
    with the error for a zero opcode, or with an index error on a command whose
    operands are missing. *)
Theorem applybindelta_outcome (binchunk data : bytes) :
  (exists t, applybindelta binchunk data = Ok t) \/
  applybindelta binchunk data = Err IndexError \/
  applybindelta binchunk data = Err (PatchError "unexpected delta opcode 0").
Proof. apply bindelta_loop_outcome; [lia|]. unfold zlen. lia. Qed.

Lemma getline_unread lr h line lr' h' :
  getline lr h = (line, lr', h') -> (unread lr' < unread lr)%nat \/ (unread lr' = 0%nat /\ line = []).
Proof.
  unfold getline, readline, unread. destruct lr as [fp [|l buf]]; cbn [lr_fp lr_buf]; [destruct fp as [|l fp]|];
    intros E; simplify_eq; cbn; [by right|left; lia..].
Qed.

Lemma py_int_cases s : (exists n, py_int s = Ok n) \/ py_int s = Err ValueError.
Proof.
  unfold py_int. destruct (match lstrip_of isspace (rstrip_of isspace s) with [] => _ | _ => _ end) as [sign [|c t]]; [by right|].
  destruct (forallb isdigit (c :: t)); eauto.
Qed.

Definition patch_failure {A} (r : res A) : Prop :=
  (exists m, r = Err (PatchError m)) \/ r = Err ValueError \/ r = Err StructError.

Lemma read_size_outcome fuel lr h :
  (unread lr < fuel)%nat ->
  (exists size delta lr' h', read_size fuel lr h = Ok (size, delta, lr', h') /\ (unread lr' < unread lr)%nat) \/
  patch_failure (read_size fuel lr h).
Proof.
  revert lr h. induction fuel as [|fuel IH]; intros lr h Hf; [lia|]. cbn [read_size].
  destruct (getline lr h) as [[line lr'] h'] eqn:E. apply getline_unread in E as Hu.
  destruct (decide (line = [])) as [->|Hne]; [right; left; eauto|]. destruct Hu as [Hu|[_ ->]]; [|done].
  unfold patch_failure. destruct (startswith line (bs "literal ")); [|destruct (startswith line (bs "delta "))].
  - destruct (py_int_cases (rstrip_of isspace (drop 8 line))) as [[n ->]| ->]; cbn [rbind]; eauto 8.
  - destruct (py_int_cases (rstrip_of isspace (drop 6 line))) as [[n ->]| ->]; cbn [rbind]; eauto 8.
  - destruct (IH lr' h') as [(size & delta & lr2 & h2 & -> & ?)|?]; [lia| |by right].
    left. eexists _, _, _, _. split; [done|lia].
Qed.

Lemma decode_line_outcome line : zlen line > 1 -> (exists t, decode_line line = Ok t) \/ patch_failure (decode_line line).
Proof.
  intros H. unfold decode_line, patch_failure. destruct line as [|c line]; [done|].
  change (getitem (c :: line) 0) with (Ok c). cbn [rbind].
  destruct (b85decode_cases (drop 1 (c :: line))) as [[t ->]|[-> | ->]]; eauto.
Qed.

Lemma read_lines_outcome fuel line lr h dec :
  (unread lr + 1 < fuel)%nat \/ ((1 <= fuel)%nat /\ line = []) ->
  (exists dec' lr' h', read_lines fuel line lr h dec = Ok (dec', lr', h') /\ (unread lr' <= unread lr)%nat) \/
  patch_failure (read_lines fuel line lr h dec).
Proof.
  revert line lr h dec. induction fuel as [|fuel IH]; intros line lr h dec Hf; [lia|]. cbn [read_lines].
  destruct (decide (zlen line > 1)) as [H|H]; [|left; eexists _, _, _; by split].
  destruct Hf as [Hf|[_ ->]]; [|done].
  destruct (decode_line_outcome line H) as [[t ->]|[[m ->]|[-> | ->]]]; cbn [rbind]; [|unfold patch_failure; eauto..].
  destruct (getline lr h) as [[line' lr'] h'] eqn:E. apply getline_unread in E as Hu.
  destruct (IH line' lr' h' (dec ++ [t])) as [(dec2 & lr2 & h2 & -> & ?)|?]; [destruct Hu as [?|[? ->]]; [left|right]; lia || (split; [lia|done])| |by right].
  left. eexists _, _, _. split; [done|lia].
Qed.

(** [binhunk._read] terminates on every input.  It gives a hunk, having
    read lines of the input only; or it fails with a [PatchError], with the
    [ValueError] of a malformed size, with the [struct.error] of a base85 group
    that is too large, or with the error of the decompressor. *)
Theorem read_binhunk_outcome `{Zlib} (lr : linereader) :
  (exists bh lr', read_binhunk lr = Ok (bh, lr') /\ (unread lr' < unread lr)%nat) \/
  patch_failure (read_binhunk lr) \/
  (exists t e, decompress t = Err e /\ read_binhunk lr = Err e).
Proof.
  unfold read_binhunk.
  destruct (read_size_outcome (S (unread lr)) lr [gitbin_header]) as [(size & delta & lr1 & h1 & -> & H1)|[[m ->]|[-> | ->]]];
    [lia| |unfold patch_failure; eauto..]. cbn [rbind].
  destruct (getline lr1 h1) as [[line lr2] h2] eqn:E. apply getline_unread in E as Hu.
  destruct (read_lines_outcome (S (S (unread lr2))) line lr2 h2 []) as [(dec & lr3 & h3 & -> & H3)|[[m ->]|[-> | ->]]];
    [lia| |unfold patch_failure; eauto..]. cbn [rbind].
  destruct (decompress (concat dec)) as [text|e] eqn:Ed; cbn [rbind]; [|right; right; eauto].
  unfold patch_failure. destruct (decide (zlen text ≠ size)); [eauto 8|].
  left. eexists _, _. split; [done|lia].
Qed.
End BinaryPatch.
