(* ===== verification/PatchFile.v ===== *)
(** * Applying hunks to a file ([patchfile] of patch.py)

    The file being patched with its running offset and skew.  The backend that
    stores the result is represented by what is written to it; messages to the
    user are left out. *)

From S2P Require Import Prelude Lines Struct PyFormat Bdiff UnifiedDiff PatchHunk BinaryPatch.

Module PatchFile.
Import UnifiedDiff PatchHunk.

Inductive eolmode := Strict | Crlf | Lf | Auto.

#[global] Instance eolmode_eq_dec : EqDecision eolmode.
Proof. solve_decision. Defined.

(** A hunk of lines or a binary one. *)
Inductive anyhunk :=
  | TextHunk (h : hunk)
  | BinHunk (bh : BinaryPatch.binhunk).

Record patchfile := PatchFile {
  p_eolmode : eolmode;
  p_eol : option bytes;
  p_lines : list bytes;
  p_exists : bool;
  p_missing : bool;
  p_create : bool;
  p_remove : bool;
  p_dirty : bool;
  p_offset : Z;
  p_skew : Z;
  p_rej : list anyhunk;
  p_hunks : Z;
  p_unlinked : bool
}.

Definition crlf : bytes := [cr; newline].

(** [patchfile.__init__] for a text the backend has, [None] when there is none. *)
Definition init (mode : eolmode) (data : option bytes) (exists_ create remove : bool) : patchfile :=
  match data with
  | Some data =>
      let ls := splitnewlines data in
      let eol :=
        match ls with
        | [] => None
        | l :: _ => if ends_crlf l then Some crlf
                    else if bool_decide (last l = Some newline) then Some [newline] else None
        end in
      let ls := if decide (mode = Strict) then ls else normalize ls in
      PatchFile mode eol ls exists_ false create remove false 0 0 [] 0 false
  | None => PatchFile mode None [] false (negb create) create remove false 0 0 [] 0 false
  end.

Definition with_lines (p : patchfile) (ls : list bytes) (offset skew : Z) : patchfile :=
  PatchFile (p_eolmode p) (p_eol p) ls (p_exists p) (p_missing p) (p_create p) (p_remove p) true
    offset skew (p_rej p) (p_hunks p) (p_unlinked p).

Definition reject (p : patchfile) (h : anyhunk) : patchfile :=
  PatchFile (p_eolmode p) (p_eol p) (p_lines p) (p_exists p) (p_missing p) (p_create p) (p_remove p)
    (p_dirty p) (p_offset p) (p_skew p) (p_rej p ++ [h]) (p_hunks p) (p_unlinked p).

Definition unlink (p : patchfile) : patchfile :=
  PatchFile (p_eolmode p) (p_eol p) (p_lines p) (p_exists p) (p_missing p) (p_create p) (p_remove p)
    (p_dirty p) (p_offset p) (p_skew p) (p_rej p) (p_hunks p) true.

Definition count_hunk (p : patchfile) : patchfile :=
  PatchFile (p_eolmode p) (p_eol p) (p_lines p) (p_exists p) (p_missing p) (p_create p) (p_remove p)
    (p_dirty p) (p_offset p) (p_skew p) (p_rej p) (p_hunks p + 1) (p_unlinked p).

(** [l[i:j] = new] *)
Definition slice_assign {A} (l : list A) (i j : Z) (new : list A) : list A :=
  let i := clamp l i in
  let j := Z.max i (clamp l j) in
  slice l 0 i ++ new ++ slice l j (zlen l).

(** The positions of each line, in the order found or last sorted. *)
Notation line_hash := (list (bytes * list Z)).

Fixpoint hash_get (l : bytes) (hash : line_hash) : list Z :=
  match hash with
  | [] => []
  | (k, v) :: hash => if decide (k = l) then v else hash_get l hash
  end.

Fixpoint hash_set (l : bytes) (v : list Z) (hash : line_hash) : line_hash :=
  match hash with
  | [] => [(l, v)]
  | (k, w) :: hash => if decide (k = l) then (k, v) :: hash else (k, w) :: hash_set l v hash
  end.

(** [for x, s in enumerate(self.lines): self.hash.setdefault(s, []).append(x)] *)
Fixpoint build_hash (x : Z) (ls : list bytes) (hash : line_hash) : line_hash :=
  match ls with
  | [] => hash
  | s :: ls => build_hash (x + 1) ls (hash_set s (hash_get s hash ++ [x]) hash)
  end.

(** A stable sort by the distance to [linenum]. *)
Fixpoint insert_by (key : Z -> Z) (x : Z) (l : list Z) : list Z :=
  match l with
  | [] => [x]
  | y :: l => if decide (key x <= key y) then x :: y :: l else y :: insert_by key x l
  end.

Definition sort_by (key : Z -> Z) (l : list Z) : list Z := foldr (insert_by key) [] l.

(** [findlines]: the candidates, sorted in place in the hash. *)
Definition findlines (hash : line_hash) (l : bytes) (linenum : Z) : list Z * line_hash :=
  let cand := hash_get l hash in
  if decide (zlen cand > 1) then
    let cand := sort_by (fun x => Z.abs (x - linenum)) cand in
    (cand, hash_set l cand hash)
  else (cand, hash).

(** [for l in cand]: the first candidate at which the hunk matches. *)
Fixpoint try_candidates (p : patchfile) (old new : list bytes) (orig_start : Z) (cand : list Z) :
    res (option patchfile) :=
  match cand with
  | [] => Ok None
  | l :: cand =>
      let* matches :=
        match old with [] => Ok true | _ => let* r := testhunk old (p_lines p) l in Ok (bool_decide (r = 0)) end in
      if matches : bool then
        Ok (Some (with_lines p (slice_assign (p_lines p) l (l + zlen old) new)
                    (p_offset p + (zlen new - zlen old)) (l - orig_start)))
      else try_candidates p old new orig_start cand
  end.

(** The fuzz attempts, as pairs of [fuzzlen] and [toponly] in order. *)
Fixpoint fuzz_loop (p : patchfile) (h : hunk) (orig_start : Z) (attempts : list (Z * bool))
    (hash : line_hash) : res (option (Z * patchfile)) :=
  match attempts with
  | [] => Ok None
  | (fuzzlen, toponly) :: attempts =>
      let* (old, oldstart, new, newstart) := fuzzit h fuzzlen toponly in
      let oldstart := oldstart + p_offset p + p_skew p in
      let oldstart := Z.min oldstart (zlen (p_lines p)) in
      let '(cand, hash) :=
        match old with
        | o :: _ => findlines hash (drop 1 o) oldstart
        | [] => ([oldstart], hash)
        end in
      let* found := try_candidates p old new orig_start cand in
      match found with
      | Some p' => Ok (Some (fuzzlen, p'))
      | None => fuzz_loop p h orig_start attempts hash
      end
  end.

Definition fuzz_attempts (fuzz : Z) : list (Z * bool) :=
  concat (map (fun f => [(f, true); (f, false)]) (zrange 0 (fuzz + 1))).

(** [apply]; [fuzz] is the configured fuzz factor. *)
Definition apply (fuzz : Z) (p : patchfile) (ah : anyhunk) : res (Z * patchfile) :=
  let ok := match ah with TextHunk h => complete h | BinHunk _ => true end in
  if negb ok then Err (PatchError "bad hunk")
  else
    let p := count_hunk p in
    if p_missing p then Ok (-1, reject p ah)
    else if p_exists p && p_create p then Ok (-1, reject p ah)
    else
      match ah with
      | BinHunk bh =>
          if p_remove p then Ok (0, unlink p)
          else
            let* l := BinaryPatch.new bh (p_lines p) in
            Ok (0, with_lines p l (p_offset p + zlen l) (p_skew p))
      | TextHunk h =>
          let h :=
            if decide (p_eolmode p = Crlf \/ p_eolmode p = Lf \/ (p_eolmode p = Auto /\ is_Some (p_eol p)))
            then getnormalized h else h in
          let* (old, oldstart, new, newstart) := fuzzit h 0 false in
          let oldstart := oldstart + p_offset p in
          let* fits := if decide (p_skew p = 0) then testhunk old (p_lines p) oldstart else Ok (-1) in
          if decide (fits = 0) then
            if p_remove p then Ok (0, unlink p)
            else Ok (0, with_lines p (slice_assign (p_lines p) oldstart (oldstart + zlen old) new)
                          (p_offset p + (zlen new - zlen old)) (p_skew p))
          else
            let* found := fuzz_loop p h oldstart (fuzz_attempts fuzz) (build_hash 0 (p_lines p) []) in
            match found with
            | Some (fuzzlen, p') => Ok (fuzzlen, p')
            | None => Ok (-1, reject p ah)
            end
      end.

(** Apply the hunks of a file one after the other. *)
Fixpoint apply_all (fuzz : Z) (p : patchfile) (hs : list hunk) : res patchfile :=
  match hs with
  | [] => Ok p
  | h :: hs => let* (_, p) := apply fuzz p (TextHunk h) in apply_all fuzz p hs
  end.

(** [writelines]: the text handed to the backend. *)
Definition writelines (p : patchfile) : bytes :=
  let eol :=
    match p_eolmode p with Auto => p_eol p | Crlf => Some crlf | _ => Some [newline] end in
  match eol with
  | Some eol =>
      if decide (p_eolmode p ≠ Strict /\ eol ≠ [newline]) then
        concat (map (fun l => if decide (last l = Some newline) then removelast l ++ eol else l) (p_lines p))
      else concat (p_lines p)
  | None => concat (p_lines p)
  end.
(** ** Matching and replacing a region *)

Lemma zlen_map {A B} (f : A -> B) l : zlen (map f l) = zlen l.
Proof. unfold zlen. by rewrite length_map. Qed.

Lemma pyitem_app {A} (pre : list A) x post : pyitem (pre ++ x :: post) (zlen pre) = Ok x.
Proof.
  pose proof (zlen_nonneg pre). unfold pyitem. destruct (decide (zlen pre < 0)) as [?|_]; [lia|]. rewrite decide_False by lia.
  unfold getitem, zlen. rewrite Nat2Z.id. by rewrite list_lookup_middle.
Qed.

Lemma testhunk_loop_match a (pre post : list bytes) :
  testhunk_loop a (pre ++ map (drop 1) a ++ post) (zlen pre) = Ok 0.
Proof.
  revert pre. induction a as [|x a IH]; intros pre; [done|]. cbn [testhunk_loop map app].
  rewrite pyitem_app. cbn [rbind]. rewrite decide_False by (by intros []).
  specialize (IH (pre ++ [drop 1 x])). rewrite <- (assoc_L (++)) in IH. cbn [app] in IH.
  rewrite zlen_app in IH. exact IH.
Qed.

Lemma testhunk_match a (pre post : list bytes) :
  testhunk a (pre ++ map (drop 1) a ++ post) (zlen pre) = Ok 0.
Proof.
  unfold testhunk. rewrite decide_False; [apply testhunk_loop_match|].
  rewrite !zlen_app, zlen_map. pose proof (zlen_nonneg post). lia.
Qed.

Lemma slice_assign_app {A} (pre mid post new : list A) :
  slice_assign (pre ++ mid ++ post) (zlen pre) (zlen pre + zlen mid) new = pre ++ new ++ post.
Proof.
  pose proof (zlen_nonneg pre). pose proof (zlen_nonneg mid). pose proof (zlen_nonneg post).
  unfold slice_assign. rewrite !clamp_in by (rewrite !zlen_app; lia).
  rewrite Z.max_r by lia. rewrite slice_app_l by lia. rewrite slice_full. do 2 f_equal.
  rewrite (assoc_L (++)). rewrite slice_app_r by (rewrite zlen_app; lia).
  rewrite !zlen_app. rewrite Z.sub_diag. replace (zlen pre + zlen mid + zlen post - (zlen pre + zlen mid)) with (zlen post) by lia.
  apply slice_full.
Qed.

(** A file in the middle of being patched, on which hunks apply at their place. *)
Definition ready (p : patchfile) : Prop :=
  p_eolmode p = Strict /\ p_missing p = false /\ p_create p = false /\ p_remove p = false /\ p_skew p = 0.

(** A hunk that was read back applies at once where its change stands. *)
Lemma apply_hunk_of fuzz p n l1 l2 e pre post :
  ready p -> edit_ok l1 l2 e -> p_lines p = pre ++ old_of (e_body e) ++ post ->
  e_a e + p_offset p = zlen pre ->
  exists p', apply fuzz p (TextHunk (hunk_of n e)) = Ok (0, p') /\ ready p' /\
    p_lines p' = pre ++ new_of (e_body e) ++ post /\
    p_offset p' = p_offset p + (e_blen e - e_alen e) /\ p_rej p' = p_rej p.
Proof.
  intros (R1 & R2 & R3 & R4 & R5) Hok Hl Hoff.
  destruct (edit_range e) as [[[sa la] sb] lb] eqn:Er.
  destruct (edit_range_nonneg _ _ _ _ _ _ _ Hok Er) as (? & ? & ? & ? & Ela & Elb).
  assert (la = e_alen e /\ lb = e_blen e) as [Eal Ebl] by (unfold edit_range in Er; by injection Er as _ <- _ <-).
  assert (hunk_of n e = PHunk n (hunk_header (sa, la, sb, lb) (e_func e))
    (lines_of (hunk_header (sa, la, sb, lb) (e_func e)) (e_body e)) sa la sb lb) as -> by (unfold hunk_of; by rewrite Er).
  unfold apply. set (h := PHunk _ _ _ _ _ _ _).
  assert (complete h = true) as ->.
  { unfold complete, h. cbn [lines lena lenb lines_of hl_a hl_b]. rewrite zlen_a_of.
    by rewrite !bool_decide_true by done. }
  cbn [negb count_hunk p_missing p_exists p_create p_eolmode p_eol p_skew p_lines p_offset p_remove].
  rewrite R1, R2, R3, R4, R5, andb_false_r. rewrite decide_False by naive_solver.
  unfold fuzzit, fuzz_context, h. cbn [lines lines_of hl_a hl_b starta startb lena lenb].
  pose proof (zlen_nonneg (a_of (e_body e))). rewrite Z.min_l by lia. rewrite decide_False by lia. cbn [rbind].
  assert ((if decide (la ≠ 0 /\ sa + 0 > 0) then sa + 0 - 1 else sa + 0) = e_a e) as ->.
  { destruct Hok as (? & _). unfold edit_range in Er. rewrite <- Eal in Er. injection Er as <- _ _.
    repeat case_decide; lia. }
  rewrite Hoff, Hl. rewrite (decide_True (P := 0 = 0)) by done.
  rewrite <- a_of_old, testhunk_match. cbn [rbind]. rewrite decide_True by done.
  eexists. split; [done|]. unfold ready, with_lines. cbn. split_and!; auto.
  - rewrite <- (zlen_map (drop 1) (a_of (e_body e))). apply slice_assign_app.
  - rewrite zlen_a_of, <- Ela, <- Elb, Eal, Ebl. done.
Qed.

(** Applying a chain of changes walks through both texts. *)
Lemma apply_chain fuzz l1 l2 es hs p q pf p' q' :
  chain l1 l2 p q es p' q' -> Forall2 (fun e h => exists n, h = hunk_of n e) es hs ->
  0 <= p -> 0 <= q -> ready pf ->
  p_lines pf = slice l2 0 q ++ slice l1 p (zlen l1) -> p_offset pf = q - p -> q <= zlen l2 ->
  exists pf', apply_all fuzz pf hs = Ok pf' /\ ready pf' /\ p_rej pf' = p_rej pf /\
    p_lines pf' = slice l2 0 q' ++ slice l1 p' (zlen l1) /\ 0 <= p' /\ 0 <= q'.
Proof.
  intros Hc HF. revert p q pf Hc. induction HF as [|e h es hs [n ->] _ IH]; intros p q pf; cbn [chain apply_all].
  { intros [-> ->] Hp Hq Hr Hl _ _. by exists pf. }
  intros (Hok & (G1 & G2 & G3) & Hc) Hp Hq Hr Hl Ho Hle.
  pose proof Hok as (A1 & A2 & A3 & B1 & B2 & B3 & _ & Eo & En).
  destruct (apply_hunk_of fuzz pf n l1 l2 e (slice l2 0 (e_b e)) (slice l1 (e_a e + e_alen e) (zlen l1)))
    as (pf1 & E & Hr1 & Hl1 & Ho1 & Hrej); auto.
  { rewrite Hl, Eo. rewrite (slice_app l1 p (e_a e)), (slice_app l1 (e_a e) (e_a e + e_alen e)) by lia.
    rewrite G3. rewrite (assoc_L (++)), <- (slice_app l2 0 q (e_b e)) by lia. done. }
  { rewrite zlen_slice by lia. lia. }
  rewrite E. cbn [rbind].
  destruct (IH (e_a e + e_alen e) (e_b e + e_blen e) pf1 Hc) as (pf' & -> & Hr' & Hrej' & Hl' & ?);
    [lia|lia|done| |lia|lia|].
  { rewrite Hl1, En. rewrite (assoc_L (++)), <- slice_app by lia. done. }
  exists pf'. rewrite Hrej'. done.
Qed.
(** ** From a diff to the new text *)

(** A line that survives the newline marker. *)
Definition safe (l : bytes) : Prop := full l \/ last l ≠ Some cr.

Lemma safe_lines t : last t ≠ Some cr -> Forall safe (splitnewlines t).
Proof.
  intros Hcr. destruct (decide (t = [])) as [->|Ht]; [constructor|].
  destruct (text_lines t Ht) as (ls & z & E & Hls & Hne & _).
  pose proof (splitnewlines_concat t) as Hc. rewrite E in *.
  apply Forall_app in Hne as [_ [Hz _]%Forall_cons]. apply Forall_app. split.
  - eapply Forall_impl; [exact Hls|]. intros l Hl. by left.
  - apply Forall_singleton. right. rewrite <- (last_concat_full ls z Hz), Hc. done.
Qed.

Lemma edit_good l1 l2 e : Forall safe l1 -> Forall safe l2 -> edit_ok l1 l2 e -> Forall good (e_body e).
Proof.
  intros H1 H2 (_ & _ & _ & _ & _ & _ & HF & Ho & Hn). apply Forall_forall. intros x Hx.
  rewrite Forall_forall in HF. pose proof (HF x Hx) as Ht. split; [done|].
  destruct Ht as (c & r & -> & Hc & Hr).
  assert (safe r) as Hs.
  { destruct (decide (c ∈ [" "; "-"]%char)) as [Hm|Hm].
    - apply (Forall_slice _ _ (e_a e) (e_a e + e_alen e)) in H1. rewrite <- Ho in H1. rewrite Forall_forall in H1.
      apply H1. by apply (elem_of_side _ _ c).
    - apply (Forall_slice _ _ (e_b e) (e_b e + e_blen e)) in H2. rewrite <- Hn in H2. rewrite Forall_forall in H2.
      apply H2. apply (elem_of_side _ _ c); [done|]. set_solver. }
  destruct Hs as [?|Hl]; [left; by apply tagged_full|right]. by destruct r.
Qed.

Lemma chain_Forall l1 l2 p q es p' q' : chain l1 l2 p q es p' q' -> Forall (edit_ok l1 l2) es.
Proof. revert p q. induction es as [|e es IH]; intros p q; cbn [chain]; [constructor|]. intros (? & _ & ?). eauto. Qed.

(** The hunk of a file that appears or disappears is a change like any other. *)
Lemma whole_file_spec t sign r header :
  t ≠ [] -> sign ∈ [" "; "-"; "+"]%char ->
  whole_file t sign r header = Ok (Some r, header :: enc_all (map (cons sign) (splitnewlines t))).
Proof.
  intros Ht Hs. destruct (text_lines t Ht) as (ls & z & E & Hls & Hne & Hnl). unfold whole_file. rewrite Hnl, E.
  cbn [rbind]. rewrite map_app. cbn [map]. apply Forall_app in Hne as [Hnls [Hz _]%Forall_cons].
  rewrite app_comm_cons, last_snoc, removelast_last. unfold enc_all. rewrite map_app, concat_app.
  assert (concat (map (enc [" "; "-"; "+"]%char) (map (cons sign) ls)) = map (cons sign) ls) as ->.
  { rewrite <- (concat_enc_nil (map (cons sign) ls)) at 2. apply enc_agree, Forall_map.
    rewrite Forall_forall in Hls, Hnls |- *. intros l Hl. left. apply tagged_full; auto. }
  assert (last (sign :: z) = last z) as El by (by destruct z). cbn [map concat enc]. rewrite El, app_nil_r.
  destruct (bool_decide (last z = Some newline)) eqn:Ez; cbn [negb].
  - apply bool_decide_eq_true in Ez. rewrite decide_False by (intros [_ ?]; done). done.
  - apply bool_decide_eq_false in Ez. rewrite decide_True by done. done.
Qed.

Lemma whole_edit_ok t (add : bool) :
  t ≠ [] ->
  let l := splitnewlines t in
  let e := if add then Edit 0 0 0 (zlen l) (map (cons "+"%char) l) []
           else Edit 0 (zlen l) 0 0 (map (cons "-"%char) l) [] in
  edit_range e = (if add then (0, 0, 1, zlen l) else (1, zlen l, 0, 0)) /\
  (if add then diff_of [] l [e] else diff_of l [] [e]).
Proof.
  intros Ht l e.
  assert (0 < zlen l) as Hn.
  { destruct (text_lines t Ht) as (ls & z & E & _). unfold l. rewrite E, zlen_app. change (zlen [z]) with 1.
    pose proof (zlen_nonneg ls). lia. }
  pose proof (nonempty_lines t Ht) as Hne. fold l in Hne.
  assert (gap [] [] 0 0 0 0) as Hg by (split_and!; done || lia).
  split; [unfold e, edit_range; destruct add; cbn [e_a e_alen e_b e_blen]; repeat case_decide; done || lia|].
  destruct add; [exists 0, (zlen l)|exists (zlen l), 0]; unfold e; cbn [chain e_a e_alen e_b e_blen];
    rewrite ?Z.add_0_l; (split; [|split; [lia|split; [lia|]]]).
  2, 4: change (zlen (@nil bytes)) with 0; split_and!; [lia|lia|by rewrite !slice_nil by lia].
  all: split; [|split; [|done]]; [|split_and!; [lia|lia|by rewrite !slice_nil by lia]].
  all: unfold edit_ok; change (zlen (@nil bytes)) with 0; cbn [e_a e_alen e_b e_blen e_body]; rewrite ?Z.add_0_l.
  all: split_and!; try lia; try done; try (apply tagged_context; [set_solver|done]).
  all: unfold old_of, new_of; rewrite side_map, ?slice_full; try rewrite slice_nil by lia.
  all: first [by rewrite decide_True by set_solver | by rewrite decide_False by set_solver].
Qed.

Section roundtrip.
Context `{!LineMatcher} (sha1hex : bytes -> bytes).

(** Whether the texts are empty or not, the hunks are a chain of changes. *)
Lemma unidiff_chain a ad b bd fn1 fn2 opts check :
  plain opts -> text opts = true \/ check = false \/ (binary (Some a) = false /\ binary (Some b) = false) ->
  exists headers es,
    unidiff sha1hex (Some a) ad (Some b) bd fn1 fn2 opts check
    = Ok (headers, map (fun e => (Some (edit_range e), (print_edit e).2)) es) /\
    diff_of (splitnewlines a) (splitnewlines b) es.
Proof.
  intros Hp Hbin. unfold unidiff.
  assert ("+"%char ∈ [" "; "-"; "+"]%char /\ "-"%char ∈ [" "; "-"; "+"]%char) as [Hplus Hminus] by set_solver.
  assert (negb (text opts) && check && (binary (Some a) || binary (Some b)) = false) as ->.
  { destruct Hbin as [->|[->|[-> ->]]]; [done|by rewrite andb_false_r|by rewrite andb_false_r]. }
  destruct (decide (a = [])) as [->|Ha], (decide (b = [])) as [->|Hb].
  - exists [], []. split; [done|]. exists 0, 0. done.
  - destruct b as [|c b']; [done|]. cbn [empty andb]. set (b := c :: b') in *.
    rewrite whole_file_spec by done. cbn [rbind].
    destruct (whole_edit_ok b true Hb) as [Er Hd]. eexists _, [_]. split; [|exact Hd].
    cbn [map print_edit snd]. rewrite Er. done.
  - destruct a as [|c a']; [done|]. cbn [empty andb]. set (a := c :: a') in *.
    rewrite whole_file_spec by done. cbn [rbind].
    destruct (whole_edit_ok a false Ha) as [Er Hd]. eexists _, [_]. split; [|exact Hd].
    cbn [map print_edit snd]. rewrite Er. unfold hunk_header. done.
  - destruct a as [|x a']; [done|]. destruct b as [|y b']; [done|]. cbn [empty andb].
    destruct (unidiff_spec (x :: a') (y :: b') opts Hp) as (es & -> & Hd); [done|done|]. cbn [rbind].
    destruct (decide (es = [])) as [->|Hes]; cbn.
    + by exists [], [].
    + rewrite bool_decide_true by done. eexists _, es. split; [|done]. do 2 f_equal.
      rewrite map_map. done.
Qed.

(** [C1] The diff of two texts, read back hunk by hunk and applied to the first
    text, gives the second: for every two texts (empty ones and ones without a
    final newline included) [unidiff] returns hunks, [read_unified_hunk] reads
    every one of them back, [apply] finds each at its place without fuzz, no
    hunk is rejected and the text written is the second one.  The texts must
    not end in a carriage return. *)
Theorem diff_patch_roundtrip (a ad b bd fn1 fn2 : bytes) (opts : diffopts) (check : bool) (fuzz : Z) :
  plain opts -> text opts = true \/ check = false \/ (binary (Some a) = false /\ binary (Some b) = false) ->
  last a ≠ Some cr -> last b ≠ Some cr ->
  exists headers hunks hs pf,
    unidiff sha1hex (Some a) ad (Some b) bd fn1 fn2 opts check = Ok (headers, hunks) /\
    read_hunks (S (length hunks)) 0 (LineReader (concat (map snd hunks)) []) = Ok hs /\
    apply_all fuzz (init Strict (Some a) true false false) hs = Ok pf /\
    p_rej pf = [] /\ writelines pf = b.
Proof.
  intros Hp Hbin Ha Hb.
  destruct (unidiff_chain a ad b bd fn1 fn2 opts check Hp Hbin) as (headers & es & E & p & q & Hch & Hp0 & Hq0 & Hg).
  set (l1 := splitnewlines a) in *. set (l2 := splitnewlines b) in *.
  pose proof (chain_Forall _ _ _ _ _ _ _ Hch) as Hoks.
  destruct (read_hunks_spec l1 l2 (S (length es)) 0 es (LineReader (printed es) [])) as (hs & Er & Hhs); [|by right|lia|].
  { eapply Forall_impl; [exact Hoks|]. intros e He. split; [done|].
    eapply edit_good; [| |exact He]; by apply safe_lines. }
  destruct (apply_chain fuzz l1 l2 es hs 0 0 (init Strict (Some a) true false false) p q Hch Hhs)
    as (pf & Ea & Hr & Hrej & Hl & _); [lia|lia|done| |done|auto with hg|].
  { unfold init. cbn [p_lines]. rewrite decide_True by done. rewrite (slice_nil l2) by lia. cbn [app].
    by rewrite slice_full. }
  eexists headers, _, hs, pf. split; [exact E|]. rewrite length_map, map_map. split; [exact Er|].
  split; [exact Ea|]. split; [exact Hrej|].
  destruct Hr as (Hs & _). unfold writelines. rewrite Hs. rewrite decide_False by (by intros [? _]).
  rewrite Hl. destruct Hg as (G1 & G2 & ->). rewrite <- slice_app by lia. rewrite slice_full.
  apply splitnewlines_concat.
Qed.
End roundtrip.

Lemma diff_patch_roundtrip_witness :
  let _ : LineMatcher := @Bdiff.bdiff_line_matcher Bdiff.prefix_matcher in
  let a := bs "x" ++ [newline] ++ bs "y" in
  let b := bs "x" ++ [newline] ++ bs "z" ++ [newline] in
  exists headers hunks hs pf,
    unidiff (fun t => t) (Some a) [] (Some b) [] (bs "f") (bs "f") defaultopts true = Ok (headers, hunks) /\
    read_hunks (S (length hunks)) 0 (LineReader (concat (map snd hunks)) []) = Ok hs /\
    apply_all 0 (init Strict (Some a) true false false) hs = Ok pf /\
    p_rej pf = [] /\ writelines pf = b.
Proof.
  apply (@diff_patch_roundtrip (@Bdiff.bdiff_line_matcher Bdiff.prefix_matcher) (fun t => t)
    (bs "x" ++ [newline] ++ bs "y") [] (bs "x" ++ [newline] ++ bs "z" ++ [newline]) [] (bs "f") (bs "f")
    defaultopts true 0).
  - unfold plain. cbn. split_and!; reflexivity || lia.
  - right. right. split; vm_compute; reflexivity.
  - vm_compute. discriminate.
  - vm_compute. discriminate.
Defined.

(** A text that ends in a carriage return does not come back: the newline
    marker removes the carriage return with the newline that was added. *)
Lemma roundtrip_drops_cr :
  let _ : LineMatcher := @Bdiff.bdiff_line_matcher Bdiff.prefix_matcher in
  exists headers hunks hs pf,
    unidiff (fun t => t) (Some []) [] (Some (bs "x" ++ [cr])) [] (bs "f") (bs "f") defaultopts true
    = Ok (headers, hunks) /\
    read_hunks (S (length hunks)) 0 (LineReader (concat (map snd hunks)) []) = Ok hs /\
    apply_all 0 (init Strict (Some []) true false false) hs = Ok pf /\
    p_rej pf = [] /\ writelines pf = bs "x".
Proof. eexists _, _, _, _. split_and!; vm_compute; reflexivity. Qed.
(** ** What applying any hunk can do *)

(** The new lines stand where the old ones (tags stripped) were found. *)
Definition replaced (ls old new ls' : list bytes) : Prop :=
  exists l, 0 <= l /\ l + zlen old <= zlen ls /\ slice ls l (l + zlen old) = map (drop 1) old /\
    ls' = slice ls 0 l ++ new ++ slice ls (l + zlen old) (zlen ls).

Lemma testhunk_loop_sound a b i :
  0 <= i <= zlen b -> testhunk_loop a b i = Ok 0 ->
  i + zlen a <= zlen b /\ slice b i (i + zlen a) = map (drop 1) a.
Proof.
  revert i. induction a as [|x a IH]; intros i Hi; cbn [testhunk_loop map].
  { intros _. unfold zlen at 1. rewrite slice_nil by (unfold zlen; simpl; lia). simpl. split; [lia|done]. }
  unfold pyitem. destruct (decide (i < 0)) as [?|_]; [lia|]. rewrite decide_False by lia.
  destruct (getitem b i) as [y|] eqn:Ey; [|done]. cbn [rbind]. case_decide as Hd; [done|]. intros H.
  pose proof (getitem_Ok_range b i y ltac:(lia) Ey). apply IH in H as [H1 H2]; [|lia]. rewrite zlen_cons.
  replace (i + (1 + zlen a)) with (i + 1 + zlen a) by lia. split; [lia|]. pose proof (zlen_nonneg a).
  rewrite (slice_cons b i _ y) by (done || lia). rewrite H2. f_equal. symmetry.
  destruct (decide (drop 1 x = y)); tauto.
Qed.

Lemma testhunk_sound a b i :
  0 <= i -> testhunk a b i = Ok 0 -> i + zlen a <= zlen b /\ slice b i (i + zlen a) = map (drop 1) a.
Proof.
  intros Hi. unfold testhunk. case_decide as Hd; [done|]. pose proof (zlen_nonneg a).
  apply testhunk_loop_sound. lia.
Qed.

Lemma replaced_at ls old new l :
  0 <= l -> l + zlen old <= zlen ls -> slice ls l (l + zlen old) = map (drop 1) old ->
  replaced ls old new (slice_assign ls l (l + zlen old) new).
Proof.
  intros H1 H2 H3. pose proof (zlen_nonneg old). exists l. split_and!; auto. unfold slice_assign.
  rewrite !clamp_in by lia. by rewrite Z.max_r by lia.
Qed.

Lemma replaced_insert ls new l : replaced ls [] new (slice_assign ls l (l + 0) new).
Proof.
  rewrite Z.add_0_r. exists (clamp ls l). pose proof (zlen_nonneg ls).
  assert (0 <= clamp ls l <= zlen ls) as Hc by (unfold clamp; case_decide; lia).
  change (zlen (@nil bytes)) with 0. rewrite Z.add_0_r. split_and!; [lia|lia|by rewrite slice_nil by lia|].
  unfold slice_assign. by rewrite Z.max_id.
Qed.

(** The positions in the hash are those of lines. *)
Definition hash_ok (n : Z) (hash : list (bytes * list Z)) : Prop :=
  Forall (fun '(_, v) => Forall (fun x => 0 <= x < n) v) hash.

Lemma hash_get_ok n l hash : hash_ok n hash -> Forall (fun x => 0 <= x < n) (hash_get l hash).
Proof. induction 1 as [|[k v] hash Hv _ IH]; cbn [hash_get]; [constructor|]. by case_decide. Qed.

Lemma hash_set_ok n l v hash :
  Forall (fun x => 0 <= x < n) v -> hash_ok n hash -> hash_ok n (hash_set l v hash).
Proof.
  intros Hv. induction 1 as [|[k w] hash Hw Hh IH]; cbn [hash_set]; [by repeat constructor|].
  case_decide; constructor; done.
Qed.

Lemma build_hash_ok n x ls hash :
  0 <= x -> x + zlen ls <= n -> hash_ok n hash -> hash_ok n (build_hash x ls hash).
Proof.
  revert x hash. induction ls as [|s ls IH]; intros x hash Hx Hn Hh; cbn [build_hash]; [done|].
  rewrite zlen_cons in Hn. pose proof (zlen_nonneg ls). apply IH; [lia|lia|]. apply hash_set_ok; [|done].
  apply Forall_app. split; [by apply hash_get_ok|]. apply Forall_singleton. lia.
Qed.

Lemma sort_by_Forall (P : Z -> Prop) key l : Forall P l -> Forall P (sort_by key l).
Proof.
  induction 1 as [|x l Hx _ IH]; cbn [sort_by foldr]; [constructor|].
  fold (sort_by key l). clear - Hx IH. induction (sort_by key l) as [|y l' IHl]; cbn [insert_by]; [by repeat constructor|].
  apply Forall_cons in IH as [? ?]. case_decide; repeat constructor; auto.
Qed.

Lemma findlines_ok n hash l linenum cand hash' :
  hash_ok n hash -> findlines hash l linenum = (cand, hash') ->
  Forall (fun x => 0 <= x < n) cand /\ hash_ok n hash'.
Proof.
  intros Hh. unfold findlines. pose proof (hash_get_ok n l hash Hh) as Hg.
  case_decide; intros [= <- <-]; [|done]. pose proof (sort_by_Forall _ (fun x => Z.abs (x - linenum)) _ Hg).
  split; [done|]. by apply hash_set_ok.
Qed.

Lemma try_candidates_sound p old new orig cand p' :
  Forall (fun l => old ≠ [] -> 0 <= l) cand -> try_candidates p old new orig cand = Ok (Some p') ->
  replaced (p_lines p) old new (p_lines p') /\ p_rej p' = p_rej p /\
  p_offset p' = p_offset p + (zlen new - zlen old) /\ p_unlinked p' = p_unlinked p.
Proof.
  induction 1 as [|l cand Hl _ IH]; cbn [try_candidates]; [done|].
  destruct old as [|o old].
  { cbn [rbind]. intros [= <-]. split; [apply replaced_insert|done]. }
  destruct (testhunk (o :: old) (p_lines p) l) as [t|] eqn:Et; [|done]. cbn [rbind].
  case_bool_decide as Hz; [|exact IH]. intros [= <-]. subst t. specialize (Hl ltac:(done)).
  apply testhunk_sound in Et as [H1 H2]; [|done]. split; [|done]. by apply replaced_at.
Qed.

Lemma fuzz_loop_sound p h orig attempts hash r p' :
  hash_ok (zlen (p_lines p)) hash -> fuzz_loop p h orig attempts hash = Ok (Some (r, p')) ->
  exists toponly old os new ns, (r, toponly) ∈ attempts /\ fuzzit h r toponly = Ok (old, os, new, ns) /\
    replaced (p_lines p) old new (p_lines p') /\ p_rej p' = p_rej p /\
    p_offset p' = p_offset p + (zlen new - zlen old) /\ p_unlinked p' = p_unlinked p.
Proof.
  revert hash. induction attempts as [|[f t] attempts IH]; intros hash Hh; cbn [fuzz_loop]; [done|].
  destruct (fuzzit h f t) as [[[[old os] new] ns]|] eqn:Ef; [|done]. cbn [rbind].
  set (start := Z.min _ _).
  destruct (match old with [] => _ | _ => _ end) as [cand hash'] eqn:Ec.
  assert (Forall (fun l => old ≠ [] -> 0 <= l) cand /\ hash_ok (zlen (p_lines p)) hash') as [Hcand Hh'].
  { destruct old as [|o old].
    - injection Ec as <- <-. split; [|done]. by repeat constructor.
    - apply (findlines_ok (zlen (p_lines p))) in Ec as [Hc ?]; [|done]. split; [|done].
      eapply Forall_impl; [exact Hc|]. cbn. lia. }
  destruct (try_candidates p old new orig cand) as [[q|]|] eqn:Et; [| |done]; cbn [rbind].
  - intros [= <- <-]. apply try_candidates_sound in Et; [|done]. exists t, old, os, new, ns.
    split; [by left|]. done.
  - intros H. destruct (IH hash' Hh' H) as (t' & old' & os' & new' & ns' & Hin & Hrest).
    exists t', old', os', new', ns'. split; [by right|done].
Qed.
(** None of the steps fails on a hunk whose lines are not empty. *)
Lemma testhunk_total a b i : 0 <= i -> exists t, testhunk a b i = Ok t.
Proof.
  intros Hi. unfold testhunk. case_decide as Hd; [by eexists|].
  assert (i + zlen a <= zlen b) as Hle by lia. clear Hd. revert i Hi Hle.
  induction a as [|x a IH]; intros i Hi Hle; cbn [testhunk_loop]; [by eexists|].
  rewrite zlen_cons in Hle. pose proof (zlen_nonneg a).
  unfold pyitem. destruct (decide (i < 0)) as [?|_]; [lia|]. rewrite decide_False by lia.
  destruct (getitem_ok b i) as [y ->]; [lia|]. cbn [rbind]. case_decide; [by eexists|]. apply IH; lia.
Qed.

Lemma try_candidates_total p old new orig cand :
  Forall (fun l => old ≠ [] -> 0 <= l) cand -> exists o, try_candidates p old new orig cand = Ok o.
Proof.
  induction 1 as [|l cand Hl _ IH]; cbn [try_candidates]; [by eexists|].
  destruct old as [|o old]; [by eexists|].
  destruct (testhunk_total (o :: old) (p_lines p) l (Hl ltac:(done))) as [t ->]. cbn [rbind].
  case_bool_decide; [by eexists|exact IH].
Qed.

Definition lines_nonempty (h : hunk) : Prop := hunk_nonempty (lines h).

Lemma context_run_total ls : Forall (fun l : bytes => l ≠ []) ls -> exists n, context_run ls = Ok n.
Proof.
  induction 1 as [|[|c l] ls Hl _ [n IH]]; cbn [context_run]; [by eexists|done|].
  assert (getitem (c :: l) 0 = Ok c) as -> by done. cbn [rbind]. case_decide; [|by eexists]. rewrite IH. by eexists.
Qed.

Lemma fuzzit_total h f t : lines_nonempty h -> exists o, fuzzit h f t = Ok o.
Proof.
  intros Hn. unfold fuzzit, fuzz_context. case_decide; [|by eexists].
  assert (Forall (fun l => l ≠ []) (drop 1 (hl_hunk (lines h)))) as Hd by (by apply Forall_drop).
  destruct (context_run_total _ Hd) as [n ->]. cbn [rbind].
  destruct (context_run_total (rev (drop 1 (hl_hunk (lines h))))) as [m Hm]; [by apply Forall_rev|].
  destruct t; [|rewrite Hm]; by eexists.
Qed.

Lemma fuzz_loop_total p h orig attempts hash :
  lines_nonempty h -> hash_ok (zlen (p_lines p)) hash -> exists o, fuzz_loop p h orig attempts hash = Ok o.
Proof.
  intros Hn. revert hash. induction attempts as [|[f t] attempts IH]; intros hash Hh; cbn [fuzz_loop]; [by eexists|].
  destruct (fuzzit_total h f t Hn) as [[[[old os] new] ns] ->]. cbn [rbind]. set (start := Z.min _ _).
  destruct (match old with [] => _ | _ => _ end) as [cand hash'] eqn:Ec.
  assert (Forall (fun l => old ≠ [] -> 0 <= l) cand /\ hash_ok (zlen (p_lines p)) hash') as [Hcand Hh'].
  { destruct old as [|o old].
    - injection Ec as <- <-. split; [|done]. by repeat constructor.
    - apply (findlines_ok (zlen (p_lines p))) in Ec as [Hc ?]; [|done]. split; [|done].
      eapply Forall_impl; [exact Hc|]. cbn. lia. }
  destruct (try_candidates_total p old new orig cand Hcand) as [[q|] ->]; cbn [rbind]; [by eexists|]. by apply IH.
Qed.

(** The hunk with the line endings it is applied with. *)
Definition as_applied (p : patchfile) (h : hunk) : hunk :=
  if decide (p_eolmode p = Crlf \/ p_eolmode p = Lf \/ (p_eolmode p = Auto /\ is_Some (p_eol p))) then getnormalized h else h.

(** The place where the hunk is tried first. *)
Definition place (p : patchfile) (h : hunk) : Z :=
  (if decide (lena h ≠ 0 /\ starta h > 0) then starta h - 1 else starta h) + p_offset p.

(** The outcome of applying a text hunk. *)
Definition outcome (fuzz : Z) (p : patchfile) (h : hunk) (r : Z) (p' : patchfile) : Prop :=
  (r = -1 /\ p_lines p' = p_lines p /\ p_offset p' = p_offset p /\ p_rej p' = p_rej p ++ [TextHunk h] /\ p_unlinked p' = p_unlinked p) \/
  (r = 0 /\ p_remove p = true /\ p_lines p' = p_lines p /\ p_offset p' = p_offset p /\ p_rej p' = p_rej p /\ p_unlinked p' = true) \/
  (0 <= r <= Z.max 0 fuzz /\ p_rej p' = p_rej p /\ p_unlinked p' = p_unlinked p /\
   exists toponly old os new ns, fuzzit (as_applied p h) r toponly = Ok (old, os, new, ns) /\
     replaced (p_lines p) old new (p_lines p') /\
     p_offset p' = p_offset p + (zlen new - zlen old)).

(** A place before the start of the file counts from its end.  When the old side reaches
    the end from there, it is compared with the lines up to the end and then with the
    first ones, and the new side is assigned to the slice that Python takes for the two
    bounds; in a file longer than the old side this slice is empty. *)
Definition wrapped (p : patchfile) (h : hunk) (r : Z) (p' : patchfile) : Prop :=
  let old := hl_a (lines (as_applied p h)) in
  let new := hl_b (lines (as_applied p h)) in
  let n := zlen (p_lines p) in
  old ≠ [] /\ - n <= place p h < 0 /\ 0 <= place p h + zlen old /\ r = 0 /\ p_rej p' = p_rej p /\ p_unlinked p' = p_unlinked p /\
  slice (p_lines p ++ p_lines p) (place p h + n) (place p h + n + zlen old) = map (drop 1) old /\
  p_lines p' = slice_assign (p_lines p) (place p h) (place p h + zlen old) new /\
  p_offset p' = p_offset p + (zlen new - zlen old).

Lemma elem_of_fuzz_attempts fuzz r t : (r, t) ∈ fuzz_attempts fuzz -> 0 <= r <= Z.max 0 fuzz.
Proof.
  unfold fuzz_attempts. rewrite list_elem_of_In, in_concat. intros (l & Hl & Hin).
  apply in_map_iff in Hl as (f & <- & Hf). apply list_elem_of_In, elem_of_zrange in Hf.
  simpl in Hin. destruct Hin as [[= <- <-]|[[= <- <-]|[]]]; lia.
Qed.

Lemma normalize_nil ls : normalize ls = [] <-> ls = [].
Proof. by destruct ls. Qed.

Lemma as_applied_fields p h :
  hl_hunk (lines (as_applied p h)) = hl_hunk (lines h) /\ lena (as_applied p h) = lena h /\ starta (as_applied p h) = starta h /\
  zlen (hl_a (lines (as_applied p h))) = zlen (hl_a (lines h)) /\ zlen (hl_b (lines (as_applied p h))) = zlen (hl_b (lines h)).
Proof. unfold as_applied. case_decide; [|done]. cbn. unfold normalize. by rewrite !zlen_map. Qed.

(** Without fuzz the whole hunk is tried, at its place. *)
Lemma fuzzit_whole p h : exists ns, fuzzit (as_applied p h) 0 false = Ok (hl_a (lines (as_applied p h)), place p h - p_offset p, hl_b (lines (as_applied p h)), ns).
Proof.
  destruct (as_applied_fields p h) as (_ & El & Es & _). unfold fuzzit, fuzz_context. pose proof (zlen_nonneg (hl_a (lines (as_applied p h)))).
  rewrite Z.min_l by lia. rewrite decide_False by lia. cbn [rbind]. rewrite El, Es, !Z.add_0_r. unfold place. rewrite Z.add_simpl_r. by eexists.
Qed.

(** Comparing from a place before the start. *)
Lemma testhunk_loop_wrap a b i : - zlen b <= i -> i + zlen a <= zlen b -> testhunk_loop a b i = testhunk_loop a (b ++ b) (i + zlen b).
Proof.
  revert i. induction a as [|x a IH]; intros i Hi Hl; [done|]. rewrite zlen_cons in Hl. pose proof (zlen_nonneg a). cbn [testhunk_loop].
  assert (pyitem b i = pyitem (b ++ b) (i + zlen b)) as ->.
  { unfold pyitem. rewrite (decide_False (P := i + zlen b < 0)) by lia. rewrite (decide_False (P := i + zlen b < 0)) by lia. unfold getitem. unfold zlen in *.
    destruct (decide (i < 0)).
    - rewrite decide_False by lia. by rewrite lookup_app_l by lia.
    - rewrite decide_False by lia. rewrite lookup_app_r by lia. do 2 f_equal. by replace (Z.to_nat (i + Z.of_nat (length b)) - length b)%nat with (Z.to_nat i) by lia. }
  destruct (pyitem _ _) as [y|]; [|done]. cbn [rbind]. case_decide; [done|]. rewrite IH by lia. f_equal. lia.
Qed.

Lemma testhunk_before a b i : a ≠ [] -> i < 0 ->
  (i < - zlen b /\ testhunk a b i = Err IndexError) \/
  exists t, testhunk a b i = Ok t /\ (t = 0 -> - zlen b <= i /\ slice (b ++ b) (i + zlen b) (i + zlen b + zlen a) = map (drop 1) a).
Proof.
  intros Ha Hi. unfold testhunk. case_decide as Hd; [right; exists (-1); by split; [|lia]|]. destruct (decide (i < - zlen b)) as [Hb|Hb].
  - left. split; [done|]. destruct a as [|x a]; [done|]. cbn [testhunk_loop]. unfold pyitem. rewrite (decide_True (P := i < 0)) by done. by rewrite decide_True by lia.
  - right. rewrite testhunk_loop_wrap by lia.
    assert (testhunk_loop a (b ++ b) (i + zlen b) = testhunk a (b ++ b) (i + zlen b)) as -> by (unfold testhunk; rewrite decide_False; [done|rewrite zlen_app; lia]).
    destruct (testhunk_total a (b ++ b) (i + zlen b)) as [t Et]; [lia|]. exists t. split; [done|]. intros ->. split; [lia|].
    by apply testhunk_sound in Et as [_ ?]; [|lia].
Qed.

(** The old side ends before the end of the file. *)
Lemma replaced_before ls old new i : - zlen ls <= i -> i < 0 -> i + zlen old < 0 ->
  slice (ls ++ ls) (i + zlen ls) (i + zlen ls + zlen old) = map (drop 1) old -> replaced ls old new (slice_assign ls i (i + zlen old) new).
Proof.
  intros Hi Hn Ho. pose proof (zlen_nonneg old). rewrite slice_app_l by lia. intros E.
  assert (slice_assign ls i (i + zlen old) new = slice_assign ls (i + zlen ls) (i + zlen ls + zlen old) new) as ->.
  { unfold slice_assign, clamp. rewrite (decide_True (P := i < 0)) by done. rewrite (decide_True (P := i + zlen old < 0)) by done.
    rewrite !decide_False by lia. rewrite !Z.min_l by lia. rewrite !Z.max_r by lia. do 3 f_equal; lia. }
  apply replaced_at; [lia|lia|done].
Qed.

(** The first try. *)
Lemma first_try p h : let h' := as_applied p h in
  (hl_a (lines h') ≠ [] /\ place p h < - zlen (p_lines p) /\ testhunk (hl_a (lines h')) (p_lines p) (place p h) = Err IndexError) \/
  exists t, testhunk (hl_a (lines h')) (p_lines p) (place p h) = Ok t /\
    forall ls', t = 0 -> ls' = slice_assign (p_lines p) (place p h) (place p h + zlen (hl_a (lines h'))) (hl_b (lines h')) ->
      replaced (p_lines p) (hl_a (lines h')) (hl_b (lines h')) ls' \/
      (hl_a (lines h') ≠ [] /\ - zlen (p_lines p) <= place p h < 0 /\ 0 <= place p h + zlen (hl_a (lines h')) /\
       slice (p_lines p ++ p_lines p) (place p h + zlen (p_lines p)) (place p h + zlen (p_lines p) + zlen (hl_a (lines h'))) = map (drop 1) (hl_a (lines h'))).
Proof.
  cbv zeta. set (old := hl_a _). set (i := place p h). clearbody i old. destruct (decide (old = [])) as [->|Ho].
  - right. unfold testhunk. case_decide; eexists; (split; [done|]); intros ls' Ht ->; [lia|]. left. apply replaced_insert.
  - destruct (decide (i < 0)) as [Hi|Hi].
    + destruct (testhunk_before old (p_lines p) i Ho Hi) as [[? ?]|(t & Et & Ht)]; [by left|]. right. exists t. split; [done|].
      intros ls' H0 ->. destruct (Ht H0) as [Hb E]. destruct (decide (0 <= i + zlen old)) as [Hw|Hw]; [right; by split_and!|]. left.
      apply replaced_before; [done|lia|lia|done].
    + right. destruct (testhunk_total old (p_lines p) i) as [t Et]; [lia|]. exists t. split; [done|]. intros ls' -> ->. left.
      apply testhunk_sound in Et as [? ?]; [|lia]. apply replaced_at; [lia|done..].
Qed.

Lemma apply_total (fuzz : Z) (p : patchfile) (h : hunk) : complete h = true -> lines_nonempty h ->
  (exists r p', apply fuzz p (TextHunk h) = Ok (r, p') /\ (outcome fuzz p h r p' \/ wrapped p h r p')) \/
  (hl_a (lines (as_applied p h)) ≠ [] /\ place p h < - zlen (p_lines p) /\ apply fuzz p (TextHunk h) = Err IndexError).
Proof.
  intros Hc Hn. unfold apply. rewrite Hc. cbn [negb count_hunk p_missing p_exists p_create].
  destruct (p_missing p); [left; eexists _, _; split; [done|]; by left; left|].
  destruct (p_exists p && p_create p); [left; eexists _, _; split; [done|]; by left; left|].
  cbn [count_hunk p_eolmode p_eol p_offset p_skew p_lines p_remove]. fold (as_applied p h).
  destruct (fuzzit_whole p h) as (ns & E0). pose proof E0 as E0'. rewrite E0. cbn [rbind]. replace (place p h - p_offset p + p_offset p) with (place p h) by lia.
  assert (lines_nonempty (as_applied p h)) as Hn' by (unfold lines_nonempty, hunk_nonempty in *; destruct (as_applied_fields p h) as (-> & _); exact Hn).
  assert (forall start, exists r p', (let* found := fuzz_loop (count_hunk p) (as_applied p h) start (fuzz_attempts fuzz) (build_hash 0 (p_lines p) []) in
      match found with Some (fuzzlen, p') => Ok (fuzzlen, p') | None => Ok (-1, reject (count_hunk p) (TextHunk h)) end) = Ok (r, p') /\ outcome fuzz p h r p') as Hloop.
  { intros start. assert (hash_ok (zlen (p_lines p)) (build_hash 0 (p_lines p) [])) as Hh by (apply build_hash_ok; [lia|lia|constructor]).
    destruct (fuzz_loop_total (count_hunk p) (as_applied p h) start (fuzz_attempts fuzz) (build_hash 0 (p_lines p) []) Hn' Hh) as [[[r q]|] E].
    - rewrite E. cbn [rbind]. exists r, q. split; [done|].
      apply fuzz_loop_sound in E as (t' & old & os & new & ns' & Hin & Hf & Hrep & Hrej & Hoff & Hu); [|done].
      right. right. split; [by eapply elem_of_fuzz_attempts|]. split; [done|]. split; [done|]. by exists t', old, os, new, ns'.
    - rewrite E. cbn [rbind]. eexists _, _. split; [done|]. by left. }
  destruct (decide (p_skew p = 0)) as [Hsk|Hsk].
  2:{ cbn [rbind]. rewrite decide_False by lia. destruct (Hloop (place p h)) as (r & p' & E & Ho). left. exists r, p'. split; [exact E|by left]. }
  destruct (first_try p h) as [(Ho & Hp & Et)|(t & Et & Ht)]; rewrite Et; cbn [rbind]; [by right|]. left.
  destruct (decide (t = 0)) as [Ht0|Ht0].
  - destruct (p_remove p) eqn:Er; eexists _, _; (split; [done|]); [left; right; by left|].
    destruct (Ht _ Ht0 eq_refl) as [Hrep|(H1 & [? ?] & H2 & H3)]; [left; right; right|right].
    + split; [lia|]. split; [done|]. split; [done|]. eexists false, _, _, _, _. by split.
    + unfold wrapped. by split_and!.
  - destruct (Hloop (place p h)) as (r & p' & E & Ho). exists r, p'. split; [exact E|by left].
Qed.

(** [C39] Applying a unified hunk that was read from a patch, to any file in any mode of
    line endings: a hunk that is not complete is an error; for a complete one [apply]
    returns and does one of three things: the hunk is rejected and the file unchanged,
    the file is removed as the patch asks, or one region that equals the old side of the
    hunk (with at most the configured fuzz trimmed) is replaced by its new side and
    nothing else is touched.  There is one exception, when earlier hunks have moved the
    place of the hunk before the start of the file: the place is then counted from the
    end, and an old side that reaches the end is compared on from the first line and not
    taken away ([wrapped]); when the place is before the start even so, an [IndexError]
    is raised. *)
Theorem apply_outcome (fuzz : Z) (p : patchfile) (desc : bytes) (num : Z) (lr lr' : linereader) (h : hunk) :
  read_unified_hunk desc num lr = Ok (h, lr') ->
  if complete h then
    (exists r p', apply fuzz p (TextHunk h) = Ok (r, p') /\ (outcome fuzz p h r p' \/ wrapped p h r p')) \/
    (hl_a (lines (as_applied p h)) ≠ [] /\ place p h < - zlen (p_lines p) /\ apply fuzz p (TextHunk h) = Err IndexError)
  else apply fuzz p (TextHunk h) = Err (PatchError "bad hunk").
Proof.
  intros Hr. destruct (complete h) eqn:Hc; [|unfold apply; by rewrite Hc]. apply apply_total; [done|].
  by eapply read_unified_hunk_nonempty.
Qed.

Definition sample_hunk : linereader :=
  let nl s := bs s ++ [newline] in LineReader [nl " a"; nl "-b"; nl "+x"] [].

Lemma apply_outcome_witness :
  let nl s := bs s ++ [newline] in
  let p := init Auto (Some (nl "new" ++ bs "a" ++ crlf ++ nl "b")) true false false in
  exists h lr', read_unified_hunk (nl "@@ -1,2 +1,2 @@") 1 sample_hunk = Ok (h, lr') /\ complete h = true /\
  ((exists r p', apply 2 p (TextHunk h) = Ok (r, p') /\ (outcome 2 p h r p' \/ wrapped p h r p')) \/
   (hl_a (lines (as_applied p h)) ≠ [] /\ place p h < - zlen (p_lines p) /\ apply 2 p (TextHunk h) = Err IndexError)) /\
  exists p', apply 2 p (TextHunk h) = Ok (0, p') /\ writelines p' = nl "new" ++ nl "a" ++ nl "x".
Proof.
  intros nl p. eexists _, _. split; [vm_compute; reflexivity|]. split; [vm_compute; reflexivity|]. split.
  - match goal with |- context [TextHunk ?h] => refine (apply_outcome 2 p (nl "@@ -1,2 +1,2 @@") 1 sample_hunk _ h _) end. vm_compute. reflexivity.
  - eexists. split; vm_compute; reflexivity.
Defined.

(** ** Hunks in order *)

(** Each hunk that has an old side starts after as many lines as the ones before take. *)
Fixpoint in_order (n : Z) (hs : list hunk) : Prop :=
  match hs with
  | [] => True
  | h :: hs => (lena h ≠ 0 -> n < starta h) /\ complete h = true /\ lines_nonempty h /\ in_order (n + lena h) hs
  end.

Lemma fuzzit_old h f t old os new ns : fuzzit h f t = Ok (old, os, new, ns) -> zlen old <= zlen (hl_a (lines h)).
Proof.
  unfold fuzzit. intros ([[old' new'] top] & H & [= <- _ _ _])%rbind_Ok. unfold fuzz_context in H. case_decide; [|injection H as <- _ _; lia].
  apply rbind_Ok in H as (t1 & _ & (b1 & _ & [= <- _ _])%rbind_Ok). unfold slice, zlen. rewrite length_take, length_drop. lia.
Qed.

Lemma outcome_offset fuzz p h r p' : outcome fuzz p h r p' -> p_offset p - zlen (hl_a (lines h)) <= p_offset p'.
Proof.
  pose proof (zlen_nonneg (hl_a (lines h))). intros [(_ & _ & -> & _)|[(_ & _ & _ & -> & _)|(_ & _ & _ & t & old & os & new & ns & Hf & _ & ->)]]; [lia..|].
  apply fuzzit_old in Hf. destruct (as_applied_fields p h) as (_ & _ & _ & E & _). rewrite E in Hf. pose proof (zlen_nonneg new). lia.
Qed.

(** The outcomes of hunks that are applied one after the other. *)
Inductive outcomes (fuzz : Z) : patchfile -> list hunk -> patchfile -> Prop :=
  | outcomes_nil p : outcomes fuzz p [] p
  | outcomes_cons p h hs r p1 p' : outcome fuzz p h r p1 -> outcomes fuzz p1 hs p' -> outcomes fuzz p (h :: hs) p'.

(** Hunks in order are never applied before the start of the file: all of them have one
    of the three outcomes. *)
Theorem apply_in_order (fuzz n : Z) (p : patchfile) (hs : list hunk) :
  in_order n hs -> - n <= p_offset p -> exists p', apply_all fuzz p hs = Ok p' /\ outcomes fuzz p hs p'.
Proof.
  revert n p. induction hs as [|h hs IH]; intros n p; cbn [in_order apply_all]; [intros _ _; exists p; split; [done|constructor]|].
  intros (Ho & Hc & Hn & Hs) Hp. pose proof Hc as Hc'. unfold complete in Hc'. apply andb_true_iff in Hc' as [Ha%bool_decide_eq_true _].
  assert (hl_a (lines (as_applied p h)) ≠ [] -> 0 <= place p h) as Hplace.
  { intros Hne. destruct (as_applied_fields p h) as (_ & _ & _ & E & _). assert (lena h ≠ 0) as Hl.
    { rewrite <- Ha, <- E. intros H0. apply Hne, nil_length_inv. unfold zlen in H0. lia. }
    specialize (Ho Hl). unfold place. case_decide; [lia|]. lia. }
  destruct (apply_total fuzz p h Hc Hn) as [(r & p1 & E & Hout)|(Hne & Hpl & _)].
  - destruct Hout as [Hout|(Hne & Hneg & _)]; [|specialize (Hplace Hne); lia]. rewrite E. cbn [rbind].
    pose proof (outcome_offset _ _ _ _ _ Hout). destruct (IH (n + lena h) p1) as (p' & E' & Hos); [done|lia|]. exists p'. split; [done|]. by econstructor.
  - specialize (Hplace Hne). pose proof (zlen_nonneg (p_lines p)). lia.
Qed.

(** A patch whose hunks are not in order: the second one takes a line that the first one
    has moved to the front.  It is found at the end of the file, and its new line comes
    there without the old one going away. *)
Example apply_before_start :
  let nl s := bs s ++ [newline] in
  let lr := LineReader [nl "@@ -1,1 +0,0 @@"; nl "-x"; nl "@@ -1,1 +1,1 @@"; nl "-b"; nl "+c"] [] in
  match read_hunks 9 0 lr with
  | Ok hs => match apply_all 2 (init Strict (Some (nl "x" ++ nl "a" ++ nl "b")) true false false) hs with Ok p => Some (p_rej p, writelines p) | _ => None end
  | _ => None
  end = Some ([], nl "a" ++ nl "c" ++ nl "b").
Proof. vm_compute. reflexivity. Qed.
End PatchFile.
