(* ===== verification/TopoSort.v ===== *)
(** * Topological order for graph display ([toposort] of dagop.py)

    Revisions are taken from a heap in descending order and collected in groups
    that wait for their parents; a group is emitted when a revision it waits
    for becomes displayable.  The first group stands for what was emitted: its
    set of parents is the very object the code calls [unblocked]. *)

From S2P Require Import Prelude Dag LazyAncestors SmartSet.

Module TopoSort.

(** A group: the revisions waiting, the parents they wait for. *)
Notation group := (list Z * gset Z)%type.

Record topo := Topo {
  groups : list group;
  pendingheap : list Z;
  pendingset : gset Z;
  emitted : list Z
}.

Section algorithm.
Context (parentsfunc : Z -> list Z).

(** [[i for i, g in enumerate(groups) if rev in g[1]]] *)
Fixpoint matching (rev : Z) (i : nat) (gs : list group) : list nat :=
  match gs with
  | [] => []
  | g :: gs => if decide (rev ∈ g.2) then i :: matching rev (S i) gs else matching rev (S i) gs
  end.

(** Extend the target group by the other matching ones. *)
Definition absorb (gs : list group) (t : group) (i : nat) : group :=
  match gs !! i with Some g => (t.1 ++ g.1, t.2 ∪ g.2) | None => t end.

(** The index of the group that [rev] belongs to, after merging all groups
    that wait for it or creating one. *)
Definition merge_groups (rev : Z) (gs : list group) : nat * list group :=
  match matching rev 0 gs with
  | targetidx :: rest =>
      let t := foldl (absorb gs) (default ([], ∅) (gs !! targetidx)) rest in
      (targetidx, foldr delete (<[targetidx := t]> gs) rest)
  | [] => (length gs, gs ++ [([], {[rev]})])
  end.

(** [parents = [p for p in parentsfunc(rev) if p > node.nullrev]] *)
Definition real_parents (rev : Z) : list Z := filter (fun p => p > nullrev) (parentsfunc rev).

Definition push_parent (st : list Z * gset Z) (p : Z) : list Z * gset Z :=
  let '(heap, pset) := st in
  if decide (p ∈ pset) then st else (heappush (- p) heap, {[p]} ∪ pset).

(** Which group to display, if any. *)
Definition to_display (unblocked : gset Z) (gs : list group) (targetidx : nat) (gr : group) : option nat :=
  if decide (unblocked = ∅) then Some (if decide (1 < length gs)%nat then 1%nat else targetidx)
  else if decide (gr.2 ∩ unblocked = ∅) then None else Some targetidx.

(** Emit a group: its parents become unblocked; it is deleted, or emptied when
    it is the first one. *)
Definition display (i : nat) (gs : list group) (out : list Z) : res (list group * list Z) :=
  match gs !! i, gs with
  | Some gr, g0 :: gs' =>
      let unblocked := g0.2 ∪ gr.2 in
      match i with
      | O => Ok (([], unblocked) :: gs', out ++ gr.1)
      | S j => Ok ((g0.1, unblocked) :: delete j gs', out ++ gr.1)
      end
  | _, _ => Err IndexError
  end.

(** The body of the inner loop for the revision popped. *)
Definition process (rev currentrev : Z) (st : topo) : res topo :=
  let '(targetidx, gs) := merge_groups rev (groups st) in
  match gs !! targetidx with
  | None => Err IndexError
  | Some gr =>
      if decide (rev ∈ gr.2) then
        let parents := real_parents rev in
        let gr := (if decide (rev = currentrev) then gr.1 ++ [rev] else gr.1,
                   (gr.2 ∖ {[rev]}) ∪ list_to_set parents) in
        let gs := <[targetidx := gr]> gs in
        let '(heap, pset) := foldl push_parent (pendingheap st, pendingset st) parents in
        match gs !! 0%nat with
        | None => Err IndexError
        | Some g0 =>
            match to_display g0.2 gs targetidx gr with
            | Some i =>
                let* (gs, out) := display i gs (emitted st) in
                Ok (Topo gs heap pset out)
            | None => Ok (Topo gs heap pset (emitted st))
            end
        end
      else Err KeyError
  end.

(** [while rev != currentrev] *)
Fixpoint pop_loop (fuel : nat) (currentrev : Z) (st : topo) : res topo :=
  match fuel with
  | O => Err OutOfFuel
  | S fuel =>
      match pendingheap st with
      | [] => Err IndexError
      | h :: heap =>
          let rev := - h in
          if decide (rev ∈ pendingset st) then
            let* st := process rev currentrev
                         (Topo (groups st) heap (pendingset st ∖ {[rev]}) (emitted st)) in
            if decide (rev = currentrev) then Ok st else pop_loop fuel currentrev st
          else Err KeyError
      end
  end.

(** The body of [for currentrev in revs].  The revisions popped decrease down to
    [currentrev], which bounds their number. *)
Definition topo_step (currentrev : Z) (st : topo) : res topo :=
  let '(heap, pset) := push_parent (pendingheap st, pendingset st) currentrev in
  let top := match heap with h :: _ => - h | [] => currentrev end in
  pop_loop (S (Z.to_nat (top - currentrev))) currentrev (Topo (groups st) heap pset (emitted st)).

Fixpoint topo_loop (revs : list Z) (st : topo) : res topo :=
  match revs with
  | [] => Ok st
  | r :: revs => let* st := topo_step r st in topo_loop revs st
  end.

(** [toposort]: all that is yielded. *)
Definition toposort (revs : list Z) (firstbranch : list Z) : res (list Z) :=
  let* st := topo_loop (sorted_as true revs) (Topo [([], list_to_set firstbranch)] [] ∅ []) in
  Ok (emitted st ++ concat (map fst (groups st))).
End algorithm.

(** The graph of the docstring. *)
Definition doc_parents (r : Z) : list Z :=
  match r with 1 => [0; -1] | 2 => [0; -1] | 3 => [2; -1] | 4 => [1; -1] | _ => [-1; -1] end.

Example toposort_doc :
  toposort doc_parents [0; 1; 2; 3; 4] [] = Ok [4; 1; 3; 2; 0] /\
  toposort doc_parents [0; 1; 2; 3; 4] [3] = Ok [3; 2; 4; 1; 0] /\
  toposort doc_parents [0; 3; 4] [] = Ok [4; 3; 0].
Proof. vm_compute. done. Qed.

(** Two branches without a common ancestor. *)
Definition two_roots (r : Z) : list Z :=
  match r with 2 => [0; -1] | 3 => [1; -1] | _ => [-1; -1] end.

(** The promise of one branch at a time fails when a branch ends in a root: the
    oldest waiting group is displayed in place of the root, so the branch 3, 1
    is interrupted by 2. *)
Lemma toposort_interleaves_roots : toposort two_roots [0; 1; 2; 3] [] = Ok [3; 2; 1; 0].
Proof. vm_compute. reflexivity. Qed.
(** ** Correctness *)

Section correctness.
Context (pfunc : Z -> list Z) `{!RevDag pfunc}.

(** No revision comes after one of its ancestors. *)
Definition topo_order (l : list Z) : Prop := StronglySorted (fun x y => ~ sanc pfunc x y) l.

(** The groups may be emitted in any order. *)
Definition any_order (out : list Z) (ls : list (list Z)) : Prop :=
  forall ls', ls' ≡ₚ ls -> topo_order (out ++ concat ls').

Lemma any_order_perm out ls ls' : ls ≡ₚ ls' -> any_order out ls -> any_order out ls'.
Proof. intros Hp H l Hl. apply H. by rewrite Hl. Qed.

Lemma any_order_emit out l ls : any_order out (l :: ls) -> any_order (out ++ l) ls.
Proof. intros H l' Hl. rewrite <- (assoc_L (++)). apply (H (l :: l')). by rewrite Hl. Qed.

Lemma any_order_merge out ms ls : any_order out (ms ++ ls) -> any_order out (concat ms :: ls).
Proof.
  intros H l Hl. apply Permutation_cons_inv_r in Hl as (l1 & l2 & -> & Hl).
  replace (concat (l1 ++ concat ms :: l2)) with (concat (l1 ++ ms ++ l2)) by (by rewrite !concat_app).
  apply H. rewrite Hl. rewrite !(assoc_L (++)). f_equiv. apply (comm (++)).
Qed.

Lemma elem_of_concat (ls : list (list Z)) x : x ∈ concat ls <-> exists l, l ∈ ls /\ x ∈ l.
Proof. rewrite !list_elem_of_In, in_concat. split; intros (l & ? & ?); exists l; by rewrite !list_elem_of_In in *. Qed.

Lemma any_order_add out l ls r :
  any_order out (l :: ls) ->
  (forall x, x ∈ out ++ concat (l :: ls) -> ~ sanc pfunc x r) ->
  (forall y, y ∈ concat ls -> ~ sanc pfunc r y) ->
  any_order out ((l ++ [r]) :: ls).
Proof.
  intros H H1 H2 ls' Hl. apply Permutation_cons_inv_r in Hl as (l1 & l2 & -> & Hl).
  specialize (H (l1 ++ l :: l2)). rewrite !concat_app in *. cbn [concat] in *.
  assert (l1 ++ l :: l2 ≡ₚ l :: ls) as Hp by (rewrite Hl; symmetry; apply Permutation_middle).
  specialize (H Hp). rewrite !(assoc_L (++)) in *. unfold topo_order in *.
  assert (forall x, x ∈ concat ls <-> x ∈ concat l1 \/ x ∈ concat l2) as Hc.
  { intros x. by rewrite Hl, concat_app, elem_of_app. }
  apply StronglySorted_app in H as (Hf & Ha & Hb). apply StronglySorted_app. split_and!; [| |done].
  - intros x y Hx Hy. apply elem_of_app in Hx as [Hx| ->%list_elem_of_singleton]; [by apply Hf|].
    apply H2, Hc. by right.
  - apply StronglySorted_app. split_and!; [|done|repeat constructor].
    intros x y Hx ->%list_elem_of_singleton. apply H1. rewrite !elem_of_app in *. rewrite Hc. tauto.
Qed.

(** ** Merging groups *)

Notation waits rev := (fun g : group => rev ∈ g.2).

Lemma delete_matching rev (pre post : list group) :
  foldr delete (pre ++ post) (matching rev (length pre) post) = pre ++ filter (fun g => rev ∉ g.2) post.
Proof.
  revert pre. induction post as [|g post IH]; intros pre; [done|]. cbn [matching].
  specialize (IH (pre ++ [g])). rewrite length_app, Nat.add_1_r, <- !(assoc_L (++)) in IH. cbn [app] in IH.
  destruct (decide (rev ∈ g.2)) as [H|H]; cbn [foldr]; rewrite IH.
  - rewrite filter_cons_False by (cbn; tauto). apply delete_middle.
  - by rewrite filter_cons_True.
Qed.

Lemma absorb_matching rev (pre post : list group) (t : group) :
  foldl (absorb (pre ++ post)) t (matching rev (length pre) post) =
  (t.1 ++ concat (map fst (filter (waits rev) post)), t.2 ∪ ⋃ map snd (filter (waits rev) post)).
Proof.
  revert pre t. induction post as [|g post IH]; intros pre t; cbn [matching].
  { cbn. rewrite app_nil_r, (right_id_L ∅ (∪)). by destruct t. }
  specialize (IH (pre ++ [g])). rewrite length_app, Nat.add_1_r, <- !(assoc_L (++)) in IH. cbn [app] in IH.
  destruct (decide (rev ∈ g.2)) as [H|H]; cbn [foldl]; rewrite IH.
  - rewrite filter_cons_True by done. unfold absorb. rewrite list_lookup_middle by done. cbn [fst snd map concat union_list foldr].
    by rewrite <- (assoc_L (++)), <- (assoc_L (∪)).
  - by rewrite filter_cons_False.
Qed.

Lemma matching_none rev i (gs : list group) : matching rev i gs = [] -> Forall (fun g => rev ∉ g.2) gs.
Proof.
  revert i. induction gs as [|g gs IH]; intros i; cbn [matching]; [done|].
  destruct (decide (rev ∈ g.2)); [done|]. intros H. constructor; [done|by eapply IH].
Qed.

Lemma matching_first rev i (gs : list group) n rest :
  matching rev i gs = n :: rest ->
  exists pre t post, gs = pre ++ t :: post /\ n = (i + length pre)%nat /\ rest = matching rev (S n) post /\
    Forall (fun g => rev ∉ g.2) pre /\ rev ∈ t.2.
Proof.
  revert i. induction gs as [|g gs IH]; intros i; cbn [matching]; [done|].
  destruct (decide (rev ∈ g.2)) as [H|H].
  - intros [= <- <-]. exists [], g, gs. cbn. rewrite Nat.add_0_r. done.
  - intros (pre & t & post & -> & -> & -> & Hp & Ht)%IH. exists (g :: pre), t, post. cbn.
    rewrite Nat.add_succ_r. split_and!; [done|done|done|by constructor|done].
Qed.

(** Merging moves the groups that wait for [rev] into one. *)
Lemma merge_groups_spec rev gs i gs' :
  merge_groups rev gs = (i, gs') ->
  exists t ms others,
    gs' !! i = Some t /\ delete i gs' ≡ₚ others /\ gs ≡ₚ ms ++ others /\
    t.1 = concat (map fst ms) /\ rev ∈ t.2 /\ (forall m, m ∈ ms -> m.2 ⊆ t.2) /\
    Forall (fun g => rev ∉ g.2) others.
Proof.
  unfold merge_groups. destruct (matching rev 0 gs) as [|n rest] eqn:E; intros [= <- <-].
  - apply matching_none in E. exists ([], {[rev]}), [], gs. split_and!; try done; try set_solver.
    + by rewrite list_lookup_middle.
    + by rewrite delete_middle, app_nil_r.
  - apply matching_first in E as (pre & t & post & -> & -> & -> & Hpre & Ht). cbn [Nat.add].
    rewrite list_lookup_middle, insert_app_r_alt, Nat.sub_diag by done. cbn [default list_insert].
    pose proof (absorb_matching rev (pre ++ [t]) post t) as Ea.
    rewrite length_app, Nat.add_1_r, <- (assoc_L (++)) in Ea. cbn [app] in Ea. change (id t) with t. rewrite Ea.
    set (t' := (_, _)). pose proof (delete_matching rev (pre ++ [t']) post) as Ed.
    rewrite length_app, Nat.add_1_r, <- !(assoc_L (++)) in Ed. cbn [app] in Ed. change (<[0%nat:=t']> (t :: post)) with (t' :: post). rewrite Ed.
    exists t', (t :: filter (waits rev) post), (pre ++ filter (fun g => rev ∉ g.2) post). split_and!.
    + by rewrite list_lookup_middle.
    + by rewrite delete_middle.
    + cbn [app]. rewrite (assoc_L (++)), (comm (++) (filter _ post) pre), <- (assoc_L (++)), <- Permutation_middle.
      do 2 f_equiv. clear. induction post as [|g post IH]; [done|].
      destruct (decide (rev ∈ g.2)).
      * rewrite (filter_cons_True (waits rev)), (filter_cons_False (fun g => rev ∉ g.2)) by (cbn; tauto). cbn [app]. by rewrite <- IH.
      * rewrite (filter_cons_False (waits rev)), filter_cons_True by done. by rewrite <- Permutation_middle, <- IH.
    + done.
    + cbn. set_solver.
    + intros m [->|Hm]%elem_of_cons; cbn; [set_solver|].
      apply union_subseteq_r'. intros x Hx. apply elem_of_union_list. exists m.2. split; [|done].
      apply list_elem_of_In, in_map, list_elem_of_In, Hm.
    + apply Forall_app. split; [done|]. apply Forall_forall. intros g Hg. by apply list_elem_of_filter in Hg as [? _].
Qed.

(** ** The invariant *)

(** Every ancestor not yet processed is reached through a parent that the group
    waits for and that is pending. *)
Definition covered (pset : gset Z) (hi : Z) (g : group) : Prop :=
  forall d a, d ∈ g.1 -> a < hi -> sanc pfunc a d -> exists b, b ∈ g.2 /\ b ∈ pset /\ anc pfunc a b.

Definition heap_ok (heap : list Z) (pset : gset Z) : Prop :=
  StronglySorted Z.lt heap /\ forall x, x ∈ pset <-> - x ∈ heap.

(** [hi] separates the processed revisions from the others; [done_] are the
    revisions to display among the processed ones. *)
Record inv (hi : Z) (done_ : list Z) (st : topo) : Prop := {
  inv_heap : heap_ok (pendingheap st) (pendingset st);
  inv_range : forall x, x ∈ pendingset st -> 0 <= x < hi;
  inv_groups : groups st ≠ [];
  inv_perm : emitted st ++ concat (map fst (groups st)) ≡ₚ done_;
  inv_done : forall x, x ∈ done_ -> hi <= x;
  inv_order : any_order (emitted st) (map fst (groups st));
  inv_covered : forall g, g ∈ groups st -> covered (pendingset st) hi g
}.

Lemma display_spec i gs out gr pset hi :
  gs !! i = Some gr ->
  any_order out (map fst gs) -> (forall g, g ∈ gs -> covered pset hi g) ->
  exists gs', display i gs out = Ok (gs', out ++ gr.1) /\ gs' ≠ [] /\
    (out ++ gr.1) ++ concat (map fst gs') ≡ₚ out ++ concat (map fst gs) /\
    any_order (out ++ gr.1) (map fst gs') /\ (forall g, g ∈ gs' -> covered pset hi g).
Proof.
  intros Hi Ho Hc. unfold display. rewrite Hi. destruct gs as [|g0 gs]; [done|].
  destruct i as [|j]; cbn in Hi.
  - injection Hi as ->. eexists. split; [done|]. split_and!; [done| | |].
    + cbn. by rewrite (assoc_L (++)).
    + apply any_order_emit in Ho. apply (any_order_merge _ []). exact Ho.
    + intros g [->|Hg]%elem_of_cons; [intros d a []%not_elem_of_nil|]. apply Hc. by right.
  - assert (map fst (g0 :: gs) ≡ₚ gr.1 :: g0.1 :: map fst (delete j gs)) as Hp.
    { cbn [map]. rewrite (perm_swap g0.1 gr.1). f_equiv. change (gr.1 :: map fst (delete j gs)) with (map fst (gr :: delete j gs)).
      apply Permutation_map. by apply delete_Permutation. }
    eexists. split; [done|]. split_and!; [done| | |].
    + rewrite Hp. cbn. by rewrite <- !(assoc_L (++)).
    + cbn [map]. apply any_order_emit. by eapply any_order_perm.
    + intros g [->|Hg]%elem_of_cons.
      * intros d a Hd Ha Hs. destruct (Hc g0 ltac:(by left) d a Hd Ha Hs) as (b & ? & ? & ?).
        exists b. cbn. set_solver.
      * apply Hc. right. rewrite (delete_Permutation gs j gr) by done. by right.
Qed.

Lemma heappush_lt x h : x ∉ h -> StronglySorted Z.lt h -> StronglySorted Z.lt (heappush x h).
Proof.
  intros Hx Hs. apply le_sorted_ascending.
  - apply heappush_sorted. clear Hx. induction Hs as [|y h Hs IH Hy]; constructor; [done|].
    eapply Forall_impl; [exact Hy|]. intros; lia.
  - clear -Hx Hs. apply ascending_NoDup in Hs. induction Hs as [|y h Hy Hs IH]; cbn [heappush]; [by repeat constructor; set_solver|].
    destruct (decide (x <= y)); constructor; try (by constructor); try done.
    + rewrite elem_of_heappush. set_solver.
    + apply IH. set_solver.
Qed.

Lemma push_parent_spec heap pset p heap' pset' :
  push_parent (heap, pset) p = (heap', pset') -> heap_ok heap pset ->
  heap_ok heap' pset' /\ pset' = {[p]} ∪ pset.
Proof.
  unfold push_parent. intros E [Hs Hh]. destruct (decide (p ∈ pset)) as [Hp|Hp]; simplify_eq.
  - split; [done|]. set_solver.
  - split; [|done]. split; [apply heappush_lt; [by rewrite <- Hh|done]|].
    intros x. rewrite elem_of_heappush, elem_of_union, elem_of_singleton, Hh. split; intros [?|?]; [left; lia|by right|left; lia|by right].
Qed.

Lemma push_parents_spec ps heap pset heap' pset' :
  foldl push_parent (heap, pset) ps = (heap', pset') -> heap_ok heap pset ->
  heap_ok heap' pset' /\ pset' = list_to_set ps ∪ pset.
Proof.
  revert heap pset. induction ps as [|p ps IH]; intros heap pset; cbn [foldl].
  - intros [= <- <-] H. split; [done|]. set_solver.
  - destruct (push_parent (heap, pset) p) as [h1 p1] eqn:E. intros E2 H.
    apply push_parent_spec in E as [H1 ->]; [|done]. apply IH in E2 as [H2 ->]; [|done].
    split; [done|]. cbn. set_solver.
Qed.

(** ** One revision *)

Lemma real_parents_spec r p : p ∈ real_parents pfunc r <-> parent pfunc r p.
Proof.
  unfold real_parents, parent. rewrite list_elem_of_filter. unfold nullrev. split; intros [H1 H2]; split; try done; [lia|].
  destruct (parents_below r p H1); unfold nullrev in *; lia.
Qed.

Lemma covered_parent r a b (t2 pset : gset Z) :
  anc pfunc a b -> a < r -> b = r ->
  exists b', b' ∈ (t2 ∖ {[r]}) ∪ list_to_set (real_parents pfunc r) /\
    b' ∈ list_to_set (real_parents pfunc r) ∪ pset /\ anc pfunc a b'.
Proof.
  intros Ha Hlt ->. apply anc_cases in Ha as [->|(p & Hp & Ha)]; [lia|].
  exists p. apply real_parents_spec in Hp. set_solver.
Qed.

(** The facts about a state in which [rev], the largest pending revision, has
    just been popped. *)
Section one_revision.
Context (rev currentrev hi : Z) (dn : list Z) (st : topo).
Hypothesis Hh : heap_ok (pendingheap st) (pendingset st).
Hypothesis Hr : 0 <= rev < hi.
Hypothesis Hps : forall x, x ∈ pendingset st -> 0 <= x < rev.
Hypothesis Hperm : emitted st ++ concat (map fst (groups st)) ≡ₚ dn.
Hypothesis Hdn : forall x, x ∈ dn -> hi <= x.
Hypothesis Hord : any_order (emitted st) (map fst (groups st)).
Hypothesis Hcov : forall g, g ∈ groups st -> covered ({[rev]} ∪ pendingset st) hi g.

Notation pset' := (list_to_set (real_parents pfunc rev) ∪ pendingset st).

(** What a group covers after [rev]. *)
Lemma covered_step (g : group) (bl : gset Z) :
  g ∈ groups st -> (g.2 ∖ {[rev]} ⊆ bl) -> (rev ∈ g.2 -> list_to_set (real_parents pfunc rev) ⊆ bl) ->
  covered pset' rev (g.1, bl).
Proof.
  intros Hg Hbl Hpar d a Hd Ha Hs. cbn [fst snd] in *.
  destruct (Hcov g Hg d a Hd ltac:(lia) Hs) as (b & Hb & Hbp & Hab).
  destruct (decide (b = rev)) as [->|Hne].
  - apply anc_cases in Hab as [->|(p & Hp%real_parents_spec & Hap)]; [lia|].
    exists p. split_and!; [|set_solver|done]. apply (Hpar Hb), elem_of_list_to_set, Hp.
  - exists b. split_and!; [|set_solver|done]. apply Hbl. set_solver.
Qed.

(** A group that does not wait for [rev] has no descendant of it. *)
Lemma unrelated (g : group) y : g ∈ groups st -> rev ∉ g.2 -> y ∈ g.1 -> ~ sanc pfunc rev y.
Proof.
  intros Hg Hn Hy Hs. destruct (Hcov g Hg y rev Hy ltac:(lia) Hs) as (b & Hb & Hbp & Hab).
  apply elem_of_union in Hbp as [->%elem_of_singleton|Hbp]; [done|].
  apply Hps in Hbp. apply anc_le in Hab; [lia|apply _].
Qed.

Lemma elem_of_map_fst (gs : list group) l : l ∈ map fst gs <-> exists g, g ∈ gs /\ g.1 = l.
Proof. rewrite list_elem_of_In, in_map_iff. split; intros (g & H1 & H2); exists g; rewrite ?list_elem_of_In in *; done. Qed.

(** The groups after [rev] was added. *)
Lemma add_rev_spec t ms others :
  groups st ≡ₚ ms ++ others -> t.1 = concat (map fst ms) -> (forall m, m ∈ ms -> m.2 ⊆ t.2) ->
  Forall (fun g => rev ∉ g.2) others ->
  let gr := (if decide (rev = currentrev) then t.1 ++ [rev] else t.1,
             (t.2 ∖ {[rev]}) ∪ list_to_set (real_parents pfunc rev)) in
  any_order (emitted st) (map fst (gr :: others)) /\
  emitted st ++ concat (map fst (gr :: others)) ≡ₚ (if decide (rev = currentrev) then dn ++ [rev] else dn) /\
  (forall g, g ∈ gr :: others -> covered pset' rev g).
Proof.
  intros Eg Et Hsub Hoth gr.
  assert (any_order (emitted st) (t.1 :: map fst others)) as Ho.
  { rewrite Et. apply any_order_merge. rewrite <- map_app. eapply any_order_perm; [|exact Hord]. by apply Permutation_map. }
  assert (emitted st ++ concat (t.1 :: map fst others) ≡ₚ dn) as Hp.
  { rewrite <- Hperm, Eg, Et. cbn [concat]. by rewrite map_app, concat_app. }
  rewrite Forall_forall in Hoth. split_and!.
  - cbn [map]. unfold gr. cbn [fst]. destruct (decide (rev = currentrev)); [|done]. apply any_order_add; [done| |].
    + intros x Hx Hs. rewrite Hp in Hx. apply Hdn in Hx. apply sanc_lt in Hs; [lia|apply _].
    + intros y (l & (g & Hg & <-)%elem_of_map_fst & Hy)%elem_of_concat. apply (unrelated g); [|by apply Hoth|done].
      rewrite Eg. apply elem_of_app. by right.
  - cbn [map concat]. unfold gr. cbn [fst]. destruct (decide (rev = currentrev)); [|done].
    rewrite <- Hp. cbn [concat]. rewrite <- !(assoc_L (++)). do 2 f_equiv. apply (comm (++)).
  - intros g [->|Hg]%elem_of_cons.
    + intros d a Hd Ha Hs. unfold gr in Hd. cbn [fst] in Hd.
      assert (d = rev \/ d ∈ t.1) as [->|Hd'].
      { destruct (decide (rev = currentrev)); [|by right]. apply elem_of_app in Hd as [?| ->%list_elem_of_singleton]; tauto. }
      * apply sanc_cases in Hs as (p & Hp'%real_parents_spec & Hap). exists p. unfold gr. cbn. set_solver.
      * rewrite Et in Hd'. apply elem_of_concat in Hd' as (l & (m & Hm & <-)%elem_of_map_fst & Hd').
        assert (covered pset' rev (m.1, gr.2)) as Hm'; [|exact (Hm' d a Hd' Ha Hs)].
        specialize (Hsub m Hm). apply covered_step; [rewrite Eg; apply elem_of_app; by left|unfold gr; cbn; set_solver..].
    + replace g with (g.1, g.2) by by destruct g. apply covered_step; [rewrite Eg; apply elem_of_app; by right|set_solver|].
      intros C. by destruct (Hoth g Hg).
Qed.

Lemma process_spec :
  exists st', process pfunc rev currentrev st = Ok st' /\ pendingset st' = pset' /\
    inv rev (if decide (rev = currentrev) then dn ++ [rev] else dn) st'.
Proof.
  unfold process. destruct (merge_groups rev (groups st)) as [i gs] eqn:E.
  apply merge_groups_spec in E as (t & ms & others & Ht & Ed & Eg & Et & Hrev & Hsub & Hoth).
  rewrite Ht, decide_True by done.
  destruct (add_rev_spec t ms others Eg Et Hsub Hoth) as (Ho & Hp & Hc). set (gr := (_, _)) in *.
  apply list_elem_of_split_length in Ht as (l1 & l2 & -> & ->). rewrite delete_middle in Ed.
  rewrite insert_app_r_alt, Nat.sub_diag by done. change (<[0%nat:=gr]> (t :: l2)) with (gr :: l2).
  set (gs := l1 ++ gr :: l2). assert (gs ≡ₚ gr :: others) as Egs by (unfold gs; rewrite <- Ed; symmetry; apply Permutation_middle).
  assert (any_order (emitted st) (map fst gs)) as Ho'.
  { eapply any_order_perm; [|exact Ho]. symmetry. by apply Permutation_map. }
  assert (forall g, g ∈ gs -> covered pset' rev g) as Hc' by (intros g Hg; apply Hc; by rewrite <- Egs).
  rewrite <- Egs in Hp.
  destruct (foldl push_parent _ _) as [heap pset] eqn:Epush. apply push_parents_spec in Epush as [Hh' ->]; [|done].
  assert (forall x, x ∈ pset' -> 0 <= x < rev) as Hrange.
  { intros x [Hx%elem_of_list_to_set%real_parents_spec|Hx]%elem_of_union; [|by apply Hps].
    by apply parent_below in Hx. }
  assert (forall x, x ∈ (if decide (rev = currentrev) then dn ++ [rev] else dn) -> rev <= x) as Hdn'.
  { intros x Hx. destruct (decide (rev = currentrev)); [apply elem_of_app in Hx as [Hx| ->%list_elem_of_singleton]|];
      try apply Hdn in Hx; lia. }
  destruct (gs !! 0%nat) as [g0|] eqn:E0; [|unfold gs in E0; by destruct l1].
  destruct (to_display g0.2 gs (length l1) gr) as [j|] eqn:Ej.
  - assert (exists grj, gs !! j = Some grj) as [grj Hj].
    { unfold to_display in Ej. assert (gs !! length l1 = Some gr) as Hl by (unfold gs; by rewrite list_lookup_middle).
      destruct (decide (g0.2 = ∅)); [|destruct (decide (gr.2 ∩ g0.2 = ∅)); [done|injection Ej as <-; by eexists]].
      destruct (decide (1 < length gs)%nat); injection Ej as <-; [by apply lookup_lt_is_Some|by eexists]. }
    destruct (display_spec j gs (emitted st) grj pset' rev Hj Ho' Hc') as (gs' & -> & Hne & Hp' & Ho2 & Hc2).
    cbn [rbind]. eexists. split; [done|]. split; [done|]. split; try done. cbn. by rewrite Hp'.
  - eexists. split; [done|]. split; [done|]. split; try done. cbn. unfold gs. by destruct l1.
Qed.
End one_revision.

(** ** The loops *)

Lemma pop_loop_spec fuel currentrev hi dn st :
  inv hi dn st -> currentrev ∈ pendingset st ->
  (forall x, x ∈ pendingset st -> x - currentrev < Z.of_nat fuel) ->
  exists st', pop_loop pfunc fuel currentrev st = Ok st' /\ inv currentrev (dn ++ [currentrev]) st'.
Proof.
  revert hi st. induction fuel as [|fuel IH]; intros hi st [[Hs Hh] Hr Hg Hp Hd Ho Hc] Hcur Hf.
  { specialize (Hf _ Hcur). lia. }
  cbn [pop_loop]. destruct (pendingheap st) as [|h heap] eqn:Eh.
  { apply Hh in Hcur. by apply not_elem_of_nil in Hcur. }
  apply StronglySorted_cons in Hs as [Hlt Hs]. rewrite Forall_forall in Hlt.
  assert (- h ∈ pendingset st) as Hin by (apply Hh; rewrite Z.opp_involutive; by left).
  rewrite decide_True by done. set (rev := - h) in *.
  assert (forall x, x ∈ pendingset st ∖ {[rev]} -> - x ∈ heap) as Hin2.
  { intros x [Hx Hne]%elem_of_difference. apply Hh, elem_of_cons in Hx as [Hx|Hx]; [|done]. subst rev. set_solver by lia. }
  destruct (process_spec rev currentrev hi dn (Topo (groups st) heap (pendingset st ∖ {[rev]}) (emitted st)))
    as (st' & -> & Eps & Hinv); cbn [groups pendingheap pendingset emitted]; try done.
  - split; [done|]. intros x. split; [apply Hin2|]. intros Hx. apply elem_of_difference. split; [apply Hh; by right|].
    rewrite elem_of_singleton. intros ->. apply Hlt in Hx. subst rev. lia.
  - by apply Hr.
  - intros x Hx. pose proof Hx as [Hx' _]%elem_of_difference. apply Hr in Hx'. apply Hin2, Hlt in Hx. subst rev. lia.
  - intros g Hg' d a Hd' Ha Hsa. destruct (Hc g Hg' d a Hd' Ha Hsa) as (b & ? & ? & ?). exists b. split_and!; [done| |done].
    destruct (decide (b = rev)); set_solver.
  - cbn [rbind]. destruct (decide (rev = currentrev)) as [->|Hne]; [by eexists|].
    apply (IH rev); [done|rewrite Eps; cbn [pendingset]; set_solver|].
    intros x Hx%(inv_range _ _ _ Hinv). specialize (Hf rev Hin). lia.
Qed.

Lemma topo_step_spec currentrev hi dn st :
  inv hi dn st -> 0 <= currentrev < hi ->
  exists st', topo_step pfunc currentrev st = Ok st' /\ inv currentrev (dn ++ [currentrev]) st'.
Proof.
  intros [Hh Hr Hg Hp Hd Ho Hc] Hcur. unfold topo_step.
  destruct (push_parent (pendingheap st, pendingset st) currentrev) as [heap pset] eqn:E.
  apply push_parent_spec in E as [Hh' ->]; [|done]. apply (pop_loop_spec _ currentrev hi); cbn [pendingset].
  - split; cbn; try done; [set_solver|]. intros g Hg' d a Hd' Ha Hs.
    destruct (Hc g Hg' d a Hd' Ha Hs) as (b & ? & ? & ?). exists b. set_solver.
  - set_solver.
  - intros x Hx. destruct Hh' as [Hs Hmem]. apply Hmem in Hx. destruct heap as [|h heap]; [by apply not_elem_of_nil in Hx|].
    apply StronglySorted_cons in Hs as [Hlt _]. rewrite Forall_forall in Hlt.
    apply elem_of_cons in Hx as [?|Hx]; [lia|]. apply Hlt in Hx. lia.
Qed.

Lemma topo_loop_spec revs hi dn st :
  inv hi dn st -> descending revs -> (forall x, x ∈ revs -> 0 <= x < hi) ->
  exists st' hi', topo_loop pfunc revs st = Ok st' /\ inv hi' (dn ++ revs) st'.
Proof.
  intros Hinv Hs. revert hi dn st Hinv. induction Hs as [|r revs Hs IH Hr]; intros hi dn st Hinv Hx; cbn [topo_loop].
  { exists st, hi. by rewrite app_nil_r. }
  destruct (topo_step_spec r hi dn st Hinv) as (st1 & -> & H1); [apply Hx; by left|]. cbn [rbind].
  destruct (IH r (dn ++ [r]) st1 H1) as (st2 & hi2 & -> & H2).
  - intros x Hin. rewrite Forall_forall in Hr. specialize (Hr x Hin). specialize (Hx x ltac:(by right)). lia.
  - exists st2, hi2. by rewrite <- (assoc_L (++)) in H2.
Qed.

Lemma inv_init hi firstbranch : inv hi [] (Topo [([], list_to_set firstbranch)] [] ∅ []).
Proof.
  split; cbn; try done.
  - split; [constructor|]. intros x. set_solver.
  - intros x []%not_elem_of_nil.
  - intros ls' Hl. apply Permutation_singleton_r in Hl as ->. constructor.
  - intros g ->%list_elem_of_singleton d a []%not_elem_of_nil.
Qed.

(** [C8] [toposort] terminates without an error for every graph, and yields each
    of the given revisions exactly once, with no revision after one of its
    ancestors, whatever branch is asked to come first. *)
Theorem toposort_correct (revs firstbranch : list Z) :
  NoDup revs -> (forall x, x ∈ revs -> 0 <= x) ->
  exists out, toposort pfunc revs firstbranch = Ok out /\ out ≡ₚ revs /\ topo_order out.
Proof.
  intros Hnd Hpos. unfold toposort, sorted_as.
  destruct (topo_loop_spec (rev (zsort revs)) (1 + foldr Z.max 0 revs) [] (Topo [([], list_to_set firstbranch)] [] ∅ []))
    as (st & hi & -> & [_ _ _ Hp _ Ho _]).
  - apply inv_init.
  - auto with hg.
  - intros x Hx. rewrite elem_of_rev, elem_of_zsort in Hx. split; [by apply Hpos|]. clear -Hx.
    induction revs as [|y revs IH]; [by apply not_elem_of_nil in Hx|]. cbn.
    apply elem_of_cons in Hx as [->|Hx]; [lia|]. specialize (IH Hx). lia.
  - cbn [rbind]. eexists. split; [done|]. split; [|by apply Ho].
    rewrite Hp. cbn [app]. by rewrite <- Permutation_rev, zsort_perm.
Qed.
End correctness.

#[local] Instance doc_dag : RevDag doc_parents.
Proof.
  split. intros r p. unfold doc_parents, nullrev.
  destruct r as [|[[]|[[]|[]|]|]|]; cbn; set_solver by lia.
Qed.

Lemma toposort_correct_witness :
  exists out, toposort doc_parents [0; 1; 2; 3; 4] [3] = Ok out /\ out ≡ₚ [0; 1; 2; 3; 4] /\ topo_order doc_parents out.
Proof.
  apply (toposort_correct doc_parents [0; 1; 2; 3; 4] [3]).
  - apply (bool_decide_unpack _). vm_compute. exact I.
  - intros x Hx. repeat (apply elem_of_cons in Hx as [->|Hx]; [lia|]). by apply not_elem_of_nil in Hx.
Defined.
End TopoSort.
