(* ===== verification/ReachableRoots.v ===== *)
(** * Reachable roots ([reachableroots] of dagop.py)

    Which roots are reached from the heads, and the revisions on the way.  The
    stack of the traversal is kept with its top first. *)

From S2P Require Import Prelude Dag BaseSet.

Module ReachableRoots.

(** [node.wdirrev] *)
Definition wdirrev : Z := 2147483647.

Section algorithm.
Context (parentrevs : Z -> list Z).

Record walk := Walk { visit : list Z; reachable : gset Z; seen : gmap Z (list Z) }.

(** [for parent in parents: if parent >= minroot and parent not in seen] *)
Definition push_unseen (minroot : Z) (seen : gmap Z (list Z)) (visit : list Z) (parent : Z) : list Z :=
  if decide (parent >= minroot /\ seen !! parent = None) then parent :: visit else visit.

(** One turn of [while visit]. *)
Definition visit_rev (minroot : Z) (roots : gset Z) (includepath : bool) (rev : Z) (st : walk) : walk :=
  let reached := if decide (rev ∈ roots) then {[rev]} ∪ reachable st else reachable st in
  if decide (rev ∈ roots /\ includepath = false) then Walk (visit st) reached (seen st)
  else
    let parents := parentrevs rev in
    let seen := <[rev := parents]> (seen st) in
    Walk (foldl (push_unseen minroot seen) (visit st) parents) reached seen.

Fixpoint visit_loop (fuel : nat) (minroot : Z) (roots : gset Z) (includepath : bool) (st : walk) : res walk :=
  match visit st with
  | [] => Ok st
  | rev :: rest =>
      match fuel with
      | O => Err OutOfFuel
      | S fuel =>
          visit_loop fuel minroot roots includepath
            (visit_rev minroot roots includepath rev (Walk rest (reachable st) (seen st)))
      end
  end.

(** A root may be visited once for every edge into it, any other revision is
    expanded once. *)
Definition visit_fuel (heads : list Z) : nat :=
  3 * length heads + 6 * Z.to_nat (foldr Z.max 0 heads + 2).

(** [for rev in sorted(seen)]: everything above a reached revision. *)
Definition reach_up (seen : gmap Z (list Z)) (reachable : gset Z) (rev : Z) : gset Z :=
  foldl (fun r parent => if decide (parent ∈ r) then {[rev]} ∪ r else r) reachable (default [] (seen !! rev)).

(** [_reachablerootspure] *)
Definition reachablerootspure (minroot : Z) (roots heads : list Z) (includepath : bool) : res (gset Z) :=
  if decide (roots = []) then Ok ∅
  else
    let* st := visit_loop (visit_fuel heads) minroot (list_to_set roots) includepath (Walk (rev heads) ∅ ∅) in
    if decide (reachable st = ∅) then Ok ∅
    else if includepath then
      Ok (foldl (reach_up (seen st)) (reachable st) (zsort (elements (dom (seen st)))))
    else Ok (reachable st).

(** [l.remove(x)] *)
Fixpoint remove_first (x : Z) (l : list Z) : list Z :=
  match l with
  | [] => []
  | y :: l => if decide (y = x) then l else y :: remove_first x l
  end.

(** [reachableroots]; [wdirparents] are the parents of the working directory.
    The elements of the result in the order of the sorted set.  In this version
    the traversal returns a set, which cannot be appended to. *)
Definition reachableroots (wdirparents : gset Z) (roots heads : list Z) (includepath : bool) : res (list Z) :=
  match roots with
  | [] => Ok []
  | r0 :: rs =>
      let minroot := foldr Z.min r0 rs in
      let wdirhead := bool_decide (wdirrev ∈ heads) in
      let heads := if wdirhead then remove_first wdirrev heads ++ elements wdirparents else heads in
      let wdirroot := bool_decide (wdirrev ∈ roots) in
      let roots := if wdirroot then remove_first wdirrev roots else roots in
      if wdirroot && bool_decide (roots = []) then Ok (if wdirhead then [wdirrev] else [])
      else
        let* revs := reachablerootspure minroot roots heads includepath in
        if wdirhead && (bool_decide (revs ∩ wdirparents ≠ ∅) || wdirroot) then
          if includepath then Err AttributeError
          else Ok (zsort (elements (revs ∖ wdirparents) ++ [wdirrev]))
        else Ok (zsort (elements revs))
  end.
End algorithm.

(** A merge of a root and of the root's child. *)
Definition merge_parents (r : Z) : list Z :=
  match r with 1 => [0; -1] | 2 => [1; 0] | 3 => [2; -1] | _ => [-1; -1] end.

Example reachableroots_example :
  reachableroots merge_parents ∅ [1] [3] true = Ok [1; 2; 3] /\
  reachableroots merge_parents ∅ [1] [3] false = Ok [1] /\
  reachableroots merge_parents ∅ [1] [0] false = Ok [] /\
  reachableroots merge_parents {[3]} [2] [wdirrev] false = Ok [2] /\
  reachableroots merge_parents {[3]} [3] [wdirrev] false = Ok [wdirrev] /\
  reachableroots merge_parents ∅ [wdirrev] [wdirrev] false = Ok [wdirrev].
Proof. vm_compute. done. Qed.

(** The docstring says the result is the heads of the ancestors of the roots in
    reach, which would be 1 alone; the code also gives 0, a parent of the merge. *)
Lemma reachableroots_not_heads : reachableroots merge_parents ∅ [0; 1] [3] false = Ok [0; 1].
Proof. vm_compute. reflexivity. Qed.

(** With the working directory as a head, asking for the path fails. *)
Lemma reachableroots_wdir_error : reachableroots merge_parents {[3]} [1] [wdirrev] true = Err AttributeError.
Proof. vm_compute. reflexivity. Qed.
(** ** Correctness of the traversal *)

Section correctness.
Context (pfunc : Z -> list Z) `{!RevDag pfunc}.
Hypothesis two_parents : forall r, (length (pfunc r) <= 2)%nat.
Context (minroot : Z) (roots : gset Z) (includepath : bool) (heads : list Z).
Hypothesis minroot_nonneg : 0 <= minroot.
Hypothesis minroot_le : forall r, r ∈ roots -> minroot <= r.
Hypothesis heads_nonneg : forall h, h ∈ heads -> 0 <= h.

(** A step of the walk: it does not go on from a root unless the path is asked
    for. *)
Definition step (x y : Z) : Prop := parent pfunc x y /\ (includepath = false -> x ∉ roots).

Definition from_heads (x : Z) : Prop := exists h, h ∈ heads /\ rtc step h x.

Definition stops (x : Z) : Prop := x ∈ roots /\ includepath = false.

#[local] Instance stops_dec x : Decision (stops x).
Proof. unfold stops. apply _. Defined.

Definition visited (st : walk) (p : Z) : Prop := is_Some (seen st !! p) \/ p ∈ reachable st.

Definition top : Z := foldr Z.max 0 heads.

(** Parents of a seen revision are seen, reached or on the stack; above the
    revision itself when it is on the stack again. *)
Record winv (st : walk) : Prop := {
  w_seen : forall r ps, seen st !! r = Some ps -> ps = pfunc r /\ ~ stops r /\ from_heads r /\ 0 <= r <= top /\
             (r ∈ roots -> r ∈ reachable st);
  w_visit : forall r, r ∈ visit st -> from_heads r /\ 0 <= r <= top;
  w_reach : forall r, r ∈ reachable st -> r ∈ roots /\ from_heads r /\ (includepath = true -> is_Some (seen st !! r));
  w_heads : forall h, h ∈ heads -> visited st h \/ h ∈ visit st;
  w_parents : forall r p, is_Some (seen st !! r) -> p ∈ pfunc r -> minroot <= p -> visited st p \/ p ∈ visit st;
  w_stack : forall above r below p, visit st = above ++ r :: below -> is_Some (seen st !! r) ->
             p ∈ pfunc r -> minroot <= p -> visited st p \/ p ∈ above
}.

(** The traversal terminates: roots at which it stops weigh 1 on the stack, other
    revisions 3, and a revision not yet seen 6. *)
Definition weight (x : Z) : nat := if decide (stops x) then 1 else 3.

Definition unseen (st : walk) : nat := length (filter (fun x => seen st !! x = None) (zrange 0 (top + 1))).

Definition measure (st : walk) : nat := sum_list (map weight (visit st)) + 6 * unseen st.

Lemma push_unseen_spec sn vs ps :
  exists pushed, foldl (push_unseen minroot sn) vs ps = pushed ++ vs /\
    (forall p, p ∈ pushed <-> p ∈ ps /\ minroot <= p /\ sn !! p = None) /\ (length pushed <= length ps)%nat.
Proof.
  revert vs. induction ps as [|p ps IH]; intros vs; cbn [foldl].
  { exists []. split; [done|]. split; [set_solver|done]. }
  unfold push_unseen at 2. destruct (decide (p >= minroot /\ sn !! p = None)) as [H|H].
  - destruct (IH (p :: vs)) as (q & -> & Hq & Hl). exists (q ++ [p]). rewrite <- (assoc_L (++)). split; [done|].
    rewrite length_app. cbn. split; [|lia]. intros x. rewrite elem_of_app, Hq, list_elem_of_singleton, elem_of_cons.
    split; [intros [?| ->]; [tauto|]|intros [[->|?] ?]; [by right|tauto]]. split; [by left|]. split; [lia|tauto].
  - destruct (IH vs) as (q & -> & Hq & Hl). exists q. split; [done|]. split; [|cbn; lia].
    intros x. rewrite Hq, elem_of_cons. split; [tauto|]. intros [[->|?] [? ?]]; [|tauto]. destruct H. split; [lia|done].
Qed.

Lemma sum_weight_le l k : (forall x, x ∈ l -> (weight x <= k)%nat) -> (sum_list (map weight l) <= k * length l)%nat.
Proof.
  induction l as [|x l IH]; intros H; cbn; [lia|]. pose proof (H x ltac:(by left)).
  specialize (IH (fun y Hy => H y ltac:(by right))). lia.
Qed.

Lemma sum_weight_app l k : sum_list (map weight (l ++ k)) = (sum_list (map weight l) + sum_list (map weight k))%nat.
Proof. induction l as [|x l IH]; [done|]. cbn. rewrite IH. lia. Qed.

Lemma unseen_le st r ps l :
  (length (filter (fun x => <[r:=ps]> (seen st) !! x = None) l) <= length (filter (fun x => seen st !! x = None) l))%nat.
Proof.
  induction l as [|x l IH]; [done|]. rewrite !filter_cons. destruct (decide (x = r)) as [->|Hne].
  - rewrite lookup_insert_eq, decide_False by done. destruct (decide _); cbn; lia.
  - rewrite lookup_insert_ne by done. destruct (decide _); cbn; lia.
Qed.

Lemma unseen_insert st r ps :
  seen st !! r = None -> 0 <= r <= top ->
  (length (filter (fun x => <[r:=ps]> (seen st) !! x = None) (zrange 0 (top + 1))) < unseen st)%nat.
Proof.
  intros Hr Hin. unfold unseen. assert (r ∈ zrange 0 (top + 1)) as Hi by (apply elem_of_zrange; lia).
  revert Hi. generalize (zrange 0 (top + 1)). intros l Hi.
  induction l as [|x l IH]; [by apply not_elem_of_nil in Hi|]. rewrite !filter_cons.
  destruct (decide (x = r)) as [->|Hne].
  - rewrite lookup_insert_eq, decide_False, decide_True by done. cbn. pose proof (unseen_le st r ps l). lia.
  - rewrite lookup_insert_ne by done. apply elem_of_cons in Hi as [?|Hi]; [done|]. specialize (IH Hi).
    destruct (decide _); cbn; lia.
Qed.

Notation visit_one r rest st :=
  (visit_rev pfunc minroot roots includepath r (Walk rest (reachable st) (seen st))).

(** A root at which the walk stops. *)
Lemma visit_root st r rest :
  winv st -> visit st = r :: rest -> stops r ->
  winv (visit_one r rest st) /\ (measure (visit_one r rest st) < measure st)%nat.
Proof.
  intros [Hsn Hv Hre Hh Hp Hst] Ev Hr. destruct (Hv r ltac:(rewrite Ev; by left)) as [Hfr Hrange].
  unfold visit_rev. rewrite (decide_True (P := r ∈ roots /\ _)) by exact Hr. rewrite decide_True by apply Hr. cbn [visit seen reachable].
  assert (forall p, visited st p \/ p ∈ visit st -> visited (Walk rest ({[r]} ∪ reachable st) (seen st)) p \/ p ∈ rest) as Hmv.
  { intros p [[?|?]|Hin]; [left; by left|left; right; cbn; set_solver|]. rewrite Ev in Hin.
    apply elem_of_cons in Hin as [->|?]; [left; right; cbn; set_solver|by right]. }
  split.
  - split; cbn [visit seen reachable].
    + intros x ps Hx. destruct (Hsn x ps Hx) as (? & ? & ? & ? & ?). split_and!; try done; lia || set_solver.
    + intros x Hx. apply Hv. rewrite Ev. by right.
    + intros x [->%elem_of_singleton|Hx]%elem_of_union; [split_and!; [apply Hr|done|]|by apply Hre].
      intros C. destruct Hr as [_ Hf]. by rewrite Hf in C.
    + intros h Hin. by apply Hmv, Hh.
    + intros x p Hx Hpx Hm. apply Hmv. by apply (Hp x).
    + intros above x below p E Hx Hpx Hm.
      destruct (Hst (r :: above) x below p ltac:(by rewrite Ev, E) Hx Hpx Hm) as [[?|?]|Hin]; [left; by left|left; right; cbn; set_solver|].
      apply elem_of_cons in Hin as [->|?]; [left; right; cbn; set_solver|by right].
  - unfold measure, unseen. rewrite Ev. cbn [visit seen map sum_list]. unfold weight at 2. rewrite decide_True by done. cbn. lia.
Qed.

(** Any other revision. *)
Lemma visit_other st r rest :
  winv st -> visit st = r :: rest -> ~ stops r ->
  winv (visit_one r rest st) /\ (measure (visit_one r rest st) < measure st)%nat.
Proof.
  intros [Hsn Hv Hre Hh Hp Hst] Ev Hr. destruct (Hv r ltac:(rewrite Ev; by left)) as [Hfr Hrange].
  unfold visit_rev. rewrite (decide_False (P := r ∈ roots /\ _)) by exact Hr. cbn [visit seen reachable].
  destruct (push_unseen_spec (<[r:=pfunc r]> (seen st)) rest (pfunc r)) as (pushed & -> & Hpu & Hlen).
  set (re := if decide (r ∈ roots) then _ else _).
  assert (forall x, x ∈ reachable st -> x ∈ re) as Hre1 by (intros; unfold re; destruct (decide _); set_solver).
  assert (forall x, x ∈ re -> x ∈ reachable st \/ (x = r /\ r ∈ roots)) as Hre2 by (intros; unfold re in *; destruct (decide _); set_solver).
  assert (r ∈ roots -> r ∈ re) as Hre3 by (intros; unfold re; rewrite decide_True by done; set_solver).
  set (st' := Walk (pushed ++ rest) re (<[r:=pfunc r]> (seen st))).
  assert (forall p, visited st p \/ p = r -> visited st' p) as Hvis.
  { intros p [[Hx|?]| ->]; [left; cbn|right; by apply Hre1|left; cbn; by rewrite lookup_insert_eq].
    destruct (decide (p = r)) as [->|]; [by rewrite lookup_insert_eq|by rewrite lookup_insert_ne]. }
  assert (forall p, p ∈ pfunc r -> minroot <= p -> visited st' p \/ p ∈ pushed) as Hpar.
  { intros p Hin Hm. destruct (<[r:=pfunc r]> (seen st) !! p) eqn:E; [left; left; cbn; by rewrite E|right; by apply Hpu]. }
  split.
  - split.
    + intros x ps Hx. cbn in Hx. destruct (decide (x = r)) as [->|Hne].
      { rewrite lookup_insert_eq in Hx. simplify_eq. split_and!; try done; lia. }
      rewrite lookup_insert_ne in Hx by done. destruct (Hsn x ps Hx) as (? & ? & ? & ? & Hrr).
      split_and!; try done; try lia. intros. by apply Hre1, Hrr.
    + intros x [Hx|Hx]%elem_of_app; [|apply Hv; rewrite Ev; by right]. apply Hpu in Hx as (Hx & Hm & _).
      assert (parent pfunc r x) as Hpx by (split; [done|unfold nullrev; lia]). apply parent_below in Hpx as Hb; [|done].
      split; [|lia]. destruct Hfr as (h & Hin & Hst'). exists h. split; [done|]. eapply rtc_r; [done|]. split; [done|].
      intros C Hroot. by apply Hr.
    + intros x [Hx|[-> Hx]]%Hre2; [|split_and!; [done|done|intros _; cbn; by rewrite lookup_insert_eq]].
      destruct (Hre x Hx) as (? & ? & Hs). split_and!; [done|done|]. intros C. specialize (Hs C). cbn.
      destruct (decide (x = r)) as [->|]; [by rewrite lookup_insert_eq|by rewrite lookup_insert_ne].
    + intros h Hin. destruct (Hh h Hin) as [?|Hx]; [left; apply Hvis; by left|].
      rewrite Ev in Hx. apply elem_of_cons in Hx as [->|Hx]; [left; apply Hvis; by right|right; apply elem_of_app; by right].
    + intros x p Hx Hpx Hm. destruct (decide (x = r)) as [->|Hne].
      { destruct (Hpar p Hpx Hm); [by left|right; apply elem_of_app; by left]. }
      cbn in Hx. rewrite lookup_insert_ne in Hx by done. destruct (Hp x p Hx Hpx Hm) as [?|Hin]; [left; apply Hvis; by left|].
      rewrite Ev in Hin. apply elem_of_cons in Hin as [->|Hin]; [left; apply Hvis; by right|right; apply elem_of_app; by right].
    + intros above x below p E Hx Hpx Hm. cbn [visit st'] in E.
      assert (x ∈ pushed -> False) as Hnp.
      { intros Hin. apply Hpu in Hin as (_ & _ & Hn). cbn in Hx. rewrite Hn in Hx. by destruct Hx. }
      assert (exists a', above = pushed ++ a' /\ rest = a' ++ x :: below) as (a' & -> & Erest).
      { apply app_eq_inv in E as [(k & -> & E)|(k & -> & E)]; [|by exists k].
        destruct k as [|y k]; [exists []; split; [by rewrite !app_nil_r|by symmetry]|].
        destruct Hnp. cbn in E. injection E as <- _. apply elem_of_app. right. by left. }
      destruct (decide (x = r)) as [->|Hne].
      { destruct (Hpar p Hpx Hm); [by left|right; apply elem_of_app; by left]. }
      cbn in Hx. rewrite lookup_insert_ne in Hx by done.
      destruct (Hst (r :: a') x below p ltac:(by rewrite Ev, Erest) Hx Hpx Hm) as [?|Hin]; [left; apply Hvis; by left|].
      apply elem_of_cons in Hin as [->|Hin]; [left; apply Hvis; by right|right; apply elem_of_app; by right].
  - subst st'. unfold measure, unseen. rewrite Ev. cbn [visit seen map sum_list]. rewrite sum_weight_app.
    unfold weight at 3. rewrite decide_False by done. pose proof (two_parents r) as H2. change (id 3%nat) with 3%nat.
    destruct (seen st !! r) as [ps|] eqn:Esn.
    + assert (sum_list (map weight pushed) <= 1 * length pushed)%nat as Hw.
      { apply sum_weight_le. intros p Hin. apply Hpu in Hin as (Hpx & Hm & Hn).
        assert (seen st !! p = None) as Hn'.
        { destruct (decide (p = r)) as [->|]; [by rewrite lookup_insert_eq in Hn|by rewrite lookup_insert_ne in Hn]. }
        destruct (Hst [] r rest p Ev ltac:(by rewrite Esn) Hpx Hm) as [[Hs|Hre']|?%not_elem_of_nil]; [| |done].
        - rewrite Hn' in Hs. by destruct Hs.
        - unfold weight. rewrite decide_True; [done|]. destruct (Hre p Hre') as (Hroot & _ & Hs). split; [done|].
          destruct includepath; [|done]. destruct (Hs eq_refl) as [? Hs']. by rewrite Hn' in Hs'. }
      pose proof (unseen_le st r (pfunc r) (zrange 0 (top + 1))) as Hu. lia.
    + assert (sum_list (map weight pushed) <= 3 * length pushed)%nat as Hw.
      { apply sum_weight_le. intros p _. unfold weight. destruct (decide (stops p)); lia. }
      pose proof (unseen_insert st r (pfunc r) Esn Hrange) as Hu. unfold unseen in Hu. lia.
Qed.

Lemma roots_loop_spec fuel st :
  winv st -> (measure st <= fuel)%nat ->
  exists st', visit_loop pfunc fuel minroot roots includepath st = Ok st' /\ winv st' /\ visit st' = [].
Proof.
  revert st. induction fuel as [|fuel IH]; intros st Hw Hm; cbn [visit_loop]; destruct (visit st) as [|r rest] eqn:Ev; try (by exists st).
  - unfold measure in Hm. rewrite Ev in Hm. cbn in Hm. unfold weight in Hm. destruct (decide (stops r)); lia.
  - destruct (decide (stops r)) as [Hs|Hs]; [destruct (visit_root st r rest Hw Ev Hs) as [Hw' Hm']|
      destruct (visit_other st r rest Hw Ev Hs) as [Hw' Hm']]; apply IH; (done || lia).
Qed.

Lemma top_max h : h ∈ heads -> h <= top.
Proof.
  unfold top. clear. induction heads as [|y l IH]; [by intros ?%not_elem_of_nil|]. cbn.
  intros [->|Hx]%elem_of_cons; [lia|]. specialize (IH Hx). lia.
Qed.

Lemma roots_winv_init : winv (Walk (rev heads) ∅ ∅).
Proof.
  split; cbn.
  - intros r ps. by rewrite lookup_empty.
  - intros r Hr. rewrite elem_of_rev in Hr. split; [exists r; split; [done|apply rtc_refl]|].
    split; [by apply heads_nonneg|by apply top_max].
  - set_solver.
  - intros h Hh. right. by rewrite elem_of_rev.
  - intros r p [x Hx]. by rewrite lookup_empty in Hx.
  - intros above r below p _ [x Hx]. by rewrite lookup_empty in Hx.
Qed.

(** At the end everything reachable from the heads above the smallest root was
    visited. *)
Lemma roots_winv_complete st x : winv st -> visit st = [] -> from_heads x -> minroot <= x -> visited st x.
Proof.
  intros [Hsn _ Hre Hh Hp _] Ev (h & Hin & Hrtc) Hm.
  assert (visited st h) as Hv by (destruct (Hh h Hin) as [?|Hc]; [done|rewrite Ev in Hc; by apply not_elem_of_nil in Hc]).
  clear Hin. induction Hrtc as [|y z x [Hyz Hns] Hzx IH]; [done|].
  assert (x <= z) as Hxz.
  { clear -Hzx RevDag0. induction Hzx as [|a b c [Hab _] _ IH]; [done|]. apply parent_below in Hab; [lia|done]. }
  apply (IH Hm). clear IH. destruct Hv as [Hs|Hr].
  - destruct (Hp y z Hs) as [?|Hc]; [by destruct Hyz|lia|done|]. rewrite Ev in Hc. by apply not_elem_of_nil in Hc.
  - destruct (Hre y Hr) as (Hroot & _ & Hs). destruct includepath eqn:Ei; [|by destruct (Hns eq_refl)].
    destruct (Hp y z (Hs eq_refl)) as [?|Hc]; [by destruct Hyz|lia|done|]. rewrite Ev in Hc. by apply not_elem_of_nil in Hc.
Qed.

(** ** The second pass *)

Definition above_root (x : Z) : Prop := exists r, r ∈ roots /\ anc pfunc r x.

Lemma reach_up_spec st re x :
  winv st -> is_Some (seen st !! x) ->
  (x ∈ reach_up (seen st) re x <-> x ∈ re \/ exists p, p ∈ pfunc x /\ p ∈ re) /\
  (forall y, y ∈ reach_up (seen st) re x -> y ∈ re \/ y = x) /\ re ⊆ reach_up (seen st) re x.
Proof.
  intros Hw [ps Hs]. destruct (w_seen _ Hw x ps Hs) as (-> & _). unfold reach_up. rewrite Hs. cbn [default]. clear Hs.
  change (id (pfunc x)) with (pfunc x). generalize (pfunc x). intros l. revert re. induction l as [|p l IH]; intros re; cbn [foldl].
  - split_and!; [set_solver|set_solver|done].
  - destruct (decide (p ∈ re)) as [Hp|Hp].
    + destruct (IH ({[x]} ∪ re)) as (H1 & H2 & H3). split_and!; [|set_solver|set_solver]. split; [|set_solver].
      intros _. right. exists p. set_solver.
    + destruct (IH re) as (H1 & H2 & H3). split_and!; [|set_solver|set_solver]. rewrite H1. set_solver.
Qed.

Lemma second_pass st l re :
  winv st -> visit st = [] -> includepath = true -> ascending l -> (forall x, x ∈ l -> is_Some (seen st !! x)) ->
  reachable st ⊆ re -> (forall x, x ∈ re -> is_Some (seen st !! x) /\ above_root x) ->
  (forall x, is_Some (seen st !! x) -> above_root x -> x ∈ re \/ x ∈ l) ->
  forall x, x ∈ foldl (reach_up (seen st)) re l <-> is_Some (seen st !! x) /\ above_root x.
Proof.
  intros Hw Ev Hi Hs. revert re. induction Hs as [|y l Hs IH Hy]; intros re Hl Hsub Hre Hc x; cbn [foldl].
  { split; [by apply Hre|]. intros [H1 H2]. destruct (Hc x H1 H2) as [?|?%not_elem_of_nil]; done. }
  rewrite Forall_forall in Hy. pose proof (Hl y ltac:(by left)) as Hys.
  destruct (reach_up_spec st re y Hw Hys) as (H1 & H2 & H3).
  apply IH; [intros z Hz; apply Hl; by right|set_solver| |].
  - intros z Hz. destruct (H2 z Hz) as [?| ->]; [by apply Hre|]. split; [done|].
    apply H1 in Hz as [?|(p & Hp & Hpre)]; [by apply Hre|]. destruct (Hre p Hpre) as [[ps Hps] (r & Hr & Har)].
    exists r. split; [done|]. destruct (w_seen _ Hw p ps Hps) as (_ & _ & _ & Hpr & _).
    eapply anc_trans; [exact Har|]. apply anc_parent. split; [done|unfold nullrev; lia].
  - intros z Hzs Hz. destruct (decide (z = y)) as [->|Hne].
    + left. apply H1. destruct Hz as (r & Hr & Har). apply anc_cases in Har as [->|(p & Hp & Har)].
      * left. apply Hsub. destruct Hys as [ps Hps]. by apply (w_seen _ Hw y ps Hps).
      * right. exists p. pose proof Hp as [Hpp _]. split; [done|].
        pose proof (minroot_le r Hr). pose proof (anc_le pfunc r p Har).
        assert (is_Some (seen st !! p)) as Hps.
        { destruct (w_parents _ Hw y p Hys Hpp) as [[?|Hpr]|Hv]; [lia|done| |].
          - by apply (w_reach _ Hw p Hpr).
          - rewrite Ev in Hv. by apply not_elem_of_nil in Hv. }
        destruct (Hc p Hps ltac:(by exists r)) as [?|Hin]; [done|]. apply parent_below in Hp; [|done].
        apply elem_of_cons in Hin as [->|Hin]; [lia|]. apply Hy in Hin. lia.
    + destruct (Hc z Hzs Hz) as [?|Hin]; [left; by apply H3|]. apply elem_of_cons in Hin as [?|?]; [done|by right].
Qed.
End correctness.

Lemma unseen_bound heads st : (unseen heads st <= Z.to_nat (top heads + 1))%nat.
Proof.
  unfold unseen. etransitivity; [apply length_filter|]. unfold zrange. rewrite length_seqZ. lia.
Qed.

(** The fuel is enough. *)
Lemma measure_init (roots : gset Z) includepath heads :
  (measure roots includepath heads (Walk (rev heads) ∅ ∅) <= visit_fuel heads)%nat.
Proof.
  unfold measure, visit_fuel. cbn [visit].
  pose proof (unseen_bound heads (Walk (rev heads) ∅ ∅)) as Hu.
  pose proof (sum_weight_le roots includepath (rev heads) 3) as H. rewrite length_rev in H.
  assert (sum_list (map (weight roots includepath) (rev heads)) <= 3 * length heads)%nat.
  { apply H. intros x _. unfold weight. destruct (decide (stops roots includepath x)); lia. }
  change (foldr Z.max 0 heads) with (top heads). lia.
Qed.

(** For a graph with two parents per revision and roots that [minroot]
    bounds, the traversal terminates.  Without the path it gives the roots that
    a walk from a head meets before any other root; with the path it gives
    exactly the revisions between a root and a head. *)
Lemma reachablerootspure_spec (pfunc : Z -> list Z) `{!RevDag pfunc}
    (minroot : Z) (roots heads : list Z) (includepath : bool) :
  (forall r, (length (pfunc r) <= 2)%nat) ->
  0 <= minroot -> (forall r, r ∈ roots -> minroot <= r) -> (forall h, h ∈ heads -> 0 <= h) ->
  exists revs, reachablerootspure pfunc minroot roots heads includepath = Ok revs /\
    forall x, x ∈ revs <->
      if includepath
      then exists r h, r ∈ roots /\ h ∈ heads /\ anc pfunc r x /\ anc pfunc x h
      else x ∈ roots /\ exists h, h ∈ heads /\ rtc (fun y z => parent pfunc y z /\ y ∉ roots) h x.
Proof.
  intros H2 Hm Hle Hh. unfold reachablerootspure. destruct (decide (roots = [])) as [->|Hne].
  { exists ∅. split; [done|]. intros x. destruct includepath; set_solver. }
  set (rs := list_to_set roots : gset Z).
  assert (forall r, r ∈ rs -> minroot <= r) as Hle' by (intros r Hr; apply Hle; set_solver).
  destruct (roots_loop_spec pfunc H2 minroot rs includepath heads Hm Hle' Hh (visit_fuel heads) (Walk (rev heads) ∅ ∅))
    as (st & E & Hw & Ev); [by apply roots_winv_init|apply measure_init|].
  assert (forall x, x ∈ roots -> from_heads pfunc rs includepath heads x -> x ∈ reachable st) as Hroots.
  { intros x Hx Hf. destruct (roots_winv_complete pfunc minroot rs includepath heads st x Hw Ev Hf (Hle x Hx)) as [[ps Hs]|?]; [|done].
    destruct (w_seen _ _ _ _ _ _ Hw x ps Hs) as (_ & _ & _ & _ & Hr). apply Hr. set_solver. }
  fold rs. rewrite E. cbn [rbind].
  destruct includepath.
  - assert (forall x h, h ∈ heads -> anc pfunc x h -> from_heads pfunc rs true heads x) as Hfh.
    { intros x h Hin Ha. exists h. split; [done|]. eapply rtc_subrel; [|exact Ha]. intros y z Hyz. by split. }
    assert (forall x, from_heads pfunc rs true heads x -> exists h, h ∈ heads /\ anc pfunc x h) as Hfh2.
    { intros x (h & Hin & Ha). exists h. split; [done|]. eapply rtc_subrel; [|exact Ha]. by intros y z [? _]. }
    assert (forall x, (exists r h, r ∈ roots /\ h ∈ heads /\ anc pfunc r x /\ anc pfunc x h) <->
      is_Some (seen st !! x) /\ above_root pfunc rs x) as Hspec.
    { intros x. split.
      - intros (r & h & Hr & Hin & Hrx & Hxh). split; [|exists r; split; [set_solver|done]].
        pose proof (anc_le pfunc r x Hrx). pose proof (Hle r Hr).
        destruct (roots_winv_complete pfunc minroot rs true heads st x Hw Ev (Hfh x h Hin Hxh) ltac:(lia)) as [?|Hx]; [done|].
        by apply (w_reach _ _ _ _ _ _ Hw x Hx).
      - intros [[ps Hs] (r & Hr & Hrx)]. destruct (w_seen _ _ _ _ _ _ Hw x ps Hs) as (_ & _ & Hf & _).
        destruct (Hfh2 x Hf) as (h & ? & ?). exists r, h. set_solver. }
    destruct (decide (reachable st = ∅)) as [Ee|Ee].
    + exists ∅. split; [done|]. intros x. split; [set_solver|].
      intros (r & h & Hr & Hin & Hrx & Hxh). specialize (Hroots r Hr (Hfh r h Hin ltac:(by eapply anc_trans))). set_solver.
    + eexists. split; [done|]. intros x. rewrite Hspec.
      apply (second_pass pfunc H2 minroot rs true heads); try done.
      * apply zsort_ascending, NoDup_elements.
      * intros y Hy. rewrite elem_of_zsort, elem_of_elements, elem_of_dom in Hy. done.
      * intros y Hy. destruct (w_reach _ _ _ _ _ _ Hw y Hy) as (? & ? & Hs). split; [by apply Hs|]. exists y. split; [done|apply anc_refl].
      * intros y Hy _. right. by rewrite elem_of_zsort, elem_of_elements, elem_of_dom.
  - assert (forall x, x ∈ reachable st <-> x ∈ roots /\ exists h, h ∈ heads /\ rtc (fun y z => parent pfunc y z /\ y ∉ roots) h x) as Hspec.
    { intros x. split.
      - intros Hx. destruct (w_reach _ _ _ _ _ _ Hw x Hx) as (Hr & (h & Hin & Ha) & _). split; [set_solver|]. exists h. split; [done|].
        eapply rtc_subrel; [|exact Ha]. intros y z [? Hy]. split; [done|]. specialize (Hy eq_refl). set_solver.
      - intros (Hr & h & Hin & Ha). apply Hroots; [done|]. exists h. split; [done|]. eapply rtc_subrel; [|exact Ha].
        intros y z [? ?]. split; [done|]. intros _. set_solver. }
    destruct (decide (reachable st = ∅)) as [Ee|Ee]; eexists; (split; [done|]); intros x; rewrite <- Hspec; [by rewrite Ee|done].
Qed.

Lemma foldr_min_le r0 rs x : x ∈ r0 :: rs -> foldr Z.min r0 rs <= x.
Proof.
  induction rs as [|y rs IH]; cbn; [intros ->%list_elem_of_singleton; done|].
  intros [->|[->|H]%elem_of_cons]%elem_of_cons; [specialize (IH ltac:(by left))|lia|specialize (IH ltac:(by right))]; lia.
Qed.

Lemma foldr_min_in r0 rs : foldr Z.min r0 rs ∈ r0 :: rs.
Proof.
  induction rs as [|y rs IH]; cbn; [by left|]. destruct (Z.min_spec y (foldr Z.min r0 rs)) as [[_ ->]|[_ ->]]; set_solver.
Qed.

Lemma reachableroots_spec (pfunc : Z -> list Z) `{!RevDag pfunc} (wdirparents : gset Z)
    (roots heads : list Z) (includepath : bool) :
  (forall r, (length (pfunc r) <= 2)%nat) ->
  (forall r, r ∈ roots ++ heads -> 0 <= r < wdirrev) ->
  exists revs, reachableroots pfunc wdirparents roots heads includepath = Ok revs /\ ascending revs /\
    forall x, x ∈ revs <->
      if includepath
      then exists r h, r ∈ roots /\ h ∈ heads /\ anc pfunc r x /\ anc pfunc x h
      else x ∈ roots /\ exists h, h ∈ heads /\ rtc (fun y z => parent pfunc y z /\ y ∉ roots) h x.
Proof.
  intros H2 Hr. destruct roots as [|r0 rs].
  { exists []. split; [done|]. split; [constructor|]. intros x. destruct includepath; set_solver. }
  destruct (reachablerootspure_spec pfunc (foldr Z.min r0 rs) (r0 :: rs) heads includepath) as (revs & E & Hrevs); [done| | | |].
  { apply Hr. apply elem_of_app. left. apply foldr_min_in. }
  { intros r. apply foldr_min_le. }
  { intros h Hh. apply Hr. apply elem_of_app. by right. }
  exists (zsort (elements revs)). split; [|split; [apply zsort_ascending, NoDup_elements|
    intros x; rewrite elem_of_zsort, elem_of_elements; apply Hrevs]].
  cbn [reachableroots].
  rewrite (bool_decide_eq_false_2 (wdirrev ∈ heads)) by (intros C; specialize (Hr wdirrev ltac:(set_solver)); lia).
  rewrite (bool_decide_eq_false_2 (wdirrev ∈ r0 :: rs)) by (intros C; specialize (Hr wdirrev ltac:(set_solver)); lia).
  cbn [andb]. rewrite E. done.
Qed.


#[local] Instance merge_dag : RevDag merge_parents.
Proof.
  split. intros r p. unfold merge_parents, nullrev.
  destruct r as [|[[]|[]|]|]; cbn; set_solver by lia.
Qed.

End ReachableRoots.
