(* ===== verification/RevWalk.v ===== *)
(** * Walks bounded by depth ([_walkrevtree], [revancestors] and
      [revdescendants] of dagop.py)

    A heap of pairs of a revision and its depth is popped in revision order; the
    given revisions are loaded into it one at a time.  The heap is an ascending
    list of pairs, the revision multiplied by the sign of the direction. *)

From S2P Require Import Prelude Dag SmartSet.

Module RevWalk.

Definition maxlogdepth : Z := 2147483648.

(** ** heapq on pairs *)

Notation entry := (Z * Z)%type.

Definition entry_le (x y : entry) : Prop := x.1 < y.1 \/ (x.1 = y.1 /\ x.2 <= y.2).

#[global] Instance entry_le_dec x y : Decision (entry_le x y).
Proof. unfold entry_le. apply _. Defined.

Fixpoint heappush2 (x : entry) (h : list entry) : list entry :=
  match h with
  | [] => [x]
  | y :: h' => if decide (entry_le x y) then x :: h else y :: heappush2 x h'
  end.

Section walk.
Context (pfunc : Z -> list Z).

(** The state of the generator: the heap, the input revision loaded last, the
    rest of the input, the revision yielded last and what was yielded. *)
Record walk := Walk {
  heap : list entry;
  inputrev : option Z;
  irevs : list Z;
  lastrev : option Z;
  yielded : list Z
}.

(** [if inputrev is not None: heappush(...)] *)
Definition load (sign : Z) (inputs : list Z) (heap : list entry) : list entry * option Z * list Z :=
  match inputs with
  | [] => (heap, None, [])
  | r :: inputs => (heappush2 (sign * r, 0) heap, Some r, inputs)
  end.

(** One turn of the loop for the entry popped. *)
Definition walk_step (sign startdepth stopdepth : Z) (e : entry) (st : walk) : walk :=
  let currev := sign * e.1 in
  let curdepth := e.2 in
  let '(hp, inrev, irs) :=
    if decide (inputrev st = Some currev) then load sign (irevs st) (heap st)
    else (heap st, inputrev st, irevs st) in
  let foundnew := bool_decide (lastrev st ≠ Some currev) in
  let yields := foundnew && bool_decide (curdepth >= startdepth) in
  let pdepth := curdepth + 1 in
  let hp :=
    if foundnew && bool_decide (pdepth < stopdepth) then
      foldl (fun hp prev => if decide (prev ≠ nullrev) then heappush2 (sign * prev, pdepth) hp else hp)
        hp (pfunc currev)
    else hp in
  Walk hp inrev irs (if yields then Some currev else lastrev st)
    (if yields then yielded st ++ [currev] else yielded st).

Fixpoint walk_loop (fuel : nat) (sign startdepth stopdepth : Z) (st : walk) : res (list Z) :=
  match heap st with
  | [] => Ok (yielded st)
  | e :: hp =>
      match fuel with
      | O => Err OutOfFuel
      | S fuel =>
          walk_loop fuel sign startdepth stopdepth
            (walk_step sign startdepth stopdepth e (Walk hp (inputrev st) (irevs st) (lastrev st) (yielded st)))
      end
  end.

(** [_walkrevtree].  An entry below the start depth pushes its parents every time
    it is met, so the number of turns is bounded by the number of paths: [width]
    bounds the successors of a revision and [bound] the signed revisions. *)
Definition walk_weight (width : nat) (bound k : Z) : nat := (S width) ^ Z.to_nat (bound - k).

Definition walkrevtree (width : nat) (bound : Z) (revs : list Z) (startdepth stopdepth : option Z) (reverse : bool) :
    res (list Z) :=
  let startdepth := default 0 startdepth in
  let stopdepth := default maxlogdepth stopdepth in
  if decide (stopdepth = 0) then Ok []
  else if decide (stopdepth < 0) then Err ProgrammingError
  else
    let sign := if reverse then -1 else 1 in
    let revs := sorted_as reverse revs in
    let '(hp, inrev, irs) := load sign revs [] in
    walk_loop (sum_list (map (fun r => walk_weight width bound (sign * r)) revs)) sign startdepth stopdepth
      (Walk hp inrev irs None []).
End walk.

Section operations.
Context (parentrevs : Z -> list Z) (len : Z).

(** [l[:cut]] with [cut] 1 or none *)
Definition cut_first (followfirst : bool) (l : list Z) : list Z := if followfirst then take 1 l else l.

(** [_genrevancestors]; [cutfunc] is constantly false when it is not given, and
    [parentrevs] of the working directory pseudo revision gives its parents. *)
Definition cut_pfunc (followfirst : bool) (cutfunc : Z -> bool) (rev : Z) : list Z :=
  filter (fun r => cutfunc r = false) (cut_first followfirst (parentrevs rev)).

Definition revancestors (revs : list Z) (followfirst : bool) (startdepth stopdepth : option Z) (cutfunc : Z -> bool) :
    res (list Z) :=
  walkrevtree (cut_pfunc followfirst cutfunc) 2 2 (filter (fun r => cutfunc r = false) revs) startdepth stopdepth true.

(** The minimum of the revisions; an error when there is none. *)
Definition min_rev (revs : list Z) : res Z :=
  match revs with [] => Err ValueError | r :: revs => Ok (foldr Z.min r revs) end.

(** [for x in cl.parentrevs(i)[:cut]: if x != nullrev and x in seen] *)
Definition has_seen_parent (followfirst : bool) (seen : gset Z) (i : Z) : bool :=
  existsb (fun x => bool_decide (x ≠ nullrev /\ x ∈ seen)) (cut_first followfirst (parentrevs i)).

Fixpoint descendants_loop (followfirst : bool) (is_ : list Z) (seen : gset Z) : list Z :=
  match is_ with
  | [] => []
  | i :: is_ =>
      if decide (i ∈ seen) then i :: descendants_loop followfirst is_ seen
      else if has_seen_parent followfirst seen i then i :: descendants_loop followfirst is_ ({[i]} ∪ seen)
      else descendants_loop followfirst is_ seen
  end.

(** [_genrevdescendants] *)
Definition genrevdescendants (revs : list Z) (followfirst : bool) : res (list Z) :=
  let* first := min_rev revs in
  if decide (first = nullrev) then Ok (first :: zrange 0 len)
  else Ok (descendants_loop followfirst (zrange first len) (list_to_set revs)).

(** [descmap[i].append(x)] *)
Definition append_at (i : Z) (x : Z) (m : list (list Z)) : list (list Z) :=
  alter (fun l => l ++ [x]) (Z.to_nat i) m.

(** [_builddescendantsmap] *)
Definition add_child (startrev : Z) (followfirst : bool) (m : list (list Z)) (currev : Z) : list (list Z) :=
  match parentrevs currev with
  | p1rev :: rest =>
      let m := if decide (p1rev >= startrev) then append_at (p1rev - startrev) currev m else m in
      match rest with
      | p2rev :: _ =>
          if decide (followfirst = false /\ p2rev ≠ nullrev /\ p2rev >= startrev)
          then append_at (p2rev - startrev) currev m else m
      | [] => m
      end
  | [] => m
  end.

Definition builddescendantsmap (startrev : Z) (followfirst : bool) : list (list Z) :=
  foldl (add_child startrev followfirst) (replicate (Z.to_nat (len - startrev)) []) (zrange (startrev + 1) len).

(** [_genrevdescendantsofdepth] *)
Definition genrevdescendantsofdepth (revs : list Z) (followfirst : bool) (startdepth stopdepth : option Z) : res (list Z) :=
  let* startrev := min_rev revs in
  let descmap := builddescendantsmap startrev followfirst in
  walkrevtree (fun rev => default [] (descmap !! Z.to_nat (rev - startrev))) (2 * Z.to_nat len) len
    revs startdepth stopdepth false.

(** [revdescendants] *)
Definition revdescendants (revs : list Z) (followfirst : bool) (startdepth stopdepth : option Z) : res (list Z) :=
  match startdepth, stopdepth with
  | None, None => genrevdescendants revs followfirst
  | _, _ => genrevdescendantsofdepth revs followfirst startdepth stopdepth
  end.
End operations.

Definition diamond (r : Z) : list Z :=
  match r with 1 => [0; -1] | 2 => [0; -1] | 3 => [1; 2] | 4 => [3; -1] | _ => [-1; -1] end.

Example walk_example :
  revancestors diamond [4] false None None (fun _ => false) = Ok [4; 3; 2; 1; 0] /\
  revancestors diamond [4] false (Some 1) (Some 3) (fun _ => false) = Ok [3; 2; 1] /\
  revancestors diamond [4; 2] true None None (fun r => bool_decide (r = 1)) = Ok [4; 3; 2; 0] /\
  revdescendants diamond 5 [1] false None None = Ok [1; 3; 4] /\
  revdescendants diamond 5 [0; 2] false (Some 1) (Some 2) = Ok [1; 2; 3] /\
  revdescendants diamond 5 [2] true None None = Ok [2] /\
  revancestors diamond [4] false None (Some (-1)) (fun _ => false) = Err ProgrammingError.
Proof. vm_compute. done. Qed.
(** ** The heap *)

Lemma entry_le_trans x y z : entry_le x y -> entry_le y z -> entry_le x z.
Proof. unfold entry_le. lia. Qed.

Lemma entry_le_total x y : ~ entry_le x y -> entry_le y x.
Proof. unfold entry_le. lia. Qed.

Lemma elem_of_heappush2 x h y : y ∈ heappush2 x h <-> y = x \/ y ∈ h.
Proof.
  induction h as [|z h IH]; cbn [heappush2]; [set_solver|].
  destruct (decide (entry_le x z)); rewrite !elem_of_cons, ?IH; tauto.
Qed.

Lemma heappush2_sorted x h : StronglySorted entry_le h -> StronglySorted entry_le (heappush2 x h).
Proof.
  induction 1 as [|y h Hs IH Hy]; cbn [heappush2]; [repeat constructor|]. rewrite Forall_forall in Hy.
  destruct (decide (entry_le x y)) as [Hxy|Hxy].
  - constructor; [by constructor; [|apply Forall_forall]|]. apply Forall_forall. intros z [->|Hz]%elem_of_cons; [done|].
    eapply entry_le_trans; [done|by apply Hy].
  - constructor; [done|]. apply Forall_forall. intros z [->|Hz]%elem_of_heappush2; [by apply entry_le_total|by apply Hy].
Qed.

Section correctness.
Context (pfunc : Z -> list Z) (sign start stop : Z) (width : nat) (bound : Z) (inputs : list Z).
Hypothesis Hsign : sign = 1 \/ sign = -1.
Hypothesis Hstop : 0 < stop.
Hypothesis Hinc : forall r p, parent pfunc r p -> sign * r < sign * p < bound.
Hypothesis Hwidth : forall r, (length (pfunc r) <= width)%nat.
Hypothesis Hinputs : forall r, r ∈ inputs -> sign * r < bound.

Lemma sign_invol x : sign * (sign * x) = x.
Proof. destruct Hsign as [-> | ->]; lia. Qed.

(** [x] is [n] steps away from a given revision. *)
Definition at_depth (x n : Z) : Prop :=
  0 <= n < stop /\ exists r, r ∈ inputs /\ nsteps (parent pfunc) (Z.to_nat n) r x.

Notation in_order l := (StronglySorted (fun a b => sign * a < sign * b) l).

(** [popped] are the entries popped so far. *)
Record winv (popped : list entry) (st : walk) : Prop := {
  wi_sorted : StronglySorted entry_le (heap st);
  wi_sound : forall e, e ∈ popped ++ heap st -> e.1 < bound /\ at_depth (sign * e.1) e.2;
  wi_order : forall p e, p ∈ popped -> e ∈ heap st -> entry_le p e;
  wi_input : match inputrev st with
             | Some i => (sign * i, 0) ∈ heap st /\ forall j, j ∈ irevs st -> sign * i < sign * j
             | None => irevs st = []
             end;
  wi_irevs : in_order (irevs st) /\ (forall r, r ∈ irevs st -> r ∈ inputs) /\
             forall r, r ∈ inputs -> (sign * r, 0) ∈ popped \/ inputrev st = Some r \/ r ∈ irevs st;
  wi_closed : forall e x, e ∈ popped -> parent pfunc (sign * e.1) x -> e.2 + 1 < stop ->
              exists m, m <= e.2 /\ (m = e.2 \/ start <= m) /\ (sign * x, m + 1) ∈ popped ++ heap st;
  wi_yields : forall e, e ∈ popped -> start <= e.2 -> sign * e.1 ∈ yielded st;
  wi_yielded : forall x, x ∈ yielded st -> exists n, start <= n /\ (sign * x, n) ∈ popped;
  wi_out : in_order (yielded st) /\ lastrev st = last (yielded st)
}.

(** ** Loading and pushing *)

Definition weights (h : list entry) : nat := sum_list (map (fun e : entry => walk_weight width bound e.1) h).
Definition input_weights (l : list Z) : nat := sum_list (map (fun r => walk_weight width bound (sign * r)) l).

Lemma weights_push x h : weights (heappush2 x h) = (walk_weight width bound x.1 + weights h)%nat.
Proof.
  induction h as [|y h IH]; cbn [heappush2]; [done|]. destruct (decide (entry_le x y)); [done|].
  unfold weights in *. cbn [map sum_list] in *. cbn in *. rewrite IH. lia.
Qed.

Lemma push_all_spec d l h :
  let h' := foldl (fun hp prev => if decide (prev ≠ nullrev) then heappush2 (sign * prev, d) hp else hp) h l in
  (forall e, e ∈ h' <-> e ∈ h \/ exists p, p ∈ l /\ p ≠ nullrev /\ e = (sign * p, d)) /\
  (StronglySorted entry_le h -> StronglySorted entry_le h') /\
  (forall k, (forall p, p ∈ l -> p ≠ nullrev -> k < sign * p < bound) ->
     (weights h' <= length l * walk_weight width bound (k + 1) + weights h)%nat).
Proof.
  revert h. induction l as [|p l IH]; intros h; cbn [foldl].
  { split_and!; [set_solver|done|intros; lia]. }
  destruct (IH (if decide (p ≠ nullrev) then heappush2 (sign * p, d) h else h)) as (H1 & H2 & H3). split_and!.
  - intros e. rewrite H1. destruct (decide (p ≠ nullrev)) as [Hp|Hp].
    + rewrite elem_of_heappush2. split; [intros [[->|?]|(q & ? & ?)]|intros [?|(q & [->|Hq]%elem_of_cons & ? & ?)]].
      * right. exists p. set_solver.
      * by left.
      * right. exists q. set_solver.
      * left. by right.
      * left. by left.
      * right. by exists q.
    + split; [intros [?|(q & ? & ?)]|intros [?|(q & [->|Hq]%elem_of_cons & ? & ?)]]; [by left|right; exists q; set_solver|by left|done|right; by exists q].
  - intros Hs. apply H2. destruct (decide (p ≠ nullrev)); [by apply heappush2_sorted|done].
  - intros k Hk. specialize (H3 k (fun q Hq => Hk q ltac:(by right))). destruct (decide (p ≠ nullrev)) as [Hp|Hp].
    + rewrite weights_push in H3. cbn [fst] in H3. pose proof (Hk p ltac:(by left) Hp) as Hkp.
      assert (walk_weight width bound (sign * p) <= walk_weight width bound (k + 1))%nat.
      { unfold walk_weight. apply Nat.pow_le_mono_r; lia. }
      cbn [length]. lia.
    + cbn [length]. lia.
Qed.

(** ** One turn *)

(** What the invariant says of the input, for given heap and popped entries. *)
Definition input_ok (popped hp : list entry) (inrev : option Z) (irs : list Z) : Prop :=
  match inrev with
  | Some i => (sign * i, 0) ∈ hp /\ forall j, j ∈ irs -> sign * i < sign * j
  | None => irs = []
  end /\
  in_order irs /\ (forall r, r ∈ irs -> r ∈ inputs) /\
  forall r, r ∈ inputs -> (sign * r, 0) ∈ popped \/ inrev = Some r \/ r ∈ irs.

Lemma at_depth_input r : r ∈ inputs -> at_depth r 0.
Proof. intros Hr. split; [lia|]. exists r. split; [done|]. apply nsteps_O. Qed.

Lemma head_le st e hp x popped : winv popped st -> heap st = e :: hp -> x ∈ hp -> entry_le e x.
Proof.
  intros Hw E Hx. pose proof (wi_sorted _ _ Hw) as Hs. rewrite E in Hs.
  apply StronglySorted_cons in Hs as [HF _]. rewrite Forall_forall in HF. by apply HF.
Qed.

Lemma load_step_spec popped st e hp hp1 in1 ir1 :
  winv popped st -> heap st = e :: hp ->
  (if decide (inputrev st = Some (sign * e.1)) then load sign (irevs st) hp
   else (hp, inputrev st, irevs st)) = (hp1, in1, ir1) ->
  StronglySorted entry_le hp1 /\
  (forall x, x ∈ hp1 -> x ∈ hp \/ (x.1 < bound /\ at_depth (sign * x.1) x.2 /\ forall p, p ∈ popped ++ [e] -> entry_le p x)) /\
  (forall x, x ∈ hp -> x ∈ hp1) /\ input_ok (popped ++ [e]) hp1 in1 ir1 /\
  (weights hp1 + input_weights ir1 = weights hp + input_weights (irevs st))%nat.
Proof.
  intros Hw E Hl. pose proof (wi_sorted _ _ Hw) as Hs. rewrite E in Hs. apply StronglySorted_cons in Hs as [He Hs].
  rewrite Forall_forall in He. pose proof (wi_input _ _ Hw) as Hin. destruct (wi_irevs _ _ Hw) as (Hir & Hsub & Hall).
  destruct (decide (inputrev st = Some (sign * e.1))) as [Ei|Ei].
  - rewrite Ei in Hin. destruct Hin as [Hmem Hlt]. rewrite sign_invol in *.
    assert (e = (e.1, 0)) as Ee.
    { destruct (wi_sound _ _ Hw e ltac:(rewrite E; set_solver)) as [_ [[H0 _] _]].
      rewrite E in Hmem. apply elem_of_cons in Hmem as [Hm|Hm]; [by rewrite <- Hm|].
      apply He in Hm. unfold entry_le in Hm. cbn in Hm. destruct e as [k d]. cbn in *. f_equal. lia. }
    assert (forall r, r ∈ inputs -> (sign * r, 0) ∈ popped ++ [e] \/ r ∈ irevs st) as Hall'.
    { intros r Hr. destruct (Hall r Hr) as [?|[Hi|?]]; [left; set_solver| |by right].
      left. rewrite Ei in Hi. injection Hi as <-. rewrite sign_invol, <- Ee. set_solver. }
    unfold load in Hl. destruct (irevs st) as [|j irs] eqn:Ej; simplify_eq.
    + split_and!; [done|by left|done|unfold input_ok; split_and!; [done|done|set_solver|]|done].
      intros r Hr. destruct (Hall' r Hr); [by left|by right; right].
    + apply StronglySorted_cons in Hir as [Hj Hir]. rewrite Forall_forall in Hj. split_and!.
      * by apply heappush2_sorted.
      * intros x [->|?]%elem_of_heappush2; [|by left]. right. cbn [fst snd]. rewrite sign_invol.
        assert (j ∈ inputs) as Hjin by (apply Hsub; by left). split_and!; [by apply Hinputs|by apply at_depth_input|].
        intros p Hp. specialize (Hlt j ltac:(by left)). left. cbn.
        assert (p.1 <= e.1); [|lia]. apply elem_of_app in Hp as [Hp| ->%list_elem_of_singleton]; [|lia].
        pose proof (wi_order _ _ Hw p e Hp ltac:(rewrite E; by left)) as Ho. unfold entry_le in Ho. lia.
      * intros x Hx. apply elem_of_heappush2. by right.
      * unfold input_ok. split_and!; [apply elem_of_heappush2; by left|done|done|set_solver|].
        intros r Hr. destruct (Hall' r Hr) as [?|[->|?]%elem_of_cons]; [by left|right; by left|by right; right].
      * rewrite weights_push. unfold input_weights. cbn. lia.
  - simplify_eq. split_and!; [done|by left|done| |done]. unfold input_ok. split_and!; [|done|done|].
    + destruct (inputrev st) as [i|] eqn:Ein; [|done]. destruct Hin as [Hmem ?]. split; [|done].
      rewrite E in Hmem. apply elem_of_cons in Hmem as [Hm|?]; [|done]. destruct Ei. f_equal. rewrite <- Hm. cbn. by rewrite sign_invol.
    + intros r Hr. destruct (Hall r Hr) as [?|[?|?]]; [left; set_solver|by right; left|by right; right].
Qed.

(** The yielded revisions after a turn: [currev] is new unless it is the last one. *)
Lemma last_yielded popped st e hp :
  winv popped st -> heap st = e :: hp ->
  (forall x, x ∈ yielded st -> sign * x <= e.1) /\
  (lastrev st = Some (sign * e.1) <-> sign * e.1 ∈ yielded st).
Proof.
  intros Hw E. destruct (wi_out _ _ Hw) as [Hs Hl].
  assert (forall x, x ∈ yielded st -> sign * x <= e.1) as Hle.
  { intros x Hx. destruct (wi_yielded _ _ Hw x Hx) as (n & _ & Hn).
    pose proof (wi_order _ _ Hw _ e Hn ltac:(rewrite E; by left)) as Ho. unfold entry_le in Ho. cbn in Ho. lia. }
  split; [done|]. rewrite Hl. destruct (yielded st) as [|y ys _] using rev_ind; [cbn; set_solver|].
  rewrite last_snoc. split; [intros [= ->]; set_solver|]. intros Hin.
  apply elem_of_app in Hin as [Hin|Hin]; [|set_solver].
  apply StronglySorted_app in Hs as (Hs & _ & _). specialize (Hs _ y Hin ltac:(set_solver)).
  specialize (Hle y ltac:(set_solver)). rewrite sign_invol in Hs. lia.
Qed.

Lemma push_step_spec (new : bool) (c d : Z) (hp1 hp2 : list entry) :
  (if new && bool_decide (d + 1 < stop) then
     foldl (fun hp prev => if decide (prev ≠ nullrev) then heappush2 (sign * prev, d + 1) hp else hp) hp1 (pfunc c)
   else hp1) = hp2 ->
  sign * c < bound ->
  (StronglySorted entry_le hp1 -> StronglySorted entry_le hp2) /\
  (forall x, x ∈ hp2 -> x ∈ hp1 \/ exists p, parent pfunc c p /\ x = (sign * p, d + 1) /\ d + 1 < stop) /\
  (forall x, x ∈ hp1 -> x ∈ hp2) /\
  (new = true -> d + 1 < stop -> forall p, parent pfunc c p -> (sign * p, d + 1) ∈ hp2) /\
  (weights hp2 < walk_weight width bound (sign * c) + weights hp1)%nat.
Proof.
  intros <- Hc.
  assert (walk_weight width bound (sign * c) = S width * walk_weight width bound (sign * c + 1))%nat as Ew.
  { unfold walk_weight. replace (Z.to_nat (bound - sign * c)) with (S (Z.to_nat (bound - (sign * c + 1)))) by lia. done. }
  assert (1 <= walk_weight width bound (sign * c + 1))%nat as Hw1 by (unfold walk_weight; pose proof (Nat.pow_nonzero (S width) (Z.to_nat (bound - (sign * c + 1)))); lia).
  destruct (push_all_spec (d + 1) (pfunc c) hp1) as (H1 & H2 & H3).
  destruct new; cbn [andb]; [|split_and!; try done; [by left|nia]].
  destruct (bool_decide_reflect (d + 1 < stop)) as [Hd|Hd]; [|split_and!; try done; [by left|nia]].
  split_and!; [done| | | |].
  - intros x [?|(p & ? & ? & ->)]%H1; [by left|]. right. by exists p.
  - intros x Hx. apply H1. by left.
  - intros _ _ p [Hp Hn]. apply H1. right. by exists p.
  - specialize (H3 (sign * c)). assert (forall p, p ∈ pfunc c -> p ≠ nullrev -> sign * c < sign * p < bound) as Hk.
    { intros p Hp Hn. by apply Hinc. }
    specialize (H3 Hk). pose proof (Hwidth c). nia.
Qed.

Lemma at_depth_step c p d : at_depth c d -> parent pfunc c p -> d + 1 < stop -> at_depth p (d + 1).
Proof.
  intros [Hd (r & Hr & Hn)] Hp Hlt. split; [lia|]. exists r. split; [done|].
  replace (Z.to_nat (d + 1)) with (Z.to_nat d + 1)%nat by lia. eapply nsteps_trans; [done|]. by apply nsteps_once.
Qed.

Lemma walk_step_spec popped st e hp :
  winv popped st -> heap st = e :: hp ->
  let st' := walk_step pfunc sign start stop e (Walk hp (inputrev st) (irevs st) (lastrev st) (yielded st)) in
  winv (popped ++ [e]) st' /\
  (weights (heap st') + input_weights (irevs st') < weights (heap st) + input_weights (irevs st))%nat.
Proof.
  intros Hw E. unfold walk_step. cbn [inputrev irevs heap lastrev yielded].
  destruct (if decide (inputrev st = Some (sign * e.1)) then _ else _) as [[hp1 in1] ir1] eqn:El.
  destruct (load_step_spec popped st e hp hp1 in1 ir1 Hw E El) as (Hs1 & Hx1 & Hsub1 & (Hi1 & Hi2 & Hi3 & Hi4) & Hwt1).
  destruct (last_yielded popped st e hp Hw E) as [Hle Hlast]. set (c := sign * e.1) in *.
  assert (sign * c = e.1) as Ec by apply sign_invol.
  destruct (wi_sound _ _ Hw e ltac:(rewrite E; set_solver)) as [Heb Hed]. fold c in Hed.
  set (new := bool_decide (lastrev st ≠ Some c)).
  assert (new = true <-> c ∉ yielded st) as Hnew by (unfold new; rewrite bool_decide_eq_true, Hlast; done).
  set (yields := new && bool_decide (e.2 >= start)).
  destruct (push_step_spec new c e.2 hp1 _ eq_refl ltac:(lia)) as (Hq1 & Hq2 & Hq3 & Hq4 & Hq5).
  set (hp2 := if new && _ then _ else _) in *. rewrite Ec in Hq5. clearbody hp2 new.
  assert (yields = true -> start <= e.2) as Hys by (intros [_ ?%bool_decide_eq_true]%andb_true_iff; lia).
  assert (forall x, x ∈ (if yields then yielded st ++ [c] else yielded st) <-> x ∈ yielded st \/ (x = c /\ yields = true)) as Hy.
  { intros x. destruct yields; set_solver. }
  split; [|cbn [heap irevs]; rewrite E; unfold weights in *; cbn [map]; change (sum_list (?a :: ?b)) with (a + sum_list b)%nat; lia].
  split; cbn [heap inputrev irevs lastrev yielded].
  - by apply Hq1.
  - intros x [Hx|Hx]%elem_of_app; [apply (wi_sound _ _ Hw); rewrite E; set_solver|].
    apply Hq2 in Hx as [Hx|(p & Hp & -> & Hlt)]; [apply Hx1 in Hx as [?|(? & ? & ?)]; [apply (wi_sound _ _ Hw); rewrite E; set_solver|done]|].
    cbn [fst snd]. rewrite sign_invol. split; [by apply Hinc in Hp as [_ ?]|by eapply at_depth_step].
  - intros p x Hp Hx. apply Hq2 in Hx as [Hx|(q & Hq & -> & _)].
    + apply Hx1 in Hx as [Hx|(_ & _ & Hx)]; [|by apply Hx].
      apply elem_of_app in Hp as [Hp| ->%list_elem_of_singleton]; [apply (wi_order _ _ Hw); [done|rewrite E; by right]|by eapply head_le].
    + apply Hinc in Hq as [Hq _]. left. cbn [fst]. assert (p.1 <= e.1); [|lia].
      apply elem_of_app in Hp as [Hp| ->%list_elem_of_singleton]; [|lia].
      pose proof (wi_order _ _ Hw p e Hp ltac:(rewrite E; by left)) as Ho. unfold entry_le in Ho. lia.
  - destruct in1 as [i|]; [|done]. destruct Hi1. split; [by apply Hq3|done].
  - done.
  - assert (forall x, x ∈ popped ++ heap st -> x ∈ (popped ++ [e]) ++ hp2) as Hmono.
    { intros x. rewrite E, !elem_of_app, elem_of_cons, list_elem_of_singleton. intros [?|[->|?]]; [tauto|tauto|].
      right. by apply Hq3, Hsub1. }
    intros p x [Hp| ->%list_elem_of_singleton]%elem_of_app Hpar Hlt.
    { destruct (wi_closed _ _ Hw p x Hp Hpar Hlt) as (m & ? & ? & ?). exists m. split_and!; [done|done|by apply Hmono]. }
    fold c in Hpar. destruct new eqn:En.
    { exists e.2. split_and!; [lia|by left|]. apply elem_of_app. right. by apply Hq4. }
    destruct (decide (c ∈ yielded st)) as [Hc|Hc]; [|by apply Hnew in Hc].
    destruct (wi_yielded _ _ Hw c Hc) as (n & Hn & Hin). rewrite Ec in Hin.
    pose proof (wi_order _ _ Hw _ e Hin ltac:(rewrite E; by left)) as Ho. unfold entry_le in Ho. cbn in Ho.
    destruct (wi_closed _ _ Hw (e.1, n) x Hin Hpar ltac:(cbn; lia)) as (m & Hm1 & Hm2 & Hm3). cbn in Hm1, Hm2.
    exists m. split_and!; [lia|right; lia|by apply Hmono].
  - intros p [Hp| ->%list_elem_of_singleton]%elem_of_app Hst; apply Hy; [left; by apply (wi_yields _ _ Hw)|]. fold c.
    destruct (decide (c ∈ yielded st)) as [?|Hc]; [by left|]. right. split; [done|]. apply Hnew in Hc as ->.
    unfold yields. rewrite bool_decide_eq_true_2 by lia. done.
  - intros x [Hx|[-> Hyl]]%Hy; [destruct (wi_yielded _ _ Hw x Hx) as (n & ? & ?); exists n; split; [done|set_solver]|].
    exists e.2. split; [by apply Hys|]. rewrite Ec. apply elem_of_app. right. destruct e. by left.
  - destruct (wi_out _ _ Hw) as [Hso Hla]. destruct yields eqn:Ey; [|done]. split; [|by rewrite last_snoc].
    apply StronglySorted_app. split_and!; [|done|repeat constructor]. intros a b Ha ->%list_elem_of_singleton.
    pose proof (Hle a Ha). rewrite Ec. destruct (decide (sign * a = e.1)) as [Ea|]; [|lia].
    assert (c ∉ yielded st) as Hc by (apply Hnew; unfold yields in Ey; by apply andb_true_iff in Ey as [? _]).
    destruct Hc. unfold c. by rewrite <- Ea, sign_invol.
Qed.

Lemma depth_walk_loop_spec fuel popped st :
  winv popped st -> (weights (heap st) + input_weights (irevs st) <= fuel)%nat ->
  exists popped' st', walk_loop pfunc fuel sign start stop st = Ok (yielded st') /\ winv popped' st' /\ heap st' = [].
Proof.
  revert popped st. induction fuel as [|fuel IH]; intros popped st Hw Hf; cbn [walk_loop];
    destruct (heap st) as [|e hp] eqn:E; try (by exists popped, st).
  - assert (1 <= walk_weight width bound e.1)%nat by (unfold walk_weight; pose proof (Nat.pow_nonzero (S width) (Z.to_nat (bound - e.1))); lia).
    unfold weights in Hf. cbn [map] in Hf. change (sum_list (?a :: ?b)) with (a + sum_list b)%nat in Hf. lia.
  - destruct (walk_step_spec popped st e hp Hw E) as [Hw' Hlt]. rewrite E in Hlt. eapply IH; [done|]. lia.
Qed.

Lemma depth_winv_init l hp inrev irs :
  load sign l [] = (hp, inrev, irs) -> in_order l -> (forall r, r ∈ l <-> r ∈ inputs) ->
  winv [] (Walk hp inrev irs None []) /\ (weights hp + input_weights irs = input_weights l)%nat.
Proof.
  intros El Hs Hl. destruct l as [|r l]; cbn [load] in El; simplify_eq.
  - split; [|done]. split; cbn; try done; try set_solver. constructor.
  - apply StronglySorted_cons in Hs as [Hr Hs]. rewrite Forall_forall in Hr. split.
    + split; cbn; [repeat constructor| |by intros ? ? ?%not_elem_of_nil| | |by intros ? ? ?%not_elem_of_nil|
        by intros ? ?%not_elem_of_nil|by intros ? ?%not_elem_of_nil|].
      * intros e ->%list_elem_of_singleton. cbn. rewrite sign_invol. assert (r ∈ inputs) by (apply Hl; by left).
        split; [by apply Hinputs|by apply at_depth_input].
      * split; [by left|done].
      * split_and!; [done|intros x Hx; apply Hl; by right|]. intros x Hx. apply Hl, elem_of_cons in Hx as [->|?]; [right; by left|by right; right].
      * split; [constructor|done].
    + unfold weights, input_weights. cbn. lia.
Qed.

(** At the end every revision at a depth in range was popped at a depth that is
    at most this one and, when it is smaller, past the start. *)
Lemma popped_all popped st n r x :
  winv popped st -> heap st = [] -> r ∈ inputs -> nsteps (parent pfunc) n r x -> Z.of_nat n < stop ->
  exists m, m <= Z.of_nat n /\ (m = Z.of_nat n \/ start <= m) /\ (sign * x, m) ∈ popped.
Proof.
  intros Hw E Hr. revert x. induction n as [|n IH]; intros x Hn Hlt.
  - inversion Hn; subst. exists 0. split_and!; [lia|by left|].
    destruct (wi_irevs _ _ Hw) as (_ & _ & Hall). pose proof (wi_input _ _ Hw) as Hi.
    destruct (inputrev st) as [i|] eqn:Ei; [destruct Hi as [Hi _]; rewrite E in Hi; set_solver|].
    destruct (Hall x Hr) as [?|[?|Hx]]; [done|done|]. rewrite Hi in Hx. set_solver.
  - apply nsteps_inv_r in Hn as (y & Hy & Hp).
    destruct (IH y Hy ltac:(lia)) as (m & Hm1 & Hm2 & Hm3).
    destruct (wi_closed _ _ Hw (sign * y, m) x Hm3) as (k & Hk1 & Hk2 & Hk3); cbn [fst snd] in *; [by rewrite sign_invol|lia|].
    rewrite E, app_nil_r in Hk3. exists (k + 1). split_and!; [lia|lia|done].
Qed.

Lemma depth_walk_complete popped st x :
  winv popped st -> heap st = [] ->
  x ∈ yielded st <-> exists r n, r ∈ inputs /\ start <= Z.of_nat n < stop /\ nsteps (parent pfunc) n r x.
Proof.
  intros Hw E. split.
  - intros Hx. destruct (wi_yielded _ _ Hw x Hx) as (n & Hn & Hin).
    destruct (wi_sound _ _ Hw _ ltac:(apply elem_of_app; left; exact Hin)) as [_ [Hr (r & ? & Hs)]]. cbn in Hs, Hr.
    rewrite sign_invol in Hs. exists r, (Z.to_nat n). split_and!; [done|lia|lia|done].
  - intros (r & n & Hr & Hn & Hs). destruct (popped_all popped st n r x Hw E Hr Hs ltac:(lia)) as (m & Hm1 & Hm2 & Hm3).
    pose proof (wi_yields _ _ Hw _ Hm3 ltac:(cbn; lia)) as Hy. cbn in Hy. by rewrite sign_invol in Hy.
Qed.
End correctness.

(** The whole walk, in either direction. *)
Lemma walkrevtree_spec pfunc width bound revs startdepth stopdepth (reverse : bool) :
  let sign := if reverse then -1 else 1 in
  let start := default 0 startdepth in
  let stop := default maxlogdepth stopdepth in
  0 <= stop -> NoDup revs ->
  (forall r p, parent pfunc r p -> sign * r < sign * p < bound) ->
  (forall r, (length (pfunc r) <= width)%nat) -> (forall r, r ∈ revs -> sign * r < bound) ->
  exists out, walkrevtree pfunc width bound revs startdepth stopdepth reverse = Ok out /\
    StronglySorted (fun a b => sign * a < sign * b) out /\
    forall x, x ∈ out <-> exists r n, r ∈ revs /\ start <= Z.of_nat n < stop /\ nsteps (parent pfunc) n r x.
Proof.
  intros sign start stop Hstop Hnd Hinc Hw Hb. unfold walkrevtree. fold start stop sign.
  destruct (decide (stop = 0)) as [E0|E0].
  { exists []. split; [done|]. split; [constructor|]. intros x. split; [set_solver|]. intros (r & n & _ & ? & _). lia. }
  rewrite decide_False by lia. assert (sign = 1 \/ sign = -1) as Hsign by (unfold sign; destruct reverse; auto).
  assert (StronglySorted (fun a b => sign * a < sign * b) (sorted_as reverse revs)) as Hso.
  { unfold sorted_as, sign. destruct reverse; [assert (descending (rev (zsort revs))) as H by auto with hg|
      assert (ascending (zsort revs)) as H by auto with hg]; clear -H; induction H as [|x l ? ? HF]; constructor; try done;
      (eapply Forall_impl; [exact HF|]; cbn; lia). }
  assert (forall r, r ∈ sorted_as reverse revs <-> r ∈ revs) as Hmem.
  { intros r. unfold sorted_as. destruct reverse; by rewrite ?elem_of_rev, elem_of_zsort. }
  destruct (load sign (sorted_as reverse revs) []) as [[hp inrev] irs] eqn:El.
  destruct (depth_winv_init pfunc sign start stop width bound revs Hsign ltac:(lia) Hinc Hw Hb _ _ _ _ El Hso Hmem) as [Hi Hwt].
  destruct (depth_walk_loop_spec pfunc sign start stop width bound revs Hsign ltac:(lia) Hinc Hw Hb
    (input_weights sign width bound (sorted_as reverse revs)) [] _ Hi) as (popped & st & Eo & Hinv & Eh);
    [cbn [heap irevs]; lia|]. exists (yielded st). split; [exact Eo|]. split; [by apply (wi_out _ _ _ _ _ _ _ _ Hinv)|].
  intros x. eapply depth_walk_complete; [done|lia|done..].
Qed.

(** ** Ancestors *)

Lemma nsteps_impl (R R' : relation Z) n x y : (forall a b, R a b -> R' a b) -> nsteps R n x y -> nsteps R' n x y.
Proof. intros HR. induction 1; [constructor|]. econstructor; [by apply HR|done]. Qed.

Section graph.
Context (parentrevs : Z -> list Z) `{!RevDag parentrevs}.
Hypothesis two_parents : forall r, length (parentrevs r) = 2%nat.

Lemma cut_first_sub ff l x : x ∈ cut_first ff l -> x ∈ l.
Proof. destruct ff; cbn; [|done]. intros H. rewrite <- (take_drop 1 l), elem_of_app. by left. Qed.

(** The graph that a walk with [followfirst] sees. *)
Definition first_parents (ff : bool) (r : Z) : list Z := cut_first ff (parentrevs r).

#[local] Instance first_parents_dag ff : RevDag (first_parents ff).
Proof. split. intros r p Hp%cut_first_sub. by apply parents_below in Hp. Qed.

Lemma cut_pfunc_parent ff cutfunc r p :
  parent (cut_pfunc parentrevs ff cutfunc) r p <-> parent (first_parents ff) r p /\ cutfunc p = false.
Proof. unfold parent, cut_pfunc, first_parents. rewrite list_elem_of_filter. tauto. Qed.

Lemma length_cut_pfunc ff cutfunc r : (length (cut_pfunc parentrevs ff cutfunc r) <= 2)%nat.
Proof.
  unfold cut_pfunc. etransitivity; [apply length_filter|]. unfold cut_first.
  destruct ff; rewrite ?length_take, two_parents; lia.
Qed.

(** The walk from the revisions that are not cut. *)
Lemma revancestors_spec (revs : list Z) (followfirst : bool) (startdepth stopdepth : option Z) (cutfunc : Z -> bool) :
  NoDup revs -> (forall r, r ∈ revs -> 0 <= r) -> 0 <= default maxlogdepth stopdepth ->
  exists out, revancestors parentrevs revs followfirst startdepth stopdepth cutfunc = Ok out /\ descending out /\
    forall x, x ∈ out <->
      exists r n, r ∈ revs /\ cutfunc r = false /\
        default 0 startdepth <= Z.of_nat n < default maxlogdepth stopdepth /\
        nsteps (fun a b => parent (first_parents followfirst) a b /\ cutfunc b = false) n r x.
Proof.
  intros Hnd Hr Hstop. unfold revancestors.
  destruct (walkrevtree_spec (cut_pfunc parentrevs followfirst cutfunc) 2 2
    (filter (fun r => cutfunc r = false) revs) startdepth stopdepth true) as (out & -> & Hs & Hout).
  - done.
  - by apply NoDup_filter.
  - intros r p [Hp _]%cut_pfunc_parent. apply parent_below in Hp; [lia|apply _].
  - apply length_cut_pfunc.
  - intros r [_ Hin]%list_elem_of_filter. apply Hr in Hin. lia.
  - exists out. split; [done|]. split.
    { clear -Hs. induction Hs as [|x l ? ? HF]; constructor; [done|]. eapply Forall_impl; [exact HF|]. cbn. lia. }
    intros x. rewrite Hout. split.
    + intros (r & n & [? ?]%list_elem_of_filter & H1 & H2). exists r, n. split_and!; try done; try lia.
      eapply nsteps_impl; [|exact H2]. intros a b. apply cut_pfunc_parent.
    + intros (r & n & ? & ? & H1 & H2). exists r, n. split_and!; try lia; [by apply list_elem_of_filter|].
      eapply nsteps_impl; [|exact H2]. intros a b. apply cut_pfunc_parent.
Qed.

(** [revancestors] terminates and yields in descending order, each once,
    exactly the revisions that are at least [startdepth] and less than
    [stopdepth] steps below a given one, along paths that [cutfunc] does not
    cut and that follow first parents only when asked to. *)
Theorem revancestors_correct (revs : list Z) (followfirst : bool) (startdepth stopdepth : option Z) (cutfunc : Z -> bool) :
  NoDup revs -> (forall r, r ∈ revs -> 0 <= r) -> 0 <= default maxlogdepth stopdepth ->
  exists out, revancestors parentrevs revs followfirst startdepth stopdepth cutfunc = Ok out /\ descending out /\
    forall x, x ∈ out <->
      exists r n, r ∈ revs /\ cutfunc r = false /\
        default 0 startdepth <= Z.of_nat n < default maxlogdepth stopdepth /\
        nsteps (fun a b => parent (first_parents followfirst) a b /\ cutfunc b = false) n r x.
Proof. apply revancestors_spec. Qed.

(** ** Descendants without a depth *)

Section descendants.
Context (len : Z) (ff : bool) (revs : list Z).
Hypothesis Hrevs : forall r, r ∈ revs -> 0 <= r < len.

Notation pf := (first_parents ff).

Definition below (x : Z) : Prop := exists r, r ∈ revs /\ anc pf r x.

Lemma has_seen_parent_spec seen i :
  has_seen_parent parentrevs ff seen i = true <-> exists p, parent pf i p /\ p ∈ seen.
Proof.
  unfold has_seen_parent. rewrite existsb_exists. unfold parent. setoid_rewrite bool_decide_eq_true.
  setoid_rewrite <- list_elem_of_In. split; intros (p & H); exists p; unfold first_parents in *; tauto.
Qed.

Lemma scan_loop_spec i seen :
  (forall y, y < i -> y ∈ seen <-> below y) -> (forall y, y ∈ seen -> below y) -> (forall r, r ∈ revs -> r ∈ seen) ->
  ascending (descendants_loop parentrevs ff (zrange i len) seen) /\
  forall x, x ∈ descendants_loop parentrevs ff (zrange i len) seen <-> i <= x < len /\ below x.
Proof.
  remember (Z.to_nat (len - i)) as n eqn:En. revert i seen En. induction n as [|n IH]; intros i seen En H1 H2 H3.
  { unfold zrange. rewrite seqZ_nil by lia. cbn. split; [constructor|]. intros x. split; [set_solver|lia]. }
  assert (zrange i len = i :: zrange (i + 1) len) as ->.
  { unfold zrange. rewrite seqZ_cons by lia. f_equal. f_equal; lia. }
  cbn [descendants_loop].
  assert (forall seen', (forall y, y < i + 1 -> y ∈ seen' <-> below y) -> (forall y, y ∈ seen' -> below y) -> seen ⊆ seen' ->
    let l := descendants_loop parentrevs ff (zrange (i + 1) len) seen' in
    (below i -> ascending (i :: l) /\ forall x, x ∈ i :: l <-> i <= x < len /\ below x) /\
    (~ below i -> ascending l /\ forall x, x ∈ l <-> i <= x < len /\ below x)) as Hstep.
  { intros seen' Hs1 Hs2 Hs3 l. destruct (IH (i + 1) seen' ltac:(lia) Hs1 Hs2 ltac:(set_solver)) as [Ha Hl]. fold l in Ha, Hl.
    split; intros Hb; (split; [|intros x]).
    - constructor; [done|]. apply Forall_forall. intros x Hx. apply Hl in Hx. lia.
    - rewrite elem_of_cons, Hl. split; [intros [->|?]; [split; [lia|done]|split; [lia|tauto]]|].
      intros [? ?]. destruct (decide (x = i)); [by left|right; split; [lia|done]].
    - done.
    - rewrite Hl. split; [intros [? ?]; split; [lia|done]|]. intros [? ?]. split; [|done].
      destruct (decide (x = i)) as [->|]; [done|lia]. }
  destruct (decide (i ∈ seen)) as [Hi|Hi].
  { apply Hstep; [|done|done|by apply H2]. intros y Hy. destruct (decide (y = i)) as [->|]; [|apply H1; lia].
    split; [intros _; by apply H2|done]. }
  assert (has_seen_parent parentrevs ff seen i = true <-> below i) as Hpar.
  { rewrite has_seen_parent_spec. split.
    - intros (p & Hp & (r & Hr & Ha)%H2). exists r. split; [done|]. eapply anc_trans; [exact Ha|]. by apply anc_parent.
    - intros (r & Hr & Ha). apply anc_cases in Ha as [->|(p & Hp & Ha)]; [by destruct Hi; apply H3|].
      exists p. split; [done|]. apply H1; [apply parent_below in Hp; [lia|apply _]|by exists r]. }
  destruct (has_seen_parent parentrevs ff seen i).
  - apply Hstep; [| |set_solver|by apply Hpar].
    + intros y Hy. rewrite elem_of_union, elem_of_singleton. destruct (decide (y = i)) as [->|].
      * split; [intros _; by apply Hpar|by left].
      * rewrite H1 by lia. split; [intros [?|?]; [lia|done]|by right].
    + intros y [->%elem_of_singleton|?]%elem_of_union; [by apply Hpar|by apply H2].
  - assert (~ below i) as Hnb by (intros C; by apply Hpar in C).
    apply Hstep; [|done|done|done]. intros y Hy. destruct (decide (y = i)) as [->|]; [|apply H1; lia]. split; [by intros ?%H2|done].
Qed.

Lemma min_rev_spec : revs ≠ [] -> exists first, min_rev revs = Ok first /\ first ∈ revs /\ forall r, r ∈ revs -> first <= r.
Proof.
  destruct revs as [|r0 l]; [done|]. intros _. exists (foldr Z.min r0 l). split; [done|]. clear.
  induction l as [|y l [IH1 IH2]]; cbn; [split; [by left|by intros r ->%list_elem_of_singleton]|].
  split; [destruct (Z.min_spec y (foldr Z.min r0 l)) as [[_ ->]|[_ ->]]; set_solver|].
  intros r [->|[->|H]%elem_of_cons]%elem_of_cons; [specialize (IH2 r0 ltac:(by left))|lia|specialize (IH2 r ltac:(by right))]; lia.
Qed.

Lemma genrevdescendants_spec :
  revs ≠ [] ->
  exists out, genrevdescendants parentrevs len revs ff = Ok out /\ ascending out /\ forall x, x ∈ out <-> x < len /\ below x.
Proof.
  intros Hne. destruct (min_rev_spec Hne) as (first & E & Hin & Hmin). unfold genrevdescendants. rewrite E. cbn [rbind].
  pose proof (Hrevs first Hin). rewrite decide_False by (unfold nullrev; lia).
  assert (forall y, below y -> first <= y) as Hb.
  { intros y (r & Hr & Ha). apply anc_le in Ha; [|apply _]. specialize (Hmin r Hr). lia. }
  destruct (scan_loop_spec first (list_to_set revs)) as [Ha Hl].
  - intros y Hy. split; [intros Hy'; apply elem_of_list_to_set, Hmin in Hy'; lia|intros Hy'%Hb; lia].
  - intros y Hy%elem_of_list_to_set. exists y. split; [done|apply anc_refl].
  - intros r Hr. by apply elem_of_list_to_set.
  - eexists. split; [done|]. split; [done|]. intros x. rewrite Hl. split; [intros [? ?]; split; [lia|done]|].
    intros [? Hx]. split; [|done]. specialize (Hb x Hx). lia.
Qed.
End descendants.

(** ** Descendants by depth *)

Section children.
Context (len startrev : Z) (ff : bool).
Hypothesis Hstart : 0 <= startrev.

Notation pf := (first_parents ff).

(** The entry of revision [r] in a map. *)
Definition children_of (m : list (list Z)) (r : Z) : list Z := default [] (m !! Z.to_nat (r - startrev)).

Lemma append_at_spec m p c r :
  startrev <= p < startrev + Z.of_nat (length m) -> startrev <= r ->
  children_of (append_at (p - startrev) c m) r = children_of m r ++ (if decide (r = p) then [c] else []).
Proof.
  intros Hp Hr. unfold children_of, append_at. destruct (decide (r = p)) as [->|Hne].
  - destruct (lookup_lt_is_Some_2 m (Z.to_nat (p - startrev)) ltac:(lia)) as [l E].
    rewrite list_lookup_alter_eq, E. done.
  - rewrite list_lookup_alter_ne by lia. by rewrite app_nil_r.
Qed.

Lemma length_append_at i c m : length (append_at i c m) = length m.
Proof. apply length_alter. Qed.

(** One revision adds itself to the entries of its parents. *)
Lemma add_child_spec m c :
  startrev < c < startrev + Z.of_nat (length m) ->
  length (add_child parentrevs startrev ff m c) = length m /\
  forall r, startrev <= r -> exists new,
    children_of (add_child parentrevs startrev ff m c) r = children_of m r ++ new /\ (length new <= 2)%nat /\
    (forall x, x ∈ new <-> x = c /\ parent pf c r).
Proof.
  intros Hc. unfold add_child. pose proof (two_parents c) as H2.
  destruct (parentrevs c) as [|p1 [|p2 [|]]] eqn:Ep; try done.
  assert (p1 = nullrev \/ 0 <= p1 < c) as B1 by (apply (@parents_below parentrevs RevDag0); rewrite Ep; by left).
  assert (p2 = nullrev \/ 0 <= p2 < c) as B2 by (apply (@parents_below parentrevs RevDag0); rewrite Ep; set_solver).
  assert (forall r, parent pf c r <-> r ≠ nullrev /\ (r = p1 \/ (ff = false /\ r = p2))) as Hpar.
  { intros r. unfold parent, first_parents. rewrite Ep. destruct ff; cbn; set_solver. }
  set (m1 := if decide (p1 >= startrev) then _ else _).
  assert (length m1 = length m) as L1 by (unfold m1; destruct (decide _); [apply length_append_at|done]).
  split. { destruct (decide (ff = false /\ p2 ≠ nullrev /\ p2 >= startrev)); [by rewrite length_append_at|done]. }
  intros r Hr.
  assert (children_of m1 r = children_of m r ++ (if decide (r = p1) then [c] else [])) as E1.
  { unfold m1. destruct (decide (p1 >= startrev)); [apply append_at_spec; [unfold nullrev in *; lia|done]|].
    rewrite decide_False by lia. by rewrite app_nil_r. }
  destruct (decide (ff = false /\ p2 ≠ nullrev /\ p2 >= startrev)) as [(Hf & Hn & Hge)|Hno].
  - exists ((if decide (r = p1) then [c] else []) ++ (if decide (r = p2) then [c] else [])). split_and!.
    + rewrite append_at_spec, E1 by (rewrite ?L1; unfold nullrev in *; lia). by rewrite <- (assoc_L (++)).
    + destruct (decide (r = p1)), (decide (r = p2)); cbn; lia.
    + intros x. rewrite elem_of_app, Hpar. unfold nullrev in *. destruct (decide (r = p1)), (decide (r = p2)); set_solver by lia.
  - exists (if decide (r = p1) then [c] else []). split_and!; [done|destruct (decide (r = p1)); cbn; lia|].
    intros x. rewrite Hpar. unfold nullrev in *. destruct (decide (r = p1)) as [->|Hr1].
    + rewrite list_elem_of_singleton. split; [intros ->; split; [done|]; split; [lia|by left]|by intros [? _]].
    + split; [by intros ?%not_elem_of_nil|]. intros (_ & _ & [?|[? ->]]); [done|]. destruct Hno. split_and!; [done|lia|lia].
Qed.

Lemma add_children_spec cs m r :
  (forall c, c ∈ cs -> startrev < c < startrev + Z.of_nat (length m)) -> startrev <= r ->
  exists new, children_of (foldl (add_child parentrevs startrev ff) m cs) r = children_of m r ++ new /\
    (length new <= 2 * length cs)%nat /\ forall x, x ∈ new <-> x ∈ cs /\ parent pf x r.
Proof.
  revert m. induction cs as [|c cs IH]; intros m Hcs Hr; cbn [foldl].
  { exists []. rewrite app_nil_r. split_and!; [done|done|set_solver]. }
  destruct (add_child_spec m c (Hcs c ltac:(by left))) as [L E]. destruct (E r Hr) as (n1 & E1 & L1 & H1).
  destruct (IH (add_child parentrevs startrev ff m c)) as (n2 & E2 & L2 & H2); [|done|].
  { intros x Hx. rewrite L. apply Hcs. by right. }
  exists (n1 ++ n2). split_and!.
  - by rewrite E2, E1, <- (assoc_L (++)).
  - rewrite length_app. cbn. lia.
  - intros x. rewrite elem_of_app, H1, H2, elem_of_cons. split; [intros [[-> ?]|[? ?]]; tauto|].
    intros [[->|?] ?]; [by left|by right].
Qed.

Lemma descmap_spec r :
  startrev < len -> startrev <= r ->
  (length (children_of (builddescendantsmap parentrevs len startrev ff) r) <= 2 * Z.to_nat len)%nat /\
  forall c, c ∈ children_of (builddescendantsmap parentrevs len startrev ff) r <-> startrev < c < len /\ parent pf c r.
Proof.
  intros Hl Hr. unfold builddescendantsmap.
  destruct (add_children_spec (zrange (startrev + 1) len) (replicate (Z.to_nat (len - startrev)) []) r) as (new & E & Ln & Hn); [|done|].
  { intros c Hc%elem_of_zrange. rewrite length_replicate. lia. }
  rewrite E. assert (children_of (replicate (Z.to_nat (len - startrev)) []) r = []) as ->.
  { unfold children_of. destruct (replicate _ _ !! _) eqn:El; [|done]. by apply lookup_replicate in El as [-> _]. }
  cbn [app]. split; [unfold zrange in Ln; rewrite length_seqZ in Ln; lia|].
  intros c. rewrite Hn, elem_of_zrange. split; intros [? ?]; (split; [lia|done]).
Qed.
End children.

Lemma children_of_low startrev m r : children_of startrev m r = children_of startrev m (Z.max startrev r).
Proof. unfold children_of. by replace (Z.to_nat (Z.max startrev r - startrev)) with (Z.to_nat (r - startrev)) by lia. Qed.

Lemma nsteps_below ff n x r : nsteps (parent (first_parents ff)) n x r -> r + Z.of_nat n <= x /\ anc (first_parents ff) r x.
Proof.
  intros Hn. split; [|by apply rtc_nsteps_2 in Hn]. induction Hn as [|n x y z Hxy _ IH]; [lia|].
  apply parent_below in Hxy; [lia|apply _].
Qed.

(** Steps to children in the map are steps to parents backwards. *)
Lemma nsteps_children len startrev ff n r x :
  0 <= startrev < len -> startrev <= r < len ->
  nsteps (parent (children_of startrev (builddescendantsmap parentrevs len startrev ff))) n r x <->
  x < len /\ nsteps (parent (first_parents ff)) n x r.
Proof.
  intros Hs Hr. revert r Hr. induction n as [|n IH]; intros r Hr.
  - split; [inversion 1; subst; split; [lia|constructor]|intros [_ H]; inversion H; subst; constructor].
  - split.
    + inversion 1 as [|? ? c ? [Hc _] Hn]; subst. apply descmap_spec in Hc as [Hc Hp]; [|lia..].
      apply IH in Hn as [? Hn]; [|lia]. split; [done|]. by eapply nsteps_r.
    + intros [Hx (c & Hn & Hp)%nsteps_inv_r]. pose proof (proj1 (nsteps_below _ _ _ _ Hn)).
      pose proof (parent_below _ _ _ Hp) as Hb.
      econstructor; [split; [apply descmap_spec; try lia; (split; [|exact Hp]; lia)|unfold nullrev; lia]|].
      apply IH; [lia|done].
Qed.

(** The scan and the walk by depth. *)
Lemma revdescendants_spec (len : Z) (revs : list Z) (followfirst : bool) (startdepth stopdepth : option Z) :
  len <= maxlogdepth -> revs ≠ [] -> NoDup revs -> (forall r, r ∈ revs -> 0 <= r < len) ->
  0 <= default maxlogdepth stopdepth ->
  exists out, revdescendants parentrevs len revs followfirst startdepth stopdepth = Ok out /\ ascending out /\
    forall x, x ∈ out <->
      exists r n, r ∈ revs /\ x < len /\
        default 0 startdepth <= Z.of_nat n < default maxlogdepth stopdepth /\
        nsteps (parent (first_parents followfirst)) n x r.
Proof.
  intros Hlen Hne Hnd Hr Hstop. destruct (decide (startdepth = None /\ stopdepth = None)) as [[-> ->]|Hd].
  - destruct (genrevdescendants_spec len followfirst revs Hr Hne) as (out & E & Ha & Hx). exists out.
    split; [done|]. split; [done|]. intros x. rewrite Hx. cbn [default]. split.
    + intros [Hl (r & Hin & Hanc)]. apply rtc_nsteps_1 in Hanc as [n Hn]. exists r, n.
      pose proof (proj1 (nsteps_below _ _ _ _ Hn)). specialize (Hr r Hin). split_and!; try done; unfold id; lia.
    + intros (r & n & Hin & Hl & _ & Hn). split; [done|]. exists r. split; [done|]. by eapply nsteps_below.
  - assert (revdescendants parentrevs len revs followfirst startdepth stopdepth =
            genrevdescendantsofdepth parentrevs len revs followfirst startdepth stopdepth) as ->.
    { destruct startdepth, stopdepth; try done. by destruct Hd. }
    destruct (min_rev_spec len revs Hr Hne) as (startrev & E & Hin & Hmin). unfold genrevdescendantsofdepth. rewrite E. cbn [rbind].
    pose proof (Hr startrev Hin) as Hsr.
    change (walkrevtree _ ?w ?b ?r ?s ?t ?v) with
      (walkrevtree (children_of startrev (builddescendantsmap parentrevs len startrev followfirst)) w b r s t v).
    destruct (walkrevtree_spec (children_of startrev (builddescendantsmap parentrevs len startrev followfirst))
      (2 * Z.to_nat len) len revs startdepth stopdepth false) as (out & -> & Hs & Hout); try done.
    + intros r p [Hp _]. rewrite children_of_low in Hp. apply descmap_spec in Hp as [Hp Hpar]; [|lia..].
      apply parent_below in Hpar; [lia|apply _].
    + intros r. rewrite children_of_low. apply descmap_spec; lia.
    + intros r Hin'. specialize (Hr r Hin'). lia.
    + exists out. split; [done|]. split.
      { clear -Hs. induction Hs as [|x l ? ? HF]; constructor; [done|]. eapply Forall_impl; [exact HF|]. cbn. lia. }
      intros x. rewrite Hout. split; intros (r & n & Hin' & H); exists r, n; specialize (Hr r Hin'); specialize (Hmin r Hin').
      * destruct H as [H1 H2]. apply nsteps_children in H2 as [? ?]; [|lia..]. done.
      * destruct H as (H1 & H2 & H3). split; [done|]. split; [done|]. apply nsteps_children; [lia..|done].
Qed.

(** [revdescendants] terminates and yields in ascending order, each once,
    exactly the revisions of the changelog that are at least [startdepth] and
    less than [stopdepth] steps above a given one; both implementations, the
    scan and the walk by depth, satisfy it. *)
Theorem revdescendants_correct (len : Z) (revs : list Z) (followfirst : bool) (startdepth stopdepth : option Z) :
  len <= maxlogdepth -> revs ≠ [] -> NoDup revs -> (forall r, r ∈ revs -> 0 <= r < len) ->
  0 <= default maxlogdepth stopdepth ->
  exists out, revdescendants parentrevs len revs followfirst startdepth stopdepth = Ok out /\ ascending out /\
    forall x, x ∈ out <->
      exists r n, r ∈ revs /\ x < len /\
        default 0 startdepth <= Z.of_nat n < default maxlogdepth stopdepth /\
        nsteps (parent (first_parents followfirst)) n x r.
Proof. apply revdescendants_spec. Qed.
End graph.

#[local] Instance diamond_dag : RevDag diamond.
Proof.
  split. intros r p. unfold diamond, nullrev.
  destruct r as [|[[]|[[]|[]|]|]|]; cbn; set_solver by lia.
Qed.

Lemma diamond_two r : length (diamond r) = 2%nat.
Proof. destruct r as [|[[]|[[]|[]|]|]|]; reflexivity. Qed.

Lemma revancestors_correct_witness :
  exists out, revancestors diamond [4] false (Some 1) (Some 3) (fun r => bool_decide (r = 1)) = Ok out /\ descending out /\
    forall x, x ∈ out <->
      exists r n, r ∈ [4] /\ bool_decide (r = 1) = false /\ 1 <= Z.of_nat n < 3 /\
        nsteps (fun a b => parent (first_parents diamond false) a b /\ bool_decide (b = 1) = false) n r x.
Proof.
  apply (revancestors_correct diamond diamond_two [4] false (Some 1) (Some 3) (fun r => bool_decide (r = 1))).
  - apply (bool_decide_unpack _). vm_compute. exact I.
  - intros r ->%list_elem_of_singleton. lia.
  - cbn. lia.
Defined.

Lemma revdescendants_correct_witness :
  exists out, revdescendants diamond 5 [2; 0] false (Some 1) (Some 2) = Ok out /\ ascending out /\
    forall x, x ∈ out <->
      exists r n, r ∈ [2; 0] /\ x < 5 /\ 1 <= Z.of_nat n < 2 /\ nsteps (parent (first_parents diamond false)) n x r.
Proof.
  apply (revdescendants_correct diamond diamond_two 5 [2; 0] false (Some 1) (Some 2)).
  - unfold maxlogdepth. lia.
  - discriminate.
  - apply (bool_decide_unpack _). vm_compute. exact I.
  - intros r Hr. repeat (apply elem_of_cons in Hr as [->|Hr]; [lia|]). by apply not_elem_of_nil in Hr.
  - cbn. lia.
Defined.
End RevWalk.
