(* ===== verification/Bisect.v ===== *)
(** * Bisection ([bisect] of hbisect.py)

    The candidates between the good and the bad revisions are collected by a
    breadth-first search from the bad side; the revision to test next is the one
    whose ancestors among the candidates come closest to half of them.  Nodes are
    identified with their revisions. *)

From S2P Require Import Prelude Dag RevWalk.

Module Bisect.

(** The bisect state; the list [current] is not used here. *)
Record state := State { good : list Z; bad : list Z; skip : list Z }.

(** [(nodes, number, good, badnode, goodnode)] *)
Record result := Result {
  r_nodes : list Z;
  r_number : Z;
  r_good : bool;
  r_badnode : Z;
  r_goodnode : Z
}.

(** [checkstate] *)
Definition checkstate (st : state) : res bool :=
  if decide (good st ≠ [] /\ bad st ≠ []) then Ok true
  else if decide (good st = []) then Err (Abort "cannot bisect (no known good revisions)")
  else Err (Abort "cannot bisect (no known bad revisions)").

Section bisect.
Context (parentrevs : Z -> list Z) (len : Z).

Definition max_rev (revs : list Z) : res Z :=
  match revs with [] => Err ValueError | r :: revs => Ok (foldr Z.max r revs) end.

(** [repo.revs("descendants(%ln) - ancestors(%ln)", good, good)] *)
Definition after_good (good : list Z) : res (gset Z) :=
  let revs := elements (list_to_set good : gset Z) in
  let* d := RevWalk.revdescendants parentrevs len revs false None None in
  let* a := RevWalk.revancestors parentrevs revs false None None (fun _ => false) in
  Ok (list_to_set d ∖ list_to_set a).

(** The dictionary [ancestors]: a revision that is missing has the value
    [None]. *)
Notation ancmap := (gmap Z (list Z)).

Definition buildancestors (bad good : list Z) : res (Z * Z * option ancmap) :=
  let* badrev := RevWalk.min_rev bad in
  let* goodrev := max_rev good in
  let* revs := after_good good in
  Ok (badrev, goodrev, if decide (badrev ∈ revs) then Some (gset_to_gmap [] revs) else None).

(** ** The candidates *)

Record search := Search { visit : list Z; children : gmap Z (list Z); candidates : list Z }.

(** [for prev in clparents(rev): if prev != -1] *)
Definition add_parent (rev : Z) (st : gmap Z (list Z) * list Z) (prev : Z) : gmap Z (list Z) * list Z :=
  let '(children, visit) := st in
  if decide (prev = nullrev) then st
  else match children !! prev with
       | Some cs => (<[prev := cs ++ [rev]]> children, visit)
       | None => (<[prev := [rev]]> children, visit ++ [prev])
       end.

Fixpoint search_loop (fuel : nat) (ancestors : ancmap) (st : search) : res search :=
  match visit st with
  | [] => Ok st
  | rev :: rest =>
      match fuel with
      | O => Err OutOfFuel
      | S fuel =>
          search_loop fuel ancestors
            (if decide (ancestors !! rev = Some []) then
               let '(children, rest) := foldl (add_parent rev) (children st, rest) (parentrevs rev) in
               Search rest children (candidates st ++ [rev])
             else Search rest (children st) (candidates st))
      end
  end.

(** ** The best candidate *)

Record best := Best {
  b_ancestors : ancmap;
  b_poison : gset Z;
  b_rev : option Z;
  b_len : Z
}.

(** [children.get(rev, [])] *)
Definition children_get (children : gmap Z (list Z)) (rev : Z) : list Z := default [] (children !! rev).

(** [list(set(l))] *)
Definition py_list_set (l : list Z) : list Z := elements (list_to_set l : gset Z).

(** [for c in children.get(rev, [])] at the end of the loop *)
Definition extend_child (a : list Z) (am : ancmap) (c : Z) : ancmap :=
  match am !! c with
  | Some ((_ :: _) as l) => <[c := py_list_set (l ++ a)]> am
  | _ => <[c := a ++ [c]]> am
  end.

Fixpoint best_loop (children : gmap Z (list Z)) (skip : list Z) (tot perfect : Z) (revs : list Z) (st : best) : best :=
  match revs with
  | [] => st
  | rev :: revs =>
      if decide (rev ∈ b_poison st) then
        best_loop children skip tot perfect revs
          (Best (b_ancestors st) (b_poison st ∪ list_to_set (children_get children rev)) (b_rev st) (b_len st))
      else
        let a := match b_ancestors st !! rev with Some ((_ :: _) as l) => l | _ => [rev] end in
        let am := delete rev (b_ancestors st) in
        let x := Z.of_nat (length a) in
        let y := tot - x in
        let value := Z.min x y in
        let better := bool_decide (value > b_len st /\ rev ∉ skip) in
        let brev := if better then Some rev else b_rev st in
        let blen := if better then value else b_len st in
        if better && bool_decide (value = perfect) then Best am (b_poison st) brev blen
        else if decide (y < perfect /\ rev ∉ skip) then
          best_loop children skip tot perfect revs
            (Best am (b_poison st ∪ list_to_set (children_get children rev)) brev blen)
        else
          best_loop children skip tot perfect revs
            (Best (foldl (extend_child a) am (children_get children rev)) (b_poison st) brev blen)
  end.

(** The part of [bisect] after the range has been found. *)
Definition bisect_range (skip : list Z) (goodflag : bool) (badrev goodrev : Z) (ancestors : ancmap) : res result :=
  let* st := search_loop (S (S (Z.to_nat badrev))) ancestors (Search [badrev] ∅ []) in
  let cands := zsort (candidates st) in
  let tot := Z.of_nat (length cands) in
  let unskipped := filter (fun c => c ∉ skip /\ c ≠ badrev) cands in
  if decide (tot = 1 \/ unskipped = []) then Ok (Result cands 0 goodflag badrev goodrev)
  else
    let perfect := tot / 2 in
    let b := best_loop (children st) skip tot perfect cands (Best ancestors ∅ None (-1)) in
    match b_rev b with
    | Some r => Ok (Result [r] tot goodflag badrev goodrev)
    | None => Err AssertionError
    end.

(** [bisect] *)
Definition bisect (st : state) : res result :=
  let* (badrev, goodrev, ancestors) := buildancestors (bad st) (good st) in
  match ancestors with
  | Some ancestors => bisect_range (skip st) false badrev goodrev ancestors
  | None =>
      let* (badrev, goodrev, ancestors) := buildancestors (good st) (bad st) in
      match ancestors with
      | Some ancestors => bisect_range (skip st) true badrev goodrev ancestors
      | None =>
          if decide (length (bad st) = 1%nat /\ length (good st) = 1%nat /\ bad st ≠ good st)
          then Err (Abort "starting revisions are not directly related")
          else Err (Abort "inconsistent state, a revision is good and bad")
      end
  end.
End bisect.

(** A line of seven revisions with a side branch 2, 4 merged by 5. *)
Definition graph7 (r : Z) : list Z :=
  match r with
  | 1 => [0; -1] | 2 => [1; -1] | 3 => [1; -1] | 4 => [2; -1] | 5 => [3; 4] | 6 => [5; -1] | _ => [-1; -1]
  end.

Example bisect_example :
  bisect graph7 7 (State [0] [6] []) = Ok (Result [4] 6 false 6 0) /\
  bisect graph7 7 (State [0] [6] [3; 4; 2]) = Ok (Result [1] 6 false 6 0) /\
  bisect graph7 7 (State [0] [1] []) = Ok (Result [1] 0 false 1 0) /\
  bisect graph7 7 (State [6] [0] []) = Ok (Result [4] 6 true 6 0) /\
  bisect graph7 7 (State [3] [2] []) = Err (Abort "starting revisions are not directly related").
Proof. vm_compute. done. Qed.
(** ** Correctness *)

Section correctness.
Context (pfunc : Z -> list Z) `{!RevDag pfunc}.

#[local] Existing Instance anc_dec.

Section steps.
Hypothesis two_parents : forall r, length (pfunc r) = 2%nat.
Context (len : Z).
Hypothesis Hlen : len <= RevWalk.maxlogdepth.

(** ** The range *)

Definition good_anc (good : list Z) (x : Z) : Prop := exists g, g ∈ good /\ anc pfunc g x.
Definition anc_good (good : list Z) (x : Z) : Prop := exists g, g ∈ good /\ anc pfunc x g.

Lemma nsteps_plain n r x : nsteps (fun a b => parent (RevWalk.first_parents pfunc false) a b /\ false = false) n r x -> anc pfunc x r.
Proof. intros H. apply (rtc_nsteps_2 n). eapply RevWalk.nsteps_impl; [|exact H]. by intros a b [? _]. Qed.

Lemma anc_steps x r : anc pfunc x r -> exists n, nsteps (parent pfunc) n r x /\ x + Z.of_nat n <= r.
Proof.
  intros [n Hn]%rtc_nsteps_1. exists n. split; [done|]. induction Hn as [|n a b c Hab _ IH]; [lia|].
  apply parent_below in Hab; [lia|done].
Qed.

Lemma after_good_spec good :
  good ≠ [] -> (forall g, g ∈ good -> 0 <= g < len) ->
  exists s, after_good pfunc len good = Ok s /\ forall x, x ∈ s <-> x < len /\ good_anc good x /\ ~ anc_good good x.
Proof.
  intros Hne Hg. unfold after_good. set (revs := elements (list_to_set good : gset Z)).
  assert (forall x, x ∈ revs <-> x ∈ good) as Hr by (intros x; unfold revs; by rewrite elem_of_elements, elem_of_list_to_set).
  assert (revs ≠ []) as Hne'.
  { destruct good as [|g l]; [done|]. intros C. assert (g ∈ revs) as Hin by (apply Hr; by left). rewrite C in Hin. set_solver. }
  assert (NoDup revs) as Hnd by apply NoDup_elements.
  destruct (RevWalk.revdescendants_spec pfunc two_parents len revs false None None Hlen Hne' Hnd) as (d & -> & _ & Hd);
    [intros r Hin; by apply Hg, Hr|cbn; unfold RevWalk.maxlogdepth; lia|]. cbn [rbind].
  destruct (RevWalk.revancestors_spec pfunc two_parents revs false None None (fun _ => false) Hnd) as (a & -> & _ & Ha);
    [intros r Hin; by apply Hg, Hr|cbn; unfold RevWalk.maxlogdepth; lia|]. cbn [rbind].
  eexists. split; [done|]. intros x. rewrite elem_of_difference, !elem_of_list_to_set, Hd, Ha. cbn [default].
  assert ((exists r n, r ∈ revs /\ false = false /\ 0 <= Z.of_nat n < id RevWalk.maxlogdepth /\
    nsteps (fun a b => parent (RevWalk.first_parents pfunc false) a b /\ false = false) n r x) <-> anc_good good x) as Ean.
  { split.
    - intros (r & n & Hin & _ & _ & Hn). exists r. split; [by apply Hr|]. by eapply nsteps_plain.
    - intros (g & Hin & Han). destruct (anc_steps x g Han) as (n & Hn & Hle). exists g, n. specialize (Hg g Hin).
      pose proof (anc_nonneg pfunc x g Han ltac:(lia)). unfold id.
      split; [by apply Hr|]. split; [done|]. split; [lia|]. eapply RevWalk.nsteps_impl; [|exact Hn]. by intros. }
  rewrite Ean. assert ((exists r n, r ∈ revs /\ x < len /\ 0 <= Z.of_nat n < id RevWalk.maxlogdepth /\
    nsteps (parent (RevWalk.first_parents pfunc false)) n x r) <-> x < len /\ good_anc good x) as Ede.
  { split.
    - intros (r & n & Hin & Hx & _ & Hn). split; [done|]. exists r. split; [by apply Hr|]. by apply (rtc_nsteps_2 n).
    - intros [Hx (g & Hin & Han)]. destruct (anc_steps g x Han) as (n & Hn & Hle). exists g, n. specialize (Hg g Hin).
      unfold id. split; [by apply Hr|]. split; [lia|]. split; [lia|exact Hn]. }
  rewrite Ede. tauto.
Qed.

(** ** The search for candidates *)

Section search.
Context (s : gset Z) (badrev : Z).
Hypothesis Hbad : 0 <= badrev.

Notation am0 := (gset_to_gmap ([] : list Z) s).

Definition enqueued (ch : gmap Z (list Z)) (x : Z) : Prop := x = badrev \/ is_Some (ch !! x).

(** Revisions not yet enqueued. *)
Definition fresh (ch : gmap Z (list Z)) : nat := length (filter (fun x => ch !! x = None) (zrange 0 badrev)).

Lemma fresh_insert_le (ch : gmap Z (list Z)) p cs l :
  (length (filter (fun x => <[p:=cs]> ch !! x = None) l) <= length (filter (fun x => ch !! x = None) l))%nat.
Proof.
  induction l as [|x l IH]; [done|]. rewrite !filter_cons. destruct (decide (x = p)) as [->|Hne].
  - rewrite lookup_insert_eq, decide_False by done. destruct (decide _); cbn; lia.
  - rewrite lookup_insert_ne by done. destruct (decide _); cbn; lia.
Qed.

Lemma fresh_insert ch p cs : 0 <= p < badrev -> ch !! p = None -> (fresh (<[p:=cs]> ch) < fresh ch)%nat.
Proof.
  intros Hp Hn. unfold fresh. assert (p ∈ zrange 0 badrev) as Hin by (apply elem_of_zrange; lia). revert Hin.
  generalize (zrange 0 badrev). induction l as [|x l IH]; intros Hin; [set_solver|]. rewrite !filter_cons.
  destruct (decide (x = p)) as [->|Hne].
  - rewrite lookup_insert_eq, decide_False, decide_True by done. cbn. pose proof (fresh_insert_le ch p cs l). lia.
  - rewrite lookup_insert_ne by done. apply elem_of_cons in Hin as [?|Hin]; [done|]. specialize (IH Hin). destruct (decide _); cbn; lia.
Qed.

(** The parents of a revision are given to their children lists. *)
Lemma add_parents_spec rev ps ch vs ch' vs' :
  foldl (add_parent rev) (ch, vs) ps = (ch', vs') ->
  (forall p, p ∈ ps -> p ≠ nullrev -> 0 <= p < badrev) ->
  exists new, vs' = vs ++ new /\ NoDup new /\
    (forall x, x ∈ new <-> x ∈ ps /\ x ≠ nullrev /\ ch !! x = None) /\
    (forall x, is_Some (ch' !! x) <-> is_Some (ch !! x) \/ (x ∈ ps /\ x ≠ nullrev)) /\
    (forall p c, c ∈ children_get ch' p <-> c ∈ children_get ch p \/ (c = rev /\ p ∈ ps /\ p ≠ nullrev)) /\
    (length new + fresh ch' <= fresh ch)%nat.
Proof.
  revert ch vs. induction ps as [|p ps IH]; intros ch vs; cbn [foldl].
  { intros [= <- <-] _. exists []. rewrite app_nil_r. split_and!; try done; try set_solver. constructor. }
  intros E Hps. unfold add_parent at 2 in E. destruct (decide (p = nullrev)) as [Hp|Hp].
  { apply IH in E as (new & -> & Hnd & H1 & H2 & H3 & H4); [|intros; apply Hps; [by right|done]].
    exists new. split_and!; try done; intros; rewrite ?H1, ?H2, ?H3; set_solver. }
  assert (0 <= p < badrev) as Hpr by (apply Hps; [by left|done]).
  assert (forall cs, is_Some (<[p:=cs]> ch !! p)) as Hsome by (intros; rewrite lookup_insert_eq; done).
  assert (forall cs x, is_Some (<[p:=cs]> ch !! x) <-> is_Some (ch !! x) \/ x = p) as Hins.
  { intros cs x. destruct (decide (x = p)) as [->|]; [rewrite lookup_insert_eq; naive_solver|rewrite lookup_insert_ne by done; naive_solver]. }
  assert (forall cs x, children_get (<[p:=cs]> ch) x = if decide (x = p) then cs else children_get ch x) as Hget.
  { intros cs x. unfold children_get. destruct (decide (x = p)) as [->|]; [by rewrite lookup_insert_eq|by rewrite lookup_insert_ne]. }
  destruct (ch !! p) as [cs|] eqn:Ep.
  - apply IH in E as (new & -> & Hnd & H1 & H2 & H3 & H4); [|intros; apply Hps; [by right|done]]. exists new. split_and!; try done.
    + intros x. rewrite H1. destruct (decide (x = p)) as [->|Hne]; [rewrite lookup_insert_eq, Ep; naive_solver|].
      rewrite lookup_insert_ne by done. set_solver.
    + intros x. rewrite H2, Hins, elem_of_cons. naive_solver.
    + intros q c. rewrite H3, Hget, elem_of_cons. destruct (decide (q = p)) as [->|Hne].
      * unfold children_get. rewrite Ep. cbn [default]. unfold id. rewrite elem_of_app, list_elem_of_singleton. naive_solver.
      * naive_solver.
    + pose proof (fresh_insert_le ch p (cs ++ [rev]) (zrange 0 badrev)). unfold fresh in *. lia.
  - apply IH in E as (new & -> & Hnd & H1 & H2 & H3 & H4); [|intros; apply Hps; [by right|done]]. exists (p :: new). split_and!.
    + by rewrite <- (assoc_L (++)).
    + constructor; [|done]. rewrite H1, lookup_insert_eq. naive_solver.
    + intros x. rewrite !elem_of_cons, H1. destruct (decide (x = p)) as [->|Hne]; [naive_solver|]. rewrite lookup_insert_ne by done. naive_solver.
    + intros x. rewrite H2, Hins, elem_of_cons. naive_solver.
    + intros q c. rewrite H3, Hget, elem_of_cons. destruct (decide (q = p)) as [->|Hne].
      * unfold children_get. rewrite Ep, list_elem_of_singleton. cbn [default]. set_solver.
      * naive_solver.
    + pose proof (fresh_insert ch p [rev] Hpr Ep). cbn. lia.
Qed.

Record sinv (st : search) : Prop := {
  s_nodup : NoDup (visit st) /\ NoDup (candidates st);
  s_visit : forall x, x ∈ visit st -> enqueued (children st) x /\ x ∉ candidates st;
  s_below : forall x, is_Some (children st !! x) -> sanc pfunc x badrev;
  s_cands : forall x, x ∈ candidates st -> x ∈ s /\ enqueued (children st) x;
  s_all : forall x, enqueued (children st) x -> x ∈ visit st \/ x ∈ candidates st \/ x ∉ s;
  s_parents : forall c p, c ∈ candidates st -> parent pfunc c p -> is_Some (children st !! p);
  s_children : forall p c, c ∈ children_get (children st) p <-> c ∈ candidates st /\ parent pfunc c p
}.

Notation step_of rev rest st := (
  if decide (am0 !! rev = Some []) then
    let '(ch, rest) := foldl (add_parent rev) (children st, rest) (pfunc rev) in
    Search rest ch (candidates st ++ [rev])
  else Search rest (children st) (candidates st)).

Lemma search_step st rev rest :
  sinv st -> visit st = rev :: rest ->
  sinv (step_of rev rest st) /\
  (length (visit (step_of rev rest st)) + fresh (children (step_of rev rest st)) < length (visit st) + fresh (children st))%nat.
Proof.
  intros [[Hn1 Hn2] Hv Hb Hc Ha Hp Hch] Ev. rewrite Ev in Hn1, Hv, Ha. apply NoDup_cons in Hn1 as [Hn0 Hn1].
  destruct (Hv rev ltac:(by left)) as [Hrev Hnc].
  assert (rev ∈ s <-> am0 !! rev = Some []) as Hs.
  { rewrite lookup_gset_to_gmap. destruct (decide (rev ∈ s)) as [Hin|Hin].
    - rewrite option_guard_True by done. naive_solver.
    - rewrite option_guard_False by done. naive_solver. }
  destruct (decide (am0 !! rev = Some [])) as [Hin|Hin].
  - apply Hs in Hin. destruct (foldl (add_parent rev) (children st, rest) (pfunc rev)) as [ch rest'] eqn:E.
    assert (anc pfunc rev badrev) as Hanc.
    { destruct Hrev as [->|H]; [apply anc_refl|by apply sanc_anc, Hb]. }
    apply add_parents_spec in E as (new & -> & Hnd & H1 & H2 & H3 & H4).
    2:{ intros p Hpp Hpn. assert (0 <= p < rev) as Hpr by (apply (parent_below pfunc); by split). apply anc_le in Hanc; [lia|done]. }
    assert (forall x, x ∈ pfunc rev -> x ≠ nullrev -> sanc pfunc x badrev) as Hsan.
    { intros x Hx Hxn. assert (parent pfunc rev x) as Hpx by by split.
      destruct Hrev as [->|H]; [apply sanc_cases; exists x; split; [done|apply anc_refl]|].
      eapply tc_rtc_l; [by apply rtc_refl|]. eapply tc_transitive; [by apply Hb|]. by apply tc_once. }
    assert (badrev ∉ new) as Hbn.
    { intros C. apply H1 in C as (C1 & C2 & _). specialize (Hsan badrev C1 C2). apply sanc_lt in Hsan; [lia|done]. }
    cbn [visit children candidates]. split; [|rewrite Ev; cbn; rewrite length_app; lia]. split; cbn [visit children candidates].
    + split; [apply NoDup_app; split_and!; [done| |done]|apply NoDup_app; split_and!; [done|set_solver|apply NoDup_singleton]].
      intros x Hx C. apply H1 in C as (? & ? & C3). destruct (Hv x ltac:(by right)) as [[->|[? Hx']] _]; [|by rewrite C3 in Hx'].
      apply Hbn, H1. done.
    + intros x [Hx|Hx]%elem_of_app.
      * destruct (Hv x ltac:(by right)) as [Hx1 Hx2]. split; [destruct Hx1 as [?|?]; [by left|right; apply H2; by left]|set_solver].
      * pose proof Hx as (Hx1 & Hx2 & Hx3)%H1. split; [right; apply H2; right; done|]. rewrite elem_of_app, list_elem_of_singleton. intros [C|C].
        -- destruct (Hc x C) as [_ [->|[? C']]]; [done|by rewrite Hx3 in C'].
        -- subst x. assert (rev < rev); [|lia]. by apply (parent_below pfunc).
    + intros x [?|[? ?]]%H2; [by apply Hb|by apply Hsan].
    + intros x [Hx|Hx]%elem_of_app.
      * destruct (Hc x Hx) as [? [->|?]]; (split; [done|]); [by left|right; apply H2; by left].
      * apply list_elem_of_singleton in Hx as ->. split; [done|]. destruct Hrev as [->|?]; [by left|right; apply H2; by left].
    + intros x Hx. assert (enqueued (children st) x \/ x ∈ new) as [Hx'|Hx'].
      { destruct Hx as [->|Hx]; [left; by left|]. apply H2 in Hx as [?|[? ?]]; [left; by right|].
        destruct (children st !! x) eqn:Ex; [left; right; by rewrite Ex|right; by apply H1]. }
      * destruct (Ha x Hx') as [[->|?]%elem_of_cons|[?|?]]; [right; left; set_solver|left; set_solver|right; left; set_solver|by right; right].
      * left. set_solver.
    + intros c p [Hx| ->%list_elem_of_singleton]%elem_of_app Hpar; apply H2; [left; by eapply Hp|right; by destruct Hpar].
    + intros p c. rewrite H3, Hch, elem_of_app, list_elem_of_singleton. unfold parent. naive_solver.
  - cbn [visit children candidates]. split; [|rewrite Ev; cbn; lia]. split; cbn [visit children candidates]; try done.
    + intros x Hx. apply Hv. by right.
    + intros x Hx. destruct (Ha x Hx) as [[->|?]%elem_of_cons|?]; [right; right; intros C; by apply Hin, Hs|by left|by right].
Qed.

Lemma search_loop_spec fuel st :
  sinv st -> (length (visit st) + fresh (children st) <= fuel)%nat ->
  exists st', search_loop pfunc fuel am0 st = Ok st' /\ sinv st' /\ visit st' = [].
Proof.
  revert st. induction fuel as [|fuel IH]; intros st Hi Hf; cbn [search_loop]; destruct (visit st) as [|rev rest] eqn:Ev; try (by exists st).
  - cbn in Hf. lia.
  - destruct (search_step st rev rest Hi Ev) as [Hi' Hlt]. apply IH; [done|]. rewrite Ev in Hlt. cbn in *. lia.
Qed.

(** The candidates are the revisions of the range below the bad one, when the
    range contains everything between two of its elements. *)
Lemma candidates_spec :
  badrev ∈ s -> (forall x y, x ∈ s -> anc pfunc x y -> anc pfunc y badrev -> y ∈ s) ->
  exists st, search_loop pfunc (S (S (Z.to_nat badrev))) am0 (Search [badrev] ∅ []) = Ok st /\
    NoDup (candidates st) /\ (forall x, x ∈ candidates st <-> x ∈ s /\ anc pfunc x badrev) /\
    (forall p c, c ∈ children_get (children st) p <-> c ∈ candidates st /\ parent pfunc c p).
Proof.
  intros Hbs Hconv.
  destruct (search_loop_spec (S (S (Z.to_nat badrev))) (Search [badrev] ∅ [])) as (st & -> & [[_ Hn] _ Hb Hc Ha Hp Hch] & Ev).
  - split; cbn; try done.
    + split; [apply NoDup_singleton|constructor].
    + intros x ->%list_elem_of_singleton. split; [by left|set_solver].
    + intros x [? Hx]. by rewrite lookup_empty in Hx.
    + set_solver.
    + intros x [->|[? Hx]]; [left; by left|by rewrite lookup_empty in Hx].
    + set_solver.
    + intros p c. unfold children_get. rewrite lookup_empty. cbn. set_solver.
  - cbn. unfold fresh. etransitivity; [apply le_n_S, length_filter|]. unfold zrange. rewrite length_seqZ. lia.
  - exists st. split; [done|]. split; [done|]. split; [|done]. intros x. split.
    + intros Hx. destruct (Hc x Hx) as [? [->|Hs]]; (split; [done|]); [apply anc_refl|by apply sanc_anc, Hb].
    + intros [Hx Hanc]. assert (forall y, anc pfunc y badrev -> y ∈ s -> y ∈ candidates st) as H; [|by apply H].
      clear x Hx Hanc. intros y Hy. unfold anc in Hy.
      revert y Hy. refine (rtc_ind_r _ badrev _ _).
      * intros _. destruct (Ha badrev ltac:(by left)) as [H|[?|?]]; [rewrite Ev in H; set_solver|done|done].
      * intros y z Hy Hyz IH Hys. assert (y ∈ candidates st) as Hyc by (apply IH, (Hconv z y Hys); [by apply anc_parent|done]).
        destruct (Ha z ltac:(right; by eapply Hp)) as [H|[?|?]]; [rewrite Ev in H; set_solver|done|done].
Qed.
End search.

(** ** The best candidate *)

Section best.
Context (C skip : list Z) (ch : gmap Z (list Z)).
Hypothesis HC : ascending C.
Hypothesis Hch : forall p c, c ∈ children_get ch p <-> c ∈ C /\ parent pfunc c p.
Hypothesis Hconv : forall x y z, x ∈ C -> z ∈ C -> anc pfunc x y -> anc pfunc y z -> y ∈ C.

(** The candidates that are ancestors of [r], and how good a test [r] is. *)
Definition cand_anc (r : Z) : list Z := filter (fun x => anc pfunc x r) C.
Definition tot : Z := Z.of_nat (length C).
Definition nanc (r : Z) : Z := Z.of_nat (length (cand_anc r)).
Definition value (r : Z) : Z := Z.min (nanc r) (tot - nanc r).

Lemma elem_of_cand_anc r x : x ∈ cand_anc r <-> x ∈ C /\ anc pfunc x r.
Proof. unfold cand_anc. rewrite list_elem_of_filter. tauto. Qed.

Lemma nodup_cand_anc r : NoDup (cand_anc r).
Proof. apply NoDup_filter. auto with hg. Qed.

Lemma nanc_mono q r : anc pfunc q r -> nanc q <= nanc r.
Proof.
  intros H. unfold nanc. apply inj_le, (submseteq_length (cand_anc q)), NoDup_submseteq; [apply nodup_cand_anc|].
  intros x. rewrite !elem_of_cand_anc. intros [? ?]. split; [done|]. by eapply anc_trans.
Qed.

Lemma nanc_bounds r : 0 <= nanc r <= tot.
Proof. unfold nanc, tot, cand_anc. pose proof (length_filter (fun x => anc pfunc x r) C). lia. Qed.

Lemma value_max r : value r <= tot / 2.
Proof.
  unfold value. pose proof (nanc_bounds r). pose proof (Z.div_mod tot 2 ltac:(lia)). pose proof (Z.mod_pos_bound tot 2 ltac:(lia)). lia.
Qed.

(** A list that enumerates the ancestors has the right length. *)
Lemma nanc_unique a r : NoDup a -> (forall x, x ∈ a <-> x ∈ C /\ anc pfunc x r) -> Z.of_nat (length a) = nanc r.
Proof.
  intros Ha Hx. unfold nanc. f_equal. apply Permutation_length, NoDup_Permutation; [done|apply nodup_cand_anc|].
  intros x. by rewrite Hx, elem_of_cand_anc.
Qed.

Record binv (pre rest : list Z) (N : gset Z) (st : best) : Prop := {
  bi_split : C = pre ++ rest;
  bi_normal : forall p, p ∈ N -> p ∈ pre;
  bi_pre : forall p, p ∈ pre -> p ∈ N \/ forall c, c ∈ C -> parent pfunc c p -> c ∈ b_poison st;
  bi_lists : forall r, r ∈ rest -> exists l, b_ancestors st !! r = Some l /\ NoDup l /\
      forall x, x ∈ l <-> exists p, p ∈ N /\ parent pfunc r p /\ ((x ∈ C /\ anc pfunc x p) \/ x = r);
  bi_best : -1 <= b_len st /\
      match b_rev st with Some b => b ∈ pre /\ b ∉ skip /\ value b = b_len st | None => b_len st = -1 end;
  bi_max : forall r, r ∈ pre -> r ∉ skip -> value r <= b_len st;
  bi_poison : forall r, r ∈ b_poison st -> exists q, q ∈ pre /\ q ∉ skip /\ tot - nanc q < tot / 2 /\ anc pfunc q r
}.

(** A poisoned candidate is no better than the one that poisoned it. *)
Lemma poisoned_value pre rest N st r :
  binv pre rest N st -> r ∈ b_poison st -> value r <= b_len st.
Proof.
  intros Hi Hr. destruct (bi_poison _ _ _ _ Hi r Hr) as (q & Hq & Hs & Hy & Ha).
  pose proof (bi_max _ _ _ _ Hi q Hq Hs) as Hv. pose proof (nanc_mono q r Ha). pose proof (nanc_bounds r).
  pose proof (Z.div_mod tot 2 ltac:(lia)). pose proof (Z.mod_pos_bound tot 2 ltac:(lia)). unfold value in *. lia.
Qed.

(** What the code computes for a candidate that is not poisoned. *)
Lemma ancestors_of pre r rest N st :
  binv pre (r :: rest) N st -> r ∉ b_poison st ->
  let a := match b_ancestors st !! r with Some ((_ :: _) as l) => l | _ => [r] end in
  NoDup a /\ forall x, x ∈ a <-> x ∈ C /\ anc pfunc x r.
Proof.
  intros Hi Hnp. pose proof (bi_split _ _ _ _ Hi) as EC.
  assert (r ∈ C) as HrC by (rewrite EC; set_solver).
  assert (forall x, x ∈ C -> anc pfunc x r -> x ≠ r -> exists p, p ∈ N /\ parent pfunc r p /\ anc pfunc x p) as Hup.
  { intros x Hx Ha Hne. apply anc_cases in Ha as [?|(p & Hp & Ha)]; [done|]. exists p. split; [|done].
    assert (p ∈ C) as HpC by (apply (Hconv x p r); [done|done|done|by apply anc_parent]).
    pose proof (parent_below pfunc r p Hp).
    assert (p ∈ pre) as Hpp.
    { rewrite EC in HpC. apply elem_of_app in HpC as [?|HpC]; [done|]. pose proof HC as HC'. rewrite EC in HC'.
      apply StronglySorted_app in HC' as (_ & _ & Hs). apply StronglySorted_cons in Hs as [HF _]. rewrite Forall_forall in HF.
      apply elem_of_cons in HpC as [->|HpC]; [lia|]. apply HF in HpC. lia. }
    destruct (bi_pre _ _ _ _ Hi p Hpp) as [?|Hpo]; [done|]. by destruct Hnp; apply Hpo. }
  destruct (bi_lists _ _ _ _ Hi r ltac:(by left)) as (l & -> & Hnd & Hl).
  destruct l as [|y l]; cbn zeta.
  - split; [apply NoDup_singleton|]. intros x. rewrite list_elem_of_singleton. split; [intros ->; split; [done|apply anc_refl]|].
    intros [Hx Ha]. destruct (decide (x = r)) as [|Hne]; [done|]. destruct (Hup x Hx Ha Hne) as (p & Hp & Hpr & Hap).
    assert (x ∈ []) as H; [apply Hl; exists p; tauto|set_solver].
  - split; [done|]. intros x. rewrite Hl. split.
    + intros (p & Hp & Hpr & [[? Ha]| ->]); [|split; [done|apply anc_refl]]. split; [done|]. eapply anc_trans; [exact Ha|by apply anc_parent].
    + intros [Hx Ha]. destruct (decide (x = r)) as [->|Hne].
      * assert (y ∈ y :: l) as Hy by by left. apply Hl in Hy as (p & ? & ? & _). exists p. tauto.
      * destruct (Hup x Hx Ha Hne) as (p & ? & ? & ?). exists p. tauto.
Qed.

Lemma extend_children a cs (am : gmap Z (list Z)) :
  NoDup a -> (forall c, c ∈ cs -> c ∉ a /\ exists l, am !! c = Some l /\ NoDup l /\ (l = [] \/ c ∈ l)) ->
  forall c l, am !! c = Some l ->
    (c ∉ cs -> foldl (extend_child a) am cs !! c = Some l) /\
    (c ∈ cs -> exists l', foldl (extend_child a) am cs !! c = Some l' /\ NoDup l' /\ forall x, x ∈ l' <-> x ∈ l \/ x ∈ a \/ x = c).
Proof.
  intros Ha. revert am. induction cs as [|d cs IH]; intros am Hcs c l Hl; cbn [foldl]; [by split; [|set_solver]|].
  destruct (Hcs d ltac:(by left)) as (Hda & ld & Eld & Hnd & Hd).
  assert (exists l', extend_child a am d = <[d:=l']> am /\ NoDup l' /\ forall x, x ∈ l' <-> x ∈ ld \/ x ∈ a \/ x = d) as (ld' & -> & Hnd' & Hld').
  { unfold extend_child. rewrite Eld. destruct ld as [|y ld].
    - exists (a ++ [d]). split_and!; [done|apply NoDup_app; split_and!; [done|set_solver|apply NoDup_singleton]|set_solver].
    - exists (py_list_set ((y :: ld) ++ a)). unfold py_list_set. split; [done|]. split; [apply NoDup_elements|]. intros x. rewrite elem_of_elements, elem_of_list_to_set, elem_of_app.
      destruct Hd as [?|Hd]; [done|]. split; [tauto|]. intros [?|[?| ->]]; tauto. }
  assert (forall x, x ∈ cs -> x ∉ a /\ exists l, <[d:=ld']> am !! x = Some l /\ NoDup l /\ (l = [] \/ x ∈ l)) as Hcs'.
  { intros x Hx. destruct (Hcs x ltac:(by right)) as (? & lx & Elx & ? & ?). split; [done|].
    destruct (decide (x = d)) as [->|]; [exists ld'; rewrite lookup_insert_eq; split_and!; [done|done|right; apply Hld'; tauto]|].
    exists lx. rewrite lookup_insert_ne by done. done. }
  destruct (decide (c = d)) as [->|Hne].
  - rewrite Eld in Hl. simplify_eq. destruct (IH (<[d:=ld']> am) Hcs' d ld' (lookup_insert_eq _ _ _)) as [H1 H2].
    split; [set_solver|]. intros _. destruct (decide (d ∈ cs)) as [Hin|Hin].
    + destruct (H2 Hin) as (l' & -> & ? & Hl'). exists l'. split_and!; [done|done|]. intros x. rewrite Hl', Hld'. tauto.
    + exists ld'. by rewrite H1.
  - destruct (IH (<[d:=ld']> am) Hcs' c l ltac:(by rewrite lookup_insert_ne)) as [H1 H2].
    split; [intros Hc; apply H1; set_solver|]. intros Hc. apply H2. set_solver.
Qed.

Lemma later_child pre r rest c : C = pre ++ r :: rest -> c ∈ C -> parent pfunc c r -> c ∈ rest.
Proof.
  intros EC Hc Hp. apply parent_below in Hp; [|done]. pose proof HC as HC'. rewrite EC in HC', Hc.
  apply StronglySorted_app in HC' as (Hlt & _ & _).
  apply elem_of_app in Hc as [Hc|[->|Hc]%elem_of_cons]; [|lia|done].
  specialize (Hlt c r Hc ltac:(by left)). lia.
Qed.

Lemma rest_ne pre r rest x : C = pre ++ r :: rest -> x ∈ rest -> x ≠ r.
Proof.
  intros EC Hx ->. pose proof HC as HC'. rewrite EC in HC'. apply StronglySorted_app in HC' as (_ & _ & Hs).
  apply StronglySorted_cons in Hs as [HF _]. rewrite Forall_forall in HF. apply HF in Hx. lia.
Qed.

(** The best candidate after [r]: kept or replaced. *)
Lemma better_spec pre r rest N st :
  binv pre (r :: rest) N st ->
  let better := bool_decide (value r > b_len st /\ r ∉ skip) in
  let brev := if better then Some r else b_rev st in
  let blen := if better then value r else b_len st in
  b_len st <= blen /\ (r ∉ skip -> value r <= blen) /\
  match brev with Some b => b ∈ pre ++ [r] /\ b ∉ skip /\ value b = blen | None => blen = -1 end.
Proof.
  intros Hi. cbn zeta. destruct (bi_best _ _ _ _ Hi) as [Hb Hm].
  destruct (bool_decide_reflect (value r > b_len st /\ r ∉ skip)) as [[H1 H2]|H].
  - split_and!; [lia|lia|set_solver|done|done].
  - split_and!; [lia|intros Hs; destruct (decide (value r > b_len st)); [by destruct H|lia]|].
    destruct (b_rev st); [|done]. destruct Hm as (? & ? & ?). set_solver.
Qed.

Lemma best_loop_spec rest pre N st :
  binv pre rest N st -> (exists c, c ∈ C /\ c ∉ skip) ->
  exists b, b_rev (best_loop ch skip tot (tot / 2) rest st) = Some b /\ b ∈ C /\ b ∉ skip /\
    forall c, c ∈ C -> c ∉ skip -> value c <= value b.
Proof.
  revert pre N st. induction rest as [|r rest IH]; intros pre N st Hi (u & Hu & Hus); cbn [best_loop].
  - pose proof (bi_split _ _ _ _ Hi) as EC. rewrite app_nil_r in EC. destruct (bi_best _ _ _ _ Hi) as [_ Hb].
    pose proof (bi_max _ _ _ _ Hi) as Hm. destruct (b_rev st) as [b|].
    + destruct Hb as (H1 & H2 & H3). exists b. split_and!; [done|by rewrite EC|done|]. intros c Hc Hcs. rewrite H3. apply Hm; [by rewrite <- EC|done].
    + specialize (Hm u ltac:(by rewrite <- EC) Hus). pose proof (nanc_bounds u). unfold value in Hm. lia.
  - pose proof (bi_split _ _ _ _ Hi) as EC. assert (r ∈ C) as HrC by (rewrite EC; set_solver).
    assert (C = (pre ++ [r]) ++ rest) as EC' by (by rewrite <- (assoc_L (++))).
    destruct (decide (r ∈ b_poison st)) as [Hpo|Hpo].
    { apply (IH (pre ++ [r]) N); [|by exists u]. pose proof (poisoned_value _ _ _ _ r Hi Hpo) as Hpv.
      destruct Hi as [_ Hn Hp Hl Hb Hm Hq]. split; cbn; try done.
      - set_solver.
      - intros p [Hx| ->%list_elem_of_singleton]%elem_of_app.
        + destruct (Hp p Hx) as [?|H]; [by left|right]. intros c Hc Hpc. specialize (H c Hc Hpc). set_solver.
        + right. intros c Hc Hpc. apply elem_of_union. right. apply elem_of_list_to_set, Hch. done.
      - intros x Hx. apply Hl. by right.
      - split; [apply Hb|]. destruct Hb as [_ Hb]. destruct (b_rev st); set_solver.
      - intros x [Hx| ->%list_elem_of_singleton]%elem_of_app; [by apply Hm|done].
      - intros x [Hx|Hx]%elem_of_union.
        + destruct (Hq x Hx) as (q & ? & ? & ? & ?). exists q. set_solver.
        + apply elem_of_list_to_set, Hch in Hx as [_ Hx]. destruct (Hq r Hpo) as (q & ? & ? & ? & ?).
          exists q. split_and!; [set_solver|done|done|]. eapply anc_trans; [done|by apply anc_parent]. }
    destruct (ancestors_of pre r rest N st Hi Hpo) as [Hnd Ha].
    set (a := match b_ancestors st !! r with Some ((_ :: _) as l) => l | _ => [r] end) in *.
    rewrite (nanc_unique a r Hnd Ha). fold (value r).
    destruct (better_spec pre r rest N st Hi) as (Hb1 & Hb2 & Hb3).
    set (better := bool_decide (value r > b_len st /\ r ∉ skip)) in *.
    set (brev := if better then Some r else b_rev st) in *. set (blen := if better then value r else b_len st) in *.
    assert (forall x, x ∈ pre ++ [r] -> x ∉ skip -> value x <= blen) as Hmax.
    { intros x [Hx| ->%list_elem_of_singleton]%elem_of_app Hxs; [|by apply Hb2]. pose proof (bi_max _ _ _ _ Hi x Hx Hxs). lia. }
    destruct (bi_best _ _ _ _ Hi) as [Hb0 _].
    assert (better && bool_decide (value r = tot / 2) = true -> better = true /\ value r = tot / 2) as Hbk
      by (intros [? ?%bool_decide_eq_true]%andb_true_iff; done).
    destruct (better && bool_decide (value r = tot / 2)) eqn:Ebk.
    { destruct (Hbk eq_refl) as [Ebt Ev]. exists r. cbn [b_rev]. unfold brev. rewrite Ebt. split_and!; try done.
      - unfold better in Ebt. by apply bool_decide_eq_true in Ebt as [_ ?].
      - intros c _ _. rewrite Ev. apply value_max. }
    clear Hbk. clearbody brev blen.
    destruct (decide (tot - nanc r < tot / 2 /\ r ∉ skip)) as [[Hy Hs]|Hno].
    + apply (IH (pre ++ [r]) N); [|by exists u]. destruct Hi as [_ Hn Hp Hl Hb Hm Hq].
      split; cbn [b_ancestors b_poison b_rev b_len]; try done; [set_solver| | |split; [lia|done]|].
      * intros p [Hx| ->%list_elem_of_singleton]%elem_of_app.
        -- destruct (Hp p Hx) as [?|H]; [by left|right]. intros c Hc Hpc. specialize (H c Hc Hpc). set_solver.
        -- right. intros c Hc Hpc. apply elem_of_union. right. apply elem_of_list_to_set, Hch. done.
      * intros x Hx. rewrite lookup_delete_ne by (intros ->; by eapply rest_ne). apply Hl. by right.
      * intros x [Hx|Hx]%elem_of_union.
        -- destruct (Hq x Hx) as (q & ? & ? & ? & ?). exists q. set_solver.
        -- apply elem_of_list_to_set, Hch in Hx as [_ Hx]. exists r. split_and!; [set_solver|done|done|by apply anc_parent].
    + apply (IH (pre ++ [r]) ({[r]} ∪ N)); [|by exists u]. destruct Hi as [_ Hn Hp Hl Hb Hm Hq].
      split; cbn [b_ancestors b_poison b_rev b_len]; try done; [set_solver|set_solver| |split; [lia|done]|].
      * intros x Hx. destruct (Hl x ltac:(by right)) as (l & El & Hndl & Hxl).
        assert (forall c, c ∈ children_get ch r -> c ∉ a /\ exists l, delete r (b_ancestors st) !! c = Some l /\ NoDup l /\ (l = [] \/ c ∈ l)) as Hcs.
        { intros c [Hc Hpc]%Hch. pose proof (later_child pre r rest c EC Hc Hpc) as Hcr. split.
          - rewrite Ha. intros [_ Hanc]. apply anc_le in Hanc; [|done]. apply parent_below in Hpc; [lia|done].
          - destruct (Hl c ltac:(by right)) as (lc & Elc & Hndc & Hxc). exists lc. rewrite lookup_delete_ne by (intros ->; by eapply rest_ne).
            split_and!; [done|done|]. destruct lc as [|y lc]; [by left|right]. assert (y ∈ y :: lc) as Hy by by left.
            apply Hxc in Hy as (p & ? & ? & _). apply Hxc. exists p. tauto. }
        destruct (extend_children a (children_get ch r) (delete r (b_ancestors st)) Hnd Hcs x l) as [H1 H2].
        { rewrite lookup_delete_ne by (intros ->; by eapply rest_ne). done. }
        destruct (decide (x ∈ children_get ch r)) as [Hin|Hin].
        -- destruct (H2 Hin) as (l' & -> & Hnd' & Hl'). exists l'. split_and!; [done|done|]. intros y. rewrite Hl', Hxl, Ha.
           apply Hch in Hin as [_ Hpx]. split.
           ++ intros [(p & ? & ? & ?)|[[? ?]| ->]]; [exists p; set_solver|exists r; set_solver|exists r; set_solver].
           ++ intros (p & [->%elem_of_singleton|?]%elem_of_union & ? & [[? ?]| ->]); [tauto|tauto|left; exists p; tauto|by right; right].
        -- rewrite H1 by done. exists l. split_and!; [done|done|]. intros y. rewrite Hxl. split.
           ++ intros (p & ? & ? & ?). exists p. set_solver.
           ++ intros (p & [->%elem_of_singleton|?]%elem_of_union & Hpx & ?); [|exists p; tauto].
              destruct Hin. apply Hch. split; [rewrite EC'; set_solver|done].
      * intros x Hx. destruct (Hq x Hx) as (q & ? & ? & ? & ?). exists q. set_solver.
Qed.
End best.

(** ** Whole steps *)

(** The revisions that can still be the first bad one: they descend from a good
    revision, are not ancestors of one, and are ancestors of the bad revision. *)
Definition is_cand (good : list Z) (badrev x : Z) : Prop :=
  good_anc good x /\ ~ anc_good good x /\ anc pfunc x badrev.

(** A state in which the bad side is above the good side. *)
Record bad_after_good (st : state) (badrev : Z) : Prop := {
  bg_good : good st ≠ [];
  bg_range : forall r, r ∈ good st ++ bad st -> 0 <= r < len;
  bg_min : RevWalk.min_rev (bad st) = Ok badrev;
  bg_cand : is_cand (good st) badrev badrev
}.

Lemma min_rev_in l m : RevWalk.min_rev l = Ok m -> m ∈ l /\ forall x, x ∈ l -> m <= x.
Proof.
  destruct l as [|y l]; [done|]. intros [= <-]. induction l as [|z l [IH1 IH2]]; cbn; [split; [by left|by intros x ->%list_elem_of_singleton]|].
  split; [destruct (Z.min_spec z (foldr Z.min y l)) as [[_ ->]|[_ ->]]; set_solver|].
  intros x [->|[->|H]%elem_of_cons]%elem_of_cons; [specialize (IH2 y ltac:(by left))|lia|specialize (IH2 x ltac:(by right))]; lia.
Qed.

Lemma filter_all (P : Z -> Prop) `{!forall x, Decision (P x)} (l : list Z) : (forall x, x ∈ l -> P x) -> filter P l = l.
Proof.
  induction l as [|x l IH]; intros HP; [done|]. rewrite filter_cons_True by (apply HP; by left). f_equal. apply IH.
  intros y Hy. apply HP. by right.
Qed.

(** The two outcomes of a step: the candidates when there is nothing left to
    test, or the best revision to test next. *)
Definition outcome (C : list Z) (skip : list Z) (badrev : Z) (r : result) : Prop :=
  (r_number r = 0 /\ r_nodes r = C /\ (length C = 1%nat \/ forall c, c ∈ C -> c ≠ badrev -> c ∈ skip)) \/
  (exists b, r_number r = Z.of_nat (length C) /\ r_nodes r = [b] /\ b ∈ C /\ b ∉ skip /\ b ≠ badrev /\
     forall c, c ∈ C -> c ∉ skip -> value C c <= value C b).

Lemma bisect_range_spec skip flag badrev goodrev s :
  0 <= badrev -> badrev ∈ s -> (forall x y, x ∈ s -> anc pfunc x y -> anc pfunc y badrev -> y ∈ s) ->
  exists C r, bisect_range pfunc skip flag badrev goodrev (gset_to_gmap [] s) = Ok r /\
    ascending C /\ (forall x, x ∈ C <-> x ∈ s /\ anc pfunc x badrev) /\
    r_good r = flag /\ r_badnode r = badrev /\ outcome C skip badrev r.
Proof.
  intros Hb Hbs Hconv. unfold bisect_range.
  destruct (candidates_spec s badrev Hb Hbs Hconv) as (st & -> & Hnd & HC & Hch). cbn [rbind].
  set (C := zsort (candidates st)).
  assert (ascending C) as HCa by (by apply zsort_ascending).
  assert (forall x, x ∈ C <-> x ∈ s /\ anc pfunc x badrev) as HCx by (intros x; unfold C; by rewrite elem_of_zsort, HC).
  exists C. set (unskipped := filter _ C).
  destruct (decide (Z.of_nat (length C) = 1 \/ unskipped = [])) as [Hd|Hd].
  { eexists. split; [done|]. split_and!; try done. left. split_and!; [done|done|]. destruct Hd as [?|Hd]; [left; lia|right].
    intros c Hc Hne. destruct (decide (c ∈ skip)) as [|Hs]; [done|].
    assert (c ∈ unskipped) as Hin by (by apply list_elem_of_filter). rewrite Hd in Hin. set_solver. }
  assert (exists u, u ∈ C /\ u ∉ skip /\ u ≠ badrev) as (u & Hu & Hus & Hub).
  { destruct unskipped as [|u l] eqn:E; [naive_solver|]. exists u. assert (u ∈ unskipped) as Hin by (rewrite E; by left).
    apply list_elem_of_filter in Hin as [[? ?] ?]. done. }
  assert (forall x y z, x ∈ C -> z ∈ C -> anc pfunc x y -> anc pfunc y z -> y ∈ C) as HconvC.
  { intros x y z [Hx _]%HCx [_ Hz]%HCx Hxy Hyz. apply HCx. assert (anc pfunc y badrev) by by eapply anc_trans. split; [by eapply Hconv|done]. }
  destruct (best_loop_spec C skip (children st) HCa) with (rest := C) (pre := @nil Z) (N := ∅ : gset Z)
    (st := Best (gset_to_gmap [] s) ∅ None (-1)) as (b & Eb & HbC & Hbs' & Hmax); try done.
  { intros p c. rewrite Hch. by unfold C; rewrite elem_of_zsort. }
  { split; cbn; [done|set_solver|by intros p ?%not_elem_of_nil| |done|by intros p ?%not_elem_of_nil|set_solver].
    intros r [Hr _]%HCx. exists []. rewrite lookup_gset_to_gmap, option_guard_True by done.
    split_and!; [done|constructor|set_solver]. }
  { by exists u. }
  unfold tot in Eb. rewrite Eb. eexists. split; [done|]. split_and!; try done. right. exists b. split_and!; try done.
  intros ->. specialize (Hmax u Hu Hus).
  assert (nanc C badrev = tot C) as E1.
  { unfold nanc, tot, cand_anc. f_equal. f_equal. apply filter_all. intros x Hx. by apply HCx. }
  assert (0 < nanc C u < tot C); [|unfold value in Hmax; lia]. apply HCx in Hu as Hu'. split.
  - unfold nanc. assert (u ∈ cand_anc C u) as Hin by (apply elem_of_cand_anc; split; [done|apply anc_refl]).
    destruct (cand_anc C u); [set_solver|cbn; lia].
  - unfold nanc, tot. assert (cand_anc C u ⊆+ C) as Hsub by (apply NoDup_submseteq; [by apply nodup_cand_anc|intros x; rewrite elem_of_cand_anc; tauto]).
    assert (length (cand_anc C u) ≠ length C); [|apply submseteq_length in Hsub; lia]. intros El.
    apply submseteq_length_Permutation in Hsub; [|lia].
    assert (badrev ∈ cand_anc C u) as Hin by (rewrite Hsub; apply HCx; split; [done|apply anc_refl]).
    apply elem_of_cand_anc in Hin as [_ Hin]. destruct Hu' as [_ Hu']. apply Hub. by apply (anc_antisym pfunc).
Qed.

Lemma bisect_step st badrev :
  bad_after_good st badrev ->
  exists C r, bisect pfunc len st = Ok r /\ ascending C /\ (forall x, x ∈ C <-> is_cand (good st) badrev x) /\
    r_good r = false /\ r_badnode r = badrev /\ outcome C (skip st) badrev r.
Proof.
  intros [Hg Hr Hm (Hc1 & Hc2 & _)]. unfold bisect, buildancestors. rewrite Hm. cbn [rbind].
  destruct (min_rev_in _ _ Hm) as [Hin _].
  assert (exists goodrev, max_rev (good st) = Ok goodrev) as [goodrev ->] by (destruct (good st); [done|by eexists]). cbn [rbind].
  destruct (after_good_spec (good st) Hg) as (s & -> & Hs); [intros g Hgg; apply Hr; set_solver|]. cbn [rbind].
  pose proof (Hr badrev ltac:(set_solver)) as Hbr.
  assert (badrev ∈ s) as Hbs by (apply Hs; split; [lia|done]). rewrite decide_True by done. cbn [rbind].
  destruct (bisect_range_spec (skip st) false badrev goodrev s) as (C & r & -> & HC1 & HC2 & H3 & H4 & H5); [lia|done| |].
  - intros x y (Hx & (g & Hgg & Hgx) & Hnx)%Hs Hxy Hyb. apply Hs. split_and!.
    + apply anc_le in Hyb; [lia|done].
    + exists g. split; [done|by eapply anc_trans].
    + intros (g' & Hg' & Hyg). apply Hnx. exists g'. split; [done|by eapply anc_trans].
  - exists C, r. split_and!; try done. intros x. rewrite HC2, Hs. unfold is_cand. split; [tauto|]. intros (? & ? & Hx).
    split_and!; try done. apply anc_le in Hx; [lia|done].
Qed.

(** [C10] When the bad revision descends from a good one, [bisect] returns: either
    all remaining candidates, when one is left or all others were skipped, or the
    best revision to test next: among the candidates that are not skipped none
    splits the candidates more evenly, although the code does not look at
    descendants of revisions past the middle. *)
Theorem bisect_correct (st : state) (badrev : Z) :
  bad_after_good st badrev ->
  exists C r, bisect pfunc len st = Ok r /\ ascending C /\ (forall x, x ∈ C <-> is_cand (good st) badrev x) /\
    r_good r = false /\ r_badnode r = badrev /\ outcome C (skip st) badrev r.
Proof. apply bisect_step. Qed.

(** [C11] Every test makes progress: whether the revision chosen by [bisect] turns
    out good or bad, fewer candidates remain. *)
Theorem bisect_progress (st : state) (badrev b n : Z) (r : result) (C' : list Z) :
  bad_after_good st badrev -> bisect pfunc len st = Ok r -> r_nodes r = [b] -> r_number r = n -> n ≠ 0 -> NoDup C' ->
  (forall x, x ∈ C' <-> is_cand (b :: good st) badrev x) \/ (forall x, x ∈ C' <-> is_cand (good st) b x) ->
  Z.of_nat (length C') < n.
Proof.
  intros Hst E Hb Hn Hn0 Hnd HC'. destruct (bisect_step st badrev Hst) as (C & r' & E' & HC & HCx & _ & _ & Hout).
  rewrite E in E'. injection E' as <-. destruct Hout as [[H0 _]|(b' & Hnum & Hb' & HbC & _ & Hne & _)]; [lia|].
  assert (b' = b) as -> by congruence. rewrite <- Hn, Hnum. apply HCx in HbC as Hbc. destruct Hbc as (Hg & Hng & Hbb).
  assert (exists w, w ∈ C /\ w ∉ C' /\ forall x, x ∈ C' -> x ∈ C) as (w & Hw & Hnw & Hsub).
  { destruct HC' as [HC'|HC'].
    - exists b. split; [done|]. split; [rewrite HC'; intros (_ & C1 & _); apply C1; exists b; split; [by left|apply anc_refl]|].
      intros x (Hx1 & Hx2 & Hx3)%HC'. apply HCx. split_and!; [|intros (g & ? & ?); apply Hx2; exists g; split; [by right|done]|done].
      destruct Hx1 as (g & [->|Hgg]%elem_of_cons & Hgx); [|by exists g]. destruct Hg as (g & ? & ?). exists g. split; [done|by eapply anc_trans].
    - exists badrev. split; [apply HCx, (bg_cand _ _ Hst)|]. split.
      + rewrite HC'. intros (_ & _ & Hx). apply Hne. by apply (anc_antisym pfunc).
      + intros x (Hx1 & Hx2 & Hx3)%HC'. apply HCx. split_and!; [done|done|by eapply anc_trans]. }
  assert (w :: C' ⊆+ C) as Hs by (apply NoDup_submseteq; [by constructor|set_solver]).
  apply submseteq_length in Hs. cbn in Hs. lia.
Qed.
End steps.
End correctness.

#[local] Instance graph7_dag : RevDag graph7.
Proof.
  split. intros r p. unfold graph7, nullrev.
  destruct r as [|[[[]|[]|]|[[]|[]|]|]|]; cbn; set_solver by lia.
Qed.

Lemma graph7_two r : length (graph7 r) = 2%nat.
Proof. destruct r as [|[[[]|[]|]|[[]|[]|]|]|]; reflexivity. Qed.

Lemma graph7_state : bad_after_good graph7 7 (State [0] [6] []) 6.
Proof.
  split; [done| |done|].
  - intros r Hr. repeat (apply elem_of_cons in Hr as [->|Hr]; [lia|]). by apply not_elem_of_nil in Hr.
  - split_and!; [| |apply anc_refl].
    + exists 0. split; [by left|].
      apply (anc_trans _ 0 1); [apply anc_parent; split; [by left|done]|]. apply (anc_trans _ 1 3); [apply anc_parent; split; [by left|done]|].
      apply (anc_trans _ 3 5); [apply anc_parent; split; [by left|done]|]. apply anc_parent. split; [by left|done].
    + intros (g & ->%list_elem_of_singleton & Ha). apply anc_le in Ha; [lia|apply _].
Qed.

Lemma bisect_correct_witness :
  exists C r, bisect graph7 7 (State [0] [6] []) = Ok r /\ ascending C /\ (forall x, x ∈ C <-> is_cand graph7 [0] 6 x) /\
    r_good r = false /\ r_badnode r = 6 /\ outcome graph7 C [] 6 r.
Proof.
  apply (bisect_correct graph7 graph7_two 7); [unfold RevWalk.maxlogdepth; lia|]. apply graph7_state.
Defined.

Lemma graph7_anc4 x : anc graph7 x 4 <-> x ∈ [4; 2; 1; 0].
Proof.
  assert (forall x, anc graph7 x 0 <-> x = 0) as H0.
  { intros y. rewrite anc_cases. split; [|by left]. intros [?|(p & [Hp ?] & _)]; [done|]. cbn in Hp. set_solver. }
  assert (forall r p y, graph7 r = [p; -1] -> p ≠ nullrev -> anc graph7 y r <-> y = r \/ anc graph7 y p) as Hs.
  { intros r p y E Hp. rewrite anc_cases. split; (intros [?|H]; [by left|right]).
    - destruct H as (q & [Hq ?] & ?). rewrite E in Hq. unfold nullrev in *. set_solver.
    - exists p. split; [split; [rewrite E; by left|done]|done]. }
  rewrite (Hs 4 2), (Hs 2 1), (Hs 1 0), H0 by done. set_solver.
Qed.

Lemma graph7_cand4 x : x ∈ [1; 2; 4] <-> is_cand graph7 [0] 4 x.
Proof.
  assert (forall r p, graph7 r = [p; -1] -> 0 <= p -> anc graph7 p r) as Hp.
  { intros r p E H. apply anc_parent. split; [rewrite E; by left|unfold nullrev; lia]. }
  assert (anc graph7 0 1 /\ anc graph7 0 2 /\ anc graph7 0 4) as (A1 & A2 & A4).
  { assert (anc graph7 0 1) by (apply Hp; [done|lia]). assert (anc graph7 1 2) by (apply Hp; [done|lia]).
    assert (anc graph7 2 4) by (apply Hp; [done|lia]). split_and!; [done|by eapply anc_trans|eapply anc_trans; [|done]; by eapply anc_trans]. }
  unfold is_cand. rewrite graph7_anc4. split.
  - intros Hx. split_and!; [exists 0; split; [by left|]; set_solver| |set_solver].
    intros (g & ->%list_elem_of_singleton & Ha). apply anc_le in Ha; [|apply _]. set_solver by lia.
  - intros (_ & Hn & Hx). assert (x ≠ 0); [|set_solver]. intros ->. apply Hn. exists 0. split; [by left|apply anc_refl].
Qed.

Lemma bisect_progress_witness : Z.of_nat (length [1; 2; 4]) < 6.
Proof.
  apply (bisect_progress graph7 graph7_two 7 ltac:(unfold RevWalk.maxlogdepth; lia)
    (State [0] [6] []) 6 4 6 (Result [4] 6 false 6 0) [1; 2; 4]); try reflexivity; try lia.
  - apply graph7_state.
  - apply (bool_decide_unpack _). vm_compute. exact I.
  - right. apply graph7_cand4.
Defined.
End Bisect.
