(* ===== verification/DirstateFile.v ===== *)
(** * The dirstate file ([parse_dirstate] and [pack_dirstate] of pure/parsers.py)

    Two parent nodes, then for each tracked file a fixed record and its name,
    with the copy source after a zero byte. *)

From S2P Require Import Prelude Lines Struct.

Module DirstateFile.

(** [dirstatetuple]: state, mode, size, mtime. *)
Record dtuple := DTuple { d_state : ascii; d_mode : Z; d_size : Z; d_mtime : Z }.

#[global] Instance dtuple_eq_dec : EqDecision dtuple.
Proof. solve_decision. Defined.

Definition nul : ascii := byte 0.

(** [struct.pack(">cllll", ...)] *)
Definition pack_cllll (e : dtuple) (n : Z) : res bytes :=
  let* m := pack_l (d_mode e) in
  let* s := pack_l (d_size e) in
  let* t := pack_l (d_mtime e) in
  let* l := pack_l n in
  Ok (d_state e :: m ++ s ++ t ++ l).

(** [struct.unpack(">cllll", ...)] *)
Definition unpack_cllll (l : bytes) : res (dtuple * Z) :=
  match l with
  | c :: l =>
      if decide (length l = 16%nat) then
        let* m := unpack_l (take 4 l) in
        let* s := unpack_l (take 4 (drop 4 l)) in
        let* t := unpack_l (take 4 (drop 8 l)) in
        let* n := unpack_l (drop 12 l) in
        Ok (DTuple c m s t, n)
      else Err StructError
  | [] => Err StructError
  end.

(** ** Packing *)

(** The entry written for a file: the time of a file modified in this very second
    is not trusted. *)
Definition settle (now : Z) (e : dtuple) : dtuple :=
  if decide (d_state e = "n"%char /\ d_mtime e = now) then DTuple (d_state e) (d_mode e) (d_size e) (-1) else e.

(** The name field of a record. *)
Definition name_field (copymap : gmap bytes bytes) (f : bytes) : bytes :=
  match copymap !! f with Some c => f ++ [nul] ++ c | None => f end.

(** [for f, e in dmap.iteritems()]: what is written, and the updated map. *)
Fixpoint pack_entries (copymap : gmap bytes bytes) (now : Z) (dmap : list (bytes * dtuple)) : res (bytes * list (bytes * dtuple)) :=
  match dmap with
  | [] => Ok ([], [])
  | (f, e) :: dmap =>
      let e := settle now e in
      let name := name_field copymap f in
      let* r := pack_cllll e (zlen name) in
      let* (out, dmap) := pack_entries copymap now dmap in
      Ok (r ++ name ++ out, (f, e) :: dmap)
  end.

(** [pack_dirstate]; [dmap] in the order of its iteration. *)
Definition pack_dirstate (dmap : list (bytes * dtuple)) (copymap : gmap bytes bytes) (pl : list bytes) (now : Z) :
    res (bytes * list (bytes * dtuple)) :=
  let* (out, dmap) := pack_entries copymap now dmap in
  Ok (concat pl ++ out, dmap).

(** ** Parsing *)

(** [f, c = f.split("\0")] *)
Definition split_name (f : bytes) : res (bytes * option bytes) :=
  if decide (nul ∈ f) then
    match split nul f with
    | [f; c] => Ok (f, Some c)
    | _ => Err ValueError
    end
  else Ok (f, None).

(** The inner loop; it does not end on a record of negative length that leads back
    to itself. *)
Fixpoint parse_loop (fuel : nat) (st : bytes) (pos1 : Z) (dmap : gmap bytes dtuple) (copymap : gmap bytes bytes) :
    res (gmap bytes dtuple * gmap bytes bytes) :=
  match fuel with
  | O => Err OutOfFuel
  | S fuel =>
      if decide (pos1 < zlen st) then
        let pos2 := pos1 + 17 in
        let* (e, n) := unpack_cllll (pyslice st pos1 pos2) in
        let pos1 := pos2 + n in
        let* (f, c) := split_name (pyslice st pos2 pos1) in
        parse_loop fuel st pos1 (<[f := e]> dmap) (match c with Some c => <[f := c]> copymap | None => copymap end)
      else Ok (dmap, copymap)
  end.

(** [parse_dirstate]: the entries are added to the maps of the caller. *)
Definition parse_dirstate (fuel : nat) (dmap : gmap bytes dtuple) (copymap : gmap bytes bytes) (st : bytes) :
    res (list bytes * gmap bytes dtuple * gmap bytes bytes) :=
  let parents := [slice st 0 20; slice st 20 40] in
  let* (dmap, copymap) := parse_loop fuel st 40 dmap copymap in
  Ok (parents, dmap, copymap).

Definition id20 (c : ascii) : bytes := replicate 20 c.

Example dirstate_example :
  let dm := [(bs "a", DTuple "n" 420 3 1000); (bs "b/c", DTuple "n" 420 7 2000); (bs "d", DTuple "r" 0 0 0)] in
  let cm := {[ bs "b/c" := bs "a" ]} in
  match pack_dirstate dm cm [id20 "x"; id20 "y"] 2000 with
  | Ok (st, dm') =>
      dm' = [(bs "a", DTuple "n" 420 3 1000); (bs "b/c", DTuple "n" 420 7 (-1)); (bs "d", DTuple "r" 0 0 0)] /\
      zlen st = 40 + 3 * 17 + 1 + 5 + 1 /\
      parse_dirstate (S (length st)) ∅ ∅ st = Ok ([id20 "x"; id20 "y"], list_to_map dm', cm)
  | Err _ => False
  end.
Proof. vm_compute. done. Qed.

(** A record whose name has length -17 makes the parser read it again for ever. *)
Definition bad_dirstate : bytes := id20 "x" ++ id20 "y" ++ ("n"%char :: be_encode 12 0 ++ be_encode 4 4294967279).

Lemma parse_dirstate_loops fuel dm0 cm0 : parse_dirstate fuel dm0 cm0 bad_dirstate = Err OutOfFuel.
Proof.
  unfold parse_dirstate. assert (forall dm cm, parse_loop fuel bad_dirstate 40 dm cm = Err OutOfFuel) as ->; [|done].
  induction fuel as [|fuel IH]; intros dm cm; [done|]. cbn [parse_loop].
  rewrite decide_True by (vm_compute; done).
  assert (unpack_cllll (pyslice bad_dirstate 40 (40 + 17)) = Ok (DTuple "n" 0 0 0, -17)) as -> by (vm_compute; reflexivity).
  cbn [rbind]. assert (split_name (pyslice bad_dirstate (40 + 17) (40 + 17 + -17)) = Ok ([], None)) as -> by (vm_compute; reflexivity).
  apply IH.
Qed.

(** ** Records *)

Definition tuple_fits (e : dtuple) : Prop := fits32 (d_mode e) /\ fits32 (d_size e) /\ fits32 (d_mtime e).

Lemma pack_cllll_ok e n :
  tuple_fits e -> fits32 n -> exists l, pack_cllll e n = Ok l /\ length l = 17%nat /\ unpack_cllll l = Ok (e, n).
Proof.
  intros (Hm & Hs & Ht) Hn. destruct (pack_l_ok _ Hm) as (lm & Em & Lm & Um). destruct (pack_l_ok _ Hs) as (ls & Es & Ls & Us).
  destruct (pack_l_ok _ Ht) as (lt & Et & Lt & Ut). destruct (pack_l_ok _ Hn) as (ln & En & Ln & Un).
  unfold pack_cllll. rewrite Em, Es, Et, En. cbn [rbind]. eexists. split; [done|].
  assert (length (lm ++ ls ++ lt ++ ln) = 16%nat) as L by (rewrite !length_app; lia).
  split; [cbn; lia|]. unfold unpack_cllll. rewrite decide_True by done.
  rewrite take_app_length' by done. rewrite Um. cbn [rbind].
  rewrite drop_app_length', take_app_length' by done. rewrite Us. cbn [rbind].
  rewrite (assoc_L (++)), drop_app_length', take_app_length' by (rewrite ?length_app; lia). rewrite Ut. cbn [rbind].
  rewrite !(assoc_L (++)), drop_app_length' by (rewrite !length_app; lia). rewrite Un. cbn [rbind]. by destruct e.
Qed.

Lemma pack_cllll_cases e n :
  (tuple_fits e /\ fits32 n /\ exists l, pack_cllll e n = Ok l) \/
  (~ (tuple_fits e /\ fits32 n) /\ pack_cllll e n = Err StructError).
Proof.
  unfold pack_cllll, tuple_fits.
  destruct (pack_l_cases (d_mode e)) as [[? [? ->]]|[? ->]]; cbn [rbind]; [|right; split; [tauto|done]].
  destruct (pack_l_cases (d_size e)) as [[? [? ->]]|[? ->]]; cbn [rbind]; [|right; split; [tauto|done]].
  destruct (pack_l_cases (d_mtime e)) as [[? [? ->]]|[? ->]]; cbn [rbind]; [|right; split; [tauto|done]].
  destruct (pack_l_cases n) as [[? [? ->]]|[? ->]]; cbn [rbind]; [|right; split; [tauto|done]].
  left. split_and!; try done. by eexists.
Qed.

(** ** Files *)

(** All numbers written for a file fit in 32 bits. *)
Definition file_fits (copymap : gmap bytes bytes) (now : Z) (fe : bytes * dtuple) : Prop :=
  tuple_fits (settle now fe.2) /\ fits32 (zlen (name_field copymap fe.1)).

(** [C34] [pack_dirstate] writes the file exactly when every mode, size, time and
    name length fits in a signed 32-bit field, and otherwise raises
    [struct.error]. *)
Theorem pack_dirstate_bounds (dmap : list (bytes * dtuple)) (copymap : gmap bytes bytes) (pl : list bytes) (now : Z) :
  (Forall (file_fits copymap now) dmap /\ exists st dmap', pack_dirstate dmap copymap pl now = Ok (st, dmap')) \/
  (~ Forall (file_fits copymap now) dmap /\ pack_dirstate dmap copymap pl now = Err StructError).
Proof.
  unfold pack_dirstate.
  cut ((Forall (file_fits copymap now) dmap /\ exists out dmap', pack_entries copymap now dmap = Ok (out, dmap')) \/
       (~ Forall (file_fits copymap now) dmap /\ pack_entries copymap now dmap = Err StructError)).
  { intros [(? & out & dm & ->)|[? ->]]; cbn [rbind]; [left; split; [done|by eexists _, _]|by right]. }
  induction dmap as [|[f e] dmap IH]; cbn [pack_entries]; [left; split; [constructor|by eexists _, _]|].
  rewrite Forall_cons. unfold file_fits at 1 3. cbn [fst snd].
  destruct (pack_cllll_cases (settle now e) (zlen (name_field copymap f))) as [(H1 & H2 & l & ->)|[H ->]]; cbn [rbind]; [|right; split; [tauto|done]].
  destruct IH as [(HF & out & dm & ->)|[HF ->]]; cbn [rbind]; [left; split; [done|by eexists _, _]|right; split; [tauto|done]].
Qed.

(** Names that the format can represent. *)
Definition names_ok (copymap : gmap bytes bytes) (f : bytes) : Prop :=
  nul ∉ f /\ forall c, copymap !! f = Some c -> nul ∉ c.

Lemma split_name_field copymap f : names_ok copymap f -> split_name (name_field copymap f) = Ok (f, copymap !! f).
Proof.
  intros [Hf Hc]. unfold split_name, name_field. destruct (copymap !! f) as [c|].
  - rewrite decide_True by set_solver. change (f ++ [nul] ++ c) with (join nul [f; c]).
    rewrite join_split_inv; [done|done|]. repeat constructor; [done|by apply Hc].
  - by rewrite decide_False.
Qed.

(** The records, read one after the other. *)
Lemma parse_entries copymap now dmap out dmap' :
  pack_entries copymap now dmap = Ok (out, dmap') -> Forall (file_fits copymap now) dmap ->
  Forall (fun fe => names_ok copymap fe.1) dmap ->
  dmap' = map (fun fe => (fe.1, settle now fe.2)) dmap /\
  forall fuel pre dm cm, (length dmap < fuel)%nat ->
    parse_loop fuel (pre ++ out) (zlen pre) dm cm =
    Ok (foldl (fun dm fe => <[fe.1 := fe.2]> dm) dm dmap',
        foldl (fun cm fe => match copymap !! fe.1 with Some c => <[fe.1 := c]> cm | None => cm end) cm dmap').
Proof.
  revert out dmap'. induction dmap as [|[f e] dmap IH]; intros out dmap'; cbn [pack_entries].
  { intros [= <- <-] _ _. split; [done|]. intros [|fuel] pre dm cm Hf; [cbn in Hf; lia|]. cbn [parse_loop].
    rewrite app_nil_r, decide_False by lia. done. }
  intros E [[Ht Hn] HF]%Forall_cons [Hok HN]%Forall_cons. cbn [fst snd] in *.
  destruct (pack_cllll_ok _ _ Ht Hn) as (l & El & Ll & Ul). rewrite El in E. cbn [rbind] in E.
  destruct (pack_entries copymap now dmap) as [[out1 dm1]|] eqn:E1; [|done]. cbn [rbind] in E. injection E as <- <-.
  destruct (IH out1 dm1 eq_refl HF HN) as [-> Hp]. split; [done|]. intros [|fuel] pre dm cm Hf; [cbn in Hf; lia|]. cbn [parse_loop].
  assert (zlen l = 17) as Zl by (unfold zlen; lia).
  rewrite decide_True by (rewrite !zlen_app; pose proof (zlen_nonneg out1); pose proof (zlen_nonneg (name_field copymap f)); lia).
  rewrite (pyslice_app pre l) by lia. rewrite Ul. cbn [rbind].
  rewrite (assoc_L (++) pre l). rewrite (pyslice_app (pre ++ l)) by (rewrite zlen_app; lia).
  rewrite split_name_field by done. cbn [rbind].
  rewrite (assoc_L (++) (pre ++ l)). specialize (Hp fuel ((pre ++ l) ++ name_field copymap f)).
  rewrite !zlen_app, Zl in Hp. rewrite Hp by (cbn in Hf; lia). cbn [map foldl fst snd]. done.
Qed.

(** The maps that the insertions build. *)
Lemma inserted_tuples (l : list (bytes * dtuple)) (dm : gmap bytes dtuple) f :
  NoDup (map fst l) ->
  foldl (fun dm fe => <[fe.1 := fe.2]> dm) dm l !! f =
  match (list_to_map l : gmap bytes dtuple) !! f with Some e => Some e | None => dm !! f end.
Proof.
  revert dm. induction l as [|[g e] l IH]; intros dm Hnd; cbn [foldl map fst snd list_to_map foldr]; [by rewrite lookup_empty|].
  cbn [map fst] in Hnd. apply NoDup_cons in Hnd as [Hg Hnd]. rewrite IH by done. destruct (decide (f = g)) as [->|Hne].
  - rewrite !lookup_insert_eq, not_elem_of_list_to_map_1 by done. done.
  - by rewrite !lookup_insert_ne by done.
Qed.

Lemma inserted_copies (copymap : gmap bytes bytes) (l : list (bytes * dtuple)) (cm : gmap bytes bytes) f :
  foldl (fun cm fe => match copymap !! fe.1 with Some c => <[fe.1 := c]> cm | None => cm end) cm l !! f =
  match copymap !! f with Some c => if decide (f ∈ map fst l) then Some c else cm !! f | None => cm !! f end.
Proof.
  revert cm. induction l as [|[g e] l IH]; intros cm; cbn [foldl map fst snd].
  { destruct (copymap !! f); [|done]. by rewrite decide_False by apply not_elem_of_nil. }
  rewrite IH. destruct (copymap !! f) as [c|] eqn:Ec.
  - destruct (decide (f = g)) as [->|Hne].
    + rewrite Ec, lookup_insert_eq. rewrite (decide_True (P := g ∈ g :: _)) by by left. by destruct (decide _).
    + destruct (decide (f ∈ map fst l)) as [H|H].
      * by rewrite decide_True by by right.
      * rewrite decide_False by set_solver. destruct (copymap !! g); [by rewrite lookup_insert_ne|done].
  - destruct (copymap !! g) as [c|] eqn:Eg; [|done]. rewrite lookup_insert_ne; [done|]. intros ->. by rewrite Ec in Eg.
Qed.

Lemma length_pack_entries copymap now dmap out dmap' :
  pack_entries copymap now dmap = Ok (out, dmap') -> (length dmap <= length out)%nat.
Proof.
  revert out dmap'. induction dmap as [|[f e] dmap IH]; intros out dmap'; cbn [pack_entries]; [intros [= <- <-]; cbn; lia|].
  unfold pack_cllll. intros E.
  repeat match type of E with context [pack_l ?z] => destruct (pack_l z); cbn [rbind] in E; [|done] end.
  destruct (pack_entries copymap now dmap) as [[out1 dm1]|]; [|done]. cbn [rbind] in E. injection E as <- <-.
  specialize (IH out1 dm1 eq_refl). cbn. rewrite !length_app. lia.
Qed.

(** [C33] The dirstate file round trip: for files whose fields fit and whose names
    have no zero byte, what [pack_dirstate] writes is parsed back to the two
    parents, to the same entries with the times of this second invalidated, and
    to the copy sources of the tracked files. *)
Theorem dirstate_roundtrip (dmap : list (bytes * dtuple)) (copymap : gmap bytes bytes) (p1 p2 : bytes) (now : Z) :
  NoDup (map fst dmap) -> Forall (file_fits copymap now) dmap -> Forall (fun fe => names_ok copymap fe.1) dmap ->
  length p1 = 20%nat -> length p2 = 20%nat ->
  exists st dmap' dm cm,
    pack_dirstate dmap copymap [p1; p2] now = Ok (st, dmap') /\
    parse_dirstate (S (length st)) ∅ ∅ st = Ok ([p1; p2], dm, cm) /\
    (forall f, dm !! f = settle now <$> (list_to_map dmap : gmap bytes dtuple) !! f) /\
    (forall f, cm !! f = if decide (f ∈ map fst dmap) then copymap !! f else None).
Proof.
  intros Hnd HF HN L1 L2. unfold pack_dirstate.
  assert (exists out dmap', pack_entries copymap now dmap = Ok (out, dmap')) as (out & dmap' & E).
  { clear HN Hnd. induction HF as [|[f e] dmap [Ht Hn] _ (out & dm & IH)]; [by eexists _, _|]. cbn [pack_entries fst snd] in *.
    destruct (pack_cllll_ok _ _ Ht Hn) as (l & -> & _). rewrite IH. cbn [rbind]. by eexists _, _. }
  rewrite E. cbn [rbind concat]. rewrite app_nil_r. pose proof (length_pack_entries _ _ _ _ _ E) as Hlen.
  destruct (parse_entries _ _ _ _ _ E HF HN) as [-> Hp]. set (dmap' := map (fun fe : bytes * dtuple => (fe.1, settle now fe.2)) dmap) in *.
  assert (map fst dmap' = map fst dmap) as Ek by (unfold dmap'; rewrite map_map; done).
  eexists _, _, _, _. split; [done|]. split_and!.
  - unfold parse_dirstate. rewrite <- (assoc_L (++)). specialize (Hp (S (length (p1 ++ p2 ++ out))) (p1 ++ p2) ∅ ∅).
    rewrite <- (assoc_L (++)) in Hp.
    replace (zlen (p1 ++ p2)) with 40 in Hp by (unfold zlen; rewrite length_app; lia).
    rewrite Hp by (rewrite !length_app; lia). cbn [rbind]. do 4 f_equal.
    + unfold slice. cbn. rewrite drop_0, take_app_length' by done. done.
    + unfold slice. change (Z.to_nat 20) with 20%nat. change (Z.to_nat (40 - 20)) with 20%nat.
      rewrite drop_app_length', take_app_length' by done. done.
  - intros f. rewrite inserted_tuples by (rewrite Ek; done). rewrite lookup_empty. unfold dmap'.
    rewrite <- lookup_fmap, <- list_to_map_fmap. 
    replace (map (fun fe : bytes * dtuple => (fe.1, settle now fe.2)) dmap) with (prod_map id (settle now) <$> dmap) by done.
    by destruct (list_to_map _ !! f).
  - intros f. rewrite inserted_copies, Ek, lookup_empty. by destruct (copymap !! f), (decide (f ∈ map fst dmap)).
Qed.

Lemma dirstate_roundtrip_witness :
  let dmap := [(bs "a", DTuple "n" 420 3 1000); (bs "b", DTuple "n" 420 7 2000)] in
  let copymap := {[ bs "b" := bs "a" ]} : gmap bytes bytes in
  exists st dmap' dm cm,
    pack_dirstate dmap copymap [id20 "x"; id20 "y"] 2000 = Ok (st, dmap') /\
    parse_dirstate (S (length st)) ∅ ∅ st = Ok ([id20 "x"; id20 "y"], dm, cm) /\
    (forall f, dm !! f = settle 2000 <$> (list_to_map dmap : gmap bytes dtuple) !! f) /\
    (forall f, cm !! f = if decide (f ∈ map fst dmap) then copymap !! f else None).
Proof.
  apply (dirstate_roundtrip [(bs "a", DTuple "n" 420 3 1000); (bs "b", DTuple "n" 420 7 2000)] {[ bs "b" := bs "a" ]} (id20 "x") (id20 "y") 2000).
  - apply (bool_decide_unpack _). vm_compute. exact I.
  - repeat (apply Forall_cons; split; [vm_compute; intuition congruence|]). constructor.
  - repeat (apply Forall_cons; split; [split; [apply (bool_decide_unpack _); vm_compute; exact I|]|]); [| |constructor].
    + intros c Hc. vm_compute in Hc. discriminate.
    + intros c Hc. vm_compute in Hc. injection Hc as <-. apply (bool_decide_unpack _). vm_compute. exact I.
  - reflexivity.
  - reflexivity.
Defined.
End DirstateFile.
