(* ===== verification/IndexFile.v ===== *)
(** * The index file of a revlog (pure/parsers.py, [revlogio] of revlog.py)

    An index entry is a record of 64 bytes.  [IndexObject] reads the records from
    a file of its own, [InlinedIndexObject] from a file in which the data of each
    revision follows its record.  Both keep new entries in a list and can be cut. *)

From S2P Require Import Prelude Dag Lines Struct.

Module IndexFile.

(** The fields of [indexformatng]: offset and flags, compressed length, length,
    base revision, link revision, parents, node. *)
Record entry := Entry {
  e_offset : Z; e_complen : Z; e_rawlen : Z; e_base : Z; e_link : Z; e_p1 : Z; e_p2 : Z; e_node : bytes
}.

#[global] Instance entry_eq_dec : EqDecision entry.
Proof. solve_decision. Defined.

Definition nullid : bytes := replicate 20 (byte 0).
#[global] Arguments nullid : simpl never.

Definition indexsize : Z := 64.
Definition indexfirst : Z := 8.
Definition sizeint : Z := 4.

(** [struct.pack(indexformatng, *e)] *)
Definition pack_index (e : entry) : res bytes :=
  let* q := pack_u 8 (e_offset e) in
  let* i1 := pack_l (e_complen e) in
  let* i2 := pack_l (e_rawlen e) in
  let* i3 := pack_l (e_base e) in
  let* i4 := pack_l (e_link e) in
  let* i5 := pack_l (e_p1 e) in
  let* i6 := pack_l (e_p2 e) in
  Ok (q ++ i1 ++ i2 ++ i3 ++ i4 ++ i5 ++ i6 ++ pack_s 20 (e_node e) ++ replicate 12 (byte 0)).

(** [struct.unpack(indexformatng, l)] *)
Definition unpack_index (l : bytes) : res entry :=
  if decide (length l = 64%nat) then
    let* q := unpack_u 8 (take 8 l) in
    let* i1 := unpack_l (take 4 (drop 8 l)) in
    let* i2 := unpack_l (take 4 (drop 12 l)) in
    let* i3 := unpack_l (take 4 (drop 16 l)) in
    let* i4 := unpack_l (take 4 (drop 20 l)) in
    let* i5 := unpack_l (take 4 (drop 24 l)) in
    let* i6 := unpack_l (take 4 (drop 28 l)) in
    Ok (Entry q i1 i2 i3 i4 i5 i6 (take 20 (drop 32 l)))
  else Err StructError.

Definition gettype (q : Z) : Z := Z.land q 65535.
Definition offset_type (offset type : Z) : Z := Z.lor (Z.shiftl offset 16) type.

(** [revlogio.packentry]: the version is stored over the start of the first
    entry. *)
Definition packentry (e : entry) (version rev : Z) : res bytes :=
  let* p := pack_index e in
  if decide (rev = 0) then
    let* v := pack_u 4 version in Ok (v ++ drop 4 p)
  else Ok p.

(** ** Index objects *)

(** The fields of an [IndexObject] (no offsets) or an [InlinedIndexObject]. *)
Record indexobj := IndexObj {
  ix_data : bytes; ix_lgt : Z; ix_extra : list entry; ix_offsets : option (list Z)
}.

(** [__len__]: the null entry is counted. *)
Definition len (o : indexobj) : Z := ix_lgt o + zlen (ix_extra o) + 1.

(** [insert] *)
Definition insert (o : indexobj) (i : Z) (e : entry) : res indexobj :=
  if decide (i = -1) then Ok (IndexObj (ix_data o) (ix_lgt o) (ix_extra o ++ [e]) (ix_offsets o))
  else Err AssertionError.

(** [_fix_index] *)
Definition fix_index (o : indexobj) (i : Z) : res Z :=
  let i := if decide (i < 0) then len o + i else i in
  if decide (i < 0 \/ i >= len o) then Err IndexError else Ok i.

(** [_calculate_index] *)
Definition calculate_index (o : indexobj) (i : Z) : res Z :=
  match ix_offsets o with
  | None => Ok (i * indexsize)
  | Some offsets => getitem offsets i
  end.

Definition null_entry : entry := Entry 0 0 0 (-1) (-1) (-1) (-1) nullid.

(** A record read as revision [i]: the start of the first one is the version. *)
Definition decode_entry (i : Z) (l : bytes) : res entry :=
  let* r := unpack_index l in
  if decide (i = 0) then
    Ok (Entry (offset_type 0 (gettype (e_offset r))) (e_complen r) (e_rawlen r) (e_base r) (e_link r) (e_p1 r) (e_p2 r) (e_node r))
  else Ok r.

Definition stored (o : indexobj) (i : Z) : res entry :=
  let* index := calculate_index o i in
  decode_entry i (pyslice (ix_data o) index (index + indexsize)).

(** [__getitem__] *)
Definition index_getitem (o : indexobj) (i : Z) : res entry :=
  let* i := fix_index o i in
  if decide (i = len o - 1) then Ok null_entry
  else if decide (i >= ix_lgt o) then getitem (ix_extra o) (i - ix_lgt o)
  else stored o i.

(** [__delitem__] with the slice [start:stop:step]. *)
Definition delitem (o : indexobj) (start stop step : option Z) : res indexobj :=
  if decide (stop ≠ Some (-1) \/ step ≠ None) then Err ValueError
  else
    match start with
    | None => Err TypeError
    | Some start =>
        let* i := fix_index o start in
        if decide (i < ix_lgt o) then
          Ok (match ix_offsets o with
              | None => IndexObj (pyslice (ix_data o) 0 (i * indexsize)) i [] None
              | Some offsets => IndexObj (ix_data o) i [] (Some (pyslice offsets 0 i))
              end)
        else Ok (IndexObj (ix_data o) (ix_lgt o) (pyslice (ix_extra o) 0 (i - ix_lgt o)) (ix_offsets o))
    end.

(** ** Opening a file *)

(** [IndexObject.__init__] *)
Definition index_object (data : bytes) : res indexobj :=
  if decide (zlen data mod indexsize = 0) then Ok (IndexObj data (zlen data / indexsize) [] None)
  else Err AssertionError.

(** The loop of [_inline_scan]; a negative length can make it endless. *)
Fixpoint inline_scan_loop (fuel : nat) (data : bytes) (off count : Z) (offsets : option (list Z)) : res (Z * option (list Z)) :=
  match fuel with
  | O => Err OutOfFuel
  | S fuel =>
      if decide (off <= zlen data - indexsize) then
        let* s := unpack_l (pyslice data (off + indexfirst) (off + sizeint + indexfirst)) in
        let* offsets :=
          match offsets with
          | None => Ok None
          | Some l => if decide (count < zlen l) then Ok (Some (<[Z.to_nat count := off]> l)) else Err IndexError
          end in
        inline_scan_loop fuel data (off + (indexsize + s)) (count + 1) offsets
      else if decide (off = zlen data) then Ok (count, offsets)
      else Err ValueError
  end.

(** [_inline_scan] *)
Definition inline_scan (fuel : nat) (data : bytes) (lgt : option Z) : res (Z * option (list Z)) :=
  inline_scan_loop fuel data 0 0 (match lgt with None => None | Some lgt => Some (replicate (Z.to_nat lgt) 0) end).

(** [InlinedIndexObject.__init__] *)
Definition inlined_index_object (fuel : nat) (data : bytes) : res indexobj :=
  let* (lgt, _) := inline_scan fuel data None in
  let* (_, offsets) := inline_scan fuel data (Some lgt) in
  Ok (IndexObj data lgt [] offsets).

(** [parse_index2] *)
Definition parse_index2 (fuel : nat) (data : bytes) (inline : bool) : res (indexobj * option (Z * bytes)) :=
  if inline then let* o := inlined_index_object fuel data in Ok (o, Some (0, data))
  else let* o := index_object data in Ok (o, None).

(** ** Writing a file *)

(** What [_writeentry] appends to the index and the data file. *)
Definition writeentry (inline : bool) (files : bytes * bytes) (entry : bytes) (data : bytes * bytes) : bytes * bytes :=
  if inline then (((files.1 ++ entry) ++ data.1) ++ data.2, files.2)
  else (files.1 ++ entry, (files.2 ++ data.1) ++ data.2).

(** Revisions added one after the other to an index of [rev] entries. *)
Fixpoint write_entries (inline : bool) (version rev : Z) (files : bytes * bytes) (es : list (entry * (bytes * bytes))) : res (bytes * bytes) :=
  match es with
  | [] => Ok files
  | (e, data) :: es =>
      let* p := packentry e version rev in
      write_entries inline version (rev + 1) (writeentry inline files p data) es
  end.

(** ** Operations in sequence *)

Inductive op :=
  | OLen
  | OGet (i : Z)
  | OInsert (i : Z) (e : entry)
  | ODel (start stop step : option Z).

Inductive out :=
  | OutLen (n : Z)
  | OutEntry (e : entry)
  | OutNone
  | OutErr (err : pyerr).

(** An operation that raises leaves the object as it is. *)
Definition effect {A} (s : A) (r : res A) : A * out :=
  match r with Ok s => (s, OutNone) | Err err => (s, OutErr err) end.
Definition answer (r : res entry) : out :=
  match r with Ok e => OutEntry e | Err err => OutErr err end.

Definition do_op (o : indexobj) (p : op) : indexobj * out :=
  match p with
  | OLen => (o, OutLen (len o))
  | OGet i => (o, answer (index_getitem o i))
  | OInsert i e => effect o (insert o i e)
  | ODel start stop step => effect o (delitem o start stop step)
  end.

Fixpoint run {A} (f : A -> op -> A * out) (s : A) (ops : list op) : list out :=
  match ops with [] => [] | p :: ops => let r := f s p in r.2 :: run f r.1 ops end.

(** The abstract index: the list of its entries, the null entry after the last. *)
Definition spec_fix (es : list entry) (i : Z) : res Z :=
  let i := if decide (i < 0) then zlen es + 1 + i else i in
  if decide (0 <= i <= zlen es) then Ok i else Err IndexError.

Definition spec_op (es : list entry) (p : op) : list entry * out :=
  match p with
  | OLen => (es, OutLen (zlen es + 1))
  | OGet i => (es, answer (let* i := spec_fix es i in getitem (es ++ [null_entry]) i))
  | OInsert i e => effect es (if decide (i = -1) then Ok (es ++ [e]) else Err AssertionError)
  | ODel start stop step =>
      effect es
        (match start, stop, step with
         | Some start, Some (-1), None => let* i := spec_fix es start in Ok (take (Z.to_nat i) es)
         | None, Some (-1), None => Err TypeError
         | _, _, _ => Err ValueError
         end)
  end.

(** ** The representation *)

(** The object has room for what it stores. *)
Definition shape (o : indexobj) : Prop :=
  match ix_offsets o with
  | None => ix_lgt o * indexsize <= zlen (ix_data o)
  | Some offsets => zlen offsets = ix_lgt o
  end.

(** [o] stands for the entries [es]. *)
Definition rep (o : indexobj) (es : list entry) : Prop :=
  shape o /\ exists st, es = st ++ ix_extra o /\ zlen st = ix_lgt o /\
    forall i e, st !! i = Some e -> stored o (Z.of_nat i) = Ok e.

Lemma rep_len o es : rep o es -> len o = zlen es + 1.
Proof. intros (_ & st & -> & E & _). unfold len. rewrite zlen_app. lia. Qed.

Lemma rep_fix o es i : rep o es -> fix_index o i = spec_fix es i.
Proof.
  intros H. unfold fix_index, spec_fix. rewrite (rep_len o es H).
  destruct (decide (i < 0)); case_decide; case_decide; done || lia.
Qed.

Lemma spec_fix_range es i j : spec_fix es i = Ok j -> 0 <= j <= zlen es.
Proof. unfold spec_fix. case_decide as H; [|done]. by intros [= <-]. Qed.

Lemma rep_get o es i : rep o es -> index_getitem o i = (let* i := spec_fix es i in getitem (es ++ [null_entry]) i).
Proof.
  intros H. unfold index_getitem. rewrite (rep_fix o es i H). destruct (spec_fix es i) as [j|err] eqn:Ej; [|done]. cbn [rbind].
  apply spec_fix_range in Ej. rewrite (rep_len o es H). destruct H as (_ & st & -> & El & Hs). rewrite zlen_app in *.
  pose proof (zlen_nonneg st). pose proof (zlen_nonneg (ix_extra o)).
  unfold getitem. case_decide as H1.
  { rewrite lookup_app_r by (rewrite length_app; unfold zlen in *; lia).
    by replace (Z.to_nat j - length (st ++ ix_extra o))%nat with O by (rewrite length_app; unfold zlen in *; lia). }
  rewrite lookup_app_l by (rewrite length_app; unfold zlen in *; lia). case_decide as H2.
  - rewrite lookup_app_r by (unfold zlen in *; lia).
    by replace (Z.to_nat j - length st)%nat with (Z.to_nat (j - ix_lgt o)) by (unfold zlen in *; lia).
  - destruct (lookup_lt_is_Some_2 st (Z.to_nat j)) as [e He]; [unfold zlen in *; lia|].
    rewrite lookup_app_l, He by (unfold zlen in *; lia). rewrite <- (Hs _ _ He). f_equal. lia.
Qed.

Lemma pyslice_take {A} (l : list A) i : 0 <= i -> pyslice l 0 i = take (Z.to_nat i) l.
Proof.
  intros Hi. unfold pyslice. rewrite (clamp_in l 0) by (pose proof (zlen_nonneg l); lia). unfold slice, clamp.
  rewrite drop_0, decide_False, Z.sub_0_r by lia. unfold zlen. destruct (decide (i <= Z.of_nat (length l))).
  - by rewrite Z.min_l by lia.
  - rewrite Z.min_r, Nat2Z.id, !take_ge by lia. done.
Qed.

(** A record before the cut is the same after it. *)
Lemma stored_cut o o' (i : Z) (j : nat) :
  shape o -> 0 <= i < ix_lgt o -> (Z.of_nat j < i) ->
  o' = (match ix_offsets o with
        | None => IndexObj (pyslice (ix_data o) 0 (i * indexsize)) i [] None
        | Some offsets => IndexObj (ix_data o) i [] (Some (pyslice offsets 0 i))
        end) ->
  stored o' (Z.of_nat j) = stored o (Z.of_nat j).
Proof.
  unfold shape, stored, calculate_index, indexsize. intros Hs Hi Hj ->. destruct (ix_offsets o) as [offs|] eqn:Eo; cbn [ix_offsets ix_data].
  - unfold getitem. rewrite pyslice_take by lia. by rewrite lookup_take_lt by lia.
  - cbn [rbind]. rewrite pyslice_take by lia. f_equal. unfold pyslice.
    rewrite !clamp_in; [|rewrite ?zlen_take by lia; unfold zlen in *; rewrite ?length_take; lia..].
    unfold slice. rewrite skipn_firstn_comm, take_take. f_equal. lia.
Qed.

Lemma rep_cut o es i :
  rep o es -> 0 <= i <= zlen es ->
  rep (if decide (i < ix_lgt o) then
         match ix_offsets o with
         | None => IndexObj (pyslice (ix_data o) 0 (i * indexsize)) i [] None
         | Some offsets => IndexObj (ix_data o) i [] (Some (pyslice offsets 0 i))
         end
       else IndexObj (ix_data o) (ix_lgt o) (pyslice (ix_extra o) 0 (i - ix_lgt o)) (ix_offsets o))
    (take (Z.to_nat i) es).
Proof.
  intros (Hsh & st & -> & El & Hs) Hi. case_decide as Hc.
  - set (o' := match ix_offsets o with None => _ | Some _ => _ end).
    assert (ix_extra o' = [] /\ ix_lgt o' = i /\ shape o') as (E1 & E2 & E3).
    { unfold shape, indexsize in *. subst o'. destruct (ix_offsets o); cbn; split_and!; try done.
      - rewrite pyslice_take by lia. unfold zlen in *. rewrite length_take. lia.
      - rewrite pyslice_take by lia. unfold zlen in *. rewrite length_take. lia. }
    split; [done|]. exists (take (Z.to_nat i) st). rewrite E1, E2, app_nil_r. split_and!.
    + rewrite take_app_le; [done|]. unfold zlen in *. lia.
    + unfold zlen in *. rewrite length_take. lia.
    + intros j e [He Hlt]%lookup_take_Some. rewrite (stored_cut o o' i j); [by apply Hs|done|lia|lia|done].
  - split; [exact Hsh|]. exists st. cbn. split_and!; [|done|exact Hs].
    rewrite pyslice_take, take_app_ge by (unfold zlen in *; lia). do 2 f_equal. unfold zlen in *. lia.
Qed.

(** Each operation on the object is the operation on the list. *)
Lemma rep_step o es p :
  rep o es -> (do_op o p).2 = (spec_op es p).2 /\ rep (do_op o p).1 (spec_op es p).1.
Proof.
  intros H. destruct p as [|i|i e|start stop step]; cbn [do_op spec_op].
  - by rewrite (rep_len o es H).
  - by rewrite (rep_get o es i H).
  - unfold insert. case_decide; cbn; [|done]. split; [done|]. destruct H as (Hsh & st & -> & El & Hs).
    split; [exact Hsh|]. exists st. split_and!; [cbn; by rewrite <- app_assoc|done|exact Hs].
  - unfold delitem. destruct (decide (stop ≠ Some (-1) \/ step ≠ None)) as [Hne|Heq].
    + cbn. assert (forall X, match start, stop, step with
         | Some start, Some (-1), None => X start | None, Some (-1), None => Err TypeError | _, _, _ => Err ValueError end
         = @Err (list entry) ValueError) as ->; [|done].
      intros X. destruct start, stop as [[|[]|[]]|], step; try done; destruct Hne; done.
    + assert (stop = Some (-1) /\ step = None) as [-> ->].
      { split; [destruct (decide (stop = Some (-1)))|destruct (decide (step = None))]; try done; exfalso; tauto. }
      destruct start as [start|]; [|done]. rewrite (rep_fix o es start H).
      destruct (spec_fix es start) as [i|err] eqn:Ei; [|done]. cbn [rbind]. apply spec_fix_range in Ei.
      pose proof (rep_cut o es i H Ei) as Hr. by destruct (decide (i < ix_lgt o)).
Qed.

Lemma rep_run o es ops : rep o es -> run do_op o ops = run spec_op es ops.
Proof.
  revert o es. induction ops as [|p ops IH]; intros o es H; [done|]. cbn [run].
  destruct (rep_step o es p H) as [-> Hr]. f_equal. by apply IH.
Qed.

(** ** Records *)

(** The entries the format can represent. *)
Definition entry_ok (e : entry) : Prop :=
  0 <= e_offset e < 256 ^ 8 /\ fits32 (e_complen e) /\ fits32 (e_rawlen e) /\ fits32 (e_base e) /\
  fits32 (e_link e) /\ fits32 (e_p1 e) /\ fits32 (e_p2 e) /\ length (e_node e) = 20%nat.

Lemma field {A} (l pre x post : list A) m n :
  l = pre ++ x ++ post -> length pre = m -> length x = n -> take n (drop m l) = x.
Proof. intros -> <- <-. by rewrite drop_app_length, take_app_length. Qed.

(** The record after its first eight bytes. *)
Lemma pack_index_fields e :
  entry_ok e ->
  exists t, pack_index e = Ok (be_encode 8 (e_offset e) ++ t) /\ length t = 56%nat /\
    forall q, length q = 8%nat ->
      unpack_l (take 4 (drop 8 (q ++ t))) = Ok (e_complen e) /\
      unpack_index (q ++ t) = Ok (Entry (be_decode q) (e_complen e) (e_rawlen e) (e_base e) (e_link e) (e_p1 e) (e_p2 e) (e_node e)).
Proof.
  intros (Hq & H1 & H2 & H3 & H4 & H5 & H6 & Hn).
  destruct (pack_l_ok _ H1) as (l1 & E1 & L1 & U1). destruct (pack_l_ok _ H2) as (l2 & E2 & L2 & U2).
  destruct (pack_l_ok _ H3) as (l3 & E3 & L3 & U3). destruct (pack_l_ok _ H4) as (l4 & E4 & L4 & U4).
  destruct (pack_l_ok _ H5) as (l5 & E5 & L5 & U5). destruct (pack_l_ok _ H6) as (l6 & E6 & L6 & U6).
  unfold pack_index, pack_u. rewrite decide_True by exact Hq. rewrite E1, E2, E3, E4, E5, E6, pack_s_exact by done. cbn [rbind].
  eexists. split; [done|]. split; [rewrite !length_app, length_replicate; lia|]. intros q Lq.
  set (z := replicate 12 (byte 0)). set (l := q ++ l1 ++ l2 ++ l3 ++ l4 ++ l5 ++ l6 ++ e_node e ++ z).
  assert (take 4 (drop 8 l) = l1) as F1 by (by apply (field l q l1 (l2 ++ l3 ++ l4 ++ l5 ++ l6 ++ e_node e ++ z))).
  assert (take 4 (drop 12 l) = l2) as F2.
  { apply (field l (q ++ l1) l2 (l3 ++ l4 ++ l5 ++ l6 ++ e_node e ++ z)); [by rewrite <- !app_assoc|rewrite !length_app; lia|done]. }
  assert (take 4 (drop 16 l) = l3) as F3.
  { apply (field l (q ++ l1 ++ l2) l3 (l4 ++ l5 ++ l6 ++ e_node e ++ z)); [by rewrite <- !app_assoc|rewrite !length_app; lia|done]. }
  assert (take 4 (drop 20 l) = l4) as F4.
  { apply (field l (q ++ l1 ++ l2 ++ l3) l4 (l5 ++ l6 ++ e_node e ++ z)); [by rewrite <- !app_assoc|rewrite !length_app; lia|done]. }
  assert (take 4 (drop 24 l) = l5) as F5.
  { apply (field l (q ++ l1 ++ l2 ++ l3 ++ l4) l5 (l6 ++ e_node e ++ z)); [by rewrite <- !app_assoc|rewrite !length_app; lia|done]. }
  assert (take 4 (drop 28 l) = l6) as F6.
  { apply (field l (q ++ l1 ++ l2 ++ l3 ++ l4 ++ l5) l6 (e_node e ++ z)); [by rewrite <- !app_assoc|rewrite !length_app; lia|done]. }
  assert (take 20 (drop 32 l) = e_node e) as F7.
  { apply (field l (q ++ l1 ++ l2 ++ l3 ++ l4 ++ l5 ++ l6) (e_node e) z); [by rewrite <- !app_assoc|rewrite !length_app; lia|done]. }
  split; [by rewrite F1|]. unfold unpack_index.
  rewrite decide_True by (subst l z; rewrite !length_app, length_replicate; lia).
  rewrite F1, F2, F3, F4, F5, F6, F7. rewrite U1, U2, U3, U4, U5, U6. unfold unpack_u, l.
  by rewrite take_app_length', decide_True by done.
Qed.

Lemma be_encode_add m n z : be_encode (m + n) z = be_encode m (z / 256 ^ Z.of_nat n) ++ be_encode n z.
Proof.
  revert z. induction n as [|n IH]; intros z.
  - rewrite Nat.add_0_r. cbn. by rewrite Z.div_1_r, app_nil_r.
  - rewrite Nat.add_succ_r. cbn [be_encode]. rewrite IH, app_assoc. do 3 f_equal.
    rewrite Nat2Z.inj_succ, Z.pow_succ_r by lia. apply Z.div_div; [done|by apply Z.pow_pos_nonneg; lia].
Qed.

Lemma be_decode_app a b : be_decode (a ++ b) = be_decode a * 256 ^ zlen b + be_decode b.
Proof.
  induction b as [|c b IH] using rev_ind; [rewrite app_nil_r; change (be_decode []) with 0; change (256 ^ zlen []) with 1; lia|].
  rewrite app_assoc, !be_decode_snoc, IH, zlen_app. change (zlen [c]) with 1.
  rewrite Z.pow_add_r by (pose proof (zlen_nonneg b); lia). lia.
Qed.

(** What is written for an entry is read as the entry. *)
Lemma packentry_ok e version rev :
  entry_ok e -> 0 <= version < 256 ^ 4 -> (rev = 0 -> e_offset e < 65536) ->
  exists p, packentry e version rev = Ok p /\ length p = 64%nat /\
    unpack_l (take 4 (drop 8 p)) = Ok (e_complen e) /\ decode_entry rev p = Ok e.
Proof.
  intros He Hv H0. destruct (pack_index_fields e He) as (t & E & Lt & Ht). unfold packentry, decode_entry. rewrite E. cbn [rbind].
  destruct He as [Hq _]. case_decide as Hr.
  - specialize (H0 Hr). destruct (pack_u_ok 4 version Hv) as (v & Ev & Lv & _). rewrite Ev. cbn [rbind].
    rewrite (be_encode_add 4 4), <- app_assoc. rewrite drop_app_length' by (by rewrite length_be_encode).
    eexists. split; [done|]. rewrite app_assoc.
    assert (length (v ++ be_encode 4 (e_offset e)) = 8%nat) as L8 by (rewrite length_app, length_be_encode; lia).
    destruct (Ht _ L8) as [-> ->]. split; [rewrite length_app; lia|]. split; [done|]. cbn [rbind e_offset e_complen e_rawlen e_base e_link e_p1 e_p2 e_node].
    unfold offset_type, gettype. rewrite Z.shiftl_0_l, Z.lor_0_l. rewrite be_decode_app, be_decode_encode by lia.
    change 65535 with (Z.ones 16). rewrite Z.land_ones by lia.
    unfold zlen. rewrite length_be_encode. change (256 ^ Z.of_nat 4) with (65536 * 2 ^ 16).
    rewrite Z.mul_assoc, Z.add_comm, Z_mod_plus_full, Z.mod_small by lia. by destruct e.
  - eexists. split; [done|]. destruct (Ht (be_encode 8 (e_offset e)) (length_be_encode _ _)) as [-> ->].
    split; [rewrite length_app, length_be_encode; lia|]. split; [done|]. cbn [rbind]. rewrite be_decode_encode by exact Hq. by destruct e.
Qed.

(** ** The layout of a file *)

(** The records and the data that follow them, for the entries from [rev] on. *)
Fixpoint layout (inline : bool) (rev : Z) (es : list (entry * (bytes * bytes))) (recs : list (bytes * bytes)) : Prop :=
  match es, recs with
  | [], [] => True
  | (e, d) :: es, (p, x) :: recs =>
      length p = 64%nat /\ unpack_l (take 4 (drop 8 p)) = Ok (e_complen e) /\ decode_entry rev p = Ok e /\
      x = (if inline then d.1 ++ d.2 else []) /\ layout inline (rev + 1) es recs
  | _, _ => False
  end.

Definition flat (recs : list (bytes * bytes)) : bytes := concat (map (fun r => r.1 ++ r.2) recs).

(** Where each record starts. *)
Fixpoint starts (off : Z) (recs : list (bytes * bytes)) : list Z :=
  match recs with [] => [] | (p, x) :: recs => off :: starts (off + zlen p + zlen x) recs end.

(** The file has the data of each revision at the length its entry says. *)
Definition data_ok (ed : entry * (bytes * bytes)) : Prop := zlen ed.2.1 + zlen ed.2.2 = e_complen ed.1.

Lemma write_entries_layout inline version rev files es :
  0 <= version < 256 ^ 4 -> 0 <= rev -> Forall (fun ed => entry_ok ed.1) es ->
  (forall ed, rev = 0 -> head es = Some ed -> e_offset ed.1 < 65536) ->
  exists recs dfile, write_entries inline version rev files es = Ok (files.1 ++ flat recs, dfile) /\ layout inline rev es recs.
Proof.
  intros Hv. revert rev files. induction es as [|[e d] es IH]; intros rev files Hr HF H0; cbn [write_entries].
  { exists [], files.2. cbn. rewrite app_nil_r. by destruct files. }
  apply Forall_cons in HF as [He HF]. destruct (packentry_ok e version rev He Hv) as (p & Ep & Lp & Up & Dp).
  { intros ->. by apply (H0 (e, d)). }
  rewrite Ep. cbn [rbind]. destruct (IH (rev + 1) (writeentry inline files p d)) as (recs & dfile & -> & HL); [lia|done|lia|].
  exists ((p, if inline then d.1 ++ d.2 else []) :: recs), dfile. split; [|done]. f_equal. f_equal.
  unfold writeentry, flat. destruct inline; cbn; by rewrite ?app_nil_r, <- ?app_assoc.
Qed.

Lemma layout_length inline rev es recs : layout inline rev es recs -> length recs = length es.
Proof.
  revert rev recs. induction es as [|[e d] es IH]; intros rev [|[p x] recs]; cbn; try done.
  intros (_ & _ & _ & _ & HL). f_equal. by eapply IH.
Qed.

Lemma layout_size inline rev es recs : layout inline rev es recs -> (64 * length recs <= length (flat recs))%nat.
Proof.
  revert rev recs. induction es as [|[e d] es IH]; intros rev [|[p x] recs]; try done.
  cbn [layout]. intros (Lp & _ & _ & _ & HL). unfold flat in *. cbn [map concat fst snd length]. rewrite !length_app.
  specialize (IH _ _ HL). lia.
Qed.

(** A record is found at its start. *)
Lemma layout_lookup inline rev es recs pre off i ed s :
  layout inline rev es recs -> off = zlen pre -> es !! i = Some ed -> starts off recs !! i = Some s ->
  decode_entry (rev + Z.of_nat i) (pyslice (pre ++ flat recs) s (s + indexsize)) = Ok ed.1.
Proof.
  revert rev recs pre off i. induction es as [|[e d] es IH]; intros rev [|[p x] recs] pre off i; try done.
  cbn [layout]. intros (Lp & _ & Dp & _ & HL) Eo. unfold flat. cbn [map concat fst snd starts]. fold (flat recs).
  destruct i as [|i]; cbn [lookup list_lookup].
  - intros [= <-] [= <-]. rewrite Z.add_0_r. rewrite <- (app_assoc p x), (pyslice_app pre p); [done|done|].
    unfold zlen at 2. rewrite Lp, Eo. reflexivity.
  - intros Hi Hs. rewrite (app_assoc pre). replace (rev + Z.of_nat (S i)) with ((rev + 1) + Z.of_nat i) by lia.
    eapply IH; [done| |done|exact Hs]. rewrite !zlen_app. lia.
Qed.

(** Without inline data, the records are 64 bytes apart. *)
Lemma starts_flat rev es recs off i :
  layout false rev es recs -> (i < length es)%nat -> starts off recs !! i = Some (off + Z.of_nat i * indexsize).
Proof.
  revert rev recs off i. induction es as [|[e d] es IH]; intros rev [|[p x] recs] off i; cbn [layout]; try done; [cbn; lia|].
  intros (Lp & _ & _ & -> & HL) Hi. cbn [starts]. destruct i as [|i]; cbn [lookup list_lookup]; [f_equal; unfold indexsize; lia|].
  rewrite (IH (rev + 1)) by (done || cbn in Hi; lia). f_equal. unfold indexsize, zlen. rewrite Lp. cbn. lia.
Qed.

Lemma flat_size rev es recs : layout false rev es recs -> zlen (flat recs) = indexsize * zlen es.
Proof.
  revert rev recs. induction es as [|[e d] es IH]; intros rev [|[p x] recs]; cbn [layout]; try done.
  intros (Lp & _ & _ & -> & HL). unfold flat. cbn [map concat fst snd]. fold (flat recs).
  rewrite !zlen_app, (IH _ _ HL), zlen_cons. assert (zlen p = 64) as -> by (unfold zlen; lia). unfold indexsize. change (zlen []) with 0. lia.
Qed.

(** The scan finds the starts. *)
Lemma scan_layout rev es recs fuel pre count offsets :
  layout true rev es recs -> Forall data_ok es -> (length recs < fuel)%nat -> 0 <= count ->
  (forall l, offsets = Some l -> zlen l = count + zlen recs) ->
  inline_scan_loop fuel (pre ++ flat recs) (zlen pre) count offsets =
  Ok (count + zlen recs, match offsets with None => None | Some l => Some (take (Z.to_nat count) l ++ starts (zlen pre) recs) end).
Proof.
  revert rev recs fuel pre count offsets. induction es as [|[e d] es IH]; intros rev [|[p x] recs] [|fuel] pre count offsets; cbn [layout]; try done;
    try (cbn; lia).
  { intros _ _ _ Hc Ho. unfold flat. cbn [map concat inline_scan_loop starts]. rewrite app_nil_r.
    rewrite decide_False by (unfold indexsize; lia). rewrite decide_True by done. change (zlen []) with 0 in *. rewrite Z.add_0_r.
    destruct offsets as [l|]; [|done]. specialize (Ho l eq_refl). rewrite app_nil_r, take_ge; [done|]. unfold zlen in *. lia. }
  intros (Lp & Up & Dp & -> & HL) [Hd HF]%Forall_cons Hf Hc Ho. cbn [inline_scan_loop]. unfold flat. cbn [map concat fst snd]. fold (flat recs).
  set (x := d.1 ++ d.2) in *. assert (zlen p = 64) as Zp by (unfold zlen; lia).
  assert (zlen x = e_complen e) as Zx by (subst x; rewrite zlen_app; exact Hd).
  rewrite decide_True by (unfold indexsize; rewrite !zlen_app; pose proof (zlen_nonneg x); pose proof (zlen_nonneg (flat recs)); lia).
  assert (pyslice (pre ++ (p ++ x) ++ flat recs) (zlen pre + indexfirst) (zlen pre + sizeint + indexfirst) = take 4 (drop 8 p)) as ->.
  { unfold indexfirst, sizeint. rewrite <- (take_drop 8 p) at 1. rewrite <- (take_drop 4 (drop 8 p)) at 1. rewrite <- !app_assoc, app_assoc.
    assert (length (take 8 p) = 8%nat) as L8 by (rewrite length_take; lia).
    assert (length (take 4 (drop 8 p)) = 4%nat) as L4 by (rewrite length_take, length_drop; lia).
    apply (pyslice_app (pre ++ take 8 p) (take 4 (drop 8 p))); rewrite zlen_app; unfold zlen; rewrite ?L8, ?L4; lia. }
  rewrite Up. cbn [rbind]. rewrite (app_assoc pre). rewrite zlen_cons in Ho |- *.
  replace (zlen pre + (indexsize + e_complen e)) with (zlen (pre ++ p ++ x)) by (unfold indexsize; rewrite !zlen_app; lia).
  assert (zlen (pre ++ p ++ x) = zlen pre + zlen p + zlen x) as Ez by (rewrite !zlen_app; lia).
  destruct offsets as [l|]; cbn [rbind].
  - specialize (Ho l eq_refl). pose proof (zlen_nonneg recs). rewrite decide_True by lia. cbn [rbind].
    rewrite (IH (rev + 1)); [|done|done|cbn in Hf; lia|lia|intros ? [= <-]; unfold zlen in *; rewrite length_insert; lia].
    f_equal. f_equal; [lia|]. f_equal. cbn [starts]. rewrite Ez.
    replace (Z.to_nat (count + 1)) with (S (Z.to_nat count)) by lia.
    rewrite (take_S_r _ _ (zlen pre)) by (apply list_lookup_insert_eq; unfold zlen in *; lia).
    rewrite take_insert_ge by lia. by rewrite <- app_assoc.
  - rewrite (IH (rev + 1)); [|done|done|cbn in Hf; lia|lia|done]. f_equal. f_equal. lia.
Qed.

(** ** Opening what was written *)

Lemma index_object_rep rev es recs :
  rev = 0 -> layout false rev es recs -> exists o, index_object (flat recs) = Ok o /\ rep o (map fst es).
Proof.
  intros -> HL. unfold index_object. rewrite (flat_size _ _ _ HL). unfold indexsize at 1 2 3 4.
  rewrite decide_True by (by rewrite Z.mul_comm, Z_mod_mult). eexists. split; [done|]. rewrite Z.mul_comm, Z.div_mul by done.
  split.
  { unfold shape. cbn. rewrite (flat_size _ _ _ HL). unfold indexsize. lia. }
  exists (map fst es). cbn. rewrite app_nil_r. split_and!; [done|by unfold zlen; rewrite length_map|].
  intros i e. rewrite list_lookup_fmap. destruct (es !! i) as [ed|] eqn:Ei; [|done]. intros [= <-].
  unfold stored, calculate_index. cbn. eapply (layout_lookup false 0 es recs [] 0); [done|done|done|].
  rewrite (starts_flat 0 es) by (done || by eapply lookup_lt_Some). done.
Qed.

Lemma inlined_index_object_rep fuel es recs :
  layout true 0 es recs -> Forall data_ok es -> (length recs < fuel)%nat ->
  exists o, inlined_index_object fuel (flat recs) = Ok o /\ rep o (map fst es).
Proof.
  intros HL HD Hf. unfold inlined_index_object, inline_scan.
  pose proof (scan_layout 0 es recs fuel [] 0 None HL HD Hf ltac:(lia)) as S1. cbn [app] in S1. change (zlen []) with 0 in S1.
  rewrite S1 by done. cbn [rbind]. rewrite Z.add_0_l. set (zs := replicate (Z.to_nat (zlen recs)) 0).
  pose proof (scan_layout 0 es recs fuel [] 0 (Some zs) HL HD Hf ltac:(lia)) as S2. cbn [app] in S2. change (zlen []) with 0 in S2.
  rewrite S2; [|intros ? [= <-]; subst zs; unfold zlen; rewrite length_replicate; lia]. cbn [rbind]. change (take (Z.to_nat 0) zs ++ starts 0 recs) with (starts 0 recs).
  eexists. split; [done|]. pose proof (layout_length _ _ _ _ HL) as Hl.
  assert (forall off r, length (starts off r) = length r) as Ls.
  { intros off r. revert off. induction r as [|[p x] r IH]; intros off; [done|]. cbn. by rewrite IH. }
  split; [unfold shape, zlen; cbn; by rewrite Ls|].
  exists (map fst es). cbn. rewrite app_nil_r. split_and!; [done|by unfold zlen; rewrite length_map, Hl|].
  intros i e. rewrite list_lookup_fmap. destruct (es !! i) as [ed|] eqn:Ei; [|done]. intros [= <-].
  destruct (lookup_lt_is_Some_2 (starts 0 recs) i) as [s Hs].
  { rewrite Ls, Hl. by eapply lookup_lt_Some. }
  unfold stored, calculate_index, getitem. cbn. rewrite Nat2Z.id, Hs. cbn [rbind].
  by eapply (layout_lookup true 0 es recs [] 0).
Qed.

(** [C29] The index file refines the list of its entries: whatever entries are
    written, inline or not, the file is opened without error, and then every
    sequence of lookups, insertions and cuts, errors included, answers as on the
    list of entries followed by the null entry. *)
Theorem index_file_refines (inline : bool) (version : Z) (es : list (entry * (bytes * bytes))) (ops : list op) :
  0 <= version < 256 ^ 4 -> Forall (fun ed => entry_ok ed.1) es -> (inline = true -> Forall data_ok es) ->
  (forall ed, head es = Some ed -> e_offset ed.1 < 65536) ->
  exists ifile dfile o cache,
    write_entries inline version 0 ([], []) es = Ok (ifile, dfile) /\
    parse_index2 (S (length ifile)) ifile inline = Ok (o, cache) /\
    run do_op o ops = run spec_op (map fst es) ops.
Proof.
  intros Hv HF HD H0. destruct (write_entries_layout inline version 0 ([], []) es Hv) as (recs & dfile & E & HL); [lia|done|by intros ed _; apply H0|].
  cbn [fst app] in E. pose proof (layout_size _ _ _ _ HL) as Hs. rewrite E. unfold parse_index2. destruct inline.
  - destruct (inlined_index_object_rep (S (length (flat recs))) es recs HL (HD eq_refl)) as (o & Eo & Hr); [lia|].
    exists (flat recs), dfile, o, (Some (0, flat recs)). rewrite Eo. split_and!; [done|done|by apply rep_run].
  - destruct (index_object_rep 0 es recs eq_refl HL) as (o & Eo & Hr).
    exists (flat recs), dfile, o, None. rewrite Eo. split_and!; [done|done|by apply rep_run].
Qed.

Definition sample_node (c : ascii) : bytes := replicate 20 c.
Definition sample_entries : list (entry * (bytes * bytes)) :=
  [(Entry 0 3 3 0 0 (-1) (-1) (sample_node "a"), ([], bs "abc"));
   (Entry (offset_type 3 0) 2 5 0 1 0 (-1) (sample_node "b"), (bs "u", bs "x"))].

Lemma index_file_refines_witness :
  exists ifile dfile o cache,
    write_entries true 65537 0 ([], []) sample_entries = Ok (ifile, dfile) /\
    parse_index2 (S (length ifile)) ifile true = Ok (o, cache) /\
    run do_op o [OGet 1; ODel (Some 1) (Some (-1)) None; OGet 1; OGet 7] =
    run spec_op (map fst sample_entries) [OGet 1; ODel (Some 1) (Some (-1)) None; OGet 1; OGet 7].
Proof.
  apply (index_file_refines true 65537 sample_entries).
  - vm_compute. intuition discriminate.
  - repeat (apply Forall_cons; split; [vm_compute; intuition discriminate|]). constructor.
  - intros _. repeat (apply Forall_cons; split; [vm_compute; reflexivity|]). constructor.
  - intros ed [= <-]. vm_compute. reflexivity.
Defined.

Example index_file_example :
  run spec_op (map fst sample_entries) [OGet (-1); OLen; ODel (Some 1) (Some (-1)) None; OLen; OGet 1; OGet 7] =
  [OutEntry null_entry; OutLen 3; OutNone; OutLen 2; OutEntry null_entry; OutErr IndexError].
Proof. vm_compute. reflexivity. Qed.

(** The parent fields are the ones the graph algorithms read: the index of
    [Revlog] is the abstraction of this one. *)
Lemma index_parents o es i :
  rep o es ->
  (let* e := index_getitem o i in Ok (e_p1 e, e_p2 e)) = Revlog.getitem (map (fun e => (e_p1 e, e_p2 e)) es) i.
Proof.
  intros H. rewrite (rep_get o es i H). unfold spec_fix, Revlog.getitem, Revlog.fix_index, Revlog.index_len.
  rewrite length_map. fold (zlen es). set (j := if decide (i < 0) then zlen es + 1 + i else i).
  destruct (decide (0 <= j <= zlen es)) as [Hj|Hj].
  - rewrite (decide_False (P := j < 0 \/ _)) by lia. cbn [rbind]. unfold getitem. case_decide as He.
    + rewrite lookup_app_r by (unfold zlen in *; lia). by replace (Z.to_nat j - length es)%nat with O by (unfold zlen in *; lia).
    + rewrite lookup_app_l by (unfold zlen in *; lia). rewrite list_lookup_fmap. by destruct (es !! Z.to_nat j).
  - by rewrite (decide_True (P := j < 0 \/ _)) by lia.
Qed.

(** A record that says its data has length -64 is read for ever. *)
Definition bad_index : bytes := be_encode 8 0 ++ be_encode 4 4294967232 ++ be_encode 52 0.

Lemma inline_scan_loops fuel : inline_scan fuel bad_index None = Err OutOfFuel.
Proof.
  unfold inline_scan. generalize 0 at 2. induction fuel as [|fuel IH]; intros count; [done|]. cbn [inline_scan_loop].
  rewrite decide_True by (vm_compute; discriminate).
  assert (unpack_l (pyslice bad_index (0 + indexfirst) (0 + sizeint + indexfirst)) = Ok (-64)) as -> by (vm_compute; reflexivity).
  cbn [rbind]. apply IH.
Qed.
End IndexFile.
