(* ===== verification/LruCache.v ===== *)
(** * The bounded cache of util.py ([lrucachedict])

    A dictionary from keys to the nodes of a doubly linked ring whose head is
    the newest entry.  The nodes are addresses; each attribute of a node is a
    map from addresses, and the assignments are the ones of the source in the
    same order.  The refinement theorem shows that the pointers implement a list
    of entries, newest first, cut to the capacity. *)

From stdpp Require Import functions.
From S2P Require Import Prelude Lines.

Module LruCache.

Section lru.
Context {K V : Type} `{Countable K}.

(** The nodes (their attributes and the first address not in use) and the
    attributes of the dictionary.  The key of an empty node is [None]. *)
Record lru := Lru {
  l_next : nat -> nat; l_prev : nat -> nat; l_key : nat -> option K; l_value : nat -> option V; l_fresh : nat;
  l_cache : gmap K nat; l_head : nat; l_size : Z; l_capacity : Z
}.

(** ** Assignments *)

Definition set_key (n : nat) (k : option K) (c : lru) : lru :=
  Lru (l_next c) (l_prev c) (<[n := k]> (l_key c)) (l_value c) (l_fresh c) (l_cache c) (l_head c) (l_size c) (l_capacity c).
Definition set_value (n : nat) (v : V) (c : lru) : lru :=
  Lru (l_next c) (l_prev c) (l_key c) (<[n := Some v]> (l_value c)) (l_fresh c) (l_cache c) (l_head c) (l_size c) (l_capacity c).
Definition set_cache (m : gmap K nat) (c : lru) : lru :=
  Lru (l_next c) (l_prev c) (l_key c) (l_value c) (l_fresh c) m (l_head c) (l_size c) (l_capacity c).
Definition set_head (n : nat) (c : lru) : lru :=
  Lru (l_next c) (l_prev c) (l_key c) (l_value c) (l_fresh c) (l_cache c) n (l_size c) (l_capacity c).
(** [_lrucachenode()]: its links are set by the caller. *)
Definition new_node (c : lru) : lru * nat :=
  let n := l_fresh c in
  (Lru (l_next c) (l_prev c) (<[n := None]> (l_key c)) (<[n := None]> (l_value c)) (S n)
     (l_cache c) (l_head c) (l_size c) (l_capacity c), n).

(** [markempty] *)
Definition markempty (n : nat) (c : lru) : lru := set_key n None c.

(** ** Methods *)

(** [__init__] *)
Definition init (max : Z) : lru :=
  Lru (fun _ => O) (fun _ => O) (fun _ => None) (fun _ => None) 1 ∅ O 1 max.

(** The assignments to links in [_movetohead]. *)
Definition move_links (head node : nat) (next prev : nat -> nat) : (nat -> nat) * (nat -> nat) :=
  let next := <[prev node := next node]> next in
  let prev := <[next node := prev node]> prev in
  let prev := <[node := prev head]> prev in
  let next := <[node := next (prev head)]> next in
  let prev := <[next node := node]> prev in
  let next := <[prev node := node]> next in
  (next, prev).

(** [_movetohead] *)
Definition movetohead (node : nat) (c : lru) : lru :=
  let links := move_links (l_head c) node (l_next c) (l_prev c) in
  Lru links.1 links.2 (l_key c) (l_value c) (l_fresh c) (l_cache c) node (l_size c) (l_capacity c).

(** The assignments to links in [_addcapacity]. *)
Definition add_links (head node : nat) (next prev : nat -> nat) : (nat -> nat) * (nat -> nat) :=
  let next := <[prev head := node]> next in
  let prev := <[node := prev head]> prev in
  let next := <[node := head]> next in
  let prev := <[head := node]> prev in
  (next, prev).

(** [_addcapacity] *)
Definition addcapacity (c : lru) : lru * nat :=
  let '(c, node) := new_node c in
  let links := add_links (l_head c) node (l_next c) (l_prev c) in
  (Lru links.1 links.2 (l_key c) (l_value c) (l_fresh c) (l_cache c) (l_head c) (l_size c + 1) (l_capacity c), node).

Definition len (c : lru) : Z := Z.of_nat (size (l_cache c)).
Definition contains (c : lru) (k : K) : bool := bool_decide (is_Some (l_cache c !! k)).

(** [__iter__]: the keys met from [n] on. *)
Fixpoint iter_from (c : lru) (n : nat) (count : nat) : list (option K) :=
  match count with O => [] | S count => l_key c n :: iter_from c (l_next c n) count end.
Definition iter (c : lru) : list (option K) := iter_from c (l_head c) (size (l_cache c)).

(** [__getitem__] *)
Definition getitem (c : lru) (k : K) : lru * res (option V) :=
  match l_cache c !! k with
  | None => (c, Err KeyError)
  | Some node => let c := movetohead node c in (c, Ok (l_value c node))
  end.

(** [__setitem__] *)
Definition setitem (c : lru) (k : K) (v : V) : lru :=
  match l_cache c !! k with
  | Some node => movetohead node (set_value node v c)
  | None =>
      let '(c, node) := if decide (l_size c < l_capacity c) then addcapacity c else (c, l_prev c (l_head c)) in
      let c := match l_key c node with Some old => set_cache (delete old (l_cache c)) c | None => c end in
      let c := set_key node (Some k) c in
      let c := set_value node v c in
      let c := set_cache (<[k := node]> (l_cache c)) c in
      set_head node c
  end.

(** [__delitem__] *)
Definition delitem (c : lru) (k : K) : lru * res unit :=
  match l_cache c !! k with
  | None => (c, Err KeyError)
  | Some node =>
      let c := set_cache (delete k (l_cache c)) c in
      let c := markempty node c in
      let c := movetohead node c in
      (set_head (l_next c node) c, Ok ())
  end.

(** [get] without a default *)
Definition get (c : lru) (k : K) : option V :=
  match l_cache c !! k with Some node => l_value c node | None => None end.

(** [clear] *)
Fixpoint clear_loop (fuel : nat) (n : nat) (c : lru) : res lru :=
  match fuel with
  | O => Err OutOfFuel
  | S fuel =>
      match l_key c n with
      | None => Ok c
      | Some _ => let c := markempty n c in clear_loop fuel (l_next c n) c
      end
  end.
Definition clear (c : lru) : res lru :=
  let* c := clear_loop (S (Z.to_nat (l_size c))) (l_head c) c in Ok (set_cache ∅ c).
End lru.
Arguments lru K V {_ _}.

(** [copy]: the entries are set from the oldest on. *)
Section copy.
Context {K V : Type} `{Countable K}.

(** A key of the copy may be the mark of an empty node. *)
Fixpoint copy_loop (c : lru K V) (n : nat) (count : nat) (result : lru (option K) (option V)) : lru (option K) (option V) :=
  match count with
  | O => result
  | S count => copy_loop c (l_prev c n) count (setitem result (l_key c n) (l_value c n))
  end.
Definition copy (c : lru K V) : lru (option K) (option V) :=
  copy_loop c (l_prev c (l_head c)) (size (l_cache c)) (init (l_capacity c)).
End copy.

Example lru_example :
  let c := setitem (setitem (setitem (init 2) 1 10) 2 20) 1 11 in
  iter c = [Some 1; Some 2] /\ iter (setitem c 3 30) = [Some 3; Some 1] /\ get c 1 = Some 11 /\
  iter (delitem c 1).1 = [Some 2] /\ iter (getitem c 2).1 = [Some 2; Some 1].
Proof. vm_compute. done. Qed.

(** ** Rings *)

(** Successive nodes point to each other. *)
Fixpoint links (nx pv : nat -> nat) (l : list nat) : Prop :=
  match l with
  | x :: l => match l with y :: _ => nx x = y /\ pv y = x /\ links nx pv l | [] => True end
  | [] => True
  end.

Definition ring (nx pv : nat -> nat) (ns : list nat) : Prop :=
  match ns with [] => False | a :: _ => links nx pv (ns ++ [a]) end.

Lemma links_split nx pv l1 x l2 : links nx pv (l1 ++ x :: l2) <-> links nx pv (l1 ++ [x]) /\ links nx pv (x :: l2).
Proof.
  induction l1 as [|a [|b l1] IH]; [cbn; tauto| |].
  - cbn [app links]. tauto.
  - change ((a :: b :: l1) ++ x :: l2) with (a :: b :: (l1 ++ x :: l2)). change ((a :: b :: l1) ++ [x]) with (a :: b :: (l1 ++ [x])).
    cbn [links]. change (b :: l1 ++ x :: l2) with ((b :: l1) ++ x :: l2). rewrite IH. cbn [app]. tauto.
Qed.

Lemma ring_hd nx pv l b l0 : l = b :: l0 -> ring nx pv l = links nx pv (l ++ [b]).
Proof. by intros ->. Qed.

Lemma ring_split nx pv a l1 b l2 :
  ring nx pv ((a :: l1) ++ b :: l2) <-> links nx pv ((a :: l1) ++ [b]) /\ links nx pv ((b :: l2) ++ [a]).
Proof.
  change (ring nx pv ((a :: l1) ++ b :: l2)) with (links nx pv (((a :: l1) ++ b :: l2) ++ [a])).
  rewrite <- (app_assoc (a :: l1)). apply (links_split nx pv (a :: l1) b (l2 ++ [a])).
Qed.

Lemma ring_rot nx pv l1 l2 : ring nx pv (l1 ++ l2) -> ring nx pv (l2 ++ l1).
Proof.
  destruct l1 as [|a l1]; [by rewrite app_nil_r|]. destruct l2 as [|b l2]; [by rewrite app_nil_r|].
  rewrite !ring_split. tauto.
Qed.

Lemma links_next_frame nx pv l z x w : x ∉ l -> links nx pv (l ++ [z]) -> links (<[x := w]> nx) pv (l ++ [z]).
Proof.
  induction l as [|a [|b l] IH]; intros Hx; [done| |]; cbn [app links].
  - rewrite fn_lookup_insert_ne by set_solver. done.
  - rewrite fn_lookup_insert_ne by set_solver. intros (? & ? & ?). split_and!; try done. apply IH; [set_solver|done].
Qed.

Lemma links_prev_frame nx pv l z x w : x ∉ l -> links nx pv (z :: l) -> links nx (<[x := w]> pv) (z :: l).
Proof.
  revert z. induction l as [|a l IH]; intros z Hx; [done|]. cbn [links].
  rewrite fn_lookup_insert_ne by set_solver. intros (? & ? & ?). split_and!; try done. apply IH; [set_solver|done].
Qed.

(** A ring, by a node and the others from [b] to [e]. *)
Lemma ring_cons nx pv n l b e l0 l1 :
  l = b :: l0 -> l = l1 ++ [e] ->
  ring nx pv (n :: l) <-> nx n = b /\ pv b = n /\ links nx pv l /\ nx e = n /\ pv n = e.
Proof.
  intros Hb He. unfold ring. rewrite He. replace ((n :: l1 ++ [e]) ++ [n]) with ((n :: l1) ++ e :: [n]) by (cbn; by rewrite <- app_assoc).
  rewrite links_split. cbn [links]. change ((n :: l1) ++ [e]) with (n :: (l1 ++ [e])). rewrite <- He, Hb. cbn [links]. tauto.
Qed.

(** Two ends of a list that is not empty. *)
Lemma two_ends {A} (l : list A) : l ≠ [] -> exists b l0 e l1, l = b :: l0 /\ l = l1 ++ [e].
Proof.
  intros Hl. destruct l as [|b l0]; [done|]. destruct (exists_last Hl) as (l1 & e & He). by exists b, l0, e, l1.
Qed.

(** Taking a node out. *)
Lemma ring_unlink nx pv n l :
  NoDup (n :: l) -> l ≠ [] -> ring nx pv (n :: l) ->
  ring (<[pv n := nx n]> nx) (<[nx n := pv n]> pv) l.
Proof.
  intros [Hn Hnd]%NoDup_cons Hl Hr. destruct (two_ends l Hl) as (b & l0 & e & l1 & Hb & He).
  destruct (proj1 (ring_cons _ _ _ _ _ _ _ _ Hb He) Hr) as (En & _ & HL & _ & Ep). rewrite En, Ep. clear En Ep.
  assert (e ∉ l1) as H1. { rewrite He in Hnd. apply NoDup_app in Hnd as (_ & Hd & _). intros Hin. by apply (Hd e Hin), list_elem_of_singleton. }
  assert (b ∉ l0) as H2. { rewrite Hb in Hnd. by apply NoDup_cons in Hnd as [? _]. }
  rewrite (ring_hd _ _ l b l0 Hb). rewrite He, <- app_assoc. cbn [app]. rewrite links_split. cbn [links].
  rewrite !fn_lookup_insert. split; [|done]. apply links_next_frame; [done|]. rewrite <- He, Hb.
  apply links_prev_frame; [done|]. by rewrite <- Hb.
Qed.

(** Putting a node before the first one. *)
Lemma ring_link nx pv n l b e l0 l1 :
  NoDup (n :: l) -> l = b :: l0 -> l = l1 ++ [e] -> links nx pv l ->
  ring (<[e := n]> (<[n := b]> nx)) (<[b := n]> (<[n := e]> pv)) (n :: l).
Proof.
  intros [Hn Hnd]%NoDup_cons Hb He HL. apply (ring_cons _ _ _ _ _ _ _ _ Hb He).
  assert (e ∉ l1) as H1. { rewrite He in Hnd. apply NoDup_app in Hnd as (_ & Hd & _). intros Hin. by apply (Hd e Hin), list_elem_of_singleton. }
  assert (b ∉ l0) as H2. { rewrite Hb in Hnd. by apply NoDup_cons in Hnd as [? _]. }
  assert (n ≠ e) by (intros ->; apply Hn; rewrite He; set_solver).
  assert (n ≠ b) by (intros ->; apply Hn; rewrite Hb; set_solver).
  rewrite (fn_lookup_insert_ne _ e n), (fn_lookup_insert_ne _ b n), !fn_lookup_insert by done. split_and!; try done.
  rewrite Hb. apply links_prev_frame; [done|]. apply links_prev_frame; [by rewrite Hb in Hn; set_solver|].
  rewrite <- Hb, He. apply links_next_frame; [done|]. apply links_next_frame; [by rewrite He in Hn; set_solver|]. by rewrite <- He.
Qed.

(** ** The cache as a list *)

Section spec.
Context {K V : Type} `{Countable K}.
Notation entries := (list (K * V)).

Fixpoint assoc (k : K) (l : entries) : option V :=
  match l with [] => None | (k', v) :: l => if decide (k = k') then Some v else assoc k l end.
Definition remove (k : K) (l : entries) : entries := filter (fun kv => kv.1 ≠ k) l.

Inductive op :=
  | OLen
  | OIter
  | OContains (k : K)
  | OGet (k : K)
  | OGetitem (k : K)
  | OSet (k : K) (v : V)
  | ODel (k : K)
  | OClear.

Inductive out :=
  | OutLen (n : Z)
  | OutKeys (ks : list (option K))
  | OutBool (b : bool)
  | OutValue (v : option V)
  | OutNone
  | OutErr (e : pyerr).

Definition answer (r : res (option V)) : out := match r with Ok v => OutValue v | Err e => OutErr e end.
Definition done_ {A} (r : res A) : out := match r with Ok _ => OutNone | Err e => OutErr e end.

Definition do_op (c : lru K V) (p : op) : lru K V * out :=
  match p with
  | OLen => (c, OutLen (len c))
  | OIter => (c, OutKeys (iter c))
  | OContains k => (c, OutBool (contains c k))
  | OGet k => (c, OutValue (get c k))
  | OGetitem k => let r := getitem c k in (r.1, answer r.2)
  | OSet k v => (setitem c k v, OutNone)
  | ODel k => let r := delitem c k in (r.1, done_ r.2)
  | OClear => match clear c with Ok c => (c, OutNone) | Err e => (c, OutErr e) end
  end.

(** The entries, newest first; at most [cap] of them (and at least one). *)
Definition spec_op (cap : Z) (l : entries) (p : op) : entries * out :=
  match p with
  | OLen => (l, OutLen (zlen l))
  | OIter => (l, OutKeys (map (fun kv => Some kv.1) l))
  | OContains k => (l, OutBool (bool_decide (is_Some (assoc k l))))
  | OGet k => (l, OutValue (assoc k l))
  | OGetitem k =>
      match assoc k l with
      | Some v => ((k, v) :: remove k l, OutValue (Some v))
      | None => (l, OutErr KeyError)
      end
  | OSet k v => (take (Z.to_nat (Z.max 1 cap)) ((k, v) :: remove k l), OutNone)
  | ODel k => if decide (is_Some (assoc k l)) then (remove k l, OutNone) else (l, OutErr KeyError)
  | OClear => ([], OutNone)
  end.

Fixpoint run {S} (f : S -> op -> S * out) (s : S) (ops : list op) : list out :=
  match ops with [] => [] | p :: ops => let r := f s p in r.2 :: run f r.1 ops end.

(** A node holds an entry. *)
Definition holds (key : nat -> option K) (value : nat -> option V) (n : nat) (kv : K * V) : Prop :=
  key n = Some kv.1 /\ value n = Some kv.2.

Lemma holds_ext key value key' value' ns l :
  (forall n, n ∈ ns -> key' n = key n /\ value' n = value n) ->
  Forall2 (holds key value) ns l -> Forall2 (holds key' value') ns l.
Proof.
  intros Hext HF. induction HF as [|n kv ns l Hn HF IH]; [constructor|]. constructor; [|apply IH; set_solver].
  unfold holds. destruct (Hext n) as [-> ->]; [left|done].
Qed.

(** The ring is the nodes in use followed by the empty ones; the dictionary
    leads to the nodes in use. *)
Record inv (c : lru K V) (l : entries) (ns1 ns2 : list nat) : Prop := {
  inv_nodup : NoDup (ns1 ++ ns2);
  inv_ring : ring (l_next c) (l_prev c) (ns1 ++ ns2);
  inv_head : head (ns1 ++ ns2) = Some (l_head c);
  inv_fresh : Forall (fun n => (n < l_fresh c)%nat) (ns1 ++ ns2);
  inv_size : l_size c = zlen (ns1 ++ ns2);
  inv_cap : l_size c <= Z.max 1 (l_capacity c);
  inv_used : Forall2 (holds (l_key c) (l_value c)) ns1 l;
  inv_empty : Forall (fun n => l_key c n = None) ns2;
  inv_keys : NoDup l.*1;
  inv_cache : forall k n, l_cache c !! k = Some n <-> n ∈ ns1 /\ l_key c n = Some k
}.

Lemma inv_new cap : inv (init cap) [] [] [0%nat].
Proof.
  split; cbn; try done.
  - apply NoDup_singleton.
  - repeat constructor.
  - lia.
  - by constructor.
  - constructor.
  - intros k n. rewrite lookup_empty. split; [done|]. intros [Hn _]. by apply not_elem_of_nil in Hn.
Qed.

(** *** Association lists *)

Lemma assoc_app k l1 l2 v : k ∉ l1.*1 -> assoc k (l1 ++ (k, v) :: l2) = Some v.
Proof.
  induction l1 as [|[k' v'] l1 IH]; intros Hk; cbn; [by rewrite decide_True|]. cbn in Hk.
  rewrite decide_False by set_solver. apply IH. set_solver.
Qed.

Lemma assoc_None k l : assoc k l = None <-> k ∉ l.*1.
Proof.
  induction l as [|[k' v'] l IH]; cbn; [split; [intros _; apply not_elem_of_nil|done]|]. case_decide as E.
  - split; [done|]. intros Hn. exfalso. apply Hn. set_solver.
  - rewrite IH. set_solver.
Qed.

Lemma remove_notin k l : k ∉ l.*1 -> remove k l = l.
Proof.
  induction l as [|[k' v'] l IH]; intros Hk; [done|]. unfold remove in *. cbn in Hk. rewrite filter_cons_True by (cbn; set_solver).
  rewrite IH; set_solver.
Qed.

Lemma remove_app k l1 l2 v : k ∉ l1.*1 -> k ∉ l2.*1 -> remove k (l1 ++ (k, v) :: l2) = l1 ++ l2.
Proof.
  intros H1 H2. unfold remove. rewrite filter_app, filter_cons_False by (cbn; tauto). fold (remove k l1) (remove k l2).
  by rewrite !remove_notin.
Qed.

(** *** Looking up *)

Lemma inv_miss c l ns1 ns2 k : inv c l ns1 ns2 -> l_cache c !! k = None -> k ∉ l.*1.
Proof.
  intros I Hk [[k' v] [-> Hin]]%list_elem_of_fmap. cbn in *. apply list_elem_of_lookup in Hin as [i Hi].
  destruct (Forall2_lookup_r _ _ _ _ _ (inv_used _ _ _ _ I) Hi) as (n & Hn & Hkey & _). cbn in Hkey.
  assert (l_cache c !! k' = Some n) as E by (apply (inv_cache _ _ _ _ I); split; [by eapply list_elem_of_lookup_2|done]).
  by rewrite Hk in E.
Qed.

Lemma entry_hit c l ns1 ns2 k n :
  inv c l ns1 ns2 -> l_cache c !! k = Some n ->
  exists na nb la lb v, ns1 = na ++ n :: nb /\ l = la ++ (k, v) :: lb /\ k ∉ la.*1 /\ k ∉ lb.*1 /\
    l_value c n = Some v /\ assoc k l = Some v /\ remove k l = la ++ lb /\
    Forall2 (holds (l_key c) (l_value c)) na la /\ Forall2 (holds (l_key c) (l_value c)) nb lb.
Proof.
  intros I Hk. apply (inv_cache _ _ _ _ I) in Hk as [Hin Hkey]. apply list_elem_of_split in Hin as (na & nb & ->).
  destruct (proj1 (Forall2_app_inv_l _ _ _ _) (inv_used _ _ _ _ I)) as (la & l' & Ha & Hb & ->).
  inversion Hb as [|? [k' v] ? lb [Hk' Hv] Hb']; subst. cbn in *. rewrite Hkey in Hk'. injection Hk' as <-.
  pose proof (inv_keys _ _ _ _ I) as Hnd. rewrite fmap_app in Hnd. cbn in Hnd.
  apply NoDup_app in Hnd as (_ & Hd & Hnd). apply NoDup_cons in Hnd as [H2 _].
  assert (k ∉ la.*1) as H1 by (intros Hin; apply (Hd k Hin); left).
  exists na, nb, la, lb, v. split_and!; try done; [by apply assoc_app|by apply remove_app].
Qed.

(** *** Moving a node *)

Lemma movetohead_ring (c : lru K V) A n B :
  NoDup (A ++ n :: B) -> ring (l_next c) (l_prev c) (A ++ n :: B) -> head (A ++ n :: B) = Some (l_head c) ->
  ring (l_next (movetohead n c)) (l_prev (movetohead n c)) (n :: A ++ B).
Proof.
  intros Hnd Hr Hh. set (nx := l_next c) in *. set (pv := l_prev c) in *. set (h := l_head c) in *.
  assert (n ∉ A ++ B /\ NoDup (A ++ B)) as [Hn Hnd'].
  { rewrite <- Permutation_middle in Hnd. by apply NoDup_cons in Hnd. }
  destruct (decide (A ++ B = [])) as [[-> ->]%app_eq_nil|Hne].
  { cbn in Hh. injection Hh as Eh. cbn [app ring links] in *. destruct Hr as (E1 & E2 & _).
    cbn. fold nx pv h. rewrite <- Eh, E1, E2. rewrite !fn_lookup_insert. done. }
  set (nx1 := <[pv n := nx n]> nx). set (pv1 := <[nx n := pv n]> pv).
  assert (ring nx1 pv1 (A ++ B)) as Hr1.
  { apply ring_rot. apply (ring_unlink nx pv n (B ++ A)).
    - apply NoDup_cons. rewrite (comm (++) B A). done.
    - intros [-> ->]%app_eq_nil. done.
    - change (n :: B ++ A) with ((n :: B) ++ A). by apply ring_rot. }
  destruct (two_ends (B ++ A)) as (x & l0 & y & l1 & Hx & Hy); [by intros [-> ->]%app_eq_nil|].
  assert (ring nx pv (n :: B ++ A)) as Hr0 by (change (n :: B ++ A) with ((n :: B) ++ A); by apply ring_rot).
  destruct (proj1 (ring_cons _ _ _ _ _ _ _ _ Hx Hy) Hr0) as (Enx & _ & _ & _ & Epv).
  assert (n ≠ x /\ n ≠ y) as [Hnx Hny].
  { rewrite (comm (++) A B) in Hn. split; intros ->; apply Hn; [rewrite Hx|rewrite Hy]; set_solver. }
  assert (nx1 n = x) as E1 by (unfold nx1; rewrite fn_lookup_insert_ne by congruence; done).
  destruct (two_ends (A ++ B) Hne) as (b & m0 & e & m1 & Hb & He).
  assert (n ≠ b /\ n ≠ e) as [Hnb Hne'].
  { split; intros ->; apply Hn; [rewrite Hb|rewrite He]; set_solver. }
  assert (links nx1 pv1 (A ++ B) /\ nx1 e = b /\ pv1 b = e) as (HL & E2 & E3).
  { rewrite (ring_hd _ _ _ _ _ Hb), He, <- app_assoc in Hr1. cbn [app] in Hr1. rewrite links_split in Hr1. cbn [links] in Hr1.
    rewrite <- He in Hr1. tauto. }
  assert (pv1 h = e) as E4.
  { destruct A as [|a A]; cbn in Hh; injection Hh as <-.
    - unfold pv1. rewrite fn_lookup_insert_ne by congruence. rewrite app_nil_r in Hy. cbn in He. rewrite Hy in He.
      apply app_inj_tail in He as [_ ->]. done.
    - cbn in Hb. injection Hb as -> _. done. }
  pose proof (ring_link nx1 pv1 n (A ++ B) b e m0 m1 ltac:(by apply NoDup_cons) Hb He HL) as Hfin.
  unfold movetohead, move_links. cbn [l_next l_prev fst snd]. fold nx pv h.
  unfold nx1, pv1 in *. rewrite Enx in *. rewrite E1, E4.
  assert ((<[n := e]> (<[x := pv n]> pv)) h = e) as ->.
  { destruct (decide (h = n)) as [->|Hd]; [apply fn_lookup_insert|by rewrite fn_lookup_insert_ne]. }
  rewrite E2, !fn_lookup_insert. rewrite (fn_lookup_insert_ne _ b n) by done. rewrite fn_lookup_insert. exact Hfin.
Qed.

Lemma movetohead_fields (c : lru K V) n :
  l_key (movetohead n c) = l_key c /\ l_value (movetohead n c) = l_value c /\ l_fresh (movetohead n c) = l_fresh c /\
  l_cache (movetohead n c) = l_cache c /\ l_head (movetohead n c) = n /\ l_size (movetohead n c) = l_size c /\
  l_capacity (movetohead n c) = l_capacity c.
Proof. done. Qed.

Lemma inv_movetohead c la lb na nb ns2 k v n :
  inv c (la ++ (k, v) :: lb) (na ++ n :: nb) ns2 -> length na = length la ->
  inv (movetohead n c) ((k, v) :: la ++ lb) (n :: na ++ nb) ns2.
Proof.
  intros I Hlen.
  assert (n :: na ++ nb ≡ₚ na ++ n :: nb) as HP by apply Permutation_middle.
  assert ((n :: na ++ nb) ++ ns2 ≡ₚ (na ++ n :: nb) ++ ns2) as HP' by (by rewrite HP).
  destruct (movetohead_fields c n) as (Ek & Ev & Ef & Ec & Eh & Es & Em).
  split; rewrite ?Ek, ?Ev, ?Ef, ?Ec, ?Eh, ?Es, ?Em.
  - rewrite HP'. apply I.
  - cbn [app]. rewrite <- app_assoc. apply movetohead_ring.
    + replace (na ++ n :: nb ++ ns2) with ((na ++ n :: nb) ++ ns2) by (by rewrite <- app_assoc). apply I.
    + replace (na ++ n :: nb ++ ns2) with ((na ++ n :: nb) ++ ns2) by (by rewrite <- app_assoc). apply I.
    + replace (na ++ n :: nb ++ ns2) with ((na ++ n :: nb) ++ ns2) by (by rewrite <- app_assoc). apply I.
  - done.
  - rewrite HP'. apply I.
  - unfold zlen. rewrite HP'. apply I.
  - apply I.
  - destruct (Forall2_app_inv _ _ _ _ _ Hlen (inv_used _ _ _ _ I)) as [Ha Hb]. inversion Hb; subst. constructor; [done|by apply Forall2_app].
  - apply I.
  - cbn. pose proof (inv_keys _ _ _ _ I) as Hk. rewrite fmap_app in Hk |- *. cbn in Hk. by rewrite Permutation_middle.
  - intros k' n'. rewrite (inv_cache _ _ _ _ I). by rewrite HP.
Qed.

(** *** Setting *)

Lemma inv_set_value c la lb na nb ns2 k v0 v n :
  inv c (la ++ (k, v0) :: lb) (na ++ n :: nb) ns2 -> length na = length la ->
  inv (set_value n v c) (la ++ (k, v) :: lb) (na ++ n :: nb) ns2.
Proof.
  intros I Hlen. assert (n ∉ na /\ n ∉ nb) as [Hna Hnb].
  { pose proof (inv_nodup _ _ _ _ I) as Hnd. apply NoDup_app in Hnd as (Hnd & _ & _).
    rewrite <- Permutation_middle in Hnd. apply NoDup_cons in Hnd as [Hn _]. set_solver. }
  destruct (Forall2_app_inv _ _ _ _ _ Hlen (inv_used _ _ _ _ I)) as [Ha Hb]. inversion Hb as [|? ? ? ? [Hk Hv] Hb']; subst.
  destruct I. split; try done.
  - apply Forall2_app; [|constructor].
    + eapply holds_ext; [|exact Ha]. intros m Hm. cbn. by rewrite fn_lookup_insert_ne by set_solver.
    + cbn. split; cbn; [done|]. by rewrite fn_lookup_insert.
    + eapply holds_ext; [|exact Hb']. intros m Hm. cbn. by rewrite fn_lookup_insert_ne by set_solver.
  - rewrite fmap_app in inv_keys0 |- *. done.
Qed.

(** The end of [__setitem__]: the node becomes the newest entry. *)
Definition fill (c : lru K V) (node : nat) (k : K) (v : V) : lru K V :=
  let c := match l_key c node with Some old => set_cache (delete old (l_cache c)) c | None => c end in
  let c := set_key node (Some k) c in
  let c := set_value node v c in
  let c := set_cache (<[k := node]> (l_cache c)) c in
  set_head node c.

Lemma fill_fields c node k v :
  let cache := match l_key c node with Some old => delete old (l_cache c) | None => l_cache c end in
  fill c node k v =
  Lru (l_next c) (l_prev c) (<[node := Some k]> (l_key c)) (<[node := Some v]> (l_value c)) (l_fresh c)
    (<[k := node]> cache) node (l_size c) (l_capacity c).
Proof. unfold fill. by destruct (l_key c node). Qed.

Lemma inv_fill c l ns1 ns2 node k v :
  NoDup (node :: ns1 ++ ns2) -> ring (l_next c) (l_prev c) (node :: ns1 ++ ns2) ->
  Forall (fun n => (n < l_fresh c)%nat) (node :: ns1 ++ ns2) -> l_size c = zlen (node :: ns1 ++ ns2) ->
  l_size c <= Z.max 1 (l_capacity c) -> Forall2 (holds (l_key c) (l_value c)) ns1 l ->
  Forall (fun n => l_key c n = None) ns2 -> NoDup l.*1 -> k ∉ l.*1 ->
  (forall k' n, (match l_key c node with Some old => delete old (l_cache c) | None => l_cache c end) !! k' = Some n <-> n ∈ ns1 /\ l_key c n = Some k') ->
  inv (fill c node k v) ((k, v) :: l) (node :: ns1) ns2.
Proof.
  intros Hnd Hr Hf Hs Hc Hu He Hk Hkl Hcache. rewrite fill_fields. set (cache := match l_key c node with Some _ => _ | None => _ end) in *.
  pose proof Hnd as [Hn Hnd']%NoDup_cons.
  split; cbn [l_next l_prev l_key l_value l_fresh l_cache l_head l_size l_capacity app]; try done.
  - constructor; [split; by rewrite fn_lookup_insert|]. eapply holds_ext; [|exact Hu]. intros n Hin.
    by rewrite !fn_lookup_insert_ne by set_solver.
  - rewrite Forall_forall in He |- *. intros n Hin. rewrite fn_lookup_insert_ne by set_solver. by apply He.
  - cbn. by apply NoDup_cons.
  - intros k' n. destruct (decide (k' = k)) as [->|Hne].
    + rewrite lookup_insert_eq. split.
      * intros [= <-]. rewrite fn_lookup_insert. split; [left|done].
      * intros [[->|Hin]%elem_of_cons Hkey]; [done|]. exfalso. rewrite fn_lookup_insert_ne in Hkey by set_solver.
        apply list_elem_of_lookup in Hin as [i Hi]. destruct (Forall2_lookup_l _ _ _ _ _ Hu Hi) as ([k' v'] & Hi' & Hk' & _).
        rewrite Hkey in Hk'. injection Hk' as ->. apply Hkl. apply list_elem_of_fmap. exists (k', v'). split; [done|]. by eapply list_elem_of_lookup_2.
    + rewrite lookup_insert_ne by done. rewrite Hcache, elem_of_cons. split.
      * intros [Hin Hkey]. split; [by right|]. rewrite fn_lookup_insert_ne by set_solver. done.
      * intros [[->|Hin] Hkey]; [rewrite fn_lookup_insert in Hkey; congruence|].
        rewrite fn_lookup_insert_ne in Hkey by set_solver. done.
Qed.

Lemma ring_ext nx nx' pv pv' ns :
  (forall n, nx n = nx' n) -> (forall n, pv n = pv' n) -> ring nx pv ns -> ring nx' pv' ns.
Proof.
  intros En Ep. destruct ns as [|a ns]; [done|]. unfold ring. generalize ((a :: ns) ++ [a]) as l.
  induction l as [|x [|y l] IH]; [done|done|]. cbn [links]. rewrite En, Ep. intros (? & ? & ?). split_and!; try done. by apply IH.
Qed.

(** The last node of the ring is before the head. *)
Lemma ring_prev nx pv ns h e l1 : ring nx pv ns -> head ns = Some h -> ns = l1 ++ [e] -> pv h = e.
Proof.
  intros Hr Hh He. destruct ns as [|a ns]; [done|]. cbn in Hh. injection Hh as ->.
  rewrite (ring_hd _ _ _ h ns eq_refl), He, <- app_assoc in Hr. cbn [app] in Hr. rewrite links_split in Hr. cbn [links] in Hr. tauto.
Qed.

Lemma inv_ne c l ns1 ns2 : inv c l ns1 ns2 -> ns1 ++ ns2 ≠ [].
Proof. intros I. pose proof (inv_head _ _ _ _ I). by destruct (ns1 ++ ns2). Qed.

Lemma addcapacity_ring (c : lru K V) ns node :
  NoDup (node :: ns) -> ring (l_next c) (l_prev c) ns -> head ns = Some (l_head c) ->
  let links := add_links (l_head c) node (l_next c) (l_prev c) in ring links.1 links.2 (node :: ns).
Proof.
  intros Hnd Hr Hh. assert (ns ≠ []) as Hne by (by destruct ns). destruct (two_ends ns Hne) as (b & l0 & e & l1 & Hb & He).
  assert (l_head c = b) as Eb by (rewrite Hb in Hh; cbn in Hh; congruence).
  pose proof (ring_prev _ _ _ _ _ _ Hr Hh He) as Ep. rewrite Eb in *.
  assert (links (l_next c) (l_prev c) ns) as HL.
  { rewrite (ring_hd _ _ _ _ _ Hb), He, <- app_assoc in Hr. cbn [app] in Hr. rewrite links_split, <- He in Hr. tauto. }
  pose proof (ring_link _ _ node ns b e l0 l1 Hnd Hb He HL) as Hl.
  assert (node ≠ e) by (intros ->; apply NoDup_cons in Hnd as [Hn _]; apply Hn; rewrite He; set_solver).
  unfold add_links. cbn [fst snd]. rewrite Ep. eapply ring_ext; [|done|exact Hl].
  intros n. destruct (decide (n = e)) as [->|]; [|destruct (decide (n = node)) as [->|]]; by rewrite ?fn_lookup_insert, ?fn_lookup_insert_ne, ?fn_lookup_insert by done.
Qed.

Lemma inv_length c l ns1 ns2 : inv c l ns1 ns2 -> length ns1 = length l.
Proof. intros I. apply (Forall2_length _ _ _ (inv_used _ _ _ _ I)). Qed.

Definition repr (c : lru K V) (l : list (K * V)) : Prop := exists ns1 ns2, inv c l ns1 ns2.

(** A new key on a new node. *)
Lemma fill_grown c l ns1 ns2 k v :
  inv c l ns1 ns2 -> k ∉ l.*1 -> l_size c < l_capacity c ->
  inv (fill (addcapacity c).1 (addcapacity c).2 k v) ((k, v) :: l) (l_fresh c :: ns1) ns2.
Proof.
  intros I Hkl Hcap. pose proof (inv_size _ _ _ _ I) as Hs.
  assert (forall n, n ∈ ns1 ++ ns2 -> l_fresh c ≠ n) as Hfr.
  { intros n Hn. pose proof (inv_fresh _ _ _ _ I) as HF. rewrite Forall_forall in HF. specialize (HF n Hn). lia. }
  assert (NoDup (l_fresh c :: ns1 ++ ns2)) as Hnd by (apply NoDup_cons; split; [intros Hin; by apply (Hfr _ Hin)|apply I]).
  apply inv_fill; cbn [addcapacity new_node l_next l_prev l_key l_value l_fresh l_cache l_size l_capacity l_head fst snd]; try done.
  - apply (addcapacity_ring c (ns1 ++ ns2) (l_fresh c) Hnd); apply I.
  - constructor; [lia|]. eapply Forall_impl; [apply I|]. cbn. lia.
  - rewrite zlen_cons. lia.
  - lia.
  - eapply holds_ext; [|apply I]. intros n Hn. by rewrite !fn_lookup_insert_ne by (apply Hfr; set_solver).
  - pose proof (inv_empty _ _ _ _ I) as HE. rewrite Forall_forall in HE |- *. intros n Hn.
    rewrite fn_lookup_insert_ne by (apply Hfr; set_solver). by apply HE.
  - apply I.
  - intros k' n. rewrite fn_lookup_insert, (inv_cache _ _ _ _ I). split; intros [Hn Hkey]; split; try done; revert Hkey;
      by rewrite fn_lookup_insert_ne by (apply Hfr; set_solver).
Qed.

(** The last node of the ring, first. *)
Lemma inv_rotated c l ns1 ns2 e l1 :
  inv c l ns1 ns2 -> ns1 ++ ns2 = l1 ++ [e] ->
  l_prev c (l_head c) = e /\ NoDup (e :: l1) /\ ring (l_next c) (l_prev c) (e :: l1) /\
  Forall (fun n => (n < l_fresh c)%nat) (e :: l1) /\ l_size c = zlen (e :: l1).
Proof.
  intros I He. pose proof (inv_nodup _ _ _ _ I) as Hnd. pose proof (inv_ring _ _ _ _ I) as Hr. pose proof (inv_fresh _ _ _ _ I) as Hf.
  pose proof (inv_size _ _ _ _ I) as Hs. split; [apply (ring_prev _ _ _ _ _ _ Hr (inv_head _ _ _ _ I) He)|].
  rewrite He in Hnd, Hr, Hf, Hs. assert (l1 ++ [e] ≡ₚ e :: l1) as HP by (symmetry; apply Permutation_cons_append).
  rewrite HP in Hnd, Hf. unfold zlen in Hs. rewrite HP in Hs. split_and!; try done. by apply (ring_rot _ _ l1 [e]).
Qed.

(** A new key on an empty node. *)
Lemma fill_empty c l ns1 ns2 e k v :
  inv c l ns1 (ns2 ++ [e]) -> k ∉ l.*1 -> inv (fill c (l_prev c (l_head c)) k v) ((k, v) :: l) (e :: ns1) ns2.
Proof.
  intros I Hkl. destruct (inv_rotated c l ns1 (ns2 ++ [e]) e (ns1 ++ ns2) I) as (-> & Hnd & Hr & Hf & Hs); [by rewrite app_assoc|].
  pose proof (inv_empty _ _ _ _ I) as HE. apply Forall_app in HE as [HE [Hkey _]%Forall_cons]. cbn in Hkey.
  apply inv_fill; try done; try apply I. intros k' n. rewrite Hkey. apply I.
Qed.

(** A new key on the oldest node. *)
Lemma fill_evict c l ko vo ns1 e k v :
  inv c (l ++ [(ko, vo)]) (ns1 ++ [e]) [] -> k ∉ l.*1 -> inv (fill c (l_prev c (l_head c)) k v) ((k, v) :: l) (e :: ns1) [].
Proof.
  intros I Hkl. destruct (inv_rotated c _ (ns1 ++ [e]) [] e ns1 I) as (-> & Hnd & Hr & Hf & Hs); [by rewrite app_nil_r|].
  assert (length ns1 = length l) as Hlen by (pose proof (inv_length _ _ _ _ I) as E; rewrite !length_app in E; cbn in E; lia).
  destruct (Forall2_app_inv _ _ _ _ _ Hlen (inv_used _ _ _ _ I)) as [HU [[Hko _] _]%Forall2_cons]. cbn in Hko.
  pose proof (inv_keys _ _ _ _ I) as HK. rewrite fmap_app in HK. cbn in HK. apply NoDup_app in HK as (HK & Hd & _).
  apply inv_fill; rewrite ?app_nil_r; try done; try apply I.
  intros k' n. rewrite Hko. destruct (decide (k' = ko)) as [->|Hne'].
  - rewrite lookup_delete_eq. split; [done|]. intros [Hin Hkey]. exfalso.
    apply list_elem_of_lookup in Hin as [i Hi]. destruct (Forall2_lookup_l _ _ _ _ _ HU Hi) as ([k' v'] & Hi' & Hk' & _).
    rewrite Hkey in Hk'. injection Hk' as ->. apply (Hd k'); [|cbn; left]. apply list_elem_of_fmap. exists (k', v'). split; [done|].
    by eapply list_elem_of_lookup_2.
  - rewrite lookup_delete_ne by done. rewrite (inv_cache _ _ _ _ I). split; intros [Hin Hkey]; (split; [|done]).
    + apply elem_of_app in Hin as [| ->%list_elem_of_singleton]; [done|]. congruence.
    + set_solver.
Qed.

Lemma setitem_new c l ns1 ns2 k v :
  inv c l ns1 ns2 -> l_cache c !! k = None -> repr (setitem c k v) (take (Z.to_nat (Z.max 1 (l_capacity c))) ((k, v) :: l)).
Proof.
  intros I Hk. pose proof (inv_miss _ _ _ _ _ I Hk) as Hkl. pose proof (inv_length _ _ _ _ I) as Hlen. pose proof (inv_ne _ _ _ _ I) as Hne.
  pose proof (inv_size _ _ _ _ I) as Hs. pose proof (inv_cap _ _ _ _ I) as Hc. unfold zlen in Hs. rewrite length_app in Hs.
  assert (setitem c k v = let r := if decide (l_size c < l_capacity c) then addcapacity c else (c, l_prev c (l_head c)) in fill r.1 r.2 k v) as ->.
  { unfold setitem. rewrite Hk. by destruct (decide (l_size c < l_capacity c)). }
  case_decide as Hcap; cbn zeta; cbn [fst snd].
  - eexists _, _. rewrite take_ge by (cbn; lia). by apply fill_grown.
  - destruct (decide (ns2 = [])) as [->|Hn2].
    + rewrite app_nil_r in Hne. destruct (exists_last Hne) as (n1 & e & ->). rewrite length_app in Hlen, Hs. cbn in Hlen, Hs.
      destruct (@exists_last _ l) as (l' & [ko vo] & ->); [intros ->; cbn in Hlen; lia|]. rewrite length_app in Hlen. cbn in Hlen.
      rewrite fmap_app in Hkl. eexists _, _.
      replace (Z.to_nat (Z.max 1 (l_capacity c))) with (S (length l')) by lia. cbn [take]. rewrite take_app_length.
      eapply fill_evict; [exact I|set_solver].
    + destruct (exists_last Hn2) as (n2 & e & ->). rewrite length_app in Hs. cbn in Hs. eexists _, _.
      rewrite take_ge by (cbn; lia). by apply fill_empty.
Qed.

Lemma setitem_repr c l k v :
  repr c l -> repr (setitem c k v) (take (Z.to_nat (Z.max 1 (l_capacity c))) ((k, v) :: remove k l)).
Proof.
  intros (ns1 & ns2 & I). destruct (l_cache c !! k) as [n|] eqn:Hk.
  - pose proof (inv_length _ _ _ _ I) as Hlen. pose proof (inv_size _ _ _ _ I) as Hs. pose proof (inv_cap _ _ _ _ I) as Hc.
    destruct (entry_hit _ _ _ _ _ _ I Hk) as (na & nb & la & lb & v0 & -> & -> & _ & _ & _ & _ & -> & Ha & _).
    unfold setitem. rewrite Hk. rewrite take_ge.
    + exists (n :: na ++ nb), ns2. apply inv_movetohead; [|by apply Forall2_length in Ha]. eapply inv_set_value; [exact I|by apply Forall2_length in Ha].
    + unfold zlen in Hs. rewrite length_app, Hlen in Hs. rewrite length_app in Hs. cbn [length] in *. rewrite length_app. lia.
  - rewrite (remove_notin k l) by (by eapply inv_miss). by eapply setitem_new.
Qed.

(** *** Deleting *)

Lemma ring_next nx pv n ns h : ring nx pv (n :: ns) -> head (ns ++ [n]) = Some h -> nx n = h.
Proof.
  destruct ns as [|b ns]; cbn [head app].
  - intros (E & _) [= <-]. exact E.
  - intros (E & _) [= <-]. exact E.
Qed.

Lemma delitem_repr c la lb na nb ns2 k v n :
  inv c (la ++ (k, v) :: lb) (na ++ n :: nb) ns2 -> length na = length la ->
  let c' := movetohead n (markempty n (set_cache (delete k (l_cache c)) c)) in
  inv (set_head (l_next c' n) c') (la ++ lb) (na ++ nb) (ns2 ++ [n]).
Proof.
  intros I Hlen c'.
  assert ((na ++ n :: nb) ++ ns2 = na ++ n :: (nb ++ ns2)) as Ea by (by rewrite <- app_assoc).
  pose proof (inv_nodup _ _ _ _ I) as Hnd. pose proof (inv_ring _ _ _ _ I) as Hr. pose proof (inv_head _ _ _ _ I) as Hh. rewrite Ea in Hnd, Hr, Hh.
  pose proof (movetohead_ring (markempty n (set_cache (delete k (l_cache c)) c)) na n (nb ++ ns2) Hnd Hr Hh) as Hr'. fold c' in Hr'.
  rewrite app_assoc in Hr'. assert ((na ++ nb) ++ ns2 ++ [n] ≡ₚ (na ++ n :: nb) ++ ns2) as HP.
  { rewrite <- (Permutation_middle na nb n), app_assoc. symmetry. apply Permutation_cons_append. }
  assert (n ∉ na ++ nb /\ n ∉ ns2) as [Hn Hn2].
  { rewrite <- Permutation_middle in Hnd. apply NoDup_cons in Hnd as [Hn _]. set_solver. }
  destruct (Forall2_app_inv _ _ _ _ _ Hlen (inv_used _ _ _ _ I)) as [Ha [[Hkey Hv] Hb]%Forall2_cons]. cbn in Hkey, Hv.
  assert (exists h, head (((na ++ nb) ++ ns2) ++ [n]) = Some h) as [h Eh] by (destruct ((na ++ nb) ++ ns2); by eexists).
  rewrite (ring_next _ _ _ _ h Hr' Eh).
  pose proof (inv_keys _ _ _ _ I) as HK. rewrite fmap_app in HK. cbn in HK. rewrite <- Permutation_middle in HK. apply NoDup_cons in HK as [HKk HK].
  split; cbn [set_head l_head l_next l_prev l_key l_value l_fresh l_cache l_size l_capacity].
  - rewrite HP. apply I.
  - rewrite app_assoc. apply (ring_rot _ _ [n]). exact Hr'.
  - by rewrite app_assoc.
  - rewrite HP. apply I.
  - unfold zlen. rewrite HP. apply I.
  - apply I.
  - eapply holds_ext; [|by apply Forall2_app]. intros m Hm. cbn. by rewrite fn_lookup_insert_ne by set_solver.
  - apply Forall_app. split.
    + pose proof (inv_empty _ _ _ _ I) as HE. rewrite Forall_forall in HE |- *. intros m Hm. cbn. rewrite fn_lookup_insert_ne by set_solver. by apply HE.
    + constructor; [|constructor]. cbn. by rewrite fn_lookup_insert.
  - by rewrite fmap_app.
  - intros k' m. cbn. destruct (decide (m = n)) as [->|Hm].
    + rewrite fn_lookup_insert. split; [|by intros [? ?]]. intros [Hne Hc]%lookup_delete_Some. apply (inv_cache _ _ _ _ I) in Hc as [_ Hc].
      rewrite Hkey in Hc. by injection Hc.
    + rewrite fn_lookup_insert_ne by done. rewrite lookup_delete_Some, (inv_cache _ _ _ _ I). split.
      * intros (_ & Hin & Hk). split; [set_solver|done].
      * intros [Hin Hk]. split_and!; [|set_solver|done]. intros <-.
        assert (Forall2 (holds (l_key c) (l_value c)) (na ++ nb) (la ++ lb)) as HF by (by apply Forall2_app).
        apply list_elem_of_lookup in Hin as [i Hi]. destruct (Forall2_lookup_l _ _ _ _ _ HF Hi) as ([k' v'] & Hi' & Hk' & _).
        rewrite Hk in Hk'. injection Hk' as <-. apply HKk. rewrite <- fmap_app. apply list_elem_of_fmap. exists (k, v'). split; [done|].
        by eapply list_elem_of_lookup_2.
Qed.

(** *** Clearing *)

Definition empty_all (ns : list nat) (c : lru K V) : lru K V := foldl (fun c n => markempty n c) c ns.

Lemma empty_all_fields ns c :
  l_next (empty_all ns c) = l_next c /\ l_prev (empty_all ns c) = l_prev c /\ l_value (empty_all ns c) = l_value c /\
  l_fresh (empty_all ns c) = l_fresh c /\ l_head (empty_all ns c) = l_head c /\ l_size (empty_all ns c) = l_size c /\
  l_capacity (empty_all ns c) = l_capacity c /\
  (forall n, l_key (empty_all ns c) n = if decide (n ∈ ns) then None else l_key c n).
Proof.
  revert c. induction ns as [|m ns IH]; intros c; [by split_and!|]. cbn [empty_all foldl]. fold (empty_all ns (markempty m c)).
  destruct (IH (markempty m c)) as (-> & -> & -> & -> & -> & -> & -> & Hk). split_and!; try done. intros n. rewrite Hk. cbn.
  destruct (decide (n ∈ ns)); [by rewrite decide_True by by right|]. destruct (decide (n = m)) as [->|Hm].
  - by rewrite fn_lookup_insert, decide_True by left.
  - rewrite fn_lookup_insert_ne by done. by rewrite decide_False by set_solver.
Qed.

Lemma clear_loop_ok (ns : list nat) z c fuel h :
  links (l_next c) (l_prev c) (ns ++ [z]) -> head (ns ++ [z]) = Some h -> NoDup ns -> Forall (fun n => l_key c n ≠ None) ns ->
  l_key (empty_all ns c) z = None -> (length ns < fuel)%nat ->
  clear_loop fuel h c = Ok (empty_all ns c).
Proof.
  revert c fuel h. induction ns as [|n ns IH]; intros c [|fuel] h HL Hh Hnd HK Hz Hf; try (cbn in Hf; lia); cbn in Hh; injection Hh as <-.
  { cbn in Hz |- *. by rewrite Hz. }
  apply NoDup_cons in Hnd as [Hn Hnd]. apply Forall_cons in HK as [Hk HK]. cbn [clear_loop]. destruct (l_key c n) eqn:E; [|done].
  cbn [empty_all foldl]. fold (empty_all ns (markempty n c)).
  assert (exists h', head (ns ++ [z]) = Some h') as [h' Eh] by (destruct ns; by eexists).
  assert (l_next c n = h' /\ links (l_next c) (l_prev c) (ns ++ [z])) as [En HL'].
  { cbn [app] in HL. destruct (ns ++ [z]) as [|y t] eqn:E'; [done|]. cbn in Eh. injection Eh as <-. cbn [links] in HL. tauto. }
  apply IH; cbn [markempty set_key l_next l_prev]; try done.
  - by rewrite En.
  - rewrite Forall_forall in HK |- *. intros m Hm. cbn. rewrite fn_lookup_insert_ne by set_solver. by apply HK.
  - cbn in Hf. lia.
Qed.

Lemma clear_repr c l : repr c l -> exists c', clear c = Ok c' /\ repr c' [] /\ l_capacity c' = l_capacity c.
Proof.
  intros (ns1 & ns2 & I). unfold clear. pose proof (inv_head _ _ _ _ I) as Hh. pose proof (inv_ring _ _ _ _ I) as Hr.
  pose proof (inv_size _ _ _ _ I) as Hs. pose proof (inv_nodup _ _ _ _ I) as Hnd. pose proof Hnd as (Hnd1 & Hd & _)%NoDup_app.
  destruct (empty_all_fields ns1 c) as (E1 & E2 & E3 & E4 & E5 & E6 & E7 & E8).
  (* the node after those in use is empty, or it is the head again *)
  assert (exists z, links (l_next c) (l_prev c) (ns1 ++ [z]) /\ head (ns1 ++ [z]) = Some (l_head c) /\ l_key (empty_all ns1 c) z = None) as (z & HL & Hz & Hk).
  { destruct ns2 as [|z ns2].
    - rewrite app_nil_r in *. exists (l_head c). destruct ns1 as [|a ns1]; [done|]. cbn in Hh. injection Hh as Ea.
      rewrite (ring_hd _ _ _ a ns1 eq_refl) in Hr. rewrite <- Ea. split_and!; [exact Hr|done|]. rewrite E8, decide_True; [done|left].
    - exists z. split_and!.
      + unfold ring in Hr. destruct (ns1 ++ z :: ns2) as [|a t] eqn:E; [done|]. rewrite <- E, <- app_assoc in Hr. cbn [app] in Hr.
        rewrite links_split in Hr. tauto.
      + rewrite <- Hh. by destruct ns1.
      + rewrite E8, decide_False by (intros Hz; apply (Hd z Hz); left). pose proof (inv_empty _ _ _ _ I) as HE. by apply Forall_cons in HE as [? _]. }
  rewrite (clear_loop_ok ns1 z c _ (l_head c) HL Hz Hnd1); [|
    rewrite Forall_forall; intros n Hn; apply list_elem_of_lookup in Hn as [i Hi];
    destruct (Forall2_lookup_l _ _ _ _ _ (inv_used _ _ _ _ I) Hi) as (kv & _ & Ek & _); by rewrite Ek
    |done|unfold zlen in Hs; rewrite length_app in Hs; lia].
  cbn [rbind]. eexists. split; [done|]. split; [|exact E7]. exists [], (ns1 ++ ns2).
  split; cbn [set_cache l_next l_prev l_key l_value l_fresh l_cache l_head l_size l_capacity app];
    rewrite ?E1, ?E2, ?E4, ?E5, ?E6, ?E7; try apply I; try (by constructor).
  - apply Forall_app. split; rewrite Forall_forall; intros n Hn; rewrite E8; [by rewrite decide_True|]. case_decide; [done|].
    pose proof (inv_empty _ _ _ _ I) as HE. rewrite Forall_forall in HE. by apply HE.
  - intros k n. rewrite lookup_empty. split; [done|]. intros [Hn _]. by apply not_elem_of_nil in Hn.
Qed.

(** *** Observing *)

Lemma inv_cache_size c l ns1 ns2 : inv c l ns1 ns2 -> size (l_cache c) = length l.
Proof.
  intros I. pose proof (inv_length _ _ _ _ I) as Hlen.
  assert (forall k n, (k, n) ∈ zip l.*1 ns1 <-> n ∈ ns1 /\ l_key c n = Some k) as Hz.
  { intros k n. rewrite list_elem_of_lookup. split.
    - intros [i (k' & n' & [= <- <-] & Hk & Hn)%lookup_zip_with_Some]. split; [by eapply list_elem_of_lookup_2|].
      rewrite list_lookup_fmap in Hk. destruct (Forall2_lookup_l _ _ _ _ _ (inv_used _ _ _ _ I) Hn) as (kv & Hkv & -> & _). by rewrite Hkv in Hk.
    - intros [[i Hi]%list_elem_of_lookup Hk]. exists i. apply lookup_zip_with_Some. exists k, n. split_and!; [done| |done].
      rewrite list_lookup_fmap. destruct (Forall2_lookup_l _ _ _ _ _ (inv_used _ _ _ _ I) Hi) as (kv & -> & Hk' & _). cbn. congruence. }
  assert ((zip l.*1 ns1).*1 = l.*1) as Ef by (rewrite fst_zip; [done|rewrite length_fmap; lia]).
  assert (l_cache c = list_to_map (zip l.*1 ns1)) as ->.
  { apply map_eq. intros k. apply option_eq. intros n. rewrite (inv_cache _ _ _ _ I), <- Hz. apply elem_of_list_to_map. rewrite Ef. apply I. }
  rewrite map_size_list_to_map by (rewrite Ef; apply I). rewrite length_zip_with, length_fmap. lia.
Qed.

Lemma iter_from_links c ns l t h :
  links (l_next c) (l_prev c) (ns ++ t) -> head (ns ++ t) = Some h -> t ≠ [] -> Forall2 (holds (l_key c) (l_value c)) ns l ->
  iter_from c h (length l) = map (fun kv => Some kv.1) l.
Proof.
  intros HL Hh Ht HF. revert h HL Hh. induction HF as [|n kv ns l [Hk _] HF IH]; intros h HL Hh; [done|]. cbn in Hh. injection Hh as <-.
  cbn [length iter_from map]. rewrite Hk. f_equal. cbn [app] in HL. destruct (ns ++ t) as [|y r] eqn:E.
  { by apply app_eq_nil in E as [_ ->]. }
  cbn [links] in HL. destruct HL as (En & _ & HL). rewrite En. by apply IH.
Qed.

Lemma iter_repr c l : repr c l -> iter c = map (fun kv => Some kv.1) l.
Proof.
  intros (ns1 & ns2 & I). unfold iter. rewrite (inv_cache_size _ _ _ _ I). pose proof (inv_head _ _ _ _ I) as Hh.
  pose proof (inv_ring _ _ _ _ I) as Hr. unfold ring in Hr. destruct (ns1 ++ ns2) as [|a t] eqn:E; [done|]. rewrite <- E, <- app_assoc in Hr.
  eapply iter_from_links; [exact Hr| |by destruct ns2|apply I]. rewrite app_assoc, E. exact Hh.
Qed.

Lemma get_repr c l k : repr c l -> get c k = assoc k l /\ (is_Some (l_cache c !! k) <-> is_Some (assoc k l)).
Proof.
  intros (ns1 & ns2 & I). unfold get. destruct (l_cache c !! k) as [n|] eqn:E.
  - destruct (entry_hit _ _ _ _ _ _ I E) as (? & ? & ? & ? & v & _ & _ & _ & _ & -> & -> & _). by split.
  - assert (assoc k l = None) as -> by (apply assoc_None; by eapply inv_miss). split; [done|]. by split; intros [? ?].
Qed.

Lemma getitem_repr c l k :
  repr c l ->
  match assoc k l with
  | Some v => repr (getitem c k).1 ((k, v) :: remove k l) /\ (getitem c k).2 = Ok (Some v)
  | None => getitem c k = (c, Err KeyError)
  end.
Proof.
  intros Hr. pose proof (get_repr c l k Hr) as [_ Hs]. destruct Hr as (ns1 & ns2 & I). unfold getitem.
  destruct (l_cache c !! k) as [n|] eqn:E.
  - destruct (entry_hit _ _ _ _ _ _ I E) as (na & nb & la & lb & v & -> & -> & _ & _ & Hv & -> & -> & Ha & _). cbn [fst snd]. split.
    + exists (n :: na ++ nb), ns2. apply inv_movetohead; [done|by apply Forall2_length in Ha].
    + f_equal. exact Hv.
  - destruct (assoc k l); [|done]. destruct (proj2 Hs) as [? ?]; done.
Qed.

Lemma delitem_spec c l k :
  repr c l ->
  if decide (is_Some (assoc k l)) then repr (delitem c k).1 (remove k l) /\ (delitem c k).2 = Ok ()
  else delitem c k = (c, Err KeyError).
Proof.
  intros Hr. pose proof (get_repr c l k Hr) as [_ Hs]. destruct Hr as (ns1 & ns2 & I). unfold delitem.
  destruct (l_cache c !! k) as [n|] eqn:E.
  - rewrite decide_True by (by apply Hs). split; [|done].
    destruct (entry_hit _ _ _ _ _ _ I E) as (na & nb & la & lb & v & -> & -> & _ & _ & _ & _ & -> & Ha & _).
    exists (na ++ nb), (ns2 ++ [n]). eapply delitem_repr; [exact I|by apply Forall2_length in Ha].
  - rewrite decide_False; [done|]. intros Hs'. by apply Hs in Hs' as [? ?].
Qed.

Lemma setitem_capacity (c : lru K V) k v : l_capacity (setitem c k v) = l_capacity c.
Proof. unfold setitem. destruct (l_cache c !! k); [done|]. case_decide; cbn; by repeat case_match. Qed.

Lemma do_op_repr c l p :
  repr c l ->
  (do_op c p).2 = (spec_op (l_capacity c) l p).2 /\ repr (do_op c p).1 (spec_op (l_capacity c) l p).1 /\
  l_capacity (do_op c p).1 = l_capacity c.
Proof.
  intros Hr. destruct p as [| |k|k|k|k v|k|]; cbn [do_op spec_op].
  - split_and!; try done. destruct Hr as (ns1 & ns2 & I). cbn. unfold len. by rewrite (inv_cache_size _ _ _ _ I).
  - split_and!; try done. cbn. by rewrite (iter_repr _ _ Hr).
  - split_and!; try done. cbn. f_equal. apply bool_decide_ext. by apply get_repr.
  - split_and!; try done. cbn. f_equal. by apply get_repr.
  - pose proof (getitem_repr c l k Hr) as Hg. destruct (assoc k l).
    + destruct Hg as [Hg E]. cbn [fst snd]. rewrite E. split_and!; [done|done|]. unfold getitem. by destruct (l_cache c !! k).
    + rewrite Hg. by split_and!.
  - cbn [fst snd]. split_and!; [done|by apply setitem_repr|apply setitem_capacity].
  - pose proof (delitem_spec c l k Hr) as Hd. case_decide.
    + destruct Hd as [Hd E]. cbn [fst snd]. rewrite E. split_and!; [done|done|]. unfold delitem. by destruct (l_cache c !! k).
    + rewrite Hd. by split_and!.
  - destruct (clear_repr c l Hr) as (c' & -> & Hc & E). by split_and!.
Qed.

Lemma run_repr c l ops : repr c l -> run do_op c ops = run (spec_op (l_capacity c)) l ops.
Proof.
  revert c l. induction ops as [|p ops IH]; intros c l Hr; [done|]. cbn [run].
  destruct (do_op_repr c l p Hr) as (-> & Hr' & E). f_equal. by rewrite (IH _ _ Hr'), E.
Qed.

(** [C31] The pointer structure implements a least recently used cache: every
    sequence of lookups, accesses, settings, deletions, clearings and iterations
    on a new [lrucachedict] answers as on the list of its entries, newest first,
    in which an access moves an entry to the front and the entries beyond the
    capacity fall off the end. *)
Theorem lrucachedict_refines (max : Z) (ops : list op) : run do_op (init max : lru K V) ops = run (spec_op max) [] ops.
Proof. apply (run_repr (init max) []). exists [], [0%nat]. apply inv_new. Qed.
End spec.

(** [copy] does not skip the empty nodes at the old end of the ring: the copy of
    a cache below its capacity has an entry for the mark of an empty node and
    lacks an entry. *)
Lemma copy_loses_entries :
  let c := setitem (setitem (init 4) 1 10) 2 20 in
  iter c = [Some 2; Some 1] /\ iter (copy c) = [Some (Some 1); Some None] /\ get (copy c) (Some 2) = None.
Proof. vm_compute. done. Qed.
End LruCache.
