(* ===== verification/NodeCache.v ===== *)
(** * Finding a revision by its node ([rev], [nodemap], [_contains] of revlog.py)

    The pure Python index has no node table: [rev] scans the index from the tip
    down, keeps the nodes it passes in [_nodecache] and remembers in [_nodepos]
    where it stopped.  [nodemap] is a property that is computed once and is the
    same dictionary as [_nodecache] until that is replaced. *)

From S2P Require Import Prelude Dag Lines Struct IndexFile.

Module NodeCache.
Import IndexFile.

(** The cached property [nodemap]: not computed, the dictionary [_nodecache], or
    a dictionary that was [_nodecache] before. *)
Inductive nodemap := NotYet | Shared | Old (m : gmap bytes Z).

Record state := St {
  s_index : indexobj; s_nodecache : gmap bytes Z; s_nodepos : option Z; s_nodemap : nodemap
}.

(** Methods change the object and return or raise. *)
Definition M (A : Type) : Type := state -> state * res A.
Definition ret {A} (a : A) : M A := fun s => (s, Ok a).
Definition raise {A} (e : pyerr) : M A := fun s => (s, Err e).
Definition bind {A B} (m : M A) (k : A -> M B) : M B :=
  fun s => let '(s, r) := m s in match r with Ok a => k a s | Err e => (s, Err e) end.
Definition lift {A} (r : res A) : M A := fun s => (s, r).
Notation "x <- m ;; k" := (bind m (fun x => k)) (at level 100, m at next level, right associativity) : hg_scope.

Definition wdirid : bytes := replicate 20 (byte 255).
Definition wdirrev : Z := 2147483647.

(** [__len__] *)
Definition rlen (s : state) : Z := len (s_index s) - 1.

(** [node] *)
Definition node (rev : Z) : M bytes := fun s =>
  (s, match index_getitem (s_index s) rev with
      | Ok e => Ok (e_node e)
      | Err IndexError => if decide (rev = wdirrev) then Err WdirUnsupported else Err IndexError
      | Err err => Err err
      end).

(** [for r in range(p, -1, -1)]: the cache and the revision found. *)
Fixpoint scan (o : indexobj) (revs : list Z) (node : bytes) (n : gmap bytes Z) : gmap bytes Z * res (option Z) :=
  match revs with
  | [] => (n, Ok None)
  | r :: revs =>
      match index_getitem o r with
      | Err err => (n, Err err)
      | Ok e =>
          let n := <[e_node e := r]> n in
          if decide (e_node e = node) then (n, Ok (Some r)) else scan o revs node n
      end
  end.

(** [rev] *)
Definition rev (node : bytes) : M Z := fun s =>
  match s_nodecache s !! node with
  | Some r => (s, Ok r)
  | None =>
      let p := match s_nodepos s with Some p => p | None => len (s_index s) - 2 end in
      match scan (s_index s) (zrange_down p (-1)) node (s_nodecache s) with
      | (n, Ok (Some r)) => (St (s_index s) n (Some (r - 1)) (s_nodemap s), Ok r)
      | (n, Ok None) =>
          (St (s_index s) n (s_nodepos s) (s_nodemap s), Err (if decide (node = wdirid) then WdirUnsupported else LookupError))
      | (n, Err err) => (St (s_index s) n (s_nodepos s) (s_nodemap s), Err err)
      end
  end.

(** [hasnode]: [LookupError] is a [KeyError]. *)
Definition hasnode (node : bytes) : M bool := fun s =>
  match rev node s with
  | (s, Ok _) => (s, Ok true)
  | (s, Err KeyError) | (s, Err LookupError) => (s, Ok false)
  | (s, Err err) => (s, Err err)
  end.

(** Reading the property [nodemap]. *)
Definition get_nodemap : M (gmap bytes Z) := fun s =>
  match s_nodemap s with
  | NotYet =>
      (n <- node 0 ;; _ <- rev n ;;
       (fun s => (St (s_index s) (s_nodecache s) (s_nodepos s) Shared, Ok (s_nodecache s)))) s
  | Shared => (s, Ok (s_nodecache s))
  | Old m => (s, Ok m)
  end.

(** [self.nodemap[node] = curr] *)
Definition set_nodemap (node : bytes) (curr : Z) : M unit :=
  _ <- get_nodemap ;;
  (fun s =>
     (match s_nodemap s with
      | Old m => St (s_index s) (s_nodecache s) (s_nodepos s) (Old (<[node := curr]> m))
      | nm => St (s_index s) (<[node := curr]> (s_nodecache s)) (s_nodepos s) nm
      end, Ok ())).

(** [del self.nodemap[node]] *)
Definition del_nodemap (node : bytes) : M unit :=
  m <- get_nodemap ;;
  (fun s =>
     match m !! node with
     | None => (s, Err KeyError)
     | Some _ =>
         (match s_nodemap s with
          | Old m => St (s_index s) (s_nodecache s) (s_nodepos s) (Old (delete node m))
          | nm => St (s_index s) (delete node (s_nodecache s)) (s_nodepos s) nm
          end, Ok ())
     end).

(** [self.index.insert(-1, e); self.nodemap[node] = curr] *)
Definition addentry (e : entry) : M unit := fun s =>
  let curr := rlen s in
  match insert (s_index s) (-1) e with
  | Ok o => set_nodemap (e_node e) curr (St o (s_nodecache s) (s_nodepos s) (s_nodemap s))
  | Err err => (s, Err err)
  end.

(** The search among the revisions above the parents. *)
Fixpoint contains_above (n : bytes) (revs : list Z) : M bool :=
  match revs with
  | [] => ret false
  | i :: revs => v <- node i ;; if decide (n = v) then ret true else contains_above n revs
  end.

(** [_contains] *)
Definition contains (n p1node p2node : bytes) : M bool :=
  if decide (p1node = nullid /\ p2node = nullid) then m <- get_nodemap ;; ret (bool_decide (is_Some (m !! n)))
  else
    r1 <- rev p1node ;;
    r2 <- rev p2node ;;
    let maxparent := Z.max r1 r2 in
    (fun s =>
       let tip := rlen s - 1 in
       if decide (tip - maxparent > 1000) then (m <- get_nodemap ;; ret (bool_decide (is_Some (m !! n)))) s
       else contains_above n (zrange (maxparent + 1) (rlen s)) s).

(** [clearcaches], the part on nodes; the dictionary has no such method. *)
Definition clearcaches : M unit := fun s =>
  (St (s_index s) {[nullid := -1]} None (match s_nodemap s with Shared => Old (s_nodecache s) | nm => nm end), Ok ()).

(** The end of [strip]: the revisions from [rev] on are forgotten. *)
Fixpoint del_nodes (revs : list Z) : M unit :=
  match revs with [] => ret () | x :: revs => _ <- get_nodemap ;; n <- node x ;; _ <- del_nodemap n ;; del_nodes revs end.
Definition strip (rev : Z) : M unit :=
  fun s =>
    (_ <- del_nodes (zrange rev (rlen s)) ;;
     (fun s =>
        match delitem (s_index s) (Some rev) (Some (-1)) None with
        | Ok o => (St o (s_nodecache s) (s_nodepos s) (s_nodemap s), Ok ())
        | Err err => (s, Err err)
        end)) s.

Definition open (o : indexobj) : state := St o {[nullid := -1]} None NotYet.

(** ** Two ways to lose a node *)

Definition small (n : nat) : indexobj :=
  IndexObj [] 0 (map (fun i => Entry 0 0 0 i i (i - 1) (-1) (replicate 20 (byte (i + 65)))) (zrange 0 (Z.of_nat n))) None.
Definition nd (i : Z) : bytes := replicate 20 (byte (i + 65)).

Example rev_example :
  let s := open (small 6) in
  (rev (nd 4) s).2 = Ok 4 /\ (rev (nd 2) (rev (nd 4) s).1).2 = Ok 2 /\ (rev (nd 9) s).2 = Err LookupError.
Proof. vm_compute. done. Qed.

(** After [clearcaches] the two dictionaries are different ones: a revision that
    is added then is not found if the scan had begun. *)
Lemma clearcaches_loses_node :
  ((_ <- get_nodemap ;; _ <- clearcaches ;; _ <- rev (nd 2) ;; _ <- addentry (Entry 0 0 0 3 3 2 (-1) (nd 3)) ;; rev (nd 3))
     (open (small 3))).2 = Err LookupError.
Proof. vm_compute. reflexivity. Qed.

(** [strip] does not move the place where the scan stopped: a lookup of an unknown
    node indexes past the end, after it has recorded the null entry as a
    revision. *)
Lemma strip_breaks_lookup :
  let r := (_ <- rev (nd 5) ;; _ <- hasnode (nd 9) ;; _ <- strip 3 ;; _ <- rev (nd 9) ;; ret ()) (open (small 6)) in
  r.2 = Err IndexError.
Proof. vm_compute. reflexivity. Qed.

Lemma strip_breaks_null :
  let r := (_ <- rev (nd 4) ;; _ <- hasnode (nd 9) ;; _ <- strip 3 ;; _ <- hasnode (nd 9) ;; rev nullid) (open (small 6)) in
  r.2 = Ok 3.
Proof. vm_compute. reflexivity. Qed.

(** ** What the lookups answer *)

(** The place of a node among the nodes of the index. *)
Fixpoint place (n : bytes) (A : list bytes) : option Z :=
  match A with
  | [] => None
  | m :: A => if decide (m = n) then Some 0 else Z.succ <$> place n A
  end.

Definition spec_rev (A : list bytes) (n : bytes) : res Z :=
  if decide (n = nullid) then Ok (-1)
  else match place n A with
       | Some r => Ok r
       | None => Err (if decide (n = wdirid) then WdirUnsupported else LookupError)
       end.

Definition spec_has (A : list bytes) (n : bytes) : res bool :=
  match spec_rev A n with
  | Ok _ => Ok true
  | Err KeyError | Err LookupError => Ok false
  | Err err => Err err
  end.

(** Known, and above the parents unless these are missing or far away. *)
Definition spec_contains (A : list bytes) (n p1 p2 : bytes) : res bool :=
  if decide (p1 = nullid /\ p2 = nullid) then Ok (bool_decide (n = nullid \/ n ∈ A))
  else
    let* r1 := spec_rev A p1 in
    let* r2 := spec_rev A p2 in
    let maxparent := Z.max r1 r2 in
    if decide (zlen A - 1 - maxparent > 1000) then Ok (bool_decide (n = nullid \/ n ∈ A))
    else Ok (bool_decide (n ∈ drop (Z.to_nat (maxparent + 1)) A)).

Inductive op :=
  | ORev (n : bytes)
  | OHas (n : bytes)
  | OContains (n p1 p2 : bytes)
  | OAdd (e : entry).

Inductive out := OutRev (r : res Z) | OutBool (r : res bool) | OutNone (r : res unit).

Definition do_op (s : state) (p : op) : state * out :=
  match p with
  | ORev n => let r := rev n s in (r.1, OutRev r.2)
  | OHas n => let r := hasnode n s in (r.1, OutBool r.2)
  | OContains n p1 p2 => let r := contains n p1 p2 s in (r.1, OutBool r.2)
  | OAdd e => let r := addentry e s in (r.1, OutNone r.2)
  end.

Definition spec_op (A : list bytes) (p : op) : list bytes * out :=
  match p with
  | ORev n => (A, OutRev (spec_rev A n))
  | OHas n => (A, OutBool (spec_has A n))
  | OContains n p1 p2 => (A, OutBool (spec_contains A n p1 p2))
  | OAdd e => (A ++ [e_node e], OutNone (Ok ()))
  end.

Fixpoint run {S} (f : S -> op -> S * out) (s : S) (ops : list op) : list out :=
  match ops with [] => [] | p :: ops => let r := f s p in r.2 :: run f r.1 ops end.

(** The nodes that a sequence of operations adds. *)
Definition added (ops : list op) : list bytes := omap (fun p => match p with OAdd e => Some (e_node e) | _ => None end) ops.

Lemma place_Some n A r : place n A = Some r -> exists i, r = Z.of_nat i /\ A !! i = Some n.
Proof.
  revert r. induction A as [|m A IH]; intros r; cbn; [done|]. case_decide as E.
  - intros [= <-]. exists O. by subst.
  - destruct (place n A) as [r'|]; [|done]. intros [= <-]. destruct (IH r' eq_refl) as (i & -> & Hi). exists (S i). split; [lia|done].
Qed.

Lemma place_None n A : place n A = None <-> n ∉ A.
Proof.
  induction A as [|m A IH]; cbn; [split; [intros _; apply not_elem_of_nil|done]|]. case_decide as E.
  - subst. split; [done|]. intros H. exfalso. apply H. left.
  - destruct (place n A); cbn.
    + split; [done|]. intros Hn. exfalso. assert (n ∉ A) as Hn' by set_solver. by apply IH in Hn'.
    + split; [|done]. intros _. assert (n ∉ A) by (by apply IH). set_solver.
Qed.

Lemma place_lookup n A i : NoDup A -> A !! i = Some n -> place n A = Some (Z.of_nat i).
Proof.
  intros Hnd Hi. destruct (place n A) as [r|] eqn:E.
  - apply place_Some in E as (j & -> & Hj). do 2 f_equal. by eapply NoDup_lookup.
  - apply place_None in E. exfalso. apply E. by eapply list_elem_of_lookup_2.
Qed.

(** ** Scanning *)

(** The revisions from [lo] to [m] were recorded. *)
Definition recorded (A : list bytes) (lo m : nat) (c c' : gmap bytes Z) : Prop :=
  (forall i n, (lo <= i < m)%nat -> A !! i = Some n -> c' !! n = Some (Z.of_nat i)) /\
  (forall n, (forall i, (lo <= i < m)%nat -> A !! i ≠ Some n) -> c' !! n = c !! n).

Lemma getitem_node o es A r n :
  rep o es -> map e_node es = A -> A !! r = Some n -> exists e, index_getitem o (Z.of_nat r) = Ok e /\ e_node e = n.
Proof.
  intros Hr <- Hn. rewrite list_lookup_fmap in Hn. destruct (es !! r) as [e|] eqn:E; [|done]. injection Hn as <-.
  exists e. split; [|done]. rewrite (rep_get o es _ Hr). unfold spec_fix. apply lookup_lt_Some in E as Hlt.
  rewrite (decide_False (P := Z.of_nat r < 0)) by lia. rewrite decide_True by (unfold zlen; lia). cbn [rbind].
  unfold getitem. by rewrite Nat2Z.id, lookup_app_l, E by done.
Qed.

Lemma recorded_S A lo m n c c' :
  NoDup A -> A !! m = Some n -> (lo <= m)%nat -> recorded A lo m (<[n := Z.of_nat m]> c) c' -> recorded A lo (S m) c c'.
Proof.
  intros Hnd Hn Hlo [Q1 Q2]. split.
  - intros j x Hj Hx. destruct (decide (j = m)) as [->|]; [|apply Q1; [lia|done]].
    rewrite Hx in Hn. injection Hn as ->. rewrite Q2; [by rewrite lookup_insert_eq|].
    intros k Hk Hkx. assert (k = m) by (by eapply NoDup_lookup). lia.
  - intros x Hx. rewrite Q2 by (intros k Hk; apply Hx; lia). apply lookup_insert_ne. intros <-. apply (Hx m); [lia|done].
Qed.

Lemma scan_spec o es A node m c :
  rep o es -> map e_node es = A -> NoDup A -> (m <= length A)%nat ->
  exists c',
    (exists i, (i < m)%nat /\ A !! i = Some node /\
       scan o (down_from (Z.of_nat m - 1) m) node c = (c', Ok (Some (Z.of_nat i))) /\ recorded A i m c c') \/
    ((forall i, (i < m)%nat -> A !! i ≠ Some node) /\
       scan o (down_from (Z.of_nat m - 1) m) node c = (c', Ok None) /\ recorded A 0 m c c').
Proof.
  intros Hr HA Hnd. revert c. induction m as [|m IH]; intros c Hm.
  { exists c. right. split_and!; [lia|done|]. split; [lia|done]. }
  destruct (lookup_lt_is_Some_2 A m Hm) as [n Hn]. destruct (getitem_node o es A m n Hr HA Hn) as (e & He & En).
  cbn [down_from scan]. replace (Z.of_nat (S m) - 1) with (Z.of_nat m) by lia. rewrite He, En. case_decide as Hd.
  - rewrite Hd in Hn |- *. exists (<[node := Z.of_nat m]> c). left. exists m. split_and!; [lia|done|done|]. split.
    + intros i x Hi Hx. assert (i = m) as -> by lia. rewrite Hx in Hn. injection Hn as ->. by rewrite lookup_insert_eq.
    + intros x Hx. rewrite lookup_insert_ne; [done|]. intros <-. apply (Hx m); [lia|done].
  - destruct (IH (<[n := Z.of_nat m]> c)) as (c' & [(i & Hi & Hin & E & R1 & R2)|(Hno & E & R1 & R2)]); [lia| |].
    + exists c'. left. exists i. split_and!; [lia|done|exact E|by apply (recorded_S A i m n); [..|lia|]].
    + exists c'. right. split_and!; [|exact E|by apply (recorded_S A 0 m n); [..|lia|]]. intros i Hi. destruct (decide (i = m)) as [->|]; [congruence|apply Hno; lia].
Qed.

(** ** The invariant *)

(** [A] are the nodes of the index, of which the cache takes [K] into account. *)
Record inv (s : state) (A K : list bytes) : Prop := {
  inv_rep : exists es, rep (s_index s) es /\ map e_node es = A;
  inv_nodup : NoDup (nullid :: A);
  inv_prefix : K `prefix_of` A;
  inv_null : s_nodecache s !! nullid = Some (-1);
  inv_sound : forall n r, s_nodecache s !! n = Some r -> n = nullid \/ exists i, A !! i = Some n /\ r = Z.of_nat i;
  inv_up : forall i j n n', (i < j)%nat -> K !! i = Some n -> K !! j = Some n' -> is_Some (s_nodecache s !! n) -> is_Some (s_nodecache s !! n');
  inv_pos : forall p, s_nodepos s = Some p -> -1 <= p /\ p + 1 < zlen A /\
    forall i n, p < Z.of_nat i -> K !! i = Some n -> is_Some (s_nodecache s !! n)
}.

Definition complete (s : state) (K : list bytes) : Prop :=
  forall i n, K !! i = Some n -> is_Some (s_nodecache s !! n).

Lemma inv_hit s A K n r : inv s A K -> s_nodecache s !! n = Some r -> spec_rev A n = Ok r.
Proof.
  intros I Hc. unfold spec_rev. case_decide as Hn.
  - subst. rewrite (inv_null _ _ _ I) in Hc. by injection Hc as <-.
  - destruct (inv_sound _ _ _ I _ _ Hc) as [|(i & Hi & ->)]; [done|].
    pose proof (inv_nodup _ _ _ I) as [_ Hnd]%NoDup_cons. by rewrite (place_lookup _ _ _ Hnd Hi).
Qed.

Lemma inv_scan s A K lo m c' :
  inv s A K -> recorded A lo m (s_nodecache s) c' -> (m <= length A)%nat ->
  (forall i n, (m <= i)%nat -> K !! i = Some n -> is_Some (s_nodecache s !! n)) ->
  c' !! nullid = Some (-1) /\
  (forall n r, c' !! n = Some r -> n = nullid \/ exists i, A !! i = Some n /\ r = Z.of_nat i) /\
  (forall n, is_Some (s_nodecache s !! n) -> is_Some (c' !! n)) /\
  (forall i n, (lo <= i)%nat -> K !! i = Some n -> is_Some (c' !! n)).
Proof.
  intros I [R1 R2] Hm Hup. pose proof (inv_nodup _ _ _ I) as [Hnull Hnd]%NoDup_cons.
  assert (forall n, (exists i, (lo <= i < m)%nat /\ A !! i = Some n) \/ c' !! n = s_nodecache s !! n) as Hcase.
  { intros n. destruct (place n A) as [r|] eqn:E.
    - apply place_Some in E as (i & -> & Hi). destruct (decide (lo <= i < m)%nat) as [Hlt|Hlt]; [left; by exists i|right].
      apply R2. intros j Hj Hj'. assert (i = j) by (by eapply NoDup_lookup). by subst.
    - right. apply place_None in E. apply R2. intros j _ Hj. apply E. by eapply list_elem_of_lookup_2. }
  split_and!.
  - rewrite R2; [apply I|]. intros i _ Hi. apply Hnull. by eapply list_elem_of_lookup_2.
  - intros n r Hc. destruct (Hcase n) as [(i & Hi & Hn)|E]; [|rewrite E in Hc; by apply (inv_sound _ _ _ I)].
    right. exists i. split; [done|]. rewrite (R1 _ _ Hi Hn) in Hc. by injection Hc.
  - intros n Hc. destruct (Hcase n) as [(i & Hi & Hn)|E]; [|by rewrite E]. rewrite (R1 _ _ Hi Hn). by eexists.
  - intros i n Hi Hn. destruct (decide (i < m)%nat) as [Hlt|Hge].
    + rewrite (R1 i n); [by eexists|lia|]. by eapply prefix_lookup_Some, (inv_prefix _ _ _ I).
    + destruct (Hcase n) as [(j & Hj & Hjn)|E]; [rewrite (R1 _ _ Hj Hjn); by eexists|]. rewrite E. apply (Hup i n); [lia|done].
Qed.

(** The first revision that the scan may still have to record. *)
Lemma inv_start s A K :
  inv s A K ->
  exists m, (m <= length A)%nat /\
    zrange_down (match s_nodepos s with Some p => p | None => len (s_index s) - 2 end) (-1) = down_from (Z.of_nat m - 1) m /\
    (forall i n, (m <= i)%nat -> K !! i = Some n -> is_Some (s_nodecache s !! n)) /\
    (s_nodepos s = None -> m = length A).
Proof.
  intros I. unfold zrange_down. destruct (s_nodepos s) as [p|] eqn:Ep.
  - destruct (inv_pos _ _ _ I p Ep) as (Hp1 & Hp2 & Hp3). exists (Z.to_nat (p + 1)). split_and!; [unfold zlen in *; lia| | |done].
    + f_equal; lia.
    + intros i n Hi. apply Hp3. lia.
  - destruct (inv_rep _ _ _ I) as (es & Hr & <-). exists (length (map e_node es)). split_and!; [done| | |done].
    + rewrite (rep_len _ _ Hr). unfold zlen. rewrite length_map. f_equal; lia.
    + intros i n Hi Hn. exfalso. pose proof (prefix_length _ _ (inv_prefix _ _ _ I)). apply lookup_lt_Some in Hn. lia.
Qed.

(** A lookup keeps the invariant, and it answers from the whole index when the
    cache accounts for it, when no scan has begun, or for an accounted node. *)
Lemma rev_inv s A K n :
  inv s A K ->
  exists s' r, rev n s = (s', r) /\ inv s' A K /\ s_index s' = s_index s /\ s_nodemap s' = s_nodemap s /\
    (forall x, is_Some (s_nodecache s !! x) -> is_Some (s_nodecache s' !! x)) /\
    (K = A \/ s_nodepos s = None \/ n ∈ nullid :: K -> r = spec_rev A n) /\
    (forall v, r = Ok v -> is_Some (s_nodecache s' !! n)).
Proof.
  intros I. unfold rev. destruct (s_nodecache s !! n) as [r|] eqn:Ec.
  { exists s, (Ok r). split_and!; try done. intros _. symmetry. by eapply inv_hit. }
  destruct (inv_start _ _ _ I) as (m & Hm & Ez & Hup & Hnone). destruct (inv_rep _ _ _ I) as (es & Hr & HA).
  pose proof (inv_nodup _ _ _ I) as [Hnull Hnd]%NoDup_cons.
  assert (n ≠ nullid) as Hnn by (intros ->; by rewrite (inv_null _ _ _ I) in Ec).
  rewrite Ez. destruct (scan_spec (s_index s) es A n m (s_nodecache s) Hr HA Hnd Hm) as (c' & [(i & Hi & Hin & E & R)|(Hno & E & R)]); rewrite E.
  - destruct (inv_scan _ _ _ _ _ _ I R Hm Hup) as (N1 & N2 & N3 & N4).
    eexists _, _. split; [reflexivity|]. split_and!; try done.
    + split; cbn; try apply I; [done|done| |].
      * intros a b x y Hab Ha Hb Hx. destruct (decide (i <= b)%nat); [by eapply N4|]. apply N3. eapply (inv_up _ _ _ I a b); [done..|].
        destruct (decide (i <= a)%nat); [lia|]. destruct Hx as [v Hx]. destruct R as [_ R2].
        rewrite R2 in Hx; [by eexists|]. intros k Hk Hkx. assert (k = a); [|lia]. eapply NoDup_lookup; [exact Hnd|done|].
        by eapply prefix_lookup_Some, (inv_prefix _ _ _ I).
      * intros p [= <-]. split_and!; [lia|unfold zlen; lia|]. intros a x Ha. apply N4. lia.
    + intros _. unfold spec_rev. by rewrite decide_False, (place_lookup _ _ _ Hnd Hin).
    + intros v [= <-]. cbn. destruct R as [R1 _]. rewrite (R1 i n); [by eexists|lia|done].
  - destruct (inv_scan _ _ _ _ _ _ I R Hm Hup) as (N1 & N2 & N3 & N4).
    eexists _, _. split; [reflexivity|]. split_and!; try done.
    + split; cbn; try apply I; [done|done| |].
      * intros a b x y Hab Ha Hb Hx. apply (N4 b); [lia|done].
      * intros p Hp. destruct (inv_pos _ _ _ I p Hp) as (? & ? & Hp3). split_and!; [done..|]. intros a x Ha Hx. by apply N3, (Hp3 a).
    + intros Hc. unfold spec_rev. rewrite (decide_False (P := n = nullid)) by done. destruct (place n A) as [r|] eqn:Ep; [exfalso|done].
      apply place_Some in Ep as (i & -> & Hi). assert (m <= i)%nat as Hmi.
      { destruct (decide (i < m)%nat) as [Hlt|]; [by destruct (Hno i Hlt)|lia]. }
      destruct Hc as [->|[Hc|Hc]].
      * destruct (Hup i n Hmi Hi) as [? ?]. congruence.
      * apply lookup_lt_Some in Hi. specialize (Hnone Hc). lia.
      * apply elem_of_cons in Hc as [->|Hc]; [done|]. apply list_elem_of_lookup in Hc as [j Hj].
        pose proof (prefix_lookup_Some _ _ _ _ Hj (inv_prefix _ _ _ I)) as Hj'. assert (i = j) as <- by (by eapply NoDup_lookup).
        destruct (Hup i n Hmi Hj) as [? ?]. congruence.
Qed.

(** The property is not computed, or it is the cache and the cache is complete. *)
Definition shared_ok (s : state) (K : list bytes) : Prop :=
  s_nodemap s = NotYet \/ (s_nodemap s = Shared /\ complete s K).

Lemma node_get s A K r n :
  inv s A K -> A !! r = Some n -> node (Z.of_nat r) s = (s, Ok n).
Proof.
  intros I Hn. destruct (inv_rep _ _ _ I) as (es & Hr & HA). destruct (getitem_node _ _ _ _ _ Hr HA Hn) as (e & He & <-).
  unfold node. by rewrite He.
Qed.

Lemma rlen_inv s A K : inv s A K -> rlen s = zlen A.
Proof.
  intros I. destruct (inv_rep _ _ _ I) as (es & Hr & <-). unfold rlen. rewrite (rep_len _ _ Hr). unfold zlen. rewrite length_map. lia.
Qed.

(** Computing [nodemap] scans the whole index. *)
Lemma get_nodemap_inv s A K :
  inv s A K -> shared_ok s K -> (K = [] -> s_nodepos s = None) ->
  exists s', get_nodemap s = (s', Ok (s_nodecache s')) /\ inv s' A K /\ s_index s' = s_index s /\
    s_nodemap s' = Shared /\ complete s' K.
Proof.
  intros I Hs Hpos. unfold get_nodemap. destruct Hs as [E|[E Hc]]; rewrite E; [|by exists s; split_and!].
  assert (exists n, node 0 s = (s, Ok n) /\ (K = A \/ s_nodepos s = None \/ n ∈ nullid :: K) /\ (K = [] \/ K !! 0%nat = Some n)) as (n & En & Hcond & HK).
  { destruct A as [|a A].
    - exists nullid. pose proof (inv_prefix _ _ _ I) as ->%prefix_nil_inv. split_and!; [|by left|by left].
      destruct (inv_rep _ _ _ I) as (es & Hr & HA). destruct es; [|done]. unfold node. rewrite (rep_get _ _ _ Hr). reflexivity.
    - exists a. split; [by apply (node_get s (a :: A) K 0)|]. destruct K as [|b K]; [split; [right; left; by apply Hpos|by left]|].
      pose proof (inv_prefix _ _ _ I) as Hpre. apply prefix_cons_inv_1 in Hpre as ->. split; [right; right; set_solver|by right]. }
  unfold bind. rewrite En. destruct (rev_inv s A K n I) as (s' & r & -> & I' & Ei & Em & _ & Hr & Hk).
  rewrite (Hr Hcond) in *. clear Hr. destruct (spec_rev A n) as [v|err] eqn:Es.
  - exists (St (s_index s') (s_nodecache s') (s_nodepos s') Shared). split; [done|]. cbn. split_and!; [|done|done|].
    + destruct I'. by split.
    + destruct HK as [->|HK]; [by intros i x Hx|]. intros [|i] x Hx; cbn; [rewrite HK in Hx; injection Hx as <-; by eapply Hk|].
      eapply (inv_up _ _ _ I' 0 (S i) n x); [lia|done|done|by eapply Hk].
  - exfalso. unfold spec_rev in Es. case_decide; [done|]. destruct HK as [->|HK].
    + destruct A as [|a A].
      * unfold node in En. destruct (inv_rep _ _ _ I) as (es & Hr & HA). destruct es; [|done].
        rewrite (rep_get _ _ _ Hr) in En. cbn in En. by injection En.
      * pose proof (node_get s (a :: A) [] 0 a I eq_refl) as En'. change (Z.of_nat 0) with 0 in En'. rewrite En' in En. injection En as <-. cbn in Es. by rewrite decide_True in Es.
    + pose proof (prefix_lookup_Some _ _ _ _ HK (inv_prefix _ _ _ I)) as HA.
      pose proof (inv_nodup _ _ _ I) as [_ Hnd]%NoDup_cons. by rewrite (place_lookup _ _ _ Hnd HA) in Es.
Qed.

Lemma nodemap_mem s A n :
  inv s A A -> complete s A -> bool_decide (is_Some (s_nodecache s !! n)) = bool_decide (n = nullid \/ n ∈ A).
Proof.
  intros I Hc. apply bool_decide_ext. split.
  - intros [r Hr]. destruct (inv_sound _ _ _ I _ _ Hr) as [|(i & Hi & _)]; [by left|right; by eapply list_elem_of_lookup_2].
  - intros [->|[i Hi]%list_elem_of_lookup]; [rewrite (inv_null _ _ _ I); by eexists|by eapply Hc].
Qed.

Definition good (s : state) (A : list bytes) : Prop := inv s A A /\ shared_ok s A.

Lemma good_pos s A : good s A -> A = [] -> s_nodepos s = None.
Proof.
  intros [I _] ->. destruct (s_nodepos s) as [p|] eqn:E; [|done]. destruct (inv_pos _ _ _ I p E) as (? & ? & _). unfold zlen in *. cbn [length] in *. lia.
Qed.

Lemma rev_good s A n : good s A -> (rev n s).2 = spec_rev A n /\ good (rev n s).1 A.
Proof.
  intros [I Hs]. destruct (rev_inv s A A n I) as (s' & r & -> & I' & _ & Em & Hmono & Hr & _). cbn. split; [apply Hr; by left|].
  split; [done|]. destruct Hs as [E|[E Hc]]; [left; congruence|right; split; [congruence|]]. intros i x Hx. by apply Hmono, (Hc i).
Qed.

Lemma addentry_good s A e :
  good s A -> NoDup (nullid :: A ++ [e_node e]) ->
  (addentry e s).2 = Ok () /\ good (addentry e s).1 (A ++ [e_node e]).
Proof.
  intros Hg Hnd. pose proof (good_pos _ _ Hg) as Hpos. destruct Hg as [I Hs]. unfold addentry. rewrite (rlen_inv _ _ _ I).
  unfold IndexFile.insert. rewrite decide_True by done. set (n := e_node e) in *.
  set (s1 := St _ (s_nodecache s) (s_nodepos s) (s_nodemap s)).
  assert (inv s1 (A ++ [n]) A) as I1.
  { destruct I as [(es & Hr & HA) Q2 Q3 Q4 Q5 Q6 Q7]. split; cbn; try done.
    - exists (es ++ [e]). split; [|by rewrite map_app, HA]. exact (proj2 (rep_step _ es (OInsert (-1) e) Hr)).
    - by eexists.
    - intros x r Hx. destruct (Q5 _ _ Hx) as [|(i & Hi & ->)]; [by left|right]. exists i. split; [by apply lookup_app_l_Some|done].
    - intros p Hp. destruct (Q7 p Hp) as (? & ? & ?). split_and!; [done|rewrite zlen_app; pose proof (zlen_nonneg [n]); lia|done]. }
  assert (shared_ok s1 A) as Hs1 by (destruct Hs as [E|[E Hc]]; [by left|by right]).
  destruct (get_nodemap_inv s1 (A ++ [n]) A I1 Hs1 Hpos) as (s2 & E2 & I2 & Ei & Em & Hc).
  unfold set_nodemap, bind. rewrite E2, Em. cbn [fst snd]. split; [done|]. apply NoDup_cons in Hnd as [Hnull Hnd'].
  assert (forall i x, (A ++ [n]) !! i = Some x -> is_Some (<[n := zlen A]> (s_nodecache s2) !! x)) as Hall.
  { intros i x Hx. destruct (decide (x = n)) as [->|Hne]; [rewrite lookup_insert_eq; by eexists|]. rewrite lookup_insert_ne by done.
    apply lookup_app_Some in Hx as [Hx|[_ Hx]]; [by eapply Hc|]. apply list_lookup_singleton_Some in Hx as [_ ->]. done. }
  split; [|right; split; [done|exact Hall]]. destruct I2 as [Q1 Q2 Q3 Q4 Q5 Q6 Q7]. split; cbn; try done.
  - rewrite lookup_insert_ne; [done|]. intros E. apply Hnull, elem_of_app. right. apply list_elem_of_singleton. by symmetry.
  - intros x r Hx. destruct (decide (x = n)) as [->|Hne].
    + rewrite lookup_insert_eq in Hx. injection Hx as <-. right. exists (length A). split; [|done]. by rewrite lookup_app_r, Nat.sub_diag by lia.
    + rewrite lookup_insert_ne in Hx by done. by apply Q5.
  - intros i j x y _ _ Hy _. by eapply Hall.
  - intros p Hp. destruct (Q7 p Hp) as (? & ? & _). split_and!; [done..|]. intros i x _ Hx. by eapply Hall.
Qed.

Lemma contains_above_spec s A K n m :
  inv s A K -> (m <= length A)%nat ->
  contains_above n (zrange (Z.of_nat m) (zlen A)) s = (s, Ok (bool_decide (n ∈ drop m A))).
Proof.
  intros I Hm. remember (length A - m)%nat as k eqn:Ek. revert m Hm Ek. induction k as [|k IH]; intros m Hm Ek.
  - rewrite zrange_nil by (unfold zlen; lia). cbn. rewrite drop_ge by lia. by rewrite bool_decide_eq_false_2 by apply not_elem_of_nil.
  - destruct (lookup_lt_is_Some_2 A m) as [x Hx]; [lia|]. rewrite zrange_cons by (unfold zlen; lia). cbn [contains_above]. unfold bind at 1.
    rewrite (node_get _ _ _ _ _ I Hx), (drop_S _ _ _ Hx). case_decide as Hd.
    + rewrite bool_decide_eq_true_2; [done|]. subst. left.
    + replace (Z.of_nat m + 1) with (Z.of_nat (S m)) by lia. rewrite IH by lia. do 2 f_equal. apply bool_decide_ext. set_solver.
Qed.

Lemma spec_rev_range A n r : spec_rev A n = Ok r -> -1 <= r < zlen A.
Proof.
  unfold spec_rev. case_decide; [intros [= <-]; pose proof (zlen_nonneg A); lia|]. destruct (place n A) as [v|] eqn:E; [|done].
  intros [= <-]. apply place_Some in E as (i & -> & Hi). apply lookup_lt_Some in Hi. unfold zlen. lia.
Qed.

Lemma get_nodemap_good s A :
  good s A -> exists s' m, get_nodemap s = (s', Ok m) /\ good s' A /\
    forall n, bool_decide (is_Some (m !! n)) = bool_decide (n = nullid \/ n ∈ A).
Proof.
  intros Hg. destruct (get_nodemap_inv s A A (proj1 Hg) (proj2 Hg) (good_pos _ _ Hg)) as (s' & E & I & _ & Em & Hc).
  exists s', (s_nodecache s'). split_and!; [done|split; [done|by right]|]. intros n. by apply nodemap_mem.
Qed.

(** A method answers [r] and keeps the object good. *)
Definition meets {B} (A : list bytes) (x : state * res B) (r : res B) : Prop := x.2 = r /\ good x.1 A.

Lemma meets_bind {B C} A (m : M B) (k : B -> M C) s r f :
  meets A (m s) r -> (forall b s', r = Ok b -> good s' A -> meets A (k b s') (f b)) -> meets A (bind m k s) (rbind r f).
Proof.
  unfold bind. destruct (m s) as [s' v]. intros [E G] Hk. cbn in E, G. subst v. destruct r as [b|err]; cbn; [by apply Hk|by split].
Qed.

Lemma nodemap_has_good s A n :
  good s A -> meets A ((m <- get_nodemap ;; ret (bool_decide (is_Some (m !! n)))) s) (Ok (bool_decide (n = nullid \/ n ∈ A))).
Proof.
  intros Hg. destruct (get_nodemap_good s A Hg) as (s' & m & E & Hg' & Hm). unfold bind, ret, meets. rewrite E. cbn. by rewrite Hm.
Qed.

Lemma contains_good s A n p1 p2 : good s A -> meets A (contains n p1 p2 s) (spec_contains A n p1 p2).
Proof.
  intros Hg. unfold contains, spec_contains. case_decide; [by apply nodemap_has_good|].
  apply meets_bind; [by apply rev_good|]. intros r1 s1 S1 G1. apply meets_bind; [by apply rev_good|]. intros r2 s2 S2 G2.
  rewrite (rlen_inv _ _ _ (proj1 G2)). case_decide; [by apply nodemap_has_good|].
  apply spec_rev_range in S1, S2. set (k := Z.max r1 r2 + 1).
  pose proof (contains_above_spec s2 A A n (Z.to_nat k) (proj1 G2)) as Hca. rewrite Z2Nat.id in Hca by lia.
  rewrite Hca by (unfold zlen in *; lia). by split.
Qed.

Lemma do_op_good s A p :
  good s A -> (forall e, p = OAdd e -> NoDup (nullid :: A ++ [e_node e])) ->
  (do_op s p).2 = (spec_op A p).2 /\ good (do_op s p).1 (spec_op A p).1.
Proof.
  intros Hg Hnd. destruct p as [n|n|n p1 p2|e]; cbn [do_op spec_op fst snd].
  - destruct (rev_good s A n Hg) as [-> ?]. done.
  - unfold hasnode, spec_has. destruct (rev_good s A n Hg) as [E ?]. destruct (rev n s) as [s' r]. cbn in *. subst r.
    destruct (spec_rev A n) as [|[]]; done.
  - destruct (contains_good s A n p1 p2 Hg) as [-> ?]. done.
  - destruct (addentry_good s A e Hg (Hnd e eq_refl)) as [-> ?]. done.
Qed.

Lemma NoDup_cons_app_l {A} (x : A) l k : NoDup (x :: l ++ k) -> NoDup (x :: l).
Proof. rewrite !NoDup_cons, NoDup_app, elem_of_app. tauto. Qed.

Lemma run_good s A ops : good s A -> NoDup (nullid :: A ++ added ops) -> run do_op s ops = run spec_op A ops.
Proof.
  revert s A. induction ops as [|p ops IH]; intros s A Hg Hnd; [done|]. cbn [run].
  assert (forall e, p = OAdd e -> NoDup (nullid :: A ++ [e_node e])) as Hadd.
  { intros e ->. apply (NoDup_cons_app_l _ _ (added ops)). by rewrite <- app_assoc. }
  destruct (do_op_good s A p Hg Hadd) as [-> Hg']. f_equal. apply IH; [done|].
  destruct p as [| | |e]; try done. cbn in *. by rewrite <- app_assoc.
Qed.

Lemma open_good o es : rep o es -> NoDup (nullid :: map e_node es) -> good (open o) (map e_node es).
Proof.
  intros Hr Hnd. split; [|by left]. split; cbn; try done.
  - by exists es.
  - intros n r Hn. left. by apply lookup_singleton_Some in Hn as [<- _].
  - intros i j n n' Hij Hi Hj [v [<- _]%lookup_singleton_Some]. exfalso. apply NoDup_cons in Hnd as [Hn _]. apply Hn.
    by eapply list_elem_of_lookup_2.
Qed.

(** [C30] Node lookups: on a revlog whose nodes are distinct, every sequence of
    [rev], [hasnode], [_contains] and additions of new nodes answers as a search
    of the whole list of nodes would, although the answers come from a cache
    that is filled by partial scans and shared with [nodemap]. *)
Theorem node_lookup_refines (o : indexobj) (es : list entry) (ops : list op) :
  rep o es -> NoDup (nullid :: map e_node es ++ added ops) ->
  run do_op (open o) ops = run spec_op (map e_node es) ops.
Proof.
  intros Hr Hnd. apply run_good; [|done]. apply open_good; [done|]. by eapply NoDup_cons_app_l.
Qed.

Lemma node_lookup_refines_witness :
  run do_op (open (small 3)) [ORev (nd 1); OAdd (Entry 0 0 0 3 3 2 (-1) (nd 3)); OContains (nd 3) (nd 2) nullid; OHas (nd 7); ORev (nd 3)] =
  run spec_op (map e_node (ix_extra (small 3)))
    [ORev (nd 1); OAdd (Entry 0 0 0 3 3 2 (-1) (nd 3)); OContains (nd 3) (nd 2) nullid; OHas (nd 7); ORev (nd 3)].
Proof.
  apply (node_lookup_refines (small 3) (ix_extra (small 3))).
  - split; [vm_compute; discriminate|]. exists []. split; [reflexivity|]. split; [reflexivity|]. intros i e Hi. rewrite lookup_nil in Hi. discriminate.
  - apply (bool_decide_unpack _). vm_compute. exact I.
Defined.

Example node_lookup_example :
  run spec_op (map e_node (ix_extra (small 3)))
    [ORev (nd 1); OAdd (Entry 0 0 0 3 3 2 (-1) (nd 3)); OContains (nd 3) (nd 2) nullid; OHas (nd 7); ORev (nd 3)] =
  [OutRev (Ok 1); OutNone (Ok ()); OutBool (Ok true); OutBool (Ok false); OutRev (Ok 3)].
Proof. vm_compute. reflexivity. Qed.
End NodeCache.
