(* ===== verification/DeltaChain.v ===== *)
(** * Delta chains ([chainbase], [_chaininfo], [_deltachain] of revlog.py)

    A revision is stored as a delta against its base or, without general deltas,
    against the revision before it, down to a revision that is its own base.
    The base of a chain is kept in an [lrucachedict], the length and size of
    chains in a dictionary. *)

From S2P Require Import Prelude Lines Struct IndexFile LruCache.

Module DeltaChain.
Import IndexFile.

Record chains := Chains {
  c_index : indexobj; c_generaldelta : bool;
  c_chainbasecache : LruCache.lru Z Z; c_chaininfocache : gmap Z (Z * Z)
}.

(** The loop of [chainbase]. *)
Fixpoint chainbase_loop (fuel : nat) (o : indexobj) (rev : Z) : res Z :=
  match fuel with
  | O => Err OutOfFuel
  | S fuel =>
      let* e := index_getitem o rev in
      if decide (e_base e ≠ rev) then chainbase_loop fuel o (e_base e) else Ok rev
  end.

(** [chainbase]; after the loop [rev] is the base itself. *)
Definition chainbase (fuel : nat) (rev : Z) (s : chains) : chains * res Z :=
  match LruCache.get (c_chainbasecache s) rev with
  | Some base => (s, Ok base)
  | None =>
      match chainbase_loop fuel (c_index s) rev with
      | Ok base =>
          (Chains (c_index s) (c_generaldelta s) (LruCache.setitem (c_chainbasecache s) base base) (c_chaininfocache s), Ok base)
      | Err err => (s, Err err)
      end
  end.

(** The loop of [_chaininfo]. *)
Fixpoint chaininfo_loop (fuel : nat) (o : indexobj) (gd : bool) (cache : gmap Z (Z * Z)) (iterrev : Z) (e : entry) (clen size : Z) :
    res (Z * Z) :=
  match fuel with
  | O => Err OutOfFuel
  | S fuel =>
      if decide (iterrev ≠ e_base e) then
        let clen := clen + 1 in
        let size := size + e_complen e in
        let iterrev := if gd then e_base e else iterrev - 1 in
        match cache !! iterrev with
        | Some t => Ok (clen + t.1, size + t.2)
        | None => let* e := index_getitem o iterrev in chaininfo_loop fuel o gd cache iterrev e clen size
        end
      else Ok (clen, size + e_complen e)
  end.

(** [_chaininfo] *)
Definition chaininfo (fuel : nat) (rev : Z) (s : chains) : chains * res (Z * Z) :=
  match c_chaininfocache s !! rev with
  | Some r => (s, Ok r)
  | None =>
      match (let* e := index_getitem (c_index s) rev in
             chaininfo_loop fuel (c_index s) (c_generaldelta s) (c_chaininfocache s) rev e 0 0) with
      | Ok r => (Chains (c_index s) (c_generaldelta s) (c_chainbasecache s) (<[rev := r]> (c_chaininfocache s)), Ok r)
      | Err err => (s, Err err)
      end
  end.

(** [chainlen] *)
Definition chainlen (fuel : nat) (rev : Z) (s : chains) : chains * res Z :=
  let r := chaininfo fuel rev s in (r.1, let* t := r.2 in Ok t.1).

(** The loop of [_deltachain]: the last revision and the chain before it. *)
Fixpoint deltachain_loop (fuel : nat) (o : indexobj) (gd : bool) (stoprev : option Z) (iterrev : Z) (e : entry) (chain : list Z) :
    res (Z * list Z) :=
  match fuel with
  | O => Err OutOfFuel
  | S fuel =>
      if decide (iterrev ≠ e_base e /\ Some iterrev ≠ stoprev) then
        let chain := chain ++ [iterrev] in
        let iterrev := if gd then e_base e else iterrev - 1 in
        let* e := index_getitem o iterrev in
        deltachain_loop fuel o gd stoprev iterrev e chain
      else Ok (iterrev, chain)
  end.

(** [_deltachain] *)
Definition deltachain (fuel : nat) (rev : Z) (stoprev : option Z) (s : chains) : res (list Z * bool) :=
  let* e := index_getitem (c_index s) rev in
  let* (iterrev, chain) := deltachain_loop fuel (c_index s) (c_generaldelta s) stoprev rev e [] in
  let (chain, stopped) := if decide (Some iterrev = stoprev) then (chain, true) else (chain ++ [iterrev], false) in
  Ok (reverse chain, stopped).

(** The caches when the revlog is opened. *)
Definition open (o : indexobj) (gd : bool) : chains := Chains o gd (LruCache.init 100) ∅.

(** ** Chains *)

(** The entry that the index gives for a revision, the null revision included. *)
Definition entry_at (es : list entry) (r : Z) (e : entry) : Prop :=
  (r = -1 /\ e = null_entry) \/ (0 <= r /\ es !! Z.to_nat r = Some e).

(** The revisions that make up [r], from [r] down. *)
Inductive chain (es : list entry) (gd : bool) : Z -> list Z -> Prop :=
  | chain_base r e : entry_at es r e -> e_base e = r -> chain es gd r [r]
  | chain_next r e l :
      entry_at es r e -> e_base e ≠ r -> chain es gd (if gd then e_base e else r - 1) l -> chain es gd r (r :: l).

(** A base is the revision itself or an earlier one.  Without general deltas it is the
    base of the whole chain: the revision itself or the base of the one before it, as
    [_addrevision] writes it. *)
Definition bases_ok (es : list entry) (gd : bool) : Prop :=
  forall i e, es !! i = Some e -> 0 <= e_base e <= Z.of_nat i /\
    (gd = false -> e_base e = Z.of_nat i \/ exists j e', i = S j /\ es !! j = Some e' /\ e_base e = e_base e').

Definition complen_at (es : list entry) (r : Z) : Z :=
  if decide (r = -1) then 0 else match es !! Z.to_nat r with Some e => e_complen e | None => 0 end.

(** The part of a chain above [stop]. *)
Fixpoint above (stop : Z) (l : list Z) : list Z :=
  match l with [] => [] | r :: l => if decide (r = stop) then [] else r :: above stop l end.

(** ** Calls in sequence *)

Inductive op :=
  | OBase (rev : Z)
  | OInfo (rev : Z)
  | OChain (rev : Z) (stop : option Z).

Inductive out :=
  | OutBase (r : res Z)
  | OutInfo (r : res (Z * Z))
  | OutChain (r : res (list Z * bool)).

Definition do_op (fuel : nat) (s : chains) (p : op) : chains * out :=
  match p with
  | OBase rev => let r := chainbase fuel rev s in (r.1, OutBase r.2)
  | OInfo rev => let r := chaininfo fuel rev s in (r.1, OutInfo r.2)
  | OChain rev stop => (s, OutChain (deltachain fuel rev stop s))
  end.

Fixpoint run (fuel : nat) (s : chains) (ops : list op) : list out :=
  match ops with [] => [] | p :: ops => let r := do_op fuel s p in r.2 :: run fuel r.1 ops end.

Definition subject (p : op) : Z := match p with OBase r | OInfo r | OChain r _ => r end.

Definition zsum (l : list Z) : Z := foldr Z.add 0 l.

(** What a call answers, in terms of the chain of its revision. *)
Definition answers (es : list entry) (gd : bool) (p : op) (a : out) : Prop :=
  match p with
  | OBase rev => exists l b, chain es gd rev (l ++ [b]) /\ a = OutBase (Ok b)
  | OInfo rev => exists l, chain es gd rev l /\ a = OutInfo (Ok (zlen l - 1, zsum (map (complen_at es) l)))
  | OChain rev None => exists l, chain es gd rev l /\ a = OutChain (Ok (reverse l, false))
  | OChain rev (Some stop) =>
      exists l, chain es gd rev l /\
        a = OutChain (Ok (if decide (stop ∈ l) then (reverse (above stop l), true) else (reverse l, false)))
  end.

Example delta_chain_example :
  let o := IndexObj [] 0 [Entry 0 5 0 0 0 (-1) (-1) []; Entry 0 2 0 0 0 (-1) (-1) []; Entry 0 3 0 1 0 (-1) (-1) []; Entry 0 7 0 1 0 (-1) (-1) []] None in
  run 9 (open o true) [OInfo 2; OBase 3; OChain 3 None; OInfo 3; OChain 3 (Some 1)] =
  [OutInfo (Ok (2, 10)); OutBase (Ok 0); OutChain (Ok ([0; 1; 3], false)); OutInfo (Ok (2, 14)); OutChain (Ok ([3], true))].
Proof. vm_compute. reflexivity. Qed.

(** The cache of chain bases never gets the revision that was asked for. *)
Lemma chainbase_caches_base :
  let o := IndexObj [] 0 [Entry 0 5 0 0 0 (-1) (-1) []; Entry 0 2 0 0 0 (-1) (-1) []] None in
  let s := (chainbase 9 1 (open o true)).1 in
  LruCache.get (c_chainbasecache s) 1 = None /\ LruCache.get (c_chainbasecache s) 0 = Some 0.
Proof. vm_compute. done. Qed.

(** ** Lemmas on chains *)

Lemma entry_at_get o es r e : rep o es -> entry_at es r e -> index_getitem o r = Ok e.
Proof.
  intros Hr [[-> ->]|[Hp He]]; rewrite (rep_get o es _ Hr); unfold spec_fix, getitem.
  - rewrite (decide_True (P := -1 < 0)) by lia. rewrite decide_True by (pose proof (zlen_nonneg es); lia). cbn [rbind].
    rewrite lookup_app_r by (unfold zlen; lia). by replace (Z.to_nat (zlen es + 1 + -1) - length es)%nat with O by (unfold zlen; lia).
  - apply lookup_lt_Some in He as Hlt. rewrite (decide_False (P := r < 0)) by lia. rewrite decide_True by (unfold zlen; lia). cbn [rbind].
    by rewrite lookup_app_l, He by lia.
Qed.

Lemma entry_at_det es r e e' : entry_at es r e -> entry_at es r e' -> e = e'.
Proof. intros [[-> ->]|[? E]] [[? ->]|[? E']]; try lia; congruence. Qed.

Lemma chain_det es gd r l l' : chain es gd r l -> chain es gd r l' -> l = l'.
Proof.
  intros H. revert l'. induction H as [r e He Hb|r e l He Hb _ IH]; intros l' H'; inversion H' as [? e' He' Hb'|? e' l2 He' Hb' Hl']; subst;
    pose proof (entry_at_det _ _ _ _ He He') as ->; try done. f_equal. by apply IH.
Qed.

Lemma entry_complen es r e : entry_at es r e -> complen_at es r = e_complen e.
Proof. intros [[-> ->]|[Hp He]]; unfold complen_at; [by rewrite decide_True|]. by rewrite decide_False, He by lia. Qed.

(** Every revision has a chain, and it is short. *)
Lemma chain_exists es gd0 gd r :
  bases_ok es gd0 -> -1 <= r < zlen es -> exists l, chain es gd r l /\ zlen l <= r + 2.
Proof.
  intros Hb Hr. assert (exists n, r < Z.of_nat n) as [n Hn] by (exists (Z.to_nat (r + 1)); lia).
  revert r Hr Hn. induction n as [|n IH]; intros r Hr Hn.
  { exists [r]. split; [|unfold zlen; cbn; lia]. apply (chain_base es gd r null_entry); [left; split; [lia|done]|cbn; lia]. }
  destruct (decide (r = -1)) as [->|Hne]; [exists [-1]; split; [by apply (chain_base es gd (-1) null_entry); [left|]|unfold zlen; cbn; lia]|].
  destruct (lookup_lt_is_Some_2 es (Z.to_nat r)) as [e He]; [unfold zlen in Hr; lia|].
  assert (entry_at es r e) as Ha by (right; split; [lia|done]). destruct (Hb _ _ He) as [Hbe _].
  destruct (decide (e_base e = r)) as [Eb|Eb]; [exists [r]; split; [by apply (chain_base es gd r e)|unfold zlen; cbn; lia]|].
  destruct (IH (if gd then e_base e else r - 1)) as (l & Hl & Hlen); [destruct gd; lia..|].
  exists (r :: l). split; [by eapply chain_next|]. rewrite zlen_cons. destruct gd; lia.
Qed.

(** The last revision of a chain is its own base. *)
Lemma chain_last es gd gd' r l b : chain es gd r (l ++ [b]) -> chain es gd' b [b].
Proof.
  intros H. remember (l ++ [b]) as l' eqn:E. revert l E. induction H as [r e He Hb|r e l' He Hb H IH]; intros l E.
  - destruct l as [|x l]; [|by destruct l]. injection E as <-. by eapply chain_base.
  - destruct l as [|x l]; [injection E as <- ->; inversion H|]. injection E as <- ->. by eapply IH.
Qed.

(** Without general deltas a chain ends at the base of its first revision. *)
Lemma chain_noted_base es r e :
  bases_ok es false -> 0 <= r -> es !! Z.to_nat r = Some e -> exists l, chain es false r (l ++ [e_base e]).
Proof.
  intros Hb Hr. remember (Z.to_nat r) as n eqn:En. revert r e Hr En. induction n as [|n IH]; intros r e Hr En He.
  - exists []. destruct (Hb _ _ He) as [Hbe _]. assert (e_base e = r) as -> by lia. by apply (chain_base _ _ _ e); [right; rewrite <- En|lia].
  - assert (entry_at es r e) as Ha by (right; rewrite <- En; done). destruct (decide (e_base e = r)) as [Eb|Eb].
    + exists []. rewrite Eb. by apply (chain_base _ _ _ e).
    + destruct (Hb _ _ He) as [_ [Hs|(j & e' & [= <-] & He' & Ee)]]; [done|lia|]. destruct (IH (r - 1) e') as [l Hl]; [lia|lia|done|].
      exists (r :: l). rewrite Ee. cbn [app]. by apply (chain_next _ _ _ e).
Qed.

(** Following the bases leads to the end of the chain. *)
Lemma bases_end es gd r c b :
  bases_ok es gd -> -1 <= r < zlen es -> chain es true r (c ++ [b]) -> exists l, chain es gd r (l ++ [b]).
Proof.
  intros Hb Hr Hc. destruct gd; [by exists c|]. destruct (decide (r = -1)) as [->|Hne].
  { exists []. assert (chain es true (-1) [-1]) as H by (by apply (chain_base _ _ _ null_entry); [left|]).
    pose proof (chain_det _ _ _ _ _ Hc H) as E. apply (app_inj_tail c [] b (-1)) in E as [_ ->]. by apply (chain_base _ _ _ null_entry); [left|]. }
  destruct (lookup_lt_is_Some_2 es (Z.to_nat r)) as [e He]; [unfold zlen in Hr; lia|].
  assert (entry_at es r e) as Ha by (right; split; [lia|done]). destruct (chain_noted_base es r e Hb ltac:(lia) He) as [l Hl].
  exists l. assert (b = e_base e) as ->; [|done]. pose proof (chain_last _ _ true _ _ _ Hl) as Hend.
  assert (chain es true r (if decide (e_base e = r) then [r] else [r; e_base e])) as H.
  { case_decide; [by apply (chain_base _ _ _ e)|]. by apply (chain_next _ _ _ e). }
  pose proof (chain_det _ _ _ _ _ Hc H) as E. case_decide as Eb.
  - apply (app_inj_tail c [] b r) in E as [_ ->]. done.
  - by apply (app_inj_tail c [r] b (e_base e)) in E as [_ ->].
Qed.

Section calls.
Context (o : indexobj) (es : list entry) (gd : bool) (Hrep : rep o es).

Lemma chain_entry g r l : chain es g r l -> exists e, entry_at es r e /\ index_getitem o r = Ok e.
Proof using Hrep. destruct 1 as [r e He _|r e l He _ _]; exists e; (split; [done|by apply (entry_at_get o es)]). Qed.

Lemma chainbase_loop_ok r l fuel :
  chain es true r l -> (length l <= fuel)%nat ->
  exists l' b, l = l' ++ [b] /\ chainbase_loop fuel o r = Ok b /\ chain es true b [b].
Proof using Hrep.
  intros H. revert fuel. induction H as [r e He Hb|r e l He Hb Hl IH]; intros [|fuel] Hf; cbn in Hf; try lia;
    cbn [chainbase_loop]; rewrite (entry_at_get o es _ _ Hrep He); cbn [rbind].
  - rewrite decide_False by tauto. exists [], r. split_and!; [done|done|]. by eapply chain_base.
  - rewrite decide_True by done. destruct (IH fuel ltac:(lia)) as (l' & b & -> & E & Hc). exists (r :: l'), b. by split_and!.
Qed.

Definition info_of (r : Z) (t : Z * Z) : Prop :=
  exists l, chain es gd r l /\ t = (zlen l - 1, zsum (map (complen_at es) l)).

Lemma chaininfo_loop_ok r l e fuel cache clen size :
  chain es gd r l -> entry_at es r e -> (forall r t, cache !! r = Some t -> info_of r t) -> (length l <= fuel)%nat ->
  chaininfo_loop fuel o gd cache r e clen size = Ok (clen + (zlen l - 1), size + zsum (map (complen_at es) l)).
Proof using Hrep.
  intros H He Hc. revert e He fuel clen size. induction H as [r e' He' Hb|r e' l He' Hb Hl IH]; intros e He [|fuel] clen size Hf; cbn in Hf; try lia;
    pose proof (entry_at_det _ _ _ _ He He') as ->; cbn [chaininfo_loop].
  - rewrite decide_False by (intros Hn; by apply Hn). cbn [map zsum foldr]. rewrite (entry_complen _ _ _ He'), zlen_cons. change (zlen []) with 0. do 2 f_equal; lia.
  - rewrite decide_True by congruence. cbn [map zsum foldr]. rewrite (entry_complen _ _ _ He'), zlen_cons.
    fold (zsum (map (complen_at es) l)). destruct (cache !! _) as [t|] eqn:Ec.
    + destruct (Hc _ _ Ec) as (l' & Hl' & ->). pose proof (chain_det _ _ _ _ _ Hl Hl') as <-. cbn. do 2 f_equal; lia.
    + destruct (chain_entry _ _ _ Hl) as (e2 & He2 & ->). cbn [rbind]. rewrite (IH e2 He2) by lia. do 2 f_equal; lia.
Qed.

(** The chain that the loop of [_deltachain] has seen. *)
Definition stops (stop : option Z) (l : list Z) (it : Z) (pre : list Z) : Prop :=
  match stop with
  | Some stop => if decide (stop ∈ l) then it = stop /\ pre = above stop l else l = pre ++ [it] /\ it ≠ stop
  | None => l = pre ++ [it]
  end.

Lemma stops_cons stop r l it pre : Some r ≠ stop -> stops stop l it pre -> stops stop (r :: l) it (r :: pre).
Proof.
  unfold stops. destruct stop as [stop|]; [|by intros _ ->]. intros Hr. assert (r ≠ stop) as Hne by congruence. case_decide as Hin.
  - intros [-> ->]. rewrite decide_True by by right. cbn. by rewrite decide_False.
  - intros [-> ?]. by rewrite decide_False by set_solver.
Qed.

Lemma deltachain_loop_ok r l e fuel stop acc :
  chain es gd r l -> entry_at es r e -> (length l <= fuel)%nat ->
  exists it pre, deltachain_loop fuel o gd stop r e acc = Ok (it, acc ++ pre) /\ stops stop l it pre.
Proof using Hrep.
  intros H He. revert e He fuel acc. induction H as [r e' He' Hb|r e' l He' Hb Hl IH]; intros e He [|fuel] acc Hf; cbn in Hf; try lia;
    pose proof (entry_at_det _ _ _ _ He He') as ->; cbn [deltachain_loop].
  - rewrite decide_False by (intros [Hn _]; by apply Hn). exists r, []. rewrite app_nil_r. split; [done|]. unfold stops.
    destruct stop as [stop|]; [|done]. case_decide as Hin.
    + apply list_elem_of_singleton in Hin as ->. cbn. by rewrite decide_True.
    + split; [done|]. intros ->. apply Hin. left.
  - destruct (decide (Some r = stop)) as [<-|Hs].
    + rewrite decide_False by tauto. exists r, []. rewrite app_nil_r. split; [done|]. unfold stops.
      rewrite decide_True by left. cbn. by rewrite decide_True.
    + rewrite decide_True by (split; [congruence|done]). destruct (chain_entry _ _ _ Hl) as (e2 & He2 & ->). cbn [rbind].
      destruct (IH e2 He2 fuel (acc ++ [r])) as (it & pre & -> & Hst); [lia|]. exists it, (r :: pre). rewrite <- app_assoc. split; [done|].
      by apply stops_cons.
Qed.

(** ** The caches *)

Record ok (s : chains) : Prop := {
  ok_index : c_index s = o;
  ok_gd : c_generaldelta s = gd;
  ok_base : exists l, LruCache.repr (c_chainbasecache s) l /\ forall r b, (r, b) ∈ l -> exists c, chain es gd r (c ++ [b]);
  ok_info : forall r t, c_chaininfocache s !! r = Some t -> info_of r t
}.

Lemma assoc_elem (r b : Z) l : LruCache.assoc r l = Some b -> (r, b) ∈ l.
Proof.
  induction l as [|[k v] l IH]; cbn; [done|]. case_decide as E; [intros [= ->]; subst; left|intros; right; by apply IH].
Qed.

Context (Hbases : bases_ok es gd) (fuel : nat) (Hfuel : (length es < fuel)%nat).

Lemma chain_fuel g r l : -1 <= r < zlen es -> chain es g r l -> (length l <= fuel)%nat.
Proof using Hbases Hfuel.
  intros Hr Hl. destruct (chain_exists es gd g r Hbases Hr) as (l' & Hl' & Hle). pose proof (chain_det _ _ _ _ _ Hl Hl') as ->.
  unfold zlen in *. lia.
Qed.

Lemma chainbase_ok s r :
  ok s -> -1 <= r < zlen es ->
  answers es gd (OBase r) (OutBase (chainbase fuel r s).2) /\ ok (chainbase fuel r s).1.
Proof using Hrep Hbases Hfuel.
  intros Hok Hr. destruct (ok_base s Hok) as (l & Hl & Hb). unfold chainbase.
  destruct (LruCache.get (c_chainbasecache s) r) as [b|] eqn:E.
  - destruct (LruCache.get_repr _ _ r Hl) as [Eg _]. rewrite E in Eg. symmetry in Eg. apply assoc_elem in Eg as (c & Hc)%Hb.
    split; [|done]. by exists c, b.
  - destruct (chain_exists es gd true r Hbases Hr) as (c & Hc & _).
    destruct (chainbase_loop_ok r c fuel Hc (chain_fuel _ _ _ Hr Hc)) as (c' & b & -> & Eb & Hbb).
    destruct (bases_end es gd r c' b Hbases Hr Hc) as [l0 Hl0].
    rewrite (ok_index s Hok), Eb. split; [by exists l0, b|]. split; cbn; [done|apply (ok_gd s Hok)| |apply (ok_info s Hok)].
    eexists. split; [by apply LruCache.setitem_repr|]. intros r' b' Hin.
    assert ((r', b') ∈ (b, b) :: LruCache.remove b l) as [[= -> ->]|Hin']%elem_of_cons.
    { rewrite list_elem_of_lookup in Hin |- *. destruct Hin as [i [Hi _]%lookup_take_Some]. by exists i. }
    + exists []. by apply (chain_last es true gd b []).
    + apply list_elem_of_filter in Hin' as [_ Hin']. by apply Hb.
Qed.

Lemma chaininfo_ok s r :
  ok s -> -1 <= r < zlen es ->
  answers es gd (OInfo r) (OutInfo (chaininfo fuel r s).2) /\ ok (chaininfo fuel r s).1.
Proof using Hrep Hbases Hfuel.
  intros Hok Hr. unfold chaininfo. destruct (c_chaininfocache s !! r) as [t|] eqn:E.
  - destruct (ok_info s Hok _ _ E) as (l & Hl & ->). split; [by exists l|done].
  - destruct (chain_exists es gd gd r Hbases Hr) as (l & Hl & _). destruct (chain_entry _ _ _ Hl) as (e & He & Ee).
    rewrite (ok_index s Hok), (ok_gd s Hok), Ee. cbn [rbind].
    rewrite (chaininfo_loop_ok r l e fuel _ 0 0 Hl He (ok_info s Hok) (chain_fuel _ _ _ Hr Hl)). rewrite !Z.add_0_l.
    split; [by exists l|]. split; cbn; [done|done|apply (ok_base s Hok)|]. intros r' t.
    destruct (decide (r' = r)) as [->|Hne]; [rewrite lookup_insert_eq; intros [= <-]; by exists l|].
    rewrite lookup_insert_ne by done. apply (ok_info s Hok).
Qed.

Lemma deltachain_ok s r stop :
  ok s -> -1 <= r < zlen es -> answers es gd (OChain r stop) (OutChain (deltachain fuel r stop s)).
Proof using Hrep Hbases Hfuel.
  intros Hok Hr. unfold deltachain. destruct (chain_exists es gd gd r Hbases Hr) as (l & Hl & _). destruct (chain_entry _ _ _ Hl) as (e & He & Ee).
  rewrite (ok_index s Hok), (ok_gd s Hok), Ee. cbn [rbind].
  destruct (deltachain_loop_ok r l e fuel stop [] Hl He (chain_fuel _ _ _ Hr Hl)) as (it & pre & -> & Hst). cbn [rbind app].
  unfold stops, answers in *. destruct stop as [stop|].
  - exists l. split; [done|]. case_decide as Hin.
    + destruct Hst as [-> ->]. by rewrite decide_True.
    + destruct Hst as [-> Hne]. rewrite decide_False by congruence. done.
  - exists l. split; [done|]. by rewrite decide_False, Hst by done.
Qed.

Lemma run_ok s ops :
  ok s -> Forall (fun p => -1 <= subject p < zlen es) ops -> Forall2 (answers es gd) ops (run fuel s ops).
Proof using Hrep Hbases Hfuel.
  intros Hok HF. revert s Hok. induction HF as [|p ops Hp HF IH]; intros s Hok; [constructor|]. cbn [run].
  destruct p as [r|r|r stop]; cbn [do_op fst snd subject] in *.
  - destruct (chainbase_ok s r Hok Hp) as [Ha Hok']. constructor; [done|by apply IH].
  - destruct (chaininfo_ok s r Hok Hp) as [Ha Hok']. constructor; [done|by apply IH].
  - constructor; [by apply deltachain_ok|by apply IH].
Qed.

Lemma open_ok : ok (open o gd).
Proof using.
  split; cbn; try done. exists []. split; [exists [], [0%nat]; apply LruCache.inv_new|]. intros r b Hin. by apply not_elem_of_nil in Hin.
Qed.
End calls.

(** [C32] Delta chains: on an index with bases as [_addrevision] writes them (not
    later than their revisions, and without general deltas the base of the chain of
    the revision before), every sequence of [chainbase], [_chaininfo] and
    [_deltachain] calls terminates, with and without general deltas; they agree on
    one chain for each revision: its last element is the base, its length and
    compressed sizes are the chain information, and in ascending order, cut above the
    stop revision when that is met, it is the delta chain, whatever the two caches
    hold from earlier calls. *)
Theorem delta_chain_correct (o : indexobj) (es : list entry) (gd : bool) (ops : list op) :
  rep o es -> bases_ok es gd -> Forall (fun p => -1 <= subject p < zlen es) ops ->
  Forall2 (answers es gd) ops (run (S (length es)) (open o gd) ops).
Proof. intros Hr Hb HF. apply (run_ok o es gd Hr Hb); [lia|apply open_ok|done]. Qed.

(** The same texts with general deltas and without. *)
Definition sample (gd : bool) : list entry :=
  [Entry 0 5 0 0 0 (-1) (-1) []; Entry 0 2 0 0 0 (-1) (-1) []; Entry 0 3 0 (if gd then 1 else 0) 0 (-1) (-1) []; Entry 0 7 0 (if gd then 1 else 3) 0 (-1) (-1) []].

Lemma delta_chain_correct_witness :
  let ops := [OInfo 2; OBase 2; OBase 3; OInfo 3; OChain 2 None; OChain 3 (Some 1)] in
  Forall2 (answers (sample true) true) ops (run 5 (open (IndexObj [] 0 (sample true) None) true) ops) /\
  Forall2 (answers (sample false) false) ops (run 5 (open (IndexObj [] 0 (sample false) None) false) ops).
Proof.
  split; (apply (delta_chain_correct (IndexObj [] 0 (sample _) None) (sample _)); [| |repeat (apply Forall_cons; split; [vm_compute; intuition discriminate|]); constructor]).
  1, 3: split; [vm_compute; discriminate|]; exists []; split; [reflexivity|]; split; [reflexivity|]; intros i e Hi; rewrite lookup_nil in Hi; discriminate.
  - intros i e Hi. do 4 (destruct i as [|i]; [injection Hi as <-; cbn; split; [lia|discriminate]|]). discriminate Hi.
  - intros i e Hi. do 4 (destruct i as [|i]; [injection Hi as <-; split; [cbn; lia|intros _; first [left; reflexivity|right; eexists _, _; split; [reflexivity|split; reflexivity]]]|]).
    discriminate Hi.
Defined.

(** On an index with other bases, which no revlog without general deltas has, the chain
    ends at the first revision that is its own base and [chainbase] goes on further. *)
Example chains_of_other_bases :
  let o := IndexObj [] 0 [Entry 0 5 0 0 0 (-1) (-1) []; Entry 0 2 0 1 0 (-1) (-1) []; Entry 0 3 0 0 0 (-1) (-1) []] None in
  run 9 (open o false) [OBase 2; OChain 2 None] = [OutBase (Ok 0); OutChain (Ok ([1; 2], false))].
Proof. vm_compute. reflexivity. Qed.
End DeltaChain.
