(* ===== verification/StripPoint.v ===== *)
(** * Where to cut a revlog ([getstrippoint] of revlog.py)

    The revisions from some link revision on are to be removed.  [getstrippoint]
    walks from the tip down and keeps the frontier of the walk with the link
    revisions that are still to be met; it stops when none is left. *)

From S2P Require Import Prelude Dag Lines Struct IndexFile.

Module StripPoint.
Import IndexFile.

(** The variables of the walk. *)
Record walk := Walk {
  strippoint : Z; heads : gmap Z Z; futurelargelinkrevs : gset Z; brokenrevs : gset Z
}.

(** [linkrev] and [parentrevs] *)
Definition linkrev (o : indexobj) (rev : Z) : res Z := let* e := index_getitem o rev in Ok (e_link e).
Definition parentrevs (o : indexobj) (rev : Z) : res (list Z) := let* e := index_getitem o rev in Ok [e_p1 e; e_p2 e].

(** A revision joins the frontier. *)
Definition add_head (minlink rev link : Z) (w : walk) : walk :=
  Walk (strippoint w) (<[rev := link]> (heads w))
    (if decide (link >= minlink) then {[link]} ∪ futurelargelinkrevs w else futurelargelinkrevs w) (brokenrevs w).

(** The loop over the heads of the index. *)
Fixpoint start_heads (o : indexobj) (minlink : Z) (revs : list Z) (w : walk) : res walk :=
  match revs with
  | [] => Ok w
  | head :: revs => let* link := linkrev o head in start_heads o minlink revs (add_head minlink head link w)
  end.

(** The loop over the parents of a revision. *)
Fixpoint add_parents (o : indexobj) (minlink : Z) (ps : list Z) (w : walk) : res walk :=
  match ps with
  | [] => Ok w
  | p :: ps =>
      if decide (p ≠ nullrev) then let* link := linkrev o p in add_parents o minlink ps (add_head minlink p link w)
      else add_parents o minlink ps w
  end.

(** One turn of the walk. *)
Definition walk_step (o : indexobj) (minlink : Z) (w : walk) : res walk :=
  let sp := strippoint w - 1 in
  match heads w !! sp with
  | None => Err KeyError
  | Some link =>
      let hs := delete sp (heads w) in
      let* w :=
        if decide (link < minlink) then Ok (Walk sp hs (futurelargelinkrevs w) ({[sp]} ∪ brokenrevs w))
        else if decide (link ∈ futurelargelinkrevs w) then Ok (Walk sp hs (futurelargelinkrevs w ∖ {[link]}) (brokenrevs w))
        else Err KeyError in
      let* ps := parentrevs o sp in
      add_parents o minlink ps w
  end.

Fixpoint walk_loop (fuel : nat) (o : indexobj) (minlink : Z) (w : walk) : res walk :=
  match fuel with
  | O => Err OutOfFuel
  | S fuel =>
      if decide (futurelargelinkrevs w = ∅) then Ok w
      else let* w := walk_step o minlink w in walk_loop fuel o minlink w
  end.

(** [getstrippoint]; [headrevs] is what the index returns for its heads. *)
Definition getstrippoint (o : indexobj) (headrevs : list Z) (minlink : Z) : res (Z * gset Z) :=
  let* w := start_heads o minlink headrevs (Walk (len o - 1) ∅ ∅ ∅) in
  let* w := walk_loop (Z.to_nat (len o)) o minlink w in
  Ok (strippoint w, brokenrevs w).

(** ** The graph of the index *)

Definition link_at (es : list entry) (r : Z) : Z := match es !! Z.to_nat r with Some e => e_link e | None => -1 end.
Definition parents_at (es : list entry) (r : Z) : list Z :=
  match es !! Z.to_nat r with Some e => [e_p1 e; e_p2 e] | None => [] end.
Definition is_rev (es : list entry) (r : Z) : Prop := 0 <= r < zlen es.

(** [p] is a parent of the revision [r]. *)
Definition edge (es : list entry) (p r : Z) : Prop := is_rev es r /\ p ∈ parents_at es r /\ p ≠ nullrev.

(** What the documentation of the index says of its heads. *)
Definition heads_of (es : list entry) (headrevs : list Z) : Prop :=
  forall r, r ∈ headrevs <-> is_rev es r /\ ~ exists c, edge es r c.

(** The link revisions do not decrease from parents to children, and those to be
    removed are distinct. *)
Definition links_sorted (es : list entry) (minlink : Z) : Prop :=
  (forall p r, edge es p r -> link_at es p <= link_at es r) /\
  (forall r r', is_rev es r -> is_rev es r' -> link_at es r = link_at es r' -> minlink <= link_at es r -> r = r').

Definition mk (p link : Z) : entry := Entry 0 0 0 0 link p (-1) [].

Example strip_example :
  let o := IndexObj [] 0 [mk (-1) 0; mk 0 5; mk 0 3; mk 2 7] None in
  getstrippoint o [1; 3] 5 = Ok (1, {[2]}) /\ getstrippoint o [1; 3] 6 = Ok (3, ∅) /\ getstrippoint o [1; 3] 9 = Ok (4, ∅).
Proof. vm_compute. done. Qed.

(** Two revisions with one link revision end the walk too early. *)
Lemma strip_point_shared_link :
  let o := IndexObj [] 0 [mk (-1) 0; mk 0 5; mk 0 5] None in getstrippoint o [1; 2] 5 = Ok (2, ∅).
Proof. vm_compute. reflexivity. Qed.

Section walk_lemmas.
Context (o : indexobj) (es : list entry) (minlink : Z) (Hrep : rep o es).
Context (Hok : Revlog.index_ok (map (fun e => (e_p1 e, e_p2 e)) es)).

Lemma getitem_at r : is_rev es r -> exists e, index_getitem o r = Ok e /\ es !! Z.to_nat r = Some e.
Proof using Hrep.
  intros Hr. unfold is_rev, zlen in Hr. destruct (lookup_lt_is_Some_2 es (Z.to_nat r)) as [e He]; [lia|]. exists e. split; [|done].
  rewrite (rep_get o es r Hrep). unfold spec_fix. rewrite (decide_False (P := r < 0)) by lia.
  rewrite decide_True by (unfold zlen; lia). cbn [rbind]. unfold getitem. by rewrite lookup_app_l, He by lia.
Qed.

Lemma linkrev_at r : is_rev es r -> linkrev o r = Ok (link_at es r).
Proof using Hrep. intros Hr. destruct (getitem_at r Hr) as (e & E & He). unfold linkrev, link_at. by rewrite E, He. Qed.

Lemma parentrevs_at r : is_rev es r -> parentrevs o r = Ok (parents_at es r).
Proof using Hrep. intros Hr. destruct (getitem_at r Hr) as (e & E & He). unfold parentrevs, parents_at. by rewrite E, He. Qed.

Lemma edge_below p r : edge es p r -> 0 <= p < r.
Proof using Hok.
  intros (Hr & Hp & Hn). unfold parents_at in Hp. destruct (es !! Z.to_nat r) as [e|] eqn:He; [|by apply not_elem_of_nil in Hp].
  destruct (Hok (Z.to_nat r) (e_p1 e, e_p2 e)) as [H1 H2]; [by rewrite list_lookup_fmap, He|]. cbn in H1, H2. unfold is_rev in Hr.
  apply elem_of_cons in Hp as [->|Hp%list_elem_of_singleton]; [|subst p]; [destruct H1|destruct H2]; done || lia.
Qed.

Lemma edge_rev p r : edge es p r -> is_rev es p.
Proof using Hok. intros He. pose proof (edge_below _ _ He). destruct He as [Hr _]. unfold is_rev in *. lia. Qed.

(** [w] has visited the revisions from its strip point on, and its frontier is
    the set [F]. *)
Record inv (w : walk) (F : Z -> Prop) : Prop := {
  inv_revs : forall r, F r -> is_rev es r;
  inv_heads : forall r l, heads w !! r = Some l <-> F r /\ l = link_at es r;
  inv_future : forall l, l ∈ futurelargelinkrevs w <-> exists r, F r /\ link_at es r = l /\ minlink <= l
}.

Lemma inv_ext w F F' : (forall r, F r <-> F' r) -> inv w F -> inv w F'.
Proof using.
  intros HF [I1 I2 I3]. split; [intros r; rewrite <- HF; apply I1|intros r l; rewrite <- HF; apply I2|].
  intros l. rewrite I3. split; intros (r & Hr & H); exists r; (split; [by apply HF|done]).
Qed.

Lemma add_head_inv w F r :
  inv w F -> is_rev es r -> inv (add_head minlink r (link_at es r) w) (fun x => x = r \/ F x).
Proof using.
  intros [I1 I2 I3] Hr. split; cbn.
  - intros x [->|Hx]; [done|by apply I1].
  - intros x l. destruct (decide (x = r)) as [->|Hne].
    + rewrite lookup_insert_eq. split; [intros [= <-]; split; [by left|done]|by intros [_ ->]].
    + rewrite lookup_insert_ne, I2 by done. split; [intros [? ?]; split; [by right|done]|intros [[?|?] ?]; done].
  - intros l. assert (l ∈ (if decide (link_at es r >= minlink) then {[link_at es r]} ∪ futurelargelinkrevs w else futurelargelinkrevs w) <->
                      (l = link_at es r /\ minlink <= l) \/ l ∈ futurelargelinkrevs w) as ->.
    { case_decide; rewrite ?elem_of_union, ?elem_of_singleton; split; [intros [->|]; [left; split; [done|lia]|by right]|tauto|by right|].
      intros [[-> ?]|?]; [lia|done]. }
    rewrite I3. split.
    + intros [[-> Hl]|(x & Hx & Hl & ?)]; [exists r; split_and!; [by left|done|done]|exists x; split_and!; [by right|done|done]].
    + intros (x & [->|Hx] & Hl & ?); [left; split; [by symmetry|done]|right; by exists x].
Qed.

Lemma start_heads_inv revs w F :
  inv w F -> (forall r, r ∈ revs -> is_rev es r) ->
  exists w', start_heads o minlink revs w = Ok w' /\ inv w' (fun x => x ∈ revs \/ F x) /\
    strippoint w' = strippoint w /\ brokenrevs w' = brokenrevs w.
Proof using Hrep.
  revert w F. induction revs as [|r revs IH]; intros w F I Hr; cbn [start_heads].
  - exists w. split_and!; try done. eapply inv_ext; [|exact I]. intros x. rewrite elem_of_nil. tauto.
  - rewrite linkrev_at by (apply Hr; left). cbn [rbind].
    destruct (IH _ _ (add_head_inv w F r I ltac:(apply Hr; left))) as (w' & -> & I' & Es & Eb); [intros x Hx; apply Hr; by right|].
    exists w'. split_and!; try done. eapply inv_ext; [|exact I']. intros x. rewrite elem_of_cons. tauto.
Qed.

Lemma add_parents_inv ps w F :
  inv w F -> (forall r, r ∈ ps -> r ≠ nullrev -> is_rev es r) ->
  exists w', add_parents o minlink ps w = Ok w' /\ inv w' (fun x => (x ∈ ps /\ x ≠ nullrev) \/ F x) /\
    strippoint w' = strippoint w /\ brokenrevs w' = brokenrevs w.
Proof using Hrep.
  revert w F. induction ps as [|r ps IH]; intros w F I Hr; cbn [add_parents].
  - exists w. split_and!; try done. eapply inv_ext; [|exact I]. intros x. rewrite elem_of_nil. tauto.
  - destruct (decide (r ≠ nullrev)) as [Hn|Hn].
    + rewrite linkrev_at by (apply Hr; [left|done]). cbn [rbind].
      destruct (IH _ _ (add_head_inv w F r I ltac:(by apply Hr; [left|]))) as (w' & -> & I' & Es & Eb); [intros x Hx; apply Hr; by right|].
      exists w'. split_and!; try done. eapply inv_ext; [|exact I']. intros x. rewrite elem_of_cons. naive_solver.
    + destruct (IH w F I) as (w' & -> & I' & Es & Eb); [intros x Hx; apply Hr; by right|].
      exists w'. split_and!; try done. eapply inv_ext; [|exact I']. intros x. rewrite elem_of_cons. naive_solver.
Qed.

Context (headrevs : list Z) (Hheads : heads_of es headrevs) (Hlinks : links_sorted es minlink).

(** The frontier when the revisions from [sp] on are visited. *)
Definition frontier (sp : Z) (r : Z) : Prop := r < sp /\ (r ∈ headrevs \/ exists c, sp <= c /\ edge es r c).

(** A child, if there is one. *)
Lemma child_dec r : is_rev es r -> (exists c, edge es r c) \/ r ∈ headrevs.
Proof using Hheads.
  intros Hr. destruct (decide (Exists (fun c => r ∈ parents_at es c) (zrange 0 (zlen es)))) as [He|He].
  - left. apply Exists_exists in He as (c & Hc1%elem_of_zrange & Hc2). exists c. split_and!; [done|done|]. unfold is_rev, nullrev in *. lia.
  - right. apply Hheads. split; [done|]. intros (c & Hc1 & Hc2 & _). apply He, Exists_exists. exists c. split; [by apply elem_of_zrange|done].
Qed.

(** Every revision not visited is below a revision of the frontier with a link
    revision at least as great. *)
Lemma frontier_covers sp r :
  is_rev es r -> r < sp -> sp <= zlen es -> exists f, frontier sp f /\ link_at es r <= link_at es f.
Proof using Hheads Hlinks Hok.
  intros Hr Hlt Hsp. remember (Z.to_nat (sp - r)) as n eqn:En. revert r Hr Hlt En. induction n as [n IH] using lt_wf_ind. intros r Hr Hlt ->.
  destruct (child_dec r Hr) as [(c & Hc')|Hin]; [|exists r; split; [by split; [|left]|lia]].
  pose proof (edge_below _ _ Hc') as Hb. destruct Hlinks as [Hmono _]. pose proof (Hmono _ _ Hc') as Hl.
  destruct (decide (sp <= c)) as [Hge|Hge]; [exists r; split; [split; [done|right; by exists c]|lia]|].
  destruct (IH (Z.to_nat (sp - c))) with (r := c) as (f & Hf & Hle); [lia|apply Hc'|lia|done|]. exists f. split; [done|lia].
Qed.

(** The strip point so far: below it nothing was visited, it is the last large
    revision met, and the others visited are broken. *)
Record progress (w : walk) : Prop := {
  pr_inv : inv w (frontier (strippoint w));
  pr_range : 0 <= strippoint w <= zlen es;
  pr_last : futurelargelinkrevs w = ∅ -> strippoint w = zlen es \/ minlink <= link_at es (strippoint w);
  pr_broken : forall r, r ∈ brokenrevs w <-> strippoint w <= r < zlen es /\ link_at es r < minlink
}.

Lemma frontier_next sp r :
  1 <= sp <= zlen es ->
  frontier (sp - 1) r <-> (r ∈ parents_at es (sp - 1) /\ r ≠ nullrev) \/ (frontier sp r /\ r ≠ sp - 1).
Proof using Hok.
  intros Hsp. unfold frontier. split.
  - intros [Hlt [Hin|(c & Hc & He)]]; [right; split; [split; [lia|by left]|lia]|].
    destruct (decide (c = sp - 1)) as [->|Hne]; [left; by destruct He as (_ & ? & ?)|right].
    split; [split; [lia|right; exists c; split; [lia|done]]|lia].
  - assert (forall p, p ∈ parents_at es (sp - 1) /\ p ≠ nullrev -> edge es p (sp - 1)) as Hp.
    { intros p [Hp Hn]. split; [unfold is_rev; lia|done]. }
    intros [Hr|[[Hlt Hr] Hne]].
    + pose proof (edge_below _ _ (Hp r Hr)). split; [lia|right]. exists (sp - 1). split; [lia|by apply Hp].
    + split; [lia|]. destruct Hr as [|(c & Hc & He)]; [by left|right; exists c; split; [lia|done]].
Qed.

(** The next revision to visit is in the frontier. *)
Lemma top_in_frontier sp : 1 <= sp <= zlen es -> frontier sp (sp - 1).
Proof using Hheads Hok.
  intros Hsp. split; [lia|]. destruct (child_dec (sp - 1)) as [(c & Hc)|]; [unfold is_rev; lia|right|by left].
  exists c. split; [pose proof (edge_below _ _ Hc); lia|done].
Qed.

(** A revision of the frontier is taken out. *)
Lemma pop_inv w F sp :
  inv w F -> F sp ->
  let hs := delete sp (heads w) in
  exists w1,
    (if decide (link_at es sp < minlink) then Ok (Walk sp hs (futurelargelinkrevs w) ({[sp]} ∪ brokenrevs w))
     else if decide (link_at es sp ∈ futurelargelinkrevs w) then Ok (Walk sp hs (futurelargelinkrevs w ∖ {[link_at es sp]}) (brokenrevs w))
     else Err KeyError) = Ok w1 /\
    inv w1 (fun r => F r /\ r ≠ sp) /\ strippoint w1 = sp /\
    forall r, r ∈ brokenrevs w1 <-> (r = sp /\ link_at es sp < minlink) \/ r ∈ brokenrevs w.
Proof using Hlinks.
  intros I Hf hs. assert (forall r l, hs !! r = Some l <-> (F r /\ r ≠ sp) /\ l = link_at es r) as Hhs.
  { intros r l. unfold hs. rewrite lookup_delete_Some, (inv_heads _ _ I). naive_solver. }
  case_decide as Hlink.
  - eexists. split; [done|]. split; [|split; [done|]].
    + split; cbn; [intros r [Hfr _]; by apply (inv_revs _ _ I)|exact Hhs|]. intros l. rewrite (inv_future _ _ I). split.
      * intros (r & Hfr & El & Hle). exists r. split_and!; [done| |done|done]. intros ->. lia.
      * intros (r & [Hfr _] & El & Hle). by exists r.
    + intros r. cbn. rewrite elem_of_union, elem_of_singleton. naive_solver.
  - assert (link_at es sp ∈ futurelargelinkrevs w) as Hin by (apply (inv_future _ _ I); exists sp; split_and!; [done|done|lia]).
    rewrite decide_True by done. eexists. split; [done|]. split; [|split; [done|]].
    + split; cbn; [intros r [Hfr _]; by apply (inv_revs _ _ I)|exact Hhs|]. intros l.
      rewrite elem_of_difference, elem_of_singleton, (inv_future _ _ I). split.
      * intros [(r & Hfr & El & Hle) Hnl]. exists r. split_and!; [done| |done|done]. intros ->. by apply Hnl.
      * intros (r & [Hfr Hnr] & El & Hle). split; [by exists r|]. intros ->. apply Hnr.
        destruct Hlinks as [_ Hinj]. apply Hinj; [by apply (inv_revs _ _ I)|by apply (inv_revs _ _ I)|done|lia].
    + intros r. cbn. split; [by right|intros [[_ ?]|?]; [lia|done]].
Qed.

Lemma walk_step_progress w :
  progress w -> futurelargelinkrevs w ≠ ∅ ->
  exists w', walk_step o minlink w = Ok w' /\ progress w' /\ strippoint w' = strippoint w - 1.
Proof using Hrep Hok Hheads Hlinks.
  intros [I Hr Hl Hb] Hne. apply set_choose_L in Hne as [l0 (r0 & Hr0 & <- & Hl0)%(inv_future _ _ I)].
  assert (1 <= strippoint w) as H1.
  { pose proof (inv_revs _ _ I _ Hr0) as Hrev. destruct Hr0 as [Hlt _]. unfold is_rev in Hrev. lia. }
  pose proof (top_in_frontier (strippoint w) ltac:(lia)) as Hf. set (sp := strippoint w - 1) in *.
  assert (is_rev es sp) as Hsp by (unfold is_rev; lia).
  assert (heads w !! sp = Some (link_at es sp)) as Eh by (by apply (inv_heads _ _ I)).
  unfold walk_step. fold sp. rewrite Eh. destruct (pop_inv w _ sp I Hf) as (w1 & -> & I1 & Es1 & Eb1). cbn [rbind].
  rewrite parentrevs_at by done. cbn [rbind].
  destruct (add_parents_inv (parents_at es sp) w1 _ I1) as (w' & E' & I' & Es' & Eb').
  { intros r Hin Hn. by eapply (edge_rev r sp). }
  exists w'. split; [done|]. rewrite Es', Es1. split; [|done]. split; rewrite ?Es', ?Es1, ?Eb'.
  - eapply inv_ext; [|exact I']. intros r. symmetry. apply frontier_next. lia.
  - unfold is_rev in Hsp. lia.
  - (* the large revision that was there is still there, or it is the one visited *)
    intros Hempty. right. destruct (decide (minlink <= link_at es sp)) as [|Hsmall]; [done|exfalso].
    assert (r0 ≠ sp) by (intros ->; lia).
    assert (link_at es r0 ∈ futurelargelinkrevs w') as Hin; [|rewrite Hempty in Hin; by apply not_elem_of_empty in Hin].
    apply (inv_future _ _ I'). exists r0. split_and!; [by right|done|done].
  - intros r. rewrite Eb1, Hb. assert (sp <= r < zlen es <-> r = sp \/ strippoint w <= r < zlen es) as -> by (unfold is_rev in Hsp; lia).
    split; [intros [[-> ?]|[? ?]]; auto|intros [[->|?] ?]; auto].
Qed.

Lemma walk_loop_progress fuel w :
  progress w -> strippoint w < Z.of_nat fuel ->
  exists w', walk_loop fuel o minlink w = Ok w' /\ progress w' /\ futurelargelinkrevs w' = ∅.
Proof using Hrep Hok Hheads Hlinks.
  revert w. induction fuel as [|fuel IH]; intros w Hp Hf; [pose proof (pr_range _ Hp); lia|]. cbn [walk_loop].
  case_decide as He; [by exists w|]. destruct (walk_step_progress w Hp He) as (w1 & -> & Hp1 & Es). cbn [rbind]. apply IH; [done|lia].
Qed.

Lemma strip_point_spec :
  exists sp broken, getstrippoint o headrevs minlink = Ok (sp, broken) /\ 0 <= sp <= zlen es /\
    (sp = zlen es \/ minlink <= link_at es sp) /\
    (forall r, is_rev es r -> minlink <= link_at es r -> sp <= r) /\
    (forall r, r ∈ broken <-> sp <= r < zlen es /\ link_at es r < minlink).
Proof using Hrep Hok Hheads Hlinks.
  unfold getstrippoint. rewrite (rep_len _ _ Hrep), Z.add_simpl_r.
  destruct (start_heads_inv headrevs (Walk (zlen es) ∅ ∅ ∅) (fun _ => False)) as (w & -> & I & Es & Eb).
  { split; cbn; [done|intros r l; rewrite lookup_empty; split; [done|tauto]|intros l; split; [intros []%not_elem_of_empty|intros (? & [] & _)]]. }
  { intros r Hr. by apply Hheads. }
  cbn [rbind strippoint brokenrevs] in *.
  assert (progress w) as Hp.
  { split; rewrite ?Es, ?Eb; [|pose proof (zlen_nonneg es); lia|by left|].
    - eapply inv_ext; [|exact I]. intros r. cbn. unfold frontier. split.
      + intros [Hin|[]]. split; [|by left]. apply Hheads in Hin as [Hin _]. unfold is_rev in Hin. lia.
      + intros [_ [Hin|(c & Hc & He)]]; [by left|]. destruct He as [He _]. unfold is_rev in He. lia.
    - intros r. split; [intros []%not_elem_of_empty|lia]. }
  destruct (walk_loop_progress (Z.to_nat (zlen es + 1)) w Hp) as (w' & -> & [I' Hr' Hl' Hb'] & He); [lia|]. cbn [rbind].
  exists (strippoint w'), (brokenrevs w'). split; [done|]. split; [done|]. split; [by apply Hl'|]. split; [|done].
  intros r Hr Hlink. destruct (decide (strippoint w' <= r)) as [|Hlt]; [done|exfalso].
  destruct (frontier_covers (strippoint w') r Hr) as (f & Hf & Hle); [lia..|].
  assert (link_at es f ∈ futurelargelinkrevs w') as Hin by (apply (inv_future _ _ I'); exists f; split_and!; [done|done|lia]).
  rewrite He in Hin. by apply not_elem_of_empty in Hin.
Qed.
End walk_lemmas.

(** The strip point: when link revisions do not decrease from parents to
    children and those to be removed are distinct, [getstrippoint] terminates and
    returns the first revision whose link revision is to be removed (or the number
    of revisions when there is none), and with it exactly the later revisions
    that are not to be removed. *)
Theorem strip_point_correct (o : indexobj) (es : list entry) (headrevs : list Z) (minlink : Z) :
  rep o es -> Revlog.index_ok (map (fun e => (e_p1 e, e_p2 e)) es) -> heads_of es headrevs -> links_sorted es minlink ->
  exists sp broken, getstrippoint o headrevs minlink = Ok (sp, broken) /\ 0 <= sp <= zlen es /\
    (sp = zlen es \/ minlink <= link_at es sp) /\
    (forall r, is_rev es r -> minlink <= link_at es r -> sp <= r) /\
    (forall r, r ∈ broken <-> sp <= r < zlen es /\ link_at es r < minlink).
Proof. intros Hr Hok Hh Hl. by apply strip_point_spec. Qed.

Definition sample : list entry := [mk (-1) 0; mk 0 5; mk 0 3; mk 2 7].

Lemma sample_cases r : is_rev sample r -> r = 0 \/ r = 1 \/ r = 2 \/ r = 3.
Proof. unfold is_rev. change (zlen sample) with 4. lia. Qed.

Lemma sample_edges p r : edge sample p r -> (p = 0 /\ r = 1) \/ (p = 0 /\ r = 2) \/ (p = 2 /\ r = 3).
Proof.
  intros (Hr & Hp & Hn). apply sample_cases in Hr as [->|[->|[->| ->]]]; vm_compute in Hp;
    repeat (apply elem_of_cons in Hp as [->|Hp]; [try (by destruct Hn); tauto|]); by apply not_elem_of_nil in Hp.
Qed.

Lemma strip_point_correct_witness :
  exists sp broken, getstrippoint (IndexObj [] 0 sample None) [1; 3] 5 = Ok (sp, broken) /\ 0 <= sp <= zlen sample /\
    (sp = zlen sample \/ 5 <= link_at sample sp) /\
    (forall r, is_rev sample r -> 5 <= link_at sample r -> sp <= r) /\
    (forall r, r ∈ broken <-> sp <= r < zlen sample /\ link_at sample r < 5).
Proof.
  apply (strip_point_correct (IndexObj [] 0 sample None) sample [1; 3] 5).
  - split; [vm_compute; discriminate|]. exists []. split; [reflexivity|]. split; [reflexivity|]. intros i e Hi. rewrite lookup_nil in Hi. discriminate.
  - apply Revlog.index_okb_ok. vm_compute. reflexivity.
  - intros r. split.
    + intros Hin. split; [unfold is_rev; change (zlen sample) with 4|intros [c Hc%sample_edges]].
      * apply elem_of_cons in Hin as [->|Hin%list_elem_of_singleton]; lia.
      * apply elem_of_cons in Hin as [->|Hin%list_elem_of_singleton]; lia.
    + intros [Hr Hno]. apply sample_cases in Hr as [->|[->|[->| ->]]]; [exfalso|left|exfalso|right; left]; apply Hno.
      * exists 1. split_and!; [unfold is_rev; change (zlen sample) with 4; lia|left|discriminate].
      * exists 3. split_and!; [unfold is_rev; change (zlen sample) with 4; lia|left|discriminate].
  - split.
    + intros p r He%sample_edges. destruct He as [[-> ->]|[[-> ->]|[-> ->]]]; vm_compute; discriminate.
    + intros r r' Hr Hr'. apply sample_cases in Hr as [->|[->|[->| ->]]]; apply sample_cases in Hr' as [->|[->|[->| ->]]];
        vm_compute; intros; try reflexivity; discriminate.
Defined.
End StripPoint.
