(* ===== verification/PyEscape.v ===== *)
(** * Escaped strings ([escapestr] and [unescapestr] of util.py)

    [codecs.escape_encode] and [codecs.escape_decode] of the Standard Library of
    Python, which util.py calls, and [unescapestr] of parser.py. *)

From S2P Require Import Prelude Lines Struct.

Module PyEscape.

Definition backslash : ascii := "092"%char.
Definition squote : ascii := "039"%char.
Definition dquote : ascii := "034"%char.

(** The lower case digit of a number below 16. *)
Definition hexdigit (n : Z) : ascii := byte (if decide (n < 10) then 48 + n else 87 + n).

(** The value of a digit in base 16, and in base 8. *)
Definition hexval (c : ascii) : option Z :=
  let n := ord c in
  if decide (48 <= n <= 57) then Some (n - 48)
  else if decide (97 <= n <= 102) then Some (n - 87)
  else if decide (65 <= n <= 70) then Some (n - 55)
  else None.
Definition octval (c : ascii) : option Z :=
  if decide (48 <= ord c <= 55) then Some (ord c - 48) else None.

(** What [escape_encode] writes for a character. *)
Definition escape_char (c : ascii) : bytes :=
  let n := ord c in
  if bool_decide (c = squote \/ c = backslash) then [backslash; c]
  else if bool_decide (n = 9) then [backslash; "t"%char]
  else if bool_decide (n = 10) then [backslash; "n"%char]
  else if bool_decide (n = 13) then [backslash; "r"%char]
  else if bool_decide (n < 32 \/ 127 <= n) then [backslash; "x"%char; hexdigit (n / 16); hexdigit (n mod 16)]
  else [c].

(** [util.escapestr] *)
Definition escapestr (s : bytes) : bytes := s ≫= escape_char.

(** The escapes of one character: what they stand for. *)
Definition simple_escape (c : ascii) : option bytes :=
  if bool_decide (c = newline) then Some []
  else if bool_decide (c = backslash \/ c = squote \/ c = dquote) then Some [c]
  else match c with
  | "b"%char => Some [byte 8] | "f"%char => Some [byte 12] | "t"%char => Some [byte 9] | "n"%char => Some [byte 10]
  | "r"%char => Some [byte 13] | "v"%char => Some [byte 11] | "a"%char => Some [byte 7]
  | _ => None
  end.

(** [util.unescapestr]: up to three octal digits, exactly two digits after [x];
    other characters keep their backslash. *)
Fixpoint unescapestr (s : bytes) : res bytes :=
  match s with
  | [] => Ok []
  | c :: s =>
      if bool_decide (c = backslash) then
        match s with
        | [] => Err ValueError
        | e :: s1 =>
            match simple_escape e, octval e with
            | Some out, _ => let* r := unescapestr s1 in Ok (out ++ r)
            | None, Some n =>
                match s1 with
                | d1 :: s2 =>
                    match octval d1 with
                    | Some n1 =>
                        match s2 with
                        | d2 :: s3 =>
                            match octval d2 with
                            | Some n2 => let* r := unescapestr s3 in Ok (byte (n * 64 + n1 * 8 + n2) :: r)
                            | None => let* r := unescapestr s2 in Ok (byte (n * 8 + n1) :: r)
                            end
                        | [] => Ok [byte (n * 8 + n1)]
                        end
                    | None => let* r := unescapestr s1 in Ok (byte n :: r)
                    end
                | [] => Ok [byte n]
                end
            | None, None =>
                if bool_decide (e = "x"%char) then
                  match s1 with
                  | h1 :: h2 :: s2 =>
                      match hexval h1, hexval h2 with
                      | Some n1, Some n2 => let* r := unescapestr s2 in Ok (byte (n1 * 16 + n2) :: r)
                      | _, _ => Err ValueError
                      end
                  | _ => Err ValueError
                  end
                else let* r := unescapestr s1 in Ok (backslash :: e :: r)
            end
        end
      else let* r := unescapestr s in Ok (c :: r)
  end.

(** [unescapestr] of parser.py: the exception becomes a [ParseError] without a
    position. *)
Definition parser_unescapestr (s : bytes) : res bytes :=
  match unescapestr s with Err ValueError => Err (ParseError "invalid escape" None) | r => r end.

(** ** Theorems *)

Lemma unescape_char c r : unescapestr (escape_char c ++ r) = let* x := unescapestr r in Ok (c :: x).
Proof. destruct c as [[] [] [] [] [] [] [] []]; reflexivity. Qed.

Lemma unescape_escape s : unescapestr (escapestr s) = Ok s.
Proof. unfold escapestr. induction s as [|c s IH]; [done|]. cbn [mbind list_bind]. by rewrite unescape_char, IH. Qed.

Lemma simple_escape_length e out : simple_escape e = Some out -> (length out <= 1)%nat.
Proof. destruct e as [[] [] [] [] [] [] [] []]; cbn; intros [= <-]; cbn; lia. Qed.

(** A string is shorter unescaped, and the only exception is [ValueError]. *)
Definition unescaped (s : bytes) (r : res bytes) : Prop :=
  match r with Ok v => (length v <= length s)%nat | Err e => e = ValueError end.

Lemma unescaped_bind s s' out r :
  unescaped s r -> (length out + length s <= length s')%nat -> unescaped s' (let* x := r in Ok (out ++ x)).
Proof. destruct r; cbn; [rewrite length_app; lia|done]. Qed.

Lemma unescape_outcome s : unescaped s (unescapestr s).
Proof.
  remember (length s) as n eqn:Hn. revert s Hn. induction (lt_wf n) as [n _ IH]. intros s ->.
  assert (forall t out, (length t < length s)%nat -> (length out + length t <= length s)%nat ->
    unescaped s (let* x := unescapestr t in Ok (out ++ x))) as Hrec.
  { intros t out Ht Ho. eapply unescaped_bind; [by eapply IH|done]. }
  destruct s as [|c s]; [cbn; lia|]. cbn [unescapestr]. case_bool_decide; [|apply (Hrec s [c]); cbn; lia].
  destruct s as [|e s1]; [done|]. destruct (simple_escape e) as [out|] eqn:Hs.
  { apply Hrec; [cbn; lia|]. apply simple_escape_length in Hs. cbn; lia. }
  destruct (octval e) as [n|].
  - destruct s1 as [|d1 s2]; [cbn; lia|]. destruct (octval d1) as [n1|]; [|apply (Hrec (d1 :: s2) [_]); cbn; lia].
    destruct s2 as [|d2 s3]; [cbn; lia|]. destruct (octval d2); [apply (Hrec s3 [_])|apply (Hrec (d2 :: s3) [_])]; cbn; lia.
  - case_bool_decide; [|apply (Hrec s1 [_; _]); cbn; lia]. destruct s1 as [|h1 [|h2 s2]]; [done..|].
    destruct (hexval h1), (hexval h2); [|done..]. apply (Hrec s2 [_]); cbn; lia.
Qed.

(** Printable, and no quote that is not escaped. *)
Lemma escape_printable s : Forall (fun c => 32 <= ord c < 127) (escapestr s).
Proof.
  unfold escapestr. induction s as [|c s IH]; cbn [mbind list_bind]; [constructor|]. apply Forall_app. split; [|done].
  clear. assert (forallb (fun c => bool_decide (32 <= ord c < 127)) (escape_char c) = true) as H.
  { destruct c as [[] [] [] [] [] [] [] []]; reflexivity. }
  apply Forall_forall. intros x Hx. rewrite forallb_forall in H. by eapply bool_decide_eq_true, H, list_elem_of_In.
Qed.

Example unescape_examples :
  unescapestr (bs "a\101\x42\q") = Ok (bs "aAB\q") /\ unescapestr (bs "\x4") = Err ValueError /\ unescapestr [backslash] = Err ValueError.
Proof. done. Qed.
End PyEscape.
