(* ===== verification/Pratt.v ===== *)
(** * The operator precedence parser (class [parser] of parser.py)

    A top-down parser driven by a table: for each type of token its binding
    strength and what it means as a primary, a prefix, an infix or a suffix.
    The declarative side is a grammar in which every phrase carries the binding
    strengths on its left spine and on its right edge. *)

From S2P Require Import Prelude Lines.

Module Pratt.

(** ** Trees and tokens *)

(** A node of a parse tree: a tuple of a label and its members, a string, or
    [None]. *)
Inductive tree :=
  | TNone
  | TStr (s : bytes)
  | TNode (op : string) (l : list tree).

(** [(type, value, pos)] *)
Record token := Token { t_type : string; t_value : option bytes; t_pos : Z }.

(** An action: label, binding strength of the operand, closing token. *)
Record action := Action { a_label : string; a_bind : Z; a_close : option string }.

(** A row of the table: binding strength, primary, prefix, infix, suffix. *)
Record element := Element {
  el_bind : Z; el_primary : option string; el_prefix : option action;
  el_infix : option action; el_suffix : option string
}.

Notation elements := (string -> option element).

Definition value_tree (v : option bytes) : tree := match v with Some s => TStr s | None => TNone end.

(** ** The parser *)

(** [current] and what the tokenizer will give: tokens, or an exception. *)
Record pstate := PState { p_current : option token; p_iter : list (res token) }.

Section parser.
Context (E : elements).

(** [self._elements[token]] *)
Definition lookup_el (ty : string) : res element :=
  match E ty with Some el => Ok el | None => Err KeyError end.

(** [_advance] *)
Definition advance (st : pstate) : res (option token * pstate) :=
  match p_iter st with
  | [] => Ok (p_current st, PState None [])
  | Ok t :: it => Ok (p_current st, PState (Some t) it)
  | Err e :: _ => Err e
  end.

(** [self.current[0]]; indexing [None] is a [TypeError]. *)
Definition current_type (st : pstate) : res string :=
  match p_current st with Some t => Ok (t_type t) | None => Err TypeError end.

(** [_advance], unpacked *)
Definition advance_token (st : pstate) : res (token * pstate) :=
  let* (t, st) := advance st in
  match t with Some t => Ok (t, st) | None => Err TypeError end.

(** [_hasnewterm] *)
Definition starts_term (el : element) : bool :=
  match el_primary el, el_prefix el with None, None => false | _, _ => true end.
Definition hasnewterm (st : pstate) : res bool :=
  let* ty := current_type st in
  let* el := lookup_el ty in
  Ok (starts_term el).

(** [x and not (y and self._hasnewterm())], which asks for the next token only
    when both are there. *)
Definition unambiguous {A B} (x : option A) (y : option B) (st : pstate) : res bool :=
  match x, y with
  | None, _ => Ok false
  | Some _, None => Ok true
  | Some _, Some _ => let* b := hasnewterm st in Ok (negb b)
  end.

(** [_match] *)
Definition match_close (m : string) (st : pstate) : res pstate :=
  match p_current st with
  | None => Err TypeError
  | Some t =>
      if decide (t_type t = m) then let* (_, st) := advance st in Ok st
      else Err (ParseError "unexpected token" (Some (t_pos t)))
  end.

(** The operand of [a], [_parse] being given: [_parseoperand]. *)
Definition parseoperand (parse_ : Z -> pstate -> res (tree * pstate)) (a : action) (st : pstate) : res (tree * pstate) :=
  match a_close a with
  | None => parse_ (a_bind a) st
  | Some m =>
      let* ty := current_type st in
      let* (expr, st) := if decide (ty = m) then Ok (TNone, st) else parse_ (a_bind a) st in
      let* st := match_close m st in
      Ok (expr, st)
  end.

(** [_parse]: the first term, and then its loop. *)
Fixpoint parse_ (fuel : nat) (bind : Z) (st : pstate) : res (tree * pstate) :=
  match fuel with
  | O => Err OutOfFuel
  | S fuel =>
      let* (tok, st) := advance_token st in
      let* el := lookup_el (t_type tok) in
      let* prim := unambiguous (el_primary el) (el_prefix el) st in
      let* (expr, st) :=
        match el_primary el, prim, el_prefix el with
        | Some label, true, _ => Ok (TNode label [value_tree (t_value tok)], st)
        | _, _, Some a => let* (t, st) := parseoperand (parse_ fuel) a st in Ok (TNode (a_label a) [t], st)
        | _, _, None => Err (ParseError "not a prefix" (Some (t_pos tok)))
        end in
      parse_loop fuel bind expr st
  end
with parse_loop (fuel : nat) (bind : Z) (expr : tree) (st : pstate) : res (tree * pstate) :=
  match fuel with
  | O => Err OutOfFuel
  | S fuel =>
      let* ty := current_type st in
      let* el := lookup_el ty in
      if decide (bind < el_bind el) then
        let* (tok, st) := advance_token st in
        let* suff := unambiguous (el_suffix el) (el_infix el) st in
        let* (expr, st) :=
          match el_suffix el, suff, el_infix el with
          | Some label, true, _ => Ok (TNode label [expr], st)
          | _, _, Some a => let* (t, st) := parseoperand (parse_ fuel) a st in Ok (TNode (a_label a) [expr; t], st)
          | _, _, None => Err (ParseError "not an infix" (Some (t_pos tok)))
          end in
        parse_loop fuel bind expr st
      else Ok (expr, st)
  end.

(** [parse]: the tree and the position of the token after it.  Every call
    consumes a token, so their number bounds the depth. *)
Definition parse (tokens : list (res token)) : res (tree * Z) :=
  let* (_, st) := advance (PState None tokens) in
  let* (t, st) := parse_ (S (length tokens)) 0 st in
  match p_current st with Some tok => Ok (t, t_pos tok) | None => Err TypeError end.
End parser.

(** ** The grammar *)

Section grammar.
Context (E : elements).

(** A binding strength that may be absent, that is, infinite. *)
Definition omin (x y : option Z) : option Z :=
  match x, y with
  | None, z | z, None => z
  | Some x, Some y => Some (Z.min x y)
  end.
Definition above (b : Z) (s : option Z) : Prop := match s with None => True | Some z => b < z end.

(** A token may follow a phrase with right edge [r]: no operand at the edge would
    take it, and if the last token was taken as complete by itself although it
    could have an operand ([amb]), it does not start a term. *)
Definition follow (el : element) (r : option Z) (amb : bool) : Prop :=
  match r with None => True | Some z => el_bind el <= z end /\ (amb = true -> starts_term el = false).

Definition head_starts (toks : list token) : Prop :=
  exists t el, head toks = Some t /\ E (t_type t) = Some el /\ starts_term el = true.

(** [expr toks t sp r amb]: the tokens spell the tree; [sp] is the least binding
    strength of the operators on the left spine, [r] the least strength at which an
    operand is open at the right edge. *)
Inductive expr : list token -> tree -> option Z -> option Z -> bool -> Prop :=
  | expr_primary tok el label :
      E (t_type tok) = Some el -> el_primary el = Some label ->
      expr [tok] (TNode label [value_tree (t_value tok)]) None None (bool_decide (is_Some (el_prefix el)))
  | expr_prefix tok el a toks t r amb :
      E (t_type tok) = Some el -> el_prefix el = Some a ->
      (el_primary el = None \/ head_starts toks) ->
      operand toks t a r amb ->
      expr (tok :: toks) (TNode (a_label a) [t]) None r amb
  | expr_infix toksl tl sp rl ambl tok el a toks t r amb :
      expr toksl tl sp rl ambl ->
      E (t_type tok) = Some el -> follow el rl ambl -> el_infix el = Some a ->
      (el_suffix el = None \/ head_starts toks) ->
      operand toks t a r amb ->
      expr (toksl ++ tok :: toks) (TNode (a_label a) [tl; t]) (omin (Some (el_bind el)) sp) r amb
  | expr_suffix toksl tl sp rl ambl tok el label :
      expr toksl tl sp rl ambl ->
      E (t_type tok) = Some el -> follow el rl ambl -> el_suffix el = Some label ->
      expr (toksl ++ [tok]) (TNode label [tl]) (omin (Some (el_bind el)) sp) None (bool_decide (is_Some (el_infix el)))
with operand : list token -> tree -> action -> option Z -> bool -> Prop :=
  | operand_open toks t a sp r amb :
      a_close a = None -> expr toks t sp r amb -> above (a_bind a) sp ->
      operand toks t a (omin (Some (a_bind a)) r) amb
  | operand_closed toks t a m tok el sp r amb :
      a_close a = Some m -> expr toks t sp r amb -> above (a_bind a) sp ->
      (forall t0, head toks = Some t0 -> t_type t0 ≠ m) ->
      t_type tok = m -> E m = Some el -> el_bind el <= a_bind a -> follow el r amb ->
      operand (toks ++ [tok]) t a None false
  | operand_none a m tok :
      a_close a = Some m -> t_type tok = m -> operand [tok] TNone a None false.

Scheme expr_ind' := Induction for expr Sort Prop
  with operand_ind' := Induction for operand Sort Prop.
Combined Scheme expr_operand_ind from expr_ind', operand_ind'.

(** A stream of tokens without exceptions. *)
Definition st_of (toks : list token) : pstate :=
  match toks with [] => PState None [] | t :: ts => PState (Some t) (map Ok ts) end.

Lemma advance_cons t ts : advance_token (st_of (t :: ts)) = Ok (t, st_of ts).
Proof. destruct ts; done. Qed.

Lemma expr_nonempty toks t sp r amb : expr toks t sp r amb -> toks ≠ [].
Proof. by destruct 1 as [| |[]|[]]. Qed.

Lemma operand_nonempty toks t a r amb : operand toks t a r amb -> toks ≠ [].
Proof. destruct 1; [by eapply expr_nonempty|by destruct toks|done]. Qed.

(** ** More fuel does not change an answer *)

(** A lack of fuel, or the same answer. *)
Definition leq {A} (r r' : res A) : Prop := r = Err OutOfFuel \/ r = r'.

Lemma leq_refl {A} (r : res A) : leq r r.
Proof. by right. Qed.

Lemma leq_Ok {A} (r r' : res A) x : leq r r' -> r = Ok x -> r' = Ok x.
Proof. intros [->| ->]; done. Qed.

Lemma rbind_leq {A B} (m m' : res A) (k k' : A -> res B) :
  leq m m' -> (forall a, leq (k a) (k' a)) -> leq (rbind m k) (rbind m' k').
Proof. intros [->| ->] Hk; [by left|]. destruct m'; cbn; [apply Hk|by right]. Qed.

Local Hint Resolve leq_refl : core.

Lemma parseoperand_leq (p p' : Z -> pstate -> res (tree * pstate)) a st :
  (forall b st, leq (p b st) (p' b st)) -> leq (parseoperand p a st) (parseoperand p' a st).
Proof.
  intros Hp. unfold parseoperand. destruct (a_close a); [|apply Hp]. apply rbind_leq; [done|]. intros ty.
  apply rbind_leq; [by case_decide|]. intros [e st1]. apply leq_refl.
Qed.

Lemma parse_leq f f' :
  (f <= f')%nat ->
  (forall bind st, leq (parse_ E f bind st) (parse_ E f' bind st)) /\
  (forall bind e st, leq (parse_loop E f bind e st) (parse_loop E f' bind e st)).
Proof.
  revert f'. induction f as [|f IH]; intros [|f'] Hf; try lia; [by split|split; intros; by left|]. destruct (IH f') as [IH1 IH2]; [lia|]. split.
  - intros bind st. cbn [parse_]. apply rbind_leq; [done|]. intros [tok st1]. apply rbind_leq; [done|]. intros el.
    apply rbind_leq; [done|]. intros prim. apply rbind_leq; [|intros [t st2]; apply IH2].
    destruct (el_primary el), prim, (el_prefix el); try done; (apply rbind_leq; [by apply parseoperand_leq|intros []; apply leq_refl]).
  - intros bind e st. cbn [parse_loop]. apply rbind_leq; [done|]. intros ty. apply rbind_leq; [done|]. intros el.
    case_decide; [|done]. apply rbind_leq; [done|]. intros [tok st1]. apply rbind_leq; [done|]. intros suff.
    apply rbind_leq; [|intros [t st2]; apply IH2].
    destruct (el_suffix el), suff, (el_infix el); try done; (apply rbind_leq; [by apply parseoperand_leq|intros []; apply leq_refl]).
Qed.

Lemma parseoperand_mono f f' a st x :
  (f <= f')%nat -> parseoperand (parse_ E f) a st = Ok x -> parseoperand (parse_ E f') a st = Ok x.
Proof. intros Hf. apply leq_Ok, parseoperand_leq, parse_leq, Hf. Qed.

Lemma parse_loop_mono f f' bind e st x :
  (f <= f')%nat -> parse_loop E f bind e st = Ok x -> parse_loop E f' bind e st = Ok x.
Proof. intros Hf. apply leq_Ok, parse_leq, Hf. Qed.

(** ** What the grammar derives is parsed *)

Lemma hasnewterm_head t ts el : E (t_type t) = Some el -> hasnewterm E (st_of (t :: ts)) = Ok (starts_term el).
Proof. intros H. unfold hasnewterm, current_type, lookup_el. cbn. by rewrite H. Qed.

Lemma unambiguous_head {A B} (x : A) (y : option B) t ts el :
  E (t_type t) = Some el -> unambiguous E (Some x) y (st_of (t :: ts)) = Ok (negb (bool_decide (is_Some y) && starts_term el)).
Proof. intros H. unfold unambiguous. destruct y; [by rewrite (hasnewterm_head _ _ _ H)|done]. Qed.

(** A token that has an alternative with an operand is taken for that. *)
Lemma unambiguous_operand {A B} (x : option A) (y : B) toks rest :
  x = None \/ head_starts toks -> unambiguous E x (Some y) (st_of (toks ++ rest)) = Ok false.
Proof.
  intros [->|(t & el & Hh & HE & Hs)]; [done|]. destruct toks as [|t' toks]; [done|]. injection Hh as ->. destruct x; [|done].
  cbn [app]. rewrite (unambiguous_head _ _ _ _ _ HE), Hs. done.
Qed.

(** A token taken as complete. *)
Lemma unambiguous_complete {A B} (x : A) (y : option B) n rest el :
  E (t_type n) = Some el -> follow el None (bool_decide (is_Some y)) ->
  unambiguous E (Some x) y (st_of (n :: rest)) = Ok true.
Proof.
  intros HE [_ Hf]. rewrite (unambiguous_head _ _ _ _ _ HE). destruct (bool_decide (is_Some y)); [|done]. by rewrite Hf.
Qed.

Lemma follow_omin el b r amb : follow el (omin (Some b) r) amb <-> el_bind el <= b /\ follow el r amb.
Proof. unfold follow. destruct r as [z|]; cbn; [rewrite Z.min_glb_iff|]; tauto. Qed.

Lemma above_omin b z s : above b (omin (Some z) s) <-> b < z /\ above b s.
Proof. destruct s as [y|]; cbn; [rewrite Z.min_glb_lt_iff|]; tauto. Qed.

Lemma loop_stop f bind t n rest el :
  E (t_type n) = Some el -> el_bind el <= bind -> parse_loop E (S f) bind t (st_of (n :: rest)) = Ok (t, st_of (n :: rest)).
Proof. intros HE Hb. cbn [parse_loop]. unfold current_type, lookup_el. cbn. rewrite HE. cbn [rbind]. by rewrite decide_False by lia. Qed.

Lemma complete_mut :
  (forall toks t sp r amb, expr toks t sp r amb ->
    forall bind n rest el f x, above bind sp -> E (t_type n) = Some el -> follow el r amb ->
      parse_loop E f bind t (st_of (n :: rest)) = Ok x -> exists f', parse_ E f' bind (st_of (toks ++ n :: rest)) = Ok x) /\
  (forall toks t a r amb, operand toks t a r amb ->
    forall rest, (forall n, head rest = Some n -> exists el, E (t_type n) = Some el /\ follow el r amb) -> (a_close a = None -> rest ≠ []) ->
      exists f', parseoperand (parse_ E f') a (st_of (toks ++ rest)) = Ok (t, st_of rest)).
Proof.
  apply expr_operand_ind.
  - intros tok el label HE Hp bind n rest eln f x _ HEn Hf Hl. exists (S f). cbn [parse_ app]. rewrite advance_cons. cbn [rbind].
    unfold lookup_el. rewrite HE. cbn [rbind]. rewrite Hp, (unambiguous_complete _ _ _ _ _ HEn Hf). cbn [rbind]. exact Hl.
  - intros tok el a toks t r amb HE Hp Hpr _ IH bind n rest eln f x _ HEn Hf Hl.
    destruct (IH (n :: rest)) as [f1 Hf1]; [intros ? [= <-]; by exists eln|done|].
    exists (S (f `max` f1)). cbn [parse_ app]. rewrite advance_cons. cbn [rbind]. unfold lookup_el. rewrite HE. cbn [rbind].
    rewrite Hp, (unambiguous_operand _ _ toks (n :: rest) Hpr). cbn [rbind].
    assert (parseoperand (parse_ E (f `max` f1)) a (st_of (toks ++ n :: rest)) = Ok (t, st_of (n :: rest))) as ->
      by (eapply parseoperand_mono; [|exact Hf1]; lia).
    destruct (el_primary el); cbn [rbind]; (eapply parse_loop_mono; [|exact Hl]; lia).
  - intros toksl tl sp rl ambl tok el a toks t r amb _ IHl HE Hfl Hi Hs _ IH bind n rest eln f x [Hb Hab]%above_omin HEn Hf Hl.
    destruct (IH (n :: rest)) as [f1 Hf1]; [intros ? [= <-]; by exists eln|done|].
    rewrite <- app_assoc. cbn [app]. apply (IHl bind tok (toks ++ n :: rest) el (S (f `max` f1)) x Hab HE Hfl).
    cbn [parse_loop]. unfold current_type, lookup_el. cbn [st_of p_current rbind]. rewrite HE. cbn [rbind]. rewrite decide_True by done.
    change (PState (Some tok) (map Ok (toks ++ n :: rest))) with (st_of (tok :: toks ++ n :: rest)). rewrite advance_cons. cbn [rbind].
    rewrite Hi, (unambiguous_operand _ _ toks (n :: rest) Hs). cbn [rbind].
    assert (parseoperand (parse_ E (f `max` f1)) a (st_of (toks ++ n :: rest)) = Ok (t, st_of (n :: rest))) as ->
      by (eapply parseoperand_mono; [|exact Hf1]; lia).
    destruct (el_suffix el); cbn [rbind]; (eapply parse_loop_mono; [|exact Hl]; lia).
  - intros toksl tl sp rl ambl tok el label _ IHl HE Hfl Hs bind n rest eln f x [Hb Hab]%above_omin HEn Hf Hl.
    rewrite <- app_assoc. cbn [app]. apply (IHl bind tok (n :: rest) el (S f) x Hab HE Hfl).
    cbn [parse_loop]. unfold current_type, lookup_el. cbn [st_of p_current rbind]. rewrite HE. cbn [rbind]. rewrite decide_True by done.
    change (PState (Some tok) (map Ok (n :: rest))) with (st_of (tok :: n :: rest)). rewrite advance_cons. cbn [rbind].
    rewrite Hs, (unambiguous_complete _ _ _ _ _ HEn Hf). cbn [rbind]. exact Hl.
  - intros toks t a sp r amb Hc _ IH Hab rest Hn Hne. destruct rest as [|n rest]; [by destruct Hne|].
    destruct (Hn n eq_refl) as (el & HE & [Hb Hf]%follow_omin). unfold parseoperand. rewrite Hc.
    apply (IH (a_bind a) n rest el 1%nat); [done..|]. by eapply loop_stop.
  - intros toks t a m tok el sp r amb Hc Hex IH Hab Hm Hty HE Hb Hf rest _ _.
    destruct (IH (a_bind a) tok rest el 1%nat (t, st_of (tok :: rest))) as [f' Hf']; [done|by rewrite Hty|done|by eapply loop_stop; rewrite ?Hty|].
    exists f'. unfold parseoperand. rewrite Hc. rewrite <- app_assoc. cbn [app].
    destruct toks as [|t0 toks]; [by apply expr_nonempty in Hex|]. cbn [app st_of]. unfold current_type at 1. cbn [p_current rbind].
    rewrite decide_False by (by apply Hm). cbn [app st_of] in Hf'. rewrite Hf'. cbn [rbind]. unfold match_close. cbn [p_current st_of].
    rewrite decide_True by done. by destruct rest.
  - intros a m tok Hc Hty rest _ _. exists O. unfold parseoperand. rewrite Hc. cbn [app]. unfold current_type. cbn [st_of p_current rbind].
    rewrite decide_True by done. cbn [rbind]. unfold match_close. cbn [p_current]. rewrite decide_True by done. by destruct rest.
Qed.

(** ** What is parsed is derived by the grammar *)

Definition follows (rest : list token) (r : option Z) (amb : bool) : Prop :=
  forall n el, head rest = Some n -> E (t_type n) = Some el -> follow el r amb.

Lemma advance_token_inv ts tok st : advance_token (st_of ts) = Ok (tok, st) -> exists ts', ts = tok :: ts' /\ st = st_of ts'.
Proof. destruct ts as [|t ts]; [done|]. rewrite advance_cons. intros [= <- <-]. by exists ts. Qed.

Lemma current_type_inv ts ty : current_type (st_of ts) = Ok ty -> exists t ts', ts = t :: ts' /\ t_type t = ty.
Proof. destruct ts as [|t ts]; [done|]. intros [= <-]. by exists t, ts. Qed.

Lemma unambiguous_inv {A B} (x : option A) (y : option B) ts b :
  unambiguous E x y (st_of ts) = Ok b ->
  match x, b with
  | Some _, true => follows ts None (bool_decide (is_Some y))
  | Some _, false => is_Some y -> head_starts ts
  | None, b => b = false
  end.
Proof.
  unfold unambiguous. destruct x, y as [v|]; try (intros [= <-]).
  - intros (c & Hc & [= <-])%rbind_Ok. unfold hasnewterm in Hc. apply rbind_Ok in Hc as (ty & Hty & Hc).
    apply current_type_inv in Hty as (t & ts' & -> & <-). apply rbind_Ok in Hc as (el & Hel & [= <-]).
    unfold lookup_el in Hel. destruct (E (t_type t)) as [el'|] eqn:HE; [|done]. injection Hel as ->.
    destruct (starts_term el) eqn:Hs; cbn.
    + intros _. by exists t, el.
    + intros n el' [= <-] HE'. rewrite HE in HE'. injection HE' as <-. split; [done|]. intros _. exact Hs.
  - intros n el _ _. by split.
  - done.
  - done.
Qed.

Definition sound_parse (f : nat) : Prop := forall bind ts t st,
  parse_ E f bind (st_of ts) = Ok (t, st) ->
  exists toks rest sp r amb, ts = toks ++ rest /\ st = st_of rest /\ expr toks t sp r amb /\ above bind sp /\
    follows rest r amb /\ exists n el, head rest = Some n /\ E (t_type n) = Some el /\ el_bind el <= bind.

Definition sound_loop (f : nat) : Prop := forall bind ts e t st toks0 sp0 r0 amb0,
  expr toks0 e sp0 r0 amb0 -> above bind sp0 -> follows ts r0 amb0 ->
  parse_loop E f bind e (st_of ts) = Ok (t, st) ->
  exists toks rest sp r amb, ts = toks ++ rest /\ st = st_of rest /\ expr (toks0 ++ toks) t sp r amb /\ above bind sp /\
    follows rest r amb /\ exists n el, head rest = Some n /\ E (t_type n) = Some el /\ el_bind el <= bind.

Lemma parseoperand_sound f a ts t st :
  sound_parse f -> parseoperand (parse_ E f) a (st_of ts) = Ok (t, st) ->
  exists toks rest r amb, ts = toks ++ rest /\ st = st_of rest /\ operand toks t a r amb /\ follows rest r amb.
Proof.
  intros IH. unfold parseoperand. destruct (a_close a) as [m|] eqn:Hc.
  - intros (ty & Hty & H)%rbind_Ok. apply current_type_inv in Hty as (t0 & ts0 & -> & <-).
    apply rbind_Ok in H as ([e st1] & He & H). apply rbind_Ok in H as (st2 & Hm & [= <- <-]). case_decide as Ht.
    + injection He as <- <-. unfold match_close in Hm. cbn [st_of p_current] in Hm. rewrite decide_True in Hm by done.
      apply rbind_Ok in Hm as ([u st3] & Ha & [= <-]). exists [t0], ts0, None, false. split; [done|].
      split; [by destruct ts0; injection Ha as _ <-|]. split; [by eapply operand_none|by intros n el].
    + destruct (IH _ _ _ _ He) as (toks & rest & sp & r & amb & E1 & -> & Hex & Hab & Hf & n & el & Hh & HE & Hb).
      destruct rest as [|n' rest]; [done|]. injection Hh as ->. unfold match_close in Hm. cbn [st_of p_current] in Hm.
      case_decide as Hn; [|done]. apply rbind_Ok in Hm as ([u st3] & Ha & [= <-]).
      exists (toks ++ [n]), rest, None, false. split; [rewrite E1, <- app_assoc; done|].
      split; [by destruct rest; injection Ha as _ <-|]. split; [|by intros ? ?].
      eapply operand_closed; [done|exact Hex|done| |done|by rewrite <- Hn|done|by apply (Hf n)].
      intros t1 Ht1. destruct toks as [|t2 toks]; [done|]. cbn in E1, Ht1. injection E1 as <- _. by injection Ht1 as <-.
  - intros H. destruct (IH _ _ _ _ H) as (toks & rest & sp & r & amb & -> & -> & Hex & Hab & Hf & n & el & Hh & HE & Hb).
    exists toks, rest, (omin (Some (a_bind a)) r), amb. split; [done|]. split; [done|]. split; [by eapply operand_open|].
    intros n' el' Hh' HE'. rewrite Hh in Hh'. injection Hh' as <-. rewrite HE in HE'. injection HE' as <-.
    apply follow_omin. split; [done|by apply (Hf n)].
Qed.

Lemma head_starts_app toks rest : head_starts (toks ++ rest) -> toks ≠ [] -> head_starts toks.
Proof. intros (t & el & Hh & H) Hne. destruct toks as [|t' toks]; [done|]. exists t, el. split; [exact Hh|exact H]. Qed.

(** The first term of [_parse], and one turn of its loop. *)
Lemma prefix_sound f a tok el ts1 e st2 :
  sound_parse f -> E (t_type tok) = Some el -> el_prefix el = Some a -> (el_primary el = None \/ head_starts ts1) ->
  (let* (t, st) := parseoperand (parse_ E f) a (st_of ts1) in Ok (TNode (a_label a) [t], st)) = Ok (e, st2) ->
  exists toks ts2 r amb, ts1 = toks ++ ts2 /\ st2 = st_of ts2 /\ expr (tok :: toks) e None r amb /\ follows ts2 r amb.
Proof.
  intros IHp HE Hpre Hcond ([t' st'] & Ho & [= <- <-])%rbind_Ok.
  destruct (parseoperand_sound _ _ _ _ _ IHp Ho) as (toks & rest & r & amb & -> & -> & Hop & Hf).
  exists toks, rest, r, amb. split_and!; try done. eapply expr_prefix; [exact HE|done| |done].
  destruct Hcond as [|Hc]; [by left|right]. eapply head_starts_app; [exact Hc|by eapply operand_nonempty].
Qed.

Lemma infix_sound f a tok el ts1 toks0 e sp0 r0 amb0 bind e' st2 :
  sound_parse f -> expr toks0 e sp0 r0 amb0 -> above bind sp0 -> E (t_type tok) = Some el -> follow el r0 amb0 -> bind < el_bind el ->
  el_infix el = Some a -> (el_suffix el = None \/ head_starts ts1) ->
  (let* (t, st) := parseoperand (parse_ E f) a (st_of ts1) in Ok (TNode (a_label a) [e; t], st)) = Ok (e', st2) ->
  exists toks ts2 sp r amb, ts1 = toks ++ ts2 /\ st2 = st_of ts2 /\ expr (toks0 ++ tok :: toks) e' sp r amb /\ above bind sp /\ follows ts2 r amb.
Proof.
  intros IHp Hex Hab HE Hftok Hb Hin Hcond ([t' st'] & Ho & [= <- <-])%rbind_Ok.
  destruct (parseoperand_sound _ _ _ _ _ IHp Ho) as (toks & rest & r & amb & -> & -> & Hop & Hfr).
  exists toks, rest, (omin (Some (el_bind el)) sp0), r, amb. split_and!; try done; [|by apply above_omin].
  eapply expr_infix; [exact Hex|exact HE|done|done| |done].
  destruct Hcond as [|Hc]; [by left|right]. eapply head_starts_app; [exact Hc|by eapply operand_nonempty].
Qed.

Lemma sound_parse_step f : sound_parse f -> sound_loop f -> sound_parse (S f).
Proof.
  intros IHp IHl bind ts t st H. cbn [parse_] in H. apply rbind_Ok in H as ([tok st1] & Ha & H). apply advance_token_inv in Ha as (ts1 & -> & ->).
  apply rbind_Ok in H as (el & Hel & H). unfold lookup_el in Hel. destruct (E (t_type tok)) as [el'|] eqn:HE; [|done]. injection Hel as ->.
  apply rbind_Ok in H as (prim & Hpr & H). apply unambiguous_inv in Hpr. apply rbind_Ok in H as ([e st2] & He & H).
  assert (exists toks ts2 r amb, ts1 = toks ++ ts2 /\ st2 = st_of ts2 /\ expr (tok :: toks) e None r amb /\ follows ts2 r amb)
    as (toks & ts2 & r & amb & -> & -> & Hex & Hf).
  { destruct (el_primary el) as [label|] eqn:Eprim.
    - destruct prim.
      + injection He as <- <-. exists [], ts1, None, (bool_decide (is_Some (el_prefix el))). split_and!; try done. by eapply expr_primary.
      + destruct (el_prefix el) as [a|] eqn:Epre; [|done]. eapply prefix_sound; [done|exact HE|done|right; by apply Hpr|exact He].
    - subst prim. destruct (el_prefix el) as [a|] eqn:Epre; [|done]. eapply prefix_sound; [done|exact HE|done|by left|exact He]. }
  destruct (IHl bind ts2 e t st (tok :: toks) None r amb Hex I Hf H) as (toks' & rest & sp' & r' & amb' & -> & -> & Hex' & Hrest).
  exists (tok :: toks ++ toks'), rest, sp', r', amb'. split; [cbn; by rewrite <- app_assoc|]. by split.
Qed.

Lemma sound_loop_step f : sound_parse f -> sound_loop f -> sound_loop (S f).
Proof.
  intros IHp IHl bind ts e t st toks0 sp0 r0 amb0 Hex Hab Hf H. cbn [parse_loop] in H. apply rbind_Ok in H as (ty & Hty & H).
  apply current_type_inv in Hty as (tok & ts1 & -> & <-). apply rbind_Ok in H as (el & Hel & H).
  unfold lookup_el in Hel. destruct (E (t_type tok)) as [el'|] eqn:HE; [|done]. injection Hel as ->.
  pose proof (Hf tok el eq_refl HE) as Hftok. case_decide as Hb.
  2:{ injection H as <- <-. exists [], (tok :: ts1), sp0, r0, amb0. rewrite app_nil_r. split_and!; try done. exists tok, el. split_and!; try done. lia. }
  apply rbind_Ok in H as ([tok' st1] & Ha & H). rewrite advance_cons in Ha. injection Ha as <- <-.
  apply rbind_Ok in H as (suff & Hsu & H). apply unambiguous_inv in Hsu. apply rbind_Ok in H as ([e' st2] & He & H).
  assert (exists toks ts2 sp r amb, ts1 = toks ++ ts2 /\ st2 = st_of ts2 /\ expr (toks0 ++ tok :: toks) e' sp r amb /\ above bind sp /\ follows ts2 r amb)
    as (toks & ts2 & sp & r & amb & -> & -> & Hex' & Hab' & Hf').
  { destruct (el_suffix el) as [label|] eqn:Esuf.
    - destruct suff.
      + injection He as <- <-. exists [], ts1, (omin (Some (el_bind el)) sp0), None, (bool_decide (is_Some (el_infix el))).
        split_and!; try done; [by eapply expr_suffix|by apply above_omin].
      + destruct (el_infix el) as [a|] eqn:Ein; [|done]. eapply infix_sound; [done|exact Hex|done|exact HE|done|done|done|right; by apply Hsu|exact He].
    - subst suff. destruct (el_infix el) as [a|] eqn:Ein; [|done]. eapply infix_sound; [done|exact Hex|done|exact HE|done|done|done|by left|exact He]. }
  destruct (IHl bind ts2 e' t st (toks0 ++ tok :: toks) sp r amb Hex' Hab' Hf' H) as (toks' & rest & sp' & r' & amb' & -> & -> & Hex'' & Hrest).
  exists (tok :: toks ++ toks'), rest, sp', r', amb'. split; [cbn; by rewrite <- app_assoc|]. split; [done|].
  rewrite <- app_assoc in Hex''. by split.
Qed.

Lemma sound_mut f : sound_parse f /\ sound_loop f.
Proof.
  induction f as [|f [IHp IHl]]; [by split|]. split; [by apply sound_parse_step|by apply sound_loop_step].
Qed.

(** ** Termination *)

(** How many tokens are left. *)
Definition left_ (st : pstate) : nat := (match p_current st with Some _ => 1 | None => 0 end + length (p_iter st))%nat.

Lemma advance_left st t st' : advance_token st = Ok (t, st') -> left_ st = S (left_ st').
Proof.
  unfold advance_token, advance, left_. destruct (p_iter st) as [|[t'|e] it], (p_current st) as [c|]; cbn; try done; by intros [= <- <-].
Qed.

(** The errors that a run can end with, when the stream has not run out of fuel. *)
Definition no_fuel_error (st : pstate) : Prop := Forall (fun r => r ≠ Err OutOfFuel) (p_iter st).

Lemma advance_ok st : no_fuel_error st ->
  match advance_token st with Ok (t, st') => no_fuel_error st' | Err e => e ≠ OutOfFuel end.
Proof.
  unfold no_fuel_error, advance_token, advance. destruct (p_iter st) as [|[t|e] it]; cbn.
  - by destruct (p_current st).
  - intros [_ H]%Forall_cons. by destruct (p_current st).
  - intros [H _]%Forall_cons. congruence.
Qed.

(** A parse that ends with less to read, or with another error than the lack of
    fuel. *)
Definition ends (st : pstate) (r : res (tree * pstate)) : Prop :=
  match r with
  | Ok (_, st') => no_fuel_error st' /\ (left_ st' <= left_ st)%nat
  | Err e => e ≠ OutOfFuel
  end.

Lemma lookup_no_fuel ty e : lookup_el E ty = Err e -> e ≠ OutOfFuel.
Proof. unfold lookup_el. destruct (E ty); [done|]. by intros [= <-]. Qed.

Lemma current_no_fuel st e : current_type st = Err e -> e ≠ OutOfFuel.
Proof. unfold current_type. destruct (p_current st); [done|]. by intros [= <-]. Qed.

Lemma unambiguous_no_fuel {A B} (x : option A) (y : option B) st e : unambiguous E x y st = Err e -> e ≠ OutOfFuel.
Proof.
  unfold unambiguous. destruct x, y; try done. unfold hasnewterm. destruct (current_type st) as [ty|] eqn:Ec; cbn.
  - destruct (lookup_el E ty) as [el|] eqn:El; cbn; [done|]. intros [= <-]. by eapply lookup_no_fuel.
  - intros [= <-]. by eapply current_no_fuel.
Qed.

Lemma match_close_ends m st : no_fuel_error st ->
  match match_close m st with Ok st' => no_fuel_error st' /\ (left_ st' <= left_ st)%nat | Err e => e ≠ OutOfFuel end.
Proof.
  intros Hn. unfold match_close. destruct (p_current st) as [t|] eqn:Ec; [|done]. case_decide; [|done].
  pose proof (advance_ok st Hn) as Ha. pose proof (advance_left st) as Hl. unfold advance_token in Ha, Hl.
  destruct (advance st) as [[[t'|] st']|e] eqn:Ea; cbn in *; [split; [done|]; rewrite (Hl _ _ eq_refl); lia| |done].
  exfalso. unfold advance in Ea. rewrite Ec in Ea. by destruct (p_iter st) as [|[]].
Qed.

Lemma parseoperand_ends (p : Z -> pstate -> res (tree * pstate)) a st :
  no_fuel_error st -> (forall b, ends st (p b st)) -> ends st (parseoperand p a st).
Proof.
  intros Hn Hp. unfold parseoperand. destruct (a_close a) as [m|]; [|apply Hp].
  destruct (current_type st) as [ty|] eqn:Ec; cbn [rbind]; [|by eapply current_no_fuel].
  assert (ends st (if decide (ty = m) then Ok (TNone, st) else p (a_bind a) st)) as He by (case_decide; [split; [done|lia]|apply Hp]).
  destruct (if decide (ty = m) then Ok (TNone, st) else p (a_bind a) st) as [[e st1]|err]; cbn [rbind]; [|done]. destruct He as [Hn1 Hl1].
  pose proof (match_close_ends m st1 Hn1) as Hm. destruct (match_close m st1) as [st2|]; cbn [rbind]; [|done]. split; [tauto|]. destruct Hm. lia.
Qed.

Lemma parse_ends f :
  (forall bind st, no_fuel_error st -> (left_ st < f)%nat -> ends st (parse_ E f bind st)) /\
  (forall bind e st, no_fuel_error st -> (left_ st < f)%nat -> ends st (parse_loop E f bind e st)).
Proof.
  induction f as [|f [IHp IHl]]; [split; intros; lia|].
  (* after a token, an operand and the loop *)
  assert (forall bind st1 (m : res (tree * pstate)), ends st1 m -> (left_ st1 < f)%nat ->
    ends st1 (let* (expr, st) := m in parse_loop E f bind expr st)) as Hrest.
  { intros bind st1 m Hm Hl. destruct m as [[e st2]|]; cbn [rbind]; [|done]. destruct Hm as [Hn2 Hl2].
    pose proof (IHl bind e st2 Hn2 ltac:(lia)) as He. unfold ends in *. destruct (parse_loop E f bind e st2) as [[]|]; [|done]. split; [tauto|lia]. }
  assert (forall st1 a (g : tree -> tree), no_fuel_error st1 -> (left_ st1 < f)%nat ->
    ends st1 (let* (t, st) := parseoperand (parse_ E f) a st1 in Ok (g t, st))) as Hop.
  { intros st1 a g Hn1 Hl1. pose proof (parseoperand_ends (parse_ E f) a st1 Hn1) as He.
    destruct (parseoperand (parse_ E f) a st1) as [[]|]; cbn [rbind]; apply He; intros b; by apply IHp. }
  split.
  - intros bind st Hn Hl. cbn [parse_]. pose proof (advance_ok st Hn) as Ha. pose proof (advance_left st) as Hd.
    destruct (advance_token st) as [[tok st1]|]; cbn [rbind]; [|done]. specialize (Hd _ _ eq_refl).
    destruct (lookup_el E (t_type tok)) as [el|] eqn:El; cbn [rbind]; [|by eapply lookup_no_fuel].
    destruct (unambiguous E (el_primary el) (el_prefix el) st1) as [prim|] eqn:Eu; cbn [rbind]; [|by eapply unambiguous_no_fuel].
    enough (ends st1 (let* (expr, st) := match el_primary el, prim, el_prefix el with
        | Some label, true, _ => Ok (TNode label [value_tree (t_value tok)], st1)
        | _, _, Some a => let* (t, st) := parseoperand (parse_ E f) a st1 in Ok (TNode (a_label a) [t], st)
        | _, _, None => Err (ParseError "not a prefix" (Some (t_pos tok))) end in parse_loop E f bind expr st)) as He.
    { unfold ends in *. destruct (rbind _ _) as [[]|]; [|done]. split; [tauto|lia]. }
    apply Hrest; [|lia]. destruct (el_primary el), prim, (el_prefix el); try done; try (by apply (Hop st1 _ (fun t => TNode _ [t])); [done|lia]); by split.
  - intros bind e st Hn Hl. cbn [parse_loop]. destruct (current_type st) as [ty|] eqn:Ec; cbn [rbind]; [|by eapply current_no_fuel].
    destruct (lookup_el E ty) as [el|] eqn:El; cbn [rbind]; [|by eapply lookup_no_fuel]. case_decide; [|split; [done|lia]].
    pose proof (advance_ok st Hn) as Ha. pose proof (advance_left st) as Hd.
    destruct (advance_token st) as [[tok st1]|]; cbn [rbind]; [|done]. specialize (Hd _ _ eq_refl).
    destruct (unambiguous E (el_suffix el) (el_infix el) st1) as [suff|] eqn:Eu; cbn [rbind]; [|by eapply unambiguous_no_fuel].
    enough (ends st1 (let* (expr, st) := match el_suffix el, suff, el_infix el with
        | Some label, true, _ => Ok (TNode label [e], st1)
        | _, _, Some a => let* (t, st) := parseoperand (parse_ E f) a st1 in Ok (TNode (a_label a) [e; t], st)
        | _, _, None => Err (ParseError "not an infix" (Some (t_pos tok))) end in parse_loop E f bind expr st)) as He.
    { unfold ends in *. destruct (rbind _ _) as [[]|]; [|done]. split; [tauto|lia]. }
    apply Hrest; [|lia]. destruct (el_suffix el), suff, (el_infix el); try done; try (by apply (Hop st1 _ (fun t => TNode _ [e; t])); [done|lia]); by split.
Qed.

(** ** The parser and the grammar *)

Lemma advance_start toks : advance (PState None (map Ok toks)) = Ok (None, st_of toks).
Proof. by destruct toks. Qed.

Lemma left_st_of toks : left_ (st_of toks) = length toks.
Proof. destruct toks; unfold left_; cbn; [done|by rewrite length_map]. Qed.

Lemma no_fuel_error_st_of toks : no_fuel_error (st_of toks).
Proof. unfold no_fuel_error. destruct toks as [|t toks]; cbn; [constructor|]. apply Forall_forall. intros r Hr. by apply list_elem_of_fmap in Hr as (? & -> & _). Qed.

(** [phrase] is a whole expression before the token [n]. *)
Definition accepts (toks : list token) (t : tree) (n : token) : Prop :=
  exists phrase rest el sp r amb, toks = phrase ++ n :: rest /\ expr phrase t sp r amb /\ above 0 sp /\
    E (t_type n) = Some el /\ el_bind el <= 0 /\ follow el r amb.

Lemma parse_spec toks t pos : parse E (map Ok toks) = Ok (t, pos) <-> exists n, accepts toks t n /\ t_pos n = pos.
Proof.
  unfold parse. rewrite advance_start, length_map. cbn [rbind]. split.
  - intros ([t' st] & Hp & H)%rbind_Ok.
    destruct (proj1 (sound_mut (S (length toks))) 0 toks t' st Hp) as (phrase & rest & sp & r & amb & -> & -> & Hex & Hab & Hf & n & el & Hh & HE & Hb).
    destruct rest as [|n' rest]; [done|]. injection Hh as ->. cbn in H. injection H as <- <-.
    exists n. split; [|done]. exists phrase, rest, el, sp, r, amb. split_and!; try done. by apply (Hf n).
  - intros (n & (phrase & rest & el & sp & r & amb & -> & Hex & Hab & HE & Hb & Hf) & <-).
    destruct (proj1 complete_mut _ _ _ _ _ Hex 0 n rest el 1%nat (t, st_of (n :: rest)) Hab HE Hf) as [f' Hf']; [by eapply loop_stop|].
    set (toks := phrase ++ n :: rest) in *. assert (parse_ E (S (length toks)) 0 (st_of toks) = Ok (t, st_of (n :: rest))) as ->; [|done].
    destruct (decide (f' <= S (length toks))%nat) as [Hle|Hgt]; [by eapply leq_Ok; [apply parse_leq, Hle|]|].
    destruct (proj1 (parse_leq (S (length toks)) f' ltac:(lia)) 0 (st_of toks)) as [Hout| ->]; [|done].
    pose proof (proj1 (parse_ends (S (length toks))) 0 (st_of toks) (no_fuel_error_st_of toks)) as He.
    rewrite left_st_of, Hout in He. by destruct He; [lia|].
Qed.
End grammar.

(** ** Errors *)

Section errors.
Context (E : elements).

(** A table whose end token stands for nothing and closes nothing. *)
Definition table_ok : Prop :=
  (exists el, E "end" = Some el /\ el_primary el = None /\ el_prefix el = None /\ el_bind el <= 0) /\
  (forall ty el a, E ty = Some el -> el_prefix el = Some a \/ el_infix el = Some a -> 0 <= a_bind a /\ a_close a ≠ Some "end"%string).

(** What a tokenizer gives: tokens of the table, then the end token or a parse
    error. *)
Inductive stream : list (res token) -> Prop :=
  | stream_end t : t_type t = "end"%string -> stream [Ok t]
  | stream_err msg pos l : stream (Err (ParseError msg pos) :: l)
  | stream_cons t l : t_type t ≠ "end"%string -> is_Some (E (t_type t)) -> stream l -> stream (Ok t :: l).

Definition live (st : pstate) : Prop := exists t, p_current st = Some t /\ stream (Ok t :: p_iter st).

Definition parse_error (e : pyerr) : Prop := exists msg pos, e = ParseError msg pos.

(** A result that leaves a live state, or a parse error. *)
Definition sane {A} (r : res (A * pstate)) : Prop :=
  match r with Ok (_, st) => live st | Err e => parse_error e \/ e = OutOfFuel end.

Context (Hok : table_ok).

Lemma lookup_live st t : live st -> p_current st = Some t -> exists el, E (t_type t) = Some el.
Proof using Hok.
  intros (t' & Hc & Hs) Ht. rewrite Hc in Ht. injection Ht as ->. inversion Hs as [? He| |? ? ? [el He] _]; subst.
  - rewrite He. destruct Hok as [(el & HE & _) _]. by exists el.
  - by exists el.
Qed.

Lemma advance_live st t : live st -> p_current st = Some t -> t_type t ≠ "end"%string ->
  match advance st with Ok (t', st') => t' = Some t /\ live st' | Err e => parse_error e end.
Proof using.
  intros (t' & Hc & Hs) Ht Hne. rewrite Hc in Ht. injection Ht as ->. inversion Hs as [? He| |? ? ? _ Hs']; subst; [done|].
  unfold advance. inversion Hs' as [t1 He1 Hit|msg pos l Hit|t1 l Hne1 Hel1 Hs1 Hit]; rewrite <- ?Hit in *; cbn.
  - split; [done|]. exists t1. split; [done|]. cbn. by apply stream_end.
  - by eexists _, _.
  - split; [done|]. exists t1. split; [done|]. cbn. by apply stream_cons.
Qed.

Lemma sane_bind {A B} (m : res (A * pstate)) (k : A -> pstate -> res (B * pstate)) :
  sane m -> (forall a st, live st -> sane (k a st)) -> sane (let* (a, st) := m in k a st).
Proof. destruct m as [[a st]|e]; cbn; [auto|done]. Qed.

Lemma unambiguous_live {A B} (x : option A) (y : option B) st : live st -> exists b, unambiguous E x y st = Ok b.
Proof using Hok.
  intros Hl. unfold unambiguous. destruct x, y; try by eexists. destruct Hl as (t & Hc & Hs).
  destruct (lookup_live st t) as [el HE]; [by exists t|done|]. unfold hasnewterm, current_type, lookup_el. rewrite Hc. cbn. rewrite HE. by eexists.
Qed.

Lemma match_close_sane m (e : tree) st : live st -> m ≠ "end"%string -> sane (let* st := match_close m st in Ok (e, st)).
Proof using.
  intros Hl Hm. pose proof Hl as (t & Hc & _). unfold match_close. rewrite Hc. case_decide as Ht; cbn; [|left; by eexists _, _].
  pose proof (advance_live st t Hl Hc ltac:(congruence)) as Ha. destruct (advance st) as [[]|]; cbn; [tauto|by left].
Qed.

Lemma parseoperand_sane (p : Z -> pstate -> res (tree * pstate)) a st :
  live st -> 0 <= a_bind a -> a_close a ≠ Some "end"%string ->
  (forall b st, 0 <= b -> live st -> sane (p b st)) -> sane (parseoperand p a st).
Proof using.
  intros Hl Hb Hc Hp. unfold parseoperand. destruct (a_close a) as [m|]; [|by apply Hp].
  pose proof Hl as (t & Ht & _). unfold current_type. rewrite Ht. cbn [rbind].
  apply sane_bind; [case_decide; [done|by apply Hp]|]. intros e st1 Hl1. apply match_close_sane; [done|congruence].
Qed.

Lemma parse_sane f :
  (forall bind st, 0 <= bind -> live st -> sane (parse_ E f bind st)) /\
  (forall bind e st, 0 <= bind -> live st -> sane (parse_loop E f bind e st)).
Proof using Hok.
  induction f as [|f [IHp IHl]]; [split; intros; by right|].
  assert (forall st1 ty el a (g : tree -> tree), live st1 -> E ty = Some el -> el_prefix el = Some a \/ el_infix el = Some a ->
    sane (let* (t, st) := parseoperand (parse_ E f) a st1 in Ok (g t, st))) as Hop.
  { intros st1 ty el a g Hl1 HE Ha. destruct Hok as [_ Hacts]. destruct (Hacts ty el a HE Ha) as [Hb Hc].
    apply sane_bind; [by apply parseoperand_sane|]. by intros t st2 ?. }
  split.
  - intros bind st Hb Hl. pose proof Hl as (t & Hc & Hs). destruct (lookup_live st t Hl Hc) as [el HE]. cbn [parse_].
    destruct (decide (t_type t = "end"%string)) as [He|Hne].
    { assert (p_iter st = []) as Hit by (inversion Hs; done). unfold advance_token, advance. rewrite Hc, Hit. cbn [rbind]. unfold lookup_el. rewrite He.
      destruct Hok as [(el' & -> & Hp & Hpre & _) _]. cbn. rewrite Hp, Hpre. cbn. left. by eexists _, _. }
    pose proof (advance_live st t Hl Hc Hne) as Ha. unfold advance_token. destruct (advance st) as [[t' st1]|]; cbn [rbind]; [|by left].
    destruct Ha as [-> Hl1]. cbn [rbind]. unfold lookup_el. rewrite HE. cbn [rbind].
    destruct (unambiguous_live (el_primary el) (el_prefix el) st1 Hl1) as [prim ->]. cbn [rbind].
    apply sane_bind; [|intros; by apply IHl].
    destruct (el_primary el), prim, (el_prefix el) as [a|] eqn:Ea; try (by apply (Hop st1 (t_type t) el a (fun t => TNode _ [t])); [..|left]); try exact Hl1; left; by eexists _, _.
  - intros bind e st Hb Hl. pose proof Hl as (t & Hc & Hs). destruct (lookup_live st t Hl Hc) as [el HE]. cbn [parse_loop].
    unfold current_type, lookup_el. rewrite Hc. cbn [rbind]. rewrite HE. cbn [rbind]. case_decide as Hbind; [|exact Hl].
    assert (t_type t ≠ "end"%string) as Hne.
    { intros He. rewrite He in HE. destruct Hok as [(el' & HE' & _ & _ & Hle) _]. rewrite HE in HE'. injection HE' as <-. lia. }
    pose proof (advance_live st t Hl Hc Hne) as Ha. unfold advance_token. destruct (advance st) as [[t' st1]|]; cbn [rbind]; [|by left].
    destruct Ha as [-> Hl1]. cbn [rbind].
    destruct (unambiguous_live (el_suffix el) (el_infix el) st1 Hl1) as [suff ->]. cbn [rbind].
    apply sane_bind; [|intros; by apply IHl].
    destruct (el_suffix el), suff, (el_infix el) as [a|] eqn:Ea; try (by apply (Hop st1 (t_type t) el a (fun t => TNode _ [e; t])); [..|right]); try exact Hl1; left; by eexists _, _.
Qed.

Lemma parse_outcome_spec tokens :
  stream tokens -> Forall (fun r => r ≠ Err OutOfFuel) tokens ->
  match parse E tokens with Ok _ => True | Err e => parse_error e end.
Proof using Hok.
  intros Hs Hf. unfold parse, advance at 1. cbn [p_iter]. destruct tokens as [|[t|e] it]; [inversion Hs| |]; cbn [rbind].
  - assert (live (PState (Some t) it)) as Hl by (by exists t).
    pose proof (proj1 (parse_sane (S (length (Ok t :: it)))) 0 (PState (Some t) it) ltac:(lia) Hl) as Hp.
    pose proof (proj1 (parse_ends E (S (length (Ok t :: it)))) 0 (PState (Some t) it)) as He. apply Forall_cons in Hf as [_ Hf].
    specialize (He Hf ltac:(unfold left_; cbn; lia)). cbn [p_current].
    destruct (parse_ E _ 0 _) as [[t' st]|err]; cbn [rbind].
    + destruct Hp as (t1 & -> & _). done.
    + by destruct Hp.
  - inversion Hs; subst. by eexists _, _.
Qed.
End errors.

(** ** The tokens that are left *)

(** The tokens from the current one on. *)
Definition ahead (st : pstate) : list (res token) :=
  match p_current st with Some t => Ok t :: p_iter st | None => p_iter st end.

(** The current token of [st'] is one of those ahead of [st]. *)
Definition reaches (st st' : pstate) : Prop := ahead st' `suffix_of` ahead st.

#[export] Instance reaches_preorder : PreOrder reaches.
Proof. unfold reaches. split; [intros st; done|]. intros st1 st2 st3 H1 H2. by etrans. Qed.

Lemma advance_reaches st t st' : advance st = Ok (t, st') -> reaches st st'.
Proof.
  unfold advance, reaches, ahead. intros H. destruct (p_iter st) as [|[t1|e] it] eqn:Hi; [| |done]; injection H as <- <-; cbn; rewrite ?Hi.
  - apply suffix_nil.
  - destruct (p_current st); [by apply suffix_cons_r|done].
Qed.

Lemma advance_token_reaches st t st' : advance_token st = Ok (t, st') -> reaches st st'.
Proof.
  unfold advance_token. intros ([t1 st1] & H1 & H2)%rbind_Ok. destruct t1; [|done]. injection H2 as <- <-. by eapply advance_reaches.
Qed.

Lemma parseoperand_reaches (p : Z -> pstate -> res (tree * pstate)) a st t st' :
  (forall b st t st', p b st = Ok (t, st') -> reaches st st') -> parseoperand p a st = Ok (t, st') -> reaches st st'.
Proof.
  intros Hp. unfold parseoperand. destruct (a_close a) as [m|]; [|apply Hp]. intros (ty & _ & H)%rbind_Ok.
  apply rbind_Ok in H as ([e st1] & H1 & H). apply rbind_Ok in H as (st2 & H2 & [= -> ->]). transitivity st1.
  - case_decide; [by injection H1 as <- <-|by eapply Hp].
  - unfold match_close in H2. destruct (p_current st1); [|done]. case_decide; [|done].
    apply rbind_Ok in H2 as ([t1 st3] & H2 & [= <-]). by eapply advance_reaches.
Qed.

(** A parse stops at one of the tokens ahead, which does not bind. *)
Definition stops (E : elements) (bind : Z) (st : pstate) : Prop :=
  exists n el, p_current st = Some n /\ E (t_type n) = Some el /\ el_bind el <= bind.

Lemma parse_reaches E f :
  (forall bind st t st', parse_ E f bind st = Ok (t, st') -> reaches st st' /\ stops E bind st') /\
  (forall bind e st t st', parse_loop E f bind e st = Ok (t, st') -> reaches st st' /\ stops E bind st').
Proof.
  induction f as [|f [IHp IHl]]; [done|].
  assert (forall a st (g : tree -> tree) t st', (let* (t, st) := parseoperand (parse_ E f) a st in Ok (g t, st)) = Ok (t, st') -> reaches st st') as Hop.
  { intros a st g t st' ([t1 st1] & H & [= <- <-])%rbind_Ok. eapply parseoperand_reaches, H. intros. by eapply IHp. }
  split.
  - intros bind st t st' H. cbn [parse_] in H. apply rbind_Ok in H as ([tok st1] & H1 & H). apply rbind_Ok in H as (el & _ & H).
    apply rbind_Ok in H as (prim & _ & H). apply rbind_Ok in H as ([e st2] & H2 & H). apply IHl in H as [Hr Hs]. split; [|done].
    transitivity st1; [by eapply advance_token_reaches|]. transitivity st2; [|done].
    destruct (el_primary el), prim, (el_prefix el); try done; try (by injection H2 as <- <-); by apply (Hop _ _ (fun t => TNode _ [t])) in H2.
  - intros bind e st t st' H. cbn [parse_loop] in H. apply rbind_Ok in H as (ty & Hty & H). apply rbind_Ok in H as (el & Hel & H).
    case_decide as Hb.
    + apply rbind_Ok in H as ([tok st1] & H1 & H). apply rbind_Ok in H as (suff & _ & H). apply rbind_Ok in H as ([e' st2] & H2 & H).
      apply IHl in H as [Hr Hs]. split; [|done]. transitivity st1; [by eapply advance_token_reaches|]. transitivity st2; [|done].
      destruct (el_suffix el), suff, (el_infix el); try done; try (by injection H2 as <- <-); by apply (Hop _ _ (fun t => TNode _ [e; t])) in H2.
    + injection H as <- <-. split; [done|]. unfold current_type in Hty. destruct (p_current st) as [n|] eqn:Hc; [|done]. injection Hty as <-.
      unfold lookup_el in Hel. destruct (E (t_type n)) as [el'|] eqn:HE; [|done]. injection Hel as <-. exists n, el'. split_and!; [done..|lia].
Qed.

(** The position [parse] returns is that of a token that does not bind. *)
Lemma parse_stops E tokens t pos :
  parse E tokens = Ok (t, pos) -> exists pre n post el, tokens = pre ++ Ok n :: post /\ E (t_type n) = Some el /\ el_bind el <= 0 /\ t_pos n = pos.
Proof.
  unfold parse. intros ([t0 st0] & Ha & H)%rbind_Ok. apply rbind_Ok in H as ([t1 st1] & Hp & H). cbn beta iota in *.
  apply advance_reaches in Ha. apply parse_reaches in Hp as [Hr (n & el & Hc & HE & Hb)]. rewrite Hc in H. injection H as <- <-.
  assert (reaches (PState None tokens) st1) as [pre Hpre] by by etrans. unfold ahead in Hpre. rewrite Hc in Hpre. cbn in Hpre.
  by exists pre, n, (p_iter st1), el.
Qed.

(** [C26] The parser implements the precedence grammar of its table: for every table
    and every sequence of tokens, [parse] returns a tree and a position exactly when
    a phrase of the grammar spells that tree, all operators on its left spine bind,
    and the token at the position may follow it. *)
Theorem pratt_parse_equiv (E : elements) (toks : list token) (t : tree) (pos : Z) :
  parse E (map Ok toks) = Ok (t, pos) <-> exists n, accepts E toks t n /\ t_pos n = pos.
Proof. apply parse_spec. Qed.

(** Errors and termination: on what a tokenizer gives (tokens of the table, and
    then the end token or a parse error), parsing ends, with a tree or with a
    [ParseError]; no token is looked up in vain and none is read after the end. *)
Theorem pratt_parse_outcome (E : elements) (tokens : list (res token)) :
  table_ok E -> stream E tokens -> Forall (fun r => r ≠ Err OutOfFuel) tokens ->
  match parse E tokens with Ok _ => True | Err e => parse_error e end.
Proof. intros Hok Hs Hf. by apply parse_outcome_spec. Qed.

(** The grammar is unambiguous: a sequence of tokens has one tree. *)
Lemma accepts_unique E toks t t' n n' : accepts E toks t n -> accepts E toks t' n' -> t = t' /\ t_pos n = t_pos n'.
Proof.
  intros H H'. assert (parse E (map Ok toks) = Ok (t, t_pos n)) as E1 by (apply parse_spec; by exists n).
  assert (parse E (map Ok toks) = Ok (t', t_pos n')) as E2 by (apply parse_spec; by exists n'). rewrite E1 in E2. by injection E2 as <- <-.
Qed.
End Pratt.
