(* ===== verification/RevsetTokens.v ===== *)
(** * The tokens of the revision query language (revsetlang.py)

    The table of its operators, the tokenizer, and [_parsewith] up to the raw tree:
    the tokenizer run by the parser of [Pratt]. *)

From S2P Require Import Prelude Lines Struct PyEscape Pratt.

Module RevsetTokens.
Import PyEscape Pratt.

(** ** The table *)

(** A dictionary written as a list. *)
Fixpoint table (l : list (string * element)) : elements :=
  match l with
  | [] => fun _ => None
  | (k, el) :: l => fun ty => if decide (ty = k) then Some el else table l ty
  end.

Definition pre_ (label : string) (b : Z) : option action := Some (Action label b None).
Definition closed (label : string) (b : Z) (m : string) : option action := Some (Action label b (Some m)).

(** [elements] of revsetlang.py *)
Definition revset_rows : list (string * element) := [
  ("(", Element 21 None (closed "group" 1 ")") (closed "func" 1 ")") None);
  ("[", Element 21 None None (closed "subscript" 1 "]") None);
  ("#", Element 21 None None (pre_ "relation" 21) None);
  ("##", Element 20 None None (pre_ "_concat" 20) None);
  ("~", Element 18 None None (pre_ "ancestor" 18) None);
  ("^", Element 18 None None (pre_ "parent" 18) (Some "parentpost"));
  ("-", Element 5 None (pre_ "negate" 19) (pre_ "minus" 5) None);
  ("::", Element 17 None (pre_ "dagrangepre" 17) (pre_ "dagrange" 17) (Some "dagrangepost"));
  ("..", Element 17 None (pre_ "dagrangepre" 17) (pre_ "dagrange" 17) (Some "dagrangepost"));
  (":", Element 15 (Some "rangeall") (pre_ "rangepre" 15) (pre_ "range" 15) (Some "rangepost"));
  ("not", Element 10 None (pre_ "not" 10) None None);
  ("!", Element 10 None (pre_ "not" 10) None None);
  ("and", Element 5 None None (pre_ "and" 5) None);
  ("&", Element 5 None None (pre_ "and" 5) None);
  ("%", Element 5 None None (pre_ "only" 5) (Some "onlypost"));
  ("or", Element 4 None None (pre_ "or" 4) None);
  ("|", Element 4 None None (pre_ "or" 4) None);
  ("+", Element 4 None None (pre_ "or" 4) None);
  ("=", Element 3 None None (pre_ "keyvalue" 3) None);
  (",", Element 2 None None (pre_ "list" 2) None);
  (")", Element 0 None None None None);
  ("]", Element 0 None None None None);
  ("symbol", Element 0 (Some "symbol") None None None);
  ("string", Element 0 (Some "string") None None None);
  ("end", Element 0 None None None None)
]%string.

Definition revset_elements : elements := table revset_rows.

(** ** Characters *)

Definition keywords : list bytes := [bs "and"; bs "or"; bs "not"].
Definition simpleopletters (c : ascii) : bool := bool_decide (c ∈ bs "()[]#:=,-|&+!~^%").

(** [string.ascii_letters + string.digits + "._@"] and the bytes from 128 on. *)
Definition syminitletters (c : ascii) : bool :=
  bool_decide (97 <= ord c <= 122 \/ 65 <= ord c <= 90 \/ 48 <= ord c <= 57 \/ c ∈ bs "._@" \/ 128 <= ord c).
Definition symletters (c : ascii) : bool := syminitletters c || bool_decide (c ∈ bs "-/").
Definition aliassyminitletters (c : ascii) : bool := syminitletters c || bool_decide (c = "$"%char).

(** [c.isspace()] *)
Definition isspace (c : ascii) : bool := bool_decide (9 <= ord c <= 13 \/ ord c = 32).

(** ** The tokenizer *)

Definition tok (ty : string) (v : option bytes) (pos : nat) : res token := Ok (Token ty v (Z.of_nat pos)).

(** The position of the closing quote [q]; [s] is the program from [pos] on. *)
Fixpoint find_quote (q : ascii) (s : bytes) (pos : nat) : option nat :=
  match s with
  | [] => None
  | d :: s =>
      if decide (d = backslash) then match s with [] => None | _ :: s => find_quote q s (S (S pos)) end
      else if decide (d = q) then Some pos
      else find_quote q s (S pos)
  end.

Section tokenize.
Context (lookup : option (bytes -> bool)) (initletters letters : ascii -> bool) (program : bytes).

(** [program[i:j]] *)
Definition sub (i j : nat) : bytes := take (j - i) (drop i program).

(** The end of a symbol: [s] is the program from [pos] on, after [prev]. *)
Fixpoint find_end (prev : ascii) (s : bytes) (pos : nat) : nat :=
  match s with
  | [] => pos
  | d :: s =>
      if negb (letters d) then pos
      else if bool_decide (d = "."%char /\ prev = "."%char) then (pos - 1)%nat
      else find_end d s (S pos)
  end.

(** A symbol that contains [-], taken apart; [pos] is its end. *)
Fixpoint dash_parts (parts : list bytes) (s pos : nat) : list (res token) :=
  match parts with
  | [] => []
  | [p] => if decide (p = []) then [] else [tok "symbol" (Some p) s]
  | p :: ps =>
      (if decide (p = []) then [] else [tok "symbol" (Some p) s]) ++
      tok "-" None pos :: dash_parts ps (S (s + length p)) pos
  end.

(** A symbol or keyword from [s] to [pos]. *)
Definition symbol_tokens (s pos : nat) : list (res token) :=
  let sym := sub s pos in
  if decide (sym ∈ keywords) then [tok (String.string_of_list_ascii sym) None s]
  else if decide ("-"%char ∈ sym) then
    if match lookup with Some f => f sym | None => false end then [tok "symbol" (Some sym) s]
    else dash_parts (split "-"%char sym) s pos
  else [tok "symbol" (Some sym) s].

(** The main loop, from [pos] on. *)
Fixpoint tokens_from (fuel pos : nat) : list (res token) :=
  match fuel with
  | O => [Err OutOfFuel]
  | S fuel =>
      let quoted (q : ascii) (s : nat) (decode : bytes -> res bytes) :=
        match find_quote q (drop s program) s with
        | None => [Err (ParseError "unterminated string" (Some (Z.of_nat s)))]
        | Some e =>
            match decode (sub s e) with
            | Ok v => tok "string" (Some v) s :: tokens_from fuel (S e)
            | Err err => [Err err]
            end
        end in
      match drop pos program with
      | [] => [tok "end" None pos]
      | c :: rest =>
          if isspace c then tokens_from fuel (S pos)
          else if bool_decide (c = ":"%char /\ head rest = Some ":"%char) then tok "::" None pos :: tokens_from fuel (S (S pos))
          else if bool_decide (c = "."%char /\ head rest = Some "."%char) then tok ".." None pos :: tokens_from fuel (S (S pos))
          else if bool_decide (c = "#"%char /\ head rest = Some "#"%char) then tok "##" None pos :: tokens_from fuel (S (S pos))
          else if simpleopletters c then tok (String c "") None pos :: tokens_from fuel (S pos)
          else if bool_decide (c = squote \/ c = dquote) then quoted c (S pos) parser_unescapestr
          else if bool_decide (c = "r"%char /\ head rest = Some squote) then quoted squote (S (S pos)) Ok
          else if bool_decide (c = "r"%char /\ head rest = Some dquote) then quoted dquote (S (S pos)) Ok
          else if initletters c then
            let pos' := find_end c rest (S pos) in
            symbol_tokens pos pos' ++ tokens_from fuel pos'
          else [Err (ParseError "syntax error in revset" (Some (Z.of_nat pos)))]
      end
  end.

(** [program.split(":", 1)] *)
Fixpoint split_colon (s : bytes) : bytes * option bytes :=
  match s with
  | [] => ([], None)
  | c :: s => if decide (c = ":"%char) then ([], Some s) else let (a, b) := split_colon s in (c :: a, b)
  end.

(** A range of two names that are looked up whole, such as old-tag:x *)
Definition old_style : option (list (res token)) :=
  match lookup with
  | Some f =>
      let known (sym : bytes) := bool_decide (sym = []) || f sym in
      let sym (p : bytes) (pos : nat) := if decide (p = []) then [] else [tok "symbol" (Some p) pos] in
      let (a, b) := split_colon program in
      if known a && match b with Some b => known b | None => true end then
        Some (sym a 0%nat ++ match b with Some b => tok ":" None (length a) :: sym b (S (length a)) | None => [] end ++
              [tok "end" None (length program)])
      else None
  | None => None
  end.

(** [tokenize] *)
Definition tokenize : list (res token) :=
  match (if decide (program = []) then None else old_style) with
  | Some ts => ts
  | None => tokens_from (S (length program)) 0
  end.
End tokenize.

(** [_parsewith] up to the raw tree: a program that has more tokens is an error. *)
Definition parse_raw (lookup : option (bytes -> bool)) (initletters : ascii -> bool) (spec : bytes) : res tree :=
  let* (t, pos) := parse revset_elements (tokenize lookup initletters symletters spec) in
  if decide (pos = zlen spec) then Ok t else Err (ParseError "invalid token" (Some pos)).

(** [_quote] *)
Definition _quote (s : bytes) : bytes := squote :: escapestr s ++ [squote].

(** ** What the tokenizer gives *)

(** Symbols and strings have a value, operators have none. *)
Definition valued (t : token) : Prop :=
  match t_value t with
  | Some _ => t_type t = "symbol"%string \/ t_type t = "string"%string
  | None => t_type t ≠ "symbol"%string /\ t_type t ≠ "string"%string
  end.

(** Tokens of the table, those before position [n] or of an operator, and then the
    end token at [n] or a parse error. *)
Definition inner (n : nat) (t : token) : Prop :=
  t_type t ≠ "end"%string /\ valued t /\ exists el, revset_elements (t_type t) = Some el /\ (t_pos t < Z.of_nat n \/ 0 < el_bind el).

Definition end_token (n : nat) : token := Token "end" None (Z.of_nat n).

Inductive ends_at (n : nat) : list (res token) -> Prop :=
  | ends_end : ends_at n [Ok (end_token n)]
  | ends_error msg pos : ends_at n [Err (ParseError msg pos)]
  | ends_cons t l : inner n t -> ends_at n l -> ends_at n (Ok t :: l).

Lemma ends_app n ts l : Forall (fun r => exists t, r = Ok t /\ inner n t) ts -> ends_at n l -> ends_at n (ts ++ l).
Proof. induction 1 as [|r ts (t & -> & Ht) _ IH]; intros Hl; [done|]. cbn. apply ends_cons; auto. Qed.

Lemma ends_stream n l : ends_at n l -> stream revset_elements l.
Proof.
  induction 1 as [|msg pos|t l (Hne & _ & el & He & _) _ IH]; [by apply stream_end|apply stream_err|]. by apply stream_cons; [|eexists|].
Qed.

Lemma ends_no_fuel n l : ends_at n l -> Forall (fun r => r ≠ Err OutOfFuel) l.
Proof. induction 1; repeat constructor; done. Qed.

Lemma find_quote_bounds q s pos e : find_quote q s pos = Some e -> (pos <= e < pos + length s)%nat.
Proof.
  remember (length s) as k eqn:Hk. revert s pos Hk. induction (lt_wf k) as [k _ IH]. intros s pos ->.
  destruct s as [|d s]; [done|]. cbn. case_decide; [destruct s as [|d' s]; [done|]|case_decide; [intros [= ->]; cbn; lia|]].
  - intros H2. apply (IH (length s)) in H2; [cbn; lia..|done].
  - intros H2. apply (IH (length s)) in H2; [cbn; lia..|done].
Qed.

Lemma find_end_bounds letters prev s pos :
  (pos - 1 <= find_end letters prev s pos <= pos + length s)%nat /\
  (~ (prev = "."%char /\ head s = Some "."%char) -> (pos <= find_end letters prev s pos)%nat).
Proof.
  revert prev pos. induction s as [|d s IH]; intros prev pos; cbn; [lia|]. destruct (letters d); cbn; [|lia].
  case_bool_decide as Hd; [split; [lia|]; intros []; split; [tauto|]; by destruct Hd as [-> _]|]. specialize (IH d (S pos)). lia.
Qed.

Lemma tok_inner n ty v pos el :
  revset_elements ty = Some el -> ty ≠ "end"%string -> valued (Token ty v (Z.of_nat pos)) -> (pos < n)%nat \/ 0 < el_bind el ->
  exists t, tok ty v pos = Ok t /\ inner n t.
Proof. intros He Hne Hv Hp. eexists. split; [done|]. split; [done|]. split; [done|]. exists el. split; [done|]. cbn. lia. Qed.

Lemma tok_symbol n v pos : (pos < n)%nat -> exists t, tok "symbol" (Some v) pos = Ok t /\ inner n t.
Proof. intros H. by eapply tok_inner; [reflexivity| |left|left]. Qed.

Lemma dash_parts_inner n parts s pos :
  (s + length (join "-"%char parts) <= n)%nat -> Forall (fun r => exists t, r = Ok t /\ inner n t) (dash_parts parts s pos).
Proof.
  revert s. induction parts as [|p [|p' parts] IH]; intros s Hn; [constructor| |].
  - cbn in *. case_decide as Hp; [constructor|]. repeat constructor. apply tok_symbol. destruct p; [done|]. cbn in *. lia.
  - cbn [dash_parts]. set (ps := p' :: parts) in *. assert (join "-"%char (p :: ps) = p ++ "-"%char :: join "-"%char ps) as Hj by done.
    rewrite Hj, length_app in Hn. cbn [length] in Hn. apply Forall_app. split.
    + case_decide as Hp; [constructor|]. repeat constructor. apply tok_symbol. destruct p; [done|]. cbn in *. lia.
    + constructor; [by eapply tok_inner; [reflexivity| | |right]|]. apply IH. lia.
Qed.

Lemma length_sub (program : bytes) i j : (i <= j)%nat -> (j <= length program)%nat -> length (sub program i j) = (j - i)%nat.
Proof. intros. unfold sub. rewrite length_take, length_drop. lia. Qed.

Lemma symbol_tokens_inner lookup program s pos :
  (s < pos)%nat -> (pos <= length program)%nat ->
  Forall (fun r => exists t, r = Ok t /\ inner (length program) t) (symbol_tokens lookup program s pos).
Proof.
  intros Hs Hp. pose proof (length_sub program s pos ltac:(lia) Hp) as Hl. unfold symbol_tokens. set (sym := sub program s pos) in *.
  assert (exists t, tok "symbol" (Some sym) s = Ok t /\ inner (length program) t) as Hsym by (apply tok_symbol; lia).
  case_decide as Hk; [|case_decide; [case_match|]].
  - repeat constructor. unfold keywords in Hk. rewrite !elem_of_cons in Hk.
    destruct Hk as [->|[->|[->|H]]]; [..|by inversion H]; by (eapply tok_inner; [reflexivity|done|done|right]).
  - by repeat constructor.
  - apply dash_parts_inner. rewrite split_join. lia.
  - by repeat constructor.
Qed.

Lemma simpleop_inner n c pos : simpleopletters c = true -> exists t, tok (String c "") None pos = Ok t /\ (pos < n -> inner n t)%nat.
Proof.
  intros Hc. eexists. split; [done|]. intros Hn. unfold simpleopletters in Hc. apply bool_decide_eq_true in Hc.
  assert (bool_decide (is_Some (revset_elements (String c ""))) = true) as [el Hel]%bool_decide_eq_true.
  { assert (forallb (fun c => bool_decide (is_Some (revset_elements (String c "")))) (bs "()[]#:=,-|&+!~^%") = true) as Ha by reflexivity.
    rewrite forallb_forall in Ha. by apply Ha, list_elem_of_In. }
  split; [intros [=]|]. split; [by split; intros [=]|]. exists el. split; [done|]. cbn. lia.
Qed.

Lemma parser_unescapestr_outcome s : match parser_unescapestr s with Ok v => unescapestr s = Ok v | Err e => e = ParseError "invalid escape" None end.
Proof. unfold parser_unescapestr. pose proof (unescape_outcome s) as H. by destruct (unescapestr s) as [v|e]; [|cbn in H; subst e]. Qed.

Lemma tokens_from_ends lookup initletters letters program fuel pos :
  (pos <= length program)%nat -> (length program - pos < fuel)%nat ->
  ends_at (length program) (tokens_from lookup initletters letters program fuel pos).
Proof.
  revert pos. induction fuel as [|fuel IH]; intros pos Hp Hf; [lia|]. cbn [tokens_from].
  pose proof (length_drop program pos) as Hl. destruct (drop pos program) as [|c rest] eqn:Hd; cbn [length] in Hl.
  { replace pos with (length program) by lia. constructor. }
  assert (forall ty el k, revset_elements ty = Some el -> ty ≠ "end"%string -> ty ≠ "symbol"%string /\ ty ≠ "string"%string -> head rest = Some k ->
    ends_at (length program) (tok ty None pos :: tokens_from lookup initletters letters program fuel (S (S pos)))) as Hop2.
  { intros ty el k He Hne Hv Hh. destruct rest; [done|]. cbn in Hl. destruct (tok_inner (length program) ty None pos el He Hne Hv) as (t & -> & Ht); [lia|].
    constructor; [done|]. apply IH; lia. }
  assert (forall q s decode, (pos < s)%nat -> (forall v e, decode v = Err e -> exists msg p, e = ParseError msg p) ->
    ends_at (length program) match find_quote q (drop s program) s with
      | None => [Err (ParseError "unterminated string" (Some (Z.of_nat s)))]
      | Some e => match decode (sub program s e) with Ok v => tok "string" (Some v) s :: tokens_from lookup initletters letters program fuel (S e) | Err err => [Err err] end
      end) as Hquoted.
  { intros q s decode Hs Hdec. destruct (find_quote q (drop s program) s) as [e|] eqn:Hq; [|constructor].
    apply find_quote_bounds in Hq. rewrite length_drop in Hq. destruct (decode _) as [v|err] eqn:Hde; [|destruct (Hdec _ _ Hde) as (? & ? & ->); constructor].
    destruct (tok_inner (length program) "string" (Some v) s _ eq_refl) as (t & -> & Ht); [done|by right|lia|]. constructor; [done|]. apply IH; lia. }
  destruct (isspace c); [apply IH; lia|].
  case_bool_decide as H1; [by destruct H1; eapply Hop2|]. case_bool_decide as H2; [by destruct H2; eapply Hop2|].
  case_bool_decide as H3; [by destruct H3; eapply Hop2|].
  destruct (simpleopletters c) eqn:Hc; [destruct (simpleop_inner (length program) c pos Hc) as (t & -> & Ht); constructor; [apply Ht; lia|apply IH; lia]|].
  case_bool_decide; [apply Hquoted; [lia|]|].
  { intros v e He. pose proof (parser_unescapestr_outcome v) as Ho. rewrite He in Ho. subst. by eexists _, _. }
  case_bool_decide; [by apply (Hquoted squote (S (S pos)) Ok); [lia|]|]. case_bool_decide; [by apply (Hquoted dquote (S (S pos)) Ok); [lia|]|].
  destruct (initletters c); [|constructor].
  destruct (find_end_bounds letters c rest (S pos)) as [Hb1 Hb2]. specialize (Hb2 H2).
  apply ends_app; [apply symbol_tokens_inner; lia|]. apply IH; lia.
Qed.

Lemma split_colon_spec s : match split_colon s with (a, Some b) => s = a ++ ":"%char :: b | (a, None) => s = a end.
Proof. induction s as [|c s IH]; [done|]. cbn. case_decide; [by subst|]. destruct (split_colon s) as [a [b|]]; cbn; congruence. Qed.

Lemma tokenize_ends lookup initletters letters program : ends_at (length program) (tokenize lookup initletters letters program).
Proof.
  unfold tokenize. case_decide as Hp; [apply tokens_from_ends; lia|]. destruct (old_style lookup program) as [ts|] eqn:Ho; [|apply tokens_from_ends; lia].
  unfold old_style in Ho. destruct lookup as [f|]; [|done]. pose proof (split_colon_spec program) as Hs. destruct (split_colon program) as [a b].
  destruct (_ && _) in Ho; [|done]. injection Ho as <-. assert (forall p s, (s + length p <= length program)%nat ->
    Forall (fun r => exists t, r = Ok t /\ inner (length program) t) (if decide (p = []) then [] else [tok "symbol" (Some p) s])) as Hsym.
  { intros p s Hl. case_decide; [constructor|]. repeat constructor. apply tok_symbol. destruct p; [done|]. cbn in *. lia. }
  apply ends_app; [apply Hsym; destruct b; subst program; rewrite ?length_app; lia|]. apply ends_app; [|constructor].
  destruct b as [b|]; [|constructor]. subst program. rewrite length_app in *. cbn [length] in *.
  constructor; [eapply tok_inner; [reflexivity|done|done|lia]|]. apply Hsym. lia.
Qed.

(** ** Parsing *)

Lemma revset_table_ok : table_ok revset_elements.
Proof.
  split; [by eexists|]. intros ty el a. unfold revset_elements, revset_rows, table.
  repeat (case_decide; [intros [= <-] [[=]|[=]]; subst; done|]). done.
Qed.

(** In this table every operator binds, and operands are open at no negative
    strength. *)
Lemma revset_edges :
  (forall toks t sp r amb, expr revset_elements toks t sp r amb -> above 0 sp /\ above (-1) r) /\
  (forall toks t a r amb, operand revset_elements toks t a r amb -> 0 <= a_bind a -> above (-1) r).
Proof.
  assert (forall ty el, revset_elements ty = Some el -> is_Some (el_infix el) \/ is_Some (el_suffix el) -> 0 < el_bind el) as Hbind.
  { intros ty el. unfold revset_elements, revset_rows, table. repeat (case_decide; [intros [= <-] [[? [=]]|[? [=]]]; done|]). done. }
  apply expr_operand_ind; intros; rewrite ?above_omin; cbn [above] in *; split_and?; try tauto; try lia.
  all: try (match goal with H : revset_elements _ = Some ?el |- _ < el_bind ?el => eapply Hbind, or_introl; eauto; fail end).
  all: try (match goal with H : revset_elements _ = Some ?el |- _ < el_bind ?el => eapply Hbind, or_intror; eauto; fail end).
  all: match goal with H : _ -> above _ _ |- _ => apply H end; eapply (proj2 revset_table_ok); eauto.
Qed.

Lemma ends_all n pre m post : ends_at n (pre ++ Ok m :: post) -> exists toks, pre = map Ok toks.
Proof.
  revert post. induction pre as [|r pre IH]; intros post H; [by exists []|].
  inversion H as [Ht|msg pos Ht|t l Ht Hl]; subst; [by destruct pre..|]. destruct (IH _ Hl) as [toks ->]. by exists (t :: toks).
Qed.

Lemma ends_valued n toks m post : ends_at n (map Ok toks ++ m :: post) -> Forall valued toks.
Proof.
  induction toks as [|t toks IH]; intros H; [constructor|]. cbn in H.
  inversion H as [Ht|msg pos Ht|t' l (_ & Hv & _) Hl]; subst; [by destruct toks|]. constructor; [done|by apply IH].
Qed.

(** Only the end token stands at the end and does not bind. *)
Lemma ends_last n pre m post el :
  ends_at n (pre ++ Ok m :: post) -> revset_elements (t_type m) = Some el -> el_bind el <= 0 -> t_pos m = Z.of_nat n ->
  m = end_token n /\ post = [].
Proof.
  revert post. induction pre as [|r pre IH]; intros post H He Hb Hp; cbn in H; inversion H as [Ht|msg pos Ht|t l Ht Hl]; subst.
  - done.
  - destruct Ht as (_ & _ & el' & He' & Hor). rewrite He in He'. injection He' as <-. lia.
  - by destruct pre.
  - by destruct pre.
  - by apply IH.
Qed.

Lemma ends_unique n toks toks' m post el :
  ends_at n (map Ok toks) -> toks = toks' ++ m :: post -> revset_elements (t_type m) = Some el -> el_bind el <= 0 -> t_pos m = Z.of_nat n ->
  m = end_token n /\ post = [].
Proof.
  intros H -> He Hb Hp. rewrite map_app in H. cbn [map] in H. destruct (ends_last _ _ _ _ _ H He Hb Hp) as [-> Hpost].
  split; [done|]. by destruct post.
Qed.

Lemma parse_raw_spec lookup initletters spec t :
  parse_raw lookup initletters spec = Ok t <->
  exists toks sp r amb, tokenize lookup initletters symletters spec = map Ok (toks ++ [end_token (length spec)]) /\
    expr revset_elements toks t sp r amb.
Proof.
  unfold parse_raw. pose proof (tokenize_ends lookup initletters symletters spec) as Hends.
  set (ts := tokenize _ _ _ _) in *. split.
  - intros ([t' pos] & Hp & H)%rbind_Ok. case_decide as Hpos; [|done]. injection H as ->.
    pose proof Hp as Hp'. apply parse_stops in Hp' as (pre & n & post & el & Hts & HE & Hb & Hn). rewrite Hts in Hends.
    destruct (ends_last _ _ _ _ _ Hends HE Hb ltac:(unfold zlen in *; congruence)) as [-> ->].
    destruct (ends_all _ _ _ _ Hends) as [toks ->]. rewrite Hts in Hp |- *. change [Ok (end_token (length spec))] with (map Ok [end_token (length spec)]) in *.
    rewrite <- map_app in *. apply parse_spec in Hp as (n & (phrase & rest & eln & sp & r & amb & Htk & Hex & _ & HEn & Hbn & _) & Hnp).
    destruct (ends_unique _ _ _ _ _ _ Hends Htk HEn Hbn ltac:(unfold zlen in *; congruence)) as [-> ->].
    apply app_inj_tail in Htk as [-> _]. by exists phrase, sp, r, amb.
  - intros (toks & sp & r & amb & -> & Hex). assert (parse revset_elements (map Ok (toks ++ [end_token (length spec)])) = Ok (t, zlen spec)) as ->; [|cbn [rbind]; by rewrite decide_True].
    apply parse_spec. exists (end_token (length spec)). split; [|done]. destruct (proj1 revset_edges _ _ _ _ _ Hex) as [Hsp Hr].
    eexists toks, [], _, sp, r, amb. split_and!; try done. unfold follow. destruct r as [z|]; [|done]. cbn in *. split; [lia|done].
Qed.

Lemma parse_raw_error lookup initletters spec :
  match parse_raw lookup initletters spec with Ok _ => True | Err e => parse_error e end.
Proof.
  unfold parse_raw. pose proof (tokenize_ends lookup initletters symletters spec) as He.
  pose proof (parse_outcome_spec _ revset_table_ok _ (ends_stream _ _ He) (ends_no_fuel _ _ He)) as Hp.
  destruct (parse _ _) as [[t pos]|e]; cbn [rbind]; [|done]. case_decide; [done|]. by eexists _, _.
Qed.

(** ** Quoting *)

Lemma find_quote_escape s post pos :
  find_quote squote (escapestr s ++ squote :: post) pos = Some (pos + length (escapestr s))%nat.
Proof.
  assert (forall c r pos, find_quote squote (escape_char c ++ r) pos = find_quote squote r (length (escape_char c) + pos)) as Hc.
  { intros c r p. destruct c as [[] [] [] [] [] [] [] []]; reflexivity. }
  unfold escapestr. revert pos. induction s as [|c s IH]; intros pos; cbn [mbind list_bind]; [cbn; f_equal; lia|].
  rewrite <- app_assoc, Hc, IH, length_app. f_equal. lia.
Qed.

Lemma sub_drop program pos l post : drop pos program = l ++ post -> sub program pos (pos + length l) = l.
Proof. intros H. unfold sub. rewrite H. replace (pos + length l - pos)%nat with (length l) by lia. apply take_app_length. Qed.

Lemma quote_token lookup initletters letters program fuel pos s post :
  drop pos program = _quote s ++ post ->
  tokens_from lookup initletters letters program (S fuel) pos =
    tok "string" (Some s) (S pos) :: tokens_from lookup initletters letters program fuel (pos + length (_quote s)).
Proof.
  intros Hd. cbn [tokens_from]. rewrite Hd. unfold _quote. cbn [app]. rewrite <- app_assoc. cbn [app head].
  change (isspace squote) with false. change (simpleopletters squote) with false.
  rewrite !bool_decide_false by (intros [? _]; discriminate). rewrite bool_decide_true by (by left).
  assert (drop (S pos) program = escapestr s ++ squote :: post) as Hd'.
  { replace (S pos) with (pos + 1)%nat by lia. rewrite <- drop_drop, Hd. cbn. by rewrite <- app_assoc. }
  rewrite Hd', find_quote_escape. rewrite (sub_drop _ _ _ _ Hd'). unfold parser_unescapestr. rewrite unescape_escape. do 2 f_equal.
  cbn. rewrite length_app. cbn. lia.
Qed.


Example tokenize_examples :
  tokenize None syminitletters symletters (bs "@::") = [tok "symbol" (Some (bs "@")) 0; tok "::" None 1; tok "end" None 3] /\
  tokenize None syminitletters symletters (bs "a-b..c") =
    [tok "symbol" (Some (bs "a")) 0; tok "-" None 3; tok "symbol" (Some (bs "b")) 2; tok ".." None 3; tok "symbol" (Some (bs "c")) 5; tok "end" None 6].
Proof. done. Qed.
Example parse_raw_examples :
  parse_raw None syminitletters (bs "a^:b") =
    Ok (TNode "parent" [TNode "symbol" [TStr (bs "a")]; TNode "rangepre" [TNode "symbol" [TStr (bs "b")]]]) /\
  parse_raw None syminitletters (bs "foo bar") = Err (ParseError "invalid token" (Some 4)).
Proof. done. Qed.

(** [C25] Parsing a query: a program is parsed to a tree exactly when all its tokens,
    up to the end token, form a phrase of the precedence grammar with that tree;
    every other program is rejected with a [ParseError], whatever its bytes. *)
Theorem revset_parse_correct (lookup : option (bytes -> bool)) (initletters : ascii -> bool) (spec : bytes) :
  (forall t, parse_raw lookup initletters spec = Ok t <->
    exists toks sp r amb, tokenize lookup initletters symletters spec = map Ok (toks ++ [end_token (length spec)]) /\
      expr revset_elements toks t sp r amb) /\
  match parse_raw lookup initletters spec with Ok _ => True | Err e => parse_error e end.
Proof. split; [intros t; apply parse_raw_spec|apply parse_raw_error]. Qed.

End RevsetTokens.
