(* ===== verification/ParserTree.v ===== *)
(** * Operations on parse trees (parser.py)

    Flattening of infix operators, templates and patterns with placeholders.  A tree
    is a tuple of a label and its members; what the code finds at [x[0]] and [x[i]]
    is [label] and [member]. *)

From S2P Require Import Prelude Lines Pratt.

Module ParserTree.
Import Pratt.

(** ** Trees *)

Section tree_ind.
Context (P : tree -> Prop) (Hnone : P TNone) (Hstr : forall s, P (TStr s)) (Hnode : forall op l, Forall P l -> P (TNode op l)).

Fixpoint tree_ind' (t : tree) : P t :=
  match t with
  | TNone => Hnone
  | TStr s => Hstr s
  | TNode op l => Hnode op l ((fix go l := match l return Forall P l with [] => Forall_nil_2 P | x :: l => Forall_cons_2 P x l (tree_ind' x) (go l) end) l)
  end.
End tree_ind.

Fixpoint tree_eqb (t t' : tree) : bool :=
  match t, t' with
  | TNone, TNone => true
  | TStr s, TStr s' => bool_decide (s = s')
  | TNode op l, TNode op' l' =>
      bool_decide (op = op') &&
      (fix go l l' := match l, l' with [], [] => true | x :: l, y :: l' => tree_eqb x y && go l l' | _, _ => false end) l l'
  | _, _ => false
  end.

Lemma tree_eqb_spec t t' : tree_eqb t t' = true <-> t = t'.
Proof.
  revert t'. induction t as [|s|op l IH] using tree_ind'; intros [|s'|op' l']; cbn; try done; [rewrite bool_decide_eq_true; split; congruence|].
  rewrite andb_true_iff, bool_decide_eq_true. transitivity (op = op' /\ l = l'); [|split; [intros [-> ->]; done|intros [= -> ->]; done]].
  apply and_iff_compat_l. revert l'. induction IH as [|x l Hx _ IH]; intros [|y l']; try done.
  rewrite andb_true_iff, Hx, IH. split; [intros [-> ->]; done|intros [= -> ->]; done].
Qed.

#[export] Instance tree_eq_dec : EqDecision tree.
Proof.
  intros t t'. destruct (tree_eqb t t') eqn:E; [left; by apply tree_eqb_spec|]. right. intros H%tree_eqb_spec. congruence.
Defined.

Definition is_node (t : tree) : bool := match t with TNode _ _ => true | _ => false end.

(** Nodes and leaves. *)
Fixpoint tree_size (t : tree) : nat :=
  match t with TNode _ l => S ((fix go l := match l with [] => O | x :: l => (tree_size x + go l)%nat end) l) | _ => 1%nat end.
Definition tree_sizes (l : list tree) : nat := sum_list_with tree_size l.

Lemma size_node op l : tree_size (TNode op l) = S (tree_sizes l).
Proof. done. Qed.

Lemma size_pos t : (1 <= tree_size t)%nat.
Proof. destruct t; cbn; lia. Qed.

(** [x[0]], of a tuple, a string or [None]. *)
Definition label (x : tree) : res string :=
  match x with
  | TNode op _ => Ok op
  | TStr (c :: _) => Ok (String c "")
  | TStr [] => Err IndexError
  | TNone => Err TypeError
  end.

(** [x[i]] of a tuple, for [i] at least 1. *)
Definition members (x : tree) : list tree := match x with TNode _ l => l | _ => [] end.
Definition member (x : tree) (i : nat) : res tree :=
  match members x !! pred i with Some y => Ok y | None => Err IndexError end.

(** [tuple(f(y) for y in l)] *)
Definition map_res {A B} (f : A -> res B) : list A -> res (list B) :=
  fix go l := match l with [] => Ok [] | x :: l => let* y := f x in let* ys := go l in Ok (y :: ys) end.

Lemma map_res_Ok {A B} (f : A -> res B) l ys : map_res f l = Ok ys <-> Forall2 (fun x y => f x = Ok y) l ys.
Proof.
  revert ys. induction l as [|x l IH]; intros ys; cbn.
  - split; [intros [= <-]; constructor|intros H; by inversion H].
  - split.
    + intros (y & Hy & (ys' & Hys & [= <-])%rbind_Ok)%rbind_Ok. constructor; [done|]. by apply IH.
    + intros H. inversion H as [|? y ? ys' Hy Hys]; subst. rewrite Hy. cbn. apply IH in Hys. by rewrite Hys.
Qed.

(** ** [simplifyinfixops] *)

Fixpoint simplifyinfixops (targetnodes : list string) (t : tree) : res tree :=
  match t with
  | TNode op l =>
      if decide (op ∈ targetnodes) then
        let walk := fix walk (x : tree) (simplified : list tree) {struct x} : res tree :=
          match x with
          | TNode op' l' =>
              if decide (op' = op) then
                match l' with
                | [l; r] => let* r := simplifyinfixops targetnodes r in walk l (r :: simplified)
                | _ => Err ValueError
                end
              else let* x := simplifyinfixops targetnodes x in Ok (TNode op (x :: simplified))
          | _ =>
              let* c := label x in
              if decide (c = op) then Err ValueError else Ok (TNode op (x :: simplified))
          end in
        match l with
        | [l; r] => let* r := simplifyinfixops targetnodes r in walk l [r]
        | _ => Err ValueError
        end
      else let* l := map_res (simplifyinfixops targetnodes) l in Ok (TNode op l)
  | _ => Ok t
  end.

(** ** Templates *)

Section templates.
Context (placeholder : tree).

(** [_buildtree]; the replacements that are left are returned. *)
Fixpoint _buildtree (template : tree) (repls : list tree) : res (tree * list tree) :=
  if decide (template = placeholder) then
    match repls with y :: repls => Ok (y, repls) | [] => Err IndexError end
  else
    match template with
    | TNode op l =>
        let* (l, repls) :=
          (fix go (l repls : list tree) : res (list tree * list tree) :=
            match l with
            | [] => Ok ([], repls)
            | x :: l => let* (y, repls) := _buildtree x repls in let* (ys, repls) := go l repls in Ok (y :: ys, repls)
            end) l repls in
        Ok (TNode op l, repls)
    | _ => Ok (template, repls)
    end.

(** [buildtree] *)
Definition buildtree (template : tree) (repls : list tree) : res tree :=
  if is_node placeholder then
    let* (r, unused) := _buildtree template repls in
    match unused with [] => Ok r | _ :: _ => Err ProgrammingError end
  else Err ProgrammingError.

(** ** Patterns *)

Context (incompletenodes : list string).

(** [_matchtree]; the nodes that match are added to [matches]. *)
Fixpoint _matchtree (pattern x : tree) (matches : list tree) : bool * list tree :=
  if decide (pattern = x) then (true, matches)
  else
    match pattern, x with
    | TNode op l, TNode op' l' =>
        if decide (pattern = placeholder /\ op' ∉ incompletenodes) then (true, matches ++ [x])
        else if decide (length l = length l' /\ op = op') then
          (fix go (l l' matches : list tree) : bool * list tree :=
            match l, l' with
            | p :: l, y :: l' => match _matchtree p y matches with (true, matches) => go l l' matches | r => r end
            | _, _ => (true, matches)
            end) l l' matches
        else (false, matches)
    | _, _ => (false, matches)
    end.

(** [matchtree], with a placeholder: the tree and what the placeholders match. *)
Definition matchtree (pattern x : tree) : res (option (list tree)) :=
  if is_node placeholder then
    match _matchtree pattern x [x] with (true, matches) => Ok (Some matches) | _ => Ok None end
  else Err ProgrammingError.

(** ** Templates and patterns are inverse *)

(** The placeholder does not occur in a tree. *)
Fixpoint plain (t : tree) : bool :=
  negb (bool_decide (t = placeholder)) &&
  match t with TNode op l => (fix go l := match l with [] => true | x :: l => plain x && go l end) l | _ => true end.

(** Nodes that a placeholder can stand for. *)
Definition complete (t : tree) : bool := match t with TNode op _ => bool_decide (op ∉ incompletenodes) | _ => false end.

Definition _buildtrees : list tree -> list tree -> res (list tree * list tree) :=
  fix go (l repls : list tree) : res (list tree * list tree) :=
    match l with
    | [] => Ok ([], repls)
    | x :: l => let* (y, repls) := _buildtree x repls in let* (ys, repls) := go l repls in Ok (y :: ys, repls)
    end.

Definition _matchtrees : list tree -> list tree -> list tree -> bool * list tree :=
  fix go (l l' matches : list tree) : bool * list tree :=
    match l, l' with
    | p :: l, y :: l' => match _matchtree p y matches with (true, matches) => go l l' matches | r => r end
    | _, _ => (true, matches)
    end.

Lemma buildtree_node op l repls :
  TNode op l ≠ placeholder -> _buildtree (TNode op l) repls = let* (l, repls) := _buildtrees l repls in Ok (TNode op l, repls).
Proof using Type. intros H. cbn. by rewrite decide_False. Qed.

Lemma matchtree_node op l op' l' matches :
  TNode op l ≠ TNode op' l' -> ~ (TNode op l = placeholder /\ op' ∉ incompletenodes) ->
  _matchtree (TNode op l) (TNode op' l') matches =
    if decide (length l = length l' /\ op = op') then _matchtrees l l' matches else (false, matches).
Proof using Type. intros H1 H2. cbn. rewrite decide_False by done. by rewrite decide_False. Qed.

Lemma plain_node op l : plain (TNode op l) = true <-> TNode op l ≠ placeholder /\ Forall (fun x => plain x = true) l.
Proof using Type.
  cbn. rewrite andb_true_iff, negb_true_iff, bool_decide_eq_false. apply and_iff_compat_l.
  induction l as [|x l IH]; [by split|]. rewrite andb_true_iff, Forall_cons, IH. done.
Qed.

(** A template without placeholders is its own instance. *)
Lemma buildtree_plain t repls : plain t = true -> _buildtree t repls = Ok (t, repls).
Proof using Type.
  revert repls. induction t as [|s|op l IH] using tree_ind'; intros repls Hp.
  - cbn in *. by case_bool_decide; [|rewrite decide_False].
  - cbn in *. by case_bool_decide; [|rewrite decide_False].
  - apply plain_node in Hp as [Hne Hp]. rewrite buildtree_node by done.
    assert (_buildtrees l repls = Ok (l, repls)) as ->; [|done].
    clear Hne. revert repls Hp. induction IH as [|x l Hx _ IH]; intros repls Hp; [done|].
    apply Forall_cons in Hp as [Hp Hps]. cbn. rewrite Hx by done. cbn [rbind]. change ((let* (ys, repls) := _buildtrees l repls in Ok (x :: ys, repls)) = Ok (x :: l, repls)).
    by rewrite IH.
Qed.

Context (Hplaceholder : complete placeholder = true).

Lemma matchtree_self x matches matches' :
  plain x = true -> (true, matches) = (true, matches') -> exists ms, matches' = matches ++ ms /\ forall rest, _buildtree x (ms ++ rest) = Ok (x, rest).
Proof using Type. intros Hp [= <-]. exists []. rewrite app_nil_r. split; [done|]. intros rest. by apply buildtree_plain. Qed.

(** What a pattern matches is the instance of the pattern for the matches. *)
Lemma matchtree_build p x matches matches' :
  plain x = true -> _matchtree p x matches = (true, matches') ->
  exists ms, matches' = matches ++ ms /\ forall rest, _buildtree p (ms ++ rest) = Ok (x, rest).
Proof using Hplaceholder.
  revert x matches matches'. induction p as [|s|op l IH] using tree_ind'; intros x matches matches' Hp Hm;
    [cbn in Hm; case_decide; [subst x; by apply matchtree_self|done]..|].
  destruct (decide (TNode op l = x)) as [<-|Hne]; [cbn in Hm; rewrite decide_True in Hm by done; by apply matchtree_self|].
  destruct x as [|s|op' l']; [by cbn in Hm..|].
  destruct (decide (TNode op l = placeholder /\ op' ∉ incompletenodes)) as [Hph|Hph].
  { cbn in Hm. rewrite decide_False in Hm by done. rewrite decide_True in Hm by done. injection Hm as <-. exists [TNode op' l'].
    split; [done|]. intros rest. cbn. by rewrite decide_True by tauto. }
  rewrite matchtree_node in Hm by done. case_decide as Hlen; [|done]. destruct Hlen as [Hlen <-].
  apply plain_node in Hp as [Hnp Hp]. assert (TNode op l ≠ placeholder) as Hnp'.
  { intros He. apply Hph. split; [done|]. rewrite <- He in Hplaceholder. by apply bool_decide_eq_true in Hplaceholder. }
  assert (exists ms, matches' = matches ++ ms /\ forall rest, _buildtrees l (ms ++ rest) = Ok (l', rest)) as (ms & -> & Hms).
  2:{ exists ms. split; [done|]. intros rest. rewrite buildtree_node by done. by rewrite Hms. }
  clear Hne Hph Hnp Hnp'. revert l' matches Hp Hlen Hm. induction IH as [|p l Hx _ IH]; intros l' matches Hp Hlen Hm.
  - destruct l'; [|done]. injection Hm as <-. exists []. by rewrite app_nil_r.
  - destruct l' as [|y l']; [done|]. apply Forall_cons in Hp as [Hy Hp]. cbn in Hm. destruct (_matchtree p y matches) as [[] m1] eqn:H1; [|done].
    apply Hx in H1 as (ms1 & -> & Hb1); [|done]. apply IH in Hm as (ms2 & -> & Hb2); [|done|by injection Hlen].
    exists (ms1 ++ ms2). split; [by rewrite app_assoc|]. intros rest. cbn. rewrite <- app_assoc, Hb1. cbn [rbind].
    change ((let* (ys, repls) := _buildtrees l (ms2 ++ rest) in Ok (y :: ys, repls)) = Ok (y :: l', rest)). by rewrite Hb2.
Qed.

(** The nodes that are recorded can stand alone. *)
Lemma matchtree_complete p x matches matches' :
  _matchtree p x matches = (true, matches') -> exists ms, matches' = matches ++ ms /\ Forall (fun y => complete y = true) ms.
Proof using Type.
  assert (forall matches : list tree, exists ms, matches = matches ++ ms /\ Forall (fun y => complete y = true) ms) as Hnil.
  { intros m. exists []. by rewrite app_nil_r. }
  revert x matches matches'. induction p as [|s|op l IH] using tree_ind'; intros x matches matches' Hm.
  1,2: cbn in Hm; case_decide; [injection Hm as <-; apply Hnil|done].
  destruct (decide (TNode op l = x)) as [<-|Hne]; [cbn in Hm; rewrite decide_True in Hm by done; injection Hm as <-; apply Hnil|].
  destruct x as [|s|op' l']; [by cbn in Hm..|].
  destruct (decide (TNode op l = placeholder /\ op' ∉ incompletenodes)) as [Hph|Hph].
  { cbn in Hm. rewrite decide_False in Hm by done. rewrite decide_True in Hm by done. injection Hm as <-. exists [TNode op' l'].
    split; [done|]. apply Forall_singleton. apply bool_decide_eq_true. tauto. }
  rewrite matchtree_node in Hm by done. case_decide as Hlen; [|done]. clear Hlen Hph Hne.
  revert l' matches Hm. induction IH as [|p l Hx _ IH]; intros l' matches Hm; [injection Hm as <-; apply Hnil|].
  destruct l' as [|y l']; [injection Hm as <-; apply Hnil|]. cbn in Hm. destruct (_matchtree p y matches) as [[] m1] eqn:H1; [|done].
  apply Hx in H1 as (ms1 & -> & Hb1). apply IH in Hm as (ms2 & -> & Hb2). exists (ms1 ++ ms2). split; [by rewrite app_assoc|]. by apply Forall_app.
Qed.

Context (Hleaves : Forall (fun y => is_node y = false) (members placeholder)).

Lemma buildtree_leaf p repls x rest :
  Forall (fun y => complete y = true) repls -> _buildtree p repls = Ok (x, rest) -> is_node x = false -> p = x.
Proof using Type.
  intros Hr Hb Hx. destruct p as [|s|op l]; cbn in Hb; case_decide.
  1,3: destruct repls as [|y repls]; [done|]; injection Hb as -> ->; apply Forall_cons in Hr as [Hc _]; by destruct x.
  1,2: by injection Hb as <- <-.
  - destruct repls as [|y repls]; [done|]; injection Hb as -> ->; apply Forall_cons in Hr as [Hc _]; by destruct x.
  - apply rbind_Ok in Hb as ([l' rest'] & _ & [= <- <-]). done.
Qed.

Lemma buildtrees_cons x l repls :
  _buildtrees (x :: l) repls = let* (y, repls) := _buildtree x repls in let* (ys, repls) := _buildtrees l repls in Ok (y :: ys, repls).
Proof using Type. done. Qed.

Lemma buildtree_rest p repls x rest : _buildtree p repls = Ok (x, rest) -> exists used, repls = used ++ rest.
Proof using Type.
  revert repls x rest. induction p as [|s|op l IH] using tree_ind'; intros repls x rest Hb; cbn in Hb; case_decide.
  1,3,5: destruct repls as [|y repls]; [done|]; injection Hb as -> ->; by exists [x].
  1,2: injection Hb as <- <-; by exists [].
  apply rbind_Ok in Hb as ([l' rest'] & Hl & [= <- <-]). change (_buildtrees l repls = Ok (l', rest')) in Hl.
  clear H. revert repls l' Hl. induction IH as [|p l Hp _ IH]; intros repls l' Hl; [injection Hl as <- <-; by exists []|].
  rewrite buildtrees_cons in Hl. apply rbind_Ok in Hl as ([y r1] & Hy & Hl). apply rbind_Ok in Hl as ([ys r2] & Hys & [= <- <-]).
  apply Hp in Hy as [u1 ->]. apply IH in Hys as [u2 ->]. exists (u1 ++ u2). by rewrite app_assoc.
Qed.

Lemma buildtrees_leaves l repls l' rest :
  Forall (fun y => complete y = true) repls -> _buildtrees l repls = Ok (l', rest) -> Forall (fun y => is_node y = false) l' -> l = l'.
Proof using Type.
  revert repls l'. induction l as [|p l IH]; intros repls l' Hr Hb Hl; [by injection Hb as <- <-|].
  rewrite buildtrees_cons in Hb. apply rbind_Ok in Hb as ([y r1] & Hy & Hb). apply rbind_Ok in Hb as ([ys r2] & Hys & [= <- <-]).
  apply Forall_cons in Hl as [Hly Hl]. f_equal; [by eapply buildtree_leaf|]. apply buildtree_rest in Hy as [u ->].
  apply Forall_app in Hr as [_ Hr]. by eapply IH.
Qed.

(** What [build_matchtree] shows of one template. *)
Definition instance_matches (p : tree) : Prop :=
  forall repls x rest matches,
    Forall (fun y => complete y = true /\ plain y = true) repls -> _buildtree p repls = Ok (x, rest) ->
    exists ms, repls = ms ++ rest /\ plain x = true /\ _matchtree p x matches = (true, matches ++ ms).

Lemma build_matchtrees l :
  Forall instance_matches l -> forall repls l' rest matches,
    Forall (fun y => complete y = true /\ plain y = true) repls -> _buildtrees l repls = Ok (l', rest) ->
    exists ms, repls = ms ++ rest /\ Forall (fun x => plain x = true) l' /\ length l = length l' /\ _matchtrees l l' matches = (true, matches ++ ms).
Proof using Type.
  induction 1 as [|p l Hp _ IH]; intros repls l' rest matches Hr Hb.
  - injection Hb as <- <-. exists []. by rewrite app_nil_r.
  - rewrite buildtrees_cons in Hb. apply rbind_Ok in Hb as ([y r1] & Hy & Hb). apply rbind_Ok in Hb as ([ys r2] & Hys & [= <- <-]).
    destruct (Hp _ _ _ matches Hr Hy) as (ms1 & -> & Hpy & Hm1). apply Forall_app in Hr as [_ Hr].
    destruct (IH _ _ _ (matches ++ ms1) Hr Hys) as (ms2 & -> & Hps & Hlen & Hm2). exists (ms1 ++ ms2). rewrite !app_assoc.
    split_and!; [done|by constructor|cbn; lia|]. cbn. by rewrite Hm1.
Qed.

(** The instance of a template for complete nodes matches it, with these nodes. *)
Lemma build_matchtree p : instance_matches p.
Proof using Hplaceholder Hleaves.
  induction p as [|s|op l IH] using tree_ind'; intros repls x rest matches Hr Hb.
  1,2: cbn in Hb; case_decide as H; [by rewrite <- H in Hplaceholder|]; injection Hb as <- <-; exists []; rewrite app_nil_r; cbn;
    rewrite bool_decide_false by done; by rewrite decide_True.
  destruct (decide (TNode op l = placeholder)) as [Hph|Hph].
  { cbn in Hb. rewrite decide_True in Hb by done. destruct repls as [|y repls]; [done|]. injection Hb as -> ->.
    apply Forall_cons in Hr as [[Hc Hp] _]. exists [x]. split_and!; [done..|]. destruct x as [|s|op' l']; [done..|]. apply bool_decide_eq_true in Hc.
    cbn. rewrite decide_False; [by rewrite decide_True|]. intros [= -> ->]. by apply plain_node in Hp as [].  }
  rewrite buildtree_node in Hb by done. apply rbind_Ok in Hb as ([l' rest'] & Hl & [= <- <-]).
  destruct (build_matchtrees l IH _ _ _ matches Hr Hl) as (ms & -> & Hp & Hlen & Hm).
  assert (Forall (fun y => complete y = true) (ms ++ rest')) as Hr' by (eapply Forall_impl; [exact Hr|]; naive_solver).
  assert (TNode op l' ≠ placeholder) as Hnp.
  { intros He. apply Hph. rewrite <- He. f_equal. eapply buildtrees_leaves; [exact Hr'|exact Hl|]. by rewrite <- He in Hleaves. }
  exists ms. split; [done|]. split; [by apply plain_node|]. destruct (decide (l = l')) as [<-|Hne].
  - assert (_buildtree (TNode op l) (ms ++ rest') = Ok (TNode op l, ms ++ rest')) as Hself by (by apply buildtree_plain, plain_node).
    rewrite buildtree_node, Hl in Hself by done. injection Hself as Hms. cbn. rewrite decide_True by done.
    assert (ms = []) as -> by (by apply (app_inv_tail rest')). by rewrite app_nil_r.
  - rewrite matchtree_node; [|congruence|tauto]. by rewrite decide_True.
Qed.
End templates.

(** [C27] Patterns and templates are inverse: a tree in which the placeholder does not
    occur matches a pattern, with the nodes [ms], exactly when it is the instance of
    the pattern for [ms] (nodes that can stand alone). *)
Theorem matchtree_buildtree (placeholder : tree) (incompletenodes : list string) (p x : tree) (ms : list tree) :
  complete incompletenodes placeholder = true -> Forall (fun y => is_node y = false) (members placeholder) ->
  plain placeholder x = true -> Forall (fun y => complete incompletenodes y = true /\ plain placeholder y = true) ms ->
  matchtree placeholder incompletenodes p x = Ok (Some (x :: ms)) <-> buildtree placeholder p ms = Ok x.
Proof.
  intros Hc Hl Hx Hms. unfold matchtree, buildtree. assert (is_node placeholder = true) as -> by (by destruct placeholder).
  split.
  - destruct (_matchtree placeholder incompletenodes p x [x]) as [[] m] eqn:Hm; [|done]. intros [= ->].
    destruct (matchtree_build _ _ Hc _ _ _ _ Hx Hm) as (ms' & [= ->] & Hb). specialize (Hb []). rewrite app_nil_r in Hb. by rewrite Hb.
  - intros ([r rest] & Hb & H)%rbind_Ok. destruct rest; [|done]. injection H as ->.
    destruct (build_matchtree _ _ Hc Hl _ _ _ _ [x] Hms Hb) as (ms' & -> & _ & Hm). rewrite app_nil_r in *. by rewrite Hm.
Qed.

Lemma matchtree_buildtree_witness :
  let symbol s := TNode "symbol" [TStr (bs s)] in
  let p := TNode "and" [symbol "_"; TNode "not" [symbol "_"]] in
  let x := TNode "and" [symbol "a"; TNode "not" [symbol "b"]] in
  buildtree (symbol "_") p [symbol "a"; symbol "b"] = Ok x /\
  matchtree (symbol "_") ["keyvalue"; "list"]%string p x = Ok (Some [x; symbol "a"; symbol "b"]).
Proof.
  intros symbol p x. split; [reflexivity|].
  apply (matchtree_buildtree (symbol "_"%string) ["keyvalue"; "list"]%string p x [symbol "a"%string; symbol "b"%string]);
    [reflexivity|repeat constructor|reflexivity|repeat constructor|reflexivity].
Defined.

(** A tree in which the placeholder occurs can match without a match being recorded:
    the code that asks for the nodes then fails with an [IndexError]. *)
Example match_placeholder_itself :
  let symbol s := TNode "symbol" [TStr (bs s)] in
  let x := TNode "not" [symbol "_"] in
  matchtree (symbol "_") ["keyvalue"; "list"]%string x x = Ok (Some [x]).
Proof. reflexivity. Qed.
End ParserTree.
