(* ===== verification/RevsetLang.v ===== *)
(** * The phases of the revision query language (revsetlang.py)

    [parse] makes a raw tree, [foldconcat] folds [##], [analyze] replaces pseudo
    operators, [optimize] rewrites to cheaper operations.  A type of trees for each
    phase: the label of a node determines its members. *)

From S2P Require Import Prelude Lines Struct Pratt RevsetTokens ParserTree.

Module RevsetLang.
Import Pratt RevsetTokens ParserTree.

(** ** Parsing *)

Definition sym (s : string) : tree := TNode "symbol" [TStr (bs s)].

(** [_fixops] *)
Fixpoint _fixops (fuel : nat) (x : tree) : res tree :=
  match fuel, x with
  | O, _ => Err OutOfFuel
  | S fuel, TNode op l =>
      let descend := let* l := map_res (_fixops fuel) l in Ok (TNode op l) in
      if decide (op = "parent"%string) then
        let* x1 := member x 1 in
        let post := TNode "parentpost" [x1] in
        let* x2 := member x 2 in
        let* op2 := label x2 in
        if decide (op2 = "dagrangepre"%string) then let* y := member x2 1 in _fixops fuel (TNode "dagrange" [post; y])
        else if decide (op2 = "rangepre"%string) then let* y := member x2 1 in _fixops fuel (TNode "range" [post; y])
        else if decide (op2 = "rangeall"%string) then _fixops fuel (TNode "rangepost" [post])
        else descend
      else if decide (op = "or"%string) then let* y := _fixops fuel (TNode "list" l) in Ok (TNode op [y])
      else if decide (op = "subscript"%string) then
        let* x1 := member x 1 in
        let* op1 := label x1 in
        if decide (op1 = "relation"%string) then
          let* a := member x1 1 in let* b := member x1 2 in let* c := member x 2 in
          _fixops fuel (TNode "relsubscript" [a; b; c])
        else descend
      else descend
  | S _, _ => Ok x
  end.

Definition fixops (x : tree) : res tree := _fixops (2 * tree_size x) x.

(** [_parsewith]; [parse] adds a hint to its exceptions. *)
Definition parsewith (lookup : option (bytes -> bool)) (initletters : ascii -> bool) (spec : bytes) : res tree :=
  let* t := parse_raw lookup initletters spec in
  let* t := simplifyinfixops ["list"; "or"]%string t in
  fixops t.

Definition parse_revset (spec : bytes) : res tree := parsewith None syminitletters spec.

(** ** Accessors *)

(** The value of a symbol or a string is a string. *)
Definition getsymbol (x : tree) : res bytes :=
  match x with TNode "symbol" (TStr s :: _) => Ok s | _ => Err (ParseError "not a symbol" None) end.

Definition getstring (x : tree) (err : string) : res bytes :=
  match x with
  | TNode op (TStr s :: _) => if decide (op = "string"%string \/ op = "symbol"%string) then Ok s else Err (ParseError err None)
  | _ => Err (ParseError err None)
  end.

Definition getlist (x : tree) : list tree :=
  match x with TNone | TStr [] => [] | TNode "list" l => l | _ => [x] end.

(** ** [foldconcat] *)

(** The strings of a chain of [##], in order. *)
Fixpoint concat_parts (e : tree) : res (list bytes) :=
  match e with
  | TNode op l =>
      if decide (op = "_concat"%string) then let* ls := map_res concat_parts l in Ok (concat ls)
      else if decide (op = "string"%string \/ op = "symbol"%string) then
        match l with TStr s :: _ => Ok [s] | _ => Err TypeError end
      else Err (ParseError "can't concatenate element" None)
  | _ => let* _ := label e in Err (ParseError "can't concatenate element" None)
  end.

Fixpoint foldconcat (t : tree) : res tree :=
  match t with
  | TNode op l =>
      if decide (op = "string"%string \/ op = "symbol"%string) then Ok t
      else if decide (op = "_concat"%string) then let* ls := concat_parts t in Ok (TNode "string" [TStr (concat ls)])
      else let* l := map_res foldconcat l in Ok (TNode op l)
  | _ => Ok t
  end.

(** ** [_build] and [_match] *)

Definition placeholder : tree := sym "_".
Definition incompletenodes : list string := ["keyvalue"; "list"]%string.

(** The cache [_treecache] of parsed templates holds what parsing gives. *)
Definition _build (tmplspec : string) (repls : list tree) : res tree :=
  let* template := parse_revset (bs tmplspec) in buildtree placeholder template repls.
Definition _match (patspec : string) (x : tree) : res (option (list tree)) :=
  let* pattern := parse_revset (bs patspec) in matchtree placeholder incompletenodes pattern x.

(** ** [_analyze] *)

Definition mem (s : string) (l : list string) : bool := existsb (String.eqb s) l.

Fixpoint _analyze (fuel : nat) (x : tree) : res tree :=
  match fuel, x with
  | O, _ => Err OutOfFuel
  | S fuel, TNone => Ok x
  | S fuel, _ =>
      let* op := label x in
      let rest := members x in
      let build1 (tmpl : string) := let* y := member x 1 in let* t := _build tmpl [y] in _analyze fuel t in
      if mem op ["minus"] then let* t := _build "_ and not _" rest in _analyze fuel t
      else if mem op ["only"] then let* t := _build "only(_, _)" rest in _analyze fuel t
      else if mem op ["onlypost"] then build1 "only(_)"
      else if mem op ["dagrangepre"] then build1 "ancestors(_)"
      else if mem op ["dagrangepost"] then build1 "descendants(_)"
      else if mem op ["negate"] then
        let* y := member x 1 in
        let* s := getstring y "can't negate that" in
        _analyze fuel (TNode "string" [TStr ("-"%char :: s)])
      else if mem op ["string"; "symbol"] then Ok x
      else if mem op ["rangeall"] then Ok (TNode op [TNone])
      else if mem op ["or"; "not"; "rangepre"; "rangepost"; "parentpost"] then
        let* y := member x 1 in let* t := _analyze fuel y in Ok (TNode op [t])
      else if mem op ["group"] then let* y := member x 1 in _analyze fuel y
      else if mem op ["and"; "dagrange"; "range"; "parent"; "ancestor"; "relation"; "subscript"] then
        let* y := member x 1 in let* ta := _analyze fuel y in
        let* z := member x 2 in let* tb := _analyze fuel z in Ok (TNode op [ta; tb])
      else if mem op ["relsubscript"] then
        let* y := member x 1 in let* ta := _analyze fuel y in
        let* z := member x 2 in let* tb := _analyze fuel z in
        let* w := member x 3 in let* tc := _analyze fuel w in Ok (TNode op [ta; tb; tc])
      else if mem op ["list"] then let* l := map_res (_analyze fuel) rest in Ok (TNode op l)
      else if mem op ["keyvalue"; "func"] then
        let* y := member x 1 in let* z := member x 2 in let* t := _analyze fuel z in Ok (TNode op [y; t])
      else Err ValueError
  end%string.

Definition analyze (x : tree) : res tree := _analyze (4 * tree_size x) x.

(** ** [_optimize] *)

(** Weights are counted in halves, since a single revision weighs 0.5. *)
Section optimize.
Context (weight : bytes -> option Z).

(** [getattr(symbols.get(f), "_weight", 1)] *)
Definition func_weight (f : bytes) : Z := match weight f with Some w => 2 * w | None => 2 end.

Definition _matchonly (revs bases : tree) : res (option (list tree)) :=
  _match "ancestors(_) and not ancestors(_)" (TNode "and" [revs; bases]).

(** [m[i]] of the matches *)
Definition nth_match (m : list tree) (i : nat) : res tree := match m !! i with Some t => Ok t | None => Err IndexError end.

(** [t[1]], a string *)
Definition string_value (t : tree) : res bytes :=
  let* v := member t 1 in match v with TStr s => Ok s | _ => Err TypeError end.

Definition is_string (t : tree) : bool :=
  match t with TNode op _ => bool_decide (op = "string"%string \/ op = "symbol"%string) | _ => false end.

(** The lists [ws], [ts] and [ss] of the rewriting of unions. *)
Definition orstate : Type := (list Z * list tree * list (Z * tree))%type.

(** [flushss], [optimize_] being the recursive call. *)
Definition flushss (optimize_ : tree -> res (Z * tree)) (st : orstate) : res orstate :=
  let '(ws, ts, ss) := st in
  match ss with
  | [] => Ok st
  | [(w, t)] => Ok (ws ++ [w], ts ++ [t], [])
  | _ =>
      let* l := map_res (fun wt => string_value wt.2) ss in
      let* y := _build "_list(_)" [TNode "string" [TStr (join (byte 0) l)]] in
      let* (w, t) := optimize_ y in Ok (ws ++ [w], ts ++ [t], [])
  end.

Fixpoint or_operands (optimize_ : tree -> res (Z * tree)) (l : list tree) (st : orstate) : res orstate :=
  match l with
  | [] => flushss optimize_ st
  | y :: l =>
      let* (w, t) := optimize_ y in
      if is_string t then let '(ws, ts, ss) := st in or_operands optimize_ l (ws, ts, ss ++ [(w, t)])
      else let* (ws, ts, ss) := flushss optimize_ st in or_operands optimize_ l (ws ++ [w], ts ++ [t], ss)
  end.

(** (draft/secret/_notpublic() & ::x) *)
Definition phase_fast_path (ta tb : tree) : res (option tree) :=
  let* m := _match "_() & ancestors(_)" (TNode "and" [ta; tb]) in
  match m with
  | Some m =>
      let* m1 := nth_match m 1 in let* f := getsymbol m1 in
      if decide (f ∈ [bs "draft"; bs "secret"; bs "_notpublic"]) then
        let* m2 := nth_match m 2 in let* t := _build "_phaseandancestors(_, _)" [m1; m2] in Ok (Some t)
      else Ok None
  | None => Ok None
  end.

(** (::x and not ::y) or (not ::y and ::x) *)
Definition only_fast_path (ta tb : tree) : res (option tree) :=
  let* m := _matchonly ta tb in
  let* m := match m with Some m => Ok (Some m) | None => _matchonly tb ta end in
  match m with Some m => let* t := _build "only(_, _)" (tail m) in Ok (Some t) | None => Ok None end.

(** The rewriting of [and] once both operands are optimized. *)
Definition optimize_and (op : string) (wa wb : Z) (ta tb : tree) : res (Z * tree) :=
  let w := Z.min wa wb in
  let* phase := phase_fast_path ta tb in
  match phase with
  | Some t => Ok (w, t)
  | None =>
      let* only := only_fast_path ta tb in
      match only with
      | Some t => Ok (w, t)
      | None =>
          let* m := _match "not _" tb in
          match m with
          | Some m => let* m1 := nth_match m 1 in Ok (wa, TNode "difference" [ta; m1])
          | None => Ok (w, TNode (if decide (wb < wa) then "andsmally"%string else op) [ta; tb])
          end
      end
  end.

Fixpoint _optimize (fuel : nat) (x : tree) : res (Z * tree) :=
  match fuel, x with
  | O, _ => Err OutOfFuel
  | S fuel, TNone => Ok (0, x)
  | S fuel, _ =>
      let* op := label x in
      if mem op ["string"; "symbol"] then Ok (1, x)
      else if mem op ["and"] then
        let* y := member x 1 in let* (wa, ta) := _optimize fuel y in
        let* z := member x 2 in let* (wb, tb) := _optimize fuel z in
        optimize_and op wa wb ta tb
      else if mem op ["or"] then
        let* y := member x 1 in
        let* (ws, ts, _) := or_operands (_optimize fuel) (getlist y) ([], [], []) in
        match ws, ts with
        | [], _ => Err ValueError
        | w :: _, [t] => Ok (w, t)
        | w :: _, _ => Ok (zmax_list 0 ws, TNode op [TNode "list" ts])
        end
      else if mem op ["not"] then
        let* y := member x 1 in
        let* m := _match "public()" y in
        match m with
        | Some _ => let* t := _build "_notpublic()" [] in _optimize fuel t
        | None => let* (w, t) := _optimize fuel y in Ok (w, TNode op [t])
        end
      else if mem op ["rangeall"] then Ok (2, x)
      else if mem op ["rangepre"; "rangepost"; "parentpost"] then
        let* y := member x 1 in let* (w, t) := _optimize fuel y in Ok (w, TNode op [t])
      else if mem op ["dagrange"; "range"] then
        let* y := member x 1 in let* (wa, ta) := _optimize fuel y in
        let* z := member x 2 in let* (wb, tb) := _optimize fuel z in Ok (wa + wb, TNode op [ta; tb])
      else if mem op ["parent"; "ancestor"; "relation"; "subscript"] then
        let* y := member x 1 in let* (w, t) := _optimize fuel y in
        let* z := member x 2 in Ok (w, TNode op [t; z])
      else if mem op ["relsubscript"] then
        let* y := member x 1 in let* (w, t) := _optimize fuel y in
        let* z := member x 2 in let* u := member x 3 in Ok (w, TNode op [t; z; u])
      else if mem op ["list"] then
        let* l := map_res (_optimize fuel) (members x) in
        match l with [] => Err ValueError | _ => Ok (foldr Z.add 0 (map fst l), TNode op (map snd l)) end
      else if mem op ["keyvalue"] then
        let* y := member x 1 in let* z := member x 2 in let* (w, t) := _optimize fuel z in Ok (w, TNode op [y; t])
      else if mem op ["func"] then
        let* y := member x 1 in let* f := getsymbol y in
        let* z := member x 2 in let* (wa, ta) := _optimize fuel z in Ok (func_weight f + wa, TNode op [y; ta])
      else Err ValueError
  end%string.

(** [optimize] *)
Definition optimize (x : tree) : res tree := let* (_, t) := _optimize (3 + 2 * tree_size x) x in Ok t.
End optimize.

Definition query (weight : bytes -> option Z) (spec : bytes) : res tree :=
  let* t := parse_revset spec in let* t := foldconcat t in let* t := analyze t in optimize weight t.

Example optimize_examples :
  query (fun _ => None) (bs "::a - ::b") = Ok (TNode "func" [sym "only"; TNode "list" [sym "a"; sym "b"]]) /\
  query (fun _ => None) (bs "draft() & ::(x + y + f())") =
    Ok (TNode "func" [sym "_phaseandancestors"; TNode "list" [sym "draft";
      TNode "or" [TNode "list" [TNode "func" [sym "_list"; TNode "string" [TStr (bs "x" ++ byte 0 :: bs "y")]]; TNode "func" [sym "f"; TNone]]]]]) /\
  query (fun _ => None) (bs "a - _") = Err IndexError.
Proof. split_and!; vm_compute; reflexivity. Qed.

Example analyze_examples :
  (let* t := parse_revset (bs "a - b") in analyze t) = Ok (TNode "and" [sym "a"; TNode "not" [sym "b"]]) /\
  (let* t := parse_revset (bs "a^: + -1") in analyze t) =
    Ok (TNode "or" [TNode "list" [TNode "rangepost" [TNode "parentpost" [sym "a"]]; TNode "string" [TStr (bs "-1")]]]).
Proof. split; vm_compute; reflexivity. Qed.
End RevsetLang.
