(* ===== verification/RevsetTypes.v ===== *)
(** * The types of query trees

    For each phase of [RevsetLang], which labels a tree may have and what members
    they take; each phase turns well-typed trees into well-typed trees of the next,
    or raises a [ParseError]. *)

From S2P Require Import Prelude Lines Struct Pratt RevsetTokens ParserTree RevsetLang.

Module RevsetTypes.
Import Pratt RevsetTokens ParserTree RevsetLang.

(** ** Types of trees *)

(** What a member may be: a string, [None], a node, a node or [None], a node that
    a later phase takes as it was parsed, a [list] node. *)
Inductive kind := KStr | KNone | KNode | KOpt | KRaw | KList.

(** Given members, or one or more. *)
Inductive arity := Fixed (ks : list kind) | Many (k : kind).

Notation signature := (list (string * arity)).

Fixpoint arity_of (sg : signature) (op : string) : option arity :=
  match sg with [] => None | (k, a) :: sg => if decide (op = k) then Some a else arity_of sg op end.

Section wt.
Context (raw : tree -> bool) (sg : signature).

(** A member [x] of kind [k], given whether [x] itself is well-typed. *)
Definition kind_ok (k : kind) (x : tree) (wt_x : bool) : bool :=
  match k, x with
  | KStr, TStr _ => true
  | KNone, TNone => true
  | KNode, TNode _ _ => wt_x
  | KOpt, TNone => true
  | KOpt, TNode _ _ => wt_x
  | KRaw, TNode _ _ => raw x
  | KList, TNode op _ => bool_decide (op = "list"%string) && wt_x
  | _, _ => false
  end.

Fixpoint wt (t : tree) : bool :=
  match t with
  | TNode op l =>
      match arity_of sg op with
      | Some (Fixed ks) =>
          (fix go (ks : list kind) (l : list tree) {struct l} : bool :=
            match ks, l with
            | [], [] => true
            | k :: ks, x :: l => kind_ok k x (wt x) && go ks l
            | _, _ => false
            end) ks l
      | Some (Many k) =>
          negb (bool_decide (l = [])) &&
          (fix go (l : list tree) : bool := match l with [] => true | x :: l => kind_ok k x (wt x) && go l end) l
      | None => false
      end
  | _ => false
  end.

Definition has_kind (k : kind) (x : tree) : Prop := kind_ok k x (wt x) = true.

Definition fits (a : arity) (l : list tree) : Prop :=
  match a with Fixed ks => Forall2 has_kind ks l | Many k => l ≠ [] /\ Forall (has_kind k) l end.

Lemma wt_node op l : wt (TNode op l) = true <-> exists a, arity_of sg op = Some a /\ fits a l.
Proof using Type.
  cbn. destruct (arity_of sg op) as [[ks|k]|].
  - transitivity (Forall2 has_kind ks l); [|by split; [eexists|intros (? & [= <-] & ?)]].
    revert l. induction ks as [|k ks IH]; intros [|x l]; [by split|by split; [|intros H; inversion H]..|].
    rewrite andb_true_iff, IH. split; [intros [H1 H2]; by constructor|intros H; by inversion H].
  - transitivity (l ≠ [] /\ Forall (has_kind k) l); [|by split; [eexists|intros (? & [= <-] & ?)]].
    rewrite andb_true_iff, negb_true_iff, bool_decide_eq_false. apply and_iff_compat_l.
    induction l as [|x l IH]; [by split|]. by rewrite andb_true_iff, IH, Forall_cons.
  - split; [done|by intros (? & [=] & _)].
Qed.
End wt.

(** ** The signatures *)

(** What the parser gives. *)
Definition leaf_rows : signature := [("symbol", Fixed [KStr]); ("string", Fixed [KStr]); ("rangeall", Fixed [KNone])]%string.
Definition raw_rows : signature :=
  map (fun op => (op, Fixed [KNode])) ["not"; "negate"; "dagrangepre"; "dagrangepost"; "rangepre"; "rangepost"; "parentpost"; "onlypost"] ++
  map (fun op => (op, Fixed [KNode; KNode]))
    ["relation"; "ancestor"; "parent"; "minus"; "dagrange"; "range"; "and"; "only"; "keyvalue"] ++
  [("group", Fixed [KOpt]); ("func", Fixed [KNode; KOpt]); ("subscript", Fixed [KNode; KOpt])]%string.

Definition parsed_sig : signature :=
  leaf_rows ++ raw_rows ++ [("_concat", Fixed [KNode; KNode]); ("or", Fixed [KNode; KNode]); ("list", Fixed [KNode; KNode])]%string.

(** After [simplifyinfixops], [_fixops] and [foldconcat]. *)
Definition simplified_sig : signature :=
  leaf_rows ++ raw_rows ++
  [("_concat", Fixed [KNode; KNode]); ("or", Many KNode); ("list", Many KNode); ("relsubscript", Fixed [KNode; KNode; KOpt])]%string.
Definition folded_rows : signature :=
  leaf_rows ++ raw_rows ++ [("or", Fixed [KList]); ("list", Many KNode); ("relsubscript", Fixed [KNode; KNode; KOpt])]%string.
Definition raw_sig : signature := folded_rows ++ [("_concat", Fixed [KNode; KNode])]%string.

(** After [_analyze]: every operand may be missing, names of functions and of
    arguments stay as they were. *)
Definition evaluable_sig : signature :=
  leaf_rows ++
  map (fun op => (op, Fixed [KOpt])) ["not"; "rangepre"; "rangepost"; "parentpost"]%string ++
  map (fun op => (op, Fixed [KOpt; KOpt])) ["and"; "dagrange"; "range"; "parent"; "ancestor"; "relation"; "subscript"]%string ++
  [("relsubscript", Fixed [KOpt; KOpt; KOpt]); ("or", Fixed [KList]); ("list", Many KOpt); ("keyvalue", Fixed [KRaw; KOpt]); ("func", Fixed [KRaw; KOpt])]%string.
Definition optimized_sig : signature :=
  evaluable_sig ++ [("difference", Fixed [KOpt; KOpt]); ("andsmally", Fixed [KOpt; KOpt])]%string.

Definition noraw (t : tree) : bool := false.
Definition parsed : tree -> bool := wt noraw parsed_sig.
Definition simplified : tree -> bool := wt noraw simplified_sig.
Definition raw : tree -> bool := wt noraw raw_sig.
Definition folded : tree -> bool := wt noraw folded_rows.
Definition evaluable : tree -> bool := wt folded evaluable_sig.
Definition optimized : tree -> bool := wt folded optimized_sig.

(** A result of a type, or a [ParseError]. *)
Definition typed {A} (P : A -> Prop) (r : res A) : Prop :=
  match r with Ok x => P x | Err e => parse_error e end.

Lemma typed_bind {A B} (P : A -> Prop) (Q : B -> Prop) m k :
  typed P m -> (forall x, P x -> typed Q (k x)) -> typed Q (rbind m k).
Proof. destruct m; cbn; auto. Qed.

Lemma typed_impl {A} (P Q : A -> Prop) m : typed P m -> (forall x, P x -> Q x) -> typed Q m.
Proof. destruct m; cbn; auto. Qed.

(** ** Parsing *)

(** The rows of the operator table give nodes of the signature. *)
Lemma row_typed ty el :
  revset_elements ty = Some el ->
  (forall label, el_primary el = Some label ->
    (label = ty /\ (ty = "symbol" \/ ty = "string") \/ label = "rangeall" /\ ty ≠ "symbol" /\ ty ≠ "string")%string) /\
  (forall a, el_prefix el = Some a -> arity_of parsed_sig (a_label a) = Some (Fixed [if a_close a then KOpt else KNode])) /\
  (forall a, el_infix el = Some a -> arity_of parsed_sig (a_label a) = Some (Fixed [KNode; if a_close a then KOpt else KNode])) /\
  (forall label, el_suffix el = Some label -> arity_of parsed_sig label = Some (Fixed [KNode])).
Proof.
  unfold revset_elements, revset_rows, table.
  repeat (case_decide; [intros [= <-]; subst; split_and!; intros ? [=]; subst; cbn; try reflexivity; naive_solver|]). done.
Qed.

Lemma expr_parsed :
  (forall toks t sp r amb, expr revset_elements toks t sp r amb -> Forall valued toks -> has_kind noraw parsed_sig KNode t) /\
  (forall toks t a r amb, operand revset_elements toks t a r amb -> Forall valued toks ->
    has_kind noraw parsed_sig (if a_close a then KOpt else KNode) t).
Proof.
  apply expr_operand_ind.
  - intros tok el label HE Hp [Hv _]%Forall_cons. destruct (row_typed _ _ HE) as (Hl & _). specialize (Hl label Hp).
    unfold valued in Hv. destruct tok as [ty [v|] pos]; cbn in *; destruct Hl as [[-> [->| ->]]|(-> & ? & ?)]; try tauto; reflexivity.
  - intros tok el a toks t r amb HE Hp _ _ IH [_ Hv]%Forall_cons. destruct (row_typed _ _ HE) as (_ & Ha & _).
    apply wt_node. eexists. split; [by apply Ha|]. by repeat constructor; apply IH.
  - intros toksl tl sp rl ambl tok el a toks t r amb _ IHl HE _ Ha _ _ IH [Hvl [_ Hv]%Forall_cons]%Forall_app.
    destruct (row_typed _ _ HE) as (_ & _ & Hi & _). apply wt_node. eexists. split; [by apply Hi|]. by repeat constructor; [apply IHl|apply IH].
  - intros toksl tl sp rl ambl tok el label _ IHl HE _ Ha [Hvl _]%Forall_app.
    destruct (row_typed _ _ HE) as (_ & _ & _ & Hs). apply wt_node. eexists. split; [by apply Hs|]. by repeat constructor; apply IHl.
  - intros toks t a sp r amb -> _ IH _ Hv. by apply IH.
  - intros toks t a m tok el sp r amb -> _ IH _ _ _ _ _ _ [Hv _]%Forall_app. specialize (IH Hv). by destruct t.
  - intros a m tok -> _ _. done.
Qed.

Lemma parse_raw_typed lookup initletters spec : typed (fun t => parsed t = true) (parse_raw lookup initletters spec).
Proof.
  pose proof (parse_raw_error lookup initletters spec) as He. destruct (parse_raw lookup initletters spec) as [t|e] eqn:Hp; [|done]. cbn.
  apply parse_raw_spec in Hp as (toks & sp & r & amb & Ht & Hex). pose proof (tokenize_ends lookup initletters symletters spec) as Hends.
  rewrite Ht, map_app in Hends. apply ends_valued in Hends. apply (proj1 expr_parsed) in Hex; [|done]. by destruct t.
Qed.

(** ** Members, kind by kind *)

#[export] Instance kind_eq_dec : EqDecision kind.
Proof. solve_decision. Defined.
#[export] Instance arity_eq_dec : EqDecision arity.
Proof. solve_decision. Defined.

Lemma sig_check (P : string -> arity -> bool) sg op a :
  forallb (fun row => P row.1 row.2) sg = true -> arity_of sg op = Some a -> P op a = true.
Proof.
  induction sg as [|[op' a'] sg IH]; [done|]. cbn. rewrite andb_true_iff. intros [H1 H2]. case_decide; [|by apply IH].
  intros [= ->]. by subst.
Qed.

Lemma map_res_kinds (P : kind -> tree -> Prop) (f : tree -> res tree) ks l :
  Forall2 (fun k x => typed (P k) (f x)) ks l -> typed (Forall2 P ks) (map_res f l).
Proof.
  induction 1 as [|k x ks l Hx _ IH]; [constructor|]. cbn. eapply typed_bind; [exact Hx|]. intros y Hy.
  eapply typed_bind; [exact IH|]. intros ys Hys. by constructor.
Qed.

Lemma map_res_many {A} (P : A -> Prop) (f : tree -> res A) l :
  Forall (fun x => typed P (f x)) l -> typed (fun ys => Forall P ys /\ length ys = length l) (map_res f l).
Proof.
  induction 1 as [|x l Hx _ IH]; [by split|]. cbn. eapply typed_bind; [exact Hx|]. intros y Hy.
  eapply typed_bind; [exact IH|]. intros ys [Hys Hl]. split; [by constructor|]. cbn. by rewrite Hl.
Qed.

(** The kinds that are the same before and after a phase. *)
Definition plain_kind (k : kind) : bool := match k with KStr | KNone | KNode | KOpt => true | _ => false end.
Definition plain_arity (a : arity) : bool := match a with Fixed ks => forallb plain_kind ks | Many k => plain_kind k end.

Section phase.
Context (raw1 raw2 : tree -> bool) (sg1 sg2 : signature) (f : tree -> res tree).

(** A function that takes leaves to themselves takes members to members if it does
    so for nodes. *)
Context (Hnone : f TNone = Ok TNone) (Hstr : forall s, f (TStr s) = Ok (TStr s)).

Lemma kind_typed k x :
  plain_kind k = true -> (wt raw1 sg1 x = true -> typed (fun y => wt raw2 sg2 y = true) (f x)) ->
  has_kind raw1 sg1 k x -> typed (has_kind raw2 sg2 k) (f x).
Proof using Hnone Hstr.
  unfold has_kind. intros Hk Hf Hx. destruct x as [|s|op l].
  - rewrite Hnone. by destruct k.
  - rewrite Hstr. by destruct k.
  - assert (wt raw1 sg1 (TNode op l) = true) as Hw by (by destruct k). eapply typed_impl; [by apply Hf|]. intros y Hy. by destruct k, y.
Qed.

Lemma map_res_fits a l :
  plain_arity a = true -> Forall (fun x => wt raw1 sg1 x = true -> typed (fun y => wt raw2 sg2 y = true) (f x)) l ->
  fits raw1 sg1 a l -> typed (fits raw2 sg2 a) (map_res f l).
Proof using Hnone Hstr.
  destruct a as [ks|k]; cbn; intros Hk Hf Hl.
  - apply map_res_kinds. rewrite forallb_forall in Hk. revert Hf Hk. induction Hl as [|k x ks l Hx _ IH]; intros Hf Hk; constructor.
    + apply Forall_cons in Hf as [Hf _]. apply kind_typed; [apply Hk; by left|done|done].
    + apply Forall_cons in Hf as [_ Hf]. apply IH; [done|]. intros y Hy. apply Hk. by right.
  - destruct Hl as [Hne Hl]. eapply typed_impl; [apply (map_res_many (has_kind raw2 sg2 k))|].
    + apply Forall_forall. intros x Hx. rewrite Forall_forall in Hf, Hl. apply kind_typed; auto.
    + intros ys [Hys Hlen]. split; [|done]. intros ->. by destruct l.
Qed.
End phase.

(** ** [simplifyinfixops] *)

Definition targets : list string := ["list"; "or"]%string.

Definition walk (op : string) := fix walk (x : tree) (acc : list tree) {struct x} : res tree :=
  match x with
  | TNode op' l' =>
      if decide (op' = op) then
        match l' with
        | [l; r] => let* r := simplifyinfixops targets r in walk l (r :: acc)
        | _ => Err ValueError
        end
      else let* x := simplifyinfixops targets x in Ok (TNode op (x :: acc))
  | _ => let* c := label x in if decide (c = op) then Err ValueError else Ok (TNode op (x :: acc))
  end.

Lemma simplify_binary op l r : op ∈ targets -> simplifyinfixops targets (TNode op [l; r]) = let* r := simplifyinfixops targets r in walk op l [r].
Proof. intros H. cbn. by rewrite decide_True. Qed.

Lemma simplify_other op l : op ∉ targets -> simplifyinfixops targets (TNode op l) = let* l := map_res (simplifyinfixops targets) l in Ok (TNode op l).
Proof. intros H. cbn. by rewrite decide_False. Qed.

Lemma target_arity op : op ∈ targets -> arity_of parsed_sig op = Some (Fixed [KNode; KNode]) /\ arity_of simplified_sig op = Some (Many KNode).
Proof. unfold targets. rewrite !elem_of_cons. intros [->|[->|H]]; [done..|inversion H]. Qed.

Lemma other_arity op a : op ∉ targets -> arity_of parsed_sig op = Some a -> plain_arity a = true /\ arity_of simplified_sig op = Some a.
Proof.
  intros Hop Ha. pose proof (sig_check (fun op a => bool_decide (op ∈ targets \/ plain_arity a = true /\ arity_of simplified_sig op = Some a)) parsed_sig op a eq_refl Ha) as H.
  apply bool_decide_eq_true in H. tauto.
Qed.

Lemma fits2 r sg k1 k2 l : fits r sg (Fixed [k1; k2]) l -> exists x y, l = [x; y] /\ has_kind r sg k1 x /\ has_kind r sg k2 y.
Proof. cbn. intros (x & l1 & Hx & (y & l2 & Hy & H & ->)%Forall2_cons_inv_l & ->)%Forall2_cons_inv_l. apply Forall2_nil_inv_l in H as ->. by exists x, y. Qed.

Lemma has_node r sg t : has_kind r sg KNode t -> wt r sg t = true.
Proof. by destruct t. Qed.

Lemma node_has r sg t : wt r sg t = true -> has_kind r sg KNode t.
Proof. by destruct t. Qed.

Lemma walk_typed op t acc :
  op ∈ targets -> (parsed t = true -> typed (fun t' => simplified t' = true) (simplifyinfixops targets t)) ->
  (forall op' l r, t = TNode op' [l; r] -> op' = op ->
    typed (fun t' => simplified t' = true) (let* r := simplifyinfixops targets r in walk op l (r :: acc))) ->
  parsed t = true -> Forall (has_kind noraw simplified_sig KNode) acc -> typed (fun t' => simplified t' = true) (walk op t acc).
Proof.
  intros Hop Hs Hw Ht Hacc. destruct (target_arity op Hop) as [Hp Hm]. destruct t as [|s|op' l]; [done..|]. cbn [walk]. case_decide as He.
  - subst op'. apply wt_node in Ht as (a & Ha & Hl). rewrite Hp in Ha. injection Ha as <-. apply fits2 in Hl as (x & y & -> & _ & _).
    by apply (Hw op).
  - eapply typed_bind; [by apply Hs|]. intros x Hx. apply wt_node. eexists. split; [exact Hm|]. split; [done|].
    constructor; [by apply node_has|done].
Qed.

Lemma simplify_walk_typed t :
  parsed t = true ->
  typed (fun t' => simplified t' = true) (simplifyinfixops targets t) /\
  (forall op acc, op ∈ targets -> Forall (has_kind noraw simplified_sig KNode) acc -> typed (fun t' => simplified t' = true) (walk op t acc)).
Proof.
  induction t as [|s|op l IH] using tree_ind'; [done..|]. intros Ht.
  assert (forall op' acc l1 r1, op' ∈ targets -> l = [l1; r1] -> op = op' -> Forall (has_kind noraw simplified_sig KNode) acc ->
    typed (fun t' => simplified t' = true) (let* r := simplifyinfixops targets r1 in walk op' l1 (r :: acc))) as Hw.
  { intros op' acc l1 r1 Hop -> -> Hacc. apply wt_node in Ht as (a & Ha & Hl). rewrite (proj1 (target_arity op' Hop)) in Ha. injection Ha as <-.
    apply fits2 in Hl as (x & y & [= -> ->] & Hx%has_node & Hy%has_node). apply Forall_cons in IH as [IHx [IHy _]%Forall_cons].
    eapply typed_bind; [by apply IHy|]. intros r Hr. apply IHx; [done|done|]. constructor; [by apply node_has|done]. }
  assert (typed (fun t' => simplified t' = true) (simplifyinfixops targets (TNode op l))) as Hs.
  { destruct (decide (op ∈ targets)) as [Hop|Hop].
    - pose proof Ht as Ht'. apply wt_node in Ht' as (a & Ha & Hl). rewrite (proj1 (target_arity op Hop)) in Ha. injection Ha as <-.
      apply fits2 in Hl as (x & y & -> & _ & _). rewrite simplify_binary by done. apply (Hw op [] x y); [done..|constructor].
    - rewrite simplify_other by done. apply wt_node in Ht as (a & Ha & Hl). destruct (other_arity op a Hop Ha) as [Hpa Hsa].
      eapply typed_bind; [eapply map_res_fits; [done|done|exact Hpa| |exact Hl]|].
      + eapply Forall_impl; [exact IH|]. intros x Hx Hp. by apply Hx.
      + intros ys Hys. apply wt_node. by exists a. }
  split; [done|]. intros op' acc Hop Hacc. apply walk_typed; [done|done| |done|done].
  intros op1 l1 r1 [= -> ->] ->. by apply Hw.
Qed.

(** ** [_fixops] *)

Definition rewritten (t : tree) : bool := match t with TNode op _ => mem op ["parent"; "or"; "subscript"]%string | _ => false end.

(** A rewritten node takes one call more. *)
Definition fixops_fuel (fuel : nat) (t : tree) : Prop := (2 * tree_size t <= fuel + (if rewritten t then 0 else 1))%nat.

Definition fixops_post (t y : tree) : Prop := raw y = true /\ (rewritten t = false -> label y = label t).

Lemma fixops_arity op a : op ≠ "or"%string -> arity_of simplified_sig op = Some a -> plain_arity a = true /\ arity_of raw_sig op = Some a.
Proof.
  intros Hop Ha. pose proof (sig_check (fun op a => bool_decide (op = "or"%string \/ plain_arity a = true /\ arity_of raw_sig op = Some a)) simplified_sig op a eq_refl Ha) as H.
  apply bool_decide_eq_true in H. tauto.
Qed.

Lemma sizes_elem x l : x ∈ l -> (tree_size x <= tree_sizes l)%nat.
Proof. unfold tree_sizes. induction 1; cbn; lia. Qed.

Lemma member_fuel fuel op l x : fixops_fuel (S fuel) (TNode op l) -> x ∈ l -> fixops_fuel fuel x.
Proof. unfold fixops_fuel. rewrite size_node. intros Hf Hx%sizes_elem. destruct (rewritten (TNode op l)), (rewritten x); lia. Qed.

Lemma fixops_descend fuel op l :
  op ≠ "or"%string -> simplified (TNode op l) = true -> Forall (fun x => simplified x = true -> typed (fixops_post x) (_fixops fuel x)) l ->
  fixops_fuel (S fuel) (TNode op l) -> typed (fixops_post (TNode op l)) (let* l := map_res (_fixops fuel) l in Ok (TNode op l)).
Proof.
  intros Hop Ht IH Hf. apply wt_node in Ht as (a & Ha & Hl). destruct (fixops_arity op a Hop Ha) as [Hpa Hra].
  destruct fuel as [|fuel].
  { exfalso. destruct l as [|x l].
    - pose proof (sig_check (fun _ a => negb (bool_decide (a = Fixed []))) simplified_sig op a eq_refl Ha) as H.
      apply negb_true_iff, bool_decide_eq_false in H. destruct a as [[|k ks]|k]; cbn in Hl; [done|by inversion Hl|by destruct Hl].
    - apply (member_fuel _ _ _ x) in Hf; [|by left]. unfold fixops_fuel in Hf. pose proof (size_pos x). case_match; lia. }
  eapply typed_bind; [eapply map_res_fits; [reflexivity|reflexivity|exact Hpa| |exact Hl]|].
  - eapply Forall_impl; [exact IH|]. intros x Hx Hs. eapply typed_impl; [by apply Hx|]. by intros y [? _].
  - intros ys Hys. split; [apply wt_node; by exists a|done].
Qed.

Lemma fixops_rewrite fuel t t' :
  (forall t, simplified t = true -> fixops_fuel fuel t -> typed (fixops_post t) (_fixops fuel t)) -> rewritten t = true ->
  simplified t' = true -> (rewritten t' = false) -> (tree_size t' <= tree_size t)%nat -> fixops_fuel (S fuel) t ->
  typed (fixops_post t) (_fixops fuel t').
Proof.
  intros IH Ht Hs Ht' Hle Hf. eapply typed_impl; [apply IH; [done|]|].
  - unfold fixops_fuel in *. rewrite Ht in Hf. rewrite Ht'. lia.
  - intros y [Hy _]. split; [done|congruence].
Qed.

Lemma fits1 r sg k l : fits r sg (Fixed [k]) l -> exists x, l = [x] /\ has_kind r sg k x.
Proof. cbn. intros (x & l1 & Hx & H & ->)%Forall2_cons_inv_l. apply Forall2_nil_inv_l in H as ->. by exists x. Qed.

Lemma fits_at r sg op a l : wt r sg (TNode op l) = true -> arity_of sg op = Some a -> fits r sg a l.
Proof. intros (a' & Ha & Hl)%wt_node H. congruence. Qed.

Lemma wt_fits r sg op a l : arity_of sg op = Some a -> fits r sg a l -> wt r sg (TNode op l) = true.
Proof. intros. apply wt_node. by exists a. Qed.

Lemma node_inv r sg t : has_kind r sg KNode t -> exists op l, t = TNode op l.
Proof. destruct t; [done..|]. by eexists _, _. Qed.

(** x^:y is (x^):y. *)
Lemma fixops_parent fuel x1 op2 l2 :
  (forall t, simplified t = true -> fixops_fuel fuel t -> typed (fixops_post t) (_fixops fuel t)) ->
  let t := TNode "parent" [x1; TNode op2 l2] in
  simplified t = true -> fixops_fuel (S fuel) t -> typed (fixops_post t) (_fixops (S fuel) t).
Proof.
  intros IH t Ht Hf. subst t. pose proof (fits_at _ _ _ _ _ Ht eq_refl) as (x & y & [= <- <-] & Hx & Hy%has_node)%fits2.
  assert (simplified (TNode "parentpost" [x1]) = true) as Hpost by (eapply wt_fits; [reflexivity|by repeat constructor]).
  cbn [_fixops]. rewrite decide_True by done. cbn [member members label rbind pred lookup list_lookup].
  repeat case_decide; subst.
  - pose proof (fits_at _ _ _ _ _ Hy eq_refl) as (y & -> & Hy')%fits1. cbn [member members rbind pred lookup list_lookup].
    apply fixops_rewrite; [done|done| |done|rewrite !size_node; cbn; lia|done].
    eapply wt_fits; [reflexivity|]. repeat constructor; [by apply node_has|done].
  - pose proof (fits_at _ _ _ _ _ Hy eq_refl) as (y & -> & Hy')%fits1. cbn [member members rbind pred lookup list_lookup].
    apply fixops_rewrite; [done|done| |done|rewrite !size_node; cbn; lia|done].
    eapply wt_fits; [reflexivity|]. repeat constructor; [by apply node_has|done].
  - apply fixops_rewrite; [done|done| |done|rewrite !size_node; cbn; lia|done].
    eapply wt_fits; [reflexivity|]. repeat constructor. by apply node_has.
  - apply fixops_descend; [done|done| |done]. apply Forall_forall. intros z Hz Hs. apply IH; [done|]. by eapply member_fuel.
Qed.

(** x#y[z] is ternary. *)
Lemma fixops_subscript fuel op1 l1 x2 :
  (forall t, simplified t = true -> fixops_fuel fuel t -> typed (fixops_post t) (_fixops fuel t)) ->
  let t := TNode "subscript" [TNode op1 l1; x2] in
  simplified t = true -> fixops_fuel (S fuel) t -> typed (fixops_post t) (_fixops (S fuel) t).
Proof.
  intros IH t Ht Hf. subst t. pose proof (fits_at _ _ _ _ _ Ht eq_refl) as (x & y & [= <- <-] & Hx%has_node & Hy)%fits2.
  cbn [_fixops]. do 2 rewrite decide_False by done. rewrite decide_True by done. cbn [member members label rbind pred lookup list_lookup].
  case_decide; subst.
  - pose proof (fits_at _ _ _ _ _ Hx eq_refl) as (a & b & -> & Ha & Hb)%fits2. cbn [member members rbind pred lookup list_lookup].
    apply fixops_rewrite; [done|done| |done|rewrite !size_node; cbn; lia|done].
    eapply wt_fits; [reflexivity|]. by repeat constructor.
  - apply fixops_descend; [done|done| |done]. apply Forall_forall. intros z Hz Hs. apply IH; [done|]. by eapply member_fuel.
Qed.

Lemma fixops_typed fuel t : simplified t = true -> fixops_fuel fuel t -> typed (fixops_post t) (_fixops fuel t).
Proof.
  revert t. induction fuel as [|fuel IH]; intros t Ht Hf.
  { unfold fixops_fuel in Hf. pose proof (size_pos t). case_match; lia. }
  destruct t as [|s|op l]; [done..|]. destruct (decide (op = "parent"%string)) as [->|Hp].
  { pose proof (fits_at _ _ _ _ _ Ht eq_refl) as (x & y & -> & _ & (op2 & l2 & ->)%node_inv)%fits2. by apply fixops_parent. }
  destruct (decide (op = "subscript"%string)) as [->|Hs].
  { pose proof (fits_at _ _ _ _ _ Ht eq_refl) as (x & y & -> & (op1 & l1 & ->)%node_inv & _)%fits2. by apply fixops_subscript. }
  assert (Forall (fun x => simplified x = true -> typed (fixops_post x) (_fixops fuel x)) l) as Hl.
  { apply Forall_forall. intros z Hz Hs'. apply IH; [done|]. by eapply member_fuel. }
  destruct (decide (op = "or"%string)) as [->|Ho].
  - cbn [_fixops]. rewrite decide_False by done. rewrite decide_True by done. pose proof (fits_at _ _ _ _ _ Ht eq_refl) as Hfit.
    eapply typed_bind; [apply (IH (TNode "list" l))|].
    + by eapply wt_fits.
    + unfold fixops_fuel in *. rewrite size_node in *. cbn in *. lia.
    + intros y [Hy Hlab]. specialize (Hlab eq_refl). split; [|done]. eapply wt_fits; [reflexivity|]. repeat constructor.
      unfold has_kind, kind_ok. destruct y as [|s|op l']; [done..|]. injection Hlab as ->. exact Hy.
  - cbn [_fixops]. do 3 rewrite decide_False by done. by apply fixops_descend.
Qed.

Lemma parse_typed lookup initletters spec : typed (fun t => raw t = true) (parsewith lookup initletters spec).
Proof.
  unfold parsewith. eapply typed_bind; [apply parse_raw_typed|]. intros t Ht. eapply typed_bind; [by apply simplify_walk_typed|].
  intros t' Ht'. eapply typed_impl; [apply fixops_typed; [done|]|by intros y [? _]]. unfold fixops_fuel. lia.
Qed.

(** ** [foldconcat] *)

Lemma concat_parts_typed e : raw e = true -> typed (fun _ => True) (concat_parts e).
Proof.
  induction e as [|s|op l IH] using tree_ind'; intros He; [done..|]. cbn [concat_parts]. case_decide; subst.
  - eapply typed_bind; [|done]. apply (map_res_many (fun _ => True)).
    pose proof (fits_at _ _ _ _ _ He eq_refl) as (x & y & -> & Hx%has_node & Hy%has_node)%fits2. apply Forall_cons in IH as [IHx [IHy _]%Forall_cons].
    constructor; [by apply IHx|]. constructor; [by apply IHy|constructor].
  - case_decide as Hs; [|by eexists _, _].
    assert (arity_of raw_sig op = Some (Fixed [KStr])) as Ha by (by destruct Hs; subst). pose proof (fits_at _ _ _ _ _ He Ha) as (x & -> & Hx)%fits1.
    by destruct x.
Qed.

Definition fold_post (t y : tree) : Prop := folded y = true /\ (label t = Ok "list"%string -> label y = Ok "list"%string).

Lemma fold_arity op a :
  op ≠ "_concat"%string -> op ≠ "or"%string -> arity_of raw_sig op = Some a -> plain_arity a = true /\ arity_of folded_rows op = Some a.
Proof.
  intros H1 H2 Ha. pose proof (sig_check (fun op a => bool_decide (op = "_concat"%string \/ op = "or"%string \/ plain_arity a = true /\ arity_of folded_rows op = Some a)) raw_sig op a eq_refl Ha) as H.
  apply bool_decide_eq_true in H. tauto.
Qed.

Lemma foldconcat_typed t : raw t = true -> typed (fold_post t) (foldconcat t).
Proof.
  induction t as [|s|op l IH] using tree_ind'; intros Ht; [done..|]. cbn [foldconcat]. case_decide as Hs.
  { split; [|done]. assert (arity_of raw_sig op = Some (Fixed [KStr]) /\ arity_of folded_rows op = Some (Fixed [KStr])) as [Ha Hb] by (by destruct Hs; subst).
    pose proof (fits_at _ _ _ _ _ Ht Ha) as (x & -> & Hx)%fits1. eapply wt_fits; [exact Hb|]. destruct x; [done| |done]. constructor; [done|constructor]. }
  case_decide as Hc; subst.
  { eapply typed_bind; [by apply concat_parts_typed|]. intros ls _. by split. }
  destruct (decide (op = "or"%string)) as [->|Ho].
  - pose proof (fits_at _ _ _ _ _ Ht eq_refl) as (x & -> & Hx)%fits1. apply Forall_cons in IH as [IHx _]. unfold has_kind in Hx.
    destruct x as [|s|op l]; [done..|]. apply andb_true_iff in Hx as [->%bool_decide_eq_true Hx].
    eapply typed_bind; [apply (map_res_kinds (fun k y => has_kind noraw folded_rows k y) _ [KList])|].
    + repeat constructor. eapply typed_impl; [by apply IHx|]. intros y [Hy Hlab]. specialize (Hlab eq_refl).
      destruct y as [|s|op' l']; [done..|]. injection Hlab as ->. exact Hy.
    + intros ys Hys. split; [by eapply wt_fits|done].
  - apply wt_node in Ht as (a & Ha & Hl). destruct (fold_arity op a Hc Ho Ha) as [Hpa Hfa].
    eapply typed_bind; [eapply map_res_fits; [done|done|exact Hpa| |exact Hl]|].
    + eapply Forall_impl; [exact IH|]. intros x Hx Hr. eapply typed_impl; [by apply Hx|]. by intros y [? _].
    + intros ys Hys. split; [by eapply wt_fits|done].
Qed.

(** ** [_analyze] *)

(** An operand of an evaluable tree; a list stays a list. *)
Definition evaluable_opt (y : tree) : Prop := has_kind folded evaluable_sig KOpt y.
Definition analyze_post (x y : tree) : Prop := evaluable_opt y /\ (label x = Ok "list"%string -> label y = Ok "list"%string).

Lemma mem_check (P : string -> bool) op l : mem op l = true -> forallb P l = true -> P op = true.
Proof.
  unfold mem. rewrite existsb_exists, forallb_forall. intros (x & Hx & ->%String.eqb_eq) H. by apply H.
Qed.

(** The arities of the labels of a group, before and after. *)
Lemma group_arity sg1 sg2 a1 a2 op l :
  mem op l = true -> forallb (fun op => bool_decide (arity_of sg1 op = Some a1 /\ arity_of sg2 op = Some a2)) l = true ->
  arity_of sg1 op = Some a1 /\ arity_of sg2 op = Some a2.
Proof. intros Hm Hf. by apply (mem_check _ _ _ Hm) in Hf as ?%bool_decide_eq_true. Qed.

Lemma fits3 r sg k1 k2 k3 l : fits r sg (Fixed [k1; k2; k3]) l ->
  exists x y z, l = [x; y; z] /\ has_kind r sg k1 x /\ has_kind r sg k2 y /\ has_kind r sg k3 z.
Proof.
  cbn. intros (x & l1 & Hx & (y & l2 & Hy & (z & l3 & Hz & H & ->)%Forall2_cons_inv_l & ->)%Forall2_cons_inv_l & ->)%Forall2_cons_inv_l.
  apply Forall2_nil_inv_l in H as ->. by exists x, y, z.
Qed.

Lemma evaluable_node op l a : arity_of evaluable_sig op = Some a -> fits folded evaluable_sig a l -> evaluable_opt (TNode op l).
Proof. intros. unfold evaluable_opt, has_kind, kind_ok. by eapply wt_fits. Qed.

Lemma built_minus a b : _build "_ and not _" [a; b] = Ok (TNode "and" [a; TNode "not" [b]]).
Proof. by vm_compute. Qed.
Lemma built_only a b : _build "only(_, _)" [a; b] = Ok (TNode "func" [sym "only"; TNode "list" [a; b]]).
Proof. by vm_compute. Qed.
Lemma built_only1 a : _build "only(_)" [a] = Ok (TNode "func" [sym "only"; a]).
Proof. by vm_compute. Qed.
Lemma built_ancestors a : _build "ancestors(_)" [a] = Ok (TNode "func" [sym "ancestors"; a]).
Proof. by vm_compute. Qed.
Lemma built_descendants a : _build "descendants(_)" [a] = Ok (TNode "func" [sym "descendants"; a]).
Proof. by vm_compute. Qed.

(** Templates are parsed by these lemmas alone. *)
#[local] Opaque _build.

Lemma analyze_func fuel f z :
  is_node f = true -> folded f = true -> typed evaluable_opt (_analyze fuel z) -> typed evaluable_opt (_analyze (S fuel) (TNode "func" [f; z])).
Proof.
  intros Hf Hff Hz. change (_analyze (S fuel) (TNode "func" [f; z])) with (let* t := _analyze fuel z in Ok (TNode "func" [f; t])).
  eapply typed_bind; [exact Hz|]. intros y Hy. eapply evaluable_node; [reflexivity|]. constructor; [by destruct f|by repeat constructor].
Qed.

Lemma analyze_list fuel l :
  l ≠ [] -> Forall (fun x => typed evaluable_opt (_analyze fuel x)) l -> typed (analyze_post (TNode "list" l)) (_analyze (S fuel) (TNode "list" l)).
Proof.
  intros Hne Hl. change (_analyze (S fuel) (TNode "list" l)) with (let* l := map_res (_analyze fuel) l in Ok (TNode "list" l)).
  eapply typed_bind; [by apply (map_res_many evaluable_opt)|]. intros ys [Hys Hlen]. split; [|done].
  eapply evaluable_node; [reflexivity|]. split; [|done]. intros ->. by destruct l.
Qed.

Section analyze_cases.
Context (fuel : nat) (op : string) (l : list tree).
Context (Ht : folded (TNode op l) = true).
Context (IH : forall x, x ∈ l -> x = TNone \/ folded x = true -> typed (analyze_post x) (_analyze fuel x)).

Lemma analyze_member k x : x ∈ l -> k = KNode \/ k = KOpt -> has_kind noraw folded_rows k x -> typed evaluable_opt (_analyze fuel x).
Proof using IH.
  intros Hx Hk Hkind. eapply typed_impl; [apply IH; [done|]|by intros y [? _]].
  destruct x as [|s|op' l']; [by left|by destruct Hk; subst|]. right. by destruct Hk; subst.
Qed.

Lemma analyze_unary k :
  k = KNode \/ k = KOpt -> arity_of folded_rows op = Some (Fixed [k]) -> arity_of evaluable_sig op = Some (Fixed [KOpt]) ->
  exists y, l = [y] /\ typed evaluable_opt (let* t := _analyze fuel y in Ok (TNode op [t])).
Proof using Ht IH.
  intros Hk Ha Hb. pose proof (fits_at _ _ _ _ _ Ht Ha) as (y & Hl & Hy)%fits1. exists y. split; [done|].
  eapply typed_bind; [apply (analyze_member k); [rewrite Hl; by left|done|done]|]. intros t Hty. eapply evaluable_node; [exact Hb|]. by repeat constructor.
Qed.

Lemma analyze_binary k :
  k = KNode \/ k = KOpt -> arity_of folded_rows op = Some (Fixed [KNode; k]) -> arity_of evaluable_sig op = Some (Fixed [KOpt; KOpt]) ->
  exists y z, l = [y; z] /\ typed evaluable_opt (let* ta := _analyze fuel y in let* tb := _analyze fuel z in Ok (TNode op [ta; tb])).
Proof using Ht IH.
  intros Hk Ha Hb. pose proof (fits_at _ _ _ _ _ Ht Ha) as (y & z & Hl & Hy & Hz)%fits2. exists y, z. split; [done|].
  eapply typed_bind; [apply (analyze_member KNode); [rewrite Hl; by left|by left|done]|]. intros ta Hta.
  eapply typed_bind; [apply (analyze_member k); [rewrite Hl; right; by left|done|done]|]. intros tb Htb.
  eapply evaluable_node; [exact Hb|]. by repeat constructor.
Qed.
End analyze_cases.

Lemma mem_single op s : mem op [s] = true -> op = s.
Proof. unfold mem. cbn. by intros [->%String.eqb_eq|]%orb_true_iff. Qed.

Lemma opt_post op l r : op ≠ "list"%string -> typed evaluable_opt r -> typed (analyze_post (TNode op l)) r.
Proof. intros Hop Hr. eapply typed_impl; [exact Hr|]. intros y Hy. split; [done|]. by intros [= ->]. Qed.

Definition analyze_ok (fuel : nat) (x : tree) : Prop := x = TNone \/ folded x = true -> typed (analyze_post x) (_analyze fuel x).

Lemma ok_node fuel x : analyze_ok fuel x -> has_kind noraw folded_rows KNode x -> typed evaluable_opt (_analyze fuel x).
Proof. intros Ho Hx%has_node. eapply typed_impl; [by apply Ho; right|]. by intros y [? _]. Qed.

(** Equations of [_analyze], from which a template is not unfolded. *)
Lemma analyze_eq_minus f l : _analyze (S f) (TNode "minus" l) = let* t := _build "_ and not _" l in _analyze f t.
Proof. reflexivity. Qed.
Lemma analyze_eq_and f x y : _analyze (S f) (TNode "and" [x; y]) = let* ta := _analyze f x in let* tb := _analyze f y in Ok (TNode "and" [ta; tb]).
Proof. reflexivity. Qed.
Lemma analyze_eq_not f x : _analyze (S f) (TNode "not" [x]) = let* t := _analyze f x in Ok (TNode "not" [t]).
Proof. reflexivity. Qed.
Lemma analyze_eq_only f l : _analyze (S f) (TNode "only" l) = let* t := _build "only(_, _)" l in _analyze f t.
Proof. reflexivity. Qed.
Lemma analyze_eq_onlypost f x : _analyze (S f) (TNode "onlypost" [x]) = let* t := _build "only(_)" [x] in _analyze f t.
Proof. reflexivity. Qed.
Lemma analyze_eq_pre f x : _analyze (S f) (TNode "dagrangepre" [x]) = let* t := _build "ancestors(_)" [x] in _analyze f t.
Proof. reflexivity. Qed.
Lemma analyze_eq_post f x : _analyze (S f) (TNode "dagrangepost" [x]) = let* t := _build "descendants(_)" [x] in _analyze f t.
Proof. reflexivity. Qed.
Lemma analyze_eq_negate f x :
  _analyze (S (S f)) (TNode "negate" [x]) = let* s := getstring x "can't negate that" in Ok (TNode "string" [TStr ("-"%char :: s)]).
Proof. reflexivity. Qed.
Lemma analyze_eq_or f x : _analyze (S f) (TNode "or" [x]) = let* t := _analyze f x in Ok (TNode "or" [t]).
Proof. reflexivity. Qed.

(** The pseudo operations and the unions. *)
Lemma analyze_pseudo f op l :
  folded (TNode op l) = true -> (forall x, x ∈ l -> analyze_ok f x /\ analyze_ok (S f) x /\ analyze_ok (S (S f)) x /\ analyze_ok (S (S (S f))) x) ->
  mem op ["minus"; "only"; "onlypost"; "dagrangepre"; "dagrangepost"; "negate"; "or"] = true ->
  typed (analyze_post (TNode op l)) (_analyze (S (S (S (S f)))) (TNode op l)).
Proof.
  intros Ht IH Hm. unfold mem in Hm. cbn in Hm. rewrite !orb_true_iff, !String.eqb_eq in Hm.
  assert (forall x, x ∈ l -> has_kind noraw folded_rows KNode x -> typed evaluable_opt (_analyze f x) /\ typed evaluable_opt (_analyze (S f) x) /\ typed evaluable_opt (_analyze (S (S f)) x)) as IHn.
  { intros x (H1 & H2 & H3 & _)%IH Hx. split_and!; apply ok_node; assumption. }
  destruct Hm as [->|[->|[->|[->|[->|[->|[->|]]]]]]]; [..|done];
    pose proof (fits_at _ _ _ _ _ Ht eq_refl) as Hl; first [apply fits2 in Hl as (x & y & -> & Hx & Hy)|apply fits1 in Hl as (x & -> & Hx)].
  - apply opt_post; [done|]. rewrite analyze_eq_minus, built_minus. cbn [rbind]. rewrite analyze_eq_and.
    destruct (IHn x) as (_ & _ & H1); [by left|done|]. eapply typed_bind; [exact H1|]. intros ta Hta.
    destruct (IHn y) as (_ & H2 & _); [right; by left|done|]. eapply typed_bind; [rewrite analyze_eq_not; eapply typed_bind; [exact H2|]|].
    + intros tb Htb. exact (evaluable_node "not" [tb] _ eq_refl ltac:(by repeat constructor)).
    + intros tb Htb. eapply evaluable_node; [reflexivity|]. by repeat constructor.
  - apply opt_post; [done|]. rewrite analyze_eq_only, built_only. cbn [rbind].
    apply analyze_func; [done..|]. eapply typed_impl; [apply analyze_list; [done|]|by intros ? [? _]].
    destruct (IHn x) as (_ & H1 & _); [by left|done|]. destruct (IHn y) as (_ & H2 & _); [right; by left|done|].
    apply Forall_cons. split; [exact H1|]. apply Forall_cons. split; [exact H2|constructor].
  - apply opt_post; [done|]. rewrite analyze_eq_onlypost, built_only1. cbn [rbind].
    apply analyze_func; [done..|]. apply (IHn x); [by left|done].
  - apply opt_post; [done|]. rewrite analyze_eq_pre, built_ancestors. cbn [rbind].
    apply analyze_func; [done..|]. apply (IHn x); [by left|done].
  - apply opt_post; [done|]. rewrite analyze_eq_post, built_descendants. cbn [rbind].
    apply analyze_func; [done..|]. apply (IHn x); [by left|done].
  - apply opt_post; [done|]. rewrite analyze_eq_negate. unfold getstring. destruct x as [|s|op [|[] l]]; try (by eexists _, _). case_decide; [done|by eexists _, _].
  - apply opt_post; [done|]. rewrite analyze_eq_or.
    destruct (IH x) as (_ & _ & _ & Hox); [by left|]. unfold has_kind in Hx. destruct x as [|s|op l]; [done..|].
    apply andb_true_iff in Hx as [->%bool_decide_eq_true Hx]. eapply typed_bind; [by apply Hox; right|]. intros y [Hy Hlab].
    specialize (Hlab eq_refl). eapply evaluable_node; [reflexivity|]. repeat constructor. unfold has_kind. destruct y as [|s|op l']; [done..|].
    injection Hlab as ->. exact Hy.
Qed.

(** The other operations. *)
Lemma analyze_operation f op l :
  folded (TNode op l) = true -> (forall x, x ∈ l -> analyze_ok f x) ->
  mem op ["string"; "symbol"; "rangeall"; "not"; "rangepre"; "rangepost"; "parentpost"; "and"; "dagrange"; "range"; "parent"; "ancestor"; "relation"; "subscript"] = true ->
  typed (analyze_post (TNode op l)) (_analyze (S f) (TNode op l)).
Proof.
  intros Ht IH Hm. unfold mem in Hm. cbn in Hm. rewrite !orb_true_iff, !String.eqb_eq in Hm.
  assert (forall x, x ∈ l -> x = TNone \/ folded x = true -> typed (analyze_post x) (_analyze f x)) as IH' by (intros x Hx; by apply IH).
  destruct Hm as [->|[->|[->|Hm]]]; [(split; [|done])..|].
  1,2: pose proof (fits_at _ _ _ _ _ Ht eq_refl) as (x & -> & Hx)%fits1; destruct x; [done| |done]; reflexivity.
  1: reflexivity.
  repeat destruct Hm as [->|Hm]; [..|done]; apply opt_post; try done.
  1-4: destruct (analyze_unary f _ l Ht IH' KNode (or_introl eq_refl) eq_refl eq_refl) as (y & -> & Hy); exact Hy.
  1-6: destruct (analyze_binary f _ l Ht IH' KNode (or_introl eq_refl) eq_refl eq_refl) as (y & z & -> & Hy); exact Hy.
  destruct (analyze_binary f _ l Ht IH' KOpt (or_intror eq_refl) eq_refl eq_refl) as (y & z & -> & Hy); exact Hy.
Qed.

Lemma analyze_special f op l :
  folded (TNode op l) = true -> (forall x, x ∈ l -> analyze_ok f x) ->
  mem op ["group"; "relsubscript"; "list"; "keyvalue"; "func"] = true ->
  typed (analyze_post (TNode op l)) (_analyze (S f) (TNode op l)).
Proof.
  intros Ht IH Hm. unfold mem in Hm. cbn in Hm. rewrite !orb_true_iff, !String.eqb_eq in Hm.
  assert (forall k x, x ∈ l -> k = KNode \/ k = KOpt -> has_kind noraw folded_rows k x -> typed evaluable_opt (_analyze f x)) as IHk.
  { intros k x Hx. apply (analyze_member f l); [|done]. intros y Hy. by apply IH. }
  destruct Hm as [->|[->|[->|[->|[->|]]]]]; [..|done]; pose proof (fits_at _ _ _ _ _ Ht eq_refl) as Hl.
  - apply fits1 in Hl as (x & -> & Hx). apply opt_post; [done|]. change (typed evaluable_opt (_analyze f x)). eapply IHk; [by left|by right|done].
  - apply fits3 in Hl as (x & y & z & -> & Hx & Hy & Hz). apply opt_post; [done|].
    change (typed evaluable_opt (let* ta := _analyze f x in let* tb := _analyze f y in let* tc := _analyze f z in Ok (TNode "relsubscript" [ta; tb; tc]))).
    eapply typed_bind; [eapply IHk; [by left|by left|done]|]. intros ta Hta. eapply typed_bind; [eapply IHk; [right; by left|by left|done]|]. intros tb Htb.
    eapply typed_bind; [eapply IHk; [right; right; by left|by right|done]|]. intros tc Htc. eapply evaluable_node; [reflexivity|]. by repeat constructor.
  - destruct Hl as [Hne Hl]. apply analyze_list; [done|]. apply Forall_forall. intros x Hx. rewrite Forall_forall in Hl. eapply IHk; [done|by left|by apply Hl].
  - apply fits2 in Hl as (x & y & -> & Hx & Hy). apply opt_post; [done|]. change (typed evaluable_opt (let* t := _analyze f y in Ok (TNode "keyvalue" [x; t]))).
    eapply typed_bind; [eapply IHk; [right; by left|by left|done]|]. intros t Hty. eapply evaluable_node; [reflexivity|]. constructor; [by destruct x|by repeat constructor].
  - apply fits2 in Hl as (x & y & -> & Hx & Hy). apply opt_post; [done|]. change (typed evaluable_opt (let* t := _analyze f y in Ok (TNode "func" [x; t]))).
    eapply typed_bind; [eapply IHk; [right; by left|by right|done]|]. intros t Hty. eapply evaluable_node; [reflexivity|]. constructor; [by destruct x|by repeat constructor].
Qed.

Lemma analyze_typed fuel x : (4 * tree_size x <= fuel)%nat -> analyze_ok fuel x.
Proof.
  revert x. induction (lt_wf fuel) as [fuel _ IH]. intros x Hf Hx. pose proof (size_pos x).
  destruct fuel as [|[|[|[|f]]]]; [lia..|]. destruct x as [|s|op l]; [done|by destruct Hx|]. destruct Hx as [|Ht]; [done|].
  assert (forall g x, x ∈ l -> (f <= g <= S (S (S f)))%nat -> analyze_ok g x) as IHm.
  { intros g x Hx%sizes_elem Hg. rewrite size_node in Hf. apply IH; lia. }
  destruct (mem op ["minus"; "only"; "onlypost"; "dagrangepre"; "dagrangepost"; "negate"; "or"]) eqn:Epseudo.
  { apply analyze_pseudo; [done| |done]. intros x Hx. split_and!; apply IHm; (done || lia). }
  pose proof Ht as Ht'. apply wt_node in Ht' as (a & Ha & _).
  pose proof (sig_check (fun op _ => mem op ["minus"; "only"; "onlypost"; "dagrangepre"; "dagrangepost"; "negate"; "or"] ||
    (mem op ["string"; "symbol"; "rangeall"; "not"; "rangepre"; "rangepost"; "parentpost"; "and"; "dagrange"; "range"; "parent"; "ancestor"; "relation"; "subscript"] ||
     mem op ["group"; "relsubscript"; "list"; "keyvalue"; "func"])) folded_rows op a eq_refl Ha) as Hm.
  cbn beta in Hm. rewrite Epseudo, orb_false_l in Hm. apply orb_true_iff in Hm as [Hm|Hm]; [apply analyze_operation|apply analyze_special]; [done| |exact Hm|done| |exact Hm]; intros x Hx; (apply IHm; [done|lia]).
Qed.
End RevsetTypes.
