(* ===== verification/RevsetOptimize.v ===== *)
(** * The optimizer of queries keeps trees well-typed

    [optimize] of [RevsetLang] on evaluable trees in which the placeholder [_] of
    the templates does not occur; with it, the code can fail with an
    [IndexError]. *)

From S2P Require Import Prelude Lines Struct Pratt RevsetTokens ParserTree RevsetLang RevsetTypes.

Module RevsetOptimize.
Import Pratt RevsetTokens ParserTree RevsetLang RevsetTypes.

(** ** Templates and patterns *)

Definition plain_tree (t : tree) : bool := plain placeholder t.

Lemma built_list s : _build "_list(_)" [s] = Ok (TNode "func" [sym "_list"; s]).
Proof. by vm_compute. Qed.
Lemma built_phase a b : _build "_phaseandancestors(_, _)" [a; b] = Ok (TNode "func" [sym "_phaseandancestors"; TNode "list" [a; b]]).
Proof. by vm_compute. Qed.
Lemma built_notpublic : _build "_notpublic()" [] = Ok (TNode "func" [sym "_notpublic"; TNone]).
Proof. by vm_compute. Qed.

(** What a match says of a tree without placeholders: it is the instance of the
    parsed pattern for the matches, and these are nodes that can stand alone. *)
Lemma match_spec patspec pattern x :
  parse_revset (bs patspec) = Ok pattern -> plain_tree x = true ->
  _match patspec x = Ok None \/
  exists ms, _match patspec x = Ok (Some (x :: ms)) /\ _buildtree placeholder pattern ms = Ok (x, []) /\
    Forall (fun y => complete incompletenodes y = true) ms.
Proof.
  intros Hp Hx. unfold _match. rewrite Hp. cbn [rbind]. unfold matchtree. change (is_node placeholder) with true. cbn iota.
  destruct (_matchtree placeholder incompletenodes pattern x [x]) as [[] m] eqn:Hm; [right|by left].
  destruct (matchtree_build placeholder incompletenodes eq_refl _ _ _ _ Hx Hm) as (ms & -> & Hb). exists ms. split; [done|].
  split; [specialize (Hb []); by rewrite app_nil_r in Hb|]. by apply matchtree_complete in Hm as (ms' & ->%app_inv_head & Hc).
Qed.

Ltac pattern_match patspec Hx Hm :=
  let pt := eval vm_compute in (parse_revset (bs patspec)) in
  lazymatch pt with Ok ?p =>
    destruct (match_spec patspec p _ ltac:(vm_compute; reflexivity) Hx) as [Hm|(ms & Hm & Hb & Hc)]; [by left|right]
  end.

Lemma match_phase x :
  plain_tree x = true ->
  _match "_() & ancestors(_)" x = Ok None \/
  exists a b, _match "_() & ancestors(_)" x = Ok (Some [x; a; b]) /\ complete incompletenodes b = true /\
    x = TNode "and" [TNode "func" [a; TNone]; TNode "func" [sym "ancestors"; b]].
Proof.
  intros Hx. pattern_match "_() & ancestors(_)"%string Hx Hm. destruct ms as [|a [|b [|c ms]]]; try by vm_compute in Hb.
  vm_compute in Hb. injection Hb as <-. exists a, b. split; [done|]. split; [|done]. by apply Forall_cons in Hc as [_ [? _]%Forall_cons].
Qed.

Lemma match_only x :
  plain_tree x = true ->
  _match "ancestors(_) and not ancestors(_)" x = Ok None \/
  exists a b, _match "ancestors(_) and not ancestors(_)" x = Ok (Some [x; a; b]) /\
    complete incompletenodes a = true /\ complete incompletenodes b = true /\
    x = TNode "and" [TNode "func" [sym "ancestors"; a]; TNode "not" [TNode "func" [sym "ancestors"; b]]].
Proof.
  intros Hx. pattern_match "ancestors(_) and not ancestors(_)"%string Hx Hm. destruct ms as [|a [|b [|c ms]]]; try by vm_compute in Hb.
  vm_compute in Hb. injection Hb as <-. exists a, b. split; [done|]. apply Forall_cons in Hc as [Ha [Hc _]%Forall_cons]. by split_and!.
Qed.

Lemma match_not x :
  plain_tree x = true ->
  _match "not _" x = Ok None \/
  exists a, _match "not _" x = Ok (Some [x; a]) /\ complete incompletenodes a = true /\ x = TNode "not" [a].
Proof.
  intros Hx. pattern_match "not _"%string Hx Hm. destruct ms as [|a [|c ms]]; try by vm_compute in Hb.
  vm_compute in Hb. injection Hb as <-. exists a. by apply Forall_cons in Hc as [Hc _].
Qed.

Lemma match_public x :
  plain_tree x = true -> _match "public()" x = Ok None \/ _match "public()" x = Ok (Some [x]) /\ x = TNode "func" [sym "public"; TNone].
Proof.
  intros Hx. pattern_match "public()"%string Hx Hm. destruct ms as [|a ms]; vm_compute in Hb; [|done]. by injection Hb as <-.
Qed.

Lemma plain_members op l : plain_tree (TNode op l) = true -> Forall (fun x => plain_tree x = true) l.
Proof. unfold plain_tree. by intros [_ H]%plain_node. Qed.

Lemma plain_intro op l : op ≠ "symbol"%string -> Forall (fun x => plain_tree x = true) l -> plain_tree (TNode op l) = true.
Proof. intros Hop Hl. unfold plain_tree. apply plain_node. split; [|done]. intros H. apply Hop. by injection H as -> _. Qed.

(** ** Types *)

Definition optimized_opt (y : tree) : Prop := has_kind folded optimized_sig KOpt y.

Lemma wt_mono r sg sg' t :
  (forall op a, arity_of sg op = Some a -> arity_of sg' op = Some a) -> wt r sg t = true -> wt r sg' t = true.
Proof.
  intros Hsg. induction t as [|s|op l IH] using tree_ind'; [done..|]. intros (a & Ha & Hl)%wt_node. apply wt_node. exists a. split; [by apply Hsg|].
  assert (forall k x, (wt r sg x = true -> wt r sg' x = true) -> has_kind r sg k x -> has_kind r sg' k x) as Hk.
  { intros k x Hx. unfold has_kind. destruct k, x; cbn [kind_ok]; try done. rewrite !andb_true_iff. tauto. }
  destruct a as [ks|k]; cbn in Hl |- *.
  - clear Ha. revert IH. induction Hl as [|k x ks l Hx _ IH]; [constructor|]. intros [Hw Hws]%Forall_cons. constructor; [by apply Hk|by apply IH].
  - destruct Hl as [Hne Hl]. split; [done|]. rewrite Forall_forall in *. intros x Hx. apply Hk; auto.
Qed.

Lemma evaluable_optimized y : evaluable_opt y -> optimized_opt y.
Proof.
  unfold evaluable_opt, optimized_opt, has_kind. destruct y as [|s|op l]; [done..|]. cbn [kind_ok]. apply wt_mono.
  intros op' a Ha. pose proof (sig_check (fun op a => bool_decide (arity_of optimized_sig op = Some a)) evaluable_sig op' a eq_refl Ha) as H.
  by apply bool_decide_eq_true in H.
Qed.

(** What the optimizer keeps. *)
Definition good (y : tree) : Prop := optimized_opt y /\ plain_tree y = true.

Lemma good_node op l a :
  op ≠ "symbol"%string -> arity_of optimized_sig op = Some a -> fits folded optimized_sig a l -> Forall (fun x => plain_tree x = true) l -> good (TNode op l).
Proof. intros Hop Ha Hl Hp. split; [unfold optimized_opt, has_kind, kind_ok; by eapply wt_fits|by apply plain_intro]. Qed.

Lemma good_none : good TNone.
Proof. done. Qed.

Lemma optimized_fits op a l : optimized_opt (TNode op l) -> arity_of optimized_sig op = Some a -> fits folded optimized_sig a l.
Proof. intros Ht Ha. by eapply fits_at. Qed.

Lemma folded_symbol t s : folded t = true -> getsymbol t = Ok s -> t = TNode "symbol" [TStr s].
Proof.
  intros Ht Hs. unfold getsymbol in Hs. destruct t as [|s'|op l]; [done..|].
  assert (op = "symbol"%string) as ->.
  { clear Ht. repeat (case_match; try discriminate). done. }
  pose proof (fits_at _ _ _ _ _ Ht eq_refl) as (x & -> & Hx)%fits1. destruct x as [|s'|]; [done| |done]. by injection Hs as ->.
Qed.

Definition good_pair (r : Z * tree) : Prop := good r.2.

(** Only the lemmas above parse templates. *)
#[local] Opaque _build _match.

Lemma ok_pair w t : good t -> typed good_pair (Ok (w, t)).
Proof. done. Qed.

(** *** Conjunctions *)

Lemma raw_kind r sg sg' x : has_kind r sg KRaw x -> has_kind r sg' KRaw x.
Proof. unfold has_kind. by destruct x. Qed.

(** A function or a keyword argument, whose name is as it was parsed. *)
Lemma good_named op x t :
  op ≠ "symbol"%string -> arity_of optimized_sig op = Some (Fixed [KRaw; KOpt]) -> has_kind folded evaluable_sig KRaw x -> plain_tree x = true ->
  good t -> good (TNode op [x; t]).
Proof.
  intros Hop Ha Hx Hpx [Ht Hpt]. eapply good_node; [done|exact Ha| |].
  - constructor; [by eapply raw_kind|]. by constructor.
  - apply Forall_cons. split; [exact Hpx|]. by apply Forall_singleton.
Qed.

Lemma good_list ys : ys ≠ [] -> Forall good_pair ys -> good (TNode "list" (map snd ys)).
Proof.
  intros Hne Hys. assert (Forall good (map snd ys)) as Hg by (by apply Forall_fmap). eapply good_node; [done|reflexivity|split; [by destruct ys|]|];
    (eapply Forall_impl; [exact Hg|]; by intros ? []).
Qed.

Lemma getsymbol_error t e : getsymbol t = Err e -> parse_error e.
Proof. unfold getsymbol. repeat (case_match; try discriminate); intros [= <-]; by eexists _, _. Qed.

Lemma getsymbol_typed t : typed (fun _ => True) (getsymbol t).
Proof. destruct (getsymbol t) eqn:H; [done|by apply getsymbol_error in H]. Qed.

Lemma good_only a b : good a -> good b -> good (TNode "func" [sym "only"; TNode "list" [a; b]]).
Proof.
  intros [Ha Hpa] [Hb Hpb]. assert (good (TNode "list" [a; b])) as [Hl Hpl] by (eapply good_node; [done|reflexivity|split; [done|by repeat constructor]|by repeat constructor]).
  eapply good_node; [done|reflexivity|by repeat constructor|by repeat constructor].
Qed.

Lemma good_ancestors b : good (TNode "func" [sym "ancestors"; b]) -> good b.
Proof.
  intros [Ht Hp%plain_members]. pose proof (optimized_fits _ _ _ Ht eq_refl) as (x & y & [= <- <-] & _ & Hy)%fits2.
  apply Forall_cons in Hp as [_ [Hp _]%Forall_cons]. by split.
Qed.

Lemma good_not b : good (TNode "not" [b]) -> good b.
Proof.
  intros [Ht Hp%plain_members]. pose proof (optimized_fits _ _ _ Ht eq_refl) as (x & [= <-] & Hx)%fits1.
  apply Forall_cons in Hp as [Hp _]. by split.
Qed.

Lemma good_and a b : good a -> good b -> plain_tree (TNode "and" [a; b]) = true.
Proof. intros [_ Ha] [_ Hb]. apply plain_intro; [done|by repeat constructor]. Qed.

(** A fast path: a good tree, if it applies. *)
Definition good_opt (r : option tree) : Prop := match r with Some t => good t | None => True end.

Lemma phase_typed ta tb : good ta -> good tb -> typed good_opt (phase_fast_path ta tb).
Proof.
  intros Ha Hb. unfold phase_fast_path. destruct (match_phase _ (good_and _ _ Ha Hb)) as [->|(a & b & -> & _ & Hx)]; [done|].
  injection Hx as -> ->. cbn [rbind nth_match lookup list_lookup].
  destruct Ha as [Ha Hpa]. pose proof (optimized_fits _ _ _ Ha eq_refl) as (x & y & [= <- <-] & Hx & _)%fits2.
  assert (folded a = true) as Hfa by (by destruct a). destruct (getsymbol a) as [s|e] eqn:Hs.
  2:{ by apply getsymbol_error in Hs. }
  cbn [rbind]. case_decide; [|done]. apply good_ancestors in Hb as [Hob Hpb]. rewrite built_phase. cbn [rbind].
  apply (folded_symbol _ _ Hfa) in Hs as ->. apply plain_members in Hpa. apply Forall_cons in Hpa as [Hpa _].
  assert (good (TNode "list" [TNode "symbol" [TStr s]; b])) as [Hl Hpl] by (eapply good_node; [done|reflexivity|split; [done|by repeat constructor]|by repeat constructor]).
  eapply good_node; [done|reflexivity|by repeat constructor|by repeat constructor].
Qed.

Lemma only_typed ta tb : good ta -> good tb -> typed good_opt (only_fast_path ta tb).
Proof.
  pose (P m := match m with Some m => exists a b, tail m = [a; b] /\ good a /\ good b | None => True end).
  assert (forall x y, good x -> good y -> typed P (_matchonly x y)) as Honly.
  { intros x y Hx Hy. unfold _matchonly. destruct (match_only _ (good_and _ _ Hx Hy)) as [->|(a & b & -> & _ & _ & He)]; [done|]. injection He as -> ->.
    exists a, b. split; [done|]. split; [by apply good_ancestors|by apply good_ancestors, good_not]. }
  intros Ha Hb. unfold only_fast_path. eapply typed_bind; [by apply Honly|]. intros m Hm.
  apply (typed_bind P); [by destruct m; [|apply Honly]|]. clear m Hm. intros [m|]; [|done].
  intros (a & b & -> & Hga & Hgb). rewrite built_only. cbn [rbind]. by apply good_only.
Qed.

Lemma optimize_and_typed wa wb ta tb : good ta -> good tb -> typed good_pair (optimize_and "and" wa wb ta tb).
Proof.
  intros Ha Hb. unfold optimize_and. eapply typed_bind; [by apply phase_typed|]. intros [t|]; [by intros|intros _].
  eapply typed_bind; [by apply only_typed|]. intros [t|]; [by intros|intros _].
  destruct Ha as [Ha Hpa], Hb as [Hb Hpb]. destruct (match_not tb Hpb) as [->|(a & -> & _ & ->)]; cbn [rbind nth_match lookup list_lookup].
  - case_decide; (eapply good_node; [done|reflexivity|by repeat constructor|by repeat constructor]).
  - destruct (good_not a) as [Hga Hpga]; [done|]. eapply good_node; [done|reflexivity|by repeat constructor|by repeat constructor].
Qed.

(** *** Unions *)

Lemma Forall_add {A} (P : A -> Prop) l x : Forall P l -> P x -> Forall P (l ++ [x]).
Proof. intros Hl Hx. apply Forall_app. split; [done|]. by apply Forall_singleton. Qed.

Section optimize.
Context (weight : bytes -> option Z).
Notation _optimize := (_optimize weight).

Definition good_strings (ss : list (Z * tree)) : Prop := Forall (fun wt => good wt.2 /\ is_string wt.2 = true) ss.
Definition good_or (st : orstate) : Prop :=
  let '(ws, ts, ss) := st in length ws = length ts /\ Forall good ts /\ good_strings ss.

(** A single revision has a string. *)
Lemma good_string t : good t -> is_string t = true -> exists s, string_value t = Ok s.
Proof.
  intros [Ht _] Hs. destruct t as [|s|op l]; [done..|]. unfold is_string in Hs. apply bool_decide_eq_true in Hs.
  assert (arity_of optimized_sig op = Some (Fixed [KStr])) as Ha by (by destruct Hs; subst).
  pose proof (optimized_fits _ _ _ Ht Ha) as (x & -> & Hx)%fits1. destruct x as [|s|]; [done| |done]. by exists s.
Qed.

(** [optimize_], which calls [_optimize], is right on a [_list] of strings. *)
Definition list_typed (optimize_ : tree -> res (Z * tree)) : Prop :=
  forall s, typed good_pair (optimize_ (TNode "func" [sym "_list"; TNode "string" [TStr s]])).

Lemma flushss_typed optimize_ st :
  list_typed optimize_ -> good_or st -> typed (fun st' => good_or st' /\ st'.2 = [] /\ (st.1.1 ++ map fst st.2 ≠ [] -> st'.1.1 ≠ [])) (flushss optimize_ st).
Proof.
  intros Hopt. destruct st as [[ws ts] ss]. intros (Hlen & Hts & Hss). unfold flushss. destruct ss as [|[w t] [|[w' t'] ss]].
  - split_and!; [done|done|]. cbn. by rewrite app_nil_r.
  - apply Forall_cons in Hss as [[Ht _] _]. cbn in Ht. split_and!; [|done|cbn; intros _; by destruct ws]. split_and!; [rewrite !length_app; cbn; lia| |constructor].
    by apply Forall_add.
  - set (l := (w, t) :: (w', t') :: ss) in *. assert (exists vs, map_res (fun wt => string_value wt.2) l = Ok vs) as [vs ->].
    { clear -Hss. induction Hss as [|wt l [Hg Hs] _ [vs IH]]; [by exists []|]. destruct (good_string _ Hg Hs) as [v Hv]. exists (v :: vs). cbn. rewrite Hv, IH. done. }
    cbn [rbind]. rewrite built_list. cbn [rbind]. eapply typed_bind; [apply Hopt|]. intros [w1 t1] Ht1.
    split_and!; [|done|cbn; intros _; by destruct ws]. split_and!; [rewrite !length_app; cbn; lia| |constructor]. by apply Forall_add.
Qed.

Lemma or_operands_typed optimize_ l st :
  list_typed optimize_ -> Forall (fun y => typed good_pair (optimize_ y)) l -> good_or st ->
  typed (fun st' => good_or st' /\ (l ≠ [] \/ st.1.1 ++ map fst st.2 ≠ [] -> st'.1.1 ≠ [])) (or_operands optimize_ l st).
Proof.
  intros Hopt Hl. revert st. induction Hl as [|y l Hy _ IH]; intros st Hst.
  - cbn [or_operands]. eapply typed_impl; [by apply flushss_typed|]. intros st' (H1 & _ & H2). split; [done|]. intros [H|H]; [done|by apply H2].
  - cbn [or_operands]. eapply typed_bind; [exact Hy|]. intros [w t] Ht. cbn beta iota. destruct (is_string t) eqn:Hs.
    + destruct st as [[ws ts] ss]. eapply typed_impl; [apply IH|].
      * destruct Hst as (? & ? & Hss). split_and!; [done..|]. by apply Forall_add.
      * intros st' [H1 H2]. split; [done|]. intros _. apply H2. right. cbn. rewrite map_app. cbn. intros H%app_eq_nil. destruct H as [_ H%app_eq_nil]. by destruct H.
    + eapply typed_bind; [by apply flushss_typed|]. intros [[ws ts] ss] ((Hlen & Hts & Hss) & _ & _). cbn beta iota. eapply typed_impl; [apply IH|].
      * split_and!; [rewrite !length_app; cbn; lia| |done]. by apply Forall_add.
      * intros st' [H1 H2]. split; [done|]. intros _. apply H2. right. cbn. rewrite <- app_assoc. cbn. intros H%app_eq_nil. by destruct H.
Qed.

Lemma optimize_or_typed optimize_ l :
  list_typed optimize_ -> l ≠ [] -> Forall (fun y => typed good_pair (optimize_ y)) l ->
  typed good_pair (let* (ws, ts, _) := or_operands optimize_ l ([], [], []) in
    match ws, ts with [], _ => Err ValueError | w :: _, [t] => Ok (w, t) | w :: _, _ => Ok (zmax_list 0 ws, TNode "or" [TNode "list" ts]) end).
Proof.
  intros Hopt Hne Hl. eapply typed_bind; [apply (or_operands_typed _ _ ([], [], []) Hopt Hl); by repeat constructor|].
  intros [[ws ts] ss] [(Hlen & Hts & _) Hnn]. cbn beta iota. specialize (Hnn (or_introl Hne)). cbn in Hnn. destruct ws as [|w ws]; [done|].
  assert (good (TNode "or" [TNode "list" ts])) as Hor.
  { destruct ts as [|t ts]; [done|]. assert (good (TNode "list" (t :: ts))) as [Hg Hp].
    { eapply good_node; [done|reflexivity| |]; [split; [done|]|]; (eapply Forall_impl; [exact Hts|]; by intros ? []). }
    eapply good_node; [done|reflexivity|by repeat constructor|by repeat constructor]. }
  destruct ts as [|t [|t' ts]]; [done| |exact Hor]. by apply Forall_cons in Hts as [Ht _].
Qed.

(** *** All operations *)

(** Equations of [_optimize], from which no template is unfolded. *)
Lemma optimize_eq_and f x y : _optimize (S f) (TNode "and" [x; y]) =
  let* (wa, ta) := _optimize f x in let* (wb, tb) := _optimize f y in optimize_and "and" wa wb ta tb.
Proof. reflexivity. Qed.
Lemma optimize_eq_or f y : _optimize (S f) (TNode "or" [y]) =
  let* (ws, ts, _) := or_operands (_optimize f) (getlist y) ([], [], []) in
  match ws, ts with [], _ => Err ValueError | w :: _, [t] => Ok (w, t) | w :: _, _ => Ok (zmax_list 0 ws, TNode "or" [TNode "list" ts]) end.
Proof. reflexivity. Qed.
Lemma optimize_eq_not f y : _optimize (S f) (TNode "not" [y]) =
  let* m := _match "public()" y in
  match m with
  | Some _ => let* t := _build "_notpublic()" [] in _optimize f t
  | None => let* (w, t) := _optimize f y in Ok (w, TNode "not" [t])
  end.
Proof. reflexivity. Qed.
Lemma optimize_eq_list f l : _optimize (S f) (TNode "list" l) =
  let* l := map_res (_optimize f) l in
  match l with [] => Err ValueError | _ => Ok (foldr Z.add 0 (map fst l), TNode "list" (map snd l)) end.
Proof. reflexivity. Qed.
Lemma optimize_eq_func f y z : _optimize (S f) (TNode "func" [y; z]) =
  let* g := getsymbol y in let* (wa, ta) := _optimize f z in Ok (func_weight weight g + wa, TNode "func" [y; ta]).
Proof. reflexivity. Qed.

Definition optimize_ok (fuel : nat) (x : tree) : Prop := evaluable_opt x -> plain_tree x = true -> typed good_pair (_optimize fuel x).

Lemma evaluable_fits op a l : evaluable_opt (TNode op l) -> arity_of evaluable_sig op = Some a -> fits folded evaluable_sig a l.
Proof. intros Ht Ha. by eapply fits_at. Qed.

Lemma good_evaluable x : evaluable_opt x -> plain_tree x = true -> good x.
Proof. intros H Hp. split; [by apply evaluable_optimized|done]. Qed.

Lemma optimize_list_ok f : list_typed (_optimize (S (S f))).
Proof. intros s. apply ok_pair. by split; vm_compute. Qed.

Section optimize_cases.
Context (f : nat) (op : string) (l : list tree).
Context (Ht : evaluable_opt (TNode op l)) (Hplain : Forall (fun x => plain_tree x = true) l).
Context (IH : forall x, x ∈ l -> optimize_ok f x).

Lemma optimize_operand x : x ∈ l -> has_kind folded evaluable_sig KOpt x -> typed good_pair (_optimize f x).
Proof using Hplain IH. intros Hx Hk. rewrite Forall_forall in Hplain. apply IH; auto. Qed.

Lemma operand_good x : x ∈ l -> has_kind folded evaluable_sig KOpt x -> good x.
Proof using Hplain. intros Hx Hk. rewrite Forall_forall in Hplain. apply good_evaluable; auto. Qed.

Lemma optimize_unary :
  op ≠ "symbol"%string -> arity_of evaluable_sig op = Some (Fixed [KOpt]) -> arity_of optimized_sig op = Some (Fixed [KOpt]) ->
  exists y, l = [y] /\ typed good_pair (let* (w, t) := _optimize f y in Ok (w, TNode op [t])).
Proof using Ht Hplain IH.
  intros Hop Ha Hb. pose proof (evaluable_fits _ _ _ Ht Ha) as (y & Hl & Hy)%fits1. exists y. split; [done|].
  eapply typed_bind; [apply optimize_operand; [rewrite Hl; by left|done]|]. intros [w t] [Hg Hp]. eapply good_node; [done|exact Hb|by repeat constructor|by repeat constructor].
Qed.

Lemma optimize_sum :
  op ≠ "symbol"%string -> arity_of evaluable_sig op = Some (Fixed [KOpt; KOpt]) -> arity_of optimized_sig op = Some (Fixed [KOpt; KOpt]) ->
  exists y z, l = [y; z] /\ typed good_pair (let* (wa, ta) := _optimize f y in let* (wb, tb) := _optimize f z in Ok (wa + wb, TNode op [ta; tb])).
Proof using Ht Hplain IH.
  intros Hop Ha Hb. pose proof (evaluable_fits _ _ _ Ht Ha) as (y & z & Hl & Hy & Hz)%fits2. exists y, z. split; [done|].
  eapply typed_bind; [apply optimize_operand; [rewrite Hl; by left|done]|]. intros [wa ta] [Hg Hp].
  eapply typed_bind; [apply optimize_operand; [rewrite Hl; right; by left|done]|]. intros [wb tb] [Hg' Hp'].
  eapply good_node; [done|exact Hb|by repeat constructor|by repeat constructor].
Qed.

Lemma optimize_first :
  op ≠ "symbol"%string -> arity_of evaluable_sig op = Some (Fixed [KOpt; KOpt]) -> arity_of optimized_sig op = Some (Fixed [KOpt; KOpt]) ->
  exists y z, l = [y; z] /\ typed good_pair (let* (w, t) := _optimize f y in Ok (w, TNode op [t; z])).
Proof using Ht Hplain IH.
  intros Hop Ha Hb. pose proof (evaluable_fits _ _ _ Ht Ha) as (y & z & Hl & Hy & Hz)%fits2. exists y, z. split; [done|].
  eapply typed_bind; [apply optimize_operand; [rewrite Hl; by left|done]|]. intros [wa ta] [Hg Hp].
  destruct (operand_good z) as [Hg' Hp']; [rewrite Hl; right; by left|done|].
  eapply good_node; [done|exact Hb|by repeat constructor|by repeat constructor].
Qed.
End optimize_cases.

Lemma optimize_operation f op l :
  evaluable_opt (TNode op l) -> Forall (fun x => plain_tree x = true) l -> (forall x, x ∈ l -> optimize_ok f x) ->
  mem op ["string"; "symbol"; "rangeall"; "rangepre"; "rangepost"; "parentpost"; "dagrange"; "range"; "parent"; "ancestor"; "relation"; "subscript"] = true ->
  plain_tree (TNode op l) = true -> typed good_pair (_optimize (S f) (TNode op l)).
Proof.
  intros Ht Hp IH Hm Hplain. unfold mem in Hm. cbn in Hm. rewrite !orb_true_iff, !String.eqb_eq in Hm.
  destruct Hm as [->|[->|[->|Hm]]]; [apply ok_pair; by apply good_evaluable..|].
  repeat destruct Hm as [->|Hm]; [..|done].
  1-3: destruct (optimize_unary f _ l Ht Hp IH ltac:(done) eq_refl eq_refl) as (y & -> & Hy); exact Hy.
  1-2: destruct (optimize_sum f _ l Ht Hp IH ltac:(done) eq_refl eq_refl) as (y & z & -> & Hy); exact Hy.
  all: destruct (optimize_first f _ l Ht Hp IH ltac:(done) eq_refl eq_refl) as (y & z & -> & Hy); exact Hy.
Qed.

Lemma optimize_special f op l :
  evaluable_opt (TNode op l) -> Forall (fun x => plain_tree x = true) l -> (forall x, x ∈ l -> optimize_ok (S (S f)) x) ->
  mem op ["not"; "relsubscript"; "list"; "keyvalue"; "func"; "and"] = true -> typed good_pair (_optimize (S (S (S f))) (TNode op l)).
Proof.
  intros Ht Hp IH Hm. unfold mem in Hm. cbn in Hm. rewrite !orb_true_iff, !String.eqb_eq in Hm.
  pose proof (optimize_operand (S (S f)) l Hp IH) as Ho. pose proof (operand_good l Hp) as Hg.
  destruct Hm as [->|[->|[->|[->|[->|[->|]]]]]]; [..|done]; pose proof (evaluable_fits _ _ _ Ht eq_refl) as Hl.
  - destruct (optimize_unary (S (S f)) "not" l Ht Hp IH ltac:(done) eq_refl eq_refl) as (y & -> & Hy). rewrite optimize_eq_not.
    apply Forall_cons in Hp as [Hp _]. destruct (match_public y Hp) as [->|[-> _]]; [exact Hy|]. cbn [rbind]. rewrite built_notpublic. cbn [rbind].
    apply ok_pair. by split; vm_compute.
  - apply fits3 in Hl as (x & y & z & -> & Hx & Hy & Hz).
    change (typed good_pair (let* (w, t) := _optimize (S (S f)) x in Ok (w, TNode "relsubscript" [t; y; z]))).
    eapply typed_bind; [apply Ho; [by left|done]|]. intros [w t] [Ht' Hpt]. destruct (Hg y) as [Hgy Hpy]; [right; by left|done|]. destruct (Hg z) as [Hgz Hpz]; [do 2 right; by left|done|].
    eapply good_node; [done|reflexivity|by repeat constructor|by repeat constructor].
  - destruct Hl as [Hne Hl]. rewrite optimize_eq_list. eapply typed_bind; [apply (map_res_many good_pair)|].
    + apply Forall_forall. intros x Hx. rewrite Forall_forall in Hl. by apply Ho; [|apply Hl].
    + intros ys [Hys Hlen]. assert (ys ≠ []) as Hne' by (intros ->; by destruct l). apply (good_list ys) in Hne' as Hgl; [|done].
      destruct ys; [done|]. exact Hgl.
  - apply fits2 in Hl as (x & y & -> & Hx & Hy). apply Forall_cons in Hp as [Hpx _].
    change (typed good_pair (let* (w, t) := _optimize (S (S f)) y in Ok (w, TNode "keyvalue" [x; t]))).
    eapply typed_bind; [apply Ho; [right; by left|done]|]. intros [w t] Hgt.
    by apply good_named.
  - apply fits2 in Hl as (x & y & -> & Hx & Hy). apply Forall_cons in Hp as [Hpx _]. rewrite optimize_eq_func.
    apply (typed_bind (fun _ => True)); [by apply getsymbol_typed|].
    intros g _. eapply typed_bind; [apply Ho; [right; by left|done]|]. intros [w t] Hgt.
    by apply good_named.
  - apply fits2 in Hl as (x & y & -> & Hx & Hy). rewrite optimize_eq_and.
    eapply typed_bind; [apply Ho; [by left|done]|]. intros [wa ta] Hta. eapply typed_bind; [apply Ho; [right; by left|done]|]. intros [wb tb] Htb.
    by apply optimize_and_typed.
Qed.

Lemma optimize_typed_fuel fuel x : (3 + 2 * tree_size x <= fuel)%nat -> optimize_ok fuel x.
Proof.
  revert x. induction (lt_wf fuel) as [fuel _ IH]. intros x Hf Hx Hp. destruct fuel as [|[|[|f]]]; [lia..|].
  destruct x as [|s|op l]; [by apply ok_pair|done|]. rewrite size_node in Hf.
  assert (forall g x, x ∈ l -> (S (S f) <= g <= S (S f))%nat -> optimize_ok g x) as IHm by (intros g x Hx'%sizes_elem Hg; apply IH; lia).
  pose proof (plain_members _ _ Hp) as Hps. pose proof Hx as Hx'. apply wt_node in Hx' as (a & Ha & Hl).
  destruct (decide (op = "or"%string)) as [->|Hor].
  - pose proof (evaluable_fits _ _ _ Hx eq_refl) as (y & -> & Hy)%fits1. apply Forall_cons in Hps as [Hpy _]. rewrite optimize_eq_or.
    unfold has_kind in Hy. destruct y as [|s|op l]; [done..|]. apply andb_true_iff in Hy as [->%bool_decide_eq_true Hy]. cbn [getlist].
    pose proof (fits_at _ _ _ _ _ Hy eq_refl) as [Hne Hl']. apply plain_members in Hpy.
    unfold tree_sizes in Hf. cbn [sum_list_with] in Hf. rewrite size_node in Hf.
    apply optimize_or_typed; [apply optimize_list_ok|done|]. apply Forall_forall. intros z Hz. rewrite Forall_forall in Hl', Hpy.
    apply sizes_elem in Hz as Hs. apply (IH (S (S f))); [lia|lia|by apply Hl'|by apply Hpy].
  - pose proof (sig_check (fun op _ => bool_decide (op = "or"%string) ||
      (mem op ["string"; "symbol"; "rangeall"; "rangepre"; "rangepost"; "parentpost"; "dagrange"; "range"; "parent"; "ancestor"; "relation"; "subscript"] ||
       mem op ["not"; "relsubscript"; "list"; "keyvalue"; "func"; "and"])) evaluable_sig op a eq_refl Ha) as Hm.
    cbn beta in Hm. rewrite bool_decide_false, orb_false_l in Hm by done.
    apply orb_true_iff in Hm as [Hm|Hm]; [apply optimize_operation|apply optimize_special]; try assumption; intros z Hz; (apply IHm; [done|lia]).
Qed.

Lemma optimize_spec x : evaluable_opt x -> plain_tree x = true -> typed good (optimize weight x).
Proof.
  intros Hx Hp. unfold optimize. eapply typed_bind; [by apply optimize_typed_fuel|]. by intros [w t] Ht.
Qed.
End optimize.

(** [C24] The phases of a query are type safe.  Parsing any bytes gives a well-typed
    raw tree or a [ParseError]; folding a raw tree, and then analyzing it, gives a
    well-typed tree of the next phase or a [ParseError]; and so does optimizing an
    evaluable tree in which no symbol is the placeholder [_].  So no phase looks a
    missing member up, meets an unknown operator or takes a [None] for a node. *)
Theorem revset_phases_typed (weight : bytes -> option Z) (lookup : option (bytes -> bool)) (initletters : ascii -> bool) :
  (forall spec, typed (fun t => raw t = true) (parsewith lookup initletters spec)) /\
  (forall t, raw t = true -> typed (fun t' => folded t' = true) (foldconcat t)) /\
  (forall t, folded t = true -> typed evaluable_opt (analyze t)) /\
  (forall t, evaluable_opt t -> plain_tree t = true -> typed optimized_opt (optimize weight t)).
Proof.
  split_and!; intros t.
  - apply parse_typed.
  - intros Ht. eapply typed_impl; [by apply foldconcat_typed|]. by intros y [? _].
  - intros Ht. eapply typed_impl; [apply analyze_typed; [done|by right]|]. by intros y [? _].
  - intros Ht Hp. eapply typed_impl; [by apply optimize_spec|]. by intros y [? _].
Qed.

(** Without the last condition: the tree of [a - _] matches the pattern [not _] as it
    stands, no node is recorded, and asking for it fails. *)
Example optimize_placeholder :
  query (fun _ => None) (bs "a - _") = Err IndexError /\ query (fun _ => None) (bs "ancestors(_) and not ancestors(_)") = Err IndexError.
Proof. split; vm_compute; reflexivity. Qed.
End RevsetOptimize.
