(* ===== verification/FormatSpec.v ===== *)
(** * Building queries from templates ([formatspec] of revsetlang.py)

    The arguments of a query template are quoted or printed by their type; nothing
    else of the template changes. *)

From S2P Require Import Prelude Lines Struct PyFormat PyEscape Pratt RevsetTokens ParserTree RevsetLang.

Module FormatSpec.
Import PyFormat PyEscape Pratt RevsetTokens ParserTree RevsetLang.

(** An argument: a number, a string, a query, a node, an object with a branch, a
    list. *)
Inductive farg := FInt (n : Z) | FStr (s : bytes) | FRevset (s : bytes) | FNode (s : bytes) | FBranch (s : bytes) | FList (l : list farg).

(** [node.hex] *)
Definition hex (s : bytes) : bytes := s ≫= fun c => [hexdigit (ord c / 16); hexdigit (ord c mod 16)].

(** The string of an argument of type [c], without quotes. *)
Definition argstring (c : ascii) (a : farg) : res bytes :=
  match c, a with
  | "d"%char, FInt n => Ok (fmt_d n)
  | "s"%char, FStr s => Ok s
  | "n"%char, FNode s => Ok (hex s)
  | "b"%char, FBranch s => Ok s
  | _, _ => Err TypeError
  end.

(** [argtype] *)
Definition argtype (c : ascii) (a : farg) : res bytes :=
  match c, a with
  | "d"%char, _ => argstring c a
  | "r"%char, FRevset s => let* _ := parse_revset s in Ok (bs "(" ++ s ++ bs ")")
  | _, _ => let* s := argstring c a in Ok (_quote s)
  end.

Definition nul : ascii := byte 0.

(** The function that takes the strings of a list of arguments of type [t]. *)
Definition list_function (t : ascii) : option string :=
  match t with
  | "d"%char => Some "_intlist"
  | "s"%char | "b"%char => Some "_list"
  | "n"%char => Some "_hexlist"
  | _ => None
  end%string.

(** [listexp], by halves for queries; the argument [n] bounds the depth. *)
Fixpoint listexp (n : nat) (s : list farg) (t : ascii) : res bytes :=
  match n, s with
  | O, _ => Err OutOfFuel
  | S n, [] => Ok (bs "_list('')")
  | S n, [a] => argtype t a
  | S n, _ =>
      match list_function t with
      | Some f => let* l := map_res (argstring t) s in Ok (bs f ++ bs "('" ++ join nul l ++ bs "')")
      | None =>
          let m := Nat.div2 (length s) in
          let* a := listexp n (take m s) t in
          let* b := listexp n (drop m s) t in
          Ok (bs "(" ++ a ++ bs " or " ++ b ++ bs ")")
      end
  end.

(** [formatspec]: a [%] at the end, and a missing argument, are an [IndexError]. *)
Fixpoint formatspec (expr : bytes) (args : list farg) : res bytes :=
  match expr with
  | [] => Ok []
  | "%"%char :: d :: rest =>
      if decide (d = "%"%char) then let* r := formatspec rest args in Ok (d :: r)
      else if decide (d ∈ bs "dsnbr") then
        match args with
        | a :: args => let* s := argtype d a in let* r := formatspec rest args in Ok (s ++ r)
        | [] => Err IndexError
        end
      else if decide (d = "l"%char) then
        match rest, args with
        | t :: rest, FList l :: args => let* s := listexp (S (length l)) l t in let* r := formatspec rest args in Ok (s ++ r)
        | _ :: _, _ :: _ => Err TypeError
        | _, _ => Err IndexError
        end
      else Err (Abort "unexpected revspec format character")
  | "%"%char :: [] => Err IndexError
  | c :: rest => let* r := formatspec rest args in Ok (c :: r)
  end.

Example formatspec_examples :
  formatspec (bs "%r:: and %lr") [FRevset (bs "10 or 11"); FList [FRevset (bs "this()"); FRevset (bs "that()")]] =
    Ok (bs "(10 or 11):: and ((this()) or (that()))") /\
  formatspec (bs "%d:: and not %d::") [FInt 10; FInt 20] = Ok (bs "10:: and not 20::") /\
  formatspec (bs "%ld or %ld") [FList []; FList [FInt 1]] = Ok (bs "_list('') or 1").
Proof. split_and!; vm_compute; reflexivity. Qed.

(** ** Theorems *)

Lemma formatspec_literal pre expr args :
  Forall (fun c => c ≠ "%"%char) pre -> formatspec (pre ++ expr) args = let* r := formatspec expr args in Ok (pre ++ r).
Proof.
  induction 1 as [|c pre Hc _ IH]; [cbn; by destruct (formatspec expr args)|]. cbn [app].
  assert (forall rest, formatspec (c :: rest) args = let* r := formatspec rest args in Ok (c :: r)) as ->.
  { intros rest. clear IH. destruct c as [[] [] [] [] [] [] [] []]; try done. }
  rewrite IH. by destruct (formatspec expr args).
Qed.

(** The list of strings is not escaped: an element that is not alone and holds a
    quote ends the string and continues as a query. *)
Example list_not_quoted :
  formatspec (bs "%ls") [FList [FStr (bs "a"); FStr (bs "b') or all() or f('")]] = Ok (bs "_list('a" ++ nul :: bs "b') or all() or f('')") /\
  (let* spec := formatspec (bs "%ls") [FList [FStr (bs "a"); FStr (bs "b'")]] in parse_revset spec) = Err (ParseError "unterminated string" (Some 12)).
Proof. split; vm_compute; reflexivity. Qed.

(** [C28] Splicing a string into a query is safe: with [%s] in a template, the string
    argument becomes one string token with its value, at its place between the
    unchanged parts. *)
Theorem formatspec_string (pre post s : bytes) (lookup : option (bytes -> bool)) (initletters letters : ascii -> bool) (fuel : nat) :
  Forall (fun c => c ≠ "%"%char) pre -> Forall (fun c => c ≠ "%"%char) post ->
  exists program, formatspec (pre ++ bs "%s" ++ post) [FStr s] = Ok program /\
    (exists q, program = pre ++ q ++ post /\
    tokens_from lookup initletters letters program (S fuel) (length pre) =
      tok "string" (Some s) (S (length pre)) :: tokens_from lookup initletters letters program fuel (length pre + length q)).
Proof.
  intros Hpre Hpost. exists (pre ++ _quote s ++ post). rewrite formatspec_literal by done. cbn.
  pose proof (formatspec_literal post [] [] Hpost) as Hp. rewrite app_nil_r in Hp. rewrite Hp. cbn. rewrite app_nil_r.
  split; [done|]. exists (_quote s). split; [done|]. eapply quote_token, drop_app_length.
Qed.

Lemma formatspec_string_witness :
  let pre := bs "keyword(" in let post := bs ")" in let s := bs "it's" in
  formatspec (pre ++ bs "%s" ++ post) [FStr s] = Ok (bs "keyword('it\'s')") /\
  exists program, formatspec (pre ++ bs "%s" ++ post) [FStr s] = Ok program /\
    (exists q, program = pre ++ q ++ post /\
    tokens_from None syminitletters symletters program 9 (length pre) =
      tok "string" (Some s) (S (length pre)) :: tokens_from None syminitletters symletters program 8 (length pre + length q)).
Proof.
  split; [vm_compute; reflexivity|].
  apply (formatspec_string (bs "keyword(") (bs ")") (bs "it's") None syminitletters symletters 8); repeat constructor; discriminate.
Defined.
End FormatSpec.
