(* ===== verification/DagUtil.v ===== *)
(** * Views of a revision graph (dagutil.py)

    [revlogdag] gives the parents of a revision; [inverserevlogdag] swaps parents
    and children, and learns the children from a scan of the revlog that goes down
    only as far as it was asked. *)

From S2P Require Import Prelude Dag.

Module DagUtil.

(** What discovery asks of a graph; [S] is the state the object keeps. *)
Record dag (S : Type) := MkDag {
  d_parents : S -> Z -> list Z * S;
  d_heads : S -> list Z * S
}.
Arguments MkDag {S}.
Arguments d_parents {S}.
Arguments d_heads {S}.

Section dags.
Context (pfunc : Z -> list Z) (len : Z).

(** ** [revlogdag] *)

(** [parents] *)
Definition parents (ix : Z) : list Z := filter (fun p => p ≠ nullrev) (pfunc ix).

(** [heads], of a revlog whose [headrevs] is given (the repository replaces the
    changelog's by the visible heads); the object may be given a subset instead. *)
Definition heads (headrevs : list Z) (localsubset : option (list Z)) : list Z :=
  match localsubset with
  | Some l => l
  | None => filter (fun r => r ≠ nullrev) headrevs
  end.

Definition revlogdag (headrevs : list Z) (localsubset : option (list Z)) : dag unit :=
  MkDag (fun _ ix => (parents ix, tt)) (fun _ => (heads headrevs localsubset, tt)).

(** ** [inverserevlogdag] *)

Record inverse := Inverse { i_children : gmap Z (list Z); i_roots : list Z; i_walkfrom : Z }.

(** [__init__] *)
Definition inverse_init : inverse := Inverse ∅ [] (len - 1).

(** [cs.setdefault(prev, []).append(rev)] *)
Definition add_child (rev : Z) (cs : gmap Z (list Z)) (prev : Z) : gmap Z (list Z) :=
  <[prev := default [] (cs !! prev) ++ [rev]]> cs.

(** One step of [_walkto]. *)
Definition walk_rev (st : inverse) (rev : Z) : inverse :=
  Inverse (foldl (add_child rev) (i_children st) (parents rev))
    (if decide (parents rev = []) then i_roots st ++ [rev] else i_roots st) (i_walkfrom st).

(** [_walkto] *)
Definition walkto (w : Z) (st : inverse) : inverse :=
  let st' := foldl walk_rev st (zrange_down (i_walkfrom st) (w - 1)) in
  Inverse (i_children st') (i_roots st') (Z.min (i_walkfrom st) (w - 1)).

(** [parents]: the children. *)
Definition inverse_parents (st : inverse) (ix : Z) : list Z * inverse :=
  let st := if decide (ix <= i_walkfrom st) then walkto ix st else st in
  (default [] (i_children st !! ix), st).

(** [heads], from [_getheads]: the roots. *)
Definition inverse_heads (st : inverse) : list Z * inverse :=
  let st := walkto nullrev st in (i_roots st, st).

Definition inverserevlogdag : dag inverse := MkDag inverse_parents inverse_heads.
End dags.

(** ** Operations of both *)

Section generic.
Context {S : Type} (D : dag S).

(** The parents of several nodes, in order. *)
Fixpoint all_parents (st : S) (ixs : list Z) : list Z * S :=
  match ixs with
  | [] => ([], st)
  | n :: ixs => let (ps, st) := d_parents D st n in let (qs, st) := all_parents st ixs in (ps ++ qs, st)
  end.

(** [headsetofconnecteds] *)
Definition headsetofconnecteds (st : S) (ixs : gset Z) : res (gset Z * S) :=
  if decide (ixs = ∅) then Ok (∅, st)
  else
    let (ps, st) := all_parents st (elements ixs) in
    let hds := foldl (fun (hds : gset Z) p => hds ∖ {[p]}) ixs ps in
    if decide (hds = ∅) then Err AssertionError else Ok (hds, st).

(** The loop of [ancestorset]; [pending] is a stack. *)
Fixpoint ancestorset_loop (fuel : nat) (stops : gset Z) (pending : list Z) (seen : gset Z) (st : S) : res (gset Z * S) :=
  match fuel with
  | O => Err OutOfFuel
  | Datatypes.S fuel =>
      match pending with
      | [] => Ok (seen, st)
      | n :: pending =>
          if decide (n ∉ seen /\ n ∉ stops) then
            let (ps, st) := d_parents D st n in
            ancestorset_loop fuel stops (rev ps ++ pending) ({[n]} ∪ seen) st
          else ancestorset_loop fuel stops pending seen st
      end
  end.
End generic.

(** ** Walks end *)

Lemma foldl_difference (ps : list Z) (s : gset Z) : foldl (fun (hds : gset Z) p => hds ∖ {[p]}) s ps = s ∖ list_to_set ps.
Proof.
  revert s. induction ps as [|p ps IH]; intros s; cbn [foldl list_to_set]; [set_solver|]. rewrite IH. set_solver.
Qed.

Section walks.
Context {S : Type} (D : dag S) (inv : S -> Prop) (succ : Z -> list Z) (U : list Z).

(** The object computes [succ], which stays among the nodes [U]. *)
Definition computes : Prop :=
  forall st x, inv st -> x ∈ U -> (d_parents D st x).1 = succ x /\ inv (d_parents D st x).2.
Definition stays : Prop := forall x y, x ∈ U -> y ∈ succ x -> y ∈ U.

(** The edges out of the nodes that are not seen. *)
Definition edges_left (seen : gset Z) : nat := sum_list_with (fun x => if decide (x ∈ seen) then 0%nat else length (succ x)) U.

Lemma edges_left_see seen x : x ∈ U -> x ∉ seen -> (edges_left ({[x]} ∪ seen) + length (succ x) <= edges_left seen)%nat.
Proof.
  unfold edges_left. intros Hx Hs.
  assert (forall l, (sum_list_with (fun y => if decide (y ∈ ({[x]} ∪ seen : gset Z)) then 0 else length (succ y)) l
    <= sum_list_with (fun y => if decide (y ∈ seen) then 0 else length (succ y)) l)%nat) as Hle.
  { induction l as [|y l IH]; cbn; [done|]. do 2 case_decide; try lia. set_solver. }
  induction Hx as [x l|x y l Hx IH].
  - cbn. rewrite decide_True by set_solver. rewrite (decide_False (P := x ∈ seen)) by done. specialize (Hle l). lia.
  - specialize (IH Hs Hle). specialize (Hle [y]). cbn in *. lia.
Qed.

Context (Hcomp : computes) (Hstays : stays).

Lemma all_parents_spec st ixs : inv st -> (forall x, x ∈ ixs -> x ∈ U) -> (all_parents D st ixs).1 = ixs ≫= succ /\ inv (all_parents D st ixs).2.
Proof using Hcomp.
  clear Hstays.
  revert st. induction ixs as [|n ixs IH]; intros st Hi HU; [done|]. cbn [all_parents].
  destruct (Hcomp st n Hi) as [H1 H2]; [apply HU; by left|]. destruct (d_parents D st n) as [ps st1]. cbn in H1, H2. subst ps.
  destruct (IH st1 H2) as [H3 H4]; [intros x Hx; apply HU; by right|]. destruct (all_parents D st1 ixs) as [qs st2]. cbn in *. by subst qs.
Qed.

(** Heads of a set: its members that are no member's parent. *)
Lemma headsetofconnecteds_spec st (ixs : gset Z) :
  inv st -> (forall x, x ∈ ixs -> x ∈ U) -> (ixs ≠ ∅ -> exists m, m ∈ ixs /\ forall x, x ∈ ixs -> m ∉ succ x) ->
  exists hds st', headsetofconnecteds D st ixs = Ok (hds, st') /\ inv st' /\
    (forall x, x ∈ hds <-> x ∈ ixs /\ forall y, y ∈ ixs -> x ∉ succ y) /\ (ixs ≠ ∅ -> hds ≠ ∅).
Proof using Hcomp.
  clear Hstays.
  intros Hi HU Hm. unfold headsetofconnecteds. case_decide as He.
  { exists ∅, st. split_and!; [done|done| |done]. subst. set_solver. }
  destruct (all_parents_spec st (elements ixs) Hi) as [H1 H2]; [intros x Hx; apply HU; set_solver|].
  destruct (all_parents D st (elements ixs)) as [ps st']. cbn in H1, H2. subst ps. rewrite foldl_difference.
  assert (forall x, x ∈ ixs ∖ list_to_set (elements ixs ≫= succ) <-> x ∈ ixs /\ forall y, y ∈ ixs -> x ∉ succ y) as Hspec.
  { intros x. rewrite elem_of_difference, elem_of_list_to_set, list_elem_of_bind. apply and_iff_compat_l.
    split; [intros Hn y Hy Hxy; apply Hn; exists y; split; [done|set_solver]|intros Hn (y & Hxy & Hy); apply (Hn y); [set_solver|done]]. }
  destruct (Hm He) as (m & Hmi & Hmx). assert (m ∈ ixs ∖ list_to_set (elements ixs ≫= succ)) as Hin by (by apply Hspec).
  rewrite decide_False by set_solver. eexists _, _. split_and!; [done|done|exact Hspec|set_solver].
Qed.

(** [ancestorset]: everything reachable that is not behind [stops]. *)
Lemma ancestorset_spec fuel stops pending seen st :
  inv st -> (forall x, x ∈ pending -> x ∈ U) ->
  (length pending + edges_left seen < fuel)%nat ->
  exists seen' st', ancestorset_loop D fuel stops pending seen st = Ok (seen', st') /\ inv st' /\
    seen ⊆ seen' /\ (forall x, x ∈ pending -> x ∈ seen' \/ x ∈ stops) /\
    (forall x, x ∈ seen' -> x ∈ seen \/ exists r, r ∈ pending /\ rtc (fun a b => b ∈ succ a) r x) /\
    (forall x y, x ∈ seen' -> x ∈ seen \/ (y ∈ succ x -> y ∈ seen' \/ y ∈ stops)).
Proof using Hcomp Hstays.
  revert pending seen st. induction fuel as [|fuel IH]; intros pending seen st Hi HU Hf; [lia|]. cbn [ancestorset_loop].
  destruct pending as [|n pending].
  { exists seen, st. split_and!; [done|done|done|set_solver|tauto|tauto]. }
  case_decide as Hn.
  - destruct (Hcomp st n Hi) as [H1 H2]; [apply HU; by left|]. destruct (d_parents D st n) as [ps st1]. cbn in H1, H2. subst ps.
    pose proof (edges_left_see seen n ltac:(apply HU; by left) (proj1 Hn)) as He. cbn in Hf.
    destruct (IH (rev (succ n) ++ pending) ({[n]} ∪ seen) st1 H2) as (seen' & st' & -> & Hi' & Hsub & Hpend & Hfrom & Hclosed).
    { intros x. rewrite elem_of_app, elem_of_rev. intros [Hx|Hx]; [apply (Hstays n); [apply HU; by left|done]|apply HU; by right]. }
    { rewrite length_app, length_rev. lia. }
    exists seen', st'. split_and!; [done|done|set_solver| | |].
    + intros x [->|Hx]%elem_of_cons; [left; set_solver|]. apply Hpend. apply elem_of_app. by right.
    + intros x Hx. destruct (Hfrom x Hx) as [[->%elem_of_singleton|]%elem_of_union|(r & Hr & Hrx)]; [right; exists n; split; [by left|done]|by left|].
      right. apply elem_of_app in Hr as [Hr|Hr]; [rewrite elem_of_rev in Hr; exists n; split; [by left|eapply rtc_l; [exact Hr|done]]|exists r; split; [by right|done]].
    + intros x y Hx. destruct (decide (x = n)) as [->|Hne].
      * right. intros Hy. apply Hpend. apply elem_of_app. left. by apply elem_of_rev.
      * destruct (Hclosed x y Hx) as [|]; [left; set_solver|by right].
  - cbn in Hf. destruct (IH pending seen st Hi) as (seen' & st' & -> & Hi' & Hsub & Hpend & Hfrom & Hclosed); [intros x Hx; apply HU; by right|lia|].
    exists seen', st'. split_and!; [done|done|done| | |done].
    + intros x [->|Hx]%elem_of_cons; [|by apply Hpend]. destruct (decide (n ∈ seen)); [left; set_solver|right]. destruct (decide (n ∈ stops)); [done|]. tauto.
    + intros x Hx. destruct (Hfrom x Hx) as [|(r & Hr & Hrx)]; [by left|]. right. exists r. split; [by right|done].
Qed.
End walks.

(** ** The two graphs *)

Section instances.
Context (pfunc : Z -> list Z) `{!RevDag pfunc} (len : Z).

Definition nodes : list Z := zrange 0 len.

Lemma elem_of_parents r p : p ∈ parents pfunc r <-> parent pfunc r p.
Proof. unfold parents, parent. rewrite list_elem_of_filter. tauto. Qed.

Lemma revlogdag_computes hs ls : computes (revlogdag pfunc hs ls) (fun _ => True) (parents pfunc) nodes.
Proof. by intros st x _ _. Qed.

Lemma parents_stay : stays (parents pfunc) nodes.
Proof using RevDag0.
  intros x y Hx Hy%elem_of_parents%parent_below; [|done]. unfold nodes in *. rewrite elem_of_zrange in *. lia.
Qed.

(** The occurrences of [ix] as a parent of [r]. *)
Definition kids (ix r : Z) : list Z := map (fun _ => r) (filter (fun p => p = ix) (parents pfunc r)).
Definition children_from (w ix : Z) : list Z := zrange_down (len - 1) w ≫= kids ix.
Definition children (ix : Z) : list Z := children_from ix ix.

Lemma elem_of_children ix r : r ∈ children ix <-> ix < r < len /\ parent pfunc r ix.
Proof.
  unfold children, children_from, kids. rewrite list_elem_of_bind. split.
  - intros (r' & (p & -> & [Hp1 Hp2]%list_elem_of_filter)%list_elem_of_fmap & Hr%elem_of_zrange_down). subst p. apply elem_of_parents in Hp2. split; [lia|done].
  - intros [Hr Hp]. exists r. split; [|apply elem_of_zrange_down; lia]. apply list_elem_of_fmap. exists ix. split; [done|].
    apply list_elem_of_filter. split; [done|]. by apply elem_of_parents.
Qed.

Lemma add_child_children rev ps cs ix :
  default [] (foldl (add_child rev) cs ps !! ix) = default [] (cs !! ix) ++ map (fun _ => rev) (filter (fun p => p = ix) ps).
Proof using Type.
  clear RevDag0. revert cs. induction ps as [|p ps IH]; intros cs; cbn [foldl]; [by rewrite app_nil_r|].
  rewrite IH, filter_cons. unfold add_child. case_decide; subst.
  - rewrite lookup_insert_eq. cbn. by rewrite <- app_assoc.
  - by rewrite lookup_insert_ne by done.
Qed.

Lemma walk_revs_spec l st ix : default [] (i_children (foldl (walk_rev pfunc) st l) !! ix) = default [] (i_children st !! ix) ++ (l ≫= kids ix).
Proof using Type.
  clear RevDag0. revert st. induction l as [|r l IH]; intros st; cbn [foldl mbind list_bind]; [by rewrite app_nil_r|].
  rewrite IH. unfold walk_rev at 1. cbn [i_children]. rewrite add_child_children. by rewrite <- app_assoc.
Qed.

Lemma zrange_down_split a b c : c <= b <= a -> zrange_down a c = zrange_down a b ++ zrange_down b c.
Proof using Type.
  clear RevDag0. intros [Hc Hb]. assert (exists n, a = b + Z.of_nat n) as [n ->] by (exists (Z.to_nat (a - b)); lia). clear Hb.
  induction n as [|n IH].
  - replace (b + Z.of_nat 0) with b by lia. by rewrite (zrange_down_nil b b).
  - rewrite (zrange_down_cons (b + Z.of_nat (S n)) c), (zrange_down_cons (b + Z.of_nat (S n)) b) by lia.
    replace (b + Z.of_nat (S n) - 1) with (b + Z.of_nat n) by lia. by rewrite IH.
Qed.

(** The children known to the object are those above the position of its scan. *)
Definition inverse_ok (st : inverse) : Prop :=
  i_walkfrom st <= len - 1 /\ forall ix, default [] (i_children st !! ix) = children_from (i_walkfrom st) ix.

Lemma inverse_init_ok : inverse_ok (inverse_init len).
Proof using Type. split; cbn; [lia|]. intros ix. unfold children_from. by rewrite zrange_down_nil. Qed.

Lemma foldl_walkfrom l st : i_walkfrom (foldl (walk_rev pfunc) st l) = i_walkfrom st.
Proof using Type. revert st. induction l as [|r l IH]; intros st; [done|]. cbn. by rewrite IH. Qed.

Lemma walkto_ok w st : inverse_ok st -> inverse_ok (walkto pfunc w st).
Proof using Type.
  clear RevDag0. intros [Hw Hc]. split; cbn; [lia|]. intros ix. rewrite walk_revs_spec, Hc. unfold children_from. rewrite <- bind_app.
  destruct (decide (w - 1 <= i_walkfrom st)).
  - replace (i_walkfrom st `min` (w - 1)) with (w - 1) by lia. by rewrite <- zrange_down_split by lia.
  - replace (i_walkfrom st `min` (w - 1)) with (i_walkfrom st) by lia. rewrite (zrange_down_nil (i_walkfrom st)) by lia. by rewrite app_nil_r.
Qed.

Lemma list_empty_bind_kids a w ix : a <= ix -> zrange_down a w ≫= kids ix = [].
Proof using RevDag0.
  intros Ha. assert (forall l, (forall r, r ∈ l -> r <= ix) -> l ≫= kids ix = []) as H.
  { induction l as [|r l IH]; intros Hl; [done|]. cbn. rewrite IH by (intros r' Hr; apply Hl; by right). rewrite app_nil_r.
    unfold kids. destruct (filter _ _) as [|p l'] eqn:E; [done|]. exfalso. assert (p ∈ filter (fun p => p = ix) (parents pfunc r)) as [-> Hp]%list_elem_of_filter by (rewrite E; by left).
    apply elem_of_parents, parent_below in Hp; [|done]. specialize (Hl r ltac:(by left)). lia. }
  apply H. intros r Hr%elem_of_zrange_down. lia.
Qed.

(** No revision at or below [ix] has it as a parent. *)
Lemma children_from_below w ix : 0 <= ix -> w <= ix -> children_from w ix = children ix.
Proof using RevDag0.
  intros Hi Hw. unfold children, children_from. destruct (decide (len - 1 <= ix)) as [Hl|Hl].
  - rewrite (zrange_down_nil (len - 1) ix) by lia. cbn. apply list_empty_bind_kids. lia.
  - rewrite (zrange_down_split (len - 1) ix w) by lia. rewrite bind_app. rewrite (list_empty_bind_kids ix w) by lia. by rewrite app_nil_r.
Qed.

Lemma inverse_computes : computes (inverserevlogdag pfunc) inverse_ok children nodes.
Proof using RevDag0.
  intros st x Hi [Hx _]%elem_of_zrange. cbn. unfold inverse_parents. case_decide as Hw.
  - assert (inverse_ok (walkto pfunc x st)) as Hi' by (by apply walkto_ok). split; [|done]. cbn [fst]. destruct Hi' as [_ ->].
    apply children_from_below; [done|]. cbn. lia.
  - split; [|done]. destruct Hi as [Hl ->]. apply children_from_below; lia.
Qed.

Lemma children_stay : stays children nodes.
Proof using RevDag0. intros x y Hx [Hy _]%elem_of_children. unfold nodes in *. rewrite elem_of_zrange in *. lia. Qed.
End instances.
End DagUtil.
