(* ===== verification/SetDiscovery.v ===== *)
(** * Discovery of common revisions (setdiscovery.py)

    A client finds out which of its revisions a server has by asking about samples:
    whatever is known settles all ancestors, whatever is unknown all descendants.
    The sampling, the loop of [findcommonheads] and its shortcuts, over the graph
    views of [DagUtil] and the base set of [IncrementalMissing]. *)

From S2P Require Import Prelude Lines Dag IncrementalMissing RevlogGraph DagUtil.

Module SetDiscovery.
Import DagUtil.

(** ** Samples *)

Section update.
Context {S : Type} (D : dag S) (nodes : option (gset Z)) (quicksamplesize : nat).

(** [not nodes or p in nodes] *)
Definition allowed (p : Z) : bool :=
  match nodes with Some ns => bool_decide (ns = ∅) || bool_decide (p ∈ ns) | None => true end.

(** The loop of [_updatesample]. *)
Fixpoint update_loop (fuel : nat) (visit : list Z) (dist : gmap Z Z) (seen : gset Z) (factor : Z) (sample : gset Z) (st : S) :
    res (gset Z * S) :=
  match fuel with
  | O => Err OutOfFuel
  | Datatypes.S fuel =>
      match visit with
      | [] => Ok (sample, st)
      | curr :: visit =>
          if decide (curr ∈ seen) then update_loop fuel visit dist seen factor sample st
          else
            let d := default 1 (dist !! curr) in
            let dist := <[curr := d]> dist in
            let factor := if decide (factor < d) then factor * 2 else factor in
            let sample := if decide (d = factor) then {[curr]} ∪ sample else sample in
            if decide (d = factor /\ quicksamplesize ≠ 0%nat /\ (quicksamplesize <= size sample)%nat) then Ok (sample, st)
            else
              let (ps, st) := d_parents D st curr in
              let ps := filter (fun p => allowed p = true) ps in
              let dist := foldl (fun dist p => match dist !! p with Some _ => dist | None => <[p := d + 1]> dist end) dist ps in
              update_loop fuel (visit ++ ps) dist ({[curr]} ∪ seen) factor sample st
      end
  end.

End update.

Section update_spec.
Context {S : Type} (D : dag S) (inv : S -> Prop) (succ : Z -> list Z) (U : list Z).
Context (Hcomp : computes D inv succ U) (ns : option (gset Z)) (quick : nat) (P : Z -> Prop).
Context (HPU : forall x, P x -> x ∈ U) (HPs : forall x p, P x -> p ∈ succ x -> allowed ns p = true -> P p).

Lemma update_loop_spec fuel visit dist seen factor sample st :
  inv st -> (forall x, x ∈ visit -> P x) -> (length visit + edges_left succ U seen < fuel)%nat ->
  (quick ≠ 0 -> size sample < quick)%nat ->
  exists sample' st', update_loop D ns quick fuel visit dist seen factor sample st = Ok (sample', st') /\ inv st' /\
    sample ⊆ sample' /\ (forall x, x ∈ sample' -> x ∈ sample \/ P x) /\ (quick ≠ 0 -> size sample' <= quick)%nat.
Proof using Hcomp HPU HPs.
  revert visit dist seen factor sample st. induction fuel as [|fuel IH]; intros visit dist seen factor sample st Hi HP Hf Hq; [lia|].
  cbn [update_loop]. destruct visit as [|curr visit].
  { exists sample, st. split_and!; [done|done|done|tauto|]. intros Hq'. specialize (Hq Hq'). lia. }
  cbn [length] in Hf. assert (P curr) as Hc by (apply HP; by left). case_decide as Hs; [apply IH; [done|intros x Hx; apply HP; by right|lia|done]|].
  set (d := default 1 (dist !! curr)). set (factor' := if decide (factor < d) then factor * 2 else factor).
  set (sample1 := if decide (d = factor') then {[curr]} ∪ sample else sample).
  assert (sample ⊆ sample1 /\ (forall x, x ∈ sample1 -> x ∈ sample \/ P x) /\ (quick ≠ 0 -> size sample1 <= quick)%nat) as (Hsub & Hin & Hsize).
  { unfold sample1. case_decide; [|split_and!; [done|tauto|intros Hq'; specialize (Hq Hq'); lia]]. split_and!; [set_solver|set_solver|].
    intros Hq'. specialize (Hq Hq'). destruct (decide (curr ∈ sample)) as [Hcs|Hcs]; [replace ({[curr]} ∪ sample) with sample by set_solver; lia|].
    rewrite size_union, size_singleton by set_solver. lia. }
  case_decide as Hd; [exists sample1, st; by split_and!|].
  destruct (Hcomp st curr Hi (HPU _ Hc)) as [H1 H2]. destruct (d_parents D st curr) as [ps st1]. cbn in H1, H2. subst ps.
  edestruct (IH (visit ++ filter (fun p => allowed ns p = true) (succ curr))) with (sample := sample1) as (sample' & st' & -> & Hi' & Hsub' & Hin' & Hq'); [exact H2| | | |].
  - intros x [Hx|[Ha Hx]%list_elem_of_filter]%elem_of_app; [apply HP; by right|by eapply HPs].
  - pose proof (edges_left_see succ U seen curr (HPU _ Hc) Hs) as He. rewrite length_app.
    pose proof (length_filter (fun p => allowed ns p = true) (succ curr)). lia.
  - intros Hq'. specialize (Hsize Hq'). specialize (Hq Hq'). destruct (decide (d = factor')) as [Hdf|Hdf].
    + destruct (decide (quick <= size sample1)%nat); [|lia]. exfalso. by apply Hd.
    + unfold sample1. lia.
  - exists sample', st'. split_and!; [done|done|set_solver| |done]. intros x Hx. destruct (Hin' x Hx); [by apply Hin|by right].
Qed.
End update_spec.

Section sampling.
(** The order in which Python iterates over a set, and [random.sample(s, k)] at its
    n-th call. *)
Context (set_order : gset Z -> list Z) (rsample : nat -> list Z -> nat -> list Z).

(** A random subset of a set. *)
Definition sample_set (seed : nat) (s : gset Z) (k : nat) : gset Z := list_to_set (rsample seed (set_order s) k).

(** [_updatesample] *)
Definition _updatesample {S : Type} (D : dag S) (nodes : option (gset Z)) (quicksamplesize : nat) (fuel : nat) (sample : gset Z) (st : S) : res (gset Z * S) :=
  let* (heads, st) :=
    match nodes with
    | Some ns => if decide (ns = ∅) then Ok (d_heads D st) else let* (h, st) := headsetofconnecteds D st ns in Ok (set_order h, st)
    | None => Ok (d_heads D st)
    end in
  update_loop D nodes quicksamplesize fuel heads ∅ ∅ 1 sample st.

(** [_limitsample]; the number of calls of [random.sample] is threaded. *)
Definition _limitsample (sample : gset Z) (desiredlen : nat) (seed : nat) : gset Z * nat :=
  if decide (desiredlen < size sample)%nat then (sample_set seed sample desiredlen, Datatypes.S seed) else (sample, seed).

Section graph.
Context (pfunc : Z -> list Z) (len : Z) (headrevs : list Z) (localsubset : option (list Z)).

Notation dag_ := (revlogdag pfunc headrevs localsubset).
Notation inverse_ := (inverserevlogdag pfunc).

(** Every node is put on the queue once for each edge into it and once as a head. *)
Definition walk_fuel (succ : Z -> list Z) (starts : nat) : nat := Datatypes.S (starts + sum_list_with (fun x => length (succ x)) (nodes len)).

(** [_takequicksample] *)
Definition _takequicksample (ns : gset Z) (size_ : nat) (seed : nat) : res (gset Z * nat) :=
  let* (sample, _) := headsetofconnecteds dag_ tt ns in
  if decide (size_ <= size sample)%nat then Ok (_limitsample sample size_ seed)
  else
    let fuel := walk_fuel (parents pfunc) (length (heads headrevs localsubset)) in
    let* (sample, _) := _updatesample dag_ None size_ fuel sample tt in Ok (sample, seed).

(** [_takefullsample] *)
Definition _takefullsample (ns : gset Z) (size_ : nat) (seed : nat) (inv : inverse) : res (gset Z * nat * inverse) :=
  let* (sample, _) := headsetofconnecteds dag_ tt ns in
  let* (sample, _) := _updatesample dag_ (Some ns) 0 (walk_fuel (parents pfunc) (size ns)) sample tt in
  let* (sample, inv) := _updatesample inverse_ (Some ns) 0 (walk_fuel (children pfunc len) (size ns)) sample inv in
  if decide (sample = ∅) then Err AssertionError
  else
    let (sample, seed) := _limitsample sample size_ seed in
    if decide (size sample < size_)%nat then
      let more := (size_ - size sample)%nat in
      if decide (more <= size (ns ∖ sample))%nat then Ok (sample ∪ sample_set seed (ns ∖ sample) more, Datatypes.S seed, inv)
      else Err ValueError
    else Ok (sample, seed, inv).

(** [dag.descendantset], of the inverse graph. *)
Definition descendantset (starts stops : gset Z) (inv : inverse) : res (gset Z * inverse) :=
  ancestorset_loop inverse_ (walk_fuel (children pfunc len) (size starts)) stops (rev (set_order starts)) ∅ inv.

(** ** The search *)

Import IncrementalMissing.

(** The local variables of the loop; [yesno] answers for the members of [sample]. *)
Record search := Search {
  s_undecided : gset Z; s_missing : gset Z; s_common : incrementalmissingancestors;
  s_sample : gset Z; s_full : bool; s_inverse : inverse; s_seed : nat
}.

Context (known : Z -> bool) (initialsamplesize fullsamplesize : nat).

(** The first half of an iteration: the descendants of unknown nodes are missing. *)
Definition settle_missing (s : search) : res search :=
  if decide (s_sample s = ∅) then Ok s
  else
    let* (desc, inv) := descendantset (filter (fun n => known n = false) (s_sample s)) (s_missing s) (s_inverse s) in
    let missing := s_missing s ∪ desc in
    Ok (Search (s_undecided s ∖ missing) missing (s_common s) (s_sample s) (s_full s) inv (s_seed s)).

(** The choice of the next sample. *)
Definition next_sample (s : search) : res (gset Z * nat * inverse) :=
  let full := s_full s || hasbases (s_common s) in
  let targetsize := if full then fullsamplesize else initialsamplesize in
  if decide (size (s_undecided s) < targetsize)%nat then Ok (s_undecided s, s_seed s, s_inverse s)
  else
    let* (sample, seed, inv) :=
      if full then _takefullsample (s_undecided s) targetsize (s_seed s) (s_inverse s)
      else let* (sample, seed) := _takequicksample (s_undecided s) targetsize (s_seed s) in Ok (sample, seed, s_inverse s) in
    let (sample, seed) := _limitsample sample targetsize seed in Ok (sample, seed, inv).

(** The second half: ask about the sample; the ancestors of known nodes are common. *)
Definition settle_common (s : search) : res search :=
  let* (sample, seed, inv) := next_sample s in
  if decide (sample = ∅) then Ok (Search (s_undecided s) (s_missing s) (s_common s) sample true inv seed)
  else
    let common := addbases (set_order (filter (fun n => known n = true) sample)) (s_common s) in
    let (undecided, common) := removeancestorsfrom pfunc (s_undecided s) common in
    Ok (Search undecided (s_missing s) common sample true inv seed).

Fixpoint search_loop (fuel : nat) (s : search) : res search :=
  match fuel with
  | O => Err OutOfFuel
  | Datatypes.S fuel =>
      if decide (s_undecided s = ∅) then Ok s
      else
        let* s := settle_missing s in
        if decide (s_undecided s = ∅) then Ok s
        else let* s := settle_common s in search_loop fuel s
  end.

(** The search from the known heads of the server and a first sample of own heads. *)
Definition discover (srvheads : list Z) (ownheads : list Z) (sample : gset Z) (seed : nat) : res (gset Z) :=
  let common := addbases (set_order (filter (fun n => known n = true) sample)) (init srvheads) in
  let (l, common) := missingancestors pfunc ownheads common in
  let undecided : gset Z := list_to_set l in
  let* s := search_loop (Datatypes.S (size undecided)) (Search undecided ∅ common sample false (inverse_init len) seed) in
  let* (result, _) := headsetofconnecteds dag_ tt (bases (s_common s)) in
  Ok (result ∖ {[nullrev]}).
End graph.

(** ** Samples are samples *)


(** What a random sample is; sets are iterated over in some order. *)
Context (Horder : forall s, set_order s ≡ₚ elements s).
Context (Hrandom : forall n l k, (k <= length l)%nat -> length (rsample n l k) = k /\ exists rest, l ≡ₚ rsample n l k ++ rest).

Lemma elem_of_order s x : x ∈ set_order s <-> x ∈ s.
Proof using Horder. by rewrite Horder, elem_of_elements. Qed.

Lemma sample_set_spec n s k : (k <= size s)%nat -> sample_set n s k ⊆ s /\ size (sample_set n s k) = k.
Proof using Horder Hrandom.
  intros Hk. destruct (Hrandom n (set_order s) k) as (Hl & rest & Hp); [by rewrite Horder|]. rewrite Horder in Hp at 1. unfold sample_set. split.
  - intros x Hx%elem_of_list_to_set. apply elem_of_elements. rewrite Hp. apply elem_of_app. by left.
  - rewrite size_list_to_set; [done|]. pose proof (NoDup_elements s) as Hnd. rewrite Hp in Hnd. by apply NoDup_app in Hnd as [Hnd _].
Qed.

Lemma limitsample_spec sample k seed :
  (1 <= k)%nat -> let '(s, _) := _limitsample sample k seed in s ⊆ sample /\ (size s <= k)%nat /\ (sample ≠ ∅ -> s ≠ ∅) /\ ((size sample <= k)%nat -> s = sample).
Proof using Horder Hrandom.
  intros Hk. unfold _limitsample. case_decide as Hd.
  - destruct (sample_set_spec seed sample k) as [H1 H2]; [lia|]. split_and!; [done|lia| |lia]. intros _ He. rewrite He, size_empty in H2. lia.
  - split_and!; [done|lia|done|done].
Qed.


Section samples.
Context (pfunc : Z -> list Z) `{!RevDag pfunc} (len : Z) (headrevs : list Z) (localsubset : option (list Z)).

(** Own heads are own revisions. *)
Context (Hheads : forall x, x ∈ heads headrevs localsubset -> x ∈ nodes len).

Definition local (s : gset Z) : Prop := forall x, x ∈ s -> x ∈ nodes len.

Lemma revlog_heads_spec (U : list Z) (ixs : gset Z) :
  (forall x, x ∈ ixs -> x ∈ U) ->
  exists hds, headsetofconnecteds (revlogdag pfunc headrevs localsubset) tt ixs = Ok (hds, tt) /\
    (forall x, x ∈ hds <-> x ∈ ixs /\ forall y, y ∈ ixs -> ~ parent pfunc y x) /\ (ixs ≠ ∅ -> hds ≠ ∅).
Proof using RevDag0.
  intros HU.
  edestruct (headsetofconnecteds_spec (revlogdag pfunc headrevs localsubset) (fun _ => True) (parents pfunc) U) with (st := tt) (ixs := ixs) as (hds & [] & H1 & _ & H2 & H3).
  - by intros st x _ _.
  - done.
  - exact HU.
  - intros Hne. exists (zmax_set ixs). split; [by apply zmax_set_in|]. intros x Hx Hp%elem_of_parents%parent_below; [|done]. apply zmax_set_ge in Hx. lia.
  - exists hds. split_and!; [done| |done]. intros x. rewrite H2. apply and_iff_compat_l. split; intros H y Hy; [rewrite <- elem_of_parents|rewrite elem_of_parents]; auto.
Qed.

Lemma inverse_heads_spec (ixs : gset Z) st :
  local ixs -> inverse_ok pfunc len st ->
  exists hds st', headsetofconnecteds (inverserevlogdag pfunc) st ixs = Ok (hds, st') /\ inverse_ok pfunc len st' /\
    (forall x, x ∈ hds -> x ∈ ixs).
Proof using RevDag0.
  intros HU Hi.
  edestruct (headsetofconnecteds_spec (inverserevlogdag pfunc) (inverse_ok pfunc len) (children pfunc len) (nodes len)) with (st := st) (ixs := ixs) as (hds & st' & H1 & Hi' & H2 & H3).
  - by apply inverse_computes.
  - done.
  - exact HU.
  - intros Hne. exists (zmin_set ixs). split; [by apply zmin_set_in|]. intros x Hx [Hc _]%elem_of_children. apply zmin_set_le in Hx. lia.
  - exists hds, st'. split_and!; [done|done|]. intros x. rewrite H2. tauto.
Qed.

Lemma edges_left_le succ U seen : (edges_left succ U seen <= sum_list_with (fun x => length (succ x)) U)%nat.
Proof using Type. clear. unfold edges_left. induction U as [|x U IH]; cbn; [done|]. case_decide; lia. Qed.

Lemma takequick_spec ns k seed :
  local ns -> ns ≠ ∅ -> (1 <= k)%nat ->
  exists sample seed', _takequicksample pfunc len headrevs localsubset ns k seed = Ok (sample, seed') /\
    local sample /\ sample ∩ ns ≠ ∅ /\ (size sample <= k)%nat.
Proof using Hrandom RevDag0 Hheads Horder.
  intros Hns Hne Hk. unfold _takequicksample. destruct (revlog_heads_spec (nodes len) ns Hns) as (hds & -> & Hh & Hhne). cbn [rbind].
  assert (hds ⊆ ns) as Hsub by (intros x Hx; by apply Hh). specialize (Hhne Hne). case_decide as Hle.
  - pose proof (limitsample_spec hds k seed Hk) as Hl. destruct (_limitsample hds k seed) as [smp seed']. destruct Hl as (H1 & H2 & H3 & _).
    exists smp, seed'. split_and!; [done|intros x Hx; apply Hns; set_solver| |done]. specialize (H3 Hhne). set_solver.
  - unfold _updatesample. cbn [rbind d_heads revlogdag].
    edestruct (update_loop_spec (revlogdag pfunc headrevs localsubset) (fun _ => True) (parents pfunc) (nodes len)) with (P := fun x => x ∈ nodes len) (ns := @None (gset Z)) (quick := k) (sample := hds)
      as (smp & st' & -> & _ & Hs1 & Hs2 & Hs3); [by intros st x _ _|done| |done|exact Hheads| | |].
    + intros x p Hx Hp _. by eapply parents_stay.
    + unfold walk_fuel. pose proof (edges_left_le (parents pfunc) (nodes len) ∅). lia.
    + intros _. lia.
    + exists smp, seed. split_and!; [done| | |by apply Hs3; lia].
      * intros x Hx. destruct (Hs2 x Hx); [apply Hns; set_solver|done].
      * set_solver.
Qed.

Lemma length_order s : length (set_order s) = size s.
Proof using Horder. by rewrite Horder. Qed.

Lemma allowed_in ns p : ns ≠ ∅ -> allowed (Some ns) p = true -> p ∈ ns.
Proof using Type. intros Hne. unfold allowed. rewrite bool_decide_false by done. apply bool_decide_eq_true. Qed.

(** The two updates of a full sample stay inside the nodes. *)
Lemma updatesample_spec {S : Type} (D : dag S) (inv : S -> Prop) succ ns sample st hds st0 :
  computes D inv succ (nodes len) -> local ns -> ns ≠ ∅ ->
  headsetofconnecteds D st ns = Ok (hds, st0) -> inv st0 -> (forall x, x ∈ hds -> x ∈ ns) ->
  exists sample' st', _updatesample D (Some ns) 0 (walk_fuel len succ (size ns)) sample st = Ok (sample', st') /\ inv st' /\
    sample ⊆ sample' /\ (forall x, x ∈ sample' -> x ∈ sample \/ x ∈ ns).
Proof using Horder.
  intros Hcomp Hns Hne Hh Hi Hsub. unfold _updatesample. rewrite decide_False by done. rewrite Hh. cbn [rbind].
  destruct (update_loop_spec D inv succ (nodes len) Hcomp (Some ns) 0 (fun x => x ∈ ns) Hns ltac:(intros; by apply allowed_in)
    (walk_fuel len succ (size ns)) (set_order hds) ∅ ∅ 1 sample st0 Hi) as (smp & st' & H1 & H2 & H3 & H4 & _).
  - intros x Hx%elem_of_order. by apply Hsub.
  - rewrite length_order. unfold walk_fuel. pose proof (edges_left_le succ (nodes len) ∅).
    pose proof (subseteq_size hds ns ltac:(intros x; apply Hsub)). lia.
  - done.
  - by exists smp, st'.
Qed.

Lemma takefull_spec ns k seed inv :
  local ns -> ns ≠ ∅ -> (1 <= k)%nat -> (k <= size ns)%nat -> inverse_ok pfunc len inv ->
  exists sample seed' inv', _takefullsample pfunc len headrevs localsubset ns k seed inv = Ok (sample, seed', inv') /\
    inverse_ok pfunc len inv' /\ sample ⊆ ns /\ sample ≠ ∅ /\ (size sample <= k)%nat.
Proof using Horder Hrandom RevDag0 Hheads.
  intros Hns Hne Hk Hks Hi. unfold _takefullsample. destruct (revlog_heads_spec (nodes len) ns Hns) as (hds & Eh & Hh & Hhne).
  assert (forall x, x ∈ hds -> x ∈ ns) as Hsub by (intros x Hx; by apply Hh). specialize (Hhne Hne). rewrite Eh. cbn [rbind].
  destruct (updatesample_spec (revlogdag pfunc headrevs localsubset) (fun _ => True) (parents pfunc) ns hds tt hds tt) as (s1 & [] & -> & _ & H1 & H2); [by intros st x _ _|done..|].
  cbn [rbind]. destruct (inverse_heads_spec ns inv Hns Hi) as (roots & inv1 & Er & Hi1 & Hr).
  destruct (updatesample_spec (inverserevlogdag pfunc) (inverse_ok pfunc len) (children pfunc len) ns s1 inv roots inv1) as (s2 & inv2 & -> & Hi2 & H3 & H4); [by apply inverse_computes|done..|].
  cbn [rbind]. assert (s2 ≠ ∅) as Hs2 by set_solver. assert (s2 ⊆ ns) as Hs2n by set_solver. rewrite decide_False by done.
  pose proof (limitsample_spec s2 k seed Hk) as Hl. destruct (_limitsample s2 k seed) as [s3 seed3]. destruct Hl as (L1 & L2 & L3 & _). specialize (L3 Hs2).
  case_decide as Hlt; [|exists s3, seed3, inv2; split_and!; [done|done|set_solver|done|done]].
  assert (size (ns ∖ s3) = (size ns - size s3)%nat) as Hsz by (apply size_difference; set_solver). rewrite decide_True by lia.
  destruct (sample_set_spec seed3 (ns ∖ s3) (k - size s3)) as [R1 R2]; [lia|]. eexists _, _, _. split_and!; [done|done|set_solver|set_solver|].
  rewrite size_union by set_solver. lia.
Qed.

(** ** The search *)

Import IncrementalMissing.

Context (known : Z -> bool) (initialsamplesize fullsamplesize : nat).
Context (Hinitial : (1 <= initialsamplesize)%nat) (Hfull : (1 <= fullsamplesize)%nat).

Lemma next_sample_spec s :
  local (s_undecided s) -> s_undecided s ≠ ∅ -> inverse_ok pfunc len (s_inverse s) ->
  exists sample seed inv, next_sample pfunc len headrevs localsubset initialsamplesize fullsamplesize s = Ok (sample, seed, inv) /\
    inverse_ok pfunc len inv /\ local sample /\ sample ∩ s_undecided s ≠ ∅.
Proof using Horder Hrandom RevDag0 Hheads Hinitial Hfull known.
  intros Hl Hne Hi. unfold next_sample. set (full := s_full s || hasbases (s_common s)).
  set (target := if full then fullsamplesize else initialsamplesize). assert (1 <= target)%nat as Ht by (unfold target; by destruct full).
  case_decide as Hlt; [exists (s_undecided s), (s_seed s), (s_inverse s); split_and!; [done|done|done|set_solver]|].
  assert (exists smp seed inv, (if full then _takefullsample pfunc len headrevs localsubset (s_undecided s) target (s_seed s) (s_inverse s)
      else let* (sample, seed) := _takequicksample pfunc len headrevs localsubset (s_undecided s) target (s_seed s) in Ok (sample, seed, s_inverse s)) = Ok (smp, seed, inv) /\
      inverse_ok pfunc len inv /\ local smp /\ smp ∩ s_undecided s ≠ ∅ /\ (size smp <= target)%nat) as (smp & seed & inv & -> & Hi' & Hls & Hn & Hsz).
  { destruct full.
    - destruct (takefull_spec (s_undecided s) target (s_seed s) (s_inverse s)) as (smp & seed & inv & -> & Hi' & Hs & Hn & Hsz); [done|done|done|lia|done|].
      exists smp, seed, inv. split_and!; [done|done|intros x Hx; apply Hl; set_solver|set_solver|done].
    - destruct (takequick_spec (s_undecided s) target (s_seed s)) as (smp & seed & -> & Hs & Hn & Hsz); [done..|]. by exists smp, seed, (s_inverse s). }
  cbn [rbind]. pose proof (limitsample_spec smp target seed Ht) as HL. destruct (_limitsample smp target seed) as [s3 seed3].
  destruct HL as (_ & _ & _ & L4). specialize (L4 Hsz). subst s3. by exists smp, seed3, inv.
Qed.

(** The server has the ancestors of what it has. *)
Context (Hknown : forall a r, anc pfunc a r -> r ∈ nodes len -> 0 <= a -> known r = true -> known a = true).
Context (ownheads : list Z) (Hown : forall r, r ∈ ownheads -> r ∈ nodes len).

(** What is settled is settled rightly, and [undecided] is the rest. *)
Record sinv (s : search) : Prop := {
  v_undecided : forall x, x ∈ s_undecided s <->
    0 <= x /\ anc_of pfunc (list_to_set ownheads) x /\ ~ anc_of pfunc (bases (s_common s)) x /\ x ∉ s_missing s;
  v_missing : forall x, x ∈ s_missing s -> x ∈ nodes len /\ known x = false;
  v_closed : forall x y, x ∈ s_missing s -> y ∈ children pfunc len x -> y ∈ s_missing s;
  v_wf : wf (s_common s);
  v_bases : forall b, b ∈ bases (s_common s) -> b = nullrev \/ b ∈ nodes len /\ known b = true;
  v_sample : local (s_sample s);
  v_inverse : inverse_ok pfunc len (s_inverse s)
}.

(** An unknown member of the sample is about to become missing. *)
Definition unsettled (s : search) (x : Z) : Prop := x ∈ s_undecided s /\ ~ (x ∈ s_sample s /\ known x = false).

Lemma reachable_unknown r x : rtc (fun a b => b ∈ children pfunc len a) r x -> r ∈ nodes len -> known r = false -> x ∈ nodes len /\ known x = false.
Proof using All.
  induction 1 as [|r y x Hry _ IH]; [done|]. intros Hr Hk. apply elem_of_children in Hry as [Hy Hp]. apply elem_of_zrange in Hr.
  apply IH; [apply elem_of_zrange; lia|]. destruct (known y) eqn:Hky; [|done]. rewrite (Hknown r y) in Hk; [done|by apply anc_parent|apply elem_of_zrange; lia|lia|done].
Qed.

Lemma settle_missing_spec s :
  sinv s -> exists s', settle_missing pfunc len known s = Ok s' /\ sinv s' /\ forall x, x ∈ s_undecided s' -> unsettled s x.
Proof using All.
  intros [Hu Hm Hc Hw Hb Hs Hi]. unfold settle_missing. case_decide as He.
  { exists s. split_and!; [done|by split|]. intros x Hx. split; [done|]. rewrite He. set_solver. }
  unfold descendantset. set (starts := filter _ (s_sample s)).
  assert (forall x, x ∈ starts <-> known x = false /\ x ∈ s_sample s) as Hst by (intros x; unfold starts; by rewrite elem_of_filter).
  destruct (ancestorset_spec (inverserevlogdag pfunc) (inverse_ok pfunc len) (children pfunc len) (nodes len)
    (inverse_computes pfunc len) (children_stay pfunc len) (walk_fuel len (children pfunc len) (size starts)) (s_missing s) (rev (set_order starts)) ∅ (s_inverse s) Hi)
    as (seen & inv & -> & Hi' & _ & Hin & Hfrom & Hclosed).
  { intros x. rewrite elem_of_rev, elem_of_order, Hst. intros [_ Hx]. by apply Hs. }
  { rewrite length_rev, length_order. unfold walk_fuel. pose proof (edges_left_le (children pfunc len) (nodes len) ∅). lia. }
  cbn [rbind]. assert (forall x, x ∈ seen -> x ∈ nodes len /\ known x = false) as Hseen.
  { intros x Hx. destruct (Hfrom x Hx) as [Hx'|(r & Hr & Hrx)]; [set_solver|]. rewrite elem_of_rev, elem_of_order, Hst in Hr.
    destruct Hr as [Hrk Hrs]. eapply reachable_unknown; [exact Hrx|by apply Hs|exact Hrk]. }
  eexists. split; [done|]. split; [split; cbn; [| | |done|done|done|done]|].
  - intros x. rewrite elem_of_difference, Hu, elem_of_union. tauto.
  - intros x [Hx|Hx]%elem_of_union; [by apply Hm|by apply Hseen].
  - intros x y [Hx|Hx]%elem_of_union Hy; [apply elem_of_union; left; by eapply Hc|].
    destruct (Hclosed x y Hx) as [Hx'|Hcl]; [set_solver|]. apply elem_of_union. destruct (Hcl Hy); [by right|by left].
  - cbn. intros x [Hx Hn]%elem_of_difference. split; [done|]. intros [Hsx Hk]. apply Hn, elem_of_union.
    destruct (Hin x) as [|]; [rewrite elem_of_rev, elem_of_order; by apply Hst|by right|by left].
Qed.

Lemma undecided_local s : sinv s -> local (s_undecided s).
Proof using All.
  intros Hs x Hx. apply (v_undecided s Hs) in Hx as (Hx & (r & Hr%elem_of_list_to_set & Ha) & _). apply Hown in Hr. apply anc_le in Ha; [|done].
  apply elem_of_zrange in Hr. apply elem_of_zrange. lia.
Qed.

(** Known nodes keep the bases known. *)
Lemma bases_known b0 b1 :
  (forall b, b ∈ b0 -> b = nullrev \/ b ∈ nodes len /\ known b = true) -> wf (Inc b1) -> same_ancestors pfunc b1 b0 ->
  forall b, b ∈ b1 -> b = nullrev \/ b ∈ nodes len /\ known b = true.
Proof using All.
  intros H0 [_ Hge] Hsame b Hb. specialize (Hge b Hb). destruct (decide (b = nullrev)) as [|Hn]; [by left|right]. cbn in Hge.
  assert (anc_of pfunc b0 b) as (r & Hr & Ha) by (apply Hsame; [done|by apply anc_of_elem]).
  destruct (H0 r Hr) as [->|[Hrn Hrk]]; [by apply anc_nullrev in Ha|]. apply elem_of_zrange in Hrn. unfold nullrev in *. apply anc_le in Ha as Hle; [|done].
  split; [apply elem_of_zrange; lia|]. eapply Hknown; [exact Ha|apply elem_of_zrange; lia|lia|done].
Qed.

Lemma settle_common_spec s :
  sinv s -> s_undecided s ≠ ∅ ->
  exists s', settle_common pfunc len headrevs localsubset known initialsamplesize fullsamplesize s = Ok s' /\ sinv s' /\
    (forall x, x ∈ s_undecided s' -> x ∈ s_undecided s) /\ exists u, u ∈ s_undecided s /\ ~ unsettled s' u.
Proof using All.
  intros Hinv Hne. pose proof (undecided_local s Hinv) as Hlu. destruct Hinv as [Hu Hm Hc Hw Hb Hs Hi].
  destruct (next_sample_spec s Hlu Hne Hi) as (smp & seed & inv & Hnext & Hi' & Hls & Hsn). unfold settle_common. rewrite Hnext. cbn [rbind].
  rewrite decide_False by set_solver. set (common := addbases _ _).
  assert (forall x, x ∈ bases common <-> x ∈ bases (s_common s) \/ known x = true /\ x ∈ smp) as Hbc.
  { intros x. unfold common, addbases. cbn. rewrite elem_of_union, elem_of_list_to_set, elem_of_order, elem_of_filter. done. }
  assert (forall b, b ∈ bases common -> b = nullrev \/ b ∈ nodes len /\ known b = true) as Hb'.
  { intros b [H|[H1 H2]]%Hbc; [by apply Hb|right; split; [by apply Hls|done]]. }
  assert (wf common) as Hw'.
  { apply addbases_wf; [|done]. intros b Hbs%elem_of_order%elem_of_filter. destruct Hbs as [_ Hbs%Hls]. apply elem_of_zrange in Hbs. unfold nullrev. lia. }
  pose proof (removeancestorsfrom_spec pfunc (s_undecided s) common Hw') as Hrem.
  destruct (removeancestorsfrom pfunc (s_undecided s) common) as [und' common']. destruct Hrem as (Hund & Hwf' & Hsame).
  { intros r Hr%Hlu. apply elem_of_zrange in Hr. unfold nullrev. lia. }
  eexists. split; [done|]. split; [|split].
  - split; cbn; [|done|done|done| |done|done].
    + intros x. rewrite Hund, Hu. destruct (decide (x = nullrev)) as [->|Hx]; [unfold nullrev; split; [tauto|lia]|].
      rewrite (Hsame x Hx). assert (anc_of pfunc (bases (s_common s)) x -> anc_of pfunc (bases common) x) as Hmono; [|tauto].
      intros (r & Hr & Ha). exists r. split; [|done]. apply Hbc. by left.
    + destruct common' as [b']. by eapply bases_known.
  - cbn. intros x Hx%Hund. tauto.
  - destruct (set_choose_L _ Hsn) as [u [Hus Huu]%elem_of_intersection]. exists u. split; [done|]. unfold unsettled. cbn. intros [Hu' Hn].
    apply Hund in Hu' as (_ & _ & Hna). destruct (known u) eqn:Hk; [|by apply Hn]. apply Hna. apply anc_of_elem, Hbc. by right.
Qed.

(** The members of [undecided] that are not yet settled. *)
Definition measure (s : search) : nat := size (filter (fun x => ~ (x ∈ s_sample s /\ known x = false)) (s_undecided s)).

Lemma search_spec fuel s :
  sinv s -> (measure s < fuel)%nat ->
  exists s', search_loop pfunc len headrevs localsubset known initialsamplesize fullsamplesize fuel s = Ok s' /\ sinv s' /\ s_undecided s' = ∅.
Proof using All.
  revert s. induction fuel as [|fuel IH]; intros s Hinv Hf; [lia|]. cbn [search_loop]. case_decide as He; [by exists s|].
  destruct (settle_missing_spec s Hinv) as (s1 & -> & Hinv1 & Hs1). cbn [rbind]. case_decide as He1; [by exists s1|].
  destruct (settle_common_spec s1 Hinv1 He1) as (s2 & -> & Hinv2 & Hsub & u & Hu & Hnu). cbn [rbind].
  apply IH; [done|]. assert (measure s2 < measure s)%nat; [|lia]. unfold measure. apply subset_size.
  assert (forall t x, x ∈ filter (fun x => ~ (x ∈ s_sample t /\ known x = false)) (s_undecided t) <-> unsettled t x) as Hfil.
  { intros t x. rewrite elem_of_filter. unfold unsettled. tauto. }
  split; [intros x Hx%Hfil; apply Hfil, Hs1, Hsub, Hx|]. intros Hcontra. apply Hnu, Hfil, Hcontra, Hfil, Hs1, Hu.
Qed.

(** The base set generates its heads' ancestors. *)
Lemma heads_generate (bs hds : gset Z) x :
  (forall b, b ∈ bs -> b = nullrev \/ b ∈ nodes len) -> (forall y, y ∈ hds <-> y ∈ bs /\ forall z, z ∈ bs -> ~ parent pfunc z y) -> 0 <= x ->
  anc_of pfunc bs x -> anc_of pfunc (hds ∖ {[nullrev]}) x.
Proof using All.
  intros Hbs Hh Hx (r & Hr & Ha). assert (0 <= r) as Hr0 by (apply anc_le in Ha; [lia|done]).
  remember (Z.to_nat (len - r)) as n eqn:Hn. revert r Hr Ha Hr0 Hn. induction (lt_wf n) as [n _ IH]. intros r Hr Ha Hr0 ->.
  destruct (decide (set_Exists (fun z => r ∈ parents pfunc z) bs)) as [(z & Hz & Hp%elem_of_parents)|Hno].
  - apply parent_below in Hp as Hlt; [|done]. destruct (Hbs z Hz) as [->|Hzn]; [unfold nullrev in *; lia|]. apply elem_of_zrange in Hzn.
    eapply (IH (Z.to_nat (len - z))); [lia|exact Hz| |lia|done]. eapply anc_trans; [exact Ha|by apply anc_parent].
  - exists r. split; [|done]. apply elem_of_difference. split; [|unfold nullrev; set_solver by lia]. apply Hh. split; [done|].
    intros z Hz Hp. apply Hno. exists z. split; [done|]. by apply elem_of_parents.
Qed.

(** From a first sample, the search finds exactly the own revisions the server has. *)
Lemma discover_spec srvheads sample seed :
  (forall h, h ∈ srvheads -> h ∈ nodes len /\ known h = true) -> local sample ->
  exists result, discover pfunc len headrevs localsubset known initialsamplesize fullsamplesize srvheads ownheads sample seed = Ok result /\
    (forall x, x ∈ result -> x ∈ nodes len /\ known x = true) /\
    (forall x, 0 <= x -> anc_of pfunc (list_to_set ownheads) x -> anc_of pfunc result x <-> known x = true).
Proof using All.
  intros Hsrv Hsmp. unfold discover. set (common := addbases _ _).
  assert (forall b, b ∈ bases common -> b = nullrev \/ b ∈ nodes len /\ known b = true) as Hb.
  { intros x. unfold common, addbases. cbn. rewrite elem_of_union, elem_of_list_to_set, elem_of_order, elem_of_filter. unfold init.
    intros [Hx|[H1 H2]]; [|right; split; [by apply Hsmp|done]]. case_decide; cbn in Hx; [left; set_solver|right; apply Hsrv; set_solver]. }
  assert (wf common) as Hw.
  { apply addbases_wf; [|apply inc_init_wf]; intros x Hx.
    - apply elem_of_order, elem_of_filter in Hx as [_ Hx%Hsmp]. apply elem_of_zrange in Hx. unfold nullrev. lia.
    - apply Hsrv in Hx as [Hx _]. apply elem_of_zrange in Hx. unfold nullrev. lia. }
  pose proof (missingancestors_spec pfunc ownheads common Hw) as Hmiss. destruct (missingancestors pfunc ownheads common) as [l common'].
  destruct Hmiss as (_ & Hund & Hw' & Hsame). { intros r Hr%Hown. apply elem_of_zrange in Hr. unfold nullrev. lia. }
  assert (forall b, b ∈ bases common' -> b = nullrev \/ b ∈ nodes len /\ known b = true) as Hb' by (destruct common' as [b']; by eapply bases_known).
  destruct (search_spec (Datatypes.S (size (list_to_set l : gset Z))) (Search (list_to_set l) ∅ common' sample false (inverse_init len) seed)) as (s & -> & Hinv & He).
  { split; cbn; [|set_solver|set_solver|done|done|done|apply inverse_init_ok]. intros x. rewrite elem_of_list_to_set, Hund.
    destruct (decide (x = nullrev)) as [->|Hx]; [unfold nullrev; split; lia|]. rewrite (Hsame x Hx). set_solver. }
  { unfold measure. cbn. apply Nat.lt_succ_r, subseteq_size. set_solver. }
  cbn [rbind]. destruct (revlog_heads_spec (elements (bases (s_common s))) (bases (s_common s)) ltac:(intros x; by rewrite elem_of_elements)) as (hds & -> & Hh & _). cbn [rbind]. pose proof (v_bases s Hinv) as Hbs.
  eexists. split; [done|]. split; [|intros x Hx Ha; split].
  - intros x [Hx Hn]%elem_of_difference. apply Hh in Hx as [Hx _]. destruct (Hbs x Hx) as [->|]; [set_solver|done].
  - intros (r & [Hr Hn]%elem_of_difference & Har). apply Hh in Hr as [Hr _]. destruct (Hbs r Hr) as [->|[Hrn Hk]]; [set_solver|by eapply Hknown].
  - intros Hk. eapply heads_generate; [|exact Hh|done|]; [intros b Hbb; destruct (Hbs b Hbb) as [|[? _]]; tauto|].
    destruct (decide (x ∈ s_missing s)) as [Hm|Hm]; [apply (v_missing s Hinv) in Hm as [_ Hm]; congruence|].
    destruct (anc_of_dec pfunc (bases (s_common s)) x) as [|Hno]; [done|]. exfalso.
    assert (x ∈ s_undecided s) as Hxu by (apply (v_undecided s Hinv); done). rewrite He in Hxu. set_solver.
Qed.
End samples.
End sampling.
End SetDiscovery.
