(* ===== verification/FindCommonHeads.v ===== *)
(** * Finding the common heads (setdiscovery.py)

    [findcommonheads] and [fastdiscovery]: the shortcuts before the search of
    [SetDiscovery], on node hashes, against a remote repository that answers
    [heads] and [known]. *)

From S2P Require Import Prelude Dag IncrementalMissing DagUtil SetDiscovery.

Module FindCommonHeads.
Import DagUtil SetDiscovery.

Section protocol.
Context {node : Type} `{Countable node} (nullid : node).

(** What discovery uses of the changelog; [cl_headrevs] are the visible heads of the
    repository ([changelogwithrepoheads]). *)
Record changelog := Changelog {
  cl_parents : Z -> list Z; cl_len : Z; cl_node : Z -> node; cl_nodemap : node -> option Z;
  cl_filtered : gset Z; cl_headrevs : list Z
}.

(** The remote repository answers [heads] and [known]. *)
Record remote := Remote { r_heads : list node; r_known : node -> bool }.

Section changelog.
Context (cl : changelog).

(** [tip]: the last revision that is not filtered, or the null revision. *)
Definition tip : option node := cl_node cl <$> head (filter (fun i => i ∉ cl_filtered cl) (zrange_down (cl_len cl - 1) (-2))).

(** [__contains__]; a string compares greater than every integer. *)
Definition contains (rev : Z + node) : bool :=
  match rev with
  | inl r => bool_decide (0 <= r < cl_len cl /\ r ∉ cl_filtered cl)
  | inr _ => false
  end.

(** [rev] *)
Definition rev (n : node) : res Z :=
  match cl_nodemap cl n with
  | Some r => if decide (r ∈ cl_filtered cl) then Err LookupError else Ok r
  | None => Err LookupError
  end.

Fixpoint revs (ns : list node) : res (list Z) :=
  match ns with [] => Ok [] | n :: ns => let* r := rev n in let* rs := revs ns in Ok (r :: rs) end.

(** [internalizeall], with [filterunknown]. *)
Definition internalizeall (ns : list node) : list Z :=
  filter (fun r => r ≠ nullrev /\ r ∉ cl_filtered cl) (omap (cl_nodemap cl) ns).

(** [externalizeall], of a list. *)
Definition externalizeall (rs : list Z) : list node := map (cl_node cl) rs.
End changelog.

(** The first component of the result may be a list or a set. *)
Inductive nodes_ := NList (l : list node) | NSet (s : gset node).
Definition members (ns : nodes_) : list node := match ns with NList l => l | NSet s => elements s end.

Definition result : Type := nodes_ * bool * list node.

(** The elements for which the answer is yes. *)
Definition answered {A} (l : list A) (yesno : list bool) : list A := (filter (fun p => p.2 = true) (zip l yesno)).*1.

(** [fastdiscovery], given the public heads and the values of the configured
    bookmarks; [order] is the order of iteration over a set of nodes. *)
Definition fastdiscovery (order : gset node -> list node) (cl : changelog) (srv : remote) (publicheads knownbookmarksvalues : list node) :
    option result :=
  if decide (publicheads = []) then None
  else
    let publicheads := order (list_to_set publicheads) in
    let srvheadhashes := r_heads srv in
    let yesnoknownbookmarks := map (r_known srv) knownbookmarksvalues in
    let yesnopublicheads := map (r_known srv) publicheads in
    if decide (knownbookmarksvalues ≠ [] /\ existsb id yesnoknownbookmarks = false) then None
    else
      let common := answered publicheads yesnopublicheads ++ answered knownbookmarksvalues yesnoknownbookmarks in
      if decide (common = []) then None
      else if decide (tip cl = Some nullid) then
        if decide (srvheadhashes ≠ [nullid]) then Some (NList [nullid], true, srvheadhashes) else Some (NList [nullid], false, [])
      else
        let srvheads := filter (fun n => contains cl (inr n) = true) srvheadhashes in
        if decide (length srvheads = length srvheadhashes) then Some (NList srvheadhashes, false, srvheadhashes)
        else Some (NList common, true, srvheadhashes).

Section findcommonheads.
Context (order : gset node -> list node) (set_order : gset Z -> list Z) (rsample : nat -> list Z -> nat -> list Z).

(** [_limitsample], of the list of own heads. *)
Definition limit_heads (ownheads : list Z) (desiredlen : nat) (seed : nat) : list Z * nat :=
  if decide (desiredlen < length ownheads)%nat then (set_order (list_to_set (rsample seed ownheads desiredlen)), Datatypes.S seed)
  else (ownheads, seed).

(** The configuration [discovery.fastdiscovery] with the arguments of [fastdiscovery]. *)
Definition findcommonheads (fast : option (list node * list node)) (cl : changelog) (srv : remote) (initialsamplesize fullsamplesize : nat)
    (abortwhenunrelated : bool) (ancestorsof : option (list node)) (needlargestcommonset : bool) (seed : nat) : res result :=
  let fastres := match fast with Some (heads, books) => if needlargestcommonset then None else fastdiscovery order cl srv heads books | None => None end in
  match fastres with
  | Some r => Ok r
  | None =>
      let* localsubset := match ancestorsof with Some ns => let* rs := revs cl ns in Ok (Some rs) | None => Ok None end in
      let ownheads := heads (cl_headrevs cl) localsubset in
      let (sample, seed) := limit_heads ownheads initialsamplesize seed in
      let srvheadhashes := r_heads srv in
      let yesno := map (r_known srv) (externalizeall cl sample) in
      if decide (tip cl = Some nullid) then
        if decide (srvheadhashes ≠ [nullid]) then Ok (NList [nullid], true, srvheadhashes) else Ok (NList [nullid], false, [])
      else
        let srvheads := internalizeall cl srvheadhashes in
        if decide (length srvheads = length srvheadhashes) then Ok (NList srvheadhashes, false, srvheadhashes)
        else if decide (sample ≠ [] /\ (length ownheads <= initialsamplesize)%nat /\ forallb id yesno = true) then
          Ok (NList (externalizeall cl ownheads), true, srvheadhashes)
        else
          let* result := discover set_order rsample (cl_parents cl) (cl_len cl) (cl_headrevs cl) localsubset (fun r => r_known srv (cl_node cl r))
            initialsamplesize fullsamplesize srvheads ownheads (list_to_set sample) seed in
          if decide (result = ∅ /\ srvheadhashes ≠ [nullid]) then
            if abortwhenunrelated then Err (Abort "repository is unrelated") else Ok (NSet {[nullid]}, true, srvheadhashes)
          else Ok (NSet (set_map (cl_node cl) result), bool_decide (srvheadhashes ≠ [nullid]), srvheadhashes)
  end.
End findcommonheads.

(** ** What discovery promises *)

(** The changelog is consistent; [gparent] is the parent relation of the nodes of both
    repositories. *)
Record changelog_ok (gparent : node -> node -> Prop) (cl : changelog) : Prop := {
  ok_dag : RevDag (cl_parents cl);
  ok_len : 0 <= cl_len cl;
  ok_nodemap : forall r, r ∈ nodes (cl_len cl) -> cl_nodemap cl (cl_node cl r) = Some r /\ cl_node cl r ≠ nullid;
  ok_rev : forall n r, cl_nodemap cl n = Some r -> r = nullrev \/ r ∈ nodes (cl_len cl) /\ cl_node cl r = n;
  ok_null : cl_node cl nullrev = nullid /\ nullrev ∉ cl_filtered cl;
  ok_heads : forall r, r ∈ cl_headrevs cl -> r ≠ nullrev -> r ∈ nodes (cl_len cl) /\ r ∉ cl_filtered cl;
  ok_graph : forall r n, r ∈ nodes (cl_len cl) -> gparent (cl_node cl r) n <-> exists p, parent (cl_parents cl) r p /\ n = cl_node cl p
}.

(** The server has the ancestors of its heads; the null node stands for no head. *)
Definition remote_ok (gparent : node -> node -> Prop) (srv : remote) : Prop :=
  (forall n, r_known srv n = true <-> exists h, h ∈ r_heads srv /\ rtc gparent h n) /\ forall n, ~ gparent nullid n.

Section correct.
Context (gparent : node -> node -> Prop) (cl : changelog) (srv : remote) (Hcl : changelog_ok gparent cl) (Hsrv : remote_ok gparent srv).

Notation known := (fun r => r_known srv (cl_node cl r)).
Notation local_ := (nodes (cl_len cl)).

Lemma anc_path a r : anc (cl_parents cl) a r -> r ∈ local_ -> rtc gparent (cl_node cl r) (cl_node cl a).
Proof using Hcl.
  pose proof (ok_dag _ _ Hcl). induction 1 as [|r p a Hp _ IH]; [done|]. intros Hr.
  eapply rtc_l; [apply (ok_graph _ _ Hcl); [done|by exists p]|]. apply IH. apply parent_below in Hp; [|done].
  unfold nodes in *. rewrite elem_of_zrange in *. lia.
Qed.

(** Paths from a revision of the changelog stay in it. *)
Lemma path_anc m n : rtc gparent m n -> forall r, r ∈ local_ -> m = cl_node cl r -> exists a, a ∈ local_ /\ n = cl_node cl a /\ anc (cl_parents cl) a r.
Proof using Hcl.
  pose proof (ok_dag _ _ Hcl). induction 1 as [m|m m' n Hm _ IH]; intros r Hr ->; [exists r; split_and!; [done|done|apply anc_refl]|].
  apply (ok_graph _ _ Hcl) in Hm as (p & Hp & ->); [|done]. apply parent_below in Hp as Hlt; [|done].
  destruct (IH p) as (a & Ha & -> & Hap); [unfold nodes in *; rewrite elem_of_zrange in *; lia|done|].
  exists a. split_and!; [done|done|]. eapply anc_trans; [exact Hap|by apply anc_parent].
Qed.

Lemma node_inj r a : r ∈ local_ -> a ∈ local_ -> cl_node cl r = cl_node cl a -> r = a.
Proof using Hcl.
  intros Hr Ha He. destruct (ok_nodemap _ _ Hcl r Hr) as [E1 _], (ok_nodemap _ _ Hcl a Ha) as [E2 _]. congruence.
Qed.

Lemma known_closed a r : r ∈ local_ -> anc (cl_parents cl) a r -> known r = true -> known a = true.
Proof using Hcl Hsrv.
  cbn beta. intros Hr Ha Hk. apply (proj1 Hsrv) in Hk as (h & Hh & Hhr). apply (proj1 Hsrv). exists h. split; [done|].
  etrans; [exact Hhr|]. by apply anc_path.
Qed.

Lemma internalize_local ns r : r ∈ internalizeall cl ns -> r ∈ local_ /\ cl_node cl r ∈ ns.
Proof using Hcl.
  unfold internalizeall. intros [[Hn _] (n & Hin & E)%list_elem_of_omap]%list_elem_of_filter.
  destruct (ok_rev _ _ Hcl n r E) as [|[Hr <-]]; [done|]. done.
Qed.

(** No head was dropped: all are local. *)
Lemma internalize_all ns : length (internalizeall cl ns) = length ns -> forall n, n ∈ ns -> exists r, r ∈ internalizeall cl ns /\ cl_node cl r = n.
Proof using Hcl.
  unfold internalizeall. set (P := fun r => r ≠ nullrev /\ r ∉ cl_filtered cl).
  assert (forall ns, length (filter P (omap (cl_nodemap cl) ns)) <= length ns)%nat as Hle.
  { clear. induction ns as [|n ns IH]; [done|]. cbn [omap list_omap]. destruct (cl_nodemap cl n); cbn [length]; [|lia].
    rewrite filter_cons. case_decide; cbn [length]; lia. }
  induction ns as [|n ns IH]; [intros _ n Hn; by apply not_elem_of_nil in Hn|]. specialize (Hle ns). cbn [omap list_omap]. intros Hlen m.
  destruct (cl_nodemap cl n) as [r|] eqn:E; [|cbn [length] in Hlen; lia]. rewrite filter_cons in Hlen |- *. case_decide as HP; [|cbn [length] in Hlen; lia].
  cbn [length] in Hlen. intros [->|Hm]%elem_of_cons.
  - exists r. split; [by left|]. destruct (ok_rev _ _ Hcl n r E) as [->|[_ Hr]]; [|done]. by destruct HP.
  - destruct (IH ltac:(lia) m Hm) as (r' & Hr' & Hnode). exists r'. split; [by right|done].
Qed.

Lemma tip_null : tip cl = Some nullid <-> forall r, r ∈ local_ -> r ∈ cl_filtered cl.
Proof using Hcl.
  unfold tip. pose proof (ok_len _ _ Hcl) as Hl. destruct (ok_null _ _ Hcl) as [Hn Hnf].
  rewrite (zrange_down_split (cl_len cl - 1) nullrev (-2)) by (unfold nullrev; lia). change (zrange_down nullrev (-2)) with [nullrev]. rewrite filter_app.
  destruct (filter _ (zrange_down _ _)) as [|x l] eqn:E; cbn.
  - rewrite decide_True by done. cbn. rewrite Hn. split; [|done]. intros _ r Hr.
    destruct (decide (r ∈ cl_filtered cl)) as [|Hf]; [done|]. exfalso. assert (r ∈ @nil Z) as Hx; [|by apply not_elem_of_nil in Hx].
    rewrite <- E. apply list_elem_of_filter. split; [done|]. apply elem_of_zrange_down. unfold nodes in Hr. apply elem_of_zrange in Hr. unfold nullrev. lia.
  - assert (x ∈ x :: l) as Hx by (by left). rewrite <- E in Hx. apply list_elem_of_filter in Hx as [Hf Hx%elem_of_zrange_down].
    assert (x ∈ local_) as Hxl by (apply elem_of_zrange; unfold nullrev in *; lia). split; [|intros Hall; by apply Hall in Hxl].
    intros [= He]. by apply (ok_nodemap _ _ Hcl) in Hxl as [_ ?].
Qed.

(** ** Correctness *)

(** The common nodes are known to the server and are, with their ancestors, all own
    ancestors of [ownheads] that it knows. *)
Definition common_ok (ownheads : list Z) (ns : list node) : Prop :=
  (forall n, n ∈ ns -> n = nullid \/ r_known srv n = true) /\
  forall x, 0 <= x -> anc_of (cl_parents cl) (list_to_set ownheads) x ->
    (known x = true <-> exists r, r ∈ local_ /\ cl_node cl r ∈ ns /\ anc (cl_parents cl) x r).

(** Nothing is incoming: the server has only nodes that are local. *)
Definition nothing_incoming : Prop := forall n, r_known srv n = true -> n = nullid \/ exists r, r ∈ local_ /\ n = cl_node cl r.

Lemma own_local ownheads x : (forall r, r ∈ ownheads -> r ∈ local_) -> 0 <= x -> anc_of (cl_parents cl) (list_to_set ownheads) x -> x ∈ local_.
Proof using Hcl.
  pose proof (ok_dag _ _ Hcl). intros Hown Hx (r & Hr%elem_of_list_to_set%Hown & Ha). apply anc_le in Ha; [|done].
  unfold nodes in *. rewrite elem_of_zrange in *. lia.
Qed.

Lemma null_remote n : r_heads srv = [nullid] -> r_known srv n = true -> n = nullid.
Proof using Hsrv.
  intros Hh Hk. apply (proj1 Hsrv) in Hk as (h & Hin & Hp). rewrite Hh in Hin. apply list_elem_of_singleton in Hin. subst h.
  apply rtc_inv in Hp as [|(m & Hm & _)]; [done|]. by apply (proj2 Hsrv) in Hm.
Qed.

Lemma common_none ownheads : (forall r, r ∈ ownheads -> r ∈ local_) ->
  (forall x, 0 <= x -> anc_of (cl_parents cl) (list_to_set ownheads) x -> known x = false) -> common_ok ownheads [nullid].
Proof using Hcl.
  intros Hown Hno. split; [intros n ->%list_elem_of_singleton; by left|]. intros x Hx Ha. rewrite (Hno x Hx Ha). split; [done|].
  intros (r & Hr & Hn%list_elem_of_singleton & _). by apply (ok_nodemap _ _ Hcl) in Hr as [_ ?].
Qed.

(** All heads of the server are local. *)
Lemma common_all ownheads : (forall r, r ∈ ownheads -> r ∈ local_) ->
  length (internalizeall cl (r_heads srv)) = length (r_heads srv) -> common_ok ownheads (r_heads srv) /\ nothing_incoming.
Proof using Hcl Hsrv.
  intros Hown Hlen. pose proof (internalize_all _ Hlen) as Hall. split; [split|].
  - intros n Hn. right. apply (proj1 Hsrv). by exists n.
  - intros x Hx Ha. pose proof (own_local ownheads x Hown Hx Ha) as Hxl. split.
    + intros Hk. apply (proj1 Hsrv) in Hk as (h & Hh & Hp). destruct (Hall h Hh) as (r & [Hr Hn]%internalize_local & <-).
      exists r. split_and!; [done|done|]. destruct (path_anc _ _ Hp r Hr eq_refl) as (a & Hal & He & Har). by rewrite (node_inj x a).
    + intros (r & Hr & Hn & Har). apply (known_closed x r Hr Har). apply (proj1 Hsrv). by exists (cl_node cl r).
  - intros n Hk. right. apply (proj1 Hsrv) in Hk as (h & Hh & Hp). destruct (Hall h Hh) as (r & [Hr _]%internalize_local & <-).
    destruct (path_anc _ _ Hp r Hr eq_refl) as (a & Hal & He & _). by exists a.
Qed.

(** The server knows all own heads. *)
Lemma common_own ownheads : (forall r, r ∈ ownheads -> r ∈ local_) -> (forall r, r ∈ ownheads -> known r = true) ->
  common_ok ownheads (externalizeall cl ownheads).
Proof using Hcl Hsrv.
  intros Hown Hk. split.
  - intros n (r & -> & Hr)%list_elem_of_fmap. right. by apply Hk.
  - intros x Hx (r & Hr%elem_of_list_to_set & Ha). split; intros _; [exists r; split_and!; [by apply Hown|by apply list_elem_of_fmap_2|done]|].
    apply (known_closed x r); [by apply Hown|done|by apply Hk].
Qed.

(** The search found the common revisions. *)
Lemma common_found ownheads (res : gset Z) : (forall r, r ∈ ownheads -> r ∈ local_) ->
  (forall x, x ∈ res -> x ∈ local_ /\ known x = true) ->
  (forall x, 0 <= x -> anc_of (cl_parents cl) (list_to_set ownheads) x -> anc_of (cl_parents cl) res x <-> known x = true) ->
  common_ok ownheads (members (NSet (set_map (cl_node cl) res))).
Proof using Hcl.
  intros Hown Hres Hanc. split; cbn [members].
  - intros n Hn%elem_of_elements. apply elem_of_map in Hn as (r & -> & Hr). right. by apply Hres.
  - intros x Hx Ha. rewrite <- (Hanc x Hx Ha). split.
    + intros (r & Hr & Har). exists r. split_and!; [by apply Hres|apply elem_of_elements, elem_of_map; by exists r|done].
    + intros (r & Hr & Hn%elem_of_elements & Har). apply elem_of_map in Hn as (r' & He & Hr'). exists r. split; [|done].
      rewrite (node_inj r r'); [done|done|by apply Hres|done].
Qed.
End correct.

Section main.
Context (order : gset node -> list node) (set_order : gset Z -> list Z) (rsample : nat -> list Z -> nat -> list Z).
Context (gparent : node -> node -> Prop) (cl : changelog) (srv : remote).

Lemma heads_null (l l' : list node) : ~ l ≠ l' -> l = l'.
Proof. destruct (decide (l = l')); tauto. Qed.

(** The heads from which discovery starts. *)
Definition start_heads (ancestorsof : option (list node)) (ownheads : list Z) : Prop :=
  match ancestorsof with
  | Some ns => map (cl_node cl) ownheads = ns
  | None => ownheads = filter (fun r => r ≠ nullrev) (cl_headrevs cl)
  end.

Lemma revs_spec ns : changelog_ok gparent cl ->
  (forall n, n ∈ ns -> exists r, r ∈ nodes (cl_len cl) /\ r ∉ cl_filtered cl /\ cl_node cl r = n) ->
  exists rs, revs cl ns = Ok rs /\ map (cl_node cl) rs = ns /\ forall r, r ∈ rs -> r ∈ nodes (cl_len cl) /\ r ∉ cl_filtered cl.
Proof.
  intros Hcl. induction ns as [|n ns IH]; intros Hns; [exists []; split_and!; [done|done|by intros r Hr%not_elem_of_nil]|].
  destruct IH as (rs & E & <- & Hrs); [intros m Hm; apply Hns; by right|]. destruct (Hns n) as (r & Hr & Hf & <-); [by left|].
  exists (r :: rs). cbn [revs]. unfold rev. destruct (ok_nodemap _ _ Hcl r Hr) as [-> _]. rewrite decide_False by done. cbn [rbind]. rewrite E.
  split_and!; [done|done|]. by intros x [->|Hx]%elem_of_cons; [|apply Hrs].
Qed.

Lemma own_heads_spec ancestorsof : changelog_ok gparent cl ->
  (forall ns n, ancestorsof = Some ns -> n ∈ ns -> exists r, r ∈ nodes (cl_len cl) /\ r ∉ cl_filtered cl /\ cl_node cl r = n) ->
  exists localsubset, (match ancestorsof with Some ns => let* rs := revs cl ns in Ok (Some rs) | None => Ok None end) = Ok localsubset /\
    start_heads ancestorsof (heads (cl_headrevs cl) localsubset) /\
    forall r, r ∈ heads (cl_headrevs cl) localsubset -> r ∈ nodes (cl_len cl) /\ r ∉ cl_filtered cl.
Proof.
  intros Hcl Hof. destruct ancestorsof as [ns|].
  - destruct (revs_spec ns Hcl ltac:(intros; by eapply Hof)) as (rs & -> & Hm & Hrs). by exists (Some rs).
  - exists None. split_and!; [done|done|]. intros r [Hn Hr]%list_elem_of_filter. by apply (ok_heads _ _ Hcl).
Qed.

Lemma limit_heads_spec ownheads k seed :
  (forall s, set_order s ≡ₚ elements s) ->
  (forall n l k, (k <= length l)%nat -> length (rsample n l k) = k /\ exists rest, l ≡ₚ rsample n l k ++ rest) ->
  (forall x, x ∈ (limit_heads set_order rsample ownheads k seed).1 -> x ∈ ownheads) /\
  ((length ownheads <= k)%nat -> (limit_heads set_order rsample ownheads k seed).1 = ownheads).
Proof.
  intros Ho Hr. unfold limit_heads. case_decide as Hk; cbn [fst]; [|done]. split; [|lia].
  intros x Hx. rewrite Ho, elem_of_elements, elem_of_list_to_set in Hx. destruct (Hr seed ownheads k) as (_ & rest & ->); [lia|].
  apply elem_of_app. by left.
Qed.

(** The search from the server's local heads. *)
Lemma discover_found localsubset sample seed initial full :
  changelog_ok gparent cl -> remote_ok gparent srv -> (forall s, set_order s ≡ₚ elements s) ->
  (forall n l k, (k <= length l)%nat -> length (rsample n l k) = k /\ exists rest, l ≡ₚ rsample n l k ++ rest) ->
  (1 <= initial)%nat -> (1 <= full)%nat -> (forall r, r ∈ heads (cl_headrevs cl) localsubset -> r ∈ nodes (cl_len cl)) ->
  (forall r, r ∈ sample -> r ∈ heads (cl_headrevs cl) localsubset) ->
  let own := heads (cl_headrevs cl) localsubset in
  let known := fun r => r_known srv (cl_node cl r) in
  exists res, discover set_order rsample (cl_parents cl) (cl_len cl) (cl_headrevs cl) localsubset known initial full (internalizeall cl (r_heads srv)) own (list_to_set sample) seed = Ok res /\
    (forall x, x ∈ res -> x ∈ nodes (cl_len cl) /\ known x = true) /\
    (forall x, 0 <= x -> anc_of (cl_parents cl) (list_to_set own) x -> anc_of (cl_parents cl) res x <-> known x = true).
Proof.
  intros Hcl Hsrv Ho Hr Hi Hf Hloc Hsub own known. pose proof (ok_dag _ _ Hcl).
  assert (forall a r, r ∈ nodes (cl_len cl) -> anc (cl_parents cl) a r -> known r = true -> known a = true) as Hclosed
    by (intros a r; apply (known_closed gparent cl srv Hcl Hsrv a r)).
  apply discover_spec; try done.
  - intros a r Ha Hrl _. by apply Hclosed.
  - intros h [Hh Hin]%(internalize_local gparent); [|done]. split; [done|]. apply (proj1 Hsrv). by exists (cl_node cl h).
  - intros x Hx%elem_of_list_to_set. by apply Hloc, Hsub.
Qed.

(** [findcommonheads] finds exactly what is common, whatever the sampling does. *)
Lemma findcommonheads_spec fast initial full abort ancestorsof seed :
  changelog_ok gparent cl -> remote_ok gparent srv -> (forall s, set_order s ≡ₚ elements s) ->
  (forall n l k, (k <= length l)%nat -> length (rsample n l k) = k /\ exists rest, l ≡ₚ rsample n l k ++ rest) ->
  (1 <= initial)%nat -> (1 <= full)%nat ->
  (forall ns n, ancestorsof = Some ns -> n ∈ ns -> exists r, r ∈ nodes (cl_len cl) /\ r ∉ cl_filtered cl /\ cl_node cl r = n) ->
  exists ownheads, start_heads ancestorsof ownheads /\
  match findcommonheads order set_order rsample fast cl srv initial full abort ancestorsof true seed with
  | Ok (common, anyincoming, hds) =>
      common_ok cl srv ownheads (members common) /\ (anyincoming = false -> nothing_incoming cl srv) /\
      (hds = r_heads srv \/ r_heads srv = [nullid] /\ hds = [])
  | Err e => e = Abort "repository is unrelated" /\ abort = true /\
      forall x, 0 <= x -> anc_of (cl_parents cl) (list_to_set ownheads) x -> r_known srv (cl_node cl x) = false
  end.
Proof.
  intros Hcl Hsrv Ho Hr Hi Hf Hof. destruct (own_heads_spec ancestorsof Hcl Hof) as (ls & E & Hstart & Hown). exists (heads (cl_headrevs cl) ls).
  split; [done|]. unfold findcommonheads. rewrite E.
  assert (match fast with Some (heads, books) => if true then None else fastdiscovery order cl srv heads books | None => None end = None) as ->
    by (by destruct fast as [[? ?]|]).
  cbn [rbind]. set (own := heads (cl_headrevs cl) ls) in *. assert (forall r, r ∈ own -> r ∈ nodes (cl_len cl)) as Hloc by (intros r Hr'; by apply Hown).
  pose proof (limit_heads_spec own initial seed Ho Hr) as [Hsub Hall]. destruct (limit_heads set_order rsample own initial seed) as [sample seed']. cbn [fst] in Hsub, Hall.
  case_decide as Ht; [|case_decide as Hlen; [|case_decide as Hk]].
  - pose proof (proj1 (tip_null _ _ Hcl) Ht) as Hfil.
    assert (common_ok cl srv own [nullid]) as Hc.
    { apply (common_none gparent); [done|done|]. intros x Hx (r & Hrx%elem_of_list_to_set & _). apply Hown in Hrx as [H1 H2]. by apply Hfil in H1. }
    case_decide as Hn; [split_and!; [done|done|by left]|].
    split_and!; [done| |by right]. intros _ n Hkn. left. by apply (null_remote gparent srv Hsrv n).
  - destruct (common_all gparent cl srv Hcl Hsrv own Hloc Hlen) as [H1 H2]. split_and!; [done|done|by left].
  - destruct Hk as (Hne & Hle & Hyes). split_and!; [|done|by left]. cbn [members]. apply (common_own gparent); [done..|].
    specialize (Hall Hle). subst sample. intros r Hrx. rewrite forallb_forall in Hyes. apply (Hyes (r_known srv (cl_node cl r))).
    unfold externalizeall. by apply in_map, in_map, list_elem_of_In.
  - destruct (discover_found ls sample seed' initial full Hcl Hsrv Ho Hr Hi Hf Hloc Hsub) as (res & Er & H1 & H2).
    fold own in Er, H2. rewrite Er. cbn [rbind]. case_decide as He.
    + assert (forall x, 0 <= x -> anc_of (cl_parents cl) (list_to_set own) x -> r_known srv (cl_node cl x) = false) as Hno.
      { intros x Hx Ha. apply not_true_is_false. intros (r & Hrx & _)%(H2 x Hx Ha). destruct He as [-> _]. set_solver. }
      destruct abort; [done|]. split_and!; [|done|by left]. cbn [members]. rewrite elements_singleton. by apply (common_none gparent).
    + split_and!; [by apply (common_found gparent)| |by left]. intros Hd%bool_decide_eq_false%heads_null n Hkn. left.
      by apply (null_remote gparent srv Hsrv n).
Qed.

Lemma elem_of_answered (l : list node) n : n ∈ answered l (map (r_known srv) l) -> r_known srv n = true.
Proof.
  unfold answered. intros ([m b] & -> & [Hb Hin]%list_elem_of_filter)%list_elem_of_fmap. cbn in *. subst b.
  induction l as [|x l IH]; cbn in Hin; [by apply not_elem_of_nil in Hin|]. apply elem_of_cons in Hin as [[= -> <-]|Hin]; [done|by apply IH].
Qed.

(** [fastdiscovery] returns known nodes, perhaps not all of them.  Its test that all
    heads of the server are local asks whether node strings are revision numbers, which
    they never are: something is said to be incoming even when nothing is. *)
Lemma fastdiscovery_spec publicheads books common anyincoming hds :
  fastdiscovery order cl srv publicheads books = Some (common, anyincoming, hds) ->
  (forall n, n ∈ members common -> n = nullid \/ r_known srv n = true) /\
  (tip cl ≠ Some nullid -> r_heads srv ≠ [] -> anyincoming = true).
Proof.
  unfold fastdiscovery. case_decide; [done|]. case_decide; [done|]. case_decide; [done|]. case_decide as Ht.
  { case_decide; intros [= <- <- <-]; (split; [intros n ->%list_elem_of_singleton; by left|done]). }
  assert (filter (fun n : node => contains cl (inr n) = true) (r_heads srv) = []) as ->.
  { induction (r_heads srv) as [|n l IH]; [done|]. rewrite filter_cons. by rewrite decide_False. }
  case_decide as Hl; intros [= <- <- <-]; cbn [length members] in *.
  - assert (r_heads srv = []) as -> by (by destruct (r_heads srv)). split; [intros n Hn; by apply not_elem_of_nil in Hn|done].
  - split; [|done]. intros n [Hn|Hn]%elem_of_app; right; by eapply elem_of_answered.
Qed.
End main.
End protocol.

(** [C4] Discovery finds the common revisions.  The server knows exactly the ancestors of
    its heads, and nodes have the same parents on both sides.  Whatever order sets are
    iterated in and whatever random samples are drawn, [findcommonheads] (when the
    largest common set is needed) ends, and an own ancestor of the heads it starts from
    is an ancestor of the returned nodes exactly if the server knows it; no incoming
    changes are announced only if the server has nothing that is not local; and the only
    error is the abort for an unrelated repository, when the server knows none of the
    own revisions. *)
Theorem findcommonheads_correct {node : Type} `{Countable node} (nullid : node) order set_order rsample
    (gparent : node -> node -> Prop) (cl : changelog) (srv : remote) fast initial full abort ancestorsof seed :
  changelog_ok nullid gparent cl -> remote_ok nullid gparent srv -> (forall s, set_order s ≡ₚ elements s) ->
  (forall n l k, (k <= length l)%nat -> length (rsample n l k) = k /\ exists rest, l ≡ₚ rsample n l k ++ rest) ->
  (1 <= initial)%nat -> (1 <= full)%nat ->
  (forall ns n, ancestorsof = Some ns -> n ∈ ns -> exists r, r ∈ nodes (cl_len cl) /\ r ∉ cl_filtered cl /\ cl_node cl r = n) ->
  exists ownheads, start_heads cl ancestorsof ownheads /\
  match findcommonheads nullid order set_order rsample fast cl srv initial full abort ancestorsof true seed with
  | Ok (common, anyincoming, hds) =>
      common_ok nullid cl srv ownheads (members common) /\ (anyincoming = false -> nothing_incoming nullid cl srv) /\
      (hds = r_heads srv \/ r_heads srv = [nullid] /\ hds = [])
  | Err e => e = Abort "repository is unrelated" /\ abort = true /\
      forall x, 0 <= x -> anc_of (cl_parents cl) (list_to_set ownheads) x -> r_known srv (cl_node cl x) = false
  end.
Proof. apply findcommonheads_spec. Qed.

(** ** Examples *)

(** The example history with nodes equal to revisions, and a server that has 3, its
    ancestors, and an own change 10 on 2. *)
Definition example_log : changelog :=
  Changelog (node := Z) (Revlog.pfunc_of example_index) 6 id (fun n => if decide (-1 <= n < 6) then Some n else None) ∅ [4; 5].
Definition example_edges : list (Z * Z) := [(1, 0); (2, 1); (3, 1); (4, 2); (4, 3); (5, 0); (10, 2)].
Definition example_parent (m n : Z) : Prop := (m, n) ∈ example_edges.
Definition example_remote : remote := Remote [3; 10] (fun n => bool_decide (n ∈ [0; 1; 2; 3; 10])).

Definition example_find (initial full : nat) : res (result (node := Z)) :=
  findcommonheads (-1) elements elements (fun _ l k => take k l) None example_log example_remote initial full true None true 0.

Example findcommonheads_runs :
  (let* (ns, any, hds) := example_find 100 200 in Ok (members ns, any, hds)) = Ok ([3; 2], true, [3; 10]) /\
  (let* (ns, any, hds) := example_find 1 1 in Ok (members ns, any, hds)) = Ok ([3; 2], true, [3; 10]).
Proof. vm_compute. done. Qed.

Lemma example_log_ok : changelog_ok (-1) example_parent example_log.
Proof.
  split; cbn [example_log cl_parents cl_len cl_node cl_nodemap cl_filtered cl_headrevs].
  - apply example_dag.
  - done.
  - intros r Hr%elem_of_zrange. unfold id. split; [by rewrite decide_True by lia|lia].
  - intros n r. case_decide; [|done]. intros [= <-]. destruct (decide (n = nullrev)); [by left|right].
    split; [|done]. apply elem_of_zrange. unfold nullrev in *. lia.
  - done.
  - intros r Hr _. split; [|set_solver]. apply elem_of_zrange. set_solver by lia.
  - intros r n Hr%elem_of_zrange. unfold example_parent, example_edges, parent, id.
    assert (r = 0 \/ r = 1 \/ r = 2 \/ r = 3 \/ r = 4 \/ r = 5) as Hc by lia.
    destruct_or! Hc; subst r;
      match goal with |- context [Revlog.pfunc_of example_index ?r] =>
        let ps := eval vm_compute in (Revlog.pfunc_of example_index r) in change (Revlog.pfunc_of example_index r) with ps end;
      unfold nullrev; set_unfold; setoid_rewrite pair_equal_spec;
      (split; [intros ?; assert (n = 0 \/ n = 1 \/ n = 2 \/ n = 3) by lia; exists n; lia|intros (p & ? & ->); lia]).
Qed.

Lemma example_remote_ok : remote_ok (-1) example_parent example_remote.
Proof.
  split; [|intros n; unfold example_parent, example_edges; set_solver by lia]. intros n. cbn [example_remote r_known r_heads]. rewrite bool_decide_eq_true. split.
  - assert (rtc example_parent 3 1) as H31 by (apply rtc_once; unfold example_parent, example_edges; set_solver).
    assert (rtc example_parent 3 0) as H30 by (etrans; [exact H31|]; apply rtc_once; unfold example_parent, example_edges; set_solver).
    assert (rtc example_parent 10 2) as H102 by (apply rtc_once; unfold example_parent, example_edges; set_solver).
    intros Hn. rewrite !elem_of_cons, elem_of_nil in Hn. destruct_or! Hn; subst; [exists 3|exists 3|exists 10|exists 3|exists 10]; (split; [set_solver|done]).
  - intros (h & Hh & Hp). assert (h ∈ [0; 1; 2; 3; 10]) as Hk by set_solver. clear Hh.
    induction Hp as [|h m n Hm _ IH]; [done|]. apply IH. unfold example_parent, example_edges in Hm. set_solver.
Qed.

Lemma findcommonheads_witness : exists ownheads, start_heads example_log None ownheads /\ exists ns, example_find 1 1 = Ok (ns, true, [3; 10]) /\
  common_ok (-1) example_log example_remote ownheads (members ns).
Proof.
  destruct (findcommonheads_correct (-1) elements elements (fun _ l k => take k l) example_parent example_log example_remote None 1 1 true None 0
    example_log_ok example_remote_ok) as (own & H1 & H2); [done| |lia|lia|done|].
  - intros _ l k Hk. split; [rewrite length_take; lia|]. exists (drop k l). by rewrite take_drop.
  - exists own. split; [done|]. pose proof (proj2 findcommonheads_runs) as Hr. fold (example_find 1 1) in H2.
    destruct (example_find 1 1) as [[[ns any] hds]|e]; [|done]. injection Hr as _ -> ->. exists ns. split; [done|apply H2].
Defined.
End FindCommonHeads.
