(* ===== verification/ManifestText.v ===== *)
(** * The text of a manifest (manifest.py, functions [_parse] and [_text])

    A line for each file, in the order of the names: name, null byte, node in
    hexadecimal, flags. *)

From S2P Require Import Prelude Lines Struct PyEscape Delta.

Module ManifestText.
Import PyEscape Delta.

Definition NUL : ascii := "000"%char.
Definition CR : ascii := "013"%char.

(** ** The order of byte strings *)

Fixpoint bcmp (a b : bytes) : comparison :=
  match a with
  | [] => if b is [] then Eq else Lt
  | x :: a =>
      match b with
      | y :: b => match ord x ?= ord y with Eq => bcmp a b | c => c end
      | [] => Gt
      end
  end.

Definition blt (a b : bytes) : Prop := bcmp a b = Lt.

#[export] Instance blt_dec a b : Decision (blt a b).
Proof. unfold blt. solve_decision. Defined.

Lemma ord_inj c d : ord c = ord d -> c = d.
Proof. intros H. rewrite <- (byte_ord c), <- (byte_ord d). by rewrite H. Qed.

Lemma bcmp_eq a b : bcmp a b = Eq <-> a = b.
Proof.
  revert b. induction a as [|x a IH]; intros [|y b]; cbn; [done..|]. destruct (ord x ?= ord y) eqn:E.
  - apply Z.compare_eq in E. rewrite IH. split; [intros ->; f_equal; by apply ord_inj|by intros [= _ ->]].
  - split; [done|]. intros [= -> _]. rewrite Z.compare_refl in E. done.
  - split; [done|]. intros [= -> _]. rewrite Z.compare_refl in E. done.
Qed.

Lemma bcmp_antisym a b : bcmp b a = CompOpp (bcmp a b).
Proof.
  revert b. induction a as [|x a IH]; intros [|y b]; cbn; [done..|]. rewrite (Z.compare_antisym (ord x) (ord y)).
  destruct (ord x ?= ord y); cbn; [apply IH|done|done].
Qed.

Lemma bcmp_refl a : bcmp a a = Eq.
Proof. by apply bcmp_eq. Qed.

Lemma blt_irrefl a : ~ blt a a.
Proof. unfold blt. by rewrite bcmp_refl. Qed.

Lemma blt_trans a b c : blt a b -> blt b c -> blt a c.
Proof.
  unfold blt. revert b c. induction a as [|x a IH]; intros [|y b] [|z c]; cbn; try done.
  destruct (Z.compare_spec (ord x) (ord y)), (Z.compare_spec (ord y) (ord z)); try done;
    destruct (Z.compare_spec (ord x) (ord z)); try done; try lia. by apply IH.
Qed.

Lemma bcmp_gt a b : bcmp a b = Gt <-> blt b a.
Proof. unfold blt. rewrite (bcmp_antisym a b). by destruct (bcmp a b). Qed.

Lemma blt_total a b : blt a b \/ a = b \/ blt b a.
Proof. unfold blt. destruct (bcmp a b) eqn:E; [right; left; by apply bcmp_eq|by left|right; right; by apply bcmp_gt]. Qed.

Lemma blt_asym a b : blt a b -> ~ blt b a.
Proof. intros H1 H2. eapply blt_irrefl, blt_trans; eassumption. Qed.

Lemma ord_pos c : c ≠ NUL -> 0 < ord c.
Proof. intros Hc. pose proof (ord_range c). destruct (decide (ord c = 0)) as [E|]; [|lia]. exfalso. apply Hc. by apply ord_inj. Qed.

(** Names come in the same order with what follows them in a line. *)
Lemma bcmp_nul k1 k2 r1 r2 : NUL ∉ k1 -> NUL ∉ k2 -> k1 ≠ k2 -> bcmp (k1 ++ NUL :: r1) (k2 ++ NUL :: r2) = bcmp k1 k2.
Proof.
  revert k2. induction k1 as [|x k1 IH]; intros [|y k2] H1 H2 Hne; cbn; [done|..].
  - pose proof (ord_pos y ltac:(set_solver)). change (ord NUL) with 0. by rewrite (proj2 (Z.compare_lt_iff 0 (ord y))).
  - pose proof (ord_pos x ltac:(set_solver)). change (ord NUL) with 0. by rewrite (proj2 (Z.compare_gt_iff (ord x) 0)).
  - destruct (ord x ?= ord y) eqn:E; [|done..]. apply Z.compare_eq, ord_inj in E. subst y. apply IH; [set_solver|set_solver|congruence].
Qed.

(** ** Hexadecimal *)

(** [node.hex] and [node.bin], from [binascii]. *)
Definition hex (s : bytes) : bytes := s ≫= fun c => [hexdigit (ord c / 16); hexdigit (ord c mod 16)].

Fixpoint bin (s : bytes) : res bytes :=
  match s with
  | [] => Ok []
  | a :: b :: s =>
      match hexval a, hexval b with
      | Some x, Some y => let* r := bin s in Ok (byte (16 * x + y) :: r)
      | _, _ => Err TypeError
      end
  | [_] => Err TypeError
  end.

Lemma hexval_digit n : 0 <= n < 16 -> hexval (hexdigit n) = Some n.
Proof.
  intros Hn%elem_of_zrange. revert n Hn. apply Forall_forall. by repeat constructor.
Qed.

Lemma bin_hex s : bin (hex s) = Ok s.
Proof.
  induction s as [|c s IH]; [done|]. pose proof (ord_range c). cbn [hex mbind list_bind app bin].
  rewrite !hexval_digit by (split; [apply Z.div_pos || apply Z.mod_pos_bound|apply Z.div_lt_upper_bound || apply Z.mod_pos_bound]; lia).
  change (s ≫= _) with (hex s). rewrite IH. cbn [rbind]. by rewrite <- Z.div_mod, byte_ord by lia.
Qed.

Lemma length_hex s : length (hex s) = (2 * length s)%nat.
Proof. induction s as [|c s IH]; [done|]. unfold hex in *. cbn. rewrite IH. lia. Qed.

Lemma hexdigit_plain n : 0 <= n < 16 -> hexdigit n ≠ NUL /\ hexdigit n ≠ newline /\ hexdigit n ≠ CR.
Proof.
  intros Hn%elem_of_zrange. revert n Hn. apply Forall_forall. by repeat constructor.
Qed.

Lemma hex_plain s x : x ∈ hex s -> x ≠ NUL /\ x ≠ newline /\ x ≠ CR.
Proof.
  unfold hex. intros (c & Hx & _)%list_elem_of_bind. pose proof (ord_range c). rewrite !elem_of_cons, elem_of_nil in Hx.
  destruct Hx as [->|[->|[]]]; apply hexdigit_plain; (split; [apply Z.div_pos || apply Z.mod_pos_bound|apply Z.div_lt_upper_bound || apply Z.mod_pos_bound]; lia).
Qed.

(** ** Lines *)

(** A path, its node and its flags. *)
Notation entry := (bytes * bytes * bytes)%type.
Notation path e := (e.1.1).
Notation node_ e := (e.1.2).
Notation flags_ e := (e.2).

(** ["%s\0%s%s\n" % (f, _hex(n), fl)] *)
Definition line (e : entry) : bytes := path e ++ NUL :: hex (node_ e) ++ flags_ e ++ [newline].

(** [_checkforbidden] *)
Definition _checkforbidden (l : list bytes) : res unit :=
  if existsb (fun f => bool_decide (newline ∈ f) || bool_decide (CR ∈ f)) l then Err (RevlogError "'\n' and '\r' disallowed in filenames") else Ok tt.

(** [_text] *)
Definition _text (it : list entry) : res bytes :=
  let* _ := _checkforbidden (map (fun e => path e) it) in Ok (concat (map line it)).

(** The loop of [_parse], a generator: the entries yielded, and what it ends with. *)
Fixpoint parse_loop (prev : option bytes) (ls : list bytes) : list entry * res unit :=
  match ls with
  | [] => ([], Ok tt)
  | l :: ls =>
      if match prev with Some p => bool_decide (blt l p) | None => false end then ([], Err ValueError)
      else
        match split NUL l with
        | [f; n] =>
            match bin (take 40 n) with
            | Ok h => let (es, r) := parse_loop (Some l) ls in ((f, h, drop 40 n) :: es, r)
            | Err e => ([], Err e)
            end
        | _ => ([], Err ValueError)
        end
  end.

(** [data.splitlines()] *)
Definition line_end (l : bytes) : bytes :=
  match rev l with
  | c :: r =>
      if decide (c = newline) then match r with d :: r' => if decide (d = CR) then rev r' else rev r | [] => [] end
      else if decide (c = CR) then rev r else l
  | [] => []
  end.

(** [_parse] *)
Definition _parse (data : bytes) : list entry * res unit :=
  if decide (data ≠ [] /\ last data ≠ Some newline) then ([], Err ValueError)
  else parse_loop None (map line_end (Delta.splitlines data)).

(** ** What is written is read back *)

Record entry_ok (e : entry) : Prop := {
  e_path : path e ≠ [] /\ NUL ∉ path e /\ newline ∉ path e;
  e_node : length (node_ e) = 20%nat;
  e_flags : NUL ∉ flags_ e /\ newline ∉ flags_ e
}.

(** No carriage returns either. *)
Definition no_cr (e : entry) : Prop := CR ∉ path e /\ CR ∉ flags_ e.

(** Entries in the order of their paths. *)
Definition before (e f : entry) : Prop := blt (path e) (path f).
Notation sorted := (StronglySorted before).

Lemma line_body e : line e = (path e ++ NUL :: hex (node_ e) ++ flags_ e) ++ [newline].
Proof. unfold line. by rewrite <- app_assoc, <- app_comm_cons, <- app_assoc. Qed.

Lemma line_plain e x : entry_ok e -> x ∈ path e ++ NUL :: hex (node_ e) ++ flags_ e -> x ≠ newline.
Proof.
  intros [(_ & _ & H1) _ [_ H2]]. rewrite elem_of_app, elem_of_cons, elem_of_app. intros [Hx|[->|[Hx%hex_plain|Hx]]]; [set_solver|done|tauto|set_solver].
Qed.

Lemma line_no_cr e : no_cr e -> CR ∉ path e ++ NUL :: hex (node_ e) ++ flags_ e.
Proof. intros [H1 H2]. rewrite elem_of_app, elem_of_cons, elem_of_app. intros [Hx|[Hx|[Hx%hex_plain|Hx]]]; [done|done|tauto|done]. Qed.

Lemma splitlines_line cur l rest : newline ∉ l -> CR ∉ l ->
  splitlines_from cur ((l ++ [newline]) ++ rest) = (cur ++ l ++ [newline]) :: splitlines_from [] rest.
Proof.
  revert cur. induction l as [|x l IH]; intros cur Hn Hc; [done|]. cbn [app splitlines_from].
  destruct (ascii_dec x newline) as [->|_]; [set_solver|]. destruct (ascii_dec x cr) as [->|_]; [exfalso; apply Hc; by left|].
  rewrite IH by set_solver. by rewrite <- !app_assoc.
Qed.

Lemma splitlines_lines es : Forall entry_ok es -> Forall no_cr es -> splitlines (concat (map line es)) = map line es.
Proof.
  unfold splitlines. induction es as [|e es IH]; intros Hok Hcr; [done|]. inversion_clear Hok as [|? ? He Hes]. inversion_clear Hcr as [|? ? Hc Hcs].
  cbn [map concat]. rewrite (line_body e) at 1. rewrite splitlines_line; [|intros Hx; by apply (line_plain e _ He) in Hx|by apply line_no_cr].
  cbn [app]. rewrite <- line_body. f_equal. by apply IH.
Qed.

Lemma line_end_line e : no_cr e -> line_end (line e) = path e ++ NUL :: hex (node_ e) ++ flags_ e.
Proof.
  intros Hc%line_no_cr. rewrite line_body. set (l := path e ++ _) in *. unfold line_end. rewrite rev_app_distr. cbn [rev app].
  rewrite decide_True by done. destruct (rev l) as [|d r] eqn:E.
  { apply (f_equal (@rev ascii)) in E. rewrite rev_involutive in E. by rewrite E. }
  rewrite decide_False; [by rewrite <- E, rev_involutive|]. intros ->. apply Hc. apply elem_of_rev. rewrite E. by left.
Qed.

Lemma split_two c x y : c ∉ x -> c ∉ y -> split c (x ++ c :: y) = [x; y].
Proof. intros Hx Hy. apply (join_split_inv c [x; y]); [done|]. repeat constructor; done. Qed.

Lemma blt_lines e f : entry_ok e -> entry_ok f -> before e f -> blt (path e ++ NUL :: hex (node_ e) ++ flags_ e) (path f ++ NUL :: hex (node_ f) ++ flags_ f).
Proof.
  intros [(_ & H1 & _) _ _] [(_ & H2 & _) _ _] Hb. unfold blt. rewrite bcmp_nul; [done..|]. intros E. unfold before in Hb. rewrite E in Hb. by apply blt_irrefl in Hb.
Qed.

Lemma parse_lines prev es :
  Forall entry_ok es -> Forall no_cr es -> sorted es ->
  (forall p, prev = Some p -> forall e, head es = Some e -> ~ blt (path e ++ NUL :: hex (node_ e) ++ flags_ e) p) ->
  parse_loop prev (map (fun e => path e ++ NUL :: hex (node_ e) ++ flags_ e) es) = (es, Ok tt).
Proof.
  revert prev. induction es as [|e es IH]; intros prev Hok Hcr Hs Hp; [done|]. inversion_clear Hok as [|? ? He Hes]. inversion_clear Hcr as [|? ? Hc Hcs].
  apply StronglySorted_inv in Hs as [Hs Hle]. cbn [map parse_loop].
  replace (match prev with Some p => _ | None => false end) with false by (destruct prev as [p|]; [by rewrite bool_decide_false by (by apply (Hp p eq_refl))|done]).
  rewrite split_two; [|by destruct He as [(_ & ? & _) _ _]|rewrite elem_of_app; intros [Hx%hex_plain|Hx]; [tauto|by destruct He as [_ _ [? _]]]].
  assert (length (hex (node_ e)) = 40%nat) as Hl by (by rewrite length_hex, (e_node e He)).
  rewrite take_app_length', drop_app_length' by done. rewrite bin_hex, IH; [by destruct e as [[? ?] ?]|done..|].
  intros p [= <-] f Hf. destruct es as [|f' es]; [done|]. injection Hf as ->. apply Forall_cons in Hle as [Hle _]. apply Forall_cons in Hes as [Hf _].
  by apply blt_asym, blt_lines.
Qed.

Lemma text_parse es : Forall entry_ok es -> Forall no_cr es -> sorted es ->
  exists t, _text es = Ok t /\ t = concat (map line es) /\ _parse t = (es, Ok tt).
Proof.
  intros Hok Hcr Hs. exists (concat (map line es)). split; [|split; [done|]].
  - unfold _text, _checkforbidden. destruct (existsb _ _) eqn:E; [|done]. exfalso. apply existsb_exists in E as (f & (e & <- & He)%in_map_iff & Hb).
    apply list_elem_of_In in He. rewrite Forall_forall in Hok, Hcr. apply orb_true_iff in Hb as [Hb|Hb]; apply bool_decide_eq_true in Hb;
      [by destruct (Hok e He) as [(_ & _ & ?) _ _]|by destruct (Hcr e He)].
  - unfold _parse. rewrite decide_False.
    + rewrite splitlines_lines by done. rewrite map_map. erewrite map_ext_in; [apply (parse_lines None); done|].
      intros e He%list_elem_of_In. rewrite Forall_forall in Hcr. by apply line_end_line, Hcr.
    + intros [Hne Hl]. apply Hl. destruct es as [|e es _] using rev_ind; [done|]. rewrite map_app, concat_app. cbn [map concat]. rewrite app_nil_r, line_body.
      rewrite app_assoc. by rewrite last_snoc.
Qed.
End ManifestText.
