(* ===== verification/LazyManifest.v ===== *)
(** * Lazily parsed manifests (class [purelazymanifest] of manifest.py)

    The text of a manifest is kept as it is; [positions] says where the line of each
    file starts, in the order of the paths, and negative positions point into the
    entries set since.  Lookups are binary searches; [_compact] writes the text anew. *)

From S2P Require Import Prelude Lines Struct PyEscape ManifestText.

Module LazyManifest.
Import ManifestText.
Notation path e := (e.1.1).
Notation node_ e := (e.1.2).
Notation flags_ e := (e.2).

(** [t.find(c, start)] *)
Definition find (c : ascii) (t : bytes) (start : Z) : Z :=
  match list_find (fun x => x = c) (drop (Z.to_nat start) t) with Some (j, _) => start + Z.of_nat j | None => -1 end.

Record purelazymanifest := LM { positions : list Z; extrainfo : list Z; data : bytes; extradata : list entry }.

(** ** [__init__] *)

(** The loop of [findlines]. *)
Fixpoint findlines_loop (fuel : nat) (data : bytes) (pos : Z) (prev : bytes) (positions : list Z) : res (list Z) :=
  match fuel with
  | O => Err OutOfFuel
  | S fuel =>
      if decide (pos < zlen data - 1 /\ pos ≠ -1) then
        let positions := positions ++ [pos + 1] in
        let nexts := pyslice data (pos + 1) (find NUL data (pos + 1)) in
        if decide (blt nexts prev) then Err ValueError
        else findlines_loop fuel data (find newline data (pos + 1)) nexts positions
      else Ok positions
  end.

(** [findlines] *)
Definition findlines (data : bytes) : res (list Z) :=
  if decide (data = []) then Ok []
  else
    let pos := find newline data 0 in
    if decide (pos = -1 \/ last data ≠ Some newline) then Err ValueError
    else findlines_loop (S (length data)) data pos (pyslice data 0 (find NUL data 0)) [0].

(** [__init__], for a text. *)
Definition init (data : bytes) : res purelazymanifest :=
  let* positions := findlines data in
  Ok (LM positions (map (fun _ => 0) positions) data []).

(** [copy] *)
Definition copy (self : purelazymanifest) : purelazymanifest := LM (positions self) (extrainfo self) (data self) (extradata self).

(** ** Access *)

(** [_get]: an entry set since, or a position in the text. *)
Definition _get (self : purelazymanifest) (index : Z) : res (entry + Z) :=
  let* pos := getitem (positions self) index in
  if decide (0 <= pos) then Ok (inr pos) else let* e := getitem (extradata self) (- pos - 1) in Ok (inl e).

Definition _getkey (self : purelazymanifest) (pos : Z) : res bytes :=
  if decide (0 <= pos) then Ok (pyslice (data self) pos (find NUL (data self) (pos + 1)))
  else let* e := getitem (extradata self) (- pos - 1) in Ok (path e).

(** The loop of [bsearch2]; that of [bsearch] differs in what it returns. *)
Fixpoint bsearch_loop (fuel : nat) (self : purelazymanifest) (key : bytes) (first last : Z) : res (Z * bool) :=
  match fuel with
  | O => Err OutOfFuel
  | S fuel =>
      if decide (first <= last) then
        let midpoint := (first + last) / 2 in
        let* nextpos := getitem (positions self) midpoint in
        let* candidate := _getkey self nextpos in
        match bcmp key candidate with
        | Eq => Ok (midpoint, true)
        | Lt => bsearch_loop fuel self key first (midpoint - 1)
        | Gt => bsearch_loop fuel self key (midpoint + 1) last
        end
      else Ok (first, false)
  end.

Definition bsearch2 (self : purelazymanifest) (key : bytes) : res (Z * bool) :=
  bsearch_loop (S (length (positions self))) self key 0 (zlen (positions self) - 1).

Definition bsearch (self : purelazymanifest) (key : bytes) : res Z :=
  let* (i, found) := bsearch2 self key in Ok (if found : bool then i else -1).

(** [__contains__] *)
Definition contains (self : purelazymanifest) (key : bytes) : res bool :=
  let* i := bsearch self key in Ok (bool_decide (i ≠ -1)).

Definition unhexlify (data : bytes) (extra pos length : Z) : res bytes :=
  let* s := bin (pyslice data pos (pos + length)) in
  Ok (if decide (extra ≠ 0) then s ++ [byte (Z.land extra 255)] else s).

Definition _getflags (self : purelazymanifest) (data_ : bytes) (pos : Z) : bytes :=
  let start := pos + 41 in
  let end_ := find newline data_ start in
  let end_ := if decide (end_ = -1) then zlen data_ - 1 else end_ in
  if decide (start = end_) then [] else pyslice (data self) start end_.

(** The node and the flags of the line at [pos]. *)
Definition get_line (self : purelazymanifest) (index pos : Z) : res (bytes * bytes) :=
  let zeropos := find NUL (data self) pos in
  let* extra := getitem (extrainfo self) index in
  let* hashval := unhexlify (data self) extra (zeropos + 1) 40 in
  Ok (hashval, _getflags self (data self) zeropos).

(** [__getitem__] *)
Definition getitem_ (self : purelazymanifest) (key : bytes) : res (bytes * bytes) :=
  let* needle := bsearch self key in
  if decide (needle = -1) then Err KeyError
  else
    let* g := _get self needle in
    match g with
    | inl e => Ok (node_ e, flags_ e)
    | inr pos =>
        if decide (0 <= needle <= zlen (positions self)) then
          if decide (length (extrainfo self) = length (positions self)) then get_line self needle pos else Err AssertionError
        else Err AssertionError
    end.

(** [lazymanifestiterentries.next] *)
Definition next_entry (self : purelazymanifest) (index : Z) : res entry :=
  match _get self index with
  | Ok (inl e) => Ok e
  | Ok (inr pos) =>
      let* (hashval, flags) := get_line self index pos in
      Ok (pyslice (data self) pos (find NUL (data self) pos), hashval, flags)
  | Err IndexError => Err StopIteration
  | Err e => Err e
  end.

(** [lazymanifestiter.next] *)
Definition next_key (self : purelazymanifest) (index : Z) : res bytes :=
  match _get self index with
  | Ok (inl e) => Ok (path e)
  | Ok (inr pos) => Ok (pyslice (data self) pos (find NUL (data self) pos))
  | Err IndexError => Err StopIteration
  | Err e => Err e
  end.

(** A loop over an iterator. *)
Fixpoint iterate {A} (fuel : nat) (next : Z -> res A) (index : Z) : res (list A) :=
  match fuel with
  | O => Err OutOfFuel
  | S fuel =>
      match next index with
      | Ok x => let* l := iterate fuel next (index + 1) in Ok (x :: l)
      | Err StopIteration => Ok []
      | Err e => Err e
      end
  end.

Definition iterentries (self : purelazymanifest) : res (list entry) := iterate (S (length (positions self))) (next_entry self) 0.
Definition iterkeys (self : purelazymanifest) : res (list bytes) := iterate (S (length (positions self))) (next_key self) 0.

(** [__len__] *)
Definition len (self : purelazymanifest) : Z := zlen (positions self).

(** ** Changes *)

(** [__delitem__] *)
Definition delitem (self : purelazymanifest) (key : bytes) : res purelazymanifest :=
  let* (needle, found) := bsearch2 self key in
  if negb found then Err KeyError
  else
    let* cur := getitem (positions self) needle in
    let remove (l : list Z) := pyslice l 0 needle ++ pyslice l (needle + 1) (zlen l) in
    Ok (LM (remove (positions self)) (remove (extrainfo self))
          (if decide (0 <= cur) then pyslice (data self) 0 cur ++ NUL :: pyslice (data self) (cur + 1) (zlen (data self)) else data self)
          (extradata self)).

(** [__setitem__] *)
Definition setitem (self : purelazymanifest) (key : bytes) (hashval flags : bytes) : res purelazymanifest :=
  if decide (~ (20 <= zlen hashval <= 22)) then Err TypeError
  else
    let hashval := if decide (zlen hashval = 22) then pyslice hashval 0 (-1) else hashval in
    if decide (1 < zlen flags) then Err TypeError
    else
      let* (needle, found) := bsearch2 self key in
      let e := (key, hashval, flags) in
      if found : bool then
        let* pos := getitem (positions self) needle in
        if decide (pos < 0) then
          Ok (LM (positions self) (extrainfo self) (data self) (<[Z.to_nat (- pos - 1) := e]> (extradata self)))
        else
          let extradata := extradata self ++ [e] in
          Ok (LM (<[Z.to_nat needle := - zlen extradata]> (positions self)) (extrainfo self) (data self) extradata)
      else
        let extradata := extradata self ++ [e] in
        let add (x : Z) (l : list Z) := pyslice l 0 needle ++ [x] ++ pyslice l needle (zlen l) in
        Ok (LM (add (- zlen extradata) (positions self)) (add 0 (extrainfo self)) (data self) extradata).

(** ** The text *)

(** [_pack] *)
Definition _pack (d : entry) : bytes := path d ++ NUL :: hex (take 20 (node_ d)) ++ flags_ d ++ [newline].

(** The variables of [_compact] that its loops change. *)
Record cstate := C { c_i : Z; c_offset : Z; c_positions : list Z; c_extrainfo : list Z; c_l : list bytes }.

(** The inner loop over lines of the text; returns the last of them. *)
Fixpoint keep_loop (fuel : nat) (cur : Z) (st : cstate) : res (Z * cstate) :=
  match fuel with
  | O => Err OutOfFuel
  | S fuel =>
      let ps := <[Z.to_nat (c_i st) := c_offset st]> (c_positions st) in
      let i := c_i st + 1 in
      let st := C i (c_offset st) ps (c_extrainfo st) (c_l st) in
      if decide (i = zlen ps) then Ok (cur, st)
      else
        let* p := getitem ps i in
        if decide (p < 0) then Ok (cur, st)
        else keep_loop fuel p (C i (c_offset st + (p - cur)) ps (c_extrainfo st) (c_l st))
  end.

(** The inner loop over entries set since. *)
Fixpoint pack_loop (fuel : nat) (extradata : list entry) (st : cstate) : res cstate :=
  match fuel with
  | O => Err OutOfFuel
  | S fuel =>
      if decide (c_i st < zlen (c_positions st)) then
        let* cur := getitem (c_positions st) (c_i st) in
        if decide (cur < 0) then
          let* t := getitem extradata (- cur - 1) in
          let ps := <[Z.to_nat (c_i st) := c_offset st]> (c_positions st) in
          let* ei :=
            if decide (20 < zlen (node_ t)) then let* c := getitem (node_ t) 21 in Ok (<[Z.to_nat (c_i st) := ord c]> (c_extrainfo st))
            else Ok (c_extrainfo st) in
          pack_loop fuel extradata (C (c_i st + 1) (c_offset st + zlen (_pack t)) ps ei (c_l st ++ [_pack t]))
        else Ok st
      else Ok st
  end.

(** The main loop of [_compact]. *)
Fixpoint compact_loop (fuel : nat) (data : bytes) (extradata : list entry) (st : cstate) : res cstate :=
  match fuel with
  | O => Err OutOfFuel
  | S fuel =>
      let n := length (c_positions st) in
      if decide (c_i st < zlen (c_positions st)) then
        let* cur := getitem (c_positions st) (c_i st) in
        if decide (0 <= cur) then
          let last_cut := cur in
          let* (cur, st) := keep_loop (S n) cur st in
          let end_cut := find newline data cur in
          let end_cut := if decide (end_cut ≠ -1) then end_cut + 1 else end_cut in
          compact_loop fuel data extradata
            (C (c_i st) (c_offset st + (end_cut - cur)) (c_positions st) (c_extrainfo st) (c_l st ++ [pyslice data last_cut end_cut]))
        else
          let* st := pack_loop (S n) extradata st in
          compact_loop fuel data extradata st
      else Ok st
  end.

(** [_compact] *)
Definition _compact (self : purelazymanifest) : res purelazymanifest :=
  if decide (zlen (extradata self) = 0) then Ok self
  else
    let n := length (positions self) in
    let* st := compact_loop (S n) (data self) (extradata self) (C 0 0 (positions self) (map (fun _ => 0) (positions self)) []) in
    Ok (LM (c_positions st) (c_extrainfo st) (concat (c_l st)) []).

(** [text] *)
Definition text (self : purelazymanifest) : res (bytes * purelazymanifest) :=
  let* self := _compact self in Ok (data self, self).

(** ** Comparison and filtering *)

(** A file in one of two manifests: node, if it is there, and flags. *)
Definition side : Type := option bytes * bytes.

Fixpoint diff_here (m2 : purelazymanifest) (es : list entry) (diff : gmap bytes (side * side)) : res (gmap bytes (side * side)) :=
  match es with
  | [] => Ok diff
  | (fn, e1, flags) :: es =>
      let* b := contains m2 fn in
      if negb b then diff_here m2 es (<[fn := ((Some e1, flags), (None, []))]> diff)
      else
        let* e2 := getitem_ m2 fn in
        if decide ((e1, flags) ≠ e2) then diff_here m2 es (<[fn := ((Some e1, flags), (Some e2.1, e2.2))]> diff)
        else diff_here m2 es diff
  end.

Fixpoint diff_there (self : purelazymanifest) (es : list entry) (diff : gmap bytes (side * side)) : res (gmap bytes (side * side)) :=
  match es with
  | [] => Ok diff
  | (fn, e2, flags) :: es =>
      let* b := contains self fn in
      diff_there self es (if negb b then <[fn := ((None, []), (Some e2, flags))]> diff else diff)
  end.

(** [diff] *)
Definition diff (self m2 : purelazymanifest) : res (gmap bytes (side * side)) :=
  let* es1 := iterentries self in
  let* d := diff_here m2 es1 ∅ in
  let* es2 := iterentries m2 in
  diff_there self es2 d.

Fixpoint set_all (c : purelazymanifest) (es : list entry) : res purelazymanifest :=
  match es with
  | [] => Ok c
  | (f, n, fl) :: es => let* c := setitem c f n fl in set_all c es
  end.

(** [filtercopy] *)
Definition filtercopy (filterfn : bytes -> bool) (self : purelazymanifest) : res purelazymanifest :=
  let* c := init [] in
  let* es := iterentries self in
  set_all c (filter (fun e => filterfn (path e) = true) es).

(** ** Examples *)

Definition hash (c : ascii) : bytes := replicate 20 c.
Definition ex_entries : list entry := [(bs "a", hash "1", []); (bs "b", hash "2", bs "x"); (bs "c", hash "3", [])].
Definition ex_text : bytes := concat (map line ex_entries).

Example ex_reads : (let* m := init ex_text in iterentries m) = Ok ex_entries.
Proof. vm_compute. done. Qed.
Example ex_sets : (let* m := init ex_text in let* m := setitem m (bs "bb") (hash "4") [] in let* m := setitem m (bs "b") (hash "5") [] in text m)
  = (let* m := init ex_text in let* m := setitem m (bs "bb") (hash "4") [] in let* m := setitem m (bs "b") (hash "5") [] in let* (_, m) := text m in
     Ok (concat (map line [(bs "a", hash "1", []); (bs "b", hash "5", []); (bs "bb", hash "4", []); (bs "c", hash "3", [])]), m)).
Proof. vm_compute. done. Qed.

(** ** Finding bytes *)

Lemma find_app c (pre x suf : bytes) : c ∉ x -> find c (pre ++ x ++ c :: suf) (zlen pre) = zlen pre + zlen x.
Proof.
  intros Hx. unfold find. unfold zlen at 1. rewrite Nat2Z.id, drop_app_length.
  assert (list_find (fun y => y = c) (x ++ c :: suf) = Some (length x, c)) as ->; [|done].
  apply list_find_Some. split_and!; [by rewrite lookup_app_r, Nat.sub_diag by lia|done|].
  intros j y Hj Hlt. rewrite lookup_app_l in Hj by done. intros ->. apply Hx. by eapply list_elem_of_lookup_2.
Qed.

Lemma slice_mid {A} (pre x suf : list A) : slice (pre ++ x ++ suf) (zlen pre) (zlen pre + zlen x) = x.
Proof.
  unfold slice, zlen. rewrite Nat2Z.id, drop_app_length. replace (Z.to_nat _) with (length x) by lia. apply take_app_length.
Qed.

Lemma pyslice_mid {A} (pre x suf : list A) i j : i = zlen pre -> j = zlen pre + zlen x -> pyslice (pre ++ x ++ suf) i j = x.
Proof.
  intros -> ->. unfold pyslice. rewrite !clamp_in; [apply slice_mid|..]; rewrite !zlen_app; pose proof (zlen_nonneg pre); pose proof (zlen_nonneg x); pose proof (zlen_nonneg suf); lia.
Qed.

Lemma pyslice_prefix {A} (l : list A) i : 0 <= i <= zlen l -> pyslice l 0 i = take (Z.to_nat i) l.
Proof. intros Hi. unfold pyslice. rewrite !clamp_in by lia. unfold slice. cbn. f_equal. lia. Qed.

Lemma pyslice_drop {A} (l : list A) i : 0 <= i <= zlen l -> pyslice l i (zlen l) = drop (Z.to_nat i) l.
Proof. intros Hi. unfold pyslice. rewrite !clamp_in by lia. by apply slice_tail. Qed.

(** ** Lines of the text *)

(** The line of [e] stands at [pos]. *)
Definition line_at (data : bytes) (pos : Z) (e : entry) : Prop := exists pre suf, data = pre ++ line e ++ suf /\ zlen pre = pos.

Section line_at.
Context (e : entry) (pre suf : bytes) (He : entry_ok e).
Notation dat := (pre ++ line e ++ suf).

Lemma line_find_nul : find NUL dat (zlen pre) = zlen pre + zlen (path e).
Proof using He. unfold line. rewrite <- !app_assoc. apply find_app. by destruct He as [(_ & ? & _) _ _]. Qed.

Lemma line_find_nul1 : find NUL dat (zlen pre + 1) = zlen pre + zlen (path e).
Proof using He.
  destruct He as [(Hne & Hn & _) _ _]. unfold line. rewrite <- !app_assoc. destruct (path e) as [|c p]; [done|].
  change ((c :: p) ++ ?l) with (c :: p ++ l). rewrite cons_middle, app_assoc.
  replace (zlen pre + 1) with (zlen (pre ++ [c])) by (rewrite zlen_app; done). cbn [app]. rewrite find_app by set_solver.
  unfold zlen. rewrite length_app. cbn [length]. lia.
Qed.

Lemma line_node : bin (pyslice dat (zlen pre + zlen (path e) + 1) (zlen pre + zlen (path e) + 1 + 40)) = Ok (node_ e).
Proof using He.
  rewrite <- bin_hex. f_equal. assert (zlen (hex (node_ e)) = 40) as Hl by (unfold zlen; rewrite length_hex, (e_node e He); done).
  replace dat with ((pre ++ path e ++ [NUL]) ++ hex (node_ e) ++ flags_ e ++ [newline] ++ suf) by (unfold line; repeat (rewrite <- app_assoc; cbn [app]); done).
  apply pyslice_mid; rewrite !zlen_app; change (zlen [NUL]) with 1; lia.
Qed.

Lemma line_flags m : data m = dat -> _getflags m dat (zlen pre + zlen (path e)) = flags_ e.
Proof using He.
  intros Hm. unfold _getflags. rewrite Hm. assert (zlen (hex (node_ e)) = 40) as Hl by (unfold zlen; rewrite length_hex, (e_node e He); done).
  replace dat with ((pre ++ path e ++ NUL :: hex (node_ e)) ++ flags_ e ++ newline :: suf) by (unfold line; repeat (rewrite <- app_assoc; cbn [app]); done).
  set (pre' := pre ++ path e ++ NUL :: hex (node_ e)). assert (zlen pre + zlen (path e) + 41 = zlen pre') as -> by (unfold pre'; rewrite !zlen_app, zlen_cons; lia).
  rewrite find_app by (by destruct He as [_ _ [_ ?]]). pose proof (zlen_nonneg pre'). pose proof (zlen_nonneg (flags_ e)).
  rewrite (decide_False (P := zlen pre' + zlen (flags_ e) = -1)) by lia. case_decide as Hf.
  - destruct (flags_ e); [done|]. rewrite zlen_cons in *. pose proof (zlen_nonneg l). lia.
  - by apply pyslice_mid.
Qed.
End line_at.

(** ** The invariant *)

(** The entry [e] is stored at [pos]. *)
Definition stored (m : purelazymanifest) (pos : Z) (e : entry) : Prop :=
  if decide (0 <= pos) then line_at (data m) pos e /\ entry_ok e else extradata m !! Z.to_nat (- pos - 1) = Some e.

(** Places in order: the paths ascend, positions differ, lines do not overlap. *)
Definition apart (x y : Z * entry) : Prop :=
  before x.2 y.2 /\ x.1 ≠ y.1 /\ (0 <= x.1 -> 0 <= y.1 -> x.1 + zlen (line x.2) <= y.1).

(** The manifest holds the entries of [l] at their positions. *)
Record repr (m : purelazymanifest) (l : list (Z * entry)) : Prop := {
  r_positions : positions m = l.*1;
  r_extra : extrainfo m = map (fun _ => 0) l;
  r_stored : Forall (fun x => stored m x.1 x.2) l;
  r_apart : StronglySorted apart l
}.

Lemma StronglySorted_lookup {A} (R : relation A) l i j x y :
  StronglySorted R l -> l !! i = Some x -> l !! j = Some y -> (i < j)%nat -> R x y.
Proof.
  intros Hs. revert i j. induction Hs as [|z l _ IH Hz]; intros [|i] [|j] Hx Hy Hij; try done; try lia; cbn in *.
  - simplify_eq. rewrite Forall_forall in Hz. by eapply Hz, list_elem_of_lookup_2.
  - eapply IH; [done..|lia].
Qed.

Lemma getitem_lookup {A} (l : list A) i x : 0 <= i -> getitem l i = Ok x <-> l !! Z.to_nat i = Some x.
Proof. intros Hi. unfold getitem. destruct (l !! Z.to_nat i); split; congruence. Qed.

Lemma getitem_out {A} (l : list A) i : zlen l <= i -> getitem l i = Err IndexError.
Proof. intros Hi. unfold getitem. rewrite lookup_ge_None_2; [done|]. unfold zlen in Hi. lia. Qed.

(** The entries by path. *)
Definition keyed (e : entry) : bytes * (bytes * bytes) := (path e, (node_ e, flags_ e)).
Definition to_map (es : list entry) : gmap bytes (bytes * bytes) := list_to_map (map keyed es).

Lemma sorted_NoDup es : StronglySorted before es -> NoDup (map keyed es).*1.
Proof.
  induction 1 as [|e es _ IH Hle]; cbn; constructor; [|done]. intros (kv & Hk & (f & -> & Hf)%list_elem_of_fmap)%list_elem_of_fmap.
  rewrite Forall_forall in Hle. specialize (Hle f Hf). unfold before in Hle. cbn in Hk. rewrite Hk in Hle. by apply blt_irrefl in Hle.
Qed.

Lemma to_map_elem es e : StronglySorted before es -> e ∈ es -> to_map es !! path e = Some (node_ e, flags_ e).
Proof.
  intros Hs He. apply elem_of_list_to_map_1; [by apply sorted_NoDup|]. by apply (list_elem_of_fmap_2 keyed).
Qed.

Lemma to_map_none es k : (forall e, e ∈ es -> path e ≠ k) -> to_map es !! k = None.
Proof.
  intros Hno. apply not_elem_of_list_to_map_1. intros (kv & -> & (e & -> & He)%list_elem_of_fmap)%list_elem_of_fmap. by apply (Hno e He).
Qed.

(** The entries of a map, in the order of the paths. *)
Definition sorted_entries (M : gmap bytes (bytes * bytes)) : list entry :=
  merge_sort (fun e f => ~ before f e) (map (fun kv => (kv.1, kv.2.1, kv.2.2)) (map_to_list M)).

#[local] Instance before_dec e f : Decision (before e f).
Proof. unfold before. apply _. Defined.

Lemma sorted_entries_spec es : StronglySorted before es -> sorted_entries (to_map es) = es.
Proof.
  intros Hs. unfold sorted_entries. set (R := fun e f => ~ before f e).
  assert (Transitive R) as HT.
  { intros x y z Hxy Hyz Hzx. unfold R, before in *. destruct (blt_total (path y) (path z)) as [H|[H|H]]; [|rewrite H in Hxy; done|done].
    apply Hxy. by eapply blt_trans. }
  assert (Total R) as HTot.
  { intros x y. unfold R, before. destruct (decide (blt (path y) (path x))) as [H|H]; [right; by apply blt_asym|by left]. }
  assert (merge_sort R (map (fun kv : bytes * (bytes * bytes) => (kv.1, kv.2.1, kv.2.2)) (map_to_list (to_map es))) ≡ₚ es) as Hperm.
  { rewrite merge_sort_Permutation. unfold to_map. rewrite map_to_list_to_map by (by apply sorted_NoDup). rewrite map_map.
    rewrite <- (map_id es) at 2. erewrite map_ext; [done|]. by intros [[p n] fl]. }
  apply (StronglySorted_unique_strong R); [|apply Sorted_StronglySorted; [done|by apply Sorted_merge_sort]| |done].
  - intros x y Hx Hy Hxy Hyx. rewrite Hperm in Hx. assert (path x = path y) as Hp by (unfold R, before in *; destruct (blt_total (path x) (path y)) as [|[|]]; tauto).
    pose proof (to_map_elem es x Hs Hx) as Ex. pose proof (to_map_elem es y Hs Hy) as Ey. rewrite Hp in Ex. rewrite Ex in Ey.
    destruct x as [[??]?], y as [[??]?]. cbn in *. congruence.
  - apply (StronglySorted_weaken before); [|done]. intros x y Hxy. by apply blt_asym.
Qed.

Section reads.
Context (m : purelazymanifest) (l : list (Z * entry)) (Hm : repr m l).
Notation es := (l.*2).

Lemma repr_length : length (positions m) = length es.
Proof using Hm. by rewrite (r_positions _ _ Hm), !length_fmap. Qed.

Lemma repr_zlen : zlen (positions m) = zlen es.
Proof using Hm. unfold zlen. by rewrite repr_length. Qed.

Lemma repr_at i e : es !! i = Some e -> exists pos, positions m !! i = Some pos /\ l !! i = Some (pos, e) /\ stored m pos e.
Proof using Hm.
  rewrite list_lookup_fmap. intros ([pos e'] & He & [= ->])%fmap_Some. exists pos. rewrite (r_positions _ _ Hm), list_lookup_fmap, He.
  split_and!; [done|done|]. exact (Forall_lookup_1 _ _ _ _ (r_stored _ _ Hm) He).
Qed.

Lemma repr_getitem i : 0 <= i < zlen es -> exists pos e, getitem (positions m) i = Ok pos /\ es !! Z.to_nat i = Some e /\ stored m pos e.
Proof using Hm.
  intros Hi. destruct (lookup_lt_is_Some_2 es (Z.to_nat i)) as [e He]; [unfold zlen in Hi; lia|]. destruct (repr_at _ _ He) as (pos & Hp & _ & Hs).
  exists pos, e. split_and!; [by apply getitem_lookup; [lia|]|done|done].
Qed.

Lemma getkey_stored pos e : stored m pos e -> _getkey m pos = Ok (path e).
Proof using Type.
  clear Hm. unfold stored, _getkey. case_decide as Hp.
  - intros [(pre & suf & -> & <-) He]. rewrite line_find_nul1 by done. f_equal. unfold line. rewrite <- app_assoc. by apply pyslice_mid.
  - intros He. assert (getitem (extradata m) (- pos - 1) = Ok e) as -> by (apply getitem_lookup; [lia|done]). done.
Qed.

Lemma sorted_lookup i j e f : es !! i = Some e -> es !! j = Some f -> (i < j)%nat -> before e f.
Proof using Hm.
  intros (pos & _ & He & _)%repr_at (pos' & _ & Hf & _)%repr_at Hij. exact (proj1 (StronglySorted_lookup _ _ _ _ _ _ (r_apart _ _ Hm) He Hf Hij)).
Qed.

(** A binary search: where the key is, or where it belongs. *)
Definition search_result (key : bytes) (r : Z * bool) : Prop :=
  0 <= r.1 <= zlen es /\
  if r.2 then exists e, es !! Z.to_nat r.1 = Some e /\ path e = key
  else (forall j e, es !! j = Some e -> (Z.of_nat j < r.1 -> blt (path e) key) /\ (r.1 <= Z.of_nat j -> blt key (path e))).

Lemma bsearch_loop_spec fuel key first last :
  0 <= first -> first <= last + 1 -> last < zlen es -> last - first + 1 < Z.of_nat fuel ->
  (forall j e, es !! j = Some e -> Z.of_nat j < first -> blt (path e) key) ->
  (forall j e, es !! j = Some e -> last < Z.of_nat j -> blt key (path e)) ->
  exists r, bsearch_loop fuel m key first last = Ok r /\ search_result key r.
Proof using Hm.
  revert first last. induction fuel as [|fuel IH]; intros first last Hf Hfl Hl Hfuel Hlo Hhi; [lia|]. cbn [bsearch_loop].
  case_decide as Hle; [|exists (first, false); split; [done|split; cbn; [lia|]]; intros j e He; split; intros; [by eapply Hlo|eapply Hhi; [done|lia]]].
  assert (first <= (first + last) / 2 <= last) as Hmid by (split; [apply Z.div_le_lower_bound|apply Z.div_le_upper_bound]; lia).
  set (mid := (first + last) / 2) in *. destruct (repr_getitem mid) as (pos & e & -> & He & Hs); [lia|]. cbn [rbind].
  rewrite (getkey_stored _ _ Hs). cbn [rbind]. destruct (bcmp key (path e)) eqn:E.
  - apply bcmp_eq in E. exists (mid, true). split; [done|]. split; cbn; [lia|]. by exists e.
  - apply IH; [lia|lia|lia|lia|done|]. intros j f Hf' Hj. destruct (decide (Z.of_nat j = mid)) as [Heq|Hne].
    + assert (j = Z.to_nat mid) as -> by lia. assert (f = e) as -> by congruence. done.
    + eapply blt_trans; [exact E|]. eapply sorted_lookup; [exact He|exact Hf'|lia].
  - apply bcmp_gt in E. apply IH; [lia|lia|lia|lia| |done]. intros j f Hf' Hj. destruct (decide (Z.of_nat j = mid)) as [Heq|Hne].
    + assert (j = Z.to_nat mid) as -> by lia. assert (f = e) as -> by congruence. done.
    + eapply blt_trans; [|exact E]. eapply sorted_lookup; [exact Hf'|exact He|lia].
Qed.

Lemma bsearch2_spec key : exists r, bsearch2 m key = Ok r /\ search_result key r.
Proof using Hm.
  unfold bsearch2. rewrite repr_zlen. pose proof (zlen_nonneg es). apply bsearch_loop_spec; [lia|lia|lia| |lia|].
  - rewrite repr_length. unfold zlen. lia.
  - intros j e He%lookup_lt_Some Hj. unfold zlen in Hj. lia.
Qed.

Lemma bsearch_spec key :
  match bsearch m key with
  | Ok i => (i = -1 /\ forall e, e ∈ es -> path e ≠ key) \/ (0 <= i < zlen es /\ exists e, es !! Z.to_nat i = Some e /\ path e = key)
  | Err _ => False
  end.
Proof using Hm.
  unfold bsearch. destruct (bsearch2_spec key) as ([i b] & -> & Hi & Hr). cbn [rbind]. cbn in Hi, Hr. destruct b.
  - right. split; [|done]. destruct Hr as (e & He & _). apply lookup_lt_Some in He. unfold zlen in *. lia.
  - left. split; [done|]. intros e (j & He)%list_elem_of_lookup_1 <-. destruct (Hr j e He) as [H1 H2].
    destruct (decide (Z.of_nat j < i)); [by apply (blt_irrefl (path e)), H1|by apply (blt_irrefl (path e)), H2; lia].
Qed.

Lemma repr_sorted : StronglySorted before es.
Proof using Hm.
  pose proof (r_apart _ _ Hm) as Ha. clear Hm. induction Ha as [|x l _ IH Hx]; cbn; constructor; [done|].
  apply Forall_fmap. eapply Forall_impl; [exact Hx|]. intros y Hy. apply Hy.
Qed.

Lemma repr_get i pos e : stored m pos e -> es !! Z.to_nat i = Some e -> 0 <= i ->
  (forall pos', pos = pos' -> 0 <= pos' -> get_line m i pos = Ok (node_ e, flags_ e) /\ pyslice (data m) pos (find NUL (data m) pos) = path e) /\
  (pos < 0 -> getitem (extradata m) (- pos - 1) = Ok e).
Proof using Hm.
  unfold stored. intros Hs He Hi. split; [intros pos' <- Hp|intros Hp]; [rewrite decide_True in Hs by done|rewrite decide_False in Hs by lia; apply getitem_lookup; [lia|done]].
  destruct Hs as [(pre & suf & Hd & <-) Hok]. unfold get_line. rewrite Hd, line_find_nul by done.
  assert (getitem (extrainfo m) i = Ok 0) as ->.
  { apply getitem_lookup; [done|]. rewrite (r_extra _ _ Hm). rewrite list_lookup_fmap in He. apply fmap_Some in He as (x & Hx & _).
    change (map ?f l) with (f <$> l). by rewrite list_lookup_fmap, Hx. }
  cbn [rbind]. unfold unhexlify. rewrite line_node by done. cbn [rbind]. rewrite (line_flags e pre suf Hok m Hd).
  split; [done|]. unfold line. rewrite <- app_assoc. by apply pyslice_mid.
Qed.

Lemma next_entry_spec i : 0 <= i -> next_entry m i = match es !! Z.to_nat i with Some e => Ok e | None => Err StopIteration end.
Proof using Hm.
  intros Hi. unfold next_entry, _get. destruct (es !! Z.to_nat i) as [e|] eqn:He.
  - destruct (repr_at _ _ He) as (pos & Hp & _ & Hs). rewrite (proj2 (getitem_lookup _ i pos Hi) Hp). cbn [rbind].
    destruct (repr_get i pos e Hs He Hi) as [H1 H2]. case_decide as Hpos; [|by rewrite H2 by lia].
    destruct (H1 pos eq_refl Hpos) as [-> ->]. cbn [rbind]. by destruct e as [[? ?] ?].
  - apply lookup_ge_None_1 in He. rewrite getitem_out; [done|]. rewrite repr_zlen. unfold zlen. lia.
Qed.

Lemma next_key_spec i : 0 <= i -> next_key m i = match es !! Z.to_nat i with Some e => Ok (path e) | None => Err StopIteration end.
Proof using Hm.
  intros Hi. unfold next_key, _get. destruct (es !! Z.to_nat i) as [e|] eqn:He.
  - destruct (repr_at _ _ He) as (pos & Hp & _ & Hs). rewrite (proj2 (getitem_lookup _ i pos Hi) Hp). cbn [rbind].
    destruct (repr_get i pos e Hs He Hi) as [H1 H2]. case_decide as Hpos; [|by rewrite H2 by lia].
    by destruct (H1 pos eq_refl Hpos) as [_ ->].
  - apply lookup_ge_None_1 in He. rewrite getitem_out; [done|]. rewrite repr_zlen. unfold zlen. lia.
Qed.

Lemma iterate_spec {A} (f : entry -> A) next fuel i :
  (forall i, 0 <= i -> next i = match es !! Z.to_nat i with Some e => Ok (f e) | None => Err StopIteration end) ->
  0 <= i -> Z.max 0 (zlen es - i) < Z.of_nat fuel -> iterate fuel next i = Ok (map f (drop (Z.to_nat i) es)).
Proof using Type.
  clear Hm. intros Hnext. revert i. induction fuel as [|fuel IH]; intros i Hi Hf; cbn [iterate]; rewrite ?Hnext by done; unfold zlen in *.
  - lia.
  - destruct (es !! Z.to_nat i) as [e|] eqn:E.
    + apply lookup_lt_Some in E as Hlt. rewrite IH by lia. cbn [rbind]. rewrite (drop_S _ _ _ E). cbn [map]. by replace (Z.to_nat (i + 1)) with (S (Z.to_nat i)) by lia.
    + apply lookup_ge_None_1 in E. by rewrite drop_ge.
Qed.

Lemma iterentries_spec : iterentries m = Ok es.
Proof using Hm.
  unfold iterentries. rewrite (iterate_spec (fun e => e) (next_entry m)); [by rewrite map_id|apply next_entry_spec|lia|].
  rewrite repr_length. unfold zlen. lia.
Qed.

Lemma iterkeys_spec : iterkeys m = Ok (map (fun e => path e) es).
Proof using Hm.
  unfold iterkeys. rewrite (iterate_spec (fun e => path e) (next_key m)); [done|apply next_key_spec|lia|]. rewrite repr_length. unfold zlen. lia.
Qed.

Lemma getitem_spec key : getitem_ m key = match to_map es !! key with Some v => Ok v | None => Err KeyError end.
Proof using Hm.
  unfold getitem_. pose proof (bsearch_spec key) as Hb. destruct (bsearch m key) as [i|]; [|done]. cbn [rbind].
  destruct Hb as [[-> Hno]|[Hi (e & He & <-)]]; [by rewrite to_map_none|]. rewrite decide_False by lia.
  rewrite to_map_elem; [|apply repr_sorted|by eapply list_elem_of_lookup_2].
  destruct (repr_at _ _ He) as (pos & Hp & _ & Hs). unfold _get. rewrite (proj2 (getitem_lookup _ i pos ltac:(lia)) Hp). cbn [rbind].
  destruct (repr_get i pos e Hs He ltac:(lia)) as [H1 H2]. case_decide as Hpos; [|by rewrite H2 by lia].
  cbn [rbind]. rewrite repr_zlen, decide_True by lia. rewrite decide_True by (rewrite (r_extra _ _ Hm), (r_positions _ _ Hm), length_map, length_fmap; done).
  by destruct (H1 pos eq_refl Hpos) as [-> _].
Qed.

Lemma manifest_contains_spec key : contains m key = Ok (bool_decide (is_Some (to_map es !! key))).
Proof using Hm.
  unfold contains. pose proof (bsearch_spec key) as Hb. destruct (bsearch m key) as [i|]; [|done]. cbn [rbind]. f_equal. apply bool_decide_ext.
  destruct Hb as [[-> Hno]|[Hi (e & He & <-)]].
  - rewrite to_map_none by done. split; [done|]. by intros [? ?].
  - rewrite to_map_elem; [|apply repr_sorted|by eapply list_elem_of_lookup_2]. split; [by eexists|lia].
Qed.

Lemma manifest_len_spec : len m = Z.of_nat (size (to_map es)).
Proof using Hm.
  unfold len. rewrite repr_zlen. unfold zlen. f_equal. unfold to_map. rewrite map_size_list_to_map by apply sorted_NoDup, repr_sorted. symmetry. apply length_map.
Qed.
End reads.

(** ** Changes *)

Lemma sorted_middle {A} (R : relation A) l1 x l2 :
  StronglySorted R (l1 ++ x :: l2) <-> StronglySorted R (l1 ++ l2) /\ (forall y, y ∈ l1 -> R y x) /\ (forall y, y ∈ l2 -> R x y).
Proof.
  induction l1 as [|z l1 IH]; cbn.
  - split; [intros [H1 H2]%StronglySorted_inv; rewrite Forall_forall in H2; split_and!; [done|by intros ? ?%not_elem_of_nil|done]|].
    intros (H1 & _ & H2). constructor; [done|]. by apply Forall_forall.
  - split.
    + intros [[H1 [H2 H3]]%IH H4]%StronglySorted_inv. apply Forall_app in H4 as [H4 [H5 H6]%Forall_cons].
      split_and!; [constructor; [done|by apply Forall_app]|by intros y [->|Hy]%elem_of_cons; [|apply H2]|done].
    + intros ([H1 [H2 H3]%Forall_app]%StronglySorted_inv & H4 & H5). constructor.
      * apply IH. split_and!; [done|intros y Hy; apply H4; by right|done].
      * apply Forall_app. split; [done|]. constructor; [apply H4; by left|done].
Qed.

Lemma to_map_middle es1 e es2 : (forall f, f ∈ es1 -> path f ≠ path e) -> to_map (es1 ++ e :: es2) = <[path e := (node_ e, flags_ e)]> (to_map (es1 ++ es2)).
Proof.
  intros Hno. unfold to_map. rewrite !map_app, !list_to_map_app. cbn [map list_to_map foldr keyed]. symmetry. apply insert_union_r, (to_map_none es1), Hno.
Qed.

Lemma line_at_patch d pos f cur : line_at d pos f -> 0 <= cur < zlen d -> pos + zlen (line f) <= cur \/ cur < pos ->
  line_at (pyslice d 0 cur ++ NUL :: pyslice d (cur + 1) (zlen d)) pos f.
Proof.
  intros (pre & suf & -> & <-) Hc Hd. rewrite pyslice_prefix, pyslice_drop by lia. destruct Hd as [Hd|Hd].
  - set (k := (Z.to_nat cur - length pre - length (line f))%nat).
    exists pre, (take k suf ++ NUL :: drop (Z.to_nat (cur + 1)) (pre ++ line f ++ suf)). split; [|done].
    rewrite (take_app_ge pre), (take_app_ge (line f)) by (unfold zlen in *; lia). unfold k. by rewrite <- !app_assoc.
  - exists (take (Z.to_nat cur) pre ++ NUL :: drop (Z.to_nat (cur + 1)) pre), suf. split.
    + rewrite take_app_le, drop_app_le by (unfold zlen in *; lia). rewrite <- app_assoc. done.
    + unfold zlen in *. rewrite length_app, length_take. cbn [length]. rewrite length_drop. lia.
Qed.

Lemma stored_neg m pos e : stored m pos e -> pos < 0 -> (Z.to_nat (- pos - 1) < length (extradata m))%nat.
Proof. unfold stored. intros Hs Hp. rewrite decide_False in Hs by lia. by eapply lookup_lt_Some. Qed.

(** A stored entry stays when the text does and its own entry in the list does. *)
Lemma stored_data m m' pos e : stored m pos e -> data m' = data m ->
  (pos < 0 -> forall x, extradata m !! Z.to_nat (- pos - 1) = Some x -> extradata m' !! Z.to_nat (- pos - 1) = Some x) -> stored m' pos e.
Proof. unfold stored. intros Hs -> Hx. case_decide; [done|]. apply Hx; [lia|done]. Qed.

Section changes.
Implicit Types (m : purelazymanifest) (l : list (Z * entry)).

Lemma repr_split l i e : l.*2 !! Z.to_nat i = Some e -> 0 <= i -> exists l1 pos l2, l = l1 ++ (pos, e) :: l2 /\ zlen l1 = i.
Proof.
  intros He Hi. rewrite list_lookup_fmap in He. apply fmap_Some in He as ([pos e'] & Hx & [= ->]).
  exists (take (Z.to_nat i) l), pos, (drop (S (Z.to_nat i)) l). split; [by rewrite take_drop_middle|].
  apply lookup_lt_Some in Hx. unfold zlen. rewrite length_take. lia.
Qed.

Lemma positions_middle m l1 pos e l2 : repr m (l1 ++ (pos, e) :: l2) -> getitem (positions m) (zlen l1) = Ok pos.
Proof.
  intros Hm. apply getitem_lookup; [apply zlen_nonneg|]. rewrite (r_positions _ _ Hm), fmap_app. unfold zlen. rewrite Nat2Z.id.
  rewrite lookup_app_r by (by rewrite length_fmap). by rewrite length_fmap, Nat.sub_diag.
Qed.

Lemma pyslice_before (A : Type) (x y : list A) : pyslice (x ++ y) 0 (zlen x) = x.
Proof. rewrite pyslice_prefix by (rewrite zlen_app; pose proof (zlen_nonneg x); pose proof (zlen_nonneg y); lia). unfold zlen. by rewrite Nat2Z.id, take_app_length. Qed.

Lemma pyslice_after (A : Type) (x y z : list A) i : i = zlen x + zlen y -> pyslice (x ++ y ++ z) i (zlen (x ++ y ++ z)) = z.
Proof.
  intros ->. pose proof (zlen_nonneg x). pose proof (zlen_nonneg y). pose proof (zlen_nonneg z).
  rewrite pyslice_drop by (rewrite !zlen_app; lia). rewrite app_assoc. replace (Z.to_nat _) with (length (x ++ y)) by (unfold zlen; rewrite length_app; lia).
  apply drop_app_length.
Qed.

Lemma manifest_delitem_spec m l key : repr m l ->
  match delitem m key with
  | Ok m' => exists l', repr m' l' /\ is_Some (to_map (l.*2) !! key) /\ to_map (l'.*2) = delete key (to_map (l.*2))
  | Err e => e = KeyError /\ to_map (l.*2) !! key = None
  end.
Proof.
  intros Hm. unfold delitem. destruct (bsearch2_spec m l Hm key) as ([i b] & -> & Hi & Hr). cbn [rbind]. cbn in Hi, Hr. pose proof (repr_sorted m l Hm) as Hso. destruct b; cbn [negb].
  2: { split; [done|]. apply to_map_none. intros e (j & He)%list_elem_of_lookup_1 <-. destruct (Hr j e He) as [H1 H2].
       destruct (decide (Z.of_nat j < i)); [by apply (blt_irrefl (path e)), H1|by apply (blt_irrefl (path e)), H2; lia]. }
  destruct Hr as (e & He & <-). destruct (repr_split l i e He ltac:(lia)) as (l1 & pos & l2 & -> & <-). rewrite (positions_middle m l1 pos e l2 Hm). cbn [rbind].
  destruct Hm as [Hp Hx Hs Ha]. apply sorted_middle in Ha as Ha'. destruct Ha' as (Ha' & Hb1 & Hb2). apply Forall_app in Hs as [Hs1 [Hse Hs2]%Forall_cons].
  exists (l1 ++ l2). split; [split; cbn [positions extrainfo data extradata]|split].
  - rewrite Hp, !fmap_app. cbn. replace (zlen l1) with (zlen (l1.*1)) by (unfold zlen; by rewrite length_fmap). rewrite pyslice_before. f_equal.
    by apply (pyslice_after _ (l1.*1) [pos] (l2.*1)).
  - rewrite Hx, !map_app. cbn [map]. set (z := map _ l1). replace (zlen l1) with (zlen z) by (unfold zlen, z; by rewrite length_map). rewrite pyslice_before. f_equal.
    by apply (pyslice_after _ z [0]).
  - apply Forall_forall. intros [p f] Hf. cbn.
    assert (stored m p f /\ p ≠ pos /\ (0 <= p -> 0 <= pos -> p + zlen (line f) <= pos \/ pos < p)) as (Hst & Hne & Hov).
    { rewrite Forall_forall in Hs1, Hs2. apply elem_of_app in Hf as [Hf|Hf].
      - split; [by apply (Hs1 (p, f))|]. destruct (Hb1 _ Hf) as (_ & ? & Ho). split; [done|]. intros; left. by apply Ho.
      - split; [by apply (Hs2 (p, f))|]. destruct (Hb2 _ Hf) as (_ & ? & Ho). split; [done|]. intros Hp0 Hpos; right. specialize (Ho Hpos Hp0). cbn in Ho.
        unfold line, zlen in Ho. rewrite length_app in Ho. cbn in Ho. lia. }
    unfold stored in Hst |- *. case_decide as Hp0; [|done]. cbn [data]. destruct Hst as [Hl Hok]. split; [|done]. case_decide as Hpos; [|done].
    cbn in Hse. unfold stored in Hse. rewrite decide_True in Hse by done. destruct Hse as [(pre & suf & Hd & Hpre) _].
    apply line_at_patch; [done| |by apply Hov]. rewrite Hd, <- Hpre, !zlen_app. unfold line. rewrite zlen_app, zlen_cons.
    pose proof (zlen_nonneg pre). pose proof (zlen_nonneg suf). pose proof (zlen_nonneg (path e)). pose proof (zlen_nonneg (hex (node_ e) ++ flags_ e ++ [newline])). lia.
  - done.
  - rewrite to_map_elem; [by eexists|done|]. rewrite fmap_app. set_solver.
  - rewrite fmap_app in Hso. rewrite !fmap_app. cbn [fmap list_fmap snd] in Hso |- *. apply sorted_middle in Hso as (_ & Hn1 & Hn2).
    assert (forall f, f ∈ l1.*2 ++ l2.*2 -> path f ≠ path e) as Hno.
    { intros f [Hf%Hn1|Hf%Hn2]%elem_of_app Heq; unfold before in Hf; rewrite Heq in Hf; by apply blt_irrefl in Hf. }
    rewrite to_map_middle by (intros f Hf; apply Hno; set_solver). rewrite delete_insert_id; [done|]. by apply to_map_none.
Qed.

(** The position of an entry just appended. *)
Lemma stored_last ps ei d ex e : stored (LM ps ei d (ex ++ [e])) (- zlen (ex ++ [e])) e.
Proof.
  unfold stored. unfold zlen. rewrite length_app. cbn [length extradata]. rewrite decide_False by lia.
  rewrite lookup_app_r by lia. by replace (Z.to_nat _ - _)%nat with 0%nat by lia.
Qed.

Lemma appended_neg (ex : list entry) e : - zlen (ex ++ [e]) < 0.
Proof. unfold zlen. rewrite length_app. cbn. lia. Qed.

(** The node that is kept of the one that is set. *)
Definition kept_node (h : bytes) : bytes := if decide (zlen h = 22) then pyslice h 0 (-1) else h.

(** A new entry in the place of one with the same path. *)
Lemma repr_replace m m' l1 pos e l2 pos' e' :
  repr m (l1 ++ (pos, e) :: l2) -> path e' = path e ->
  positions m' = (l1 ++ (pos', e') :: l2).*1 -> extrainfo m' = extrainfo m -> data m' = data m ->
  stored m' pos' e' -> pos' < 0 ->
  (forall p f, (p, f) ∈ l1 ++ l2 -> stored m p f -> p ≠ pos -> p < 0 -> p ≠ pos' /\ extradata m' !! Z.to_nat (- p - 1) = extradata m !! Z.to_nat (- p - 1)) ->
  repr m' (l1 ++ (pos', e') :: l2) /\ to_map (l1 ++ (pos', e') :: l2).*2 = <[path e' := (node_ e', flags_ e')]> (to_map (l1 ++ (pos, e) :: l2).*2).
Proof.
  intros Hm Hpath Hp' Hx' Hd' Hse Hneg Hextra. pose proof (repr_sorted _ _ Hm) as Hso. destruct Hm as [Hp Hx Hs Ha].
  apply sorted_middle in Ha as (Ha & Hb1 & Hb2). apply Forall_app in Hs as [Hs1 [_ Hs2]%Forall_cons].
  assert (forall p f, (p, f) ∈ l1 ++ l2 -> stored m p f /\ p ≠ pos) as Hin.
  { rewrite Forall_forall in Hs1, Hs2. intros p f [Hf|Hf]%elem_of_app.
    - split; [by apply (Hs1 (p, f))|]. by destruct (Hb1 _ Hf) as (_ & ? & _).
    - split; [by apply (Hs2 (p, f))|]. destruct (Hb2 _ Hf) as (_ & ? & _). by apply not_eq_sym. }
  assert (forall p f, (p, f) ∈ l1 ++ l2 -> p ≠ pos') as Hnew.
  { intros p f Hf. destruct (Hin p f Hf) as [Hst Hne]. destruct (decide (p < 0)); [by eapply Hextra|lia]. }
  split; [split|].
  - done.
  - rewrite Hx', Hx, !map_app. done.
  - apply Forall_app. assert (Forall (fun x => stored m' x.1 x.2) (l1 ++ l2)) as [? ?]%Forall_app; [|split; [done|by constructor]].
    apply Forall_forall. intros [p f] Hf. cbn. destruct (Hin p f Hf) as [Hst Hne]. apply (stored_data m); [done..|].
    intros Hp0 x. destruct (Hextra p f Hf Hst Hne Hp0) as [_ ->]. done.
  - apply sorted_middle. split_and!; [done| |]; intros [p f] Hf; (split; [|split; [|cbn; lia]]); cbn.
    + destruct (Hb1 _ Hf) as (Hbe & _). unfold before in *. by rewrite Hpath.
    + apply (Hnew p f), elem_of_app. by left.
    + destruct (Hb2 _ Hf) as (Hbe & _). unfold before in *. by rewrite Hpath.
    + intros <-. eapply Hnew; [|done]. apply elem_of_app. right. done.
  - rewrite !fmap_app in *. cbn [fmap list_fmap snd] in *. apply sorted_middle in Hso as (_ & Hn1 & _).
    assert (forall f, f ∈ l1.*2 -> path f ≠ path e) as Hno.
    { intros f Hf%Hn1 Heq. unfold before in Hf. rewrite Heq in Hf. by apply blt_irrefl in Hf. }
    rewrite to_map_middle by (rewrite Hpath; done). rewrite (to_map_middle (l1.*2) e) by done. by rewrite Hpath, insert_insert_eq.
Qed.

(** A new entry between others. *)
Lemma repr_insert m m' l1 l2 pos' e' :
  repr m (l1 ++ l2) -> (forall f, f ∈ l1.*2 -> before f e') -> (forall f, f ∈ l2.*2 -> before e' f) ->
  positions m' = (l1 ++ (pos', e') :: l2).*1 -> extrainfo m' = map (fun _ => 0) (l1 ++ (pos', e') :: l2) -> data m' = data m ->
  stored m' pos' e' -> pos' < 0 ->
  (forall p f, (p, f) ∈ l1 ++ l2 -> stored m p f -> p < 0 -> p ≠ pos' /\ extradata m' !! Z.to_nat (- p - 1) = extradata m !! Z.to_nat (- p - 1)) ->
  repr m' (l1 ++ (pos', e') :: l2) /\ to_map (l1 ++ (pos', e') :: l2).*2 = <[path e' := (node_ e', flags_ e')]> (to_map (l1 ++ l2).*2).
Proof.
  intros [Hp Hx Hs Ha] Hb1 Hb2 Hp' Hx' Hd' Hse Hneg Hextra. rewrite Forall_forall in Hs.
  assert (forall p f, (p, f) ∈ l1 ++ l2 -> p ≠ pos') as Hnew.
  { intros p f Hf. destruct (decide (p < 0)); [|lia]. eapply Hextra; [exact Hf|by apply (Hs (p, f))|done]. }
  split; [split; [done|done| |]|].
  - apply Forall_app. assert (Forall (fun x => stored m' x.1 x.2) (l1 ++ l2)) as [? ?]%Forall_app; [|split; [done|by constructor]].
    apply Forall_forall. intros [p f] Hf. cbn. pose proof (Hs _ Hf) as Hst. cbn in Hst. apply (stored_data m); [done..|].
    intros Hp0 x. destruct (Hextra p f Hf Hst Hp0) as [_ ->]. done.
  - apply sorted_middle. split_and!; [done| |]; intros [p f] Hf; (split; [|split; [|cbn; lia]]); cbn.
    + apply Hb1. by apply (list_elem_of_fmap_2 snd) in Hf.
    + apply (Hnew p f), elem_of_app. by left.
    + apply Hb2. by apply (list_elem_of_fmap_2 snd) in Hf.
    + intros <-. eapply Hnew; [|done]. apply elem_of_app. right. done.
  - rewrite !fmap_app. cbn [fmap list_fmap snd]. apply to_map_middle. intros f Hf%Hb1 Heq. unfold before in Hf. rewrite Heq in Hf. by apply blt_irrefl in Hf.
Qed.

(** The list changes in one place, to an entry that is not in the text. *)
Definition placed (l l' : list (Z * entry)) (e : entry) : Prop :=
  exists l1 old l2 pos, l = l1 ++ old ++ l2 /\ (length old <= 1)%nat /\ l' = l1 ++ (pos, e) :: l2 /\ pos < 0.

Lemma setitem_spec m l key h flags : repr m l ->
  match setitem m key h flags with
  | Ok m' => 20 <= zlen h <= 22 /\ zlen flags <= 1 /\ exists l', (repr m' l' /\ to_map l'.*2 = <[key := (kept_node h, flags)]> (to_map l.*2)) /\
      placed l l' (key, kept_node h, flags) /\ extradata m' ≠ []
  | Err e => e = TypeError /\ ~ (20 <= zlen h <= 22 /\ zlen flags <= 1)
  end.
Proof.
  intros Hm. unfold setitem. case_decide as Hh; [split; [done|tauto]|]. fold (kept_node h). case_decide as Hf; [split; [done|lia]|].
  destruct (bsearch2_spec m l Hm key) as ([i b] & -> & Hi & Hr). cbn [rbind]. cbn in Hi, Hr. set (e' := (key, kept_node h, flags)). destruct b.
  - destruct Hr as (e & He & Hpath). destruct (repr_split l i e He ltac:(lia)) as (l1 & pos & l2 & -> & <-). rewrite (positions_middle m l1 pos e l2 Hm). cbn [rbind].
    pose proof (r_positions _ _ Hm) as Hp. pose proof (r_stored _ _ Hm) as Hst. apply Forall_app in Hst as [_ [Hse _]%Forall_cons]. cbn in Hse.
    case_decide as Hpos; (split; [done|split; [lia|]]).
    + pose proof (stored_neg _ _ _ Hse Hpos) as Hlt. exists (l1 ++ (pos, e') :: l2).
      split; [|split; [by exists l1, [(pos, e)], l2, pos|cbn [extradata]; destruct (extradata m); [cbn in Hlt; lia|by destruct (Z.to_nat (- pos - 1))]]]. apply (repr_replace m _ l1 pos e l2 pos e'); [exact Hm|done| |done|done| |done|].
      * by rewrite Hp, !fmap_app.
      * unfold stored. rewrite decide_False by lia. by apply list_lookup_insert_eq.
      * intros p f _ Hst Hne Hp0. split; [done|]. apply list_lookup_insert_ne. lia.
    + exists (l1 ++ (- zlen (extradata m ++ [e']), e') :: l2).
      split; [|split; [exists l1, [(pos, e)], l2; eexists; split_and!; [done|done|done|apply appended_neg]|by destruct (extradata m)]]. apply (repr_replace m _ l1 pos e l2 _ e'); [exact Hm|done| |done|done| | |].
      * cbn [positions]. rewrite Hp, !fmap_app. cbn. unfold zlen at 1. rewrite Nat2Z.id, insert_app_r_alt by (by rewrite length_fmap).
        by rewrite length_fmap, Nat.sub_diag.
      * apply stored_last.
      * apply appended_neg.
      * intros p f _ Hst _ Hp0. pose proof (stored_neg _ _ _ Hst Hp0). cbn [extradata]. rewrite lookup_app_l by done. split; [|done].
        unfold zlen. rewrite length_app. cbn. lia.
  - split; [done|split; [lia|]].
    assert (exists l1 l2, l = l1 ++ l2 /\ i = zlen l1) as (l1 & l2 & -> & ->).
    { exists (take (Z.to_nat i) l), (drop (Z.to_nat i) l). rewrite take_drop. split; [done|]. unfold zlen in *. rewrite length_take. rewrite length_fmap in Hi. lia. }
    exists (l1 ++ (- zlen (extradata m ++ [e']), e') :: l2). rewrite fmap_app in Hr.
    split; [|split; [exists l1, [], l2; eexists; split_and!; [done|cbn; lia|done|apply appended_neg]|by destruct (extradata m)]]. apply (repr_insert m _ l1 l2 _ e'); [done|..].
    + intros f (j & Hj)%list_elem_of_lookup_1. unfold before, e'. cbn. apply lookup_lt_Some in Hj as Hlt. rewrite length_fmap in Hlt.
      apply (Hr j f); [by apply lookup_app_l_Some|]. unfold zlen. lia.
    + intros f (j & Hj)%list_elem_of_lookup_1. unfold before, e'. cbn. apply (Hr (length l1 + j)%nat f); [|unfold zlen; lia].
      rewrite lookup_app_r by (rewrite length_fmap; lia). rewrite length_fmap. by replace (length l1 + j - length l1)%nat with j by lia.
    + cbn [positions]. rewrite (r_positions _ _ Hm), !fmap_app. cbn. replace (zlen l1) with (zlen (l1.*1)) by (unfold zlen; by rewrite length_fmap).
      rewrite pyslice_before. f_equal. f_equal. apply (pyslice_after _ (l1.*1) []). unfold zlen. cbn [length]. lia.
    + cbn [extrainfo]. rewrite (r_extra _ _ Hm), !map_app. cbn [map]. set (z := map _ l1). replace (zlen l1) with (zlen z) by (unfold zlen, z; by rewrite length_map).
      rewrite pyslice_before. f_equal. cbn [app]. f_equal. apply (pyslice_after _ z []). unfold zlen. cbn [length]. lia.
    + done.
    + apply stored_last.
    + apply appended_neg.
    + intros p f _ Hst Hp0. pose proof (stored_neg _ _ _ Hst Hp0). cbn [extradata]. rewrite lookup_app_l by done. split; [|done].
      unfold zlen. rewrite length_app. cbn. lia.
Qed.

(** ** Comparison and filtering *)

(** What [diff] reports for a file. *)
Definition diff_of (x y : option (bytes * bytes)) : option (side * side) :=
  match x, y with
  | Some v, Some w => if decide (v = w) then None else Some ((Some v.1, v.2), (Some w.1, w.2))
  | Some v, None => Some ((Some v.1, v.2), (None, []))
  | None, Some w => Some ((None, []), (Some w.1, w.2))
  | None, None => None
  end.

Lemma to_map_notin es k : k ∉ map (fun e => path e) es -> to_map es !! k = None.
Proof. intros Hni. apply to_map_none. intros e He <-. apply Hni, list_elem_of_In, in_map_iff. exists e. by rewrite <- list_elem_of_In. Qed.

Lemma to_map_cons fn n fl es k : to_map ((fn, n, fl) :: es) !! k = if decide (k = fn) then Some (n, fl) else to_map es !! k.
Proof. unfold to_map. cbn. case_decide as Hk; [by subst; rewrite lookup_insert_eq|by rewrite lookup_insert_ne]. Qed.

Lemma diff_here_spec m2 l2 es d : repr m2 l2 -> NoDup (map (fun e => path e) es) ->
  exists d', diff_here m2 es d = Ok d' /\ forall k,
    d' !! k = match to_map es !! k with Some v => match diff_of (Some v) (to_map l2.*2 !! k) with Some x => Some x | None => d !! k end | None => d !! k end.
Proof.
  intros Hm. revert d. induction es as [|[[fn e1] fl] es IH]; intros d Hnd; cbn [diff_here]; [by exists d|]. cbn in Hnd. apply NoDup_cons in Hnd as [Hni Hnd].
  rewrite (manifest_contains_spec m2 l2 Hm). cbn [rbind]. rewrite (getitem_spec m2 l2 Hm).
  pose proof (to_map_notin es fn Hni) as Hnone.
  assert (forall o d0, (forall k, k ≠ fn -> d0 !! k = d !! k) -> o = d0 !! fn -> o = match diff_of (Some (e1, fl)) (to_map l2.*2 !! fn) with Some x => Some x | None => d !! fn end ->
    exists d', diff_here m2 es d0 = Ok d' /\ forall k, d' !! k = match to_map ((fn, e1, fl) :: es) !! k with
      Some v => match diff_of (Some v) (to_map l2.*2 !! k) with Some x => Some x | None => d !! k end | None => d !! k end) as Hstep.
  { intros o d0 Hd0 Ho1 Ho2. destruct (IH d0 Hnd) as (d' & E & Hd'). exists d'. split; [done|]. intros k. rewrite Hd', to_map_cons.
    case_decide as Hk; [subst k; rewrite Hnone; congruence|]. by rewrite Hd0. }
  destruct (to_map l2.*2 !! fn) as [w|] eqn:Ew; [rewrite bool_decide_true by (by eexists)|rewrite bool_decide_false by (by intros [? ?])]; cbn [negb rbind].
  - case_decide as Hd; (eapply Hstep; [|done|]); cbn [diff_of].
    + intros k Hk. by rewrite lookup_insert_ne.
    + rewrite lookup_insert_eq, decide_False by done. done.
    + done.
    + by rewrite decide_True.
  - eapply Hstep; [intros k Hk; by rewrite lookup_insert_ne|done|]. by rewrite lookup_insert_eq.
Qed.

Lemma diff_there_spec m1 l1 es d : repr m1 l1 -> NoDup (map (fun e => path e) es) ->
  exists d', diff_there m1 es d = Ok d' /\ forall k,
    d' !! k = match to_map l1.*2 !! k, to_map es !! k with None, Some w => Some ((None, []), (Some w.1, w.2)) | _, _ => d !! k end.
Proof.
  intros Hm. revert d. induction es as [|[[fn e2] fl] es IH]; intros d Hnd; cbn [diff_there]; [exists d; split; [done|]; intros k; by destruct (to_map l1.*2 !! k)|].
  cbn in Hnd. apply NoDup_cons in Hnd as [Hni Hnd]. rewrite (manifest_contains_spec m1 l1 Hm). cbn [rbind].
  pose proof (to_map_notin es fn Hni) as Hnone.
  edestruct (IH (if negb (bool_decide (is_Some (to_map l1.*2 !! fn))) then <[fn := ((None, []), (Some e2, fl))]> d else d) Hnd) as (d' & -> & Hd').
  exists d'. split; [done|]. intros k. rewrite Hd', to_map_cons. destruct (decide (k = fn)) as [->|Hk].
  - rewrite Hnone. destruct (to_map l1.*2 !! fn) as [v|]; [rewrite bool_decide_true by (by eexists)|rewrite bool_decide_false by (by intros [? ?])]; cbn; [done|by rewrite lookup_insert_eq].
  - destruct (negb _); [by rewrite lookup_insert_ne|done].
Qed.

Lemma repr_NoDup m l : repr m l -> NoDup (map (fun e => path e) l.*2).
Proof. intros Hm. pose proof (sorted_NoDup _ (repr_sorted m l Hm)) as H. by rewrite <- list_fmap_compose in H. Qed.

Lemma diff_spec m1 l1 m2 l2 : repr m1 l1 -> repr m2 l2 ->
  exists d, diff m1 m2 = Ok d /\ forall k, d !! k = diff_of (to_map l1.*2 !! k) (to_map l2.*2 !! k).
Proof.
  intros H1 H2. unfold diff. rewrite (iterentries_spec m1 l1 H1), (iterentries_spec m2 l2 H2). cbn [rbind].
  destruct (diff_here_spec m2 l2 (l1.*2) ∅ H2 (repr_NoDup _ _ H1)) as (d & -> & Hd). cbn [rbind].
  destruct (diff_there_spec m1 l1 (l2.*2) d H1 (repr_NoDup _ _ H2)) as (d' & -> & Hd'). exists d'. split; [done|]. intros k. rewrite Hd', Hd.
  destruct (to_map l1.*2 !! k), (to_map l2.*2 !! k); cbn; try done. by case_decide.
Qed.
End changes.
End LazyManifest.
