(* ===== verification/LazyText.v ===== *)
(** * Reading and writing the text of a lazy manifest

    [findlines] finds the lines of a text, and [_compact] writes the text of what was
    set; deleting an entry leaves its line in the text. *)

From S2P Require Import Prelude Lines Struct PyEscape ManifestText LazyManifest.

Module LazyText.
Import ManifestText LazyManifest.
Notation path e := (e.1.1).
Notation node_ e := (e.1.2).
Notation flags_ e := (e.2).

Definition lines (es : list entry) : bytes := concat (map line es).

(** Where the lines start. *)
Fixpoint offsets (start : Z) (es : list entry) : list Z :=
  match es with [] => [] | e :: es => start :: offsets (start + zlen (line e)) es end.

Lemma lines_app es1 es2 : lines (es1 ++ es2) = lines es1 ++ lines es2.
Proof. unfold lines. by rewrite map_app, concat_app. Qed.

Lemma offsets_app start es1 es2 : offsets start (es1 ++ es2) = offsets start es1 ++ offsets (start + zlen (lines es1)) es2.
Proof.
  revert start. induction es1 as [|e es1 IH]; intros start; cbn; [by rewrite Z.add_0_r|]. rewrite IH. do 3 f_equal.
  unfold lines. cbn. rewrite zlen_app. lia.
Qed.

Lemma length_offsets start es : length (offsets start es) = length es.
Proof. revert start. induction es as [|e es IH]; intros start; cbn; [done|]. by rewrite IH. Qed.

Lemma zlen_line e : 1 < zlen (line e).
Proof.
  rewrite line_body, zlen_app. unfold zlen. rewrite length_app. cbn [length]. rewrite !length_app. lia.
Qed.

(** ** Loading *)

Lemma find_newline_line pre e suf : entry_ok e -> find newline (pre ++ line e ++ suf) (zlen pre) = zlen pre + zlen (line e) - 1.
Proof.
  intros He. rewrite line_body, <- (app_assoc _ [newline]). cbn [app]. rewrite find_app by (intros Hx; by apply (line_plain e _ He) in Hx).
  rewrite (zlen_app _ [newline]). change (zlen [newline]) with 1. lia.
Qed.

Lemma path_slice pre e suf : entry_ok e -> pyslice (pre ++ line e ++ suf) (zlen pre) (find NUL (pre ++ line e ++ suf) (zlen pre)) = path e.
Proof. intros He. rewrite line_find_nul by done. unfold line. rewrite <- app_assoc. by apply pyslice_mid. Qed.

Lemma findlines_loop_spec fuel pre e es ps : entry_ok e -> Forall entry_ok es -> StronglySorted before (e :: es) ->
  zlen (lines es) < Z.of_nat fuel ->
  findlines_loop fuel (pre ++ line e ++ lines es) (zlen pre + zlen (line e) - 1) (path e) ps = Ok (ps ++ offsets (zlen (pre ++ line e)) es).
Proof.
  revert pre e es ps. induction fuel as [|fuel IH]; intros pre e es ps He Hes Hs Hf; [pose proof (zlen_nonneg (lines es)); lia|]. cbn [findlines_loop].
  pose proof (zlen_line e). pose proof (zlen_nonneg pre). rewrite !zlen_app. destruct es as [|f es]; cbn [lines map concat offsets].
  - rewrite decide_False by (change (zlen []) with 0; lia). by rewrite app_nil_r.
  - inversion_clear Hes as [|? ? Hfok Hes']. apply StronglySorted_inv in Hs as [Hs [Hb _]%Forall_cons]. fold (lines es) in *. pose proof (zlen_line f).
    change (lines (f :: es)) with (line f ++ lines es) in *. rewrite zlen_app in Hf |- *. pose proof (zlen_nonneg (lines es)). rewrite decide_True by lia.
    replace (zlen pre + zlen (line e) - 1 + 1) with (zlen (pre ++ line e)) by (rewrite zlen_app; lia).
    rewrite (app_assoc pre). rewrite path_slice by done. rewrite decide_False by (by apply blt_asym). rewrite find_newline_line by done.
    rewrite IH; [|done..|lia]. rewrite <- app_assoc. cbn [app]. by rewrite !zlen_app.
Qed.

Lemma findlines_spec es : Forall entry_ok es -> StronglySorted before es -> findlines (lines es) = Ok (offsets 0 es).
Proof.
  intros Hok Hs. unfold findlines. destruct es as [|e es]; [done|]. inversion_clear Hok as [|? ? He Hes]. change (lines (e :: es)) with (line e ++ lines es).
  rewrite decide_False by (unfold line; by destruct (path e)). pose proof (zlen_line e).
  pose proof (find_newline_line [] e (lines es) He) as Hn. pose proof (path_slice [] e (lines es) He) as Hp. cbn [app] in Hn, Hp. change (zlen []) with 0 in Hn, Hp.
  rewrite Hn. rewrite decide_False.
  2: { intros [?|Hl]; [lia|]. apply Hl. destruct (decide (es = [])) as [->|Hne]; [cbn; by rewrite app_nil_r, line_body, last_snoc|].
       destruct (exists_last Hne) as (es' & f & ->). rewrite lines_app. change (lines [f]) with (line f ++ []).
       by rewrite app_nil_r, (line_body f), 2!app_assoc, last_snoc. }
  rewrite Hp. pose proof (findlines_loop_spec (S (length (line e ++ lines es))) [] e es [0] He Hes Hs) as Hloop. cbn [app] in Hloop. change (zlen []) with 0 in Hloop.
  rewrite Hloop; [done|]. unfold zlen. rewrite length_app. lia.
Qed.

(** Lines one after another. *)
Lemma offsets_apart start es : StronglySorted before es -> 0 <= start -> StronglySorted apart (zip (offsets start es) es).
Proof.
  revert start. induction es as [|e es IH]; intros start Hs H0; cbn; [constructor|]. apply StronglySorted_inv in Hs as [Hs Hle]. pose proof (zlen_line e).
  constructor; [apply IH; [done|lia]|]. apply Forall_forall. intros [p f] Hpf. rewrite Forall_forall in Hle.
  assert (start + zlen (line e) <= p /\ f ∈ es) as [Hp Hf].
  { assert (forall s, s <= s) by lia. clear -Hpf. revert Hpf. generalize (start + zlen (line e)) as s. induction es as [|g es IH]; intros s Hpf; cbn in Hpf; [by apply not_elem_of_nil in Hpf|].
    apply elem_of_cons in Hpf as [[= -> ->]|Hpf]; [split; [lia|by left]|]. apply IH in Hpf as [? ?]. pose proof (zlen_line g). split; [lia|by right]. }
  split_and!; cbn; [by apply Hle|lia|lia].
Qed.

Lemma zip_fst {A B} (x : list A) (y : list B) : length x = length y -> (zip x y).*1 = x.
Proof. intros Hl. apply fst_zip. lia. Qed.
Lemma zip_snd {A B} (x : list A) (y : list B) : length x = length y -> (zip x y).*2 = y.
Proof. intros Hl. apply snd_zip. lia. Qed.

(** A manifest whose text is that of its entries. *)
Definition fresh (es : list entry) : purelazymanifest := LM (offsets 0 es) (map (fun _ => 0) (offsets 0 es)) (lines es) [].

Lemma fresh_repr es : Forall entry_ok es -> StronglySorted before es -> repr (fresh es) (zip (offsets 0 es) es).
Proof.
  intros Hok Hs. pose proof (length_offsets 0 es) as Hl. split; cbn [fresh positions extrainfo].
  - by rewrite zip_fst.
  - rewrite <- (zip_fst (offsets 0 es) es) at 1 by done. apply map_map.
  - assert (forall pre, Forall (fun x => line_at (pre ++ lines es) x.1 x.2 /\ entry_ok x.2 /\ 0 <= x.1) (zip (offsets (zlen pre) es) es)) as H.
    { clear Hs Hl. induction es as [|e es IH]; intros pre; cbn; constructor.
      - inversion_clear Hok. split_and!; [by exists pre, (lines es)|done|apply zlen_nonneg].
      - inversion_clear Hok as [|? ? He Hes]. specialize (IH Hes (pre ++ line e)). rewrite zlen_app, <- app_assoc in IH. exact IH. }
    specialize (H []). cbn in H. eapply Forall_impl; [exact H|]. intros x (H1 & H2 & H3). unfold stored. rewrite decide_True by done. done.
  - by apply offsets_apart.
Qed.

Lemma init_spec es : Forall entry_ok es -> StronglySorted before es -> init (lines es) = Ok (fresh es).
Proof. intros Hok Hs. unfold init. by rewrite findlines_spec. Qed.

(** ** Writing *)

(** Lines of the text that follow one another in the list do so in the text. *)
Fixpoint contig (l : list (Z * entry)) : Prop :=
  match l with
  | x :: l => match l with y :: _ => 0 <= x.1 -> 0 <= y.1 -> y.1 = x.1 + zlen (line x.2) | [] => True end /\ contig l
  | [] => True
  end.

Definition head_neg (l : list (Z * entry)) : Prop := match l with x :: _ => x.1 < 0 | [] => True end.
Definition head_pos (l : list (Z * entry)) : Prop := match l with x :: _ => 0 <= x.1 | [] => True end.

Lemma line_at_slice d pos e : line_at d pos e -> slice d pos (pos + zlen (line e)) = line e /\ 0 <= pos.
Proof. intros (pre & suf & -> & <-). split; [apply slice_mid|apply zlen_nonneg]. Qed.

Lemma offsets_set (l0 : list (Z * entry)) x (l1 : list (Z * entry)) :
  <[Z.to_nat (zlen l0) := zlen (lines (l0.*2))]> (offsets 0 (l0.*2) ++ (x :: l1).*1) = offsets 0 ((l0 ++ [x]).*2) ++ l1.*1.
Proof.
  unfold zlen at 1. rewrite Nat2Z.id. assert (length l0 = length (offsets 0 l0.*2)) as -> by (by rewrite length_offsets, length_fmap).
  rewrite fmap_cons, insert_app_r_alt, Nat.sub_diag by done. cbn. rewrite fmap_app, offsets_app, <- app_assoc. done.
Qed.

Lemma getitem_offsets (l0 : list (Z * entry)) x (l1 : list (Z * entry)) i : i = zlen l0 -> getitem (offsets 0 (l0.*2) ++ (x :: l1).*1) i = Ok x.1.
Proof.
  intros ->. apply getitem_lookup; [apply zlen_nonneg|]. unfold zlen. rewrite Nat2Z.id, lookup_app_r by (by rewrite length_offsets, length_fmap).
  by rewrite length_offsets, length_fmap, Nat.sub_diag.
Qed.

Lemma zlen_offsets (l0 l1 : list (Z * entry)) : zlen (offsets 0 (l0.*2) ++ l1.*1) = zlen (l0 ++ l1).
Proof. unfold zlen. by rewrite !length_app, length_offsets, !length_fmap. Qed.

Lemma zlen_lines_snoc (l : list (Z * entry)) x : zlen (lines ((l ++ [x]).*2)) = zlen (lines (l.*2)) + zlen (line x.2).
Proof. rewrite fmap_app, lines_app, zlen_app. cbn. unfold lines. cbn. by rewrite app_nil_r. Qed.

Section compact.
Context (dat : bytes) (extra : list entry).

Lemma keep_loop_spec l1 fuel l0 x ei cl :
  contig (x :: l1) -> (forall y, y ∈ x :: l1 -> 0 <= y.1 -> line_at dat y.1 y.2) -> 0 <= x.1 -> (length l1 < fuel)%nat ->
  exists r y l2, x :: l1 = r ++ y :: l2 /\ 0 <= y.1 /\ x.1 <= y.1 /\ slice dat x.1 y.1 = lines (r.*2) /\ head_neg l2 /\
    keep_loop fuel x.1 (C (zlen l0) (zlen (lines (l0.*2))) (offsets 0 (l0.*2) ++ (x :: l1).*1) ei cl) =
    Ok (y.1, C (zlen (l0 ++ r ++ [y])) (zlen (lines ((l0 ++ r).*2))) (offsets 0 ((l0 ++ r ++ [y]).*2) ++ l2.*1) ei cl).
Proof.
  revert fuel l0 x. induction l1 as [|z l1 IH]; intros [|fuel] l0 x Hc Hat H0 Hf; cbn in Hf; try lia; cbn [keep_loop c_i c_offset c_positions c_extrainfo c_l]; rewrite offsets_set.
  - rewrite zlen_offsets, decide_True by (rewrite app_nil_r, zlen_app; done). exists [], x, []. split_and!; [done|done|lia| |done|].
    + unfold slice. by rewrite Z.sub_diag.
    + cbn [app fmap list_fmap]. rewrite !app_nil_r. by rewrite zlen_app.
  - rewrite zlen_offsets, decide_False by (rewrite !zlen_app, !zlen_cons; pose proof (zlen_nonneg l1); change (zlen []) with 0; lia).
    rewrite (getitem_offsets (l0 ++ [x])) by (by rewrite zlen_app). cbn [rbind]. destruct Hc as [Hxz Hc]. case_decide as Hz.
    + exists [], x, (z :: l1). split_and!; [done|done|lia| |done|].
      * unfold slice. by rewrite Z.sub_diag.
      * cbn [app]. rewrite !app_nil_r. by rewrite zlen_app.
    + specialize (Hxz H0 ltac:(lia)). destruct (IH fuel (l0 ++ [x]) z Hc) as (r & y & l2 & E & Hy & Hle & Hsl & Hh & Hk); [intros w Hw; apply Hat; by right|lia|lia|].
      exists (x :: r), y, l2. rewrite zlen_lines_snoc, zlen_app in Hk. change (zlen [x]) with 1 in Hk. rewrite <- !app_assoc in Hk.
      replace (zlen (lines l0.*2) + (z.1 - x.1)) with (zlen (lines l0.*2) + zlen (line x.2)) by lia. pose proof (zlen_line x.2).
      split_and!; [by rewrite E|done|lia| |done|exact Hk].
      rewrite (slice_app _ x.1 z.1 y.1) by lia. rewrite Hsl, Hxz. destruct (line_at_slice dat x.1 x.2) as [-> _]; [apply Hat; [by left|done]|]. done.
Qed.

Lemma pack_loop_spec l1 fuel l0 ei cl :
  (forall y, y ∈ l1 -> y.1 < 0 -> extra !! Z.to_nat (- y.1 - 1) = Some y.2 /\ entry_ok y.2) -> (length l1 < fuel)%nat ->
  exists r l2, l1 = r ++ l2 /\ head_pos l2 /\
    pack_loop fuel extra (C (zlen l0) (zlen (lines (l0.*2))) (offsets 0 (l0.*2) ++ l1.*1) ei cl) =
    Ok (C (zlen (l0 ++ r)) (zlen (lines ((l0 ++ r).*2))) (offsets 0 ((l0 ++ r).*2) ++ l2.*1) ei (cl ++ map line (r.*2))).
Proof.
  revert fuel l0 cl. induction l1 as [|x l1 IH]; intros [|fuel] l0 cl Hex Hf; cbn in Hf; try lia; cbn [pack_loop c_i c_offset c_positions c_extrainfo c_l]; rewrite zlen_offsets.
  - rewrite decide_False by (rewrite app_nil_r; lia). exists [], []. by rewrite !app_nil_r.
  - rewrite decide_True by (rewrite zlen_app, zlen_cons; pose proof (zlen_nonneg l1); lia). rewrite getitem_offsets by done. cbn [rbind]. case_decide as Hx.
    + destruct (Hex x) as [He Hok]; [by left|done|]. assert (getitem extra (- x.1 - 1) = Ok x.2) as -> by (apply getitem_lookup; [lia|done]). cbn [rbind].
      rewrite decide_False by (unfold zlen; rewrite (e_node _ Hok); lia). cbn [rbind]. rewrite offsets_set.
      assert (_pack x.2 = line x.2) as -> by (unfold _pack; rewrite take_ge by (by rewrite (e_node _ Hok)); done).
      destruct (IH fuel (l0 ++ [x]) (cl ++ [line x.2])) as (r & l2 & E & Hh & Hp); [intros y Hy; apply Hex; by right|lia|].
      rewrite zlen_lines_snoc, zlen_app in Hp. exists (x :: r), l2. rewrite <- !app_assoc in Hp. split_and!; [by rewrite E|done|exact Hp].
    + exists [], (x :: l1). cbn [app fmap list_fmap map]. rewrite !app_nil_r. split_and!; [done|cbn; lia|done].
Qed.

Lemma compact_loop_spec fuel l1 l0 ei cl :
  contig l1 -> (forall y, y ∈ l1 -> 0 <= y.1 -> line_at dat y.1 y.2 /\ entry_ok y.2) ->
  (forall y, y ∈ l1 -> y.1 < 0 -> extra !! Z.to_nat (- y.1 - 1) = Some y.2 /\ entry_ok y.2) ->
  (length l1 < fuel)%nat -> concat cl = lines (l0.*2) ->
  exists cs, compact_loop fuel dat extra (C (zlen l0) (zlen (lines (l0.*2))) (offsets 0 (l0.*2) ++ l1.*1) ei cl) = Ok cs /\
    c_positions cs = offsets 0 ((l0 ++ l1).*2) /\ c_extrainfo cs = ei /\ concat (c_l cs) = lines ((l0 ++ l1).*2).
Proof.
  revert l1 l0 cl. induction fuel as [|fuel IH]; intros l1 l0 cl Hc Hat Hex Hf Hcl; [lia|]. cbn [compact_loop c_i c_offset c_positions c_extrainfo c_l]. rewrite zlen_offsets.
  destruct l1 as [|x l1].
  { rewrite decide_False by (rewrite app_nil_r; lia). rewrite !app_nil_r. eexists. by split_and!. }
  cbn in Hf. rewrite decide_True by (rewrite zlen_app, zlen_cons; pose proof (zlen_nonneg l1); lia). rewrite getitem_offsets by done. cbn [rbind].
  assert (length l1 < S (length (offsets 0 (l0.*2) ++ (x :: l1).*1)))%nat as Hn by (rewrite length_app, length_fmap; cbn; lia).
  case_decide as Hx.
  - destruct (keep_loop_spec l1 _ l0 x ei cl Hc ltac:(intros; by apply Hat) Hx Hn) as (r & y & l2 & E & Hy & Hxy & Hsl & Hh & Hk). rewrite Hk. cbn [rbind c_i c_offset c_positions c_extrainfo c_l].
    destruct (Hat y) as [Hly Hyok]; [rewrite E; set_solver|done|]. assert (find newline dat y.1 = y.1 + zlen (line y.2) - 1) as ->.
    { destruct Hly as (pre & suf & -> & <-). by apply find_newline_line. }
    pose proof (zlen_line y.2). rewrite decide_True by lia. replace (y.1 + zlen (line y.2) - 1 + 1) with (y.1 + zlen (line y.2)) by lia.
    assert (pyslice dat x.1 (y.1 + zlen (line y.2)) = lines ((r ++ [y]).*2)) as ->.
    { destruct (line_at_slice _ _ _ Hly) as [Hs _]. destruct Hly as (pre & suf & Hd & Hp). unfold pyslice. rewrite !clamp_in by (rewrite Hd, !zlen_app; pose proof (zlen_nonneg suf); lia).
      rewrite (slice_app _ x.1 y.1) by lia. rewrite Hsl, Hs, fmap_app, lines_app. cbn. unfold lines. cbn. by rewrite app_nil_r. }
    replace (zlen (lines (l0 ++ r).*2) + (y.1 + zlen (line y.2) - y.1)) with (zlen (lines ((l0 ++ r ++ [y]).*2))) by (rewrite app_assoc, zlen_lines_snoc; lia).
    assert (l0 ++ x :: l1 = (l0 ++ r ++ [y]) ++ l2) as -> by (by rewrite E, <- !app_assoc).
    assert (x :: l1 = (r ++ [y]) ++ l2) as E' by (by rewrite E, <- app_assoc). apply IH.
    + rewrite E' in Hc. clear -Hc. revert Hc. generalize (r ++ [y]) as q. induction q as [|z q IHq]; [done|]. cbn. intros [_ Hq]. by apply IHq.
    + intros z Hz. apply Hat. rewrite E'. set_solver.
    + intros z Hz. apply Hex. rewrite E'. set_solver.
    + apply (f_equal length) in E'. rewrite !length_app in E'. cbn in E'. lia.
    + rewrite concat_app, Hcl. cbn. by rewrite app_nil_r, (fmap_app _ l0), lines_app.
  - destruct (pack_loop_spec (x :: l1) (S (length (offsets 0 (l0.*2) ++ (x :: l1).*1))) l0 ei cl Hex) as (r & l2 & E & Hh & Hp); [rewrite length_app, length_fmap; cbn; lia|].
    rewrite Hp. cbn [rbind]. assert (l0 ++ x :: l1 = (l0 ++ r) ++ l2) as -> by (by rewrite E, <- app_assoc). apply IH.
    + rewrite E in Hc. clear -Hc. revert Hc. induction r as [|z q IHq]; [done|]. cbn. intros [_ Hq]. by apply IHq.
    + intros z Hz. apply Hat. rewrite E. set_solver.
    + intros z Hz. apply Hex. rewrite E. set_solver.
    + destruct r as [|z r]; [cbn in E; subst l2; cbn in Hh; lia|]. apply (f_equal length) in E. rewrite length_app in E. cbn in E. lia.
    + rewrite concat_app, Hcl, fmap_app, lines_app. done.
Qed.
End compact.

(** What the text needs: no line between those of the entries, and entries that can be
    written. *)
Record tidy (m : purelazymanifest) (l : list (Z * entry)) : Prop := {
  t_contig : contig l;
  t_entries : Forall entry_ok (l.*2);
  t_text : extradata m = [] -> m = fresh (l.*2)
}.

Lemma compact_spec m l : repr m l -> tidy m l -> _compact m = Ok (fresh (l.*2)).
Proof.
  intros [Hp Hx Hs Ha] [Hc Hok Ht]. unfold _compact. case_decide as He.
  { f_equal. apply Ht. by destruct (extradata m). }
  destruct (compact_loop_spec (data m) (extradata m) (S (length (positions m))) l [] (map (fun _ => 0) (positions m)) [] Hc) as (cs & E & H1 & H2 & H3).
  - intros y Hy H0. rewrite Forall_forall in Hs. specialize (Hs y Hy). unfold stored in Hs. by rewrite decide_True in Hs.
  - intros y Hy H0. rewrite Forall_forall in Hs. specialize (Hs y Hy). unfold stored in Hs. rewrite decide_False in Hs by lia.
    split; [done|]. rewrite Forall_forall in Hok. by apply Hok, (list_elem_of_fmap_2 snd).
  - rewrite Hp, length_fmap. lia.
  - done.
  - cbn [fmap list_fmap offsets lines app] in E. change (zlen (lines [])) with 0 in E. change (zlen []) with 0 in E. rewrite <- Hp in E. rewrite E. cbn [rbind app] in *.
    rewrite H1, H2, H3. unfold fresh. do 2 f_equal. rewrite Hp. clear. change (map ?f ?l) with (f <$> l). rewrite <- list_fmap_compose.
    assert (forall z, (fun _ : Z => 0) ∘ fst <$> l = (fun _ => 0) <$> offsets z (l.*2)) as H; [|apply H].
    induction l as [|x l IH]; intros z; cbn; [done|]. f_equal. apply IH.
Qed.

Lemma contig_offsets start es : contig (zip (offsets start es) es).
Proof.
  revert start. induction es as [|e es IH]; intros start; [done|]. cbn [offsets zip_with contig]. split; [|apply IH]. by destruct es.
Qed.

Lemma fresh_tidy es : Forall entry_ok es -> tidy (fresh es) (zip (offsets 0 es) es).
Proof.
  intros Hok. split; rewrite ?zip_snd by apply length_offsets; [apply contig_offsets|done|done].
Qed.

(** ** Sequences of operations *)

Inductive op :=
  | Get (key : bytes) | Contains (key : bytes) | Set_ (key h flags : bytes) | Del (key : bytes) | Len | Entries | Keys | Text.
Inductive answer :=
  | AValue (v : bytes * bytes) | ABool (b : bool) | ADone | ALen (n : Z) | AEntries (es : list entry) | AKeys (ks : list bytes) | AText (t : bytes).

(** An operation that raises an error leaves the object as it was. *)
Definition update {S} (s : S) (r : res (answer * S)) : S * res answer :=
  match r with Ok (a, s') => (s', Ok a) | Err e => (s, Err e) end.

Definition step (o : op) (m : purelazymanifest) : purelazymanifest * res answer :=
  update m
    match o with
    | Get k => let* v := getitem_ m k in Ok (AValue v, m)
    | Contains k => let* b := contains m k in Ok (ABool b, m)
    | Set_ k h fl => let* m' := setitem m k h fl in Ok (ADone, m')
    | Del k => let* m' := delitem m k in Ok (ADone, m')
    | Len => Ok (ALen (len m), m)
    | Entries => let* es := iterentries m in Ok (AEntries es, m)
    | Keys => let* ks := iterkeys m in Ok (AKeys ks, m)
    | Text => let* (t, m') := text m in Ok (AText t, m')
    end.

(** The same on a finite map from paths to nodes and flags. *)
Definition spec_step (o : op) (M : gmap bytes (bytes * bytes)) : gmap bytes (bytes * bytes) * res answer :=
  update M
    match o with
    | Get k => match M !! k with Some v => Ok (AValue v, M) | None => Err KeyError end
    | Contains k => Ok (ABool (bool_decide (is_Some (M !! k))), M)
    | Set_ k h fl => if decide (20 <= zlen h <= 22 /\ zlen fl <= 1) then Ok (ADone, <[k := (kept_node h, fl)]> M) else Err TypeError
    | Del k => if decide (is_Some (M !! k)) then Ok (ADone, delete k M) else Err KeyError
    | Len => Ok (ALen (Z.of_nat (size M)), M)
    | Entries => Ok (AEntries (sorted_entries M), M)
    | Keys => Ok (AKeys (map (fun e => path e) (sorted_entries M)), M)
    | Text => Ok (AText (lines (sorted_entries M)), M)
    end.

Fixpoint run {S} (step : op -> S -> S * res answer) (ops : list op) (s : S) : list (res answer) :=
  match ops with [] => [] | o :: ops => let (s, a) := step o s in a :: run step ops s end.

Definition is_text (o : op) : bool := match o with Text => true | _ => false end.

Lemma step_spec o m l : repr m l -> is_text o = false ->
  exists l', repr (step o m).1 l' /\ to_map l'.*2 = (spec_step o (to_map l.*2)).1 /\ (step o m).2 = (spec_step o (to_map l.*2)).2.
Proof.
  intros Hm Ho. unfold step, spec_step. destruct o as [k|k|k h fl|k| | | |]; cbn [is_text] in Ho.
  - rewrite (getitem_spec m l Hm). exists l. by destruct (to_map l.*2 !! k).
  - rewrite (manifest_contains_spec m l Hm). by exists l.
  - pose proof (setitem_spec m l k h fl Hm) as Hs. destruct (setitem m k h fl) as [m'|e]; cbn [rbind update].
    + destruct Hs as (H1 & H2 & l' & [H3 H4] & _). rewrite decide_True by done. by exists l'.
    + destruct Hs as [-> H]. rewrite decide_False by done. by exists l.
  - pose proof (manifest_delitem_spec m l k Hm) as Hd. destruct (delitem m k) as [m'|e]; cbn [rbind update].
    + destruct Hd as (l' & H1 & H2 & H3). rewrite decide_True by done. by exists l'.
    + destruct Hd as [-> H]. rewrite decide_False by (rewrite H; by intros [? ?]). by exists l.
  - rewrite (manifest_len_spec m l Hm). by exists l.
  - rewrite (iterentries_spec m l Hm), sorted_entries_spec by (by eapply repr_sorted). by exists l.
  - rewrite (iterkeys_spec m l Hm), sorted_entries_spec by (by eapply repr_sorted). by exists l.
  - done.
Qed.

Lemma run_spec ops m l : repr m l -> Forall (fun o => is_text o = false) ops -> run step ops m = run spec_step ops (to_map l.*2).
Proof.
  revert m l. induction ops as [|o ops IH]; intros m l Hm Ho; [done|]. inversion_clear Ho as [|? ? Ho1 Ho2].
  destruct (step_spec o m l Hm Ho1) as (l' & H1 & H2 & H3). cbn [run]. destruct (step o m) as [m' a], (spec_step o (to_map l.*2)) as [M b]. cbn in H1, H2, H3.
  subst. f_equal. by apply IH.
Qed.

(** Operations after which the text is right: nothing is deleted, what is set can be
    written. *)
Definition writable (o : op) : Prop :=
  match o with Set_ k h fl => entry_ok (k, h, fl) | Del _ => False | _ => True end.

Lemma contig_app_r l1 l2 : contig (l1 ++ l2) -> contig l2.
Proof. induction l1 as [|x l1 IH]; [done|]. cbn. intros [_ H]. by apply IH. Qed.

Lemma contig_placed l1 old l2 x : contig (l1 ++ old ++ l2) -> x.1 < 0 -> contig (l1 ++ x :: l2).
Proof.
  intros Hc Hx. assert (contig l2) as H2 by (eapply (contig_app_r (l1 ++ old)); by rewrite <- app_assoc).
  revert Hc. induction l1 as [|y l1 IH]; cbn; intros Hc.
  - split; [destruct l2; [done|lia]|done].
  - destruct Hc as [Hy Hc]. split; [|by apply IH]. destruct l1; cbn; [lia|done].
Qed.

Lemma setitem_tidy m l k h fl : repr m l -> tidy m l -> entry_ok (k, h, fl) ->
  forall m' l', placed l l' (k, kept_node h, fl) -> extradata m' ≠ [] -> tidy m' l'.
Proof.
  intros Hm [Hc Hok _] He m' l' (l1 & old & l2 & pos & -> & _ & -> & Hpos) Hne. assert (kept_node h = h) as ->.
  { unfold kept_node. rewrite decide_False; [done|]. unfold zlen. pose proof (e_node _ He) as Hl. cbn in Hl. lia. }
  split; [by eapply contig_placed| |done]. rewrite !fmap_app in *. cbn. apply Forall_app in Hok as [H1 [_ H2]%Forall_app].
  apply Forall_app. split; [done|]. by constructor.
Qed.

Lemma step_tidy o m l : repr m l -> tidy m l -> writable o ->
  exists l', repr (step o m).1 l' /\ tidy (step o m).1 l' /\ to_map l'.*2 = (spec_step o (to_map l.*2)).1 /\ (step o m).2 = (spec_step o (to_map l.*2)).2.
Proof.
  intros Hm Ht Hw. destruct (decide (is_text o = true)) as [E|E].
  - destruct o; try done. unfold step, spec_step, text. rewrite (compact_spec m l Hm Ht). cbn [rbind update fst snd data fresh].
    pose proof (repr_sorted m l Hm) as Hs. pose proof (t_entries m l Ht) as Hok. exists (zip (offsets 0 l.*2) l.*2). rewrite zip_snd by apply length_offsets.
    split_and!; [by apply fresh_repr|by apply fresh_tidy|done|]. by rewrite sorted_entries_spec.
  - apply not_true_is_false in E. destruct (step_spec o m l Hm E) as (l' & H1 & H2 & H3).
    destruct o as [| |k h fl|k| | | |]; try done.
    3: { clear H1 H2 H3 l'. cbn in Hw. pose proof (setitem_spec m l k h fl Hm) as Hs. unfold step, spec_step. destruct (setitem m k h fl) as [m'|e]; cbn [rbind update].
         - destruct Hs as (H1 & H2 & l' & [H3 H4] & H5 & H6). rewrite decide_True by done. exists l'. split_and!; [done| |done|done]. by eapply (setitem_tidy m l k h fl).
         - destruct Hs as [-> H]. rewrite decide_False by done. by exists l. }
    all: exists l; rewrite H3; clear H1 H2 H3; unfold step, spec_step.
    + destruct (getitem_ m key), (to_map l.*2 !! key); done.
    + by destruct (contains m key).
    + done.
    + by destruct (iterentries m).
    + by destruct (iterkeys m).
Qed.

Lemma run_text_spec ops m l : repr m l -> tidy m l -> Forall writable ops -> run step ops m = run spec_step ops (to_map l.*2).
Proof.
  revert m l. induction ops as [|o ops IH]; intros m l Hm Ht Ho; [done|]. inversion_clear Ho as [|? ? Ho1 Ho2].
  destruct (step_tidy o m l Hm Ht Ho1) as (l' & H1 & H4 & H2 & H3). cbn [run]. destruct (step o m) as [m' a], (spec_step o (to_map l.*2)) as [M b].
  cbn in H1, H2, H3, H4. subst. f_equal. by apply IH.
Qed.

(** ** What is promised *)

(** [C38] Any sequence of lookups, membership tests, assignments, deletions, lengths and
    iterations on a manifest loaded from a text answers as on a finite map from paths to
    nodes and flags, in which iteration follows the order of the paths; the errors are
    those of the map and of the checks of the values. *)
Theorem lazymanifest_refines (es : list entry) (ops : list op) :
  Forall entry_ok es -> StronglySorted before es -> Forall (fun o => is_text o = false) ops ->
  exists m, init (lines es) = Ok m /\ run step ops m = run spec_step ops (to_map es).
Proof.
  intros Hok Hs Ho. exists (fresh es). split; [by apply init_spec|]. rewrite (run_spec ops (fresh es) (zip (offsets 0 es) es)); [|by apply fresh_repr|done].
  by rewrite zip_snd by apply length_offsets.
Qed.

(** As long as nothing is deleted, the text of a manifest is at any time that of its
    entries, line by line in the order of the paths, also after it was compacted and
    changed again; and the answers to all other operations are those of a map. *)
Theorem lazymanifest_text (es : list entry) (ops : list op) :
  Forall entry_ok es -> StronglySorted before es -> Forall writable ops ->
  exists m, init (lines es) = Ok m /\ run step ops m = run spec_step ops (to_map es).
Proof.
  intros Hok Hs Ho. exists (fresh es). split; [by apply init_spec|].
  rewrite (run_text_spec ops (fresh es) (zip (offsets 0 es) es)); [|by apply fresh_repr|by apply fresh_tidy|done].
  by rewrite zip_snd by apply length_offsets.
Qed.

(** The comparison of two manifests loaded from texts reports exactly the files that
    differ, each with node and flags on both sides. *)
Theorem lazymanifest_diff (es1 es2 : list entry) :
  Forall entry_ok es1 -> StronglySorted before es1 -> Forall entry_ok es2 -> StronglySorted before es2 ->
  exists m1 m2 d, init (lines es1) = Ok m1 /\ init (lines es2) = Ok m2 /\ diff m1 m2 = Ok d /\
    forall k, d !! k = diff_of (to_map es1 !! k) (to_map es2 !! k).
Proof.
  intros H1 H2 H3 H4. destruct (diff_spec _ _ _ _ (fresh_repr es1 H1 H2) (fresh_repr es2 H3 H4)) as (d & Hd & Hk).
  exists (fresh es1), (fresh es2), d. split_and!; [by apply init_spec|by apply init_spec|done|]. intros k. rewrite Hk. by rewrite !zip_snd by apply length_offsets.
Qed.

(** ** Examples *)

Lemma ex_ok : Forall entry_ok ex_entries.
Proof. repeat constructor; cbn; try done; set_solver. Qed.

Lemma ex_sorted : StronglySorted before ex_entries.
Proof. repeat constructor; vm_compute; done. Qed.

Lemma lazymanifest_refines_witness : exists m, init ex_text = Ok m /\
  run step [Del (bs "b"); Set_ (bs "b") (hash "4") []; Get (bs "b"); Get (bs "d"); Keys] m = run spec_step [Del (bs "b"); Set_ (bs "b") (hash "4") []; Get (bs "b"); Get (bs "d"); Keys] (to_map ex_entries).
Proof. apply (lazymanifest_refines ex_entries); [apply ex_ok|apply ex_sorted|repeat constructor]. Defined.

Lemma lazymanifest_text_witness : exists m, init ex_text = Ok m /\
  run step [Set_ (bs "bb") (hash "4") []; Text; Set_ (bs "a") (hash "5") []; Text] m = run spec_step [Set_ (bs "bb") (hash "4") []; Text; Set_ (bs "a") (hash "5") []; Text] (to_map ex_entries).
Proof.
  apply (lazymanifest_text ex_entries); [apply ex_ok|apply ex_sorted|]. repeat constructor; cbn; try done; set_solver.
Defined.

Lemma lazymanifest_diff_witness : exists m1 m2 d, init ex_text = Ok m1 /\ init (lines (take 2 ex_entries)) = Ok m2 /\ diff m1 m2 = Ok d /\
  d !! bs "c" = Some ((Some (hash "3"), []), (None, [])).
Proof.
  destruct (lazymanifest_diff ex_entries (take 2 ex_entries)) as (m1 & m2 & d & H1 & H2 & H3 & H4).
  - apply ex_ok.
  - apply ex_sorted.
  - by apply Forall_take, ex_ok.
  - repeat constructor; vm_compute; done.
  - exists m1, m2, d. split; [done|]. split; [done|]. split; [done|]. rewrite H4. vm_compute. done.
Defined.

(** A deleted entry stays in the text, its first byte overwritten. *)
Example delete_leaves_line :
  (let* m := init ex_text in let* m := delitem m (bs "b") in let* (t, _) := text m in Ok t)
  = Ok (line (bs "a", hash "1", []) ++ NUL :: drop 1 (line (bs "b", hash "2", bs "x")) ++ line (bs "c", hash "3", [])).
Proof. vm_compute. done. Qed.

(** An entry that was changed and then deleted is in the text as it was. *)
Example delete_restores_line :
  (let* m := init ex_text in let* m := setitem m (bs "b") (hash "4") [] in let* m := delitem m (bs "b") in let* (t, _) := text m in Ok t) = Ok ex_text.
Proof. vm_compute. done. Qed.

(** A node of more than 20 bytes can be set and read, but there is no text then. *)
Example long_node_no_text :
  (let* m := init ex_text in let* m := setitem m (bs "b") (hash "4" ++ bs "!") [] in let* v := getitem_ m (bs "b") in Ok v) = Ok (hash "4" ++ bs "!", []) /\
  (let* m := init ex_text in let* m := setitem m (bs "b") (hash "4" ++ bs "!") [] in let* (t, _) := text m in Ok t) = Err IndexError.
Proof. vm_compute. done. Qed.
End LazyText.
