(* ===== verification/Phases.v ===== *)
(** * Phases of changesets (phases.py)

    The boundaries between public, draft and secret changesets are kept as the roots
    of the draft and of the secret part of the graph; the phase of a revision is read
    from sets computed from the roots when they are needed.  Changesets are named by
    their revision numbers. *)

From S2P Require Import Prelude Dag RevlogGraph RevWalk ReachableRoots.

Module Phases.

Definition public : Z := 0.
Definition draft : Z := 1.
Definition secret : Z := 2.

(** A phase move as transactions track it: for a revision, the phase before (if it is
    not new) and after. *)
Definition tracking : Type := gmap Z (option Z * Z).

(** [_trackphasechange] *)
Definition _trackphasechange (data : option tracking) (rev : Z) (old : option Z) (new : Z) : option tracking :=
  match data with
  | None => None
  | Some data => Some (<[rev := (match data !! rev with Some (o, _) => o | None => old end, new)]> data)
  end.

(** [phasecache]: the roots by phase (those of the public phase are never set), whether
    they are to be written, and the sets of revisions by phase with the number of
    revisions they were computed for. *)
Record phasecache := Cache {
  phaseroots : Z -> gset Z; dirty : bool; loadedrevslen : Z; phasesets : option (gset Z * gset Z)
}.

Section repo.
Context (parentrevs : Z -> list Z) (len : Z).

(** ** The queries used *)

(** The query [x::]. *)
Definition descendants (x : gset Z) : res (gset Z) :=
  if decide (x = ∅) then Ok ∅ else let* l := RevWalk.revdescendants parentrevs len (elements x) false None None in Ok (list_to_set l).

(** The query [x::y]. *)
Definition dagrange (x : gset Z) (y : list Z) : res (gset Z) :=
  let* l := ReachableRoots.reachableroots parentrevs ∅ (elements x) y true in Ok (list_to_set l).

(** The query [roots(s)]. *)
Definition roots (s : gset Z) : gset Z := filter (fun r => Forall (fun p => ~ (0 <= p /\ p ∈ s)) (parentrevs r)) s.

(** ** Reading phases *)

(** [_computephaserevspure]; the native version computes the same sets. *)
Definition tracked_set (rs : gset Z) : res (gset Z) :=
  if decide (rs = ∅) then Ok ∅ else let* l := RevlogGraph.descendants parentrevs len (elements rs) in Ok (list_to_set l ∪ rs).

Definition computephaserevs (self : phasecache) : res phasecache :=
  let* s := tracked_set (phaseroots self secret) in
  let* d := tracked_set (phaseroots self draft) in
  Ok (Cache (phaseroots self) (dirty self) len (Some (d ∖ s, s))).

(** [loadphaserevs] *)
Definition loadphaserevs (self : phasecache) : res phasecache :=
  match phasesets self with None => computephaserevs self | Some _ => Ok self end.

(** [invalidate] *)
Definition invalidate (self : phasecache) : phasecache := Cache (phaseroots self) (dirty self) 0 None.

(** [phase] *)
Definition phase (self : phasecache) (rev : Z) : res (Z * phasecache) :=
  if decide (rev = nullrev) then Ok (public, self)
  else if decide (rev < nullrev) then Err ValueError
  else
    let* self := if decide (loadedrevslen self <= rev) then loadphaserevs (invalidate self) else Ok self in
    match phasesets self with
    | Some (d, s) => Ok (if decide (rev ∈ d) then draft else if decide (rev ∈ s) then secret else public, self)
    | None => Err TypeError
    end.

(** [[n for n in nodes if test(self.phase(n))]] *)
Fixpoint filter_phase (test : Z -> bool) (nodes : list Z) (self : phasecache) : res (list Z * phasecache) :=
  match nodes with
  | [] => Ok ([], self)
  | n :: nodes =>
      let* (p, self) := phase self n in
      let* (l, self) := filter_phase test nodes self in
      Ok (if test p then n :: l else l, self)
  end.

(** ** Moving boundaries *)

(** [_updateroots] *)
Definition _updateroots (p : Z) (newroots : gset Z) (self : phasecache) : phasecache :=
  invalidate (Cache (fun q => if decide (q = p) then newroots else phaseroots self q) true (loadedrevslen self) (phasesets self)).

(** [_retractboundary] *)
Definition _retractboundary (targetphase : Z) (nodes : list Z) (self : phasecache) : res (bool * phasecache) :=
  let oldroots := phaseroots self targetphase in
  let* (newroots, self) := filter_phase (fun p => bool_decide (p < targetphase)) nodes self in
  let* finalroots :=
    if decide (newroots = []) then Ok oldroots
    else if decide (nullrev ∈ newroots) then Err (Abort "cannot change null revision phase")
    else
      let currentroots := oldroots ∪ list_to_set newroots in
      let minnewroot := zmin_list 0 newroots in
      let aboveroots := filter (fun n => minnewroot <= n) currentroots in
      let* updated := descendants aboveroots in
      Ok (filter (fun n => n < minnewroot) currentroots ∪ roots updated) in
  if decide (finalroots ≠ oldroots) then Ok (true, _updateroots targetphase finalroots self) else Ok (false, self).

(** The revisions of a set are tracked with the phase they have. *)
Fixpoint track_phases (data : option tracking) (new : Z) (revs : list Z) (self : phasecache) : res (option tracking * phasecache) :=
  match revs with
  | [] => Ok (data, self)
  | r :: revs =>
      let* (p, self) := phase self r in
      track_phases (_trackphasechange data r (Some p) new) new revs self
  end.

(** The loop of [advanceboundary] over the phases above the target. *)
Fixpoint advance_loop (targetphase : Z) (phases : list Z) (nodes : list Z) (delroots : list Z) (data : option tracking) (self : phasecache) :
    res (list Z * option tracking * phasecache) :=
  match phases with
  | [] => Ok (delroots, data, self)
  | p :: phases =>
      let* (nodes, self) := filter_phase (fun q => bool_decide (p <= q)) nodes self in
      if decide (nodes = []) then Ok (delroots, data, self)
      else
        let olds := phaseroots self p in
        let* affected := dagrange olds nodes in
        let* (data, self) := track_phases data targetphase (elements affected) self in
        let* d := descendants olds in
        let rs := roots (d ∖ affected) in
        if decide (olds ≠ rs) then
          advance_loop targetphase phases nodes (delroots ++ elements (olds ∖ rs)) data (_updateroots p rs self)
        else advance_loop targetphase phases nodes delroots data self
  end.

(** [advanceboundary] *)
Definition advanceboundary (targetphase : Z) (nodes : list Z) (data : option tracking) (self : phasecache) : res (option tracking * phasecache) :=
  let* (delroots, data, self) := advance_loop targetphase (zrange (targetphase + 1) 3) nodes [] data self in
  if decide (targetphase ≠ 0) then
    let* (_, self) := _retractboundary targetphase delroots self in Ok (data, self)
  else Ok (data, self).

(** The loop of [retractboundary] over the phases up to the target. *)
Fixpoint retract_track (targetphase : Z) (oldroots : Z -> gset Z) (phases : list Z) (affected : gset Z) (data : option tracking) : res (gset Z * option tracking) :=
  match phases with
  | [] => Ok (affected, data)
  | p :: phases =>
      let* (revs, affected) :=
        if decide (p ≠ 0) then
          let* revs := dagrange (oldroots p) (elements affected) in Ok (revs, affected ∖ revs)
        else Ok (affected, affected) in
      retract_track targetphase oldroots phases affected (foldl (fun data r => _trackphasechange data r (Some p) targetphase) data (elements revs))
  end.

(** [retractboundary]; the second result are the revisions that were public, which
    [visibility.phaseadjust] is told about. *)
Definition retractboundary (targetphase : Z) (nodes : list Z) (data : option tracking) (self : phasecache) :
    res (option tracking * gset Z * phasecache) :=
  let oldroots := phaseroots self in
  let* (changed, self) := _retractboundary targetphase nodes self in
  if changed && bool_decide (is_Some data) then
    let new := phaseroots self targetphase in
    let* dnew := descendants new in
    let* dold := descendants (oldroots targetphase) in
    let* (affected, data) := retract_track targetphase oldroots (zrange_down targetphase (-1)) (dnew ∖ dold) data in
    Ok (data, affected, self)
  else Ok (data, ∅, self).

(** New revisions are tracked without a phase before. *)
Fixpoint track_new (data : option tracking) (nodes : list Z) (self : phasecache) : res (option tracking * phasecache) :=
  match nodes with
  | [] => Ok (data, self)
  | n :: nodes => let* (p, self) := phase self n in track_new (_trackphasechange data n None p) nodes self
  end.

(** [registernew] *)
Definition registernew (targetphase : Z) (nodes : list Z) (data : option tracking) (self : phasecache) : res (option tracking * phasecache) :=
  let* (_, self) := _retractboundary targetphase nodes self in
  if decide (is_Some data) then track_new data nodes self else Ok (data, self).

(** [filterunknown]: only revisions of the changelog are known. *)
Definition filterunknown (self : phasecache) : phasecache :=
  let known (p : Z) := filter (fun n => 0 <= n < len) (phaseroots self p) in
  let filtered := existsb (fun p => bool_decide (known p ≠ phaseroots self p)) (zrange 0 3) in
  invalidate (Cache (fun p => if decide (0 <= p < 3) then known p else phaseroots self p) (dirty self || filtered) (loadedrevslen self) (phasesets self)).

(** [updatephases]: heads of the public and of the draft phase. *)
Definition updatephases (publicheads draftheads : list Z) (data : option tracking) (self : phasecache) : res (option tracking * phasecache) :=
  let* (hs, self) := filter_phase (fun p => bool_decide (p ≠ public)) publicheads self in
  let* (data, self) := if decide (hs = []) then Ok (data, self) else advanceboundary public hs data self in
  let* (hs, self) := filter_phase (fun p => bool_decide (p ≠ draft)) draftheads self in
  if decide (hs = []) then Ok (data, self) else advanceboundary draft hs data self.
End repo.

(** ** The phase of a revision *)

Section correct.
Context (parentrevs : Z -> list Z) `{!RevDag parentrevs} (len : Z).
Hypothesis two_parents : forall r, length (parentrevs r) = 2%nat.
Hypothesis len_ok : 0 <= len < ReachableRoots.wdirrev.

#[local] Existing Instance anc_dec.

(** [r] is an element of [x] or descends from one. *)
Definition under (x : gset Z) (r : Z) : Prop := exists n, n ∈ x /\ anc parentrevs n r.

#[local] Instance under_dec x r : Decision (under x r).
Proof using RevDag0. apply (set_Exists_dec (fun n => anc parentrevs n r)). Defined.

(** What the roots say about a revision. *)
Definition phase_of (R : Z -> gset Z) (r : Z) : Z :=
  if decide (under (R secret) r) then secret else if decide (under (R draft) r) then draft else public.

Definition local (x : gset Z) : Prop := forall r, r ∈ x -> 0 <= r < len.

(** The roots are revisions, and the sets agree with them as far as they go. *)
Record cache_ok (self : phasecache) : Prop := {
  ok_draft : local (phaseroots self draft);
  ok_secret : local (phaseroots self secret);
  ok_sets : match phasesets self with
    | None => loadedrevslen self = 0
    | Some (d, s) => loadedrevslen self <= len /\ forall r, 0 <= r < loadedrevslen self ->
        (r ∈ s <-> under (phaseroots self secret) r) /\ (r ∈ d <-> under (phaseroots self draft) r /\ ~ under (phaseroots self secret) r)
    end
}.

(** The roots are the same, the sets may have been computed. *)
Definition same_roots (self self' : phasecache) : Prop := phaseroots self' = phaseroots self /\ dirty self' = dirty self.

Lemma under_mono x r r' : under x r -> anc parentrevs r r' -> under x r'.
Proof using Type. intros (n & Hn & Ha) Hr. exists n. split; [done|]. by eapply anc_trans. Qed.

Lemma under_range x r : local x -> under x r -> 0 <= r.
Proof using RevDag0. intros Hx (n & Hn%Hx & Ha%anc_le); [lia|done]. Qed.

Lemma phase_of_mono R r r' : anc parentrevs r r' -> phase_of R r <= phase_of R r'.
Proof using RevDag0.
  intros Ha. unfold phase_of. pose proof (fun x H => under_mono x r r' H Ha) as Hm.
  destruct (decide (under (R secret) r)) as [H2|H2], (decide (under (R secret) r')) as [H2'|H2'], (decide (under (R draft) r)) as [H1|H1], (decide (under (R draft) r')) as [H1'|H1'];
    unfold public, draft, secret; try lia; exfalso; auto.
Qed.

Lemma phase_of_range R r : 0 <= phase_of R r <= 2.
Proof using RevDag0. unfold phase_of, public, draft, secret. repeat case_decide; lia. Qed.

Lemma tracked_set_spec x : local x -> exists s, tracked_set parentrevs len x = Ok s /\ forall r, r < len -> r ∈ s <-> under x r.
Proof using RevDag0 two_parents len_ok.
  intros Hx. unfold tracked_set. case_decide as He; [exists ∅; split; [done|]; intros r _; subst; unfold under; set_solver|].
  destruct (RevlogGraph.descendants_spec parentrevs len (elements x)) as (l & -> & _ & Hl); [by intros ?%elements_empty_inv%leibniz_equiv|..|lia|].
  - intros r Hr%elem_of_elements%Hx. unfold nullrev. lia.
  - intros Hr%elem_of_elements%Hx. unfold nullrev in *. lia.
  - cbn [rbind]. eexists. split; [done|]. intros r Hr. rewrite elem_of_union, elem_of_list_to_set, Hl. unfold under. setoid_rewrite elem_of_elements. split.
    + intros [[_ (n & Hn & Ha%sanc_anc)]|Hin]; [by exists n|exists r; split; [done|apply anc_refl]].
    + intros (n & Hn & [->|Ha]%anc_sanc_cases); [by right|left]. split; [done|]. by exists n.
Qed.

Lemma load_spec self : cache_ok self -> exists self', loadphaserevs parentrevs len (invalidate self) = Ok self' /\ cache_ok self' /\ same_roots self self' /\
  loadedrevslen self' = len /\ is_Some (phasesets self').
Proof using RevDag0 two_parents len_ok.
  intros [H1 H2 _]. unfold loadphaserevs, invalidate. cbn [phasesets computephaserevs phaseroots]. unfold computephaserevs. cbn [phaseroots dirty].
  destruct (tracked_set_spec _ H2) as (s & -> & Hs). destruct (tracked_set_spec _ H1) as (d & -> & Hd). cbn [rbind].
  eexists. split; [done|]. split; [split; cbn; [done|done|]|split; [done|split; [done|by eexists]]]. split; [lia|].
  intros r Hr. rewrite elem_of_difference, Hs, Hd by lia. done.
Qed.

Lemma phase_spec self r : cache_ok self -> nullrev <= r < len ->
  exists self', phase parentrevs len self r = Ok (phase_of (phaseroots self) r, self') /\ cache_ok self' /\ same_roots self self'.
Proof using RevDag0 two_parents len_ok.
  intros Hok Hr. unfold phase. case_decide as Hn.
  { subst r. exists self. split; [|done]. unfold phase_of. destruct Hok as [H1 H2 _].
    rewrite !decide_False; [done| |]; intros Hu; apply under_range in Hu; try done; unfold nullrev in Hu; lia. }
  rewrite decide_False by lia.
  assert (exists self', (if decide (loadedrevslen self <= r) then loadphaserevs parentrevs len (invalidate self) else Ok self) = Ok self' /\ cache_ok self' /\ same_roots self self' /\
    r < loadedrevslen self' /\ is_Some (phasesets self')) as (self' & -> & Hok' & Hsame & Hlen & [[d s] Hsets]).
  { case_decide as Hl; [destruct (load_spec self Hok) as (self' & -> & H1 & H2 & H3 & H4); exists self'; split_and!; [done..|lia|done]|].
    exists self. split_and!; [done..|lia|]. pose proof (ok_sets _ Hok) as Hs. destruct (phasesets self); [by eexists|]. unfold nullrev in *. lia. }
  cbn [rbind]. rewrite Hsets. exists self'. split; [|done]. pose proof (ok_sets _ Hok') as Hs. rewrite Hsets in Hs. destruct Hs as [_ Hs].
  destruct Hsame as [Hroots _]. rewrite Hroots in Hs. destruct (Hs r) as [Hss Hds]; [unfold nullrev in *; lia|]. unfold phase_of.
  do 2 f_equal. repeat case_decide; try done; tauto.
Qed.

Lemma same_roots_trans a b c : same_roots a b -> same_roots b c -> same_roots a c.
Proof using Type. unfold same_roots. intros [-> ->] [-> ->]. done. Qed.

Lemma filter_phase_spec test nodes self : cache_ok self -> (forall n, n ∈ nodes -> nullrev <= n < len) ->
  exists self', filter_phase parentrevs len test nodes self = Ok (filter (fun n => test (phase_of (phaseroots self) n) = true) nodes, self') /\ cache_ok self' /\ same_roots self self'.
Proof using RevDag0 two_parents len_ok.
  revert self. induction nodes as [|n nodes IH]; intros self Hok Hn; cbn [filter_phase]; [by exists self|].
  destruct (phase_spec self n Hok) as (s1 & -> & Hok1 & Hs1); [apply Hn; by left|]. cbn [rbind].
  destruct (IH s1 Hok1) as (s2 & -> & Hok2 & Hs2); [intros x Hx; apply Hn; by right|]. cbn [rbind]. exists s2. destruct Hs1 as [Hr1 Hd1]. rewrite Hr1, filter_cons.
  split_and!; [|done|by eapply same_roots_trans; [split|]]. destruct (test _); by case_decide.
Qed.

(** ** Queries *)

Lemma descendants_local x : local x -> exists s, descendants parentrevs len x = Ok s /\ local s /\ forall r, r ∈ s <-> r < len /\ under x r.
Proof using RevDag0 two_parents len_ok.
  intros Hx. unfold descendants. case_decide as He.
  { exists ∅. split; [done|]. split; [intros r Hr; set_solver|]. intros r. subst. unfold under. set_solver. }
  destruct (RevWalk.genrevdescendants_spec parentrevs two_parents len false (elements x)) as (l & E & _ & Hl); [intros r Hr%elem_of_elements; by apply Hx|by intros ?%elements_empty_inv%leibniz_equiv|].
  cbn [RevWalk.revdescendants]. unfold RevWalk.revdescendants. rewrite E. cbn [rbind]. exists (list_to_set l).
  assert (forall r, r ∈ (list_to_set l : gset Z) <-> r < len /\ under x r) as Hs.
  { intros r. rewrite elem_of_list_to_set, Hl. unfold RevWalk.below, under. by setoid_rewrite elem_of_elements. }
  split_and!; [done| |done]. intros r [Hr Hu]%Hs. apply under_range in Hu; [lia|done].
Qed.

Lemma dagrange_local x y : local x -> (forall r, r ∈ y -> 0 <= r < len) ->
  exists s, dagrange parentrevs x y = Ok s /\ forall r, r ∈ s <-> under x r /\ exists h, h ∈ y /\ anc parentrevs r h.
Proof using RevDag0 two_parents len_ok.
  intros Hx Hy. unfold dagrange.
  destruct (ReachableRoots.reachableroots_spec parentrevs ∅ (elements x) y true) as (l & -> & _ & Hl).
  - intros r. rewrite two_parents. lia.
  - intros r [Hr%elem_of_elements%Hx|Hr%Hy]%elem_of_app; lia.
  - cbn [rbind]. eexists. split; [done|]. intros r. rewrite elem_of_list_to_set, Hl. unfold under. setoid_rewrite elem_of_elements. naive_solver.
Qed.

(** The roots of a set that is closed under descent generate it. *)
Lemma roots_generate s r : (forall x y, x ∈ s -> anc parentrevs x y -> y < len -> y ∈ s) -> local s -> r < len -> under (roots parentrevs s) r <-> r ∈ s.
Proof using RevDag0.
  intros Hclosed Hl Hr. assert (forall x, x ∈ roots parentrevs s <-> x ∈ s /\ forall p, parent parentrevs x p -> p ∉ s) as Hroots.
  { intros x. unfold roots. rewrite elem_of_filter, Forall_forall. split; intros [H1 H2].
    - split; [done|]. intros p Hp Hs. apply (H1 p); [apply Hp|]. split; [|done]. apply Hl in Hs. lia.
    - split; [|done]. intros p Hp [Hp0 Hs]. apply (H2 p); [|done]. split; [done|]. unfold nullrev. lia. }
  split.
  - intros (x & [Hx _]%Hroots & Ha). by eapply Hclosed.
  - intros Hs. remember (Z.to_nat r) as n eqn:Hn. revert r Hs Hr Hn. induction (lt_wf n) as [n _ IH]. intros r Hs Hr ->.
    destruct (decide (Exists (fun p => p ≠ nullrev /\ p ∈ s) (parentrevs r))) as [(p & Hp & Hpn & Hps)%Exists_exists|Hno].
    + assert (parent parentrevs r p) as Hpar by done. apply parent_below in Hpar as Hlt; [|done].
      destruct (IH (Z.to_nat p) ltac:(lia) p Hps ltac:(lia) eq_refl) as (x & Hx & Ha). exists x. split; [done|].
      eapply anc_trans; [exact Ha|by apply anc_parent].
    + exists r. split; [|apply anc_refl]. apply Hroots. split; [done|]. intros p [Hp Hpn] Hps. apply Hno, Exists_exists. by exists p.
Qed.

Lemma roots_local s : local s -> local (roots parentrevs s).
Proof using Type. intros Hs r [_ Hr]%elem_of_filter. by apply Hs. Qed.

(** ** Moving boundaries *)

Lemma under_union x y r : under (x ∪ y) r <-> under x r \/ under y r.
Proof using RevDag0. clear two_parents len_ok. unfold under. set_solver. Qed.

Lemma updateroots_ok p x self : cache_ok self -> p = draft \/ p = secret -> local x -> cache_ok (_updateroots p x self).
Proof using Type.
  intros [H1 H2 _] Hp Hx. split; cbn; [| |done]; case_decide; done.
Qed.

Lemma phase_of_ext R R' r : (forall q, R q = R' q) -> phase_of R r = phase_of R' r.
Proof using Type. intros H. unfold phase_of. by rewrite !H. Qed.

(** The phases that result when the part from [p] on has changed. *)
Lemma phase_of_update p x R r : p = draft \/ p = secret ->
  phase_of (fun q => if decide (q = p) then x else R q) r =
  if decide (p = secret) then if decide (under x r) then secret else if decide (under (R draft) r) then draft else public
  else if decide (under (R secret) r) then secret else if decide (under x r) then draft else public.
Proof using RevDag0. clear two_parents len_ok. intros [->| ->]; unfold phase_of; cbn; done. Qed.

Lemma phase_of_under R r : (under (R secret) r <-> phase_of R r = 2) /\ (under (R draft) r -> 1 <= phase_of R r) /\ (1 <= phase_of R r -> under (R draft) r \/ under (R secret) r).
Proof using RevDag0. clear two_parents len_ok. unfold phase_of, public, draft, secret. repeat case_decide; split_and!; try split; try done; try lia; tauto. Qed.

(** The new roots of a retraction generate what is asked for. *)
Lemma retract_roots old new : local old -> local new ->
  exists s, descendants parentrevs len (filter (fun n => zmin_list 0 (elements new) <= n) (old ∪ new)) = Ok s /\
    let final := filter (fun n => n < zmin_list 0 (elements new)) (old ∪ new) ∪ roots parentrevs s in
    local final /\ forall r, r < len -> under final r <-> under (old ∪ new) r.
Proof using RevDag0 two_parents len_ok.
  intros Ho Hn. set (m := zmin_list 0 _). assert (local (old ∪ new)) as Hc by (intros r [Hr|Hr]%elem_of_union; auto).
  destruct (descendants_local (filter (fun n => m <= n) (old ∪ new))) as (s & E & Hs & Hin); [intros r [_ Hr]%elem_of_filter; auto|].
  exists s. split; [done|]. split.
  - intros r [[_ Hr]%elem_of_filter|Hr]%elem_of_union; [auto|by apply (roots_local s)].
  - intros r Hr. rewrite under_union, roots_generate; [|intros x y [_ Hx]%Hin Ha Hy; apply Hin; split; [done|by eapply under_mono]|done|done].
    rewrite Hin. split.
    + intros [(n & [_ Hn']%elem_of_filter & Ha)|[_ (n & [_ Hn']%elem_of_filter & Ha)]]; by exists n.
    + intros (n & Hn' & Ha). destruct (decide (n < m)); [left|right; split; [done|]]; exists n; (split; [apply elem_of_filter; split; [lia|done]|done]).
Qed.

Definition retracted (R : Z -> gset Z) (t : Z) (nodes : list Z) (r : Z) : Z :=
  if decide (under (list_to_set nodes) r) then Z.max t (phase_of R r) else phase_of R r.

Lemma zmin_list_ext l1 l2 : (forall x, x ∈ l1 <-> x ∈ l2) -> l1 ≠ [] -> zmin_list 0 l1 = zmin_list 0 l2.
Proof using Type.
  intros H H1. assert (l2 ≠ []) as H2 by (intros ->; destruct l1 as [|x l1]; [done|]; by apply (not_elem_of_nil x), H; left).
  apply Z.le_antisymm; apply zmin_list_le, H, zmin_list_in; done.
Qed.

Lemma retracted_phase t R final new nodes r : t = draft \/ t = secret -> (under final r <-> under (R t) r \/ under new r) ->
  (under (list_to_set nodes) r -> under new r \/ t <= phase_of R r) -> (under new r -> under (list_to_set nodes) r) ->
  phase_of (fun q => if decide (q = t) then final else R q) r = retracted R t nodes r.
Proof using RevDag0.
  clear two_parents len_ok. intros Ht Hf Hc Hs. rewrite phase_of_update by done. unfold retracted.
  destruct Ht as [->| ->]; [rewrite decide_False by done|rewrite decide_True by done]; unfold phase_of, public, draft, secret in *;
    repeat case_decide; try done; exfalso; intuition lia.
Qed.

Lemma retractboundary_spec t nodes self : cache_ok self -> 0 <= t <= 2 -> (forall n, n ∈ nodes -> 0 <= n < len) ->
  exists b self', _retractboundary parentrevs len t nodes self = Ok (b, self') /\ cache_ok self' /\
    (forall q, q ≠ t -> phaseroots self' q = phaseroots self q) /\ (dirty self = true -> dirty self' = true) /\
    forall r, 0 <= r < len -> phase_of (phaseroots self') r = retracted (phaseroots self) t nodes r.
Proof using RevDag0 two_parents len_ok.
  intros Hok Ht Hn. unfold _retractboundary. set (R := phaseroots self) in *.
  destruct (filter_phase_spec (fun p => bool_decide (p < t)) nodes self Hok) as (s1 & -> & Hok1 & [HR1 Hd1]); [intros n Hin; specialize (Hn n Hin); unfold nullrev; lia|].
  cbn [rbind]. set (new := filter _ nodes).
  assert (forall n, n ∈ new <-> phase_of R n < t /\ n ∈ nodes) as Hnew by (intros n; unfold new; by rewrite list_elem_of_filter, bool_decide_eq_true).
  assert (forall r, under (list_to_set nodes) r -> under (list_to_set new) r \/ t <= phase_of R r) as Hcover.
  { intros r (n & Hin%elem_of_list_to_set & Ha). destruct (decide (phase_of R n < t)); [left; exists n; split; [by apply elem_of_list_to_set, Hnew|done]|right].
    pose proof (phase_of_mono R n r Ha). lia. }
  assert (forall r, under (list_to_set new) r -> under (list_to_set nodes) r) as Hsub.
  { intros r (n & [_ Hin]%elem_of_list_to_set%Hnew & Ha). exists n. split; [by apply elem_of_list_to_set|done]. }
  case_decide as He.
  { cbn [rbind]. rewrite decide_False by tauto. exists false, s1. split_and!; [done|done|by rewrite HR1|by rewrite Hd1|]. intros r Hr. rewrite HR1. unfold retracted. fold R.
    case_decide as Hu; [|done]. apply Hcover in Hu as [Hu|Hu]; [|lia]. rewrite He in Hu. destruct Hu as (n & Hn' & _). set_solver. }
  assert (t = draft \/ t = secret) as Htp.
  { destruct new as [|n l]; [done|]. assert (phase_of R n < t) by (apply (Hnew n); by left). pose proof (phase_of_range R n). unfold draft, secret. lia. }
  rewrite decide_False by (intros [_ Hin]%Hnew; apply Hn in Hin; unfold nullrev in Hin; lia).
  assert (local (list_to_set new : gset Z)) as Hln by (intros r [_ Hr]%elem_of_list_to_set%Hnew; auto).
  destruct (retract_roots (R t) (list_to_set new)) as (s & Es & Hlf & Hgen); [destruct Htp as [->| ->]; apply Hok|done|].
  assert (zmin_list 0 (elements (list_to_set new : gset Z)) = zmin_list 0 new) as Hmin.
  { symmetry. apply zmin_list_ext; [|done]. intros x. by rewrite elem_of_elements, elem_of_list_to_set. }
  rewrite Hmin in Es, Hlf, Hgen. rewrite Es. cbn [rbind]. cbn zeta in Hlf, Hgen. set (final := filter _ _ ∪ _) in *.
  assert (forall r, 0 <= r < len -> phase_of (fun q => if decide (q = t) then final else R q) r = retracted R t nodes r) as Hphase.
  { intros r Hr. apply (retracted_phase t R final (list_to_set new)); [done| |apply Hcover|apply Hsub]. rewrite <- under_union. apply Hgen. lia. }
  case_decide as Hf.
  - exists true, (_updateroots t final s1). split_and!; [done|by apply updateroots_ok| |done|].
    + intros q Hq. cbn. rewrite HR1. by rewrite decide_False.
    + intros r Hr. cbn. rewrite HR1. by apply Hphase.
  - exists false, s1. split_and!; [done|done|by rewrite HR1|by rewrite Hd1|]. intros r Hr. rewrite HR1, <- Hphase by done. fold R.
    apply phase_of_ext. intros q. case_decide; [by subst q|done].
Qed.

(** [r] is an element of [l] or an ancestor of one. *)
Definition before (l : list Z) (r : Z) : Prop := Exists (fun h => anc parentrevs r h) l.

#[local] Instance before_dec l r : Decision (before l r).
Proof using RevDag0. unfold before. apply _. Defined.

Lemma before_mono l r r' : anc parentrevs r r' -> before l r' -> before l r.
Proof using Type. intros Ha. unfold before. rewrite !Exists_exists. intros (h & Hh & Hr). exists h. split; [done|by eapply anc_trans]. Qed.

Lemma before_lt l r : (forall n, n ∈ l -> n < len) -> before l r -> 0 <= r -> r < len.
Proof using RevDag0.
  clear two_parents len_ok. unfold before. rewrite Exists_exists. intros Hl (h & Hh%Hl & Ha) Hr. apply anc_le in Ha; [lia|done].
Qed.

(** ** Tracked moves *)

(** The moves of the revisions of [Q] to [t] are tracked, the first phase seen before
    is kept, and the other revisions are as they were. *)
Definition tracked_by (Q : Z -> Prop) (R : Z -> gset Z) (t : Z) (data data' : option tracking) : Prop :=
  match data, data' with
  | None, None => True
  | Some d, Some d' => forall r,
      (Q r -> d' !! r = Some (match d !! r with Some (o, _) => o | None => Some (phase_of R r) end, t)) /\ (~ Q r -> d' !! r = d !! r)
  | _, _ => False
  end.

Lemma tracked_none (Q : Z -> Prop) R t data : (forall r, ~ Q r) -> tracked_by Q R t data data.
Proof using Type. clear len_ok two_parents. intros H. destruct data as [d|]; [|done]. intros r. split; [by intros ?%H|done]. Qed.

Lemma tracked_compose (Q1 Q2 Q : Z -> Prop) `{!forall r, Decision (Q1 r), !forall r, Decision (Q2 r)} R1 R2 t d0 d1 d2 : tracked_by Q1 R1 t d0 d1 -> tracked_by Q2 R2 t d1 d2 ->
  (forall r, Q2 r -> phase_of R2 r = phase_of R1 r) -> (forall r, Q r <-> Q1 r \/ Q2 r) -> tracked_by Q R1 t d0 d2.
Proof using Type.
  clear len_ok two_parents. intros H1 H2 HR HQ. destruct d0 as [d0|], d1 as [d1|], d2 as [d2|]; try done. intros r. destruct (H1 r) as [A1 A2], (H2 r) as [B1 B2]. rewrite HQ.
  destruct (decide (Q1 r)) as [Hq|Hq].
  - rewrite (A1 Hq) in B1, B2. split; [intros _|tauto]. destruct (decide (Q2 r)) as [Hq2|Hq2]; [by apply B1|by apply B2].
  - rewrite (A2 Hq) in B1, B2. split; [intros [?|Hq2]; [done|]; by rewrite <- HR, B1|]. intros Hn. apply B2. tauto.
Qed.

Lemma trackphasechange_by data r R t : tracked_by (fun x => x = r) R t data (_trackphasechange data r (Some (phase_of R r)) t).
Proof using Type.
  clear len_ok two_parents. destruct data as [d|]; [|done]. intros x. simpl. unfold tracking in *. split; [intros ->; by apply lookup_insert_eq|intros Hx; by apply lookup_insert_ne].
Qed.

Lemma track_phases_spec t revs data self : cache_ok self -> (forall r, r ∈ revs -> nullrev <= r < len) ->
  exists data' self', track_phases parentrevs len data t revs self = Ok (data', self') /\ cache_ok self' /\ same_roots self self' /\
    tracked_by (fun r => r ∈ revs) (phaseroots self) t data data'.
Proof using RevDag0 two_parents len_ok.
  revert data self. induction revs as [|r revs IH]; intros data self Hok Hr; cbn [track_phases].
  { exists data, self. split_and!; [done..|]. apply tracked_none. intros r. apply not_elem_of_nil. }
  destruct (phase_spec self r Hok) as (s1 & -> & Hok1 & Hs1); [apply Hr; by left|]. cbn [rbind].
  destruct (IH (_trackphasechange data r (Some (phase_of (phaseroots self) r)) t) s1 Hok1) as (d2 & s2 & -> & Hok2 & Hs2 & Ht); [intros x Hx; apply Hr; by right|].
  exists d2, s2. split_and!; [done..|by eapply same_roots_trans|]. destruct Hs1 as [HR1 _].
  refine (tracked_compose (fun x => x = r) (fun x => x ∈ revs) _ _ _ _ _ _ _ (trackphasechange_by data r (phaseroots self) t) Ht _ _); [by rewrite HR1|].
  intros x. by rewrite elem_of_cons.
Qed.

(** ** Advancing *)

Lemma advance_loop_nil t phases del data self : advance_loop parentrevs len t phases [] del data self = Ok (del, data, self).
Proof using Type. by destruct phases. Qed.

(** The revisions of a phase that are not advanced: the new roots generate them. *)
Lemma advance_roots olds nodes : local olds -> (forall n, n ∈ nodes -> 0 <= n < len) ->
  exists aff d, dagrange parentrevs olds nodes = Ok aff /\ descendants parentrevs len olds = Ok d /\ (forall r, r ∈ aff <-> under olds r /\ before nodes r) /\
    local (roots parentrevs (d ∖ aff)) /\ forall r, r < len -> under (roots parentrevs (d ∖ aff)) r <-> under olds r /\ ~ before nodes r.
Proof using RevDag0 two_parents len_ok.
  intros Ho Hn. destruct (dagrange_local olds nodes Ho Hn) as (aff & E1 & Ha). destruct (descendants_local olds Ho) as (d & E2 & Hd & Hin).
  assert (forall r, r ∈ aff <-> under olds r /\ before nodes r) as Haff by (intros r; by rewrite Ha, <- Exists_exists). clear Ha.
  assert (local (d ∖ aff)) as Hl by (intros r [Hr _]%elem_of_difference; by apply Hd).
  exists aff, d. split_and!; [done..|by apply roots_local|]. intros r Hr. rewrite roots_generate; [|intros x y Hx Hxy Hy; revert Hx|done|done].
  - rewrite elem_of_difference, Hin, Haff. clear -Hr. tauto.
  - rewrite !elem_of_difference, !Hin, !Haff. intros [[_ Hu] Hb]. pose proof (under_mono olds x y Hu Hxy) as Huy. split; [done|]. intros [_ Hby].
    apply Hb. split; [done|]. by eapply before_mono.
Qed.

Lemma before_filter p R nodes r : p <= phase_of R r -> before nodes r -> before (filter (fun n => p <= phase_of R n) nodes) r.
Proof using RevDag0.
  clear two_parents len_ok. intros Hp. unfold before. rewrite !Exists_exists. intros (h & Hh & Ha). exists h. split; [|done].
  apply list_elem_of_filter. split; [|done]. pose proof (phase_of_mono R r h Ha). lia.
Qed.

Lemma before_filtered (P : Z -> Prop) `{!forall n, Decision (P n)} nodes r : before (filter P nodes) r -> before nodes r.
Proof using Type. unfold before. rewrite !Exists_exists. intros (h & [_ Hh]%list_elem_of_filter & Ha). by exists h. Qed.

Lemma tracked_ext (Q Q' : Z -> Prop) R t data data' : (forall r, Q r <-> Q' r) -> tracked_by Q R t data data' -> tracked_by Q' R t data data'.
Proof using Type. clear len_ok two_parents. intros HQ. destruct data, data'; try done. intros H r. rewrite <- HQ. apply H. Qed.

(** What one phase of [advanceboundary] does for the nodes that are not below it: the
    roots of the phase generate the revisions that are not an ancestor of a node, the
    roots that were dropped generate the revisions that leave, and these are tracked. *)
Record advanced (p t : Z) (R : Z -> gset Z) (nodes del : list Z) (data data' : option tracking) (self' : phasecache) : Prop := {
  adv_ok : cache_ok self';
  adv_other : forall q, q ≠ p -> phaseroots self' q = R q;
  adv_roots : forall r, r < len -> under (phaseroots self' p) r <-> under (R p) r /\ ~ before nodes r;
  adv_del : forall n, n ∈ del -> n ∈ R p;
  adv_del_under : forall r, r < len -> under (R p) r -> before nodes r -> under (list_to_set del) r;
  adv_tracked : tracked_by (fun r => under (R p) r /\ before nodes r) R t data data'
}.

Lemma advanced_none p t R data self' : cache_ok self' -> phaseroots self' = R -> advanced p t R [] [] data data self'.
Proof using RevDag0.
  clear two_parents len_ok. intros Hok <-. assert (forall r, ~ before [] r) as Hb by (intros r Hr; by apply Exists_nil in Hr). split; [done|done| |by intros n ?%not_elem_of_nil| |].
  - intros r _. split; [by intros Hu; split|by intros []].
  - by intros r _ _ ?%Hb.
  - apply tracked_none. by intros r [_ ?%Hb].
Qed.

Lemma phase_below_node p R (nodes : list Z) n : p = draft \/ p = secret -> (forall q, q = draft \/ q = secret -> local (R q)) -> (forall n, n ∈ nodes -> nullrev <= n < len) ->
  n ∈ filter (fun n => p <= phase_of R n) nodes -> 0 <= n < len.
Proof using RevDag0.
  clear two_parents len_ok. intros Hp Hl Hn [Hpn Hin%Hn]%list_elem_of_filter. destruct (phase_of_under R n) as (_ & _ & Hu).
  destruct Hu as [Hu|Hu]; [destruct Hp as [->| ->]; unfold draft, secret in *; lia|..]; (apply under_range in Hu; [lia|apply Hl; auto]).
Qed.

Lemma advance_some p t R nodes data s1 s2 aff d data' : cache_ok s2 -> phaseroots s1 = R -> phaseroots s2 = R -> p = draft \/ p = secret -> local (R p) ->
  (forall r, r ∈ aff <-> under (R p) r /\ before nodes r) -> let rs := roots parentrevs (d ∖ aff) in local rs ->
  (forall r, r < len -> under rs r <-> under (R p) r /\ ~ before nodes r) -> tracked_by (fun r => r ∈ elements aff) (phaseroots s1) t data data' ->
  advanced p t R nodes (elements (R p ∖ rs)) data data' (if decide (R p ≠ rs) then _updateroots p rs s2 else s2).
Proof using RevDag0.
  clear two_parents len_ok. intros Hok2 HR1 HR2 Hp Hlp Haff rs Hlr Hroots Htr.
  assert (forall q, phaseroots (if decide (R p ≠ rs) then _updateroots p rs s2 else s2) q = if decide (q = p) then rs else R q) as Hnew.
  { intros q. case_decide as Hd; [cbn; by rewrite HR2|]. rewrite HR2. case_decide; [by subst q|done]. }
  split.
  - case_decide; [by apply updateroots_ok|done].
  - intros q Hq. rewrite Hnew. by rewrite decide_False.
  - intros r Hr. rewrite Hnew, decide_True by done. by apply Hroots.
  - by intros n [Hn1 _]%elem_of_elements%elem_of_difference.
  - intros r Hr (o & Ho & Ha) Hb. exists o. split; [|done]. rewrite elem_of_list_to_set, elem_of_elements, elem_of_difference. split; [done|]. intros Hrs.
    destruct (proj1 (Hroots o (proj2 (Hlp o Ho)))) as [_ Hno]; [exists o; split; [done|apply anc_refl]|]. apply Hno. by eapply before_mono.
  - rewrite HR1 in Htr. eapply tracked_ext; [|exact Htr]. intros r. cbn. by rewrite elem_of_elements, Haff.
Qed.

(** One phase of [advanceboundary]. *)
Lemma advance_step p t nodes data self : cache_ok self -> p = draft \/ p = secret -> (forall n, n ∈ nodes -> nullrev <= n < len) ->
  let nodes' := filter (fun n => p <= phase_of (phaseroots self) n) nodes in
  exists del data' self', advanced p t (phaseroots self) nodes' del data data' self' /\
    forall phases delroots, advance_loop parentrevs len t (p :: phases) nodes delroots data self = advance_loop parentrevs len t phases nodes' (delroots ++ del) data' self'.
Proof using RevDag0 two_parents len_ok.
  intros Hok Hp Hn nodes'. set (R := phaseroots self) in *. destruct (filter_phase_spec (fun q => bool_decide (p <= q)) nodes self Hok Hn) as (s1 & E1 & Hok1 & [HR1 Hd1]).
  assert (filter (fun n => bool_decide (p <= phase_of (phaseroots self) n) = true) nodes = nodes') as Hfil.
  { unfold nodes'. apply list_filter_iff. intros n. apply bool_decide_eq_true. }
  rewrite Hfil in E1. clear Hfil. destruct (decide (nodes' = [])) as [He|He].
  { exists [], data, s1. rewrite He. split; [by apply advanced_none|]. intros phases delroots. cbn [advance_loop]. rewrite E1. cbn [rbind].
    rewrite decide_True, app_nil_r by done. by rewrite advance_loop_nil. }
  assert (forall q, q = draft \/ q = secret -> local (R q)) as Hlq by (intros q [->| ->]; apply Hok). assert (local (R p)) as Hlp by auto.
  assert (forall n, n ∈ nodes' -> 0 <= n < len) as Hn' by (intros n; by apply phase_below_node).
  destruct (advance_roots (R p) nodes' Hlp Hn') as (aff & d & E2 & E3 & Haff & Hlr & Hroots).
  destruct (track_phases_spec t (elements aff) data s1 Hok1) as (data' & s2 & E4 & Hok2 & [HR2 Hd2] & Htr).
  { intros r [Hu Hb]%elem_of_elements%Haff. apply under_range in Hu; [|done]. apply before_lt in Hb; [unfold nullrev; lia|apply Hn'|done]. }
  assert (HR2' : phaseroots s2 = R) by (by rewrite HR2, HR1).
  eexists _, data', _. split; [eapply (advance_some p t R nodes' data s1 s2 aff d data'); done|].
  intros phases delroots. cbn [advance_loop]. rewrite E1. cbn [rbind]. rewrite decide_False by done. rewrite HR1. fold R. rewrite E2. cbn [rbind]. rewrite E4. cbn [rbind].
  rewrite E3. cbn [rbind]. case_decide as Hd; [done|]. rewrite <- Hd, difference_diag_L, elements_empty, app_nil_r. done.
Qed.

Lemma leaves p R nodes r : p <= phase_of R r -> before (filter (fun n => p <= phase_of R n) nodes) r <-> before nodes r.
Proof using RevDag0. intros Hp. split; [apply before_filtered|by apply before_filter]. Qed.

(** The phase a revision has after [nodes] were advanced to [t]. *)
Definition lowered (R : Z -> gset Z) (t : Z) (nodes : list Z) (r : Z) : Z :=
  if decide (before nodes r) then Z.min t (phase_of R r) else phase_of R r.

Lemma under_phase p R r : p = draft \/ p = secret -> under (R p) r -> p <= phase_of R r.
Proof using Type.
  clear two_parents len_ok. intros [->| ->] Hu; unfold phase_of, public, draft, secret; repeat case_decide; try lia; done.
Qed.

(** The revisions that stay in a phase, and those that the dropped roots generate. *)
Lemma advanced_under p t R nodes del data data' self' r : p = draft \/ p = secret -> r < len ->
  advanced p t R (filter (fun n => p <= phase_of R n) nodes) del data data' self' ->
  (under (phaseroots self' p) r <-> under (R p) r /\ ~ before nodes r) /\ (under (R p) r -> before nodes r -> under (list_to_set del) r).
Proof using RevDag0.
  clear two_parents len_ok. intros Hp Hr A. pose proof (adv_roots _ _ _ _ _ _ _ _ A r Hr) as Hs. pose proof (adv_del_under _ _ _ _ _ _ _ _ A r Hr) as Hd.
  pose proof (under_phase p R r Hp) as Hu. pose proof (leaves p R nodes r) as Hl. split; [rewrite Hs|]; tauto.
Qed.

Lemma lowered_public R R' nodes r : (under (R' secret) r <-> under (R secret) r /\ ~ before nodes r) -> (under (R' draft) r <-> under (R draft) r /\ ~ before nodes r) ->
  phase_of R' r = lowered R public nodes r.
Proof using RevDag0.
  clear two_parents len_ok. intros H2 H1. unfold lowered, phase_of, public, draft, secret in *. repeat case_decide; try lia; exfalso; tauto.
Qed.

Lemma advance_public nodes data self : cache_ok self -> (forall n, n ∈ nodes -> nullrev <= n < len) ->
  exists data' self', advanceboundary parentrevs len public nodes data self = Ok (data', self') /\ cache_ok self' /\
    (forall r, 0 <= r < len -> phase_of (phaseroots self') r = lowered (phaseroots self) public nodes r) /\
    tracked_by (fun r => public < phase_of (phaseroots self) r /\ before nodes r) (phaseroots self) public data data'.
Proof using RevDag0 two_parents len_ok.
  intros Hok Hn. set (R := phaseroots self) in *. destruct (advance_step draft public nodes data self Hok ltac:(by left) Hn) as (del1 & d1 & s1 & A1 & E1). fold R in A1, E1.
  set (n1 := filter _ nodes) in *. assert (forall n, n ∈ n1 -> nullrev <= n < len) as Hn1 by (intros n [_ Hin]%list_elem_of_filter; auto).
  destruct (advance_step secret public n1 d1 s1 (adv_ok _ _ _ _ _ _ _ _ A1) ltac:(by right) Hn1) as (del2 & d2 & s2 & A2 & E2).
  exists d2, s2. unfold advanceboundary. change (zrange (public + 1) 3) with [draft; secret]. rewrite E1, E2. cbn [advance_loop rbind]. rewrite decide_False by (intros H; by apply H).
  pose proof (adv_other _ _ _ _ _ _ _ _ A1 secret ltac:(done)) as HS. pose proof (adv_other _ _ _ _ _ _ _ _ A2 draft ltac:(done)) as HD.
  assert (forall r, under (R secret) r -> before n1 r <-> before nodes r) as Hb.
  { intros r Hu. apply leaves. pose proof (under_phase secret R r ltac:(by right) Hu). unfold secret, draft in *. lia. }
  split_and!; [done|apply A2|..].
  - intros r Hr. apply lowered_public.
    + rewrite (proj1 (advanced_under _ _ _ _ _ _ _ _ r ltac:(by right) ltac:(lia) A2)), HS. clear -Hb. naive_solver.
    + rewrite HD. apply (advanced_under _ _ _ _ _ _ _ _ r ltac:(by left) ltac:(lia) A1).
  - refine (tracked_compose _ _ _ _ _ _ _ _ _ (adv_tracked _ _ _ _ _ _ _ _ A1) (adv_tracked _ _ _ _ _ _ _ _ A2) _ _).
    + intros r [Hu _]. rewrite HS in Hu. unfold phase_of. rewrite HS. by rewrite !decide_True.
    + intros r. pose proof (leaves draft R nodes r) as Hl1. pose proof (leaves secret (phaseroots s1) n1 r) as Hl2. specialize (Hb r).
      pose proof (under_phase draft R r ltac:(by left)) as U1. pose proof (under_phase secret (phaseroots s1) r ltac:(by right)) as U2. rewrite HS in U2 |- *. fold n1 in Hl1.
      destruct (phase_of_under R r) as (P2 & P1 & P0). clear -Hl1 Hl2 Hb U1 U2 P2 P1 P0. unfold public, draft, secret in *.
      assert (0 < phase_of R r <-> 1 <= phase_of R r) as -> by lia. assert (phase_of R r = 2 -> 1 <= phase_of R r) by lia. tauto.
Qed.

Lemma lowered_draft R R1 R2 del nodes r : R1 draft = R draft -> (under (R1 secret) r <-> under (R secret) r /\ ~ before nodes r) ->
  (under (R secret) r -> before nodes r -> under (list_to_set del) r) -> (under (list_to_set del) r -> under (R secret) r) ->
  phase_of R2 r = retracted R1 draft del r -> phase_of R2 r = lowered R draft nodes r.
Proof using RevDag0 len.
  clear two_parents len_ok. intros HD HS Hdel Hsub ->. unfold retracted, lowered, phase_of, public, draft, secret in *. rewrite HD. repeat case_decide; try lia; exfalso; tauto.
Qed.

Lemma advance_draft nodes data self : cache_ok self -> (forall n, n ∈ nodes -> nullrev <= n < len) ->
  exists data' self', advanceboundary parentrevs len draft nodes data self = Ok (data', self') /\ cache_ok self' /\
    (forall r, 0 <= r < len -> phase_of (phaseroots self') r = lowered (phaseroots self) draft nodes r) /\
    tracked_by (fun r => draft < phase_of (phaseroots self) r /\ before nodes r) (phaseroots self) draft data data'.
Proof using RevDag0 two_parents len_ok.
  intros Hok Hn. set (R := phaseroots self) in *. destruct (advance_step secret draft nodes data self Hok ltac:(by right) Hn) as (del & d1 & s1 & A1 & E1). fold R in A1, E1.
  assert (local (R secret)) as Hls by apply Hok. pose proof (adv_del _ _ _ _ _ _ _ _ A1) as Hdel.
  destruct (retractboundary_spec draft del s1 (adv_ok _ _ _ _ _ _ _ _ A1)) as (b & s2 & E2 & Hok2 & _ & _ & Hph); [unfold draft; lia|intros n Hin%Hdel; by apply Hls|].
  exists d1, s2. unfold advanceboundary. change (zrange (draft + 1) 3) with [secret]. rewrite E1. cbn [advance_loop rbind app]. rewrite decide_True by done. rewrite E2. cbn [rbind].
  split_and!; [done|done|..].
  - intros r Hr. destruct (advanced_under _ _ _ _ _ _ _ _ r ltac:(by right) ltac:(lia) A1) as [H1 H2].
    apply (lowered_draft R (phaseroots s1) (phaseroots s2) del); [apply (adv_other _ _ _ _ _ _ _ _ A1); done|done|done| |by apply Hph].
    intros (n & Hin%elem_of_list_to_set%Hdel & Ha). by exists n.
  - eapply tracked_ext; [|apply (adv_tracked _ _ _ _ _ _ _ _ A1)]. intros r. cbn. pose proof (leaves secret R nodes r) as Hl. destruct (phase_of_under R r) as (P2 & _ & _).
    pose proof (phase_of_range R r). clear -Hl P2 H. unfold draft, secret in *. assert (1 < phase_of R r <-> phase_of R r = 2) as -> by lia. rewrite <- P2. split; intros [Hu Hb].
    + split; [done|]. apply Hl; [|done]. apply P2 in Hu. lia.
    + split; [done|]. apply Hl; [|done]. apply P2 in Hu. lia.
Qed.

Lemma advanceboundary_spec t nodes data self : cache_ok self -> 0 <= t <= 2 -> (forall n, n ∈ nodes -> nullrev <= n < len) ->
  exists data' self', advanceboundary parentrevs len t nodes data self = Ok (data', self') /\ cache_ok self' /\
    (forall r, 0 <= r < len -> phase_of (phaseroots self') r = lowered (phaseroots self) t nodes r) /\
    tracked_by (fun r => t < phase_of (phaseroots self) r /\ before nodes r) (phaseroots self) t data data'.
Proof using RevDag0 two_parents len_ok.
  intros Hok Ht Hn. assert (t = public \/ t = draft \/ t = secret) as [->|[->| ->]] by (unfold public, draft, secret; lia); [by apply advance_public|by apply advance_draft|].
  unfold advanceboundary. change (zrange (secret + 1) 3) with (@nil Z). cbn [advance_loop rbind]. rewrite decide_True by done.
  destruct (retractboundary_spec secret [] self Hok) as (b & s2 & E2 & Hok2 & _ & _ & Hph); [unfold secret; lia|by intros n ?%not_elem_of_nil|].
  exists data, s2. rewrite E2. split_and!; [done|done|..].
  - intros r Hr. rewrite Hph by done. unfold retracted, lowered. pose proof (phase_of_range (phaseroots self) r). rewrite decide_False by (intros (n & Hin & _); set_solver).
    unfold secret. case_decide; lia.
  - apply tracked_none. intros r [Hr _]. pose proof (phase_of_range (phaseroots self) r). unfold secret in Hr. lia.
Qed.

(** ** Retracting with tracked moves *)

Lemma dagrange_ok x (y : gset Z) : local x -> local y -> exists s, dagrange parentrevs x (elements y) = Ok s.
Proof using RevDag0 two_parents len_ok.
  intros Hx Hy. destruct (dagrange_local x (elements y) Hx) as (s & -> & _); [intros r Hr%elem_of_elements; auto|by exists s].
Qed.

Lemma retract_track_ok t R phases aff data : (forall p, p ∈ phases -> p ≠ 0 -> local (R p)) -> local aff ->
  exists aff' data', retract_track parentrevs t R phases aff data = Ok (aff', data') /\ aff' ⊆ aff /\ (data = None -> data' = None).
Proof using RevDag0 two_parents len_ok.
  revert aff data. induction phases as [|p phases IH]; intros aff data HR Ha; cbn [retract_track]; [by exists aff, data|].
  assert (exists revs aff1, (if decide (p ≠ 0) then let* revs := dagrange parentrevs (R p) (elements aff) in Ok (revs, aff ∖ revs) else Ok (aff, aff)) = Ok (revs, aff1) /\ aff1 ⊆ aff)
    as (revs & aff1 & -> & Hsub).
  { case_decide as Hp; [|by exists aff, aff]. destruct (dagrange_ok (R p) aff) as (revs & ->); [apply HR; [by left|done]|done|]. cbn [rbind]. exists revs, (aff ∖ revs). split; [done|set_solver]. }
  cbn [rbind]. destruct (IH aff1 (foldl (fun data r => _trackphasechange data r (Some p) t) data (elements revs))) as (aff' & data' & -> & Hs & Hd).
  - intros q Hq. apply HR. by right.
  - intros r Hr%Hsub. by apply Ha.
  - exists aff', data'. split; [done|]. split; [set_solver|]. intros ->. apply Hd. clear. by induction (elements revs).
Qed.

Lemma filter_public_none R nodes : filter (fun n => bool_decide (phase_of R n < 0) = true) nodes = [].
Proof using Type.
  clear two_parents len_ok. induction nodes as [|n nodes IH]; [done|]. rewrite filter_cons_False; [done|]. rewrite bool_decide_eq_true.
  unfold phase_of, public, draft, secret. repeat case_decide; lia.
Qed.

Lemma retractboundary_full_spec t nodes data self : cache_ok self -> 0 <= t <= 2 -> (forall n, n ∈ nodes -> 0 <= n < len) ->
  exists data' affected self', retractboundary parentrevs len t nodes data self = Ok (data', affected, self') /\ cache_ok self' /\ (data = None -> data' = None) /\
    forall r, 0 <= r < len -> phase_of (phaseroots self') r = retracted (phaseroots self) t nodes r.
Proof using RevDag0 two_parents len_ok.
  intros Hok Ht Hn. unfold retractboundary. destruct (retractboundary_spec t nodes self Hok Ht Hn) as (b & s1 & E & Hok1 & Ho & _ & Hph). rewrite E. cbn [rbind].
  destruct (b && bool_decide (is_Some data)) eqn:Hb; [|by exists data, ∅, s1].
  apply andb_true_iff in Hb as [-> _]. assert (t = draft \/ t = secret) as Htp.
  { destruct (decide (t = 0)) as [->|]; [|unfold draft, secret; lia]. unfold _retractboundary in E.
    destruct (filter_phase_spec (fun p => bool_decide (p < 0)) nodes self Hok) as (s & E1 & _); [intros n Hin; specialize (Hn n Hin); unfold nullrev; lia|]. rewrite E1 in E. cbn [rbind] in E.
    rewrite decide_True in E by (apply filter_public_none).
    cbn [rbind] in E. rewrite decide_False in E by tauto. done. }
  assert (local (phaseroots s1 t) /\ local (phaseroots self t)) as [L1 L0] by (destruct Htp as [->| ->]; split; (apply Hok || apply Hok1)).
  destruct (descendants_local _ L1) as (dn & -> & Hdn & _), (descendants_local _ L0) as (d0 & -> & _ & _). cbn [rbind].
  destruct (retract_track_ok t (phaseroots self) (zrange_down t (-1)) (dn ∖ d0) data) as (aff & data' & -> & _ & Hd).
  - intros p Hp%elem_of_zrange_down Hp0. assert (p = draft \/ p = secret) as [->| ->] by (unfold draft, secret; lia); apply Hok.
  - intros r [Hr _]%elem_of_difference. by apply Hdn.
  - by exists data', aff, s1.
Qed.

(** ** Heads of phases *)

(** The phase a revision has when the heads of the public and of the draft part are told. *)
Definition told (R : Z -> gset Z) (publicheads draftheads : list Z) (r : Z) : Z :=
  if decide (before publicheads r) then public else if decide (before draftheads r) then Z.min draft (phase_of R r) else phase_of R r.

(** One part of [updatephases]. *)
Lemma update_heads_spec t hs data self : cache_ok self -> t = public \/ t = draft -> (forall n, n ∈ hs -> nullrev <= n < len) ->
  exists data' self', (let* (hs, self) := filter_phase parentrevs len (fun p => bool_decide (p ≠ t)) hs self in
      if decide (hs = []) then Ok (data, self) else advanceboundary parentrevs len t hs data self) = Ok (data', self') /\ cache_ok self' /\
    forall r, 0 <= r < len -> phase_of (phaseroots self') r = lowered (phaseroots self) t hs r.
Proof using RevDag0 two_parents len_ok.
  intros Hok Ht Hn. destruct (filter_phase_spec (fun p => bool_decide (p ≠ t)) hs self Hok Hn) as (s1 & -> & Hok1 & [HR1 _]). cbn [rbind].
  set (hs' := filter _ hs). assert (forall r, lowered (phaseroots self) t hs' r = lowered (phaseroots self) t hs r) as Hl.
  { intros r. unfold lowered. destruct (decide (before hs r)) as [Hb|Hb]; [|rewrite decide_False; [done|by intros ?%before_filtered]].
    apply Exists_exists in Hb as (h & Hh & Ha). destruct (decide (phase_of (phaseroots self) h = t)) as [Hp|Hp].
    - pose proof (phase_of_mono (phaseroots self) r h Ha). case_decide; lia.
    - rewrite decide_True; [done|]. apply Exists_exists. exists h. split; [|done]. apply list_elem_of_filter. split; [by apply bool_decide_eq_true|done]. }
  case_decide as He.
  - exists data, s1. split_and!; [done|done|]. intros r Hr. rewrite HR1, <- Hl, He. unfold lowered. rewrite decide_False; [done|]. by intros ?%Exists_nil.
  - destruct (advanceboundary_spec t hs' data s1 Hok1) as (data' & s2 & -> & Hok2 & Hph & _); [unfold public, draft in *; lia|intros n [_ Hin]%list_elem_of_filter; auto|].
    exists data', s2. split_and!; [done|done|]. intros r Hr. rewrite Hph by done. by rewrite HR1.
Qed.

Lemma updatephases_spec ph dh data self : cache_ok self -> (forall n, n ∈ ph ++ dh -> nullrev <= n < len) ->
  exists data' self', updatephases parentrevs len ph dh data self = Ok (data', self') /\ cache_ok self' /\
    forall r, 0 <= r < len -> phase_of (phaseroots self') r = told (phaseroots self) ph dh r.
Proof using RevDag0 two_parents len_ok.
  intros Hok Hn. unfold updatephases.
  destruct (update_heads_spec public ph data self Hok ltac:(by left)) as (d1 & s1 & E1 & Hok1 & H1); [intros n Hin; apply Hn, elem_of_app; by left|].
  destruct (update_heads_spec draft dh d1 s1 Hok1 ltac:(by right)) as (d2 & s2 & E2 & Hok2 & H2); [intros n Hin; apply Hn, elem_of_app; by right|].
  exists d2, s2. split; [|split; [done|]].
  - destruct (filter_phase _ _ (fun p => bool_decide (p ≠ public)) ph self) as [[hs s]|e]; [|done]. cbn [rbind] in *. rewrite E1. cbn [rbind]. exact E2.
  - intros r Hr. rewrite H2 by done. unfold lowered. rewrite H1 by done. unfold lowered, told. pose proof (phase_of_range (phaseroots self) r).
    unfold public, draft in *. repeat case_decide; lia.
Qed.

Lemma registernew_spec t nodes data self : cache_ok self -> 0 <= t <= 2 -> (forall n, n ∈ nodes -> 0 <= n < len) ->
  exists data' self', registernew parentrevs len t nodes data self = Ok (data', self') /\ cache_ok self' /\
    forall r, 0 <= r < len -> phase_of (phaseroots self') r = retracted (phaseroots self) t nodes r.
Proof using RevDag0 two_parents len_ok.
  intros Hok Ht Hn. unfold registernew. destruct (retractboundary_spec t nodes self Hok Ht Hn) as (b & s1 & -> & Hok1 & _ & _ & Hph). cbn [rbind].
  case_decide; [|by exists data, s1].
  assert (forall nodes data s, cache_ok s -> (forall n, n ∈ nodes -> nullrev <= n < len) ->
    exists data' s', track_new parentrevs len data nodes s = Ok (data', s') /\ cache_ok s' /\ same_roots s s') as Htrack.
  { clear -two_parents len_ok RevDag0. intros nodes. induction nodes as [|n nodes IH]; intros data s Hok Hn; cbn [track_new]; [by exists data, s|].
    destruct (phase_spec s n Hok) as (s1 & -> & Hok1 & Hs1); [apply Hn; by left|]. cbn [rbind].
    destruct (IH (_trackphasechange data n None (phase_of (phaseroots s) n)) s1 Hok1) as (d & s2 & -> & Hok2 & Hs2); [intros x Hx; apply Hn; by right|].
    exists d, s2. split_and!; [done|done|by eapply same_roots_trans]. }
  destruct (Htrack nodes data s1 Hok1) as (d & s2 & -> & Hok2 & [HR2 _]); [intros n Hin%Hn; unfold nullrev; lia|].
  exists d, s2. rewrite HR2. done.
Qed.

(** ** Unknown roots *)

(** Whatever was read, the cache is good once unknown roots are dropped, and the phases
    of the revisions of the changelog stay. *)
Lemma filterunknown_spec self : (forall p r, 0 <= p < 3 -> r ∈ phaseroots self p -> 0 <= r) ->
  cache_ok (filterunknown len self) /\ forall r, 0 <= r < len -> phase_of (phaseroots (filterunknown len self)) r = phase_of (phaseroots self) r.
Proof using RevDag0.
  clear two_parents len_ok. intros Hnn. assert (forall p r, 0 <= p < 3 -> 0 <= r < len -> under (phaseroots (filterunknown len self) p) r <-> under (phaseroots self p) r) as Hu.
  { intros p r Hp Hr. cbn. rewrite decide_True by done. split; intros (n & Hn & Ha).
    - apply elem_of_filter in Hn as [_ Hn]. by exists n.
    - exists n. split; [|done]. apply elem_of_filter. split; [|done]. apply Hnn in Hn as Hn0; [|done]. apply anc_le in Ha; [lia|done]. }
  split.
  - split; [| |done]; cbn; by intros r [Hr _]%elem_of_filter.
  - intros r Hr. unfold phase_of, public, draft, secret. specialize (Hu 2 r ltac:(lia) Hr) as H2. specialize (Hu 1 r ltac:(lia) Hr) as H1.
    repeat case_decide; try done; exfalso; tauto.
Qed.
End correct.

(** [C22] Advancing the boundary: when the roots are good, [advanceboundary] to any of the
    three phases returns, and afterwards every ancestor of one of the nodes (the nodes
    included) has at most the target phase and every other revision the phase it had; the
    roots are good again.  When the transaction tracks moves, exactly the revisions whose phase
    was above the target are tracked, with the phase they had, or the first one that was
    tracked for them. *)
Theorem phases_advance parentrevs `{!RevDag parentrevs} len (two_parents : forall r, length (parentrevs r) = 2%nat) (len_ok : 0 <= len < ReachableRoots.wdirrev)
    t nodes data self (Hok : cache_ok parentrevs len self) (Ht : 0 <= t <= 2) (Hn : forall n, n ∈ nodes -> nullrev <= n < len) :
  exists data' self', advanceboundary parentrevs len t nodes data self = Ok (data', self') /\ cache_ok parentrevs len self' /\
    (forall r, 0 <= r < len -> phase_of parentrevs (phaseroots self') r = lowered parentrevs (phaseroots self) t nodes r) /\
    tracked_by parentrevs (fun r => t < phase_of parentrevs (phaseroots self) r /\ before parentrevs nodes r) (phaseroots self) t data data'.
Proof. by apply advanceboundary_spec. Qed.

(** [C23] Retracting the boundary: [retractboundary] to any of the three phases returns, and
    afterwards every descendant of one of the nodes has at least the target phase and every
    other revision the phase it had; the roots are good again, and reading a phase gives
    this phase. *)
Theorem phases_retract parentrevs `{!RevDag parentrevs} len (two_parents : forall r, length (parentrevs r) = 2%nat) (len_ok : 0 <= len < ReachableRoots.wdirrev)
    t nodes data self (Hok : cache_ok parentrevs len self) (Ht : 0 <= t <= 2) (Hn : forall n, n ∈ nodes -> 0 <= n < len) :
  exists data' newdraft self', retractboundary parentrevs len t nodes data self = Ok (data', newdraft, self') /\ cache_ok parentrevs len self' /\
    forall r, 0 <= r < len -> exists self'', phase parentrevs len self' r = Ok (retracted parentrevs (phaseroots self) t nodes r, self'').
Proof.
  destruct (retractboundary_full_spec parentrevs len two_parents len_ok t nodes data self Hok Ht Hn) as (d & nd & s & E & Hs & _ & Hph).
  exists d, nd, s. split; [done|]. split; [done|]. intros r Hr. destruct (phase_spec parentrevs len two_parents len_ok s r Hs) as (s' & E' & _); [unfold nullrev; lia|].
  exists s'. by rewrite E', Hph.
Qed.

(** Learning the heads of the public and of the draft part from another repository:
    [updatephases] returns, the ancestors of the public heads become public, those of the
    draft heads that were secret become draft, and nothing else moves. *)
Theorem phases_update parentrevs `{!RevDag parentrevs} len (two_parents : forall r, length (parentrevs r) = 2%nat) (len_ok : 0 <= len < ReachableRoots.wdirrev)
    publicheads draftheads data self (Hok : cache_ok parentrevs len self) (Hn : forall n, n ∈ publicheads ++ draftheads -> nullrev <= n < len) :
  exists data' self', updatephases parentrevs len publicheads draftheads data self = Ok (data', self') /\ cache_ok parentrevs len self' /\
    forall r, 0 <= r < len -> phase_of parentrevs (phaseroots self') r = told parentrevs (phaseroots self) publicheads draftheads r.
Proof. by apply updatephases_spec. Qed.

(** Three revisions in a row. *)
Definition line3 (r : Z) : list Z := if decide (0 <= r < 3) then [r - 1; nullrev] else [nullrev; nullrev].

#[local] Instance line3_dag : RevDag line3.
Proof.
  split; unfold line3, nullrev; intros *.
  all: repeat case_decide; rewrite ?elem_of_cons; intros; destruct_or?; try set_solver; lia.
Qed.

Definition roots3 (d s : gset Z) : phasecache := Cache (fun p => if decide (p = draft) then d else if decide (p = secret) then s else ∅) false 0 None.

Lemma roots3_ok (d s : gset Z) : (forall r, r ∈ d -> 0 <= r < 3) -> (forall r, r ∈ s -> 0 <= r < 3) -> cache_ok line3 3 (roots3 d s).
Proof. intros Hd Hs. by split. Qed.

Lemma line3_two r : length (line3 r) = 2%nat.
Proof. unfold line3. by case_decide. Qed.

Lemma phases_advance_witness :
  exists data' self', advanceboundary line3 3 draft [1] (Some ∅) (roots3 {[0]} {[1]}) = Ok (data', self') /\ cache_ok line3 3 self' /\
    (forall r, 0 <= r < 3 -> phase_of line3 (phaseroots self') r = lowered line3 (phaseroots (roots3 {[0]} {[1]})) draft [1] r) /\
    tracked_by line3 (fun r => draft < phase_of line3 (phaseroots (roots3 {[0]} {[1]})) r /\ before line3 [1] r) (phaseroots (roots3 {[0]} {[1]})) draft (Some ∅) data'.
Proof.
  apply (phases_advance line3 3 line3_two).
  - unfold ReachableRoots.wdirrev. lia.
  - apply roots3_ok; intros r ->%elem_of_singleton; lia.
  - unfold draft. lia.
  - intros n ->%list_elem_of_singleton. unfold nullrev. lia.
Defined.

Lemma phases_retract_witness :
  exists data' newdraft self', retractboundary line3 3 secret [1] (Some ∅) (roots3 {[0]} ∅) = Ok (data', newdraft, self') /\ cache_ok line3 3 self' /\
    forall r, 0 <= r < 3 -> exists self'', phase line3 3 self' r = Ok (retracted line3 (phaseroots (roots3 {[0]} ∅)) secret [1] r, self'').
Proof.
  apply (phases_retract line3 3 line3_two).
  - unfold ReachableRoots.wdirrev. lia.
  - apply roots3_ok; [intros r ->%elem_of_singleton; lia|by intros r ?%not_elem_of_empty].
  - unfold secret. lia.
  - intros n ->%list_elem_of_singleton. lia.
Defined.

Lemma phases_update_witness :
  exists data' self', updatephases line3 3 [0] [2] (Some ∅) (roots3 {[0]} {[1]}) = Ok (data', self') /\ cache_ok line3 3 self' /\
    forall r, 0 <= r < 3 -> phase_of line3 (phaseroots self') r = told line3 (phaseroots (roots3 {[0]} {[1]})) [0] [2] r.
Proof.
  apply (phases_update line3 3 line3_two).
  - unfold ReachableRoots.wdirrev. lia.
  - apply roots3_ok; intros r ->%elem_of_singleton; lia.
  - intros n Hn. cbn in Hn. rewrite !elem_of_cons in Hn. unfold nullrev. destruct Hn as [->|[->|Hn]]; [lia|lia|by apply not_elem_of_nil in Hn].
Defined.

(** What a call tracks and what it tells the visibility code. *)
Definition moves (t : Z) (nodes : list Z) (self : phasecache) : option (list (Z * (option Z * Z)) * list Z * list Z) :=
  match retractboundary line3 3 t nodes (Some ∅) self with
  | Ok (Some d, aff, self) => Some (map_to_list d, elements aff, elements (phaseroots self t))
  | _ => None
  end.

(** The head of three drafts is made secret: its ancestors, which stay drafts, are
    tracked as moved to secret as well. *)
Example retract_tracks_ancestors : moves secret [2] (roots3 {[0]} ∅) = Some ([(2, (Some draft, secret)); (1, (Some draft, secret)); (0, (Some draft, secret))], [], [2]).
Proof. vm_compute. reflexivity. Qed.

(** A public revision below a secret one becomes a draft: the secret one, which stays
    secret, is tracked as moved from public to draft and is announced as a new draft. *)
Example retract_tracks_secret : moves draft [1] (roots3 ∅ {[2]}) = Some ([(2, (Some public, draft)); (1, (Some public, draft))], [2; 1], [1]).
Proof. vm_compute. reflexivity. Qed.
End Phases.
