(* ===== verification/Transaction.v ===== *)
(** * Transactions on the store (transaction.py)

    Before a transaction changes a file it notes in a journal how to undo the change:
    the length of a file that only grows, or a copy of a file that is rewritten.  An
    abort plays the notes back from memory; [rollback] reads them from the journal that
    an interrupted process has left. *)

From S2P Require Import Prelude Lines Struct PyFormat ManifestText.

Module Transaction.
Import ManifestText(NUL, bcmp).

(** ** Paths of posix systems *)

Definition slash : ascii := "/"%char.

(** The part up to and with the last slash, and the rest. *)
Fixpoint cut_slash (p : bytes) : bytes * bytes :=
  match p with
  | [] => ([], [])
  | c :: p =>
      let '(h, t) := cut_slash p in
      if decide (h = [] /\ c ≠ slash) then ([], c :: t) else (c :: h, t)
  end.

Fixpoint rstrip (c : ascii) (p : bytes) : bytes :=
  match p with
  | [] => []
  | x :: p => let q := rstrip c p in if decide (q = [] /\ x = c) then [] else x :: q
  end.

(** [os.path.split]: the slashes at the end of the head are dropped unless it has
    nothing else. *)
Definition path_split (p : bytes) : bytes * bytes :=
  let '(h, t) := cut_slash p in (if decide (rstrip slash h = []) then h else rstrip slash h, t).

(** [os.path.join] of two paths. *)
Definition path_join (a b : bytes) : bytes :=
  if decide (head b = Some slash) then b
  else if decide (a = [] \/ last a = Some slash) then a ++ b
  else a ++ slash :: b.

(** ** Files *)

(** Files by location and path; each location is a virtual file system of its own. *)
Definition disk : Type := gmap (bytes * bytes) bytes.

Inductive msg :=
  | TruncateFailed (f : bytes)
  | RecoverFailed (f : bytes)
  | UnknownLocation (l b : bytes)
  | BadJournalEntry (l : bytes)
  | OtherVersion
  | TransactionAbort
  | RollbackCompleted
  | RollbackFailed.

(** The files and the messages reported so far. *)
Record world := World { fs : disk; reports : list msg }.

(** Code that changes a state and may raise: the changes made before an exception stay. *)
Definition st (S A : Type) : Type := S -> res A * S.

Definition ret {S A} (a : A) : st S A := fun s => (Ok a, s).
Definition raise {S A} (e : pyerr) : st S A := fun s => (Err e, s).
Definition bind {S A B} (m : st S A) (k : A -> st S B) : st S B :=
  fun s => match m s with (Ok a, s) => k a s | (Err e, s) => (Err e, s) end.
Definition get {S} : st S S := fun s => (Ok s, s).
Definition modify {S} (f : S -> S) : st S unit := fun s => (Ok tt, f s).
Definition attempt {S A} (m : st S A) (h : pyerr -> st S A) : st S A :=
  fun s => match m s with (Ok a, s) => (Ok a, s) | (Err e, s) => h e s end.
(** [try: m finally: f] *)
Definition finally {S A} (m : st S A) (f : st S unit) : st S A :=
  fun s => let '(r, s) := m s in match f s with (Ok _, s) => (r, s) | (Err e, s) => (Err e, s) end.

Notation "'let!' x := m 'in' k" := (bind m (fun x => k)) (at level 10, x pattern, m at level 100, k at level 200).
Notation "m ;;; k" := (bind m (fun _ => k)) (at level 99, k at level 200, right associativity).

Fixpoint each {S A} (f : A -> st S unit) (l : list A) : st S unit :=
  match l with
  | [] => ret tt
  | x :: l => f x ;;; each f l
  end.

Definition report (m : msg) : st world unit := modify (fun w => World (fs w) (reports w ++ [m])).
Definition exists_ (k : bytes * bytes) : st world bool := fun w => (Ok (bool_decide (is_Some (fs w !! k))), w).
Definition put (k : bytes * bytes) (c : bytes) : st world unit := modify (fun w => World (<[k := c]> (fs w)) (reports w)).

(** The content of a file, nothing when it does not exist. *)
Definition view (d : disk) (k : bytes * bytes) : bytes := default [] (d !! k).

(** A write in append mode. *)
Definition append (k : bytes * bytes) (c : bytes) : st world unit := fun w => put k (view (fs w) k ++ c) w.

Definition unlink (k : bytes * bytes) : st world unit :=
  fun w => if decide (is_Some (fs w !! k)) then (Ok tt, World (delete k (fs w)) (reports w)) else (Err OSError, w).

(** [unlink] where a missing file is no error. *)
Definition tryunlink (k : bytes * bytes) : st world unit := modify (fun w => World (delete k (fs w)) (reports w)).

(** A file that is opened for appending and truncated: it is created, and filled up with
    zeros if it is shorter. *)
Definition truncated (c : bytes) (o : Z) : bytes := take (Z.to_nat o) c ++ replicate (Z.to_nat o - length c) NUL.

Definition truncate (k : bytes * bytes) (o : Z) : st world unit :=
  append k [] ;;; if decide (o < 0) then raise OSError else fun w => put k (truncated (view (fs w) k) o) w.

(** [util.copyfile]: the target is removed first.  A hard link is as good as a copy,
    since a file is only opened for writing after its links were broken up. *)
Definition copyfile (src dst : bytes * bytes) : st world unit :=
  tryunlink dst ;;; fun w => match fs w !! src with Some c => put dst c w | None => (Err OSError, w) end.

(** ** Playing back *)

Definition name_backupfiles (journal : bytes) : bytes := journal ++ bs ".backupfiles".

Definition play_entry (unlink : bool) (e : bytes * Z) : st world unit :=
  let '(f, o) := e in
  if decide (o ≠ 0 \/ unlink = false) then
    attempt (truncate ([], f) o) (fun e => report (TruncateFailed f) ;;; raise e)
  else tryunlink ([], f).

(** One backup entry; the result are the backup files that were copied back.  No error
    is left that the handler around it could catch. *)
Definition play_backup (vfsmap : gset bytes) (e : bytes * bytes * bytes * bool) : st world (list bytes) :=
  let '(l, f, b, c) := e in
  (if decide (l ∉ vfsmap /\ c = true) then report (UnknownLocation l b) else ret tt) ;;;
  if decide (l ∉ vfsmap) then raise KeyError
  else if decide (f ≠ [] /\ b ≠ []) then
    attempt (copyfile (l, b) (l, f) ;;; ret [b]) (fun _ => report (RecoverFailed f) ;;; ret [])
  else tryunlink (l, if decide (f = []) then b else f) ;;; ret [].

Fixpoint play_backups (vfsmap : gset bytes) (es : list (bytes * bytes * bytes * bool)) : st world (list bytes) :=
  match es with
  | [] => ret []
  | e :: es => let! l1 := play_backup vfsmap e in let! l2 := play_backups vfsmap es in ret (l1 ++ l2)
  end.

(** Removes a file of the main location if it is there. *)
Definition remove_if_exists (k : bytes * bytes) : st world unit :=
  let! e := exists_ k in if e then unlink k else ret tt.

(** [_playback] *)
Definition _playback (journal : bytes) (vfsmap : gset bytes) (entries : list (bytes * Z)) (backupentries : list (bytes * bytes * bytes * bool)) (unlink_ : bool) : st world unit :=
  each (play_entry unlink_) entries ;;;
  let! backupfiles := play_backups vfsmap backupentries in
  remove_if_exists ([], name_backupfiles journal) ;;;
  unlink ([], journal) ;;;
  attempt (each (fun f => remove_if_exists ([], f)) backupfiles) (fun _ => ret tt).

(** ** The journal as text *)

(** [int(s)]: white space around the number is skipped, a sign is allowed. *)
Definition isspace (c : ascii) : bool := bool_decide (9 <= ord c <= 13 \/ ord c = 32).

Fixpoint lstrip_space (s : bytes) : bytes :=
  match s with
  | c :: s' => if isspace c then lstrip_space s' else s
  | [] => []
  end.

Definition strip_space (s : bytes) : bytes := reverse (lstrip_space (reverse (lstrip_space s))).

Definition int_digits (s : bytes) : option Z :=
  match s with
  | [] => None
  | _ => if forallb isdigit s then Some (int_of s) else None
  end.

Definition int_str (s : bytes) : option Z :=
  match strip_space s with
  | c :: s' =>
      if decide (c = "-"%char) then Z.opp <$> int_digits s'
      else if decide (c = "+"%char) then int_digits s'
      else int_digits (c :: s')
  | [] => None
  end.

(** ["%s\0%d\n" % (file, offset)] *)
Definition entry_line (f : bytes) (o : Z) : bytes := f ++ NUL :: fmt_d o ++ [newline].

Definition backup_line (e : bytes * bytes * bytes * bool) : bytes :=
  let '(l, f, b, c) := e in l ++ NUL :: f ++ NUL :: b ++ NUL :: fmt_d (Z.b2z c) ++ [newline].

Definition version_line : bytes := fmt_d 2 ++ [newline].

Definition read_entry (l : bytes) : option (bytes * Z) :=
  match split NUL l with
  | [f; o] => (fun o => (f, o)) <$> int_str o
  | _ => None
  end.

Fixpoint read_entries (lines : list bytes) : st world (list (bytes * Z)) :=
  match lines with
  | [] => ret []
  | l :: lines =>
      match read_entry l with
      | Some e => let! es := read_entries lines in ret (e :: es)
      | None => report (BadJournalEntry l) ;;; read_entries lines
      end
  end.

(** The last character of a line is shaved off.  The cache flag is the text of a number,
    which is true unless it is empty. *)
Fixpoint read_backups (lines : list bytes) : st world (list (bytes * bytes * bytes * bool)) :=
  match lines with
  | [] => ret []
  | line :: lines =>
      match line with
      | [] => read_backups lines
      | _ =>
          match split NUL (pyslice line 0 (-1)) with
          | [l; f; b; c] => let! es := read_backups lines in ret ((l, f, b, bool_decide (c ≠ [])) :: es)
          | _ => raise AssertionError
          end
      end
  end.

(** A file that is opened for reading. *)
Definition readlines (k : bytes * bytes) : st world (list bytes) :=
  fun w => match fs w !! k with Some c => (Ok (splitnewlines c), w) | None => (Err OSError, w) end.

(** The entries of the file of backups, if it exists and has the version. *)
Definition read_backupjournal (k : bytes * bytes) : st world (list (bytes * bytes * bytes * bool)) :=
  let! e := exists_ k in
  if (e : bool) then
    let! lines := readlines k in
    match lines with
    | [] => ret []
    | ver :: lines =>
        if decide (pyslice ver 0 (-1) = fmt_d 2) then read_backups lines
        else report OtherVersion ;;; ret []
    end
  else ret [].

(** [rollback] *)
Definition rollback (vfsmap : gset bytes) (file : bytes) : st world unit :=
  let! lines := readlines ([], file) in
  let! entries := read_entries lines in
  let! backupentries := read_backupjournal ([], name_backupfiles file) in
  _playback file vfsmap entries backupentries true.

(** ** The transaction object *)

Section object.
(** A callback is a name; what it does is told by [run], whose result is what the
    callback returns. *)
Context {cb : Type}.

(** A file generator: its files, the function that gives their contents (and may raise
    after some were written), and the location of the files. *)
Record generator := Generator {
  g_order : Z; g_files : list bytes; g_func : disk -> list bytes * option pyerr; g_loc : bytes
}.

Definition entry : Type := bytes * Z * option Z.
Definition backup_entry : Type := bytes * bytes * bytes * bool.

Record tx := Tx {
  count : Z; usages : Z;
  entries : list entry; map_ : gmap bytes nat;
  journal : option bytes;
  queue : list (list entry);
  backupentries : list backup_entry; backupmap : gmap bytes nat; backupsbuf : bytes;
  generators : gmap bytes generator;
  pendingcallback : gmap bytes cb; finalizecallback : gmap bytes cb; postclosecallback : gmap bytes cb; abortcallback : gmap bytes cb;
  anypending : bool; validator : option cb;
  w : world
}.

Definition set_w (x : world) (s : tx) : tx :=
  Tx (count s) (usages s) (entries s) (map_ s) (journal s) (queue s) (backupentries s) (backupmap s) (backupsbuf s) (generators s)
    (pendingcallback s) (finalizecallback s) (postclosecallback s) (abortcallback s) (anypending s) (validator s) x.
Definition set_count (c u : Z) (s : tx) : tx :=
  Tx c u (entries s) (map_ s) (journal s) (queue s) (backupentries s) (backupmap s) (backupsbuf s) (generators s)
    (pendingcallback s) (finalizecallback s) (postclosecallback s) (abortcallback s) (anypending s) (validator s) (w s).
Definition set_entries (e : list entry) (m : gmap bytes nat) (s : tx) : tx :=
  Tx (count s) (usages s) e m (journal s) (queue s) (backupentries s) (backupmap s) (backupsbuf s) (generators s)
    (pendingcallback s) (finalizecallback s) (postclosecallback s) (abortcallback s) (anypending s) (validator s) (w s).
Definition set_journal (j : option bytes) (s : tx) : tx :=
  Tx (count s) (usages s) (entries s) (map_ s) j (queue s) (backupentries s) (backupmap s) (backupsbuf s) (generators s)
    (pendingcallback s) (finalizecallback s) (postclosecallback s) (abortcallback s) (anypending s) (validator s) (w s).
Definition set_queue (q : list (list entry)) (s : tx) : tx :=
  Tx (count s) (usages s) (entries s) (map_ s) (journal s) q (backupentries s) (backupmap s) (backupsbuf s) (generators s)
    (pendingcallback s) (finalizecallback s) (postclosecallback s) (abortcallback s) (anypending s) (validator s) (w s).
Definition set_backups (e : list backup_entry) (m : gmap bytes nat) (b : bytes) (s : tx) : tx :=
  Tx (count s) (usages s) (entries s) (map_ s) (journal s) (queue s) e m b (generators s)
    (pendingcallback s) (finalizecallback s) (postclosecallback s) (abortcallback s) (anypending s) (validator s) (w s).
Definition set_generators (g : gmap bytes generator) (s : tx) : tx :=
  Tx (count s) (usages s) (entries s) (map_ s) (journal s) (queue s) (backupentries s) (backupmap s) (backupsbuf s) g
    (pendingcallback s) (finalizecallback s) (postclosecallback s) (abortcallback s) (anypending s) (validator s) (w s).
Definition set_callbacks (p f c a : gmap bytes cb) (s : tx) : tx :=
  Tx (count s) (usages s) (entries s) (map_ s) (journal s) (queue s) (backupentries s) (backupmap s) (backupsbuf s) (generators s)
    p f c a (anypending s) (validator s) (w s).
Definition set_flags (any : bool) (v : option cb) (s : tx) : tx :=
  Tx (count s) (usages s) (entries s) (map_ s) (journal s) (queue s) (backupentries s) (backupmap s) (backupsbuf s) (generators s)
    (pendingcallback s) (finalizecallback s) (postclosecallback s) (abortcallback s) any v (w s).

(** File operations of the transaction. *)
Definition io {A} (m : st world A) : st tx A := fun s => let '(r, x) := m (w s) in (r, set_w x s).

Context (run : cb -> st tx bool) (releasefn : bool -> st tx unit) (after : st tx unit).
Context (vfsmap : gset bytes) (journalname : bytes) (undoname : option bytes).

Definition backupjournal : bytes := name_backupfiles journalname.

(** [__init__]; [vfsmap] is the map of locations with the default one.  The header of the
    journal of backups stays in the buffer of its file until the first entry is flushed. *)
Definition init (v : option cb) : st world tx := fun x =>
  let x := World (<[([], backupjournal) := []]> (<[([], journalname) := []]> (fs x))) (reports x) in
  (Ok (Tx 1 1 [] ∅ (Some journalname) [] [] ∅ version_line ∅ ∅ ∅ ∅ ∅ false v x), x).

(** [active] *)
Definition active {A} (m : st tx A) : st tx A :=
  fun s => if decide (count s = 0) then (Err (Abort "cannot use transaction when it is already committed/aborted"), s) else m s.

Definition startgroup : st tx unit := active (modify (fun s => set_queue (queue s ++ [[]]) s)).

Definition registered (f : bytes) (s : tx) : bool := bool_decide (is_Some (map_ s !! f) \/ is_Some (backupmap s !! f)).

(** [_addentry] *)
Definition _addentry (e : entry) : st tx unit := fun s =>
  let '(f, o, _) := e in
  if registered f s then (Ok tt, s)
  else
    let s := set_entries (entries s ++ [e]) (<[f := length (entries s)]> (map_ s)) s in
    io (append ([], journalname) (entry_line f o)) s.

Definition endgroup : st tx unit :=
  active (fun s =>
    match last (queue s) with
    | None => (Err IndexError, s)
    | Some q => each _addentry q (set_queue (take (length (queue s) - 1) (queue s)) s)
    end).

Definition add (e : entry) : st tx unit :=
  active (fun s =>
    if registered e.1.1 s then (Ok tt, s)
    else match last (queue s) with
      | Some q => (Ok tt, set_queue (take (length (queue s) - 1) (queue s) ++ [q ++ [e]]) s)
      | None => _addentry e s
      end).

(** [_addbackupentry] *)
Definition _addbackupentry (e : backup_entry) : st tx unit := fun s =>
  let s := set_backups (backupentries s ++ [e]) (<[e.1.1.2 := length (backupentries s)]> (backupmap s)) (backupsbuf s ++ backup_line e) s in
  (io (append ([], backupjournal) (backupsbuf s)) ;;; modify (fun s => set_backups (backupentries s) (backupmap s) [] s)) s.

(** The name of the backup of a file. *)
Definition backup_name (file : bytes) : bytes :=
  let '(dirname, filename) := path_split file in path_join dirname (journalname ++ bs ".backup." ++ filename).

Definition addbackup (file location : bytes) : st tx unit :=
  active (fun s =>
    if decide (queue s ≠ []) then (Err ProgrammingError, s)
    else if registered file s then (Ok tt, s)
    else if decide (location ∉ vfsmap) then (Err KeyError, s)
    else
      (let! e := io (exists_ (location, file)) in
       if e then io (copyfile (location, file) (location, backup_name file)) ;;; _addbackupentry (location, file, backup_name file, false)
       else _addbackupentry (location, file, [], false)) s).

Definition registertmp (tmpfile location : bytes) : st tx unit := active (_addbackupentry (location, [], tmpfile, false)).

Definition addfilegenerator (genid : bytes) (g : generator) : st tx unit := active (modify (fun s => set_generators (<[genid := g]> (generators s)) s)).
Definition removefilegenerator (genid : bytes) : st tx unit := active (modify (fun s => set_generators (delete genid (generators s)) s)).

(** [sorted] keys of a dict. *)
Definition ble (a b : bytes) : Prop := bcmp a b ≠ Gt.
#[local] Instance ble_dec a b : Decision (ble a b).
Proof. unfold ble. solve_decision. Defined.
Definition sorted_keys {V} (m : gmap bytes V) : list bytes := merge_sort ble (map_to_list m).*1.

Inductive group := GAll | GPrefinalize | GPostfinalize.
#[local] Instance group_eq_dec : EqDecision group.
Proof. solve_decision. Defined.

Definition postfinalizegenerators : list bytes := [bs "bookmarks"; bs "dirstate"].

(** The files of a generator are registered and opened one after the other; on an error
    those that are open are known. *)
Fixpoint open_files (suffix : bytes) (location : bytes) (names : list bytes) (opened : list bytes) : st tx (list bytes * option pyerr) := fun s =>
  match names with
  | [] => (Ok (opened, None), s)
  | name :: names =>
      let name := name ++ suffix in
      match (if decide (suffix ≠ []) then registertmp name location else addbackup name location) s with
      | (Ok _, s) => open_files suffix location names (opened ++ [name]) s
      | (Err e, s) => (Ok (opened, Some e), s)
      end
  end.

(** The files are written to temporary files that take their place when they are closed;
    a file nothing was written to becomes empty. *)
Fixpoint close_files (location : bytes) (names : list bytes) (contents : list bytes) : st world unit :=
  match names with
  | [] => ret tt
  | name :: names => put (location, name) (default [] (head contents)) ;;; close_files location names (tail contents)
  end.

Definition generate (suffix : bytes) (g : generator) : st tx unit :=
  if decide (g_loc g ∉ vfsmap) then raise KeyError
  else
    let! (opened, e) := open_files suffix (g_loc g) (g_files g) [] in
    match e with
    | Some e => io (close_files (g_loc g) opened []) ;;; raise e
    | None =>
        let! s := get in
        let '(contents, e) := g_func g (fs (w s)) in
        io (close_files (g_loc g) opened contents) ;;; match e with Some e => raise e | None => ret tt end
    end.

(** [_generatefiles] *)
Definition _generatefiles (suffix : bytes) (grp : group) : st tx bool :=
  let! s := get in
  let ids := sorted_keys (generators s) in
  each (fun id =>
    match generators s !! id with
    | Some g => if decide (grp ≠ GAll /\ (id ∈ postfinalizegenerators <-> grp ≠ GPostfinalize)) then ret tt else generate suffix g
    | None => ret tt
    end) ids ;;;
  ret (bool_decide (ids ≠ [])).

(** The entry of a file, of either kind. *)
Definition find (file : bytes) : st tx (option (entry + backup_entry)) :=
  active (fun s =>
    match map_ s !! file with
    | Some i => (match entries s !! i with Some e => Ok (Some (inl e)) | None => Err IndexError end, s)
    | None =>
        match backupmap s !! file with
        | Some i => (match backupentries s !! i with Some e => Ok (Some (inr e)) | None => Err IndexError end, s)
        | None => (Ok None, s)
        end
    end).

Definition replace (e : entry) : st tx unit :=
  active (fun s =>
    match map_ s !! e.1.1 with
    | None => (Err KeyError, s)
    | Some i =>
        if decide (length (entries s) <= i)%nat then (Err IndexError, s)
        else io (append ([], journalname) (entry_line e.1.1 e.1.2)) (set_entries (<[i := e]> (entries s)) (map_ s) s)
    end).

Definition nest : st tx unit := active (modify (fun s => set_count (count s + 1) (usages s + 1) s)).

Definition running : st tx bool := fun s => (Ok (bool_decide (0 < count s)), s).

Definition addpending (c : bytes) (k : cb) : st tx unit :=
  modify (fun s => set_callbacks (<[c := k]> (pendingcallback s)) (finalizecallback s) (postclosecallback s) (abortcallback s) s).
Definition addfinalize (c : bytes) (k : cb) : st tx unit :=
  active (modify (fun s => set_callbacks (pendingcallback s) (<[c := k]> (finalizecallback s)) (postclosecallback s) (abortcallback s) s)).
Definition addpostclose (c : bytes) (k : cb) : st tx unit :=
  active (modify (fun s => set_callbacks (pendingcallback s) (finalizecallback s) (<[c := k]> (postclosecallback s)) (abortcallback s) s)).
Definition getpostclose (c : bytes) : st tx (option cb) := active (fun s => (Ok (postclosecallback s !! c), s)).
Definition addabort (c : bytes) (k : cb) : st tx unit :=
  active (modify (fun s => set_callbacks (pendingcallback s) (finalizecallback s) (postclosecallback s) (<[c := k]> (abortcallback s)) s)).

(** Callbacks run in the order of their categories; the table is read when a callback's
    turn has come. *)
Definition run_category (table : tx -> gmap bytes cb) (c : bytes) : st tx bool := fun s =>
  match table s !! c with Some k => run k s | None => (Err KeyError, s) end.

Definition run_all (table : tx -> gmap bytes cb) : st tx unit :=
  let! s := get in each (fun c => run_category table c ;;; ret tt) (sorted_keys (table s)).

(** One category of [writepending]: the callback is taken out before it runs. *)
Definition pop_pending (c : bytes) : st tx unit := fun s =>
  match pendingcallback s !! c with
  | None => (Err KeyError, s)
  | Some k =>
      (let! any := run k in modify (fun s => set_flags (anypending s || any) (validator s) s))
        (set_callbacks (delete c (pendingcallback s)) (finalizecallback s) (postclosecallback s) (abortcallback s) s)
  end.

Definition writepending : st tx bool :=
  active (
    let! s := get in
    each pop_pending (sorted_keys (pendingcallback s)) ;;;
    let! any := _generatefiles (bs ".pending") GAll in
    modify (fun s => set_flags (anypending s || any) (validator s) s) ;;;
    let! s := get in ret (anypending s)).

(** The work of [close] while the transaction can still be rolled back. *)
Definition finish : st tx unit :=
  let! s := get in
  match validator s with
  | None => raise TypeError
  | Some v =>
      run v ;;;
      modify (fun s => set_flags (anypending s) None s) ;;;
      _generatefiles [] GPrefinalize ;;;
      run_all finalizecallback ;;;
      modify (fun s => set_callbacks (pendingcallback s) ∅ (postclosecallback s) (abortcallback s) s) ;;;
      _generatefiles [] GPostfinalize ;;;
      ret tt
  end.

(** Removes the backup files ([tmp = false]) or the temporary files of the entries. *)
Definition clean_backup (tmp : bool) (e : backup_entry) : st world unit :=
  let '(l, f, b, c) := e in
  if decide (l ∉ vfsmap /\ c = true) then report (UnknownLocation l b)
  else if decide (l ∉ vfsmap) then raise KeyError
  else if decide ((tmp = true -> f = []) /\ b ≠ []) then remove_if_exists (l, b)
  else ret tt.

(** One entry of [_writeundo]. *)
Definition undo_entry (undo : bytes) (e : backup_entry) : st world unit :=
  let '(l, f, b, c) := e in
  if decide (f = []) then ret tt
  else if decide (b = []) then append ([], name_backupfiles undo) (backup_line (l, f, [], c))
  else if decide (l ∉ vfsmap /\ c = true) then report (UnknownLocation l b)
  else if decide (l ∉ vfsmap) then raise KeyError
  else
    let '(base, name) := path_split b in
    if decide (take (length journalname) name = journalname) then
      let u := path_join base (undo ++ drop (length journalname) name) in
      copyfile (l, b) (l, u) ;;; append ([], name_backupfiles undo) (backup_line (l, f, u, c))
    else raise AssertionError.

Definition _writeundo : st tx unit := fun s =>
  match undoname with
  | None => (Ok tt, s)
  | Some undo => io (put ([], name_backupfiles undo) version_line ;;; each (undo_entry undo) (backupentries s)) s
  end.

(** The work of [close] on the files after that. *)
Definition commit : st tx unit :=
  let! s := get in
  io (each (clean_backup true) (backupentries s)) ;;;
  modify (fun s => set_entries [] (map_ s) s) ;;;
  _writeundo ;;;
  after ;;;
  io (remove_if_exists ([], backupjournal)) ;;;
  io (remove_if_exists ([], journalname)) ;;;
  io (each (clean_backup false) (backupentries s)) ;;;
  modify (fun s => set_journal None (set_backups [] (backupmap s) (backupsbuf s) s)).

(** The callbacks that run when everything is closed. *)
Definition closed : st tx unit := releasefn true ;;; run_all postclosecallback.

(** [close]: only the outermost one commits.  Closing the file of backups writes what is
    left in its buffer. *)
Definition close : st tx unit :=
  active (
    let! s := get in
    (if decide (count s = 1) then finish else ret tt) ;;;
    modify (fun s => set_count (count s - 1) (usages s) s) ;;;
    let! s := get in
    if decide (count s ≠ 0) then ret tt
    else
      io (append ([], backupjournal) (backupsbuf s)) ;;;
      modify (fun s => set_backups (backupentries s) (backupmap s) [] s) ;;;
      commit ;;;
      closed).

(** The rollback of [_abort]: an error is reported and goes no further. *)
Definition roll_back : st tx unit :=
  let! s := get in
  if decide (entries s = [] /\ backupentries s = []) then
    io (unlink ([], backupjournal)) ;;; (if decide (journal s = None) then ret tt else io (unlink ([], journalname)))
  else
    io (report TransactionAbort) ;;;
    attempt
      (run_all abortcallback ;;;
       let! s := get in
       io (_playback journalname vfsmap (entries s).*1 (backupentries s) false) ;;;
       io (report RollbackCompleted))
      (fun _ => io (report RollbackFailed)).

(** [_abort] *)
Definition _abort : st tx unit :=
  modify (set_count 0 0) ;;;
  let! s := get in
  io (append ([], backupjournal) (backupsbuf s)) ;;;
  modify (fun s => set_backups (backupentries s) (backupmap s) [] s) ;;;
  finally roll_back (modify (set_journal None) ;;; releasefn false).

Definition abort : st tx unit := active _abort.

(** [release]: leaving the last scope without a commit aborts. *)
Definition release : st tx unit :=
  modify (fun s => if decide (0 < count s) then set_count (count s) (usages s - 1) s else s) ;;;
  let! s := get in
  if decide (0 < count s /\ usages s = 0) then _abort else ret tt.

(** [__del__] *)
Definition del : st tx unit := let! s := get in if decide (journal s = None) then ret tt else _abort.
End object.
End Transaction.
