(* ===== verification/TransactionPlay.v ===== *)
(** * Playing back a journal

    The journal is read back as it was written, and playing it back cuts every file to
    the last length noted for it and restores every file that has a backup. *)

From S2P Require Import Prelude Lines Struct PyFormat ManifestText Transaction.

Module TransactionPlay.
Import ManifestText(NUL, split_two).
Import Transaction.

(** ** Paths *)

Lemma cut_slash_concat p : (cut_slash p).1 ++ (cut_slash p).2 = p.
Proof.
  induction p as [|c p IH]; [done|]. simpl. destruct (cut_slash p) as [h t]. simpl in IH. case_decide as Hd; simpl; [destruct Hd as [-> _]; by rewrite <- IH|by rewrite IH].
Qed.

Lemma cut_slash_spec h t : slash ∉ t -> (h = [] \/ last h = Some slash) -> cut_slash (h ++ t) = (h, t).
Proof.
  intros Ht. induction h as [|c h IH]; intros Hh; simpl.
  - clear Hh. induction t as [|c t IH]; [done|]. simpl. apply not_elem_of_cons in Ht as [Hc Ht]. rewrite IH by done. by rewrite decide_True.
  - destruct Hh as [|Hh]; [done|]. destruct h as [|c' h].
    + injection Hh as ->. rewrite IH by (by left). rewrite decide_False; [done|]. intros [_ H]. done.
    + rewrite IH by (right; done). by rewrite decide_False by (intros [? _]; done).
Qed.

Lemma cut_slash_tail p : slash ∉ (cut_slash p).2 /\ ((cut_slash p).1 = [] \/ last (cut_slash p).1 = Some slash).
Proof.
  induction p as [|c p [IH1 IH2]]; [split; [apply not_elem_of_nil|by left]|]. simpl. destruct (cut_slash p) as [h t]. simpl in *. case_decide as Hd; simpl.
  - split; [|by left]. apply not_elem_of_cons. split; [|done]. intros H. by apply (proj2 Hd).
  - split; [done|]. right. destruct h as [|c' h]; [|destruct IH2; [done|]; done]. simpl. f_equal. apply dec_stable. intros Hc. by apply Hd.
Qed.

Lemma rstrip_app c p q : rstrip c (p ++ q) = if decide (rstrip c q = []) then rstrip c p else p ++ rstrip c q.
Proof.
  induction p as [|x p IH]; simpl; [by case_decide|]. rewrite IH. case_decide as Hq; [done|].
  rewrite decide_False; [done|]. intros [H _]. by apply app_nil in H as [_ ?].
Qed.

Lemma rstrip_last c p : last p ≠ Some c -> rstrip c p = p.
Proof.
  intros Hl. destruct (last p) as [x|] eqn:E; [|by apply last_None in E as ->]. apply last_Some in E as [q ->]. rewrite rstrip_app. simpl.
  rewrite !decide_False; [done|..]; simpl; try (by intros [_ ->]); intros H; case_decide as Hd; try done. by destruct Hd as [_ ->].
Qed.

Lemma rstrip_end c p : last (rstrip c p) ≠ Some c.
Proof.
  induction p as [|x p IH]; [done|]. simpl. case_decide as Hd; [done|]. destruct (rstrip c p) as [|y q]; [|done].
  simpl. intros [= ->]. by apply Hd.
Qed.

(** A head as [path_split] gives it. *)
Definition is_head (h : bytes) : Prop := h = [] \/ (rstrip slash h = [] /\ last h = Some slash) \/ last h ≠ Some slash.

Lemma path_split_head p : is_head (path_split p).1 /\ slash ∉ (path_split p).2.
Proof.
  unfold path_split. destruct (cut_slash_tail p) as [Ht Hh]. destruct (cut_slash p) as [h t]. simpl in *. split; [|done]. case_decide as Hr.
  - destruct Hh as [->|Hh]; [by left|right; by left].
  - right. right. apply rstrip_end.
Qed.

Lemma head_not_slash t : slash ∉ t -> head t ≠ Some slash.
Proof. destruct t as [|c t]; [done|]. simpl. intros H [= ->]. by apply H; left. Qed.

Lemma path_split_join h t : is_head h -> slash ∉ t -> path_split (path_join h t) = (h, t).
Proof.
  intros Hh Ht. unfold path_join. rewrite decide_False by (by apply head_not_slash). case_decide as Hd.
  - unfold path_split. rewrite cut_slash_spec by (done || tauto). case_decide as Hr; [done|]. f_equal. destruct Hd as [->|Hd]; [done|].
    destruct Hh as [->|[[Hr' _]|Hl]]; done.
  - assert (h ≠ [] /\ last h ≠ Some slash) as [Hne Hl] by tauto. replace (h ++ slash :: t) with ((h ++ [slash]) ++ t) by (by rewrite <- app_assoc).
    unfold path_split. rewrite cut_slash_spec; [|done|right; by rewrite last_snoc].
    assert (rstrip slash (h ++ [slash]) = h) as ->; [|by rewrite decide_False].
    rewrite rstrip_app. change (rstrip slash [slash]) with (@nil ascii). rewrite decide_True by done. by apply rstrip_last.
Qed.

(** ** The text of the journal *)

Lemma pyslice_init (x : bytes) c : pyslice (x ++ [c]) 0 (-1) = x.
Proof.
  unfold pyslice, clamp. rewrite decide_False, decide_True by lia. rewrite zlen_app. pose proof (zlen_nonneg x). change (zlen [c]) with 1.
  rewrite Z.max_r by lia. rewrite Z.min_l by lia. replace (-1 + (zlen x + 1)) with (zlen x) by lia. unfold slice. simpl. rewrite Z.sub_0_r. unfold zlen.
  rewrite Nat2Z.id. change (Z.to_nat 0) with O; rewrite drop_0. by rewrite take_app_length.
Qed.

Lemma fmt_d_plain o c : 0 <= o -> c ∈ fmt_d o -> c ≠ NUL /\ c ≠ newline.
Proof.
  intros Ho Hc. unfold fmt_d in Hc. rewrite decide_False in Hc by lia. destruct (digits_spec o Ho) as (_ & HF & _).
  rewrite Forall_forall in HF. apply HF in Hc. split; intros ->; vm_compute in Hc; done.
Qed.

Lemma isdigit_nospace c : isdigit c = true -> isspace c = false.
Proof. unfold isdigit, isspace. rewrite bool_decide_eq_true, bool_decide_eq_false. lia. Qed.

Lemma isdigit_nosign c : isdigit c = true -> c ≠ "-"%char /\ c ≠ "+"%char.
Proof. intros H. split; intros ->; vm_compute in H; done. Qed.

Lemma lstrip_digit s : match s with c :: _ => isdigit c = true | [] => True end -> lstrip_space s = s.
Proof. destruct s as [|c s]; [done|]. intros Hc. simpl. by rewrite isdigit_nospace. Qed.

Lemma int_str_fmt o : 0 <= o -> int_str (fmt_d o ++ [newline]) = Some o.
Proof.
  intros Ho. unfold fmt_d. rewrite decide_False by lia. destruct (digits_spec o Ho) as (E & HF & Hne).
  assert (strip_space (digits o ++ [newline]) = digits o) as Hs.
  { unfold strip_space. rewrite (lstrip_digit (digits o ++ _)) by (destruct (digits o) as [|c0 ds0]; [done|apply Forall_cons in HF as [Hc0 _]; exact Hc0]). rewrite reverse_app. simpl.
    rewrite (lstrip_digit (reverse _)), reverse_involutive; [done|]. destruct (reverse (digits o)) as [|c l] eqn:Er; [done|].
    rewrite Forall_forall in HF. apply HF. rewrite <- elem_of_reverse, Er. by left. }
  unfold int_str. rewrite Hs. destruct (digits o) as [|c ds] eqn:Ed; [done|]. apply Forall_cons in HF as [Hc HF].
  destruct (isdigit_nosign c Hc). rewrite !decide_False by done. unfold int_digits. rewrite <- E. rewrite (proj2 (forallb_forall isdigit (c :: ds))); [done|].
  intros x Hx%list_elem_of_In. rewrite Forall_forall in HF. apply elem_of_cons in Hx as [->|Hx]; auto.
Qed.

Lemma read_entry_line f o : NUL ∉ f -> 0 <= o -> read_entry (entry_line f o) = Some (f, o).
Proof.
  intros Hf Ho. unfold read_entry, entry_line. rewrite split_two; [by rewrite int_str_fmt|done|].
  intros [Hc|Hc]%elem_of_app; [by destruct (fmt_d_plain o NUL Ho Hc)|]. apply list_elem_of_singleton in Hc. done.
Qed.

Definition plain (f : bytes) : Prop := NUL ∉ f /\ newline ∉ f.

Lemma entry_line_full f o : plain f -> 0 <= o -> full_line (entry_line f o).
Proof.
  intros [_ Hf] Ho. exists (f ++ NUL :: fmt_d o). split; [unfold entry_line; by rewrite <- app_assoc|].
  intros [Hc|[Hc|Hc]%elem_of_cons]%elem_of_app; [done|done|by destruct (fmt_d_plain o newline Ho Hc)].
Qed.

Lemma splitnewlines_lines_only ls : Forall full_line ls -> splitnewlines (concat ls) = ls.
Proof.
  intros H. rewrite <- (app_nil_r (concat ls)). rewrite splitnewlines_full by (done || apply not_elem_of_nil). by rewrite decide_True, app_nil_r.
Qed.

Lemma read_entries_spec es x : Forall (fun e => plain e.1 /\ 0 <= e.2) es -> read_entries (map (fun e => entry_line e.1 e.2) es) x = (Ok es, x).
Proof.
  induction 1 as [|[f o] es [[Hf _] Ho] _ IH]; [done|]. cbn [map read_entries]. rewrite read_entry_line by done. unfold bind. by rewrite IH.
Qed.

Definition plain_backup (e : bytes * bytes * bytes * bool) : Prop := let '(l, f, b, _) := e in plain l /\ plain f /\ plain b.

(** The cache flag is read as true. *)
Definition as_read (e : bytes * bytes * bytes * bool) : bytes * bytes * bytes * bool := let '(l, f, b, _) := e in (l, f, b, true).

Lemma backup_line_body e : backup_line e = (let '(l, f, b, c) := e in join NUL [l; f; b; fmt_d (Z.b2z c)]) ++ [newline].
Proof. destruct e as [[[l f] b] c]. simpl. rewrite <- !app_assoc. simpl. rewrite <- !app_assoc. simpl. by rewrite <- !app_assoc. Qed.

Lemma backup_line_full e : plain_backup e -> full_line (backup_line e).
Proof.
  destruct e as [[[l f] b] c]. intros ((_ & Hl) & (_ & Hf) & (_ & Hb)). rewrite backup_line_body. eexists. split; [done|]. cbn [join].
  assert (newline ∉ fmt_d (Z.b2z c)) as Hc by (intros H; destruct (fmt_d_plain (Z.b2z c) newline) as [_ ?]; [by destruct c|done|done]).
  rewrite !elem_of_app, !elem_of_cons, !elem_of_app, !elem_of_cons, !elem_of_app, !elem_of_cons. intuition done.
Qed.

Lemma read_backups_spec es x : Forall plain_backup es -> read_backups (map backup_line es) x = (Ok (map as_read es), x).
Proof.
  induction 1 as [|e es He _ IH]; [done|]. cbn [map read_backups]. destruct (backup_line e) as [|c0 s0] eqn:E.
  { rewrite backup_line_body in E. by apply app_nil in E as [_ ?]. }
  rewrite <- E. rewrite backup_line_body, pyslice_init. destruct e as [[[l f] b] c]. destruct He as ((Hl & _) & (Hf & _) & (Hb & _)).
  assert (NUL ∉ fmt_d (Z.b2z c)) as Hc by (intros H; destruct (fmt_d_plain (Z.b2z c) NUL) as [? _]; [by destruct c|done|done]).
  rewrite join_split_inv; [|done|by repeat constructor]. unfold bind. rewrite IH. cbn [as_read map]. by rewrite bool_decide_eq_true_2 by (by destruct c).
Qed.

Lemma read_backupjournal_spec k es x : Forall plain_backup es ->
  (es = [] /\ fs x !! k = Some [] \/ fs x !! k = Some (version_line ++ concat (map backup_line es))) -> read_backupjournal k x = (Ok (map as_read es), x).
Proof.
  intros Hp H. unfold read_backupjournal, exists_, bind, readlines. destruct H as [[-> Hk]|Hk]; rewrite Hk, bool_decide_eq_true_2 by (by eexists); rewrite ?Hk; [done|].
  change (version_line ++ concat (map backup_line es)) with (concat (version_line :: map backup_line es)). rewrite splitnewlines_lines_only.
  - rewrite decide_True by apply pyslice_init. by rewrite read_backups_spec.
  - constructor; [by exists (fmt_d 2); split; [|apply (bool_decide_unpack _); vm_compute]|]. apply Forall_map. eapply Forall_impl; [exact Hp|]. intros e. apply backup_line_full.
Qed.

(** ** Cutting files *)

(** The offset that is played last for a file. *)
Fixpoint last_offset (es : list (bytes * Z)) (f : bytes) : option Z :=
  match es with
  | [] => None
  | (g, o) :: es =>
      match last_offset es f with
      | Some m => Some m
      | None => if decide (g = f) then Some o else None
      end
  end.

Lemma last_offset_in es f m : last_offset es f = Some m -> (f, m) ∈ es.
Proof.
  induction es as [|[g o] es IH]; [done|]. simpl. destruct (last_offset es f) as [m'|] eqn:E.
  - intros [= ->]. right. by apply IH.
  - case_decide; [|done]. intros [= ->]. subst. by left.
Qed.

Lemma last_offset_none es f : last_offset es f = None <-> forall o, (f, o) ∉ es.
Proof.
  induction es as [|[g o] es IH]; simpl; [split; [intros _ o; apply not_elem_of_nil|done]|].
  destruct (last_offset es f) as [m|] eqn:E; [split; [done|]|].
  - intros H. apply last_offset_in in E. by destruct (H m); right.
  - case_decide as Hg; [subst; split; [done|intros H; by destruct (H o); left]|]. split; [|done].
    intros _ o' [[= -> ->]|Hin]%elem_of_cons; [done|]. by apply (proj1 IH eq_refl o').
Qed.

Lemma last_offset_snoc es f o g : last_offset (es ++ [(f, o)]) g = if decide (f = g) then Some o else last_offset es g.
Proof.
  induction es as [|[h o'] es IH]; simpl; [by case_decide|]. rewrite IH. by destruct (decide (f = g)).
Qed.

(** What a file is after the entries were played. *)
Definition played (unlink : bool) (es : list (bytes * Z)) (d : disk) (k : bytes * bytes) : option bytes :=
  if decide (k.1 = []) then
    match last_offset es k.2 with
    | Some m => if decide (m = 0 /\ unlink = true) then None else Some (take (Z.to_nat m) (view d k))
    | None => d !! k
    end
  else d !! k.

Lemma length_truncated c o : 0 <= o -> zlen (truncated c o) = o.
Proof. intros Ho. unfold truncated, zlen. rewrite length_app, length_take, length_replicate. lia. Qed.

Lemma take_truncated m c o : m <= o -> m <= zlen c -> take (Z.to_nat m) (truncated c o) = take (Z.to_nat m) c.
Proof.
  intros Ho Hm. unfold truncated, zlen in *. destruct (decide (o <= Z.of_nat (length c))).
  - rewrite take_app_le by (rewrite length_take; lia). rewrite take_take. f_equal. lia.
  - rewrite (take_ge c (Z.to_nat o)) by lia. by rewrite take_app_le by lia.
Qed.

Lemma lookup_insert_if (d : disk) k c k' : <[k := c]> d !! k' = if decide (k' = k) then Some c else d !! k'.
Proof. case_decide as H; [subst; apply lookup_insert_eq|by apply lookup_insert_ne]. Qed.

Lemma lookup_delete_if (d : disk) k k' : delete k d !! k' = if decide (k' = k) then None else d !! k'.
Proof. case_decide as H; [subst; apply lookup_delete_eq|by apply lookup_delete_ne]. Qed.

Lemma view_insert (d : disk) k c : view (<[k := c]> d) k = c.
Proof. unfold view. by rewrite lookup_insert_if, decide_True. Qed.

Lemma play_entry_spec unlink f o x : 0 <= o -> exists x', play_entry unlink (f, o) x = (Ok tt, x') /\ reports x' = reports x /\
  forall k, fs x' !! k = if decide (k = ([], f)) then (if decide (o = 0 /\ unlink = true) then None else Some (truncated (view (fs x) ([], f)) o)) else fs x !! k.
Proof.
  intros Ho. unfold play_entry. case_decide as Hd.
  - unfold attempt, truncate, append, put, modify, bind. cbn [fs]. rewrite decide_False by lia. cbn [fs reports].
    eexists. split; [done|]. split; [done|]. intros k. cbn [fs]. rewrite !lookup_insert_if. case_decide as Hk; [|done].
    rewrite decide_False by (intros [H1 H2]; destruct Hd; congruence). by rewrite view_insert, app_nil_r.
  - assert (o = 0 /\ unlink = true) as [-> ->] by (destruct unlink; split; try tauto; apply dec_stable; tauto).
    eexists. split; [done|]. split; [done|]. intros k. cbn [fs]. rewrite lookup_delete_if. case_decide; [|done]. by rewrite decide_True.
Qed.

Lemma play_entries_spec unlink es x :
  (forall f o m, (f, o) ∈ es -> last_offset es f = Some m -> 0 <= m <= o /\ m <= zlen (view (fs x) ([], f))) ->
  exists x', each (play_entry unlink) es x = (Ok tt, x') /\ reports x' = reports x /\ forall k, fs x' !! k = played unlink es (fs x) k.
Proof.
  revert x. induction es as [|[f o] es IH]; intros x H.
  { exists x. split; [done|]. split; [done|]. intros [l g]. unfold played. simpl. by case_decide. }
  assert (exists m, last_offset ((f, o) :: es) f = Some m) as [m Hm] by (simpl; destruct (last_offset es f); [by eexists|]; rewrite decide_True by done; by eexists).
  destruct (H f o m) as [Hmo Hml]; [by left|done|]. destruct (play_entry_spec unlink f o x) as (x1 & E1 & R1 & F1); [lia|].
  assert (forall k, m <= zlen (view (fs x1) ([], f)) /\ take (Z.to_nat m) (view (fs x1) ([], f)) = take (Z.to_nat m) (view (fs x) ([], f)) /\ (k ≠ ([], f) -> fs x1 !! k = fs x !! k)) as Hv.
  { intros k. assert (view (fs x1) ([], f) = if decide (o = 0 /\ unlink = true) then [] else truncated (view (fs x) ([], f)) o) as ->.
    { unfold view at 1. rewrite F1, decide_True by done. by case_decide. }
    split_and!; [..|by intros Hk; rewrite F1, decide_False].
    - case_decide; [unfold zlen; simpl; lia|rewrite length_truncated; lia].
    - case_decide as Hd; [|apply take_truncated; lia]. destruct Hd as [-> _]. replace (Z.to_nat m) with O by lia. done. }
  destruct (IH x1) as (x' & E & R & F).
  { intros g o' m' Hin Hm'. destruct (H g o' m') as [? ?]; [by right|simpl; by rewrite Hm'|]. split; [done|].
    destruct (decide (g = f)) as [->|Hg]; [|unfold view; rewrite (proj2 (proj2 (Hv ([], g)))) by congruence; done].
    assert (m' = m) as -> by (simpl in Hm; rewrite Hm' in Hm; by injection Hm). apply (Hv ([], f)). }
  exists x'. split; [cbn [each]; unfold bind; by rewrite E1, E|]. split; [by rewrite R|]. intros k. rewrite F. unfold played. destruct k as [l g]. cbn [fst snd].
  destruct (decide (l = [])) as [->|Hl]; [|apply Hv; congruence]. destruct (decide (g = f)) as [->|Hg].
  - rewrite Hm. simpl in Hm. destruct (last_offset es f) as [m'|] eqn:El.
    + injection Hm as Hm. rewrite Hm. destruct (decide (m = 0 /\ unlink = true)); [done|]. f_equal. apply (Hv ([], f)).
    + rewrite decide_True in Hm by done. injection Hm as Hm. rewrite F1, decide_True by done. rewrite Hm. destruct (decide (m = 0 /\ unlink = true)); [done|]. f_equal.
      rewrite <- (take_truncated m (view _ _) m) by (done || lia). symmetry. apply take_ge. rewrite <- (length_truncated (view (fs x) ([], f)) m) at 2 by lia. unfold zlen. lia.
  - simpl. destruct (last_offset es g) as [m'|]; [unfold view; by rewrite (proj2 (proj2 (Hv ([], g)))) by congruence|].
    rewrite decide_False by done. apply Hv. congruence.
Qed.

(** ** Restoring backups *)

(** The file an entry restores or removes. *)
Definition target (e : backup_entry) : bytes * bytes := let '(l, f, b, _) := e in (l, if decide (f = []) then b else f).

(** The backup file an entry has, if any. *)
Definition source (e : backup_entry) : option (bytes * bytes) := let '(l, f, b, _) := e in if decide (f ≠ [] /\ b ≠ []) then Some (l, b) else None.

(** The entry leads to what is wanted of its target. *)
Definition restores (want : bytes * bytes -> option bytes) (d : disk) (e : backup_entry) : Prop :=
  want (target e) = match source e with Some k => d !! k | None => None end /\ (forall k, source e = Some k -> is_Some (d !! k)).

Lemma play_backup_spec vfsmap e x want : e.1.1.1 ∈ vfsmap -> restores want (fs x) e -> source e ≠ Some (target e) ->
  exists x', play_backup vfsmap e x = (Ok (match source e with Some k => [k.2] | None => [] end), x') /\ reports x' = reports x /\
    forall k, fs x' !! k = if decide (k = target e) then want k else fs x !! k.
Proof.
  destruct e as [[[l f] b] c]. cbn [fst]. intros Hl [Hw Hs] Hne. unfold play_backup, target, source in *. rewrite !decide_False by tauto. unfold bind at 1, ret at 1.
  case_decide as Hd.
  - rewrite decide_False in Hw by tauto. rewrite decide_False in Hne by tauto. destruct (Hs _ eq_refl) as [v Hv].
    unfold attempt, copyfile, bind, tryunlink, modify, put, ret. cbn [fs]. rewrite lookup_delete_if, decide_False, Hv by congruence.
    eexists. split; [done|]. split; [done|]. intros k. cbn [fs]. rewrite lookup_insert_if, lookup_delete_if, (decide_False (P := f = [])) by tauto.
    case_decide as Hk; [|done]. subst k. by rewrite Hw.
  - unfold bind, tryunlink, modify, ret. eexists. split; [done|]. split; [done|]. intros k. cbn [fs]. rewrite lookup_delete_if. destruct (decide (k = (l, if decide (f = []) then b else f))) as [->|Hk]; [|done]. by rewrite Hw.
Qed.

Definition targets (bks : list backup_entry) (k : bytes * bytes) : Prop := Exists (fun e => target e = k) bks.

#[export] Instance targets_dec bks k : Decision (targets bks k).
Proof. unfold targets. apply _. Defined.

Definition sources (bks : list backup_entry) : list (bytes * bytes) := omap source bks.

Lemma play_backups_spec vfsmap bks x want (special : bytes * bytes -> Prop) :
  (forall e, e ∈ bks -> e.1.1.1 ∈ vfsmap /\ restores want (fs x) e /\ ~ special (target e) /\ forall k, source e = Some k -> special k) ->
  exists x', play_backups vfsmap bks x = (Ok (sources bks).*2, x') /\ reports x' = reports x /\ forall k, fs x' !! k = if decide (targets bks k) then want k else fs x !! k.
Proof.
  revert x. induction bks as [|e bks IH]; intros x H; cbn [play_backups].
  { exists x. split; [done|]. split; [done|]. intros k. rewrite decide_False; [done|]. by intros ?%Exists_nil. }
  destruct (H e ltac:(by left)) as (Hl & Hr & Ht & Hs). destruct (play_backup_spec vfsmap e x want Hl Hr) as (x1 & E1 & R1 & F1); [intros Hst; by apply Ht, Hs|].
  assert (forall k, special k -> fs x1 !! k = fs x !! k) as Hkeep by (intros k Hk; rewrite F1; rewrite decide_False; [done|by intros ->]).
  destruct (IH x1) as (x' & E & R & F).
  { intros e' He'. destruct (H e' ltac:(by right)) as (Hl' & [Hw Hd] & Ht' & Hs'). split_and!; [done| |done|done]. split.
    - rewrite Hw. destruct (source e') as [k|] eqn:Ek; [|done]. symmetry. by apply Hkeep, Hs'.
    - intros k Hk. rewrite Hkeep by auto. by apply Hd. }
  exists x'. split; [|split; [by rewrite R|]].
  - unfold bind, ret. rewrite E1, E. unfold sources. cbn [omap list_omap]. by destruct (source e).
  - intros k. rewrite F, F1. unfold targets. destruct (decide (Exists (fun e => target e = k) bks)) as [Hk|Hk].
    + rewrite decide_True; [done|]. by apply Exists_cons_tl.
    + destruct (decide (k = target e)) as [->|Hke]; [rewrite decide_True; [done|by apply Exists_cons_hd]|]. rewrite decide_False; [done|]. intros [Hx|Hx]%Exists_cons; [by apply Hke|by apply Hk].
Qed.

(** ** The whole of it *)

Lemma remove_if_exists_spec k x : remove_if_exists k x = (Ok tt, World (delete k (fs x)) (reports x)).
Proof.
  unfold remove_if_exists, bind, exists_, unlink, ret. destruct (decide (is_Some (fs x !! k))) as [Hk|Hk].
  - rewrite bool_decide_eq_true_2 by done. by rewrite decide_True.
  - rewrite bool_decide_eq_false_2 by done. f_equal. destruct x as [d r]. simpl in *. f_equal. symmetry. apply delete_id. by apply eq_None_not_Some.
Qed.

Lemma remove_all_spec fl x : exists x', each (fun f => remove_if_exists ([], f)) fl x = (Ok tt, x') /\ reports x' = reports x /\
  forall k, fs x' !! k = if decide (k.1 = [] /\ k.2 ∈ fl) then None else fs x !! k.
Proof.
  revert x. induction fl as [|f fl IH]; intros x; cbn [each].
  { exists x. split; [done|]. split; [done|]. intros k. rewrite decide_False; [done|]. by intros [_ ?%not_elem_of_nil]. }
  unfold bind. rewrite remove_if_exists_spec. destruct (IH (World (delete ([], f) (fs x)) (reports x))) as (x' & -> & R & F). exists x'. split; [done|]. split; [done|].
  intros [l g]. rewrite F. cbn [fs fst snd]. rewrite lookup_delete_if. destruct (decide (l = [] /\ g ∈ fl)) as [Hd|Hd].
  - rewrite decide_True; [done|]. split; [apply Hd|]. right. apply Hd.
  - case_decide as Hk; [injection Hk as -> ->; rewrite decide_True; [done|]; split; [done|by left]|].
    rewrite decide_False; [done|]. intros [-> [->|?]%elem_of_cons]; tauto.
Qed.

Lemma name_backupfiles_ne j : j ≠ name_backupfiles j.
Proof. intros E. apply (f_equal length) in E. unfold name_backupfiles in E. rewrite length_app in E. change (length (bs ".backupfiles")) with 12%nat in E. lia. Qed.

(** [_playback], given which paths are the journal's own. *)
Lemma playback_spec j vfsmap es bks unlink_ x want (special : bytes -> Prop) :
  (forall f o m, (f, o) ∈ es -> last_offset es f = Some m -> 0 <= m <= o /\ m <= zlen (view (fs x) ([], f))) ->
  (forall f o, (f, o) ∈ es -> ~ special f) ->
  (forall e, e ∈ bks -> e.1.1.1 ∈ vfsmap /\ restores want (fs x) e /\ ~ special (target e).2 /\ forall k, source e = Some k -> special k.2) ->
  special j -> special (name_backupfiles j) -> is_Some (fs x !! ([], j)) ->
  exists x', _playback j vfsmap es bks unlink_ x = (Ok tt, x') /\ reports x' = reports x /\
    (forall k, ~ special k.2 -> fs x' !! k = if decide (targets bks k) then want k else played unlink_ es (fs x) k) /\
    (forall k, special k.2 -> fs x' !! k = if decide (k.1 = [] /\ (k.2 = j \/ k.2 = name_backupfiles j \/ k.2 ∈ (sources bks).*2)) then None else fs x !! k).
Proof.
  intros H1 H2 H3 Hj Hjb Hjx. unfold _playback, bind. destruct (play_entries_spec unlink_ es x H1) as (x1 & -> & R1 & F1).
  assert (forall k, special k.2 -> fs x1 !! k = fs x !! k) as K1.
  { intros [l f] Hk. rewrite F1. unfold played. cbn [fst snd]. case_decide; [|done]. subst l. destruct (last_offset es f) as [m|] eqn:E; [|done].
    apply last_offset_in in E. by apply H2 in E. }
  destruct (play_backups_spec vfsmap bks x1 want (fun k => special k.2)) as (x2 & -> & R2 & F2).
  { intros e He. destruct (H3 e He) as (Hl & [Hw Hd] & Ht & Hs). split_and!; [done| |done|done]. split.
    - rewrite Hw. destruct (source e) as [k|] eqn:Ek; [|done]. symmetry. by apply K1, Hs.
    - intros k Hk. rewrite K1 by auto. by apply Hd. }
  assert (forall k, special k.2 -> fs x2 !! k = fs x !! k) as K2.
  { intros k Hk. rewrite F2, decide_False; [by apply K1|]. intros (e & He & <-)%Exists_exists. by destruct (H3 e He) as (_ & _ & ? & _). }
  rewrite remove_if_exists_spec. unfold unlink at 1. cbn [fs reports].
  pose proof (name_backupfiles_ne j) as Hjj.
  rewrite decide_True by (rewrite lookup_delete_if, decide_False by congruence; by rewrite K2).
  unfold attempt. destruct (remove_all_spec (sources bks).*2 (World (delete ([], j) (delete ([], name_backupfiles j) (fs x2))) (reports x2))) as (x3 & -> & R3 & F3).
  exists x3. split; [done|]. split; [rewrite R3; simpl; by rewrite R2|]. cbn [fs] in F3.
  assert (forall b, b ∈ (sources bks).*2 -> special b) as Hin.
  { intros b ([l b'] & -> & (e & He & Hs)%list_elem_of_omap)%list_elem_of_fmap. by destruct (H3 e He) as (_ & _ & _ & Hk); apply Hk in Hs. }
  split; intros [l g] Hk; cbn [fst snd] in *; rewrite F3; cbn [fst snd]; rewrite !lookup_delete_if.
  - rewrite decide_False by (intros [_ ?%Hin]; done). rewrite !decide_False by (intros [= -> ->]; done). rewrite F2. case_decide; [done|]. apply F1.
  - rewrite K2 by done. destruct (decide (l = [])) as [->|Hl]; [|rewrite !decide_False by (intros ?; naive_solver); done].
    repeat case_decide; try done; exfalso; naive_solver.
Qed.
End TransactionPlay.
