(* ===== verification/TransactionSafety.v ===== *)
(** * Transactions can be rolled back

    A client that registers what it changes can at any time be aborted, or killed and
    rolled back from the journal: the files are as they were.  A transaction that is
    closed keeps its files and leaves nothing of its own behind. *)

From S2P Require Import Prelude Lines Struct PyFormat ManifestText Transaction TransactionPlay.

Module TransactionSafety.
Import ManifestText(NUL).
Import Transaction TransactionPlay.

(** ** What a client promises

    Each path is used in one way: as a file that only grows, as a file of one location
    that is backed up before it is rewritten, or as a temporary file. *)
Inductive kind := Appended | Backed (location : bytes) | Temporary.

#[export] Instance kind_eq_dec : EqDecision kind.
Proof. solve_decision. Defined.

(** The files of a journal [n]. *)
Definition family (n p : bytes) : Prop := p = n \/ p = name_backupfiles n \/ (n ++ bs ".backup.") `prefix_of` (path_split p).2.

#[export] Instance family_dec n p : Decision (family n p).
Proof. unfold family. apply _. Defined.

Lemma affix_plain c : c = slash \/ c = NUL \/ c = newline -> c ∉ bs ".backup." /\ c ∉ bs ".backupfiles".
Proof. intros [->|[->| ->]]; split; apply (bool_decide_unpack _); vm_compute; exact I. Qed.

Lemma plain_split f : plain f -> plain (path_split f).1 /\ plain (path_split f).2.
Proof.
  intros [H1 H2]. assert (forall c, c ∈ (path_split f).1 \/ c ∈ (path_split f).2 -> c ∈ f) as Hin; [|split; split; intros H; auto].
  intros c. unfold path_split. pose proof (cut_slash_concat f) as E. destruct (cut_slash f) as [h t]. cbn [fst snd] in *. rewrite <- E, elem_of_app.
  intros [H|H]; [left|by right]. case_decide; [done|]. revert H. clear. induction h as [|x h IH]; [done|]. simpl. case_decide; [intros ?%not_elem_of_nil; done|].
  rewrite !elem_of_cons. tauto.
Qed.

Lemma registered_false f {cb} (s : tx (cb := cb)) : registered f s = false <-> map_ s !! f = None /\ backupmap s !! f = None.
Proof. unfold registered. rewrite bool_decide_eq_false, !eq_None_not_Some. tauto. Qed.

Lemma lookup_snoc_entries {cb} (s : tx (cb := cb)) (e : entry) i x : (entries s ++ [e]) !! i = Some x <-> entries s !! i = Some x \/ i = length (entries s) /\ x = e.
Proof.
  rewrite lookup_app_Some, list_lookup_singleton_Some. split; intros [H|H]; try tauto; right; [|split; [lia|]].
  - destruct H as (H1 & H2 & H3). split; [lia|done].
  - destruct H as [-> ->]. split; [lia|done].
Qed.

Lemma last_offset_unique es f o : (forall o', (f, o') ∈ es -> o' = o) -> (f, o) ∈ es -> last_offset es f = Some o.
Proof.
  intros Hu Hin. destruct (last_offset es f) as [m|] eqn:E; [f_equal; by apply Hu, last_offset_in|].
  exfalso. by apply (proj1 (last_offset_none es f) E o).
Qed.

Lemma last_offset_insert es i f o o' f' : f ≠ f' -> es !! i = Some (f, o) -> last_offset (<[i:=(f, o')]> es) f' = last_offset es f'.
Proof.
  intros Hne. revert i. induction es as [|[h p] es IH]; intros i Hi; [done|]. destruct i as [|i]; simpl in *.
  - injection Hi as -> ->. destruct (last_offset es f'); [done|]. by rewrite !decide_False.
  - by rewrite IH.
Qed.

Section safety.
Context {cb : Type} (vfsmap : gset bytes) (journalname : bytes) (kind_of : bytes -> kind).

Notation tx := (tx (cb := cb)).
Notation own := (family journalname).

Hypothesis journal_plain : plain journalname /\ slash ∉ journalname.

Definition file_ok (f : bytes) : Prop := f ≠ [] /\ plain f /\ path_join (path_split f).1 (path_split f).2 = f /\ ~ own f.

Definition generator_ok (g : generator) : Prop :=
  g_loc g ∈ vfsmap /\ forall n, n ∈ g_files g -> file_ok n /\ kind_of n = Backed (g_loc g) /\ file_ok (n ++ bs ".pending") /\ kind_of (n ++ bs ".pending") = Temporary.

Definition file_set (k : bytes * bytes) (c : option bytes) (x : world) : world :=
  World (match c with Some c => <[k := c]> (fs x) | None => delete k (fs x) end) (reports x).

Definition set_file (k : bytes * bytes) (c : option bytes) (s : tx) : tx := set_w (file_set k c (w s)) s.

(** States that differ in the callbacks, the scopes and the messages only. *)
Definition same_core (s s' : tx) : Prop :=
  entries s' = entries s /\ map_ s' = map_ s /\ queue s' = queue s /\ backupentries s' = backupentries s /\ backupmap s' = backupmap s /\
  backupsbuf s' = backupsbuf s /\ generators s' = generators s /\ journal s' = journal s /\ fs (w s') = fs (w s).

(** The buffer of the file of backups is written. *)
Definition flush (s : tx) : tx :=
  set_backups (backupentries s) (backupmap s) [] (set_file ([], backupjournal journalname) (Some (view (fs (w s)) ([], backupjournal journalname) ++ backupsbuf s)) s).

(** The steps of a client, on a transaction and the contents of the files that were
    rewritten with [replace]. *)
Inductive step : tx * gmap bytes bytes -> tx * gmap bytes bytes -> Prop :=
  | step_add f o d s g : file_ok f -> kind_of f = Appended -> 0 <= o <= zlen (view (fs (w s)) ([], f)) ->
      step (s, g) ((add journalname (f, o, d) s).2, g)
  | step_startgroup s g : step (s, g) ((startgroup s).2, g)
  | step_endgroup s g : step (s, g) ((endgroup journalname s).2, g)
  | step_addbackup f l s g : file_ok f -> kind_of f = Backed l -> l ∈ vfsmap -> step (s, g) ((addbackup vfsmap journalname f l s).2, g)
  | step_registertmp t l s g : file_ok t -> kind_of t = Temporary -> l ∈ vfsmap -> step (s, g) ((registertmp journalname t l s).2, g)
  | step_grow f o d c s g : (f, o, d) ∈ entries s -> o <= zlen c -> take (Z.to_nat o) c = take (Z.to_nat o) (view (fs (w s)) ([], f)) ->
      step (s, g) (set_file ([], f) (Some c) s, g)
  | step_write l f b x c s g : (l, f, b, x) ∈ backupentries s -> f ≠ [] -> step (s, g) (set_file (l, f) c s, g)
  | step_tmp l t x c s g : (l, [], t, x) ∈ backupentries s -> step (s, g) (set_file (l, t) c s, g)
  | step_replace f o d o' d' c s g : count s ≠ 0 -> (f, o, d) ∈ entries s -> 0 <= o' <= o -> o' <= zlen c ->
      step (s, g) ((replace journalname (f, o', d') (set_file ([], f) (Some c) s)).2, <[f := c]> g)
  | step_generators m s g : (forall id x, m !! id = Some x -> generator_ok x) -> step (s, g) (set_generators m s, g)
  | step_flush s g : step (s, g) (flush s, g)
  | step_quiet s s' g : same_core s s' -> step (s, g) (s', g).

(** ** The invariant *)

(** What a file that only grows started with. *)
Definition base_view (d0 : disk) (g : gmap bytes bytes) (f : bytes) : bytes := default (view d0 ([], f)) (g !! f).

Definition backup_ok (d0 : disk) (s : tx) (e : backup_entry) : Prop :=
  let '(l, f, b, c) := e in
  l ∈ vfsmap /\ c = false /\
  (f = [] /\ file_ok b /\ kind_of b = Temporary \/
   file_ok f /\ kind_of f = Backed l /\ is_Some (backupmap s !! f) /\
   (b = [] /\ d0 !! (l, f) = None \/ b = backup_name journalname f /\ is_Some (d0 !! (l, f)) /\ fs (w s) !! (l, b) = d0 !! (l, f))).

Record inv (d0 : disk) (g : gmap bytes bytes) (s : tx) : Prop := {
  i_map : forall f i, map_ s !! f = Some i <-> exists o d, entries s !! i = Some (f, o, d);
  i_entry : forall f o d, (f, o, d) ∈ entries s -> file_ok f /\ kind_of f = Appended /\ 0 <= o /\ o <= zlen (view (fs (w s)) ([], f)) /\
    take (Z.to_nat o) (view (fs (w s)) ([], f)) = take (Z.to_nat o) (base_view d0 g f);
  i_base : forall f, map_ s !! f = None -> g !! f = None;
  i_backup : forall e, e ∈ backupentries s -> backup_ok d0 s e;
  i_backupmap : forall f, f ≠ [] -> is_Some (backupmap s !! f) -> exists l b, (l, f, b, false) ∈ backupentries s;
  i_rest : forall k, ~ own k.2 -> (k.1 = [] -> map_ s !! k.2 = None) -> ~ targets (backupentries s) k -> fs (w s) !! k = d0 !! k;
  i_journal : exists log, fs (w s) !! ([], journalname) = Some (concat (map (fun e => entry_line e.1 e.2) log)) /\
    (forall f o, (f, o) ∈ log -> exists o' d, (f, o', d) ∈ entries s /\ o' <= o) /\ forall f, last_offset log f = last_offset (entries s).*1 f;
  i_backupjournal : backupentries s = [] /\ fs (w s) !! ([], backupjournal journalname) = Some [] /\ backupsbuf s = version_line \/
    fs (w s) !! ([], backupjournal journalname) = Some (version_line ++ concat (map backup_line (backupentries s))) /\ backupsbuf s = [];
  i_queue : forall q f o d, q ∈ queue s -> (f, o, d) ∈ q -> file_ok f /\ kind_of f = Appended /\ 0 <= o <= zlen (view d0 ([], f));
  i_generators : forall id x, generators s !! id = Some x -> generator_ok x;
  i_name : journal s = Some journalname
}.

(** ** Names of backups *)

Lemma backup_name_split f : path_split (backup_name journalname f) = ((path_split f).1, journalname ++ bs ".backup." ++ (path_split f).2).
Proof using journal_plain.
  unfold backup_name. destruct (path_split_head f) as [Hh Ht]. destruct (path_split f) as [h t]. cbn [fst snd] in *. apply path_split_join; [done|].
  rewrite !elem_of_app. intros [H|[H|H]]; [by apply journal_plain|by apply affix_plain in H; [|left]|done].
Qed.

Lemma backup_name_own f : own (backup_name journalname f).
Proof using journal_plain. right. right. rewrite backup_name_split. cbn [snd]. exists (path_split f).2. by rewrite <- app_assoc. Qed.

Lemma backup_name_inj f f' : file_ok f -> file_ok f' -> backup_name journalname f = backup_name journalname f' -> f = f'.
Proof using journal_plain.
  intros (_ & _ & E & _) (_ & _ & E' & _) H. apply (f_equal path_split) in H. rewrite !backup_name_split in H.
  assert ((path_split f).1 = (path_split f').1) as H1 by (by apply (f_equal fst) in H). apply (f_equal snd) in H. unfold snd at 1 3 in H.
  apply app_inv_head, app_inv_head in H. by rewrite <- E, <- E', H1, H.
Qed.

Lemma backup_name_new f : backup_name journalname f ≠ journalname /\ backup_name journalname f ≠ name_backupfiles journalname /\ backup_name journalname f ≠ [].
Proof using journal_plain.
  assert (forall n, slash ∉ n -> path_split n = ([], n)) as Hn.
  { intros n Hs. pose proof (path_split_join [] n ltac:(by left) Hs) as E. unfold path_join in E. rewrite decide_False in E by (by apply head_not_slash).
    by rewrite decide_True in E by (by left). }
  destruct journal_plain as [_ Hj].
  split_and!; intros E; apply (f_equal path_split) in E; rewrite backup_name_split in E.
  - rewrite (Hn _ Hj) in E. apply (f_equal (fun p => length p.2)) in E. cbn [snd] in E. rewrite !length_app in E. change (length (bs ".backup.")) with 8%nat in E. lia.
  - rewrite (Hn (name_backupfiles journalname)) in E; [apply (f_equal snd) in E; unfold name_backupfiles, snd in E; apply app_inv_head in E; done|].
    unfold name_backupfiles. rewrite elem_of_app. intros [H|H]; [done|]. by apply affix_plain in H; [|left].
  - change (path_split []) with (@nil ascii, @nil ascii) in E. injection E as _ E. by apply app_nil in E as [_ ?].
Qed.

Lemma backup_name_plain f : plain f -> plain (backup_name journalname f).
Proof using journal_plain.
  clear -journal_plain. intros Hf. destruct (plain_split f Hf) as [[H1 H2] [H3 H4]]. destruct journal_plain as [[J1 J2] _]. unfold backup_name. destruct (path_split f) as [h t]. cbn [fst snd] in *.
  assert (forall c, c ∉ h -> c ∉ t -> c ∉ journalname -> c ∉ bs ".backup." -> c ≠ slash -> c ∉ path_join h (journalname ++ bs ".backup." ++ t)) as Hc.
  { intros c A B C D E. unfold path_join. repeat case_decide; rewrite ?elem_of_app, ?elem_of_cons, ?elem_of_app; tauto. }
  split; apply Hc; try done; apply affix_plain; auto.
Qed.

(** ** The invariant holds at the start *)

Lemma target_name l f b c : target (l, f, b, c) = (l, if decide (f = []) then b else f).
Proof using journal_plain. done. Qed.

Lemma target_kind d0 g s k : inv d0 g s -> targets (backupentries s) k -> file_ok k.2 /\ (kind_of k.2 = Backed k.1 \/ kind_of k.2 = Temporary).
Proof using journal_plain.
  intros Hi ([[[l f] b] c] & He & <-)%Exists_exists. apply (i_backup _ _ _ Hi) in He as (_ & _ & [(-> & Hb & Hk)|(Hf & Hk & _)]); unfold target.
  - rewrite decide_True by done. cbn. tauto.
  - rewrite decide_False by apply Hf. cbn. tauto.
Qed.

Lemma journal_own : own journalname /\ own (backupjournal journalname).
Proof using journal_plain. split; [by left|by right; left]. Qed.

Lemma init_inv v x s x' : init journalname v x = (Ok s, x') -> inv (fs x) ∅ s /\ w s = x'.
Proof using journal_plain.
  unfold init. intros [= <- <-]. split; [|done]. split; cbn [map_ entries queue backupentries backupmap backupsbuf generators w fs].
  - intros f i. rewrite lookup_empty. split; [done|]. intros (o & d & H). by rewrite lookup_nil in H.
  - by intros f o d ?%not_elem_of_nil.
  - done.
  - by intros e ?%not_elem_of_nil.
  - intros f _ H. rewrite lookup_empty in H. by apply is_Some_None in H.
  - intros [l p] Hk _ _. cbn in Hk. destruct journal_own. rewrite !lookup_insert_if, !decide_False by (intros [= -> ->]; done). done.
  - exists []. split; [|split; [by intros f o ?%not_elem_of_nil|done]]. rewrite !lookup_insert_if. rewrite decide_False by (intros [= E]; by apply name_backupfiles_ne in E). by rewrite decide_True.
  - left. split; [done|]. split; [|done]. by rewrite lookup_insert_if, decide_True.
  - by intros q f o d ?%not_elem_of_nil.
  - intros id y. by rewrite lookup_empty.
  - done.
Qed.

(** ** Steps that change files, or nothing that matters *)

Lemma inv_core d0 g s s' : same_core s s' -> inv d0 g s -> inv d0 g s'.
Proof using journal_plain.
  intros (E1 & E2 & E3 & E4 & E5 & E6 & E7 & E9 & E8) [].
  assert (forall e, backup_ok d0 s' e <-> backup_ok d0 s e) as Hb by (intros [[[l f] b] c]; unfold backup_ok; by rewrite E5, E8).
  split; rewrite ?E1, ?E2, ?E3, ?E4, ?E5, ?E6, ?E7, ?E8, ?E9; try done. intros e He. apply Hb. auto.
Qed.

(** A change of files that are not the journal's own and are registered. *)
Lemma inv_files d0 g g' s x : inv d0 g s ->
  (forall k, own k.2 -> fs x !! k = fs (w s) !! k) ->
  (forall k, (k.1 = [] -> map_ s !! k.2 = None) -> ~ targets (backupentries s) k -> fs x !! k = fs (w s) !! k) ->
  (forall f o d, (f, o, d) ∈ entries s -> o <= zlen (view (fs x) ([], f)) /\ take (Z.to_nat o) (view (fs x) ([], f)) = take (Z.to_nat o) (base_view d0 g' f)) ->
  (forall f, map_ s !! f = None -> g' !! f = None) ->
  inv d0 g' (set_w x s).
Proof using journal_plain.
  intros Hi Hown Hrest He Hg. pose proof journal_own as [HJ HB]. destruct Hi. split; try done; cbn [w set_w].
  - intros f o d Hin. destruct (i_entry0 _ _ _ Hin) as (? & ? & ? & _). destruct (He _ _ _ Hin). done.
  - intros [[[l f] b] c] Hin. destruct (i_backup0 _ Hin) as (? & ? & H). split; [done|]. split; [done|]. destruct H as [H|(Hf & Hk & Hm & H)]; [by left|right].
    split_and!; [done..|]. destruct H as [H|(-> & B1 & B2)]; [by left|right]. split_and!; [done..|]. cbn. rewrite Hown by apply backup_name_own. done.
  - intros k Hk Hm Ht. rewrite Hrest by done. by apply i_rest0.
  - by rewrite Hown.
  - by rewrite Hown.
Qed.

Lemma entry_registered d0 g s f o d : inv d0 g s -> (f, o, d) ∈ entries s -> is_Some (map_ s !! f).
Proof using journal_plain. intros Hi [i Hin]%list_elem_of_lookup. exists i. apply (i_map _ _ _ Hi). by exists o, d. Qed.

Lemma entry_unique d0 g s f o d o' d' : inv d0 g s -> (f, o, d) ∈ entries s -> (f, o', d') ∈ entries s -> o = o' /\ d = d'.
Proof using journal_plain.
  intros Hi [i H1]%list_elem_of_lookup [j H2]%list_elem_of_lookup. assert (map_ s !! f = Some i) as E1 by (apply (i_map _ _ _ Hi); by exists o, d).
  assert (map_ s !! f = Some j) as E2 by (apply (i_map _ _ _ Hi); by exists o', d'). rewrite E1 in E2. injection E2 as <-. rewrite H1 in H2. by injection H2 as -> ->.
Qed.

Lemma file_set_lookup k k' c x : fs (file_set k c x) !! k' = if decide (k' = k) then c else fs x !! k'.
Proof using journal_plain. destruct c as [c|]; cbn [file_set fs]; [apply lookup_insert_if|apply lookup_delete_if]. Qed.

Lemma file_set_own k k' c x : file_ok k.2 -> own k'.2 -> fs (file_set k c x) !! k' = fs x !! k'.
Proof using journal_plain. intros (_ & _ & _ & Hk) Hk'. rewrite file_set_lookup, decide_False; [done|]. by intros ->. Qed.

Lemma inv_grow d0 g s f o d c : inv d0 g s -> (f, o, d) ∈ entries s -> o <= zlen c -> take (Z.to_nat o) c = take (Z.to_nat o) (view (fs (w s)) ([], f)) ->
  inv d0 g (set_file ([], f) (Some c) s).
Proof using journal_plain.
  intros Hi Hin Ho Ht. destruct (i_entry _ _ _ Hi _ _ _ Hin) as (Hf & Hk & H0 & Hl & Hb). pose proof (entry_registered _ _ _ _ _ _ Hi Hin) as Hreg.
  apply (inv_files d0 g); [done|..].
  - intros k Hown. by apply file_set_own.
  - intros [l p] Hm _. rewrite file_set_lookup, decide_False; [done|]. intros [= -> ->]. rewrite (Hm eq_refl : map_ s !! f = None) in Hreg. by apply is_Some_None in Hreg.
  - intros f' o' d' Hin'. destruct (decide (f' = f)) as [->|Hne].
    + destruct (entry_unique _ _ _ _ _ _ _ _ Hi Hin Hin') as [<- <-]. unfold view at 1 2. rewrite file_set_lookup, decide_True by done. simpl. split; [done|]. by rewrite Ht, Hb.
    + destruct (i_entry _ _ _ Hi _ _ _ Hin') as (_ & _ & _ & Hl' & Hb'). unfold view. rewrite file_set_lookup, decide_False by congruence. done.
  - apply (i_base _ _ _ Hi).
Qed.

Lemma inv_write d0 g s k c : inv d0 g s -> targets (backupentries s) k -> inv d0 g (set_file k c s).
Proof using journal_plain.
  intros Hi Hk. destruct (target_kind _ _ _ _ Hi Hk) as [Hf Hkind]. apply (inv_files d0 g); [done|..].
  - intros k' Hown. by apply file_set_own.
  - intros k' _ Ht. rewrite file_set_lookup, decide_False; [done|]. by intros ->.
  - intros f' o' d' Hin'. destruct (i_entry _ _ _ Hi _ _ _ Hin') as (_ & Hk' & _ & Hl' & Hb').
    assert (([], f') ≠ k) as Hne by (intros <-; cbn in Hkind; destruct Hkind; congruence).
    unfold view. rewrite file_set_lookup, decide_False by done. done.
  - apply (i_base _ _ _ Hi).
Qed.

(** ** Registering files *)

Lemma io_append k c (s : tx) : io (append k c) s = (Ok tt, set_file k (Some (view (fs (w s)) k ++ c)) s).
Proof using journal_plain. done. Qed.

Lemma unregistered_file d0 g s l f : inv d0 g s -> file_ok f -> kind_of f ≠ Temporary -> (l = [] -> map_ s !! f = None) -> backupmap s !! f = None ->
  fs (w s) !! (l, f) = d0 !! (l, f).
Proof using journal_plain.
  intros Hi (Hne & _ & _ & Hown) Hk Hm Hb. apply (i_rest _ _ _ Hi); [done..|]. intros ([[[l' f'] b'] c'] & Hin & E)%Exists_exists.
  apply (i_backup _ _ _ Hi) in Hin as (_ & _ & [(-> & _ & Hk')|(Hf' & _ & Hs & _)]); unfold target in E.
  - rewrite decide_True in E by done. congruence.
  - rewrite decide_False in E by apply Hf'. injection E as -> ->. rewrite Hb in Hs. by apply is_Some_None in Hs.
Qed.

Lemma inv_addentry d0 g s f o d : inv d0 g s -> registered f s = false -> file_ok f -> kind_of f = Appended -> 0 <= o <= zlen (view d0 ([], f)) ->
  inv d0 g (_addentry journalname (f, o, d) s).2.
Proof using journal_plain.
  intros Hi Hr Hf Hk Ho. unfold _addentry. rewrite Hr. apply registered_false in Hr as [Hm Hb]. rewrite io_append. cbn [snd].
  unfold set_file. set (x := file_set _ _ _). set (s1 := set_entries _ _ s) in *.
  pose proof (unregistered_file d0 g s [] f Hi Hf ltac:(congruence) ltac:(done) Hb) as Hv.
  assert (forall k, k ≠ ([], journalname) -> fs x !! k = fs (w s) !! k) as Hx by (intros k Hne; unfold x; by rewrite file_set_lookup, decide_False).
  assert (forall p, file_ok p -> view (fs x) ([], p) = view (fs (w s)) ([], p)) as Hview.
  { intros p (_ & _ & _ & Hp). unfold view. rewrite Hx; [done|]. intros [= ->]. apply Hp, journal_own. }
  assert (forall o' d', (f, o', d') ∉ entries s) as Hnew by (intros o' d' Hin; destruct (entry_registered _ _ _ _ _ _ Hi Hin); congruence).
  destruct (i_journal _ _ _ Hi) as (lg & Hlog & Hlog1 & Hlog2).
  split; cbn [map_ entries queue backupentries backupmap backupsbuf generators w set_w set_entries s1].
  - intros f' i. setoid_rewrite lookup_snoc_entries. destruct (decide (f = f')) as [<-|Hne].
    + rewrite lookup_insert_eq. split; [intros [= <-]; exists o, d; by right|]. intros (o' & d' & [Hin|[-> _]]); [|done].
      apply list_elem_of_lookup_2 in Hin. by apply Hnew in Hin.
    + rewrite lookup_insert_ne by done. rewrite (i_map _ _ _ Hi). split; intros (o' & d' & H); exists o', d'; [by left|]. destruct H as [H|[_ H]]; [done|congruence].
  - intros f' o' d' [Hin|Hin]%elem_of_app.
    + destruct (i_entry _ _ _ Hi _ _ _ Hin) as (Hf' & ? & ? & ? & ?). by rewrite Hview.
    + apply list_elem_of_singleton in Hin as [= -> -> ->]. rewrite Hview by done. unfold view at 1 2. rewrite Hv. unfold base_view. rewrite (i_base _ _ _ Hi) by done.
      split_and!; [done|done|lia|exact (proj2 Ho)|done].
  - intros f' H'. apply (i_base _ _ _ Hi). destruct (decide (f = f')) as [<-|Hne]; [done|by rewrite lookup_insert_ne in H'].
  - intros [[[l f'] b] c] Hin. destruct (i_backup _ _ _ Hi _ Hin) as (? & ? & H). split; [done|]. split; [done|]. destruct H as [H|(A & B & C & H)]; [by left|right].
    split_and!; [done..|]. destruct H as [H|(-> & D & E)]; [by left|right]. split_and!; [done..|]. cbn. rewrite Hx; [done|]. intros [= _ E']. by apply backup_name_new in E'.
  - apply (i_backupmap _ _ _ Hi).
  - intros k Hown Hm' Ht. rewrite Hx by (intros ->; apply Hown, journal_own). apply (i_rest _ _ _ Hi); [done| |done]. intros H. specialize (Hm' H).
    destruct (decide (f = k.2)) as [<-|Hne]; [done|by rewrite lookup_insert_ne in Hm'].
  - exists (lg ++ [(f, o)]). split; [|split].
    + unfold x. rewrite file_set_lookup, decide_True by done. unfold view. cbn [s1 set_entries w].
      rewrite Hlog, map_app, concat_app. cbn [map concat fst snd]. rewrite (app_nil_r (entry_line f o)). done.
    + intros f' o' [Hin|Hin]%elem_of_app; [destruct (Hlog1 _ _ Hin) as (o1 & d1 & ? & ?); exists o1, d1; split; [apply elem_of_app; by left|done]|].
      apply list_elem_of_singleton in Hin as [= -> ->]. exists o, d. split; [apply elem_of_app; right; by left|lia].
    + intros f'. rewrite fmap_app. cbn [fmap list_fmap fst]. rewrite !last_offset_snoc. by rewrite Hlog2.
  - rewrite Hx; [apply (i_backupjournal _ _ _ Hi)|]. intros [= E]. by apply eq_sym, name_backupfiles_ne in E.
  - apply (i_queue _ _ _ Hi).
  - apply (i_generators _ _ _ Hi).
  - apply (i_name _ _ _ Hi).
Qed.

(** A backup file that no entry has yet may be written. *)
Lemma inv_copy d0 g s l f v : inv d0 g s -> file_ok f -> backupmap s !! f = None -> inv d0 g (set_file (l, backup_name journalname f) v s).
Proof using journal_plain.
  intros Hi Hf Hb. unfold set_file. set (x := file_set _ _ _). destruct (backup_name_new f) as (N1 & N2 & _). pose proof (backup_name_own f) as Hbo.
  assert (forall k, k ≠ (l, backup_name journalname f) -> fs x !! k = fs (w s) !! k) as Hx by (intros k Hne; unfold x; by rewrite file_set_lookup, decide_False).
  assert (forall k, ~ own k.2 -> fs x !! k = fs (w s) !! k) as Hxn by (intros k Hk; apply Hx; by intros ->).
  destruct Hi. split; try done; cbn [w set_w entries].
  - intros f' o d Hin. destruct (i_entry0 _ _ _ Hin) as (Hf' & ? & ? & ? & ?). unfold view. rewrite Hxn by apply Hf'. done.
  - intros [[[l' f'] b] c] Hin. destruct (i_backup0 _ Hin) as (? & ? & H'). split; [done|]. split; [done|]. destruct H' as [H'|(A & B & C & H')]; [by left|right].
    split_and!; [done..|]. destruct H' as [H'|(-> & D & E)]; [by left|right]. split_and!; [done..|]. cbn. rewrite Hx; [done|]. intros [= _ E'].
    apply backup_name_inj in E' as ->; [|done|done]. rewrite Hb in C. by apply is_Some_None in C.
  - intros k Hk Hm Ht. rewrite Hxn by done. by apply i_rest0.
  - rewrite Hx; [done|]. intros [= _ E]. by apply N1.
  - rewrite Hx; [done|]. intros [= _ E]. by apply N2.
Qed.

Lemma inv_addbackupentry d0 g s l f b : inv d0 g s -> l ∈ vfsmap ->
  (f = [] /\ file_ok b /\ kind_of b = Temporary \/
   file_ok f /\ kind_of f = Backed l /\ (b = [] /\ d0 !! (l, f) = None \/ b = backup_name journalname f /\ is_Some (d0 !! (l, f)) /\ fs (w s) !! (l, b) = d0 !! (l, f))) ->
  inv d0 g (_addbackupentry journalname (l, f, b, false) s).2.
Proof using journal_plain.
  intros Hi Hl He. unfold _addbackupentry, bind. rewrite io_append. cbn [modify snd fst]. unfold set_file. cbn [w set_backups]. set (x := file_set _ _ _).
  assert (forall k, k ≠ ([], backupjournal journalname) -> fs x !! k = fs (w s) !! k) as Hx by (intros k Hne; unfold x; by rewrite file_set_lookup, decide_False).
  assert (forall k, ~ own k.2 -> fs x !! k = fs (w s) !! k) as Hxn by (intros k Hk; apply Hx; intros ->; apply Hk, journal_own).
  pose proof (i_backupjournal _ _ _ Hi) as HB. destruct Hi. split; try done; cbn [map_ entries queue backupentries backupmap backupsbuf generators w set_w set_backups].
  - intros f' o d Hin. destruct (i_entry0 _ _ _ Hin) as (Hf' & ? & ? & ? & ?). unfold view. rewrite Hxn by apply Hf'. done.
  - assert (forall f', is_Some (backupmap s !! f') -> is_Some (<[f:=length (backupentries s)]> (backupmap s) !! f')) as Hmono.
    { intros f' Hf'. destruct (decide (f = f')) as [<-|Hne]; [rewrite lookup_insert_eq; by eexists|by rewrite lookup_insert_ne]. }
    assert (forall l' f' b', b' = backup_name journalname f' -> fs x !! (l', b') = fs (w s) !! (l', b')) as Hbk by (intros l' f' b' ->; apply Hx; intros [= _ E]; by apply backup_name_new in E).
    intros [[[l' f'] b'] c] [Hin|Hin]%elem_of_app.
    + destruct (i_backup0 _ Hin) as (? & ? & H'). split; [done|]. split; [done|]. destruct H' as [H'|(A & B & C & H')]; [by left|right].
      split_and!; [done|done|by apply Hmono|]. destruct H' as [H'|(-> & D & E)]; [by left|right]. split_and!; [done..|]. cbn. by rewrite (Hbk l' f').
    + apply list_elem_of_singleton in Hin as [= -> -> -> ->]. split; [done|]. split; [done|]. destruct He as [He|(A & B & H')]; [by left|right].
      split_and!; [done|done|cbn; rewrite lookup_insert_eq; by eexists|]. destruct H' as [H'|(-> & D & E)]; [by left|right]. split_and!; [done..|]. cbn. by rewrite (Hbk l f).
  - intros f' Hne Hs. destruct (decide (f = f')) as [<-|Hff].
    + exists l, b. apply elem_of_app. right. by left.
    + rewrite lookup_insert_ne in Hs by done. destruct (i_backupmap0 f' Hne Hs) as (l' & b' & ?). exists l', b'. apply elem_of_app. by left.
  - intros k Hk Hm Ht. rewrite Hxn by done. apply i_rest0; [done..|]. intros Ht'. apply Ht. apply Exists_app. by left.
  - rewrite Hx; [done|]. intros [= E]. by apply name_backupfiles_ne in E.
  - right. split; [|done]. unfold x. rewrite file_set_lookup, decide_True by done. unfold view. rewrite map_app, concat_app. cbn [map concat]. rewrite app_nil_r.
    destruct HB as [(-> & -> & ->)|[-> ->]]; [done|]. cbn [app]. change (default [] (Some ?y)) with y. by rewrite <- app_assoc.
Qed.

Lemma inv_register d0 g s l f : inv d0 g s -> file_ok f -> kind_of f = Backed l -> l ∈ vfsmap -> inv d0 g (addbackup vfsmap journalname f l s).2.
Proof using journal_plain.
  intros Hi Hf Hk Hl. unfold addbackup, active. case_decide; [done|]. case_decide; [done|]. destruct (registered f s) eqn:Hr; [done|]. apply registered_false in Hr as [Hm Hb].
  rewrite decide_False by tauto. pose proof (unregistered_file d0 g s l f Hi Hf ltac:(congruence) ltac:(done) Hb) as Hv.
  unfold bind at 1. unfold io at 1, exists_. cbn [fst snd]. rewrite Hv. destruct (decide (is_Some (d0 !! (l, f)))) as [Hs|Hs].
  - rewrite bool_decide_eq_true_2 by done. unfold bind, io, copyfile, tryunlink, modify, bind. cbn [fst snd fs w set_w].
    assert ((l, f) ≠ (l, backup_name journalname f)) as Hne by (intros [= E]; destruct Hf as (_ & _ & _ & Hown); apply Hown; rewrite E; apply backup_name_own).
    rewrite lookup_delete_if, decide_False, Hv by done. destruct (d0 !! (l, f)) as [v|] eqn:Ed; [|by apply is_Some_None in Hs].
    unfold put, modify. cbn [fs reports].
    match goal with |- inv _ _ (_addbackupentry _ _ ?s1).2 => assert (inv d0 g s1 /\ fs (w s1) !! (l, backup_name journalname f) = Some v) as [Hi1 Hb1] end.
    { split; [|cbn [w set_w fs]; by rewrite lookup_insert_if, decide_True].
      apply (inv_core _ _ (set_file (l, backup_name journalname f) (Some v) (set_file (l, backup_name journalname f) None s))); [repeat split|]. apply inv_copy; [by apply inv_copy|done|done]. }
    apply inv_addbackupentry; [done|done|]. right. split_and!; [done|done|]. right. rewrite Ed. split_and!; [done|done|done].
  - rewrite bool_decide_eq_false_2 by done. apply inv_addbackupentry; [by apply (inv_core d0 g s); [repeat split|]|done|]. right. split_and!; [done|done|]. left. split; [done|]. by apply eq_None_not_Some.
Qed.

Lemma inv_addentry_any d0 g s f o d : inv d0 g s -> file_ok f -> kind_of f = Appended -> 0 <= o <= zlen (view d0 ([], f)) ->
  (_addentry journalname (f, o, d) s).1 = Ok tt /\ inv d0 g (_addentry journalname (f, o, d) s).2.
Proof using journal_plain.
  intros Hi Hf Hk Ho. split; [unfold _addentry; by destruct (registered f s)|]. destruct (registered f s) eqn:Hr; [unfold _addentry; by rewrite Hr|by apply inv_addentry].
Qed.

Lemma inv_addentries d0 g q s : inv d0 g s -> (forall f o d, (f, o, d) ∈ q -> file_ok f /\ kind_of f = Appended /\ 0 <= o <= zlen (view d0 ([], f))) ->
  inv d0 g (each (_addentry journalname) q s).2.
Proof using journal_plain.
  revert s. induction q as [|[[f o] d] q IH]; intros s Hi Hq; [done|]. cbn [each]. unfold bind.
  destruct (Hq f o d) as (Hf & Hk & Ho); [by left|]. destruct (inv_addentry_any d0 g s f o d Hi Hf Hk Ho) as [E Hi']. destruct (_addentry journalname (f, o, d) s) as [r s1]. cbn [fst snd] in *.
  rewrite E. apply IH; [done|]. intros f' o' d' Hin. apply (Hq f' o' d'). by right.
Qed.

Lemma inv_set_queue d0 g s q : inv d0 g s -> (forall q' f o d, q' ∈ q -> (f, o, d) ∈ q' -> file_ok f /\ kind_of f = Appended /\ 0 <= o <= zlen (view d0 ([], f))) -> inv d0 g (set_queue q s).
Proof using journal_plain. intros [] Hq. by split. Qed.

Lemma inv_add d0 g s f o d : inv d0 g s -> file_ok f -> kind_of f = Appended -> 0 <= o <= zlen (view (fs (w s)) ([], f)) -> inv d0 g (add journalname (f, o, d) s).2.
Proof using journal_plain.
  intros Hi Hf Hk Ho. unfold add, active. case_decide; [done|]. cbn [fst]. destruct (registered f s) eqn:Hr; [done|].
  assert (0 <= o <= zlen (view d0 ([], f))) as Ho'.
  { unfold view in *. apply registered_false in Hr as [Hm Hb]. by rewrite <- (unregistered_file d0 g s [] f Hi Hf ltac:(congruence) ltac:(done) Hb). }
  destruct (last (queue s)) as [q|] eqn:Hq; [|by apply inv_addentry]. cbn [snd]. apply inv_set_queue; [done|]. intros q' f' o' d' [Hin|Hin]%elem_of_app Hin'.
  - apply (i_queue _ _ _ Hi q' f' o' d'); [|done]. by apply elem_of_take in Hin as (? & ?%list_elem_of_lookup_2 & _).
  - apply list_elem_of_singleton in Hin as ->. apply elem_of_app in Hin' as [Hin'|Hin']; [|by apply list_elem_of_singleton in Hin' as [= -> -> ->]].
    apply (i_queue _ _ _ Hi q f' o' d'); [|done]. apply last_Some in Hq as [l ->]. apply elem_of_app. right. by left.
Qed.

Lemma inv_endgroup d0 g s : inv d0 g s -> inv d0 g (endgroup journalname s).2.
Proof using journal_plain.
  intros Hi. unfold endgroup, active. case_decide; [done|]. destruct (last (queue s)) as [q|] eqn:Hq; [|done]. apply inv_addentries.
  - apply inv_set_queue; [done|]. intros q' f o d Hin. apply (i_queue _ _ _ Hi). by apply elem_of_take in Hin as (? & ?%list_elem_of_lookup_2 & _).
  - intros f o d. apply (i_queue _ _ _ Hi). apply last_Some in Hq as [l ->]. apply elem_of_app. right. by left.
Qed.

Lemma inv_replace d0 g s f o d o' d' c : inv d0 g s -> count s ≠ 0 -> (f, o, d) ∈ entries s -> 0 <= o' <= o -> o' <= zlen c ->
  inv d0 (<[f := c]> g) (replace journalname (f, o', d') (set_file ([], f) (Some c) s)).2.
Proof using journal_plain.
  intros Hi Hc Hin Ho Hlc. destruct (i_entry _ _ _ Hi _ _ _ Hin) as (Hf & Hk & _).
  assert (exists i, entries s !! i = Some (f, o, d)) as [i Hli] by (by apply list_elem_of_lookup).
  assert (map_ s !! f = Some i) as Hm by (apply (i_map _ _ _ Hi); by exists o, d). apply lookup_lt_Some in Hli as Hlt.
  unfold replace, active. rewrite decide_False by done. cbn [set_file set_w map_ entries fst snd]. rewrite Hm.
  rewrite (decide_False (P := (length (entries s) <= i)%nat)) by (apply Nat.lt_nge, Hlt).
  rewrite io_append. cbn [snd]. unfold set_file. cbn [w set_entries set_w]. set (x := file_set _ (Some (view _ _ ++ _)) _).
  assert (forall k, k ≠ ([], journalname) -> k ≠ ([], f) -> fs x !! k = fs (w s) !! k) as Hx by (intros k H1 H2; unfold x; by rewrite !file_set_lookup, !decide_False).
  assert (f ≠ journalname) as Hfj by (intros ->; apply Hf, journal_own).
  assert (fs x !! ([], f) = Some c) as Hxf by (unfold x; rewrite file_set_lookup, decide_False by congruence; by rewrite file_set_lookup, decide_True).
  assert (forall f1 o1 d1, (f1, o1, d1) ∈ <[i:=(f, o', d')]> (entries s) -> (f1, o1, d1) = (f, o', d') \/ f1 ≠ f /\ (f1, o1, d1) ∈ entries s) as Hent.
  { intros f1 o1 d1 [j Hj]%list_elem_of_lookup. destruct (decide (i = j)) as [<-|Hne]; [left; rewrite list_lookup_insert_eq in Hj by done; by injection Hj as <- <- <-|right].
    rewrite list_lookup_insert_ne in Hj by done. split; [|by eapply list_elem_of_lookup_2]. intros ->. apply Hne.
    assert (map_ s !! f = Some j) as E by (apply (i_map _ _ _ Hi); by exists o1, d1). congruence. }
  destruct (i_journal _ _ _ Hi) as (lg & Hlog & Hlog1 & Hlog2). pose proof Hi as Hi'. destruct Hi'.
  split; try done; cbn [map_ entries queue backupentries backupmap backupsbuf generators w set_w set_entries].
  - intros f1 j. rewrite i_map0. destruct (decide (i = j)) as [<-|Hne]; [|by setoid_rewrite list_lookup_insert_ne].
    split; intros (a & b & E); [rewrite Hli in E; injection E as <- <- <-; exists o', d'; by apply list_lookup_insert_eq|].
    rewrite list_lookup_insert_eq in E by done. injection E as <- <- <-. by exists o, d.
  - intros f1 o1 d1 [[= -> -> ->]|[Hne Hin1]]%Hent.
    + unfold base_view, view. rewrite Hxf, lookup_insert_eq. simpl. split_and!; [done|done|lia|done|done].
    + destruct (i_entry0 _ _ _ Hin1) as (Hf1 & ? & ? & ? & ?). unfold base_view, view. rewrite lookup_insert_ne by done.
      rewrite Hx; [done|intros [= ->]; apply Hf1, journal_own|congruence].
  - intros f1 Hm1. rewrite lookup_insert_ne; [by apply i_base0|intros ->; congruence].
  - intros [[[l f1] b] c1] Hin1. destruct (i_backup0 _ Hin1) as (? & ? & H). split; [done|]. split; [done|]. destruct H as [H|(A & B & C & H)]; [by left|right].
    split_and!; [done..|]. destruct H as [H|(-> & D & E)]; [by left|right]. split_and!; [done..|]. cbn. rewrite Hx; [done|..]; intros [= _ E'].
    + by apply backup_name_new in E'.
    + destruct Hf as (_ & _ & _ & Hown). apply Hown. rewrite <- E'. apply backup_name_own.
  - intros k Hown Hmk Ht. rewrite Hx; [by apply i_rest0|intros ->; apply Hown, journal_own|intros ->; by specialize (Hmk eq_refl); cbn in Hmk; congruence].
  - exists (lg ++ [(f, o')]). split; [|split].
    + unfold x. rewrite file_set_lookup, decide_True by done. unfold view. rewrite file_set_lookup, decide_False by congruence.
      rewrite Hlog, map_app, concat_app. cbn [map concat fst snd]. rewrite (app_nil_r (entry_line f o')). done.
    + assert ((f, o', d') ∈ <[i:=(f, o', d')]> (entries s)) as Hself by (apply (list_elem_of_lookup_2 _ i); by rewrite list_lookup_insert_eq).
      intros f1 o1 [Hin1|Hin1]%elem_of_app.
      * destruct (Hlog1 _ _ Hin1) as (o2 & d2 & Hin2 & Hle). destruct (decide (f1 = f)) as [->|Hne].
        { exists o', d'. split; [done|]. destruct (entry_unique _ _ _ _ _ _ _ _ Hi Hin Hin2) as [-> _]. lia. }
        exists o2, d2. split; [|done]. apply list_elem_of_lookup in Hin2 as [j Hj]. apply (list_elem_of_lookup_2 _ j). rewrite list_lookup_insert_ne; [done|]. intros <-.
        assert (Some ((f1, o2, d2) : entry) = Some (f, o, d)) as [= -> _ _] by (rewrite <- Hli; symmetry; exact Hj). done.
      * apply list_elem_of_singleton in Hin1 as [= -> ->]. by exists o', d'.
    + intros f1. rewrite last_offset_snoc, Hlog2, list_fmap_insert. destruct (decide (f = f1)) as [<-|Hne].
      * symmetry. apply last_offset_unique; [|rewrite <- list_fmap_insert; apply list_elem_of_fmap; exists (f, o', d'); split; [done|]; apply (list_elem_of_lookup_2 _ i); by rewrite list_lookup_insert_eq].
        rewrite <- list_fmap_insert. by intros o1 ([[f2 o2] d2] & [= -> ->] & [[= -> ->]|[? _]]%Hent)%list_elem_of_fmap.
      * symmetry. apply last_offset_insert with o; [done|]. rewrite list_lookup_fmap. exact (f_equal (fmap fst) Hli).
  - rewrite Hx; [done|intros [= E]; by apply eq_sym, name_backupfiles_ne in E|]. intros [= E]. destruct Hf as (_ & _ & _ & Hown). apply Hown. rewrite <- E. apply journal_own.
Qed.

(** ** Every step keeps the invariant *)

Lemma inv_flush d0 g s : inv d0 g s -> inv d0 g (flush s).
Proof using journal_plain.
  intros Hi. unfold flush, set_file. set (x := file_set _ _ _).
  assert (forall k, k ≠ ([], backupjournal journalname) -> fs x !! k = fs (w s) !! k) as Hx by (intros k Hne; unfold x; by rewrite file_set_lookup, decide_False).
  assert (forall k, ~ own k.2 -> fs x !! k = fs (w s) !! k) as Hxn by (intros k Hk; apply Hx; intros ->; apply Hk, journal_own).
  pose proof (i_backupjournal _ _ _ Hi) as HB. destruct Hi. split; try done; cbn [map_ entries queue backupentries backupmap backupsbuf generators w set_w set_backups].
  - intros f' o d Hin. destruct (i_entry0 _ _ _ Hin) as (Hf' & ? & ? & ? & ?). unfold view. rewrite Hxn by apply Hf'. done.
  - intros [[[l' f'] b'] c] Hin. destruct (i_backup0 _ Hin) as (? & ? & H'). split; [done|]. split; [done|]. destruct H' as [H'|(A & B & C & H')]; [by left|right].
    split_and!; [done|done|done|]. destruct H' as [H'|(-> & D & E)]; [by left|right]. split_and!; [done..|]. cbn. rewrite Hx; [done|]. intros [= _ E']. by apply backup_name_new in E'.
  - intros k Hk Hm Ht. rewrite Hxn by done. by apply i_rest0.
  - rewrite Hx; [done|]. intros [= E]. by apply name_backupfiles_ne in E.
  - right. split; [|done]. unfold x. rewrite file_set_lookup, decide_True by done. unfold view.
    destruct HB as [(-> & -> & ->)|[-> ->]]; [done|]. cbn [map concat]. change (default [] (Some ?y)) with y. by rewrite app_nil_r.
Qed.

Lemma step_inv d0 p p' : step p p' -> inv d0 p.2 p.1 -> inv d0 p'.2 p'.1.
Proof using journal_plain.
  intros H Hi. destruct H; cbn [fst snd] in *.
  - by apply inv_add.
  - unfold startgroup, active. case_decide; [done|]. apply inv_set_queue; [done|]. intros q f o d [Hin|Hin]%elem_of_app Hin'; [by apply (i_queue _ _ _ Hi q f o d)|].
    apply list_elem_of_singleton in Hin as ->. by apply not_elem_of_nil in Hin'.
  - by apply inv_endgroup.
  - by apply inv_register.
  - unfold registertmp, active. case_decide; [done|]. apply inv_addbackupentry; [done|done|by left].
  - by apply (inv_grow d0 g s f o d).
  - apply inv_write; [done|]. apply Exists_exists. eexists. split; [done|]. unfold target. by rewrite decide_False.
  - apply inv_write; [done|]. apply Exists_exists. eexists. split; [done|]. unfold target. by rewrite decide_True.
  - by apply (inv_replace d0 g s f o d).
  - destruct Hi. by split.
  - by apply inv_flush.
  - by apply (inv_core d0 g s).
Qed.

Lemma steps_inv d0 p p' : rtc step p p' -> inv d0 p.2 p.1 -> inv d0 p'.2 p'.1.
Proof using journal_plain. induction 1; [done|]. intros Hi. by apply IHrtc, (step_inv d0 x). Qed.

(** ** Rolling back *)

(** What a rollback makes of a file: temporary files are gone, files with a backup are
    as they were, files that only grew are cut to the length noted for them. *)
Definition restored (unlink : bool) (d0 : disk) (g : gmap bytes bytes) (s : tx) (k : bytes * bytes) : option bytes :=
  if decide (targets (backupentries s) k) then (if decide (kind_of k.2 = Temporary) then None else d0 !! k)
  else if decide (k.1 = []) then
    match last_offset (entries s).*1 k.2 with
    | Some m => if decide (m = 0 /\ unlink = true) then None else Some (take (Z.to_nat m) (base_view d0 g k.2))
    | None => d0 !! k
    end
  else d0 !! k.

Definition wanted (d0 : disk) (k : bytes * bytes) : option bytes := if decide (kind_of k.2 = Temporary) then None else d0 !! k.

Lemma backup_restores d0 s x e : backup_ok d0 s e -> (forall k, fs x !! k = fs (w s) !! k) ->
  restores (wanted d0) (fs x) e /\ forall k, source e = Some k -> own k.2.
Proof using journal_plain.
  destruct e as [[[l f] b] c]. intros (_ & _ & He) Hx. unfold restores, target, source, wanted.
  destruct He as [(-> & _ & Hk)|((Hne & _) & Hk & _ & He)].
  - rewrite (decide_True (P := @nil ascii = [])) by done. rewrite (decide_False (P := @nil ascii ≠ [] /\ _)) by (intros [? _]; done). cbn [snd]. by rewrite decide_True.
  - rewrite (decide_False (P := f = [])) by done. cbn [snd]. rewrite Hk, decide_False by done. destruct He as [(-> & Hd)|(-> & Hd & Hf)].
    + rewrite decide_False by tauto. done.
    + rewrite decide_True by (split; [done|apply backup_name_new]). rewrite Hx, Hf. split; [split; [done|]|]; intros k [= <-]; [by rewrite Hx, Hf|apply backup_name_own].
Qed.

Lemma entry_offset d0 g s f o d : inv d0 g s -> (f, o, d) ∈ entries s -> last_offset (entries s).*1 f = Some o.
Proof using journal_plain.
  intros Hi Hin. apply last_offset_unique; [|apply list_elem_of_fmap; by exists (f, o, d)]. intros o' ([[f' o''] d'] & [= -> ->] & Hin')%list_elem_of_fmap.
  by destruct (entry_unique _ _ _ _ _ _ _ _ Hi Hin Hin') as [-> _].
Qed.

Lemma offset_entry d0 g s f o : inv d0 g s -> last_offset (entries s).*1 f = Some o -> exists d, (f, o, d) ∈ entries s.
Proof using journal_plain. intros Hi ([[f' o'] d] & [= -> ->] & Hin)%last_offset_in%list_elem_of_fmap. by exists d. Qed.

Lemma unregistered_offset d0 g s f : inv d0 g s -> last_offset (entries s).*1 f = None -> map_ s !! f = None.
Proof using journal_plain.
  intros Hi Hl. destruct (map_ s !! f) as [i|] eqn:E; [|done]. apply (i_map _ _ _ Hi) in E as (o & d & Hin%list_elem_of_lookup_2).
  by rewrite (entry_offset d0 g s f o d) in Hl.
Qed.

Lemma played_restored d0 g s x es unlink k : inv d0 g s -> (forall k, fs x !! k = fs (w s) !! k) -> (forall f, last_offset es f = last_offset (entries s).*1 f) -> ~ own k.2 ->
  (if decide (targets (backupentries s) k) then wanted d0 k else played unlink es (fs x) k) = restored unlink d0 g s k.
Proof using journal_plain.
  intros Hi Hx Hes Hk. unfold restored. case_decide as Ht; [done|]. unfold played. case_decide as Hl; [|by rewrite Hx; apply (i_rest _ _ _ Hi)].
  rewrite Hes. destruct (last_offset (entries s).*1 k.2) as [m|] eqn:E.
  - case_decide; [done|]. destruct (offset_entry _ _ _ _ _ Hi E) as [d Hin]. destruct (i_entry _ _ _ Hi _ _ _ Hin) as (_ & _ & _ & _ & Ht').
    f_equal. rewrite <- Ht'. unfold view. rewrite Hx. destruct k as [l f]. cbn in *. by subst l.
  - rewrite Hx. apply (i_rest _ _ _ Hi); [done| |done]. intros _. by apply (unregistered_offset d0 g).
Qed.

Lemma playback_inv d0 g s x es m unlink : inv d0 g s -> (forall k, fs x !! k = fs (w s) !! k) ->
  (forall f o, (f, o) ∈ es -> exists o' d, (f, o', d) ∈ entries s /\ o' <= o) -> (forall f, last_offset es f = last_offset (entries s).*1 f) ->
  (forall e : backup_entry, target (m e) = target e /\ source (m e) = source e /\ (m e).1.1.1 = e.1.1.1) ->
  exists x', _playback journalname vfsmap es (map m (backupentries s)) unlink x = (Ok tt, x') /\ reports x' = reports x /\
    (forall k, ~ own k.2 -> fs x' !! k = restored unlink d0 g s k) /\
    (forall k, own k.2 -> fs x' !! k = if decide (k.1 = [] /\ (k.2 = journalname \/ k.2 = name_backupfiles journalname \/ k.2 ∈ (sources (backupentries s)).*2)) then None else fs (w s) !! k).
Proof using journal_plain.
  intros Hi Hx Hes1 Hes2 Hm. pose proof journal_own as [HJ HB].
  assert (forall k, targets (map m (backupentries s)) k <-> targets (backupentries s) k) as Htm.
  { intros k. unfold targets. rewrite !Exists_exists. setoid_rewrite list_elem_of_In. setoid_rewrite in_map_iff. split.
    - intros (e & (e' & <- & Hin) & Ht). exists e'. split; [done|]. by rewrite <- (proj1 (Hm e')).
    - intros (e & Hin & Ht). exists (m e). split; [by exists e|]. by rewrite (proj1 (Hm e)). }
  assert (sources (map m (backupentries s)) = sources (backupentries s)) as Hsm.
  { unfold sources. clear -Hm. induction (backupentries s) as [|e l IH]; [done|]. cbn. destruct (Hm e) as (_ & -> & _). destruct (source e); by rewrite IH. }
  destruct (playback_spec journalname vfsmap es (map m (backupentries s)) unlink x (wanted d0) own) as (x' & E & R & F1 & F2).
  - intros f o m' Hin Hl. rewrite Hes2 in Hl. destruct (offset_entry _ _ _ _ _ Hi Hl) as [d Hin']. destruct (i_entry _ _ _ Hi _ _ _ Hin') as (_ & _ & H0 & Hlen & _).
    destruct (Hes1 _ _ Hin) as (o' & d' & Hin2 & Hle). destruct (entry_unique _ _ _ _ _ _ _ _ Hi Hin' Hin2) as [<- _]. unfold view. rewrite Hx. split; [lia|done].
  - intros f o Hin. destruct (Hes1 _ _ Hin) as (o' & d' & Hin2 & _). apply (i_entry _ _ _ Hi _ _ _ Hin2).
  - intros e' (e & <- & Hin)%list_elem_of_In%in_map_iff. apply list_elem_of_In in Hin. destruct (Hm e) as (E1 & E2 & E3). unfold restores. rewrite E1, E2, E3.
    destruct (backup_restores d0 s x e (i_backup _ _ _ Hi _ Hin) Hx) as [Hr Hs].
    split_and!; [by destruct e as [[[l f] b] c]; apply (i_backup _ _ _ Hi) in Hin as [? _]|apply Hr|apply Hr| |done].
    apply (target_kind d0 g s); [done|]. apply Exists_exists. by exists e.
  - done.
  - done.
  - rewrite Hx. destruct (i_journal _ _ _ Hi) as (lg & -> & _). by eexists.
  - exists x'. split; [done|]. split; [done|]. split.
    + intros k Hk. rewrite F1 by done. rewrite <- (played_restored d0 g s x es) by done. destruct (decide (targets (backupentries s) k)) as [Ht|Ht].
      * by rewrite decide_True by (by apply Htm).
      * by rewrite decide_False by (by rewrite Htm).
    + intros k Hk. rewrite F2 by done. by rewrite Hsm, Hx.
Qed.
End safety.
End TransactionSafety.
