(* ===== verification/TransactionRollback.v ===== *)
(** * Abort, recovery and commit of transactions

    The guarantees of a transaction as its users see them, from the invariant of its
    steps: an abort or a recovery after a crash brings the files back, whatever the
    callbacks and the file generators do within their promise; a commit keeps the files
    and cleans up. *)

From S2P Require Import Prelude Lines Struct PyFormat ManifestText Transaction TransactionPlay TransactionSafety.

Module TransactionRollback.
Import ManifestText(NUL).
Import Transaction TransactionPlay TransactionSafety.

Section rollback.
Context {cb : Type} (run : cb -> st (tx (cb := cb)) bool) (releasefn : bool -> st (tx (cb := cb)) unit) (after : st (tx (cb := cb)) unit).
Context (vfsmap : gset bytes) (journalname : bytes) (undoname : option bytes) (kind_of : bytes -> kind).

Notation tx := (tx (cb := cb)).
Notation own := (family journalname).
Notation step := (step vfsmap journalname kind_of).
Notation inv := (inv vfsmap journalname kind_of).
Notation restored := (restored kind_of).

Hypothesis locations_plain : forall l, l ∈ vfsmap -> plain l.
Hypothesis journal_plain : plain journalname /\ slash ∉ journalname.

(** ** Recovery *)

Lemma as_read_same e : target (as_read e) = target e /\ source (as_read e) = source e /\ (as_read e).1.1.1 = e.1.1.1.
Proof using Type. by destruct e as [[[l f] b] c]. Qed.

Lemma entries_plain d0 g (s : tx) lg : inv d0 g s -> (forall f o, (f, o) ∈ lg -> exists o' d, (f, o', d) ∈ entries s /\ o' <= o) -> Forall (fun e => plain e.1 /\ 0 <= e.2) lg.
Proof using Type.
  clear locations_plain journal_plain. intros Hi H. apply Forall_forall. intros [f o] Hin. destruct (H _ _ Hin) as (o' & d & Hin' & Hle).
  destruct (i_entry _ _ _ _ _ _ Hi _ _ _ Hin') as ((_ & Hp & _) & _ & H0 & _). split; [done|]. cbn. lia.
Qed.

Lemma backups_plain d0 g (s : tx) : inv d0 g s -> Forall plain_backup (backupentries s).
Proof using locations_plain journal_plain.
  intros Hi. apply Forall_forall. intros [[[l f] b] c] Hin. apply (i_backup _ _ _ _ _ _ Hi) in Hin as (Hl & _ & He).
  assert (plain []) as Hnil by (split; apply not_elem_of_nil). split; [by apply locations_plain|].
  destruct He as [(-> & (_ & Hb & _) & _)|((_ & Hf & _) & _ & _ & [(-> & _)|(-> & _)])]; split; try done. by apply backup_name_plain.
Qed.

Lemma recover_spec d0 g (s : tx) x : inv d0 g s -> (forall k, fs x !! k = fs (w s) !! k) ->
  exists x', rollback vfsmap journalname x = (Ok tt, x') /\ reports x' = reports x /\ fs x' !! ([], journalname) = None /\
    forall k, ~ own k.2 -> fs x' !! k = restored true d0 g s k.
Proof using locations_plain journal_plain.
  intros Hi Hx. destruct (i_journal _ _ _ _ _ _ Hi) as (lg & Hlog & Hlog1 & Hlog2). pose proof (entries_plain d0 g s lg Hi Hlog1) as Hpl. pose proof (backups_plain d0 g s Hi) as Hpb.
  unfold rollback, bind, readlines. rewrite Hx, Hlog. rewrite splitnewlines_lines_only.
  2:{ apply Forall_map. eapply Forall_impl; [exact Hpl|]. intros [f o] [? ?]. by apply entry_line_full. }
  rewrite read_entries_spec by done. rewrite (read_backupjournal_spec _ (backupentries s)); [|done|].
  2:{ rewrite Hx. destruct (i_backupjournal _ _ _ _ _ _ Hi) as [(? & ? & _)|[? _]]; [by left|by right]. }
  destruct (playback_inv vfsmap journalname kind_of journal_plain d0 g s x lg as_read true Hi Hx Hlog1 Hlog2 as_read_same) as (x' & E & R & F1 & F2).
  exists x'. split_and!; [done|done| |done]. rewrite F2 by (by left). rewrite decide_True; [done|]. split; [done|by left].
Qed.

(** ** Code that keeps its promise *)

(** Whatever it returns, it has made steps of a client. *)
Definition works {A} (m : st tx A) : Prop := forall d0 s g, inv d0 g s -> exists g', rtc step (s, g) ((m s).2, g').

Lemma works_bind {A B} (m : st tx A) (k : A -> st tx B) : works m -> (forall a, works (k a)) -> works (bind m k).
Proof using journal_plain.
  intros Hm Hk d0 s g Hi. destruct (Hm d0 s g Hi) as [g1 H1]. unfold bind. pose proof (steps_inv _ _ _ journal_plain d0 _ _ H1 Hi) as Hi1.
  destruct (m s) as [[a|e] s1]; cbn [fst snd] in *; [|by exists g1]. destruct (Hk a d0 s1 g1 Hi1) as [g2 H2]. exists g2. by etrans.
Qed.

Lemma works_core {A} (m : st tx A) : (forall s, same_core s (m s).2) -> works m.
Proof using Type. intros H d0 s g _. exists g. by apply rtc_once, step_quiet. Qed.

Lemma works_get {A} (k : tx -> st tx A) : (forall s d0 g, inv d0 g s -> exists g', rtc step (s, g) ((k s s).2, g')) -> works (bind get k).
Proof using Type. intros H d0 s g Hi. by apply (H s d0 g). Qed.

Lemma works_each {X} (f : X -> st tx unit) l : (forall x, x ∈ l -> works (f x)) -> works (each f l).
Proof using journal_plain.
  induction l as [|x l IH]; intros H; cbn [each]; [by apply works_core; intros s; repeat split|].
  apply works_bind; [apply H; by left|]. intros _. apply IH. intros y Hy. apply H. by right.
Qed.

Lemma works_ret {A} (a : A) : works (ret a).
Proof using Type. apply works_core. by intros s; repeat split. Qed.

Lemma works_raise {A} (e : pyerr) : works (raise (A := A) e).
Proof using Type. apply works_core. by intros s; repeat split. Qed.

(** ** File generators *)

Lemma step_target (s : tx) g k c : targets (backupentries s) k -> step (s, g) (set_file k c s, g).
Proof using Type.
  intros ([[[l f] b] x] & Hin & <-)%Exists_exists. unfold target. destruct (decide (f = [])) as [->|Hf]; [by eapply step_tmp|by eapply step_write].
Qed.

Lemma works_close loc opened contents d0 (s : tx) g : inv d0 g s -> (forall n, n ∈ opened -> targets (backupentries s) (loc, n)) ->
  rtc step (s, g) ((io (close_files loc opened contents) s).2, g) /\ (io (close_files loc opened contents) s).1 = Ok tt.
Proof using journal_plain.
  revert contents s. induction opened as [|n opened IH]; intros contents s Hi Hn.
  { unfold io, close_files, ret. split; [|done]. apply rtc_once, step_quiet. by repeat split. }
  set (s1 := set_file (loc, n) (Some (default [] (head contents))) s).
  assert (io (close_files loc (n :: opened) contents) s = io (close_files loc opened (tail contents)) s1) as -> by done.
  assert (step (s, g) (s1, g)) as Hs by (apply step_target, Hn; by left).
  destruct (IH (tail contents) s1) as [H1 H2]; [by apply (step_inv _ _ _ journal_plain d0 _ _ Hs)|intros n' Hn'; apply Hn; by right|].
  split; [by eapply rtc_l|done].
Qed.

Lemma addbackup_result d0 g (s : tx) f l : inv d0 g s -> kind_of f = Backed l -> file_ok journalname f -> l ∈ vfsmap ->
  let '(r, s') := addbackup vfsmap journalname f l s in
  (forall k, targets (backupentries s) k -> targets (backupentries s') k) /\ (r = Ok tt -> targets (backupentries s') (l, f)).
Proof using journal_plain.
  intros Hi Hk Hf Hl. unfold addbackup, active. case_decide; [done|]. case_decide; [done|]. destruct (registered f s) eqn:Hr.
  { split; [done|]. intros _. unfold registered in Hr. apply bool_decide_eq_true in Hr as [Hm|Hb].
    - exfalso. destruct Hm as [i (o & d & Hin%list_elem_of_lookup_2)%(i_map _ _ _ _ _ _ Hi)]. apply (i_entry _ _ _ _ _ _ Hi) in Hin as (_ & Hk' & _). congruence.
    - destruct (i_backupmap _ _ _ _ _ _ Hi f (proj1 Hf) Hb) as (l' & b & Hin). pose proof (i_backup _ _ _ _ _ _ Hi _ Hin) as (_ & _ & [(? & _)|(_ & Hk' & _)]); [by destruct Hf|].
      assert (l' = l) as -> by congruence. apply Exists_exists. eexists. split; [done|]. unfold target. rewrite decide_False; [done|apply Hf]. }
  rewrite decide_False by tauto.
  assert (forall b (s1 : tx), backupentries s1 = backupentries s -> let s' := (_addbackupentry journalname (l, f, b, false) s1).2 in
    (forall k, targets (backupentries s) k -> targets (backupentries s') k) /\ targets (backupentries s') (l, f)) as Ha.
  { intros b s1 E. cbn. rewrite E. split; [intros k Ht; apply Exists_app; by left|]. apply Exists_app. right. apply Exists_cons_hd. unfold target. rewrite decide_False; [done|apply Hf]. }
  unfold bind at 1. unfold io at 1, exists_. cbn [fst snd]. destruct (bool_decide _).
  - unfold bind at 1. unfold io at 1. destruct (copyfile (l, f) (l, backup_name journalname f) (w (set_w (w s) s))) as [[[]|e] x'].
    + specialize (Ha (backup_name journalname f) (set_w x' (set_w (w s) s)) eq_refl). destruct (_addbackupentry _ _ _) as [r s']. split; [apply Ha|intros _; apply Ha].
    + split; [done|done].
  - specialize (Ha [] (set_w (w s) s) eq_refl). destruct (_addbackupentry _ _ _) as [r s']. split; [apply Ha|intros _; apply Ha].
Qed.

Lemma registertmp_result (s : tx) t l : let '(r, s') := registertmp journalname t l s in
  (forall k, targets (backupentries s) k -> targets (backupentries s') k) /\ (r = Ok tt -> targets (backupentries s') (l, t)).
Proof using Type.
  unfold registertmp, active. case_decide; [done|]. cbn. split; [intros k Ht; apply Exists_app; by left|]. intros _. apply Exists_app. right. apply Exists_cons_hd.
  unfold target. by rewrite decide_True.
Qed.

Definition suffix_ok (suffix : bytes) : Prop := suffix = [] \/ suffix = bs ".pending".

Lemma open_files_spec suffix x names : suffix_ok suffix -> generator_ok vfsmap journalname kind_of x -> (forall n, n ∈ names -> n ∈ g_files x) -> forall d0 (s : tx) g opened,
  inv d0 g s -> (forall n, n ∈ opened -> targets (backupentries s) (g_loc x, n)) ->
  exists opened' e s', open_files vfsmap journalname suffix (g_loc x) names opened s = (Ok (opened', e), s') /\ rtc step (s, g) (s', g) /\
    forall n, n ∈ opened' -> targets (backupentries s') (g_loc x, n).
Proof using journal_plain.
  intros Hs [Hloc Hx]. induction names as [|n names IH]; intros Hn d0 s g opened Hi Ho; cbn [open_files]; [by exists opened, None, s|].
  destruct (Hx n) as (N1 & N2 & N3 & N4); [apply Hn; by left|].
  assert (exists r s1, (if decide (suffix ≠ []) then registertmp journalname (n ++ suffix) (g_loc x) else addbackup vfsmap journalname (n ++ suffix) (g_loc x)) s = (r, s1) /\
    rtc step (s, g) (s1, g) /\ (forall k, targets (backupentries s) k -> targets (backupentries s1) k) /\ (r = Ok tt -> targets (backupentries s1) (g_loc x, n ++ suffix)))
    as (r & s1 & -> & H1 & H2 & H3).
  { destruct Hs as [->| ->].
    - rewrite decide_False by tauto. rewrite app_nil_r. pose proof (addbackup_result d0 g s n (g_loc x) Hi N2 N1 Hloc) as Hr.
      pose proof (step_addbackup vfsmap journalname kind_of n (g_loc x) s g N1 N2 Hloc) as Hst. destruct (addbackup _ _ _ _ s) as [r s1]. exists r, s1. split; [done|]. split; [by apply rtc_once|done].
    - rewrite decide_True by done. pose proof (registertmp_result s (n ++ bs ".pending") (g_loc x)) as Hr.
      pose proof (step_registertmp vfsmap journalname kind_of (n ++ bs ".pending") (g_loc x) s g N3 N4 Hloc) as Hst. destruct (registertmp _ _ _ s) as [r s1]. exists r, s1. split; [done|]. split; [by apply rtc_once|done]. }
  destruct r as [[]|e]; [|exists opened, (Some e), s1; split; [done|]; split; [done|]; auto].
  destruct (IH ltac:(intros m Hm; apply Hn; by right) d0 s1 g (opened ++ [n ++ suffix])) as (opened' & e & s' & E & Hst & Ht).
  - by apply (steps_inv _ _ _ journal_plain d0 _ _ H1).
  - intros m [Hm|Hm]%elem_of_app; [auto|]. apply list_elem_of_singleton in Hm as ->. by apply H3.
  - exists opened', e, s'. split; [done|]. split; [by etrans|done].
Qed.

Lemma generate_works suffix x : suffix_ok suffix -> generator_ok vfsmap journalname kind_of x -> works (generate vfsmap journalname suffix x).
Proof using journal_plain.
  intros Hs Hx d0 s g Hi. exists g. unfold generate. rewrite decide_False by (intros H; apply H, Hx).
  destruct (open_files_spec suffix x (g_files x) Hs Hx ltac:(done) d0 s g [] Hi) as (opened & e & s1 & E & H1 & Ht); [by intros n ?%not_elem_of_nil|].
  pose proof (steps_inv _ _ _ journal_plain d0 _ _ H1 Hi) as Hi1. unfold bind at 1. rewrite E. destruct e as [e|].
  - destruct (works_close (g_loc x) opened [] d0 s1 g Hi1 Ht) as [H2 H3]. unfold bind. destruct (io _ s1) as [r s2]. cbn [fst snd] in *. subst r. by etrans.
  - unfold bind at 1, get. destruct (g_func x (fs (w s1))) as [contents e]. destruct (works_close (g_loc x) opened contents d0 s1 g Hi1 Ht) as [H2 H3].
    unfold bind. destruct (io _ s1) as [r s2]. cbn [fst snd] in *. subst r. destruct e; by etrans.
Qed.

Lemma generatefiles_works suffix grp : suffix_ok suffix -> works (_generatefiles vfsmap journalname suffix grp).
Proof using journal_plain.
  intros Hs. unfold _generatefiles. apply works_get. intros s d0 g Hi. pose proof (i_generators _ _ _ _ _ _ Hi) as Hg.
  refine (works_bind _ _ _ _ d0 s g Hi); [|intros _; apply works_ret]. apply works_each. intros id _. destruct (generators s !! id) as [x|] eqn:E; [|apply works_ret].
  case_decide; [apply works_ret|]. apply generate_works; [done|]. by apply (Hg id).
Qed.

(** ** Callbacks *)

Hypothesis run_works : forall c, works (run c).

Lemma run_category_works table c : works (run_category run table c).
Proof using run_works.
  intros d0 s g Hi. unfold run_category. destruct (table s !! c) as [k|]; [by apply (run_works k d0)|]. by exists g.
Qed.

Lemma run_all_works table : works (run_all run table).
Proof using run_works journal_plain.
  unfold run_all. apply works_get. intros s d0 g Hi. refine (works_each _ _ _ d0 s g Hi). intros c _. apply works_bind; [apply run_category_works|intros _; apply works_ret].
Qed.

Lemma pop_pending_works c : works (pop_pending run c).
Proof using run_works journal_plain.
  intros d0 s g Hi. unfold pop_pending. destruct (pendingcallback s !! c) as [k|]; [|by exists g].
  set (s1 := set_callbacks _ _ _ _ s). assert (step (s, g) (s1, g)) as Hs by (apply step_quiet; by repeat split).
  assert (works (let! any := run k in modify (fun s => set_flags (anypending s || any) (validator s) s))) as Hw.
  { apply works_bind; [apply run_works|]. intros any. apply works_core. by intros s'; repeat split. }
  destruct (Hw d0 s1 g) as [g' H]; [by apply (step_inv _ _ _ journal_plain d0 _ _ Hs)|]. exists g'. by eapply rtc_l.
Qed.

Lemma works_active {A} (m : st tx A) : works m -> works (active m).
Proof using Type. intros H d0 s g Hi. unfold active. case_decide; [by exists g|by apply (H d0)]. Qed.

Lemma writepending_works : works (writepending run vfsmap journalname).
Proof using run_works journal_plain.
  unfold writepending. apply works_active, works_get. intros s d0 g Hi.
  refine (works_bind _ _ (works_each _ _ (fun c _ => pop_pending_works c)) _ d0 s g Hi). intros _. apply works_bind; [apply generatefiles_works; by right|]. intros any.
  apply works_bind; [by apply works_core; intros s'; repeat split|]. intros _. apply works_get. intros s' d0' g' _. by exists g'.
Qed.

Lemma finish_works : works (finish run vfsmap journalname).
Proof using run_works journal_plain.
  unfold finish. apply works_get. intros s d0 g Hi. destruct (validator s) as [v|]; [|by exists g].
  refine (works_bind _ _ (run_works v) _ d0 s g Hi). intros _. apply works_bind; [by apply works_core; intros s'; repeat split|]. intros _.
  apply works_bind; [apply generatefiles_works; by left|]. intros _. apply works_bind; [apply run_all_works|]. intros _.
  apply works_bind; [by apply works_core; intros s'; repeat split|]. intros _. apply works_bind; [apply generatefiles_works; by left|]. intros _. apply works_ret.
Qed.

(** ** Abort *)

(** An abort takes the count of scopes to zero; from then on nothing can be registered,
    and no code but the transaction's own sets the count. *)
Definition aborting (p p' : tx * gmap bytes bytes) : Prop := step p p' /\ count p'.1 = 0.

(** Abort callbacks that keep the promise: they may change registered files, and may
    raise. *)
Definition aborts {A} (m : st tx A) : Prop := forall d0 s g, inv d0 g s -> count s = 0 -> rtc aborting (s, g) ((m s).2, g).

(** What is to be undone is fixed once the abort has begun. *)
Definition same_notes (p p' : tx * gmap bytes bytes) : Prop :=
  entries p'.1 = entries p.1 /\ backupentries p'.1 = backupentries p.1 /\ p'.2 = p.2.

Lemma aborting_notes p p' : step p p' -> count p.1 = 0 -> same_notes p p'.
Proof using Type.
  intros H. destruct H as [f o d s g|s g|s g|f l s g|t l s g|f o d c s g|l f b y c s g|l t y c s g|f o d o' d' c s g Hc|m s g|s g|s s' g (E1 & _ & _ & E4 & _)];
    cbn [fst]; intros Hcount; try done; unfold same_notes, add, startgroup, endgroup, addbackup, registertmp, active; cbn [fst snd]; by rewrite ?decide_True by done.
Qed.

Lemma abortings_notes p p' : rtc aborting p p' -> count p.1 = 0 -> same_notes p p' /\ count p'.1 = 0.
Proof using Type.
  induction 1 as [|p p1 p' [H1 Hc1] _ IH]; intros Hc; [done|]. destruct (IH Hc1) as [(E1 & E2 & E3) Hc']. destruct (aborting_notes _ _ H1 Hc) as (F1 & F2 & F3).
  split; [|done]. unfold same_notes. by rewrite E1, E2, E3.
Qed.

Section aborted.
Hypothesis run_aborts : forall c, aborts (run c).
Hypothesis releasefn_ok : forall b s, w (releasefn b s).2 = w s.
Context (d0 : disk) (g : gmap bytes bytes) (s : tx).

(** The states the abort callbacks can lead to. *)
Definition same_abort (s' : tx) : Prop := inv d0 g s' /\ count s' = 0 /\ entries s' = entries s /\ backupentries s' = backupentries s.

Definition keeps {A} (m : st tx A) : Prop := forall s', same_abort s' -> same_abort (m s').2.

Lemma keeps_bind {A B} (m : st tx A) (k : A -> st tx B) : keeps m -> (forall a, keeps (k a)) -> keeps (bind m k).
Proof using Type. intros Hm Hk s1 H1. specialize (Hm s1 H1). unfold bind. destruct (m s1) as [[a|e] s2]; [by apply Hk|done]. Qed.

Lemma keeps_run c : keeps (run c).
Proof using run_aborts journal_plain.
  intros s' (Hi & Hc & E1 & E2). pose proof (run_aborts c d0 s' g Hi Hc) as H. destruct (abortings_notes _ _ H Hc) as [(F1 & F2 & _) Hc']. cbn [fst snd] in *.
  split_and!; [|done|congruence|congruence]. apply (steps_inv _ _ _ journal_plain d0 (s', g) ((run c s').2, g)); [|done].
  clear -H. induction H as [|p p1 p' [H1 _] _ IH]; [done|by eapply rtc_l].
Qed.

Lemma keeps_callbacks table l : keeps (each (fun c => run_category run table c ;;; ret tt) l).
Proof using run_aborts journal_plain.
  induction l as [|c l IH]; cbn [each]; [by intros s' ?|]. apply keeps_bind; [|done]. apply keeps_bind; [|by intros [] s' ?].
  intros s' H. unfold run_category. destruct (table s' !! c) as [k|]; [by apply keeps_run|done].
Qed.

Lemma keeps_run_all table : keeps (run_all run table).
Proof using run_aborts journal_plain. intros s' H. unfold run_all. by apply (keeps_bind get); [intros ? ?|intros s1; apply keeps_callbacks|]. Qed.

Lemma same_abort_restored s' unlink k : same_abort s' -> restored unlink d0 g s' k = restored unlink d0 g s k.
Proof using Type. intros (_ & _ & E1 & E2). unfold TransactionSafety.restored. by rewrite E1, E2. Qed.
End aborted.

(** The files are back as the notes of the transaction say: those that only grew are cut
    to the length noted, those with a backup have the content from before, temporary
    files are gone, nothing else was changed, and the journal is removed.  If the lengths
    were noted before the files grew this is what there was before. *)
Record restored_to (unlink : bool) (d0 : disk) (g : gmap bytes bytes) (s : tx) (x : world) : Prop := {
  rt_journal : fs x !! ([], journalname) = None;
  rt_files k : ~ own k.2 -> fs x !! k = restored unlink d0 g s k;
  rt_before : g = ∅ -> (forall f o d, (f, o, d) ∈ entries s -> o = zlen (view d0 ([], f))) ->
    forall k, ~ own k.2 -> kind_of k.2 ≠ Temporary -> view (fs x) k = view d0 k
}.

(** Files whose length was noted before they grew, and that were not rewritten with
    [replace], are back to their content; so are those with a backup. *)
Lemma restored_view d0 (s : tx) unlink k :
  inv d0 ∅ s -> (forall f o d, (f, o, d) ∈ entries s -> o = zlen (view d0 ([], f))) -> kind_of k.2 ≠ Temporary ->
  default [] (restored unlink d0 ∅ s k) = view d0 k.
Proof using journal_plain.
  intros Hi Hsize Hk. unfold TransactionSafety.restored. rewrite (decide_False (P := kind_of k.2 = Temporary)) by done. case_decide; [done|]. case_decide as Hl; [|done].
  destruct (last_offset (entries s).*1 k.2) as [m|] eqn:E; [|done]. destruct (offset_entry _ _ _ journal_plain _ _ _ _ _ Hi E) as [d Hin]. apply Hsize in Hin as ->.
  destruct k as [l f]. cbn in *. subst l. unfold base_view. rewrite lookup_empty. cbn [default from_option].
  assert (take (Z.to_nat (zlen (view d0 ([], f)))) (view d0 ([], f)) = view d0 ([], f)) as Ht by (apply take_ge; unfold zlen; lia).
  case_decide as Hd; [|simpl; by rewrite Ht]. simpl. destruct Hd as [Hd _]. unfold zlen in Hd. symmetry. apply nil_length_inv. lia.
Qed.

Lemma restored_to_intro unlink d0 g (s : tx) x : inv d0 g s -> fs x !! ([], journalname) = None ->
  (forall k, ~ own k.2 -> fs x !! k = restored unlink d0 g s k) -> restored_to unlink d0 g s x.
Proof using journal_plain. intros Hi HJ HF. split; [done|done|]. intros -> Hsize k Hk Ht. unfold view at 1. rewrite HF by done. by apply restored_view. Qed.

Lemma restored_to_notes unlink d0 g (s s' : tx) x : entries s' = entries s -> backupentries s' = backupentries s ->
  restored_to unlink d0 g s' x -> restored_to unlink d0 g s x.
Proof using Type. intros E1 E2 [H1 H2 H3]. unfold TransactionSafety.restored in *. rewrite E1, E2 in *. by split. Qed.

Lemma roll_back_empty d0 g (s : tx) : inv d0 g s -> entries s = [] -> backupentries s = [] ->
  exists s', roll_back run vfsmap journalname s = (Ok tt, s') /\ restored_to false d0 g s (w s').
Proof using journal_plain.
  intros Hi He Hb. unfold roll_back, bind, get. rewrite decide_True by done. rewrite (i_name _ _ _ _ _ _ Hi). rewrite decide_False by done.
  destruct (i_journal _ _ _ _ _ _ Hi) as (lg & Hlog & _). assert (is_Some (fs (w s) !! ([], backupjournal journalname))) as Hbj.
  { destruct (i_backupjournal _ _ _ _ _ _ Hi) as [(_ & -> & _)|[-> _]]; by eexists. }
  unfold io, unlink. rewrite decide_True by done. cbn [w set_w fs]. rewrite decide_True.
  2:{ rewrite lookup_delete_if, decide_False, Hlog; [by eexists|]. intros [= E]. by apply name_backupfiles_ne in E. }
  eexists. split; [done|]. cbn [w set_w]. apply restored_to_intro; [done|cbn [fs]; by rewrite lookup_delete_if, decide_True|]. intros k Hk. cbn [fs]. rewrite !lookup_delete_if.
  destruct (journal_own journalname journal_plain) as [HJ HB]. rewrite !decide_False by (intros ->; done). unfold TransactionSafety.restored. rewrite He, Hb.
  rewrite decide_False by (by intros ?%Exists_nil). transitivity (d0 !! k); [|simpl; by case_decide].
  apply (i_rest _ _ _ _ _ _ Hi); [done| |rewrite Hb; by intros ?%Exists_nil].
  intros _. apply (unregistered_offset vfsmap journalname kind_of journal_plain d0 g s); [done|by rewrite He].
Qed.

(** The state in which the abort callbacks start, after the first message. *)
Definition reported (s : tx) : tx := set_w (World (fs (w s)) (reports (w s) ++ [TransactionAbort])) s.

(** What the rollback of [_abort] leaves, by what the callbacks did. *)
Definition rolled_back (d0 : disk) (g : gmap bytes bytes) (s : tx) (called : res unit) (x : world) : Prop :=
  (entries s = [] /\ backupentries s = [] \/ called = Ok tt -> restored_to false d0 g s x) /\
  (entries s ≠ [] \/ backupentries s ≠ [] -> forall e, called = Err e ->
    RollbackFailed ∈ reports x /\ exists x', rollback vfsmap journalname x = (Ok tt, x') /\ restored_to true d0 g s x').

Lemma roll_back_spec d0 g (s : tx) : (forall c, aborts (run c)) -> inv d0 g s -> count s = 0 ->
  exists s', roll_back run vfsmap journalname s = (Ok tt, s') /\ rolled_back d0 g s (run_all run abortcallback (reported s)).1 (w s').
Proof using locations_plain journal_plain.
  intros Hr Hi Hc. destruct (decide (entries s = [] /\ backupentries s = [])) as [[He Hb]|Hne].
  { destruct (roll_back_empty d0 g s Hi He Hb) as (s' & E & H). exists s'. split; [done|]. split; [done|]. by intros [?|?]. }
  unfold roll_back, bind at 1, get at 1. rewrite decide_False by done. unfold bind at 1, io at 1, report at 1, modify at 1. change (set_w _ s) with (reported s).
  assert (same_abort d0 g s (reported s)) as H0 by (split_and!; [apply (inv_core _ _ _ journal_plain d0 g s); [by repeat split|done]|done..]).
  pose proof (keeps_run_all Hr d0 g s abortcallback _ H0) as H1. pose proof H1 as (Hi1 & Hc1 & E1 & E2).
  unfold attempt, bind. destruct (run_all run abortcallback (reported s)) as [[[]|e] s1]; cbn [fst snd] in *.
  - destruct (playback_inv vfsmap journalname kind_of journal_plain d0 g s1 (w s1) (entries s1).*1 id false Hi1 ltac:(done)) as (x' & E & R & F1 & F2); [..|done|done|].
    { intros f o ([[f' o'] d] & [= -> ->] & Hin)%list_elem_of_fmap. by exists o', d. }
    rewrite map_id in E. unfold get, io, report, modify. rewrite E. eexists. split; [done|]. split; [|done]. intros _. cbn [w set_w]. apply restored_to_intro; [done| |].
    + cbn [fs]. rewrite F2 by (by left). rewrite decide_True; [done|]. split; [done|by left].
    + intros k Hk. cbn [fs]. rewrite F1 by done. by apply same_abort_restored.
  - unfold io, report, modify. eexists. split; [done|]. split; [by intros [[? ?]|?]; [destruct Hne|]|]. intros _ e' _. cbn [w set_w reports].
    split; [apply elem_of_app; right; by left|].
    destruct (recover_spec d0 g s1 (World (fs (w s1)) (reports (w s1) ++ [RollbackFailed])) Hi1 ltac:(done)) as (x' & E & _ & J & F). exists x'. split; [done|].
    apply restored_to_intro; [done|done|]. intros k Hk. rewrite F by done. by apply same_abort_restored.
Qed.

Lemma rolled_back_notes d0 g (s s' : tx) called x : entries s' = entries s -> backupentries s' = backupentries s ->
  rolled_back d0 g s' called x -> rolled_back d0 g s called x.
Proof using Type.
  intros E1 E2 [H1 H2]. unfold rolled_back. rewrite E1, E2 in *. split; [intros Hc; by eapply restored_to_notes, H1|].
  intros Hne e He. destruct (H2 Hne e He) as (? & x' & ? & ?). split; [done|]. exists x'. split; [done|]. by eapply restored_to_notes.
Qed.

(** The state in which [_abort] rolls back. *)
Definition aborted (s : tx) : tx := flush journalname (set_count 0 0 s).

Lemma abort_spec d0 g (s : tx) : (forall c, aborts (run c)) -> (forall b s, w (releasefn b s).2 = w s) -> inv d0 g s ->
  exists r s', _abort run releasefn vfsmap journalname s = (r, s') /\ rolled_back d0 g s (run_all run abortcallback (reported (aborted s))).1 (w s').
Proof using locations_plain journal_plain.
  intros Hr Hw Hi. assert (_abort run releasefn vfsmap journalname s =
    finally (roll_back run vfsmap journalname) (bind (modify (set_journal None)) (fun _ => releasefn false)) (aborted s)) as -> by done.
  assert (inv d0 g (aborted s)) as Hi1 by (apply inv_flush; [done|]; apply (inv_core _ _ _ journal_plain d0 g s); [by repeat split|done]).
  destruct (roll_back_spec d0 g (aborted s) Hr Hi1 eq_refl) as (s2 & E & H). apply (rolled_back_notes d0 g s (aborted s)) in H; [|done..].
  unfold finally. rewrite E. unfold bind, modify. pose proof (Hw false (set_journal None s2)) as Hw2.
  destruct (releasefn false (set_journal None s2)) as [[[]|e] s3]; cbn [snd] in Hw2; eexists _, s3; (split; [done|by rewrite Hw2]).
Qed.

(** ** Commit *)

(** Names of undo files are not taken for the journal's. *)
Hypothesis undo_ok : forall u, undoname = Some u -> slash ∉ u /\ is_Some (head u) /\ is_Some (head journalname) /\ head u ≠ head journalname.

(** The files the action after the commit may change. *)
Context (touched : bytes * bytes -> Prop).
Hypothesis after_ok : forall s, exists x, after s = (Ok tt, set_w x s) /\ forall k, ~ touched k -> fs x !! k = fs (w s) !! k.

Definition undo_file (p : bytes) : Prop := match undoname with Some u => family u p | None => False end.

Lemma family_head n p : slash ∉ n -> is_Some (head n) -> family n p -> head (path_split p).2 = head n.
Proof using Type.
  intros Hs Hh. assert (forall m, slash ∉ m -> path_split m = ([], m)) as Hn.
  { intros m Hm. pose proof (path_split_join [] m ltac:(by left) Hm) as E. unfold path_join in E. rewrite decide_False in E by (by apply head_not_slash).
    by rewrite decide_True in E by (by left). }
  intros [->|[->|[r E]]].
  - by rewrite Hn.
  - unfold name_backupfiles. rewrite Hn; [cbn [snd]; destruct n; [by destruct Hh|done]|]. intros [H|H]%elem_of_app; [done|]. by apply affix_plain in H; [|left].
  - rewrite E. destruct n; [by destruct Hh|done].
Qed.

Lemma undo_not_own p : undo_file p -> ~ own p.
Proof using undo_ok journal_plain.
  unfold undo_file. destruct undoname as [u|]; [|done]. intros Hu Ho. destruct (undo_ok u eq_refl) as (H1 & H2 & H3 & H4).
  apply family_head in Hu; [|done|done]. apply family_head in Ho; [|apply journal_plain|done]. congruence.
Qed.

Definition cleaned (tmp : bool) (bks : list backup_entry) (k : bytes * bytes) : Prop :=
  Exists (fun e : backup_entry => let '(l, f, b, _) := e in ((tmp = true -> f = []) /\ b ≠ []) /\ (l, b) = k) bks.

#[local] Instance cleaned_dec tmp bks k : Decision (cleaned tmp bks k).
Proof using Type. apply Exists_dec. intros [[[l f] b] c]. apply _. Defined.

Lemma clean_spec tmp bks x : (forall e, e ∈ bks -> e.1.1.1 ∈ vfsmap) -> exists x', each (clean_backup vfsmap tmp) bks x = (Ok tt, x') /\
  forall k, fs x' !! k = if decide (cleaned tmp bks k) then None else fs x !! k.
Proof using journal_plain.
  clear releasefn. revert x. induction bks as [|[[[l f] b] c] bks IH]; intros x H; cbn [each].
  { exists x. split; [done|]. intros k. rewrite decide_False; [done|]. by intros ?%Exists_nil. }
  assert (l ∈ vfsmap) as Hl by (apply (H (l, f, b, c)); by left).
  assert (exists x1, clean_backup vfsmap tmp (l, f, b, c) x = (Ok tt, x1) /\ forall k, fs x1 !! k = if decide (((tmp = true -> f = []) /\ b ≠ []) /\ (l, b) = k) then None else fs x !! k) as (x1 & E1 & F1).
  { unfold clean_backup. rewrite !decide_False by tauto. case_decide as Hc.
    - rewrite remove_if_exists_spec. eexists. split; [done|]. intros k. cbn [fs]. rewrite lookup_delete_if. destruct (decide (k = (l, b))) as [->|Hk]; [by rewrite decide_True|].
      rewrite decide_False; [done|]. intros [_ <-]. done.
    - exists x. split; [done|]. intros k. rewrite decide_False; [done|]. tauto. }
  destruct (IH x1) as (x' & E & F); [intros e He; apply H; by right|]. exists x'. split; [unfold bind; by rewrite E1|]. intros k. rewrite F, F1. unfold cleaned.
  destruct (decide (Exists _ bks)) as [Hk|Hk]; [rewrite decide_True; [done|]; by apply Exists_cons_tl|].
  destruct (decide (((tmp = true -> f = []) /\ b ≠ []) /\ (l, b) = k)) as [Hc|Hc]; [by rewrite decide_True by (by apply Exists_cons_hd)|].
  rewrite decide_False; [done|]. intros [Hx|Hx]%Exists_cons; [by apply Hc|by apply Hk].
Qed.

Lemma undo_spec u bks x : undoname = Some u ->
  (forall l f b c, (l, f, b, c) ∈ bks -> f ≠ [] -> b ≠ [] -> l ∈ vfsmap /\ b = backup_name journalname f /\ is_Some (fs x !! (l, b))) ->
  exists x', each (undo_entry vfsmap journalname u) bks x = (Ok tt, x') /\ forall k, ~ undo_file k.2 -> fs x' !! k = fs x !! k.
Proof using undo_ok journal_plain.
  clear releasefn. intros Hu. revert x. induction bks as [|[[[l f] b] c] bks IH]; intros x H; cbn [each]; [by exists x|].
  assert (forall p, family u p -> undo_file p) as Hfam by (intros p Hp; unfold undo_file; by rewrite Hu).
  assert (exists x1, undo_entry vfsmap journalname u (l, f, b, c) x = (Ok tt, x1) /\ forall k, ~ undo_file k.2 -> fs x1 !! k = fs x !! k) as (x1 & E1 & F1).
  { unfold undo_entry. case_decide as Hf; [by exists x|].
    assert (forall y line, exists y', append ([], name_backupfiles u) line y = (Ok tt, y') /\ forall k, ~ undo_file k.2 -> fs y' !! k = fs y !! k) as Happ.
    { intros y line. eexists. split; [done|]. intros k Hk. cbn [fs]. rewrite lookup_insert_if, decide_False; [done|]. intros ->. apply Hk, Hfam. right. by left. }
    case_decide as Hb; [apply Happ|]. destruct (H l f b c ltac:(by left) Hf Hb) as (Hl & -> & Hs). rewrite !decide_False by tauto.
    rewrite backup_name_split by done. rewrite decide_True by (by rewrite take_app_length). rewrite drop_app_length.
    set (v := path_join _ _). assert (undo_file v) as Hv.
    { apply Hfam. right. right. exists (path_split f).2. unfold v. destruct (path_split_head f) as [Hh Ht]. rewrite path_split_join; [by rewrite <- app_assoc|done|].
      intros [Hin|[Hin|Hin]%elem_of_app]%elem_of_app; [by destruct (undo_ok u Hu) as [? _]|by apply affix_plain in Hin; [|left]|done]. }
    unfold bind, copyfile, bind, tryunlink, modify. cbn [fs]. rewrite lookup_delete_if, decide_False.
    2:{ intros [= E]. apply (undo_not_own v Hv). rewrite <- E. by apply backup_name_own. }
    destruct (fs x !! (l, backup_name journalname f)) as [content|]; [|by apply is_Some_None in Hs]. unfold put at 1, modify. cbn [fs reports].
    match goal with |- context [append _ _ ?y] => destruct (Happ y (backup_line (l, f, v, c))) as (y' & -> & Fy) end. exists y'. split; [done|]. intros k Hk. rewrite Fy by done. cbn [fs].
    rewrite lookup_insert_if, lookup_delete_if, !decide_False; [done|by intros ->..]. }
  destruct (IH x1) as (x' & E & F).
  { intros l' f' b' c' Hin Hf' Hb'. destruct (H l' f' b' c' ltac:(by right) Hf' Hb') as (Hl & -> & Hs). split; [done|]. split; [done|]. rewrite F1; [done|].
    intros Hun. apply undo_not_own in Hun. by apply Hun, backup_name_own. }
  exists x'. split; [unfold bind; by rewrite E1|]. intros k Hk. by rewrite F, F1.
Qed.

(** What a commit leaves: temporary files and the transaction's own files are gone. *)
Record committed (bks : list backup_entry) (x x' : world) : Prop := {
  c_files : forall k, ~ own k.2 -> ~ undo_file k.2 -> ~ touched k -> fs x' !! k = if decide (kind_of k.2 = Temporary /\ targets bks k) then None else fs x !! k;
  c_journal : fs x' !! ([], journalname) = None /\ fs x' !! ([], backupjournal journalname) = None;
  c_backups : forall e k, e ∈ bks -> source e = Some k -> fs x' !! k = None
}.

Lemma cleaned_temporary d0 g (s : tx) tmp k : inv d0 g s -> ~ own k.2 -> cleaned tmp (backupentries s) k <-> kind_of k.2 = Temporary /\ targets (backupentries s) k.
Proof using journal_plain.
  intros Hi Hk. unfold cleaned, targets. rewrite !Exists_exists. split.
  - intros ([[[l f] b] c] & Hin & [Hf Hb] & <-). pose proof (i_backup _ _ _ _ _ _ Hi _ Hin) as (_ & _ & [(-> & _ & Ht)|(_ & _ & _ & [(-> & _)|(-> & _)])]); [|done|by destruct Hk; apply backup_name_own].
    split; [done|]. eexists. split; [done|]. unfold target. by rewrite decide_True.
  - intros [Ht ([[[l f] b] c] & Hin & <-)]. exists (l, f, b, c). split; [done|]. unfold target in *.
    pose proof (i_backup _ _ _ _ _ _ Hi _ Hin) as (_ & _ & [(-> & Hb & _)|((Hf & _) & Hkf & _)]); [rewrite decide_True by done; split; [split; [done|apply Hb]|done]|].
    rewrite decide_False in Ht by done. cbn in Ht. congruence.
Qed.

Lemma cleaned_source bks e k : e ∈ bks -> source e = Some k -> cleaned false bks k.
Proof using Type.
  intros Hin Hs. apply Exists_exists. exists e. split; [done|]. destruct e as [[[l f] b] c]. unfold source in Hs. case_decide as Hd; [|done]. injection Hs as <-. destruct Hd as [_ Hb]. done.
Qed.

Lemma commit_spec d0 g (s : tx) : inv d0 g s -> exists s', commit after vfsmap journalname undoname s = (Ok tt, s') /\ committed (backupentries s) (w s) (w s').
Proof using undo_ok journal_plain after_ok.
  intros Hi. destruct (journal_own journalname journal_plain) as [HJ HB]. set (bks := backupentries s).
  assert (forall e : backup_entry, e ∈ bks -> e.1.1.1 ∈ vfsmap) as Hloc by (intros [[[l f] b] c] Hin; by apply (i_backup _ _ _ _ _ _ Hi) in Hin as [? _]).
  destruct (clean_spec true bks (w s) Hloc) as (x1 & E1 & F1).
  assert (exists x2, _writeundo vfsmap journalname undoname (set_entries [] (map_ s) (set_w x1 s)) = (Ok tt, set_w x2 (set_entries [] (map_ s) s)) /\ forall k, ~ undo_file k.2 -> fs x2 !! k = fs x1 !! k) as (x2 & E2 & F2).
  { unfold _writeundo. assert (undoname = None \/ exists u, undoname = Some u) as [Hu|[u Hu]] by (destruct undoname; eauto); rewrite Hu; [by exists x1|].
    set (y := World (<[([], name_backupfiles u) := version_line]> (fs x1)) (reports x1)).
    assert (forall k, ~ undo_file k.2 -> fs y !! k = fs x1 !! k) as Hy.
    { intros k Hk. cbn [y fs]. rewrite lookup_insert_if, decide_False; [done|]. intros ->. apply Hk. unfold undo_file. rewrite Hu. right. by left. }
    destruct (undo_spec u bks y Hu) as (x2 & E & F).
    - intros l f b c Hin Hf Hb. pose proof (i_backup _ _ _ _ _ _ Hi _ Hin) as (Hl & _ & [(? & _)|(_ & _ & _ & [(? & _)|(-> & Hs & Hfs)])]); [done|done|]. split; [done|]. split; [done|].
      rewrite Hy by (intros Hun; apply undo_not_own in Hun; by apply Hun, backup_name_own). rewrite F1, decide_False; [by rewrite Hfs|].
      intros ([[[l' f'] b'] c'] & Hin' & [Hf' Hb'] & [= -> ->])%Exists_exists. specialize (Hf' eq_refl). subst f'.
      pose proof (i_backup _ _ _ _ _ _ Hi _ Hin') as (_ & _ & [(_ & (_ & _ & _ & Hno) & _)|((Hne & _) & _)]); [by apply Hno, backup_name_own|done].
    - exists x2. split; [|intros k Hk; by rewrite F, Hy]. 
      change (io _ _) with (let '(r, x) := each (undo_entry vfsmap journalname u) bks y in (r, set_w x (set_entries [] (map_ s) (set_w x1 s)))). by rewrite E. }
  destruct (after_ok (set_w x2 (set_entries [] (map_ s) s))) as (x3 & E3 & F3).
  set (x4 := World (delete ([], journalname) (delete ([], backupjournal journalname) (fs x3))) (reports x3)).
  destruct (clean_spec false bks x4 Hloc) as (x5 & E5 & F5).
  eexists. split.
  - unfold commit, bind, get. unfold io at 1. fold bks. rewrite E1. cbn [modify]. unfold modify at 1. change (map_ (set_w x1 s)) with (map_ s). rewrite E2, E3.
    unfold io at 1. rewrite remove_if_exists_spec. unfold io at 1. rewrite remove_if_exists_spec. unfold io at 1.
    change (each _ bks _) with (each (clean_backup vfsmap false) bks x4). rewrite E5. done.
  - cbn [w set_w set_journal set_backups]. split.
    + intros k H1 H2 H3. rewrite F5. destruct (decide (kind_of k.2 = Temporary /\ targets bks k)) as [Ht|Ht].
      { rewrite decide_True; [done|]. by apply (cleaned_temporary d0 g s false). }
      assert (forall tmp, ~ cleaned tmp bks k) as Hnc by (intros tmp Hcl; apply Ht; by apply (cleaned_temporary d0 g s tmp)).
      rewrite decide_False by done. cbn [x4 fs]. rewrite !lookup_delete_if, !decide_False by (by intros ->). rewrite F3 by done. cbn [w set_w]. rewrite F2, F1 by done. by rewrite decide_False.
    + split; rewrite F5; case_decide; try done; cbn [x4 fs]; rewrite !lookup_delete_if; repeat case_decide; done.
    + intros e k Hin Hs. rewrite F5, decide_True; [done|]. by apply (cleaned_source bks e).
Qed.

(** [close] of the outermost scope. *)
Lemma close_spec d0 g (s s1 : tx) : inv d0 g s -> count s = 1 -> finish run vfsmap journalname s = (Ok tt, s1) -> count s1 = 1 ->
  exists s2, close run releasefn after vfsmap journalname undoname s = closed run releasefn s2 /\ committed (backupentries s1) (w s1) (w s2).
Proof using undo_ok journal_plain after_ok run_works.
  intros Hi Hc Hf Hc1. destruct (finish_works d0 s g Hi) as [g1 H1]. rewrite Hf in H1. cbn [snd] in H1.
  pose proof (steps_inv _ _ _ journal_plain d0 _ _ H1 Hi) as Hi1. cbn [fst snd] in Hi1. set (s2 := set_count (count s1 - 1) (usages s1) s1).
  assert (inv d0 g1 (flush journalname s2)) as Hi2 by (apply inv_flush; [done|]; apply (inv_core _ _ _ journal_plain d0 g1 s1); [by repeat split|done]).
  destruct (commit_spec d0 g1 _ Hi2) as (s3 & E3 & C3). exists s3. split.
  - unfold close, active. rewrite decide_False by lia. unfold bind at 1, get at 1. rewrite decide_True by done. unfold bind at 1. rewrite Hf.
    unfold bind at 1, modify at 1. fold s2. unfold bind at 1, get at 1. rewrite decide_False by (cbn; lia).
    unfold bind at 1, bind at 1, bind at 1. change (io (append ([], backupjournal journalname) (backupsbuf s2)) s2) with (Ok tt, set_file ([], backupjournal journalname) (Some (view (fs (w s2)) ([], backupjournal journalname) ++ backupsbuf s2)) s2).
    cbn beta iota. unfold modify at 1. cbn beta iota. change (set_backups _ _ [] _) with (flush journalname s2). by rewrite E3.
  - destruct C3 as [C1 C2 C3']. split; [|done|done]. intros k H H' H''. rewrite C1 by done. change (backupentries (flush journalname s2)) with (backupentries s1).
    case_decide; [done|]. cbn [flush w set_w set_backups set_file file_set fs]. rewrite lookup_insert_if, decide_False; [done|].
    intros ->. apply H. by apply journal_own.
Qed.
End rollback.

(** ** The guarantees *)

(** [C12] Crash safety: the process may be killed after any sequence of steps of a client
    that keeps its promise; [rollback] of the journal left on the disk returns, and every
    file is restored: files that only grew are cut to the length that was noted, backed
    up files have their old content or are gone if they did not exist, temporary files
    are gone, and everything else was not touched.  When lengths were noted before the
    files grew, this is the content before the transaction. *)
Theorem transaction_recover {cb : Type} (vfsmap : gset bytes) journalname kind_of (Hl : forall l, l ∈ vfsmap -> plain l) (Hj : plain journalname /\ slash ∉ journalname)
    v x x0 (s0 s : tx (cb := cb)) g (H0 : init journalname v x = (Ok s0, x0)) (Hs : rtc (step vfsmap journalname kind_of) (s0, ∅) (s, g)) :
  exists x', rollback vfsmap journalname (w s) = (Ok tt, x') /\ fs x' !! ([], journalname) = None /\
    (forall k, ~ family journalname k.2 -> fs x' !! k = restored kind_of true (fs x) g s k) /\
    (g = ∅ -> (forall f o d, (f, o, d) ∈ entries s -> o = zlen (view (fs x) ([], f))) ->
      forall k, ~ family journalname k.2 -> kind_of k.2 ≠ Temporary -> view (fs x') k = view (fs x) k).
Proof.
  destruct (init_inv vfsmap journalname kind_of Hj v x s0 x0 H0) as [Hi0 _]. pose proof (steps_inv _ _ _ Hj (fs x) _ _ Hs Hi0) as Hi. cbn [fst snd] in Hi.
  destruct (recover_spec vfsmap journalname kind_of Hl Hj (fs x) g s (w s) Hi ltac:(done)) as (x' & E & _ & J & F). exists x'. split_and!; [done..|].
  intros -> Hsize k Hk Ht. unfold view at 1. rewrite F by done. by apply (restored_view vfsmap journalname).
Qed.

(** [C13] Leaving the last scope of a transaction without closing it aborts, after any
    sequence of steps of a client that keeps its promise.  When nothing was registered or
    no abort callback raises, every file is restored from the notes the transaction had
    when the abort began, and the journal is gone; when a callback raises, the failure is
    reported, and [rollback] of the journal that is left restores the same.  If lengths
    were noted before the files grew, all files but the temporary ones have the content
    from before the transaction.  The callbacks may change registered files. *)
Theorem transaction_abort {cb : Type} (run : cb -> st (tx (cb := cb)) bool) (releasefn : bool -> st (tx (cb := cb)) unit) (vfsmap : gset bytes) journalname kind_of
    (Hl : forall l, l ∈ vfsmap -> plain l) (Hj : plain journalname /\ slash ∉ journalname) (Hrun : forall c, aborts vfsmap journalname kind_of (run c))
    (Hrelease : forall b s, w (releasefn b s).2 = w s)
    v x x0 (s0 s : tx (cb := cb)) g (H0 : init journalname v x = (Ok s0, x0)) (Hs : rtc (step vfsmap journalname kind_of) (s0, ∅) (s, g))
    (Hc : 0 < count s) (Hu : usages s = 1) :
  let called := (run_all run abortcallback (reported (aborted journalname s))).1 in
  exists r s', release run releasefn vfsmap journalname s = (r, s') /\
    (entries s = [] /\ backupentries s = [] \/ called = Ok tt -> restored_to journalname kind_of false (fs x) g s (w s')) /\
    (entries s ≠ [] \/ backupentries s ≠ [] -> forall e, called = Err e ->
      RollbackFailed ∈ reports (w s') /\
      exists x', rollback vfsmap journalname (w s') = (Ok tt, x') /\ restored_to journalname kind_of true (fs x) g s x').
Proof.
  destruct (init_inv vfsmap journalname kind_of Hj v x s0 x0 H0) as [Hi0 _]. pose proof (steps_inv _ _ _ Hj (fs x) _ _ Hs Hi0) as Hi. cbn [fst snd] in Hi.
  set (s2 := set_count (count s) (usages s - 1) s).
  assert (release run releasefn vfsmap journalname s = _abort run releasefn vfsmap journalname s2) as ->.
  { unfold release, bind, modify, get. rewrite (decide_True (P := 0 < count s)) by done. rewrite decide_True by (split; [done|cbn; lia]). done. }
  destruct (abort_spec run releasefn vfsmap journalname kind_of Hl Hj (fs x) g s2 Hrun Hrelease) as (r & s' & E & H);
    [|exists r, s'; split; [exact E|]; by apply (rolled_back_notes vfsmap journalname kind_of (fs x) g s s2)].
  apply (inv_core _ _ _ Hj (fs x) g s); [by repeat split|done].
Qed.

(** [C14] Commit: when the callbacks and the file generators are through, [close] of the
    outermost scope removes the temporary files, the journal, its file of backups and
    all backup files, keeps every other file as it is then (the files for a later undo
    and those the action after the commit renames apart), and goes on with the callbacks
    for a closed transaction. *)
Theorem transaction_commit {cb : Type} (run : cb -> st (tx (cb := cb)) bool) (releasefn : bool -> st (tx (cb := cb)) unit) (after : st (tx (cb := cb)) unit) (vfsmap : gset bytes) journalname undoname kind_of touched
    (Hj : plain journalname /\ slash ∉ journalname) (Hrun : forall c, works vfsmap journalname kind_of (run c))
    (Hundo : forall u, undoname = Some u -> slash ∉ u /\ is_Some (head u) /\ is_Some (head journalname) /\ head u ≠ head journalname)
    (Hafter : forall s, exists x, after s = (Ok tt, set_w x s) /\ forall k, ~ touched k -> fs x !! k = fs (w s) !! k)
    d0 g (s s1 : tx (cb := cb)) (Hi : inv vfsmap journalname kind_of d0 g s) (Hc : count s = 1) (Hf : finish run vfsmap journalname s = (Ok tt, s1)) (Hc1 : count s1 = 1) :
  exists s2, close run releasefn after vfsmap journalname undoname s = closed run releasefn s2 /\
    committed journalname undoname kind_of touched (backupentries s1) (w s1) (w s2).
Proof. by apply (close_spec run releasefn after vfsmap journalname undoname kind_of Hj Hrun Hundo touched Hafter d0 g). Qed.

(** ** An example *)

#[export] Instance plain_dec f : Decision (plain f).
Proof. unfold plain. apply _. Defined.

#[export] Instance file_ok_dec j f : Decision (file_ok j f).
Proof. unfold file_ok. apply _. Defined.

Definition demo_journal : bytes := bs "journal".
Definition demo_locations : gset bytes := {[ []; bs "local" ]}.
Definition demo_kind (p : bytes) : kind :=
  if decide (p = bs "dirstate") then Backed (bs "local") else if decide (p = bs "bookmarks") then Backed []
  else if decide (p = bs "bookmarks.pending") then Temporary else Appended.
Definition demo_disk : disk := {[ ([], bs "log") := bs "ab"; (bs "local", bs "dirstate") := bs "old" ]}.
Definition demo_run (c : unit) : st (tx (cb := unit)) bool := ret true.

(** The log grows, the state of the working copy is rewritten and a bookmark file appears. *)
Definition demo0 : tx (cb := unit) :=
  match init demo_journal (Some tt) (World demo_disk []) with (Ok s, _) => s | _ => Tx 0 0 [] ∅ None [] [] ∅ [] ∅ ∅ ∅ ∅ ∅ false None (World ∅ []) end.
Definition demo1 := (add demo_journal (bs "log", 2, None) demo0).2.
Definition demo2 := set_file ([], bs "log") (Some (bs "abcd")) demo1.
Definition demo3 := (addbackup demo_locations demo_journal (bs "dirstate") (bs "local") demo2).2.
Definition demo4 := set_file (bs "local", bs "dirstate") (Some (bs "new")) demo3.
Definition demo5 := (addbackup demo_locations demo_journal (bs "bookmarks") [] demo4).2.
Definition demo6 := set_file ([], bs "bookmarks") (Some (bs "mark")) demo5.

Lemma demo_plain : (forall l, l ∈ demo_locations -> plain l) /\ plain demo_journal /\ slash ∉ demo_journal.
Proof.
  split; [|split; apply (bool_decide_unpack _); vm_compute; exact I].
  intros l [Hl%elem_of_singleton|Hl%elem_of_singleton]%elem_of_union; subst l; apply (bool_decide_unpack _); vm_compute; exact I.
Qed.

Lemma demo_steps : rtc (step demo_locations demo_journal demo_kind) (demo0, ∅) (demo6, ∅).
Proof.
  assert (forall l, bool_decide (l ∈ demo_locations) = true -> l ∈ demo_locations) as Hloc by (intros l; apply bool_decide_eq_true).
  assert (forall f, bool_decide (file_ok demo_journal f) = true -> file_ok demo_journal f) as Hok by (intros f; apply bool_decide_eq_true).
  apply rtc_l with (demo1, ∅); [apply step_add; [apply Hok; vm_compute; done|vm_compute; done|vm_compute; split; congruence]|].
  apply rtc_l with (demo2, ∅); [apply (step_grow _ _ _ (bs "log") 2 None); [left|vm_compute; congruence|vm_compute; done]|].
  apply rtc_l with (demo3, ∅); [apply step_addbackup; [apply Hok; vm_compute; done|vm_compute; done|apply Hloc; vm_compute; done]|].
  apply rtc_l with (demo4, ∅); [apply (step_write _ _ _ (bs "local") (bs "dirstate") (bs "journal.backup.dirstate") false); [left|done]|].
  apply rtc_l with (demo5, ∅); [apply step_addbackup; [apply Hok; vm_compute; done|vm_compute; done|apply Hloc; vm_compute; done]|].
  apply rtc_once. apply (step_write _ _ _ [] (bs "bookmarks") [] false); [right; left|done].
Qed.

Lemma transaction_recover_witness :
  exists x', rollback demo_locations demo_journal (w demo6) = (Ok tt, x') /\ fs x' !! ([], demo_journal) = None /\
    (forall k, ~ family demo_journal k.2 -> fs x' !! k = restored demo_kind true demo_disk ∅ demo6 k) /\
    ((∅ : gmap bytes bytes) = ∅ -> (forall f o d, (f, o, d) ∈ entries demo6 -> o = zlen (view demo_disk ([], f))) ->
      forall k, ~ family demo_journal k.2 -> demo_kind k.2 ≠ Temporary -> view (fs x') k = view demo_disk k).
Proof.
  destruct demo_plain as [Hl Hj].
  apply (transaction_recover demo_locations demo_journal demo_kind Hl Hj (Some tt) (World demo_disk []) (w demo0) demo0 demo6 ∅); [vm_compute; reflexivity|apply demo_steps].
Defined.

Lemma demo_inv : inv demo_locations demo_journal demo_kind demo_disk ∅ demo6.
Proof.
  destruct demo_plain as [Hl Hj]. destruct (init_inv demo_locations demo_journal demo_kind Hj (Some tt) (World demo_disk []) demo0 (w demo0)) as [Hi _]; [vm_compute; reflexivity|].
  apply (steps_inv _ _ _ Hj demo_disk _ _ demo_steps Hi).
Qed.

Lemma demo_works c : works demo_locations demo_journal demo_kind (demo_run c).
Proof. intros d0 s g _. exists g. apply rtc_refl. Qed.

(** The same with an abort callback, which writes the bookmarks again, and may raise. *)
Definition demo_again (fails : bool) (c : unit) : st (tx (cb := unit)) bool := fun s =>
  (if fails then Err (Abort "stop") else Ok true,
   if decide (([], bs "bookmarks", [], false) ∈ backupentries s) then set_file ([], bs "bookmarks") (Some (bs "again")) s else s).
Definition demo8 : tx (cb := unit) := (addabort (bs "bookmarks") tt demo6).2.

Lemma demo_again_aborts fails c : aborts demo_locations demo_journal demo_kind (demo_again fails c).
Proof.
  intros d0 s g Hi Hc. unfold demo_again. cbn [snd]. case_decide as Hin; [|done]. apply rtc_once. split; [|done]. by apply (step_write _ _ _ [] (bs "bookmarks") [] false).
Qed.

Definition demo_aborted (fails : bool) : Prop :=
  let run := demo_again fails in
  exists r s', release run (fun _ => ret tt) demo_locations demo_journal demo8 = (r, s') /\
    if fails then RollbackFailed ∈ reports (w s') /\
      exists x', rollback demo_locations demo_journal (w s') = (Ok tt, x') /\ restored_to demo_journal demo_kind true demo_disk ∅ demo8 x'
    else restored_to demo_journal demo_kind false demo_disk ∅ demo8 (w s').

Lemma transaction_abort_witness : demo_aborted false /\ demo_aborted true.
Proof.
  assert (forall fails, demo_aborted fails) as H; [|by split]. intros fails. destruct demo_plain as [Hl Hj].
  destruct (transaction_abort (demo_again fails) (fun _ => ret tt) demo_locations demo_journal demo_kind Hl Hj (demo_again_aborts fails) ltac:(done)
    (Some tt) (World demo_disk []) (w demo0) demo0 demo8 ∅) as (r & s' & E & H1 & H2).
  - vm_compute. reflexivity.
  - eapply rtc_r; [apply demo_steps|]. apply step_quiet. by repeat split.
  - vm_compute. reflexivity.
  - vm_compute. reflexivity.
  - exists r, s'. split; [exact E|]. destruct fails.
    + apply (H2 ltac:(left; vm_compute; discriminate) (Abort "stop")). vm_compute. reflexivity.
    + apply H1. right. vm_compute. reflexivity.
Defined.

(** The state after the callbacks of [close]. *)
Definition demo7 : tx (cb := unit) := (finish demo_run demo_locations demo_journal demo6).2.

Lemma transaction_commit_witness :
  exists s2, close demo_run (fun _ => ret tt) (ret tt) demo_locations demo_journal (Some (bs "undo")) demo6 = closed demo_run (fun _ => ret tt) s2 /\
    committed demo_journal (Some (bs "undo")) demo_kind (fun _ => False) (backupentries demo7) (w demo7) (w s2).
Proof.
  apply (transaction_commit demo_run (fun _ => ret tt) (ret tt) demo_locations demo_journal (Some (bs "undo")) demo_kind (fun _ => False)) with (d0 := demo_disk) (g := ∅) (s := demo6).
  - apply demo_plain.
  - apply demo_works.
  - intros u [= <-]. split_and!; [apply (bool_decide_unpack _); vm_compute; exact I|by eexists|by eexists|done].
  - intros s. exists (w s). by destruct s.
  - apply demo_inv.
  - vm_compute. reflexivity.
  - vm_compute. reflexivity.
  - vm_compute. reflexivity.
Defined.

(** What is on the disk after the example was rolled back: the backup of the other
    location is not removed. *)
Example rollback_leaves_backup :
  match rollback demo_locations demo_journal (w demo6) with
  | (Ok _, x) => (fs x !! ([], bs "log"), fs x !! (bs "local", bs "dirstate"), fs x !! ([], bs "bookmarks"), fs x !! (bs "local", bs "journal.backup.dirstate"))
  | _ => (None, None, None, None)
  end = (Some (bs "ab"), Some (bs "old"), None, Some (bs "old")).
Proof. vm_compute. reflexivity. Qed.

(** The same path in a second location is not backed up: a change there is kept. *)
Example second_location_not_backed_up :
  backupentries (addbackup demo_locations demo_journal (bs "dirstate") [] demo4).2 = backupentries demo4.
Proof. vm_compute. reflexivity. Qed.

(** A crash in [close] between the removal of the file of backups and of the journal:
    the log is cut, but the rewritten files stay. *)
Example crash_in_commit :
  match rollback demo_locations demo_journal (file_set ([], bs "journal.backupfiles") None (w demo6)) with
  | (Ok _, x) => (fs x !! ([], bs "log"), fs x !! (bs "local", bs "dirstate"), fs x !! ([], bs "bookmarks"))
  | _ => (None, None, None)
  end = (Some (bs "ab"), Some (bs "new"), Some (bs "mark")).
Proof. vm_compute. reflexivity. Qed.

(** The cache flag 0 that was written is read as true. *)
Example cache_flag_lost : match read_backups [backup_line (bs "local", bs "dirstate", [], false)] (World ∅ []) with (Ok l, _) => l | _ => [] end = [(bs "local", bs "dirstate", [], true)].
Proof. vm_compute. reflexivity. Qed.
End TransactionRollback.
