(* ===== verification/StoreNames.v ===== *)
(** * Names of files in the store (store.py)

    [encodedir] and [decodedir], which keep directories apart from the files of
    revlogs, and the codes of [_buildencodefun], which write every name with the
    characters that all file systems can tell apart. *)

From S2P Require Import Prelude Lines Struct PyEscape.

Module StoreNames.
Import PyEscape.

Definition slash : ascii := "047"%char.

(** ** [bytes.replace] *)

(** Whether a text starts with another one. *)
Definition startsb (p t : bytes) : bool := bool_decide (p `prefix_of` t).

(** [t.replace(old, new)]: occurrences from the left that do not overlap; [skip]
    characters belong to the occurrence found last. *)
Fixpoint replace_from (skip : nat) (old new t : bytes) : bytes :=
  match t with
  | [] => []
  | c :: t' =>
      match skip with
      | S k => replace_from k old new t'
      | O => if startsb old t then new ++ replace_from (length old - 1) old new t'
             else c :: replace_from 0 old new t'
      end
  end.
Definition replace_bytes (old new t : bytes) : bytes := replace_from 0 old new t.

(** [sub in t] *)
Fixpoint contains (sub t : bytes) : bool :=
  startsb sub t || match t with [] => false | _ :: t' => contains sub t' end.

(** ** [encodedir] and [decodedir] *)

Definition encodedir (path : bytes) : bytes :=
  replace_bytes (bs ".d/") (bs ".d.hg/")
    (replace_bytes (bs ".i/") (bs ".i.hg/")
      (replace_bytes (bs ".hg/") (bs ".hg.hg/") path)).

Definition decodedir (path : bytes) : bytes :=
  if negb (contains (bs ".hg/") path) then path
  else
    replace_bytes (bs ".hg.hg/") (bs ".hg/")
      (replace_bytes (bs ".i.hg/") (bs ".i/")
        (replace_bytes (bs ".d.hg/") (bs ".d/") path)).

(** ** The codes *)

(** ["~%02x" % ord(c)] *)
Definition tilde (c : ascii) : bytes := ["~"%char; hexdigit (ord c / 16); hexdigit (ord c mod 16)].

(** [_reserved]: control characters, those from 126 on, and what Windows
    forbids. *)
Definition winreserved : bytes := bs "\:*?" ++ [dquote] ++ bs "<>|".
Definition reserved (c : ascii) : bool := bool_decide (ord c < 32 \/ 126 <= ord c \/ c ∈ winreserved).

Definition capital (c : ascii) : bool := bool_decide (65 <= ord c <= 90).
Definition lower (c : ascii) : ascii := if capital c then byte (ord c + 32) else c.

Definition underscore : ascii := "_"%char.

(** The dictionary [cmap]: the last assignment to a character counts. *)
Definition cmap (c : ascii) : bytes :=
  if capital c || bool_decide (c = underscore) then [underscore; lower c]
  else if reserved c then tilde c
  else [c].

Definition cmaplong (c : ascii) : bytes := if capital c then [c] else cmap c.
Definition cmapverylong (c : ascii) : bytes := if bool_decide (c = underscore) then bs ":" else cmaplong c.

Definition all_ascii : list ascii := map byte (zrange 0 256).

(** The dictionary [dmap] that decodes, with the entries for the long forms
    unless it is for the fncache. *)
Definition dmap_short : gmap bytes ascii := list_to_map (map (fun c => (cmap c, c)) all_ascii).
Definition dmap_long : gmap bytes ascii :=
  <[bs ":" := underscore]> (list_to_map (map (fun c => ([c], c)) (filter (fun c => capital c = true) all_ascii)) ∪ dmap_short).
Definition dmap (forfncache : bool) : gmap bytes ascii := if forfncache then dmap_short else dmap_long.

(** ["".join(m[c] for c in comp)] *)
Definition encode_with (m : ascii -> bytes) (comp : bytes) : bytes := comp ≫= m.

(** [encodecomp]: capitals, then also underscores are no longer doubled when
    the name gets too long. *)
Definition encodecomp (comp : bytes) : bytes :=
  let encoded := encode_with cmap comp in
  let encoded := if decide (255 < zlen encoded) then encode_with cmaplong comp else encoded in
  if decide (255 < zlen encoded) then encode_with cmapverylong comp else encoded.

Definition encodemaybelong (path : bytes) : bytes := join slash (map encodecomp (split slash path)).

(** [decode]: at each position the shortest of the codes of one to three
    characters. *)
Fixpoint decode (dm : gmap bytes ascii) (s : bytes) : res bytes :=
  match s with
  | [] => Ok []
  | a :: s1 =>
      match dm !! [a] with
      | Some c => let* r := decode dm s1 in Ok (c :: r)
      | None =>
          match s1 with
          | [] => Err KeyError
          | b :: s2 =>
              match dm !! [a; b] with
              | Some c => let* r := decode dm s2 in Ok (c :: r)
              | None =>
                  match s2 with
                  | [] => Err KeyError
                  | d :: s3 =>
                      match dm !! [a; b; d] with
                      | Some c => let* r := decode dm s3 in Ok (c :: r)
                      | None => Err KeyError
                      end
                  end
              end
          end
      end
  end.

Definition encodefname (s : bytes) : bytes := encode_with cmap s.
Definition decodefname (s : bytes) : res bytes := decode (dmap true) s.
Definition encodefnamelong (s : bytes) : bytes := encodemaybelong s.
Definition decodefnamelong (s : bytes) : res bytes := decode (dmap false) s.

Definition encodefilename (s : bytes) : bytes := encodefnamelong (encodedir s).
Definition decodefilename (s : bytes) : res bytes :=
  let* p := decodefnamelong s in Ok (decodedir p).

(** [lowerencode] *)
Definition lowermap (c : ascii) : bytes :=
  if capital c then [lower c] else if reserved c then tilde c else [c].
Definition lowerencode (s : bytes) : bytes := encode_with lowermap s.

(** The examples in the documentation of the code. *)
Example encodedir_doc :
  (encodedir (bs "data/foo.i"), encodedir (bs "data/foo.i/bla.i"), encodedir (bs "data/foo.i.hg/bla.i"),
   decodedir (bs "data/foo.i.hg.hg/bla.i"))
  = (bs "data/foo.i", bs "data/foo.i.hg/bla.i", bs "data/foo.i.hg.hg/bla.i", bs "data/foo.i.hg/bla.i").
Proof. vm_compute. reflexivity. Qed.

Example encodefilename_doc :
  (encodefilename (bs "foo.i/bar.d/bla.hg/hi:world?/HELLO"),
   decodefilename (bs "foo.i.hg/bar.d.hg/bla.hg.hg/hi~3aworld~3f/_h_e_l_l_o"))
  = (bs "foo.i.hg/bar.d.hg/bla.hg.hg/hi~3aworld~3f/_h_e_l_l_o", Ok (bs "foo.i/bar.d/bla.hg/hi:world?/HELLO")).
Proof. vm_compute. reflexivity. Qed.


(** ** Codes are read back *)

Lemma ascii_forall (P : ascii -> bool) : forallb P all_ascii = true -> forall c, P c = true.
Proof.
  intros H c. rewrite forallb_forall in H. apply H, list_elem_of_In. unfold all_ascii.
  rewrite <- (byte_ord c). apply list_elem_of_fmap_2, elem_of_zrange, ord_range.
Qed.

(** What the first step of the decoder says of a complete code says it of a text
    that begins with the code. *)
Lemma decode_app dm code c rest :
  length code = 1%nat \/ length code = 2%nat \/ length code = 3%nat -> decode dm code = Ok [c] ->
  decode dm (code ++ rest) = let* r := decode dm rest in Ok (c :: r).
Proof.
  intros Hl H. destruct code as [|a [|b [|d [|]]]]; try (simpl in Hl; lia); cbn [decode app] in *;
    repeat match goal with
    | H : context [match ?m !! ?k with _ => _ end] |- _ => destruct (m !! k) eqn:?; cbn [rbind] in *; try discriminate H
    end; try congruence;
    repeat match goal with H : (let* _ := _ in _) = Ok _ |- _ => apply rbind_Ok in H as (? & ? & ?) end; try congruence; by simplify_eq.
Qed.

Definition decodes (dm : gmap bytes ascii) (m : ascii -> bytes) : bool :=
  forallb (fun c => match decode dm (m c) with Ok d => bool_decide (d = [c]) | Err _ => false end && bool_decide (length (m c) ∈ [1; 2; 3]%nat)) all_ascii.

Lemma decodes_char dm m c rest :
  decodes dm m = true -> decode dm (m c ++ rest) = let* r := decode dm rest in Ok (c :: r).
Proof.
  intros Hm. pose proof (ascii_forall _ Hm c) as [Hd Hl]%andb_prop. apply bool_decide_eq_true in Hl.
  destruct (decode dm (m c)) eqn:Ed; [|done]. apply bool_decide_eq_true in Hd as ->.
  apply decode_app; [set_solver|done].
Qed.

Lemma decodes_app dm m comp rest :
  decodes dm m = true -> decode dm (encode_with m comp ++ rest) = let* r := decode dm rest in Ok (comp ++ r).
Proof.
  intros Hm. induction comp as [|c comp IH]; cbn; [by destruct (decode dm rest)|]. rewrite <- app_assoc.
  rewrite decodes_char by done. change (comp ≫= m) with (encode_with m comp). rewrite IH. by destruct (decode dm rest).
Qed.

Lemma decodes_fncache : decodes (dmap true) cmap = true.
Proof. vm_compute. reflexivity. Qed.
Lemma decodes_cmap : decodes (dmap false) cmap = true.
Proof. vm_compute. reflexivity. Qed.
Lemma decodes_cmaplong : decodes (dmap false) cmaplong = true.
Proof. vm_compute. reflexivity. Qed.
Lemma decodes_cmapverylong : decodes (dmap false) cmapverylong = true.
Proof. vm_compute. reflexivity. Qed.

(** The assertions of [_buildencodefun]. *)
Lemma buildencodefun_asserts :
  dmap_short !! bs ":" = None /\ (forall c, capital c = true -> dmap_short !! [c] = None).
Proof.
  split; [reflexivity|]. intros c Hc.
  assert (forallb (fun c => negb (capital c) || bool_decide (dmap_short !! [c] = None)) all_ascii = true) as H
    by (vm_compute; reflexivity).
  pose proof (ascii_forall _ H c) as Ha. cbv beta in Ha. rewrite Hc in Ha. by apply bool_decide_eq_true in Ha.
Qed.

Lemma decodefname_encodefname s : decodefname (encodefname s) = Ok s.
Proof.
  unfold decodefname, encodefname. rewrite <- (app_nil_r (encode_with _ _)), decodes_app by apply decodes_fncache.
  cbn. by rewrite app_nil_r.
Qed.

Lemma encodecomp_app comp rest :
  decode (dmap false) (encodecomp comp ++ rest) = let* r := decode (dmap false) rest in Ok (comp ++ r).
Proof.
  unfold encodecomp. repeat case_decide; apply decodes_app;
    lazymatch goal with
    | |- decodes _ cmap = _ => exact decodes_cmap
    | |- decodes _ cmaplong = _ => exact decodes_cmaplong
    | |- decodes _ cmapverylong = _ => exact decodes_cmapverylong
    end.
Qed.

(** Encoded components joined by slashes are decoded to the path. *)
Lemma decode_join dm (f : bytes -> bytes) ls :
  dm !! [slash] = Some slash ->
  (forall l rest, decode dm (f l ++ rest) = let* r := decode dm rest in Ok (l ++ r)) ->
  decode dm (join slash (map f ls)) = Ok (join slash ls).
Proof.
  intros Hs Hf. induction ls as [|l [|l' ls] IH]; [done|..].
  - change (decode dm (f l) = Ok l). rewrite <- (app_nil_r (f l)), Hf. cbn. by rewrite app_nil_r.
  - change (join slash (map f (l :: l' :: ls))) with (f l ++ slash :: join slash (map f (l' :: ls))).
    rewrite Hf. cbn [decode]. rewrite Hs. cbn [rbind]. by rewrite IH.
Qed.

Lemma decodefnamelong_encodefnamelong s : decodefnamelong (encodefnamelong s) = Ok s.
Proof.
  unfold decodefnamelong, encodefnamelong, encodemaybelong.
  rewrite decode_join; [by rewrite split_join|reflexivity|apply encodecomp_app].
Qed.

(** ** Directories *)

(** The end of a name replaced. *)
Fixpoint resuffix (suf new comp : bytes) : bytes :=
  if decide (comp = suf) then new
  else match comp with [] => [] | x :: c => x :: resuffix suf new c end.

Lemma resuffix_app suf new p : resuffix suf new (p ++ suf) = p ++ new.
Proof.
  induction p as [|x p IH]; cbn [app].
  - destruct suf; cbn; by rewrite decide_True.
  - cbn [resuffix]. rewrite decide_False; [by rewrite IH|]. intros H%(f_equal length). cbn in H. rewrite length_app in H. lia.
Qed.

Lemma resuffix_not suf new c : ~ suf `suffix_of` c -> resuffix suf new c = c.
Proof.
  induction c as [|x c IH]; intros Hs; cbn.
  - rewrite decide_False; [done|]. intros <-. by apply Hs.
  - rewrite decide_False; [|intros <-; apply Hs; reflexivity]. f_equal. apply IH. intros [q ->]. apply Hs. by exists (x :: q).
Qed.

Lemma startsb_true p t : startsb p t = true <-> exists r, t = p ++ r.
Proof. unfold startsb. rewrite bool_decide_eq_true. done. Qed.

Lemma replace_from_skip k old new t : replace_from k old new t = replace_from 0 old new (drop k t).
Proof. revert t. induction k as [|k IH]; intros [|c t]; cbn; [done..|]. apply IH. Qed.

(** An occurrence is replaced, and the text before one is kept when none starts
    in it. *)
Lemma replace_here old new t : old ≠ [] -> replace_bytes old new (old ++ t) = new ++ replace_bytes old new t.
Proof.
  intros Ho. unfold replace_bytes. destruct old as [|x old]; [done|]. cbn.
  rewrite (proj2 (startsb_true (x :: old) (x :: old ++ t))) by (by exists t). f_equal.
  by rewrite replace_from_skip, Nat.sub_0_r, drop_app_length.
Qed.

Lemma replace_none old new t : contains old t = false -> replace_bytes old new t = t.
Proof.
  unfold replace_bytes. induction t as [|c t IH]; [done|]. intros [Hs Hc]%orb_false_iff.
  cbn. rewrite Hs. by rewrite IH.
Qed.

(** A pattern that ends with a slash changes the end of the first name. *)
Lemma startsb_dir suf l rest :
  slash ∉ suf -> slash ∉ l -> startsb (suf ++ [slash]) (l ++ slash :: rest) = bool_decide (l = suf).
Proof.
  intros Hs Hl. apply bool_decide_ext. split; [|intros ->; exists rest; by rewrite <- app_assoc].
  intros [r E]. rewrite <- app_assoc in E. cbn in E. revert suf Hs E. induction l as [|x l IH]; intros [|y suf] Hs E; cbn in E.
  - done.
  - injection E as E _. destruct Hs. rewrite E. left.
  - injection E as E _. destruct Hl. rewrite E. left.
  - injection E as -> E. f_equal. apply IH; [set_solver..|done].
Qed.

Lemma startsb_last suf l : slash ∉ l -> startsb (suf ++ [slash]) l = false.
Proof. intros Hl. apply bool_decide_eq_false. intros [r ->]. set_solver. Qed.

Lemma replace_first suf new l rest :
  slash ∉ suf -> slash ∉ l ->
  replace_bytes (suf ++ [slash]) (new ++ [slash]) (l ++ slash :: rest)
  = resuffix suf new l ++ slash :: replace_bytes (suf ++ [slash]) (new ++ [slash]) rest.
Proof.
  intros Hs. induction l as [|x l IH]; intros Hl.
  - cbn [resuffix]. case_decide as E; subst.
    + cbn [app]. change (slash :: rest) with ([slash] ++ rest). rewrite (replace_here [slash]) by done. by rewrite <- app_assoc.
    + unfold replace_bytes. cbn. pose proof (startsb_dir suf [] rest Hs ltac:(set_solver)) as H. cbn in H. rewrite H.
      by rewrite bool_decide_eq_false_2.
  - cbn [resuffix]. case_decide as E; subst.
    + replace ((x :: l) ++ slash :: rest) with (((x :: l) ++ [slash]) ++ rest) by by rewrite <- app_assoc.
      rewrite replace_here by done. by rewrite <- app_assoc.
    + unfold replace_bytes in *. cbn. pose proof (startsb_dir suf (x :: l) rest Hs Hl) as H. cbn in H. rewrite H, bool_decide_eq_false_2 by done.
      rewrite IH by set_solver. done.
Qed.

Lemma replace_last suf new l : slash ∉ l -> replace_bytes (suf ++ [slash]) new l = l.
Proof.
  unfold replace_bytes. induction l as [|x l IH]; intros Hl; [done|]. cbn.
  rewrite startsb_last by done. by rewrite IH by set_solver.
Qed.

(** All names but the last changed. *)
Fixpoint mapinit (f : bytes -> bytes) (ls : list bytes) : list bytes :=
  match ls with
  | [] => []
  | [l] => [l]
  | l :: ls => f l :: mapinit f ls
  end.

Definition plain (l : bytes) : Prop := slash ∉ l.

Lemma replace_join suf new ls :
  plain suf -> Forall plain ls ->
  replace_bytes (suf ++ [slash]) (new ++ [slash]) (join slash ls) = join slash (mapinit (resuffix suf new) ls).
Proof.
  intros Hs. induction 1 as [|l ls Hl HF IH]; [done|]. destruct ls as [|l' ls]; [by apply replace_last|].
  change (join slash (l :: l' :: ls)) with (l ++ slash :: join slash (l' :: ls)). rewrite replace_first by done.
  change (mapinit (resuffix suf new) (l :: l' :: ls)) with (resuffix suf new l :: mapinit (resuffix suf new) (l' :: ls)).
  rewrite IH. destruct ls; done.
Qed.

Lemma resuffix_plain suf new l : plain new -> plain l -> plain (resuffix suf new l).
Proof.
  intros Hn. induction l as [|x l IH]; intros Hl; cbn; case_decide; try done.
  unfold plain in *. rewrite not_elem_of_cons in *. split; [tauto|]. apply IH. tauto.
Qed.

Lemma mapinit_plain f ls : (forall l, plain l -> plain (f l)) -> Forall plain ls -> Forall plain (mapinit f ls).
Proof.
  intros Hf. induction 1 as [|l [|l' ls] Hl HF IH]; [done|by repeat constructor|].
  constructor; [by apply Hf|exact IH].
Qed.

Lemma mapinit_mapinit f g ls : mapinit f (mapinit g ls) = mapinit (fun l => f (g l)) ls.
Proof. induction ls as [|l [|l' ls] IH]; [done..|]. cbn in *. rewrite <- IH. by destruct ls. Qed.

Lemma mapinit_id f ls : (forall l, f l = l) -> mapinit f ls = ls.
Proof. intros Hf. induction ls as [|l [|l' ls] IH]; [done..|]. cbn in *. by rewrite Hf, IH. Qed.

(** What happens to the name of a directory. *)
Definition encodename (l : bytes) : bytes :=
  resuffix (bs ".d") (bs ".d.hg") (resuffix (bs ".i") (bs ".i.hg") (resuffix (bs ".hg") (bs ".hg.hg") l)).
Definition decodename (l : bytes) : bytes :=
  resuffix (bs ".hg.hg") (bs ".hg") (resuffix (bs ".i.hg") (bs ".i") (resuffix (bs ".d.hg") (bs ".d") l)).

Ltac plain_t := by apply (bool_decide_unpack _); vm_compute.

Lemma encodedir_join ls : Forall plain ls -> encodedir (join slash ls) = join slash (mapinit encodename ls).
Proof.
  intros HF. unfold encodedir.
  rewrite (replace_join (bs ".hg") (bs ".hg.hg")) by (plain_t || done).
  rewrite (replace_join (bs ".i") (bs ".i.hg")), (replace_join (bs ".d") (bs ".d.hg"));
    try plain_t; repeat (apply mapinit_plain; [intros; apply resuffix_plain; [plain_t|done]|]); try done.
  by rewrite !mapinit_mapinit.
Qed.

Lemma encodename_plain l : plain l -> plain (encodename l).
Proof. intros Hl. by repeat (apply resuffix_plain; [plain_t|]). Qed.

(** Without the marker there is nothing to decode. *)
Lemma contains_true sub t : contains sub t = true <-> exists p r, t = p ++ sub ++ r.
Proof.
  split.
  - induction t as [|c t IH]; cbn; intros [[r ->]%startsb_true|H]%orb_true_iff; try done; [by exists [], r..|].
    destruct (IH H) as (p & r & ->). by exists (c :: p), r.
  - intros (p & r & ->). induction p as [|c p IH]; cbn.
    + assert (startsb sub (sub ++ r) = true) as H by (apply startsb_true; by exists r). destruct (sub ++ r); cbn; by rewrite H.
    + rewrite IH. apply orb_true_r.
Qed.

Lemma contains_tail a b t : contains b t = false -> contains (a ++ b) t = false.
Proof.
  intros H. apply not_true_iff_false. intros (p & r & ->)%contains_true. apply not_true_iff_false in H. apply H, contains_true.
  exists (p ++ a), r. by rewrite <- !app_assoc.
Qed.

Lemma decodedir_join ls : Forall plain ls -> decodedir (join slash ls) = join slash (mapinit decodename ls).
Proof.
  intros HF.
  assert (replace_bytes (bs ".hg.hg/") (bs ".hg/") (replace_bytes (bs ".i.hg/") (bs ".i/") (replace_bytes (bs ".d.hg/") (bs ".d/") (join slash ls)))
    = join slash (mapinit decodename ls)) as E.
  { rewrite (replace_join (bs ".d.hg") (bs ".d")) by (plain_t || done).
    rewrite (replace_join (bs ".i.hg") (bs ".i")), (replace_join (bs ".hg.hg") (bs ".hg"));
      try plain_t; repeat (apply mapinit_plain; [intros; apply resuffix_plain; [plain_t|done]|]); try done.
    by rewrite !mapinit_mapinit. }
  unfold decodedir. rewrite E. destruct (contains _ _) eqn:Ec; [done|]. cbn [negb]. rewrite <- E.
  rewrite (replace_none (bs ".d.hg/")) by by apply (contains_tail (bs ".d")).
  rewrite (replace_none (bs ".i.hg/")) by by apply (contains_tail (bs ".i")).
  by rewrite (replace_none (bs ".hg.hg/")) by by apply (contains_tail (bs ".hg")).
Qed.

(** Two ends that differ. *)
Ltac other_end :=
  let q := fresh in let E := fresh in
  intros [q E]; apply (f_equal (@rev ascii)) in E; rewrite !rev_app_distr in E; cbn in E; congruence.

Lemma decodename_encodename l : decodename (encodename l) = l.
Proof.
  unfold encodename. destruct (decide (bs ".hg" `suffix_of` l)) as [[p ->]|H1].
  { rewrite resuffix_app, (resuffix_not (bs ".i")), (resuffix_not (bs ".d")) by other_end. unfold decodename.
    rewrite (resuffix_not (bs ".d.hg")), (resuffix_not (bs ".i.hg")) by other_end. apply resuffix_app. }
  rewrite (resuffix_not (bs ".hg")) by done. destruct (decide (bs ".i" `suffix_of` l)) as [[p ->]|H2].
  { rewrite resuffix_app, (resuffix_not (bs ".d")) by other_end. unfold decodename.
    rewrite (resuffix_not (bs ".d.hg")) by other_end. rewrite resuffix_app, resuffix_not by other_end. done. }
  rewrite (resuffix_not (bs ".i")) by done. destruct (decide (bs ".d" `suffix_of` l)) as [[p ->]|H3].
  { rewrite resuffix_app. unfold decodename. rewrite (resuffix_app (bs ".d.hg")).
    by rewrite (resuffix_not (bs ".i.hg")), (resuffix_not (bs ".hg.hg")) by other_end. }
  rewrite (resuffix_not (bs ".d")) by done. unfold decodename.
  assert (forall a, ~ (a ++ bs ".hg") `suffix_of` l) as Ha by (intros a [q ->]; apply H1; exists (q ++ a); by rewrite app_assoc).
  by rewrite (resuffix_not (bs ".d.hg")), (resuffix_not (bs ".i.hg")), (resuffix_not (bs ".hg.hg"))
    by (apply (Ha (bs ".d")) || apply (Ha (bs ".i")) || apply (Ha (bs ".hg"))).
Qed.

Lemma decodedir_encodedir path : decodedir (encodedir path) = path.
Proof.
  pose proof (split_clean slash path : Forall plain _) as HF. rewrite <- (split_join slash path) at 1.
  rewrite encodedir_join by done. rewrite decodedir_join by (by apply mapinit_plain; [apply encodename_plain|]).
  rewrite mapinit_mapinit, mapinit_id by apply decodename_encodename. apply split_join.
Qed.

(** [C21] The encoding of file names is reversible: decoding the encoded name of
    any file, whatever its characters, the names of its directories and the
    length of its components, succeeds and gives the name back. *)
Theorem filename_roundtrip (s : bytes) : decodefilename (encodefilename s) = Ok s.
Proof.
  unfold decodefilename, encodefilename. rewrite decodefnamelong_encodefnamelong. cbn. by rewrite decodedir_encodedir.
Qed.

End StoreNames.
