(* ===== verification/StorePath.v ===== *)
(** * Paths of files in the store (store.py)

    [_auxencode] hides the names Windows reserves and the dots and spaces it
    drops; [_hashencode] shortens what gets too long; [_hybridencode] and
    [_pathencode] choose between the two. *)

From S2P Require Import Prelude Lines Struct PyEscape ManifestText StoreNames.

(** The digest of [hashlib]. *)
Class Sha1 := { sha1hex : bytes -> bytes }.

(** It has forty lower case digits. *)
Class Sha1Laws (s : Sha1) : Prop := {
  length_sha1hex t : length (sha1hex t) = 40%nat;
  sha1hex_digits t c : c ∈ sha1hex t -> exists d, 0 <= d < 16 /\ c = PyEscape.hexdigit d;
}.

Module StorePath.
Import PyEscape StoreNames.

Definition dot : ascii := "."%char.

(** [c in ". "] *)
Definition dotspace (c : ascii) : bool := bool_decide (c = dot \/ c = " "%char).

(** ** [_auxencode] *)

Definition winres3 : list bytes := [bs "aux"; bs "con"; bs "prn"; bs "nul"].
Definition winres4 : list bytes := [bs "com"; bs "lpt"].

(** The part of a name before its first dot; its length is [n.find(".")], or
    the length of the name. *)
Fixpoint base (n : bytes) : bytes :=
  match n with
  | [] => []
  | c :: n => if decide (c = dot) then [] else c :: base n
  end.

(** The condition on a name that is reserved. *)
Definition winreservedname (n : bytes) : bool :=
  let l := zlen (base n) in
  (bool_decide (l = 3) && bool_decide (take 3 n ∈ winres3))
  || (bool_decide (l = 4)
      && match n !! 3%nat with Some c => bool_decide (49 <= ord c <= 57) | None => false end
      && bool_decide (take 3 n ∈ winres4)).

(** The first two changes of a component [c :: n]. *)
Definition auxfront (dotencode : bool) (c : ascii) (n : bytes) : bytes :=
  if dotencode && dotspace c then tilde c ++ n
  else if winreservedname (c :: n) then
    match (c :: n) !! 2%nat with
    | Some x => take 2 (c :: n) ++ tilde x ++ drop 3 (c :: n)
    | None => c :: n
    end
  else c :: n.

(** Its end. *)
Definition auxend (n : bytes) : bytes :=
  match last n with
  | Some c => if dotspace c then removelast n ++ tilde c else n
  | None => n
  end.

Definition auxcomp (dotencode : bool) (n : bytes) : bytes :=
  match n with [] => [] | c :: n => auxend (auxfront dotencode c n) end.

Definition auxencode (path : list bytes) (dotencode : bool) : list bytes := map (auxcomp dotencode) path.

(** ** [os.path.splitext] on a name without slashes *)

Fixpoint rfind (c : ascii) (n : bytes) : option nat :=
  match n with
  | [] => None
  | x :: n => match rfind c n with
              | Some i => Some (S i)
              | None => if decide (x = c) then Some 0%nat else None
              end
  end.

Definition splitext (n : bytes) : bytes * bytes :=
  match rfind dot n with
  | Some i => if forallb (fun c => bool_decide (c = dot)) (take i n) then (n, []) else (take i n, drop i n)
  | None => (n, [])
  end.

(** ** [_hashencode] *)

Definition maxstorepathlen : Z := 120.
Definition dirprefixlen : nat := 8.
Definition maxshortdirslen : Z := 8 * (8 + 1) - 4.

(** The loop over the directories. *)
Fixpoint shortdirs (parts sdirs : list bytes) (sdirslen : Z) : res (list bytes) :=
  match parts with
  | [] => Ok sdirs
  | p :: parts =>
      let d := take dirprefixlen p in
      match last d with
      | None => Err IndexError
      | Some c =>
          let d := if dotspace c then removelast d ++ [underscore] else d in
          if decide (sdirslen = 0) then shortdirs parts (sdirs ++ [d]) (zlen d)
          else
            let t := sdirslen + 1 + zlen d in
            if decide (maxshortdirslen < t) then Ok sdirs else shortdirs parts (sdirs ++ [d]) t
      end
  end.

Section Encode.
Context `{Sha1}.

Definition hashencode (path : bytes) (dotencode : bool) : res bytes :=
  let digest := sha1hex path in
  let le := split slash (lowerencode (drop 5 path)) in
  let parts := auxencode le dotencode in
  match last parts with
  | None => Err IndexError
  | Some basename =>
      let ext := (splitext basename).2 in
      let* sdirs := shortdirs (removelast parts) [] 0 in
      let dirs := join slash sdirs in
      let dirs := if decide (0 < zlen dirs) then dirs ++ [slash] else dirs in
      let res := bs "dh/" ++ dirs ++ digest ++ ext in
      let spaceleft := maxstorepathlen - zlen res in
      if decide (0 < spaceleft) then
        let filler := take (Z.to_nat spaceleft) basename in
        Ok (bs "dh/" ++ dirs ++ filler ++ digest ++ ext)
      else Ok res
  end.

Definition hybridencode (path : bytes) (dotencode : bool) : res bytes :=
  let path := encodedir path in
  let ef := split slash (encodefname path) in
  let res := join slash (auxencode ef dotencode) in
  if decide (maxstorepathlen < zlen res) then hashencode path dotencode else Ok res.

Definition pathencode (path : bytes) : res bytes :=
  let de := encodedir path in
  if decide (maxstorepathlen < zlen path) then hashencode de true
  else
    let ef := split slash (encodefname de) in
    let res := join slash (auxencode ef true) in
    if decide (maxstorepathlen < zlen res) then hashencode de true else Ok res.

Definition plainhybridencode (f : bytes) : res bytes := hybridencode f false.

End Encode.

Example auxencode_doc :
  (auxencode (split slash (bs ".foo/aux.txt/txt.aux/con/prn/nul/foo.")) true,
   auxencode (split slash (bs ".com1com2/lpt9.lpt4.lpt1/conprn/com0/lpt0/foo.")) false,
   auxencode [bs "foo. "] true, auxencode [bs " .foo"] true)
  = ([bs "~2efoo"; bs "au~78.txt"; bs "txt.aux"; bs "co~6e"; bs "pr~6e"; bs "nu~6c"; bs "foo~2e"],
     [bs ".com1com2"; bs "lp~749.lpt4.lpt1"; bs "conprn"; bs "com0"; bs "lpt0"; bs "foo~2e"],
     [bs "foo.~20"], [bs "~20.foo"]).
Proof. vm_compute. reflexivity. Qed.


(** ** Names every file system accepts *)

Definition devices : list bytes := winres3 ++ (winres4 ≫= fun w => map (fun d => w ++ [byte d]) (zrange 49 58)).

(** A printable character that is neither a capital nor forbidden on Windows,
    nor a separator. *)
Definition allowed (c : ascii) : bool :=
  bool_decide (32 <= ord c <= 126 /\ c ∉ winreserved /\ c ≠ slash) && negb (capital c).

Record safe_name (dotencode : bool) (n : bytes) : Prop := {
  sn_nonempty : n ≠ [];
  sn_allowed : Forall (fun c => allowed c = true) n;
  sn_last c : last n = Some c -> dotspace c = false;
  sn_first c : dotencode = true -> head n = Some c -> dotspace c = false;
  sn_device : base n ∉ devices;
}.

Lemma hexdigit_allowed d : 0 <= d < 16 -> allowed (hexdigit d) = true /\ dotspace (hexdigit d) = false.
Proof.
  intros Hd%elem_of_zrange. revert d Hd. apply Forall_forall. by repeat constructor.
Qed.

Lemma ord_hex c : 0 <= ord c / 16 < 16 /\ 0 <= ord c mod 16 < 16.
Proof.
  pose proof (ord_range c). split; [|apply Z.mod_pos_bound; lia].
  split; [apply Z.div_pos; lia|apply Z.div_lt_upper_bound; lia].
Qed.

Lemma tilde_allowed c : Forall (fun c => allowed c = true) (tilde c).
Proof. pose proof (ord_hex c) as [H1 H2]. repeat constructor; [apply (hexdigit_allowed _ H1)|apply (hexdigit_allowed _ H2)]. Qed.

Lemma tilde_last p c x : last (p ++ tilde c) = Some x -> dotspace x = false.
Proof. rewrite last_app. intros [= <-]. apply hexdigit_allowed, ord_hex. Qed.

Lemma map_allowed (m : ascii -> bytes) c :
  forallb (fun c => bool_decide (c = slash) || forallb allowed (m c)) all_ascii = true ->
  c ≠ slash -> Forall (fun c => allowed c = true) (m c).
Proof.
  intros H Hc. apply Forall_forall. intros x Hx. pose proof (ascii_forall _ H c) as Ha.
  cbv beta in Ha. rewrite bool_decide_eq_false_2 in Ha by done. cbn [orb] in Ha. rewrite forallb_forall in Ha.
  by apply Ha, list_elem_of_In.
Qed.

Lemma lowermap_allowed c : c ≠ slash -> Forall (fun c => allowed c = true) (lowermap c).
Proof. apply map_allowed. vm_compute. reflexivity. Qed.

Lemma cmap_allowed c : c ≠ slash -> Forall (fun c => allowed c = true) (cmap c).
Proof. apply map_allowed. vm_compute. reflexivity. Qed.

Lemma allowed_plain n : Forall (fun c => allowed c = true) n -> plain n.
Proof.
  intros Hn Hs. rewrite Forall_forall in Hn. specialize (Hn _ Hs). vm_compute in Hn. done.
Qed.

(** *** The part before the first dot *)

Lemma base_app a b : base (a ++ b) = if decide (dot ∈ a) then base a else a ++ base b.
Proof.
  induction a as [|c a IH]; [by rewrite decide_False by apply not_elem_of_nil|]. cbn [app base]. destruct (decide (c = dot)) as [->|Hc].
  - by rewrite decide_True by left.
  - rewrite IH. repeat case_decide; set_solver.
Qed.

Lemma base_prefix n : exists r, n = base n ++ r.
Proof.
  induction n as [|c n [r IH]]; [by exists []|]. cbn. case_decide; [by exists (c :: n)|]. exists r. cbn. by rewrite <- IH.
Qed.

Lemma base_take k n : base (take k n) = take k (base n).
Proof.
  revert k. induction n as [|c n IH]; intros [|k]; cbn; try done.
  case_decide; [done|]. cbn. by rewrite IH.
Qed.

(** The names of devices have three letters, or four, and none of the
    characters of escapes. *)
Definition device_shape (n : bytes) : bool :=
  bool_decide (length n ∈ [3; 4]%nat) && forallb (fun c => negb (bool_decide (c ∈ ["~"; "_"; "."; " "]%char))) n.

Lemma devices_shape n : n ∈ devices -> device_shape n = true.
Proof.
  intros Hn. assert (forallb device_shape devices = true) as H by (vm_compute; reflexivity).
  rewrite forallb_forall in H. by apply H, list_elem_of_In.
Qed.

Lemma device_length n : n ∈ devices -> (3 <= length n <= 4)%nat.
Proof. intros H%devices_shape. apply andb_prop in H as [H _]. apply bool_decide_eq_true in H. set_solver by lia. Qed.

Lemma device_char n c : n ∈ devices -> c ∈ n -> c ∉ ["~"; "_"; "."; " "]%char.
Proof.
  intros H%devices_shape Hc. apply andb_prop in H as [_ H]. rewrite forallb_forall in H.
  specialize (H c (proj1 (list_elem_of_In _ _) Hc)). by apply negb_true_iff, bool_decide_eq_false in H.
Qed.

(** The condition of the code. *)
Lemma winreservedname_device n : winreservedname n = bool_decide (base n ∈ devices).
Proof.
  apply eq_true_iff_eq. rewrite bool_decide_eq_true. destruct (base_prefix n) as [r E].
  set (b := base n) in *. unfold winreservedname. fold b. unfold zlen. rewrite orb_true_iff, !andb_true_iff, !bool_decide_eq_true.
  unfold devices. rewrite elem_of_app. clearbody b. subst n. split.
  - intros [[Hl Ht]|[[Hl Hd] Ht]].
    + left. destruct b as [|x [|y [|z [|]]]]; cbn in Hl; try lia. exact Ht.
    + right. destruct b as [|x [|y [|z [|d [|]]]]]; cbn in Hl; try lia. cbn in Hd, Ht.
      apply bool_decide_eq_true in Hd. apply list_elem_of_bind. exists [x; y; z]. split; [|done].
      apply list_elem_of_fmap. exists (ord d). split; [by rewrite byte_ord|]. apply elem_of_zrange. lia.
  - intros [Hb|(w & Hd & Hw)%list_elem_of_bind].
    + left. assert (length b = 3%nat) as Hl by (unfold winres3 in Hb; set_solver). rewrite Hl. split; [done|].
      by rewrite take_app_length' by done.
    + right. apply list_elem_of_fmap in Hd as (d & -> & Hd%elem_of_zrange).
      assert (length w = 3%nat) as Hl by (unfold winres4 in Hw; set_solver). rewrite length_app, Hl.
      rewrite <- app_assoc, take_app_length', lookup_app_r, Hl by lia. cbn. rewrite bool_decide_eq_true, ord_byte, Z.mod_small by lia.
      split; [split; [done|lia]|done].
Qed.


(** *** Components *)

Lemma device_special p c s : c ∈ ["~"; "_"]%char -> dot ∉ p -> base (p ++ c :: s) ∉ devices.
Proof.
  intros Hc Hp Hd. rewrite base_app, decide_False in Hd by done. cbn in Hd.
  rewrite decide_False in Hd by (intros ->; by apply (bool_decide_unpack _) in Hc || set_solver).
  apply (device_char _ c) in Hd; [|set_solver]. set_solver.
Qed.

(** Changing the last character, a dot or a space, makes no device. *)
Lemma device_end p c e s : e ∈ ["~"; "_"]%char -> base (p ++ [c]) ∉ devices -> base (p ++ e :: s) ∉ devices.
Proof.
  intros He Hb. destruct (decide (dot ∈ p)) as [Hp|Hp]; [|by apply device_special].
  rewrite base_app, decide_True in Hb |- * by done. done.
Qed.

Lemma auxend_safe dotencode n :
  n ≠ [] -> Forall (fun c => allowed c = true) n -> (forall c, dotencode = true -> head n = Some c -> dotspace c = false) ->
  base n ∉ devices -> safe_name dotencode (auxend n).
Proof.
  intros Hne Ha Hf Hb. unfold auxend. destruct (last n) as [c|] eqn:Hl; [|by apply last_None in Hl].
  apply last_Some in Hl as [p ->]. destruct (dotspace c) eqn:Hc.
  - rewrite removelast_last. apply Forall_app in Ha as [Hp _]. split.
    + by destruct p.
    + apply Forall_app. split; [done|apply tilde_allowed].
    + apply tilde_last.
    + intros x Hd Hx. apply (Hf x Hd). destruct p as [|y p]; [|done]. cbn in *. specialize (Hf c Hd eq_refl). congruence.
    + by eapply device_end; [left|exact Hb].
  - split; [done|done| |done|done]. intros x. rewrite last_snoc. congruence.
Qed.

Lemma auxfront_spec dotencode c n :
  Forall (fun c => allowed c = true) (c :: n) ->
  auxfront dotencode c n ≠ [] /\ Forall (fun c => allowed c = true) (auxfront dotencode c n)
  /\ (forall x, dotencode = true -> head (auxfront dotencode c n) = Some x -> dotspace x = false)
  /\ base (auxfront dotencode c n) ∉ devices.
Proof.
  intros Ha. unfold auxfront. destruct (dotencode && dotspace c) eqn:Hd.
  { split_and!; [done| | |].
    - apply Forall_cons in Ha as [_ Ha]. apply Forall_app. split; [apply tilde_allowed|done].
    - intros x _ [= <-]. reflexivity.
    - apply (device_special []); [left|apply not_elem_of_nil]. }
  assert (forall x n', dotencode = true -> head (c :: n') = Some x -> dotspace x = false) as Hh.
  { intros x n' -> [= <-]. done. }
  rewrite winreservedname_device. case_bool_decide as Hb; [|by split_and!; eauto].
  destruct (base_prefix (c :: n)) as [r E]. pose proof (device_length _ Hb) as Hl.
  assert (dot ∉ base (c :: n)) as Hdot by (intros Hx; apply (device_char _ _ Hb) in Hx; set_solver).
  set (b := base (c :: n)) in *. rewrite E in Ha |- *. clearbody b.
  destruct b as [|x [|y [|z b]]]; cbn in Hl; try lia. injection E as -> ->. cbn [app lookup list_lookup take drop] in *. rewrite drop_0.
  rewrite !Forall_cons in Ha. split_and!; [done| | |].
  - rewrite !Forall_cons. split_and!; try tauto. apply Forall_app. split; [apply tilde_allowed|tauto].
  - intros e. apply (Hh e (y :: z :: b ++ r)).
  - apply (device_special [x; y]); [left|set_solver].
Qed.

Lemma auxcomp_safe dotencode n :
  n ≠ [] -> Forall (fun c => allowed c = true) n -> safe_name dotencode (auxcomp dotencode n).
Proof.
  intros Hne Ha. destruct n as [|c n]; [done|]. destruct (auxfront_spec dotencode c n Ha) as (H1 & H2 & H3 & H4).
  by apply auxend_safe.
Qed.


(** *** Paths and their components *)

Lemma encode_join m ls : m slash = [slash] -> encode_with m (join slash ls) = join slash (map (encode_with m) ls).
Proof.
  intros Hm. induction ls as [|l [|l' ls] IH]; [done..|].
  change (join slash (l :: l' :: ls)) with (l ++ slash :: join slash (l' :: ls)).
  change (join slash (map (encode_with m) (l :: l' :: ls)))
    with (encode_with m l ++ slash :: join slash (map (encode_with m) (l' :: ls))).
  unfold encode_with in *. by rewrite bind_app, bind_cons, Hm, IH.
Qed.

Lemma encode_allowed m l :
  (forall c, c ≠ slash -> Forall (fun c => allowed c = true) (m c)) -> plain l -> Forall (fun c => allowed c = true) (encode_with m l).
Proof.
  intros Hm Hl. unfold encode_with. apply Forall_bind, Forall_forall. intros c Hc. apply Hm. by intros ->.
Qed.

(** The encodings of characters apply to each component. *)
Lemma split_encode m t :
  m slash = [slash] -> (forall c, c ≠ slash -> Forall (fun c => allowed c = true) (m c)) ->
  split slash (encode_with m t) = map (encode_with m) (split slash t).
Proof.
  intros Hs Hm. rewrite <- (split_join slash t) at 1. rewrite encode_join by done. apply join_split_inv.
  - pose proof (split_nonempty slash t). by destruct (split slash t).
  - apply Forall_fmap. eapply Forall_impl; [apply split_clean|]. intros l Hl. by apply allowed_plain, encode_allowed.
Qed.

(** A path whose components are not empty. *)
Definition proper (path : bytes) : Prop := Forall (fun l => l ≠ []) (split slash path).

#[export] Instance proper_dec path : Decision (proper path).
Proof. unfold proper. apply _. Defined.

Lemma encode_components m t dotencode :
  m slash = [slash] -> (forall c, c ≠ slash -> Forall (fun c => allowed c = true) (m c)) -> (forall c, m c ≠ []) ->
  proper t -> Forall (safe_name dotencode) (auxencode (split slash (encode_with m t)) dotencode).
Proof.
  intros Hs Hm Hne Ht. rewrite split_encode by done. unfold auxencode. apply Forall_fmap, Forall_fmap, Forall_forall.
  intros l Hl. unfold proper in Ht. rewrite Forall_forall in Ht. specialize (Ht l Hl).
  pose proof (split_clean slash t) as Hc. rewrite Forall_forall in Hc. specialize (Hc l Hl).
  apply auxcomp_safe; [|by apply encode_allowed]. destruct l as [|c l]; [done|]. unfold encode_with. cbn.
  specialize (Hne c). by destruct (m c).
Qed.

Lemma cmap_nonempty c : cmap c ≠ [].
Proof. unfold cmap. by repeat case_match. Qed.
Lemma lowermap_nonempty c : lowermap c ≠ [].
Proof. unfold lowermap. by repeat case_match. Qed.

Definition safe_path (dotencode : bool) (r : bytes) : Prop := Forall (safe_name dotencode) (split slash r).

Lemma safe_plain d ls : Forall (safe_name d) ls -> Forall plain ls.
Proof. intros H. eapply Forall_impl; [exact H|]. intros l Hl. apply allowed_plain, (sn_allowed _ _ Hl). Qed.

Lemma safe_join d ls : ls ≠ [] -> Forall (safe_name d) ls -> safe_path d (join slash ls).
Proof. intros Hne Hls. unfold safe_path. rewrite join_split_inv; [done|done|by eapply safe_plain]. Qed.

(** *** The directories of the hashed form *)

Lemma zlen_join_snoc ls l : ls ≠ [] -> zlen (join slash (ls ++ [l])) = zlen (join slash ls) + 1 + zlen l.
Proof.
  intros Hne. destruct (exists_last Hne) as (ls' & l' & ->).
  rewrite !join_concat, map_app, concat_app. cbn. rewrite app_nil_r, !zlen_app. unfold zlen. cbn. lia.
Qed.

Lemma join_empty ls : Forall (fun l => l ≠ []) ls -> zlen (join slash ls) = 0 <-> ls = [].
Proof.
  intros HF. split; [|by intros ->]. destruct ls as [|l [|l' ls]]; [done|..]; apply Forall_cons in HF as [Hl _].
  - unfold zlen. destruct l; [done|]. cbn. lia.
  - cbn. rewrite zlen_app, zlen_cons. pose proof (zlen_nonneg l). pose proof (zlen_nonneg (join slash (l' :: ls))). cbn in *. lia.
Qed.

Lemma cut_safe d p c :
  safe_name d p -> last (take dirprefixlen p) = Some c ->
  safe_name d (if dotspace c then removelast (take dirprefixlen p) ++ [underscore] else take dirprefixlen p).
Proof.
  intros [Hne Ha Hl Hf Hb] Hc.
  assert (base (take dirprefixlen p) ∉ devices) as Hb'.
  { rewrite base_take. intros Hd. apply Hb. pose proof (device_length _ Hd) as H2. rewrite length_take in H2.
    rewrite take_ge in Hd by (unfold dirprefixlen in *; lia). done. }
  assert (head (take dirprefixlen p) = head p) as Hh by by destruct p.
  apply (Forall_take _ dirprefixlen) in Ha. apply last_Some in Hc as [q E]. destruct (dotspace c) eqn:Ec.
  - rewrite E in *. rewrite removelast_last. apply Forall_app in Ha as [Ha _]. split.
    + by destruct q.
    + apply Forall_app. split; [done|by repeat constructor].
    + intros x. rewrite last_snoc. by intros [= <-].
    + intros x Hd Hx. apply (Hf x Hd). rewrite <- Hh. destruct q as [|y q]; [|done]. cbn in *.
      rewrite (Hf c Hd (eq_sym Hh)) in Ec. done.
    + by eapply device_end; [right; left|exact Hb'].
  - split; [by destruct p|done| |by rewrite Hh|done]. rewrite E, last_snoc. by intros x [= <-].
Qed.

Lemma shortdirs_spec d parts sdirs len :
  Forall (safe_name d) parts -> Forall (safe_name d) sdirs -> len = zlen (join slash sdirs) -> len <= maxshortdirslen ->
  exists sd, shortdirs parts sdirs len = Ok sd /\ Forall (safe_name d) sd /\ zlen (join slash sd) <= maxshortdirslen.
Proof.
  intros Hp. revert sdirs len. induction Hp as [|p parts Hp _ IH]; intros sdirs len Hs Hlen Hmax; [exists sdirs; subst; done|].
  cbn [shortdirs]. destruct (last _) as [c|] eqn:Hc.
  2: { apply last_None in Hc. destruct (sn_nonempty _ _ Hp). by destruct p. }
  pose proof (cut_safe d p c Hp Hc) as Hd.
  assert (zlen (if dotspace c then removelast (take dirprefixlen p) ++ [underscore] else take dirprefixlen p) <= 8) as H8.
  { apply last_Some in Hc as [q E]. pose proof (length_take p dirprefixlen) as Hl. rewrite E in *.
    rewrite removelast_last, length_app in *. unfold zlen, dirprefixlen in *. cbn [length] in Hl.
    destruct (dotspace c); rewrite length_app; cbn [length]; lia. }
  set (e := if dotspace c then _ else _) in *. clearbody e.
  assert (Forall (safe_name d) (sdirs ++ [e])) as Hse by (apply Forall_app; split; [done|by constructor]).
  assert (len = 0 <-> sdirs = []) as H0.
  { rewrite Hlen. apply join_empty. eapply Forall_impl; [exact Hs|]. intros l Hx. apply (sn_nonempty _ _ Hx). }
  case_decide as E0.
  - apply H0 in E0. subst sdirs. apply IH; [done|done|]. unfold maxshortdirslen. lia.
  - case_decide as Et; [exists sdirs; subst; done|]. apply IH; [done| |lia].
    rewrite zlen_join_snoc by (intros E; by apply E0, H0). lia.
Qed.


(** *** File extensions *)

Lemma rfind_spec c n i : rfind c n = Some i -> exists e, drop i n = c :: e /\ c ∉ e.
Proof.
  revert i. induction n as [|x n IH]; intros i; [done|]. cbn. destruct (rfind c n) as [j|] eqn:E.
  - intros [= <-]. by apply IH.
  - case_decide as Hx; [|done]. intros [= <-]. subst x. exists n. split; [done|].
    clear IH. induction n as [|x n IH]; [apply not_elem_of_nil|]. cbn in E. destruct (rfind c n); [done|].
    case_decide; [done|]. rewrite not_elem_of_cons. split; [congruence|by apply IH].
Qed.

Lemma rfind_last c p e : c ∉ e -> rfind c (p ++ c :: e) = Some (length p).
Proof.
  intros He. induction p as [|x p IH]; cbn; [|by rewrite IH].
  assert (rfind c e = None) as ->; [|by rewrite decide_True].
  induction e as [|y e IH]; [done|]. cbn. apply not_elem_of_cons in He as [Hy He]. rewrite IH by done. by rewrite decide_False by congruence.
Qed.

(** The extension is the end of the name from its last dot. *)
Lemma splitext_spec n : exists p, n = p ++ (splitext n).2 /\ ((splitext n).2 = [] \/ exists e, (splitext n).2 = dot :: e /\ dot ∉ e).
Proof.
  unfold splitext. destruct (rfind dot n) as [i|] eqn:E; [|exists n; by rewrite app_nil_r; auto].
  destruct (forallb _ _); cbn; [exists n; by rewrite app_nil_r; auto|].
  exists (take i n). split; [by rewrite take_drop|]. right. by apply rfind_spec.
Qed.

Lemma splitext_last p e : dot ∉ e -> (splitext (p ++ dot :: e)).2 = [] \/ (splitext (p ++ dot :: e)).2 = dot :: e.
Proof.
  intros He. unfold splitext. rewrite rfind_last by done. destruct (forallb _ _); [by left|]. right. cbn. by rewrite drop_app_length.
Qed.

(** *** The hashed form *)

Section Hashed.
Context `{Sha1Laws}.

Lemma sha1hex_allowed t : Forall (fun c => allowed c = true /\ dotspace c = false) (sha1hex t).
Proof. apply Forall_forall. intros c (d & Hd & ->)%sha1hex_digits. by apply hexdigit_allowed. Qed.

Lemma sha1hex_split t : exists c r, sha1hex t = c :: r /\ exists r' c', sha1hex t = r' ++ [c'].
Proof.
  pose proof (length_sha1hex t) as Hl. destruct (sha1hex t) as [|c r] eqn:E; [done|]. exists c, r. split; [done|].
  destruct (exists_last (l := c :: r) ltac:(done)) as (r' & c' & ->). by exists r', c'.
Qed.

(** The last component: the beginning of the name, the digest, the extension. *)
Lemma hashed_safe d n k t : safe_name d n -> safe_name d (take k n ++ sha1hex t ++ (splitext n).2).
Proof.
  intros [Hne Ha Hl Hf Hb]. pose proof (sha1hex_allowed t) as Hs. pose proof (length_sha1hex t) as H40.
  destruct (sha1hex_split t) as (c & r & E & r' & c' & E'). destruct (splitext_spec n) as (p & En & Hext).
  set (ext := (splitext n).2) in *. clearbody ext. split.
  - rewrite E. by destruct (take k n).
  - rewrite !Forall_app. split_and!; [by apply Forall_take|by eapply Forall_impl; [exact Hs|]; intros ? [? _]|].
    rewrite En in Ha. by apply Forall_app in Ha as [_ Ha].
  - intros x. destruct Hext as [->|(e & -> & _)].
    + rewrite app_nil_r, E', app_assoc, last_snoc. intros [= <-]. rewrite E' in Hs. apply Forall_app in Hs as [_ Hs].
      apply Forall_cons in Hs as [[_ Hs] _]. done.
    + rewrite app_assoc, last_app_cons. rewrite En, last_app_cons in Hl. apply Hl.
  - intros x Hd. destruct n as [|y n]; [done|]. destruct k as [|k]; cbn.
    + rewrite E in Hs |- *. intros [= <-]. apply Forall_cons in Hs as [[_ Hs] _]. done.
    + intros [= <-]. by apply (Hf y).
  - rewrite base_app. case_decide as Hdot.
    + replace (base (take k n)) with (base n); [done|]. rewrite <- (take_drop k n) at 1. by rewrite base_app, decide_True.
    + intros Hdev%device_length. rewrite length_app, base_app in Hdev. rewrite decide_False, length_app in Hdev; [lia|].
      rewrite Forall_forall in Hs. by intros [_ Hx]%Hs.
Qed.

Lemma hash_join sd f : Forall (fun l => l ≠ []) sd ->
  bs "dh/" ++ (if decide (0 < zlen (join slash sd)) then join slash sd ++ [slash] else join slash sd) ++ f
  = join slash ([bs "dh"] ++ sd ++ [f]).
Proof.
  intros Hs. change (join slash ([bs "dh"] ++ sd ++ [f])) with (join slash (bs "dh" :: (sd ++ [f]))).
  assert (join slash (bs "dh" :: (sd ++ [f])) = bs "dh/" ++ join slash (sd ++ [f])) as -> by by destruct sd.
  f_equal. destruct sd as [|l sd]; [done|].
  assert (zlen (join slash (l :: sd)) ≠ 0) as Hz by by rewrite join_empty.
  pose proof (zlen_nonneg (join slash (l :: sd))). rewrite decide_True by lia.
  destruct (exists_last (l := l :: sd) ltac:(done)) as (sd' & l' & ->).
  rewrite !join_concat, map_app, concat_app. cbn. by rewrite app_nil_r, <- !app_assoc.
Qed.

Definition basename_of (path : bytes) (dotencode : bool) : bytes :=
  default [] (last (auxencode (split slash (lowerencode (drop 5 path))) dotencode)).

(** The hashed form: short names of directories, and the last component with the
    digest; it is not too long unless the extension is. *)
Lemma hashencode_spec path d :
  proper (drop 5 path) ->
  exists sd k,
    let ext := (splitext (basename_of path d)).2 in
    let r := join slash ([bs "dh"] ++ sd ++ [take k (basename_of path d) ++ sha1hex path ++ ext]) in
    hashencode path d = Ok r /\ safe_path d r /\ zlen r <= Z.max maxstorepathlen (112 + zlen ext).
Proof.
  intros Hp. unfold hashencode, basename_of.
  pose proof (encode_components lowermap _ d eq_refl lowermap_allowed lowermap_nonempty Hp) as Hc.
  fold (lowerencode (drop 5 path)) in Hc.
  assert (auxencode (split slash (lowerencode (drop 5 path))) d ≠ []) as Hne.
  { pose proof (split_nonempty slash (lowerencode (drop 5 path))). by destruct (split slash _). }
  set (parts := auxencode _ d) in *. clearbody parts. destruct (exists_last Hne) as (ps & basename & ->).
  rewrite last_snoc, removelast_last. cbn [default]. apply Forall_app in Hc as [Hps [Hb _]%Forall_cons].
  destruct (shortdirs_spec d ps [] 0 Hps) as (sd & -> & Hsd & Hlen); [done..|]. cbn [rbind].
  assert (Forall (fun l => l ≠ []) sd) as Hnsd by (eapply Forall_impl; [exact Hsd|]; intros l Hx; apply (sn_nonempty _ _ Hx)).
  set (ext := (splitext basename).2). set (dirs := if decide (0 < zlen (join slash sd)) then _ else _).
  assert (zlen dirs <= 69) as Hdirs by (unfold dirs, maxshortdirslen in *; case_decide; rewrite ?zlen_app; change (zlen [slash]) with 1; lia).
  assert (forall f, bs "dh/" ++ dirs ++ f = join slash ([bs "dh"] ++ sd ++ [f])) as Hj by (intros f; by apply hash_join).
  assert (zlen (sha1hex path) = 40) as H40 by (unfold zlen; by rewrite length_sha1hex).
  assert (forall k, safe_path d (join slash ([bs "dh"] ++ sd ++ [take k basename ++ sha1hex path ++ ext]))) as Hsafe.
  { intros k. apply safe_join; [done|]. apply Forall_app. split.
    - constructor; [|done]. split; [done|by repeat constructor|by intros x [= <-]|by intros x _ [= <-]|].
      intros Hx%device_length. change (3 <= 2 <= 4)%nat in Hx. lia.
    - apply Forall_app. split; [done|]. constructor; [by apply hashed_safe|done]. }
  set (room := maxstorepathlen - _).
  assert (room = 77 - zlen dirs - zlen ext) as Er
    by (unfold room, maxstorepathlen; rewrite !zlen_app; change (zlen (bs "dh/")) with 3; lia).
  clearbody room. case_decide as Hroom.
  - exists sd, (Z.to_nat room). rewrite Hj. split_and!; [done|apply Hsafe|]. cbn [id]. fold ext. rewrite <- Hj.
    assert (zlen (take (Z.to_nat room) basename) <= room) by (unfold zlen; rewrite length_take; lia).
    rewrite !zlen_app. change (zlen (bs "dh/")) with 3. unfold maxstorepathlen. lia.
  - exists sd, 0%nat. rewrite Hj. split_and!; [done|apply (Hsafe 0%nat)|]. cbn [id]. fold ext.
    change (take 0 basename ++ sha1hex path ++ ext) with (sha1hex path ++ ext). rewrite <- Hj, !zlen_app. change (zlen (bs "dh/")) with 3. lia.
Qed.
End Hashed.
End StorePath.
