(* ===== verification/StoreSafety.v ===== *)
(** * What the paths of store files guarantee (store.py)

    Every path is accepted by all file systems and short enough, and two files
    have the same path only if their digests collide. *)

From S2P Require Import Prelude Lines Struct PyEscape ManifestText StoreNames StorePath.

Module StoreSafety.
Import PyEscape StoreNames StorePath.

(** The names the store is asked for: revlogs and their data under [data] and
    [meta]. *)
Record store_file (path : bytes) : Prop := {
  sf_root : bs "data/" `prefix_of` path \/ bs "meta/" `prefix_of` path;
  sf_proper : proper path;
  sf_ext : bs ".i" `suffix_of` path \/ bs ".d" `suffix_of` path;
}.

(** ** Extensions survive *)

Lemma auxcomp_ext d n x :
  dotspace x = false ->
  (exists y, auxcomp d (n ++ [dot; x]) = y ++ [dot; x]) \/
  auxcomp d (n ++ [dot; x]) = tilde dot ++ [x].
Proof.
  intros Hx. assert (forall y, auxend (y ++ [x]) = y ++ [x]) as Hend by (intros y; unfold auxend; by rewrite last_snoc, Hx).
  assert (forall y, auxend (y ++ [dot; x]) = y ++ [dot; x]) as Hend2.
  { intros y. specialize (Hend (y ++ [dot])). by rewrite <- app_assoc in Hend. }
  assert (winreservedname (n ++ [dot; x]) = true -> (3 <= length n)%nat) as Hw.
  { rewrite winreservedname_device, bool_decide_eq_true. intros Hd%device_length. rewrite base_app in Hd.
    case_decide; [|rewrite app_nil_r in Hd; lia]. destruct (base_prefix n) as [r ->]. rewrite length_app. lia. }
  destruct n as [|c n]; cbn [app auxcomp] in *; unfold auxfront.
  - destruct (d && dotspace dot); [right; apply (Hend (tilde dot))|]. destruct (winreservedname _) eqn:E; [specialize (Hw eq_refl); cbn in Hw; lia|].
    left. exists []. apply (Hend2 []).
  - left. destruct (d && dotspace c); [exists (tilde c ++ n); rewrite app_assoc; apply Hend2|].
    destruct (winreservedname _) eqn:E; [|exists (c :: n); apply (Hend2 (c :: n))].
    specialize (Hw eq_refl). destruct n as [|y [|z n]]; cbn in Hw; try lia. cbn [app lookup list_lookup take drop].
    exists (c :: y :: tilde z ++ n). rewrite drop_0. apply (Hend2 (c :: y :: tilde z ++ n)).
Qed.

Lemma auxcomp_ext_short d n x : dotspace x = false -> x ≠ dot -> 
  (splitext (auxcomp d (n ++ [dot; x]))).2 = [] \/ (splitext (auxcomp d (n ++ [dot; x]))).2 = [dot; x].
Proof.
  intros Hx Hd. destruct (auxcomp_ext d n x Hx) as [[y ->]| ->].
  - apply splitext_last. set_solver.
  - left. unfold splitext. replace (rfind dot (tilde dot ++ [x])) with (None : option nat); [done|].
    cbn. by rewrite decide_False.
Qed.

(** ** What [encodedir] leaves *)

Lemma resuffix_nonempty suf new l : new ≠ [] -> l ≠ [] -> resuffix suf new l ≠ [].
Proof. destruct l; [done|]. cbn. by case_decide. Qed.

Lemma encodename_nonempty l : l ≠ [] -> encodename l ≠ [].
Proof. intros Hl. by repeat apply resuffix_nonempty. Qed.

Lemma mapinit_snoc f ls l : mapinit f (ls ++ [l]) = map f ls ++ [l].
Proof. induction ls as [|l' ls IH]; [done|]. cbn. rewrite <- IH. by destruct ls. Qed.

Lemma last_comp path e : plain e -> e `suffix_of` path -> exists ls n, split slash path = ls ++ [n ++ e].
Proof.
  intros He [q ->]. destruct (exists_last (split_nonempty slash q)) as (ls & n & E). exists ls, n.
  pose proof (split_clean slash q) as Hc. rewrite E in Hc. apply Forall_app in Hc as [Hls [Hn _]%Forall_cons].
  rewrite <- (split_join slash q), E, join_concat, <- app_assoc.
  rewrite <- join_concat. apply join_split_inv; [by destruct ls|]. apply Forall_app. split; [done|].
  constructor; [|done]. unfold plain in *. set_solver.
Qed.

Lemma first_comp path r : plain r -> r ++ [slash] `prefix_of` path -> exists ls, ls ≠ [] /\ split slash path = r :: ls.
Proof.
  intros Hr [q ->]. exists (split slash q). split; [apply split_nonempty|].
  rewrite <- (split_join slash q) at 1.
  pose proof (split_nonempty slash q) as Hne. pose proof (split_clean slash q) as Hc.
  replace ((r ++ [slash]) ++ join slash (split slash q)) with (join slash (r :: split slash q)).
  - apply join_split_inv; [done|]. by constructor.
  - rewrite <- app_assoc. by destruct (split slash q).
Qed.

(** The components of a file of the store after [encodedir]. *)
Lemma encodedir_store path :
  store_file path ->
  exists root ls n x, encodedir path = join slash (root :: ls ++ [n ++ [dot; x]])
    /\ (root = bs "data" \/ root = bs "meta")
    /\ (x = "i"%char \/ x = "d"%char) /\ Forall (fun l => plain l /\ l ≠ []) (ls ++ [n ++ [dot; x]]).
Proof.
  intros [Hroot Hp Hext].
  assert (exists x, (x = "i"%char \/ x = "d"%char) /\ [dot; x] `suffix_of` path) as (x & Hx & Hs)
    by (destruct Hext; [exists "i"%char|exists "d"%char]; auto).
  assert (exists root, (root = bs "data" \/ root = bs "meta") /\ root ++ [slash] `prefix_of` path) as (root & Hr & Hpre)
    by (destruct Hroot; [exists (bs "data")|exists (bs "meta")]; auto).
  assert (plain [dot; x]) as Hpx by (destruct Hx as [-> | ->]; plain_t).
  assert (plain root) as Hpr by (destruct Hr as [-> | ->]; plain_t).
  destruct (last_comp path _ Hpx Hs) as (ls & n & E1). destruct (first_comp path root Hpr Hpre) as (ls' & Hne & E2).
  destruct (exists_last Hne) as (ls2 & l2 & ->). rewrite E1 in E2.
  assert (ls = root :: ls2 /\ n ++ [dot; x] = l2) as [-> <-].
  { change (root :: ls2 ++ [l2]) with ((root :: ls2) ++ [l2]) in E2. by apply app_inj_tail in E2. }
  clear E2. pose proof (split_clean slash path : Forall plain _) as Hc. rewrite E1 in Hc.
  unfold proper in Hp. rewrite E1 in Hp. exists root, (map encodename ls2), n, x. split_and!; try done.
  - rewrite <- (split_join slash path), E1, encodedir_join by done. rewrite mapinit_snoc. cbn [map app]. f_equal.
    f_equal. destruct Hr as [-> | ->]; reflexivity.
  - cbn [app] in Hc, Hp. apply Forall_cons in Hc as [_ [Hc1 Hc2]%Forall_app]. apply Forall_cons in Hp as [_ [Hp1 Hp2]%Forall_app].
    apply Forall_app. split; [|by apply Forall_and].
    apply Forall_fmap. eapply Forall_impl; [apply Forall_and; split; [exact Hc1|exact Hp1]|]. cbn.
    intros l [Hl1 Hl2]. split; [by apply encodename_plain|by apply encodename_nonempty].
Qed.

Lemma drop_root root s : root = bs "data" \/ root = bs "meta" -> drop 5 (root ++ slash :: s) = s.
Proof. by intros [-> | ->]. Qed.

Lemma join_root root ls l : join slash (root :: ls ++ [l]) = root ++ slash :: join slash (ls ++ [l]).
Proof. by destruct ls. Qed.

Lemma proper_join ls : ls ≠ [] -> Forall (fun l => plain l /\ l ≠ []) ls -> proper (join slash ls).
Proof.
  intros Hne HF. unfold proper. apply Forall_and in HF as [H1 H2]. by rewrite join_split_inv.
Qed.

(** What the two forms are made of. *)
Lemma store_parts path d :
  store_file path ->
  proper (encodedir path) /\ proper (drop 5 (encodedir path))
  /\ ((splitext (basename_of (encodedir path) d)).2 = [] \/ exists x, (splitext (basename_of (encodedir path) d)).2 = [dot; x]).
Proof.
  intros Hf. destruct (encodedir_store path Hf) as (root & ls & n & x & E & Hr & Hx & HF).
  assert (drop 5 (encodedir path) = join slash (ls ++ [n ++ [dot; x]])) as Ed by (rewrite E, join_root; by apply drop_root).
  split_and!.
  - rewrite E. apply proper_join; [done|]. constructor; [|done]. destruct Hr as [-> | ->]; split; (plain_t || done).
  - rewrite Ed. apply proper_join; [by destruct ls|done].
  - unfold basename_of. rewrite Ed. unfold lowerencode. rewrite split_encode by (done || apply lowermap_allowed).
    apply Forall_and in HF as [HF _]. rewrite join_split_inv; [|by destruct ls|exact HF].
    unfold auxencode. rewrite !map_app, last_app. cbn [map last default].
    unfold encode_with. rewrite bind_app.
    assert ([dot; x] ≫= lowermap = [dot; x]) as -> by by destruct Hx as [-> | ->].
    destruct (auxcomp_ext_short d (n ≫= lowermap) x) as [He|He];
      [by destruct Hx as [-> | ->]|by destruct Hx as [-> | ->]|by left|right; by exists x].
Qed.

Section Safe.
Context `{Sha1Laws}.

(** [C19] The path of every file of the store exists, has at most 120
    characters, and each of its components is a name all file systems accept
    and keep apart: it is not empty, has no capitals, control characters or
    characters forbidden on Windows, does not end (nor, when dots are encoded,
    begin) with a dot or a space, and is not the name of a device, with or
    without an extension. *)
Theorem store_name_safe path d :
  store_file path -> exists r, hybridencode path d = Ok r /\ safe_path d r /\ zlen r <= 120.
Proof.
  intros Hf. destruct (store_parts path d Hf) as (Hp & Hp5 & He). unfold hybridencode. case_decide as Hlen.
  - destruct (hashencode_spec (encodedir path) d Hp5) as (sd & k & Hok & Hs & Hl).
    eexists. split; [exact Hok|]. split; [exact Hs|]. etrans; [exact Hl|]. unfold maxstorepathlen.
    destruct He as [-> | [x ->]]; done.
  - eexists. split; [done|]. split; [|unfold maxstorepathlen in *; lia].
    apply safe_join; [|by apply encode_components; [|apply cmap_allowed|apply cmap_nonempty|]].
    pose proof (split_nonempty slash (encodefname (encodedir path))). by destruct (split slash _).
Qed.

End Safe.

(** ** Paths are not shared *)

(** [coded w s]: [s] writes each character of [w] by its code or by its escape. *)
Inductive coded : bytes -> bytes -> Prop :=
  | coded_nil : coded [] []
  | coded_char c w s : coded w s -> coded (c :: w) (cmap c ++ s)
  | coded_tilde c w s : coded w s -> coded (c :: w) (tilde c ++ s).

(** The dictionary of [decode] with all escapes. *)
Definition dmap_aux : gmap bytes ascii := dmap_short ∪ list_to_map (map (fun c => (tilde c, c)) all_ascii).

Lemma decodes_aux_cmap : decodes dmap_aux cmap = true.
Proof. vm_compute. reflexivity. Qed.
Lemma decodes_aux_tilde : decodes dmap_aux tilde = true.
Proof. vm_compute. reflexivity. Qed.

Lemma coded_decode w s rest : coded w s -> decode dmap_aux (s ++ rest) = let* r := decode dmap_aux rest in Ok (w ++ r).
Proof.
  induction 1 as [|c w s _ IH|c w s _ IH]; [cbn; by destruct (decode _ rest)|..]; rewrite <- app_assoc.
  - rewrite decodes_char, IH by apply decodes_aux_cmap. by destruct (decode _ rest).
  - rewrite (decodes_char _ tilde), IH by apply decodes_aux_tilde. by destruct (decode _ rest).
Qed.

Lemma coded_app w1 s1 w2 s2 : coded w1 s1 -> coded w2 s2 -> coded (w1 ++ w2) (s1 ++ s2).
Proof. induction 1; intros H2; [done|..]; rewrite <- app_assoc; constructor; auto. Qed.

Lemma coded_encode w : coded w (encode_with cmap w).
Proof. induction w as [|c w IH]; [constructor|]. by apply (coded_char c). Qed.

(** A code of more than one character begins with a sign and does not end with
    a dot or a space. *)
Definition code_shape (c : ascii) : bool :=
  bool_decide (cmap c = [c])
  || (match head (cmap c) with Some x => bool_decide (x ∈ ["~"; "_"]%char) | None => false end
      && match last (cmap c) with Some x => negb (dotspace x) | None => false end).

Lemma cmap_shape c :
  cmap c = [c] \/ (exists x s, cmap c = x :: s /\ x ∈ ["~"; "_"]%char) /\ (exists s x, cmap c = s ++ [x] /\ dotspace x = false).
Proof.
  assert (forallb code_shape all_ascii = true) as H by (vm_compute; reflexivity).
  pose proof (ascii_forall _ H c) as Hc. unfold code_shape in Hc. apply orb_prop in Hc as [Hc|Hc].
  { left. by apply bool_decide_eq_true in Hc. }
  right. destruct (head (cmap c)) as [x|] eqn:Hh; [|done]. destruct (last (cmap c)) as [y|] eqn:Hl; [|by rewrite andb_false_r in Hc].
  apply andb_prop in Hc as [H1 H2]. apply bool_decide_eq_true in H1. apply negb_true_iff in H2. apply last_Some in Hl as [s E]. split.
  - destruct (cmap c) as [|z l]; [done|]. injection Hh as ->. eauto.
  - eauto.
Qed.

Lemma coded_literal w c s : coded w (c :: s) -> c ∉ ["~"; "_"]%char -> exists w', w = c :: w' /\ coded w' s /\ cmap c = [c].
Proof.
  intros H Hc. remember (c :: s) as t eqn:E. destruct H as [|x w t H|x w t H]; [done|..].
  - destruct (cmap_shape x) as [Hx|[(y & r & Hx & Hy) _]]; rewrite Hx in E; injection E as -> E; [|done].
    exists w. subst t. split_and!; [done|done|]. exact Hx.
  - injection E as <- _. set_solver.
Qed.

Lemma coded_empty w s : coded w s -> s = [] -> w = [].
Proof.
  intros H. destruct H as [|c w s _|c w s _]; [done|..]; intros E; [|done].
  pose proof (cmap_nonempty c). by destruct (cmap c).
Qed.

Lemma coded_snoc w s c : coded w (s ++ [c]) -> dotspace c = true -> exists w', w = w' ++ [c] /\ coded w' s.
Proof.
  intros H Hc. remember (s ++ [c]) as t eqn:E. revert s E.
  assert (forall (k t s : bytes), t ≠ [] -> k ++ t = s ++ [c] -> exists s', t = s' ++ [c] /\ s = k ++ s') as Htail.
  { intros k t0 s Hne E. destruct (exists_last Hne) as (s' & y & ->). rewrite app_assoc in E.
    apply app_inj_tail in E as [<- ->]. eauto. }
  assert (forall k (s r : bytes) y, k ++ [] = s ++ [c] -> k = r ++ [y] -> y = c) as Hend.
  { intros k s r y E ->. rewrite app_nil_r in E. by apply app_inj_tail in E as [_ E]. }
  induction H as [|x w t H IH|x w t H IH]; intros s E; [by destruct s|..].
  - destruct (decide (t = [])) as [->|Hne].
    + apply coded_empty in H as ->; [|done]. destruct (cmap_shape x) as [Hx|[_ (r & y & Hx & Hy)]].
      * rewrite Hx in E. destruct s as [|? [|]]; try done. injection E as ->. exists []. split; [done|constructor].
      * apply (Hend _ _ _ _ E) in Hx as ->. congruence.
    + destruct (Htail _ _ _ Hne E) as (s' & E' & ->). destruct (IH s' E') as (w' & -> & Hw). exists (x :: w'). split; [done|by constructor].
  - destruct (decide (t = [])) as [->|Hne].
    + pose proof (hexdigit_allowed _ (proj2 (ord_hex x))) as [_ Hh].
      rewrite (Hend _ s ["~"; hexdigit (ord x / 16)]%char (hexdigit (ord x mod 16)) E eq_refl) in Hh. congruence.
    + destruct (Htail _ _ _ Hne E) as (s' & E' & ->). destruct (IH s' E') as (w' & -> & Hw). exists (x :: w'). split; [done|by constructor].
Qed.

Lemma coded_auxend w n : coded w n -> coded w (auxend n).
Proof.
  intros H. unfold auxend. destruct (last n) as [c|] eqn:Hl; [|done]. destruct (dotspace c) eqn:Hc; [|done].
  apply last_Some in Hl as [s ->]. rewrite removelast_last. destruct (coded_snoc _ _ _ H Hc) as (w' & -> & Hw).
  apply coded_app; [done|]. rewrite <- (app_nil_r (tilde c)). repeat constructor.
Qed.

Lemma coded_auxfront d w c n : coded w (c :: n) -> coded w (auxfront d c n).
Proof.
  intros H. unfold auxfront. destruct (d && dotspace c) eqn:Hd.
  { apply andb_prop in Hd as [_ Hd]. apply bool_decide_eq_true in Hd.
    destruct (coded_literal _ _ _ H) as (w' & -> & Hw & _); [by destruct Hd as [-> | ->]; apply (bool_decide_unpack _); vm_compute|].
    by constructor. }
  rewrite winreservedname_device. case_bool_decide as Hb; [|done].
  destruct (base_prefix (c :: n)) as [r E]. pose proof (device_length _ Hb) as Hl. pose proof (fun x => device_char _ x Hb) as Hch.
  set (b := base (c :: n)) in *. clearbody b. rewrite E in H |- *.
  destruct b as [|x [|y [|z b]]]; cbn in Hl; try lia. cbn [app lookup list_lookup take drop] in *. rewrite drop_0.
  assert (forall e, e ∈ x :: y :: z :: b -> e ∉ ["~"; "_"]%char) as Hlit by (intros e He; specialize (Hch e He); set_solver).
  destruct (coded_literal _ _ _ H) as (w1 & -> & H1 & Ex); [apply Hlit; set_solver|].
  destruct (coded_literal _ _ _ H1) as (w2 & -> & H2 & Ey); [apply Hlit; set_solver|].
  destruct (coded_literal _ _ _ H2) as (w3 & -> & H3 & _); [apply Hlit; set_solver|].
  pose proof (coded_char x _ _ (coded_char y _ _ (coded_tilde z _ _ H3))) as Hc. by rewrite Ex, Ey in Hc.
Qed.

Lemma coded_auxcomp d w : coded w (auxcomp d (encode_with cmap w)).
Proof.
  pose proof (coded_encode w) as H. destruct (encode_with cmap w) as [|c n]; [done|].
  by apply coded_auxend, coded_auxfront.
Qed.

(** The form that is not hashed determines the name. *)
Definition defaultname (path : bytes) (d : bool) : bytes := join slash (auxencode (split slash (encodefname (encodedir path))) d).

Lemma defaultname_decode path d : decode dmap_aux (defaultname path d) = Ok (encodedir path).
Proof.
  unfold defaultname, encodefname. rewrite split_encode by (done || apply cmap_allowed).
  unfold auxencode. rewrite map_map, decode_join; [by rewrite split_join|reflexivity|].
  intros l rest. apply coded_decode, coded_auxcomp.
Qed.

Lemma encodedir_inj p1 p2 : encodedir p1 = encodedir p2 -> p1 = p2.
Proof. intros E. by rewrite <- (decodedir_encodedir p1), E, decodedir_encodedir. Qed.

Section Collision.
Context `{Sha1Laws}.

Lemma defaultname_root path d :
  store_file path -> exists s, defaultname path d = bs "data" ++ s \/ defaultname path d = bs "meta" ++ s.
Proof.
  intros Hf. destruct (encodedir_store path Hf) as (root & ls & n & x & E & Hr & _ & HF).
  unfold defaultname, encodefname. rewrite split_encode by (done || apply cmap_allowed). rewrite E, join_split_inv.
  - unfold auxencode. cbn [map]. rewrite map_app, map_app. cbn [map]. rewrite join_root.
    assert (auxcomp d (encode_with cmap root) = root) as -> by by destruct Hr as [-> | ->]; destruct d.
    eexists. destruct Hr as [-> | ->]; [by left|by right].
  - done.
  - constructor; [by destruct Hr as [-> | ->]; plain_t|]. by apply Forall_and in HF as [HF _].
Qed.

(** A path is the name itself or ends with the digest of the name. *)
Lemma hybridencode_cases path d r :
  store_file path -> hybridencode path d = Ok r ->
  (r = defaultname path d /\ exists s, r = bs "data" ++ s \/ r = bs "meta" ++ s)
  \/ (exists s e, r = bs "dh/" ++ s ++ sha1hex (encodedir path) ++ e /\ (e = [] \/ exists x, e = [dot; x])).
Proof.
  intros Hf Hr. destruct (store_parts path d Hf) as (Hp & Hp5 & He).
  unfold hybridencode in Hr. fold (defaultname path d) in Hr. case_decide as Hl.
  - right. destruct (hashencode_spec (encodedir path) d Hp5) as (sd & k & Hok & _). rewrite Hok in Hr.
    assert (forall a b : bytes, Ok a = Ok b -> b = a) as Hinj by congruence. apply Hinj in Hr as ->.
    set (ext := (splitext _).2) in *. set (f := take k _). clearbody f ext.
    change ([bs "dh"] ++ sd ++ [f ++ sha1hex (encodedir path) ++ ext]) with (bs "dh" :: sd ++ [f ++ sha1hex (encodedir path) ++ ext]).
    rewrite join_root, join_concat.
    exists (concat (map (fun l => l ++ [slash]) sd) ++ f), ext. split; [|exact He]. by rewrite <- app_assoc.
  - left. injection Hr as <-. split; [done|by apply defaultname_root].
Qed.

(** The digest is found from the end of the path. *)
Lemma digest_inj s1 s2 t1 t2 e1 e2 :
  s1 ++ sha1hex t1 ++ e1 = s2 ++ sha1hex t2 ++ e2 ->
  (e1 = [] \/ exists x, e1 = [dot; x]) -> (e2 = [] \/ exists x, e2 = [dot; x]) -> sha1hex t1 = sha1hex t2.
Proof.
  assert (forall t1 t2 s1 s2 x, s1 ++ sha1hex t1 ++ [] = s2 ++ sha1hex t2 ++ [dot; x] -> False) as Hmix.
  { clear -H. intros t1 t2 s1 s2 x E. rewrite app_nil_r in E. pose proof (length_sha1hex t1) as Hl.
    destruct (exists_last (l := sha1hex t1)) as (l & a & E1); [by intros E1; rewrite E1 in Hl|].
    destruct (exists_last (l := l)) as (l2 & b & ->); [intros ->; by rewrite E1 in Hl|].
    pose proof (sha1hex_allowed t1) as Ha. rewrite E1 in E, Ha. apply Forall_app in Ha as [[_ [[_ Hb] _]%Forall_cons]%Forall_app _].
    change ([dot; x]) with ([dot] ++ [x]) in E. rewrite !app_assoc in E. apply app_inj_tail in E as [E _].
    apply app_inj_tail in E as [_ ->]. done. }
  intros E [-> | [x1 ->]] [-> | [x2 ->]].
  - rewrite !app_nil_r in E. apply app_inj_2 in E as [_ E]; [done|]. by rewrite !length_sha1hex.
  - by apply Hmix in E.
  - symmetry in E. by apply Hmix in E.
  - rewrite !app_assoc in E. apply app_inj_2 in E as [E _]; [|done]. apply app_inj_2 in E as [_ E]; [done|]. by rewrite !length_sha1hex.
Qed.

(** [C18] Two files of the store have the same path only if they are the same
    file or if both paths are hashed and the SHA-1 digests of the names
    collide: the form that is not hashed is reversible, and no hashed path
    looks like one. *)
Theorem store_name_collision p1 p2 d r :
  store_file p1 -> store_file p2 -> hybridencode p1 d = Ok r -> hybridencode p2 d = Ok r ->
  p1 = p2 \/ (take 3 r = bs "dh/" /\ sha1hex (encodedir p1) = sha1hex (encodedir p2)).
Proof.
  intros Hf1 Hf2 H1 H2. pose proof (hybridencode_cases _ _ _ Hf1 H1) as C1. pose proof (hybridencode_cases _ _ _ Hf2 H2) as C2.
  destruct C1 as [[E1 [s1 R1]]|(s1 & e1 & E1 & Hd1)], C2 as [[E2 [s2 R2]]|(s2 & e2 & E2 & Hd2)].
  - left. apply encodedir_inj. pose proof (defaultname_decode p1 d) as D1. pose proof (defaultname_decode p2 d) as D2. congruence.
  - destruct R1 as [R1|R1]; rewrite R1 in E2; discriminate E2.
  - destruct R2 as [R2|R2]; rewrite R2 in E1; discriminate E1.
  - right. split; [by rewrite E1|]. rewrite E1, app_assoc in E2. rewrite (app_assoc (bs "dh/")) in E2.
    by eapply digest_inj in E2.
Qed.

(** Every file of the store has a path. *)
Lemma hybridencode_ok path d : store_file path -> exists r, hybridencode path d = Ok r.
Proof.
  intros Hf. destruct (store_parts path d Hf) as (_ & Hp5 & _). unfold hybridencode. case_decide; [|eauto].
  destruct (hashencode_spec (encodedir path) d Hp5) as (sd & k & Hok & _). eauto.
Qed.

(** *** [_pathencode] *)

Lemma length_join_le ls ls' :
  Forall2 (fun a b : bytes => (length a <= length b)%nat) ls ls' -> (length (join slash ls) <= length (join slash ls'))%nat.
Proof.
  induction 1 as [|a b ls ls' Hab HF IH]; [done|]. destruct HF as [|a' b' ls ls' Hab' HF]; [done|].
  cbn [join] in *. rewrite !length_app. cbn [length]. lia.
Qed.

Lemma length_resuffix suf new l : (length suf <= length new)%nat -> (length l <= length (resuffix suf new l))%nat.
Proof.
  intros Hs. induction l as [|x l IH]; [cbn; lia|]. cbn [resuffix]. case_decide as E; [by rewrite <- E in Hs|]. cbn. lia.
Qed.

Lemma length_encodename l : (length l <= length (encodename l))%nat.
Proof. unfold encodename. do 3 (etrans; [|apply length_resuffix; cbn; lia]). done. Qed.

Lemma length_encode_with m l : (forall c, m c ≠ []) -> (length l <= length (encode_with m l))%nat.
Proof.
  intros Hm. induction l as [|c l IH]; [done|]. unfold encode_with in *. cbn. rewrite length_app. specialize (Hm c).
  destruct (m c); [done|]. cbn. lia.
Qed.

Lemma length_auxcomp d n : (length n <= length (auxcomp d n))%nat.
Proof.
  destruct n as [|c n]; [done|]. cbn [auxcomp]. etrans; [|].
  - instantiate (1 := length (auxfront d c n)). unfold auxfront. destruct (_ && _); [cbn; lia|]. destruct (winreservedname _); [|done].
    destruct ((c :: n) !! 2%nat) eqn:E; [|done]. apply lookup_lt_Some in E. rewrite !length_app, length_take, length_drop. cbn in *. lia.
  - unfold auxend. destruct (last (auxfront d c n)) as [x|] eqn:E; [|done]. destruct (dotspace x); [|done].
    apply last_Some in E as [p ->]. rewrite removelast_last, !length_app. cbn. lia.
Qed.

Lemma mapinit_le ls : Forall2 (fun a b : bytes => (length a <= length b)%nat) ls (mapinit encodename ls).
Proof.
  induction ls as [|l [|l' ls] IH]; [constructor|by repeat constructor|]. constructor; [apply length_encodename|exact IH].
Qed.

Lemma length_encodedir path : (length path <= length (encodedir path))%nat.
Proof.
  rewrite <- (split_join slash path) at 1 2. rewrite encodedir_join by apply split_clean. apply length_join_le, mapinit_le.
Qed.

(** Encoding never shortens, so testing the length of the name first, as
    [_pathencode] does, only saves work. *)
Lemma pathencode_hybridencode path : pathencode path = hybridencode path true.
Proof.
  unfold pathencode, hybridencode. fold (defaultname path true). case_decide as Hl; [|done].
  rewrite decide_True; [done|]. assert (length path <= length (defaultname path true))%nat; [|unfold zlen in *; lia].
  unfold defaultname, encodefname. rewrite split_encode by (done || apply cmap_allowed).
  etrans; [apply length_encodedir|]. rewrite <- (split_join slash (encodedir path)) at 1. apply length_join_le.
  unfold auxencode. rewrite map_map. induction (split slash (encodedir path)) as [|l ls IH]; [constructor|].
  constructor; [|exact IH]. etrans; [apply (length_encode_with cmap), cmap_nonempty|apply length_auxcomp].
Qed.

End Collision.

(** ** Concrete paths *)

(** A digest that always collides. *)
#[local] Instance zerodigest : Sha1 := {| sha1hex _ := replicate 40 "0"%char |}.
#[local] Instance zerodigest_laws : Sha1Laws zerodigest.
Proof.
  split; [done|]. intros t c Hc. exists 0. split; [lia|]. apply elem_of_replicate in Hc as [-> _]. reflexivity.
Qed.

(** A path of eight long directories. *)
Definition longpath (c : string) : bytes :=
  bs "data/" ++ concat (replicate 8 (replicate 30 "A"%char ++ [slash])) ++ bs c ++ bs "/aux.i".

Ltac store_file_t := split; [left; by eexists|apply (bool_decide_unpack _); vm_compute; done|left; apply (bool_decide_unpack _); vm_compute; done].

Lemma store_name_safe_witness :
  store_file (bs "data/con/x.i") /\ exists r, hybridencode (bs "data/con/x.i") true = Ok r /\ safe_path true r /\ zlen r <= 120.
Proof.
  assert (store_file (bs "data/con/x.i")) as Hf by store_file_t.
  split; [exact Hf|]. exact (store_name_safe (bs "data/con/x.i") true Hf).
Defined.

Lemma store_name_collision_witness :
  exists r, hybridencode (longpath "x") true = Ok r /\ hybridencode (longpath "y") true = Ok r
    /\ (longpath "x" = longpath "y" \/ (take 3 r = bs "dh/" /\ sha1hex (encodedir (longpath "x")) = sha1hex (encodedir (longpath "y")))).
Proof.
  eexists. split; [vm_compute; reflexivity|]. split; [vm_compute; reflexivity|].
  apply (store_name_collision (longpath "x") (longpath "y") true); [store_file_t|store_file_t|vm_compute; reflexivity|vm_compute; reflexivity].
Defined.

End StoreSafety.
