(* ===== verification/FnCache.v ===== *)
(** * The list of files in the store ([fncache] of store.py)

    The names of the files are kept in memory once read, changed there, and
    written back as a whole when a transaction ends. *)

From S2P Require Import Prelude Lines Struct PyFormat Delta ManifestText StoreNames StorePath StoreSafety.

Module FnCache.
Import ManifestText StoreNames StorePath StoreSafety.

Definition str (b : bytes) : string := String.string_of_list_ascii b.

(** The object: the entries when they are loaded, and whether they changed. *)
Record fncache := { entries : option (gset bytes); dirty : bool }.

Definition fresh : fncache := {| entries := None; dirty := false |}.

(** What it is kept in: the file [fncache], if there is one, and the contents
    that [tr.addbackup] has saved. *)
Record disk := { file : option bytes; backups : list (option bytes) }.

(** The order in which Python iterates over a set is not known, and can differ
    from one time to the next. *)
Record set_order := { ordered :> gset bytes -> list bytes; ordered_perm s : ordered s ≡ₚ elements s }.

(** [data.splitlines()] *)
Definition linesof (data : bytes) : list bytes := map line_end (Delta.splitlines data).

(** The number of the first line that is blank. *)
Fixpoint blank_line (n : Z) (ls : list bytes) : option Z :=
  match ls with
  | [] => None
  | l :: ls => if forallb (fun c => bool_decide (c = newline)) l then Some n else blank_line (n + 1) ls
  end.

(** [_load]: the entries are kept even when the file is found to be invalid. *)
Definition load (d : disk) : fncache * res () :=
  match file d with
  | None => ({| entries := Some ∅; dirty := false |}, Ok ())
  | Some data =>
      let es : gset bytes := list_to_set (linesof (decodedir data)) in
      let self := {| entries := Some es; dirty := false |} in
      if bool_decide ([] ∈ es) then
        match blank_line 1 (splitnewlines data) with
        | Some n => (self, Err (Abort ("invalid entry in fncache, line " ++ str (fmt_d n))))
        | None => (self, Ok ())
        end
      else (self, Ok ())
  end.

(** [if self.entries is None: self._load()] before the body of a method. *)
Definition loaded {A} (d : disk) (self : fncache) (body : gset bytes -> fncache -> fncache * res A) : fncache * res A :=
  match entries self with
  | Some es => body es self
  | None =>
      match load d with
      | (self, Err e) => (self, Err e)
      | (self, Ok _) => match entries self with Some es => body es self | None => (self, Err TypeError) end
      end
  end.

(** [write]: without entries the new file is empty. *)
Definition write (order : set_order) (d : disk) (self : fncache) : disk * fncache :=
  if dirty self then
    let content :=
      match entries self with
      | Some es => if decide (es = ∅) then [] else encodedir (join newline (order es) ++ [newline])
      | None => []
      end in
    ({| file := Some content; backups := backups d ++ [file d] |}, {| entries := entries self; dirty := false |})
  else (d, self).

Definition add (fn : bytes) (d : disk) (self : fncache) : fncache * res () :=
  loaded d self (fun es self =>
    if decide (fn ∈ es) then (self, Ok ())
    else ({| entries := Some ({[fn]} ∪ es); dirty := true |}, Ok ())).

Definition remove (fn : bytes) (d : disk) (self : fncache) : fncache * res () :=
  loaded d self (fun es self =>
    if decide (fn ∈ es) then ({| entries := Some (es ∖ {[fn]}); dirty := true |}, Ok ())
    else (self, Ok ())).

Definition contains (fn : bytes) (d : disk) (self : fncache) : fncache * res bool :=
  loaded d self (fun es self => (self, Ok (bool_decide (fn ∈ es)))).

Definition iter (order : set_order) (d : disk) (self : fncache) : fncache * res (list bytes) :=
  loaded d self (fun es self => (self, Ok (order es))).

(** [fncachestore.invalidatecaches]: the change is not forgotten with the
    entries. *)
Definition invalidatecaches (self : fncache) : fncache := {| entries := None; dirty := dirty self |}.

(** ** [fncachestore] *)

Section Store.
Context `{Sha1} (dotencode : bool).

Definition encode (f : bytes) : res bytes := if dotencode then pathencode f else plainhybridencode f.

(** [_fncachevfs.__call__] up to the call of the file system: the path there.
    A file of the store that is opened to be written is added. *)
Definition open (path : bytes) (reading : bool) (d : disk) (self : fncache) : fncache * res bytes :=
  if negb reading && (startsb (bs "data/") path || startsb (bs "meta/") path) then
    match add path d self with
    | (self, Err e) => (self, Err e)
    | (self, Ok _) => (self, encode path)
    end
  else (self, encode path).

(** The sizes of the files that exist, by their path in the store. *)
Variable sizes : gmap bytes Z.

Definition exists_ (f : bytes) : res bool :=
  let* ef := encode f in Ok (bool_decide (is_Some (sizes !! ef))).

(** [datafiles]: in the order of the names, without those that do not exist. *)
Fixpoint datafiles_loop (fs : list bytes) : res (list (bytes * bytes * Z)) :=
  match fs with
  | [] => Ok []
  | f :: fs =>
      let* ef := encode f in
      let* r := datafiles_loop fs in
      Ok (match sizes !! ef with Some n => (f, ef, n) :: r | None => r end)
  end.

Definition ble (a b : bytes) : Prop := ~ blt b a.

#[export] Instance ble_dec a b : Decision (ble a b).
Proof. unfold ble. apply _. Defined.

Definition datafiles (order : set_order) (d : disk) (self : fncache) : fncache * res (list (bytes * bytes * Z)) :=
  match iter order d self with
  | (self, Err e) => (self, Err e)
  | (self, Ok fs) => (self, datafiles_loop (merge_sort ble fs))
  end.

(** The loop of [fncachestore.__contains__] over the entries below a
    directory. *)
Fixpoint contains_loop (path : bytes) (fs : list bytes) : res bool :=
  match fs with
  | [] => Ok false
  | e :: fs =>
      if startsb path e then
        let* b := exists_ e in
        if b then Ok true else contains_loop path fs
      else contains_loop path fs
  end.

Definition store_contains (order : set_order) (path : bytes) (d : disk) (self : fncache) : fncache * res bool :=
  let path := bs "data/" ++ path in
  let e := path ++ bs ".i" in
  match contains e d self with
  | (self, Err x) => (self, Err x)
  | (self, Ok b) =>
      match (if b then exists_ e else Ok false) with
      | Err x => (self, Err x)
      | Ok true => (self, Ok true)
      | Ok false =>
          let path := if bool_decide ([slash] `suffix_of` path) then path else path ++ [slash] in
          match iter order d self with
          | (self, Err x) => (self, Err x)
          | (self, Ok fs) => (self, contains_loop path fs)
          end
      end
  end.

End Store.


(** ** What is written is loaded again *)

(** A name that is one line. *)
Definition entry_name (fn : bytes) : Prop := fn ≠ [] /\ newline ∉ fn /\ CR ∉ fn.

#[export] Instance entry_name_dec fn : Decision (entry_name fn).
Proof. unfold entry_name. apply _. Defined.

(** A disk from which these entries, all of them names, are loaded. *)
Definition represents (d : disk) (D : gset bytes) : Prop :=
  load d = ({| entries := Some D; dirty := false |}, Ok ()) /\ forall fn, fn ∈ D -> entry_name fn.

Lemma line_end_name l : CR ∉ l -> line_end (l ++ [newline]) = l.
Proof.
  intros Hc. unfold line_end. rewrite rev_app_distr. cbn [rev app]. rewrite decide_True by done.
  destruct (rev l) as [|d r] eqn:E; [by rewrite <- (rev_involutive l), E|].
  rewrite decide_False; [by rewrite <- E, rev_involutive|]. intros ->. apply Hc. apply elem_of_rev. rewrite E. by left.
Qed.

Lemma linesof_names ls : Forall entry_name ls -> linesof (concat (map (fun l => l ++ [newline]) ls)) = ls.
Proof.
  unfold linesof, Delta.splitlines. induction 1 as [|l ls (_ & Hn & Hc) HF IH]; [done|]. cbn [map concat].
  rewrite splitlines_line by done. cbn [app map]. by rewrite line_end_name, IH.
Qed.

Lemma join_lines ls : ls ≠ [] -> join newline ls ++ [newline] = concat (map (fun l => l ++ [newline]) ls).
Proof.
  intros Hne. destruct (exists_last Hne) as (ls' & l & ->). rewrite join_concat, map_app, concat_app. cbn.
  by rewrite app_nil_r, <- app_assoc.
Qed.

Lemma ordered_set (o : set_order) s : (list_to_set (o s) : gset bytes) = s.
Proof. apply set_eq. intros x. rewrite elem_of_list_to_set, (ordered_perm o s), elem_of_elements. done. Qed.

Lemma write_represents o d self es :
  entries self = Some es -> dirty self = true -> (forall fn, fn ∈ es -> entry_name fn) -> represents (write o d self).1 es.
Proof.
  intros He Hd Hn. split; [|done]. unfold write. rewrite Hd, He. cbn [fst]. unfold load. cbn [file].
  assert (list_to_set (linesof (decodedir (if decide (es = ∅) then [] else encodedir (join newline (o es) ++ [newline])))) = es) as ->.
  { case_decide as E; [by subst es|]. rewrite decodedir_encodedir, join_lines, linesof_names.
    - apply ordered_set.
    - apply Forall_forall. intros fn Hfn. apply Hn. by rewrite (ordered_perm o es), elem_of_elements in Hfn.
    - intros E2. apply E. by rewrite <- (ordered_set o es), E2. }
  rewrite bool_decide_eq_false_2; [done|]. intros Hx. by destruct (Hn [] Hx).
Qed.

(** ** The list as a set *)

(** Whether the set was changed since it was written, and whether the change was
    given up with the caches and nothing was asked since. *)
Inductive pending := Unchanged | Changed | GivenUp.

#[export] Instance pending_eq_dec : EqDecision pending.
Proof. solve_decision. Defined.

(** What is on disk, and what a reader of the object sees. *)
Record spec := { s_disk : gset bytes; s_cur : gset bytes; s_pending : pending }.

Inductive op :=
  | Add (fn : bytes)
  | Remove (fn : bytes)
  | Contains (fn : bytes)
  | Iterate (o : set_order)
  | Write (o : set_order)
  | Invalidate.

Inductive out := Done | Answer (b : bool) | Names (l : list bytes).

(** After a call that reads or changes the set: [c] tells that it changed. *)
Definition touched (c : bool) (p : pending) : pending :=
  if c then Changed else match p with Changed => Changed | _ => Unchanged end.

(** A step of the specification.  Invalidating the caches gives up a change that is
    not written; when the next call is to write, what is written is the empty set. *)
Definition spec_step (x : op) (s : spec) : spec * out :=
  match x with
  | Add fn => ({| s_disk := s_disk s; s_cur := {[fn]} ∪ s_cur s; s_pending := touched (bool_decide (fn ∉ s_cur s)) (s_pending s) |}, Done)
  | Remove fn => ({| s_disk := s_disk s; s_cur := s_cur s ∖ {[fn]}; s_pending := touched (bool_decide (fn ∈ s_cur s)) (s_pending s) |}, Done)
  | Contains fn => ({| s_disk := s_disk s; s_cur := s_cur s; s_pending := touched false (s_pending s) |}, Answer (bool_decide (fn ∈ s_cur s)))
  | Iterate o => ({| s_disk := s_disk s; s_cur := s_cur s; s_pending := touched false (s_pending s) |}, Names (o (s_cur s)))
  | Write _ =>
      match s_pending s with
      | GivenUp => ({| s_disk := ∅; s_cur := ∅; s_pending := Unchanged |}, Done)
      | _ => ({| s_disk := s_cur s; s_cur := s_cur s; s_pending := Unchanged |}, Done)
      end
  | Invalidate =>
      ({| s_disk := s_disk s; s_cur := s_disk s; s_pending := match s_pending s with Unchanged => Unchanged | _ => GivenUp end |}, Done)
  end.

Fixpoint spec_run (xs : list op) (s : spec) : spec * list out :=
  match xs with
  | [] => (s, [])
  | x :: xs => let (s, o) := spec_step x s in let (s, os) := spec_run xs s in (s, o :: os)
  end.

(** The same operations on the object. *)
Definition rmap {A B} (f : A -> B) (r : res A) : res B := let* x := r in Ok (f x).

Definition step (x : op) (d : disk) (self : fncache) : disk * fncache * res out :=
  match x with
  | Add fn => let (self, r) := add fn d self in (d, self, rmap (fun _ => Done) r)
  | Remove fn => let (self, r) := remove fn d self in (d, self, rmap (fun _ => Done) r)
  | Contains fn => let (self, r) := contains fn d self in (d, self, rmap Answer r)
  | Iterate o => let (self, r) := iter o d self in (d, self, rmap Names r)
  | Write o => let (d, self) := write o d self in (d, self, Ok Done)
  | Invalidate => (d, invalidatecaches self, Ok Done)
  end.

Fixpoint run (xs : list op) (d : disk) (self : fncache) : disk * fncache * list (res out) :=
  match xs with
  | [] => (d, self, [])
  | x :: xs =>
      let '(d, self, o) := step x d self in
      let '(d, self, os) := run xs d self in (d, self, o :: os)
  end.

Definition op_ok (x : op) : Prop := match x with Add fn => entry_name fn | _ => True end.

(** The object and the file against the sets. *)
Record refines (d : disk) (self : fncache) (s : spec) : Prop := {
  r_disk : represents d (s_disk s);
  r_dirty : dirty self = bool_decide (s_pending s ≠ Unchanged);
  r_clean : s_pending s ≠ Changed -> s_cur s = s_disk s;
  r_entries : match entries self with Some es => es = s_cur s /\ s_pending s ≠ GivenUp | None => s_pending s ≠ Changed end;
  r_names fn : fn ∈ s_cur s -> entry_name fn;
}.

Lemma loaded_refines {A} (d : disk) (self : fncache) (s : spec) (body : gset bytes -> fncache -> fncache * res A) :
  refines d self s ->
  loaded d self body = body (s_cur s) {| entries := Some (s_cur s); dirty := bool_decide (s_pending s = Changed) |}.
Proof.
  intros [[Hl _] Hd Hc He _]. unfold loaded. destruct self as [[es|] dy]; cbn in *; subst.
  - destruct He as [-> He]. by destruct (s_pending s).
  - rewrite Hl, Hc by done. cbn. by rewrite bool_decide_eq_false_2.
Qed.

(** The object once it is loaded, after a change or without one. *)
Lemma refines_loaded (c : bool) d es s :
  (c = false -> es = s_cur s) -> (forall fn, fn ∈ es -> entry_name fn) -> represents d (s_disk s) -> (s_pending s ≠ Changed -> s_cur s = s_disk s) ->
  refines d {| entries := Some es; dirty := c || bool_decide (s_pending s = Changed) |} {| s_disk := s_disk s; s_cur := es; s_pending := touched c (s_pending s) |}.
Proof.
  intros He Hn Hd Hc. destruct c; split; cbn; try done; rewrite ?He by done; destruct (s_pending s); cbn; try done; by intros _; apply Hc.
Qed.

Lemma fncache_step_refines x d self s :
  refines d self s -> op_ok x ->
  exists d' self', step x d self = (d', self', Ok (spec_step x s).2) /\ refines d' self' (spec_step x s).1.
Proof.
  intros HR Hx. pose proof HR as [Hl Hd Hc He Hn]. destruct x as [fn|fn|fn|o'|o'|]; cbn [step spec_step fst snd].
  - unfold add. rewrite (loaded_refines _ _ s) by done. pose proof (refines_loaded (bool_decide (fn ∉ s_cur s)) d ({[fn]} ∪ s_cur s) s) as H.
    destruct (decide (fn ∈ s_cur s)) as [Hin|Hin]; eexists d, _; (split; [done|]).
    + rewrite (bool_decide_eq_false_2 (fn ∉ s_cur s)) in H |- * by tauto. assert ({[fn]} ∪ s_cur s = s_cur s) as E by set_solver. rewrite E in *. by apply H.
    + rewrite (bool_decide_eq_true_2 (fn ∉ s_cur s)) in H |- * by done. apply H; try done. intros x [->%elem_of_singleton|Hx2]%elem_of_union; auto.
  - unfold remove. rewrite (loaded_refines _ _ s) by done. pose proof (refines_loaded (bool_decide (fn ∈ s_cur s)) d (s_cur s ∖ {[fn]}) s) as H.
    destruct (decide (fn ∈ s_cur s)) as [Hin|Hin]; eexists d, _; (split; [done|]).
    + rewrite (bool_decide_eq_true_2 (fn ∈ s_cur s)) in H |- * by done. apply H; try done. set_solver.
    + rewrite (bool_decide_eq_false_2 (fn ∈ s_cur s)) in H |- * by done. assert (s_cur s ∖ {[fn]} = s_cur s) as E by set_solver. rewrite E in *. by apply H.
  - unfold contains. rewrite (loaded_refines _ _ s) by done. eexists d, _. split; [done|]. by apply (refines_loaded false).
  - unfold iter. rewrite (loaded_refines _ _ s) by done. eexists d, _. split; [done|]. by apply (refines_loaded false).
  - destruct (s_pending s) eqn:Ep.
    + unfold write. rewrite Hd. exists d, self. split; [done|].
      rewrite Hc in * by done. by split.
    + destruct (entries self) as [es|] eqn:Ee; [|done]. destruct He as [-> _].
      pose proof (write_represents o' d self _ Ee Hd Hn) as Hw. destruct (write o' d self) as [d' self'] eqn:E.
      exists d', self'. split; [done|]. unfold write in E. rewrite Hd in E. injection E as _ <-. split; cbn; try done. by rewrite Ee.
    + destruct (entries self) as [es|] eqn:Ee; [by destruct He|]. unfold write. rewrite Hd, Ee. eexists _, _. split; [done|].
      assert (forall fn : bytes, fn ∈ (∅ : gset bytes) -> entry_name fn) as H0 by (by intros fn ?%elem_of_empty). by repeat split.
  - exists d, (invalidatecaches self). split; [done|].
    split; cbn; try done; [by destruct (s_pending s)|by destruct (s_pending s)|apply Hl].
Qed.

(** [C20] Any sequence of additions, removals, tests, iterations, writes and
    invalidations of the caches on the list of store files answers as on a set
    of names (each one a line: not empty, without line ends), without errors, whatever order Python gives the entries, and the
    file always is one from which a fresh object loads exactly the set that the
    specification has on disk.  That is the current set after a write, and an
    invalidation goes back to it and gives up the changes that are not written,
    with the one exception the code has: when a change was given up and the next
    call is to write, the empty set is written. *)
Theorem fncache_refines xs d D :
  represents d D -> Forall op_ok xs ->
  let (s, os) := spec_run xs {| s_disk := D; s_cur := D; s_pending := Unchanged |} in
  exists d' self, run xs d fresh = (d', self, map Ok os) /\ represents d' (s_disk s).
Proof.
  intros Hd Hxs. assert (refines d fresh {| s_disk := D; s_cur := D; s_pending := Unchanged |}) as HR by (split; cbn; try done; apply Hd).
  revert HR. generalize fresh, {| s_disk := D; s_cur := D; s_pending := Unchanged |}. clear Hd. revert d.
  induction Hxs as [|x xs Hx _ IH]; intros d self s HR; cbn.
  - exists d, self. split; [done|apply HR].
  - destruct (fncache_step_refines x d self s HR Hx) as (d' & self' & E & HR'). destruct (spec_step x s) as [s1 o]. cbn [fst snd] in *.
    specialize (IH d' self' s1 HR'). destruct (spec_run xs s1) as [s2 os]. destruct IH as (d2 & self2 & E2 & Hl). exists d2, self2. rewrite E, E2. done.
Qed.

(** Invalidating after a change that is not written makes the next write empty
    the file, whatever it held. *)
Lemma invalidate_truncates o d self :
  dirty self = true -> file (write o d (invalidatecaches self)).1 = Some [].
Proof. intros Hd. unfold write, invalidatecaches. cbn [dirty entries]. by rewrite Hd. Qed.

(** A blank line is reported once: the entries stay, and the next call goes on. *)
Lemma blank_reported_once :
  let d := {| file := Some (bs "a" ++ [newline; newline]); backups := [] |} in
  let self := (contains (bs "a") d fresh).1 in
  ((contains (bs "a") d fresh).2, (contains (bs "a") d self).2)
  = (Err (Abort "invalid entry in fncache, line 2"), Ok true).
Proof. vm_compute. reflexivity. Qed.

(** ** The files of the store *)

Section Listing.
Context `{sha : Sha1, !Sha1Laws sha} (dotencode : bool) (sizes : gmap bytes Z).

(** A file that is there, with its path and size. *)
Definition present (f ef : bytes) (n : Z) : Prop := encode dotencode f = Ok ef /\ sizes !! ef = Some n.

Definition encodable (f : bytes) : Prop := exists ef, encode dotencode f = Ok ef.

Lemma store_file_encodable f : store_file f -> encodable f.
Proof.
  intros Hf. unfold encodable, encode. destruct dotencode; [rewrite pathencode_hybridencode|unfold plainhybridencode]; by apply hybridencode_ok.
Qed.

Lemma exists_present f : encodable f -> exists b, exists_ dotencode sizes f = Ok b /\ (b = true <-> exists ef n, present f ef n).
Proof.
  unfold exists_, present. intros [ef ->]. cbn. eexists. split; [done|]. rewrite bool_decide_eq_true. split.
  - intros [n Hn]. eauto.
  - intros (ef' & n & [= <-] & Hn). by exists n.
Qed.

Lemma datafiles_loop_spec fs :
  Forall (fun f => encodable f) fs ->
  exists l, datafiles_loop dotencode sizes fs = Ok l
    /\ (forall f ef n, (f, ef, n) ∈ l <-> f ∈ fs /\ present f ef n) /\ map (fun x => x.1.1) l `sublist_of` fs.
Proof.
  induction 1 as [|f fs [ef Ef] HF (l & IH & Hin & Hsub)]; cbn.
  - exists []. split; [done|]. split; [set_solver|constructor].
  - rewrite Ef, IH. cbn. unfold present in *. destruct (sizes !! ef) as [n|] eqn:En; eexists; (split; [done|split]).
    + intros f' ef' n'. rewrite !elem_of_cons, Hin. split; [|naive_solver congruence].
      intros [[= -> -> ->]|?]; naive_solver.
    + by constructor.
    + intros f' ef' n'. rewrite elem_of_cons, Hin. naive_solver congruence.
    + by constructor.
Qed.

Lemma store_loop_spec path fs :
  Forall (fun f => encodable f) fs ->
  exists b, contains_loop dotencode sizes path fs = Ok b
    /\ (b = true <-> exists f ef n, f ∈ fs /\ path `prefix_of` f /\ present f ef n).
Proof.
  induction 1 as [|f fs Ef HF (b & IH & Hb)]; cbn.
  - exists false. split; [done|]. split; [done|]. intros (f & _ & _ & Hf & _). by apply elem_of_nil in Hf.
  - destruct (exists_present f Ef) as (b' & Eb & Hb'). destruct (startsb path f) eqn:Hs.
    + rewrite Eb. cbn. apply bool_decide_eq_true in Hs. destruct b'.
      * exists true. split; [done|]. split; [|done]. intros _. destruct (proj1 Hb' eq_refl) as (ef & n & Hp).
        exists f, ef, n. split; [by left|done].
      * exists b. split; [done|]. rewrite Hb. split; [intros (g & ef & n & Hg & Hp); exists g, ef, n; split; [by right|done]|].
        intros (g & ef & n & [->|Hg]%elem_of_cons & Hp1 & Hp2); [|by exists g, ef, n].
        assert (false = true) by (apply Hb'; eauto). done.
    + exists b. split; [done|]. apply bool_decide_eq_false in Hs. rewrite Hb.
      split; intros (g & ef & n & Hg & Hp); exists g, ef, n; [split; [by right|done]|].
      apply elem_of_cons in Hg as [->|Hg]; [by destruct Hp|done].
Qed.

#[local] Instance ble_trans : Transitive ble.
Proof.
  intros a b c H1 H2 H3. destruct (blt_total a b) as [Hab|[->|Hab]]; [|done..].
  apply H2. by eapply blt_trans.
Qed.

#[local] Instance ble_total : Total ble.
Proof. intros a b. unfold ble. destruct (decide (blt b a)); [right; by apply blt_asym|by left]. Qed.

Lemma ble_blt_sorted l : StronglySorted ble l -> NoDup l -> StronglySorted blt l.
Proof.
  induction 1 as [|x l Hs IH Hx]; intros Hnd; [constructor|]. apply NoDup_cons in Hnd as [Hn Hnd].
  constructor; [by apply IH|]. rewrite Forall_forall in *. intros y Hy.
  destruct (blt_total x y) as [|[->|]]; [done|done|by destruct (Hx y Hy)].
Qed.

Lemma sublist_sorted l l' : l `sublist_of` l' -> StronglySorted blt l' -> StronglySorted blt l.
Proof.
  induction 1 as [|x l l' Hsub IH|x l l' Hsub IH]; intros Hs; [done|..]; apply StronglySorted_inv in Hs as [Hs Hx]; [|by apply IH].
  constructor; [by apply IH|]. rewrite Forall_forall in *. intros y Hy. apply Hx. by eapply elem_of_sublist.
Qed.

(** [datafiles] lists each entry that exists once, in the order of the names. *)
Theorem datafiles_correct order d self s :
  refines d self s -> (forall f, f ∈ s_cur s -> store_file f) ->
  exists l, (datafiles dotencode sizes order d self).2 = Ok l
    /\ (forall f ef n, (f, ef, n) ∈ l <-> f ∈ s_cur s /\ present f ef n)
    /\ StronglySorted blt (map (fun x => x.1.1) l).
Proof.
  intros HR He. unfold datafiles, iter. rewrite (loaded_refines _ _ s) by done.
  assert (merge_sort ble (order (s_cur s)) ≡ₚ elements (s_cur s)) as HP
    by (etrans; [apply merge_sort_Permutation|apply ordered_perm]).
  destruct (datafiles_loop_spec (merge_sort ble (order (s_cur s)))) as (l & Hl & Hin & Hsub).
  { apply Forall_forall. intros f Hf. rewrite HP, elem_of_elements in Hf. by apply store_file_encodable, He. }
  exists l. split; [done|]. split; [intros f ef n; by rewrite Hin, HP, elem_of_elements|].
  eapply sublist_sorted; [exact Hsub|]. apply ble_blt_sorted; [|rewrite HP; apply NoDup_elements].
  apply Sorted_StronglySorted; [exact ble_trans|]. apply Sorted_merge_sort, _.
Qed.

(** [in] on the store: a file with this name, or one below this directory,
    that exists. *)
Theorem store_contains_correct order path d self s :
  refines d self s -> (forall f, f ∈ s_cur s -> store_file f) ->
  let p := bs "data/" ++ path in
  let dir := if bool_decide ([slash] `suffix_of` p) then p else p ++ [slash] in
  exists b, (store_contains dotencode sizes order path d self).2 = Ok b
    /\ (b = true <-> exists f ef n, f ∈ s_cur s /\ (f = p ++ bs ".i" \/ dir `prefix_of` f) /\ present f ef n).
Proof.
  intros HR He p dir. unfold store_contains, contains. rewrite (loaded_refines _ _ s) by done. fold p.
  set (self' := {| entries := Some (s_cur s); dirty := bool_decide (s_pending s = Changed) |}).
  assert (refines d self' {| s_disk := s_disk s; s_cur := s_cur s; s_pending := touched false (s_pending s) |}) as HR' by (destruct HR; by apply (refines_loaded false)).
  assert (exists b1, (if bool_decide (p ++ bs ".i" ∈ s_cur s) then exists_ dotencode sizes (p ++ bs ".i") else Ok false) = Ok b1
    /\ (b1 = true <-> p ++ bs ".i" ∈ s_cur s /\ exists ef n, present (p ++ bs ".i") ef n)) as (b1 & -> & Hb1).
  { case_bool_decide as Hin; [|by exists false; split; [|split; [|intros [? _]]]].
    destruct (exists_present _ (store_file_encodable _ (He _ Hin))) as (b & -> & Hb). exists b. split; [done|]. rewrite Hb. tauto. }
  destruct b1.
  - exists true. split; [done|]. split; [|done]. intros _. destruct (proj1 Hb1 eq_refl) as (Hin & ef & n & Hp).
    exists (p ++ bs ".i"), ef, n. auto.
  - fold dir. unfold iter. rewrite (loaded_refines _ _ _ _ HR'). cbn [s_cur].
    assert (forall f, f ∈ order (s_cur s) <-> f ∈ s_cur s) as Hord by (intros f; by rewrite (ordered_perm order), elem_of_elements).
    destruct (store_loop_spec dir (order (s_cur s))) as (b & Hb & Hspec); [apply Forall_forall; intros f Hf; apply store_file_encodable, He, Hord, Hf|].
    exists b. split; [exact Hb|]. rewrite Hspec. split; intros (f & ef & n & H1 & H2 & H3); exists f, ef, n.
    + apply Hord in H1. auto.
    + split; [by apply Hord|]. split; [|done]. destruct H2 as [->|H2]; [|done].
      assert (false = true) by (apply Hb1; eauto). done.
Qed.

End Listing.

(** The order in which [elements] lists a set is one of them. *)
Definition an_order : set_order := {| ordered s := elements s; ordered_perm s := Permutation_refl (elements s) |}.

Lemma fncache_refines_witness :
  let xs := [Contains (bs "data/a.i"); Add (bs "data/b.i/c.i"); Write an_order; Invalidate; Contains (bs "data/b.i/c.i");
             Add (bs "data/d.i"); Invalidate; Contains (bs "data/d.i"); Add (bs "data/d.i"); Invalidate; Write an_order; Contains (bs "data/b.i/c.i")] in
  exists d' self, run xs {| file := None; backups := [] |} fresh
    = (d', self, map Ok [Answer false; Done; Done; Done; Answer true; Done; Done; Answer false; Done; Done; Done; Answer false])
    /\ represents d' ∅.
Proof.
  intros xs. pose proof (fncache_refines xs {| file := None; backups := [] |} ∅) as H. apply H.
  - split; [reflexivity|]. intros fn Hfn. by apply elem_of_empty in Hfn.
  - repeat constructor; apply (bool_decide_unpack _); vm_compute; done.
Defined.

End FnCache.
