(* ===== verification/MergeActions.v ===== *)
(** * Which files a merge changes ([manifestmerge] and [calculateupdates] of merge.py)

    From the manifests of the working copy, of the other revision and of their
    ancestor, an action for each file; the bids of several ancestors; the checks
    for untracked files. *)

From S2P Require Import Prelude Lines Struct StoreNames.

Module MergeActions.
Import StoreNames.

(** ** Data *)

(** A file in a manifest: its node and its flags. *)
Notation entry := (bytes * bytes)%type.
Notation manifest := (gmap bytes entry).

(** The actions, by the letter they have in the code.  The node of the ancestor
    is the last argument of those that merge. *)
Inductive method :=
  | Keep                                                  (* k *)
  | Exec (fl : bytes)                                     (* e *)
  | Get (fl : bytes) (backup : bool)                      (* g *)
  | Merge (f1 f2 : bytes) (fa : option bytes) (move : bool) (anc : bytes)  (* m *)
  | DirMove (f0 fl : bytes)                               (* dm *)
  | DirGet (f0 fl : bytes)                                (* dg *)
  | Remove                                                (* r *)
  | Forget                                                (* f *)
  | ChangedDeleted (f anc : bytes)                        (* cd *)
  | DeletedChanged (f anc : bytes)                        (* dc *)
  | Create (fl : bytes)                                   (* c *)
  | CreateMerge (fl anc : bytes).                         (* cm *)

#[export] Instance method_eq_dec : EqDecision method.
Proof. solve_decision. Defined.

(** An action comes with the reason that is shown to the user. *)
Notation action := (method * bytes)%type.
Notation actions := (gmap bytes action).

(** What [copies.mergecopies] finds, where it is asked to follow copies. *)
Record copies := {
  copy : gmap bytes bytes;
  movewithdir : gmap bytes bytes;
  dirmove : list (bytes * bytes);
}.
Definition no_copies : copies := {| copy := ∅; movewithdir := ∅; dirmove := [] |}.

(** The order in which Python iterates over a dictionary is not known. *)
Record dict_order := {
  items :> forall A, gmap bytes A -> list (bytes * A);
  items_perm A (m : gmap bytes A) : items A m ≡ₚ map_to_list m;
}.
Arguments items _ {A} m.

(** [manifest.diff]: the files that differ, with both sides. *)
Definition diff_entry (x y : option entry) : option (option entry * option entry) :=
  if decide (x = y) then None else Some (x, y).
Definition diff (m1 m2 : manifest) : gmap bytes (option entry * option entry) := merge diff_entry m1 m2.

Definition addednodeid : bytes := bs "000000000000000added".

(** ** [manifestmerge] *)

Section ManifestMerge.
Variables (o : dict_order) (m1 m2 ma : manifest) (anc : bytes) (cp : copies).
Variables (branchmerge force acceptremote : bool).

(** The files that were copied or moved. *)
Definition copied : gset bytes := map_img (copy cp) ∪ map_img (movewithdir cp).

(** The file exists on both sides. *)
Definition on_both (f n1 fl1 n2 fl2 : bytes) : bytes * action :=
  match ma !! f with
  | None =>
      match copy cp !! f with
      | Some fa => (f, (Merge f f (Some fa) false anc, bs "both renamed from " ++ fa))
      | None => (f, (Merge f f None false anc, bs "both created"))
      end
  | Some (a, fla) =>
      let nol := bool_decide ("l"%char ∉ fl1 ++ fl2 ++ fla) in
      if bool_decide (n2 = a) && bool_decide (fl2 = fla) then (f, (Keep, bs "remote unchanged"))
      else if bool_decide (n1 = a) && bool_decide (fl1 = fla) then
        if bool_decide (n1 = n2) then (f, (Exec fl2, bs "update permissions"))
        else (f, (Get fl2 false, bs "remote is newer"))
      else if nol && bool_decide (n2 = a) then (f, (Exec fl2, bs "update permissions"))
      else if nol && bool_decide (n1 = a) then (f, (Get fl1 false, bs "remote is newer"))
      else (f, (Merge f f (Some f) false anc, bs "versions differ"))
  end.

(** It exists on the local side only. *)
Definition on_local (f n1 fl1 : bytes) : option (bytes * action) :=
  if decide (f ∈ copied) then None
  else match movewithdir cp !! f with
  | Some f2 =>
      Some (f2, if decide (is_Some (m2 !! f2))
                then (Merge f f2 None true anc, bs "remote directory rename, both created")
                else (DirMove f fl1, bs "remote directory rename - move from " ++ f))
  | None =>
      match copy cp !! f with
      | Some f2 => Some (f, (Merge f f2 (Some f2) false anc, bs "local copied/moved from " ++ f2))
      | None =>
          match ma !! f with
          | Some (a, _) =>
              if bool_decide (n1 = a) then
                if bool_decide (n1 = addednodeid) then Some (f, (Forget, bs "remote deleted"))
                else Some (f, (Remove, bs "other deleted"))
              else if acceptremote then Some (f, (Remove, bs "remote delete"))
              else Some (f, (ChangedDeleted f anc, bs "prompt changed/deleted"))
          | None => None
          end
      end
  end.

(** The first directory that was moved and has the file. *)
Fixpoint moved_dir (f : bytes) (ds : list (bytes * bytes)) : option bytes :=
  match ds with
  | [] => None
  | (d, d') :: ds => if startsb d f then Some (d' ++ drop (length d) f) else moved_dir f ds
  end.

(** It exists on the remote side only. *)
Definition on_remote (f n2 fl2 : bytes) : option (bytes * action) :=
  if decide (f ∈ copied) then None
  else match movewithdir cp !! f with
  | Some f2 =>
      Some (f2, if decide (is_Some (m1 !! f2))
                then (Merge f2 f None false anc, bs "local directory rename, both created")
                else (DirGet f fl2, bs "local directory rename - get from " ++ f))
  | None =>
      match copy cp !! f with
      | Some f2 =>
          Some (f, if decide (is_Some (m2 !! f2))
                   then (Merge f2 f (Some f2) false anc, bs "remote copied from " ++ f2)
                   else (Merge f2 f (Some f2) true anc, bs "remote moved from " ++ f2))
      | None =>
          match ma !! f with
          | None =>
              if negb force then Some (f, (Create fl2, bs "remote created"))
              else if negb branchmerge then Some (f, (Create fl2, bs "remote created"))
              else Some (f, (CreateMerge fl2 anc, bs "remote created, get or merge"))
          | Some (a, _) =>
              if bool_decide (n2 = a) then None
              else
                match moved_dir f (dirmove cp) with
                | Some df =>
                    if decide (is_Some (m1 !! df))
                    then Some (df, (Merge df f (Some f) false anc, bs "local directory rename - respect move from " ++ f))
                    else if acceptremote then Some (f, (Create fl2, bs "remote recreating"))
                    else Some (f, (DeletedChanged f anc, bs "prompt deleted/changed"))
                | None =>
                    if acceptremote then Some (f, (Create fl2, bs "remote recreating"))
                    else Some (f, (DeletedChanged f anc, bs "prompt deleted/changed"))
                end
          end
      end
  end.

(** The body of the loop over the differences. *)
Definition decide_file (f : bytes) (e : option entry * option entry) : option (bytes * action) :=
  match e with
  | (Some (n1, fl1), Some (n2, fl2)) => Some (on_both f n1 fl1 n2 fl2)
  | (Some (n1, fl1), None) => on_local f n1 fl1
  | (None, Some (n2, fl2)) => on_remote f n2 fl2
  | (None, None) => None
  end.

(** The files the other side changed, with the sources of copies and moves. *)
Definition relevantfiles : gset bytes :=
  fold_left (fun rel kv => if decide (kv.2 ∈ rel) then {[kv.1]} ∪ rel else rel) (items o (copy cp)) (dom (diff ma m2))
  ∪ dom (movewithdir cp).

(** [narrow]: the ancestor is neither side nor a parent of the working copy and
    not all differences are asked for; [matcher] is what the caller selects. *)
Definition manifestmerge (narrow : bool) (matcher : bytes -> bool) : actions :=
  let rel := relevantfiles in
  let wanted := fun f => matcher f && (negb narrow || bool_decide (f ∈ rel)) in
  let d := filter (fun x => wanted x.1 = true) (diff m1 m2) in
  fold_left (fun acts x => match decide_file x.1 x.2 with Some (k, a) => <[k := a]> acts | None => acts end) (items o d) ∅.

End ManifestMerge.


(** ** [_checkunknownfiles] *)

(** [util.finddirs]: the directories of a path, the longest first, and the
    root. *)
Fixpoint dirs_from (pre f : bytes) : list bytes :=
  match f with
  | [] => []
  | c :: f => if decide (c = slash) then pre :: dirs_from (pre ++ [c]) f else dirs_from (pre ++ [c]) f
  end.
Definition finddirs (f : bytes) : list bytes := rev (dirs_from [] f) ++ [[]].

(** The values of [merge.checkunknown] and [merge.checkignored]. *)
Inductive check_config := CheckAbort | CheckWarn | CheckIgnore.

#[export] Instance check_config_eq_dec : EqDecision check_config.
Proof. solve_decision. Defined.

(** The working copy as the checks see it: [_checkunknownfile] of a path and of
    the file of the other revision it is compared with, what
    [_unknowndirschecker] finds for a path, which paths are ignored, which are in
    the working copy, and the configuration. *)
Record workdir := {
  unknown : bytes -> bytes -> bool;
  unknowndir : bytes -> option bytes;
  ignored : bytes -> bool;
  inwctx : bytes -> bool;
  unknownconfig : check_config;
  ignoredconfig : check_config;
  pathconfig : bool;
}.

Section CheckUnknown.
Variable w : workdir.

(** The untracked file an action would overwrite. *)
Definition file_conflict (f : bytes) (a : action) : bool :=
  match a.1 with
  | Create _ | DeletedChanged _ _ => unknown w f f
  | DirGet f0 _ => unknown w f f0
  | _ => false
  end.

(** The untracked directory, or file in place of a directory. *)
Definition path_conflict (f : bytes) (a : action) : option bytes :=
  match a.1 with
  | Create _ | DeletedChanged _ _ =>
      if unknown w f f then None
      else if pathconfig w && negb (inwctx w f) then unknowndir w f
      else None
  | _ => None
  end.

Definition fileconflicts (acts : actions) : gset bytes :=
  dom (filter (fun x => file_conflict x.1 x.2 = true) acts).
Definition pathconflicts (acts : actions) : gset bytes :=
  list_to_set (omap (fun x => path_conflict x.1 x.2) (map_to_list acts)).

Definition abortconflicts (acts : actions) : gset bytes :=
  let all := fileconflicts acts ∪ pathconflicts acts in
  filter (fun f => (if ignored w f then ignoredconfig w else unknownconfig w) = CheckAbort) all.

(** What becomes of a file that may have to be merged with an untracked one. *)
Definition force_action (mergeforce : bool) (f : bytes) (a : action) : action :=
  match a.1 with
  | CreateMerge fl2 anc =>
      let config := if ignored w f then ignoredconfig w else unknownconfig w in
      if negb (unknown w f f) then (Get fl2 false, bs "remote created")
      else if mergeforce || bool_decide (config = CheckAbort) then
        (Merge f f None false anc, bs "remote differs from untracked local")
      else (Get fl2 true, bs "remote created")
  | _ => a
  end.

(** Files to be created are now files to get. *)
Definition create_action (fc pc : gset bytes) (f : bytes) (a : action) : action :=
  match a.1 with
  | Create fl =>
      (Get fl (bool_decide (f ∈ fc) || bool_decide (f ∈ pc) || existsb (fun p => bool_decide (p ∈ pc)) (finddirs f)), a.2)
  | _ => a
  end.

Definition checkunknownfiles (force mergeforce : bool) (acts : actions) : res actions :=
  if force then
    Ok (map_imap (fun f a => Some (create_action ∅ ∅ f (force_action mergeforce f a))) acts)
  else if decide (abortconflicts acts = ∅) then
    Ok (map_imap (fun f a => Some (create_action (fileconflicts acts) (pathconflicts acts) f a)) acts)
  else Err (Abort "untracked files in working directory differ from files in requested revision").

End CheckUnknown.

(** ** Several ancestors *)

(** The letter of an action. *)
Definition letter (m : method) : bytes :=
  match m with
  | Keep => bs "k" | Exec _ => bs "e" | Get _ _ => bs "g" | Merge _ _ _ _ _ => bs "m"
  | DirMove _ _ => bs "dm" | DirGet _ _ => bs "dg" | Remove => bs "r" | Forget => bs "f"
  | ChangedDeleted _ _ => bs "cd" | DeletedChanged _ _ => bs "dc"
  | Create _ => bs "c" | CreateMerge _ _ => bs "cm"
  end.

(** The bids for a file: by letter, those of each ancestor in their order. *)
Notation bids := (gmap bytes (list action)).

Definition addbid (d : option bids) (a : option action) : option bids :=
  match d, a with
  | Some d, Some a => Some (<[letter a.1 := default [] (d !! letter a.1) ++ [a]]> d)
  | None, Some a => Some {[letter a.1 := [a]]}
  | d, None => d
  end.

Definition fbids (all : list actions) : gmap bytes bids := fold_left (fun fb acts => merge addbid fb acts) all ∅.

(** [l[0]] if all of [l] are equal *)
Definition agreed (l : list action) : option action :=
  match l with
  | a :: l => if forallb (fun b => bool_decide (b = a)) l then Some a else None
  | [] => None
  end.

(** The auction for a file: consensus, else keep, else a get all agree on, else
    the first bid of some kind. *)
Definition choose (o : dict_order) (d : bids) : option action :=
  let pick :=
    match d !! bs "k" with
    | Some (a :: _) => Some a
    | _ =>
        match d !! bs "g" ≫= agreed with
        | Some a => Some a
        | None => match items o d with (_, a :: _) :: _ => Some a | _ => None end
        end
    end in
  match items o d with
  | [(_, l)] => match agreed l with Some a => Some a | None => pick end
  | _ => pick
  end.

(** A directory move of a file that another bid removes is dropped. *)
Definition moves_removed (acts : actions) (a : action) : bool :=
  match a.1 with
  | DirMove f0 _ => match acts !! f0 with Some (Remove, _) => true | _ => false end
  | _ => false
  end.
Definition drop_moved (acts : actions) : actions := filter (fun x => moves_removed acts x.2 = false) acts.

Definition auction (o : dict_order) (all : list actions) : actions :=
  drop_moved (omap (choose o) (fbids all)).

(** The warnings about divergent and deleted renames that are kept from the
    ancestors seen so far. *)
Definition track {A B} (kept : option (list A) * option (list B)) (new : list A * list B) : option (list A) * option (list B) :=
  (match kept.1 with
   | Some d => if decide (zlen new.1 < zlen d) then Some new.1 else Some d
   | None => Some new.1
   end,
   match kept.2 with
   | Some r => if decide (zlen r < zlen new.2) then Some new.2 else Some r
   | None => Some new.2
   end).

(** ** [calculateupdates] *)

(** [_resolvetrivial]: [samelocal f] and [sameremote f] say that the file has
    the content it has in the (first) ancestor. *)
Definition resolve_action (ma : manifest) (samelocal sameremote : bytes -> bool) (f : bytes) (a : action) : option action :=
  match a.1 with
  | ChangedDeleted _ _ =>
      if bool_decide (is_Some (ma !! f)) && samelocal f then Some (Remove, bs "prompt same") else Some a
  | DeletedChanged _ _ => if bool_decide (is_Some (ma !! f)) && sameremote f then None else Some a
  | _ => Some a
  end.
Definition resolvetrivial (ma : manifest) (samelocal sameremote : bytes -> bool) (acts : actions) : actions :=
  map_imap (resolve_action ma samelocal sameremote) acts.

(** [_forgetremoved] *)
Definition forgetremoved (m2 : manifest) (deleted removed : list bytes) (branchmerge : bool) : actions :=
  let act1 := fold_left (fun acts f => if decide (m2 !! f = None)
      then <[f := (if branchmerge then Remove else Forget, bs "forget deleted")]> acts else acts) deleted ∅ in
  if branchmerge then act1
  else fold_left (fun acts f => if decide (m2 !! f = None) then <[f := (Forget, bs "forget removed")]> acts else acts) removed act1.

(** An ancestor: its manifest, its node, the copies followed from it, and
    whether the differences may be narrowed. *)
Record ancestor := {
  a_manifest : manifest;
  a_node : bytes;
  a_copies : copies;
  a_narrow : bool;
}.

(** The files of the working copy that are missing and that were removed, if
    the context is the working copy. *)
Record wctx_files := { w_deleted : list bytes; w_removed : list bytes }.

Section CalculateUpdates.
Variables (o : dict_order) (m1 m2 : manifest) (w : workdir).
Variables (samelocal sameremote matcher : bytes -> bool).
Variables (branchmerge force acceptremote mergeforce : bool) (wdir : option wctx_files).

Definition ancestor_actions (narrow : bool) (a : ancestor) : res actions :=
  checkunknownfiles w force mergeforce
    (manifestmerge o m1 m2 (a_manifest a) (a_node a) (a_copies a) branchmerge force acceptremote narrow matcher).

Fixpoint all_actions (ancs : list ancestor) : res (list actions) :=
  match ancs with
  | [] => Ok []
  | a :: ancs =>
      let* acts := ancestor_actions false a in
      let* l := all_actions ancs in
      Ok (acts :: l)
  end.

Definition calculateupdates (ancs : list ancestor) : res actions :=
  let* acts :=
    match ancs with
    | [a] => ancestor_actions (a_narrow a) a
    | _ => let* l := all_actions ancs in Ok (auction o l)
    end in
  match ancs with
  | [] => Err IndexError
  | a :: _ =>
      let acts := resolvetrivial (a_manifest a) samelocal sameremote acts in
      Ok (match wdir with
          | Some wf => forgetremoved m2 (w_deleted wf) (w_removed wf) branchmerge ∪ acts
          | None => acts
          end)
  end.

End CalculateUpdates.

End MergeActions.
