(* ===== verification/MergeSpec.v ===== *)
(** * The actions of a merge implement the three-way merge

    For every file, the action that [calculateupdates] chooses has the outcome
    of a three-way merge of the entries in the manifests, taken separately for
    contents and flags. *)

From S2P Require Import Prelude Lines Struct StoreNames MergeActions.

Module MergeSpec.
Import StoreNames MergeActions.

(** ** The specification *)

(** The three-way merge of values: the side that changed wins. *)
Definition merge3 {A} `{EqDecision A} (a l r : A) : option A :=
  if decide (l = r) then Some l
  else if decide (l = a) then Some r
  else if decide (r = a) then Some l
  else None.

(** What becomes of a file: an entry, no entry, or a conflict to resolve. *)
Inductive outcome := Result (e : option entry) | Conflict.

(** On all three sides, and one of them is a link or both sides changed the
    content: the file is merged as a whole. *)
Definition whole (a l r : option entry) : bool :=
  match a, l, r with
  | Some (n, fla), Some (n1, fl1), Some (n2, fl2) =>
      bool_decide ("l"%char ∈ fl1 ++ fl2 ++ fla) || bool_decide (n1 ≠ n /\ n2 ≠ n)
  | _, _, _ => false
  end.

(** Otherwise nodes and flags are merged separately. *)
Definition three_way (a l r : option entry) : outcome :=
  if whole a l r then match merge3 a l r with Some e => Result e | None => Conflict end
  else
    match merge3 (fst <$> a) (fst <$> l) (fst <$> r) with
    | None => Conflict
    | Some None => Result None
    | Some (Some n) =>
        match merge3 (snd <$> a) (snd <$> l) (snd <$> r) with
        | Some (Some fl) => Result (Some (n, fl))
        | _ => Conflict
        end
    end.

(** The file is on one side only. *)
Definition one_sided (l r : option entry) : bool :=
  match l, r with Some _, None | None, Some _ => true | _, _ => false end.

(** A file that one side deleted and the other changed: [acceptremote] takes
    the other revision, and a change to the same content is none. *)
Definition settle (acceptremote same : bool) (l r : option entry) (x : outcome) : outcome :=
  match x with
  | Conflict => if one_sided l r then if acceptremote then Result r else if same then Result None else Conflict else Conflict
  | Result e => Result e
  end.

(** What an action does to a file of the working copy, with the entries of both
    sides: [Conflict] if it is left to be resolved. *)
Definition effect (a : option action) (l r : option entry) : outcome :=
  match a with
  | None | Some (Keep, _) => Result l
  | Some (Exec fl, _) => match l with Some (n, _) => Result (Some (n, fl)) | None => Conflict end
  | Some (Get fl _, _) | Some (Create fl, _) | Some (CreateMerge fl _, _) =>
      match r with Some (n, _) => Result (Some (n, fl)) | None => Conflict end
  | Some (Remove, _) | Some (Forget, _) => Result None
  | _ => Conflict
  end.

(** Flags of the manifests: none, executable or link. *)
Definition flags_ok (m : manifest) : Prop :=
  forall f n fl, m !! f = Some (n, fl) -> fl ∈ [[]; bs "x"; bs "l"].

(** ** A file at a time *)

Lemma merge3_same_r {A} `{EqDecision A} (a l : A) : merge3 a l a = Some l.
Proof. unfold merge3. repeat case_decide; congruence. Qed.

Lemma three_way_unchanged a l : three_way a l a = Result l.
Proof.
  unfold three_way. rewrite !merge3_same_r. destruct (whole _ _ _); [done|]. by destruct l as [[n fl]|].
Qed.

Lemma three_way_same a l : three_way a l l = Result l.
Proof.
  unfold three_way, merge3. rewrite !decide_True by done. destruct (whole _ _ _); [done|]. by destruct l as [[n fl]|].
Qed.

(** Flags without links that all differ do not exist. *)
Lemma two_flags (a b c : bytes) :
  a ∈ [[]; bs "x"; bs "l"] -> b ∈ [[]; bs "x"; bs "l"] -> c ∈ [[]; bs "x"; bs "l"] ->
  "l"%char ∉ b ++ c ++ a -> b = a \/ c = a \/ b = c.
Proof.
  intros Ha Hb Hc Hl. rewrite !elem_of_cons, elem_of_nil in Ha, Hb, Hc. rewrite !not_elem_of_app in Hl.
  destruct Ha as [->|[->|[->|[]]]], Hb as [->|[->|[->|[]]]], Hc as [->|[->|[->|[]]]]; try (by auto);
    exfalso; destruct Hl as (H1 & H2 & H3); first [by (apply H1; left) | by (apply H2; left) | by (apply H3; left)].
Qed.

Section File.
Variables (o : dict_order) (m1 m2 ma : manifest) (anc : bytes).
Variables (branchmerge force acceptremote : bool).
Hypothesis Hflags : flags_ok m1 /\ flags_ok m2 /\ flags_ok ma.

Notation decide_file := (decide_file m1 m2 ma anc no_copies branchmerge force acceptremote).

Lemma on_both_spec f n1 fl1 n2 fl2 :
  m1 !! f = Some (n1, fl1) -> m2 !! f = Some (n2, fl2) -> (n1, fl1) ≠ (n2, fl2) ->
  let x := on_both ma anc no_copies f n1 fl1 n2 fl2 in
  x.1 = f /\ effect (Some x.2) (m1 !! f) (m2 !! f) = three_way (ma !! f) (m1 !! f) (m2 !! f).
Proof.
  intros E1 E2 Hne. destruct Hflags as (H1 & H2 & H3). specialize (H1 _ _ _ E1). specialize (H2 _ _ _ E2).
  rewrite E1, E2. unfold on_both. destruct (ma !! f) as [[a fla]|] eqn:Ea.
  - specialize (H3 _ _ _ Ea). unfold three_way, whole, merge3. cbn [fmap option_fmap option_map fst snd].
    destruct (decide ("l"%char ∈ fl1 ++ fl2 ++ fla)) as [Hl|Hl];
      [rewrite (bool_decide_eq_true_2 _ Hl), (bool_decide_eq_false_2 (_ ∉ _)) by tauto; cbn [orb]
      |rewrite (bool_decide_eq_false_2 _ Hl), (bool_decide_eq_true_2 (_ ∉ _)) by done; cbn [orb]].
    + repeat case_bool_decide; subst; cbn; split; try done; repeat case_decide; congruence.
    + pose proof (two_flags _ _ _ H3 H1 H2 Hl) as Htwo.
      repeat case_bool_decide; subst; cbn; split; try done; repeat case_decide; simplify_eq; try done; try congruence;
        try tauto; (destruct Htwo as [?|[?|?]]; congruence).
  - cbn. split; [done|]. unfold three_way, whole, merge3. cbn. repeat case_decide; simplify_eq; done.
Qed.

(** What is decided without the check for untracked files. *)
Notation decided f := (settle acceptremote false (m1 !! f) (m2 !! f) (three_way (ma !! f) (m1 !! f) (m2 !! f))).

Lemma one_sided_l a n1 fl1 :
  three_way a (Some (n1, fl1)) None = match a with None => Result (Some (n1, fl1)) | Some (n, _) => if decide (n1 = n) then Result None else Conflict end.
Proof.
  unfold three_way, whole, merge3. destruct a as [[n fl]|]; cbn; repeat case_decide; simplify_eq; done.
Qed.

Lemma one_sided_r a n2 fl2 :
  three_way a None (Some (n2, fl2)) = match a with None => Result (Some (n2, fl2)) | Some (n, _) => if decide (n2 = n) then Result None else Conflict end.
Proof.
  unfold three_way, whole, merge3. destruct a as [[n fl]|]; cbn; repeat case_decide; simplify_eq; done.
Qed.

Lemma copied_none : copied no_copies = ∅.
Proof. unfold copied. cbn. rewrite !map_img_empty_L. set_solver. Qed.

(** Without copies each difference decides about its file. *)
Lemma decide_file_spec f :
  m1 !! f ≠ m2 !! f ->
  match decide_file f (m1 !! f, m2 !! f) with
  | Some (k, a) => k = f /\ effect (Some a) (m1 !! f) (m2 !! f) = decided f
  | None => effect None (m1 !! f) (m2 !! f) = decided f
  end.
Proof.
  intros Hne. destruct (m1 !! f) as [[n1 fl1]|] eqn:E1, (m2 !! f) as [[n2 fl2]|] eqn:E2; [..|done]; cbn [MergeActions.decide_file].
  - destruct (on_both_spec f n1 fl1 n2 fl2 E1 E2) as [H1 H2]; [congruence|]. rewrite E1, E2 in H2.
    destruct (on_both _ _ _ _ _ _ _ _) as [k a]. cbn [fst snd] in H1, H2. split; [done|]. rewrite H2. by destruct (three_way _ _ _).
  - rewrite one_sided_l. unfold on_local. rewrite copied_none, decide_False by set_solver. cbn [movewithdir copy no_copies].
    rewrite !lookup_empty. destruct (ma !! f) as [[a fla]|]; [|done]. case_bool_decide as Ha; case_decide; try done; cbn.
    + by case_bool_decide.
    + by destruct acceptremote.
  - rewrite one_sided_r. unfold on_remote. rewrite copied_none, decide_False by set_solver. cbn [movewithdir copy dirmove no_copies moved_dir].
    rewrite !lookup_empty. destruct (ma !! f) as [[a fla]|]; cbn.
    + case_bool_decide as Ha; case_decide; try done; cbn. by destruct acceptremote.
    + by destruct force, branchmerge.
Qed.

Lemma diff_lookup (x y : manifest) f : diff x y !! f = diff_entry (x !! f) (y !! f).
Proof. unfold diff. rewrite lookup_merge. unfold diff_entry. destruct (x !! f), (y !! f); cbn; try done. Qed.

(** The loop, when each item writes only its own key. *)
Lemma fold_insert_lookup {B} (dec : bytes -> B -> option (bytes * action)) (xs : list (bytes * B)) acts0 f :
  NoDup xs.*1 -> (forall k b k' a, (k, b) ∈ xs -> dec k b = Some (k', a) -> k' = k) ->
  (fold_left (fun acts x => match dec x.1 x.2 with Some (k, a) => <[k := a]> acts | None => acts end) xs acts0 : actions) !! f
  = match (list_to_map xs : gmap bytes B) !! f ≫= dec f with Some (_, a) => Some a | None => acts0 !! f end.
Proof.
  revert acts0. induction xs as [|[k b] xs IH]; intros acts0 Hnd Hk; cbn [fold_left]; [cbn; by rewrite lookup_empty|].
  cbn in Hnd. apply NoDup_cons in Hnd as [Hn Hnd]. rewrite IH; [|done|intros; eapply Hk; [by right|done]]. cbn [list_to_map fst snd].
  destruct (decide (f = k)) as [->|Hf].
  - cbn. rewrite lookup_insert_eq. cbn. assert ((list_to_map xs : gmap bytes B) !! k = None) as -> by by apply not_elem_of_list_to_map_1.
    cbn. destruct (dec k b) as [[k' a]|] eqn:E; [|done]. rewrite (Hk k b k' a ltac:(by left) E). by rewrite lookup_insert_eq.
  - cbn. rewrite lookup_insert_ne by done. destruct (list_to_map xs !! f ≫= dec f) as [[k' a']|]; [done|].
    destruct (dec k b) as [[k' a]|] eqn:E; [|done]. rewrite (Hk k b k' a ltac:(by left) E). by rewrite lookup_insert_ne.
Qed.

Lemma items_NoDup {B} (m : gmap bytes B) : NoDup (items o m).*1.
Proof. rewrite items_perm. apply NoDup_fst_map_to_list. Qed.

Lemma items_map {B} (m : gmap bytes B) : list_to_map (items o m) = m.
Proof. rewrite <- (list_to_map_to_list m). apply list_to_map_proper; [apply items_NoDup|by rewrite items_perm, list_to_map_to_list]. Qed.

Lemma relevant_no_copies : relevantfiles o m2 ma no_copies = dom (diff ma m2).
Proof.
  unfold relevantfiles. cbn [copy movewithdir no_copies]. assert (items o (∅ : gmap bytes bytes) = []) as ->.
  { apply Permutation_nil. symmetry. rewrite items_perm. by rewrite map_to_list_empty. }
  cbn. set_solver.
Qed.

Lemma decide_file_key k b k' a : b.1 ≠ b.2 -> b = (m1 !! k, m2 !! k) -> decide_file k b = Some (k', a) -> k' = k.
Proof.
  intros Hne -> H. pose proof (decide_file_spec k Hne) as Hs. rewrite H in Hs. by destruct Hs.
Qed.

Lemma manifestmerge_lookup narrow matcher f :
  manifestmerge o m1 m2 ma anc no_copies branchmerge force acceptremote narrow matcher !! f
  = if decide (m1 !! f = m2 !! f) then None
    else if matcher f && (negb narrow || bool_decide (ma !! f ≠ m2 !! f))
    then match decide_file f (m1 !! f, m2 !! f) with Some (_, a) => Some a | None => None end
    else None.
Proof.
  unfold manifestmerge. rewrite relevant_no_copies. set (d := filter _ (diff m1 m2)).
  assert (forall k b, d !! k = Some b -> b.1 ≠ b.2 /\ b = (m1 !! k, m2 !! k)) as Hd.
  { intros k b Hb. apply map_lookup_filter_Some in Hb as [Hb _]. rewrite diff_lookup in Hb. unfold diff_entry in Hb.
    case_decide; [done|]. by injection Hb as <-. }
  rewrite fold_insert_lookup.
  - rewrite items_map, lookup_empty.
    assert (bool_decide (f ∈ dom (diff ma m2)) = bool_decide (ma !! f ≠ m2 !! f)) as Hdom.
    { apply bool_decide_ext. rewrite elem_of_dom, diff_lookup. unfold diff_entry. by case_decide; split. }
    destruct (d !! f) as [b|] eqn:Eb; unfold d in Eb; rewrite ?map_lookup_filter_Some, ?map_lookup_filter_None, ?diff_lookup in Eb; unfold diff_entry in Eb; cbn in Eb.
    + destruct Eb as [Eb Hw]. case_decide; [done|]. injection Eb as <-. rewrite Hdom in Hw. cbn. by rewrite Hw.
    + case_decide; [done|]. destruct Eb as [Eb|Eb]; [done|]. specialize (Eb _ eq_refl). rewrite Hdom in Eb.
      destruct (_ && _) in Eb |- *; [by destruct Eb|done].
  - apply items_NoDup.
  - intros k b k' a Hin Hdec. assert (d !! k = Some b) as Hk.
    { apply elem_of_map_to_list. by rewrite <- items_perm. }
    destruct (Hd k b Hk) as [H1 H2]. by eapply decide_file_key.
Qed.

(** The actions for the files of a merge, before the check for untracked ones. *)
Lemma manifestmerge_spec narrow f :
  effect (manifestmerge o m1 m2 ma anc no_copies branchmerge force acceptremote narrow (fun _ => true) !! f) (m1 !! f) (m2 !! f)
  = decided f.
Proof.
  rewrite manifestmerge_lookup. case_decide as Hsame.
  { rewrite Hsame, three_way_same. done. }
  cbn [andb]. destruct (negb narrow || _) eqn:Hn.
  - pose proof (decide_file_spec f Hsame) as H. destruct (decide_file _ _) as [[k a]|]; [by destruct H|done].
  - apply orb_false_iff in Hn as [_ Hn]. apply bool_decide_eq_false, dec_stable in Hn. rewrite Hn, three_way_unchanged. done.
Qed.

(** Where the actions that can become others come from. *)
Lemma manifestmerge_shape narrow matcher f a :
  manifestmerge o m1 m2 ma anc no_copies branchmerge force acceptremote narrow matcher !! f = Some a ->
  match a.1 with
  | ChangedDeleted _ _ => is_Some (m1 !! f) /\ m2 !! f = None /\ is_Some (ma !! f)
  | DeletedChanged _ _ => m1 !! f = None /\ is_Some (m2 !! f) /\ is_Some (ma !! f)
  | Create _ => m1 !! f = None /\ is_Some (m2 !! f)
  | CreateMerge _ _ => force && branchmerge = true /\ m1 !! f = None /\ is_Some (m2 !! f) /\ ma !! f = None
  | Merge _ _ _ _ _ | Exec _ | Get _ _ => is_Some (m1 !! f) /\ is_Some (m2 !! f)
  | DirMove _ _ | DirGet _ _ => False
  | _ => True
  end.
Proof.
  rewrite manifestmerge_lookup. case_decide as Hne; [done|]. destruct (_ && _); [|done].
  destruct (m1 !! f) as [[n1 fl1]|] eqn:E1, (m2 !! f) as [[n2 fl2]|] eqn:E2; [..|done]; cbn [MergeActions.decide_file].
  - unfold on_both. intros H. repeat case_match; simplify_eq; cbn; eauto.
  - unfold on_local. rewrite copied_none, decide_False by set_solver. cbn [movewithdir copy no_copies]. rewrite !lookup_empty.
    destruct (ma !! f) as [[a' fla]|]; [|done]. repeat case_match; intros [= <-]; simplify_eq; cbn; eauto.
  - unfold on_remote. rewrite copied_none, decide_False by set_solver. cbn [movewithdir copy dirmove no_copies moved_dir]. rewrite !lookup_empty.
    destruct (ma !! f) as [[a' fla]|]; [repeat case_match; intros [= <-]; simplify_eq; cbn; eauto|].
    destruct force, branchmerge; intros [= <-]; cbn; eauto.
Qed.

End File.

(** ** The whole calculation, for one ancestor *)

(** The files of the working copy that are missing or removed are in none of
    the manifests it is merged with. *)
Definition wdir_ok (m1 : manifest) (wdir : option wctx_files) : Prop :=
  match wdir with
  | Some wf => forall f, f ∈ w_deleted wf ++ w_removed wf -> m1 !! f = None
  | None => True
  end.

Section Updates.
Variables (o : dict_order) (m1 m2 : manifest) (w : workdir) (anc : ancestor).
Variables (samelocal sameremote : bytes -> bool).
Variables (branchmerge force acceptremote mergeforce : bool) (wdir : option wctx_files).
Notation ma := (a_manifest anc).
Hypothesis Hflags : flags_ok m1 /\ flags_ok m2 /\ flags_ok ma.
Hypothesis Hcopies : a_copies anc = no_copies.
Hypothesis Hwdir : wdir_ok m1 wdir.

Definition config_of (f : bytes) : check_config := if ignored w f then ignoredconfig w else unknownconfig w.

(** A new file of the other revision that has to be merged with an untracked
    one. *)
Definition untracked (f : bytes) : bool :=
  match m1 !! f, m2 !! f, ma !! f with
  | None, Some _, None => force && branchmerge && unknown w f f && (mergeforce || bool_decide (config_of f = CheckAbort))
  | _, _, _ => false
  end.

Notation base := (manifestmerge o m1 m2 ma (a_node anc) no_copies branchmerge force acceptremote (a_narrow anc) (fun _ => true)).

Lemma checkunknown_lookup acts acts' f :
  checkunknownfiles w force mergeforce acts = Ok acts' ->
  exists fc pc, acts' !! f = (fun a => create_action fc pc f (if force then force_action w mergeforce f a else a)) <$> acts !! f.
Proof.
  unfold checkunknownfiles. destruct force; [|case_decide; [|done]]; intros [= <-]; eexists _, _; rewrite map_lookup_imap; by destruct (acts !! f).
Qed.

Lemma create_action_effect fc pc f a l r : effect (Some (create_action fc pc f a)) l r = effect (Some a) l r.
Proof. destruct a as [[] msg]; done. Qed.

Lemma new_file_merge f :
  force && branchmerge = true -> m1 !! f = None -> is_Some (m2 !! f) -> ma !! f = None ->
  exists fl a msg, base !! f = Some (CreateMerge fl a, msg).
Proof.
  intros [-> ->]%andb_prop E1 [[n2 fl2] E2] Ea. rewrite manifestmerge_lookup by done. rewrite E1, E2, Ea. rewrite decide_False by done.
  rewrite bool_decide_eq_true_2 by done. rewrite orb_true_r. cbn [andb MergeActions.decide_file]. unfold on_remote.
  rewrite copied_none, decide_False by set_solver. cbn [movewithdir copy no_copies]. rewrite !lookup_empty, Ea. cbn. eauto.
Qed.

Lemma untracked_merge f :
  untracked f = true -> exists fl a msg, base !! f = Some (CreateMerge fl a, msg).
Proof.
  unfold untracked. intros H. destruct (m1 !! f) eqn:E1, (m2 !! f) eqn:E2, (ma !! f) eqn:Ea; try done.
  apply andb_prop in H as [[H _]%andb_prop _]. apply new_file_merge; eauto.
Qed.

Lemma checked_effect acts f :
  checkunknownfiles w force mergeforce base = Ok acts ->
  effect (acts !! f) (m1 !! f) (m2 !! f)
  = if untracked f then Conflict else settle acceptremote false (m1 !! f) (m2 !! f) (three_way (ma !! f) (m1 !! f) (m2 !! f)).
Proof.
  intros H. pose proof (manifestmerge_spec o m1 m2 ma (a_node anc) branchmerge force acceptremote Hflags (a_narrow anc) f) as Hs.
  destruct (checkunknown_lookup _ _ f H) as (fc & pc & E). rewrite E, <- Hs. clear H E Hs.
  pose proof (manifestmerge_shape o m1 m2 ma (a_node anc) branchmerge force acceptremote Hflags (a_narrow anc) (fun _ => true) f) as Hsh.
  pose proof (untracked_merge f) as Hu.
  destruct (base !! f) as [a|]; [|by destruct (untracked f); [destruct (Hu eq_refl) as (? & ? & ? & ?)|]].
  specialize (Hsh a eq_refl). cbn [fmap option_fmap option_map]. rewrite create_action_effect.
  destruct a as [m msg].
  assert ((exists fl x, m = CreateMerge fl x) \/ ~ (exists fl x, m = CreateMerge fl x)) as [(fl & x & ->)|Hm]
    by (destruct m; eauto; right; by intros (? & ? & ?)).
  - cbn in Hsh. destruct Hsh as (Hfb & E1 & [[n2 fl2] E2] & Ea). unfold untracked, force_action. rewrite E1, E2, Ea, Hfb.
    apply andb_prop in Hfb as [-> _]. cbn [fst]. fold (config_of f). destruct (unknown w f f); [|done]. cbn. by destruct (mergeforce || _).
  - destruct (untracked f); [destruct (Hu eq_refl) as (? & ? & ? & [= -> ->]); destruct Hm; eauto|].
    assert ((if force then force_action w mergeforce f (m, msg) else (m, msg)) = (m, msg)) as ->; [|done].
    destruct force; [|done]. destruct m; try done. destruct Hm. eauto.
Qed.

(** The same content as in the ancestor, for the side that has the file. *)
Definition same_content (f : bytes) : bool := if m1 !! f then samelocal f else sameremote f.

Definition merged (f : bytes) : outcome :=
  if untracked f then Conflict
  else settle acceptremote (same_content f) (m1 !! f) (m2 !! f) (three_way (ma !! f) (m1 !! f) (m2 !! f)).

Lemma settle_same acc same l r x y : settle acc false l r x = y -> y ≠ Conflict -> settle acc same l r x = y.
Proof. destruct x; cbn; [done|]. repeat case_match; congruence. Qed.

Lemma settle_both acc s1 s2 l r x : one_sided l r = false -> settle acc s1 l r x = settle acc s2 l r x.
Proof. intros H. unfold settle. by rewrite H. Qed.

(** The actions that [_resolvetrivial] looks at. *)
Definition prompts (m : method) : bool := match m with ChangedDeleted _ _ | DeletedChanged _ _ => true | _ => false end.

Lemma resolve_other f a : prompts a.1 = false -> resolve_action ma samelocal sameremote f a = Some a.
Proof. by destruct a as [[] msg]. Qed.

Lemma checked_prompts fc pc f a : prompts (create_action fc pc f (if force then force_action w mergeforce f a else a)).1 = prompts a.1.
Proof. destruct a as [[] msg], force; cbn; try done; unfold force_action; cbn; by repeat case_match. Qed.

Lemma resolved_effect acts f :
  checkunknownfiles w force mergeforce base = Ok acts ->
  effect (resolvetrivial ma samelocal sameremote acts !! f) (m1 !! f) (m2 !! f) = merged f.
Proof.
  intros H. pose proof (checked_effect acts f H) as He. destruct (checkunknown_lookup _ _ f H) as (fc & pc & E). clear H.
  pose proof (manifestmerge_shape o m1 m2 ma (a_node anc) branchmerge force acceptremote Hflags (a_narrow anc) (fun _ => true) f) as Hsh.
  pose proof (untracked_merge f) as Hum. unfold resolvetrivial. rewrite map_lookup_imap. unfold merged, same_content.
  destruct (base !! f) as [a|]; rewrite E in He |- *; cbn [fmap option_fmap option_map mbind option_bind] in *;
    [|destruct (untracked f); [done|]; symmetry; by apply settle_same].
  specialize (Hsh a eq_refl). destruct (prompts a.1) eqn:Hp.
  - destruct (untracked f); [destruct (Hum eq_refl) as (? & ? & ? & [= ->]); done|]. clear Hum E.
    destruct a as [[] msg]; try done; cbn [fst] in Hsh.
    + destruct Hsh as ([l El] & Er & [e Ea]). rewrite El, Er, Ea in He |- *.
      assert (create_action fc pc f (if force then force_action w mergeforce f (ChangedDeleted f0 anc0, msg) else (ChangedDeleted f0 anc0, msg))
        = (ChangedDeleted f0 anc0, msg)) as Ec by (by destruct force).
      rewrite Ec in He |- *. cbn in He |- *. rewrite bool_decide_eq_true_2 by done. cbn [andb].
      destruct (three_way _ _ _); [done|]. cbn in *. destruct acceptremote; [done|]. by destruct (samelocal f).
    + destruct Hsh as (El & [r Er] & [e Ea]). rewrite El, Er, Ea in He |- *.
      assert (create_action fc pc f (if force then force_action w mergeforce f (DeletedChanged f0 anc0, msg) else (DeletedChanged f0 anc0, msg))
        = (DeletedChanged f0 anc0, msg)) as Ec by (by destruct force).
      rewrite Ec in He |- *. cbn in He |- *. rewrite bool_decide_eq_true_2 by done. cbn [andb].
      destruct (three_way _ _ _); [done|]. cbn in *. destruct acceptremote; [done|]. by destruct (sameremote f).
  - rewrite resolve_other by (by rewrite checked_prompts). rewrite He. destruct (untracked f); [done|].
    destruct a as [[] msg]; try done; cbn [fst] in Hsh;
      try (destruct Hsh as [[l El] [r Er]]; rewrite El, Er; by apply settle_both).
    all: try (symmetry; apply settle_same; [done|]; rewrite <- He, create_action_effect; by destruct force).
    + destruct Hsh as [El [[n2 fl2] Er]]. symmetry. apply settle_same; [done|]. rewrite <- He, create_action_effect, Er. by destruct force.
    + destruct Hsh as (_ & El & [[n2 fl2] Er] & Ea). by rewrite El, Er, Ea, one_sided_r.
Qed.

(** Files that are forgotten are on neither side. *)
Lemma forget_fold (a : action) (fs : list bytes) (acts0 : actions) (f : bytes) (b : action) :
  fold_left (fun acts f => if decide (m2 !! f = None) then <[f := a]> acts else acts) fs acts0 !! f = Some b ->
  (m2 !! f = None /\ f ∈ fs /\ b = a) \/ acts0 !! f = Some b.
Proof.
  clear Hflags Hcopies Hwdir. revert acts0. induction fs as [|g fs IH]; intros acts0; cbn; [by right|]. intros [H|H]%IH; [left; set_solver|].
  case_decide as Hg; [|by right]. destruct (decide (g = f)) as [->|Hne].
  - rewrite lookup_insert_eq in H. left. split; [done|]. split; [by left|congruence].
  - rewrite lookup_insert_ne in H by done. by right.
Qed.

Lemma forgetremoved_lookup wf f b :
  forgetremoved m2 (w_deleted wf) (w_removed wf) branchmerge !! f = Some b ->
  m2 !! f = None /\ f ∈ w_deleted wf ++ w_removed wf /\ (b.1 = Remove \/ b.1 = Forget).
Proof.
  clear Hflags Hcopies Hwdir. unfold forgetremoved. destruct branchmerge; intros H.
  - apply forget_fold in H as [(H1 & H2 & ->)|H]; [|by rewrite lookup_empty in H]. set_solver.
  - apply forget_fold in H as [(H1 & H2 & ->)|H]; [set_solver|].
    apply forget_fold in H as [(H1 & H2 & ->)|H]; [|by rewrite lookup_empty in H]. set_solver.
Qed.


(** The files the check for untracked files is about. *)
Lemma created_spec f :
  force = false ->
  (exists a, base !! f = Some a /\ match a.1 with Create _ | DeletedChanged _ _ => True | _ => False end)
  <-> m1 !! f = None /\ three_way (ma !! f) None (m2 !! f) ≠ Result None.
Proof.
  intros Hforce. pose proof (manifestmerge_spec o m1 m2 ma (a_node anc) branchmerge force acceptremote Hflags (a_narrow anc) f) as Hs.
  pose proof (manifestmerge_shape o m1 m2 ma (a_node anc) branchmerge force acceptremote Hflags (a_narrow anc) (fun _ => true) f) as Hsh.
  split.
  - intros (a & Ha & Hm). rewrite Ha in Hs. specialize (Hsh a Ha).
    assert (m1 !! f = None /\ is_Some (m2 !! f)) as [E1 [[n2 fl2] E2]] by (destruct a as [[] msg]; cbn in Hm, Hsh; tauto).
    split; [done|]. rewrite E1 in Hs. intros Htw. rewrite E2, <- E2, Htw, E2 in Hs. by destruct a as [[] msg].
  - intros [E1 Htw]. rewrite E1 in Hs, Hsh.
    destruct (m2 !! f) as [r|] eqn:E2; [|by rewrite three_way_same in Htw].
    assert (effect (base !! f) None (Some r) ≠ Result None) as Hne.
    { rewrite Hs. destruct (three_way _ _ _); cbn; [done|]. by destruct acceptremote. }
    destruct (base !! f) as [a|]; [|done]. exists a. split; [done|]. specialize (Hsh a eq_refl).
    destruct a as [[] msg]; cbn in *; try done; try (by destruct Hsh as [[? ?] _]). rewrite Hforce in Hsh. by destruct Hsh.
Qed.

Lemma abortconflicts_spec :
  force = false -> pathconfig w = false ->
  abortconflicts w base ≠ ∅
  <-> exists f, m1 !! f = None /\ three_way (ma !! f) None (m2 !! f) ≠ Result None /\ unknown w f f = true /\ config_of f = CheckAbort.
Proof.
  intros Hforce Hpath. assert (pathconflicts w base = ∅) as Hp.
  { apply set_eq. intros p. unfold pathconflicts. rewrite elem_of_list_to_set, list_elem_of_omap. split; [|set_solver].
    intros ([f a] & _ & H). unfold path_conflict in H. rewrite Hpath in H. by repeat case_match. }
  unfold abortconflicts. rewrite Hp, (right_id_L ∅ union). split.
  - intros (f & [H4 Hin]%elem_of_filter)%set_choose_L. unfold fileconflicts in Hin.
    apply elem_of_dom in Hin as [a Ha]. apply map_lookup_filter_Some in Ha as [Ha Hc]. cbn in Hc.
    pose proof (manifestmerge_shape o m1 m2 ma (a_node anc) branchmerge force acceptremote Hflags (a_narrow anc) (fun _ => true) f a Ha) as Hsh.
    assert (unknown w f f = true /\ match a.1 with Create _ | DeletedChanged _ _ => True | _ => False end) as [H3 Hm]
      by (clear Ha; destruct a as [[] msg]; try done; by destruct Hsh).
    destruct (proj1 (created_spec f Hforce)) as [H1 H2]; [by exists a|]. by exists f.
  - intros (f & H1 & H2 & H3 & H4) Hab. destruct (proj2 (created_spec f Hforce) (conj H1 H2)) as (a & Ha & Hm).
    apply (elem_of_empty (C := gset bytes) f). rewrite <- Hab. apply elem_of_filter. split; [exact H4|]. unfold fileconflicts.
    apply elem_of_dom. exists a. apply map_lookup_filter_Some. split; [done|]. cbn. unfold file_conflict. by destruct a as [[] msg].
Qed.

(** [C16] For one ancestor and no copies, and with the check for path conflicts off (the
    default of experimental.merge.checkpathconflicts), calculating the actions fails
    exactly when, without force, an untracked file or link is in the way of a file that
    the other revision brings, with other content, and the configuration says to abort
    for it.  The check for path conflicts has other causes to fail. *)
Theorem calculateupdates_aborts :
  pathconfig w = false ->
  (exists e, calculateupdates o m1 m2 w samelocal sameremote (fun _ => true) branchmerge force acceptremote mergeforce wdir [anc] = Err e)
  <-> force = false
      /\ exists f, m1 !! f = None /\ three_way (ma !! f) None (m2 !! f) ≠ Result None /\ unknown w f f = true /\ config_of f = CheckAbort.
Proof.
  intros Hpath. pose proof abortconflicts_spec as Hspec. unfold calculateupdates, ancestor_actions. rewrite Hcopies. unfold checkunknownfiles.
  destruct force.
  - split; [intros [e He]; cbn in He; by destruct wdir|by intros [? _]].
  - rewrite <- (Hspec eq_refl Hpath). case_decide as Hab; (split; [intros [e He]|intros [_ Hne]]).
    + cbn in He. by destruct wdir.
    + done.
    + done.
    + cbn. eauto.
Qed.

End Updates.

(** ** A concrete merge *)

Definition some_order : dict_order := {| items A (m : gmap bytes A) := map_to_list m; items_perm A m := Permutation_refl (map_to_list m) |}.

(** A working copy without untracked files. *)
Definition clean_workdir : workdir :=
  {| unknown _ _ := false; unknowndir _ := None; ignored _ := false; inwctx _ := false;
     unknownconfig := CheckAbort; ignoredconfig := CheckAbort; pathconfig := false |}.

Definition ex_base : ancestor :=
  {| a_manifest := {[bs "a" := (bs "1", []); bs "b" := (bs "2", []); bs "c" := (bs "3", [])]};
     a_node := bs "n"; a_copies := no_copies; a_narrow := true |}.
Definition ex_local : manifest := {[bs "a" := (bs "1", bs "x"); bs "b" := (bs "5", []); bs "c" := (bs "3", [])]}.
Definition ex_other : manifest := {[bs "a" := (bs "4", []); bs "b" := (bs "6", []); bs "d" := (bs "7", [])]}.

Lemma flags_ok_check m : forallb (fun x => bool_decide (x.2.2 ∈ [[]; bs "x"; bs "l"])) (map_to_list m) = true -> flags_ok m.
Proof.
  intros H f n fl E. rewrite forallb_forall in H. apply elem_of_map_to_list, list_elem_of_In in E.
  specialize (H _ E). by apply bool_decide_eq_true in H.
Qed.


(** The executable flag and the new content are both kept. *)
Example merged_both_sides :
  merged ex_local ex_other clean_workdir ex_base (fun _ => false) (fun _ => false) true false false false (bs "a") = Result (Some (bs "4", bs "x"))
  /\ merged ex_local ex_other clean_workdir ex_base (fun _ => false) (fun _ => false) true false false false (bs "b") = Conflict
  /\ merged ex_local ex_other clean_workdir ex_base (fun _ => false) (fun _ => false) true false false false (bs "c") = Result None.
Proof. vm_compute. done. Qed.

Definition messy_workdir : workdir :=
  {| unknown f _ := bool_decide (f = bs "d"); unknowndir _ := None; ignored _ := false; inwctx _ := false;
     unknownconfig := CheckAbort; ignoredconfig := CheckAbort; pathconfig := false |}.

Lemma calculateupdates_aborts_witness :
  exists e, calculateupdates some_order ex_local ex_other messy_workdir (fun _ => false) (fun _ => false) (fun _ => true) true false false false None [ex_base] = Err e.
Proof.
  apply (calculateupdates_aborts some_order ex_local ex_other messy_workdir ex_base (fun _ => false) (fun _ => false) true false false false None).
  - split; [|split]; apply flags_ok_check; vm_compute; reflexivity.
  - reflexivity.
  - exact I.
  - reflexivity.
  - split; [reflexivity|]. exists (bs "d"). split; [reflexivity|]. split; [vm_compute; discriminate|]. split; reflexivity.
Defined.

End MergeSpec.
