(* ===== verification/MergeAuction.v ===== *)
(** * Merging with several ancestors (the bids of [calculateupdates] in merge.py) *)

From S2P Require Import Prelude Lines Struct StoreNames MergeActions MergeSpec.

Module MergeAuction.
Import StoreNames MergeActions MergeSpec.

(** ** The bids for a file *)

(** In the order of the ancestors. *)
Definition bidders (all : list actions) (f : bytes) : list action := omap (fun acts => acts !! f) all.

(** By letter. *)
Definition group (l : list action) (m : bytes) : option (list action) :=
  match filter (fun a : action => letter a.1 = m) l with [] => None | l => Some l end.

Record collects (l : list action) (d : option bids) : Prop := {
  c_none : d = None <-> l = [];
  c_bid d' m : d = Some d' -> d' !! m = group l m;
}.

Lemma group_elem l m l' a : group l m = Some l' -> a ∈ l' <-> a ∈ l /\ letter a.1 = m.
Proof.
  unfold group. destruct (filter _ l) eqn:E; [done|]. intros [= <-]. rewrite <- E, list_elem_of_filter. tauto.
Qed.

Lemma group_snoc l a m : group (l ++ [a]) m = if decide (letter a.1 = m) then Some (default [] (group l m) ++ [a]) else group l m.
Proof.
  unfold group. rewrite filter_app. rewrite filter_cons, filter_nil. case_decide; [|by rewrite app_nil_r].
  destruct (filter _ l); [done|]. cbn. done.
Qed.

Lemma addbid_collects l d a : collects l d -> collects (l ++ [a]) (addbid d (Some a)).
Proof.
  intros [Hn Hb]. assert (forall m, default ∅ d !! m = group l m) as Hd.
  { intros m. destruct d as [d|]; [by apply Hb|]. cbn. rewrite lookup_empty. by rewrite (proj1 Hn eq_refl). }
  assert (addbid d (Some a) = Some (<[letter a.1 := default [] (default ∅ d !! letter a.1) ++ [a]]> (default ∅ d))) as -> by by destruct d.
  split; [split; [done|by intros [_ ?]%app_nil]|]. intros d' m [= <-]. rewrite group_snoc. case_decide as E.
  - subst m. by rewrite lookup_insert_eq, Hd.
  - by rewrite lookup_insert_ne, Hd.
Qed.

Lemma fbids_collects all f : collects (bidders all f) (fbids all !! f).
Proof.
  unfold fbids. induction all as [|acts all IH] using rev_ind; [cbn; rewrite lookup_empty; by split|].
  rewrite fold_left_app. cbn [fold_left]. rewrite lookup_merge.
  assert (forall d a, diag_None addbid d a = addbid d a) as -> by (by intros [] []).
  unfold bidders. rewrite omap_app. destruct (acts !! f) as [a|] eqn:Ea.
  - assert (omap (fun acts : actions => acts !! f) [acts] = [a]) as -> by (cbn; by rewrite Ea). by apply addbid_collects.
  - assert (omap (fun acts : actions => acts !! f) [acts] = []) as -> by (cbn; by rewrite Ea). rewrite app_nil_r.
    assert (forall d, addbid d None = d) as -> by by intros []. done.
Qed.

(** ** The choice *)

Lemma agreed_elem l a : agreed l = Some a -> a ∈ l.
Proof. destruct l; cbn; [done|]. case_match; [|done]. intros [= ->]. by left. Qed.

Lemma group_in l a : a ∈ l -> exists l', group l (letter a.1) = Some l' /\ a ∈ l'.
Proof.
  intros Ha. unfold group. assert (a ∈ filter (fun b : action => letter b.1 = letter a.1) l) as H by by apply list_elem_of_filter.
  destruct (filter _ l) as [|b l']; [by apply elem_of_nil in H|]. eauto.
Qed.

Section Choice.
Variables (o : dict_order) (l : list action) (d : bids).
Hypothesis Hd : collects l (Some d).

Lemma group_of m : d !! m = group l m.
Proof. by apply (c_bid _ _ Hd). Qed.

Lemma items_bids m l' : (m, l') ∈ items o d -> l' ≠ [] /\ forall a, a ∈ l' -> a ∈ l /\ letter a.1 = m.
Proof.
  intros Hin. assert (group l m = Some l') as Hg.
  { rewrite <- group_of. apply elem_of_map_to_list. by rewrite <- (items_perm o). }
  split; [unfold group in Hg; by destruct (filter _ l); simplify_eq|]. intros a Ha. by eapply group_elem in Ha.
Qed.

Lemma items_letter a : a ∈ l -> exists l', (letter a.1, l') ∈ items o d.
Proof.
  intros (l' & Hg & _)%group_in. exists l'. rewrite (items_perm o). apply elem_of_map_to_list. by rewrite group_of.
Qed.

Lemma items_nonempty : exists m a l' xs, items o d = (m, a :: l') :: xs /\ a ∈ l.
Proof.
  assert (exists a, a ∈ l) as [a Ha].
  { destruct l as [|a l']; [|exists a; by left]. by pose proof (proj2 (c_none _ _ Hd) eq_refl). }
  destruct (items_letter a Ha) as [l' Hin]. destruct (items o d) as [|[m [|b lb]] xs] eqn:E; [by apply elem_of_nil in Hin|..].
  - destruct (items_bids m []) as [? _]; [rewrite E; by left|done].
  - exists m, b, lb, xs. split; [done|]. destruct (items_bids m (b :: lb)) as [_ H]; [rewrite E; by left|]. apply (H b). by left.
Qed.

Lemma letter_keep (a : action) : letter a.1 = bs "k" -> a.1 = Keep.
Proof. by destruct a as [[] ?]. Qed.

(** Some bid is chosen, a keep before all others. *)
Lemma choose_spec : exists a, choose o d = Some a /\ a ∈ l /\ ((exists msg, (Keep, msg) ∈ l) -> a.1 = Keep).
Proof.
  unfold choose. set (pick := match d !! bs "k" with Some (_ :: _) => _ | _ => _ end).
  assert (exists a, pick = Some a /\ a ∈ l /\ ((exists msg, (Keep, msg) ∈ l) -> a.1 = Keep)) as (a & Hp & Ha).
  { unfold pick. rewrite !group_of. destruct (group l (bs "k")) as [[|a lk]|] eqn:Ek.
    - unfold group in Ek. by destruct (filter _ l).
    - exists a. destruct (proj1 (group_elem _ _ _ a Ek) ltac:(by left)) as [H1 H2]. split; [done|]. split; [done|]. intros _. by apply letter_keep.
    - assert (~ exists msg, (Keep, msg) ∈ l) as Hno.
      { intros [msg (l' & Hg & _)%group_in]. change (group l (bs "k") = Some l') in Hg. congruence. }
      destruct (group l (bs "g") ≫= agreed) as [a|] eqn:Eg.
      + exists a. split; [done|]. split; [|done]. destruct (group l (bs "g")) as [lg|] eqn:Egg; [|done].
        by apply agreed_elem, (group_elem _ _ _ _ Egg) in Eg as [Eg _].
      + destruct items_nonempty as (m & a & l' & xs & E & Hin). rewrite E. by exists a. }
  destruct (items o d) as [|[m lm] [|? ?]] eqn:E; [by exists a| |by exists a].
  destruct (agreed lm) as [b|] eqn:Eb; [|by exists a]. exists b. split; [done|].
  destruct (items_bids m lm) as [_ H]; [rewrite E; by left|]. apply agreed_elem in Eb. destruct (H b Eb) as [H1 H2]. split; [done|].
  intros [msg Hk]. destruct (items_letter _ Hk) as [l' Hin]. rewrite E in Hin. apply list_elem_of_singleton in Hin.
  injection Hin as Hm _. apply letter_keep. change (bs "k" = m) in Hm. congruence.
Qed.

End Choice.

(** ** The auction *)

Section Auction.
Variables (o : dict_order) (m1 m2 : manifest) (w : workdir).
Variables (branchmerge force acceptremote mergeforce : bool).

(** An ancestor from which no copies are followed, all its differences asked
    for. *)
Definition wide (a : ancestor) : ancestor :=
  {| a_manifest := a_manifest a; a_node := a_node a; a_copies := no_copies; a_narrow := false |}.

Record plain_ancestor (a : ancestor) : Prop := {
  p_flags : flags_ok m1 /\ flags_ok m2 /\ flags_ok (a_manifest a);
  p_copies : a_copies a = no_copies;
}.

(** The outcome of the three-way merge with an ancestor. *)
Definition bid (a : ancestor) (f : bytes) : outcome :=
  if untracked m1 m2 w a branchmerge force mergeforce f then Conflict
  else settle acceptremote false (m1 !! f) (m2 !! f) (three_way (a_manifest a !! f) (m1 !! f) (m2 !! f)).

Notation actions_of a := (ancestor_actions o m1 m2 w (fun _ => true) branchmerge force acceptremote mergeforce false a).

Lemma bid_effect a acts f :
  plain_ancestor a -> actions_of a = Ok acts -> effect (acts !! f) (m1 !! f) (m2 !! f) = bid a f.
Proof.
  intros [Hf Hc] H. unfold ancestor_actions in H. rewrite Hc in H.
  exact (checked_effect o m1 m2 w (wide a) branchmerge force acceptremote mergeforce None Hf eq_refl I acts f H).
Qed.

(** Without copies nothing is moved with its directory. *)
Lemma bid_no_move a acts f x chosen :
  plain_ancestor a -> actions_of a = Ok acts -> acts !! f = Some x -> moves_removed chosen x = false.
Proof.
  intros [Hf Hc] H Hx. unfold ancestor_actions in H. rewrite Hc in H.
  destruct (checkunknown_lookup w force mergeforce _ _ f H) as (fc & pc & E). rewrite E in Hx.
  pose proof (manifestmerge_shape o m1 m2 (a_manifest a) (a_node a) branchmerge force acceptremote Hf false (fun _ => true) f) as Hsh.
  destruct (manifestmerge _ _ _ _ _ _ _ _ _ _ _ !! f) as [y|]; [|done]. specialize (Hsh y eq_refl). injection Hx as <-.
  destruct y as [[] msg]; try done; destruct force; try done. unfold force_action. cbn. by repeat case_match.
Qed.

Lemma bid_keep a acts f e :
  plain_ancestor a -> actions_of a = Ok acts -> m1 !! f ≠ m2 !! f -> is_Some (m1 !! f) -> m2 !! f = Some e -> a_manifest a !! f = Some e ->
  exists msg, acts !! f = Some (Keep, msg).
Proof.
  intros [Hf Hc] H Hne [[n1 fl1] E1] E2 Ea. unfold ancestor_actions in H. rewrite Hc in H.
  destruct (checkunknown_lookup w force mergeforce _ _ f H) as (fc & pc & E). rewrite E.
  rewrite manifestmerge_lookup by done. rewrite decide_False by done. cbn [negb orb andb]. destruct e as [n2 fl2]. rewrite E1, E2.
  cbn [decide_file]. unfold on_both. rewrite Ea, !bool_decide_eq_true_2 by done. cbn. destruct force; eauto.
Qed.

Lemma all_actions_elem ancs l :
  all_actions o m1 m2 w (fun _ => true) branchmerge force acceptremote mergeforce ancs = Ok l ->
  (forall acts, acts ∈ l -> exists a, a ∈ ancs /\ actions_of a = Ok acts)
  /\ (forall a, a ∈ ancs -> exists acts, acts ∈ l /\ actions_of a = Ok acts).
Proof.
  revert l. induction ancs as [|a ancs IH]; intros l; cbn.
  - intros [= <-]. split; intros ? Hx; by apply elem_of_nil in Hx.
  - intros (acts & Ha & (l' & Hl & [= <-])%rbind_Ok)%rbind_Ok. destruct (IH l' Hl) as [H1 H2]. split.
    + intros acts' [->|Hin]%elem_of_cons; [exists a; split; [by left|done]|]. destruct (H1 _ Hin) as (b & Hb & E). exists b. split; [by right|done].
    + intros b [->|Hin]%elem_of_cons; [exists acts; split; [by left|done]|]. destruct (H2 _ Hin) as (acts' & Hb & E). exists acts'. split; [by right|done].
Qed.


End Auction.

(** The shortest set of warnings is kept of the one kind, the longest of the
    other. *)
Lemma track_longest {A B} (ws : list (list A * list B)) kept d r :
  fold_left track ws kept = (Some d, Some r) ->
  (forall w, w ∈ ws -> zlen d <= zlen w.1) /\ (forall w, w ∈ ws -> zlen w.2 <= zlen r)
  /\ (forall d0, kept.1 = Some d0 -> zlen d <= zlen d0) /\ (forall r0, kept.2 = Some r0 -> zlen r0 <= zlen r).
Proof.
  revert kept. induction ws as [|x ws IH]; intros kept; cbn.
  - intros ->. split_and!; try (intros ? []%elem_of_nil); intros ? [= <-]; lia.
  - intros (H1 & H2 & H3 & H4)%IH. unfold track in H3, H4. cbn in H3, H4.
    assert (zlen d <= zlen x.1 /\ forall d0, kept.1 = Some d0 -> zlen d <= zlen d0) as [H5 H6].
    { destruct kept.1 as [d0|]; [|split; [by apply H3|done]]. specialize (H3 (if decide (zlen x.1 < zlen d0) then x.1 else d0)).
      case_decide; specialize (H3 eq_refl); split; try intros ? [= <-]; lia. }
    assert (zlen x.2 <= zlen r /\ forall r0, kept.2 = Some r0 -> zlen r0 <= zlen r) as [H7 H8].
    { destruct kept.2 as [r0|]; [|split; [by apply H4|done]]. specialize (H4 (if decide (zlen r0 < zlen x.2) then x.2 else r0)).
      case_decide; specialize (H4 eq_refl); split; try intros ? [= <-]; lia. }
    split_and!; try done; intros w [->|Hw]%elem_of_cons; auto.
Qed.

(** Two ancestors, of which one has the file as the other side does. *)
Definition ex_base2 : ancestor :=
  {| a_manifest := {[bs "b" := (bs "6", [])]}; a_node := bs "n2"; a_copies := no_copies; a_narrow := false |}.


End MergeAuction.
